(* ===== verification/_CoqProject ===== *)
-Q . S2P
Prelude.v
Text.v
Trim.v
GraphTypes.v
SemanticGraph.v
ChangeModel.v
Normalize.v
Payload.v
Canonical.v
OpSchema.v
Apply.v
Pipeline.v
Rebase.v
Remote.v
Coordinator.v
I64.v
Anf.v
ConstFold.v
Dce.v
AnfEval.v
Inline.v
Cse.v
WasmMachine.v
WasmInt.v
Optimizer.v
Packages.v
Ordering.v
OptimizerDiag.v
Namespaces.v
CoreIr.v
Lower.v
CoreEval.v
LowerSound.v
Versioning.v
PackagePolicy.v
Signing.v
Resolver.v
ResolverDiagnostics.v
Lockfile.v
Profile.v
RateLimits.v
Transaction.v
Handles.v
ValueCodec.v
Dispatch.v
Preflight.v
Schema.v
RuntimeHost.v
Storage.v
SnapshotChains.v
SnapshotDiag.v
Retention.v
VerifySolver.v
VerifyReport.v
VerifyProof.v
VerifyPolicy.v
VerifyCheckers.v
VerifyTrust.v
Search.v
VerifyImpact.v
VerifyStages.v
VerifyPackages.v
VerifyPipeline.v
AclText.v
SolverSound.v
VerifyTypes.v
VerifyTranslation.v
AclParser.v
AclPrint.v
VerifySystem.v
ExprParser.v
ExprRoundtrip.v
Frontend.v
CompileSound.v
ContextTypes.v
ContextSelection.v
ContextBuilder.v
ContextServer.v
