(* ===== verification/Prelude.v ===== *)
(** * AIL toolchain: a verification library (root file and shared prelude)

    The repository (crates/ail-...) is the toolchain of AIL, a language whose
    programs are semantic graphs.  Agents change a graph by submitting
    ChangeSets, written in the ACL notation; the toolchain canonicalises a
    ChangeSet, checks and applies it atomically, merges concurrent work,
    exchanges ChangeSets and object bundles with remote peers, stores snapshots,
    compiles the result to WebAssembly, runs it under capability grants, and
    resolves and locks the packages it is made of.  A verifier checks a
    changed graph and decides whether it is accepted, and a context server shows
    agents slices of a graph.  This library models these
    parts and proves the properties on which their correctness rests.

    ** Parts and files

    The graph and its checks
    - GraphTypes.v: the data model, ail-core/src/semantic_graph/types.rs.
    - SemanticGraph.v: [validate] and [validate_full]
      (semantic_graph/validation.rs), the adjacency index (graph_index.rs).

    ChangeSets, from the parsed document to the graph (crate ail-change)
    - ChangeModel.v: raw, parsed and canonical ChangeSets (model.rs,
      parser_types.rs, canonical/model.rs) and the class [HashBackend].
    - Normalize.v: identifiers and default arguments (canonical/normalize.rs,
      canonical/defaults.rs).
    - Payload.v: [materialize_payload] (canonical_ops.rs).
    - Canonical.v: phase order, block hashes, expansion of [infer_boundary],
      version migration and both canonicalisers (canonical.rs,
      canonical/hash.rs, expand.rs, parsed.rs, acl_migrator.rs).
    - OpSchema.v: the schema registry (op_schema.rs) and the parser's verb table.
    - AclText.v, AclParser.v, AclPrint.v: the ACL parser (parser.rs), what it uses
      of [str], and a printer for its round trip.
    - Apply.v: preconditions, payload application and [apply] (apply.rs).
    - Pipeline.v: a document taken through canonicalisation and [apply].
    - Rebase.v: structural diffs, rebase, conflicts and merge (rebase.rs,
      ail-coordinator/src/conflict.rs).

    Coordination and exchange
    - Remote.v: signer policy, agent identities and signatures, object bundles
      and the exchange messages (crate ail-remote).
    - Coordinator.v: the coordinator's handlers (ail-coordinator/src/
      coordinator.rs) as atomic steps on its locked state.

    The compiler (crate ail-compiler)
    - I64.v: the [i64] operations of the Rust standard library.
    - Anf.v: the ANF expressions (anf.rs) and the analyses on them
      (optimize/purity.rs, pattern_string.rs, wasm_abi/bindings.rs).
    - ConstFold.v, Dce.v: constant folding with dead-let elimination and
      dead-element elimination (optimize/const_fold.rs, optimize/dce.rs).
    - CoreIr.v, ExprParser.v: the Core IR (core_ir/) and the parser of function
      bodies (expr_parser.rs, expr_parser_helpers.rs); ExprRoundtrip.v: a printer
      of bodies and the round trip.
    - Lower.v: the lowering of Core expressions to ANF (lower/lower_expr/).
      CoreEval.v, LowerSound.v: evaluators of Core and ANF expressions on an
      abstract machine, and the soundness of the lowering.
    - Frontend.v: from a verified graph to ANF (lower.rs, lower/lower_items.rs,
      anf_source_map.rs, hash.rs, error.rs).  CompileSound.v: what a compiled
      function computes.
    - AnfEval.v: a reference evaluator and the soundness of the passes.
    - Inline.v, Cse.v: inlining and common subexpressions (optimize/inline.rs,
      optimize/cse.rs); OptimizerDiag.v: their diagnostics
      (optimize/diagnostics.rs).
    - WasmMachine.v, WasmInt.v: a machine for the instructions emitted for
      integer calls, and the emitters (wasm_emit/int.rs, mod.rs, control.rs,
      expr/calls.rs).
    - Optimizer.v: the guarantees of the passes on a module's bindings.

    Packages (crate ail-package)
    - Packages.v: trust tiers, manifests, assumptions and validation (trust.rs,
      manifest.rs, verification.rs, assumption.rs and the small data files).
    - Versioning.v: requirements, compatibility, migrations (versioning.rs).
    - PackagePolicy.v: trust gate, capability rules, production policy and
      advisories (policy.rs, advisory.rs).
    - Signing.v: signatures, trust reports, transparency log and registry
      (signing.rs, registry.rs, yank.rs).
    - Resolver.v, ResolverDiagnostics.v: [resolve], [resolve_all] and
      [conflict_diagnostics] (resolver.rs).
    - Namespaces.v: namespaces, ownership of symbols and the coherence of
      implementations (namespace.rs, coherence.rs).
    - Lockfile.v: building, validating and replaying lockfiles (lockfile.rs).

    The runtime (crate ail-runtime)
    - Profile.v, RateLimits.v, Transaction.v, Handles.v: grants, revocations and
      limits (profile.rs), rate windows (host_dispatch/limits.rs), transaction
      groups (transaction.rs), reference-counted handles (codec.rs).
    - ValueCodec.v: the decoder of guest values (codec.rs, handler.rs).
    - Dispatch.v: both host-call entry points of a guest (host_dispatch/).
    - Preflight.v: the stages before a module runs (host_preflight.rs,
      host_dispatch/instantiate.rs, error.rs, manifest.rs).
    - Schema.v: the key=value protocol (schema.rs).
    - RuntimeHost.v: [RuntimeHost] (host.rs).

    Storage (crate ail-storage)
    - Storage.v: objects, snapshots, branches, tags, tombstones (object.rs,
      backends/memory.rs, graph.rs, branch.rs, tag.rs, tombstone.rs).
    - SnapshotChains.v, SnapshotDiag.v: parent chains and the diagnostics
      (graph.rs, retention.rs).
    - Retention.v: policies, holds, collection, compaction (retention.rs).

    The verifier (crate ail-verify)
    - VerifyReport.v: entries, diagnostics, reports and their canonical order for
      CI (report.rs, diagnostic.rs).
    - VerifySolver.v: the solver and the implication test (solver.rs, proof.rs);
      SolverSound.v: what its verdicts on lower bounds mean for integers.
    - VerifyProof.v: proof obligations and their ledger (proof.rs).
    - VerifyPolicy.v: profile gates, rules, approvals and the decision with its
      audit (policy.rs).
    - VerifyCheckers.v, VerifyTrust.v: effects, contracts, concurrency; resources,
      boundaries, artifacts and manifests (the *_checker.rs files).
    - Search.v: the breadth-first search that the impact analysis uses.
    - VerifyImpact.v, VerifyStages.v: the stages on refinements, invariants,
      ChangeSets and ANF (pipeline/core_stages.rs, changeset_stages.rs,
      anf_stages.rs).
    - VerifyPackages.v: package trust (package_checker.rs).
    - VerifyTypes.v: the type checker with its refinement passes and diagnostics
      (type_checker/, type_obligations.rs, type_refinements/, type_diagnostics.rs).
    - VerifyTranslation.v: the translation validator (translation_validator.rs,
      tv_obligations.rs).
    - VerifyPipeline.v: every stage in order, and the decision (pipeline.rs).
    - VerifySystem.v: the pipeline with the parser, the type checker and the
      translation validator in it.

    The context server (crate ail-context)
    - ContextTypes.v: queries, budgets, responses, errors (dto/, error.rs).
    - ContextSelection.v: what a query selects (selection.rs).
    - ContextBuilder.v: redaction, budget and the response (builder.rs,
      assembly.rs, redaction.rs, freshness.rs, summary.rs).
    - ContextServer.v: sources, sessions, the index cache, JSON-RPC and the stdio
      loop (source.rs, server.rs, transport.rs).

    Text.v and Trim.v hold strings and bytes, Ordering.v comparisons, stable
    sorting and ordered iteration, this file results, vectors, sorting and maps.

    ** How state and operations correspond to the code

    A Rust function is a Coq function of the same name; [&mut] parameters are
    returned; [Result] is [result], with [let?] for the [?] operator; an enum is
    an inductive type, a struct a record.  Sequences are lists, [BTreeMap] and
    [HashMap] are [gmap], [BTreeSet] is [gset]; iteration in key order is
    [map_iter] and [set_iter], iteration of a [HashMap] whose order matters is
    the class [HashOrder] or [MapOrder].  Unsigned integers are [N] with their wrap-around
    written out ([u64_add], [as_u32]), [i64] is [Z] with [wrap].  Messages inside
    errors are kept as the values they are formatted from.  [SemanticGraph] keeps
    its nodes and edges in insertion order, as the code does, and operations that
    search take the first match.  A handler that runs under one mutex is one
    step: [Coordinator.reachable] is every interleaving of the clients' requests,
    a run of the runtime is a list of guest and host calls.

    Third-party code is a parameter, a class of operations with a class of laws:
    BLAKE3 and CBOR ([HashBackend], [PackageCodec], [MigrationCodec],
    [StorageCodec], [ManifestCodec]), Ed25519 and the encodings of ail-remote
    ([RemoteBackend], [RemoteLaws]), SemVer ([SemverBackend]; [Semver] with
    [SemverLaws]), Wasmtime ([Engine]); so is what the standard library leaves open,
    [sort_by] with a comparison that is no total order ([UnspecifiedSort]: any
    permutation, or a panic).  Where a digest matters proofs say
    "equal, or a hash collision".  Concrete instances show that the laws can
    hold.  What a called function computes is the class [CallSemantics]; the
    optimiser is verified against the interface [FoldingLaws], and the instance
    [wasm_folding_laws] shows that the generated code implements it.  The stores
    of ail-storage are verified against [ObjectStoreLaws], which the in-memory
    store implements.

    ** What is shown

    - The coordinator refines a serial log of atomic op lists, in every
      interleaving; its reachable states satisfy an invariant; [submit] and the
      remote gate are specified on every branch.
    - [apply] is atomic, its success and its errors are characterised, it
      preserves well-formedness, and a payload changes what it names only.
    - An accepted rebase commutes with the committed ops; merge has the expected
      nodes and edges, and algebraic laws.
    - Canonicalisation orders the ops of a document without [infer_boundary] ops by
      the documented phases, with normalised arguments and defaults;
      block hashes are distinct up to a collision; migration terminates.
    - [validate] and [validate_full] decide their specifications and agree.
    - Bundles, keys and signatures round trip; integrity checking is exact.
    - The body parser terminates, panics only at white space of several bytes, and
      reads back every source form; lowering preserves every run that ends, effects
      and early exits included, and a compiled effect-free function computes what
      its source text means, for bodies whose names are not those of temporaries and
      whose returned values are variables ([core_ok]).  What is compiled has an accepted
      report and a valid graph, is traceable to its nodes, and is sealed by a
      hash of all stages; production profiles ask for exactly the provenance
      they name.
    - The emitted integer code computes what the constant folder folds, and the
      optimiser's passes preserve values, names, provenance and effects.
    - A guest reaches the world only through granted, unrevoked capabilities and
      trusted handlers, within its budget and rate limits; responses stay in the
      buffer offered; every readable call is audited; a revocation is final.
    - Preflight admits exactly the modules that satisfy every stage.
    - Collection keeps exactly the retained and held snapshots with their envelopes
      and graph roots, and so all that belongs to them where they name no other
      stored records (audit records and migration metadata are deleted); the
      history of a branch survives; the snapshot diagnostics pass exactly on healthy
      stores.
    - Publishing, upgrade, policy and advisory gates decide their specifications.
    - Resolution yields exactly the best admissible manifests, independently of
      order; import cycles are reported exactly, each once up to rotation; clean
      dependencies fail for policy reasons only; a lockfile validates exactly when it
      is reproducible and, without unsafe packages and with one build per release,
      replays to what it was built from.  A registry holds exactly the packages
      whose signatures verify, and its log records them.
    - A report that a profile gate accepts speaks of a valid graph whose effects
      are declared, without false contracts, and whose primitives and resources
      obey their discipline or have an approval; [critical] and unknown profiles
      ask for the whole evidence.  An invariant is proven exactly when declared
      dependencies cover the changes connected to it.  Strict and unknown profiles
      admit only proven, checked or duly approved entries; the solver is sound on
      lower bounds, and the predicates it accepts without proof are listed;
      canonicalisation gives equivalent reports one form.  All this supposes that the
      rules of a run hold the gate of its profile.
    - A graph without failed type entries declares its effects and capabilities
      along calls and passes arguments of the declared types; the translation
      validator fails exactly the graphs whose bodies use undeclared effects or
      lack evidence, on bodies it can read; an accepted run of the whole verifier
      implies both, and a submitted text that parses to a well-formed ChangeSet.
    - The ACL parser reads back every printed ChangeSet, and what it returns is
      well formed.
    - A context query selects exactly the nodes reachable along its edge kinds, which
      for thirteen kinds of query is what their documentation asks for; a
      response is exactly the visible part within its byte budget; the contents of
      withheld nodes do not influence it; the index cache is transparent; what a
      session sees is bounded by the trust level it claims.
    Some theorems state behaviour that surprises: a document numbered from 0 is
    refused by a graph that has a node 0, the temporaries of a computed return
    value are lost, synthesised ops break the phase order,
    a stale base is compared with the last commit only, the optimiser loses an
    effect inside a discarded tuple or the duration of a timeout, the start
    function of a module runs before the trust of its handlers is checked, and
    compaction leaves parents that do not load.

    ** Bounds and fuel

    Loops the code does not bound take fuel, with a proof that it suffices:
    [migration_fuel] (one more than the chain has migrators), [walk_fuel] (one
    more than there are snapshots: [walk_total]), [graph_fuel] and [visit_fuel]
    for the resolver's worklist and search ([dependency_graph_total],
    [visit_total]).  [list_turns] counts the elements a list decoder reads.
    The searches of the impact analysis take one step per queued node, at most
    1 + 2 * edges of them ([bfs_exact] shows that this is enough); the searches
    of the context queries carry the same fuel ([walk_exact]).  The argument loop
    of the ACL parser and the inference of body types consume their text
    ([kv_loop_enough], [infer_expr_enough]).  The body parser has 2 * length + 2
    steps ([parse_shrinks]).  The loop fuel of the evaluators [crun] and [arun] is
    a bound on rounds in the specification, the same on both sides.
    All other definitions are structurally recursive; the WASM machine passes over
    the code once.  Case operations on strings are those of ASCII; the source
    calls the Unicode ones, which agree on ASCII identifiers.

    ** Not modelled

    I/O, databases, network transport, command line and the inside of Wasmtime
    are outside.  The snapshot bridge is its counter, without the object store it
    wraps.  The JSON encoder of the verifier, the CBOR encodings of the context
    server ([ContextCodec]) and the compiler ([Encoding]), the parsing of a JSON
    request and of a decimal number are parameters; the theorems hold for all of
    them.  Of the code generators the integer emitters are modelled; the rest of
    the WebAssembly emitter and the native back end lay out memory through
    third-party encoders.  The builtins of the standard library, recorded replay
    of the runtime, the HTTP transports and the advisory diagnostics of Core IR
    are not modelled. *)

From stdpp Require Export base tactics list strings countable gmap sorting.
From Stdlib Require Export ZArith Lia.

(* ------------------------------------------------------------------ *)
(** ** Results: Rust's [Result<A, E>] *)

Inductive result (A E : Type) : Type :=
| Ok (a : A)
| Err (e : E).
Arguments Ok {A E} a.
Arguments Err {A E} e.

#[global] Instance result_eq_dec `{EqDecision A, EqDecision E} : EqDecision (result A E).
Proof. solve_decision. Defined.

Definition is_ok {A E} (r : result A E) : bool :=
  match r with Ok _ => true | Err _ => false end.

Declare Scope ail_scope.
Delimit Scope ail_scope with ail.

(** The [?] operator: bind the success value, return the error otherwise. *)
Notation "'let?' x := r 'in' k" :=
  (match r with Ok x => k | Err e => Err e end)
  (at level 10, x pattern, r at level 100, k at level 200) : ail_scope.
Open Scope ail_scope.

(** Checks in a row pass when each of them passes. *)
Lemma seq_ok {E} (a b : result unit E) : (let? _ := a in b) = Ok () ↔ a = Ok () ∧ b = Ok ().
Proof. destruct a as [[]|]; [tauto|]. split; [done|by intros [? _]]. Qed.

(* ------------------------------------------------------------------ *)
(** ** Slices and vectors

    [find_first P l] is [l.iter().find(P)]; [update_first P f l] is
    [if let Some(x) = l.iter_mut().find(P) { *x = f(x) }]: both stop at the
    first match.  [v.retain(P)] is stdpp's [filter P v], [v.iter().any(P)]
    is [any P v]. *)

Section FirstMatch.
Context {A : Type} (P : A → Prop) {P_dec : ∀ x, Decision (P x)}.

Fixpoint find_first (l : list A) : option A :=
  match l with
  | [] => None
  | x :: l' => if decide (P x) then Some x else find_first l'
  end.

Fixpoint update_first (f : A → A) (l : list A) : list A :=
  match l with
  | [] => []
  | x :: l' => if decide (P x) then f x :: l' else x :: update_first f l'
  end.

Definition any (l : list A) : bool := bool_decide (Exists P l).

Lemma find_first_Some l x : find_first l = Some x → x ∈ l ∧ P x.
Proof.
  induction l as [|y l IH]; simpl; [done|].
  case_decide; intros; simplify_eq; set_solver.
Qed.

(** [find_first] against stdpp's search, which also gives the position *)
Lemma find_first_list_find l : find_first l = snd <$> list_find P l.
Proof.
  induction l as [|x l IH]; simpl; [done|]. case_decide; [done|]. rewrite IH.
  by destruct (list_find P l) as [[]|].
Qed.

Lemma find_first_None l : find_first l = None ↔ ∀ x, x ∈ l → ¬ P x.
Proof.
  induction l as [|y l IH]; simpl; [set_solver|].
  case_decide as HP; split; try done; intros H.
  - by specialize (H y (list_elem_of_here _ _)).
  - intros x [->|Hx]%elem_of_cons; [done|]. by apply IH.
  - apply IH. set_solver.
Qed.

Lemma find_first_is_Some l : is_Some (find_first l) ↔ ∃ x, x ∈ l ∧ P x.
Proof.
  rewrite <- not_eq_None_Some, find_first_None. split.
  - intros H. destruct (find_first l) as [x|] eqn:E.
    + by apply find_first_Some in E as [? ?]; eauto.
    + rewrite find_first_None in E. naive_solver.
  - naive_solver.
Qed.

Lemma any_true l : any l = true ↔ ∃ x, x ∈ l ∧ P x.
Proof. unfold any. rewrite bool_decide_eq_true. apply Exists_exists. Qed.

Lemma any_false l : any l = false ↔ ∀ x, x ∈ l → ¬ P x.
Proof.
  rewrite <- not_true_iff_false, any_true. naive_solver.
Qed.

(** A projection that [f] leaves alone is left alone by the update. *)
Lemma update_first_fmap {B} (g : A → B) f l :
  (∀ x, P x → g (f x) = g x) → g <$> update_first f l = g <$> l.
Proof.
  intros Hf. induction l as [|x l IH]; simpl; [done|].
  case_decide; csimpl; [by rewrite Hf|by rewrite IH].
Qed.

Lemma update_first_none f l : (∀ x, x ∈ l → ¬ P x) → update_first f l = l.
Proof.
  induction l as [|x l IH]; simpl; intros H; [done|].
  rewrite decide_False by set_solver. by rewrite IH by set_solver.
Qed.

Lemma update_first_id f l : (∀ x, P x → f x = x) → update_first f l = l.
Proof.
  intros Hf. induction l as [|x l IH]; simpl; [done|].
  case_decide; [by rewrite Hf|by rewrite IH].
Qed.

Lemma update_first_app f l k :
  (∀ x, x ∈ k → ¬ P x) → update_first f (l ++ k) = update_first f l ++ k.
Proof.
  intros Hk. induction l as [|x l IH]; simpl; [by apply update_first_none|].
  case_decide; [done|]. by rewrite IH.
Qed.

(** Applying an update twice is applying the composed update once, as long
    as the updated element is still the first match. *)
Lemma update_first_twice f g l :
  (∀ x, P x → P (f x)) →
  update_first g (update_first f l) = update_first (λ x, g (f x)) l.
Proof.
  intros Hf. induction l as [|x l IH]; simpl; [done|].
  case_decide as HP; simpl.
  - by rewrite decide_True by auto.
  - rewrite decide_False by done. by rewrite IH.
Qed.

(** [update_first] commutes with a [filter] that keeps every match. *)
Lemma update_first_filter (Q : A → Prop) {Q_dec : ∀ x, Decision (Q x)} f l :
  (∀ x, P x → Q x) → (∀ x, P x → Q (f x)) →
  update_first f (filter Q l) = filter Q (update_first f l).
Proof.
  intros HPQ HfQ. induction l as [|x l IH]; simpl; [done|].
  destruct (decide (P x)) as [HP|HP].
  - rewrite (filter_cons_True Q x l) by auto.
    rewrite (filter_cons_True Q (f x) l) by auto. simpl.
    by rewrite decide_True by done.
  - destruct (decide (Q x)) as [HQ|HQ].
    + rewrite !filter_cons_True by done. simpl.
      rewrite decide_False by done. by rewrite IH.
    + by rewrite !filter_cons_False by done.
Qed.

(** When at most one element matches, updating the first match is updating
    every match. *)
Lemma update_first_unique f l :
  (∀ i j x y, l !! i = Some x → l !! j = Some y → P x → P y → i = j) →
  update_first f l = (λ x, if decide (P x) then f x else x) <$> l.
Proof.
  induction l as [|x l IH]; intros Hu; csimpl; [done|].
  case_decide as HP.
  - f_equal. assert (Hl : Forall (λ y, ¬ P y) l).
    { apply Forall_lookup. intros i y Hy HPy.
      by specialize (Hu 0 (S i) x y eq_refl Hy HP HPy). }
    clear -Hl. induction Hl; csimpl; [done|]. rewrite decide_False by done.
    by f_equal.
  - f_equal. apply IH. intros i j a b Ha Hb HPa HPb.
    specialize (Hu (S i) (S j) a b Ha Hb HPa HPb). by simplify_eq.
Qed.
End FirstMatch.

Lemma bind_nil_iff {A B} (f : A → list B) (l : list A) :
  l ≫= f = [] ↔ ∀ x, x ∈ l → f x = [].
Proof.
  induction l as [|x l IH]; csimpl; [set_solver|].
  rewrite app_nil, IH. set_solver.
Qed.

Lemma exists_elem_cons {A} (P : A → Prop) x l :
  (∃ y, y ∈ x :: l ∧ P y) ↔ P x ∨ ∃ y, y ∈ l ∧ P y.
Proof.
  split; [|intros [?|(y & ? & ?)]; [exists x|exists y]; split; try done; by constructor].
  intros (y & [->|?]%elem_of_cons & Hy); eauto.
Qed.

Lemma omap_nil_iff {A B} (f : A → option B) l : omap f l = [] ↔ ∀ x, x ∈ l → f x = None.
Proof.
  split.
  - intros Hn x Hx. destruct (f x) as [y|] eqn:E; [|done].
    assert (y ∈ omap f l) as Hy by (apply list_elem_of_omap; eauto). rewrite Hn in Hy. by apply not_elem_of_nil in Hy.
  - intros Hf. induction l as [|x l IH]; cbn; [done|]. rewrite (Hf x) by left. apply IH. intros y Hy. apply Hf. by right.
Qed.

Lemma any_cons {A} (P : A → Prop) `{∀ x, Decision (P x)} x l : any P (x :: l) = bool_decide (P x) || any P l.
Proof.
  apply eq_bool_prop_intro. rewrite orb_True, !Is_true_true, !any_true, bool_decide_eq_true. apply exists_elem_cons.
Qed.

Lemma bool_decide_is_true (b : bool) : bool_decide (b = true) = b.
Proof. by destruct b. Qed.

Lemma fmap_nil_iff {A B} (f : A → B) (l : list A) : f <$> l = [] ↔ l = [].
Proof. by destruct l. Qed.

Lemma filter_nil_iff {A} (P : A → Prop) {P_dec : ∀ x, Decision (P x)} (l : list A) :
  filter P l = [] ↔ ∀ x, x ∈ l → ¬ P x.
Proof.
  induction l as [|x l IH]; [set_solver|]. rewrite filter_cons.
  case_decide; [split; [done|set_solver]|]. rewrite IH. set_solver.
Qed.

(** No key occurs twice when every group of equal keys has at most one member. *)
Lemma NoDup_short_groups {A B} `{EqDecision B} (f : A → B) l :
  NoDup (f <$> l) ↔ ∀ k, length (filter (λ x, f x = k) l) ≤ 1.
Proof.
  induction l as [|x l IH]; [split; [cbn; lia|constructor]|].
  cbn [fmap list_fmap]. rewrite NoDup_cons, IH. split.
  - intros [Hni Hl] k. rewrite filter_cons. case_decide as Hk; [|done]. cbn.
    rewrite (proj2 (filter_nil_iff (λ y, f y = k) l)); [cbn; lia|].
    intros y Hy Hfy. destruct Hni. apply list_elem_of_fmap. exists y. split; [congruence|done].
  - intros Hl. split.
    + intros (y & Hy & Hin)%list_elem_of_fmap. specialize (Hl (f x)).
      rewrite filter_cons_True in Hl by done. cbn in Hl.
      assert (y ∈ filter (λ z, f z = f x) l) as Hf by (by apply list_elem_of_filter).
      destruct (filter _ l); [by apply not_elem_of_nil in Hf|cbn in Hl; lia].
    + intros k. specialize (Hl k). rewrite filter_cons in Hl. case_decide; cbn in Hl; lia.
Qed.

Lemma filter_all {A} (P : A → Prop) {P_dec : ∀ x, Decision (P x)} (l : list A) :
  (∀ x, x ∈ l → P x) → filter P l = l.
Proof.
  induction l as [|x l IH]; intros Hl; [done|].
  rewrite filter_cons_True by set_solver. rewrite IH; [done|set_solver].
Qed.

Lemma filter_fmap {A B} (f : A → B) (P : B → Prop) {P_dec : ∀ x, Decision (P x)} (l : list A) :
  filter P (f <$> l) = f <$> filter (λ x, P (f x)) l.
Proof.
  induction l as [|x l IH]; csimpl; [done|]. rewrite !filter_cons.
  case_decide; csimpl; by rewrite IH.
Qed.

(** A map that is not injective on a duplicate-free list has a collision. *)
Lemma fmap_NoDup_or_collision {A B} `{EqDecision B} (f : A → B) (l : list A) :
  NoDup l → NoDup (f <$> l) ∨ ∃ x y, x ∈ l ∧ y ∈ l ∧ x ≠ y ∧ f x = f y.
Proof.
  induction 1 as [|x l Hx Hl IH]; csimpl; [left; constructor|].
  destruct (decide (f x ∈ (f <$> l))) as [(y & Heq & Hy)%list_elem_of_fmap|Hfx].
  - right. exists x, y. set_solver.
  - destruct IH as [IH|(y & z & ? & ? & ? & ?)]; [left; by constructor|].
    right. exists y, z. set_solver.
Qed.

(** A key determines its element in a list without duplicate keys. *)
Lemma NoDup_fmap_key {A B} (f : A → B) (l : list A) x y :
  NoDup (f <$> l) → x ∈ l → y ∈ l → f x = f y → x = y.
Proof.
  induction l as [|z l IH]; csimpl; [set_solver|].
  intros [Hz Hl]%NoDup_cons Hx Hy Heq.
  apply elem_of_cons in Hx as [->|Hx]; apply elem_of_cons in Hy as [->|Hy]; [done| | |by apply IH];
    exfalso; apply Hz; apply list_elem_of_fmap; eauto.
Qed.

Lemma elem_of_option_list {A} (o : option A) x : x ∈ option_list o ↔ o = Some x.
Proof. destruct o; simpl; set_solver. Qed.

(** [if !v.contains(&x) { v.push(x) }] *)
Definition push_unique `{EqDecision A} (x : A) (l : list A) : list A :=
  if decide (x ∈ l) then l else l ++ [x].

Section PushUnique.
Context `{EqDecision A}.

Lemma push_unique_elem (x : A) l : x ∈ push_unique x l.
Proof. unfold push_unique. case_decide; set_solver. Qed.

Lemma push_unique_idem (x : A) l : push_unique x (push_unique x l) = push_unique x l.
Proof.
  unfold push_unique at 1. rewrite decide_True; [done|apply push_unique_elem].
Qed.

Lemma push_unique_NoDup (x : A) l : NoDup l → NoDup (push_unique x l).
Proof.
  unfold push_unique. case_decide; [done|]. intros. apply NoDup_app.
  repeat split; [done|set_solver|apply NoDup_singleton].
Qed.
End PushUnique.

(* ------------------------------------------------------------------ *)
(** ** Machine integers *)

Definition u32_modulus : N := 2 ^ 32.
Definition u64_modulus : N := 2 ^ 64.

(** [n as u32] *)
Definition as_u32 (n : N) : N := (n mod u32_modulus)%N.

(** [AtomicU64::fetch_add(k)] wraps around. *)
Definition u64_add (a b : N) : N := ((a + b) mod u64_modulus)%N.

Lemma as_u32_small n : (n < u32_modulus)%N → as_u32 n = n.
Proof. intros. by apply N.mod_small. Qed.

Lemma u64_add_small a b : (a + b < u64_modulus)%N → u64_add a b = (a + b)%N.
Proof. intros. by apply N.mod_small. Qed.

Lemma u64_add_ne a : (a < u64_modulus)%N → u64_add a 1 ≠ a.
Proof.
  unfold u64_add. intros Ha.
  destruct (decide (a + 1 < u64_modulus)%N) as [Hlt|Hge].
  - rewrite N.mod_small by done. lia.
  - assert (a = u64_modulus - 1)%N as -> by lia. done.
Qed.

(* ------------------------------------------------------------------ *)
(** ** Stable sorting: [Vec::sort_by_key]

    Rust's [sort_by_key] is a stable sort.  A stable sort is determined by its
    specification (the result is sorted, and elements with equal keys keep
    their order: [sort_by_key_sorted], [sort_by_key_stable]); the executable
    definition is insertion sort from the right, which inserts an element
    before the elements with an equal key. *)

Section SortByKey.
Context {A : Type} (key : A → N).

Fixpoint insert_by_key (x : A) (l : list A) : list A :=
  match l with
  | [] => [x]
  | y :: l' => if decide (key x ≤ key y)%N then x :: y :: l' else y :: insert_by_key x l'
  end.

Definition sort_by_key (l : list A) : list A := foldr insert_by_key [] l.

Definition key_le (x y : A) : Prop := (key x ≤ key y)%N.

Lemma insert_by_key_perm x l : insert_by_key x l ≡ₚ x :: l.
Proof.
  induction l as [|y l IH]; simpl; [done|]. case_decide; [done|].
  rewrite IH. constructor.
Qed.

Lemma sort_by_key_perm l : sort_by_key l ≡ₚ l.
Proof.
  induction l as [|x l IH]; simpl; [done|]. by rewrite insert_by_key_perm, IH.
Qed.

Lemma insert_by_key_sorted x l :
  StronglySorted key_le l → StronglySorted key_le (insert_by_key x l).
Proof.
  induction l as [|y l IH]; simpl; intros Hs; [repeat constructor|].
  apply StronglySorted_inv in Hs as [Hs Hall]. case_decide as Hle.
  - constructor; [by constructor|]. constructor; [done|].
    eapply Forall_impl; [done|]. unfold key_le. intros; simpl in *; lia.
  - constructor; [by apply IH|]. rewrite insert_by_key_perm.
    constructor; [unfold key_le; lia|done].
Qed.

Lemma sort_by_key_sorted l : StronglySorted key_le (sort_by_key l).
Proof. induction l; simpl; [constructor|by apply insert_by_key_sorted]. Qed.

Lemma insert_by_key_stable k x l :
  StronglySorted key_le l →
  filter (λ a, key a = k) (insert_by_key x l) =
  filter (λ a, key a = k) (x :: l).
Proof.
  induction l as [|y l IH]; simpl; intros Hs; [done|].
  apply StronglySorted_inv in Hs as [Hs Hall]. case_decide as Hle; [done|].
  specialize (IH Hs). destruct (decide (key x = k)) as [Hx|Hx].
  - rewrite (filter_cons_True _ x) by done.
    rewrite (filter_cons_True _ x) in IH by done.
    rewrite !(filter_cons_False _ y) by lia. done.
  - rewrite (filter_cons_False _ x) by done.
    rewrite (filter_cons_False _ x) in IH by done.
    destruct (decide (key y = k)).
    + rewrite !(filter_cons_True _ y) by done. by rewrite IH.
    + rewrite !(filter_cons_False _ y) by done. done.
Qed.

Lemma sort_by_key_stable k l :
  filter (λ a, key a = k) (sort_by_key l) = filter (λ a, key a = k) l.
Proof.
  induction l as [|x l IH]; simpl; [done|].
  rewrite insert_by_key_stable by apply sort_by_key_sorted.
  rewrite !filter_cons. by rewrite IH.
Qed.

Lemma sort_by_key_id l : StronglySorted key_le l → sort_by_key l = l.
Proof.
  induction 1 as [|x l Hs IH Hall]; simpl; [done|]. rewrite IH.
  destruct Hall; simpl; [done|]. by rewrite decide_True.
Qed.

Lemma sort_by_key_idem l : sort_by_key (sort_by_key l) = sort_by_key l.
Proof. apply sort_by_key_id, sort_by_key_sorted. Qed.

Lemma length_sort_by_key l : length (sort_by_key l) = length l.
Proof. by rewrite sort_by_key_perm. Qed.
End SortByKey.

(* ------------------------------------------------------------------ *)
(** ** Ordered maps: [BTreeMap<String, V>]

    A [BTreeMap] is a [gmap]; iteration is in ascending key order
    ([btree_iter]), with Rust's byte-wise string order, which is
    [String.le]. *)

Definition btree_key_le {V} (a b : string * V) : Prop := String.le a.1 b.1.
#[global] Instance btree_key_le_dec {V} (a b : string * V) : Decision (btree_key_le a b).
Proof. unfold btree_key_le. apply _. Defined.

Definition btree_iter {V} (m : gmap string V) : list (string * V) :=
  merge_sort btree_key_le (map_to_list m).

(** [m.entry(k).or_insert_with(|| v)] *)
Definition or_insert {V} (k : string) (v : V) (m : gmap string V) : gmap string V :=
  match m !! k with Some _ => m | None => <[k := v]> m end.

Lemma btree_iter_elem {V} (m : gmap string V) k v :
  (k, v) ∈ btree_iter m ↔ m !! k = Some v.
Proof.
  unfold btree_iter. rewrite merge_sort_Permutation. apply elem_of_map_to_list.
Qed.

Lemma or_insert_lookup {V} k (v : V) m : or_insert k v m !! k = Some (default v (m !! k)).
Proof.
  unfold or_insert. destruct (m !! k) eqn:E; simpl; [done|]. by simplify_map_eq.
Qed.

Lemma or_insert_lookup_ne {V} k j (v : V) m : k ≠ j → or_insert k v m !! j = m !! j.
Proof. intros. unfold or_insert. case_match; by simplify_map_eq. Qed.

Lemma or_insert_idem {V} k (v w : V) m : or_insert k w (or_insert k v m) = or_insert k v m.
Proof. unfold or_insert at 1. by rewrite or_insert_lookup. Qed.

Lemma or_insert_subseteq {V} k (v : V) m : m ⊆ or_insert k v m.
Proof. unfold or_insert. case_match; [done|]. by apply insert_subseteq. Qed.

(* ------------------------------------------------------------------ *)
(** ** Strings *)

(** [s.starts_with(p)] *)
Definition starts_with (p s : string) : bool := String.prefix p s.

(** [s.strip_prefix(p)] *)
Fixpoint strip_prefix (p s : string) : option string :=
  match p, s with
  | EmptyString, _ => Some s
  | String a p', String b s' => if decide (a = b) then strip_prefix p' s' else None
  | String _ _, EmptyString => None
  end.

Lemma strip_prefix_Some p s r : strip_prefix p s = Some r ↔ s = (p +:+ r).
Proof.
  revert s. induction p as [|a p IH]; intros s; simpl; [naive_solver|].
  destruct s as [|b s]; [done|]. simpl. destruct (decide (a = b)) as [->|Hab].
  - rewrite IH. split; [by intros ->|by intros [= ->]].
  - split; [done|]. by intros [= -> _].
Qed.

(* ------------------------------------------------------------------ *)
(** ** Proof automation shared by the components *)

Create HintDb ail discriminated.
#[export] Hint Resolve push_unique_elem push_unique_NoDup : ail.
#[export] Hint Resolve sort_by_key_sorted sort_by_key_perm or_insert_subseteq : ail.

(** Case analysis on every [match] and [decide] of the goal, closing the
    branches that are contradictory. *)
Ltac split_cases :=
  repeat (case_match || case_decide || case_bool_decide); simplify_eq/=; try done.
