(* ===== verification/Text.v ===== *)
(** * Text: the string operations of the standard library the components call

    Strings are byte strings.  [char::is_uppercase] and [char::to_lowercase]
    are modelled on ASCII, the alphabet of ACL identifiers; a byte above 127
    is not a letter here and is left alone.  [str::find(c)] with the two
    slices around the match is [split_once]; [str::rsplit(c).next()] is
    [after_last]; [{:02x}] over bytes is [to_hex]. *)

From Stdlib Require Export Ascii.
From S2P Require Import Prelude.

(* ------------------------------------------------------------------ *)
(** ** Characters and whole-string predicates *)

Definition ascii_is_upper (c : ascii) : bool :=
  ((65 <=? N_of_ascii c) && (N_of_ascii c <=? 90))%N.

Definition ascii_to_lower (c : ascii) : ascii :=
  if ascii_is_upper c then ascii_of_N (N_of_ascii c + 32) else c.

Fixpoint string_map (f : ascii → ascii) (s : string) : string :=
  match s with
  | EmptyString => EmptyString
  | String c s' => String (f c) (string_map f s')
  end.

Fixpoint string_all (f : ascii → bool) (s : string) : bool :=
  match s with
  | EmptyString => true
  | String c s' => f c && string_all f s'
  end.

(** [s.to_lowercase()] *)
Definition to_lowercase : string → string := string_map ascii_to_lower.

(** [s.replace(a, b)] for single characters *)
Definition replace_char (a b : ascii) : string → string :=
  string_map (λ c, if decide (c = a) then b else c).

Definition no_upper : string → bool := string_all (λ c, negb (ascii_is_upper c)).
Definition no_char (a : ascii) : string → bool := string_all (λ c, bool_decide (c ≠ a)).

(** [s.find(c)] with [&s[..p]] and [&s[p + 1..]] *)
Fixpoint split_once (a : ascii) (s : string) : option (string * string) :=
  match s with
  | EmptyString => None
  | String c s' =>
      if decide (c = a) then Some (EmptyString, s')
      else match split_once a s' with
           | Some (l, r) => Some (String c l, r)
           | None => None
           end
  end.

(** [ws.join(sep)] *)
Fixpoint join (sep : string) (ws : list string) : string :=
  match ws with
  | [] => ""
  | [w] => w
  | w :: ws' => w +:+ (sep +:+ join sep ws')
  end.

(** [s.split(a)], as a list *)
Fixpoint split_on (a : ascii) (s : string) : list string :=
  match s with
  | EmptyString => [EmptyString]
  | String c s' =>
      if decide (c = a) then EmptyString :: split_on a s'
      else match split_on a s' with
           | w :: ws => String c w :: ws
           | [] => [String c EmptyString]
           end
  end.

(** [s.contains(pat)] *)
Fixpoint str_contains (pat s : string) : bool :=
  starts_with pat s ||
  match s with
  | EmptyString => false
  | String _ s' => str_contains pat s'
  end.

(** [s.rsplit(c).next()], which is always [Some] *)
Fixpoint after_last (a : ascii) (s : string) : string :=
  match split_once a s with
  | None => s
  | Some _ =>
      match s with
      | EmptyString => EmptyString
      | String c s' =>
          match split_once a s' with
          | Some _ => after_last a s'
          | None => if decide (c = a) then s' else s
          end
      end
  end.

(* ------------------------------------------------------------------ *)
(** ** Bytes and hexadecimal *)

(** [s.as_bytes()] *)
Fixpoint string_bytes (s : string) : list N :=
  match s with
  | EmptyString => []
  | String c s' => N_of_ascii c :: string_bytes s'
  end.

Definition hex_digit (n : N) : ascii :=
  if decide (n < 10)%N then ascii_of_N (48 + n) else ascii_of_N (87 + n).

(** [bytes.iter().map(|b| format!(...))] with the format string [{b:02x}] *)
Fixpoint to_hex (bs : list N) : string :=
  match bs with
  | [] => EmptyString
  | b :: bs' => String (hex_digit (b / 16)) (String (hex_digit (b mod 16)) (to_hex bs'))
  end.

(** [n.to_le_bytes()] of a [u64] *)
Fixpoint le_bytes (k : nat) (n : N) : list N :=
  match k with
  | O => []
  | S k' => (n mod 256)%N :: le_bytes k' (n / 256)%N
  end.

(* ------------------------------------------------------------------ *)
(** ** Lemmas *)

Lemma ascii_to_lower_idem c : ascii_to_lower (ascii_to_lower c) = ascii_to_lower c.
Proof. by destruct c as [[] [] [] [] [] [] [] []]. Qed.

Lemma ascii_to_lower_not_upper c : ascii_is_upper (ascii_to_lower c) = false.
Proof. by destruct c as [[] [] [] [] [] [] [] []]. Qed.

Lemma ascii_to_lower_id c : ascii_is_upper c = false → ascii_to_lower c = c.
Proof. unfold ascii_to_lower. by intros ->. Qed.

Lemma ascii_to_lower_dot c : ascii_to_lower c = "."%char → c = "."%char.
Proof. by destruct c as [[] [] [] [] [] [] [] []]. Qed.

Lemma string_map_id f s : string_all (λ c, bool_decide (f c = c)) s = true → string_map f s = s.
Proof.
  induction s as [|c s IH]; simpl; [done|].
  intros [->%bool_decide_eq_true ?]%andb_true_iff. by rewrite IH.
Qed.

Lemma string_map_compose f g s : string_map f (string_map g s) = string_map (f ∘ g) s.
Proof. induction s as [|c s IH]; simpl; [done|]. by rewrite IH. Qed.

Lemma string_map_ext f g s : (∀ c, f c = g c) → string_map f s = string_map g s.
Proof. intros H. induction s as [|c s IH]; simpl; [done|]. by rewrite H, IH. Qed.

Lemma string_all_map P f s : string_all P (string_map f s) = string_all (P ∘ f) s.
Proof. induction s as [|c s IH]; simpl; [done|]. by rewrite IH. Qed.

Lemma string_all_impl P Q s :
  (∀ c, P c = true → Q c = true) → string_all P s = true → string_all Q s = true.
Proof.
  intros H. induction s as [|c s IH]; simpl; [done|].
  intros [? ?]%andb_true_iff. rewrite H, IH by done. done.
Qed.

Lemma to_lowercase_idem s : to_lowercase (to_lowercase s) = to_lowercase s.
Proof.
  unfold to_lowercase. rewrite string_map_compose.
  apply string_map_ext, ascii_to_lower_idem.
Qed.

Lemma to_lowercase_no_upper s : no_upper (to_lowercase s) = true.
Proof.
  unfold no_upper, to_lowercase. rewrite string_all_map.
  induction s as [|c s IH]; simpl; [done|]. by rewrite ascii_to_lower_not_upper.
Qed.

Lemma replace_char_idem a b s : a ≠ b → replace_char a b (replace_char a b s) = replace_char a b s.
Proof.
  intros. unfold replace_char. rewrite string_map_compose. apply string_map_ext.
  intros c. simpl. repeat case_decide; congruence.
Qed.

Lemma replace_char_no_char a b s : a ≠ b → no_char a (replace_char a b s) = true.
Proof.
  intros. unfold no_char, replace_char. rewrite string_all_map.
  induction s as [|c s IH]; simpl; [done|]. rewrite IH, andb_true_r.
  case_decide; rewrite bool_decide_eq_true; congruence.
Qed.

Lemma replace_char_no_upper a b s :
  ascii_is_upper b = false → no_upper s = true → no_upper (replace_char a b s) = true.
Proof.
  intros Hb. unfold no_upper, replace_char. rewrite string_all_map.
  apply string_all_impl. intros c. simpl. case_decide; [by rewrite Hb|done].
Qed.

Lemma no_char_to_lowercase_dot s : no_char "." s = true → no_char "." (to_lowercase s) = true.
Proof.
  unfold no_char, to_lowercase. rewrite string_all_map. apply string_all_impl.
  intros c. simpl. rewrite !bool_decide_eq_true. intros H ?%ascii_to_lower_dot. done.
Qed.

Lemma append_nil (s : string) : ("" +:+ s) = s.
Proof. done. Qed.

Lemma append_cons c (s t : string) : (String c s +:+ t) = String c (s +:+ t).
Proof. done. Qed.

Lemma append_empty (s : string) : (s +:+ "") = s.
Proof. induction s as [|c s IH]; [done|]. rewrite append_cons. by rewrite IH. Qed.

Lemma append_assoc (s t u : string) : (s +:+ (t +:+ u)) = ((s +:+ t) +:+ u).
Proof. induction s as [|c s IH]; [done|]. by rewrite !append_cons, IH. Qed.

Lemma length_append (s t : string) : String.length (s +:+ t) = String.length s + String.length t.
Proof. induction s as [|c s IH]; [done|]. rewrite append_cons. cbn. by rewrite IH. Qed.

Lemma append_inj (s t u : string) : (s +:+ t) = (s +:+ u) → t = u.
Proof. induction s as [|c s IH]; [done|]. rewrite !append_cons. intros [= H]. auto. Qed.

Lemma starts_with_iff p s : starts_with p s = true ↔ ∃ r, s = (p +:+ r).
Proof.
  unfold starts_with. revert s. induction p as [|a p IH]; intros s.
  - split; [intros _; by exists s|by destruct s].
  - destruct s as [|b s]; simpl; [split; [done|by intros [? ?]]|].
    destruct (ascii_dec a b) as [->|Hne].
    + rewrite IH. split; intros [r Hr]; exists r; rewrite append_cons in *; congruence.
    + split; [done|]. intros [r Hr]. rewrite append_cons in Hr. congruence.
Qed.

Lemma no_char_cons a c s : no_char a (String c s) = true ↔ c ≠ a ∧ no_char a s = true.
Proof. unfold no_char; simpl. by rewrite andb_true_iff, bool_decide_eq_true. Qed.

(** The slices around the first match: nothing of the left part matches. *)
Lemma split_once_Some a s l r :
  split_once a s = Some (l, r) ↔ s = (l +:+ String a r) ∧ no_char a l = true.
Proof.
  revert l r. induction s as [|c s IH]; intros l r; simpl.
  { split; [done|]. by destruct l; intros [? ?]. }
  destruct (decide (c = a)) as [->|Hca].
  - split; [by intros [= <- <-]|]. destruct l as [|b l].
    + rewrite append_nil. by intros [[= ->] _].
    + rewrite append_cons, no_char_cons. by intros [[= <- _] [? _]].
  - transitivity (∃ l', l = String c l' ∧ split_once a s = Some (l', r)).
    { destruct (split_once a s) as [[l' r']|]; naive_solver. }
    destruct l as [|b l].
    + rewrite append_nil. naive_solver.
    + rewrite append_cons, no_char_cons. setoid_rewrite IH. naive_solver.
Qed.

Lemma split_once_None a s : split_once a s = None ↔ no_char a s = true.
Proof.
  induction s as [|c s IH]; simpl; [done|]. rewrite no_char_cons.
  destruct (decide (c = a)); [naive_solver|]. rewrite <- IH.
  destruct (split_once a s) as [[l r]|]; naive_solver.
Qed.

Lemma length_le_bytes k n : length (le_bytes k n) = k.
Proof. revert n. induction k; intros n; simpl; [done|]. by rewrite IHk. Qed.

(** Little-endian encodings of in-range numbers are injective. *)
Lemma le_bytes_inj k n m :
  (n < 256 ^ N.of_nat k)%N → (m < 256 ^ N.of_nat k)%N →
  le_bytes k n = le_bytes k m → n = m.
Proof.
  revert n m. induction k as [|k IH]; intros n m Hn Hm; simpl.
  { change (256 ^ N.of_nat 0)%N with 1%N in *. lia. }
  rewrite Nnat.Nat2N.inj_succ, N.pow_succ_r' in Hn, Hm.
  intros [= Hmod Htl]. apply IH in Htl.
  - rewrite (N.div_mod n 256), (N.div_mod m 256) by done. by rewrite Hmod, Htl.
  - apply N.Div0.div_lt_upper_bound; lia.
  - apply N.Div0.div_lt_upper_bound; lia.
Qed.
