(* ===== verification/Trim.v ===== *)
(** * [str::trim]

    Strings are UTF-8 byte strings.  Rust's [trim] removes the characters with
    the Unicode property White_Space at both ends; their encodings have one,
    two or three bytes, and no encoding is a suffix of another character's, so
    that the bytes can be removed from the right as well. *)

From S2P Require Import Prelude Text.

(** U+0009 to U+000D and U+0020 *)
Definition space1 (a : ascii) : bool :=
  let n := N_of_ascii a in ((9 <=? n) && (n <=? 13) || (n =? 32))%N.

(** U+0085 and U+00A0 *)
Definition space2 (a b : ascii) : bool :=
  ((N_of_ascii a =? 194) && ((N_of_ascii b =? 133) || (N_of_ascii b =? 160)))%N.

(** U+1680, U+2000 to U+200A, U+2028, U+2029, U+202F, U+205F and U+3000 *)
Definition space3 (a b c : ascii) : bool :=
  let a := N_of_ascii a in
  let b := N_of_ascii b in
  let c := N_of_ascii c in
  ((a =? 225) && (b =? 154) && (c =? 128)
   || (a =? 226) && (b =? 128)
      && ((128 <=? c) && (c <=? 138) || (c =? 168) || (c =? 169) || (c =? 175))
   || (a =? 226) && (b =? 129) && (c =? 159)
   || (a =? 227) && (b =? 128) && (c =? 128))%N.

Fixpoint trim_start (l : list ascii) : list ascii :=
  match l with
  | a :: l1 =>
      if space1 a then trim_start l1
      else match l1 with
           | b :: l2 =>
               if space2 a b then trim_start l2
               else match l2 with
                    | c :: l3 => if space3 a b c then trim_start l3 else l
                    | [] => l
                    end
           | [] => l
           end
  | [] => []
  end.

(** The same on a reversed string. *)
Fixpoint trim_start_rev (l : list ascii) : list ascii :=
  match l with
  | c :: l1 =>
      if space1 c then trim_start_rev l1
      else match l1 with
           | b :: l2 =>
               if space2 b c then trim_start_rev l2
               else match l2 with
                    | a :: l3 => if space3 a b c then trim_start_rev l3 else l
                    | [] => l
                    end
           | [] => l
           end
  | [] => []
  end.

Definition trim (s : string) : string :=
  String.string_of_list_ascii (rev (trim_start_rev (rev (trim_start (String.list_ascii_of_string s))))).

(** A string that is not blank is not empty. *)
Lemma trim_nonempty s : trim s ≠ "" → s ≠ "".
Proof. by intros H ->. Qed.

(** Printable ASCII characters are not white space. *)
Definition graphic (c : ascii) : bool :=
  let n := N_of_ascii c in ((33 <=? n) && (n <=? 126))%N.

Lemma graphic_no_space a b c :
  graphic a = true → space1 a = false ∧ space2 a b = false ∧ space3 a b c = false.
Proof. by destruct a as [[] [] [] [] [] [] [] []]. Qed.

Lemma graphic_trim_start l :
  Forall (λ c, graphic c = true) l → trim_start l = l ∧ trim_start_rev l = l.
Proof.
  intros Hl. destruct Hl as [|a l Ha Hl]; [done|].
  destruct (graphic_no_space a a a Ha) as (Ha1 & _ & _).
  destruct Hl as [|b l Hb Hl]; [cbn; by rewrite Ha1|].
  destruct (graphic_no_space a b b Ha) as (_ & Hab & _), (graphic_no_space b a a Hb) as (_ & Hba & _).
  destruct Hl as [|c l Hc Hl]; cbn; rewrite Ha1, Hab, Hba; [done|].
  destruct (graphic_no_space a b c Ha) as (_ & _ & ->), (graphic_no_space c b a Hc) as (_ & _ & ->). done.
Qed.

Lemma trim_id s : string_all graphic s = true → trim s = s.
Proof.
  intros Hs. assert (Forall (λ c, graphic c = true) (String.list_ascii_of_string s)) as Hl.
  { induction s as [|c s IH]; cbn in *; [constructor|]. apply andb_true_iff in Hs as [? ?]. auto. }
  unfold trim. destruct (graphic_trim_start _ Hl) as [-> _].
  destruct (graphic_trim_start (rev (String.list_ascii_of_string s))) as [_ ->].
  { apply List.Forall_forall. intros c Hc. rewrite List.Forall_forall in Hl. apply Hl.
    by apply in_rev. }
  by rewrite rev_involutive, String.string_of_list_ascii_of_string.
Qed.
