(* ===== verification/GraphTypes.v ===== *)
(** * Semantic graph data model (crates/ail-core/src/semantic_graph/types.rs)

    The node and edge kinds, the metadata structs a node or an edge can carry,
    [GraphNode], [GraphEdge] and [SemanticGraph], with decidable equality for
    each ([derive(PartialEq)]).  [Vec] is [list], [Option] is [option], [String]
    is [string] (the UTF-8 bytes), and a [u32] or [u64] is an [N] in range.
    Field names carry a prefix for their struct; constructors one for their
    enum. *)

From S2P Require Import Prelude.

(** Intra-graph identity of a node: a [u32]. *)
Definition NodeRef : Type := N.
#[global] Instance NodeRef_eq_dec : EqDecision NodeRef := N.eq_dec.
#[global] Instance NodeRef_countable : Countable NodeRef := N_countable.

(** The semantic category of a node. *)
Inductive NodeKind : Type :=
| NkModule
| NkFunction
| NkType
| NkEffect
| NkCapability
| NkContract
| NkInvariant
| NkTest
| NkBoundary
| NkPackage
| NkInterface
| NkImpl
| NkEffectAlias
| NkImport
| NkExport
| NkVersionConstraint
| NkCapabilityExport
| NkContractExport.
#[global] Instance NodeKind_eq_dec : EqDecision NodeKind.
Proof. solve_decision. Defined.

(** The semantic relationship expressed by an edge. *)
Inductive EdgeKind : Type :=
| EkCalls
| EkDynCalls
| EkReads
| EkWrites
| EkEmits
| EkDependsOn
| EkProves
| EkBreaksIfChanged
| EkConsumes
| EkReleases
| EkSpawnedBy
| EkChildOf
| EkSafeCapability.
#[global] Instance EdgeKind_eq_dec : EqDecision EdgeKind.
Proof. solve_decision. Defined.

(** Content-addressed hash of a stored node. *)
Record ContentHash : Type := MkContentHash {
  ch_hex : string;
}.
#[global] Instance ContentHash_eq_dec : EqDecision ContentHash.
Proof. solve_decision. Defined.

(** Which change created or last modified a node. *)
Record Provenance : Type := MkProvenance {
  prov_change_id : string;
}.
#[global] Instance Provenance_eq_dec : EqDecision Provenance.
Proof. solve_decision. Defined.

(** Schema version a node was created under. *)
Record SchemaRef : Type := MkSchemaRef {
  schema_version : string;
}.
#[global] Instance SchemaRef_eq_dec : EqDecision SchemaRef.
Proof. solve_decision. Defined.

(** The four canonical trust levels, and a tag for everything else. *)
Inductive TrustLevel : Type :=
| TlVerified
| TlAssumed
| TlUnverified
| TlUnsafe
| TlCustom (tag : string).
#[global] Instance TrustLevel_eq_dec : EqDecision TrustLevel.
Proof. solve_decision. Defined.

(** [TrustLevel::as_str] *)
Definition trust_as_str (t : TrustLevel) : string :=
  match t with
  | TlVerified => "verified"
  | TlAssumed => "assumed"
  | TlUnverified => "unverified"
  | TlUnsafe => "unsafe"
  | TlCustom s => s
  end.

(** [TrustLevel::from_str_compat] *)
Definition trust_from_str_compat (s : string) : TrustLevel :=
  if decide (s = "verified") then TlVerified
  else if decide (s = "assumed") then TlAssumed
  else if decide (s = "unverified") then TlUnverified
  else if decide (s = "unsafe") then TlUnsafe
  else TlCustom s.

(** Trust metadata assigned by the policy layer. *)
Record TrustMetadata : Type := MkTrustMetadata {
  tm_level : TrustLevel;
  tm_tags : list string;
}.
#[global] Instance TrustMetadata_eq_dec : EqDecision TrustMetadata.
Proof. solve_decision. Defined.

(** Source location; the offsets are [u32]. *)
Record Span : Type := MkSpan {
  span_source : string;
  span_start : N;
  span_end : N;
}.
#[global] Instance Span_eq_dec : EqDecision Span.
Proof. solve_decision. Defined.

(** Pre- and postconditions, in declaration order. *)
Record ContractClauses : Type := MkContractClauses {
  cc_requires : list string;
  cc_ensures : list string;
}.
#[global] Instance ContractClauses_eq_dec : EqDecision ContractClauses.
Proof. solve_decision. Defined.

(** A materialized runtime check. *)
Record RuntimeCheckMeta : Type := MkRuntimeCheckMeta {
  rc_predicate : string;
  rc_hash : string;
}.
#[global] Instance RuntimeCheckMeta_eq_dec : EqDecision RuntimeCheckMeta.
Proof. solve_decision. Defined.

(** Resolved type information. *)
Record TypeFacts : Type := MkTypeFacts {
  tf_nominal : string;
  tf_generics : list string;
}.
#[global] Instance TypeFacts_eq_dec : EqDecision TypeFacts.
Proof. solve_decision. Defined.

(** Classification of a generic parameter. *)
Inductive GenericParamKind : Type :=
| GpTypeParam
| GpEffectParam
| GpCapabilityParam
| GpConstParam.
#[global] Instance GenericParamKind_eq_dec : EqDecision GenericParamKind.
Proof. solve_decision. Defined.

(** An associated type binding. *)
Record AssociatedTypeBinding : Type := MkAssociatedTypeBinding {
  atb_name : string;
  atb_ty : string;
}.
#[global] Instance AssociatedTypeBinding_eq_dec : EqDecision AssociatedTypeBinding.
Proof. solve_decision. Defined.

(** A type-level constraint on a generic parameter. *)
Record WhereConstraint : Type := MkWhereConstraint {
  wc_interface : string;
  wc_target_param : option string;
  wc_associated_types : list AssociatedTypeBinding;
}.
#[global] Instance WhereConstraint_eq_dec : EqDecision WhereConstraint.
Proof. solve_decision. Defined.

(** A generic parameter declaration. *)
Record GenericParamDecl : Type := MkGenericParamDecl {
  gpd_name : string;
  gpd_kind : GenericParamKind;
  gpd_required_constraints : list WhereConstraint;
}.
#[global] Instance GenericParamDecl_eq_dec : EqDecision GenericParamDecl.
Proof. solve_decision. Defined.

(** A declared function parameter. *)
Record ParamDecl : Type := MkParamDecl {
  pd_name : string;
  pd_ty : string;
}.
#[global] Instance ParamDecl_eq_dec : EqDecision ParamDecl.
Proof. solve_decision. Defined.

(** An interface implementation declared on a node. *)
Record InterfaceImplMeta : Type := MkInterfaceImplMeta {
  iim_interface : string;
  iim_associated_types : list AssociatedTypeBinding;
  iim_is_adapter : bool;
}.
#[global] Instance InterfaceImplMeta_eq_dec : EqDecision InterfaceImplMeta.
Proof. solve_decision. Defined.

(** Outcome of a refinement proof obligation. *)
Inductive RefinementStatus : Type :=
| RsProven
| RsRuntimeChecked
| RsAssumed
| RsUnverified
| RsFailed.
#[global] Instance RefinementStatus_eq_dec : EqDecision RefinementStatus.
Proof. solve_decision. Defined.

(** A refinement predicate attached to a type node. *)
Record RefinementRef : Type := MkRefinementRef {
  rr_base_type : string;
  rr_predicate : string;
  rr_status : RefinementStatus;
  rr_erased : bool;
}.
#[global] Instance RefinementRef_eq_dec : EqDecision RefinementRef.
Proof. solve_decision. Defined.

(** Constraint declarations on a type node. *)
Record ConstraintSet : Type := MkConstraintSet {
  cs_has_eq : bool;
  cs_has_ord : bool;
  cs_has_hash : bool;
  cs_has_partial_ord : bool;
  cs_extras : list string;
}.
#[global] Instance ConstraintSet_eq_dec : EqDecision ConstraintSet.
Proof. solve_decision. Defined.

(** Generic type argument at a call site. *)
Record TypeArgBinding : Type := MkTypeArgBinding {
  tab_param : string;
  tab_ty : string;
}.
#[global] Instance TypeArgBinding_eq_dec : EqDecision TypeArgBinding.
Proof. solve_decision. Defined.

(** Effect argument at a call site. *)
Record EffectArgBinding : Type := MkEffectArgBinding {
  eab_param : string;
  eab_effects : list string;
}.
#[global] Instance EffectArgBinding_eq_dec : EqDecision EffectArgBinding.
Proof. solve_decision. Defined.

(** Capability argument at a call site. *)
Record CapabilityArgBinding : Type := MkCapabilityArgBinding {
  cab_param : string;
  cab_caps : list string;
}.
#[global] Instance CapabilityArgBinding_eq_dec : EqDecision CapabilityArgBinding.
Proof. solve_decision. Defined.

(** Declared effect row. *)
Record EffectRow : Type := MkEffectRow {
  er_effects : list string;
}.
#[global] Instance EffectRow_eq_dec : EqDecision EffectRow.
Proof. solve_decision. Defined.

(** Declared capability requirements. *)
Record CapabilityReqs : Type := MkCapabilityReqs {
  cr_caps : list string;
}.
#[global] Instance CapabilityReqs_eq_dec : EqDecision CapabilityReqs.
Proof. solve_decision. Defined.

(** Export visibility. *)
Inductive Visibility : Type :=
| VisPublic
| VisPrivate
| VisInternal.
#[global] Instance Visibility_eq_dec : EqDecision Visibility.
Proof. solve_decision. Defined.

(** Binding from a semantic name to an implementation. *)
Record Binding : Type := MkBinding {
  bd_name : string;
  bd_implementation : string;
  bd_profile : option string;
}.
#[global] Instance Binding_eq_dec : EqDecision Binding.
Proof. solve_decision. Defined.

(** A materialized inference. *)
Record InferredFact : Type := MkInferredFact {
  if_kind : string;
  if_value : string;
}.
#[global] Instance InferredFact_eq_dec : EqDecision InferredFact.
Proof. solve_decision. Defined.

(** A generated artifact reference. *)
Record GeneratedArtifact : Type := MkGeneratedArtifact {
  ga_kind : string;
  ga_source : option string;
}.
#[global] Instance GeneratedArtifact_eq_dec : EqDecision GeneratedArtifact.
Proof. solve_decision. Defined.

(** A compile-time assertion. *)
Record Assertion : Type := MkAssertion {
  as_kind : string;
  as_value : string;
}.
#[global] Instance Assertion_eq_dec : EqDecision Assertion.
Proof. solve_decision. Defined.

(** Workflow state of a node. *)
Inductive WorkflowState : Type :=
| WsDraft
| WsLocked
| WsApproved
| WsRejected
| WsVerified
| WsMigrating
| WsRefactoring.
#[global] Instance WorkflowState_eq_dec : EqDecision WorkflowState.
Proof. solve_decision. Defined.

(** Metadata of a capability handler node. *)
Record HandlerMeta : Type := MkHandlerMeta {
  hm_handled_caps : list string;
  hm_internal_effects : list string;
  hm_satisfies_contract : option string;
}.
#[global] Instance HandlerMeta_eq_dec : EqDecision HandlerMeta.
Proof. solve_decision. Defined.

(** A typed node of the semantic graph. *)
Record GraphNode : Type := MkGraphNode {
  node_id : NodeRef;
  node_kind : NodeKind;
  node_name : string;
  node_type_facts : option TypeFacts;
  node_effect_row : option EffectRow;
  node_capability_reqs : option CapabilityReqs;
  node_contract_clauses : option ContractClauses;
  node_runtime_checks : option (list RuntimeCheckMeta);
  node_content_hash : option ContentHash;
  node_provenance : option Provenance;
  node_schema : option SchemaRef;
  node_trust_metadata : option TrustMetadata;
  node_generic_params : option (list GenericParamDecl);
  node_params : option (list ParamDecl);
  node_return_type : option string;
  node_body_expr : option string;
  node_interface_impls : option (list InterfaceImplMeta);
  node_refinement_ref : option RefinementRef;
  node_constraint_set : option ConstraintSet;
  node_visibility : option Visibility;
  node_bindings : list Binding;
  node_inferred : list InferredFact;
  node_derived_impls : list string;
  node_generated_artifacts : list GeneratedArtifact;
  node_assertions : list Assertion;
  node_workflow_state : option WorkflowState;
  node_handler_meta : option HandlerMeta;
  node_span : option Span;
  node_stable_id : option string;
}.
#[global] Instance GraphNode_eq_dec : EqDecision GraphNode.
Proof. solve_decision. Defined.

(** [GraphNode::new]: every optional field absent. *)
Definition graph_node_new (id : NodeRef) (kind : NodeKind) (name : string) : GraphNode :=
  MkGraphNode
    id kind name None None None None None None None None None None None None
    None None None None None [] [] [] [] [] None None None None.

(** Field assignments [node.f = v], one per field the operations write. *)
Definition set_name (v : string) (n : GraphNode) : GraphNode :=
  MkGraphNode
    (node_id n) (node_kind n) v (node_type_facts n) (node_effect_row n)
    (node_capability_reqs n) (node_contract_clauses n) (node_runtime_checks
    n) (node_content_hash n) (node_provenance n) (node_schema n)
    (node_trust_metadata n) (node_generic_params n) (node_params n)
    (node_return_type n) (node_body_expr n) (node_interface_impls n)
    (node_refinement_ref n) (node_constraint_set n) (node_visibility n)
    (node_bindings n) (node_inferred n) (node_derived_impls n)
    (node_generated_artifacts n) (node_assertions n) (node_workflow_state n)
    (node_handler_meta n) (node_span n) (node_stable_id n).

Definition set_type_facts (v : option TypeFacts) (n : GraphNode) : GraphNode :=
  MkGraphNode
    (node_id n) (node_kind n) (node_name n) v (node_effect_row n)
    (node_capability_reqs n) (node_contract_clauses n) (node_runtime_checks
    n) (node_content_hash n) (node_provenance n) (node_schema n)
    (node_trust_metadata n) (node_generic_params n) (node_params n)
    (node_return_type n) (node_body_expr n) (node_interface_impls n)
    (node_refinement_ref n) (node_constraint_set n) (node_visibility n)
    (node_bindings n) (node_inferred n) (node_derived_impls n)
    (node_generated_artifacts n) (node_assertions n) (node_workflow_state n)
    (node_handler_meta n) (node_span n) (node_stable_id n).

Definition set_effect_row (v : option EffectRow) (n : GraphNode) : GraphNode :=
  MkGraphNode
    (node_id n) (node_kind n) (node_name n) (node_type_facts n) v
    (node_capability_reqs n) (node_contract_clauses n) (node_runtime_checks
    n) (node_content_hash n) (node_provenance n) (node_schema n)
    (node_trust_metadata n) (node_generic_params n) (node_params n)
    (node_return_type n) (node_body_expr n) (node_interface_impls n)
    (node_refinement_ref n) (node_constraint_set n) (node_visibility n)
    (node_bindings n) (node_inferred n) (node_derived_impls n)
    (node_generated_artifacts n) (node_assertions n) (node_workflow_state n)
    (node_handler_meta n) (node_span n) (node_stable_id n).

Definition set_capability_reqs (v : option CapabilityReqs) (n : GraphNode) : GraphNode :=
  MkGraphNode
    (node_id n) (node_kind n) (node_name n) (node_type_facts n)
    (node_effect_row n) v (node_contract_clauses n) (node_runtime_checks n)
    (node_content_hash n) (node_provenance n) (node_schema n)
    (node_trust_metadata n) (node_generic_params n) (node_params n)
    (node_return_type n) (node_body_expr n) (node_interface_impls n)
    (node_refinement_ref n) (node_constraint_set n) (node_visibility n)
    (node_bindings n) (node_inferred n) (node_derived_impls n)
    (node_generated_artifacts n) (node_assertions n) (node_workflow_state n)
    (node_handler_meta n) (node_span n) (node_stable_id n).

Definition set_contract_clauses (v : option ContractClauses) (n : GraphNode) : GraphNode :=
  MkGraphNode
    (node_id n) (node_kind n) (node_name n) (node_type_facts n)
    (node_effect_row n) (node_capability_reqs n) v (node_runtime_checks n)
    (node_content_hash n) (node_provenance n) (node_schema n)
    (node_trust_metadata n) (node_generic_params n) (node_params n)
    (node_return_type n) (node_body_expr n) (node_interface_impls n)
    (node_refinement_ref n) (node_constraint_set n) (node_visibility n)
    (node_bindings n) (node_inferred n) (node_derived_impls n)
    (node_generated_artifacts n) (node_assertions n) (node_workflow_state n)
    (node_handler_meta n) (node_span n) (node_stable_id n).

Definition set_runtime_checks (v : option (list RuntimeCheckMeta)) (n : GraphNode) : GraphNode :=
  MkGraphNode
    (node_id n) (node_kind n) (node_name n) (node_type_facts n)
    (node_effect_row n) (node_capability_reqs n) (node_contract_clauses n) v
    (node_content_hash n) (node_provenance n) (node_schema n)
    (node_trust_metadata n) (node_generic_params n) (node_params n)
    (node_return_type n) (node_body_expr n) (node_interface_impls n)
    (node_refinement_ref n) (node_constraint_set n) (node_visibility n)
    (node_bindings n) (node_inferred n) (node_derived_impls n)
    (node_generated_artifacts n) (node_assertions n) (node_workflow_state n)
    (node_handler_meta n) (node_span n) (node_stable_id n).

Definition set_trust_metadata (v : option TrustMetadata) (n : GraphNode) : GraphNode :=
  MkGraphNode
    (node_id n) (node_kind n) (node_name n) (node_type_facts n)
    (node_effect_row n) (node_capability_reqs n) (node_contract_clauses n)
    (node_runtime_checks n) (node_content_hash n) (node_provenance n)
    (node_schema n) v (node_generic_params n) (node_params n)
    (node_return_type n) (node_body_expr n) (node_interface_impls n)
    (node_refinement_ref n) (node_constraint_set n) (node_visibility n)
    (node_bindings n) (node_inferred n) (node_derived_impls n)
    (node_generated_artifacts n) (node_assertions n) (node_workflow_state n)
    (node_handler_meta n) (node_span n) (node_stable_id n).

Definition set_params (v : option (list ParamDecl)) (n : GraphNode) : GraphNode :=
  MkGraphNode
    (node_id n) (node_kind n) (node_name n) (node_type_facts n)
    (node_effect_row n) (node_capability_reqs n) (node_contract_clauses n)
    (node_runtime_checks n) (node_content_hash n) (node_provenance n)
    (node_schema n) (node_trust_metadata n) (node_generic_params n) v
    (node_return_type n) (node_body_expr n) (node_interface_impls n)
    (node_refinement_ref n) (node_constraint_set n) (node_visibility n)
    (node_bindings n) (node_inferred n) (node_derived_impls n)
    (node_generated_artifacts n) (node_assertions n) (node_workflow_state n)
    (node_handler_meta n) (node_span n) (node_stable_id n).

Definition set_return_type (v : option string) (n : GraphNode) : GraphNode :=
  MkGraphNode
    (node_id n) (node_kind n) (node_name n) (node_type_facts n)
    (node_effect_row n) (node_capability_reqs n) (node_contract_clauses n)
    (node_runtime_checks n) (node_content_hash n) (node_provenance n)
    (node_schema n) (node_trust_metadata n) (node_generic_params n)
    (node_params n) v (node_body_expr n) (node_interface_impls n)
    (node_refinement_ref n) (node_constraint_set n) (node_visibility n)
    (node_bindings n) (node_inferred n) (node_derived_impls n)
    (node_generated_artifacts n) (node_assertions n) (node_workflow_state n)
    (node_handler_meta n) (node_span n) (node_stable_id n).

Definition set_body_expr (v : option string) (n : GraphNode) : GraphNode :=
  MkGraphNode
    (node_id n) (node_kind n) (node_name n) (node_type_facts n)
    (node_effect_row n) (node_capability_reqs n) (node_contract_clauses n)
    (node_runtime_checks n) (node_content_hash n) (node_provenance n)
    (node_schema n) (node_trust_metadata n) (node_generic_params n)
    (node_params n) (node_return_type n) v (node_interface_impls n)
    (node_refinement_ref n) (node_constraint_set n) (node_visibility n)
    (node_bindings n) (node_inferred n) (node_derived_impls n)
    (node_generated_artifacts n) (node_assertions n) (node_workflow_state n)
    (node_handler_meta n) (node_span n) (node_stable_id n).

Definition set_visibility (v : option Visibility) (n : GraphNode) : GraphNode :=
  MkGraphNode
    (node_id n) (node_kind n) (node_name n) (node_type_facts n)
    (node_effect_row n) (node_capability_reqs n) (node_contract_clauses n)
    (node_runtime_checks n) (node_content_hash n) (node_provenance n)
    (node_schema n) (node_trust_metadata n) (node_generic_params n)
    (node_params n) (node_return_type n) (node_body_expr n)
    (node_interface_impls n) (node_refinement_ref n) (node_constraint_set n)
    v (node_bindings n) (node_inferred n) (node_derived_impls n)
    (node_generated_artifacts n) (node_assertions n) (node_workflow_state n)
    (node_handler_meta n) (node_span n) (node_stable_id n).

Definition set_bindings (v : list Binding) (n : GraphNode) : GraphNode :=
  MkGraphNode
    (node_id n) (node_kind n) (node_name n) (node_type_facts n)
    (node_effect_row n) (node_capability_reqs n) (node_contract_clauses n)
    (node_runtime_checks n) (node_content_hash n) (node_provenance n)
    (node_schema n) (node_trust_metadata n) (node_generic_params n)
    (node_params n) (node_return_type n) (node_body_expr n)
    (node_interface_impls n) (node_refinement_ref n) (node_constraint_set n)
    (node_visibility n) v (node_inferred n) (node_derived_impls n)
    (node_generated_artifacts n) (node_assertions n) (node_workflow_state n)
    (node_handler_meta n) (node_span n) (node_stable_id n).

Definition set_inferred (v : list InferredFact) (n : GraphNode) : GraphNode :=
  MkGraphNode
    (node_id n) (node_kind n) (node_name n) (node_type_facts n)
    (node_effect_row n) (node_capability_reqs n) (node_contract_clauses n)
    (node_runtime_checks n) (node_content_hash n) (node_provenance n)
    (node_schema n) (node_trust_metadata n) (node_generic_params n)
    (node_params n) (node_return_type n) (node_body_expr n)
    (node_interface_impls n) (node_refinement_ref n) (node_constraint_set n)
    (node_visibility n) (node_bindings n) v (node_derived_impls n)
    (node_generated_artifacts n) (node_assertions n) (node_workflow_state n)
    (node_handler_meta n) (node_span n) (node_stable_id n).

Definition set_derived_impls (v : list string) (n : GraphNode) : GraphNode :=
  MkGraphNode
    (node_id n) (node_kind n) (node_name n) (node_type_facts n)
    (node_effect_row n) (node_capability_reqs n) (node_contract_clauses n)
    (node_runtime_checks n) (node_content_hash n) (node_provenance n)
    (node_schema n) (node_trust_metadata n) (node_generic_params n)
    (node_params n) (node_return_type n) (node_body_expr n)
    (node_interface_impls n) (node_refinement_ref n) (node_constraint_set n)
    (node_visibility n) (node_bindings n) (node_inferred n) v
    (node_generated_artifacts n) (node_assertions n) (node_workflow_state n)
    (node_handler_meta n) (node_span n) (node_stable_id n).

Definition set_generated_artifacts (v : list GeneratedArtifact) (n : GraphNode) : GraphNode :=
  MkGraphNode
    (node_id n) (node_kind n) (node_name n) (node_type_facts n)
    (node_effect_row n) (node_capability_reqs n) (node_contract_clauses n)
    (node_runtime_checks n) (node_content_hash n) (node_provenance n)
    (node_schema n) (node_trust_metadata n) (node_generic_params n)
    (node_params n) (node_return_type n) (node_body_expr n)
    (node_interface_impls n) (node_refinement_ref n) (node_constraint_set n)
    (node_visibility n) (node_bindings n) (node_inferred n)
    (node_derived_impls n) v (node_assertions n) (node_workflow_state n)
    (node_handler_meta n) (node_span n) (node_stable_id n).

Definition set_assertions (v : list Assertion) (n : GraphNode) : GraphNode :=
  MkGraphNode
    (node_id n) (node_kind n) (node_name n) (node_type_facts n)
    (node_effect_row n) (node_capability_reqs n) (node_contract_clauses n)
    (node_runtime_checks n) (node_content_hash n) (node_provenance n)
    (node_schema n) (node_trust_metadata n) (node_generic_params n)
    (node_params n) (node_return_type n) (node_body_expr n)
    (node_interface_impls n) (node_refinement_ref n) (node_constraint_set n)
    (node_visibility n) (node_bindings n) (node_inferred n)
    (node_derived_impls n) (node_generated_artifacts n) v
    (node_workflow_state n) (node_handler_meta n) (node_span n)
    (node_stable_id n).

Definition set_workflow_state (v : option WorkflowState) (n : GraphNode) : GraphNode :=
  MkGraphNode
    (node_id n) (node_kind n) (node_name n) (node_type_facts n)
    (node_effect_row n) (node_capability_reqs n) (node_contract_clauses n)
    (node_runtime_checks n) (node_content_hash n) (node_provenance n)
    (node_schema n) (node_trust_metadata n) (node_generic_params n)
    (node_params n) (node_return_type n) (node_body_expr n)
    (node_interface_impls n) (node_refinement_ref n) (node_constraint_set n)
    (node_visibility n) (node_bindings n) (node_inferred n)
    (node_derived_impls n) (node_generated_artifacts n) (node_assertions n)
    v (node_handler_meta n) (node_span n) (node_stable_id n).

(** A directed, typed edge. *)
Record GraphEdge : Type := MkGraphEdge {
  edge_source : NodeRef;
  edge_target : NodeRef;
  edge_kind : EdgeKind;
  edge_call_args : option (list string);
  edge_type_arg_bindings : option (list TypeArgBinding);
  edge_effect_arg_bindings : option (list EffectArgBinding);
  edge_capability_arg_bindings : option (list CapabilityArgBinding);
}.
#[global] Instance GraphEdge_eq_dec : EqDecision GraphEdge.
Proof. solve_decision. Defined.

(** [GraphEdge::new]: no call-site metadata. *)
Definition graph_edge_new (source target : NodeRef) (kind : EdgeKind) : GraphEdge :=
  MkGraphEdge source target kind None None None None.

(** The program: nodes and edges in insertion order. *)
Record SemanticGraph : Type := MkSemanticGraph {
  graph_nodes : list GraphNode;
  graph_edges : list GraphEdge;
}.
#[global] Instance SemanticGraph_eq_dec : EqDecision SemanticGraph.
Proof. solve_decision. Defined.

