(* ===== verification/SemanticGraph.v ===== *)
(** * Semantic graph validation and adjacency index

    crates/ail-core/src/semantic_graph/validation.rs and
    crates/ail-core/src/graph_index.rs.  [validate] stops at the first error,
    [validate_full] collects every error; [graph_wf] is the structural
    invariant both decide.  [graph_index_build] is the single pass over the
    edges that fills the forward and backward adjacency maps. *)

From S2P Require Import Prelude GraphTypes.

(* ------------------------------------------------------------------ *)
(** ** Validation errors *)

Inductive DanglingRole : Type :=
| RoleSource
| RoleTarget.
#[global] Instance DanglingRole_eq_dec : EqDecision DanglingRole.
Proof. solve_decision. Defined.

Inductive GraphValidationError : Type :=
| DuplicateRef (r : NodeRef)
| DanglingEdge (r : NodeRef) (role : DanglingRole)
| EffectRowNoEmitsEdge (r : NodeRef)
| CapabilityReqsMissingNode (owner_ref : NodeRef) (cap_name : string).
#[global] Instance GraphValidationError_eq_dec : EqDecision GraphValidationError.
Proof. solve_decision. Defined.

(* ------------------------------------------------------------------ *)
(** ** [SemanticGraph::validate] *)

(** Pass 1: the set of known refs, or the first duplicate. *)
Fixpoint collect_refs (seen : gset NodeRef) (nodes : list GraphNode)
  : result (gset NodeRef) GraphValidationError :=
  match nodes with
  | [] => Ok seen
  | n :: nodes' =>
      if decide (node_id n ∈ seen) then Err (DuplicateRef (node_id n))
      else collect_refs ({[node_id n]} ∪ seen) nodes'
  end.

(** Pass 2: every edge endpoint is known, source before target. *)
Fixpoint check_edges (seen : gset NodeRef) (edges : list GraphEdge)
  : result unit GraphValidationError :=
  match edges with
  | [] => Ok tt
  | e :: edges' =>
      if decide (edge_source e ∉ seen) then Err (DanglingEdge (edge_source e) RoleSource)
      else if decide (edge_target e ∉ seen) then Err (DanglingEdge (edge_target e) RoleTarget)
      else check_edges seen edges'
  end.

Definition validate (g : SemanticGraph) : result unit GraphValidationError :=
  let? seen := collect_refs ∅ (graph_nodes g) in
  check_edges seen (graph_edges g).

(* ------------------------------------------------------------------ *)
(** ** [SemanticGraph::validate_full] *)

(** Pass 1: the set of known refs and every duplicate, in node order. *)
Fixpoint collect_refs_full (seen : gset NodeRef) (nodes : list GraphNode)
  : gset NodeRef * list GraphValidationError :=
  match nodes with
  | [] => (seen, [])
  | n :: nodes' =>
      let '(seen', errors) := collect_refs_full ({[node_id n]} ∪ seen) nodes' in
      (seen', if decide (node_id n ∈ seen) then DuplicateRef (node_id n) :: errors else errors)
  end.

(** Pass 2: both endpoints of every edge. *)
Definition edge_errors (seen : gset NodeRef) (e : GraphEdge) : list GraphValidationError :=
  (if decide (edge_source e ∉ seen) then [DanglingEdge (edge_source e) RoleSource] else []) ++
  (if decide (edge_target e ∉ seen) then [DanglingEdge (edge_target e) RoleTarget] else []).

(** Pass 3: a non-empty effect row needs an outgoing [Emits] edge. *)
Definition declares_effects (n : GraphNode) : bool :=
  match node_effect_row n with
  | Some row => negb (bool_decide (er_effects row = []))
  | None => false
  end.

Definition has_emits (g : SemanticGraph) (n : GraphNode) : bool :=
  any (λ e, edge_source e = node_id n ∧ edge_kind e = EkEmits) (graph_edges g).

Definition effect_errors (g : SemanticGraph) (n : GraphNode) : list GraphValidationError :=
  if declares_effects n && negb (has_emits g n) then [EffectRowNoEmitsEdge (node_id n)] else [].

(** Pass 4: a required capability needs a [Capability] node of that name. *)
Definition capability_names (g : SemanticGraph) : gset string :=
  list_to_set (node_name <$> filter (λ n, node_kind n = NkCapability) (graph_nodes g)).

Definition capability_errors (g : SemanticGraph) (n : GraphNode) : list GraphValidationError :=
  match node_capability_reqs n with
  | Some reqs =>
      CapabilityReqsMissingNode (node_id n) <$>
        filter (λ cap, cap ∉ capability_names g) (cr_caps reqs)
  | None => []
  end.

Definition validate_full (g : SemanticGraph) : list GraphValidationError :=
  let '(seen, duplicates) := collect_refs_full ∅ (graph_nodes g) in
  duplicates ++
  (graph_edges g ≫= edge_errors seen) ++
  (graph_nodes g ≫= effect_errors g) ++
  (graph_nodes g ≫= capability_errors g).

(* ------------------------------------------------------------------ *)
(** ** [GraphIndex] *)

Record GraphIndex : Type := MkGraphIndex {
  index_forward : gmap NodeRef (list NodeRef);
  index_backward : gmap NodeRef (list NodeRef);
}.

(** [map.entry(k).or_default().push(v)] *)
Definition push_entry (k v : NodeRef) (m : gmap NodeRef (list NodeRef))
  : gmap NodeRef (list NodeRef) :=
  <[k := default [] (m !! k) ++ [v]]> m.

Definition index_edge (idx : GraphIndex) (e : GraphEdge) : GraphIndex :=
  MkGraphIndex
    (push_entry (edge_source e) (edge_target e) (index_forward idx))
    (push_entry (edge_target e) (edge_source e) (index_backward idx)).

(** [GraphIndex::build] *)
Definition graph_index_build (g : SemanticGraph) : GraphIndex :=
  foldl index_edge (MkGraphIndex ∅ ∅) (graph_edges g).

Definition callees (idx : GraphIndex) (r : NodeRef) : list NodeRef :=
  default [] (index_forward idx !! r).

Definition callers (idx : GraphIndex) (r : NodeRef) : list NodeRef :=
  default [] (index_backward idx !! r).

(* ------------------------------------------------------------------ *)
(** ** Specification: the structural invariant *)

Definition node_ids (g : SemanticGraph) : list NodeRef := node_id <$> graph_nodes g.

Definition edge_ok (ids : list NodeRef) (e : GraphEdge) : Prop :=
  edge_source e ∈ ids ∧ edge_target e ∈ ids.

(** Unique refs, no dangling edge. *)
Definition graph_wf (g : SemanticGraph) : Prop :=
  NoDup (node_ids g) ∧ Forall (edge_ok (node_ids g)) (graph_edges g).
#[global] Instance graph_wf_dec g : Decision (graph_wf g).
Proof. unfold graph_wf, edge_ok. apply _. Defined.

(** A node that declares effects is the source of an [Emits] edge. *)
Definition effects_coherent (g : SemanticGraph) : Prop :=
  ∀ n row, n ∈ graph_nodes g → node_effect_row n = Some row → er_effects row ≠ [] →
    ∃ e, e ∈ graph_edges g ∧ edge_source e = node_id n ∧ edge_kind e = EkEmits.

(** A required capability is the name of a [Capability] node. *)
Definition capabilities_consistent (g : SemanticGraph) : Prop :=
  ∀ n reqs cap, n ∈ graph_nodes g → node_capability_reqs n = Some reqs → cap ∈ cr_caps reqs →
    ∃ c, c ∈ graph_nodes g ∧ node_kind c = NkCapability ∧ node_name c = cap.

Definition structural_error (e : GraphValidationError) : Prop :=
  match e with
  | DuplicateRef _ | DanglingEdge _ _ => True
  | EffectRowNoEmitsEdge _ | CapabilityReqsMissingNode _ _ => False
  end.

(* ------------------------------------------------------------------ *)
(** ** Lemmas *)

Lemma collect_refs_Ok seen nodes s :
  collect_refs seen nodes = Ok s ↔
  NoDup (node_id <$> nodes) ∧ (∀ n, n ∈ nodes → node_id n ∉ seen) ∧
  s = list_to_set (node_id <$> nodes) ∪ seen.
Proof.
  revert seen. induction nodes as [|n nodes IH]; intros seen; csimpl.
  - split; [intros [= <-]|intros (_&_&->)]; repeat split; try constructor; try set_solver.
    f_equal. set_solver.
  - rewrite NoDup_cons. case_decide as Hin.
    + split; [done|]. intros (_&H&_). set_solver.
    + rewrite IH. split; intros (HN&Hd&->); repeat split; set_solver.
Qed.

Lemma check_edges_Ok seen edges :
  check_edges seen edges = Ok tt ↔
  ∀ e, e ∈ edges → edge_source e ∈ seen ∧ edge_target e ∈ seen.
Proof.
  induction edges as [|e edges IH]; simpl; [set_solver|].
  repeat case_decide; try rewrite IH; set_solver.
Qed.

Lemma validate_Ok g : validate g = Ok tt ↔ graph_wf g.
Proof.
  unfold validate, graph_wf, edge_ok, node_ids. rewrite Forall_forall.
  destruct (collect_refs ∅ (graph_nodes g)) as [s|err] eqn:E.
  - apply collect_refs_Ok in E as (HN&_&->). rewrite check_edges_Ok. set_solver.
  - split; [done|]. intros [HN _].
    assert (collect_refs ∅ (graph_nodes g) = Ok (list_to_set (node_id <$> graph_nodes g) ∪ ∅))
      as H by (apply collect_refs_Ok; set_solver). congruence.
Qed.

Lemma validate_unit g : is_ok (validate g) = true ↔ graph_wf g.
Proof.
  rewrite <- validate_Ok. destruct (validate g) as [[]|]; simpl; split; done.
Qed.

(** The first duplicate: the nodes before it have distinct refs. *)
Lemma collect_refs_Err seen nodes err :
  collect_refs seen nodes = Err err →
  ∃ pre n suf, nodes = pre ++ n :: suf ∧ err = DuplicateRef (node_id n) ∧
    NoDup (node_id <$> pre) ∧ (∀ m, m ∈ pre → node_id m ∉ seen) ∧
    (node_id n ∈ seen ∨ node_id n ∈ (node_id <$> pre)).
Proof.
  revert seen. induction nodes as [|n nodes IH]; intros seen; simpl; [done|].
  case_decide as Hin.
  - intros [= <-]. exists [], n, nodes. split_and!; [done..|constructor|set_solver|by left].
  - intros (pre&m&suf&->&->&HN&Hpre&Hm)%IH. exists (n :: pre), m, suf.
    split_and!; [done..| |set_solver|csimpl; set_solver].
    csimpl. apply NoDup_cons; split; [|done]. rewrite list_elem_of_fmap. set_solver.
Qed.

Definition endpoint (role : DanglingRole) (e : GraphEdge) : NodeRef :=
  match role with RoleSource => edge_source e | RoleTarget => edge_target e end.

Lemma check_edges_Err seen edges err :
  check_edges seen edges = Err err →
  ∃ pre e suf role, edges = pre ++ e :: suf ∧ err = DanglingEdge (endpoint role e) role ∧
    (∀ d, d ∈ pre → edge_source d ∈ seen ∧ edge_target d ∈ seen) ∧
    (endpoint role e ∉ seen) ∧ (role = RoleTarget → edge_source e ∈ seen).
Proof.
  induction edges as [|e edges IH]; simpl; [done|].
  case_decide as Hs; [|case_decide as Ht].
  - intros [= <-]. exists [], e, edges, RoleSource. split_and!; [done..|set_solver|done|done].
  - intros [= <-]. exists [], e, edges, RoleTarget.
    split_and!; try done; set_solver.
  - intros (pre&d&suf&role&->&->&Hpre&Hd)%IH. exists (e :: pre), d, suf, role.
    split_and!; [done..| |tauto|tauto].
    intros x [->|Hx]%elem_of_cons; [done|by apply Hpre].
Qed.

(** What each outcome of [validate] says about the graph. *)
Definition validate_post (g : SemanticGraph) (r : result unit GraphValidationError) : Prop :=
  match r with
  | Ok _ => graph_wf g
  | Err (DuplicateRef r) =>
      ∃ pre n suf, graph_nodes g = pre ++ n :: suf ∧ node_id n = r ∧
        NoDup (node_id <$> pre) ∧ r ∈ (node_id <$> pre)
  | Err (DanglingEdge r role) =>
      NoDup (node_ids g) ∧
      ∃ pre e suf, graph_edges g = pre ++ e :: suf ∧ endpoint role e = r ∧
        Forall (edge_ok (node_ids g)) pre ∧ (r ∉ node_ids g) ∧
        (role = RoleTarget → edge_source e ∈ node_ids g)
  | Err _ => False
  end.

Lemma validate_post_holds g : validate_post g (validate g).
Proof.
  destruct (validate g) as [[]|err] eqn:E; [by apply validate_Ok|].
  unfold validate in E. destruct (collect_refs ∅ (graph_nodes g)) as [s|err'] eqn:Ec; simplify_eq.
  - apply collect_refs_Ok in Ec as (HN&_&->).
    apply check_edges_Err in E as (pre&e&suf&role&He&->&Hpre&Hnin&Hs).
    simpl. split; [done|]. exists pre, e, suf. rewrite Forall_forall. unfold edge_ok, node_ids.
    set_solver.
  - apply collect_refs_Err in Ec as (pre&n&suf&Hg&->&HN&_&Hn). simpl.
    exists pre, n, suf. set_solver.
Qed.

(** *** [validate_full] *)

Lemma collect_refs_full_set seen nodes :
  (collect_refs_full seen nodes).1 = list_to_set (node_id <$> nodes) ∪ seen.
Proof.
  revert seen. induction nodes as [|n nodes IH]; intros seen; csimpl; [set_solver|].
  destruct (collect_refs_full _ _) as [s errs] eqn:E. simpl.
  specialize (IH ({[node_id n]} ∪ seen)). rewrite E in IH. simpl in IH. subst.
  apply leibniz_equiv. set_solver.
Qed.

Lemma collect_refs_full_structural seen nodes e :
  e ∈ (collect_refs_full seen nodes).2 → structural_error e.
Proof.
  revert seen. induction nodes as [|n nodes IH]; intros seen; simpl; [set_solver|].
  specialize (IH ({[node_id n]} ∪ seen)).
  destruct (collect_refs_full _ _) as [s errs]. simpl in *.
  case_decide; [|done]. intros [->|]%elem_of_cons; [done|auto].
Qed.

(** Both passes meet the same first duplicate. *)
Lemma collect_refs_full_head seen nodes :
  head (collect_refs_full seen nodes).2 =
  match collect_refs seen nodes with Ok _ => None | Err e => Some e end.
Proof.
  revert seen. induction nodes as [|n nodes IH]; intros seen; simpl; [done|].
  specialize (IH ({[node_id n]} ∪ seen)).
  destruct (collect_refs_full _ _) as [s errs]. simpl in *. by case_decide.
Qed.

Lemma edge_errors_structural seen e err : err ∈ edge_errors seen e → structural_error err.
Proof. unfold edge_errors. repeat case_decide; set_solver. Qed.

Lemma edge_errors_head seen edges :
  head (edges ≫= edge_errors seen) =
  match check_edges seen edges with Ok _ => None | Err e => Some e end.
Proof.
  induction edges as [|e edges IH]; csimpl; [done|]. unfold edge_errors at 1.
  repeat case_decide; done.
Qed.

Lemma head_app_ne {A} (l k : list A) : head (l ++ k) = match head l with None => head k | o => o end.
Proof. by destruct l. Qed.

Lemma effect_capability_not_structural g e :
  e ∈ (graph_nodes g ≫= effect_errors g) ++ (graph_nodes g ≫= capability_errors g) →
  ¬ structural_error e.
Proof.
  rewrite elem_of_app, !list_elem_of_bind. intros [(n&He&_)|(n&He&_)].
  - unfold effect_errors in He. case_match; set_solver.
  - unfold capability_errors in He. case_match; [|set_solver].
    apply list_elem_of_fmap in He as (cap&->&_). naive_solver.
Qed.

Lemma validate_full_head g :
  head (validate_full g) =
  match validate g with
  | Err e => Some e
  | Ok _ => head ((graph_nodes g ≫= effect_errors g) ++ (graph_nodes g ≫= capability_errors g))
  end.
Proof.
  unfold validate_full, validate.
  pose proof (collect_refs_full_head ∅ (graph_nodes g)) as Hh.
  pose proof (collect_refs_full_set ∅ (graph_nodes g)) as Hs.
  destruct (collect_refs_full _ _) as [s dups]. simpl in *. subst s.
  rewrite head_app_ne, Hh. destruct (collect_refs ∅ _) as [s|err] eqn:E; [|done].
  apply collect_refs_Ok in E as (_&_&->). rewrite head_app_ne, edge_errors_head.
  by destruct (check_edges _ _).
Qed.


Lemma effect_errors_nil g : graph_nodes g ≫= effect_errors g = [] ↔ effects_coherent g.
Proof.
  rewrite bind_nil_iff. unfold effects_coherent, effect_errors, declares_effects, has_emits.
  split.
  - intros H n row Hn Hrow Hne. specialize (H n Hn). rewrite Hrow in H.
    rewrite bool_decide_eq_false_2 in H by done. simpl in H.
    destruct (any _ _) eqn:E; [|done]. apply any_true in E. naive_solver.
  - intros H n Hn. destruct (node_effect_row n) as [row|] eqn:Hrow; [|done].
    case_bool_decide as Hne; [done|]. simpl.
    rewrite (proj2 (any_true _ _)); [done|]. naive_solver.
Qed.

Lemma elem_of_capability_names g cap :
  cap ∈ capability_names g ↔
  ∃ c, c ∈ graph_nodes g ∧ node_kind c = NkCapability ∧ node_name c = cap.
Proof.
  unfold capability_names. rewrite elem_of_list_to_set, list_elem_of_fmap.
  setoid_rewrite list_elem_of_filter. naive_solver.
Qed.

Lemma capability_errors_nil g :
  graph_nodes g ≫= capability_errors g = [] ↔ capabilities_consistent g.
Proof.
  rewrite bind_nil_iff. unfold capabilities_consistent, capability_errors.
  setoid_rewrite <- elem_of_capability_names. split.
  - intros H n reqs cap Hn Hr Hc. specialize (H n Hn). rewrite Hr in H.
    apply fmap_nil_inv in H. apply dec_stable. intros Hnin.
    eapply (not_elem_of_nil cap). rewrite <- H. by apply list_elem_of_filter.
  - intros H n Hn. destruct (node_capability_reqs n) as [reqs|] eqn:Hr; [|done].
    rewrite (proj2 (filter_nil_iff _ _)); [done|]. naive_solver.
Qed.

Lemma validate_full_nil g :
  validate_full g = [] ↔ graph_wf g ∧ effects_coherent g ∧ capabilities_consistent g.
Proof.
  rewrite <- effect_errors_nil, <- capability_errors_nil, <- validate_Ok.
  pose proof (validate_full_head g) as Hh. split.
  - intros E. rewrite E in Hh. simpl in Hh. destruct (validate g) as [[]|]; [|done].
    split; [done|]. apply app_nil. by destruct (_ ++ _).
  - intros (Hv&He&Hc). rewrite Hv, He, Hc in Hh. by destruct (validate_full g).
Qed.

(** *** The adjacency index *)

Lemma push_entry_lookup k v m r :
  default [] (push_entry k v m !! r) =
  default [] (m !! r) ++ (if decide (k = r) then [v] else []).
Proof.
  unfold push_entry. case_decide; subst; simplify_map_eq; [done|]. by rewrite app_nil_r.
Qed.

Lemma index_fold_callees edges idx r :
  callees (foldl index_edge idx edges) r =
  callees idx r ++ (edge_target <$> filter (λ e, edge_source e = r) edges).
Proof.
  revert idx. induction edges as [|e edges IH]; intros idx; csimpl; [by rewrite app_nil_r|].
  rewrite IH. unfold callees at 1, index_edge at 1; simpl. rewrite push_entry_lookup.
  rewrite filter_cons. case_decide; csimpl; by rewrite <- app_assoc.
Qed.

Lemma index_fold_callers edges idx r :
  callers (foldl index_edge idx edges) r =
  callers idx r ++ (edge_source <$> filter (λ e, edge_target e = r) edges).
Proof.
  revert idx. induction edges as [|e edges IH]; intros idx; csimpl; [by rewrite app_nil_r|].
  rewrite IH. unfold callers at 1, index_edge at 1; simpl. rewrite push_entry_lookup.
  rewrite filter_cons. case_decide; csimpl; by rewrite <- app_assoc.
Qed.

Lemma callees_build g r :
  callees (graph_index_build g) r =
  edge_target <$> filter (λ e, edge_source e = r) (graph_edges g).
Proof. apply index_fold_callees. Qed.

Lemma callers_build g r :
  callers (graph_index_build g) r =
  edge_source <$> filter (λ e, edge_target e = r) (graph_edges g).
Proof. apply index_fold_callers. Qed.

(* ------------------------------------------------------------------ *)
(** ** Properties *)

(** [validate] decides the structural invariant: it returns [Ok] exactly on
    the graphs with unique refs and no dangling edge, and an error names the
    first violation: the first node whose ref occurs before it, or, when all
    refs are distinct, the first edge with an endpoint that is no node of the
    graph (the source is looked at before the target). *)
Theorem validate_spec g :
  (validate g = Ok tt ↔ graph_wf g) ∧ validate_post g (validate g).
Proof. split; [apply validate_Ok|apply validate_post_holds]. Qed.

(** [validate_full] returns no error exactly when the graph is structurally
    well formed, every node that declares effects has an [Emits] edge and every
    required capability is the name of a [Capability] node. *)
Theorem validate_full_spec g :
  validate_full g = [] ↔ graph_wf g ∧ effects_coherent g ∧ capabilities_consistent g.
Proof. apply validate_full_nil. Qed.

(** [validate] and [validate_full] agree: [validate] fails with [e] exactly
    when [e] is the first error of [validate_full] and is a structural one. *)
Theorem validate_is_first_structural_error g e :
  validate g = Err e ↔ head (validate_full g) = Some e ∧ structural_error e.
Proof.
  rewrite validate_full_head. pose proof (validate_post_holds g) as Hp.
  destruct (validate g) as [[]|err] eqn:E.
  - split; [done|]. intros [Hh Hs]. exfalso.
    apply (effect_capability_not_structural g e); [|done].
    destruct (_ ++ _); simplify_eq/=. apply list_elem_of_here.
  - split; [intros [= ->]|naive_solver]. split; [done|]. by destruct e.
Qed.

(** [GraphIndex::build] is the adjacency of the graph: the callees (callers)
    of a ref are the targets (sources) of its outgoing (incoming) edges of
    every kind, in edge order and with multiplicity, and the two directions
    are converse of each other. *)
Theorem graph_index_adjacency g r s :
  callees (graph_index_build g) r =
    (edge_target <$> filter (λ e, edge_source e = r) (graph_edges g)) ∧
  callers (graph_index_build g) r =
    (edge_source <$> filter (λ e, edge_target e = r) (graph_edges g)) ∧
  (s ∈ callees (graph_index_build g) r ↔ r ∈ callers (graph_index_build g) s).
Proof.
  rewrite !callees_build, !callers_build. split_and!; [done..|].
  rewrite !list_elem_of_fmap. setoid_rewrite list_elem_of_filter. naive_solver.
Qed.
