(* ===== verification/ChangeModel.v ===== *)
(** * ChangeSet data model

    crates/ail-change/src/model.rs, parser_types.rs and canonical/model.rs:
    the raw and the parsed ChangeSet, the canonical ChangeSet with its graph
    mutation payloads and preconditions, and the outcome of an application.

    [SnapshotId] and [Timestamp] are [u64]; [BlockHash] is the byte string of
    a BLAKE3 digest.  BLAKE3 and CBOR are third-party crates: [HashBackend] is
    the interface through which the components call them, and every theorem
    holds for each of its instances.  The human-readable [reason] of a failure
    is kept as a value with one constructor per [format!] call of the source. *)

From S2P Require Import Prelude GraphTypes SemanticGraph.

(* ------------------------------------------------------------------ *)
(** ** Scalars *)

Definition SnapshotId : Type := N.
#[global] Instance SnapshotId_eq_dec : EqDecision SnapshotId := N.eq_dec.

Definition Timestamp : Type := N.
#[global] Instance Timestamp_eq_dec : EqDecision Timestamp := N.eq_dec.

(** Bytes are [N] below 256. *)
Definition BlockHash : Type := list N.
#[global] Instance BlockHash_eq_dec : EqDecision BlockHash := list_eq_dec.

(* ------------------------------------------------------------------ *)
(** ** Operations *)

(** The 27 operation kinds, grouped by canonical phase. *)
Inductive ChangeSetOp : Type :=
| OpCreate
| OpSet | OpAdd | OpRemove | OpDelete | OpDisconnect | OpRename | OpMove | OpReplace
| OpConnect | OpBind | OpExpose | OpHide | OpGrant | OpRevoke
| OpInfer | OpDerive | OpGenerate
| OpAssert | OpLock | OpRefactor | OpMigrate | OpApprove | OpReject | OpDeprecate
| OpAnnotate | OpVerify.
#[global] Instance ChangeSetOp_eq_dec : EqDecision ChangeSetOp.
Proof. solve_decision. Defined.

(** What the components need from the [blake3] and [ciborium] crates: a digest
    of a byte string, and the byte encodings that are hashed. *)
Class HashBackend : Type := {
  blake3 : list N → BlockHash;
  cbor_node : GraphNode → list N;
  cbor_op : ChangeSetOp → list N;
}.

Record ChangeSetMeta : Type := MkChangeSetMeta {
  csm_author : string;
  csm_description : string;
  csm_timestamp : Timestamp;
}.

Record ChangeSet : Type := MkChangeSet {
  cs_meta : ChangeSetMeta;
  cs_base_snapshot_id : SnapshotId;
  cs_ops : list ChangeSetOp;
}.

Inductive ConflictReason : Type :=
| SameNodeModifiedIncompatibly
| NodeDeletedWhileModified
| PublicApiConflict
| InvariantTouchedConcurrently
| IncompatibleNodeModification.
#[global] Instance ConflictReason_eq_dec : EqDecision ConflictReason.
Proof. solve_decision. Defined.

(** One constructor per message [apply] and its helpers format. *)
Inductive FailureReason : Type :=
| AssertExistsFailed (r : NodeRef)
| AssertHashNodeMissing (r : NodeRef)
| AssertHashMismatch (r : NodeRef)
| AssertExistsByNameFailed (name : string)
| AssertHashByNameMissing (name : string)
| AssertHashByNameMismatch (name : string)
| AssertContextMissing (name : string)
| AssertContextMismatch (name : string)
| InvariantViolated (err : GraphValidationError).
#[global] Instance FailureReason_eq_dec : EqDecision FailureReason.
Proof. solve_decision. Defined.

Inductive ChangeSetOutcome : Type :=
| Applied
| RebaseRequired (current_snapshot_id : SnapshotId)
| Failed (reason : FailureReason)
| ConflictIrresolvable (reason : ConflictReason).
#[global] Instance ChangeSetOutcome_eq_dec : EqDecision ChangeSetOutcome.
Proof. solve_decision. Defined.

(* ------------------------------------------------------------------ *)
(** ** Parser DTOs *)

(** [BTreeMap<String, String>] *)
Abbreviation OpArgs := (gmap string string).

Record ParsedOp : Type := MkParsedOp {
  po_kind : ChangeSetOp;
  po_verb : string;
  po_args : OpArgs;
}.

Record ChangeComposition : Type := MkChangeComposition {
  comp_depends_on : list string;
  comp_supersedes : list string;
  comp_conflicts_with : list string;
  comp_part_of : list string;
  comp_blocks : list string;
}.

(** [ChangeComposition::default] *)
Definition change_composition_default : ChangeComposition :=
  MkChangeComposition [] [] [] [] [].

Record ParsedBlock : Type := MkParsedBlock {
  pb_kind : string;
  pb_block_ref : string;
  pb_content : string;
  pb_hash : option string;
}.

Record ExpectClaims : Type := MkExpectClaims { expect_claims : list string }.

Record ApprovalRequirements : Type :=
  MkApprovalRequirements { approval_requirements : list string }.

(* ------------------------------------------------------------------ *)
(** ** Canonical form *)

Record CanonicalMeta : Type := MkCanonicalMeta {
  cm_author : string;
  cm_description : string;
  cm_timestamp : Timestamp;
}.

(** The concrete graph mutation of a canonical op. *)
Inductive OpPayload : Type :=
| CreateNode (node : GraphNode)
| AddEdge (edge : GraphEdge)
| RemoveNode (node_id : NodeRef)
| SetNodeName (node_id : NodeRef) (name : string)
| RemoveNodeByName (name : string)
| RenameNodeByName (target name : string)
| AddEdgeByName (source target : string) (kind : EdgeKind)
| RemoveEdgeByName (source target : string) (kind : EdgeKind)
| SetReturnByName (target ty : string)
| SetBodyByName (target body : string)
| SetMetadataByName (target key value : string)
| AddParamByName (target name ty : string)
| AddEffectByName (target effect : string)
| RemoveEffectByName (target effect : string)
| AddContractByName (target kind rule : string)
| RemoveContractByName (target rule : string)
| AddCapabilityReqByName (target capability : string)
| RemoveCapabilityReqByName (target capability : string)
| SetVisibilityByName (target : string) (visibility : Visibility)
| AddBindingByName (target : string) (binding : Binding)
| AddInferredFactByName (target : string) (fact : InferredFact)
| AddDerivedImplByName (target impl_name : string)
| AddGeneratedArtifactByName (target : string) (artifact : GeneratedArtifact)
| AddAssertionByName (target : string) (assertion : Assertion)
| SetWorkflowStateByName (target : string) (state : WorkflowState)
| Noop.
#[global] Instance OpPayload_eq_dec : EqDecision OpPayload.
Proof. solve_decision. Defined.

Record CanonicalOp : Type := MkCanonicalOp {
  cop_kind : ChangeSetOp;
  cop_verb : string;
  cop_args : OpArgs;
  cop_payload : OpPayload;
  cop_block_hash : BlockHash;
}.
#[global] Instance CanonicalOp_eq_dec : EqDecision CanonicalOp.
Proof. solve_decision. Defined.

(** [CanonicalOp::default] *)
Definition canonical_op_default : CanonicalOp :=
  MkCanonicalOp OpInfer "" ∅ Noop (replicate 32 0%N).

(** Evaluated before any op; the numeric forms carry the fields of the structs
    [AssertExists] and [AssertHash]. *)
Inductive Precondition : Type :=
| AssertExists (node_id : NodeRef)
| AssertHash (node_id : NodeRef) (expected_hash : BlockHash)
| AssertExistsByName (name : string)
| AssertHashByName (name : string) (expected_hash : BlockHash)
| AssertContext (target_name : string) (context_hash : option string).

(** The five optional schema versions are [op_schema], [graph_schema],
    [core_ir_schema], [diagnostics_schema] and [verification_schema]. *)
Record CanonicalChangeSet : Type := MkCanonicalChangeSet {
  ccs_meta : CanonicalMeta;
  ccs_base_snapshot_id : SnapshotId;
  ccs_acl_version : string;
  ccs_op_schema_version : option string;
  ccs_graph_schema_version : option string;
  ccs_core_ir_schema_version : option string;
  ccs_diagnostics_schema_version : option string;
  ccs_verification_schema_version : option string;
  ccs_preconditions : list Precondition;
  ccs_ops : list CanonicalOp;
  ccs_expect : option ExpectClaims;
  ccs_approval : option ApprovalRequirements;
  ccs_composition : ChangeComposition;
  ccs_blocks : list ParsedBlock;
  ccs_verify : list string;
}.

Definition default_acl_version : string := "1.0".

(** [CanonicalChangeSet::default] *)
Definition canonical_change_set_default : CanonicalChangeSet :=
  MkCanonicalChangeSet (MkCanonicalMeta "" "" 0%N) 0%N default_acl_version
    None None None None None [] [] None None change_composition_default [] [].

(** [cs.base_snapshot_id = id] *)
Definition set_base_snapshot_id (id : SnapshotId) (cs : CanonicalChangeSet)
  : CanonicalChangeSet :=
  MkCanonicalChangeSet (ccs_meta cs) id (ccs_acl_version cs)
    (ccs_op_schema_version cs) (ccs_graph_schema_version cs)
    (ccs_core_ir_schema_version cs) (ccs_diagnostics_schema_version cs)
    (ccs_verification_schema_version cs) (ccs_preconditions cs) (ccs_ops cs)
    (ccs_expect cs) (ccs_approval cs) (ccs_composition cs) (ccs_blocks cs)
    (ccs_verify cs).

Record ParsedChangeSet : Type := MkParsedChangeSet {
  pcs_changeset : ChangeSet;
  pcs_preconditions : list Precondition;
  pcs_parsed_ops : list ParsedOp;
  pcs_acl_version : string;
  pcs_op_schema_version : option string;
  pcs_graph_schema_version : option string;
  pcs_core_ir_schema_version : option string;
  pcs_diagnostics_schema_version : option string;
  pcs_verification_schema_version : option string;
  pcs_expect : option ExpectClaims;
  pcs_approval : option ApprovalRequirements;
  pcs_composition : ChangeComposition;
  pcs_blocks : list ParsedBlock;
  pcs_verify : list string;
}.

(** [ParsedChangeSet::default] *)
Definition parsed_change_set_default : ParsedChangeSet :=
  MkParsedChangeSet (MkChangeSet (MkChangeSetMeta "" "" 0%N) 0%N []) [] []
    default_acl_version None None None None None None None
    change_composition_default [] [].

(* ------------------------------------------------------------------ *)
(** ** Classification of payloads *)

(** Payloads that name nodes by [NodeRef]; every other payload but [Noop]
    resolves a name against the live graph. *)
Definition ref_payload (p : OpPayload) : bool :=
  match p with
  | CreateNode _ | AddEdge _ | RemoveNode _ | SetNodeName _ _ => true
  | _ => false
  end.

(* ------------------------------------------------------------------ *)
(** ** A backend to evaluate the model with *)

(** An encoding with one byte per op kind, and the identity as digest. *)
Definition op_code (op : ChangeSetOp) : N :=
  match op with
  | OpCreate => 0 | OpSet => 1 | OpAdd => 2 | OpRemove => 3 | OpDelete => 4
  | OpDisconnect => 5 | OpRename => 6 | OpMove => 7 | OpReplace => 8 | OpConnect => 9
  | OpBind => 10 | OpExpose => 11 | OpHide => 12 | OpGrant => 13 | OpRevoke => 14
  | OpInfer => 15 | OpDerive => 16 | OpGenerate => 17 | OpAssert => 18 | OpLock => 19
  | OpRefactor => 20 | OpMigrate => 21 | OpApprove => 22 | OpReject => 23
  | OpDeprecate => 24 | OpAnnotate => 25 | OpVerify => 26
  end%N.

Definition test_backend : HashBackend := {|
  blake3 := λ bytes, bytes;
  cbor_node := λ n, [node_id n];
  cbor_op := λ op, [op_code op];
|}.
