(* ===== verification/Normalize.v ===== *)
(** * Identifier normalisation and argument defaults

    crates/ail-change/src/canonical/normalize.rs ([normalize_id],
    [pascal_to_snake], [normalize_op_args]) and canonical/defaults.rs
    ([materialize_defaults]).  Both rewrite the argument map of an op in place;
    the definitions return the new map. *)

From S2P Require Import Prelude Text GraphTypes SemanticGraph ChangeModel.

(** Namespaces whose local part keeps its casing. *)
Definition PASCAL_NAMESPACES : list string := ["type"; "handler"; "boundary"].

(** The loop of [pascal_to_snake]; [first] is [i == 0]. *)
Fixpoint pascal_to_snake_from (first : bool) (s : string) : string :=
  match s with
  | EmptyString => EmptyString
  | String c s' =>
      let rest := String (ascii_to_lower c) (pascal_to_snake_from false s') in
      if ascii_is_upper c && negb first then String "_" rest else rest
  end.

Definition pascal_to_snake (s : string) : string := pascal_to_snake_from true s.

Definition normalize_id (id : string) : string :=
  match split_once "." id with
  | None => id
  | Some (ns, local) =>
      let ns_lower := to_lowercase ns in
      let local_normalized :=
        if decide (ns_lower ∈ PASCAL_NAMESPACES)
        then replace_char "-" "_" local
        else replace_char "-" "_" (pascal_to_snake local) in
      ns_lower +:+ String "." local_normalized
  end.

Definition ID_ARG_KEYS : list string := ["id"; "target"; "source"; "to"; "from"].

Definition normalize_op_args (args : OpArgs) : OpArgs :=
  foldl (λ args key, alter normalize_id key args) args ID_ARG_KEYS.

Definition materialize_defaults (kind : ChangeSetOp) (verb : string) (args : OpArgs) : OpArgs :=
  if decide (kind = OpCreate) then
    let args :=
      if decide (verb ∈ ["create_function"; "create_type"])
      then or_insert "visibility" "private" args else args in
    if decide (verb = "create_type") then or_insert "derive" "none" args else args
  else args.

(* ------------------------------------------------------------------ *)
(** ** Normal forms *)

(** An identifier is in normal form when it has no namespace, or a lower-case
    namespace and a local part without [-], which is lower-case too unless
    the namespace keeps PascalCase. *)
Definition id_canonical (id : string) : bool :=
  match split_once "." id with
  | None => true
  | Some (ns, local) =>
      no_upper ns && no_char "-" local &&
      (bool_decide (ns ∈ PASCAL_NAMESPACES) || no_upper local)
  end.

Lemma pascal_to_snake_from_no_upper b s : no_upper (pascal_to_snake_from b s) = true.
Proof.
  revert b. induction s as [|c s IH]; intros b; simpl; [done|].
  destruct (ascii_is_upper c && negb b); unfold no_upper in *; simpl;
    by rewrite ascii_to_lower_not_upper, IH.
Qed.

Lemma pascal_to_snake_from_id b s : no_upper s = true → pascal_to_snake_from b s = s.
Proof.
  revert b. induction s as [|c s IH]; intros b; [done|]. unfold no_upper in *; simpl.
  intros [Hc Hs]%andb_true_iff. apply negb_true_iff in Hc.
  by rewrite Hc, IH, (ascii_to_lower_id _ Hc).
Qed.

Lemma string_map_fixed f s : (∀ c, f (f c) = f c) → string_map f (string_map f s) = string_map f s.
Proof. intros H. rewrite string_map_compose. by apply string_map_ext. Qed.

(** What [normalize_id] does to an identifier it rewrites. *)
Lemma normalize_id_split id ns local :
  split_once "." id = Some (ns, local) →
  ∃ local', split_once "." (normalize_id id) = Some (to_lowercase ns, local') ∧
    no_char "-" local' = true ∧
    (to_lowercase ns ∉ PASCAL_NAMESPACES → no_upper local' = true) ∧
    local' = (if decide (to_lowercase ns ∈ PASCAL_NAMESPACES)
              then replace_char "-" "_" local
              else replace_char "-" "_" (pascal_to_snake local)).
Proof.
  intros E. unfold normalize_id. rewrite E. eexists. split.
  { apply split_once_Some. split; [done|]. apply no_char_to_lowercase_dot.
    by apply split_once_Some in E as [_ ?]. }
  case_decide; (split_and!; [by apply replace_char_no_char| |done]).
  - done.
  - intros _. apply replace_char_no_upper; [done|apply pascal_to_snake_from_no_upper].
Qed.

Lemma normalize_id_canonical id : id_canonical (normalize_id id) = true.
Proof.
  unfold id_canonical. destruct (split_once "." id) as [[ns local]|] eqn:E.
  - destruct (normalize_id_split _ _ _ E) as (l & -> & Hd & Hu & _).
    rewrite to_lowercase_no_upper, Hd. simpl. case_bool_decide; [done|]. by apply Hu.
  - unfold normalize_id. by rewrite !E.
Qed.

Lemma replace_char_id a b s : no_char a s = true → replace_char a b s = s.
Proof.
  intros H. apply string_map_id. eapply string_all_impl; [|done].
  intros c. simpl. rewrite !bool_decide_eq_true. intros. by rewrite decide_False.
Qed.

Lemma to_lowercase_id s : no_upper s = true → to_lowercase s = s.
Proof.
  intros H. apply string_map_id. eapply string_all_impl; [|done].
  intros c. simpl. rewrite bool_decide_eq_true, negb_true_iff. apply ascii_to_lower_id.
Qed.

(** Identifiers in normal form are left alone. *)
Lemma normalize_id_fixed id : id_canonical id = true → normalize_id id = id.
Proof.
  unfold id_canonical, normalize_id.
  destruct (split_once "." id) as [[ns local]|] eqn:E; [|done].
  intros [[Hns Hd]%andb_true_iff Hu]%andb_true_iff.
  apply split_once_Some in E as [-> _]. rewrite to_lowercase_id by done.
  f_equal. f_equal. apply orb_true_iff in Hu as [Hp|Hu].
  - apply bool_decide_eq_true in Hp. rewrite decide_True by done. by apply replace_char_id.
  - case_decide; [by apply replace_char_id|]. unfold pascal_to_snake.
    rewrite pascal_to_snake_from_id by done. by apply replace_char_id.
Qed.

(** [normalize_id] is a normalisation: its results are exactly the
    identifiers in normal form (lower-case namespace, no kebab dash and, outside
    the PascalCase namespaces, no upper-case letter in the local part), which it
    leaves alone, so that it is idempotent. *)
Theorem normalize_id_spec id :
  id_canonical (normalize_id id) = true ∧
  (normalize_id id = id ↔ id_canonical id = true) ∧
  normalize_id (normalize_id id) = normalize_id id.
Proof.
  split_and!; [apply normalize_id_canonical| |apply normalize_id_fixed, normalize_id_canonical].
  split; [|apply normalize_id_fixed]. intros <-. apply normalize_id_canonical.
Qed.

Example normalize_id_examples :
  normalize_id "Fn.CartTotal" = "fn.cart_total" ∧
  normalize_id "fn.cart-total" = "fn.cart_total" ∧
  normalize_id "fn.cart_total" = "fn.cart_total" ∧
  normalize_id "type.CartItem" = "type.CartItem" ∧
  normalize_id "handler.StripePayment" = "handler.StripePayment" ∧
  normalize_id "Plain" = "Plain".
Proof. by vm_compute. Qed.

(* ------------------------------------------------------------------ *)
(** ** Arguments *)

Lemma foldl_alter_lookup (f : string → string) (keys : list string) (args : OpArgs) k :
  NoDup keys →
  foldl (λ args key, alter f key args) args keys !! k =
  if decide (k ∈ keys) then f <$> args !! k else args !! k.
Proof.
  revert args. induction keys as [|key keys IH]; intros args Hnd.
  { by rewrite decide_False by set_solver. }
  apply NoDup_cons in Hnd as [Hnot Hnd]. cbn [foldl]. rewrite IH by done.
  destruct (decide (k = key)) as [->|Hne].
  - rewrite decide_False by done. rewrite decide_True by set_solver.
    by rewrite lookup_alter_eq.
  - rewrite lookup_alter_ne by done.
    destruct (decide (k ∈ keys)); [rewrite decide_True by set_solver|
      rewrite decide_False by set_solver]; done.
Qed.

Lemma normalize_op_args_lookup args k :
  normalize_op_args args !! k =
  if decide (k ∈ ID_ARG_KEYS) then normalize_id <$> args !! k else args !! k.
Proof. apply foldl_alter_lookup. by apply (bool_decide_unpack (NoDup ID_ARG_KEYS)). Qed.

Lemma normalize_op_args_keys args k :
  is_Some (normalize_op_args args !! k) ↔ is_Some (args !! k).
Proof.
  rewrite normalize_op_args_lookup. case_decide; [apply fmap_is_Some|done].
Qed.

Lemma materialize_defaults_lookup kind verb args k :
  materialize_defaults kind verb args !! k =
  match args !! k with
  | Some v => Some v
  | None =>
      if decide (kind = OpCreate ∧ verb ∈ ["create_function"; "create_type"] ∧ k = "visibility")
      then Some "private"
      else if decide (kind = OpCreate ∧ verb = "create_type" ∧ k = "derive")
      then Some "none" else None
  end.
Proof.
  unfold materialize_defaults.
  destruct (decide (kind = OpCreate)) as [->|Hk].
  2: { rewrite !decide_False by tauto. by destruct (args !! k). }
  destruct (decide (verb ∈ ["create_function"; "create_type"])) as [Hv|Hv];
    destruct (decide (verb = "create_type")) as [->|Ht];
    (destruct (decide (k = "visibility")) as [->|Hk1];
     [|destruct (decide (k = "derive")) as [->|Hk2]]);
    repeat first
      [ rewrite or_insert_lookup | rewrite or_insert_lookup_ne by congruence
      | rewrite decide_True by set_solver | rewrite decide_False by set_solver ];
    try done; try (by destruct (args !! _)); try set_solver.
Qed.

(** Normalisation rewrites exactly the values of the ID-valued keys and
    neither adds nor drops a key; the defaults only fill absent keys, with
    [visibility=private] for functions and types and [derive=none] for types:
    an explicit argument is never overridden, nothing is ever made public, and
    materialising twice is materialising once. *)
Theorem canonical_args_spec kind verb args k :
  normalize_op_args args !! k =
    (if decide (k ∈ ID_ARG_KEYS) then normalize_id <$> args !! k else args !! k) ∧
  args ⊆ materialize_defaults kind verb args ∧
  (args !! k = None → materialize_defaults kind verb args !! k ∈
     [None; Some "private"; Some "none"]) ∧
  materialize_defaults kind verb (materialize_defaults kind verb args) =
    materialize_defaults kind verb args ∧
  (kind = OpCreate → verb ∈ ["create_function"; "create_type"] →
     is_Some (materialize_defaults kind verb args !! "visibility")).
Proof.
  split_and!.
  - apply normalize_op_args_lookup.
  - apply map_subseteq_spec. intros i x Hx. by rewrite materialize_defaults_lookup, Hx.
  - intros Hk. rewrite materialize_defaults_lookup, Hk. repeat case_decide; set_solver.
  - apply map_eq. intros i. rewrite materialize_defaults_lookup.
    destruct (materialize_defaults kind verb args !! i) eqn:E; [done|].
    rewrite materialize_defaults_lookup in E. destruct (args !! i); [done|].
    by repeat case_decide.
  - intros -> Hv. rewrite materialize_defaults_lookup.
    destruct (args !! "visibility"); [done|]. by rewrite decide_True.
Qed.
