(* ===== verification/Payload.v ===== *)
(** * Payload materialisation (crates/ail-change/src/canonical_ops.rs)

    [materialize_payload] turns the kind, verb and arguments of a canonical op
    into its graph mutation; an op without enough graph identity becomes
    [Noop].  [args.get(k)] is [args !! k]. *)

From S2P Require Import Prelude Text GraphTypes SemanticGraph ChangeModel.

(** [.unwrap_or(OpPayload::Noop)] *)
Abbreviation or_noop := (default Noop).

(* ------------------------------------------------------------------ *)
(** ** Verb and value extractors *)

Definition verb_suffix (verb prefix : string) : string :=
  match strip_prefix prefix verb ≫= strip_prefix "_" with
  | Some rest => if decide (rest = "") then prefix else rest
  | None => prefix
  end.

Definition inferred_value (args : OpArgs) : string :=
  match args !! "type", args !! "effect", args !! "value" with
  | Some v, _, _ | None, Some v, _ | None, None, Some v => v
  | None, None, None => "pending"
  end.

Definition generated_source (args : OpArgs) : option string :=
  match args !! "from", args !! "language" with
  | Some v, _ | None, Some v => Some v
  | None, None => args !! "audience"
  end.

Definition assertion_value (args : OpArgs) : string :=
  match args !! "hash", args !! "value" with
  | Some v, _ | None, Some v => v
  | None, None => "true"
  end.

(* ------------------------------------------------------------------ *)
(** ** Workflow and argument helpers *)

Definition workflow_target (args : OpArgs) : option string :=
  match args !! "target", args !! "from" with
  | Some v, _ | None, Some v => Some v
  | None, None => args !! "scope"
  end.

Definition workflow_payload (args : OpArgs) (state : WorkflowState) : OpPayload :=
  or_noop ((λ target, SetWorkflowStateByName target state) <$> workflow_target args).

Definition target_and (args : OpArgs) (key : string) : option (string * string) :=
  target ← args !! "target"; value ← args !! key; Some (target, value).

(** The first argument, in key order, that is not an identity. *)
Definition metadata_arg (args : OpArgs) : option (string * string) :=
  find_first (λ kv : string * string, kv.1 ∉ ["target"; "source"; "id"]) (btree_iter args).

(* ------------------------------------------------------------------ *)
(** ** Edges *)

Definition edge_kind_of_relation (relation : string) : EdgeKind :=
  if decide (relation = "calls") then EkCalls
  else if decide (relation = "reads") then EkReads
  else if decide (relation = "writes") then EkWrites
  else if decide (relation = "emits") then EkEmits
  else if decide (relation = "proves") then EkProves
  else if decide (relation = "breaks_if_changed") then EkBreaksIfChanged
  else EkDependsOn.

Definition edge_payload (args : OpArgs) (remove : bool) : OpPayload :=
  match args !! "source", args !! "target" with
  | Some source, Some target =>
      let kind := default EkDependsOn (edge_kind_of_relation <$> args !! "relation") in
      if remove then RemoveEdgeByName source target kind
      else AddEdgeByName source target kind
  | _, _ => Noop
  end.

(* ------------------------------------------------------------------ *)
(** ** Node constructors: the node id is the op's index, as a [u32] *)

Definition module_node (idx : N) (id : string) : GraphNode :=
  graph_node_new (as_u32 idx) NkModule id.

Definition type_node (idx : N) (id : string) : GraphNode :=
  set_type_facts (Some (MkTypeFacts (after_last "." id) []))
    (graph_node_new (as_u32 idx) NkType id).

Definition literal_check `{HashBackend} (value : string) : RuntimeCheckMeta :=
  let predicate := "literal:i64=" +:+ value in
  MkRuntimeCheckMeta predicate (to_hex (blake3 (string_bytes predicate))).

Definition function_node `{HashBackend} (idx : N) (id : string) (args : OpArgs) : GraphNode :=
  let node := graph_node_new (as_u32 idx) NkFunction id in
  let node := set_return_type (args !! "return") node in
  let node := set_body_expr (args !! "body") node in
  match args !! "value" with
  | Some value => set_runtime_checks (Some [literal_check value]) node
  | None => node
  end.

Definition test_node (idx : N) (id : string) (args : OpArgs) : GraphNode :=
  let node := graph_node_new (as_u32 idx) NkTest id in
  let node := set_return_type (Some (default "Bool" (args !! "return"))) node in
  set_body_expr (args !! "body") node.

Definition capability_node (idx : N) (id : string) : GraphNode :=
  set_capability_reqs (Some (MkCapabilityReqs [id]))
    (graph_node_new (as_u32 idx) NkCapability id).

(* ------------------------------------------------------------------ *)
(** ** [materialize_payload] *)

Definition create_node (args : OpArgs) (mk : string → GraphNode) : OpPayload :=
  or_noop ((λ id, CreateNode (mk id)) <$> args !! "id").

Definition metadata_payload (args : OpArgs) : OpPayload :=
  or_noop (target ← args !! "target"; '(key, value) ← metadata_arg args;
           Some (SetMetadataByName target key value)).

Definition with_target (args : OpArgs) (mk : string → OpPayload) : OpPayload :=
  or_noop (mk <$> args !! "target").

Definition with_target_and (args : OpArgs) (key : string) (mk : string → string → OpPayload)
  : OpPayload :=
  or_noop ((λ '(target, value), mk target value) <$> target_and args key).

Definition materialize_payload `{HashBackend}
    (idx : N) (kind : ChangeSetOp) (verb : string) (args : OpArgs) : OpPayload :=
  match kind with
  | OpCreate =>
      if decide (verb = "create_module") then create_node args (module_node idx)
      else if decide (verb = "create_type") then create_node args (type_node idx)
      else if decide (verb = "create_function")
      then create_node args (λ id, function_node idx id args)
      else if decide (verb = "create_test") then create_node args (λ id, test_node idx id args)
      else if decide (verb = "create_capability") then create_node args (capability_node idx)
      else Noop
  | OpSet =>
      if decide (verb = "set_return") then with_target_and args "type" SetReturnByName
      else if decide (verb = "set_body") then with_target_and args "body" SetBodyByName
      else metadata_payload args
  | OpReplace => metadata_payload args
  | OpAdd =>
      if decide (verb = "add_param") then
        match args !! "target", args !! "name", args !! "type" with
        | Some target, Some name, Some ty => AddParamByName target name ty
        | _, _, _ => Noop
        end
      else if decide (verb = "add_effect") then with_target_and args "effect" AddEffectByName
      else if decide (verb = "add_contract") then
        match args !! "target", args !! "kind", args !! "rule" with
        | Some target, Some kind, Some rule => AddContractByName target kind rule
        | _, _, _ => Noop
        end
      else Noop
  | OpRemove =>
      if decide (verb = "remove_effect") then with_target_and args "effect" RemoveEffectByName
      else if decide (verb = "remove_contract")
      then with_target_and args "rule" RemoveContractByName
      else if starts_with "remove_" verb then with_target args RemoveNodeByName
      else Noop
  | OpDelete => with_target args RemoveNodeByName
  | OpRename =>
      match args !! "target", args !! "name" with
      | Some target, Some name => RenameNodeByName target name
      | _, _ => Noop
      end
  | OpMove => with_target_and args "to" (λ target value, SetMetadataByName target "module" value)
  | OpConnect => edge_payload args false
  | OpDisconnect => edge_payload args true
  | OpGrant => with_target_and args "capability" AddCapabilityReqByName
  | OpRevoke => with_target_and args "capability" RemoveCapabilityReqByName
  | OpExpose => with_target args (λ target, SetVisibilityByName target VisPublic)
  | OpHide => with_target args (λ target, SetVisibilityByName target VisPrivate)
  | OpBind =>
      match args !! "capability", args !! "handler" with
      | Some capability, Some handler =>
          AddBindingByName capability (MkBinding capability handler (args !! "profile"))
      | _, _ => Noop
      end
  | OpInfer =>
      with_target args (λ target, AddInferredFactByName target
        (MkInferredFact (verb_suffix verb "infer") (inferred_value args)))
  | OpDerive =>
      with_target args (λ target, AddDerivedImplByName target (verb_suffix verb "derive"))
  | OpGenerate =>
      with_target args (λ target, AddGeneratedArtifactByName target
        (MkGeneratedArtifact (verb_suffix verb "generate") (generated_source args)))
  | OpAssert =>
      with_target args (λ target, AddAssertionByName target
        (MkAssertion (verb_suffix verb "assert") (assertion_value args)))
  | OpLock => workflow_payload args WsLocked
  | OpRefactor => workflow_payload args WsRefactoring
  | OpMigrate => workflow_payload args WsMigrating
  | OpApprove => workflow_payload args WsApproved
  | OpReject => workflow_payload args WsRejected
  | OpVerify => workflow_payload args WsVerified
  | OpDeprecate =>
      with_target_and args "replacement"
        (λ target value, SetMetadataByName target "deprecated_replacement" value)
  | OpAnnotate =>
      match args !! "target", args !! "key", args !! "value" with
      | Some target, Some key, Some value => SetMetadataByName target key value
      | _, _, _ => Noop
      end
  end.
