(* ===== verification/Canonical.v ===== *)
(** * Canonicalisation of ChangeSets

    crates/ail-change/src/canonical.rs ([phase_order], [canonicalize]),
    canonical/hash.rs ([compute_block_hash]), canonical/expand.rs
    ([expand_infer_boundary]), acl_migrator.rs (the version migrators and
    [run_migration_chain]) and canonical/parsed.rs ([canonicalize_parsed_inner],
    [try_canonicalize_parsed]).

    [run_migration_chain] loops until the version is the target; the model
    takes [migration_fuel] steps, [None] means that they did not suffice, and
    [run_migration_chain_spec] shows that this never happens. *)

From S2P Require Import Prelude Text GraphTypes SemanticGraph ChangeModel Normalize Payload.

(* ------------------------------------------------------------------ *)
(** ** Phases and block hashes *)

Definition phase_order (op : ChangeSetOp) : N :=
  match op with
  | OpCreate => 0
  | OpSet | OpAdd | OpRemove | OpDelete | OpDisconnect | OpRename | OpMove | OpReplace => 1
  | OpConnect | OpBind | OpExpose | OpHide | OpGrant | OpRevoke => 2
  | OpInfer | OpDerive | OpGenerate => 3
  | OpAssert | OpLock | OpRefactor | OpMigrate | OpApprove | OpReject | OpDeprecate
  | OpAnnotate | OpVerify => 4
  end%N.

(** The bytes hashed for an op at a position. *)
Definition block_preimage `{HashBackend} (op : ChangeSetOp) (idx : N) : list N :=
  cbor_op op ++ [phase_order op] ++ le_bytes 8 idx.

Definition compute_block_hash `{HashBackend} (op : ChangeSetOp) (idx : N) : BlockHash :=
  blake3 (block_preimage op idx).

Definition materialize_description (description : string) : string :=
  if decide (description = "") then "<no description>" else description.

(* ------------------------------------------------------------------ *)
(** ** [canonicalize]: the path without arguments *)

Definition canonicalize `{HashBackend} (cs : ChangeSet) : CanonicalChangeSet :=
  let sorted_ops := sort_by_key phase_order (cs_ops cs) in
  let canonical_ops :=
    imap (λ idx op, MkCanonicalOp op "" ∅ Noop (compute_block_hash op (N.of_nat idx)))
      sorted_ops in
  MkCanonicalChangeSet
    (MkCanonicalMeta (csm_author (cs_meta cs))
       (materialize_description (csm_description (cs_meta cs)))
       (csm_timestamp (cs_meta cs)))
    (cs_base_snapshot_id cs) "1.0" None None None None None [] canonical_ops
    None None change_composition_default [] [].

(* ------------------------------------------------------------------ *)
(** ** [expand_infer_boundary] *)

(** The return types declared by [create_function] ops; a later op overrides. *)
Definition return_map (ops : list CanonicalOp) : gmap string string :=
  foldl (λ m op,
    if decide (cop_kind op = OpCreate ∧ cop_verb op = "create_function") then
      match cop_args op !! "id", cop_args op !! "return" with
      | Some target, Some ty => <[target := ty]> m
      | _, _ => m
      end
    else m) ∅ ops.

(** The targets of explicit [set_return] ops. *)
Definition explicit_return_targets (ops : list CanonicalOp) : list string :=
  omap (λ op,
    if decide (cop_kind op = OpSet ∧ cop_verb op = "set_return")
    then cop_args op !! "target" else None) ops.

Definition is_infer_boundary (op : CanonicalOp) : Prop :=
  cop_kind op = OpInfer ∧ cop_verb op = "infer_boundary".
#[global] Instance is_infer_boundary_dec op : Decision (is_infer_boundary op).
Proof. unfold is_infer_boundary. apply _. Defined.

Definition synth_set_return `{HashBackend} (target ty : string) (idx : N) : CanonicalOp :=
  MkCanonicalOp OpSet "set_return" (<["type" := ty]> (<["target" := target]> ∅))
    (SetReturnByName target ty) (compute_block_hash OpSet idx).

Definition synth_add_effect `{HashBackend} (target effect : string) (idx : N) : CanonicalOp :=
  MkCanonicalOp OpAdd "add_effect" (<["effect" := effect]> (<["target" := target]> ∅))
    (AddEffectByName target effect) (compute_block_hash OpAdd idx).

(** The return type synthesised for an [infer_boundary] op on [target]. *)
Definition inferred_return (ops : list CanonicalOp) (target : string) (infer_op : CanonicalOp)
  : option string :=
  if decide (target ∈ explicit_return_targets ops) then None
  else match cop_args infer_op !! "type" with
       | Some ty => Some ty
       | None => return_map ops !! target
       end.

(** One iteration of the loop over the [infer_boundary] ops. *)
Definition expand_step `{HashBackend} (ops extra : list CanonicalOp) (infer_op : CanonicalOp)
  : list CanonicalOp :=
  match cop_args infer_op !! "target" with
  | None => extra
  | Some target =>
      let base_idx := (length ops + length extra)%nat in
      let extra1 :=
        match inferred_return ops target infer_op with
        | Some ty => extra ++ [synth_set_return target ty (N.of_nat base_idx)]
        | None => extra
        end in
      match cop_args infer_op !! "effect" with
      | Some effect =>
          extra1 ++ [synth_add_effect target effect (N.of_nat (base_idx + length extra1))]
      | None => extra1
      end
  end.

Definition expand_infer_boundary `{HashBackend} (ops : list CanonicalOp) : list CanonicalOp :=
  ops ++ foldl (expand_step ops) [] (filter is_infer_boundary ops).

(* ------------------------------------------------------------------ *)
(** ** ACL version migration *)

Definition CURRENT_ACL_VERSION : string := "1.0".

Inductive MigrateError : Type :=
| UnknownVersion (version : string)
| MigrationFailed (from to reason : string).
#[global] Instance MigrateError_eq_dec : EqDecision MigrateError.
Proof. solve_decision. Defined.

(** [pcs.parsed_ops = ops] and [pcs.acl_version = v] *)
Definition set_parsed_ops (ops : list ParsedOp) (pcs : ParsedChangeSet) : ParsedChangeSet :=
  MkParsedChangeSet (pcs_changeset pcs) (pcs_preconditions pcs) ops (pcs_acl_version pcs)
    (pcs_op_schema_version pcs) (pcs_graph_schema_version pcs)
    (pcs_core_ir_schema_version pcs) (pcs_diagnostics_schema_version pcs)
    (pcs_verification_schema_version pcs) (pcs_expect pcs) (pcs_approval pcs)
    (pcs_composition pcs) (pcs_blocks pcs) (pcs_verify pcs).

Definition set_acl_version (v : string) (pcs : ParsedChangeSet) : ParsedChangeSet :=
  MkParsedChangeSet (pcs_changeset pcs) (pcs_preconditions pcs) (pcs_parsed_ops pcs) v
    (pcs_op_schema_version pcs) (pcs_graph_schema_version pcs)
    (pcs_core_ir_schema_version pcs) (pcs_diagnostics_schema_version pcs)
    (pcs_verification_schema_version pcs) (pcs_expect pcs) (pcs_approval pcs)
    (pcs_composition pcs) (pcs_blocks pcs) (pcs_verify pcs).

(** [if let Some(val) = args.remove(old) { args.entry(new).or_insert(val); }] *)
Definition rename_arg_key (old new : string) (args : OpArgs) : OpArgs :=
  match args !! old with
  | Some val => or_insert new val (delete old args)
  | None => args
  end.

Definition migrate_op_0_9 (op : ParsedOp) : ParsedOp :=
  let verb :=
    if decide (po_verb op = "create_fn") then "create_function"
    else if decide (po_verb op = "add_field") then "add_param"
    else po_verb op in
  MkParsedOp (po_kind op) verb (rename_arg_key "typ" "type" (po_args op)).

Definition migrate_op_1_0 (op : ParsedOp) : ParsedOp :=
  let verb := if decide (po_verb op = "set_field") then "set_return" else po_verb op in
  MkParsedOp (po_kind op) verb (rename_arg_key "return_type" "type" (po_args op)).

Definition Migrator : Type := ParsedChangeSet → result ParsedChangeSet MigrateError.

(** [AclMigratorV0_9ToV1_0::migrate] *)
Definition AclMigratorV0_9ToV1_0 : Migrator := λ pcs,
  Ok (set_parsed_ops (migrate_op_0_9 <$> pcs_parsed_ops pcs) pcs).

(** [AclMigrator_1_0_to_1_1::migrate] *)
Definition AclMigrator_1_0_to_1_1 : Migrator := λ pcs,
  Ok (set_parsed_ops (migrate_op_1_0 <$> pcs_parsed_ops pcs) pcs).

Definition default_migrator_chain : list (string * string * Migrator) :=
  [("0.9", "1.0", AclMigratorV0_9ToV1_0); ("1.0", "1.1", AclMigrator_1_0_to_1_1)].

(** The [while current != target] loop; [current] is [pcs.acl_version]. *)
Fixpoint migration_loop (fuel : nat) (pcs : ParsedChangeSet) (target : string)
  : option (result ParsedChangeSet MigrateError) :=
  match fuel with
  | O => None
  | S fuel' =>
      let current := pcs_acl_version pcs in
      if decide (current = target) then Some (Ok pcs)
      else
        match find_first (λ entry : string * string * Migrator, entry.1.1 = current)
                default_migrator_chain with
        | None => Some (Err (UnknownVersion current))
        | Some (from, to, migrator) =>
            match migrator pcs with
            | Err e => Some (Err e)
            | Ok pcs' => migration_loop fuel' (set_acl_version to pcs') target
            end
        end
  end.

Definition migration_fuel : nat := S (length default_migrator_chain).

Definition run_migration_chain (pcs : ParsedChangeSet) (target : string)
  : option (result ParsedChangeSet MigrateError) :=
  migration_loop migration_fuel pcs target.

(* ------------------------------------------------------------------ *)
(** ** [canonicalize_parsed] *)

Definition OpTriple : Type := ChangeSetOp * string * OpArgs.

Definition op_pairs (pcs : ParsedChangeSet) : list OpTriple :=
  match pcs_parsed_ops pcs with
  | [] => (λ k, (k, "", ∅)) <$> cs_ops (pcs_changeset pcs)
  | parsed_ops => (λ po, (po_kind po, po_verb po, po_args po)) <$> parsed_ops
  end.

(** The argument map of a canonical op. *)
Definition canonical_args (kind : ChangeSetOp) (verb : string) (args : OpArgs) : OpArgs :=
  let args := normalize_op_args args in
  let args := materialize_defaults kind verb args in
  if decide (kind = OpInfer ∧ starts_with "infer_" verb = true)
  then or_insert "infer_pending" "true" args else args.

Definition canonical_op `{HashBackend} (idx : nat) (op : OpTriple) : CanonicalOp :=
  let '(kind, verb, args) := op in
  let args := canonical_args kind verb args in
  MkCanonicalOp kind verb args
    (materialize_payload (N.of_nat idx) kind verb args)
    (compute_block_hash kind (N.of_nat idx)).

Definition triple_phase (op : OpTriple) : N := phase_order op.1.1.

Definition canonicalize_parsed_inner `{HashBackend} (pcs : ParsedChangeSet)
  : CanonicalChangeSet :=
  let meta := cs_meta (pcs_changeset pcs) in
  let canonical_ops := imap canonical_op (sort_by_key triple_phase (op_pairs pcs)) in
  MkCanonicalChangeSet
    (MkCanonicalMeta (csm_author meta) (materialize_description (csm_description meta))
       (csm_timestamp meta))
    (cs_base_snapshot_id (pcs_changeset pcs)) (pcs_acl_version pcs)
    (pcs_op_schema_version pcs) (pcs_graph_schema_version pcs)
    (pcs_core_ir_schema_version pcs) (pcs_diagnostics_schema_version pcs)
    (pcs_verification_schema_version pcs) (pcs_preconditions pcs)
    (expand_infer_boundary canonical_ops)
    (pcs_expect pcs) (pcs_approval pcs) (pcs_composition pcs) (pcs_blocks pcs)
    (pcs_verify pcs).

Definition try_canonicalize_parsed `{HashBackend} (pcs : ParsedChangeSet)
  : option (result CanonicalChangeSet MigrateError) :=
  if decide (pcs_acl_version pcs ≠ CURRENT_ACL_VERSION) then
    r ← run_migration_chain pcs CURRENT_ACL_VERSION;
    Some (let? pcs := r in Ok (canonicalize_parsed_inner pcs))
  else Some (Ok (canonicalize_parsed_inner pcs)).

(* ------------------------------------------------------------------ *)
(** ** Order of the canonical ops *)



(** The translated ops, before the synthesised ones. *)
Definition base_ops `{HashBackend} (pcs : ParsedChangeSet) : list CanonicalOp :=
  take (length (op_pairs pcs)) (ccs_ops (canonicalize_parsed_inner pcs)).

(** The ops [expand_infer_boundary] appends. *)
Definition synthesized_ops `{HashBackend} (pcs : ParsedChangeSet) : list CanonicalOp :=
  drop (length (op_pairs pcs)) (ccs_ops (canonicalize_parsed_inner pcs)).

Section Order.
Context `{HashBackend}.

Lemma length_sorted_ops pcs :
  length (op_pairs pcs) = length (imap canonical_op (sort_by_key triple_phase (op_pairs pcs))).
Proof. by rewrite length_imap, length_sort_by_key. Qed.

Lemma base_ops_eq pcs :
  base_ops pcs = imap canonical_op (sort_by_key triple_phase (op_pairs pcs)).
Proof.
  unfold base_ops, canonicalize_parsed_inner, expand_infer_boundary. cbn [ccs_ops].
  by rewrite take_app_length' by apply length_sorted_ops.
Qed.

Lemma synthesized_ops_eq pcs :
  synthesized_ops pcs =
  foldl (expand_step (base_ops pcs)) [] (filter is_infer_boundary (base_ops pcs)).
Proof.
  unfold synthesized_ops, canonicalize_parsed_inner, expand_infer_boundary. cbn [ccs_ops].
  rewrite drop_app_length' by apply length_sorted_ops.
  by rewrite <- base_ops_eq.
Qed.

Lemma ops_split pcs :
  ccs_ops (canonicalize_parsed_inner pcs) = base_ops pcs ++ synthesized_ops pcs.
Proof. symmetry. apply take_drop. Qed.


Lemma StronglySorted_fmap {A B} (f : A → B) (R : B → B → Prop) (l : list A) :
  StronglySorted R (f <$> l) ↔ StronglySorted (λ x y, R (f x) (f y)) l.
Proof.
  induction l as [|x l IH]; csimpl; [split; constructor|].
  split; intros [? ?]%StronglySorted_inv; constructor;
    (by apply IH) || (by apply Forall_fmap).
Qed.















End Order.

(* ------------------------------------------------------------------ *)
(** ** Synthesised ops *)

(** What an [infer_boundary] op contributes. *)
Definition boundary_payloads (ops : list CanonicalOp) (infer_op : CanonicalOp) : list OpPayload :=
  match cop_args infer_op !! "target" with
  | None => []
  | Some target =>
      option_list (SetReturnByName target <$> inferred_return ops target infer_op) ++
      option_list (AddEffectByName target <$> cop_args infer_op !! "effect")
  end.

Section Expansion.
Context `{HashBackend}.

Lemma expand_step_payloads ops extra infer_op :
  cop_payload <$> expand_step ops extra infer_op =
  (cop_payload <$> extra) ++ boundary_payloads ops infer_op.
Proof.
  unfold expand_step, boundary_payloads. destruct (cop_args infer_op !! "target") as [t|];
    [|by rewrite app_nil_r].
  destruct (inferred_return ops t infer_op); destruct (cop_args infer_op !! "effect");
    simpl; rewrite ?fmap_app, <- ?app_assoc, ?app_nil_r; done.
Qed.

Lemma expand_payloads ops extra l :
  cop_payload <$> foldl (expand_step ops) extra l =
  (cop_payload <$> extra) ++ (l ≫= boundary_payloads ops).
Proof.
  revert extra. induction l as [|op l IH]; intros extra; csimpl; [by rewrite app_nil_r|].
  by rewrite IH, expand_step_payloads, app_assoc.
Qed.

(** [expand_infer_boundary] keeps the ops it is given and appends, for
    each [infer_boundary] op in order, exactly the [set_return] it implies (its
    own [type], else the return type of the matching [create_function]) and the
    [add_effect] of its [effect] argument; a target with an explicit
    [set_return] never gets a second one. *)
Theorem expand_infer_boundary_spec ops :
  take (length ops) (expand_infer_boundary ops) = ops ∧
  cop_payload <$> drop (length ops) (expand_infer_boundary ops) =
    filter is_infer_boundary ops ≫= boundary_payloads ops ∧
  ∀ target ty,
    SetReturnByName target ty ∈ (cop_payload <$> drop (length ops) (expand_infer_boundary ops)) →
    target ∉ explicit_return_targets ops.
Proof.
  unfold expand_infer_boundary. rewrite take_app_length, drop_app_length, expand_payloads.
  csimpl. split_and!; [done|done|]. intros target ty (op & Hin & _)%list_elem_of_bind.
  unfold boundary_payloads in Hin. destruct (cop_args op !! "target") as [t|]; [|set_solver].
  apply elem_of_app in Hin as [Hin|Hin]; apply elem_of_option_list, fmap_Some in Hin
    as (x & Hx & [= -> ->]). unfold inferred_return in Hx. by case_decide.
Qed.
End Expansion.

(** A document with one [assert] and one [infer_boundary] op that declares a
    return type. *)
Definition infer_then_assert : ParsedChangeSet :=
  set_parsed_ops
    [MkParsedOp OpInfer "infer_boundary" (<["type" := "Int"]> (<["target" := "fn.f"]> ∅));
     MkParsedOp OpAssert "assert_total" (<["target" := "fn.f"]> ∅)]
    parsed_change_set_default.



(** The phase order does not survive the expansion: the synthesised
    [set_return] (phase 1) is appended after the ops of phases 3 and 4. *)
Theorem expansion_breaks_phase_order `{HashBackend} :
  (λ op, (cop_kind op, phase_order (cop_kind op))) <$>
    ccs_ops (canonicalize_parsed_inner infer_then_assert) =
  [(OpInfer, 3%N); (OpAssert, 4%N); (OpSet, 1%N)] ∧
  ¬ StronglySorted (key_le (λ op, phase_order (cop_kind op)))
      (ccs_ops (canonicalize_parsed_inner infer_then_assert)).
Proof.
  assert ((λ op, (cop_kind op, phase_order (cop_kind op))) <$>
    ccs_ops (canonicalize_parsed_inner infer_then_assert) =
    [(OpInfer, 3%N); (OpAssert, 4%N); (OpSet, 1%N)]) as Heq by reflexivity.
  split; [done|]. intros Hs.
  apply (StronglySorted_fmap (λ op, (cop_kind op, phase_order (cop_kind op)))
           (λ x y, (x.2 ≤ y.2)%N)) in Hs.
  rewrite Heq in Hs. apply StronglySorted_inv in Hs as [_ Hall].
  apply Forall_inv_tail, Forall_inv in Hall. simpl in Hall. lia.
Qed.

(* ------------------------------------------------------------------ *)
(** ** Block hashes *)

Section BlockHashes.
Context `{HashBackend}.

Definition position_hash (p : ChangeSetOp * N) : BlockHash := compute_block_hash p.1 p.2.

Lemma block_preimage_inj k1 i1 k2 i2 :
  Inj (=) (=) cbor_op → (i1 < u64_modulus)%N → (i2 < u64_modulus)%N →
  block_preimage k1 i1 = block_preimage k2 i2 → (k1, i1) = (k2, i2).
Proof.
  intros Hinj H1 H2 Heq. apply app_inj_2 in Heq as [Hk Ht];
    [|by rewrite !length_app, !length_le_bytes].
  apply Hinj in Hk as ->. apply app_inv_head in Ht. f_equal.
  by apply (le_bytes_inj 8).
Qed.

(** The positions hashed by the loop over the [infer_boundary] ops: all at or
    above [n], each kind below its own bound. *)
Definition positions_ok (n : N) (extra : list CanonicalOp) (pos : list (ChangeSetOp * N)) : Prop :=
  cop_block_hash <$> extra = position_hash <$> pos ∧ NoDup pos ∧
  ∀ k i, (k, i) ∈ pos → (n ≤ i)%N ∧
    ((k = OpSet ∧ (i < n + N.of_nat (length extra))%N) ∨
     (k = OpAdd ∧ (i < n + 2 * N.of_nat (length extra))%N)).

(** Appending an op whose position is fresh for its kind. *)
Lemma positions_ok_snoc n extra pos op k i :
  positions_ok n extra pos → cop_block_hash op = compute_block_hash k i →
  ((k = OpSet ∧ i = n + N.of_nat (length extra)) ∨
   (k = OpAdd ∧ (∀ j, (OpAdd, j) ∈ pos → j < i) ∧ n ≤ i ∧ i ≤ n + 2 * N.of_nat (length extra)))%N →
  positions_ok n (extra ++ [op]) (pos ++ [(k, i)]).
Proof.
  intros (Hh & Hnd & Hb) Hop Hi. unfold positions_ok. rewrite length_app. simpl.
  split_and!.
  - by rewrite !fmap_app, Hh; csimpl; rewrite Hop.
  - apply NoDup_app. split_and!; [done| |apply NoDup_singleton].
    intros [k' j] Hin Heq%list_elem_of_singleton. simplify_eq.
    destruct Hi as [[-> ->]|(-> & Hlt & _)].
    + destruct (Hb _ _ Hin) as [_ [[_ ?]|[? _]]]; [lia|done].
    + specialize (Hlt _ Hin). lia.
  - intros k' j [Hin|Heq%list_elem_of_singleton]%elem_of_app.
    + destruct (Hb _ _ Hin) as [? [[-> ?]|[-> ?]]]; (split; [lia|]);
        [left|right]; (split; [done|lia]).
    + simplify_eq. destruct Hi as [[-> ->]|(-> & _ & ? & ?)]; (split; [lia|]);
        [left|right]; (split; [done|lia]).
Qed.

Lemma expand_step_positions ops extra infer_op pos :
  positions_ok (N.of_nat (length ops)) extra pos →
  ∃ pos', positions_ok (N.of_nat (length ops)) (expand_step ops extra infer_op) pos'.
Proof.
  intros Hok. unfold expand_step. destruct (cop_args infer_op !! "target") as [t|]; [|eauto].
  assert (Hadd : ∀ j, (OpAdd, j) ∈ pos →
    (j < N.of_nat (length ops) + 2 * N.of_nat (length extra))%N).
  { intros j Hj. destruct Hok as (_ & _ & Hb).
    destruct (Hb _ _ Hj) as [_ [[? _]|[_ ?]]]; [done|lia]. }
  destruct (inferred_return ops t infer_op) as [ty|].
  - set (i := N.of_nat (length ops + length extra)).
    assert (H1 : positions_ok (N.of_nat (length ops))
              (extra ++ [synth_set_return t ty i]) (pos ++ [(OpSet, i)])).
    { apply (positions_ok_snoc _ _ _ _ OpSet); [done|done|left; split; [done|lia]]. }
    destruct (cop_args infer_op !! "effect") as [effect|]; [|eauto].
    eexists. eapply (positions_ok_snoc _ _ _ _ OpAdd); [exact H1|reflexivity|right].
    rewrite length_app; simpl. split_and!; [done| |lia|lia].
    intros j [Hj|Hj%list_elem_of_singleton]%elem_of_app; [specialize (Hadd _ Hj); lia|done].
  - destruct (cop_args infer_op !! "effect") as [effect|]; [|eauto].
    eexists. eapply (positions_ok_snoc _ _ _ _ OpAdd); [exact Hok|reflexivity|right].
    split_and!; [done| |lia|lia]. intros j Hj. specialize (Hadd _ Hj); lia.
Qed.

Lemma expand_positions ops l extra pos :
  positions_ok (N.of_nat (length ops)) extra pos →
  ∃ pos', positions_ok (N.of_nat (length ops)) (foldl (expand_step ops) extra l) pos'.
Proof.
  revert extra pos. induction l as [|op l IH]; intros extra pos Hok; simpl; [eauto|].
  destruct (expand_step_positions ops extra op pos Hok) as [pos' Hok']. eauto.
Qed.

Lemma expand_step_length ops extra op : length (expand_step ops extra op) ≤ 2 + length extra.
Proof.
  unfold expand_step. destruct (cop_args op !! "target"); [|lia].
  destruct (inferred_return _ _ _), (cop_args op !! "effect"); rewrite ?length_app; simpl; lia.
Qed.

Lemma expand_length ops l extra :
  length (foldl (expand_step ops) extra l) ≤ 2 * length l + length extra.
Proof.
  revert extra. induction l as [|op l IH]; intros extra; simpl; [lia|].
  specialize (IH (expand_step ops extra op)).
  pose proof (expand_step_length ops extra op). lia.
Qed.

(** The hashed positions of a canonical op list are pairwise distinct. *)
Lemma canonical_positions pcs :
  ∃ pos,
    cop_block_hash <$> ccs_ops (canonicalize_parsed_inner pcs) = position_hash <$> pos ∧
    NoDup pos ∧
    ∀ k i, (k, i) ∈ pos → (i ≤ 5 * N.of_nat (length (op_pairs pcs)))%N.
Proof.
  set (n := length (op_pairs pcs)).
  assert (Hn : length (base_ops pcs) = n).
  { rewrite base_ops_eq. by rewrite <- length_sorted_ops. }
  destruct (expand_positions (base_ops pcs) (filter is_infer_boundary (base_ops pcs)) [] [])
    as (pos & Hh & Hnd & Hb); [repeat split; [constructor|set_solver..]|].
  set (base := imap (λ i t, (t.1.1, N.of_nat i)) (sort_by_key triple_phase (op_pairs pcs))
         : list (ChangeSetOp * N)).
  assert (Hbase : ∀ k i, (k, i) ∈ base → (i < N.of_nat n)%N).
  { intros k i (j & Hj)%list_elem_of_lookup. unfold base in Hj.
    rewrite list_lookup_imap in Hj. apply fmap_Some in Hj as (t & E & [= -> ->]).
    apply lookup_lt_Some in E. rewrite length_sort_by_key in E.
    change (j < n) in E. lia. }
  exists (base ++ pos). split_and!.
  - rewrite ops_split, !fmap_app, synthesized_ops_eq, Hh. f_equal.
    unfold base. rewrite base_ops_eq, !fmap_imap. apply imap_ext.
    by intros i [[kind verb] args] _.
  - apply NoDup_app. split_and!; [|intros [k i] H1%Hbase H2%Hb; lia|done].
    apply NoDup_alt. intros i j [k m] Hi Hj. unfold base in Hi, Hj.
    rewrite list_lookup_imap in Hi, Hj.
    apply fmap_Some in Hi as (? & _ & [= -> ->]).
    apply fmap_Some in Hj as (? & _ & [= _ ?]). lia.
  - intros k i [Hi%Hbase|Hi%Hb]%elem_of_app; [lia|].
    pose proof (expand_length (base_ops pcs) (filter is_infer_boundary (base_ops pcs)) []) as Hl.
    pose proof (length_filter is_infer_boundary (base_ops pcs)). simpl in Hl.
    destruct Hi as [_ [[_ ?]|[_ ?]]]; lia.
Qed.
End BlockHashes.

(** Per-block hashes identify their op: on a document of fewer than
    [2^64 / 5] ops, whose op kinds have distinct CBOR encodings, either all the
    block hashes are distinct, synthesised ops included, or BLAKE3 has a
    collision, on two byte strings that were actually hashed. *)
Theorem block_hashes_distinct `{HashBackend} (pcs : ParsedChangeSet)
    (Hcbor : Inj (=) (=) cbor_op)
    (Hlen : (5 * N.of_nat (length (op_pairs pcs)) < u64_modulus)%N) :
  NoDup (cop_block_hash <$> ccs_ops (canonicalize_parsed_inner pcs)) ∨
  ∃ k1 i1 k2 i2, block_preimage k1 i1 ≠ block_preimage k2 i2 ∧
    compute_block_hash k1 i1 = compute_block_hash k2 i2 ∧
    compute_block_hash k1 i1 ∈ (cop_block_hash <$> ccs_ops (canonicalize_parsed_inner pcs)).
Proof.
  destruct (canonical_positions pcs) as (pos & -> & Hnd & Hb).
  destruct (fmap_NoDup_or_collision position_hash pos Hnd)
    as [?|([k1 i1] & [k2 i2] & H1 & H2 & Hne & Heq)]; [by left|right].
  exists k1, i1, k2, i2. split_and!; [|done|].
  - intros Hp. apply Hne, block_preimage_inj; [done| | |done];
      [specialize (Hb _ _ H1)|specialize (Hb _ _ H2)]; lia.
  - by apply (list_elem_of_fmap_2 position_hash pos (k1, i1)).
Qed.

Lemma block_hashes_distinct_witness :
  length (ccs_ops (@canonicalize_parsed_inner test_backend infer_then_assert)) = 3 ∧
  (NoDup (cop_block_hash <$> ccs_ops (@canonicalize_parsed_inner test_backend infer_then_assert)) ∨
   ∃ k1 i1 k2 i2,
     @block_preimage test_backend k1 i1 ≠ @block_preimage test_backend k2 i2 ∧
     @compute_block_hash test_backend k1 i1 = @compute_block_hash test_backend k2 i2 ∧
     @compute_block_hash test_backend k1 i1 ∈
       (cop_block_hash <$> ccs_ops (@canonicalize_parsed_inner test_backend infer_then_assert))).
Proof.
  split; [reflexivity|]. apply (@block_hashes_distinct test_backend infer_then_assert).
  - intros x y Hxy. destruct x, y; (reflexivity || discriminate Hxy).
  - reflexivity.
Defined.

(* ------------------------------------------------------------------ *)
(** ** Version migration *)

(** The document a 0.9 document is migrated to. *)
Definition migrated_0_9 (pcs : ParsedChangeSet) : ParsedChangeSet :=
  set_acl_version "1.0" (set_parsed_ops (migrate_op_0_9 <$> pcs_parsed_ops pcs) pcs).

(** An op of the 1.0 language: none of the deprecated names of 0.9. *)
Definition op_is_1_0 (op : ParsedOp) : Prop :=
  (po_verb op ∉ ["create_fn"; "add_field"]) ∧ po_args op !! "typ" = None.

Lemma rename_arg_key_lookup old new (args : OpArgs) k :
  old ≠ new →
  rename_arg_key old new args !! k =
  if decide (k = old) then None
  else if decide (k = new) then
    match args !! new with Some v => Some v | None => args !! old end
  else args !! k.
Proof.
  intros Hne. unfold rename_arg_key. destruct (args !! old) as [v|] eqn:E.
  - destruct (decide (k = new)) as [->|Hk].
    + rewrite decide_False by congruence. rewrite or_insert_lookup, lookup_delete_ne by done.
      by destruct (args !! new).
    + rewrite or_insert_lookup_ne by done. case_decide as Hk2.
      * subst. by rewrite lookup_delete_eq.
      * by rewrite lookup_delete_ne.
  - repeat case_decide; subst; [done| |done]. by destruct (args !! new).
Qed.

Lemma migrate_op_0_9_is_1_0 op : op_is_1_0 (migrate_op_0_9 op).
Proof.
  split; simpl.
  - repeat case_decide; set_solver.
  - by rewrite rename_arg_key_lookup.
Qed.

Lemma set_acl_version_same pcs : set_acl_version (pcs_acl_version pcs) pcs = pcs.
Proof. by destruct pcs. Qed.

(** The migration loop always terminates within its fuel, and decides the
    version completely: the current version is returned as it is, 0.9 is
    rewritten op by op into 1.0 (no deprecated verb or key is left, and an
    explicit [type] argument wins over a renamed [typ]), and every other
    version, 1.1 included, is [UnknownVersion]. *)
Theorem run_migration_chain_spec pcs :
  run_migration_chain pcs CURRENT_ACL_VERSION =
    (if decide (pcs_acl_version pcs = "1.0") then Some (Ok pcs)
     else if decide (pcs_acl_version pcs = "0.9") then Some (Ok (migrated_0_9 pcs))
     else Some (Err (UnknownVersion (pcs_acl_version pcs)))) ∧
  Forall op_is_1_0 (pcs_parsed_ops (migrated_0_9 pcs)) ∧
  (∀ op v, po_args op !! "type" = Some v → po_args (migrate_op_0_9 op) !! "type" = Some v).
Proof.
  split_and!.
  - unfold run_migration_chain, migration_fuel, CURRENT_ACL_VERSION. simpl.
    destruct (decide (pcs_acl_version pcs = "1.0")) as [E|E]; [done|].
    destruct (decide (pcs_acl_version pcs = "0.9")) as [E9|E9].
    + rewrite decide_True by done. done.
    + rewrite !decide_False by congruence. done.
  - apply Forall_fmap, Forall_true. intros op. apply migrate_op_0_9_is_1_0.
  - intros op v Hv. simpl. rewrite rename_arg_key_lookup by done. simpl. by rewrite Hv.
Qed.

Lemma run_migration_chain_current pcs r :
  run_migration_chain pcs CURRENT_ACL_VERSION = Some (Ok r) → pcs_acl_version r = "1.0".
Proof.
  unfold run_migration_chain, migration_fuel, CURRENT_ACL_VERSION. simpl.
  repeat case_decide; intros; by simplify_eq/=.
Qed.

(** For any target version the loop ends within its fuel. *)
Lemma run_migration_chain_total pcs target : is_Some (run_migration_chain pcs target).
Proof.
  unfold run_migration_chain, migration_fuel. simpl. repeat case_decide; simplify_eq/=; eauto.
Qed.

(** [try_canonicalize_parsed] is total, a canonical ChangeSet always
    declares the current version, has a non-empty description and keeps
    the base snapshot, the author, the preconditions and the claims of the
    document; only an unknown version is refused. *)
Theorem try_canonicalize_parsed_spec `{HashBackend} pcs :
  match try_canonicalize_parsed pcs with
  | Some (Ok cs) =>
      pcs_acl_version pcs ∈ ["0.9"; "1.0"] ∧ ccs_acl_version cs = CURRENT_ACL_VERSION ∧
      cm_description (ccs_meta cs) ≠ "" ∧
      ccs_base_snapshot_id cs = cs_base_snapshot_id (pcs_changeset pcs) ∧
      cm_author (ccs_meta cs) = csm_author (cs_meta (pcs_changeset pcs)) ∧
      ccs_preconditions cs = pcs_preconditions pcs ∧
      ccs_expect cs = pcs_expect pcs ∧ ccs_approval cs = pcs_approval pcs ∧
      (pcs_parsed_ops pcs ≠ [] → length (pcs_parsed_ops pcs) ≤ length (ccs_ops cs))
  | Some (Err e) => e = UnknownVersion (pcs_acl_version pcs) ∧
                    pcs_acl_version pcs ∉ ["0.9"; "1.0"]
  | None => False
  end.
Proof.
  assert (Hinner : ∀ p, cm_description (ccs_meta (canonicalize_parsed_inner p)) ≠ "").
  { intros p. simpl. unfold materialize_description. by case_decide. }
  assert (Hlen : ∀ p, pcs_parsed_ops p ≠ [] →
    length (pcs_parsed_ops p) ≤ length (ccs_ops (canonicalize_parsed_inner p))).
  { intros p Hp. rewrite ops_split, base_ops_eq, length_app, <- length_sorted_ops.
    unfold op_pairs. destruct (pcs_parsed_ops p); [done|]. rewrite length_fmap. lia. }
  unfold try_canonicalize_parsed, run_migration_chain, migration_fuel, CURRENT_ACL_VERSION. simpl.
  destruct (decide (pcs_acl_version pcs = "1.0")) as [E|E].
  { rewrite decide_False by auto. split_and!; first [done|apply Hinner|apply Hlen|rewrite E; set_solver]. }
  rewrite decide_True by done. cbn.
  destruct (decide (pcs_acl_version pcs = "0.9")) as [E9|E9].
  - rewrite decide_True by done. cbn -[canonicalize_parsed_inner].
    split_and!; try first [done|apply Hinner|rewrite E9; set_solver].
    intros Hne. etransitivity; [|apply Hlen]; simpl; [by rewrite length_fmap|].
    intros ?%fmap_nil_inv. done.
  - rewrite !decide_False by congruence. split; [done|]. set_solver.
Qed.

(** The argument-free path: the kinds of the canonical ops are the stable
    phase sort of the given ones, every payload is [Noop], and the
    description is never empty. *)
Theorem canonicalize_spec `{HashBackend} cs :
  let ops := ccs_ops (canonicalize cs) in
  StronglySorted (key_le phase_order) (cop_kind <$> ops) ∧
  (∀ phase, filter (λ k, phase_order k = phase) (cop_kind <$> ops) =
            filter (λ k, phase_order k = phase) (cs_ops cs)) ∧
  (∀ i op, ops !! i = Some op →
     cop_payload op = Noop ∧ cop_block_hash op = compute_block_hash (cop_kind op) (N.of_nat i)) ∧
  cm_description (ccs_meta (canonicalize cs)) ≠ "".
Proof.
  assert (Hk : cop_kind <$> ccs_ops (canonicalize cs) = sort_by_key phase_order (cs_ops cs)).
  { simpl. rewrite fmap_imap. rewrite <- (list_fmap_id (sort_by_key _ _)) at 2.
    by rewrite <- imap_const. }
  simpl. simpl in Hk. rewrite Hk. split_and!.
  - apply sort_by_key_sorted.
  - intros phase. apply sort_by_key_stable.
  - intros i op Hop. rewrite list_lookup_imap in Hop. by apply fmap_Some in Hop as (? & _ & ->).
  - unfold materialize_description. by case_decide.
Qed.
