(* ===== verification/OpSchema.v ===== *)
(** * Op schemas and verbs

    crates/ail-change/src/op_schema.rs ([OP_SCHEMAS], [check_op],
    [validate_op_schemas]) and the verb table of parser.rs ([map_verb]).  The
    schemas state which arguments a verb needs; the theorems relate them to
    what [materialize_payload] does with an op that satisfies its schema. *)

From S2P Require Import Prelude Text GraphTypes SemanticGraph ChangeModel Normalize Payload Canonical.

(* ------------------------------------------------------------------ *)
(** ** Verbs *)

(** The stems in the order [map_verb] tries them. *)
Definition verb_stems : list (string * ChangeSetOp) :=
  [("create", OpCreate); ("set", OpSet); ("add", OpAdd); ("remove", OpRemove);
   ("delete", OpDelete); ("disconnect", OpDisconnect); ("rename", OpRename);
   ("move", OpMove); ("replace", OpReplace); ("connect", OpConnect); ("bind", OpBind);
   ("expose", OpExpose); ("hide", OpHide); ("grant", OpGrant); ("revoke", OpRevoke);
   ("infer", OpInfer); ("derive", OpDerive); ("generate", OpGenerate);
   ("assert", OpAssert); ("lock", OpLock); ("refactor", OpRefactor);
   ("migrate", OpMigrate); ("approve", OpApprove); ("reject", OpReject);
   ("deprecate", OpDeprecate); ("annotate", OpAnnotate); ("verify", OpVerify)].

(** [verb == stem || verb.starts_with(stem + "_")] *)
Definition verb_matches (verb stem : string) : bool :=
  bool_decide (verb = stem) || starts_with (stem +:+ "_") verb.

Definition map_verb (verb : string) : option ChangeSetOp :=
  snd <$> find_first (λ entry : string * ChangeSetOp, verb_matches verb entry.1 = true) verb_stems.

(* ------------------------------------------------------------------ *)
(** ** Schemas *)

Inductive OpSchemaError : Type :=
| MissingRequiredArg (verb arg : string).
#[global] Instance OpSchemaError_eq_dec : EqDecision OpSchemaError.
Proof. solve_decision. Defined.

Record OpSchemaEntry : Type := MkOpSchemaEntry {
  ose_verb_prefix : string;
  ose_required : list string;
}.

Definition OP_SCHEMAS : list OpSchemaEntry :=
  [MkOpSchemaEntry "create_function" ["id"];
   MkOpSchemaEntry "create_test" ["id"];
   MkOpSchemaEntry "create_type" ["id"];
   MkOpSchemaEntry "create_module" ["id"];
   MkOpSchemaEntry "create_capability" ["id"];
   MkOpSchemaEntry "add_param" ["target"; "name"; "type"];
   MkOpSchemaEntry "set_return" ["target"; "type"];
   MkOpSchemaEntry "add_effect" ["target"; "effect"];
   MkOpSchemaEntry "remove_effect" ["target"; "effect"];
   MkOpSchemaEntry "add_contract" ["target"; "kind"; "rule"];
   MkOpSchemaEntry "connect" ["source"; "target"];
   MkOpSchemaEntry "disconnect" ["source"; "target"];
   MkOpSchemaEntry "expose" ["target"];
   MkOpSchemaEntry "hide" ["target"];
   MkOpSchemaEntry "rename" ["target"; "name"];
   MkOpSchemaEntry "grant" ["target"; "capability"];
   MkOpSchemaEntry "revoke" ["target"; "capability"];
   MkOpSchemaEntry "deprecate" ["target"];
   MkOpSchemaEntry "annotate" ["target"; "key"; "value"];
   MkOpSchemaEntry "bind_handler" ["capability"; "handler"];
   MkOpSchemaEntry "infer_boundary" ["target"]].

Definition schema_of (verb : string) : option OpSchemaEntry :=
  find_first (λ s, ose_verb_prefix s = verb) OP_SCHEMAS.

Definition check_op (op : ParsedOp) : list OpSchemaError :=
  match schema_of (po_verb op) with
  | None => []
  | Some schema =>
      MissingRequiredArg (po_verb op) <$> filter (λ arg, po_args op !! arg = None) (ose_required schema)
  end.

Definition validate_op_schemas (pcs : ParsedChangeSet) : list OpSchemaError :=
  pcs_parsed_ops pcs ≫= check_op.

(* ------------------------------------------------------------------ *)
(** ** The verb table is unambiguous *)

(** The part of a verb before its first underscore. *)
Definition verb_head (verb : string) : string :=
  match split_once "_" verb with Some (h, _) => h | None => verb end.

Lemma verb_head_app stem rest :
  no_char "_" stem = true → verb_head (stem +:+ String "_" rest) = stem.
Proof.
  intros H. unfold verb_head.
  by rewrite (proj2 (split_once_Some "_" _ stem rest) (conj eq_refl H)).
Qed.

Lemma verb_matches_head verb stem :
  no_char "_" stem = true → verb_matches verb stem = true ↔ verb_head verb = stem.
Proof.
  intros Hs. unfold verb_matches.
  rewrite orb_true_iff, bool_decide_eq_true, starts_with_iff. split.
  - intros [->|[r ->]].
    + unfold verb_head. by rewrite (proj2 (split_once_None _ _)).
    + replace ((stem +:+ "_") +:+ r) with (stem +:+ String "_" r); [by apply verb_head_app|].
      clear. induction stem as [|c s IH]; [done|]. rewrite !append_cons. by rewrite IH.
  - unfold verb_head. destruct (split_once "_" verb) as [[l r]|] eqn:E.
    + apply split_once_Some in E as [-> _]. intros <-. right. exists r.
      clear. induction l as [|c s IH]; [done|]. rewrite !append_cons. by rewrite <- IH.
    + by left.
Qed.

Lemma verb_stems_simple : Forall (λ e, no_char "_" e.1 = true) verb_stems.
Proof. by repeat constructor. Qed.

Lemma verb_stems_NoDup : NoDup verb_stems.*1.
Proof. by apply (bool_decide_unpack _). Qed.

Lemma map_verb_Some verb kind :
  map_verb verb = Some kind ↔ (verb_head verb, kind) ∈ verb_stems.
Proof.
  unfold map_verb. pose proof verb_stems_simple as Hs. rewrite Forall_forall in Hs.
  rewrite fmap_Some. split.
  - intros ([stem k] & Hf & ->). apply find_first_Some in Hf as [Hin Hm]. simpl in Hm.
    apply verb_matches_head in Hm as ->; [done|by apply (Hs (stem, k))].
  - intros Hin. destruct (find_first _ verb_stems) as [[stem k]|] eqn:Hf.
    + exists (stem, k). split; [done|]. apply find_first_Some in Hf as [Hin' Hm]. simpl in Hm.
      apply verb_matches_head in Hm as <-; [|by apply (Hs (stem, k))].
      by pose proof (NoDup_fmap_key fst _ _ _ verb_stems_NoDup Hin Hin' eq_refl) as [= ->].
    + rewrite find_first_None in Hf. exfalso. apply (Hf _ Hin). simpl.
      apply verb_matches_head; [by apply (Hs _ Hin)|done].
Qed.

(** The verb table is a function of the verb's head, the part before its
    first underscore: the order in which the stems are tried is irrelevant, and
    no verb belongs to two kinds. *)
Theorem map_verb_spec verb :
  (∀ kind, map_verb verb = Some kind ↔ (verb_head verb, kind) ∈ verb_stems) ∧
  (map_verb verb = None ↔ verb_head verb ∉ verb_stems.*1).
Proof.
  split; [intros kind; apply map_verb_Some|].
  rewrite eq_None_not_Some. apply not_iff_compat. split.
  - intros [kind E%map_verb_Some]. by apply (list_elem_of_fmap_2 fst) in E.
  - intros ([h k] & Hh & He)%list_elem_of_fmap. exists k. apply map_verb_Some.
    by rewrite Hh.
Qed.

(* ------------------------------------------------------------------ *)
(** ** Schemas and payloads *)

(** The keys canonicalisation can add. *)
Definition materialized_keys : list string := ["visibility"; "derive"; "infer_pending"].

Lemma canonical_args_keys kind verb args k :
  k ∉ materialized_keys →
  is_Some (canonical_args kind verb args !! k) ↔ is_Some (args !! k).
Proof.
  intros Hk. rewrite <- (normalize_op_args_keys args). unfold canonical_args.
  assert (Hd : materialize_defaults kind verb (normalize_op_args args) !! k =
               normalize_op_args args !! k).
  { rewrite materialize_defaults_lookup. destruct (normalize_op_args args !! k); [done|].
    rewrite !decide_False by (unfold materialized_keys in Hk; set_solver). done. }
  case_decide; [|by rewrite Hd].
  rewrite or_insert_lookup_ne by (unfold materialized_keys in Hk; set_solver). by rewrite Hd.
Qed.

Lemma check_op_nil op schema :
  schema_of (po_verb op) = Some schema →
  check_op op = [] ↔ Forall (λ arg, is_Some (po_args op !! arg)) (ose_required schema).
Proof.
  intros E. unfold check_op. rewrite E, Forall_forall. split.
  - intros Hf%fmap_nil_inv arg Harg. rewrite filter_nil_iff in Hf.
    apply not_eq_None_Some. by apply Hf.
  - intros Hf. replace (filter _ _) with (@nil string); [done|].
    symmetry. apply filter_nil_iff. intros arg Harg. apply not_eq_None_Some. by apply Hf.
Qed.

(** The schemas are well formed: no duplicate verb, and no required argument
    is one that canonicalisation adds. *)
Lemma schemas_ok :
  NoDup (ose_verb_prefix <$> OP_SCHEMAS) ∧
  Forall (λ s, Forall (λ arg, arg ∉ materialized_keys) (ose_required s)) OP_SCHEMAS.
Proof. split; by apply (bool_decide_unpack _). Qed.

Section Effective.
Context `{HashBackend}.
Implicit Types args : OpArgs.

Lemma create_node_effective args mk : create_node args mk ≠ Noop ↔ is_Some (args !! "id").
Proof. unfold create_node. destruct (args !! "id"); simpl; naive_solver. Qed.

Lemma with_target_effective args mk :
  (∀ t, mk t ≠ Noop) → with_target args mk ≠ Noop ↔ is_Some (args !! "target").
Proof. unfold with_target. destruct (args !! "target"); simpl; naive_solver. Qed.

Lemma with_target_and_effective args key mk :
  (∀ t v, mk t v ≠ Noop) →
  with_target_and args key mk ≠ Noop ↔ is_Some (args !! "target") ∧ is_Some (args !! key).
Proof.
  unfold with_target_and, target_and.
  destruct (args !! "target"), (args !! key); simpl; naive_solver.
Qed.

Lemma edge_payload_effective args remove :
  edge_payload args remove ≠ Noop ↔ is_Some (args !! "source") ∧ is_Some (args !! "target").
Proof.
  unfold edge_payload. destruct (args !! "source"), (args !! "target"), remove;
    simpl; naive_solver.
Qed.

Lemma match3_effective args a b c mk :
  (∀ x y z, mk x y z ≠ Noop) →
  match args !! a, args !! b, args !! c with
  | Some x, Some y, Some z => mk x y z | _, _, _ => Noop end ≠ Noop ↔
  is_Some (args !! a) ∧ is_Some (args !! b) ∧ is_Some (args !! c).
Proof. destruct (args !! a), (args !! b), (args !! c); naive_solver. Qed.

Lemma match2_effective args a b mk :
  (∀ x y, mk x y ≠ Noop) →
  match args !! a, args !! b with Some x, Some y => mk x y | _, _ => Noop end ≠ Noop ↔
  is_Some (args !! a) ∧ is_Some (args !! b).
Proof. destruct (args !! a), (args !! b); naive_solver. Qed.

(** An argument map gives the op of a verb a mutation exactly when it has the
    arguments of the verb's schema, [deprecate] aside. *)
Lemma materialize_payload_schema idx verb kind schema args :
  schema_of verb = Some schema → map_verb verb = Some kind →
  materialize_payload idx kind verb args ≠ Noop ↔
  Forall (λ arg, is_Some (args !! arg)) (ose_required schema) ∧
  (verb = "deprecate" → is_Some (args !! "replacement")).
Proof.
  intros Hs Hk. pose proof (find_first_Some _ _ _ Hs) as [Hin <-]. clear Hs.
  unfold OP_SCHEMAS in Hin.
  repeat match goal with
  | Hin : _ ∈ _ :: _ |- _ => apply elem_of_cons in Hin as [->|Hin]
  | Hin : _ ∈ [] |- _ => by apply not_elem_of_nil in Hin
  end;
  vm_compute in Hk; injection Hk as <-; cbn [ose_verb_prefix ose_required];
  rewrite ?Forall_cons, Forall_nil; unfold materialize_payload;
  repeat (rewrite decide_True by done || rewrite decide_False by done);
  (etransitivity;
    [first [ apply create_node_effective
           | by apply with_target_effective
           | by apply with_target_and_effective
           | apply edge_payload_effective
           | by apply (match3_effective args _ _ _ (λ t n ty, AddParamByName t n ty))
           | by apply (match3_effective args _ _ _ (λ t k r, AddContractByName t k r))
           | by apply (match3_effective args _ _ _ (λ t k v, SetMetadataByName t k v))
           | by apply (match2_effective args _ _ (λ t n, RenameNodeByName t n))
           | by apply (match2_effective args _ _
               (λ c h, AddBindingByName c (MkBinding c h (args !! "profile"))))]|]).
  all: naive_solver.
Qed.
End Effective.

(** For an op whose verb has a schema, being well formed is having an
    effect: its canonical op carries a graph mutation exactly when the schema
    check reports nothing.  The one exception is [deprecate], which also needs
    the [replacement] argument its schema does not ask for. *)
Theorem schema_valid_iff_effective `{HashBackend} (idx : nat) (op : ParsedOp)
    (Hkind : map_verb (po_verb op) = Some (po_kind op))
    (Hschema : is_Some (schema_of (po_verb op))) :
  cop_payload (canonical_op idx (po_kind op, po_verb op, po_args op)) ≠ Noop ↔
  check_op op = [] ∧ (po_verb op = "deprecate" → is_Some (po_args op !! "replacement")).
Proof.
  destruct Hschema as [schema Hs]. simpl.
  rewrite (materialize_payload_schema _ _ _ schema) by done.
  rewrite check_op_nil by done.
  rewrite (canonical_args_keys _ _ _ "replacement") by (unfold materialized_keys; set_solver).
  assert (Forall (λ arg, arg ∉ materialized_keys) (ose_required schema)) as Hk.
  { destruct schemas_ok as [_ Hall]. rewrite Forall_forall in Hall.
    apply Hall. by apply find_first_Some in Hs as [? _]. }
  apply and_iff_compat_r. rewrite !Forall_forall. rewrite Forall_forall in Hk.
  split; intros Hf arg Harg; [rewrite <- (canonical_args_keys (po_kind op) (po_verb op)) by auto|
    rewrite canonical_args_keys by auto]; auto.
Qed.

Definition annotate_op : ParsedOp :=
  MkParsedOp OpAnnotate "annotate"
    (<["target" := "fn.f"]> (<["key" := "owner"]> (<["value" := "core"]> ∅))).

Lemma schema_valid_iff_effective_witness :
  check_op annotate_op = [] ∧
  (@cop_payload (@canonical_op test_backend 0
     (po_kind annotate_op, po_verb annotate_op, po_args annotate_op)) ≠ Noop ↔
   check_op annotate_op = [] ∧
   (po_verb annotate_op = "deprecate" → is_Some (po_args annotate_op !! "replacement"))).
Proof.
  split; [reflexivity|].
  apply (@schema_valid_iff_effective test_backend 0 annotate_op); [reflexivity|].
  eexists. reflexivity.
Defined.

Definition deprecate_op : ParsedOp :=
  MkParsedOp OpDeprecate "deprecate" (<["target" := "fn.f"]> ∅).

(** A [deprecate] op that satisfies its schema is silently ignored: the
    document below is accepted without a schema error and its canonical form
    has no effect at all. *)
Theorem deprecate_without_replacement_is_noop `{HashBackend} :
  let doc := set_parsed_ops [deprecate_op] parsed_change_set_default in
  map_verb "deprecate" = Some OpDeprecate ∧
  validate_op_schemas doc = [] ∧
  cop_payload <$> ccs_ops (canonicalize_parsed_inner doc) = [Noop].
Proof. split_and!; reflexivity. Qed.

(** Schema validation reports exactly the missing required arguments, op
    by op in document order, and nothing for a verb without a schema. *)
Theorem validate_op_schemas_spec pcs :
  (validate_op_schemas pcs = [] ↔
   ∀ op schema arg, op ∈ pcs_parsed_ops pcs → schema_of (po_verb op) = Some schema →
     arg ∈ ose_required schema → is_Some (po_args op !! arg)) ∧
  (∀ verb arg, MissingRequiredArg verb arg ∈ validate_op_schemas pcs ↔
     ∃ op schema, op ∈ pcs_parsed_ops pcs ∧ po_verb op = verb ∧
       schema_of verb = Some schema ∧ arg ∈ ose_required schema ∧ po_args op !! arg = None).
Proof.
  unfold validate_op_schemas. split.
  - rewrite bind_nil_iff. split.
    + intros Hn op schema arg Hop Hs Harg. specialize (Hn op Hop).
      rewrite (check_op_nil op schema) in Hn by done. rewrite Forall_forall in Hn. auto.
    + intros Hall op Hop. destruct (schema_of (po_verb op)) as [schema|] eqn:E.
      * rewrite (check_op_nil op schema) by done. apply Forall_forall. eauto.
      * unfold check_op. by rewrite E.
  - intros verb arg. rewrite list_elem_of_bind. split.
    + intros (op & Hin & Hop). exists op. unfold check_op in Hin.
      destruct (schema_of (po_verb op)) as [schema|] eqn:E; [|set_solver].
      apply list_elem_of_fmap in Hin as (a & [= -> ->] & [? ?]%list_elem_of_filter). eauto 10.
    + intros (op & schema & Hop & <- & Hs & Harg & Hnone). exists op. split; [|done].
      unfold check_op. rewrite Hs. apply list_elem_of_fmap. exists arg.
      split; [done|]. by apply list_elem_of_filter.
Qed.
