(* ===== verification/Apply.v ===== *)
(** * Atomic application of ChangeSets (crates/ail-change/src/apply.rs)

    [apply] checks the snapshot guard, evaluates the preconditions and applies
    the ops one by one, validating the graph after each; a failure restores the
    graph.  The mutated [&mut SemanticGraph] is passed and returned. *)

From S2P Require Import Prelude Text GraphTypes SemanticGraph ChangeModel.

(** The trait [SnapshotBridge]: where the live snapshot id is read. *)
Class SnapshotBridge (B : Type) : Type := current_snapshot_id : B → SnapshotId.

(* ------------------------------------------------------------------ *)
(** ** Preconditions *)

Definition compute_node_hash `{HashBackend} (n : GraphNode) : BlockHash := blake3 (cbor_node n).

Definition find_node_by_id (g : SemanticGraph) (id : NodeRef) : option GraphNode :=
  find_first (λ n, node_id n = id) (graph_nodes g).

Definition find_node_by_name (g : SemanticGraph) (name : string) : option GraphNode :=
  find_first (λ n, node_name n = name) (graph_nodes g).

(** [None] if the precondition passes, the reason of the failure otherwise. *)
Definition evaluate_precondition `{HashBackend} (precondition : Precondition) (g : SemanticGraph)
  : option FailureReason :=
  match precondition with
  | AssertExists id =>
      if any (λ n, node_id n = id) (graph_nodes g) then None else Some (AssertExistsFailed id)
  | AssertHash id expected_hash =>
      match find_node_by_id g id with
      | None => Some (AssertHashNodeMissing id)
      | Some n =>
          if decide (compute_node_hash n = expected_hash) then None
          else Some (AssertHashMismatch id)
      end
  | AssertExistsByName name =>
      if any (λ n, node_name n = name) (graph_nodes g) then None
      else Some (AssertExistsByNameFailed name)
  | AssertHashByName name expected_hash =>
      match find_node_by_name g name with
      | None => Some (AssertHashByNameMissing name)
      | Some n =>
          if decide (compute_node_hash n = expected_hash) then None
          else Some (AssertHashByNameMismatch name)
      end
  | AssertContext target_name context_hash =>
      match find_node_by_name g target_name with
      | None => Some (AssertContextMissing target_name)
      | Some n =>
          match context_hash with
          | Some expected_ctx_hash =>
              let computed_hex := to_hex (compute_node_hash n) in
              if negb (starts_with expected_ctx_hash computed_hex) &&
                 bool_decide (computed_hex ≠ expected_ctx_hash)
              then Some (AssertContextMismatch target_name) else None
          | None => None
          end
      end
  end.

(* ------------------------------------------------------------------ *)
(** ** Mutations of one node *)

Definition set_node_metadata (key value : string) (n : GraphNode) : GraphNode :=
  if decide (key = "return" ∨ key = "type") then set_return_type (Some value) n
  else if decide (key = "body") then set_body_expr (Some value) n
  else
    let trust := default (MkTrustMetadata (TlCustom "metadata") []) (node_trust_metadata n) in
    let tag := key +:+ "=" +:+ value in
    set_trust_metadata (Some (MkTrustMetadata (tm_level trust) (push_unique tag (tm_tags trust)))) n.

Definition add_param (name ty : string) (n : GraphNode) : GraphNode :=
  let params := default [] (node_params n) in
  set_params
    (Some (if any (λ param, pd_name param = name) params then params
           else params ++ [MkParamDecl name ty])) n.

Definition add_effect (effect : string) (n : GraphNode) : GraphNode :=
  let row := default (MkEffectRow []) (node_effect_row n) in
  set_effect_row (Some (MkEffectRow (push_unique effect (er_effects row)))) n.

Definition remove_effect (effect : string) (n : GraphNode) : GraphNode :=
  match node_effect_row n with
  | Some row => set_effect_row (Some (MkEffectRow (filter (.≠ effect) (er_effects row)))) n
  | None => n
  end.

Definition add_contract (kind rule : string) (n : GraphNode) : GraphNode :=
  let clauses := default (MkContractClauses [] []) (node_contract_clauses n) in
  let clauses :=
    if decide (kind = "requires")
    then MkContractClauses (push_unique rule (cc_requires clauses)) (cc_ensures clauses)
    else MkContractClauses (cc_requires clauses) (push_unique rule (cc_ensures clauses)) in
  set_contract_clauses (Some clauses) n.

Definition remove_contract (rule : string) (n : GraphNode) : GraphNode :=
  match node_contract_clauses n with
  | Some clauses =>
      set_contract_clauses
        (Some (MkContractClauses (filter (.≠ rule) (cc_requires clauses))
                 (filter (.≠ rule) (cc_ensures clauses)))) n
  | None => n
  end.

Definition add_capability_req (capability : string) (n : GraphNode) : GraphNode :=
  let reqs := default (MkCapabilityReqs []) (node_capability_reqs n) in
  set_capability_reqs (Some (MkCapabilityReqs (push_unique capability (cr_caps reqs)))) n.

Definition remove_capability_req (capability : string) (n : GraphNode) : GraphNode :=
  match node_capability_reqs n with
  | Some reqs =>
      set_capability_reqs (Some (MkCapabilityReqs (filter (.≠ capability) (cr_caps reqs)))) n
  | None => n
  end.

(* ------------------------------------------------------------------ *)
(** ** [apply_payload] *)

Definition node_id_by_name (g : SemanticGraph) (name : string) : option NodeRef :=
  node_id <$> find_node_by_name g name.

(** [if let Some(n) = node_by_name_mut(graph, name) { *n = f(n) }] *)
Definition node_by_name_mut (name : string) (f : GraphNode → GraphNode) (g : SemanticGraph)
  : SemanticGraph :=
  MkSemanticGraph (update_first (λ n, node_name n = name) f (graph_nodes g)) (graph_edges g).

Definition remove_node (id : NodeRef) (g : SemanticGraph) : SemanticGraph :=
  MkSemanticGraph (filter (λ n, node_id n ≠ id) (graph_nodes g))
    (filter (λ e, edge_source e ≠ id ∧ edge_target e ≠ id) (graph_edges g)).

Definition push_edge (e : GraphEdge) (g : SemanticGraph) : SemanticGraph :=
  MkSemanticGraph (graph_nodes g) (graph_edges g ++ [e]).

Definition apply_payload (payload : OpPayload) (g : SemanticGraph) : SemanticGraph :=
  match payload with
  | CreateNode node => MkSemanticGraph (graph_nodes g ++ [node]) (graph_edges g)
  | AddEdge edge => push_edge edge g
  | RemoveNode id => remove_node id g
  | SetNodeName id name =>
      MkSemanticGraph (update_first (λ n, node_id n = id) (set_name name) (graph_nodes g))
        (graph_edges g)
  | RemoveNodeByName name =>
      match node_id_by_name g name with Some id => remove_node id g | None => g end
  | RenameNodeByName target name => node_by_name_mut target (set_name name) g
  | AddEdgeByName source target kind =>
      match node_id_by_name g source, node_id_by_name g target with
      | Some s, Some t => push_edge (graph_edge_new s t kind) g
      | _, _ => g
      end
  | RemoveEdgeByName source target kind =>
      match node_id_by_name g source, node_id_by_name g target with
      | Some s, Some t =>
          MkSemanticGraph (graph_nodes g)
            (filter (λ e, edge_source e ≠ s ∨ edge_target e ≠ t ∨ edge_kind e ≠ kind)
               (graph_edges g))
      | _, _ => g
      end
  | SetReturnByName target ty => node_by_name_mut target (set_return_type (Some ty)) g
  | SetBodyByName target body => node_by_name_mut target (set_body_expr (Some body)) g
  | SetMetadataByName target key value => node_by_name_mut target (set_node_metadata key value) g
  | AddParamByName target name ty => node_by_name_mut target (add_param name ty) g
  | AddEffectByName target effect => node_by_name_mut target (add_effect effect) g
  | RemoveEffectByName target effect => node_by_name_mut target (remove_effect effect) g
  | AddContractByName target kind rule => node_by_name_mut target (add_contract kind rule) g
  | RemoveContractByName target rule => node_by_name_mut target (remove_contract rule) g
  | AddCapabilityReqByName target capability =>
      node_by_name_mut target (add_capability_req capability) g
  | RemoveCapabilityReqByName target capability =>
      node_by_name_mut target (remove_capability_req capability) g
  | SetVisibilityByName target visibility =>
      node_by_name_mut target (set_visibility (Some visibility)) g
  | AddBindingByName target binding =>
      node_by_name_mut target (λ n, set_bindings (push_unique binding (node_bindings n)) n) g
  | AddInferredFactByName target fact =>
      node_by_name_mut target (λ n, set_inferred (push_unique fact (node_inferred n)) n) g
  | AddDerivedImplByName target impl_name =>
      node_by_name_mut target
        (λ n, set_derived_impls (push_unique impl_name (node_derived_impls n)) n) g
  | AddGeneratedArtifactByName target artifact =>
      node_by_name_mut target
        (λ n, set_generated_artifacts (push_unique artifact (node_generated_artifacts n)) n) g
  | AddAssertionByName target assertion =>
      node_by_name_mut target
        (λ n, set_assertions (push_unique assertion (node_assertions n)) n) g
  | SetWorkflowStateByName target state =>
      node_by_name_mut target (set_workflow_state (Some state)) g
  | Noop => g
  end.

(* ------------------------------------------------------------------ *)
(** ** [apply] *)

(** The loop over the preconditions: the first failure. *)
Fixpoint check_preconditions `{HashBackend} (ps : list Precondition) (g : SemanticGraph)
  : option FailureReason :=
  match ps with
  | [] => None
  | p :: ps' =>
      match evaluate_precondition p g with
      | Some reason => Some reason
      | None => check_preconditions ps' g
      end
  end.

(** The loop over the ops: apply, then validate. *)
Fixpoint apply_ops (ops : list CanonicalOp) (g : SemanticGraph)
  : result SemanticGraph GraphValidationError :=
  match ops with
  | [] => Ok g
  | op :: ops' =>
      let g' := apply_payload (cop_payload op) g in
      let? _ := validate g' in
      apply_ops ops' g'
  end.

Definition apply `{HashBackend} `{SnapshotBridge B}
    (cs : CanonicalChangeSet) (g : SemanticGraph) (bridge : B)
  : SemanticGraph * ChangeSetOutcome :=
  let live_id := current_snapshot_id bridge in
  if decide (ccs_base_snapshot_id cs ≠ live_id) then (g, RebaseRequired live_id)
  else
    let rollback := g in
    match check_preconditions (ccs_preconditions cs) g with
    | Some reason => (rollback, Failed reason)
    | None =>
        match apply_ops (ccs_ops cs) g with
        | Err err => (rollback, Failed (InvariantViolated err))
        | Ok g' => (g', Applied)
        end
    end.

(* ------------------------------------------------------------------ *)
(** ** Specification *)

(** The graph after a list of ops, whatever the validator says. *)
Definition run_ops (ops : list CanonicalOp) (g : SemanticGraph) : SemanticGraph :=
  foldl (λ g op, apply_payload (cop_payload op) g) g ops.

(** What a precondition means. *)
Definition precondition_holds `{HashBackend} (p : Precondition) (g : SemanticGraph) : Prop :=
  match p with
  | AssertExists id => ∃ n, find_node_by_id g id = Some n
  | AssertHash id h => ∃ n, find_node_by_id g id = Some n ∧ compute_node_hash n = h
  | AssertExistsByName name => ∃ n, find_node_by_name g name = Some n
  | AssertHashByName name h => ∃ n, find_node_by_name g name = Some n ∧ compute_node_hash n = h
  | AssertContext name h =>
      ∃ n, find_node_by_name g name = Some n ∧
        ∀ prefix, h = Some prefix → ∃ rest, to_hex (compute_node_hash n) = (prefix +:+ rest)
  end.

Lemma any_find_first {A} (P : A → Prop) `{∀ x, Decision (P x)} l :
  any P l = true ↔ ∃ x, find_first P l = Some x.
Proof.
  rewrite any_true, <- find_first_is_Some. done.
Qed.

Lemma evaluate_precondition_None `{HashBackend} p g :
  evaluate_precondition p g = None ↔ precondition_holds p g.
Proof.
  destruct p as [id|id h|name|name h|name [ctx|]]; simpl;
    unfold find_node_by_id, find_node_by_name.
  - rewrite <- any_find_first. by destruct (any _ _).
  - destruct (find_first _ _) as [n|]; [case_decide|]; naive_solver.
  - rewrite <- any_find_first. by destruct (any _ _).
  - destruct (find_first _ _) as [n|]; [case_decide|]; naive_solver.
  - destruct (find_first _ _) as [n|]; [|naive_solver].
    destruct (starts_with ctx (to_hex (compute_node_hash n))) eqn:E; simpl.
    + apply starts_with_iff in E. naive_solver.
    + case_bool_decide as Hne; [|].
      * split; [done|]. intros (n' & [= <-] & Hp). destruct (Hp ctx eq_refl) as [r Hr].
        rewrite (proj2 (starts_with_iff _ _)) in E by eauto. done.
      * rewrite (proj2 (starts_with_iff _ _)) in E; [done|].
        exists "". by rewrite append_empty.
  - destruct (find_first _ _) as [n|]; naive_solver.
Qed.

Lemma check_preconditions_None `{HashBackend} ps g :
  check_preconditions ps g = None ↔ Forall (λ p, precondition_holds p g) ps.
Proof.
  induction ps as [|p ps IH]; simpl; [split; [constructor|done]|].
  rewrite Forall_cons, <- evaluate_precondition_None, <- IH.
  destruct (evaluate_precondition p g); naive_solver.
Qed.

(** The op loop succeeds when every intermediate graph is well formed. *)
Lemma apply_ops_Ok ops g g' :
  apply_ops ops g = Ok g' ↔
  g' = run_ops ops g ∧
  ∀ k, k < length ops → graph_wf (run_ops (take (S k) ops) g).
Proof.
  revert g. induction ops as [|op ops IH]; intros g; simpl.
  { split; [intros [= <-]; split; [done|lia]|intros [-> _]; done]. }
  set (g1 := apply_payload (cop_payload op) g).
  destruct (validate g1) as [[]|err] eqn:Hv.
  - apply validate_Ok in Hv. rewrite IH. split; intros [-> Hwf]; (split; [done|]).
    + intros [|k] Hk; [done|]. apply Hwf. lia.
    + intros k Hk. apply (Hwf (S k)). lia.
  - split; [done|]. intros [_ Hwf]. specialize (Hwf 0 ltac:(lia)).
    apply validate_Ok in Hwf. rewrite take_0 in Hwf.
    change (validate g1 = Ok ()) in Hwf. congruence.
Qed.

(** The op loop fails with the first error of the validator. *)
Lemma apply_ops_Err ops g err :
  apply_ops ops g = Err err ↔
  ∃ k, k < length ops ∧ validate (run_ops (take (S k) ops) g) = Err err ∧
    ∀ j, j < k → graph_wf (run_ops (take (S j) ops) g).
Proof.
  revert g. induction ops as [|op ops IH]; intros g; simpl; [naive_solver lia|].
  set (g1 := apply_payload (cop_payload op) g).
  destruct (validate g1) as [[]|e] eqn:Hv.
  - rewrite IH. split.
    + intros (k & Hk & He & Hwf). exists (S k). split_and!; [lia|done|].
      intros [|j] Hj; [by apply validate_Ok|]. apply Hwf. lia.
    + intros ([|k] & Hk & He & Hwf).
      { rewrite take_0 in He. change (validate g1 = Err err) in He. congruence. }
      exists k. split_and!; [lia|done|]. intros j Hj. apply (Hwf (S j)). lia.
  - split.
    + intros [= <-]. exists 0. rewrite take_0. split_and!; [lia|done|lia].
    + intros ([|k] & Hk & He & Hwf).
      { rewrite take_0 in He. change (validate g1 = Err err) in He. congruence. }
      specialize (Hwf 0 ltac:(lia)). rewrite take_0 in Hwf. apply validate_Ok in Hwf.
      change (validate g1 = Ok ()) in Hwf. congruence.
Qed.

(** What a refused precondition says of the graph: the node it names is not there, or
    it is there and its hash is not the asserted one. *)
Definition refused_because `{HashBackend} (p : Precondition) (g : SemanticGraph)
    (reason : FailureReason) : Prop :=
  match p with
  | AssertExists id =>
      reason = AssertExistsFailed id ∧ ∀ n, n ∈ graph_nodes g → node_id n ≠ id
  | AssertHash id h =>
      (reason = AssertHashNodeMissing id ∧ ∀ n, n ∈ graph_nodes g → node_id n ≠ id) ∨
      (reason = AssertHashMismatch id ∧
       ∃ n, n ∈ graph_nodes g ∧ node_id n = id ∧ compute_node_hash n ≠ h)
  | AssertExistsByName name =>
      reason = AssertExistsByNameFailed name ∧ ∀ n, n ∈ graph_nodes g → node_name n ≠ name
  | AssertHashByName name h =>
      (reason = AssertHashByNameMissing name ∧ ∀ n, n ∈ graph_nodes g → node_name n ≠ name) ∨
      (reason = AssertHashByNameMismatch name ∧
       ∃ n, n ∈ graph_nodes g ∧ node_name n = name ∧ compute_node_hash n ≠ h)
  | AssertContext name h =>
      (reason = AssertContextMissing name ∧ ∀ n, n ∈ graph_nodes g → node_name n ≠ name) ∨
      (reason = AssertContextMismatch name ∧
       ∃ n prefix, n ∈ graph_nodes g ∧ node_name n = name ∧ h = Some prefix ∧
         ∀ rest, to_hex (compute_node_hash n) ≠ (prefix +:+ rest))
  end.

(** Why a ChangeSet on the live snapshot fails: its first precondition that does not
    hold, or, all of them holding, the first op after which the graph has a duplicate
    ref or a dangling edge. *)
Definition failed_because `{HashBackend} (cs : CanonicalChangeSet) (g : SemanticGraph)
    (reason : FailureReason) : Prop :=
  (∃ ps p ps', ccs_preconditions cs = ps ++ p :: ps' ∧
     Forall (λ p, precondition_holds p g) ps ∧ ¬ precondition_holds p g ∧
     refused_because p g reason) ∨
  (Forall (λ p, precondition_holds p g) (ccs_preconditions cs) ∧
   ∃ err k, reason = InvariantViolated err ∧ k < length (ccs_ops cs) ∧
     (∀ j, j < k → graph_wf (run_ops (take (S j) (ccs_ops cs)) g)) ∧
     ¬ graph_wf (run_ops (take (S k) (ccs_ops cs)) g) ∧
     validate_post (run_ops (take (S k) (ccs_ops cs)) g) (Err err)).

Lemma evaluate_precondition_Some `{HashBackend} p g reason :
  evaluate_precondition p g = Some reason → refused_because p g reason.
Proof.
  destruct p as [id|id h|name|name h|name [ctx|]]; simpl;
    unfold find_node_by_id, find_node_by_name;
    try (destruct (any _ _) eqn:E; [done|]; intros [= <-]; split; [done|];
         intros n Hn Hid; apply not_true_iff_false in E; apply E, any_true; eauto);
    destruct (find_first _ _) as [n|] eqn:E;
    try (apply find_first_Some in E as [Hin Hid]); try rewrite find_first_None in E;
    try (intros [= <-]; left; by split); try done.
  - case_decide; [done|]. intros [= <-]. right. eauto 10.
  - case_decide; [done|]. intros [= <-]. right. eauto 10.
  - destruct (starts_with ctx (to_hex (compute_node_hash n))) eqn:Es; [done|]. simpl.
    case_bool_decide; [|done]. intros [= <-]. right. split; [done|].
    exists n, ctx. split_and!; [done..|]. intros rest Hr.
    apply not_true_iff_false in Es. apply Es, starts_with_iff. eauto.
Qed.

Lemma check_preconditions_Some `{HashBackend} ps g reason :
  check_preconditions ps g = Some reason →
  ∃ l p l', ps = l ++ p :: l' ∧ Forall (λ p, precondition_holds p g) l ∧
    ¬ precondition_holds p g ∧ refused_because p g reason.
Proof.
  induction ps as [|p ps IH]; simpl; [done|].
  destruct (evaluate_precondition p g) as [r|] eqn:E.
  - intros [= ->]. exists [], p, ps. split_and!; [done|constructor| |].
    + rewrite <- evaluate_precondition_None. congruence.
    + by apply evaluate_precondition_Some.
  - intros (l & q & l' & -> & Hl & Hq)%IH. apply evaluate_precondition_None in E.
    exists (p :: l), q, l'. split_and!; [done|by constructor|apply Hq..].
Qed.

Lemma apply_ops_failed ops g err :
  apply_ops ops g = Err err →
  ∃ k, k < length ops ∧ (∀ j, j < k → graph_wf (run_ops (take (S j) ops) g)) ∧
    ¬ graph_wf (run_ops (take (S k) ops) g) ∧
    validate_post (run_ops (take (S k) ops) g) (Err err).
Proof.
  intros (k & Hk & He & Hwf)%apply_ops_Err. exists k. split_and!; [done..| |].
  - rewrite <- validate_Ok. congruence.
  - rewrite <- He. apply validate_post_holds.
Qed.

(* ------------------------------------------------------------------ *)
(** ** Which payloads can break a graph *)

(** [f] leaves the identity of a node alone. *)
Definition keeps_id (f : GraphNode → GraphNode) : Prop := ∀ n, node_id (f n) = node_id n.

Lemma update_first_node_ids (P : GraphNode → Prop) `{∀ n, Decision (P n)} f l :
  keeps_id f → node_id <$> update_first P f l = node_id <$> l.
Proof. intros Hf. apply update_first_fmap. auto. Qed.

Lemma node_by_name_mut_ids name f g :
  keeps_id f → node_ids (node_by_name_mut name f g) = node_ids g.
Proof. apply update_first_node_ids. Qed.

Lemma remove_node_ids id g : node_ids (remove_node id g) = filter (.≠ id) (node_ids g).
Proof. unfold node_ids. simpl. by rewrite filter_fmap. Qed.

Lemma remove_node_wf id g : graph_wf g → graph_wf (remove_node id g).
Proof.
  intros [Hnd He]. split.
  - rewrite remove_node_ids. by apply NoDup_filter.
  - rewrite remove_node_ids. unfold edge_ok in *. simpl. rewrite Forall_forall in *.
    intros e [[? ?] Hin]%list_elem_of_filter. destruct (He e Hin).
    by rewrite !list_elem_of_filter.
Qed.

Lemma find_node_by_name_Some g name n :
  find_node_by_name g name = Some n → n ∈ graph_nodes g ∧ node_name n = name.
Proof. apply (find_first_Some (λ n, node_name n = name)). Qed.

Lemma node_id_by_name_elem g name id : node_id_by_name g name = Some id → id ∈ node_ids g.
Proof.
  intros (n & [Hn _]%find_node_by_name_Some & ->)%fmap_Some.
  by apply list_elem_of_fmap_2.
Qed.

Lemma push_edge_wf e g : graph_wf g → graph_wf (push_edge e g) ↔ edge_ok (node_ids g) e.
Proof.
  intros [Hnd He]. unfold graph_wf. simpl. rewrite Forall_app, Forall_singleton. naive_solver.
Qed.

(** Every payload but the two below edits the attributes of one node, or only
    removes nodes and edges, or adds an edge between existing nodes. *)
Definition payload_safe (p : OpPayload) (g : SemanticGraph) : Prop :=
  match p with
  | CreateNode n => node_id n ∉ node_ids g
  | AddEdge e => edge_ok (node_ids g) e
  | _ => True
  end.

Lemma remove_effect_id e : keeps_id (remove_effect e).
Proof. intros n. unfold remove_effect. by destruct (node_effect_row n). Qed.
Lemma remove_contract_id r : keeps_id (remove_contract r).
Proof. intros n. unfold remove_contract. by destruct (node_contract_clauses n). Qed.
Lemma remove_capability_req_id c : keeps_id (remove_capability_req c).
Proof. intros n. unfold remove_capability_req. by destruct (node_capability_reqs n). Qed.
Lemma set_node_metadata_id k v : keeps_id (set_node_metadata k v).
Proof. intros n. unfold set_node_metadata. by repeat case_decide. Qed.
#[export] Hint Resolve remove_effect_id remove_contract_id remove_capability_req_id
  set_node_metadata_id : ail.
#[export] Hint Extern 1 (keeps_id _) => (intros ?; reflexivity) : ail.

Lemma apply_payload_wf p g : graph_wf g → graph_wf (apply_payload p g) ↔ payload_safe p g.
Proof.
  intros Hwf.
  assert (Hname : ∀ name f, keeps_id f → graph_wf (node_by_name_mut name f g) ↔ True).
  { intros name f Hf. unfold graph_wf. rewrite node_by_name_mut_ids by done. by split. }
  destruct p; simpl; try (apply Hname; auto with ail); try done.
  - (* CreateNode *)
    destruct Hwf as [Hnd He]. unfold graph_wf, node_ids in *. simpl.
    rewrite fmap_app, NoDup_app. csimpl. split; [set_solver|].
    intros Hn. split_and!; [done|set_solver|apply NoDup_singleton|].
    eapply Forall_impl; [done|]. unfold edge_ok. intros e ?; simpl in *; set_solver.
  - (* AddEdge *) by apply push_edge_wf.
  - (* RemoveNode *) split; [done|]. intros _. by apply remove_node_wf.
  - (* SetNodeName *)
    split; [done|]. intros _. unfold graph_wf, node_ids in *. simpl.
    by rewrite update_first_node_ids by (by intros ?).
  - (* RemoveNodeByName *)
    split; [done|]. intros _. destruct (node_id_by_name g name); [by apply remove_node_wf|done].
  - (* AddEdgeByName *)
    split; [done|]. intros _. destruct (node_id_by_name g source) eqn:E1; [|done].
    destruct (node_id_by_name g target) eqn:E2; [|done].
    apply push_edge_wf; [done|]. split; simpl; eauto using node_id_by_name_elem.
  - (* RemoveEdgeByName *)
    split; [done|]. intros _. destruct (node_id_by_name g source), (node_id_by_name g target);
      try done. destruct Hwf as [Hnd He]. split; [done|]. simpl.
    rewrite Forall_forall in *. intros e [_ ?]%list_elem_of_filter. auto.
Qed.

(* ------------------------------------------------------------------ *)
(** ** Claims *)

Section Claims.
Context `{HashBackend} `{SnapshotBridge B}.

(** Atomicity.  [apply] either applies everything or leaves the graph
    exactly as it was; it asks for a rebase exactly when the snapshots
    differ, and it never reports a conflict itself. *)
Theorem apply_atomic (cs : CanonicalChangeSet) (g : SemanticGraph) (bridge : B) :
  let '(g', outcome) := apply cs g bridge in
  (outcome = Applied ∨ g' = g) ∧
  (outcome = RebaseRequired (current_snapshot_id bridge) ↔
     ccs_base_snapshot_id cs ≠ current_snapshot_id bridge) ∧
  match outcome with
  | RebaseRequired live => live = current_snapshot_id bridge
  | ConflictIrresolvable _ => False
  | _ => True
  end.
Proof.
  unfold apply. case_decide as Hid; [naive_solver|].
  destruct (check_preconditions _ g); [naive_solver|].
  destruct (apply_ops _ g); naive_solver.
Qed.

(** C11: functional correctness of [apply].  It succeeds exactly when the
    ChangeSet is based on the live snapshot, every precondition holds of
    the graph before the first op, and every intermediate graph is well
    formed; the result is then the graph with all payloads applied in order. *)
Theorem apply_success (cs : CanonicalChangeSet) (g g' : SemanticGraph) (bridge : B) :
  apply cs g bridge = (g', Applied) ↔
  ccs_base_snapshot_id cs = current_snapshot_id bridge ∧
  Forall (λ p, precondition_holds p g) (ccs_preconditions cs) ∧
  (∀ k, k < length (ccs_ops cs) → graph_wf (run_ops (take (S k) (ccs_ops cs)) g)) ∧
  g' = run_ops (ccs_ops cs) g.
Proof.
  unfold apply. rewrite <- check_preconditions_None.
  case_decide as Hid; [naive_solver|].
  destruct (check_preconditions _ g); [naive_solver|].
  destruct (apply_ops (ccs_ops cs) g) as [g1|err] eqn:E.
  - apply apply_ops_Ok in E as [-> ?]. naive_solver.
  - split; [done|]. intros (_ & _ & Hwf & ->).
    assert (apply_ops (ccs_ops cs) g = Ok (run_ops (ccs_ops cs) g)) by (by apply apply_ops_Ok).
    congruence.
Qed.

(** The reported invariant violation is the validator's error on the
    graph after the first op that breaks it, every graph before it being
    well formed; it is only reported when the preconditions hold. *)
Theorem apply_violation (cs : CanonicalChangeSet) (g : SemanticGraph) (bridge : B) err :
  (apply cs g bridge).2 = Failed (InvariantViolated err) →
  Forall (λ p, precondition_holds p g) (ccs_preconditions cs) ∧
  ∃ k, k < length (ccs_ops cs) ∧
    validate (run_ops (take (S k) (ccs_ops cs)) g) = Err err ∧
    ∀ j, j < k → graph_wf (run_ops (take (S j) (ccs_ops cs)) g).
Proof.
  unfold apply. case_decide; [done|].
  destruct (check_preconditions (ccs_preconditions cs) g) as [reason|] eqn:Ep; simpl.
  - intros [= ->]. exfalso. revert Ep. generalize (ccs_preconditions cs) as ps.
    induction ps as [|p ps IH]; simpl; [done|].
    destruct (evaluate_precondition p g) as [r|] eqn:E; [|auto]. intros [= ->].
    destruct p; simpl in E; repeat case_match; simplify_eq.
  - apply check_preconditions_None in Ep.
    destruct (apply_ops (ccs_ops cs) g) as [|e] eqn:E; [done|]. intros [= ->].
    split; [done|]. by apply apply_ops_Err.
Qed.

Lemma apply_wf (cs : CanonicalChangeSet) (g : SemanticGraph) (bridge : B) :
  graph_wf g → graph_wf (apply cs g bridge).1.
Proof.
  intros Hwf. unfold apply. case_decide; [done|].
  destruct (check_preconditions _ g); [done|].
  destruct (apply_ops (ccs_ops cs) g) as [g1|err] eqn:E; [|done].
  apply apply_ops_Ok in E as [-> Hpre]. simpl.
  destruct (ccs_ops cs) as [|op ops]; [done|].
  rewrite <- (firstn_all (op :: ops)). apply (Hpre (length ops)). simpl. lia.
Qed.
End Claims.

Definition test_bridge : SnapshotBridge N := λ id, id.

Definition wf_graph_example : SemanticGraph :=
  MkSemanticGraph [graph_node_new 0%N NkFunction "fn.f"; graph_node_new 1%N NkModule "mod.m"]
    [graph_edge_new 0%N 1%N EkDependsOn].

Definition dangling_changeset : CanonicalChangeSet :=
  MkCanonicalChangeSet (MkCanonicalMeta "" "d" 0%N) 0%N "1.0" None None None None None
    [AssertExistsByName "fn.f"]
    [MkCanonicalOp OpCreate "" ∅ (CreateNode (graph_node_new 2%N NkType "type.T")) [];
     MkCanonicalOp OpConnect "" ∅ (AddEdge (graph_edge_new 2%N 9%N EkCalls)) []]
    None None change_composition_default [] [].

Lemma apply_violation_witness :
  ∃ k, k < 2 ∧
    validate (run_ops (take (S k) (ccs_ops dangling_changeset)) wf_graph_example) =
      Err (DanglingEdge 9%N RoleTarget) ∧
    ∀ j, j < k → graph_wf (run_ops (take (S j) (ccs_ops dangling_changeset)) wf_graph_example).
Proof.
  exact (proj2 (@apply_violation test_backend N test_bridge dangling_changeset wf_graph_example 0%N
    (DanglingEdge 9%N RoleTarget) (eq_refl _))).
Defined.

(** C18: [apply] never leaves the well-formed graphs; and of all payloads, only
    [CreateNode] with a ref in use and [AddEdge] with a missing endpoint can break a
    well-formed graph: name-based ops cannot be rejected by the validator. *)
Theorem apply_preserves_wf `{HashBackend} `{SnapshotBridge B}
    (cs : CanonicalChangeSet) (g : SemanticGraph) (bridge : B) (Hwf : graph_wf g) :
  graph_wf (apply cs g bridge).1 ∧
  ∀ p, graph_wf (apply_payload p g) ↔ payload_safe p g.
Proof. split; [by apply apply_wf|]. intros p. by apply apply_payload_wf. Qed.

Lemma apply_preserves_wf_witness :
  graph_wf (@apply test_backend N test_bridge dangling_changeset wf_graph_example 0%N).1 ∧
  ∀ p, graph_wf (apply_payload p wf_graph_example) ↔ payload_safe p wf_graph_example.
Proof.
  apply (@apply_preserves_wf test_backend N test_bridge dangling_changeset wf_graph_example 0%N).
  apply (bool_decide_unpack _). vm_compute. exact I.
Defined.

(* ------------------------------------------------------------------ *)
(** ** Attribute payloads: frame and idempotence *)

(** The node a payload looks up by name and the change it makes to it, for the
    payloads that edit attributes of one node. *)
Definition attribute_update (p : OpPayload) : option (string * (GraphNode → GraphNode)) :=
  match p with
  | SetReturnByName t ty => Some (t, set_return_type (Some ty))
  | SetBodyByName t body => Some (t, set_body_expr (Some body))
  | SetMetadataByName t key value => Some (t, set_node_metadata key value)
  | AddParamByName t name ty => Some (t, add_param name ty)
  | AddEffectByName t effect => Some (t, add_effect effect)
  | RemoveEffectByName t effect => Some (t, remove_effect effect)
  | AddContractByName t kind rule => Some (t, add_contract kind rule)
  | RemoveContractByName t rule => Some (t, remove_contract rule)
  | AddCapabilityReqByName t cap => Some (t, add_capability_req cap)
  | RemoveCapabilityReqByName t cap => Some (t, remove_capability_req cap)
  | SetVisibilityByName t v => Some (t, set_visibility (Some v))
  | AddBindingByName t b => Some (t, λ n, set_bindings (push_unique b (node_bindings n)) n)
  | AddInferredFactByName t x => Some (t, λ n, set_inferred (push_unique x (node_inferred n)) n)
  | AddDerivedImplByName t x =>
      Some (t, λ n, set_derived_impls (push_unique x (node_derived_impls n)) n)
  | AddGeneratedArtifactByName t x =>
      Some (t, λ n, set_generated_artifacts (push_unique x (node_generated_artifacts n)) n)
  | AddAssertionByName t x => Some (t, λ n, set_assertions (push_unique x (node_assertions n)) n)
  | SetWorkflowStateByName t s => Some (t, set_workflow_state (Some s))
  | _ => None
  end.

(** What stays the same about a node whose attributes are edited. *)
Definition node_identity (n : GraphNode) : NodeRef * NodeKind * string :=
  (node_id n, node_kind n, node_name n).

Lemma attribute_update_apply p t f g :
  attribute_update p = Some (t, f) → apply_payload p g = node_by_name_mut t f g.
Proof. destruct p; simpl; intros; by simplify_eq. Qed.

Lemma attribute_update_identity p t f n :
  attribute_update p = Some (t, f) → node_identity (f n) = node_identity n.
Proof.
  destruct p; simpl; intros; simplify_eq; try done;
    unfold set_node_metadata, remove_effect, remove_contract, remove_capability_req;
    by repeat (case_decide || case_match).
Qed.

Lemma filter_idem {A} (P : A → Prop) `{∀ x, Decision (P x)} (l : list A) :
  filter P (filter P l) = filter P l.
Proof. rewrite list_filter_filter. apply list_filter_iff. naive_solver. Qed.

Lemma add_param_idem name ty n : add_param name ty (add_param name ty n) = add_param name ty n.
Proof.
  unfold add_param. set (params := default [] (node_params n)). simpl.
  destruct (any (λ param, pd_name param = name) params) eqn:E; [by rewrite E|].
  assert (any (λ param, pd_name param = name) (params ++ [MkParamDecl name ty]) = true) as ->;
    [|done].
  apply any_true. exists (MkParamDecl name ty). set_solver.
Qed.

Lemma attribute_update_idem p t f n :
  attribute_update p = Some (t, f) → f (f n) = f n.
Proof.
  destruct p; simpl; intros; simplify_eq; try done;
    try (apply add_param_idem);
    unfold set_node_metadata, add_effect, remove_effect, add_contract, remove_contract,
      add_capability_req, remove_capability_req;
    repeat case_decide; try done; cbn; rewrite ?push_unique_idem; try done.
  - by destruct (node_effect_row n) eqn:E; cbn; [rewrite filter_idem|rewrite E].
  - by destruct (node_contract_clauses n) eqn:E; cbn; [rewrite !filter_idem|rewrite E].
  - by destruct (node_capability_reqs n) eqn:E; cbn; [rewrite filter_idem|rewrite E].
Qed.

Lemma update_first_lookup {A} (P : A → Prop) `{∀ x, Decision (P x)} f (l : list A) i x :
  l !! i = Some x →
  update_first P f l !! i = Some x ∨
  (update_first P f l !! i = Some (f x) ∧ P x ∧ ∀ j y, j < i → l !! j = Some y → ¬ P y).
Proof.
  revert i. induction l as [|z l IH]; intros i Hi; [done|]. simpl.
  destruct (decide (P z)) as [HP|HP]; destruct i as [|i]; simplify_eq/=; auto.
  - right. split_and!; [done|done|lia].
  - destruct (IH _ Hi) as [?|(? & ? & Hj)]; [by left|right].
    split_and!; [done|done|]. intros [|j] y Hlt Hy; simplify_eq/=; [done|]. eapply Hj; [|done]. lia.
Qed.

(** An attribute payload edits nothing but attributes of the first node
    with the target's name: the edges and the sequence of node refs, kinds and
    names are untouched, every other node keeps all its fields, an absent target
    makes it a no-op, and applying it twice is applying it once. *)
Theorem attribute_payload_frame (p : OpPayload) (t : string) (f : GraphNode → GraphNode)
    (g : SemanticGraph) (Hp : attribute_update p = Some (t, f)) :
  let g' := apply_payload p g in
  graph_edges g' = graph_edges g ∧
  node_identity <$> graph_nodes g' = node_identity <$> graph_nodes g ∧
  (∀ i n, graph_nodes g !! i = Some n →
     graph_nodes g' !! i = Some n ∨
     (graph_nodes g' !! i = Some (f n) ∧ node_name n = t ∧
      ∀ j m, j < i → graph_nodes g !! j = Some m → node_name m ≠ t)) ∧
  (find_node_by_name g t = None → g' = g) ∧
  apply_payload p g' = g'.
Proof.
  simpl. rewrite !(attribute_update_apply p t f) by done. simpl.
  pose proof (λ n, attribute_update_identity p t f n Hp) as Hid.
  split_and!; [done| | | |].
  - apply update_first_fmap. auto.
  - intros i n Hi. by apply (update_first_lookup (λ n, node_name n = t)).
  - intros Hn. unfold find_node_by_name in Hn. rewrite find_first_None in Hn.
    unfold node_by_name_mut. rewrite update_first_none by done. by destruct g.
  - unfold node_by_name_mut. simpl. f_equal. rewrite update_first_twice.
    + clear - Hp. induction (graph_nodes g) as [|n l IH]; simpl; [done|].
      case_decide; [|by rewrite IH]. by rewrite (attribute_update_idem p t f).
    + intros n. specialize (Hid n). unfold node_identity in Hid. by injection Hid as _ _ ->.
Qed.

Lemma attribute_payload_frame_witness :
  let g' := apply_payload (AddEffectByName "fn.f" "io") wf_graph_example in
  g' ≠ wf_graph_example ∧ apply_payload (AddEffectByName "fn.f" "io") g' = g'.
Proof.
  split; [intros H; discriminate H|].
  exact (proj2 (proj2 (proj2 (proj2 (attribute_payload_frame (AddEffectByName "fn.f" "io") "fn.f"
    (add_effect "io") wf_graph_example eq_refl))))).
Defined.
