(* ===== verification/Pipeline.v ===== *)
(** * From a parsed document to the graph

    The path of a document through [canonicalize_parsed] and [apply], as the
    command line and the verifier compose them: which payloads canonicalisation
    can produce, which documents apply, and which cannot. *)

From S2P Require Import Prelude Text GraphTypes SemanticGraph ChangeModel Normalize Payload Canonical Apply.

(** The graph a project starts from. *)
Definition empty_graph : SemanticGraph := MkSemanticGraph [] [].

(** A document canonicalised and applied. *)
Definition apply_document `{HashBackend} `{SnapshotBridge B}
    (pcs : ParsedChangeSet) (g : SemanticGraph) (bridge : B) : SemanticGraph * ChangeSetOutcome :=
  apply (canonicalize_parsed_inner pcs) g bridge.

(** What canonicalisation can give the op at a position: a node numbered by
    that position, or a payload that names its nodes. *)
Definition canonical_payload (idx : N) (p : OpPayload) : Prop :=
  match p with
  | CreateNode n => node_id n = as_u32 idx
  | AddEdge _ | RemoveNode _ | SetNodeName _ _ => False
  | _ => True
  end.

Section Payloads.
Context `{HashBackend}.

Lemma function_node_id idx id args : node_id (function_node idx id args) = as_u32 idx.
Proof. unfold function_node. by destruct (args !! "value"). Qed.

Lemma or_noop_canonical {A} idx (f : A → OpPayload) (o : option A) :
  (∀ x, canonical_payload idx (f x)) → canonical_payload idx (or_noop (f <$> o)).
Proof. intros Hf. destruct o; simpl; [apply Hf|done]. Qed.

Lemma create_node_canonical idx args mk :
  (∀ id, node_id (mk id) = as_u32 idx) → canonical_payload idx (create_node args mk).
Proof. intros Hmk. apply or_noop_canonical. intros id. apply Hmk. Qed.

Lemma with_target_canonical idx args mk :
  (∀ t, canonical_payload idx (mk t)) → canonical_payload idx (with_target args mk).
Proof. apply or_noop_canonical. Qed.

Lemma with_target_and_canonical idx args key mk :
  (∀ t v, canonical_payload idx (mk t v)) →
  canonical_payload idx (with_target_and args key mk).
Proof. intros Hmk. apply or_noop_canonical. intros [t v]. apply Hmk. Qed.

Lemma workflow_payload_canonical idx args s : canonical_payload idx (workflow_payload args s).
Proof. by apply or_noop_canonical. Qed.

Lemma metadata_payload_canonical idx args : canonical_payload idx (metadata_payload args).
Proof.
  unfold metadata_payload. destruct (args !! "target"); [|done]. simpl.
  by destruct (metadata_arg args) as [[? ?]|].
Qed.

Lemma edge_payload_canonical idx args b : canonical_payload idx (edge_payload args b).
Proof.
  unfold edge_payload. by destruct (args !! "source"), (args !! "target"), b.
Qed.

Lemma materialize_payload_canonical idx kind verb args :
  canonical_payload idx (materialize_payload idx kind verb args).
Proof.
  destruct kind; simpl; repeat case_decide;
    first
      [ done
      | apply create_node_canonical; (done || intros; apply function_node_id)
      | by apply with_target_canonical
      | by apply with_target_and_canonical
      | apply workflow_payload_canonical
      | apply metadata_payload_canonical
      | apply edge_payload_canonical
      | idtac ].
  - by destruct (args !! "target"), (args !! "name"), (args !! "type").
  - by destruct (args !! "target"), (args !! "kind"), (args !! "rule").
  - destruct (starts_with "remove_" verb); [by apply with_target_canonical|done].
  - by destruct (args !! "target"), (args !! "name").
  - by destruct (args !! "capability"), (args !! "handler").
  - by destruct (args !! "target"), (args !! "key"), (args !! "value").
Qed.

Lemma base_payload pcs i op :
  base_ops pcs !! i = Some op → canonical_payload (N.of_nat i) (cop_payload op).
Proof.
  rewrite base_ops_eq, list_lookup_imap. intros ([[kind verb] args] & _ & ->)%fmap_Some.
  apply materialize_payload_canonical.
Qed.

Lemma synthesized_payload pcs op idx :
  op ∈ synthesized_ops pcs → canonical_payload idx (cop_payload op) ∧
    ∀ n, cop_payload op ≠ CreateNode n.
Proof.
  rewrite synthesized_ops_eq. intros Hop. apply (list_elem_of_fmap_2 cop_payload) in Hop.
  rewrite expand_payloads in Hop. csimpl in Hop.
  apply list_elem_of_bind in Hop as (infer_op & Hin & _). unfold boundary_payloads in Hin.
  destruct (cop_args infer_op !! "target"); [|set_solver].
  apply elem_of_app in Hin as [Hin|Hin]; apply elem_of_option_list, fmap_Some in Hin
    as (x & _ & ->); by split.
Qed.
End Payloads.

(** A payload that is not a [CreateNode] adds no ref. *)
Lemma apply_payload_ids p g :
  (∀ n, p ≠ CreateNode n) → node_ids (apply_payload p g) ⊆ node_ids g.
Proof.
  intros Hp. destruct p; simpl; try done;
    try (rewrite node_by_name_mut_ids by auto with ail; done).
  - by destruct (Hp node).
  - rewrite remove_node_ids. by intros r [_ ?]%list_elem_of_filter.
  - unfold node_ids. simpl. by rewrite update_first_node_ids by (by intros ?).
  - destruct (node_id_by_name g name); [|done]. rewrite remove_node_ids.
    by intros r [_ ?]%list_elem_of_filter.
  - by repeat case_match.
  - by repeat case_match.
Qed.

(** Running ops whose created refs are fresh keeps the graph well formed, and
    the refs below the number of ops run. *)
Lemma run_ops_fresh ops g n :
  (∀ i op, ops !! i = Some op → canonical_payload (n + N.of_nat i) (cop_payload op)) →
  (n + N.of_nat (length ops) ≤ u32_modulus)%N →
  graph_wf g → (∀ r, r ∈ node_ids g → (r < n)%N) →
  ∀ k, k ≤ length ops → graph_wf (run_ops (take k ops) g).
Proof.
  revert g n. induction ops as [|op ops IH]; intros g n Hp Hlen Hwf Hids k Hk.
  { by rewrite take_nil. }
  destruct k as [|k]; [done|]. simpl in Hk, Hlen |- *. unfold run_ops. simpl.
  pose proof (Hp 0 op eq_refl) as Hop. rewrite N.add_0_r in Hop.
  assert (Hsafe : payload_safe (cop_payload op) g).
  { destruct (cop_payload op); simpl in *; try done. rewrite Hop, as_u32_small by lia.
    intros ?%Hids. lia. }
  apply (IH _ (n + 1)%N).
  - intros i op' Hi. replace (n + 1 + N.of_nat i)%N with (n + N.of_nat (S i))%N by lia.
    by apply (Hp (S i)).
  - lia.
  - by apply apply_payload_wf.
  - intros r Hr. destruct (cop_payload op) as [node|?|?|?| | | | | | | | | | | | | | | | | | | | | | ] eqn:E;
      try (apply apply_payload_ids in Hr; [specialize (Hids _ Hr); lia|done]).
    unfold node_ids in Hr. simpl in Hr. rewrite fmap_app in Hr.
    apply elem_of_app in Hr as [Hr|Hr]; [specialize (Hids _ Hr); lia|].
    csimpl in Hr. apply list_elem_of_singleton in Hr as ->. simpl in Hop.
    rewrite Hop, as_u32_small by lia. lia.
  - lia.
Qed.

Lemma canonical_ops_payload `{HashBackend} pcs i op :
  ccs_ops (canonicalize_parsed_inner pcs) !! i = Some op →
  canonical_payload (N.of_nat i) (cop_payload op).
Proof.
  rewrite ops_split. intros [Hi|[_ Hi]]%lookup_app_Some; [by eapply base_payload|].
  apply list_elem_of_lookup_2 in Hi. by apply (synthesized_payload pcs).
Qed.

(** A duplicate appended to a well-formed graph is what the validator reports. *)
Lemma validate_duplicate g n :
  graph_wf g → node_id n ∈ node_ids g →
  validate (apply_payload (CreateNode n) g) = Err (DuplicateRef (node_id n)).
Proof.
  intros [Hnd _] Hin. unfold validate. simpl.
  assert (Hc : ∀ seen l, NoDup (node_id <$> l) → (∀ m, m ∈ l → node_id m ∉ seen) →
    node_id n ∈ (node_id <$> l) ∨ node_id n ∈ seen →
    collect_refs seen (l ++ [n]) = Err (DuplicateRef (node_id n))); [|].
  { clear. intros seen l. revert seen. induction l as [|m l IH]; intros seen; csimpl.
    - intros _ _ [?|?]; [set_solver|]. by rewrite decide_True.
    - intros [Hm Hl]%NoDup_cons Hd Hor. rewrite decide_False by (apply Hd; set_solver).
      apply IH; [done| |set_solver].
      intros m' Hm'. specialize (Hd m' ltac:(set_solver)).
      assert (node_id m' ≠ node_id m); [|set_solver].
      intros Heq. apply Hm. rewrite <- Heq. by apply list_elem_of_fmap_2. }
  rewrite Hc; [done|done|set_solver|by left].
Qed.

(** Every document applies to the empty graph: canonicalisation numbers
    the created nodes by position and refers to all others by name, so that
    no op of a document without preconditions can violate a graph invariant. *)
Theorem document_applies_to_empty `{HashBackend} `{SnapshotBridge B}
    (pcs : ParsedChangeSet) (bridge : B)
    (Hbase : cs_base_snapshot_id (pcs_changeset pcs) = current_snapshot_id bridge)
    (Hpre : pcs_preconditions pcs = [])
    (Hlen : (N.of_nat (length (ccs_ops (canonicalize_parsed_inner pcs))) ≤ u32_modulus)%N) :
  let cs := canonicalize_parsed_inner pcs in
  apply_document pcs empty_graph bridge = (run_ops (ccs_ops cs) empty_graph, Applied) ∧
  graph_wf (run_ops (ccs_ops cs) empty_graph).
Proof.
  intros cs.
  assert (Hwf : ∀ k, k ≤ length (ccs_ops cs) → graph_wf (run_ops (take k (ccs_ops cs)) empty_graph)).
  { apply (run_ops_fresh _ _ 0%N); [|done|by apply (bool_decide_unpack _)|set_solver].
    intros i op Hi. rewrite N.add_0_l. by eapply canonical_ops_payload. }
  split; [|rewrite <- (firstn_all (ccs_ops cs)); by apply Hwf].
  unfold apply_document. fold cs. unfold apply. rewrite decide_False by (intros Hne; by apply Hne).
  change (ccs_preconditions cs) with (pcs_preconditions pcs). rewrite Hpre. cbn [check_preconditions].
  rewrite (proj2 (apply_ops_Ok (ccs_ops cs) empty_graph (run_ops (ccs_ops cs) empty_graph))); [done|].
  split; [done|]. intros k Hk. apply Hwf. lia.
Qed.

(** The numbering by position is relative to the document, not to the
    graph: a document whose first op creates a node is refused by every
    well-formed graph in which some node has ref 0, as all graphs built by an
    earlier document that creates a node first have. *)
Theorem second_create_document_refused `{HashBackend} `{SnapshotBridge B}
    (pcs : ParsedChangeSet) (g : SemanticGraph) (bridge : B) (op : CanonicalOp) (n : GraphNode)
    (Hbase : cs_base_snapshot_id (pcs_changeset pcs) = current_snapshot_id bridge)
    (Hpre : pcs_preconditions pcs = [])
    (Hwf : graph_wf g) (Hzero : 0%N ∈ node_ids g)
    (Hop : ccs_ops (canonicalize_parsed_inner pcs) !! 0 = Some op)
    (Hn : cop_payload op = CreateNode n) :
  apply_document pcs g bridge = (g, Failed (InvariantViolated (DuplicateRef 0%N))).
Proof.
  unfold apply_document, apply. rewrite decide_False by (intros Hne; by apply Hne).
  change (ccs_preconditions (canonicalize_parsed_inner pcs)) with (pcs_preconditions pcs).
  rewrite Hpre. cbn [check_preconditions].
  pose proof (canonical_ops_payload pcs 0 op Hop) as Hid. rewrite Hn in Hid.
  destruct (ccs_ops (canonicalize_parsed_inner pcs)) as [|op' ops]; [done|].
  injection Hop as ->. simpl in Hid |- *. rewrite Hn.
  change (as_u32 0) with 0%N in Hid.
  rewrite (validate_duplicate g n) by (rewrite ?Hid; done). by rewrite Hid.
Qed.

(** Two documents, each of which creates one function. *)
Definition create_doc (name : string) : ParsedChangeSet :=
  set_parsed_ops [MkParsedOp OpCreate "create_function" (<["id" := name]> ∅)]
    parsed_change_set_default.

Lemma document_applies_to_empty_witness :
  let cs := @canonicalize_parsed_inner test_backend (create_doc "fn.a") in
  @apply_document test_backend N test_bridge (create_doc "fn.a") empty_graph 0%N =
    (run_ops (ccs_ops cs) empty_graph, Applied) ∧
  graph_wf (run_ops (ccs_ops cs) empty_graph).
Proof.
  apply (@document_applies_to_empty test_backend N test_bridge (create_doc "fn.a") 0%N);
    [reflexivity|reflexivity|]. vm_compute. discriminate.
Defined.

Definition one_function_graph : SemanticGraph :=
  run_ops (ccs_ops (@canonicalize_parsed_inner test_backend (create_doc "fn.a"))) empty_graph.

Lemma second_create_document_refused_witness :
  @apply_document test_backend N test_bridge (create_doc "fn.b") one_function_graph 0%N =
  (one_function_graph, Failed (InvariantViolated (DuplicateRef 0%N))).
Proof.
  eapply (@second_create_document_refused test_backend N test_bridge (create_doc "fn.b")
            one_function_graph 0%N).
  - reflexivity.
  - reflexivity.
  - apply (bool_decide_unpack _). vm_compute. exact I.
  - apply (bool_decide_unpack _). vm_compute. exact I.
  - reflexivity.
  - reflexivity.
Defined.
