(* ===== verification/Rebase.v ===== *)
(** * Semantic rebase and merge (crates/ail-coordinator/src/rebase.rs)

    [StructuralDiff], [rebase] and [classify_conflict] decide whether a stale
    ChangeSet can move onto the live snapshot; [semantic_merge] joins two graphs.

    What makes the conflict rule sound is that ops on disjoint refs commute.
    Graphs are compared up to the interleaving of independent insertions:
    [graph_equiv] asks for the same nodes of each ref in the same order, and
    the same edges up to order.  It is an equivalence that all the ref-based
    payloads respect ([apply_payload_proper]). *)

From S2P Require Import Prelude GraphTypes SemanticGraph ChangeModel Apply.

(* ------------------------------------------------------------------ *)
(** ** Diffs and rebase *)

Record StructuralDiff : Type := MkStructuralDiff { touched_nodes : gset NodeRef }.

Definition extract_node_refs (payload : OpPayload) (out : gset NodeRef) : gset NodeRef :=
  match payload with
  | CreateNode node => {[node_id node]} ∪ out
  | RemoveNode r => {[r]} ∪ out
  | SetNodeName r _ => {[r]} ∪ out
  | AddEdge edge => {[edge_target edge]} ∪ ({[edge_source edge]} ∪ out)
  | _ => out
  end.

Definition collect_node_refs (ops : list CanonicalOp) : gset NodeRef :=
  foldl (λ out op, extract_node_refs (cop_payload op) out) ∅ ops.

(** [StructuralDiff::from_ops] *)
Definition from_ops (ops : list CanonicalOp) : StructuralDiff :=
  MkStructuralDiff (collect_node_refs ops).

Inductive RebaseResult : Type :=
| Rebased (cs : CanonicalChangeSet)
| RebaseConflict (reason : ConflictReason).

Definition rebase (pending : CanonicalChangeSet) (diff : StructuralDiff)
    (live_snapshot_id : SnapshotId) : RebaseResult :=
  let pending_nodes := collect_node_refs (ccs_ops pending) in
  let conflicts := pending_nodes ∩ touched_nodes diff in
  if decide (conflicts = ∅) then Rebased (set_base_snapshot_id live_snapshot_id pending)
  else RebaseConflict SameNodeModifiedIncompatibly.

Definition classify_conflict (conflicts removed_in_diff : gset NodeRef) : ConflictReason :=
  if decide (conflicts ∩ removed_in_diff = ∅) then SameNodeModifiedIncompatibly
  else NodeDeletedWhileModified.

(* ------------------------------------------------------------------ *)
(** ** Merge *)

Inductive MergeResult : Type :=
| Merged (g : SemanticGraph)
| MergeConflict (reason : ConflictReason) (node_ref : NodeRef).

Definition node_has_semantic_conflict (left right : GraphNode) : bool :=
  bool_decide (node_return_type left ≠ node_return_type right) ||
  bool_decide (node_body_expr left ≠ node_body_expr right) ||
  bool_decide (node_effect_row left ≠ node_effect_row right).

(** Collected into a map: a later node replaces an earlier one with its ref. *)
Definition left_by_ref (nodes : list GraphNode) : gmap NodeRef GraphNode :=
  foldl (λ m n, <[node_id n := n]> m) ∅ nodes.

(** The loop over the right nodes, which extends [merged.nodes]. *)
Fixpoint merge_nodes (left : gmap NodeRef GraphNode) (merged right : list GraphNode)
  : result (list GraphNode) NodeRef :=
  match right with
  | [] => Ok merged
  | right_node :: right' =>
      match left !! node_id right_node with
      | None => merge_nodes left (merged ++ [right_node]) right'
      | Some left_node =>
          if node_has_semantic_conflict left_node right_node then Err (node_id right_node)
          else merge_nodes left merged right'
      end
  end.

(** Edges are compared by endpoints and kind. *)
Definition edge_key (e : GraphEdge) : NodeRef * NodeRef * EdgeKind :=
  (edge_source e, edge_target e, edge_kind e).

Definition merge_edges (left right : list GraphEdge) : list GraphEdge :=
  foldl (λ merged e,
    if decide (edge_key e ∈ (edge_key <$> left)) then merged else merged ++ [e]) left right.

Definition semantic_merge (left right : SemanticGraph) : MergeResult :=
  match merge_nodes (left_by_ref (graph_nodes left)) (graph_nodes left) (graph_nodes right) with
  | Err r => MergeConflict IncompatibleNodeModification r
  | Ok nodes => Merged (MkSemanticGraph nodes (merge_edges (graph_edges left) (graph_edges right)))
  end.

(* ------------------------------------------------------------------ *)
(** ** Graphs up to the order of independent insertions *)

Definition nodes_of (r : NodeRef) (g : SemanticGraph) : list GraphNode :=
  filter (λ n, node_id n = r) (graph_nodes g).

Definition graph_equiv (g h : SemanticGraph) : Prop :=
  (∀ r, nodes_of r g = nodes_of r h) ∧ graph_edges g ≡ₚ graph_edges h.
#[global] Instance SemanticGraph_equiv : Equiv SemanticGraph := graph_equiv.

#[global] Instance graph_equiv_equivalence : Equivalence (≡@{SemanticGraph}).
Proof.
  split.
  - intros g. by split.
  - intros g h [? ?]. split; [done|by symmetry].
  - intros g h k [H1 ?] [H2 ?]. split; [|by etrans]. intros r. by rewrite H1.
Qed.

(** Lists whose elements of each key agree are permutations of each other. *)
Lemma key_filters_permutation {A K} `{EqDecision K} (key : A → K) (l k : list A) :
  (∀ r, filter (λ x, key x = r) l = filter (λ x, key x = r) k) → l ≡ₚ k.
Proof.
  revert k. induction l as [|x l IH]; intros k Hf.
  - destruct k as [|y k]; [done|]. specialize (Hf (key y)).
    rewrite filter_cons_True in Hf by done. done.
  - assert (Hx : x ∈ k).
    { assert (x ∈ filter (λ y, key y = key x) k) as [_ ?]%list_elem_of_filter; [|done].
      rewrite <- Hf, filter_cons_True by done. set_solver. }
    assert (∃ k1 k2, k = k1 ++ x :: k2 ∧ ∀ y, y ∈ k1 → key y ≠ key x) as (k1 & k2 & -> & Hk1).
    { specialize (Hf (key x)). rewrite filter_cons_True in Hf by done. clear IH Hx.
      induction k as [|y k IH]; [done|]. destruct (decide (key y = key x)) as [Hy|Hy].
      - rewrite filter_cons_True in Hf by done. injection Hf as <- _.
        exists [], k. split; [done|set_solver].
      - rewrite filter_cons_False in Hf by done. destruct (IH Hf) as (k1 & k2 & -> & Hk1).
        exists (y :: k1), k2. split; [done|set_solver]. }
    rewrite <- Permutation_middle. constructor. apply IH. intros r. specialize (Hf r).
    rewrite filter_app in *. rewrite !filter_cons in Hf. case_decide as Hr; [|done].
    assert (filter (λ y, key y = r) k1 = []) as Hnil.
    { apply filter_nil_iff. intros y Hy ?. apply (Hk1 y Hy). congruence. }
    rewrite Hnil in *. by injection Hf.
Qed.

Lemma graph_equiv_nodes g h : g ≡ h → graph_nodes g ≡ₚ graph_nodes h.
Proof. intros [Hn _]. by apply (key_filters_permutation node_id). Qed.

#[global] Instance graph_wf_proper : Proper ((≡) ==> iff) graph_wf.
Proof.
  assert (Himp : ∀ g h, g ≡ h → graph_wf g → graph_wf h).
  { intros g h Heq [Hnd He]. pose proof (graph_equiv_nodes _ _ Heq) as Hn.
    destruct Heq as [_ Hedges]. unfold graph_wf, node_ids, edge_ok in *.
    rewrite <- Hn, <- Hedges. split; [done|]. eapply Forall_impl; [done|].
    intros e. simpl. by rewrite Hn. }
  intros g h Heq. split; eapply Himp; [done|by symmetry].
Qed.

(* ------------------------------------------------------------------ *)
(** ** Ref-based payloads respect the equivalence and commute *)

(** The payloads conflict detection sees: those that name refs, and [Noop]. *)
Definition visible_payload (p : OpPayload) : bool :=
  ref_payload p || bool_decide (p = Noop).

Definition payload_refs (p : OpPayload) : gset NodeRef := extract_node_refs p ∅.

Lemma extract_node_refs_union p out : extract_node_refs p out = payload_refs p ∪ out.
Proof. unfold payload_refs. destruct p; simpl; set_solver. Qed.

Lemma collect_node_refs_elem ops r :
  r ∈ collect_node_refs ops ↔ ∃ op, op ∈ ops ∧ r ∈ payload_refs (cop_payload op).
Proof.
  unfold collect_node_refs.
  assert (Hacc : ∀ out, r ∈ foldl (λ out op, extract_node_refs (cop_payload op) out) out ops ↔
    r ∈ out ∨ ∃ op, op ∈ ops ∧ r ∈ payload_refs (cop_payload op)).
  { induction ops as [|op ops IH]; intros out; simpl; [set_solver|].
    rewrite IH, extract_node_refs_union. set_solver. }
  rewrite Hacc. set_solver.
Qed.

Lemma filter_update_first_ne {A} (P Q : A → Prop) `{∀ x, Decision (P x)} `{∀ x, Decision (Q x)}
    (f : A → A) l :
  (∀ x, P x → ¬ Q x) → (∀ x, P x → ¬ Q (f x)) → filter Q (update_first P f l) = filter Q l.
Proof.
  intros H1 H2. induction l as [|x l IH]; simpl; [done|]. case_decide as HP.
  - rewrite !filter_cons_False by auto. done.
  - rewrite !filter_cons. by rewrite IH.
Qed.

(** How a payload acts on the nodes of each ref. *)
Lemma nodes_of_apply p g r :
  visible_payload p = true →
  nodes_of r (apply_payload p g) =
  match p with
  | CreateNode n => nodes_of r g ++ (if decide (node_id n = r) then [n] else [])
  | RemoveNode id => if decide (r = id) then [] else nodes_of r g
  | SetNodeName id name =>
      if decide (r = id) then update_first (λ n, node_id n = id) (set_name name) (nodes_of r g)
      else nodes_of r g
  | _ => nodes_of r g
  end.
Proof.
  unfold nodes_of. destruct p; try done; intros _; simpl.
  - by rewrite filter_app.
  - rewrite list_filter_filter. case_decide as Hr.
    + subst. apply filter_nil_iff. naive_solver.
    + apply list_filter_iff. naive_solver.
  - case_decide as Hr; [subst; symmetry; by apply update_first_filter|].
    apply filter_update_first_ne; simpl; congruence.
Qed.

Lemma edges_apply p g :
  visible_payload p = true →
  graph_edges (apply_payload p g) =
  match p with
  | AddEdge e => graph_edges g ++ [e]
  | RemoveNode id => filter (λ e, edge_source e ≠ id ∧ edge_target e ≠ id) (graph_edges g)
  | _ => graph_edges g
  end.
Proof. by destruct p. Qed.

Lemma apply_payload_proper p :
  visible_payload p = true → Proper ((≡) ==> (≡)) (apply_payload p).
Proof.
  intros Hp g h [Hn He]. split.
  - intros r. rewrite !nodes_of_apply by done. destruct p; by rewrite ?Hn.
  - rewrite !edges_apply by done. destruct p; by rewrite ?He.
Qed.

Lemma apply_payload_commute p q g :
  visible_payload p = true → visible_payload q = true → payload_refs p ## payload_refs q →
  apply_payload p (apply_payload q g) ≡ apply_payload q (apply_payload p g).
Proof.
  intros Hp Hq Hd. split.
  - intros r. rewrite !(nodes_of_apply p), !(nodes_of_apply q), !(nodes_of_apply p) by done.
    destruct p; try done; destruct q; try done; unfold payload_refs in Hd; simpl in Hd;
      repeat case_decide; subst; rewrite ?app_nil_r; try done; exfalso; set_solver.
  - rewrite !(edges_apply p), !(edges_apply q), !(edges_apply p) by done.
    destruct p; try done; destruct q; try done; unfold payload_refs in Hd; simpl in Hd.
    + rewrite <- !app_assoc. apply Permutation_app_head, Permutation_app_comm.
    + rewrite filter_app, filter_cons_True; [done|set_solver].
    + rewrite filter_app, filter_cons_True; [done|set_solver].
    + rewrite !list_filter_filter. apply Permutation_refl', list_filter_iff. naive_solver.
Qed.

Definition visible_ops (ops : list CanonicalOp) : Prop :=
  Forall (λ op, visible_payload (cop_payload op) = true) ops.

Lemma run_ops_app ops1 ops2 g : run_ops (ops1 ++ ops2) g = run_ops ops2 (run_ops ops1 g).
Proof. apply foldl_app. Qed.

Lemma run_ops_proper ops : visible_ops ops → Proper ((≡) ==> (≡)) (run_ops ops).
Proof.
  intros Hv. induction Hv as [|op ops Hop Hv IH]; intros g h Heq; [done|].
  unfold run_ops. simpl. apply IH. by apply apply_payload_proper.
Qed.

Lemma run_ops_commute_one ops p g :
  visible_ops ops → visible_payload p = true → payload_refs p ## collect_node_refs ops →
  run_ops ops (apply_payload p g) ≡ apply_payload p (run_ops ops g).
Proof.
  intros Hv Hp. revert g. induction Hv as [|op ops Hop Hv IH]; intros g Hd; [done|].
  assert (payload_refs p ## payload_refs (cop_payload op)).
  { intros r ? ?. apply (Hd r); [done|]. apply collect_node_refs_elem. exists op. set_solver. }
  assert (payload_refs p ## collect_node_refs ops).
  { intros r ? (o & ? & ?)%collect_node_refs_elem. apply (Hd r); [done|].
    apply collect_node_refs_elem. exists o. set_solver. }
  unfold run_ops at 1 2. simpl.
  change (run_ops ops (apply_payload (cop_payload op) (apply_payload p g)) ≡
          apply_payload p (run_ops ops (apply_payload (cop_payload op) g))).
  rewrite <- IH by done. apply run_ops_proper; [done|]. apply apply_payload_commute; [done..|].
  by symmetry.
Qed.

Lemma run_ops_commute ops1 ops2 g :
  visible_ops ops1 → visible_ops ops2 → collect_node_refs ops1 ## collect_node_refs ops2 →
  run_ops ops1 (run_ops ops2 g) ≡ run_ops ops2 (run_ops ops1 g).
Proof.
  intros Hv1 Hv2 Hd. revert g. induction Hv1 as [|op ops1 Hop Hv1 IH]; intros g; [done|].
  assert (payload_refs (cop_payload op) ## collect_node_refs ops2).
  { intros r ? ?. apply (Hd r); [|done]. apply collect_node_refs_elem. exists op. set_solver. }
  assert (collect_node_refs ops1 ## collect_node_refs ops2).
  { intros r (o & ? & ?)%collect_node_refs_elem ?. apply (Hd r); [|done].
    apply collect_node_refs_elem. exists o. set_solver. }
  change (run_ops ops1 (apply_payload (cop_payload op) (run_ops ops2 g)) ≡
          run_ops ops2 (run_ops ops1 (apply_payload (cop_payload op) g))).
  rewrite <- IH by done. apply run_ops_proper; [done|]. symmetry.
  by apply run_ops_commute_one.
Qed.

Lemma rebase_Rebased pending diff live cs :
  rebase pending diff live = Rebased cs ↔
  collect_node_refs (ccs_ops pending) ## touched_nodes diff ∧
  cs = set_base_snapshot_id live pending.
Proof.
  unfold rebase. case_decide as Hd; rewrite <- disjoint_intersection_L in Hd; naive_solver.
Qed.

(* ------------------------------------------------------------------ *)
(** ** Claims: rebase *)

(** [rebase] accepts exactly the ChangeSets whose refs are disjoint from
    the diff, and moves them by changing the base snapshot only; otherwise it
    reports the conservative reason. *)
Theorem rebase_spec (pending : CanonicalChangeSet) (diff : StructuralDiff) (live : SnapshotId) :
  match rebase pending diff live with
  | Rebased cs =>
      collect_node_refs (ccs_ops pending) ## touched_nodes diff ∧
      ccs_base_snapshot_id cs = live ∧ ccs_ops cs = ccs_ops pending ∧
      ccs_preconditions cs = ccs_preconditions pending ∧
      set_base_snapshot_id (ccs_base_snapshot_id pending) cs = pending
  | RebaseConflict reason =>
      reason = SameNodeModifiedIncompatibly ∧
      ∃ op r, op ∈ ccs_ops pending ∧ r ∈ payload_refs (cop_payload op) ∧ r ∈ touched_nodes diff
  end.
Proof.
  unfold rebase. case_decide as Hd; rewrite <- disjoint_intersection_L in Hd.
  - split_and!; [done..|]. by destruct pending.
  - split; [done|]. destruct (set_choose_or_empty
      (collect_node_refs (ccs_ops pending) ∩ touched_nodes diff)) as [[r Hr]|Hr].
    + apply elem_of_intersection in Hr as [(op & ? & ?)%collect_node_refs_elem ?]. eauto 10.
    + exfalso. set_solver.
Qed.

(** C17: the conflict rule is sound for the payloads it sees.  If a pending
    ChangeSet of ref-based ops is rebased over committed ref-based ops,
    then on every graph the two orders give the same graph up to the order of
    independent insertions, so the same well-formedness verdict: the rebased
    ChangeSet means on the live graph what it meant on its base. *)
Theorem rebase_commutes (pending cs : CanonicalChangeSet) (committed : list CanonicalOp)
    (live : SnapshotId) (g : SemanticGraph)
    (Hpending : visible_ops (ccs_ops pending)) (Hcommitted : visible_ops committed)
    (Hrebase : rebase pending (from_ops committed) live = Rebased cs) :
  run_ops (ccs_ops cs) (run_ops committed g) ≡ run_ops committed (run_ops (ccs_ops pending) g) ∧
  (graph_wf (run_ops (ccs_ops cs) (run_ops committed g)) ↔
   graph_wf (run_ops committed (run_ops (ccs_ops pending) g))).
Proof.
  apply rebase_Rebased in Hrebase as [Hd ->].
  assert (Heq : run_ops (ccs_ops pending) (run_ops committed g) ≡
                run_ops committed (run_ops (ccs_ops pending) g)) by by apply run_ops_commute.
  split; [exact Heq|]. by apply graph_wf_proper.
Qed.

Definition ref_op (p : OpPayload) : CanonicalOp := MkCanonicalOp OpCreate "" ∅ p [].

Definition with_ops (ops : list CanonicalOp) : CanonicalChangeSet :=
  MkCanonicalChangeSet (MkCanonicalMeta "" "d" 0%N) 0%N "1.0" None None None None None
    [] ops None None change_composition_default [] [].

Definition pending_example : CanonicalChangeSet :=
  with_ops [ref_op (CreateNode (graph_node_new 2%N NkType "type.T"));
            ref_op (SetNodeName 1%N "mod.renamed")].
Definition committed_example : list CanonicalOp :=
  [ref_op (CreateNode (graph_node_new 3%N NkType "type.U")); ref_op (RemoveNode 0%N)].

Lemma rebase_commutes_witness :
  let cs := set_base_snapshot_id 7%N pending_example in
  run_ops (ccs_ops cs) (run_ops committed_example wf_graph_example) ≡
  run_ops committed_example (run_ops (ccs_ops pending_example) wf_graph_example).
Proof.
  refine (proj1 (rebase_commutes pending_example (set_base_snapshot_id 7%N pending_example)
    committed_example 7%N wf_graph_example _ _ _)).
  - repeat constructor.
  - repeat constructor.
  - reflexivity.
Defined.

(** The refined reason of a conflict. *)
Lemma classify_conflict_spec (conflicts removed : gset NodeRef) :
  match classify_conflict conflicts removed with
  | NodeDeletedWhileModified => ∃ r, r ∈ conflicts ∧ r ∈ removed
  | SameNodeModifiedIncompatibly => conflicts ## removed
  | _ => False
  end.
Proof.
  unfold classify_conflict. case_decide as Hd; [by apply disjoint_intersection_L|].
  destruct (set_choose_or_empty (conflicts ∩ removed)) as [[r Hr]|Hr]; [|set_solver].
  exists r. set_solver.
Qed.

(* ------------------------------------------------------------------ *)
(** ** Claims: merge *)

(** The last node with a ref. *)
Definition last_with_ref (nodes : list GraphNode) (r : NodeRef) : option GraphNode :=
  last (filter (λ n, node_id n = r) nodes).

Lemma left_by_ref_lookup nodes r : left_by_ref nodes !! r = last_with_ref nodes r.
Proof.
  unfold left_by_ref, last_with_ref. induction nodes as [|n nodes IH] using rev_ind; [done|].
  rewrite foldl_app, filter_app. simpl. destruct (decide (node_id n = r)) as [<-|Hne].
  - rewrite lookup_insert_eq, filter_cons_True, filter_nil by done. by rewrite last_snoc.
  - rewrite lookup_insert_ne, filter_cons_False, filter_nil by done. by rewrite app_nil_r.
Qed.

Lemma last_with_ref_None nodes r : last_with_ref nodes r = None ↔ r ∉ (node_id <$> nodes).
Proof.
  unfold last_with_ref. rewrite last_None, filter_nil_iff.
  split; [intros H (n & -> & Hn)%list_elem_of_fmap; naive_solver|].
  intros H n Hn <-. apply H. by apply list_elem_of_fmap_2.
Qed.

Lemma last_with_ref_unique nodes n :
  NoDup (node_id <$> nodes) → n ∈ nodes → last_with_ref nodes (node_id n) = Some n.
Proof.
  intros Hnd Hn. destruct (last_with_ref nodes (node_id n)) as [m|] eqn:E.
  - unfold last_with_ref in E. apply last_Some_elem_of in E.
    apply list_elem_of_filter in E as [Heq Hm]. f_equal. by apply (NoDup_fmap_key node_id nodes).
  - apply last_with_ref_None in E. destruct E. by apply list_elem_of_fmap_2.
Qed.

(** The two sides disagree on a semantic field of a shared node. *)
Definition conflicting (left : list GraphNode) (right_node : GraphNode) : Prop :=
  ∃ left_node, last_with_ref left (node_id right_node) = Some left_node ∧
    node_has_semantic_conflict left_node right_node = true.

Lemma merge_nodes_spec left merged right :
  match merge_nodes (left_by_ref left) merged right with
  | Ok nodes =>
      nodes = merged ++ filter (λ n, node_id n ∉ (node_id <$> left)) right ∧
      ∀ n, n ∈ right → ¬ conflicting left n
  | Err r => ∃ before n after, right = before ++ n :: after ∧ node_id n = r ∧
      conflicting left n ∧ ∀ m, m ∈ before → ¬ conflicting left m
  end.
Proof.
  revert merged. induction right as [|n right IH]; intros merged; simpl.
  { rewrite app_nil_r. set_solver. }
  rewrite left_by_ref_lookup.
  destruct (last_with_ref left (node_id n)) as [ln|] eqn:E.
  - destruct (node_has_semantic_conflict ln n) eqn:Hc.
    { exists [], n, right. split_and!; [done|done|by exists ln|set_solver]. }
    assert (Hn : ¬ conflicting left n) by (intros (? & ? & ?); congruence).
    specialize (IH merged). destruct (merge_nodes _ merged right).
    + destruct IH as [-> IH]. split; [|set_solver]. rewrite filter_cons_False; [done|].
      intros Hnot. apply last_with_ref_None in Hnot. congruence.
    + destruct IH as (before & m & after & -> & ? & ? & ?).
      exists (n :: before), m, after. split_and!; [done..|set_solver].
  - assert (Hn : ¬ conflicting left n) by (intros (? & ? & ?); congruence).
    apply last_with_ref_None in E.
    specialize (IH (merged ++ [n])). destruct (merge_nodes _ (merged ++ [n]) right).
    + destruct IH as [-> IH]. split; [|set_solver].
      by rewrite filter_cons_True, <- app_assoc by done.
    + destruct IH as (before & m & after & -> & ? & ? & ?).
      exists (n :: before), m, after. split_and!; [done..|set_solver].
Qed.

Lemma merge_edges_eq left right :
  merge_edges left right = left ++ filter (λ e, edge_key e ∉ (edge_key <$> left)) right.
Proof.
  unfold merge_edges.
  assert (Hacc : ∀ acc, foldl (λ merged e,
      if decide (edge_key e ∈ (edge_key <$> left)) then merged else merged ++ [e]) acc right =
    acc ++ filter (λ e, edge_key e ∉ (edge_key <$> left)) right); [|by apply Hacc].
  induction right as [|e right IH]; intros acc; simpl; [by rewrite app_nil_r|].
  case_decide; rewrite IH.
  - by rewrite filter_cons_False by auto.
  - by rewrite filter_cons_True, <- app_assoc by done.
Qed.

(** Functional behaviour of [semantic_merge].  A merge keeps the whole left
    graph as a prefix and appends, in order, exactly the right nodes with a new
    ref and the right edges whose endpoints and kind are new; it is refused
    exactly when some shared node disagrees on return type, body or effect row,
    and then the reported ref is that of the first such right node. *)
Theorem semantic_merge_spec (left right : SemanticGraph) :
  match semantic_merge left right with
  | Merged m =>
      graph_nodes m = graph_nodes left ++
        filter (λ n, node_id n ∉ node_ids left) (graph_nodes right) ∧
      graph_edges m = graph_edges left ++
        filter (λ e, edge_key e ∉ (edge_key <$> graph_edges left)) (graph_edges right) ∧
      ∀ n, n ∈ graph_nodes right → ¬ conflicting (graph_nodes left) n
  | MergeConflict reason r =>
      reason = IncompatibleNodeModification ∧
      ∃ before n after, graph_nodes right = before ++ n :: after ∧ node_id n = r ∧
        conflicting (graph_nodes left) n ∧
        ∀ m, m ∈ before → ¬ conflicting (graph_nodes left) m
  end.
Proof.
  unfold semantic_merge.
  pose proof (merge_nodes_spec (graph_nodes left) (graph_nodes left) (graph_nodes right)) as H.
  destruct (merge_nodes _ _ _); [|done]. destruct H as [-> ?].
  split_and!; [done|apply merge_edges_eq|done].
Qed.

Lemma semantic_merge_wf left right m :
  graph_wf left → graph_wf right → semantic_merge left right = Merged m → graph_wf m.
Proof.
  intros [Hl Hel] [Hr Her] Hm. unfold semantic_merge in Hm.
  pose proof (merge_nodes_spec (graph_nodes left) (graph_nodes left) (graph_nodes right)) as H.
  destruct (merge_nodes _ _ _); [|done]. destruct H as [-> _]. injection Hm as <-.
  set (fresh := filter (λ n, node_id n ∉ (node_id <$> graph_nodes left)) (graph_nodes right)).
  assert (Hids : node_ids (MkSemanticGraph (graph_nodes left ++ fresh)
    (merge_edges (graph_edges left) (graph_edges right))) = node_ids left ++ (node_id <$> fresh)).
  { unfold node_ids. simpl. by rewrite fmap_app. }
  assert (Hsub : ∀ r, r ∈ node_ids right → r ∈ node_ids left ++ (node_id <$> fresh)).
  { intros r (n & -> & Hn)%list_elem_of_fmap. rewrite elem_of_app.
    destruct (decide (node_id n ∈ node_ids left)); [by left|right].
    apply list_elem_of_fmap_2, list_elem_of_filter. done. }
  split; rewrite Hids.
  - apply NoDup_app. split_and!; [done| |].
    + intros r Hr1 (n & -> & [Hn _]%list_elem_of_filter)%list_elem_of_fmap. done.
    + apply NoDup_fmap_2_strong; [|by apply NoDup_filter, (NoDup_fmap_1 node_id)].
      intros x y [_ Hx]%list_elem_of_filter [_ Hy]%list_elem_of_filter.
      by apply (NoDup_fmap_key node_id (graph_nodes right)).
  - cbn [graph_edges]. rewrite merge_edges_eq, Forall_app. split.
    + eapply Forall_impl; [done|]. unfold edge_ok. intros e; simpl. set_solver.
    + rewrite Forall_forall in *. intros e [_ He]%list_elem_of_filter.
      destruct (Her e He). split; by apply Hsub.
Qed.

(** Merging preserves well-formedness, merging a graph with itself or with
    the empty graph changes nothing, and every ref of either side is a ref of
    the merge. *)
Theorem semantic_merge_laws (left right : SemanticGraph)
    (Hleft : graph_wf left) (Hright : graph_wf right) :
  (∀ m, semantic_merge left right = Merged m →
     graph_wf m ∧ (∀ r, r ∈ node_ids m ↔ r ∈ node_ids left ∨ r ∈ node_ids right)) ∧
  semantic_merge left left = Merged left ∧
  semantic_merge left (MkSemanticGraph [] []) = Merged left ∧
  semantic_merge (MkSemanticGraph [] []) right = Merged right.
Proof.
  split_and!.
  - intros m Hm. split; [exact (semantic_merge_wf _ _ _ Hleft Hright Hm)|]. unfold semantic_merge in Hm.
    pose proof (merge_nodes_spec (graph_nodes left) (graph_nodes left) (graph_nodes right)) as H.
    destruct (merge_nodes _ _ _); [|done]. destruct H as [-> _]. injection Hm as <-.
    intros r. unfold node_ids. simpl. rewrite fmap_app, elem_of_app.
    split; [intros [?|(n & -> & [_ ?]%list_elem_of_filter)%list_elem_of_fmap]|].
    + by left.
    + right. by apply list_elem_of_fmap_2.
    + intros [?|(n & -> & Hn)%list_elem_of_fmap]; [by left|].
      destruct (decide (node_id n ∈ (node_id <$> graph_nodes left))); [by left|right].
      by apply list_elem_of_fmap_2, list_elem_of_filter.
  - unfold semantic_merge.
    pose proof (merge_nodes_spec (graph_nodes left) (graph_nodes left) (graph_nodes left)) as H.
    destruct (merge_nodes _ _ _) as [nodes|r].
    + destruct H as [-> _]. rewrite merge_edges_eq. destruct left as [ns es]. simpl.
      do 2 f_equal.
      * rewrite (proj2 (filter_nil_iff _ _)); [by rewrite app_nil_r|].
        intros n Hn Hnot. apply Hnot. by apply list_elem_of_fmap_2.
      * rewrite (proj2 (filter_nil_iff _ _)); [by rewrite app_nil_r|].
        intros e He Hnot. apply Hnot. by apply list_elem_of_fmap_2.
    + destruct H as (before & n & after & Heq & _ & (ln & Hln & Hc) & _).
      rewrite last_with_ref_unique in Hln; [|by apply Hleft|rewrite Heq; set_solver].
      injection Hln as <-. unfold node_has_semantic_conflict in Hc.
      by rewrite !bool_decide_false in Hc by auto.
  - by destruct left.
  - unfold semantic_merge.
    pose proof (merge_nodes_spec [] [] (graph_nodes right)) as H. simpl in *.
    destruct (merge_nodes _ _ _) as [nodes|r].
    + destruct H as [-> _]. rewrite merge_edges_eq. destruct right as [ns es]. simpl.
      do 2 f_equal; apply filter_all; set_solver.
    + destruct H as (before & n & after & _ & _ & (ln & Hln & _) & _). done.
Qed.

Definition right_example : SemanticGraph :=
  MkSemanticGraph [graph_node_new 1%N NkModule "mod.m"; graph_node_new 4%N NkType "type.T"]
    [graph_edge_new 4%N 1%N EkDependsOn].

Lemma semantic_merge_laws_witness :
  length (graph_nodes wf_graph_example) = 2 ∧
  ∃ m, semantic_merge wf_graph_example right_example = Merged m ∧ graph_wf m ∧
    (∀ r, r ∈ node_ids m ↔ r ∈ node_ids wf_graph_example ∨ r ∈ node_ids right_example).
Proof.
  split; [reflexivity|]. eexists. split; [reflexivity|].
  refine (proj1 (semantic_merge_laws wf_graph_example right_example _ _) _ eq_refl);
    apply (bool_decide_unpack _); vm_compute; exact I.
Defined.
