(* ===== verification/Remote.v ===== *)
(** * Remote collaboration: identities, policy, envelopes and bundles

    crates/ail-remote/src/policy.rs ([RemoteConfig], [RemoteSignerPolicy]),
    identity.rs ([AgentIdentity], [PlaintextDevSignerKeyMaterial]), signing.rs
    ([RemoteChangeSet]), bundle.rs ([ObjectBundle], [InMemoryBundleStore]),
    error.rs and exchange.rs (the messages).

    Ed25519 ([ed25519_dalek]) and CBOR ([ciborium]) are third-party:
    [RemoteBackend] is the interface through which they are called, and
    [RemoteLaws] states the one fact the theorems use of them, that a
    signature made with a key verifies under its public key.  Fixed-size byte
    arrays are lists of bytes.  Names are trimmed of ASCII white space. *)

From S2P Require Import Prelude Text GraphTypes SemanticGraph ChangeModel.

(** [ObjectId([u8; 32])] *)
Definition ObjectId : Type := list N.
#[global] Instance ObjectId_eq_dec : EqDecision ObjectId := list_eq_dec.
#[global] Instance ObjectId_countable : Countable ObjectId := list_countable.

(** [ObjectId::from_bytes] *)
Definition object_id_from_bytes `{HashBackend} (bytes : list N) : ObjectId := blake3 bytes.

(** The fields of [ail_storage::SnapshotEnvelope]. *)
Record SnapshotEnvelope : Type := MkSnapshotEnvelope {
  se_id : ObjectId;
  se_graph_root_hash : ObjectId;
  se_parent_id : option ObjectId;
  se_applied_change_id : option ObjectId;
  se_created_at : N;
  se_verification_report_hash : option (list N);
  se_audit_record_ids : list ObjectId;
  se_migration_metadata_ids : list ObjectId;
}.

(** The third-party operations; an encoding can fail. *)
Class RemoteBackend : Type := {
  cbor_ops : list CanonicalOp → option (list N);
  cbor_pair : list N → list N → option (list N);
  cbor_decode_snapshot : list N → option SnapshotEnvelope;
  ed25519_public_key : list N → list N;
  ed25519_sign : list N → list N → list N;
  ed25519_verify : list N → list N → list N → bool;
}.

Class RemoteLaws `{RemoteBackend} : Prop :=
  ed25519_sign_verify : ∀ secret payload,
    ed25519_verify (ed25519_public_key secret) payload (ed25519_sign secret payload) = true.

(* ------------------------------------------------------------------ *)
(** ** Hexadecimal keys *)

Definition decode_hex_nibble (byte : N) : option N :=
  (if (48 <=? byte) && (byte <=? 57) then Some (byte - 48)
   else if (97 <=? byte) && (byte <=? 102) then Some (byte - 97 + 10)
   else if (65 <=? byte) && (byte <=? 70) then Some (byte - 65 + 10)
   else None)%N.

(** The loop over [bytes.chunks_exact(2)]; an odd last byte is not visited. *)
Fixpoint decode_hex_pairs (bytes : list N) : option (list N) :=
  match bytes with
  | c0 :: c1 :: rest =>
      high ← decode_hex_nibble c0;
      low ← decode_hex_nibble c1;
      parsed ← decode_hex_pairs rest;
      Some (N.lor (N.shiftl high 4) low :: parsed)
  | _ => Some []
  end.

Inductive KeyReason : Type := WrongLength | NonHexCharacter.
#[global] Instance KeyReason_eq_dec : EqDecision KeyReason.
Proof. solve_decision. Defined.

(** The body that [parse_remote_public_key_hex] and [decode_hex32] share. *)
Definition decode_key_hex (hex : string) : result (list N) KeyReason :=
  let bytes := string_bytes hex in
  if decide (length bytes ≠ 64) then Err WrongLength
  else match decode_hex_pairs bytes with
       | Some parsed => Ok parsed
       | None => Err NonHexCharacter
       end.

(** The digit table is [0123456789abcdef]. *)
Fixpoint encode_hex32 (bytes : list N) : string :=
  match bytes with
  | [] => EmptyString
  | byte :: bytes' =>
      String (hex_digit (N.shiftr byte 4)) (String (hex_digit (N.land byte 15)) (encode_hex32 bytes'))
  end.

(* ------------------------------------------------------------------ *)
(** ** Configuration and policy *)

Inductive SignerTrustTier : Type := Primary | Trusted | External.
#[global] Instance SignerTrustTier_eq_dec : EqDecision SignerTrustTier.
Proof. solve_decision. Defined.

Record RemoteSignerConfig : Type := MkRemoteSignerConfig {
  rsc_public_key : string;
  rsc_trust_tier : SignerTrustTier;
  rsc_label : option string;
}.

Record RemoteEndpointConfig : Type := MkRemoteEndpointConfig {
  rec_name : string;
  rec_endpoint : string;
}.

Record RemoteConfig : Type := MkRemoteConfig {
  rcf_allowed_signers : list RemoteSignerConfig;
  rcf_remotes : list RemoteEndpointConfig;
}.

Inductive RemoteConfigError : Type :=
| InvalidPublicKey (public_key : string) (reason : KeyReason)
| DuplicateAllowedSigner (public_key : string)
| EmptyRemoteName
| DuplicateRemoteName (name : string).
#[global] Instance RemoteConfigError_eq_dec : EqDecision RemoteConfigError.
Proof. solve_decision. Defined.

Record TrustedRemoteSigner : Type := MkTrustedRemoteSigner {
  trs_public_key : list N;
  trs_trust_tier : SignerTrustTier;
  trs_label : option string;
}.

Record RemoteSignerPolicy : Type := MkRemoteSignerPolicy {
  rsp_allowed_signers : list TrustedRemoteSigner;
}.

Record AgentIdentity : Type := MkAgentIdentity {
  ai_public_key : list N;
  ai_label : option string;
}.

Inductive RemoteSignerRejectionReason : Type := SignerNotAllowed.
#[global] Instance RemoteSignerRejectionReason_eq_dec : EqDecision RemoteSignerRejectionReason.
Proof. solve_decision. Defined.

Record RemoteSignerRejection : Type := MkRemoteSignerRejection {
  rej_public_key : list N;
  rej_label : option string;
  rej_reason : RemoteSignerRejectionReason;
}.

Definition parse_remote_public_key_hex (public_key : string)
  : result (list N) RemoteConfigError :=
  match decode_key_hex public_key with
  | Ok parsed => Ok parsed
  | Err reason => Err (InvalidPublicKey public_key reason)
  end.

(** The loop over the signers; [keys] are the keys seen. *)
Fixpoint validate_signers (keys : gset (list N)) (signers : list RemoteSignerConfig)
  : result unit RemoteConfigError :=
  match signers with
  | [] => Ok tt
  | signer :: signers' =>
      let? public_key := parse_remote_public_key_hex (rsc_public_key signer) in
      if decide (public_key ∈ keys) then Err (DuplicateAllowedSigner (rsc_public_key signer))
      else validate_signers ({[public_key]} ∪ keys) signers'
  end.

(** [name.trim().is_empty()] *)
Definition is_blank (s : string) : bool :=
  string_all (λ c, let n := N_of_ascii c in
    ((9 <=? n) && (n <=? 13) || (n =? 32))%N) s.

Fixpoint validate_remotes (names : gset string) (remotes : list RemoteEndpointConfig)
  : result unit RemoteConfigError :=
  match remotes with
  | [] => Ok tt
  | remote :: remotes' =>
      if is_blank (rec_name remote) then Err EmptyRemoteName
      else if decide (rec_name remote ∈ names) then Err (DuplicateRemoteName (rec_name remote))
      else validate_remotes ({[rec_name remote]} ∪ names) remotes'
  end.

(** [RemoteConfig::validate] *)
Definition remote_config_validate (cfg : RemoteConfig) : result unit RemoteConfigError :=
  let? _ := validate_signers ∅ (rcf_allowed_signers cfg) in
  validate_remotes ∅ (rcf_remotes cfg).

Definition to_trusted_signer (signer : RemoteSignerConfig)
  : result TrustedRemoteSigner RemoteConfigError :=
  let? key := parse_remote_public_key_hex (rsc_public_key signer) in
  Ok (MkTrustedRemoteSigner key (rsc_trust_tier signer) (rsc_label signer)).

(** [.collect::<Result<Vec<_>, _>>()] *)
Fixpoint collect_results {A B E} (f : A → result B E) (l : list A) : result (list B) E :=
  match l with
  | [] => Ok []
  | x :: l' => let? y := f x in let? ys := collect_results f l' in Ok (y :: ys)
  end.

Definition to_signer_policy (cfg : RemoteConfig) : result RemoteSignerPolicy RemoteConfigError :=
  let? _ := remote_config_validate cfg in
  let? allowed_signers := collect_results to_trusted_signer (rcf_allowed_signers cfg) in
  Ok (MkRemoteSignerPolicy allowed_signers).

(** [RemoteSignerPolicy::deny_all] *)
Definition deny_all : RemoteSignerPolicy := MkRemoteSignerPolicy [].

Definition check_identity (policy : RemoteSignerPolicy) (identity : AgentIdentity)
  : result TrustedRemoteSigner RemoteSignerRejection :=
  match find_first (λ s, trs_public_key s = ai_public_key identity) (rsp_allowed_signers policy) with
  | Some signer => Ok signer
  | None => Err (MkRemoteSignerRejection (ai_public_key identity) (ai_label identity) SignerNotAllowed)
  end.

(* ------------------------------------------------------------------ *)
(** ** Signed ChangeSets *)

Inductive KeyMaterialReason : Type :=
| UnsupportedVersion (version : N)
| BadHexField (field : string) (reason : KeyReason)
| PublicKeyMismatch.

Inductive SigningError : Type :=
| SigningSignatureInvalid
| SerializationError
| InvalidKeyMaterial (reason : KeyMaterialReason).

Record RemoteChangeSet : Type := MkRemoteChangeSet {
  rcs_changeset : CanonicalChangeSet;
  rcs_agent : AgentIdentity;
  rcs_signature : list N;
}.

Section Signing.
Context `{RemoteBackend}.

Definition signing_payload (cs : CanonicalChangeSet) : result (list N) SigningError :=
  match cbor_ops (ccs_ops cs) with
  | None => Err SerializationError
  | Some ops_cbor =>
      match cbor_pair (le_bytes 8 (ccs_base_snapshot_id cs)) ops_cbor with
      | None => Err SerializationError
      | Some payload => Ok payload
      end
  end.

Definition verify_bytes (identity : AgentIdentity) (payload sig : list N)
  : result unit SigningError :=
  if ed25519_verify (ai_public_key identity) payload sig then Ok tt
  else Err SigningSignatureInvalid.

(** [AgentKeypair::identity] of the keypair with the given secret key *)
Definition keypair_identity (secret : list N) : AgentIdentity :=
  MkAgentIdentity (ed25519_public_key secret) None.

(** [RemoteChangeSet::sign] *)
Definition remote_sign (cs : CanonicalChangeSet) (secret : list N)
  : result RemoteChangeSet SigningError :=
  let? payload := signing_payload cs in
  Ok (MkRemoteChangeSet cs (keypair_identity secret) (ed25519_sign secret payload)).

Definition verify_signature (rcs : RemoteChangeSet) : result unit SigningError :=
  let? payload := signing_payload (rcs_changeset rcs) in
  verify_bytes (rcs_agent rcs) payload (rcs_signature rcs).
End Signing.

Record PlaintextDevSignerKeyMaterial : Type := MkKeyMaterial {
  km_version : N;
  km_warning : string;
  km_secret_key_hex : string;
  km_public_key_hex : string;
  km_label : option string;
}.

Definition KEY_MATERIAL_VERSION : N := 1.

Definition PLAINTEXT_DEV_SIGNER_KEY_WARNING : string :=
  "plaintext Ed25519 signer key for local development only; not production secret storage".

Definition decode_hex32 (hex field : string) : result (list N) SigningError :=
  match decode_key_hex hex with
  | Ok decoded => Ok decoded
  | Err reason => Err (InvalidKeyMaterial (BadHexField field reason))
  end.

Section KeyMaterial.
Context `{RemoteBackend}.

Definition from_keypair (secret : list N) (label : option string)
  : PlaintextDevSignerKeyMaterial :=
  MkKeyMaterial KEY_MATERIAL_VERSION PLAINTEXT_DEV_SIGNER_KEY_WARNING
    (encode_hex32 secret) (encode_hex32 (ai_public_key (keypair_identity secret))) label.

(** The secret key of the loaded keypair. *)
Definition to_keypair (km : PlaintextDevSignerKeyMaterial) : result (list N) SigningError :=
  if decide (km_version km ≠ KEY_MATERIAL_VERSION)
  then Err (InvalidKeyMaterial (UnsupportedVersion (km_version km)))
  else
    let? secret_key := decode_hex32 (km_secret_key_hex km) "secret_key_hex" in
    let? expected_public_key := decode_hex32 (km_public_key_hex km) "public_key_hex" in
    if decide (ai_public_key (keypair_identity secret_key) ≠ expected_public_key)
    then Err (InvalidKeyMaterial PublicKeyMismatch)
    else Ok secret_key.

(** [PlaintextDevSignerKeyMaterial::identity] *)
Definition key_material_identity (km : PlaintextDevSignerKeyMaterial)
  : result AgentIdentity SigningError :=
  let? secret := to_keypair km in
  Ok (MkAgentIdentity (ai_public_key (keypair_identity secret)) (km_label km)).
End KeyMaterial.

(* ------------------------------------------------------------------ *)
(** ** Object bundles *)

Inductive BundleError : Type :=
| RootNotFound
| HashMismatch (object_id : ObjectId)
| MissingSnapshotDependency (dependency : ObjectId).
#[global] Instance BundleError_eq_dec : EqDecision BundleError.
Proof. solve_decision. Defined.

Record ObjectBundle : Type := MkObjectBundle {
  ob_root : ObjectId;
  ob_objects : gmap ObjectId (list N);
}.

(** Ids are ordered byte by byte. *)
Fixpoint bytes_le (a b : list N) : bool :=
  match a, b with
  | [], _ => true
  | _ :: _, [] => false
  | x :: a', y :: b' => (x <? y)%N || ((x =? y)%N && bytes_le a' b')
  end.

Definition object_key_le (a b : ObjectId * list N) : Prop := bytes_le a.1 b.1 = true.
#[global] Instance object_key_le_dec a b : Decision (object_key_le a b).
Proof. unfold object_key_le. apply _. Defined.

(** Iteration over a [BTreeMap<ObjectId, Vec<u8>>] *)
Definition object_iter (m : gmap ObjectId (list N)) : list (ObjectId * list N) :=
  merge_sort object_key_le (map_to_list m).

Definition snapshot_envelope_dependencies `{RemoteBackend} (bytes : list N) : list ObjectId :=
  match cbor_decode_snapshot bytes with
  | None => []
  | Some snapshot =>
      [se_graph_root_hash snapshot] ++ option_list (se_applied_change_id snapshot) ++
      se_audit_record_ids snapshot ++ se_migration_metadata_ids snapshot
  end.

Section Bundles.
Context `{HashBackend} `{RemoteBackend}.

Definition verify_integrity (bundle : ObjectBundle) : result unit BundleError :=
  match ob_objects bundle !! ob_root bundle with
  | None => Err RootNotFound
  | Some root_bytes =>
      match find_first (λ entry, object_id_from_bytes entry.2 ≠ entry.1)
              (object_iter (ob_objects bundle)) with
      | Some (stored_id, _) => Err (HashMismatch stored_id)
      | None =>
          match find_first (λ d, d ≠ ob_root bundle ∧ ob_objects bundle !! d = None)
                  (snapshot_envelope_dependencies root_bytes) with
          | Some dependency => Err (MissingSnapshotDependency dependency)
          | None => Ok tt
          end
      end
  end.

Definition includes_snapshot_envelope_dependencies (bundle : ObjectBundle) : bool :=
  match ob_objects bundle !! ob_root bundle with
  | None => false
  | Some root_bytes =>
      any (λ d, d ≠ ob_root bundle ∧ is_Some (ob_objects bundle !! d))
        (snapshot_envelope_dependencies root_bytes)
  end.

(** The dependency loop of [from_store_with_snapshot_dependencies]; [None] is
    [StorageError::NotFound]. *)
Fixpoint fetch_dependencies (store : gmap ObjectId (list N)) (root : ObjectId)
    (objects : gmap ObjectId (list N)) (dependencies : list ObjectId)
  : option (gmap ObjectId (list N)) :=
  match dependencies with
  | [] => Some objects
  | d :: dependencies' =>
      if decide (d = root ∨ is_Some (objects !! d))
      then fetch_dependencies store root objects dependencies'
      else
        bytes ← store !! d;
        fetch_dependencies store root (<[d := bytes]> objects) dependencies'
  end.

(** The object store is a map that does not change during the call. *)
Definition from_store_with_snapshot_dependencies (root : ObjectId)
    (store : gmap ObjectId (list N)) : option ObjectBundle :=
  root_bytes ← store !! root;
  objects ← fetch_dependencies store root ∅ (snapshot_envelope_dependencies root_bytes);
  Some (MkObjectBundle root (<[root := root_bytes]> objects)).
End Bundles.

(** The trait [BundleStore], with what its documentation promises. *)
Class BundleStore (S : Type) : Type := {
  put_bundle : ObjectBundle → S → S;
  get_bundle : ObjectId → S → option ObjectBundle;
}.

Class BundleStoreLaws (S : Type) `{BundleStore S} : Prop := {
  get_put : ∀ b s, get_bundle (ob_root b) (put_bundle b s) = Some b;
  get_put_ne : ∀ b s r, r ≠ ob_root b → get_bundle r (put_bundle b s) = get_bundle r s;
}.

Record InMemoryBundleStore : Type := MkInMemoryBundleStore {
  imb_bundles : gmap ObjectId ObjectBundle;
}.

(** [InMemoryBundleStore::new] *)
Definition in_memory_new : InMemoryBundleStore := MkInMemoryBundleStore ∅.

#[global] Instance in_memory_store : BundleStore InMemoryBundleStore := {|
  put_bundle b s := MkInMemoryBundleStore (<[ob_root b := b]> (imb_bundles s));
  get_bundle r s := imb_bundles s !! r;
|}.

#[global] Instance in_memory_store_laws : BundleStoreLaws InMemoryBundleStore.
Proof.
  split.
  - intros b s. simpl. apply lookup_insert_eq.
  - intros b s r Hne. simpl. by apply lookup_insert_ne.
Qed.

(* ------------------------------------------------------------------ *)
(** ** Exchange messages *)

Inductive RemoteError : Type :=
| SignatureInvalid
| SignerRejected (rejection : RemoteSignerRejection)
| CoordinatorFailed (reason : FailureReason).

Inductive RemoteExchangeRequest : Type :=
| SubmitChangeSet (rcs : RemoteChangeSet)
| PushBundle (bundle : ObjectBundle)
| PullBundle (root : ObjectId).

Inductive RemoteSubmissionOutcome : Type :=
| SubmissionApplied (applied_snapshot_id : SnapshotId)
| SubmissionRebaseApplied (rebased_onto applied_snapshot_id : SnapshotId)
| SubmissionConflictIrresolvable (reason : ConflictReason)
| SubmissionStaleBase (current_snapshot_id : SnapshotId)
| SubmissionFailed (reason : FailureReason).

(** The [message] of an error response is the displayed error, kept as a value. *)
Inductive ErrorMessage : Type :=
| RemoteMessage (err : RemoteError)
| BundleMessage (err : BundleError).

Inductive RemoteExchangeResponse : Type :=
| Submission (outcome : RemoteSubmissionOutcome)
| BundleAccepted (root : ObjectId) (object_count : nat)
| Bundle (bundle : ObjectBundle)
| BundleMissing (root : ObjectId)
| ErrorResponse (code : string) (message : ErrorMessage).

(* ------------------------------------------------------------------ *)
(** ** Keys: lemmas *)

Definition is_byte (b : N) : Prop := (b < 256)%N.

(** A boolean property of all numbers below a bound, by evaluation. *)
Lemma below_by_evaluation (k : nat) (P : N → bool) :
  forallb P (N.of_nat <$> seq 0 k) = true → ∀ n, (n < N.of_nat k)%N → P n = true.
Proof.
  rewrite forallb_forall. intros HP n Hn. apply HP. apply list_elem_of_In, list_elem_of_fmap.
  exists (N.to_nat n). split; [lia|]. apply elem_of_seq. lia.
Qed.

(** Encoding a byte and decoding its two digits gives the byte back. *)
Definition hex_pair_ok (b : N) : Prop :=
  decode_hex_nibble (N_of_ascii (hex_digit (N.shiftr b 4))) = Some (N.shiftr b 4) ∧
  decode_hex_nibble (N_of_ascii (hex_digit (N.land b 15))) = Some (N.land b 15) ∧
  N.lor (N.shiftl (N.shiftr b 4) 4) (N.land b 15) = b.
#[global] Instance hex_pair_ok_dec b : Decision (hex_pair_ok b).
Proof. unfold hex_pair_ok. apply _. Defined.

Lemma hex_pair_decode b : is_byte b → hex_pair_ok b.
Proof.
  intros Hb. apply (bool_decide_eq_true_1 (hex_pair_ok b)).
  apply (below_by_evaluation 256 (λ x, @bool_decide (hex_pair_ok x) (hex_pair_ok_dec x)));
    [vm_compute; reflexivity|done].
Qed.

Lemma decode_encode_pairs bytes :
  Forall is_byte bytes → decode_hex_pairs (string_bytes (encode_hex32 bytes)) = Some bytes.
Proof.
  induction 1 as [|b bytes Hb _ IH]; [done|]. destruct (hex_pair_decode b Hb) as (H1 & H2 & H3).
  simpl. rewrite H1. simpl. rewrite H2. simpl. rewrite IH. simpl. by rewrite H3.
Qed.

Lemma length_encode_hex32 bytes : length (string_bytes (encode_hex32 bytes)) = 2 * length bytes.
Proof. induction bytes as [|b bytes IH]; simpl; [done|]. rewrite IH. lia. Qed.

Lemma decode_key_encode key :
  Forall is_byte key → length key = 32 → decode_key_hex (encode_hex32 key) = Ok key.
Proof.
  intros Hb Hl. unfold decode_key_hex. rewrite length_encode_hex32, Hl.
  rewrite decide_False by (intros Hne; by apply Hne). by rewrite decode_encode_pairs.
Qed.

Lemma decode_hex_nibble_range c n : decode_hex_nibble c = Some n → (n < 16)%N.
Proof.
  unfold decode_hex_nibble.
  repeat match goal with
  | |- context [if ?b then _ else _] => destruct b eqn:?
  end; intros; simplify_eq;
  repeat match goal with
  | H : (_ && _) = true |- _ => apply andb_true_iff in H as [?%N.leb_le ?%N.leb_le]
  end; lia.
Qed.

Lemma decode_hex_pairs_spec n : ∀ bytes,
  length bytes = 2 * n →
  match decode_hex_pairs bytes with
  | Some parsed =>
      length parsed = n ∧ Forall is_byte parsed ∧ Forall (λ c, is_Some (decode_hex_nibble c)) bytes
  | None => ∃ c, c ∈ bytes ∧ decode_hex_nibble c = None
  end.
Proof.
  induction n as [|n IH]; intros bytes Hl.
  { destruct bytes; [|done]. simpl. repeat constructor. }
  destruct bytes as [|c0 [|c1 rest]]; [done|simpl in Hl; lia|]. simpl in *.
  destruct (decode_hex_nibble c0) as [h|] eqn:E0; simpl; [|exists c0; set_solver].
  destruct (decode_hex_nibble c1) as [l|] eqn:E1; simpl; [|exists c1; set_solver].
  specialize (IH rest ltac:(lia)). destruct (decode_hex_pairs rest) as [parsed|]; simpl.
  - destruct IH as (Hlen & Hb & Hc). split_and!; [by rewrite Hlen| |by repeat constructor; eauto].
    constructor; [|done]. unfold is_byte. apply decode_hex_nibble_range in E0, E1.
    assert (h * 16 + l < 256)%N by lia.
    assert (Hlor : ∀ h l, (h < 16)%N → (l < 16)%N → (N.lor (N.shiftl h 4) l <? 256)%N = true).
    { intros h' l' Hh Hl'. revert l' Hl'. apply (below_by_evaluation 16).
      revert h' Hh. apply (below_by_evaluation 16 (λ h', forallb
        (λ l', (N.lor (N.shiftl h' 4) l' <? 256)%N) (N.of_nat <$> seq 0 16))). reflexivity. }
    apply N.ltb_lt. by apply Hlor.
  - destruct IH as (c & Hc & ?). exists c. set_solver.
Qed.

(* ------------------------------------------------------------------ *)
(** ** Configuration: lemmas *)

Definition signer_key (sc : RemoteSignerConfig) (key : list N) : Prop :=
  decode_key_hex (rsc_public_key sc) = Ok key.

Lemma parse_key_Ok public_key key :
  parse_remote_public_key_hex public_key = Ok key ↔ decode_key_hex public_key = Ok key.
Proof. unfold parse_remote_public_key_hex. destruct (decode_key_hex public_key); naive_solver. Qed.

Lemma validate_signers_Ok keys signers :
  validate_signers keys signers = Ok tt ↔
  ∃ ks, Forall2 signer_key signers ks ∧ NoDup ks ∧ ∀ k, k ∈ ks → k ∉ keys.
Proof.
  revert keys. induction signers as [|s signers IH]; intros keys; simpl.
  { split; [|done]. intros _. exists []. split_and!; [constructor..|set_solver]. }
  destruct (parse_remote_public_key_hex (rsc_public_key s)) as [key|e] eqn:E.
  - apply parse_key_Ok in E. case_decide as Hin.
    + split; [done|]. intros (ks & Hf & _ & Hd). inversion Hf as [|? k ? ks' Hk]; subst.
      unfold signer_key in Hk. rewrite E in Hk. injection Hk as <-.
      exfalso. apply (Hd key); [set_solver|done].
    + rewrite IH. split.
      * intros (ks & Hf & Hnd & Hd). exists (key :: ks). split_and!.
        -- by constructor.
        -- constructor; [|done]. intros Hk. by apply (Hd key); [|set_solver].
        -- intros k [->|Hk]%elem_of_cons; [done|]. specialize (Hd k Hk). set_solver.
      * intros (ks & Hf & Hnd & Hd). inversion Hf as [|? k ? ks' Hk Hf']; subst.
        unfold signer_key in Hk. rewrite E in Hk. injection Hk as <-.
        apply NoDup_cons in Hnd as [Hn Hnd]. exists ks'. split_and!; [done..|]. set_solver.
  - split; [done|]. intros (ks & Hf & _). inversion Hf as [|? k ? ks' Hk]; subst.
    apply parse_key_Ok in Hk. congruence.
Qed.

Lemma validate_remotes_Ok names remotes :
  validate_remotes names remotes = Ok tt ↔
  NoDup (rec_name <$> remotes) ∧
  ∀ r, r ∈ remotes → is_blank (rec_name r) = false ∧ rec_name r ∉ names.
Proof.
  revert names. induction remotes as [|r remotes IH]; intros names; csimpl.
  { split; [|done]. split; [constructor|set_solver]. }
  rewrite NoDup_cons. destruct (is_blank (rec_name r)) eqn:E.
  { split; [done|]. intros [_ Hall]. destruct (Hall r); [set_solver|congruence]. }
  case_decide as Hin.
  { split; [done|]. intros [_ Hall]. destruct (Hall r); [set_solver|done]. }
  rewrite IH. split.
  - intros [Hnd Hall]. split_and!; [|done|].
    + intros (r' & Heq & Hr')%list_elem_of_fmap. destruct (Hall r' Hr'). set_solver.
    + intros r' [->|Hr']%elem_of_cons; [done|]. destruct (Hall r' Hr'). set_solver.
  - intros [[Hn Hnd] Hall]. split; [done|]. intros r' Hr'.
    destruct (Hall r'); [set_solver|]. split; [done|].
    assert (rec_name r' ≠ rec_name r); [|set_solver].
    intros Heq. apply Hn. rewrite <- Heq. by apply list_elem_of_fmap_2.
Qed.

Lemma collect_results_Ok {A B E} (f : A → result B E) l ys :
  collect_results f l = Ok ys ↔ Forall2 (λ x y, f x = Ok y) l ys.
Proof.
  revert ys. induction l as [|x l IH]; intros ys; simpl.
  - split; [intros [= <-]; constructor|by inversion 1].
  - destruct (f x) as [y|e] eqn:Ex.
    + destruct (collect_results f l) as [ys'|e] eqn:El.
      * split; [intros [= <-]; constructor; [done|by apply IH]|].
        intros Hf. inversion Hf as [|? y' ? ys'' Hy Hf']; subst. apply IH in Hf'. congruence.
      * split; [done|]. intros Hf. inversion Hf as [|? ? ? ? ? Hf']; subst. by apply IH in Hf'.
    + split; [done|]. inversion 1; congruence.
Qed.

Lemma Forall2_fmap_key {A B} (R : A → list N → Prop) (f : B → list N) (l : list A) ks (ys : list B) :
  Forall2 R l ks → Forall2 (λ x y, R x (f y)) l ys →
  (∀ x k k', R x k → R x k' → k = k') → f <$> ys = ks.
Proof.
  intros Hk Hy Hfun. revert ys Hy. induction Hk as [|x k l ks Hx Hk IH]; intros ys Hy.
  - by inversion Hy.
  - inversion Hy as [|? y ? ys' Hy1 Hy2]; subst. csimpl. rewrite (IH ys') by done.
    f_equal. eauto.
Qed.

(** What a successful conversion yields. *)
Lemma to_signer_policy_Ok cfg policy :
  to_signer_policy cfg = Ok policy ↔
  remote_config_validate cfg = Ok tt ∧
  Forall2 (λ sc s, to_trusted_signer sc = Ok s) (rcf_allowed_signers cfg)
    (rsp_allowed_signers policy).
Proof.
  unfold to_signer_policy. destruct (remote_config_validate cfg) as [[]|e]; [|naive_solver].
  rewrite <- collect_results_Ok.
  destruct (collect_results to_trusted_signer _) as [ss|e]; [|naive_solver].
  destruct policy. naive_solver.
Qed.

Lemma remote_config_validate_Ok cfg :
  remote_config_validate cfg = Ok tt ↔
  validate_signers ∅ (rcf_allowed_signers cfg) = Ok tt ∧
  validate_remotes ∅ (rcf_remotes cfg) = Ok tt.
Proof.
  unfold remote_config_validate. destruct (validate_signers _ _) as [[]|]; naive_solver.
Qed.

Lemma to_trusted_signer_Ok sc s :
  to_trusted_signer sc = Ok s ↔
  signer_key sc (trs_public_key s) ∧ trs_trust_tier s = rsc_trust_tier sc ∧ trs_label s = rsc_label sc.
Proof.
  unfold to_trusted_signer, signer_key. rewrite <- parse_key_Ok.
  destruct (parse_remote_public_key_hex _), s; naive_solver.
Qed.

(** The conversion fails exactly when the validation does: the second parse
    of the keys cannot fail. *)
Lemma to_signer_policy_total cfg :
  remote_config_validate cfg = Ok tt → ∃ policy, to_signer_policy cfg = Ok policy.
Proof.
  intros Hv. pose proof Hv as [(ks & Hf & _)%validate_signers_Ok _]%remote_config_validate_Ok.
  assert (∃ ss, Forall2 (λ sc s, to_trusted_signer sc = Ok s) (rcf_allowed_signers cfg) ss)
    as [ss Hss].
  { clear Hv. induction Hf as [|sc k scs ks Hk Hf [ss IH]]; [by exists []|].
    exists (MkTrustedRemoteSigner k (rsc_trust_tier sc) (rsc_label sc) :: ss).
    constructor; [|done]. by apply to_trusted_signer_Ok. }
  exists (MkRemoteSignerPolicy ss). by apply to_signer_policy_Ok.
Qed.

(** Key parsing.  The hex encoding of a 32-byte key parses to the key;
    parsing accepts exactly the strings of 64 hexadecimal digits, and gives 32 bytes. *)
Theorem remote_key_roundtrip (key : list N) (hex : string) :
  (Forall is_byte key → length key = 32 → parse_remote_public_key_hex (encode_hex32 key) = Ok key) ∧
  match parse_remote_public_key_hex hex with
  | Ok parsed =>
      length parsed = 32 ∧ Forall is_byte parsed ∧ length (string_bytes hex) = 64 ∧
      Forall (λ c, is_Some (decode_hex_nibble c)) (string_bytes hex)
  | Err e =>
      (e = InvalidPublicKey hex WrongLength ∧ length (string_bytes hex) ≠ 64) ∨
      (e = InvalidPublicKey hex NonHexCharacter ∧
       ∃ c, c ∈ string_bytes hex ∧ decode_hex_nibble c = None)
  end.
Proof.
  split; [intros; by apply parse_key_Ok, decode_key_encode|].
  unfold parse_remote_public_key_hex, decode_key_hex. case_decide as Hl; [by left|].
  pose proof (decode_hex_pairs_spec 32 (string_bytes hex) Hl) as Hs.
  destruct (decode_hex_pairs _); naive_solver.
Qed.

(** Authority comes from the configuration alone.  A configuration that
    validates always yields a policy; its signers have pairwise distinct keys
    even when the hex spellings differ, and an identity passes exactly when its
    key is one of the configured ones, whatever label it claims.  An empty list
    denies everyone. *)
Theorem signer_policy_spec (cfg : RemoteConfig) (identity : AgentIdentity) :
  match remote_config_validate cfg with
  | Err e => to_signer_policy cfg = Err e
  | Ok _ => ∃ policy, to_signer_policy cfg = Ok policy ∧
      NoDup (trs_public_key <$> rsp_allowed_signers policy) ∧
      (is_ok (check_identity policy identity) = true ↔
       ∃ sc, sc ∈ rcf_allowed_signers cfg ∧ signer_key sc (ai_public_key identity))
  end ∧
  is_ok (check_identity deny_all identity) = false.
Proof.
  split; [|done]. destruct (remote_config_validate cfg) as [[]|e] eqn:Hv.
  2: { unfold to_signer_policy. by rewrite Hv. }
  destruct (to_signer_policy_total cfg Hv) as [policy Hp]. exists policy.
  split; [done|]. apply to_signer_policy_Ok in Hp as [_ Hf].
  apply remote_config_validate_Ok in Hv as [(ks & Hks & Hnd & _)%validate_signers_Ok _].
  assert (Hf' : Forall2 (λ sc s, signer_key sc (trs_public_key s)) (rcf_allowed_signers cfg)
                  (rsp_allowed_signers policy)).
  { eapply Forall2_impl; [done|]. by intros sc s [? _]%to_trusted_signer_Ok. }
  split.
  - rewrite (Forall2_fmap_key signer_key trs_public_key _ ks _ Hks Hf'); [done|].
    unfold signer_key. congruence.
  - unfold check_identity. destruct (find_first _ _) as [s|] eqn:E; simpl.
    + apply find_first_Some in E as [Hin Hkey]. split; [|done]. intros _.
      apply list_elem_of_lookup in Hin as [i Hi].
      destruct (Forall2_lookup_r _ _ _ _ _ Hf' Hi) as (sc & Hsc & Hk).
      exists sc. split; [by apply list_elem_of_lookup_2 in Hsc|by rewrite <- Hkey].
    + rewrite find_first_None in E. split; [done|]. intros (sc & Hsc & Hk).
      apply list_elem_of_lookup in Hsc as [i Hi].
      destruct (Forall2_lookup_l _ _ _ _ _ Hf' Hi) as (s & Hs & Hk').
      exfalso. apply (E s); [by apply list_elem_of_lookup_2 in Hs|].
      unfold signer_key in *. congruence.
Qed.

(* ------------------------------------------------------------------ *)
(** ** Signatures *)

(** What a signature covers.  An envelope signed with a key verifies under
    the identity of that key; and verification reads nothing of the ChangeSet but
    its base snapshot and its ops, so that an envelope stays valid when its
    preconditions, its metadata or its approval requirements are replaced. *)
Theorem signature_scope `{RemoteLaws} (cs : CanonicalChangeSet) (secret : list N)
    (rcs : RemoteChangeSet) (cs' : CanonicalChangeSet) :
  (remote_sign cs secret = Ok rcs →
     verify_signature rcs = Ok tt ∧ rcs_changeset rcs = cs ∧
     ai_public_key (rcs_agent rcs) = ed25519_public_key secret) ∧
  (ccs_base_snapshot_id cs' = ccs_base_snapshot_id (rcs_changeset rcs) →
   ccs_ops cs' = ccs_ops (rcs_changeset rcs) →
   verify_signature (MkRemoteChangeSet cs' (rcs_agent rcs) (rcs_signature rcs)) =
   verify_signature rcs).
Proof.
  split.
  - unfold remote_sign, verify_signature, verify_bytes.
    destruct (signing_payload cs) as [payload|] eqn:E; [|done]. intros [= <-]. simpl.
    rewrite E. by rewrite ed25519_sign_verify.
  - intros Hb Ho. unfold verify_signature, signing_payload. simpl. by rewrite Hb, Ho.
Qed.

(** A toy signature scheme: the signature is the key and the message. *)
Definition test_remote : RemoteBackend := {|
  cbor_ops ops := Some (N.of_nat <$> (length ∘ cop_block_hash <$> ops));
  cbor_pair a b := Some (a ++ b);
  cbor_decode_snapshot _ := None;
  ed25519_public_key secret := secret;
  ed25519_sign secret payload := secret ++ payload;
  ed25519_verify key payload sig := bool_decide (sig = key ++ payload);
|}.

Lemma test_remote_laws : @RemoteLaws test_remote.
Proof. intros secret payload. simpl. by apply bool_decide_true. Qed.

Lemma signature_scope_witness :
  match @remote_sign test_remote canonical_change_set_default [7%N] with
  | Ok rcs => @verify_signature test_remote rcs = Ok tt
  | Err _ => False
  end.
Proof.
  simpl. refine (proj1 (proj1 (@signature_scope test_remote test_remote_laws
    canonical_change_set_default [7%N] _ canonical_change_set_default) eq_refl)).
Defined.

(** Key material round trip.  Exporting a keypair and loading it again gives
    the same keypair, with the exported label on its identity; material whose
    public key does not belong to its secret key is never loaded. *)
Theorem key_material_roundtrip `{RemoteBackend} (secret : list N) (label : option string)
    (Hs : Forall is_byte secret) (Hsl : length secret = 32)
    (Hp : Forall is_byte (ed25519_public_key secret))
    (Hpl : length (ed25519_public_key secret) = 32) :
  to_keypair (from_keypair secret label) = Ok secret ∧
  key_material_identity (from_keypair secret label) =
    Ok (MkAgentIdentity (ed25519_public_key secret) label) ∧
  ∀ km sk, to_keypair km = Ok sk →
    decode_key_hex (km_secret_key_hex km) = Ok sk ∧
    decode_key_hex (km_public_key_hex km) = Ok (ed25519_public_key sk) ∧
    km_version km = KEY_MATERIAL_VERSION.
Proof.
  assert (Hk : to_keypair (from_keypair secret label) = Ok secret).
  { unfold to_keypair, from_keypair, decode_hex32. simpl.
    rewrite !decode_key_encode by done. by rewrite decide_False by (intros Hne; by apply Hne). }
  split_and!; [done|unfold key_material_identity; by rewrite Hk|].
  intros km sk. unfold to_keypair, decode_hex32. case_decide as Hv; [done|].
  destruct (decode_key_hex (km_secret_key_hex km)) as [k1|]; [|done].
  destruct (decode_key_hex (km_public_key_hex km)) as [k2|]; [|done].
  case_decide as Hne; [done|]. intros [= <-]. split_and!; [done| |done].
  simpl in Hne. by rewrite Hne.
Qed.

Lemma key_material_roundtrip_witness :
  @to_keypair test_remote (@from_keypair test_remote (replicate 32 171%N) None) =
    Ok (replicate 32 171%N).
Proof.
  refine (proj1 (@key_material_roundtrip test_remote (replicate 32 171%N) None _ _ _ _));
    (reflexivity || (apply (bool_decide_unpack _); vm_compute; exact I)).
Defined.

(* ------------------------------------------------------------------ *)
(** ** Bundles *)

(** A bundle that can be trusted: the root is present, every object is stored
    under its own hash, and the direct dependencies of a snapshot root are
    present. *)
Definition bundle_ok `{HashBackend} `{RemoteBackend} (b : ObjectBundle) : Prop :=
  ∃ root_bytes, ob_objects b !! ob_root b = Some root_bytes ∧
    map_Forall (λ id bytes, object_id_from_bytes bytes = id) (ob_objects b) ∧
    ∀ d, d ∈ snapshot_envelope_dependencies root_bytes → is_Some (ob_objects b !! d).

Lemma object_iter_elem m id bytes : (id, bytes) ∈ object_iter m ↔ m !! id = Some bytes.
Proof. unfold object_iter. rewrite merge_sort_Permutation. apply elem_of_map_to_list. Qed.

Section BundleLemmas.
Context `{HashBackend} `{RemoteBackend}.

Lemma verify_integrity_Ok b : verify_integrity b = Ok tt ↔ bundle_ok b.
Proof.
  unfold verify_integrity, bundle_ok.
  destruct (ob_objects b !! ob_root b) as [root_bytes|] eqn:Er; [|naive_solver].
  destruct (find_first _ (object_iter _)) as [[id bytes]|] eqn:Eh.
  { apply find_first_Some in Eh as [Hin%object_iter_elem Hne]. simpl in Hne.
    split; [done|]. intros (rb & _ & Hall & _). by destruct Hne, (Hall id bytes Hin). }
  rewrite find_first_None in Eh.
  assert (Hall : map_Forall (λ id bytes, object_id_from_bytes bytes = id) (ob_objects b)).
  { intros id bytes Hid. apply object_iter_elem, Eh, dec_stable in Hid. done. }
  destruct (find_first _ (snapshot_envelope_dependencies root_bytes)) as [d|] eqn:Ed.
  - apply find_first_Some in Ed as (Hin & Hne & Hnone). split; [done|].
    intros (rb & [= <-] & _ & Hd). destruct (Hd d Hin) as [? Hsome]. congruence.
  - rewrite find_first_None in Ed. split; [|done]. intros _. exists root_bytes.
    split_and!; [done..|]. intros d Hd. destruct (decide (d = ob_root b)) as [->|Hne]; [eauto|].
    destruct (ob_objects b !! d) eqn:Eo; [eauto|]. exfalso. by apply (Ed d Hd).
Qed.

(** The dependency loop only copies objects of the store, and fetches all. *)
Lemma fetch_dependencies_spec store root deps objects objects' :
  fetch_dependencies store root objects deps = Some objects' →
  objects ⊆ store →
  objects ⊆ objects' ∧ objects' ⊆ store ∧
  ∀ d, d ∈ deps → d = root ∨ is_Some (objects' !! d).
Proof.
  revert objects. induction deps as [|d deps IH]; intros objects; simpl.
  { intros [= <-] Hsub. split_and!; [done..|set_solver]. }
  case_decide as Hd.
  - intros Hf Hsub. destruct (IH _ Hf Hsub) as (H1 & H2 & H3). split_and!; [done..|].
    intros d' [->|Hd']%elem_of_cons; [|auto]. destruct Hd as [?|[x Hx]]; [by left|right].
    exists x. by eapply lookup_weaken.
  - destruct (store !! d) as [bytes|] eqn:Es; [|done]. simpl. intros Hf Hsub.
    assert (Hnone : objects !! d = None).
    { destruct (objects !! d) eqn:E; [|done]. exfalso. apply Hd. right. eauto. }
    destruct (IH _ Hf) as (H1 & H2 & H3); [by apply insert_subseteq_l|].
    split_and!; [|done|].
    + etransitivity; [|exact H1]. by apply insert_subseteq.
    + intros d' [->|Hd']%elem_of_cons; [|auto]. right. exists bytes.
      eapply lookup_weaken; [|exact H1]. apply lookup_insert_eq.
Qed.
End BundleLemmas.

(** [verify_integrity] decides [bundle_ok], and names a real defect: a
    missing root, an object stored under a key that is not its hash, or a
    dependency the root snapshot declares and the bundle lacks. *)
Theorem verify_integrity_spec `{HashBackend} `{RemoteBackend} (b : ObjectBundle) :
  match verify_integrity b with
  | Ok _ => bundle_ok b
  | Err RootNotFound => ob_objects b !! ob_root b = None
  | Err (HashMismatch id) =>
      ∃ bytes, ob_objects b !! id = Some bytes ∧ object_id_from_bytes bytes ≠ id
  | Err (MissingSnapshotDependency d) =>
      ob_objects b !! d = None ∧
      ∃ root_bytes, ob_objects b !! ob_root b = Some root_bytes ∧
        d ∈ snapshot_envelope_dependencies root_bytes
  end.
Proof.
  destruct (verify_integrity b) as [[]|e] eqn:E; [by apply verify_integrity_Ok|].
  unfold verify_integrity in E.
  destruct (ob_objects b !! ob_root b) as [root_bytes|] eqn:Er; [|by injection E as <-].
  destruct (find_first _ (object_iter _)) as [[id bytes]|] eqn:Eh.
  { injection E as <-. apply find_first_Some in Eh as [Hin%object_iter_elem Hne]. eauto. }
  destruct (find_first _ (snapshot_envelope_dependencies root_bytes)) as [d|] eqn:Ed; [|done].
  injection E as <-. apply find_first_Some in Ed as (Hin & _ & Hnone). eauto.
Qed.

(** Exporting from a content-addressed store gives a bundle that the
    receiving side accepts, and that contains only objects of the store. *)
Theorem exported_bundle_ok `{HashBackend} `{RemoteBackend} (root : ObjectId)
    (store : gmap ObjectId (list N)) (b : ObjectBundle)
    (Hcas : map_Forall (λ id bytes, object_id_from_bytes bytes = id) store)
    (Hexport : from_store_with_snapshot_dependencies root store = Some b) :
  verify_integrity b = Ok tt ∧ ob_root b = root ∧ ob_objects b ⊆ store.
Proof.
  unfold from_store_with_snapshot_dependencies in Hexport.
  destruct (store !! root) as [root_bytes|] eqn:Er; [|done]. simpl in Hexport.
  destruct (fetch_dependencies store root ∅ _) as [objects|] eqn:Ef; [|done].
  injection Hexport as <-.
  destruct (fetch_dependencies_spec _ _ _ _ _ Ef) as (_ & Hsub & Hdeps); [apply map_empty_subseteq|].
  assert (Hstore : <[root := root_bytes]> objects ⊆ store) by (by apply insert_subseteq_l).
  split_and!; [|done|done]. apply verify_integrity_Ok. exists root_bytes. simpl.
  split_and!; [apply lookup_insert_eq| |].
  - intros id bytes Hid. apply Hcas. by eapply lookup_weaken.
  - intros d Hd. destruct (decide (root = d)) as [->|Hne]; [rewrite lookup_insert_eq; eauto|].
    rewrite lookup_insert_ne by done. destruct (Hdeps d Hd); [congruence|done].
Qed.

Definition store_example : gmap ObjectId (list N) :=
  <[[1%N; 2%N] := [1%N; 2%N]]> (<[[3%N] := [3%N]]> ∅).

Lemma exported_bundle_ok_witness :
  let b := MkObjectBundle [3%N] (<[[3%N] := [3%N]]> ∅) in
  @verify_integrity test_backend test_remote b = Ok tt ∧ ob_root b = [3%N] ∧
  ob_objects b ⊆ store_example.
Proof.
  apply (@exported_bundle_ok test_backend test_remote [3%N] store_example
    (MkObjectBundle [3%N] (<[[3%N] := [3%N]]> ∅))).
  - apply (bool_decide_unpack _). vm_compute. exact I.
  - reflexivity.
Defined.
