(* ===== verification/Coordinator.v ===== *)
(** * The coordinator (crates/ail-coordinator/src/coordinator.rs)

    [Coordinator] serialises concurrent submissions: each handler runs under one
    mutex, so that a handler is an atomic step on [CoordinatorState].  The
    snapshot bridge is the in-memory bridge of crates/ail-change/src/
    storage_bridge.rs, of which the coordinator uses the atomic counter; the
    object store it also wraps is not touched by any handler. *)

From S2P Require Import Prelude Text GraphTypes SemanticGraph ChangeModel Apply Rebase Remote.

(* ------------------------------------------------------------------ *)
(** ** Snapshot bridges *)

(** The counter of [MemorySnapshotBridge]. *)
Record MemorySnapshotBridge : Type := MkMemorySnapshotBridge { msb_current_id : N }.

(** [MemorySnapshotBridge::new] *)
Definition memory_bridge_new (initial : SnapshotId) : MemorySnapshotBridge :=
  MkMemorySnapshotBridge initial.

(** [fetch_add(1, SeqCst)] wraps at [2^64]. *)
Definition advance_snapshot_id (b : MemorySnapshotBridge) : MemorySnapshotBridge :=
  MkMemorySnapshotBridge (u64_add (msb_current_id b) 1).

#[global] Instance memory_snapshot_bridge : SnapshotBridge MemorySnapshotBridge := msb_current_id.

Record FixedSnapshotBridge : Type := MkFixedSnapshotBridge { fsb_id : SnapshotId }.
#[global] Instance fixed_snapshot_bridge : SnapshotBridge FixedSnapshotBridge := fsb_id.

(* ------------------------------------------------------------------ *)
(** ** State and outcomes *)

Inductive CoordinatorOutcome : Type :=
| CoAppliedAt (applied_snapshot_id : SnapshotId)
| CoRebaseApplied (rebased_onto applied_snapshot_id : SnapshotId)
| CoConflictIrresolvable (reason : ConflictReason)
| CoStaleBase (current_snapshot_id : SnapshotId)
| CoFailed (reason : FailureReason).

Record CoordinatorState : Type := MkCoordinatorState {
  co_graph : SemanticGraph;
  co_bridge : MemorySnapshotBridge;
  co_committed_diff : StructuralDiff;
  co_committed_removes : gset NodeRef;
  co_bundle_store : InMemoryBundleStore;
}.

Record Coordinator : Type := MkCoordinator {
  co_inner : CoordinatorState;
  co_remote_signer_policy : RemoteSignerPolicy;
}.

Definition with_remote_signer_policy (initial : SnapshotId) (g : SemanticGraph)
    (policy : RemoteSignerPolicy) : Coordinator :=
  MkCoordinator
    (MkCoordinatorState g (memory_bridge_new initial) (MkStructuralDiff ∅) ∅ in_memory_new)
    policy.

(** [Coordinator::new] *)
Definition coordinator_new (initial : SnapshotId) (g : SemanticGraph) : Coordinator :=
  with_remote_signer_policy initial g deny_all.

Definition extract_removed_nodes (ops : list CanonicalOp) : gset NodeRef :=
  list_to_set (omap (λ op,
    match cop_payload op with RemoveNode r => Some r | _ => None end) ops).

(** The state after a successful apply that produced [g]. *)
Definition commit (st : CoordinatorState) (g : SemanticGraph) (ops : list CanonicalOp)
  : CoordinatorState :=
  MkCoordinatorState g (advance_snapshot_id (co_bridge st)) (from_ops ops)
    (extract_removed_nodes ops) (co_bundle_store st).

Definition with_graph (st : CoordinatorState) (g : SemanticGraph) : CoordinatorState :=
  MkCoordinatorState g (co_bridge st) (co_committed_diff st) (co_committed_removes st)
    (co_bundle_store st).

(* ------------------------------------------------------------------ *)
(** ** Handlers *)

Section Handlers.
Context `{HashBackend} `{RemoteBackend}.

(** [submit], under the lock *)
Definition submit (st : CoordinatorState) (cs : CanonicalChangeSet)
  : CoordinatorState * CoordinatorOutcome :=
  let live_id := current_snapshot_id (co_bridge st) in
  if decide (ccs_base_snapshot_id cs = live_id) then
    let '(g, outcome) := apply cs (co_graph st) (MkFixedSnapshotBridge live_id) in
    match outcome with
    | Applied =>
        let st' := commit st g (ccs_ops cs) in
        (st', CoAppliedAt (current_snapshot_id (co_bridge st')))
    | Failed reason => (with_graph st g, CoFailed reason)
    | RebaseRequired _ => (with_graph st g, CoStaleBase live_id)
    | ConflictIrresolvable reason => (with_graph st g, CoConflictIrresolvable reason)
    end
  else
    let pending_diff := from_ops (ccs_ops cs) in
    match rebase cs (co_committed_diff st) live_id with
    | Rebased rebased_cs =>
        let '(g, outcome) := apply rebased_cs (co_graph st) (MkFixedSnapshotBridge live_id) in
        match outcome with
        | Applied =>
            let st' := commit st g (ccs_ops rebased_cs) in
            (st', CoRebaseApplied live_id (current_snapshot_id (co_bridge st')))
        | Failed reason => (with_graph st g, CoFailed reason)
        | RebaseRequired current => (with_graph st g, CoStaleBase current)
        | ConflictIrresolvable reason => (with_graph st g, CoConflictIrresolvable reason)
        end
    | RebaseConflict _ =>
        let conflicts := touched_nodes pending_diff ∩ touched_nodes (co_committed_diff st) in
        (st, CoConflictIrresolvable (classify_conflict conflicts (co_committed_removes st)))
    end.

Definition verify_remote_submission (policy : RemoteSignerPolicy) (st : CoordinatorState)
    (rcs : RemoteChangeSet) : CoordinatorState * result CoordinatorOutcome RemoteError :=
  match verify_signature rcs with
  | Err _ => (st, Err SignatureInvalid)
  | Ok _ =>
      match check_identity policy (rcs_agent rcs) with
      | Err rejection => (st, Err (SignerRejected rejection))
      | Ok _ =>
          let '(st', outcome) := submit st (rcs_changeset rcs) in
          match outcome with
          | CoFailed reason => (st', Err (CoordinatorFailed reason))
          | _ => (st', Ok outcome)
          end
      end
  end.

Definition remote_submission_outcome (outcome : CoordinatorOutcome) : RemoteSubmissionOutcome :=
  match outcome with
  | CoAppliedAt id => SubmissionApplied id
  | CoRebaseApplied onto id => SubmissionRebaseApplied onto id
  | CoConflictIrresolvable reason => SubmissionConflictIrresolvable reason
  | CoStaleBase id => SubmissionStaleBase id
  | CoFailed reason => SubmissionFailed reason
  end.

Definition remote_error_code (err : RemoteError) : string :=
  match err with
  | SignatureInvalid => "E_SIGNATURE_INVALID"
  | SignerRejected _ => "E_SIGNER_NOT_ALLOWED"
  | CoordinatorFailed _ => "E_COORDINATOR_FAILED"
  end.

Definition with_bundle_store (st : CoordinatorState) (s : InMemoryBundleStore)
  : CoordinatorState :=
  MkCoordinatorState (co_graph st) (co_bridge st) (co_committed_diff st)
    (co_committed_removes st) s.

Definition handle_remote_exchange (policy : RemoteSignerPolicy) (st : CoordinatorState)
    (request : RemoteExchangeRequest) : CoordinatorState * RemoteExchangeResponse :=
  match request with
  | SubmitChangeSet rcs =>
      let '(st', r) := verify_remote_submission policy st rcs in
      match r with
      | Ok outcome => (st', Submission (remote_submission_outcome outcome))
      | Err err => (st', ErrorResponse (remote_error_code err) (RemoteMessage err))
      end
  | PushBundle bundle =>
      match verify_integrity bundle with
      | Ok _ =>
          (with_bundle_store st (put_bundle bundle (co_bundle_store st)),
           BundleAccepted (ob_root bundle) (size (ob_objects bundle)))
      | Err err => (st, ErrorResponse "E_BUNDLE_INVALID" (BundleMessage err))
      end
  | PullBundle root =>
      match get_bundle root (co_bundle_store st) with
      | Some bundle => (st, Bundle bundle)
      | None => (st, BundleMissing root)
      end
  end.

(** One atomic step: a local submission or a remote request. *)
Inductive step (policy : RemoteSignerPolicy) : CoordinatorState → CoordinatorState → Prop :=
| step_submit st cs : step policy st (submit st cs).1
| step_exchange st request : step policy st (handle_remote_exchange policy st request).1.

(** The states a coordinator can reach, in any interleaving of its clients. *)
Inductive reachable (c : Coordinator) : CoordinatorState → Prop :=
| reach_init : reachable c (co_inner c)
| reach_step st st' :
    reachable c st → step (co_remote_signer_policy c) st st' → reachable c st'.
End Handlers.

(* ------------------------------------------------------------------ *)
(** ** One submission *)

Lemma with_graph_same st : with_graph st (co_graph st) = st.
Proof. by destruct st. Qed.

Lemma elem_of_removed ops r :
  r ∈ extract_removed_nodes ops ↔ ∃ op, op ∈ ops ∧ cop_payload op = RemoveNode r.
Proof.
  unfold extract_removed_nodes. rewrite elem_of_list_to_set, list_elem_of_omap.
  split; intros (op & Hop & Hr); exists op; (split; [done|]); destruct (cop_payload op); naive_solver.
Qed.

Lemma removed_touched ops : extract_removed_nodes ops ⊆ collect_node_refs ops.
Proof.
  intros r (op & Hop & Hr)%elem_of_removed. apply collect_node_refs_elem. exists op.
  split; [done|]. rewrite Hr. unfold payload_refs. simpl. set_solver.
Qed.

Section Submit.
Context `{HashBackend} `{RemoteBackend}.

(** How [apply] behaves behind the fixed bridge. *)
Lemma apply_fixed cs g live :
  ccs_base_snapshot_id cs = live →
  (∃ g', apply cs g (MkFixedSnapshotBridge live) = (g', Applied) ∧
     g' = run_ops (ccs_ops cs) g ∧
     Forall (λ p, precondition_holds p g) (ccs_preconditions cs) ∧
     ∀ k, k < length (ccs_ops cs) → graph_wf (run_ops (take (S k) (ccs_ops cs)) g)) ∨
  ∃ reason, apply cs g (MkFixedSnapshotBridge live) = (g, Failed reason) ∧
    failed_because cs g reason.
Proof.
  intros Hb. unfold apply. rewrite decide_False by (intros Hne; by apply Hne).
  destruct (check_preconditions (ccs_preconditions cs) g) as [r|] eqn:Ep.
  { right. exists r. split; [done|]. left. by apply check_preconditions_Some. }
  apply check_preconditions_None in Ep.
  destruct (apply_ops (ccs_ops cs) g) as [g'|e] eqn:Eo.
  - left. apply apply_ops_Ok in Eo as [-> Hwf]. eauto.
  - right. exists (InvariantViolated e). split; [done|]. right. split; [done|].
    apply apply_ops_failed in Eo as (k & ? & ? & ? & ?). exists e, k. by split_and!.
Qed.

(** The shape of every result of [submit]. *)
Definition submit_post (st : CoordinatorState) (cs : CanonicalChangeSet)
    (r : CoordinatorState * CoordinatorOutcome) : Prop :=
  let live := msb_current_id (co_bridge st) in
  let g' := run_ops (ccs_ops cs) (co_graph st) in
  let committed := r.1 = commit st g' (ccs_ops cs) ∧
    Forall (λ p, precondition_holds p (co_graph st)) (ccs_preconditions cs) ∧
    ∀ k, k < length (ccs_ops cs) →
      graph_wf (run_ops (take (S k) (ccs_ops cs)) (co_graph st)) in
  let refs := collect_node_refs (ccs_ops cs) in
  let diff := touched_nodes (co_committed_diff st) in
  match r.2 with
  | CoAppliedAt id => ccs_base_snapshot_id cs = live ∧ committed ∧ id = u64_add live 1
  | CoRebaseApplied onto id =>
      ccs_base_snapshot_id cs ≠ live ∧ refs ## diff ∧ committed ∧
      onto = live ∧ id = u64_add live 1
  | CoConflictIrresolvable reason =>
      r.1 = st ∧ ccs_base_snapshot_id cs ≠ live ∧ ¬ refs ## diff ∧
      (reason = NodeDeletedWhileModified ∧
         (∃ x, x ∈ refs ∧ x ∈ diff ∧ x ∈ co_committed_removes st) ∨
       reason = SameNodeModifiedIncompatibly ∧
         refs ∩ diff ## co_committed_removes st)
  | CoStaleBase _ => False
  | CoFailed reason =>
      r.1 = st ∧ (ccs_base_snapshot_id cs = live ∨ refs ## diff) ∧
      failed_because cs (co_graph st) reason
  end.

Lemma submit_post_holds st cs : submit_post st cs (submit st cs).
Proof.
  unfold submit, submit_post. change (current_snapshot_id (co_bridge st)) with
    (msb_current_id (co_bridge st)). set (live := msb_current_id (co_bridge st)).
  case_decide as Hb.
  { destruct (apply_fixed cs (co_graph st) live Hb) as [(g' & -> & -> & ? & ?)|(reason & -> & Hf)];
      simpl; [done|]. rewrite with_graph_same. split_and!; [done|by left|done]. }
  unfold rebase. simpl. case_decide as Hd; rewrite <- disjoint_intersection_L in Hd.
  - destruct (apply_fixed (set_base_snapshot_id live cs) (co_graph st) live eq_refl)
      as [(g' & -> & -> & ? & ?)|(reason & -> & Hf)]; simpl; [done|].
    rewrite with_graph_same. split_and!; [done|by right|exact Hf].
  - simpl. split_and!; [done..|].
    pose proof (classify_conflict_spec
      (collect_node_refs (ccs_ops cs) ∩ touched_nodes (co_committed_diff st))
      (co_committed_removes st)) as Hc.
    destruct (classify_conflict _ _); try done; [by right|left]. split; [done|].
    destruct Hc as (x & [? ?]%elem_of_intersection & ?). eauto.
Qed.

(** C3: [submit], on every branch.  An applied ChangeSet was on the live snapshot, or
    stale and disjoint from the last commit (then it is rebased); its preconditions
    hold, every intermediate graph is well formed, and the graph, the snapshot
    counter and the conflict window move together.  A failure leaves the state alone
    and names its cause: the first precondition that does not hold, or, all of them
    holding, the first op that breaks the graph, with the duplicate ref or dangling
    edge; so a ChangeSet with neither is never failed.  A conflict leaves the state
    alone and is reported only for a stale ChangeSet that shares a ref with the last
    commit, as a deletion exactly when a shared ref was removed.  [StaleBase] never
    occurs. *)
Theorem submit_spec (st : CoordinatorState) (cs : CanonicalChangeSet) :
  submit_post st cs (submit st cs).
Proof. apply submit_post_holds. Qed.

Lemma submit_cases st cs :
  (submit st cs).1 = st ∨
  ((submit st cs).1 = commit st (run_ops (ccs_ops cs) (co_graph st)) (ccs_ops cs) ∧
   ∀ k, k < length (ccs_ops cs) → graph_wf (run_ops (take (S k) (ccs_ops cs)) (co_graph st))).
Proof.
  pose proof (submit_post_holds st cs) as Hp. unfold submit_post in Hp.
  destruct (submit st cs).2; naive_solver.
Qed.

(** A remote submission acts on the state as the submission it wraps, or not
    at all. *)
Lemma remote_submission_state policy st rcs :
  (verify_remote_submission policy st rcs).1 = st ∨
  (verify_remote_submission policy st rcs).1 = (submit st (rcs_changeset rcs)).1.
Proof.
  unfold verify_remote_submission. destruct (verify_signature rcs); [|by left].
  destruct (check_identity policy (rcs_agent rcs)); [|by left]. right.
  by destruct (submit st (rcs_changeset rcs)) as [st' []].
Qed.

(** The three ways a step can change the state. *)
Lemma step_cases policy st st' :
  step policy st st' →
  st' = st ∨
  (∃ ops, st' = commit st (run_ops ops (co_graph st)) ops ∧
     ∀ k, k < length ops → graph_wf (run_ops (take (S k) ops) (co_graph st))) ∨
  (∃ b, bundle_ok b ∧ st' = with_bundle_store st (put_bundle b (co_bundle_store st))).
Proof.
  intros Hstep. destruct Hstep as [st cs|st [rcs|b|root]]; simpl.
  - destruct (submit_cases st cs) as [->|[-> ?]]; eauto 10.
  - destruct (remote_submission_state policy st rcs) as [Hs|Hs];
      destruct (verify_remote_submission policy st rcs) as [st' [o|e]]; simpl in *; subst; auto;
      destruct (submit_cases st (rcs_changeset rcs)) as [->|[-> ?]]; eauto 10.
  - destruct (verify_integrity b) as [[]|e] eqn:E; simpl; [|by left].
    right; right. exists b. split; [by apply verify_integrity_Ok|done].
  - destruct (imb_bundles (co_bundle_store st) !! root); by left.
Qed.
End Submit.

(* ------------------------------------------------------------------ *)
(** ** Reachable states *)

(** The invariant of the coordinator's state. *)
Definition coordinator_inv `{HashBackend} `{RemoteBackend} (st : CoordinatorState) : Prop :=
  graph_wf (co_graph st) ∧
  co_committed_removes st ⊆ touched_nodes (co_committed_diff st) ∧
  ∀ r b, get_bundle r (co_bundle_store st) = Some b → ob_root b = r ∧ bundle_ok b.

Section Reachable.
Context `{HashBackend} `{RemoteBackend}.

Lemma run_ops_wf ops g :
  graph_wf g → (∀ k, k < length ops → graph_wf (run_ops (take (S k) ops) g)) →
  graph_wf (run_ops ops g).
Proof.
  intros Hg Hk. destruct ops as [|op ops]; [done|].
  rewrite <- (firstn_all (op :: ops)). apply (Hk (length ops)). simpl. lia.
Qed.

Lemma step_inv policy st st' :
  step policy st st' → coordinator_inv st → coordinator_inv st'.
Proof.
  intros Hstep (Hg & Hr & Hb).
  destruct (step_cases policy st st' Hstep) as [->|[(ops & -> & Hk)|(b & Hok & ->)]]; [done| |].
  - split_and!; simpl; [by apply run_ops_wf|apply removed_touched|done].
  - split_and!; [done..|]. intros r b' Hget. simpl in Hget.
    destruct (decide (r = ob_root b)) as [->|Hne].
    + rewrite lookup_insert_eq in Hget. injection Hget as <-. done.
    + rewrite lookup_insert_ne in Hget by done. by apply Hb.
Qed.

(** C2: the state invariant.  Started on a well-formed graph, a coordinator only
    ever holds well-formed graphs and bundles that pass the integrity check,
    stored under their own root, in whatever order its clients' requests
    are served. *)
Theorem coordinator_invariant (c : Coordinator) (st : CoordinatorState) (id : SnapshotId)
    (g : SemanticGraph) (policy : RemoteSignerPolicy)
    (Hc : c = with_remote_signer_policy id g policy)
    (Hg : graph_wf g) (Hreach : reachable c st) :
  coordinator_inv st.
Proof.
  induction Hreach as [|st st' _ IH Hstep]; [|by eapply step_inv].
  subst c. split_and!; simpl; [done|set_solver|].
  intros r b Hrb. by rewrite lookup_empty in Hrb.
Qed.
End Reachable.

Definition one_function : SemanticGraph :=
  MkSemanticGraph [graph_node_new 0%N NkFunction "fn.f"] [].

Definition coordinator_example : Coordinator :=
  with_remote_signer_policy 0%N one_function deny_all.

Definition rename_to (name : string) : CanonicalChangeSet :=
  with_ops [ref_op (SetNodeName 0%N name)].

Lemma coordinator_invariant_witness :
  @coordinator_inv test_backend test_remote
    (@submit test_backend (co_inner coordinator_example) (rename_to "fn.g")).1.
Proof.
  eapply (@coordinator_invariant test_backend test_remote coordinator_example _ 0%N one_function
            deny_all).
  - reflexivity.
  - apply (bool_decide_unpack _). vm_compute. exact I.
  - eapply reach_step; [apply reach_init|]. apply step_submit.
Defined.

(** A ChangeSet that renames the function and then adds an edge to a node that does
    not exist: the whole ChangeSet is refused, and the second op is to blame. *)
Definition dangling_after_rename : CanonicalChangeSet :=
  with_ops [ref_op (SetNodeName 0%N "fn.g"); ref_op (AddEdge (graph_edge_new 0%N 9%N EkCalls))].

Lemma submit_spec_witness :
  let st := co_inner coordinator_example in
  (@submit test_backend st (rename_to "fn.g")).2 = CoAppliedAt 1%N ∧
  (@submit test_backend st dangling_after_rename).2 =
    CoFailed (InvariantViolated (DanglingEdge 9%N RoleTarget)) ∧
  @submit_post test_backend st (rename_to "fn.g") (@submit test_backend st (rename_to "fn.g")) ∧
  @submit_post test_backend st dangling_after_rename
    (@submit test_backend st dangling_after_rename).
Proof.
  split_and!; [vm_compute; reflexivity..| |]; apply (@submit_spec test_backend).
Defined.

(* ------------------------------------------------------------------ *)
(** ** Refinement of a serial log

    The abstract coordinator is a log of op lists: each entry was applied in one
    piece, in log order. *)

Definition Log : Type := list (list CanonicalOp).

(** The graph a log describes. *)
Definition replay (log : Log) (g : SemanticGraph) : SemanticGraph :=
  foldl (λ g ops, run_ops ops g) g log.

(** The concrete state a log stands for. *)
Definition represents (id0 : SnapshotId) (g0 : SemanticGraph) (log : Log) (st : CoordinatorState)
  : Prop :=
  co_graph st = replay log g0 ∧
  msb_current_id (co_bridge st) = ((id0 + N.of_nat (length log)) mod u64_modulus)%N ∧
  co_committed_diff st = from_ops (default [] (last log)) ∧
  co_committed_removes st = extract_removed_nodes (default [] (last log)).

(** The steps of the abstract coordinator: append an entry that leaves the graph
    well formed, or do nothing. *)
Inductive log_step (g0 : SemanticGraph) : Log → Log → Prop :=
| log_append log ops :
    (∀ k, k < length ops → graph_wf (run_ops (take (S k) ops) (replay log g0))) →
    log_step g0 log (log ++ [ops])
| log_stutter log : log_step g0 log log.

Section Refinement.
Context `{HashBackend} `{RemoteBackend}.
Variables (id0 : SnapshotId) (g0 : SemanticGraph).

Lemma replay_snoc log ops : replay (log ++ [ops]) g0 = run_ops ops (replay log g0).
Proof. unfold replay. by rewrite foldl_app. Qed.

Lemma represents_commit log st ops :
  represents id0 g0 log st →
  represents id0 g0 (log ++ [ops]) (commit st (run_ops ops (co_graph st)) ops).
Proof.
  intros (Hg & Hid & _ & _). split_and!; simpl.
  - by rewrite replay_snoc, Hg.
  - rewrite Hid, length_app. simpl. unfold u64_add.
    rewrite N.Div0.add_mod_idemp_l. f_equal. lia.
  - by rewrite last_snoc.
  - by rewrite last_snoc.
Qed.

Lemma represents_step policy log st st' :
  represents id0 g0 log st → step policy st st' →
  ∃ log', log_step g0 log log' ∧ represents id0 g0 log' st'.
Proof.
  intros Hrep Hstep.
  destruct (step_cases policy st st' Hstep) as [->|[(ops & -> & Hk)|(b & _ & ->)]].
  - exists log. split; [constructor|done].
  - exists (log ++ [ops]). split; [|by apply represents_commit].
    constructor. by destruct Hrep as [<- _].
  - exists log. split; [constructor|done].
Qed.
End Refinement.

(** C1: refinement.  The coordinator implements a serial log: its initial state
    represents the empty log, every step of any client appends at most one entry,
    and in every reachable state the graph is the replay of the log, the snapshot
    id counts its entries (modulo [2^64]) and the conflict window is that of
    its last entry. *)
Theorem coordinator_refines_log `{HashBackend} `{RemoteBackend}
    (id0 : SnapshotId) (g0 : SemanticGraph) (policy : RemoteSignerPolicy)
    (Hid : (id0 < u64_modulus)%N) :
  let c := with_remote_signer_policy id0 g0 policy in
  represents id0 g0 [] (co_inner c) ∧
  (∀ log st st', represents id0 g0 log st → step policy st st' →
     ∃ log', log_step g0 log log' ∧ represents id0 g0 log' st') ∧
  (∀ st, reachable c st → ∃ log, represents id0 g0 log st ∧
     (graph_wf g0 → ∀ log1 log2, log = log1 ++ log2 → graph_wf (replay log1 g0))).
Proof.
  intros c. assert (Hinit : represents id0 g0 [] (co_inner c)).
  { split_and!; simpl; [done| |done|done]. rewrite N.add_0_r. by rewrite N.mod_small. }
  split_and!; [done|intros log st st'; apply represents_step|].
  intros st Hreach. induction Hreach as [|st st' _ (log & Hrep & Hwf) Hstep].
  - exists []. split; [done|]. intros Hg [|] log2 Heq; [done|by destruct log2].
  - destruct (represents_step _ _ _ _ _ _ Hrep Hstep) as (log' & Hls & Hrep').
    exists log'. split; [done|]. intros Hg. destruct Hls as [log ops Hk|log]; [|by apply Hwf].
    intros log1 log2 Heq. destruct log2 as [|x log2] using rev_ind.
    + rewrite app_nil_r in Heq. subst log1. rewrite replay_snoc. apply run_ops_wf; [|done].
      apply (Hwf Hg log []). by rewrite app_nil_r.
    + rewrite app_assoc in Heq. apply app_inj_tail in Heq as [Heq _]. by apply (Hwf Hg log1 log2).
Qed.

Lemma coordinator_refines_log_witness :
  represents 0%N one_function [] (co_inner coordinator_example).
Proof.
  exact (proj1 (@coordinator_refines_log test_backend test_remote 0%N one_function deny_all
    eq_refl)).
Defined.

(* ------------------------------------------------------------------ *)
(** ** The remote boundary *)

(** The envelope was signed: its Ed25519 signature verifies, under the public key
    the envelope carries, over the CBOR pair of the little-endian base snapshot id and
    the CBOR encoding of the ops. *)
Definition signed_by_agent `{RemoteBackend} (rcs : RemoteChangeSet) : Prop :=
  ∃ ops_cbor payload,
    cbor_ops (ccs_ops (rcs_changeset rcs)) = Some ops_cbor ∧
    cbor_pair (le_bytes 8 (ccs_base_snapshot_id (rcs_changeset rcs))) ops_cbor = Some payload ∧
    ed25519_verify (ai_public_key (rcs_agent rcs)) payload (rcs_signature rcs) = true.

(** The key of the envelope is one of the policy's. *)
Definition signer_allowed (policy : RemoteSignerPolicy) (rcs : RemoteChangeSet) : Prop :=
  ai_public_key (rcs_agent rcs) ∈ (trs_public_key <$> rsp_allowed_signers policy).

Lemma verify_signature_spec `{RemoteBackend} rcs :
  match verify_signature rcs with Ok _ => signed_by_agent rcs | Err _ => ¬ signed_by_agent rcs end.
Proof.
  unfold verify_signature, signing_payload, verify_bytes, signed_by_agent.
  destruct (cbor_ops _) as [ops|] eqn:Eo; [|by intros (? & ? & ? & _)].
  destruct (cbor_pair _ ops) as [payload|] eqn:Ep; [|intros (? & ? & [= <-] & ? & _); congruence].
  destruct (ed25519_verify _ payload _) eqn:Ev; [by exists ops, payload|].
  intros (? & ? & [= <-] & Hp & ?). congruence.
Qed.

Lemma check_identity_spec policy rcs :
  match check_identity policy (rcs_agent rcs) with
  | Ok _ => signer_allowed policy rcs
  | Err rejection =>
      ¬ signer_allowed policy rcs ∧
      rejection = MkRemoteSignerRejection (ai_public_key (rcs_agent rcs))
        (ai_label (rcs_agent rcs)) SignerNotAllowed
  end.
Proof.
  unfold check_identity, signer_allowed. destruct (find_first _ _) as [s|] eqn:E.
  - apply find_first_Some in E as [Hin <-]. by apply list_elem_of_fmap_2.
  - rewrite find_first_None in E. split; [|done].
    intros (s & Hs & Hin)%list_elem_of_fmap. by apply (E s Hin).
Qed.

(** Every part of the state but the bundle store. *)
Definition same_but_bundles (st st' : CoordinatorState) : Prop :=
  co_graph st' = co_graph st ∧ co_bridge st' = co_bridge st ∧
  co_committed_diff st' = co_committed_diff st ∧
  co_committed_removes st' = co_committed_removes st.

(** The answer to a request that was refused before it reached [submit]. *)
Definition refused (code : string) (err : RemoteError) (st : CoordinatorState)
    (r : CoordinatorState * RemoteExchangeResponse) : Prop :=
  r = (st, ErrorResponse code (RemoteMessage err)).

(** C40: the remote gate, for every policy, state and request.  A submission whose
    Ed25519 signature does not verify over its base snapshot and ops, or whose
    key is not in the policy's list, leaves the whole state alone and is answered with
    the signature error (checked first) or the rejection of that key; any
    other submission does to the state exactly what the same local [submit] does, and
    is answered with its outcome.  Pushing or pulling a bundle, under whatever policy,
    changes neither the graph, nor the snapshot id, nor the conflict window.  The
    signature covers the base snapshot and the ops only, not the preconditions. *)
Theorem remote_gate `{HashBackend} `{RemoteBackend} (policy : RemoteSignerPolicy)
    (st : CoordinatorState) (request : RemoteExchangeRequest) :
  match request with
  | SubmitChangeSet rcs =>
      let r := handle_remote_exchange policy st request in
      let local := submit st (rcs_changeset rcs) in
      (¬ signed_by_agent rcs → refused "E_SIGNATURE_INVALID" SignatureInvalid st r) ∧
      (signed_by_agent rcs → ¬ signer_allowed policy rcs →
         refused "E_SIGNER_NOT_ALLOWED"
           (SignerRejected (MkRemoteSignerRejection (ai_public_key (rcs_agent rcs))
              (ai_label (rcs_agent rcs)) SignerNotAllowed)) st r) ∧
      (signed_by_agent rcs → signer_allowed policy rcs →
         r.1 = local.1 ∧
         r.2 = match local.2 with
               | CoAppliedAt id => Submission (SubmissionApplied id)
               | CoRebaseApplied onto id => Submission (SubmissionRebaseApplied onto id)
               | CoConflictIrresolvable reason =>
                   Submission (SubmissionConflictIrresolvable reason)
               | CoStaleBase id => Submission (SubmissionStaleBase id)
               | CoFailed reason =>
                   ErrorResponse "E_COORDINATOR_FAILED" (RemoteMessage (CoordinatorFailed reason))
               end)
  | PushBundle _ | PullBundle _ =>
      same_but_bundles st (handle_remote_exchange policy st request).1
  end.
Proof.
  destruct request as [rcs|b|root]; simpl.
  - unfold verify_remote_submission, refused.
    pose proof (verify_signature_spec rcs) as Hs. pose proof (check_identity_spec policy rcs) as Hi.
    destruct (verify_signature rcs); [|by split_and!].
    destruct (check_identity policy (rcs_agent rcs)) as [|rej]; [|by destruct Hi as [? ->]].
    split_and!; [done..|]. intros _ _. by destruct (submit st (rcs_changeset rcs)) as [st1 []].
  - by destruct (verify_integrity b).
  - by destruct (imb_bundles (co_bundle_store st) !! root).
Qed.

(** An envelope for [cs] under the key [7], signed with that key or not. *)
Definition envelope (cs : CanonicalChangeSet) (sig : list N) : RemoteChangeSet :=
  MkRemoteChangeSet cs (MkAgentIdentity [7%N] None) sig.

Definition only_key_7 : RemoteSignerPolicy :=
  MkRemoteSignerPolicy [MkTrustedRemoteSigner [7%N] Trusted None].

(** The same rename, signed and allowed, signed under [deny_all], and forged. *)
Lemma remote_gate_witness :
  let st := co_inner coordinator_example in
  let cs := rename_to "fn.g" in
  let signed := envelope cs ([7%N] ++ le_bytes 8 0%N ++ [0%N]) in
  let exchange policy rcs :=
    @handle_remote_exchange test_backend test_remote policy st (SubmitChangeSet rcs) in
  (exchange only_key_7 signed).1 = (@submit test_backend st cs).1 ∧
  refused "E_SIGNER_NOT_ALLOWED"
    (SignerRejected (MkRemoteSignerRejection [7%N] None SignerNotAllowed)) st
    (exchange deny_all signed) ∧
  refused "E_SIGNATURE_INVALID" SignatureInvalid st (exchange only_key_7 (envelope cs [])).
Proof.
  intros st cs signed exchange.
  assert (Hs : @signed_by_agent test_remote signed).
  { eexists _, _. split_and!; [vm_compute; reflexivity..|]. vm_compute. reflexivity. }
  split_and!.
  - refine (proj1 (proj2 (proj2 (@remote_gate test_backend test_remote only_key_7 st
      (SubmitChangeSet signed))) Hs _)). apply list_elem_of_singleton. reflexivity.
  - refine (proj1 (proj2 (@remote_gate test_backend test_remote deny_all st
      (SubmitChangeSet signed))) Hs _). apply not_elem_of_nil.
  - refine (proj1 (@remote_gate test_backend test_remote only_key_7 st
      (SubmitChangeSet (envelope cs []))) _).
    intros (ops & p & [= <-] & [= <-] & Hv). vm_compute in Hv. discriminate.
Defined.

(** Bundle exchange.  A pushed bundle is accepted exactly when its integrity
    holds; pulling its root then returns the very bundle, pulling any other
    root what it returned before, and neither request touches the graph or
    the snapshot id. *)
Theorem bundle_exchange_roundtrip `{HashBackend} `{RemoteBackend} (policy : RemoteSignerPolicy)
    (st : CoordinatorState) (b : ObjectBundle) :
  let '(st', response) := handle_remote_exchange policy st (PushBundle b) in
  co_graph st' = co_graph st ∧ co_bridge st' = co_bridge st ∧
  (response = BundleAccepted (ob_root b) (size (ob_objects b)) ↔ bundle_ok b) ∧
  (bundle_ok b → (handle_remote_exchange policy st' (PullBundle (ob_root b))) = (st', Bundle b)) ∧
  (∀ r, r ≠ ob_root b →
     (handle_remote_exchange policy st' (PullBundle r)).2 =
     (handle_remote_exchange policy st (PullBundle r)).2).
Proof.
  pose proof (verify_integrity_Ok b) as Hok. simpl.
  destruct (verify_integrity b) as [[]|e]; simpl; rewrite <- Hok.
  - split_and!; [done..| |].
    + intros _. by rewrite lookup_insert_eq.
    + intros r Hne. rewrite lookup_insert_ne by done. by destruct (imb_bundles _ !! r).
  - split_and!; [done..|]. intros r Hne. by destruct (imb_bundles _ !! r).
Qed.

(* ------------------------------------------------------------------ *)
(** ** The conflict window is one commit *)

Definition create_type (id : NodeRef) : CanonicalChangeSet :=
  with_ops [ref_op (CreateNode (graph_node_new id NkType "type.T"))].

(** A base more than one snapshot behind is checked against the last
    commit only.  The first agent renames node 0, a second commits something
    unrelated, and a third, still on the original base, renames node 0 too: had it
    submitted one commit earlier it would have been refused; now it is applied,
    and the first agent's rename is lost without a conflict. *)
Theorem multi_hop_conflict_missed `{HashBackend} `{RemoteBackend} :
  let st0 := co_inner coordinator_example in
  let st1 := (submit st0 (rename_to "fn.first")).1 in
  let st2 := (submit st1 (set_base_snapshot_id 1%N (create_type 9%N))).1 in
  let late := rename_to "fn.third" in
  (submit st1 late).2 = CoConflictIrresolvable SameNodeModifiedIncompatibly ∧
  (submit st2 late).2 = CoRebaseApplied 2%N 3%N ∧
  (node_name <$> graph_nodes (co_graph st1)) = ["fn.first"] ∧
  (node_name <$> graph_nodes (co_graph (submit st2 late).1)) = ["fn.third"; "type.T"].
Proof. split_and!; vm_compute; reflexivity. Qed.
