(* ===== verification/I64.v ===== *)
(** * Signed 64-bit integers

    The [i64] operations of Rust's standard library that the constant folder of
    crates/ail-compiler/src/optimize/const_fold.rs calls.  An [i64] is a [Z] in
    [in_i64]; the operations write their wrap-around out. *)

From S2P Require Import Prelude.

#[local] Open Scope Z_scope.

Definition i64_modulus : Z := 2 ^ 64.
Definition i64_MIN : Z := - 2 ^ 63.
Definition i64_MAX : Z := 2 ^ 63 - 1.

Definition in_i64 (z : Z) : Prop := i64_MIN ≤ z ≤ i64_MAX.

#[global] Instance in_i64_dec z : Decision (in_i64 z).
Proof. apply and_dec; apply Z_le_dec. Defined.

(** Two's complement truncation to 64 bits. *)
Definition wrap (z : Z) : Z := (z + 2 ^ 63) mod i64_modulus - 2 ^ 63.

Definition checked (z : Z) : option Z := if decide (in_i64 z) then Some z else None.
Definition saturating (z : Z) : Z := Z.max i64_MIN (Z.min i64_MAX z).

Definition wrapping_add (a b : Z) : Z := wrap (a + b).
Definition wrapping_sub (a b : Z) : Z := wrap (a - b).
Definition wrapping_mul (a b : Z) : Z := wrap (a * b).
Definition wrapping_neg (a : Z) : Z := wrap (- a).

(** [amount as u32], then [wrapping_shl]/[wrapping_shr]: only the low six bits
    of the amount count. *)
Definition as_shift (amount : Z) : Z := (amount mod 2 ^ 32) mod 64.
Definition wrapping_shl (value amount : Z) : Z := wrap (Z.shiftl value (as_shift amount)).
Definition wrapping_shr (value amount : Z) : Z := Z.shiftr value (as_shift amount).
Definition wrapping_shr_unsigned (value amount : Z) : Z :=
  wrap (Z.shiftr (value mod i64_modulus) (as_shift amount)).

Definition checked_add (a b : Z) : option Z := checked (a + b).
Definition checked_sub (a b : Z) : option Z := checked (a - b).
Definition checked_mul (a b : Z) : option Z := checked (a * b).
Definition checked_neg (a : Z) : option Z := checked (- a).
Definition checked_abs (a : Z) : option Z := checked (Z.abs a).

(** Division truncates; [MIN / -1] overflows, and [MIN % -1] is refused too. *)
Definition checked_div (a b : Z) : option Z :=
  if decide (b = 0) then None else checked (Z.quot a b).
Definition checked_rem (a b : Z) : option Z :=
  if decide (b = 0) then None
  else if decide (a = i64_MIN ∧ b = -1) then None else Some (Z.rem a b).

Definition saturating_add (a b : Z) : Z := saturating (a + b).
Definition saturating_sub (a b : Z) : Z := saturating (a - b).
Definition saturating_mul (a b : Z) : Z := saturating (a * b).
Definition saturating_neg (a : Z) : Z := saturating (- a).

(* ------------------------------------------------------------------ *)
(** ** Range lemmas *)

Ltac i64_unfold := unfold in_i64, i64_MIN, i64_MAX, i64_modulus in *.
Ltac i64_lia := i64_unfold; lia.

Create HintDb i64.

Lemma wrap_range z : in_i64 (wrap z).
Proof.
  unfold wrap. pose proof (Z.mod_pos_bound (z + 2 ^ 63) i64_modulus eq_refl). i64_lia.
Qed.

Lemma wrap_id z : in_i64 z → wrap z = z.
Proof. intros Hz. unfold wrap. rewrite Z.mod_small; i64_lia. Qed.

Lemma wrap_above z : i64_MAX < z < i64_MAX + i64_modulus → wrap z = z - i64_modulus.
Proof.
  intros Hz. unfold wrap.
  replace (z + 2 ^ 63) with ((z - 2 ^ 63) + 1 * i64_modulus) by i64_lia.
  rewrite Z_mod_plus_full, Z.mod_small; i64_lia.
Qed.

Lemma wrap_below z : i64_MIN - i64_modulus < z < i64_MIN → wrap z = z + i64_modulus.
Proof.
  intros Hz. unfold wrap.
  replace (z + 2 ^ 63) with ((z + 3 * 2 ^ 63) + (-1) * i64_modulus) by i64_lia.
  rewrite Z_mod_plus_full, Z.mod_small; i64_lia.
Qed.

(** The truncation differs from its argument by a multiple of [2^64]. *)
Lemma wrap_congr z : ∃ k, wrap z = z + k * i64_modulus.
Proof.
  exists (- ((z + 2 ^ 63) / i64_modulus)). unfold wrap.
  rewrite Z.mod_eq by i64_lia. i64_lia.
Qed.

Lemma wrap_mod z : wrap z mod i64_modulus = z mod i64_modulus.
Proof. destruct (wrap_congr z) as [k ->]. apply Z_mod_plus_full. Qed.

Lemma wrap_eq_mod x y : x mod i64_modulus = y mod i64_modulus → wrap x = wrap y.
Proof.
  intros Hxy. unfold wrap. f_equal.
  by rewrite Z.add_mod, Hxy, <- Z.add_mod by i64_lia.
Qed.

Lemma saturating_range z : in_i64 (saturating z).
Proof. unfold saturating. i64_lia. Qed.

Lemma checked_Some z y : checked z = Some y ↔ y = z ∧ in_i64 z.
Proof. unfold checked. case_decide; naive_solver. Qed.

Lemma checked_None z : checked z = None ↔ ¬ in_i64 z.
Proof. unfold checked. case_decide; naive_solver. Qed.

Lemma checked_range z y : checked z = Some y → in_i64 y.
Proof. intros [-> ?]%checked_Some. done. Qed.

Lemma checked_or_range z d : in_i64 d → in_i64 (default d (checked z)).
Proof. unfold checked. by case_decide. Qed.

(** Quotients stay in range, but for [MIN / -1]. *)
Lemma quot_abs a b : b ≠ 0 → Z.abs (Z.quot a b) * Z.abs b ≤ Z.abs a.
Proof.
  intros Hb. rewrite <- Z.quot_abs, Z.mul_comm by done. apply Z.mul_quot_le; lia.
Qed.

Lemma quot_in_i64 a b :
  in_i64 a → in_i64 b → b ≠ 0 → (in_i64 (Z.quot a b) ↔ ¬ (a = i64_MIN ∧ b = -1)).
Proof.
  intros Ha Hb Hz. split.
  - intros Hq [-> ->]. vm_compute in Hq. by destruct Hq.
  - intros Hne. pose proof (quot_abs a b Hz).
    destruct (Z.eq_dec b (-1)) as [->|].
    + change (-1) with (- (1)). rewrite Z.quot_opp_r, Z.quot_1_r by lia. i64_lia.
    + destruct (Z.eq_dec b 1) as [->|]; [by rewrite Z.quot_1_r|].
      i64_unfold. assert (2 ≤ Z.abs b) by lia. nia.
Qed.

Lemma rem_range a b : in_i64 a → in_i64 b → b ≠ 0 → in_i64 (Z.rem a b).
Proof.
  intros Ha Hb Hz. pose proof (Z.rem_bound_abs a b Hz). i64_lia.
Qed.

Lemma checked_div_Some a b y :
  in_i64 a → in_i64 b →
  checked_div a b = Some y ↔ b ≠ 0 ∧ ¬ (a = i64_MIN ∧ b = -1) ∧ y = Z.quot a b.
Proof.
  intros Ha Hb. unfold checked_div. case_decide; [naive_solver|].
  rewrite checked_Some, quot_in_i64 by done. naive_solver.
Qed.

Lemma checked_rem_Some a b y :
  checked_rem a b = Some y ↔ b ≠ 0 ∧ ¬ (a = i64_MIN ∧ b = -1) ∧ y = Z.rem a b.
Proof. unfold checked_rem. repeat case_decide; naive_solver. Qed.

Lemma checked_div_None a b :
  in_i64 a → in_i64 b → checked_div a b = None ↔ b = 0 ∨ a = i64_MIN ∧ b = -1.
Proof.
  intros Ha Hb. unfold checked_div. case_decide; [naive_solver|].
  rewrite checked_None, quot_in_i64 by done.
  destruct (decide (a = i64_MIN)), (decide (b = -1)); naive_solver.
Qed.

Lemma checked_rem_None a b : checked_rem a b = None ↔ b = 0 ∨ a = i64_MIN ∧ b = -1.
Proof. unfold checked_rem. repeat case_decide; naive_solver. Qed.

(** A number is an [i64] exactly when its bits from 63 up are all equal. *)
Lemma in_i64_shiftr z : in_i64 z ↔ Z.shiftr z 63 = 0 ∨ Z.shiftr z 63 = -1.
Proof.
  rewrite Z.shiftr_div_pow2 by lia.
  pose proof (Z_div_mod_eq_full z (2 ^ 63)). pose proof (Z.mod_pos_bound z (2 ^ 63) eq_refl).
  i64_unfold. split; [intros; nia|intros [Hq|Hq]; rewrite Hq in *; lia].
Qed.

Lemma land_range a b : in_i64 a → in_i64 b → in_i64 (Z.land a b).
Proof.
  rewrite !in_i64_shiftr, Z.shiftr_land. intros [->| ->] [->| ->]; vm_compute; auto.
Qed.

Lemma lor_range a b : in_i64 a → in_i64 b → in_i64 (Z.lor a b).
Proof.
  rewrite !in_i64_shiftr, Z.shiftr_lor. intros [->| ->] [->| ->]; vm_compute; auto.
Qed.

Lemma lxor_range a b : in_i64 a → in_i64 b → in_i64 (Z.lxor a b).
Proof.
  rewrite !in_i64_shiftr, Z.shiftr_lxor. intros [->| ->] [->| ->]; vm_compute; auto.
Qed.

Lemma lnot_range a : in_i64 a → in_i64 (Z.lnot a).
Proof. unfold Z.lnot. i64_lia. Qed.

Lemma as_shift_range amount : 0 ≤ as_shift amount < 64.
Proof. unfold as_shift. by apply Z.mod_pos_bound. Qed.

Lemma shiftr_range a k : 0 ≤ k → in_i64 a → in_i64 (Z.shiftr a k).
Proof.
  intros Hk Ha. rewrite Z.shiftr_div_pow2 by done.
  assert (0 < 2 ^ k) by (by apply Z.pow_pos_nonneg).
  i64_unfold. split; [apply Z.div_le_lower_bound|apply Z.div_le_upper_bound]; nia.
Qed.

#[export] Hint Resolve wrap_range saturating_range checked_or_range land_range lor_range
  lxor_range lnot_range rem_range : i64.

(** What truncation does to a sum or a difference of two [i64]s. *)
Lemma wrap_cases z :
  2 * i64_MIN - 1 ≤ z ≤ 2 * i64_MAX + 1 →
  (in_i64 z ∧ wrap z = z) ∨ (i64_MAX < z ∧ wrap z = z - i64_modulus) ∨
  (z < i64_MIN ∧ wrap z = z + i64_modulus).
Proof.
  intros Hz. destruct (decide (in_i64 z)); [left; auto using wrap_id|right].
  destruct (Z_lt_dec i64_MAX z); [left|right]; (split; [i64_lia|]).
  - apply wrap_above. i64_lia.
  - apply wrap_below. i64_lia.
Qed.

(** Overflow detection by dividing the truncated product. *)
Lemma mul_overflow_test a b :
  in_i64 a → in_i64 b → b ≠ 0 →
  (wrap (a * b) = i64_MIN ∧ b = -1 → ¬ in_i64 (a * b)) ∧
  (Z.quot (wrap (a * b)) b = a ↔ in_i64 (a * b)).
Proof.
  intros Ha Hb Hz. split.
  - intros [Hm ->]. destruct (decide (in_i64 (a * -1))) as [Hs|]; [|done].
    rewrite wrap_id in Hm by done. i64_lia.
  - split.
    + intros Hq. destruct (wrap_congr (a * b)) as [k Hk].
      pose proof (Z.quot_rem' (wrap (a * b)) b) as Hqr.
      pose proof (Z.rem_bound_abs (wrap (a * b)) b Hz) as Hr. rewrite Hq in Hqr.
      assert (k = 0) as -> by (i64_unfold; nia).
      rewrite Z.mul_0_l, Z.add_0_r in Hk. rewrite <- Hk. apply wrap_range.
    + intros Hs. rewrite wrap_id by done. by apply Z.quot_mul.
Qed.
