(* ===== verification/Anf.v ===== *)
(** * The ANF intermediate representation and its analyses

    crates/ail-compiler/src/anf.rs ([AnfExpr], all 44 shapes, and
    [AnfBinding]), core_ir/primitives.rs ([LiteralValue]), pattern_string.rs
    ([parse_constructor_pattern], [arm_payload_binding]), wasm_abi/bindings.rs
    ([collect_free_vars]) and optimize/purity.rs ([is_pure],
    [purity_blocking_reason], [anf_node_count], [uses_var]).

    A [Float] carries the bit pattern of its [f64]; no modelled pass computes
    with one.  [bool_decide (x = y)] is Rust's [x == y] on strings. *)

From S2P Require Import Prelude Text GraphTypes I64.

(* ------------------------------------------------------------------ *)
(** ** Data *)

Inductive LiteralValue : Type :=
| LBool (b : bool)
| LInt (n : Z)
| LFloat (bits : N)
| LText (s : string)
| LUnit
| LBytes (bytes : list N).

#[global] Instance LiteralValue_eq_dec : EqDecision LiteralValue.
Proof. solve_decision. Defined.

#[local] Set Warnings "-register-all".

Inductive AnfExpr : Type :=
| ALiteral (lit : LiteralValue)
| AVar (name : string)
| ALet (name : string) (value body : AnfExpr)
| AIf (cond : string) (then_branch else_branch : AnfExpr)
| ACall (func : string) (args : list string)
| AFieldGet (record field : string)
| AReturn (inner : AnfExpr)
| ASeq (exprs : list AnfExpr)
| AMatch (scrutinee : string) (arms : list AnfMatchArm)
| ALambda (params captures : list string) (body : AnfExpr)
| ARecordNew (fields : list (string * AnfExpr))
| AFieldUpdate (record field : string) (value : AnfExpr)
| ATupleNew (elems : list AnfExpr)
| AVariantNew (tag : string) (payload : option AnfExpr)
| AListNew (elems : list AnfExpr)
| ALoop (body : AnfExpr)
| ABreak (value : AnfExpr)
| AContinue
| AWhileLoop (cond : string) (body : AnfExpr)
| AShortCircuitAnd (left : string) (right : AnfExpr)
| AShortCircuitOr (left : string) (right : AnfExpr)
| AEffectCall (capability func : string) (args : list string)
| ADispatch (handler method : string) (args : list string)
| ATaskSpawn (func : string) (args : list string)
| AChannelSend (channel value : string)
| AChannelReceive (channel : string)
| ARuntimeCheck (check_ref cond msg : string)
| AResourceAcquire (resource : string) (args : list string)
| AResourceRelease (handle : string)
| ATaskAwait (task : string)
| ATaskCancel (task : string)
| ATaskGroup (body : AnfExpr)
| AChannelNew (capacity : option N)
| ASelect (branches : list AnfSelectClause)
| ATimeout (duration : string) (body : AnfExpr)
| ACellNew (init : string)
| ACellGet (cell : string)
| ACellSet (cell value : string)
| AAssume (predicate reason : string)
| AAbort (message : string)
| AIndexGet (collection index : string)
| AMapNew (entries : list (string * string))
| ASetNew (elements : list string)
| AForEach (binding collection : string) (body : AnfExpr)
| AFold (init lst func : string)
| APlaceholder
with AnfMatchArm : Type :=
| MkAnfMatchArm (pattern : string) (body : AnfExpr)
with AnfSelectClause : Type :=
| MkAnfSelectClause (channel binding : string) (body : AnfExpr).

Definition arm_pattern (a : AnfMatchArm) : string := let '(MkAnfMatchArm p _) := a in p.
Definition arm_body (a : AnfMatchArm) : AnfExpr := let '(MkAnfMatchArm _ b) := a in b.
Definition clause_channel (c : AnfSelectClause) : string := let '(MkAnfSelectClause ch _ _) := c in ch.
Definition clause_body (c : AnfSelectClause) : AnfExpr := let '(MkAnfSelectClause _ _ b) := c in b.

Record AnfBinding : Type := MkAnfBinding {
  ab_source_ref : NodeRef;
  ab_name : string;
  ab_expr : AnfExpr;
}.

(* ------------------------------------------------------------------ *)
(** ** Induction *)

(** The immediate sub-expressions, in source order. *)
Definition children (e : AnfExpr) : list AnfExpr :=
  match e with
  | ALet _ v b => [v; b]
  | AIf _ t f => [t; f]
  | AReturn b | AFieldUpdate _ _ b | ALoop b | ABreak b | AWhileLoop _ b
  | AShortCircuitAnd _ b | AShortCircuitOr _ b | ALambda _ _ b | ATaskGroup b
  | ATimeout _ b | AForEach _ _ b => [b]
  | ASeq l | ATupleNew l | AListNew l => l
  | AMatch _ arms => arm_body <$> arms
  | ARecordNew fields => fields.*2
  | AVariantNew _ (Some p) => [p]
  | ASelect branches => clause_body <$> branches
  | _ => []
  end.

(** Structural induction: a property holds of an expression when it holds of
    all its immediate sub-expressions. *)
Lemma AnfExpr_children_ind (P : AnfExpr → Prop) :
  (∀ e, Forall P (children e) → P e) → ∀ e, P e.
Proof.
  intros Hstep. fix IH 1. intros e.
  assert (Hl : ∀ l : list AnfExpr, Forall P l).
  { fix go 1. intros [|x l]; constructor; [apply IH|apply go]. }
  assert (Ha : ∀ l : list AnfMatchArm, Forall P (arm_body <$> l)).
  { fix go 1. intros [|[? x] l]; csimpl; constructor; [apply IH|apply go]. }
  assert (Hc : ∀ l : list AnfSelectClause, Forall P (clause_body <$> l)).
  { fix go 1. intros [|[? ? x] l]; csimpl; constructor; [apply IH|apply go]. }
  assert (Hf : ∀ l : list (string * AnfExpr), Forall P l.*2).
  { fix go 1. intros [|[? x] l]; csimpl; constructor; [apply IH|apply go]. }
  apply Hstep. destruct e as [| | | | | | | | | | | | |? [p|]| | | | | | | | | | | | | | | | | | | |
    | | | | | | | | | | | |]; simpl;
    first [apply Ha | apply Hc | apply Hf | apply (Forall_nil_2 P)
          | apply Forall_singleton, IH | apply Forall_cons; split; [apply IH|apply Forall_singleton, IH]
          | apply Hl].
Qed.

(* ------------------------------------------------------------------ *)
(** ** Constructor patterns *)

Definition is_whitespace (c : ascii) : bool :=
  let n := N_of_ascii c in ((9 <=? n) && (n <=? 13) || (n =? 32))%N.

Fixpoint trim_start (s : string) : string :=
  match s with
  | String c s' => if is_whitespace c then trim_start s' else s
  | EmptyString => s
  end.

Fixpoint trim_end (s : string) : string :=
  match s with
  | EmptyString => EmptyString
  | String c s' =>
      match trim_end s' with
      | EmptyString => if is_whitespace c then EmptyString else String c EmptyString
      | t => String c t
      end
  end.

Definition trim (s : string) : string := trim_end (trim_start s).

(** [s.strip_suffix(c)] *)
Fixpoint strip_suffix_char (c : ascii) (s : string) : option string :=
  match s with
  | EmptyString => None
  | String a EmptyString => if decide (a = c) then Some EmptyString else None
  | String a s' => String a <$> strip_suffix_char c s'
  end.

(** [Some (tag, Some binding)] for ["Ok(x)"], [Some (tag, None)] for ["None"]. *)
Definition parse_constructor_pattern (pattern : string) : option (string * option string) :=
  let trimmed := trim pattern in
  match trimmed with
  | EmptyString => None
  | String first_char _ =>
      if negb (ascii_is_upper first_char) then None
      else
        match split_once "(" trimmed with
        | Some (before, after) =>
            let tag := trim before in
            after ← strip_suffix_char ")" (trim after);
            let binding := trim after in
            if negb (no_char "(" binding) || negb (no_char "," binding) then None
            else Some (tag, Some binding)
        | None => Some (trimmed, None)
        end
  end.

Definition arm_payload_binding (pattern : string) : option string :=
  '(_, binding) ← parse_constructor_pattern pattern;
  name ← binding;
  if decide (name = "_") then None else Some name.

Example arm_payload_ok : arm_payload_binding " Ok( x ) " = Some "x".
Proof. reflexivity. Qed.
Example arm_payload_nested : arm_payload_binding "Ok(Some(x))" = None.
Proof. reflexivity. Qed.
Example arm_payload_malformed : arm_payload_binding "Ok(" = None.
Proof. reflexivity. Qed.

(* ------------------------------------------------------------------ *)
(** ** Free variables, as [collect_free_vars] collects them

    [bound] is the stack of names in scope; the function pushes and pops
    around each scope and so leaves it as it was, which is why the model
    passes it down only.  [out] grows in order of first occurrence. *)

Definition add_free (bound : list string) (out : list string) (name : string) : list string :=
  if decide (name ∈ bound) then out else push_unique name out.

Fixpoint collect_free_vars (expr : AnfExpr) (bound : list string) (out : list string)
  : list string :=
  match expr with
  | AVar name => add_free bound out name
  | ALet name value body =>
      collect_free_vars body (name :: bound) (collect_free_vars value bound out)
  | AIf cond then_branch else_branch =>
      collect_free_vars else_branch bound
        (collect_free_vars then_branch bound (add_free bound out cond))
  | ACall _ args | AEffectCall _ _ args => foldl (add_free bound) out args
  | AReturn inner | AShortCircuitAnd _ inner | AShortCircuitOr _ inner | ALoop inner
  | ABreak inner | AFieldUpdate _ _ inner => collect_free_vars inner bound out
  | AWhileLoop cond body => collect_free_vars body bound (add_free bound out cond)
  | ASeq exprs | ATupleNew exprs | AListNew exprs =>
      foldl (λ out e, collect_free_vars e bound out) out exprs
  | AMatch _ arms =>
      foldl (λ out '(MkAnfMatchArm pattern body),
        collect_free_vars body
          (match arm_payload_binding pattern with Some x => x :: bound | None => bound end) out)
        out arms
  | ALambda params captures body =>
      match captures with
      | [] => collect_free_vars body (params ++ bound) out
      | _ => foldl (add_free bound) out captures
      end
  | ARecordNew fields => foldl (λ out '(_, e), collect_free_vars e bound out) out fields
  | AVariantNew _ (Some payload) => collect_free_vars payload bound out
  | _ => out
  end.

(** [binding_params] *)
Definition binding_params (b : AnfBinding) : list string := collect_free_vars (ab_expr b) [] [].

(* ------------------------------------------------------------------ *)
(** ** Purity *)

Fixpoint is_pure (expr : AnfExpr) : bool :=
  match expr with
  | ALiteral _ | AVar _ | ACall _ _ | AFieldGet _ _ | ARecordNew _ | ATupleNew _
  | AVariantNew _ _ | AListNew _ | ALambda _ _ _ => true
  | ALet _ value body => is_pure value && is_pure body
  | AIf _ then_branch else_branch => is_pure then_branch && is_pure else_branch
  | ASeq exprs => forallb is_pure exprs
  | AMatch _ arms => forallb (λ '(MkAnfMatchArm _ body), is_pure body) arms
  | _ => false
  end.

Record PurityBlockReason : Type := MkPurityBlockReason { pbr_shape : string; pbr_reason : string }.

(** [iter().find_map(f)] *)
Fixpoint find_map {A B} (f : A → option B) (l : list A) : option B :=
  match l with
  | [] => None
  | x :: l' => match f x with Some y => Some y | None => find_map f l' end
  end.

Fixpoint purity_blocking_reason (expr : AnfExpr) : option PurityBlockReason :=
  match expr with
  | ALiteral _ | AVar _ | ACall _ _ | AFieldGet _ _ | ARecordNew _ | ATupleNew _
  | AVariantNew _ _ | AListNew _ | ALambda _ _ _ => None
  | ALet _ value body =>
      match purity_blocking_reason value with
      | Some r => Some r
      | None => purity_blocking_reason body
      end
  | AIf _ then_branch else_branch =>
      match purity_blocking_reason then_branch with
      | Some r => Some r
      | None => purity_blocking_reason else_branch
      end
  | ASeq exprs => find_map purity_blocking_reason exprs
  | AMatch _ arms => find_map (λ '(MkAnfMatchArm _ body), purity_blocking_reason body) arms
  | AReturn _ => Some (MkPurityBlockReason "Return" "alters control flow")
  | AFieldUpdate _ _ _ => Some (MkPurityBlockReason "FieldUpdate" "writes derived state")
  | ALoop _ | AWhileLoop _ _ => Some (MkPurityBlockReason "Loop" "may not terminate")
  | ABreak _ | AContinue => Some (MkPurityBlockReason "LoopControl" "alters loop control flow")
  | AShortCircuitAnd _ _ | AShortCircuitOr _ _ =>
      Some (MkPurityBlockReason "ShortCircuit" "conditional evaluation order is observable")
  | AEffectCall _ _ _ | ADispatch _ _ _ =>
      Some (MkPurityBlockReason "EffectCall" "external effect")
  | ATaskSpawn _ _ | ATaskAwait _ | ATaskCancel _ | ATaskGroup _ =>
      Some (MkPurityBlockReason "Task" "scheduler interaction")
  | AChannelSend _ _ | AChannelReceive _ | AChannelNew _ | ASelect _ =>
      Some (MkPurityBlockReason "Channel" "communication effect")
  | ARuntimeCheck _ _ _ | AAssume _ _ | AAbort _ | APlaceholder =>
      Some (MkPurityBlockReason "RuntimeCheck" "runtime validation or trap")
  | AResourceAcquire _ _ | AResourceRelease _ =>
      Some (MkPurityBlockReason "Resource" "resource lifetime effect")
  | ATimeout _ _ => Some (MkPurityBlockReason "Timeout" "time-dependent control flow")
  | ACellNew _ | ACellGet _ | ACellSet _ _ =>
      Some (MkPurityBlockReason "Cell" "mutable cell access")
  | AIndexGet _ _ => Some (MkPurityBlockReason "IndexGet" "bounds-sensitive access")
  | AMapNew _ | ASetNew _ =>
      Some (MkPurityBlockReason "CollectionNew" "collection allocation semantics not modeled as pure")
  | AForEach _ _ _ | AFold _ _ _ =>
      Some (MkPurityBlockReason "Iterator" "iterator evaluation semantics not modeled as pure")
  end.

Fixpoint anf_node_count (expr : AnfExpr) : nat :=
  match expr with
  | ALet _ value body => 1 + anf_node_count value + anf_node_count body
  | AIf _ then_branch else_branch => 1 + anf_node_count then_branch + anf_node_count else_branch
  | AReturn inner | ALoop inner | ABreak inner | ATaskGroup inner | ATimeout _ inner
  | ALambda _ _ inner => 1 + anf_node_count inner
  | ASeq exprs | ATupleNew exprs | AListNew exprs => 1 + sum_list_with anf_node_count exprs
  | ARecordNew fields => 1 + sum_list_with (λ '(_, e), anf_node_count e) fields
  | AFieldUpdate _ _ value => 1 + anf_node_count value
  | AVariantNew _ payload => 1 + from_option anf_node_count 0 payload
  | AMatch _ arms => 1 + sum_list_with (λ '(MkAnfMatchArm _ body), anf_node_count body) arms
  | ASelect branches =>
      1 + sum_list_with (λ '(MkAnfSelectClause _ _ body), anf_node_count body) branches
  | _ => 1
  end.

(** Does the expression mention the variable free?  The [duration] of a
    [Timeout] is not looked at. *)
Fixpoint uses_var (expr : AnfExpr) (name : string) : bool :=
  match expr with
  | AVar var => bool_decide (var = name)
  | ALet binding value body =>
      uses_var value name || (bool_decide (binding ≠ name) && uses_var body name)
  | AIf cond then_branch else_branch =>
      bool_decide (cond = name) || uses_var then_branch name || uses_var else_branch name
  | ACall _ args => bool_decide (name ∈ args)
  | AFieldGet record _ => bool_decide (record = name)
  | AReturn inner | ALoop inner | ABreak inner | ATaskGroup inner | ATimeout _ inner =>
      uses_var inner name
  | AShortCircuitAnd lhs rhs | AShortCircuitOr lhs rhs =>
      bool_decide (lhs = name) || uses_var rhs name
  | ASeq exprs | ATupleNew exprs | AListNew exprs => existsb (λ e, uses_var e name) exprs
  | AMatch scrutinee arms =>
      bool_decide (scrutinee = name) ||
      existsb (λ '(MkAnfMatchArm _ body), uses_var body name) arms
  | ALambda params captures body =>
      bool_decide (name ∈ captures) || (bool_decide (name ∉ params) && uses_var body name)
  | ARecordNew fields => existsb (λ '(_, e), uses_var e name) fields
  | AFieldUpdate record _ value => bool_decide (record = name) || uses_var value name
  | AVariantNew _ payload =>
      match payload with Some p => uses_var p name | None => false end
  | AWhileLoop cond body => bool_decide (cond = name) || uses_var body name
  | AEffectCall _ _ args | ADispatch _ _ args | ATaskSpawn _ args | AResourceAcquire _ args =>
      bool_decide (name ∈ args)
  | AChannelSend channel value | ACellSet channel value =>
      bool_decide (channel = name) || bool_decide (value = name)
  | AChannelReceive channel | AResourceRelease channel | ATaskAwait channel
  | ATaskCancel channel | ACellGet channel | ACellNew channel => bool_decide (channel = name)
  | ARuntimeCheck _ cond _ => bool_decide (cond = name)
  | ASelect branches =>
      existsb (λ '(MkAnfSelectClause channel _ body),
        bool_decide (channel = name) || uses_var body name) branches
  | ALiteral _ | AContinue | AChannelNew _ | AAssume _ _ | AAbort _ | APlaceholder => false
  | AFold init lst func =>
      bool_decide (init = name) || bool_decide (lst = name) || bool_decide (func = name)
  | AIndexGet collection index => bool_decide (collection = name) || bool_decide (index = name)
  | AMapNew entries =>
      existsb (λ '(k, v), bool_decide (k = name) || bool_decide (v = name)) entries
  | ASetNew elements => bool_decide (name ∈ elements)
  | AForEach binding collection body =>
      bool_decide (collection = name) || (bool_decide (binding ≠ name) && uses_var body name)
  end.

Lemma find_map_None {A B} (f : A → option B) l : find_map f l = None ↔ ∀ x, x ∈ l → f x = None.
Proof.
  induction l as [|x l IH]; simpl; [set_solver|]. destruct (f x) as [y|] eqn:E.
  - split; [done|]. intros Hl. rewrite <- E. apply Hl. set_solver.
  - rewrite IH. set_solver.
Qed.

Lemma forallb_elem {A} (f : A → bool) l : forallb f l = true ↔ ∀ x, x ∈ l → f x = true.
Proof. rewrite forallb_forall. by setoid_rewrite list_elem_of_In. Qed.

Lemma purity_blocking_reason_None e : purity_blocking_reason e = None ↔ is_pure e = true.
Proof.
  induction e as [e IH] using AnfExpr_children_ind.
  destruct e; simpl in *; try done.
  - rewrite andb_true_iff. apply Forall_cons in IH as [<- [<- _]%Forall_cons].
    destruct (purity_blocking_reason e1); naive_solver.
  - rewrite andb_true_iff. apply Forall_cons in IH as [<- [<- _]%Forall_cons].
    destruct (purity_blocking_reason e1); naive_solver.
  - rewrite find_map_None, forallb_elem. rewrite Forall_forall in IH. naive_solver.
  - rewrite find_map_None, forallb_elem. rewrite Forall_fmap, Forall_forall in IH.
    split; intros Hall [p b] Hin; specialize (IH _ Hin); specialize (Hall _ Hin); naive_solver.
Qed.
