(* ===== verification/ConstFold.v ===== *)
(** * Constant folding and dead-let elimination

    crates/ail-compiler/src/optimize/const_fold.rs: [fold_call], [restore_env],
    [optimize_expr] and [optimize_bindings].  The mutable map of known constants
    is passed through explicitly; [optimize_expr_env] shows that every call
    hands it back unchanged. *)

From S2P Require Import Prelude Text GraphTypes I64 Anf.

#[local] Open Scope Z_scope.

(** [func] is one of the alternatives of a match arm. *)
Definition named (func : string) (names : list string) : bool := existsb (String.eqb func) names.

Definition ints1 {A} (f : Z → option A) (ints : list Z) : option A :=
  match ints with [a] => f a | _ => None end.
Definition ints2 {A} (f : Z → Z → option A) (ints : list Z) : option A :=
  match ints with [a; b] => f a b | _ => None end.
Definition ints3 {A} (f : Z → Z → Z → option A) (ints : list Z) : option A :=
  match ints with [a; b; c] => f a b c | _ => None end.

Definition int (z : Z) : option LiteralValue := Some (LInt z).
Definition flag (b : bool) : option LiteralValue := Some (LBool b).

Definition clamp (value low high : Z) : Z :=
  if value <? low then low else if value >? high then high else value.

(** The match on [(func, ints)] of [fold_call]. *)
Definition fold_ints (func : string) (ints : list Z) : option LiteralValue :=
  if named func ["i64.add"; "+"; "add"] then ints2 (λ a b, int (wrapping_add a b)) ints
  else if named func ["i64.sub"; "-"; "sub"] then ints2 (λ a b, int (wrapping_sub a b)) ints
  else if named func ["i64.mul"; "*"; "mul"] then ints2 (λ a b, int (wrapping_mul a b)) ints
  else if named func ["i64.div_s"; "/"; "div"] then ints2 (λ a b, LInt <$> checked_div a b) ints
  else if named func ["i64.rem_s"; "%"; "mod"] then ints2 (λ a b, LInt <$> checked_rem a b) ints
  else if named func ["i64.and"; "and"; "int.bit_and"; "int_bit_and"] then
    ints2 (λ a b, int (Z.land a b)) ints
  else if named func ["i64.or"; "or"; "int.bit_or"; "int_bit_or"] then
    ints2 (λ a b, int (Z.lor a b)) ints
  else if named func ["i64.xor"; "xor"; "int.bit_xor"; "int_bit_xor"] then
    ints2 (λ a b, int (Z.lxor a b)) ints
  else if named func ["int.bit_not"; "int_bit_not"] then ints1 (λ value, int (Z.lnot value)) ints
  else if named func ["int.shift_left"; "int_shift_left"] then
    ints2 (λ value amount, int (wrapping_shl value amount)) ints
  else if named func ["int.shift_right"; "int_shift_right"] then
    ints2 (λ value amount, int (wrapping_shr value amount)) ints
  else if named func ["int.shift_right_unsigned"; "int_shift_right_unsigned"] then
    ints2 (λ value amount, int (wrapping_shr_unsigned value amount)) ints
  else if named func ["int.min"; "int_min"] then ints2 (λ a b, int (Z.min a b)) ints
  else if named func ["int.max"; "int_max"] then ints2 (λ a b, int (Z.max a b)) ints
  else if named func ["int.abs_or"; "int_abs_or"] then
    ints2 (λ value fallback, int (default fallback (checked_abs value))) ints
  else if named func ["int.neg_or"; "int_neg_or"] then
    ints2 (λ value fallback, int (default fallback (checked_neg value))) ints
  else if named func ["int.saturating_neg"; "int_saturating_neg"] then
    ints1 (λ value, int (saturating_neg value)) ints
  else if named func ["int.wrapping_add"; "int_wrapping_add"] then
    ints2 (λ a b, int (wrapping_add a b)) ints
  else if named func ["int.wrapping_sub"; "int_wrapping_sub"] then
    ints2 (λ a b, int (wrapping_sub a b)) ints
  else if named func ["int.wrapping_mul"; "int_wrapping_mul"] then
    ints2 (λ a b, int (wrapping_mul a b)) ints
  else if named func ["int.wrapping_neg"; "int_wrapping_neg"] then
    ints1 (λ value, int (wrapping_neg value)) ints
  else if named func ["int.add_or"; "int_add_or"] then
    ints3 (λ a b fallback, int (default fallback (checked_add a b))) ints
  else if named func ["int.sub_or"; "int_sub_or"] then
    ints3 (λ a b fallback, int (default fallback (checked_sub a b))) ints
  else if named func ["int.mul_or"; "int_mul_or"] then
    ints3 (λ a b fallback, int (default fallback (checked_mul a b))) ints
  else if named func ["int.saturating_add"; "int_saturating_add"] then
    ints2 (λ a b, int (saturating_add a b)) ints
  else if named func ["int.saturating_sub"; "int_saturating_sub"] then
    ints2 (λ a b, int (saturating_sub a b)) ints
  else if named func ["int.saturating_mul"; "int_saturating_mul"] then
    ints2 (λ a b, int (saturating_mul a b)) ints
  else if named func ["int.div_or"; "int_div_or"] then
    ints3 (λ value divisor fallback, int (default fallback (checked_div value divisor))) ints
  else if named func ["int.rem_or"; "int_rem_or"] then
    ints3 (λ value divisor fallback, int (default fallback (checked_rem value divisor))) ints
  else if named func ["int.clamp"; "int_clamp"] then
    ints3 (λ value low high, int (clamp value low high)) ints
  else if named func ["i64.eq"; "=="; "eq"] then ints2 (λ a b, flag (a =? b)) ints
  else if named func ["i64.ne"; "!="; "ne"] then ints2 (λ a b, flag (negb (a =? b))) ints
  else if named func ["i64.lt_s"; "<"; "lt"] then ints2 (λ a b, flag (a <? b)) ints
  else if named func ["i64.le_s"; "<="; "le"] then ints2 (λ a b, flag (a <=? b)) ints
  else if named func ["i64.gt_s"; ">"; "gt"] then ints2 (λ a b, flag (a >? b)) ints
  else if named func ["i64.ge_s"; ">="; "ge"] then ints2 (λ a b, flag (a >=? b)) ints
  else None.

Definition literal_int (lit : LiteralValue) : option Z :=
  match lit with
  | LInt value => Some value
  | LBool value => Some (Z.b2z value)
  | _ => None
  end.

Abbreviation Env := (gmap string LiteralValue).

Definition fold_call (func : string) (args : list string) (env : Env) : option LiteralValue :=
  ints ← mapM (λ arg, lit ← env !! arg; literal_int lit) args;
  fold_ints func ints.

(* ------------------------------------------------------------------ *)
(** ** [optimize_expr] *)

Definition restore_env (env : Env) (name : string) (previous : option LiteralValue) : Env :=
  match previous with
  | Some lit => <[name := lit]> env
  | None => delete name env
  end.

(** [into_iter().map(|x| f(x, env)).collect()] with a mutable [env] *)
Definition map_state {A B S} (f : A → S → B * S) : list A → S → list B * S :=
  fix go l s :=
    match l with
    | [] => ([], s)
    | x :: l' =>
        let '(y, s) := f x s in
        let '(k, s) := go l' s in
        (y :: k, s)
    end.

#[global] Arguments map_state : simpl never.

Definition recompute_captures (params : list string) (body : AnfExpr) : list string :=
  collect_free_vars body params [].

Fixpoint optimize_expr (expr : AnfExpr) (env : Env) : AnfExpr * Env :=
  match expr with
  | ALet name value body =>
      let '(value, env) := optimize_expr value env in
      let previous := env !! name in
      let env := match value with ALiteral lit => <[name := lit]> env | _ => delete name env end in
      let '(body, env) := optimize_expr body env in
      let env := restore_env env name previous in
      if is_pure value && negb (uses_var body name) then (body, env)
      else (ALet name value body, env)
  | ACall func args =>
      (match fold_call func args env with
       | Some lit => ALiteral lit
       | None => ACall func args
       end, env)
  | AIf cond then_branch else_branch =>
      match env !! cond with
      | Some (LBool true) | Some (LInt 1) => optimize_expr then_branch env
      | Some (LBool false) | Some (LInt 0) => optimize_expr else_branch env
      | _ =>
          let '(then_branch, env) := optimize_expr then_branch env in
          let '(else_branch, env) := optimize_expr else_branch env in
          (AIf cond then_branch else_branch, env)
      end
  | AReturn inner => let '(inner, env) := optimize_expr inner env in (AReturn inner, env)
  | ASeq exprs => let '(exprs, env) := map_state optimize_expr exprs env in (ASeq exprs, env)
  | ARecordNew fields =>
      let '(fields, env) :=
        map_state (λ '(field, e) env, let '(e, env) := optimize_expr e env in ((field, e), env))
          fields env in
      (ARecordNew fields, env)
  | AFieldUpdate record field value =>
      let '(value, env) := optimize_expr value env in (AFieldUpdate record field value, env)
  | ATupleNew elems =>
      let '(elems, env) := map_state optimize_expr elems env in (ATupleNew elems, env)
  | AVariantNew tag payload =>
      match payload with
      | Some p => let '(p, env) := optimize_expr p env in (AVariantNew tag (Some p), env)
      | None => (AVariantNew tag None, env)
      end
  | AListNew elems =>
      let '(elems, env) := map_state optimize_expr elems env in (AListNew elems, env)
  | ALoop body => let '(body, env) := optimize_expr body env in (ALoop body, env)
  | ABreak value => let '(value, env) := optimize_expr value env in (ABreak value, env)
  | AShortCircuitAnd lhs rhs =>
      let '(rhs, env) := optimize_expr rhs env in (AShortCircuitAnd lhs rhs, env)
  | AShortCircuitOr lhs rhs =>
      let '(rhs, env) := optimize_expr rhs env in (AShortCircuitOr lhs rhs, env)
  | AMatch scrutinee arms =>
      let '(arms, env) :=
        map_state (λ '(MkAnfMatchArm pattern body) env,
          let '(body, env) := optimize_expr body env in (MkAnfMatchArm pattern body, env))
          arms env in
      (AMatch scrutinee arms, env)
  | ALambda params _ body =>
      let nested_env := foldl (λ m p, delete p m) env params in
      let '(optimized_body, _) := optimize_expr body nested_env in
      (ALambda params (recompute_captures params optimized_body) optimized_body, env)
  | ATaskGroup body => let '(body, env) := optimize_expr body env in (ATaskGroup body, env)
  | ATimeout duration body =>
      let '(body, env) := optimize_expr body env in (ATimeout duration body, env)
  | other => (other, env)
  end.

Definition optimize_bindings (bindings : list AnfBinding) : list AnfBinding :=
  (λ b, MkAnfBinding (ab_source_ref b) (ab_name b) (optimize_expr (ab_expr b) ∅).1) <$> bindings.

(* ------------------------------------------------------------------ *)
(** ** The environment is restored *)

Lemma map_state_pure {A B S} (f : A → S → B * S) l s :
  (∀ x, x ∈ l → (f x s).2 = s) → map_state f l s = ((λ x, (f x s).1) <$> l, s).
Proof.
  induction l as [|x l IH]; intros Hf; [done|]. csimpl. unfold map_state in *.
  destruct (f x s) as [y s'] eqn:E.
  assert (s' = s) as -> by (specialize (Hf x (list_elem_of_here _ _)); by rewrite E in Hf).
  rewrite IH by (intros; apply Hf; set_solver). done.
Qed.

Lemma restore_env_insert env name lit : restore_env (<[name := lit]> env) name (env !! name) = env.
Proof.
  destruct (env !! name) as [old|] eqn:E; simpl.
  - rewrite insert_insert_eq. by rewrite insert_id.
  - by rewrite delete_insert_id.
Qed.

Lemma restore_env_delete env name : restore_env (delete name env) name (env !! name) = env.
Proof.
  destruct (env !! name) as [old|] eqn:E; simpl.
  - by rewrite insert_delete_id.
  - by rewrite !delete_id by (rewrite ?lookup_delete_eq; done).
Qed.

(** [optimize_expr] leaves the map of constants as it found it. *)
Lemma optimize_expr_env e env : (optimize_expr e env).2 = env.
Proof.
  revert env. induction e as [e IH] using AnfExpr_children_ind. intros env.
  destruct e; simpl in *;
    try (rewrite Forall_singleton in IH; specialize (IH env);
         destruct (optimize_expr _ env); simpl in *; congruence); try done.
  - apply Forall_cons in IH as [IHv [IHb _]%Forall_cons].
    specialize (IHv env). destruct (optimize_expr e1 env) as [v env1]. simpl in IHv. subst env1.
    set (env2 := match v with ALiteral lit => _ | _ => _ end).
    specialize (IHb env2). destruct (optimize_expr e2 env2) as [b env3]. simpl in IHb. subst env3.
    assert (Hr : restore_env env2 name (env !! name) = env).
    { unfold env2. destruct v; auto using restore_env_insert, restore_env_delete. }
    destruct (is_pure v && negb (uses_var b name)); by rewrite Hr.
  - apply Forall_cons in IH as [IHt [IHf _]%Forall_cons].
    specialize (IHt env). specialize (IHf env).
    assert (Hboth : (let '(t, env') := optimize_expr e1 env in
      let '(f, env') := optimize_expr e2 env' in (AIf cond t f, env')).2 = env).
    { destruct (optimize_expr e1 env) as [t env1]. simpl in IHt. subst env1.
      by destruct (optimize_expr e2 env). }
    by repeat case_match.
  - rewrite map_state_pure; [done|]. rewrite Forall_forall in IH. intros x Hx. by apply IH.
  - rewrite map_state_pure; [done|]. rewrite Forall_fmap, Forall_forall in IH.
    intros [p b] Hx. specialize (IH _ Hx env). simpl in IH. by destruct (optimize_expr b env).
  - by destruct (optimize_expr e _).
  - rewrite map_state_pure; [done|]. rewrite Forall_fmap, Forall_forall in IH.
    intros [p b] Hx. specialize (IH _ Hx env). simpl in IH. by destruct (optimize_expr b env).
  - rewrite map_state_pure; [done|]. rewrite Forall_forall in IH. intros x Hx. by apply IH.
  - destruct payload as [p|]; [|done]. rewrite Forall_singleton in IH. specialize (IH env).
    by destruct (optimize_expr p env).
  - rewrite map_state_pure; [done|]. rewrite Forall_forall in IH. intros x Hx. by apply IH.
Qed.

(* ------------------------------------------------------------------ *)
(** ** Folded literals are 64-bit integers *)

Definition lit_in_range (lit : LiteralValue) : Prop :=
  match lit with LInt n => in_i64 n | _ => True end.

Lemma literal_int_range lit z : lit_in_range lit → literal_int lit = Some z → in_i64 z.
Proof. destruct lit as [[]| | | | |]; intros ? [= <-]; done || i64_lia. Qed.

Lemma checked_div_range a b y : checked_div a b = Some y → in_i64 y.
Proof. unfold checked_div. case_decide; [done|]. apply checked_range. Qed.

Lemma checked_rem_range a b y :
  in_i64 a → in_i64 b → checked_rem a b = Some y → in_i64 y.
Proof. intros ? ? (? & _ & ->)%checked_rem_Some. auto with i64. Qed.

Lemma checked_rem_or_range a b d :
  in_i64 a → in_i64 b → in_i64 d → in_i64 (default d (checked_rem a b)).
Proof.
  intros. destruct (checked_rem a b) as [r|] eqn:E; simpl; [|done]. by apply (checked_rem_range a b).
Qed.

Lemma checked_div_or_range a b d : in_i64 d → in_i64 (default d (checked_div a b)).
Proof. intros. unfold checked_div. case_decide; simpl; auto with i64. Qed.

Lemma clamp_range value low high :
  in_i64 value → in_i64 low → in_i64 high → in_i64 (clamp value low high).
Proof. intros. unfold clamp. by repeat case_match. Qed.

#[export] Hint Resolve checked_rem_or_range checked_div_or_range clamp_range : i64.

(** An arm of the match: the operands it has, the literal it gives. *)
Ltac fold_arm :=
  match goal with
  | |- ints1 _ ?l = Some _ → _ => destruct l as [|? []]; try done
  | |- ints2 _ ?l = Some _ → _ => destruct l as [|? [|? []]]; try done
  | |- ints3 _ ?l = Some _ → _ => destruct l as [|? [|? [|? []]]]; try done
  end; rewrite ?Forall_cons in *; destruct_and?;
  first [intros [= <-] | simpl; intros (? & ? & ->)%fmap_Some].

Lemma fold_ints_range func ints lit :
  Forall in_i64 ints → fold_ints func ints = Some lit → lit_in_range lit.
Proof.
  intros Hints. unfold fold_ints.
  repeat (case_match;
    [fold_arm; simpl; try done; unfold wrapping_add, wrapping_sub, wrapping_mul, wrapping_neg,
       wrapping_shl, wrapping_shr_unsigned, saturating_add, saturating_sub, saturating_mul,
       saturating_neg; auto with i64|]); [.. |done].
  all: try by apply checked_or_range.
  - eapply checked_div_range; eauto.
  - eapply checked_rem_range; [..|eassumption]; done.
  - unfold wrapping_shr. apply shiftr_range; [apply as_shift_range|done].
  - i64_lia.
  - i64_lia.
Qed.
