(* ===== verification/Dce.v ===== *)
(** * Dead pure elements of sequences

    crates/ail-compiler/src/optimize/dce.rs: [elim_dead_expr] and
    [eliminate_dead_pure]. *)

From S2P Require Import Prelude Text GraphTypes I64 Anf ConstFold.

(** The [filter_map] over the enumerated elements: a pure element that is not
    the last one is dropped. *)
Fixpoint drop_dead (exprs : list AnfExpr) : list AnfExpr :=
  match exprs with
  | [] => []
  | [e] => [e]
  | e :: exprs' => if is_pure e then drop_dead exprs' else e :: drop_dead exprs'
  end.

(** The match on [filtered.len()]. *)
Definition seq_of (filtered : list AnfExpr) : AnfExpr :=
  match filtered with
  | [] => ALiteral LUnit
  | [e] => e
  | _ => ASeq filtered
  end.

Fixpoint elim_dead_expr (expr : AnfExpr) : AnfExpr :=
  match expr with
  | ASeq exprs => seq_of (drop_dead (map elim_dead_expr exprs))
  | ALet name value body => ALet name (elim_dead_expr value) (elim_dead_expr body)
  | AIf cond then_branch else_branch =>
      AIf cond (elim_dead_expr then_branch) (elim_dead_expr else_branch)
  | AReturn inner => AReturn (elim_dead_expr inner)
  | ALoop body => ALoop (elim_dead_expr body)
  | ABreak value => ABreak (elim_dead_expr value)
  | ALambda params captures body => ALambda params captures (elim_dead_expr body)
  | ATaskGroup body => ATaskGroup (elim_dead_expr body)
  | ATimeout duration body => ATimeout duration (elim_dead_expr body)
  | AMatch scrutinee arms =>
      AMatch scrutinee
        (map (λ '(MkAnfMatchArm pattern body), MkAnfMatchArm pattern (elim_dead_expr body)) arms)
  | ARecordNew fields => ARecordNew (map (λ '(f, e), (f, elim_dead_expr e)) fields)
  | AFieldUpdate record field value => AFieldUpdate record field (elim_dead_expr value)
  | ATupleNew elems => ATupleNew (map elim_dead_expr elems)
  | AVariantNew tag payload =>
      AVariantNew tag (match payload with Some p => Some (elim_dead_expr p) | None => None end)
  | AListNew elems => AListNew (map elim_dead_expr elems)
  | other => other
  end.

Definition eliminate_dead_pure (bindings : list AnfBinding) : list AnfBinding :=
  (λ b, MkAnfBinding (ab_source_ref b) (ab_name b) (elim_dead_expr (ab_expr b))) <$> bindings.

(* ------------------------------------------------------------------ *)
(** ** Effects and the purity test *)

(** The operations with an effect: capability calls, dispatches, and task,
    channel, resource and cell operations. *)
Definition is_effect (e : AnfExpr) : bool :=
  match e with
  | AEffectCall _ _ _ | ADispatch _ _ _ | ATaskSpawn _ _ | ATaskAwait _ | ATaskCancel _
  | AChannelSend _ _ | AChannelReceive _ | AChannelNew _ | AResourceAcquire _ _
  | AResourceRelease _ | ACellNew _ | ACellGet _ | ACellSet _ _ => true
  | _ => false
  end.

(** The effect operations of an expression, in source order.  A lambda runs its
    body only when called. *)
Fixpoint effects (e : AnfExpr) : list AnfExpr :=
  match e with
  | ALet _ v b => effects v ++ effects b
  | AIf _ t f => effects t ++ effects f
  | AReturn b | AFieldUpdate _ _ b | ALoop b | ABreak b | AWhileLoop _ b
  | AShortCircuitAnd _ b | AShortCircuitOr _ b | ATaskGroup b
  | ATimeout _ b | AForEach _ _ b => effects b
  | ASeq l | ATupleNew l | AListNew l => l ≫= effects
  | AMatch _ arms => arms ≫= λ '(MkAnfMatchArm _ b), effects b
  | ARecordNew fields => fields ≫= λ '(_, b), effects b
  | AVariantNew _ (Some p) => effects p
  | ASelect branches => branches ≫= λ '(MkAnfSelectClause _ _ b), effects b
  | _ => if is_effect e then [e] else []
  end.

Definition is_data (e : AnfExpr) : bool :=
  match e with
  | ARecordNew _ | ATupleNew _ | AListNew _ | AVariantNew _ _ => true
  | _ => false
  end.

#[local] Set Warnings "-register-all".

(** Data constructors hold no effect: what the purity test takes for granted. *)
Inductive data_pure : AnfExpr → Prop :=
| data_pure_intro e :
    (is_data e = true → effects e = []) → Forall data_pure (children e) → data_pure e.

Lemma data_pure_children e : data_pure e → Forall data_pure (children e).
Proof. by intros []. Qed.

Lemma pure_no_effect e : data_pure e → is_pure e = true → effects e = [].
Proof.
  induction e as [e IH] using AnfExpr_children_ind. intros Hd.
  pose proof (data_pure_children e Hd) as Hch. destruct Hd as [e Hdata _].
  destruct e; simpl in IH, Hch, Hdata |- *; auto; try done.
  - rewrite andb_true_iff. apply Forall_cons in IH as [IHv [IHb _]%Forall_cons].
    apply Forall_cons in Hch as [? [? _]%Forall_cons]. intros [? ?]. by rewrite IHv, IHb.
  - rewrite andb_true_iff. apply Forall_cons in IH as [IHv [IHb _]%Forall_cons].
    apply Forall_cons in Hch as [? [? _]%Forall_cons]. intros [? ?]. by rewrite IHv, IHb.
  - rewrite forallb_elem. rewrite Forall_forall in IH, Hch. intros Hp.
    apply bind_nil_iff. auto.
  - rewrite forallb_elem. rewrite Forall_fmap, Forall_forall in IH, Hch. intros Hp.
    apply bind_nil_iff. intros [p b] Hx. apply (IH _ Hx (Hch _ Hx) (Hp _ Hx)).
Qed.

Lemma drop_dead_effects l : Forall data_pure l → drop_dead l ≫= effects = l ≫= effects.
Proof.
  induction l as [|e l IH]; [done|]. intros [He Hl]%Forall_cons.
  destruct l as [|e' l]; [done|]. specialize (IH Hl).
  change (drop_dead (e :: e' :: l)) with
    (if is_pure e then drop_dead (e' :: l) else e :: drop_dead (e' :: l)).
  rewrite (bind_cons effects e). case_match eqn:E.
  - by rewrite (pure_no_effect e).
  - by rewrite bind_cons, IH.
Qed.

Lemma drop_dead_elem l e : e ∈ drop_dead l → e ∈ l.
Proof.
  induction l as [|x l IH]; [done|]. destruct l as [|y l]; [done|].
  change (drop_dead (x :: y :: l)) with
    (if is_pure x then drop_dead (y :: l) else x :: drop_dead (y :: l)).
  case_match; set_solver.
Qed.

Lemma seq_of_effects l : effects (seq_of l) = l ≫= effects.
Proof. destruct l as [|e [|e' l]]; [done| |done]. by rewrite bind_cons, app_nil_r. Qed.

Lemma seq_of_data_pure l : Forall data_pure l → data_pure (seq_of l).
Proof.
  intros Hl. destruct l as [|e [|e' l]]; [by constructor| |by constructor].
  by rewrite Forall_singleton in Hl.
Qed.

(** What the pass must keep of an expression. *)
Definition keeps_effects (e : AnfExpr) : Prop :=
  data_pure e → effects (elim_dead_expr e) = effects e ∧ data_pure (elim_dead_expr e).

Lemma list_keeps_effects l :
  Forall keeps_effects l → Forall data_pure l →
  (map elim_dead_expr l ≫= effects = l ≫= effects) ∧ Forall data_pure (map elim_dead_expr l).
Proof.
  intros IH Hl. induction l as [|e l IHl]; [done|].
  apply Forall_cons in IH as [IHe IH]. apply Forall_cons in Hl as [He Hl].
  destruct (IHl IH Hl) as [E F]. destruct (IHe He) as [Ee Fe]. csimpl.
  by rewrite E, Ee, Forall_cons.
Qed.

Lemma effects_arms arms :
  (arms ≫= λ '(MkAnfMatchArm _ b), effects b) = (arm_body <$> arms) ≫= effects.
Proof. induction arms as [|[p b] arms IH]; csimpl; [done|]. by rewrite IH. Qed.

Lemma effects_fields (fields : list (string * AnfExpr)) :
  (fields ≫= λ '(_, b), effects b) = fields.*2 ≫= effects.
Proof. induction fields as [|[f b] fields IH]; csimpl; [done|]. by rewrite IH. Qed.

Lemma elim_arms arms :
  arm_body <$> map (λ '(MkAnfMatchArm p b), MkAnfMatchArm p (elim_dead_expr b)) arms =
  map elim_dead_expr (arm_body <$> arms).
Proof. induction arms as [|[p b] arms IH]; csimpl; [done|]. by f_equal. Qed.

Lemma elim_fields (fields : list (string * AnfExpr)) :
  (map (λ '(f, e), (f, elim_dead_expr e)) fields).*2 = map elim_dead_expr fields.*2.
Proof. induction fields as [|[f b] fields IH]; csimpl; [done|]. by f_equal. Qed.

Lemma elim_dead_keeps e : keeps_effects e.
Proof.
  induction e as [e IH] using AnfExpr_children_ind. intros Hd.
  pose proof (data_pure_children e Hd) as Hch. pose proof Hd as Hd'. destruct Hd as [e Hdata _].
  destruct e; simpl in IH, Hch, Hdata |- *; try done;
    try (rewrite Forall_singleton in IH, Hch; destruct (IH Hch) as [E F]; rewrite ?E;
         split; [done|constructor; [done|by constructor]]).
  - apply Forall_cons in IH as [IHv [IHb _]%Forall_cons].
    apply Forall_cons in Hch as [Hv [Hb _]%Forall_cons].
    destruct (IHv Hv) as [-> ?], (IHb Hb) as [-> ?]. split; [done|].
    constructor; [done|]. simpl. by rewrite !Forall_cons, Forall_nil.
  - apply Forall_cons in IH as [IHv [IHb _]%Forall_cons].
    apply Forall_cons in Hch as [Hv [Hb _]%Forall_cons].
    destruct (IHv Hv) as [-> ?], (IHb Hb) as [-> ?]. split; [done|].
    constructor; [done|]. simpl. by rewrite !Forall_cons, Forall_nil.
  - destruct (list_keeps_effects exprs IH Hch) as [E F].
    rewrite seq_of_effects, drop_dead_effects by done. split; [done|]. apply seq_of_data_pure.
    rewrite Forall_forall in F |- *. intros x Hx. apply F. by apply drop_dead_elem.
  - rewrite !effects_arms, elim_arms. destruct (list_keeps_effects _ IH Hch) as [E F].
    split; [done|]. constructor; [done|]. simpl. by rewrite elim_arms.
  - rewrite !effects_fields, elim_fields in *. destruct (list_keeps_effects _ IH Hch) as [E F].
    split; [done|]. constructor; simpl; rewrite ?effects_fields, elim_fields; [|done].
    intros _. rewrite E. by apply Hdata.
  - destruct (list_keeps_effects _ IH Hch) as [E F]. split; [done|].
    constructor; simpl; [|done]. intros _. rewrite E. by apply Hdata.
  - destruct payload as [p|]; [|done]. rewrite Forall_singleton in IH, Hch.
    destruct (IH Hch) as [E F]. split; [done|].
    constructor; simpl; [|by constructor]. intros _. rewrite E. by apply Hdata.
  - destruct (list_keeps_effects _ IH Hch) as [E F]. split; [done|].
    constructor; simpl; [|done]. intros _. rewrite E. by apply Hdata.
Qed.

(** Dead-element elimination removes no effect.  When the data constructors
    of the bindings hold no effect operations, the pass keeps their effect
    operations, all of them and in order, whatever else it drops. *)
Theorem dce_keeps_effects (bindings : list AnfBinding)
    (Hdata : Forall (λ b, data_pure (ab_expr b)) bindings) :
  (λ b, effects (ab_expr b)) <$> eliminate_dead_pure bindings =
  (λ b, effects (ab_expr b)) <$> bindings.
Proof.
  unfold eliminate_dead_pure. rewrite <- list_fmap_compose. apply list_fmap_ext.
  rewrite Forall_lookup in Hdata. intros i b Hb. simpl. by apply elim_dead_keeps, (Hdata i b Hb).
Qed.

(** [{ x; log.write(m); t = (x, x); log.flush(); x }] *)
Definition effects_example : AnfExpr :=
  ASeq [AVar "x"; AEffectCall "log" "write" ["m"]; ATupleNew [AVar "x"; AVar "x"];
        AEffectCall "log" "flush" []; AVar "x"].

Lemma dce_keeps_effects_witness :
  (λ b, effects (ab_expr b)) <$> eliminate_dead_pure [MkAnfBinding 1%N "fn.g" effects_example] =
  [[AEffectCall "log" "write" ["m"]; AEffectCall "log" "flush" []]].
Proof.
  apply (dce_keeps_effects [MkAnfBinding 1%N "fn.g" effects_example]).
  apply Forall_singleton. simpl.
  repeat first
    [ apply Forall_nil_2 | apply Forall_cons_2
    | apply data_pure_intro; [first [done | reflexivity]|simpl] ].
Defined.
