(* ===== verification/AnfEval.v ===== *)
(** * Meaning of the effect-free ANF fragment, and the optimiser's soundness

    A reference evaluator for the part of [AnfExpr] that neither touches memory
    shared with other code nor leaves the expression early: literals,
    variables, lets, branches, sequences, data construction, field access, the
    short-circuit operators and calls.  What a called function computes is the
    interface [CallSemantics]; the optimiser relies on [FoldingLaws], which the
    generated WASM code is shown to satisfy in WasmInt.v.

    [None] stands for a trap, an unbound name, or an expression outside the
    fragment.  A branch condition is true when its word is not zero, as
    crates/ail-compiler/src/wasm_emit/control.rs ([emit_condition_get]) tests
    it; booleans are the words 0 and 1. *)

From S2P Require Import Prelude Text GraphTypes I64 Anf ConstFold Dce.

#[local] Open Scope Z_scope.

#[local] Set Warnings "-register-all".

Inductive Value : Type :=
| VWord (z : Z)
| VFloat (bits : N)
| VText (s : string)
| VUnit
| VBytes (bytes : list N)
| VRecord (fields : list (string * Value))
| VTuple (elems : list Value)
| VVariant (tag : string) (payload : option Value)
| VList (elems : list Value).

Definition literal_value (lit : LiteralValue) : Value :=
  match lit with
  | LBool b => VWord (Z.b2z b)
  | LInt n => VWord n
  | LFloat bits => VFloat bits
  | LText s => VText s
  | LUnit => VUnit
  | LBytes bytes => VBytes bytes
  end.

(** What the functions an expression calls compute. *)
Class CallSemantics : Type := call_function : string → list Value → option Value.

(** What the optimiser promises to its client when it folds a call: running the
    call gives the folded literal. *)
Class FoldingLaws `{CallSemantics} : Prop :=
  call_folds : ∀ func ints lit,
    Forall in_i64 ints → fold_ints func ints = Some lit →
    call_function func (VWord <$> ints) = Some (literal_value lit).

Definition as_word (v : Value) : option Z := match v with VWord z => Some z | _ => None end.

Definition field_value (field : string) (v : Value) : option Value :=
  match v with
  | VRecord fields => snd <$> find_first (λ p, p.1 = field) fields
  | _ => None
  end.

Abbreviation Scope := (gmap string Value).

Fixpoint eval `{CallSemantics} (ρ : Scope) (e : AnfExpr) : option Value :=
  match e with
  | ALiteral lit => Some (literal_value lit)
  | AVar x => ρ !! x
  | ALet x value body => w ← eval ρ value; eval (<[x := w]> ρ) body
  | AIf cond then_branch else_branch =>
      w ← ρ !! cond; z ← as_word w;
      if decide (z = 0) then eval ρ else_branch else eval ρ then_branch
  | ACall func args => ws ← mapM (λ x, ρ !! x) args; call_function func ws
  | AFieldGet record field => w ← ρ !! record; field_value field w
  | ASeq exprs => ws ← mapM (eval ρ) exprs; Some (default VUnit (last ws))
  | ARecordNew fields =>
      ws ← mapM (λ '(field, e), w ← eval ρ e; Some (field, w)) fields; Some (VRecord ws)
  | ATupleNew elems => ws ← mapM (eval ρ) elems; Some (VTuple ws)
  | AVariantNew tag payload =>
      match payload with
      | Some p => w ← eval ρ p; Some (VVariant tag (Some w))
      | None => Some (VVariant tag None)
      end
  | AListNew elems => ws ← mapM (eval ρ) elems; Some (VList ws)
  | AShortCircuitAnd lhs rhs =>
      w ← ρ !! lhs; z ← as_word w; if decide (z = 0) then Some (VWord 0) else eval ρ rhs
  | AShortCircuitOr lhs rhs =>
      w ← ρ !! lhs; z ← as_word w; if decide (z = 0) then eval ρ rhs else Some (VWord 1)
  | _ => None
  end.

(* ------------------------------------------------------------------ *)
(** ** Unused variables do not matter *)

Lemma existsb_false {A} (f : A → bool) l : existsb f l = false ↔ ∀ x, x ∈ l → f x = false.
Proof.
  induction l as [|x l IH]; simpl; [set_solver|].
  rewrite orb_false_iff, IH. set_solver.
Qed.

Lemma mapM_ext_elem {A B} (f g : A → option B) l :
  (∀ x, x ∈ l → f x = g x) → mapM f l = mapM g l.
Proof.
  induction l as [|x l IH]; intros Hl; [done|]. simpl.
  rewrite Hl by set_solver. destruct (g x); [|done]. simpl.
  rewrite IH; [done|]. intros; apply Hl; set_solver.
Qed.

Lemma mapM_cons {A B} (f : A → option B) x l :
  mapM f (x :: l) = (y ← f x; k ← mapM f l; Some (y :: k)).
Proof. done. Qed.

(** A step that keeps every defined result keeps the results of a list. *)
Lemma mapM_mono {A B C} (f : A → option C) (g : B → option C) (h : A → B) l ws :
  (∀ x w, x ∈ l → f x = Some w → g (h x) = Some w) →
  mapM f l = Some ws → mapM g (h <$> l) = Some ws.
Proof.
  revert ws. induction l as [|x l IH]; intros ws Hl; [done|]. rewrite fmap_cons. simpl.
  intros (w & Hw & (ws' & Hws & [= <-])%bind_Some)%bind_Some.
  rewrite (Hl x w) by (set_solver || done). simpl.
  rewrite (IH ws') by (done || (intros; apply Hl; set_solver)). done.
Qed.

Section Eval.
Context `{CallSemantics}.

Lemma eval_unused e x w ρ : uses_var e x = false → eval (<[x := w]> ρ) e = eval ρ e.
Proof.
  revert ρ. induction e as [e IH] using AnfExpr_children_ind. intros ρ.
  assert (Hlk : ∀ y, y ≠ x → <[x := w]> ρ !! y = ρ !! y) by (intros; by apply lookup_insert_ne).
  destruct e; simpl in *; try done; rewrite ?orb_false_iff, ?bool_decide_eq_false, ?Forall_singleton in *.
  - intros ?. by apply Hlk.
  - apply Forall_cons in IH as [IHv [IHb _]%Forall_cons]. intros [Hv Hb].
    rewrite IHv by done. destruct (eval ρ e1) as [u|]; [|done]. simpl.
    destruct (decide (name = x)) as [->|Hne]; [by rewrite insert_insert_eq|].
    rewrite insert_insert_ne by done. apply IHb.
    by rewrite bool_decide_true in Hb.
  - apply Forall_cons in IH as [IHt [IHf _]%Forall_cons]. intros [[Hc Ht] Hf].
    rewrite Hlk, IHt, IHf by done. done.
  - intros Hx. rewrite (mapM_ext_elem _ (λ y, ρ !! y)); [done|]. intros y Hy. apply Hlk. by intros ->.
  - intros ?. by rewrite Hlk.
  - rewrite existsb_false. intros Hx. rewrite Forall_forall in IH.
    rewrite (mapM_ext_elem _ (eval ρ)) by auto. done.
  - rewrite existsb_false. intros Hx. rewrite Forall_fmap, Forall_forall in IH.
    rewrite (mapM_ext_elem _ (λ '(field, e), w ← eval ρ e; Some (field, w))); [done|].
    intros [f e] Hin. simpl in *. by rewrite (IH (f, e) Hin) by apply (Hx (f, e) Hin).
  - rewrite existsb_false. intros Hx. rewrite Forall_forall in IH.
    rewrite (mapM_ext_elem _ (eval ρ)) by auto. done.
  - destruct payload as [p|]; [|done]. rewrite Forall_singleton in IH. intros ?. by rewrite IH.
  - rewrite existsb_false. intros Hx. rewrite Forall_forall in IH.
    rewrite (mapM_ext_elem _ (eval ρ)) by auto. done.
  - intros [? ?]. by rewrite Hlk, IH.
  - intros [? ?]. by rewrite Hlk, IH.
Qed.
End Eval.

(* ------------------------------------------------------------------ *)
(** ** Soundness of constant folding *)

(** The integer literals of an expression are [i64]s. *)
Inductive lits_ok : AnfExpr → Prop :=
| lits_ok_intro e :
    (∀ lit, e = ALiteral lit → lit_in_range lit) → Forall lits_ok (children e) → lits_ok e.

(** The known constants are the values of their variables. *)
Definition env_agrees (env : Env) (ρ : Scope) : Prop :=
  ∀ x lit, env !! x = Some lit → ρ !! x = Some (literal_value lit) ∧ lit_in_range lit.

(** The environment in which the body of a let is optimised. *)
Definition bind_const (value : AnfExpr) (x : string) (env : Env) : Env :=
  match value with ALiteral lit => <[x := lit]> env | _ => delete x env end.

Abbreviation opt e env := (optimize_expr e env).1.

Lemma lits_ok_children e : lits_ok e → Forall lits_ok (children e).
Proof. by intros []. Qed.

Lemma lits_ok_literal lit : lits_ok (ALiteral lit) → lit_in_range lit.
Proof. inversion 1. eauto. Qed.

Lemma opt_let x v b env :
  opt (ALet x v b) env =
  let v' := opt v env in
  let b' := opt b (bind_const v' x env) in
  if is_pure v' && negb (uses_var b' x) then b' else ALet x v' b'.
Proof.
  simpl. pose proof (optimize_expr_env v env) as Hv.
  destruct (optimize_expr v env) as [v' env']. simpl in *. subst env'.
  fold (bind_const v' x env). destruct (optimize_expr b _) as [b' env']. simpl. by case_match.
Qed.

(** The branch a known condition selects. *)
Definition const_cond (lit : option LiteralValue) : option bool :=
  match lit with
  | Some (LBool b) => Some b
  | Some (LInt 1) => Some true
  | Some (LInt 0) => Some false
  | _ => None
  end.

Lemma opt_if c t f env :
  opt (AIf c t f) env =
  match const_cond (env !! c) with
  | Some true => opt t env
  | Some false => opt f env
  | None => AIf c (opt t env) (opt f env)
  end.
Proof.
  assert (Hb : (let '(t', env') := optimize_expr t env in
    let '(f', env') := optimize_expr f env' in (AIf c t' f', env')).1 =
    AIf c (opt t env) (opt f env)).
  { pose proof (optimize_expr_env t env) as Ht. destruct (optimize_expr t env) as [t' env'].
    simpl in Ht |- *. subst env'. by destruct (optimize_expr f env). }
  simpl. destruct (env !! c) as [[[]|n| | | |]|]; try exact Hb; try done.
  destruct n as [|[]|]; try exact Hb; done.
Qed.

Lemma opt_list l env : map_state optimize_expr l env = ((λ e, opt e env) <$> l, env).
Proof. apply map_state_pure. intros. apply optimize_expr_env. Qed.

Lemma opt_fields (l : list (string * AnfExpr)) env :
  map_state (λ '(field, e) env, let '(e, env) := optimize_expr e env in ((field, e), env)) l env =
  ((λ p : string * AnfExpr, (p.1, opt p.2 env)) <$> l, env).
Proof.
  rewrite map_state_pure.
  - f_equal. apply list_fmap_ext. intros ? [f e] _. simpl. by destruct (optimize_expr e env).
  - intros [f e] _. pose proof (optimize_expr_env e env). by destruct (optimize_expr e env).
Qed.

(** A literal the optimiser produces is in range. *)
Lemma opt_literal e env lit :
  lits_ok e → (∀ x l, env !! x = Some l → lit_in_range l) →
  opt e env = ALiteral lit → lit_in_range lit.
Proof.
  revert env lit. induction e as [e IH] using AnfExpr_children_ind. intros env lit Hok Henv.
  pose proof (lits_ok_children e Hok) as Hch.
  destruct e; try (simpl; repeat case_match; done);
    try (by simpl; destruct (optimize_expr _ env)); simpl in IH, Hch.
  - intros [= <-]. by apply lits_ok_literal.
  - rewrite opt_let. apply Forall_cons in IH as [IHv [IHb _]%Forall_cons].
    apply Forall_cons in Hch as [Hv [Hb _]%Forall_cons]. simpl. case_match; [|done].
    apply IHb; [done|]. unfold bind_const.
    assert (Hd : ∀ x l, delete name env !! x = Some l → lit_in_range l).
    { intros x l [_ ?]%lookup_delete_Some. eauto. }
    destruct (opt e1 env) eqn:E; try exact Hd.
    intros x l [[-> ->]|[_ Hx]]%lookup_insert_Some; eauto.
  - apply Forall_cons in IH as [IHt [IHf _]%Forall_cons].
    apply Forall_cons in Hch as [Ht [Hf _]%Forall_cons].
    rewrite opt_if. destruct (const_cond _) as [[]|]; [by apply IHt|by apply IHf|done].
  - simpl. destruct (fold_call func args env) as [l|] eqn:E; [|done]. intros [= <-].
    apply bind_Some in E as (ints & Hints & Hfold). eapply fold_ints_range; [|done].
    apply mapM_Some in Hints. eapply Forall2_Forall_r in Hints; [exact Hints|].
    apply Forall_true. intros x z (l' & Hx & Hz)%bind_Some. eapply literal_int_range; eauto.
Qed.

Lemma agrees_ints env ρ args ints :
  env_agrees env ρ → mapM (λ arg, lit ← env !! arg; literal_int lit) args = Some ints →
  mapM (λ x, ρ !! x) args = Some (VWord <$> ints) ∧ Forall in_i64 ints.
Proof.
  intros Henv. revert ints. induction args as [|x args IH]; intros ints; simpl.
  { intros [= <-]. done. }
  intros (z & (lit & Hx & Hz)%bind_Some & (zs & Hzs & [= <-])%bind_Some)%bind_Some.
  destruct (Henv x lit Hx) as [Hρ Hr]. destruct (IH zs Hzs) as [IH1 IH2].
  rewrite Hρ. simpl. rewrite IH1. simpl. split.
  - do 2 f_equal. destruct lit; simpl in *; by simplify_eq.
  - constructor; [by eapply literal_int_range|done].
Qed.

Lemma bind_const_agrees env ρ v w x :
  env_agrees env ρ → (∀ lit, v = ALiteral lit → w = literal_value lit ∧ lit_in_range lit) →
  env_agrees (bind_const v x env) (<[x := w]> ρ).
Proof.
  intros Henv Hv.
  assert (Hd : env_agrees (delete x env) (<[x := w]> ρ)).
  { intros y lit [Hne Hy]%lookup_delete_Some. rewrite lookup_insert_ne by done. by apply Henv. }
  destruct v; try exact Hd. destruct (Hv lit eq_refl) as [-> Hr]. simpl.
  intros y l [[-> ->]|[Hne Hy]]%lookup_insert_Some; [by rewrite lookup_insert_eq|].
  rewrite lookup_insert_ne by done. by apply Henv.
Qed.

Lemma const_cond_agrees env ρ c b w :
  env_agrees env ρ → const_cond (env !! c) = Some b → ρ !! c = Some w →
  as_word w = Some (Z.b2z b).
Proof.
  intros Henv Hc Hw. destruct (env !! c) as [lit|] eqn:E; [|done].
  destruct (Henv c lit E) as [Hρ _]. rewrite Hρ in Hw. injection Hw as <-.
  destruct lit as [| n | | | |]; simpl in *; simplify_eq; [done|].
  destruct n as [|[]|]; by simplify_eq.
Qed.

Section OptimizeSound.
Context `{FoldingLaws}.

(** Optimising the expression keeps every value it evaluates to. *)
Definition opt_keeps (e : AnfExpr) : Prop :=
  ∀ env ρ v, lits_ok e → env_agrees env ρ → eval ρ e = Some v → eval ρ (opt e env) = Some v.

Lemma let_keeps x e1 e2 : opt_keeps e1 → opt_keeps e2 → opt_keeps (ALet x e1 e2).
Proof.
  intros IHv IHb env ρ v Hok Henv.
  pose proof (lits_ok_children _ Hok) as [Hv [Hb _]%Forall_cons]%Forall_cons.
  rewrite opt_let. simpl. intros (w & Hw & Hbody)%bind_Some.
  pose proof (IHv env ρ w Hv Henv Hw) as Hw'.
  assert (Hagree : env_agrees (bind_const (opt e1 env) x env) (<[x := w]> ρ)).
  { apply bind_const_agrees; [done|]. intros lit Hlit. split.
    - rewrite Hlit in Hw'. by injection Hw'.
    - eapply opt_literal; [..|exact Hlit]; [done|]. intros y l Hy. by apply (Henv y l). }
  pose proof (IHb _ _ _ Hb Hagree Hbody) as Hb'.
  case_match eqn:E; [|simpl; by rewrite Hw'].
  apply andb_true_iff in E as [_ E%negb_true_iff]. by rewrite eval_unused in Hb'.
Qed.

Lemma if_keeps c e1 e2 : opt_keeps e1 → opt_keeps e2 → opt_keeps (AIf c e1 e2).
Proof.
  intros IHt IHf env ρ v Hok Henv.
  pose proof (lits_ok_children _ Hok) as [Ht [Hf _]%Forall_cons]%Forall_cons.
  rewrite opt_if. simpl. intros (w & Hw & (z & Hz & Hbr)%bind_Some)%bind_Some.
  destruct (const_cond (env !! c)) as [b|] eqn:E.
  - rewrite (const_cond_agrees env ρ c b w) in Hz by done. injection Hz as <-.
    destruct b; simpl in Hbr; eauto.
  - simpl. rewrite Hw. simpl. rewrite Hz. simpl. case_decide; eauto.
Qed.

Lemma call_keeps func args : opt_keeps (ACall func args).
Proof.
  intros env ρ v _ Henv Hev. simpl. destruct (fold_call func args env) as [lit|] eqn:E; [|done].
  apply bind_Some in E as (ints & Hints & Hfold).
  destruct (agrees_ints env ρ args ints Henv Hints) as [Hargs Hr].
  simpl in Hev. rewrite Hargs in Hev. simpl in Hev. by rewrite (call_folds func ints lit) in Hev.
Qed.

Lemma list_keeps l env ρ ws :
  Forall opt_keeps l → Forall lits_ok l → env_agrees env ρ →
  mapM (eval ρ) l = Some ws → mapM (eval ρ) ((λ e, opt e env) <$> l) = Some ws.
Proof.
  rewrite !Forall_forall. intros IH Hok Henv. apply mapM_mono. intros e w He. by apply IH; auto.
Qed.

Lemma fields_keep (l : list (string * AnfExpr)) env ρ ws :
  Forall opt_keeps l.*2 → Forall lits_ok l.*2 → env_agrees env ρ →
  mapM (λ '(field, e), w ← eval ρ e; Some (field, w)) l = Some ws →
  mapM (λ '(field, e), w ← eval ρ e; Some (field, w))
    ((λ p : string * AnfExpr, (p.1, opt p.2 env)) <$> l) = Some ws.
Proof.
  rewrite !Forall_fmap, !Forall_forall. intros IH Hok Henv. apply mapM_mono.
  intros [f e] w Hin (u & Hu & [= <-])%bind_Some. simpl.
  pose proof (IH (f, e) Hin env ρ u (Hok _ Hin) Henv Hu) as Hu'. simpl in Hu'. by rewrite Hu'.
Qed.

(** One sub-expression evaluated in the same scope. *)
Lemma inner_keeps e env ρ v e' env' :
  opt_keeps e → lits_ok e → env_agrees env ρ → optimize_expr e env = (e', env') →
  eval ρ e = Some v → eval ρ e' = Some v.
Proof. intros IH Hok Henv E Hv. pose proof (IH env ρ v Hok Henv Hv) as Hr. by rewrite E in Hr. Qed.

Lemma optimize_expr_sound e : opt_keeps e.
Proof.
  induction e as [e IH] using AnfExpr_children_ind.
  destruct e; simpl in IH; rewrite ?Forall_cons in IH; try (by intros ?); 
    try (destruct IH as (? & ? & _); by apply let_keeps || by apply if_keeps);
    try apply call_keeps; intros env ρ v Hok%lits_ok_children Henv; simpl in Hok |- *; try done.
  - rewrite opt_list. intros (ws & Hws & [= <-])%bind_Some. simpl. by rewrite (list_keeps _ _ _ ws).
  - rewrite opt_fields. intros (ws & Hws & [= <-])%bind_Some. simpl. by rewrite (fields_keep _ _ _ ws).
  - rewrite opt_list. intros (ws & Hws & [= <-])%bind_Some. simpl. by rewrite (list_keeps _ _ _ ws).
  - destruct payload as [p|]; [|done]. rewrite Forall_singleton in IH, Hok.
    intros (w & Hw & [= <-])%bind_Some. destruct (optimize_expr p env) eqn:E. simpl.
    by rewrite (inner_keeps p env ρ w a g).
  - rewrite opt_list. intros (ws & Hws & [= <-])%bind_Some. simpl. by rewrite (list_keeps _ _ _ ws).
  - destruct IH as [IH _]. rewrite Forall_singleton in Hok.
    intros (w & Hw & (z & Hz & Hr)%bind_Some)%bind_Some.
    destruct (optimize_expr e env) as [e' env'] eqn:E. simpl. rewrite Hw. simpl. rewrite Hz. simpl.
    case_decide; [done|]. by rewrite (inner_keeps e env ρ v e' env').
  - destruct IH as [IH _]. rewrite Forall_singleton in Hok.
    intros (w & Hw & (z & Hz & Hr)%bind_Some)%bind_Some.
    destruct (optimize_expr e env) as [e' env'] eqn:E. simpl. rewrite Hw. simpl. rewrite Hz. simpl.
    case_decide; [|done]. by rewrite (inner_keeps e env ρ v e' env').
Qed.
End OptimizeSound.

(* ------------------------------------------------------------------ *)
(** ** Soundness of dead-element elimination *)

Section DceSound.
Context `{CallSemantics}.

(** The value of a sequence is the value of its last element. *)
Lemma drop_dead_last l ρ ws :
  mapM (eval ρ) l = Some ws →
  ∃ ws', mapM (eval ρ) (drop_dead l) = Some ws' ∧ last ws' = last ws.
Proof.
  revert ws. induction l as [|e l IH]; intros ws; [eauto|].
  destruct l as [|e' l]; [eauto|].
  change (drop_dead (e :: e' :: l)) with
    (if is_pure e then drop_dead (e' :: l) else e :: drop_dead (e' :: l)).
  rewrite mapM_cons.
  intros (w & Hw & (ws1 & Hws & [= <-])%bind_Some)%bind_Some.
  destruct (IH ws1 Hws) as (ws' & Hm & Hl).
  assert (Hlast : last (w :: ws1) = last ws1).
  { apply bind_Some in Hws as (? & _ & (? & _ & [= <-])%bind_Some). done. }
  case_match; [exists ws'; by rewrite Hlast|].
  exists (w :: ws'). rewrite mapM_cons, Hw, Hm. split; [done|].
  destruct ws' as [|w' ws']; [|by rewrite Hlast].
  simpl in Hl. symmetry in Hl. apply last_None in Hl as ->.
  apply bind_Some in Hws as (? & _ & (? & _ & [= ])%bind_Some).
Qed.

Lemma seq_of_eval l ρ ws :
  mapM (eval ρ) l = Some ws → eval ρ (seq_of l) = Some (default VUnit (last ws)).
Proof.
  destruct l as [|e [|e' l]]; simpl.
  - by intros [= <-].
  - intros (w & -> & [= <-])%bind_Some. done.
  - intros ->. done.
Qed.

Definition dce_keeps (e : AnfExpr) : Prop :=
  ∀ ρ v, eval ρ e = Some v → eval ρ (elim_dead_expr e) = Some v.

Lemma list_dce_keeps l ρ ws :
  Forall dce_keeps l → mapM (eval ρ) l = Some ws →
  mapM (eval ρ) (map elim_dead_expr l) = Some ws.
Proof. rewrite Forall_forall. intros IH. apply mapM_mono. intros e w He. by apply IH. Qed.

Lemma elim_dead_sound e : dce_keeps e.
Proof.
  induction e as [e IH] using AnfExpr_children_ind. intros ρ v.
  destruct e; simpl in IH |- *; try done.
  - apply Forall_cons in IH as [IHv [IHb _]%Forall_cons].
    intros (w & Hw & Hb)%bind_Some. rewrite (IHv _ _ Hw). by apply IHb.
  - apply Forall_cons in IH as [IHt [IHf _]%Forall_cons].
    intros (w & -> & (z & Hz & Hb)%bind_Some)%bind_Some. simpl. rewrite Hz. simpl.
    case_decide; eauto.
  - intros (ws & Hws & [= <-])%bind_Some. apply (list_dce_keeps _ _ _ IH) in Hws.
    apply drop_dead_last in Hws as (ws' & Hws & <-). by apply seq_of_eval.
  - intros (ws & Hws & [= <-])%bind_Some. rewrite Forall_fmap, Forall_forall in IH.
    erewrite (mapM_mono _ _ (λ '(f, e), (f, elim_dead_expr e)) fields ws); [done| |exact Hws].
    intros [f e] w Hin (u & Hu & [= <-])%bind_Some. simpl.
    pose proof (IH (f, e) Hin ρ u Hu) as Hu'. simpl in Hu'. by rewrite Hu'.
  - intros (ws & Hws & [= <-])%bind_Some. by rewrite (list_dce_keeps _ _ ws).
  - destruct payload as [p|]; [|done]. rewrite Forall_singleton in IH.
    intros (w & Hw & [= <-])%bind_Some. by rewrite (IH _ _ Hw).
  - intros (ws & Hws & [= <-])%bind_Some. by rewrite (list_dce_keeps _ _ ws).
Qed.
End DceSound.

Lemma drop_dead_lits l : Forall lits_ok l → Forall lits_ok (drop_dead l).
Proof. rewrite !Forall_forall. intros Hl e He. by apply Hl, drop_dead_elem. Qed.

Lemma elim_dead_lits e : lits_ok e → lits_ok (elim_dead_expr e).
Proof.
  induction e as [e IH] using AnfExpr_children_ind. intros Hok.
  pose proof (lits_ok_children e Hok) as Hch.
  assert (Hall : Forall lits_ok (map elim_dead_expr (children e))).
  { rewrite Forall_forall in IH, Hch. apply Forall_fmap, Forall_forall. intros x Hx. simpl. auto. }
  clear IH. destruct e; simpl in Hall |- *; try done; try (by constructor).
  - pose proof (drop_dead_lits _ Hall) as Hd.
    destruct (drop_dead _) as [|x [|y l]]; simpl; [by constructor; [by intros ? [= <-]|]| |by constructor].
    by rewrite Forall_singleton in Hd.
  - constructor; [done|]. simpl. by rewrite elim_arms.
  - constructor; [done|]. simpl. by rewrite elim_fields.
  - constructor; [done|]. by destruct payload.
Qed.
