(* ===== verification/Inline.v ===== *)
(** * Inlining of small pure functions

    crates/ail-compiler/src/optimize/inline.rs: [substitute_vars],
    [inline_calls_in_expr] and [inline_small_pure], with the conditions under
    which inlining keeps values and inputs on which it does not. *)

From S2P Require Import Prelude Text GraphTypes I64 Anf ConstFold Dce AnfEval.

(** The parameters and the body of a function *)
Abbreviation SmallFns := (gmap string (list string * AnfExpr)).
Abbreviation Subst := (gmap string string).

Definition sub (σ : Subst) (s : string) : string := default s (σ !! s).

(** [for p in &params { inner.remove(p); }] *)
Definition remove_all (σ : Subst) (params : list string) : Subst := foldl (λ σ p, delete p σ) σ params.

(** An empty substitution leaves the expression as it is, as the early return
    of the source says; [substitute_empty] shows that the walk agrees. *)
Fixpoint substitute_vars (expr : AnfExpr) (σ : Subst) : AnfExpr :=
  match expr with
  | AVar name => AVar (sub σ name)
  | ACall func args => ACall func (map (sub σ) args)
  | AFieldGet record field => AFieldGet (sub σ record) field
  | AIf cond then_branch else_branch =>
      AIf (sub σ cond) (substitute_vars then_branch σ) (substitute_vars else_branch σ)
  | ALet name value body => ALet name (substitute_vars value σ) (substitute_vars body (delete name σ))
  | AReturn inner => AReturn (substitute_vars inner σ)
  | ASeq exprs => ASeq (map (λ e, substitute_vars e σ) exprs)
  | ARecordNew fields => ARecordNew (map (λ '(f, e), (f, substitute_vars e σ)) fields)
  | AFieldUpdate record field value => AFieldUpdate (sub σ record) field (substitute_vars value σ)
  | ATupleNew elems => ATupleNew (map (λ e, substitute_vars e σ) elems)
  | AVariantNew tag payload =>
      AVariantNew tag (match payload with Some p => Some (substitute_vars p σ) | None => None end)
  | AListNew elems => AListNew (map (λ e, substitute_vars e σ) elems)
  | ALambda params captures body =>
      let inner := remove_all σ params in
      ALambda params (map (sub inner) captures) (substitute_vars body inner)
  | AMatch scrutinee arms =>
      AMatch (sub σ scrutinee)
        (map (λ '(MkAnfMatchArm pattern body), MkAnfMatchArm pattern (substitute_vars body σ)) arms)
  | ALoop body => ALoop (substitute_vars body σ)
  | ABreak value => ABreak (substitute_vars value σ)
  | ATaskGroup body => ATaskGroup (substitute_vars body σ)
  | ATimeout duration body => ATimeout (sub σ duration) (substitute_vars body σ)
  | other => other
  end.

(** [params.iter().zip(args.iter()).collect()]: the last argument of a
    repeated parameter wins. *)
Definition call_subst (params args : list string) : Subst :=
  foldl (λ σ '(p, a), <[p := a]> σ) ∅ (zip params args).

Fixpoint inline_calls_in_expr (expr : AnfExpr) (small_fns : SmallFns) : AnfExpr :=
  match expr with
  | ACall func args =>
      match small_fns !! func with
      | Some (params, body) =>
          if decide (length params = length args) then substitute_vars body (call_subst params args)
          else expr
      | None => expr
      end
  | ALet name value body =>
      ALet name (inline_calls_in_expr value small_fns) (inline_calls_in_expr body small_fns)
  | AIf cond then_branch else_branch =>
      AIf cond (inline_calls_in_expr then_branch small_fns) (inline_calls_in_expr else_branch small_fns)
  | AReturn inner => AReturn (inline_calls_in_expr inner small_fns)
  | ASeq exprs => ASeq (map (λ e, inline_calls_in_expr e small_fns) exprs)
  | AMatch scrutinee arms =>
      AMatch scrutinee
        (map (λ '(MkAnfMatchArm pattern body), MkAnfMatchArm pattern (inline_calls_in_expr body small_fns)) arms)
  | ALambda params _ body =>
      let inlined_body := inline_calls_in_expr body small_fns in
      ALambda params (recompute_captures params inlined_body) inlined_body
  | ARecordNew fields => ARecordNew (map (λ '(f, e), (f, inline_calls_in_expr e small_fns)) fields)
  | AFieldUpdate record field value => AFieldUpdate record field (inline_calls_in_expr value small_fns)
  | ATupleNew elems => ATupleNew (map (λ e, inline_calls_in_expr e small_fns) elems)
  | AVariantNew tag payload =>
      AVariantNew tag (match payload with Some p => Some (inline_calls_in_expr p small_fns) | None => None end)
  | AListNew elems => AListNew (map (λ e, inline_calls_in_expr e small_fns) elems)
  | ALoop body => ALoop (inline_calls_in_expr body small_fns)
  | ABreak value => ABreak (inline_calls_in_expr value small_fns)
  | ATaskGroup body => ATaskGroup (inline_calls_in_expr body small_fns)
  | ATimeout duration body => ATimeout duration (inline_calls_in_expr body small_fns)
  | other => other
  end.

(** The entry of a binding that qualifies *)
Definition small_fn (b : AnfBinding) : option (string * (list string * AnfExpr)) :=
  match ab_expr b with
  | ALambda params _ body =>
      if is_pure body && (anf_node_count body <=? 3) then Some (ab_name b, (params, body)) else None
  | _ => None
  end.

(** [collect()] into a map: the last binding of a name wins. *)
Definition small_fns_of (bindings : list AnfBinding) : SmallFns :=
  foldl (λ m '(name, fn), <[name := fn]> m) ∅ (omap small_fn bindings).

Definition inline_small_pure (bindings : list AnfBinding) : list AnfBinding :=
  let small_fns := small_fns_of bindings in
  if decide (small_fns = ∅) then bindings
  else (λ b, MkAnfBinding (ab_source_ref b) (ab_name b) (inline_calls_in_expr (ab_expr b) small_fns)) <$> bindings.

(* ------------------------------------------------------------------ *)
(** ** The early return *)

Lemma sub_empty s : sub ∅ s = s.
Proof. done. Qed.

Lemma remove_all_empty params : remove_all ∅ params = ∅.
Proof. unfold remove_all. induction params as [|p params IH]; [done|]. cbn. by rewrite delete_empty. Qed.

Lemma map_id_elem {A} (f : A → A) l : (∀ x, x ∈ l → f x = x) → map f l = l.
Proof.
  induction l as [|x l IH]; intros Hl; [done|]. cbn. rewrite (Hl x) by left. f_equal. apply IH. intros y Hy. apply Hl. by right.
Qed.

Lemma substitute_empty e : substitute_vars e ∅ = e.
Proof.
  induction e as [e IH] using AnfExpr_children_ind.
  destruct e; cbn [substitute_vars children] in *; rewrite ?sub_empty, ?delete_empty, ?remove_all_empty; try done;
    rewrite ?Forall_cons, ?Forall_fmap, ?Forall_forall in IH;
    try (destruct IH as [-> IH]); try (destruct IH as [-> IH]); try done;
    try (f_equal; apply map_id_elem; auto; fail).
  - f_equal. apply map_id_elem. intros [p b] Hb. f_equal. by apply (IH _ Hb).
  - f_equal. apply map_id_elem. intros [f x] Hx. f_equal. by apply (IH _ Hx).
  - destruct payload as [p|]; [|done]. by rewrite (IH p) by left.
Qed.

(* ------------------------------------------------------------------ *)
(** ** Substitution keeps values *)

#[local] Set Warnings "-register-all".

(** What the substitution reaches: the short-circuit operators are passed over
    without looking at their operands. *)
Inductive substitutable : AnfExpr → Prop :=
| substitutable_intro e :
    (∀ l r, e ≠ AShortCircuitAnd l r ∧ e ≠ AShortCircuitOr l r) → Forall substitutable (children e) → substitutable e.

(** The names that lets bind *)
Fixpoint binders (e : AnfExpr) : list string :=
  match e with
  | ALet name value body => name :: binders value ++ binders body
  | AIf _ t f => binders t ++ binders f
  | ASeq l | ATupleNew l | AListNew l => l ≫= binders
  | ARecordNew fields => fields ≫= λ '(_, e), binders e
  | AVariantNew _ (Some p) => binders p
  | _ => []
  end.

(** [ρ'] holds the values of [ρ] under the names the substitution replaces. *)
Definition renames (σ : Subst) (ρ' ρ : Scope) : Prop := ∀ x w, ρ' !! x = Some w → ρ !! sub σ x = Some w.

Lemma renames_let σ ρ' ρ x w :
  renames σ ρ' ρ → (∀ y, σ !! y ≠ Some x) → renames (delete x σ) (<[x := w]> ρ') (<[x := w]> ρ).
Proof.
  intros Hr Hx y u. unfold sub. destruct (decide (y = x)) as [->|Hne].
  - rewrite lookup_insert_eq, lookup_delete_eq. cbn. by rewrite lookup_insert_eq.
  - rewrite lookup_insert_ne, lookup_delete_ne by done. intros Hy%Hr. unfold sub in Hy.
    destruct (σ !! y) as [z|] eqn:E; cbn in *; rewrite lookup_insert_ne; try done. intros <-. by apply (Hx y).
Qed.

Section Inline.
Context `{CallSemantics}.

Lemma lookups_renamed σ ρ' ρ args ws :
  renames σ ρ' ρ → mapM (λ x, ρ' !! x) args = Some ws → mapM (λ x, ρ !! x) (map (sub σ) args) = Some ws.
Proof. intros Hr. apply (mapM_mono _ _ (sub σ)). intros x w _. apply Hr. Qed.

Lemma substitute_keeps e σ ρ' ρ v :
  substitutable e → renames σ ρ' ρ → (∀ x y, x ∈ binders e → σ !! y ≠ Some x) →
  eval ρ' e = Some v → eval ρ (substitute_vars e σ) = Some v.
Proof.
  revert σ ρ' ρ v. induction e as [e IH] using AnfExpr_children_ind. intros σ ρ' ρ v Hs Hr Hb.
  destruct Hs as [e Hsc Hch].
  assert (∀ l, Forall (λ e, ∀ σ ρ' ρ v, substitutable e → renames σ ρ' ρ → (∀ x y, x ∈ binders e → σ !! y ≠ Some x) →
            eval ρ' e = Some v → eval ρ (substitute_vars e σ) = Some v) l → Forall substitutable l →
          (∀ x y, x ∈ l ≫= binders → σ !! y ≠ Some x) → ∀ ws, mapM (eval ρ') l = Some ws →
          mapM (eval ρ) (map (λ e, substitute_vars e σ) l) = Some ws) as Hlist.
  { intros l IHl Hl Hbl ws. apply (mapM_mono _ _ (λ e, substitute_vars e σ)). rewrite Forall_forall in IHl, Hl.
    intros x w Hx. apply IHl; auto. intros y z Hy. apply Hbl, list_elem_of_bind. eauto. }
  destruct e; cbn [substitute_vars children binders] in *; try (by intros [=]); cbn [eval]; try done.
  - apply Hr.
  - apply Forall_cons in IH as [IHv [IHb _]%Forall_cons]. apply Forall_cons in Hch as [Hv [Hbd _]%Forall_cons].
    intros (w & Hw & He)%bind_Some. apply bind_Some. exists w. split.
    + eapply IHv; [done|done| |done]. intros x y Hx. apply Hb. set_solver.
    + eapply IHb; [done|apply renames_let; [done|]| |done].
      * intros y. apply Hb. by left.
      * intros x y Hx. rewrite lookup_delete_Some. intros [_ Hy]. revert Hy. apply Hb. set_solver.
  - apply Forall_cons in IH as [IHt [IHf _]%Forall_cons]. apply Forall_cons in Hch as [Ht [Hf _]%Forall_cons].
    intros (w & Hw & (z & Hz & He)%bind_Some)%bind_Some. rewrite (Hr _ _ Hw). cbn. rewrite Hz. cbn.
    case_decide; [eapply IHf|eapply IHt]; try done; intros x y Hx; apply Hb; set_solver.
  - intros (ws & Hws & Hc)%bind_Some. by rewrite (lookups_renamed σ ρ' ρ args ws).
  - intros (w & Hw & Hf)%bind_Some. by rewrite (Hr _ _ Hw).
  - intros (ws & Hws & [= <-])%bind_Some. by rewrite (Hlist _ IH Hch Hb ws Hws).
  - intros (ws & Hws & [= <-])%bind_Some. rewrite Forall_fmap, Forall_forall in IH, Hch.
    erewrite (mapM_mono _ _ (λ '(f, e), (f, substitute_vars e σ)) fields ws); [done| |exact Hws].
    intros [f e] w Hin (u & Hu & [= <-])%bind_Some. cbn.
    assert (eval ρ (substitute_vars e σ) = Some u) as ->; [|done]. apply (IH _ Hin σ ρ' ρ u (Hch _ Hin) Hr); [|done].
    intros x y Hx. apply Hb, list_elem_of_bind. by exists (f, e).
  - intros (ws & Hws & [= <-])%bind_Some. by rewrite (Hlist _ IH Hch Hb ws Hws).
  - destruct payload as [p|]; [|done]. rewrite Forall_singleton in IH, Hch. cbn [eval].
    intros (w & Hw & [= <-])%bind_Some. by erewrite (IH σ ρ' ρ w).
  - intros (ws & Hws & [= <-])%bind_Some. by rewrite (Hlist _ IH Hch Hb ws Hws).
  - by destruct (Hsc left e) as [? _].
  - by destruct (Hsc left e) as [_ ?].
Qed.

(** The scope of a call: the last value of a repeated parameter wins. *)
Definition call_env (params : list string) (ws : list Value) : Scope :=
  foldl (λ ρ '(p, w), <[p := w]> ρ) ∅ (zip params ws).

Lemma call_renames params args ws ρ σ ρ' :
  mapM (λ x, ρ !! x) args = Some ws → renames σ ρ' ρ →
  renames (foldl (λ σ '(p, a), <[p := a]> σ) σ (zip params args)) (foldl (λ ρ '(p, w), <[p := w]> ρ) ρ' (zip params ws)) ρ.
Proof.
  intros Hws%mapM_Some. revert params σ ρ'. induction Hws as [|a w args ws Ha _ IH]; intros [|p params] σ ρ' Hr; try done.
  cbn. apply IH. intros x u. unfold sub. destruct (decide (x = p)) as [->|Hne].
  - rewrite !lookup_insert_eq. cbn. congruence.
  - rewrite !lookup_insert_ne by done. apply Hr.
Qed.

Lemma call_subst_range params args x y : call_subst params args !! y = Some x → x ∈ args.
Proof.
  unfold call_subst. assert (∀ σ : Subst, foldl (λ σ '(p, a), <[p := a]> σ) σ (zip params args) !! y = Some x →
    x ∈ args ∨ σ !! y = Some x) as Hg; [|intros [?|[=]]%Hg; done].
  revert args. induction params as [|p params IH]; intros [|a args] σ; cbn; auto.
  intros [Hin|[[-> ->]|[_ Hy]]%lookup_insert_Some]%IH; [left; by right|left; by left|by right].
Qed.

(** What a call of a small function means: its body, in the scope of its
    arguments.  This is what a module promises to the code that calls it. *)
Class ModuleCalls (fns : SmallFns) : Prop :=
  call_runs_body : ∀ func params body ws v,
    fns !! func = Some (params, body) → length params = length ws → call_function func ws = Some v →
    eval (call_env params ws) body = Some v.

(** No argument is captured by a let of the function it is passed to. *)
Inductive captures_nothing (fns : SmallFns) : AnfExpr → Prop :=
| captures_nothing_intro e :
    (∀ func args params body x, e = ACall func args → fns !! func = Some (params, body) → x ∈ binders body → x ∉ args) →
    Forall (captures_nothing fns) (children e) → captures_nothing fns e.

Lemma inline_keeps fns `{!ModuleCalls fns} e ρ v :
  (∀ func params body, fns !! func = Some (params, body) → substitutable body) →
  captures_nothing fns e → eval ρ e = Some v → eval ρ (inline_calls_in_expr e fns) = Some v.
Proof.
  intros Hfns. revert ρ v. induction e as [e IH] using AnfExpr_children_ind. intros ρ v Hs.
  destruct Hs as [e Hcall Hch].
  assert (∀ l, Forall (λ e, ∀ ρ v, captures_nothing fns e → eval ρ e = Some v →
            eval ρ (inline_calls_in_expr e fns) = Some v) l → Forall (captures_nothing fns) l →
          ∀ ws, mapM (eval ρ) l = Some ws → mapM (eval ρ) (map (λ e, inline_calls_in_expr e fns) l) = Some ws) as Hlist.
  { intros l IHl Hl ws. apply (mapM_mono _ _ (λ e, inline_calls_in_expr e fns)). rewrite Forall_forall in IHl, Hl.
    intros x w Hx. by apply IHl, Hl. }
  destruct e; cbn [inline_calls_in_expr children] in *; cbn [eval]; try done.
  - apply Forall_cons in IH as [IHv [IHb _]%Forall_cons]. apply Forall_cons in Hch as [Hv [Hbd _]%Forall_cons].
    intros (w & Hw & He)%bind_Some. apply bind_Some. exists w. split; [by apply IHv|by apply IHb].
  - apply Forall_cons in IH as [IHt [IHf _]%Forall_cons]. apply Forall_cons in Hch as [Ht [Hf _]%Forall_cons].
    intros (w & Hw & (z & Hz & He)%bind_Some)%bind_Some. rewrite Hw. cbn. rewrite Hz. cbn.
    case_decide; [by apply IHf|by apply IHt].
  - intros (ws & Hws & Hc)%bind_Some. destruct (fns !! func) as [[params body]|] eqn:Ef; [|cbn; by rewrite Hws].
    case_decide as Hlen; [|cbn; by rewrite Hws].
    eapply substitute_keeps; [by eapply Hfns|by apply (call_renames params args ws ρ ∅ ∅)| |].
    + intros x y Hx Hy%call_subst_range. by eapply Hcall.
    + apply (call_runs_body func params body ws v Ef); [|done]. rewrite Hlen. by apply mapM_Some, Forall2_length in Hws.
  - intros (ws & Hws & [= <-])%bind_Some. by rewrite (Hlist _ IH Hch ws Hws).
  - intros (ws & Hws & [= <-])%bind_Some. rewrite Forall_fmap, Forall_forall in IH, Hch.
    erewrite (mapM_mono _ _ (λ '(f, e), (f, inline_calls_in_expr e fns)) fields ws); [done| |exact Hws].
    intros [f e] w Hin (u & Hu & [= <-])%bind_Some. cbn.
    assert (eval ρ (inline_calls_in_expr e fns) = Some u) as ->; [|done]. by apply (IH _ Hin ρ u (Hch _ Hin)).
  - intros (ws & Hws & [= <-])%bind_Some. by rewrite (Hlist _ IH Hch ws Hws).
  - destruct payload as [p|]; [|done]. rewrite Forall_singleton in IH, Hch. cbn [eval].
    intros (w & Hw & [= <-])%bind_Some. by rewrite (IH ρ w).
  - intros (ws & Hws & [= <-])%bind_Some. by rewrite (Hlist _ IH Hch ws Hws).
Qed.
End Inline.

(* ------------------------------------------------------------------ *)
(** ** Literals *)

(** A walk that keeps literals and walks the children keeps [lits_ok]. *)
Lemma lits_ok_walk e e' :
  (∀ lit, e' = ALiteral lit → e = ALiteral lit) → lits_ok e → Forall lits_ok (children e') → lits_ok e'.
Proof. intros Hl Hok Hch. constructor; [|done]. intros lit Hlit. apply lits_ok_literal. by rewrite <- (Hl lit). Qed.

Lemma children_of_arms (f : AnfExpr → AnfExpr) arms :
  arm_body <$> map (λ '(MkAnfMatchArm p b), MkAnfMatchArm p (f b)) arms = f <$> (arm_body <$> arms).
Proof. induction arms as [|[p b] arms IH]; [done|]. cbn. by f_equal. Qed.

Lemma children_of_fields (f : AnfExpr → AnfExpr) (fields : list (string * AnfExpr)) :
  (map (λ '(k, e), (k, f e)) fields).*2 = f <$> fields.*2.
Proof. induction fields as [|[k e] fields IH]; [done|]. cbn. by f_equal. Qed.

Lemma substitute_lits e σ : lits_ok e → lits_ok (substitute_vars e σ).
Proof.
  revert σ. induction e as [e IH] using AnfExpr_children_ind. intros σ Hok.
  pose proof (lits_ok_children e Hok) as Hch.
  assert (∀ σ, Forall lits_ok ((λ x, substitute_vars x σ) <$> children e)) as Hall.
  { intros σ'. apply Forall_fmap, Forall_forall. rewrite Forall_forall in IH, Hch. intros x Hx. by apply IH, Hch. }
  clear IH. destruct e; cbn [substitute_vars]; try done;
    (eapply lits_ok_walk; [|exact Hok|]; [done|]); cbn [children] in *; try apply (Hall σ).
  - pose proof (Hall σ) as [H1 _]%Forall_cons. pose proof (Hall (delete name σ)) as [_ H2]%Forall_cons. by constructor.
  - rewrite (children_of_arms (λ e, substitute_vars e σ)). apply Hall.
  - apply Hall.
  - rewrite (children_of_fields (λ e, substitute_vars e σ)). apply Hall.
  - destruct payload; [apply (Hall σ)|constructor].
Qed.

Lemma inline_lits fns e :
  (∀ func params body, fns !! func = Some (params, body) → lits_ok body) →
  lits_ok e → lits_ok (inline_calls_in_expr e fns).
Proof.
  intros Hfns. induction e as [e IH] using AnfExpr_children_ind. intros Hok.
  pose proof (lits_ok_children e Hok) as Hch.
  assert (Forall lits_ok ((λ x, inline_calls_in_expr x fns) <$> children e)) as Hall.
  { apply Forall_fmap, Forall_forall. rewrite Forall_forall in IH, Hch. intros x Hx. by apply IH, Hch. }
  clear IH. destruct e; cbn [inline_calls_in_expr]; try done.
  all: try lazymatch goal with
    | |- lits_ok (match ?fn with Some _ => _ | None => _ end) =>
        destruct fn as [[params body]|] eqn:Ef; [|done]; case_decide; [by eapply substitute_lits, Hfns|done]
    | _ => (eapply lits_ok_walk; [|exact Hok|]; [done|]); cbn [children] in *; try exact Hall
    end.
  - by rewrite (children_of_arms (λ e, inline_calls_in_expr e fns)).
  - by rewrite (children_of_fields (λ e, inline_calls_in_expr e fns)).
  - by destruct payload.
Qed.

(** A small function is a pure lambda of the module with at most three nodes. *)
Lemma small_fns_of_binding bindings func params body :
  small_fns_of bindings !! func = Some (params, body) →
  ∃ b captures, b ∈ bindings ∧ ab_name b = func ∧ ab_expr b = ALambda params captures body ∧
    is_pure body = true ∧ anf_node_count body ≤ 3.
Proof.
  unfold small_fns_of.
  assert (∀ l (m : SmallFns), foldl (λ m '(name, fn), <[name := fn]> m) m l !! func = Some (params, body) →
    (func, (params, body)) ∈ l ∨ m !! func = Some (params, body)) as Hg.
  { induction l as [|[name fn] l IH]; cbn; [auto|]. intros m [Hin|[[-> ->]|[_ Hm]]%lookup_insert_Some]%IH.
    - left. by right.
    - left. by left.
    - by right. }
  intros [Hin|[=]]%Hg. apply list_elem_of_omap in Hin as (b & Hb & Hs). unfold small_fn in Hs.
  destruct (ab_expr b) eqn:Ee; try done. destruct (is_pure _ && _) eqn:Ep; [|done]. injection Hs as <- <- <-.
  apply andb_true_iff in Ep as [Hp Hn%Nat.leb_le]. by exists b, captures.
Qed.

(** The expression of a binding after inlining *)
Definition inlined (bindings : list AnfBinding) (b : AnfBinding) : AnfExpr :=
  if decide (small_fns_of bindings = ∅) then ab_expr b else inline_calls_in_expr (ab_expr b) (small_fns_of bindings).

(** Inlining keeps the bindings of a module, their names and their provenance. *)
Lemma inline_small_pure_lookup bindings i :
  inline_small_pure bindings !! i =
  (λ b, MkAnfBinding (ab_source_ref b) (ab_name b) (inlined bindings b)) <$> (bindings !! i).
Proof.
  unfold inline_small_pure, inlined. case_decide.
  - destruct (bindings !! i) as [[]|]; done.
  - by rewrite list_lookup_fmap.
Qed.

Lemma inline_module_lits bindings b :
  Forall (λ b, lits_ok (ab_expr b)) bindings → b ∈ bindings → lits_ok (inlined bindings b).
Proof.
  rewrite Forall_forall. intros Hok Hb. unfold inlined. case_decide; [by apply Hok|]. apply inline_lits; [|by apply Hok].
  intros func params body (b' & caps & Hb' & _ & He & _)%small_fns_of_binding. specialize (Hok _ Hb'). rewrite He in Hok.
  apply lits_ok_children in Hok. cbn [children] in Hok. by rewrite Forall_singleton in Hok.
Qed.

(* ------------------------------------------------------------------ *)
(** ** Inputs outside the guarantees *)

Definition inlined_body (params : list string) (body call : AnfExpr) : AnfExpr :=
  match inline_small_pure [MkAnfBinding 1%N "f" (ALambda params [] body); MkAnfBinding 2%N "main" call] with
  | [_; b] => ab_expr b
  | _ => call
  end.

(** A let of the function captures an argument of the same name: the [t] of the
    caller becomes the [t] of [f]. *)
Example captured_argument :
  inlined_body ["x"] (ALet "t" (ALiteral (LInt 1)) (AVar "x")) (ACall "f" ["t"])
  = ALet "t" (ALiteral (LInt 1)) (AVar "t").
Proof. reflexivity. Qed.

(** A tuple passes the purity test whatever it holds, and the substitution does
    not enter a short-circuit operator: the parameter is left unbound. *)
Example unsubstituted_operand :
  inlined_body ["x"] (ATupleNew [AShortCircuitAnd "x" (AVar "x")]) (ACall "f" ["flag"])
  = ATupleNew [AShortCircuitAnd "x" (AVar "x")].
Proof. reflexivity. Qed.

(** The payload of a pattern does not shadow the parameter it is named after. *)
Example pattern_not_shadowing :
  inlined_body ["x"] (AMatch "x" [MkAnfMatchArm "Some(x)" (AVar "x")]) (ACall "f" ["s"])
  = AMatch "s" [MkAnfMatchArm "Some(x)" (AVar "s")].
Proof. reflexivity. Qed.

(** An effect inside a tuple counts as pure and is copied to the callers. *)
Example inlined_effect :
  effects (inlined_body [] (ATupleNew [AEffectCall "log" "write" []]) (ACall "f" [])) = [AEffectCall "log" "write" []].
Proof. reflexivity. Qed.
