(* ===== verification/Cse.v ===== *)
(** * Common subexpressions

    crates/ail-compiler/src/optimize/cse.rs: [cse_expr] and [cse_bindings], and
    the derived [PartialEq] of [AnfExpr] (anf.rs) they compare expressions with,
    with the conditions under which sharing keeps values and inputs on which it
    does not. *)

From S2P Require Import Prelude Text GraphTypes I64 Anf ConstFold Dce AnfEval.

(* ------------------------------------------------------------------ *)
(** ** Equality of expressions *)

(** [==] on [f64], by bit pattern: not a number differs from itself, and the
    two zeros are equal. *)
Definition magnitude (bits : N) : N := (bits mod 2 ^ 63)%N.
Definition is_nan (bits : N) : bool := (0x7FF0000000000000 <? magnitude bits)%N.
Definition float_eqb (a b : N) : bool :=
  negb (is_nan a) && negb (is_nan b) && ((a =? b) || ((magnitude a =? 0) && (magnitude b =? 0)))%N.

Definition literal_eqb (a b : LiteralValue) : bool :=
  match a, b with
  | LFloat x, LFloat y => float_eqb x y
  | _, _ => bool_decide (a = b)
  end.

(** [==] on vectors *)
Definition all2 {A B} (f : A → B → bool) : list A → list B → bool :=
  fix go l k :=
    match l, k with
    | [], [] => true
    | x :: l', y :: k' => f x y && go l' k'
    | _, _ => false
    end.

Fixpoint anf_eqb (a b : AnfExpr) : bool :=
  match a, b with
  | ALiteral x, ALiteral y => literal_eqb x y
  | ALet x v e, ALet y w f => bool_decide (x = y) && anf_eqb v w && anf_eqb e f
  | AIf x v e, AIf y w f => bool_decide (x = y) && anf_eqb v w && anf_eqb e f
  | AReturn e, AReturn f | ALoop e, ALoop f | ABreak e, ABreak f | ATaskGroup e, ATaskGroup f => anf_eqb e f
  | ASeq l, ASeq k | ATupleNew l, ATupleNew k | AListNew l, AListNew k => all2 anf_eqb l k
  | AMatch x l, AMatch y k =>
      bool_decide (x = y) &&
      all2 (λ '(MkAnfMatchArm p e) '(MkAnfMatchArm q f), bool_decide (p = q) && anf_eqb e f) l k
  | ALambda p c e, ALambda q d f => bool_decide (p = q) && bool_decide (c = d) && anf_eqb e f
  | ARecordNew l, ARecordNew k => all2 (λ '(x, e) '(y, f), bool_decide (x = y) && anf_eqb e f) l k
  | AFieldUpdate r x e, AFieldUpdate s y f => bool_decide (r = s) && bool_decide (x = y) && anf_eqb e f
  | AVariantNew x p, AVariantNew y q =>
      bool_decide (x = y) &&
      match p, q with Some e, Some f => anf_eqb e f | None, None => true | _, _ => false end
  | AWhileLoop x e, AWhileLoop y f | AShortCircuitAnd x e, AShortCircuitAnd y f | AShortCircuitOr x e, AShortCircuitOr y f
  | ATimeout x e, ATimeout y f => bool_decide (x = y) && anf_eqb e f
  | AForEach x c e, AForEach y d f => bool_decide (x = y) && bool_decide (c = d) && anf_eqb e f
  | ASelect l, ASelect k =>
      all2 (λ '(MkAnfSelectClause p x e) '(MkAnfSelectClause q y f),
        bool_decide (p = q) && bool_decide (x = y) && anf_eqb e f) l k
  | AVar x, AVar y | AChannelReceive x, AChannelReceive y | AResourceRelease x, AResourceRelease y
  | ATaskAwait x, ATaskAwait y | ATaskCancel x, ATaskCancel y | ACellNew x, ACellNew y | ACellGet x, ACellGet y
  | AAbort x, AAbort y => bool_decide (x = y)
  | ACall x l, ACall y k | ATaskSpawn x l, ATaskSpawn y k | AResourceAcquire x l, AResourceAcquire y k =>
      bool_decide (x = y) && bool_decide (l = k)
  | AFieldGet r x, AFieldGet s y | AChannelSend r x, AChannelSend s y | ACellSet r x, ACellSet s y
  | AAssume r x, AAssume s y | AIndexGet r x, AIndexGet s y => bool_decide (r = s) && bool_decide (x = y)
  | AEffectCall c x l, AEffectCall d y k | ADispatch c x l, ADispatch d y k =>
      bool_decide (c = d) && bool_decide (x = y) && bool_decide (l = k)
  | ARuntimeCheck c x m, ARuntimeCheck d y n | AFold c x m, AFold d y n =>
      bool_decide (c = d) && bool_decide (x = y) && bool_decide (m = n)
  | AChannelNew x, AChannelNew y => bool_decide (x = y)
  | AMapNew l, AMapNew k => bool_decide (l = k)
  | ASetNew l, ASetNew k => bool_decide (l = k)
  | AContinue, AContinue | APlaceholder, APlaceholder => true
  | _, _ => false
  end.

(* ------------------------------------------------------------------ *)
(** ** The pass *)

(** The pure values met so far with the names that hold them *)
Abbreviation Seen := (list (AnfExpr * string)).

(** The new value of a let, and what is remembered of it *)
Definition share (name : string) (value : AnfExpr) (seen : Seen) : AnfExpr * Seen :=
  if is_pure value then
    match find_first (λ p : AnfExpr * string, anf_eqb p.1 value = true) seen with
    | Some (_, existing_name) => (AVar existing_name, seen)
    | None => (value, seen ++ [(value, name)])
    end
  else (value, seen).

(** The table is mutable: a let in the value of a let leaves its entries in the
    table, a branch works on a copy. *)
Fixpoint cse_expr (expr : AnfExpr) (seen : Seen) : AnfExpr * Seen :=
  match expr with
  | ALet name value body =>
      let '(value, seen) := cse_expr value seen in
      let '(new_value, seen) := share name value seen in
      let '(body, seen) := cse_expr body seen in
      (ALet name new_value body, seen)
  | AIf cond then_branch else_branch =>
      (AIf cond (cse_expr then_branch seen).1 (cse_expr else_branch seen).1, seen)
  | other => (other, seen)
  end.

Definition cse_bindings (bindings : list AnfBinding) : list AnfBinding :=
  (λ b, MkAnfBinding (ab_source_ref b) (ab_name b) (cse_expr (ab_expr b) []).1) <$> bindings.

(* ------------------------------------------------------------------ *)
(** ** Equality is exact without negative zeros *)

#[local] Set Warnings "-register-all".

Inductive floats_ok : AnfExpr → Prop :=
| floats_ok_intro e :
    (∀ bits, e = ALiteral (LFloat bits) → (bits < 2 ^ 64)%N ∧ bits ≠ (2 ^ 63)%N) →
    Forall floats_ok (children e) → floats_ok e.

Lemma float_eqb_eq a b :
  (a < 2 ^ 64)%N → (b < 2 ^ 64)%N → a ≠ (2 ^ 63)%N → b ≠ (2 ^ 63)%N → float_eqb a b = true → a = b.
Proof.
  unfold float_eqb, magnitude. intros Ha Hb Na Nb [_ H]%andb_true_iff. apply orb_true_iff in H as [H|H].
  - by apply N.eqb_eq.
  - apply andb_true_iff in H as [Ma%N.eqb_eq Mb%N.eqb_eq].
    assert (∀ x, (x < 2 ^ 64)%N → x ≠ (2 ^ 63)%N → (x mod 2 ^ 63)%N = 0%N → x = 0%N) as Hz.
    { intros x Hx Nx Hm. pose proof (N.div_mod x (2 ^ 63)) as Hd. rewrite Hm in Hd.
      assert (x / 2 ^ 63 < 2)%N by (apply N.Div0.div_lt_upper_bound; lia). lia. }
    by rewrite (Hz a), (Hz b).
Qed.

Lemma all2_eq {A} (f : A → A → bool) l k :
  (∀ x y, x ∈ l → y ∈ k → f x y = true → x = y) → all2 f l k = true → l = k.
Proof.
  revert k. induction l as [|x l IH]; intros [|y k] Hf; cbn; try done.
  intros [Hx Hl]%andb_true_iff. f_equal; [apply Hf; [left|left|done]|].
  apply IH; [|done]. intros u w Hu Hw. apply Hf; by right.
Qed.

Lemma floats_ok_children e : floats_ok e → Forall floats_ok (children e).
Proof. by intros []. Qed.

Lemma floats_ok_literal bits : floats_ok (ALiteral (LFloat bits)) → (bits < 2 ^ 64)%N ∧ bits ≠ (2 ^ 63)%N.
Proof. inversion 1. eauto. Qed.

Lemma anf_eqb_eq a b : floats_ok a → floats_ok b → anf_eqb a b = true → a = b.
Proof.
  revert b. induction a as [a IH] using AnfExpr_children_ind. intros b Ha Hb.
  assert (∀ x y, x ∈ children a → y ∈ children b → anf_eqb x y = true → x = y) as Hsub.
  { pose proof (floats_ok_children a Ha) as Ca. pose proof (floats_ok_children b Hb) as Cb.
    rewrite Forall_forall in IH, Ca, Cb. intros x y Hx Hy. apply IH; auto. }
  clear IH. destruct a; destruct b; try discriminate; cbn [anf_eqb children] in *;
    rewrite ?andb_true_iff, ?bool_decide_eq_true; try (intros; destruct_and?; congruence).
  all: try (intros; destruct_and?; subst; f_equal; apply Hsub; [by left|by left|done]).
  all: try (intros [[-> ?] ?]; f_equal; apply Hsub; [by left|by left|done|right; by left|right; by left|done]).
  all: try (intros; f_equal; by apply (all2_eq anf_eqb)).
  - destruct lit as [| |x| | |], lit0 as [| |y| | |]; try done; cbn; rewrite ?bool_decide_eq_true; try congruence.
    intros Hxy. apply floats_ok_literal in Ha as [? ?], Hb as [? ?]. do 2 f_equal. by apply float_eqb_eq.
  - intros [-> Hl]. f_equal. eapply all2_eq; [|exact Hl]. intros [p e] [q f] He Hf. rewrite andb_true_iff, bool_decide_eq_true.
    intros [-> ?]. f_equal. apply Hsub; [by apply (list_elem_of_fmap_2 arm_body) in He|
      by apply (list_elem_of_fmap_2 arm_body) in Hf|done].
  - intros Hl. f_equal. eapply all2_eq; [|exact Hl]. intros [p e] [q f] He Hf. rewrite andb_true_iff, bool_decide_eq_true.
    intros [-> ?]. f_equal. apply Hsub; [by apply (list_elem_of_fmap_2 snd) in He|by apply (list_elem_of_fmap_2 snd) in Hf|done].
  - destruct payload as [e|], payload0 as [f|]; intros [-> ?]; try done. do 2 f_equal. apply Hsub; [by left|by left|done].
  - intros Hl. f_equal. eapply all2_eq; [|exact Hl]. intros [p x e] [q y f] He Hf.
    rewrite !andb_true_iff, !bool_decide_eq_true. intros [[-> ->] ?]. f_equal.
    apply Hsub; [by apply (list_elem_of_fmap_2 clause_body) in He|by apply (list_elem_of_fmap_2 clause_body) in Hf|done].
Qed.

(* ------------------------------------------------------------------ *)
(** ** Sharing keeps values *)

Definition is_let (e : AnfExpr) : bool := match e with ALet _ _ _ => true | _ => false end.

(** The lets the pass visits bind names that are new: no earlier let of the
    same path binds the name or mentions it in its value; and no value of a let
    is itself a let.  [values] and [names] are what the path has bound so far. *)
Fixpoint cse_safe (values : list AnfExpr) (names : list string) (e : AnfExpr) : bool :=
  match e with
  | ALet x v b =>
      negb (is_let v) && cse_safe values names v && bool_decide (x ∉ names)
      && forallb (λ e', negb (uses_var e' x)) (v :: values) && cse_safe (v :: values) (x :: names) b
  | AIf _ t f => cse_safe values names t && cse_safe values names f
  | _ => true
  end.

Abbreviation cse e seen := (cse_expr e seen).1.

Lemma cse_let x v b seen :
  is_let v = false →
  cse (ALet x v b) seen =
  ALet x (share x (cse v seen) seen).1 (cse b (share x (cse v seen) seen).2).
Proof.
  intros Hv. cbn. assert (cse_expr v seen = (cse v seen, seen)) as -> by (by destruct v).
  destruct (share x _ seen) as [v' seen']. cbn. by destruct (cse_expr b seen').
Qed.

(** What sharing remembers: nothing, or the value under its name. *)
Lemma share_seen x v seen p :
  p ∈ (share x v seen).2 → p ∈ seen ∨ p = (v, x).
Proof.
  unfold share. destruct (is_pure v); [|by left]. destruct (find_first _ seen) as [[? ?]|]; [by left|]. cbn.
  rewrite elem_of_app, list_elem_of_singleton. done.
Qed.

Lemma share_value x v seen :
  (share x v seen).1 = v ∨
  ∃ e n, (e, n) ∈ seen ∧ anf_eqb e v = true ∧ (share x v seen).1 = AVar n.
Proof.
  unfold share. destruct (is_pure v); [|by left].
  destruct (find_first (λ p : AnfExpr * string, anf_eqb p.1 v = true) seen) as [[e n]|] eqn:E; [|by left]. right.
  apply find_first_Some in E as [Hin He]. by exists e, n.
Qed.

(** Sharing mentions only names of the expression and of the table. *)
Lemma cse_uses e values names seen y :
  cse_safe values names e = true → uses_var (cse e seen) y = true → uses_var e y = true ∨ y ∈ seen.*2.
Proof.
  revert values names seen. induction e as [e IH] using AnfExpr_children_ind. intros values names seen Hs.
  destruct e; try (by left); cbn [children cse_safe] in IH, Hs; apply Forall_cons in IH as [IH1 [IH2 _]%Forall_cons].
  - rewrite !andb_true_iff, negb_true_iff in Hs. destruct Hs as [[[[Hl Hs1] _] _] Hs2]. rewrite cse_let by done.
    cbn [uses_var]. rewrite !orb_true_iff, !andb_true_iff, bool_decide_eq_true. intros [Hv|[Hne Hb]].
    + destruct (share_value name (cse e1 seen) seen) as [E|(e & n & Hin & _ & E)]; rewrite E in Hv.
      * destruct (IH1 _ _ _ Hs1 Hv); auto.
      * cbn in Hv. apply bool_decide_eq_true in Hv as ->. right. by apply (list_elem_of_fmap_2 snd) in Hin.
    + destruct (IH2 _ _ _ Hs2 Hb) as [?|Hy]; [auto|]. right. apply list_elem_of_fmap in Hy as ([e n] & -> & Hin).
      apply share_seen in Hin as [Hin|[= -> ->]]; [by apply (list_elem_of_fmap_2 snd) in Hin|done].
  - rewrite andb_true_iff in Hs. destruct Hs as [Hs1 Hs2]. cbn [cse_expr uses_var fst]. rewrite !orb_true_iff.
    intros [[?|Ht]|Hf]; [auto|destruct (IH1 _ _ _ Hs1 Ht); auto|destruct (IH2 _ _ _ Hs2 Hf); auto].
Qed.

Section CseSound.
Context `{CallSemantics}.

(** Every remembered value is the value of its name, and mentions names of the
    path only. *)
Definition seen_ok (seen : Seen) (values : list AnfExpr) (names : list string) (ρ : Scope) : Prop :=
  ∀ e n, (e, n) ∈ seen →
    floats_ok e ∧ n ∈ names ∧ (∃ w, eval ρ e = Some w ∧ ρ !! n = Some w) ∧
    ∀ y, uses_var e y = true → y ∈ names ∨ ∃ e', e' ∈ values ∧ uses_var e' y = true.

(** A let whose name is new to the path *)
Lemma seen_ok_let seen values names ρ x v v' w :
  seen_ok seen values names ρ → floats_ok v' → eval ρ v' = Some w → x ∉ names →
  (∀ e, e ∈ v :: values → uses_var e x = false) →
  (∀ y, uses_var v' y = true → uses_var v y = true ∨ y ∈ seen.*2) →
  seen_ok (share x v' seen).2 (v :: values) (x :: names) (<[x := w]> ρ).
Proof.
  intros Hok Hf Hw Hx Hun Hus e n Hin. apply share_seen in Hin as [Hin|[= -> ->]].
  - destruct (Hok e n Hin) as (He & Hn & (u & Hu & Hnu) & Huses).
    assert (uses_var e x = false) as Hex.
    { apply not_true_is_false. intros [Hin'|(e' & He' & Hu')]%Huses; [done|]. rewrite Hun in Hu' by (by right). done. }
    split_and!; [done|by right| |].
    + exists u. rewrite eval_unused, lookup_insert_ne by (done || by intros ->). done.
    + intros y [?|(e' & ? & ?)]%Huses; [left; by right|right]. exists e'. split; [by right|done].
  - assert (∀ y, uses_var v' y = true → y ∈ names ∨ uses_var v y = true) as Hy.
    { intros y [?|Hs]%Hus; [by right|left]. apply list_elem_of_fmap in Hs as ([e n] & -> & Hin). by destruct (Hok e n Hin) as (_ & ? & _). }
    split_and!; [done|by left| |].
    + exists w. rewrite lookup_insert_eq, eval_unused; [done|]. apply not_true_is_false.
      intros [?|Hv]%Hy; [done|]. rewrite Hun in Hv by (by left). done.
    + intros y [?|?]%Hy; [left; by right|right]. exists v. split; [by left|done].
Qed.

(** A condition on the parts of an expression that sharing keeps *)
Lemma cse_part (P : AnfExpr → Prop) e seen :
  (∀ n, P (AVar n)) → (∀ x v b, P (ALet x v b) ↔ P v ∧ P b) → (∀ c t f, P (AIf c t f) ↔ P t ∧ P f) →
  P e → (∀ e' n, (e', n) ∈ seen → P e') → P (cse e seen) ∧ ∀ e' n, (e', n) ∈ (cse_expr e seen).2 → P e'.
Proof.
  intros Pvar Plet Pif. revert seen. induction e as [e IH] using AnfExpr_children_ind. intros seen He Hs.
  destruct e; try done; cbn [children] in IH; apply Forall_cons in IH as [IH1 [IH2 _]%Forall_cons].
  - apply Plet in He as [H1 H2]. cbn [cse_expr]. destruct (IH1 seen H1 Hs) as [Hv Hsv].
    destruct (cse_expr e1 seen) as [v' s1] eqn:E1. cbn in Hv, Hsv.
    assert (P (share name v' s1).1) as Hn by (destruct (share_value name v' s1) as [->|(? & n & _ & _ & ->)]; done).
    assert (∀ e' n, (e', n) ∈ (share name v' s1).2 → P e') as Hs2.
    { intros e' n [Hin|[= -> ->]]%share_seen; [by eapply Hsv|done]. }
    destruct (share name v' s1) as [v2 s2]. destruct (IH2 s2 H2 Hs2) as [Hb Hsb].
    destruct (cse_expr e2 s2) as [b' s3]. split; [by apply Plet|done].
  - apply Pif in He as [H1 H2]. cbn [cse_expr fst snd]. destruct (IH1 seen H1 Hs) as [Ht _].
    destruct (IH2 seen H2 Hs) as [He _]. split; [by apply Pif|done].
Qed.

(** Conditions on literals are such conditions. *)
Lemma parts_floats :
  (∀ n, floats_ok (AVar n)) ∧ (∀ x v b, floats_ok (ALet x v b) ↔ floats_ok v ∧ floats_ok b) ∧
  (∀ c t f, floats_ok (AIf c t f) ↔ floats_ok t ∧ floats_ok f).
Proof.
  split_and!; [by constructor|intros ? v b|intros ? v b];
    (split; [intros [Hv [Hb _]%Forall_cons]%floats_ok_children%Forall_cons; done|]);
    intros [? ?]; (constructor; [done|]); by apply Forall_cons_2; [|apply Forall_singleton].
Qed.

Lemma cse_floats e seen : floats_ok e → (∀ e' n, (e', n) ∈ seen → floats_ok e') → floats_ok (cse e seen).
Proof. intros. by apply cse_part; try apply parts_floats. Qed.

Lemma cse_keeps e values names seen ρ v :
  cse_safe values names e = true → floats_ok e → seen_ok seen values names ρ →
  eval ρ e = Some v → eval ρ (cse e seen) = Some v.
Proof.
  revert values names seen ρ v. induction e as [e IH] using AnfExpr_children_ind. intros values names seen ρ v Hs Hf Hok.
  pose proof (floats_ok_children e Hf) as Hch.
  assert (∀ e' n, (e', n) ∈ seen → floats_ok e') as Hsf by (intros e' n Hin; by destruct (Hok e' n Hin)).
  destruct e; try done; cbn [children cse_safe] in IH, Hs, Hch; apply Forall_cons in IH as [IH1 [IH2 _]%Forall_cons];
    apply Forall_cons in Hch as [H1 [H2 _]%Forall_cons].
  - rewrite !andb_true_iff, negb_true_iff, bool_decide_eq_true, forallb_elem in Hs. destruct Hs as [[[[Hl Hs1] Hx] Hun] Hs2].
    setoid_rewrite negb_true_iff in Hun. rewrite cse_let by done. cbn [eval]. intros (w & Hw & Hb)%bind_Some.
    pose proof (IH1 _ _ _ _ _ Hs1 H1 Hok Hw) as Hw'. pose proof (cse_floats e1 seen H1 Hsf) as Hfv.
    apply bind_Some. exists w. split.
    + destruct (share_value name (cse e1 seen) seen) as [->|(e & n & Hin & He & ->)]; [done|].
      destruct (Hok e n Hin) as (Hfe & _ & (u & Hu & Hn) & _). apply anf_eqb_eq in He; [|done|done]. subst e.
      cbn. congruence.
    + eapply IH2; [done|done| |done]. eapply (seen_ok_let seen values names ρ name e1); try done.
      intros y Hy. by eapply cse_uses.
  - rewrite andb_true_iff in Hs. destruct Hs as [Hs1 Hs2]. cbn [cse_expr eval fst].
    intros (w & Hw & (z & Hz & He)%bind_Some)%bind_Some. rewrite Hw. cbn. rewrite Hz. cbn. case_decide; eauto.
Qed.
End CseSound.

Lemma cse_lits e : lits_ok e → lits_ok (cse e []).
Proof.
  intros He. apply cse_part; [by constructor| | |done|by intros ? ? ?%not_elem_of_nil]; intros ? v b;
    (split; [intros [Hv [Hb _]%Forall_cons]%lits_ok_children%Forall_cons; done|]);
    intros [? ?]; (constructor; [done|]); by apply Forall_cons_2; [|apply Forall_singleton].
Qed.

(* ------------------------------------------------------------------ *)
(** ** Inputs outside the guarantees *)

(** A rebound variable: [a] and [b] are not the same [x]. *)
Example shadowed_variable :
  cse (ALet "a" (ACall "neg" ["x"]) (ALet "x" (ALiteral (LInt 1)) (ALet "b" (ACall "neg" ["x"]) (AVar "b")))) []
  = ALet "a" (ACall "neg" ["x"]) (ALet "x" (ALiteral (LInt 1)) (ALet "b" (AVar "a") (AVar "b"))).
Proof. reflexivity. Qed.

(** A let in the value of a let: [t] is not in scope where it is referred to. *)
Example leaked_name :
  cse (ALet "a" (ALet "t" (ACall "neg" ["x"]) (AVar "t")) (ALet "b" (ACall "neg" ["x"]) (AVar "b"))) []
  = ALet "a" (ALet "t" (ACall "neg" ["x"]) (AVar "t")) (ALet "b" (AVar "t") (AVar "b")).
Proof. reflexivity. Qed.

(** The two zeros are taken for the same literal. *)
Example negative_zero :
  cse (ALet "a" (ALiteral (LFloat 0)) (ALet "b" (ALiteral (LFloat (2 ^ 63))) (AVar "b"))) []
  = ALet "a" (ALiteral (LFloat 0)) (ALet "b" (AVar "a") (AVar "b")).
Proof. reflexivity. Qed.

(** An effect inside a tuple runs once instead of twice. *)
Example shared_effect :
  let e := ATupleNew [AEffectCall "log" "write" []] in
  effects (cse (ALet "a" e (ALet "b" e (AVar "b"))) []) = [AEffectCall "log" "write" []].
Proof. reflexivity. Qed.
