(* ===== verification/WasmMachine.v ===== *)
(** * A machine for straight-line WebAssembly

    The instructions that the code generator of crates/ail-compiler/src/
    wasm_emit emits for integer calls, and their execution: integer
    instructions on 32- and 64-bit patterns, locals, and [if]/[else]/[end].
    Values are bit patterns, as in the WebAssembly specification; [signed] is
    the two's complement reading.  The machine runs over the flat instruction
    sequence once, so that it needs no fuel: in mode [Run] it executes, in modes
    [SkipThen d] and [SkipElse d] it looks for the [else] or [end] of the
    innermost branch it skips, [d] counting the branches nested in that one. *)

From S2P Require Import Prelude I64.

#[local] Open Scope Z_scope.

(* ------------------------------------------------------------------ *)
(** ** Instructions and their execution *)

Inductive ValType : Type := I32 | I64.

#[global] Instance ValType_eq_dec : EqDecision ValType.
Proof. solve_decision. Defined.

Inductive Instruction : Type :=
| LocalGet (idx : N)
| LocalSet (idx : N)
| I64Const (n : Z)
| I64Add | I64Sub | I64Mul | I64DivS | I64RemS
| I64And | I64Or | I64Xor | I64Shl | I64ShrS | I64ShrU
| I64Eq | I64Ne | I64LtS | I64LeS | I64GtS | I64GeS | I64Eqz
| I32And | I32Or | I32Xor
| I32WrapI64 | I64ExtendI32U
| If (result : ValType) | Else | End
| Call (idx : N)
| Unreachable.

(** A value of the machine: a bit pattern with its type. *)
Inductive WVal : Type := W32 (bits : Z) | W64 (bits : Z).

Definition type_of (v : WVal) : ValType := match v with W32 _ => I32 | W64 _ => I64 end.

Definition bits (z : Z) : Z := z mod i64_modulus.
Definition signed (b : Z) : Z := if b <? 2 ^ 63 then b else b - i64_modulus.
Definition b2w (b : bool) : WVal := W32 (Z.b2z b).

Record Machine : Type := MkMachine { stack : list WVal; locals : list WVal }.

(** [Trap] is a run-time trap, [Stuck] a sequence no validator accepts, or a
    call, which the machine does not enter. *)
Inductive Stop : Type := Trap | Stuck.

Inductive Mode : Type := Run | SkipThen (d : nat) | SkipElse (d : nat).

Definition i64_binop (i : Instruction) (a b : Z) : option (result WVal Stop) :=
  match i with
  | I64Add => Some (Ok (W64 ((a + b) mod i64_modulus)))
  | I64Sub => Some (Ok (W64 ((a - b) mod i64_modulus)))
  | I64Mul => Some (Ok (W64 ((a * b) mod i64_modulus)))
  | I64DivS =>
      Some (if decide (b = 0) then Err Trap
            else let q := Z.quot (signed a) (signed b) in
              if decide (in_i64 q) then Ok (W64 (bits q)) else Err Trap)
  | I64RemS =>
      Some (if decide (b = 0) then Err Trap else Ok (W64 (bits (Z.rem (signed a) (signed b)))))
  | I64And => Some (Ok (W64 (Z.land a b)))
  | I64Or => Some (Ok (W64 (Z.lor a b)))
  | I64Xor => Some (Ok (W64 (Z.lxor a b)))
  | I64Shl => Some (Ok (W64 (Z.shiftl a (b mod 64) mod i64_modulus)))
  | I64ShrS => Some (Ok (W64 (bits (Z.shiftr (signed a) (b mod 64)))))
  | I64ShrU => Some (Ok (W64 (Z.shiftr a (b mod 64))))
  | I64Eq => Some (Ok (b2w (a =? b)))
  | I64Ne => Some (Ok (b2w (negb (a =? b))))
  | I64LtS => Some (Ok (b2w (signed a <? signed b)))
  | I64LeS => Some (Ok (b2w (signed a <=? signed b)))
  | I64GtS => Some (Ok (b2w (signed a >? signed b)))
  | I64GeS => Some (Ok (b2w (signed a >=? signed b)))
  | _ => None
  end.

Definition i32_binop (i : Instruction) (a b : Z) : option WVal :=
  match i with
  | I32And => Some (W32 (Z.land a b))
  | I32Or => Some (W32 (Z.lor a b))
  | I32Xor => Some (W32 (Z.lxor a b))
  | _ => None
  end.

(** One instruction outside control flow. *)
Definition step (i : Instruction) (m : Machine) : result Machine Stop :=
  match i, stack m with
  | LocalGet idx, st =>
      match locals m !! N.to_nat idx with
      | Some v => Ok (MkMachine (v :: st) (locals m))
      | None => Err Stuck
      end
  | LocalSet idx, v :: st =>
      match locals m !! N.to_nat idx with
      | Some old =>
          if decide (type_of old = type_of v)
          then Ok (MkMachine st (<[N.to_nat idx := v]> (locals m)))
          else Err Stuck
      | None => Err Stuck
      end
  | I64Const n, st => Ok (MkMachine (W64 (bits n) :: st) (locals m))
  | I64Eqz, W64 a :: st => Ok (MkMachine (b2w (a =? 0) :: st) (locals m))
  | I32WrapI64, W64 a :: st => Ok (MkMachine (W32 (a mod 2 ^ 32) :: st) (locals m))
  | I64ExtendI32U, W32 a :: st => Ok (MkMachine (W64 a :: st) (locals m))
  | Unreachable, _ => Err Trap
  | _, W64 b :: W64 a :: st =>
      match i64_binop i a b with
      | Some (Ok v) => Ok (MkMachine (v :: st) (locals m))
      | Some (Err stop) => Err stop
      | None => Err Stuck
      end
  | _, W32 b :: W32 a :: st =>
      match i32_binop i a b with
      | Some v => Ok (MkMachine (v :: st) (locals m))
      | None => Err Stuck
      end
  | _, _ => Err Stuck
  end.

Fixpoint exec (code : list Instruction) (mode : Mode) (m : Machine) : result Machine Stop :=
  match code with
  | [] => Ok m
  | i :: code' =>
      match mode, i with
      | Run, If _ =>
          match stack m with
          | W32 c :: st =>
              exec code' (if decide (c = 0) then SkipThen 0 else Run) (MkMachine st (locals m))
          | _ => Err Stuck
          end
      | Run, Else => exec code' (SkipElse 0) m
      | Run, End => exec code' Run m
      | Run, _ => let? m' := step i m in exec code' Run m'
      | SkipThen d, If _ => exec code' (SkipThen (S d)) m
      | SkipThen 0, (Else | End) => exec code' Run m
      | SkipThen (S d), End => exec code' (SkipThen d) m
      | SkipThen d, _ => exec code' (SkipThen d) m
      | SkipElse d, If _ => exec code' (SkipElse (S d)) m
      | SkipElse 0, End => exec code' Run m
      | SkipElse (S d), End => exec code' (SkipElse d) m
      | SkipElse d, _ => exec code' (SkipElse d) m
      end
  end.

(* ------------------------------------------------------------------ *)
(** ** Bit patterns *)

Lemma bits_range z : 0 ≤ bits z < i64_modulus.
Proof. by apply Z.mod_pos_bound. Qed.

Lemma bits_wrap z : bits (wrap z) = bits z.
Proof. apply wrap_mod. Qed.

Lemma bits_small z : 0 ≤ z < i64_modulus → bits z = z.
Proof. apply Z.mod_small. Qed.

Lemma bits_neg z : i64_MIN ≤ z < 0 → bits z = z + i64_modulus.
Proof.
  intros Hz. unfold bits. rewrite <- (Z_mod_plus_full z 1), Z.mul_1_l.
  apply Z.mod_small. i64_lia.
Qed.

Lemma signed_bits z : in_i64 z → signed (bits z) = z.
Proof.
  intros Hz. unfold signed. destruct (Z_lt_dec z 0).
  - rewrite bits_neg by i64_lia. case_match; i64_lia.
  - rewrite bits_small by i64_lia. case_match; i64_lia.
Qed.

Lemma bits_inj a b : in_i64 a → in_i64 b → bits a = bits b → a = b.
Proof. intros Ha Hb Heq. by rewrite <- (signed_bits a), <- (signed_bits b), Heq. Qed.

Lemma bits_eqb a b : in_i64 a → in_i64 b → (bits a =? bits b) = (a =? b).
Proof.
  intros Ha Hb. destruct (Z.eqb_spec a b) as [->|Hne]; [by apply Z.eqb_refl|].
  apply Z.eqb_neq. intros Heq. by apply Hne, bits_inj.
Qed.

Lemma bits_zero a : in_i64 a → bits a = 0 ↔ a = 0.
Proof. intros Ha. split; [|by intros ->]. intros Heq. by apply bits_inj. Qed.

Lemma bits_add a b : (bits a + bits b) mod i64_modulus = bits (a + b).
Proof. symmetry. by apply Z.add_mod. Qed.

Lemma bits_sub a b : (bits a - bits b) mod i64_modulus = bits (a - b).
Proof. symmetry. apply Zminus_mod. Qed.

Lemma bits_mul a b : (bits a * bits b) mod i64_modulus = bits (a * b).
Proof. symmetry. by apply Z.mul_mod. Qed.

(** A bitwise operation acts on the low 64 bits alone. *)
Lemma bits_bitwise (f : Z → Z → Z) (g : bool → bool → bool) a b :
  (∀ x y n, 0 ≤ n → Z.testbit (f x y) n = g (Z.testbit x n) (Z.testbit y n)) → g false false = false →
  f (bits a) (bits b) = bits (f a b).
Proof.
  intros Hf Hg. apply Z.bits_inj'. intros n Hn. unfold bits, i64_modulus.
  rewrite Hf by done. destruct (Z_lt_dec n 64).
  - by rewrite !Z.mod_pow2_bits_low, Hf by lia.
  - rewrite !Z.mod_pow2_bits_high by lia. apply Hg.
Qed.

Lemma bits_land a b : Z.land (bits a) (bits b) = bits (Z.land a b).
Proof. apply (bits_bitwise _ andb); [|done]. intros. apply Z.land_spec. Qed.

Lemma bits_lor a b : Z.lor (bits a) (bits b) = bits (Z.lor a b).
Proof. apply (bits_bitwise _ orb); [|done]. intros. apply Z.lor_spec. Qed.

Lemma bits_lxor a b : Z.lxor (bits a) (bits b) = bits (Z.lxor a b).
Proof. apply (bits_bitwise _ xorb); [|done]. intros. apply Z.lxor_spec. Qed.

Lemma bits_as_shift amount : (bits amount mod 2 ^ 32) mod 64 = as_shift amount.
Proof.
  unfold as_shift, bits, i64_modulus. f_equal. apply Z.mod_mod_divide. by exists (2 ^ 32).
Qed.

Lemma bits_shl a k : 0 ≤ k → Z.shiftl (bits a) k mod i64_modulus = bits (wrap (Z.shiftl a k)).
Proof.
  intros Hk. rewrite bits_wrap. unfold bits. rewrite !Z.shiftl_mul_pow2 by done.
  apply Z.mul_mod_idemp_l. i64_lia.
Qed.

Lemma bits_shr_u a k :
  0 ≤ k → Z.shiftr (bits a) k = bits (wrap (Z.shiftr (a mod i64_modulus) k)).
Proof.
  intros Hk. rewrite bits_wrap, (bits_small (Z.shiftr _ _)); [done|].
  pose proof (bits_range a) as Ha. unfold bits in Ha. rewrite Z.shiftr_div_pow2 by done.
  assert (0 < 2 ^ k) by (by apply Z.pow_pos_nonneg).
  split; [apply Z.div_pos; lia|]. apply Z.div_lt_upper_bound; nia.
Qed.

(* ------------------------------------------------------------------ *)
(** ** Symbolic execution *)

Definition is_control (i : Instruction) : bool :=
  match i with If _ | Else | End => true | _ => false end.

(** A binary instruction on words, read as signed integers. *)
Definition word_binop (i : Instruction) (a b : Z) : option (result WVal Stop) :=
  match i with
  | I64Add => Some (Ok (W64 (bits (wrap (a + b)))))
  | I64Sub => Some (Ok (W64 (bits (wrap (a - b)))))
  | I64Mul => Some (Ok (W64 (bits (wrap (a * b)))))
  | I64DivS =>
      Some (match checked_div a b with Some q => Ok (W64 (bits q)) | None => Err Trap end)
  | I64RemS => Some (if decide (b = 0) then Err Trap else Ok (W64 (bits (Z.rem a b))))
  | I64And => Some (Ok (W64 (bits (Z.land a b))))
  | I64Or => Some (Ok (W64 (bits (Z.lor a b))))
  | I64Xor => Some (Ok (W64 (bits (Z.lxor a b))))
  | I64Eq => Some (Ok (b2w (a =? b)))
  | I64Ne => Some (Ok (b2w (negb (a =? b))))
  | I64LtS => Some (Ok (b2w (a <? b)))
  | I64LeS => Some (Ok (b2w (a <=? b)))
  | I64GtS => Some (Ok (b2w (a >? b)))
  | I64GeS => Some (Ok (b2w (a >=? b)))
  | _ => None
  end.

Lemma i64_binop_bits i a b r :
  in_i64 a → in_i64 b → word_binop i a b = Some r → i64_binop i (bits a) (bits b) = Some r.
Proof.
  intros Ha Hb. destruct i; simpl; try done;
    rewrite ?bits_add, ?bits_sub, ?bits_mul, ?bits_land, ?bits_lor, ?bits_lxor, ?bits_wrap,
      ?bits_eqb, ?signed_bits by done; try done.
  - intros <-. f_equal. unfold checked_div, checked.
    rewrite (decide_ext (bits b = 0) (b = 0)) by (by apply bits_zero). by repeat case_decide.
  - intros <-. by rewrite (decide_ext (bits b = 0) (b = 0)) by (by apply bits_zero).
Qed.

(** The instructions of a run, one lemma per kind. *)
Lemma exec_word i k a b r st L :
  in_i64 a → in_i64 b → word_binop i a b = Some r →
  exec (i :: k) Run (MkMachine (W64 (bits b) :: W64 (bits a) :: st) L) =
  match r with Ok v => exec k Run (MkMachine (v :: st) L) | Err e => Err e end.
Proof.
  intros Ha Hb Hr. pose proof (i64_binop_bits i a b r Ha Hb Hr) as Hi.
  destruct i; simpl in Hr; try discriminate Hr; cbn [exec step stack locals]; rewrite Hi; by destruct r.
Qed.

Lemma exec_get i k v st L :
  L !! N.to_nat i = Some v →
  exec (LocalGet i :: k) Run (MkMachine st L) = exec k Run (MkMachine (v :: st) L).
Proof. intros Hv. cbn [exec step stack locals]. by rewrite Hv. Qed.

Lemma exec_set i k v st L old :
  L !! N.to_nat i = Some old → type_of old = type_of v →
  exec (LocalSet i :: k) Run (MkMachine (v :: st) L) =
  exec k Run (MkMachine st (<[N.to_nat i := v]> L)).
Proof. intros Hv Hty. cbn [exec step stack locals]. by rewrite Hv, decide_True. Qed.

Lemma exec_const n k st L :
  exec (I64Const n :: k) Run (MkMachine st L) = exec k Run (MkMachine (W64 (bits n) :: st) L).
Proof. done. Qed.

Lemma exec_and c d k st L :
  exec (I32And :: k) Run (MkMachine (b2w d :: b2w c :: st) L) =
  exec k Run (MkMachine (b2w (c && d) :: st) L).
Proof. by destruct c, d. Qed.

Lemma exec_or c d k st L :
  exec (I32Or :: k) Run (MkMachine (b2w d :: b2w c :: st) L) =
  exec k Run (MkMachine (b2w (c || d) :: st) L).
Proof. by destruct c, d. Qed.

Lemma exec_xor c d k st L :
  exec (I32Xor :: k) Run (MkMachine (b2w d :: b2w c :: st) L) =
  exec k Run (MkMachine (b2w (xorb c d) :: st) L).
Proof. by destruct c, d. Qed.

Lemma exec_extend c k st L :
  exec (I64ExtendI32U :: k) Run (MkMachine (b2w c :: st) L) =
  exec k Run (MkMachine (W64 (bits (Z.b2z c)) :: st) L).
Proof. by destruct c. Qed.

Lemma exec_if ty c k st L :
  exec (If ty :: k) Run (MkMachine (b2w c :: st) L) =
  exec k (if c then Run else SkipThen 0) (MkMachine st L).
Proof. by destruct c. Qed.

Lemma exec_else k m : exec (Else :: k) Run m = exec k (SkipElse 0) m.
Proof. done. Qed.

Lemma exec_end k m : exec (End :: k) Run m = exec k Run m.
Proof. done. Qed.

Lemma exec_skip_then i k d m :
  is_control i = false → exec (i :: k) (SkipThen d) m = exec k (SkipThen d) m.
Proof. by destruct i, d. Qed.

Lemma exec_skip_else i k d m :
  is_control i = false → exec (i :: k) (SkipElse d) m = exec k (SkipElse d) m.
Proof. by destruct i, d. Qed.

(** How the skipping modes treat control instructions. *)
Definition skip_control (mode : Mode) (i : Instruction) : Mode :=
  match mode, i with
  | SkipThen d, If _ => SkipThen (S d)
  | SkipThen 0, (Else | End) => Run
  | SkipThen (S d), End => SkipThen d
  | SkipElse d, If _ => SkipElse (S d)
  | SkipElse 0, End => Run
  | SkipElse (S d), End => SkipElse d
  | _, _ => mode
  end.

Lemma exec_skip_control mode i k m :
  mode ≠ Run → is_control i = true → exec (i :: k) mode m = exec k (skip_control mode i) m.
Proof. by destruct mode as [|[]|[]], i. Qed.
