(* ===== verification/WasmInt.v ===== *)
(** * WASM code for integer calls

    crates/ail-compiler/src/wasm_emit/mod.rs ([WasmCodegenCtx] with [lookup],
    [bind], [bind_temp]; [emit_i64_primitive_call]), control.rs
    ([emit_local_as_i64]), int.rs (all of it) and the integer part of
    [emit_call_expr] in expr/calls.rs, run on the machine of WasmMachine.v and
    compared with the constant folder. *)

From S2P Require Import Prelude Text GraphTypes I64 Anf ConstFold AnfEval WasmMachine.

#[local] Open Scope Z_scope.

(* ------------------------------------------------------------------ *)
(** ** The code generator's context *)

(** The part of [WasmCodegenCtx] that integer calls use. *)
Record WasmCodegenCtx : Type := MkCtx {
  ctx_locals : list (string * N * ValType);
  next_local : N;
  local_types : list ValType;
}.

(** [WasmCodegenCtx::new] *)
Definition ctx_new (params : list string) : WasmCodegenCtx :=
  MkCtx (imap (λ idx name, (name, N.of_nat idx, I64)) params) (N.of_nat (length params)) [].

(** The most recently bound name wins. *)
Definition lookup_local (ctx : WasmCodegenCtx) (name : string) : option (N * ValType) :=
  (λ '(_, i, ty), (i, ty)) <$> find_first (λ '(n, _, _), n = name) (reverse (ctx_locals ctx)).

Definition bind_local (name : string) (ty : ValType) (ctx : WasmCodegenCtx)
  : N * WasmCodegenCtx :=
  let idx := next_local ctx in
  (idx, MkCtx (ctx_locals ctx ++ [(name, idx, ty)]) (idx + 1) (local_types ctx ++ [ty])).

Definition bind_temp (ty : ValType) (ctx : WasmCodegenCtx) : N * WasmCodegenCtx :=
  let idx := next_local ctx in
  (idx, MkCtx (ctx_locals ctx) (idx + 1) (local_types ctx ++ [ty])).

(** What an emitter gives: the instructions it pushes, the context it leaves and
    the type of the value on the stack. *)
Abbreviation Emitted := (list Instruction * WasmCodegenCtx * option ValType)%type.

Definition emit_local_as_i64 (ctx : WasmCodegenCtx) (name : string) : list Instruction :=
  match lookup_local ctx name with
  | Some (idx, ty) => LocalGet idx :: (if decide (ty = I32) then [I64ExtendI32U] else [])
  | None => [Unreachable]
  end.

(** [insns.push(Unreachable); return None]: the wrong number of arguments. *)
Definition bad_arity (ctx : WasmCodegenCtx) : Emitted := ([Unreachable], ctx, None).

Definition emits (ctx : WasmCodegenCtx) (code : list (list Instruction)) : Emitted :=
  (concat code, ctx, Some I64).

(* ------------------------------------------------------------------ *)
(** ** int.rs *)

Definition emit_int_min (args : list string) (ctx : WasmCodegenCtx) : Emitted :=
  match args with
  | [lhs; rhs] =>
      emits ctx
        [emit_local_as_i64 ctx lhs; emit_local_as_i64 ctx rhs; [I64LeS; If I64];
         emit_local_as_i64 ctx lhs; [Else]; emit_local_as_i64 ctx rhs; [End]]
  | _ => bad_arity ctx
  end.

Definition emit_int_max (args : list string) (ctx : WasmCodegenCtx) : Emitted :=
  match args with
  | [lhs; rhs] =>
      emits ctx
        [emit_local_as_i64 ctx lhs; emit_local_as_i64 ctx rhs; [I64GeS; If I64];
         emit_local_as_i64 ctx lhs; [Else]; emit_local_as_i64 ctx rhs; [End]]
  | _ => bad_arity ctx
  end.

Definition emit_int_clamp (args : list string) (ctx : WasmCodegenCtx) : Emitted :=
  match args with
  | [value; low; high] =>
      emits ctx
        [emit_local_as_i64 ctx value; emit_local_as_i64 ctx low; [I64LtS; If I64];
         emit_local_as_i64 ctx low; [Else];
         emit_local_as_i64 ctx value; emit_local_as_i64 ctx high; [I64GtS; If I64];
         emit_local_as_i64 ctx high; [Else]; emit_local_as_i64 ctx value; [End; End]]
  | _ => bad_arity ctx
  end.

Definition emit_int_abs_or (args : list string) (ctx : WasmCodegenCtx) : Emitted :=
  match args with
  | [value; fallback] =>
      emits ctx
        [emit_local_as_i64 ctx value; [I64Const i64_MIN; I64Eq; If I64];
         emit_local_as_i64 ctx fallback; [Else];
         emit_local_as_i64 ctx value; [I64Const 0; I64LtS; If I64; I64Const 0];
         emit_local_as_i64 ctx value; [I64Sub; Else];
         emit_local_as_i64 ctx value; [End; End]]
  | _ => bad_arity ctx
  end.

Definition emit_int_neg_or (args : list string) (ctx : WasmCodegenCtx) : Emitted :=
  match args with
  | [value; fallback] =>
      emits ctx
        [emit_local_as_i64 ctx value; [I64Const i64_MIN; I64Eq; If I64];
         emit_local_as_i64 ctx fallback; [Else; I64Const 0];
         emit_local_as_i64 ctx value; [I64Sub; End]]
  | _ => bad_arity ctx
  end.

(** [let x = ctx.bind_temp(I64); emit_local_as_i64(arg); LocalSet(x)] *)
Definition load_temp (ctx : WasmCodegenCtx) (arg : string) (idx : N) : list Instruction :=
  emit_local_as_i64 ctx arg ++ [LocalSet idx].

Definition emit_int_add_or (args : list string) (ctx : WasmCodegenCtx) : Emitted :=
  match args with
  | [left_arg; right_arg; fallback_arg] =>
      let '(lhs, ctx) := bind_temp I64 ctx in
      let load_left := load_temp ctx left_arg lhs in
      let '(rhs, ctx) := bind_temp I64 ctx in
      let load_right := load_temp ctx right_arg rhs in
      let '(fallback, ctx) := bind_temp I64 ctx in
      let load_fallback := load_temp ctx fallback_arg fallback in
      let '(sum, ctx) := bind_temp I64 ctx in
      emits ctx
        [load_left; load_right; load_fallback;
         [LocalGet lhs; LocalGet rhs; I64Add; LocalSet sum;
          LocalGet rhs; I64Const 0; I64GtS; LocalGet sum; LocalGet lhs; I64LtS; I32And;
          LocalGet rhs; I64Const 0; I64LtS; LocalGet sum; LocalGet lhs; I64GtS; I32And;
          I32Or; If I64; LocalGet fallback; Else; LocalGet sum; End]]
  | _ => bad_arity ctx
  end.

Definition emit_int_sub_or (args : list string) (ctx : WasmCodegenCtx) : Emitted :=
  match args with
  | [left_arg; right_arg; fallback_arg] =>
      let '(lhs, ctx) := bind_temp I64 ctx in
      let load_left := load_temp ctx left_arg lhs in
      let '(rhs, ctx) := bind_temp I64 ctx in
      let load_right := load_temp ctx right_arg rhs in
      let '(fallback, ctx) := bind_temp I64 ctx in
      let load_fallback := load_temp ctx fallback_arg fallback in
      let '(diff, ctx) := bind_temp I64 ctx in
      emits ctx
        [load_left; load_right; load_fallback;
         [LocalGet lhs; LocalGet rhs; I64Sub; LocalSet diff;
          LocalGet rhs; I64Const 0; I64GtS; LocalGet diff; LocalGet lhs; I64GtS; I32And;
          LocalGet rhs; I64Const 0; I64LtS; LocalGet diff; LocalGet lhs; I64LtS; I32And;
          I32Or; If I64; LocalGet fallback; Else; LocalGet diff; End]]
  | _ => bad_arity ctx
  end.

Definition emit_int_mul_or (args : list string) (ctx : WasmCodegenCtx) : Emitted :=
  match args with
  | [left_arg; right_arg; fallback_arg] =>
      let '(lhs, ctx) := bind_temp I64 ctx in
      let load_left := load_temp ctx left_arg lhs in
      let '(rhs, ctx) := bind_temp I64 ctx in
      let load_right := load_temp ctx right_arg rhs in
      let '(fallback, ctx) := bind_temp I64 ctx in
      let load_fallback := load_temp ctx fallback_arg fallback in
      let '(product, ctx) := bind_temp I64 ctx in
      emits ctx
        [load_left; load_right; load_fallback;
         [LocalGet lhs; LocalGet rhs; I64Mul; LocalSet product;
          LocalGet rhs; I64Const 0; I64Eq; If I64; LocalGet product; Else;
          LocalGet product; I64Const i64_MIN; I64Eq; LocalGet rhs; I64Const (-1); I64Eq; I32And;
          If I64; LocalGet fallback; Else;
          LocalGet product; LocalGet rhs; I64DivS; LocalGet lhs; I64Ne;
          If I64; LocalGet fallback; Else; LocalGet product; End; End; End]]
  | _ => bad_arity ctx
  end.

Definition emit_int_shift_left (args : list string) (ctx : WasmCodegenCtx) : Emitted :=
  match args with
  | [value; amount] =>
      emits ctx [emit_local_as_i64 ctx value; emit_local_as_i64 ctx amount;
                 [I32WrapI64; I64ExtendI32U; I64Shl]]
  | _ => bad_arity ctx
  end.

Definition emit_int_shift_right (args : list string) (ctx : WasmCodegenCtx) : Emitted :=
  match args with
  | [value; amount] =>
      emits ctx [emit_local_as_i64 ctx value; emit_local_as_i64 ctx amount;
                 [I32WrapI64; I64ExtendI32U; I64ShrS]]
  | _ => bad_arity ctx
  end.

Definition emit_int_shift_right_unsigned (args : list string) (ctx : WasmCodegenCtx) : Emitted :=
  match args with
  | [value; amount] =>
      emits ctx [emit_local_as_i64 ctx value; emit_local_as_i64 ctx amount;
                 [I32WrapI64; I64ExtendI32U; I64ShrU]]
  | _ => bad_arity ctx
  end.

Definition emit_int_wrapping_add (args : list string) (ctx : WasmCodegenCtx) : Emitted :=
  match args with
  | [lhs; rhs] => emits ctx [emit_local_as_i64 ctx lhs; emit_local_as_i64 ctx rhs; [I64Add]]
  | _ => bad_arity ctx
  end.

Definition emit_int_wrapping_sub (args : list string) (ctx : WasmCodegenCtx) : Emitted :=
  match args with
  | [lhs; rhs] => emits ctx [emit_local_as_i64 ctx lhs; emit_local_as_i64 ctx rhs; [I64Sub]]
  | _ => bad_arity ctx
  end.

Definition emit_int_wrapping_mul (args : list string) (ctx : WasmCodegenCtx) : Emitted :=
  match args with
  | [lhs; rhs] => emits ctx [emit_local_as_i64 ctx lhs; emit_local_as_i64 ctx rhs; [I64Mul]]
  | _ => bad_arity ctx
  end.

Definition emit_int_wrapping_neg (args : list string) (ctx : WasmCodegenCtx) : Emitted :=
  match args with
  | [value] => emits ctx [[I64Const 0]; emit_local_as_i64 ctx value; [I64Sub]]
  | _ => bad_arity ctx
  end.

Definition emit_int_saturating_neg (args : list string) (ctx : WasmCodegenCtx) : Emitted :=
  match args with
  | [value] =>
      emits ctx
        [emit_local_as_i64 ctx value;
         [I64Const i64_MIN; I64Eq; If I64; I64Const i64_MAX; Else; I64Const 0];
         emit_local_as_i64 ctx value; [I64Sub; End]]
  | _ => bad_arity ctx
  end.

Definition emit_int_saturating_add (args : list string) (ctx : WasmCodegenCtx) : Emitted :=
  match args with
  | [left_arg; right_arg] =>
      let '(lhs, ctx) := bind_temp I64 ctx in
      let load_left := load_temp ctx left_arg lhs in
      let '(rhs, ctx) := bind_temp I64 ctx in
      let load_right := load_temp ctx right_arg rhs in
      let '(sum, ctx) := bind_temp I64 ctx in
      emits ctx
        [load_left; load_right;
         [LocalGet lhs; LocalGet rhs; I64Add; LocalSet sum;
          LocalGet rhs; I64Const 0; I64GtS; LocalGet sum; LocalGet lhs; I64LtS; I32And;
          If I64; I64Const i64_MAX; Else;
          LocalGet rhs; I64Const 0; I64LtS; LocalGet sum; LocalGet lhs; I64GtS; I32And;
          If I64; I64Const i64_MIN; Else; LocalGet sum; End; End]]
  | _ => bad_arity ctx
  end.

Definition emit_int_saturating_sub (args : list string) (ctx : WasmCodegenCtx) : Emitted :=
  match args with
  | [left_arg; right_arg] =>
      let '(lhs, ctx) := bind_temp I64 ctx in
      let load_left := load_temp ctx left_arg lhs in
      let '(rhs, ctx) := bind_temp I64 ctx in
      let load_right := load_temp ctx right_arg rhs in
      let '(diff, ctx) := bind_temp I64 ctx in
      emits ctx
        [load_left; load_right;
         [LocalGet lhs; LocalGet rhs; I64Sub; LocalSet diff;
          LocalGet rhs; I64Const 0; I64GtS; LocalGet diff; LocalGet lhs; I64GtS; I32And;
          If I64; I64Const i64_MIN; Else;
          LocalGet rhs; I64Const 0; I64LtS; LocalGet diff; LocalGet lhs; I64LtS; I32And;
          If I64; I64Const i64_MAX; Else; LocalGet diff; End; End]]
  | _ => bad_arity ctx
  end.

Definition emit_int_saturating_mul (args : list string) (ctx : WasmCodegenCtx) : Emitted :=
  match args with
  | [left_arg; right_arg] =>
      let '(lhs, ctx) := bind_temp I64 ctx in
      let load_left := load_temp ctx left_arg lhs in
      let '(rhs, ctx) := bind_temp I64 ctx in
      let load_right := load_temp ctx right_arg rhs in
      let '(product, ctx) := bind_temp I64 ctx in
      let '(clamped, ctx) := bind_temp I64 ctx in
      emits ctx
        [load_left; load_right;
         [LocalGet lhs; LocalGet rhs; I64Mul; LocalSet product;
          LocalGet lhs; I64Const 0; I64LtS; LocalGet rhs; I64Const 0; I64LtS; I32Xor;
          If I64; I64Const i64_MIN; Else; I64Const i64_MAX; End; LocalSet clamped;
          LocalGet rhs; I64Const 0; I64Eq; If I64; LocalGet product; Else;
          LocalGet product; I64Const i64_MIN; I64Eq; LocalGet rhs; I64Const (-1); I64Eq; I32And;
          If I64; LocalGet clamped; Else;
          LocalGet product; LocalGet rhs; I64DivS; LocalGet lhs; I64Ne;
          If I64; LocalGet clamped; Else; LocalGet product; End; End; End]]
  | _ => bad_arity ctx
  end.

Definition emit_int_div_or (args : list string) (ctx : WasmCodegenCtx) : Emitted :=
  match args with
  | [value; divisor; fallback] =>
      emits ctx
        [emit_local_as_i64 ctx divisor; [I64Const 0; I64Eq; If I64];
         emit_local_as_i64 ctx fallback; [Else];
         emit_local_as_i64 ctx value; [I64Const i64_MIN; I64Eq];
         emit_local_as_i64 ctx divisor; [I64Const (-1); I64Eq; I32And; If I64];
         emit_local_as_i64 ctx fallback; [Else];
         emit_local_as_i64 ctx value; emit_local_as_i64 ctx divisor; [I64DivS; End; End]]
  | _ => bad_arity ctx
  end.

Definition emit_int_rem_or (args : list string) (ctx : WasmCodegenCtx) : Emitted :=
  match args with
  | [value; divisor; fallback] =>
      emits ctx
        [emit_local_as_i64 ctx divisor; [I64Const 0; I64Eq; If I64];
         emit_local_as_i64 ctx fallback; [Else];
         emit_local_as_i64 ctx value; [I64Const i64_MIN; I64Eq];
         emit_local_as_i64 ctx divisor; [I64Const (-1); I64Eq; I32And; If I64];
         emit_local_as_i64 ctx fallback; [Else];
         emit_local_as_i64 ctx value; emit_local_as_i64 ctx divisor; [I64RemS; End; End]]
  | _ => bad_arity ctx
  end.

(* ------------------------------------------------------------------ *)
(** ** Dispatch *)

(** The instructions [emit_i64_primitive_call] pushes after the operands. *)
Definition emit_i64_primitive_call (func : string) (arg_count : nat) : option (list Instruction) :=
  let when (names : list string) (count : nat) := named func names && bool_decide (arg_count = count) in
  if when ["i64.add"; "+"; "add"] 2%nat then Some [I64Add]
  else if when ["i64.sub"; "-"; "sub"] 2%nat then Some [I64Sub]
  else if when ["i64.mul"; "*"; "mul"] 2%nat then Some [I64Mul]
  else if when ["i64.div_s"; "/"; "div"] 2%nat then Some [I64DivS]
  else if when ["i64.rem_s"; "%"; "mod"] 2%nat then Some [I64RemS]
  else if when ["i64.and"; "and"; "int.bit_and"; "int_bit_and"] 2%nat then Some [I64And]
  else if when ["i64.or"; "or"; "int.bit_or"; "int_bit_or"] 2%nat then Some [I64Or]
  else if when ["i64.xor"; "xor"; "int.bit_xor"; "int_bit_xor"] 2%nat then Some [I64Xor]
  else if when ["int.bit_not"; "int_bit_not"] 1%nat then Some [I64Const (-1); I64Xor]
  else if when ["i64.neg"; "neg"; "negate"] 1%nat then Some [I64Const (-1); I64Mul]
  else if when ["i64.eq"; "=="; "eq"] 2%nat then Some [I64Eq; I64ExtendI32U]
  else if when ["i64.ne"; "!="; "ne"] 2%nat then Some [I64Ne; I64ExtendI32U]
  else if when ["i64.lt_s"; "<"; "lt"] 2%nat then Some [I64LtS; I64ExtendI32U]
  else if when ["i64.le_s"; "<="; "le"] 2%nat then Some [I64LeS; I64ExtendI32U]
  else if when ["i64.gt_s"; ">"; "gt"] 2%nat then Some [I64GtS; I64ExtendI32U]
  else if when ["i64.ge_s"; ">="; "ge"] 2%nat then Some [I64GeS; I64ExtendI32U]
  else if when ["i64.eqz"; "not"; "!"] 1%nat then Some [I64Eqz; I64ExtendI32U]
  else None.

(** The [int.*] arms of [emit_call_expr]. *)
Definition int_emitter (func : string) : option (list string → WasmCodegenCtx → Emitted) :=
  if named func ["int.min"; "int_min"] then Some emit_int_min
  else if named func ["int.max"; "int_max"] then Some emit_int_max
  else if named func ["int.clamp"; "int_clamp"] then Some emit_int_clamp
  else if named func ["int.abs_or"; "int_abs_or"] then Some emit_int_abs_or
  else if named func ["int.neg_or"; "int_neg_or"] then Some emit_int_neg_or
  else if named func ["int.saturating_neg"; "int_saturating_neg"] then Some emit_int_saturating_neg
  else if named func ["int.wrapping_add"; "int_wrapping_add"] then Some emit_int_wrapping_add
  else if named func ["int.wrapping_sub"; "int_wrapping_sub"] then Some emit_int_wrapping_sub
  else if named func ["int.wrapping_mul"; "int_wrapping_mul"] then Some emit_int_wrapping_mul
  else if named func ["int.wrapping_neg"; "int_wrapping_neg"] then Some emit_int_wrapping_neg
  else if named func ["int.shift_left"; "int_shift_left"] then Some emit_int_shift_left
  else if named func ["int.shift_right"; "int_shift_right"] then Some emit_int_shift_right
  else if named func ["int.shift_right_unsigned"; "int_shift_right_unsigned"] then
    Some emit_int_shift_right_unsigned
  else if named func ["int.add_or"; "int_add_or"] then Some emit_int_add_or
  else if named func ["int.sub_or"; "int_sub_or"] then Some emit_int_sub_or
  else if named func ["int.mul_or"; "int_mul_or"] then Some emit_int_mul_or
  else if named func ["int.saturating_add"; "int_saturating_add"] then Some emit_int_saturating_add
  else if named func ["int.saturating_sub"; "int_saturating_sub"] then Some emit_int_saturating_sub
  else if named func ["int.saturating_mul"; "int_saturating_mul"] then Some emit_int_saturating_mul
  else if named func ["int.div_or"; "int_div_or"] then Some emit_int_div_or
  else if named func ["int.rem_or"; "int_rem_or"] then Some emit_int_rem_or
  else None.

(** The loop over the arguments that ends [emit_call_expr]: [None] when a name
    is unbound, with the instructions pushed before it. *)
Fixpoint emit_args (args : list string) (ctx : WasmCodegenCtx) : list Instruction * bool :=
  match args with
  | [] => ([], true)
  | arg :: args' =>
      match lookup_local ctx arg with
      | Some (idx, _) => let '(code, ok) := emit_args args' ctx in (LocalGet idx :: code, ok)
      | None => ([Unreachable], false)
      end
  end.

(** [emit_call_expr] on integer functions and on functions it knows nothing of:
    the arms for the text, time, bytes and path functions and [len], which lie
    between these two and match on other names, are left out. *)
Definition emit_scalar_call (func : string) (args : list string) (functions : gmap string N)
    (ctx : WasmCodegenCtx) : Emitted :=
  match int_emitter func with
  | Some emit => emit args ctx
  | None =>
      let '(code, ok) := emit_args args ctx in
      if negb ok then (code, ctx, None)
      else
        match emit_i64_primitive_call func (length args) with
        | Some op => (code ++ op, ctx, Some I64)
        | None =>
            match functions !! func with
            | Some idx => (code ++ [Call idx], ctx, Some I64)
            | None => (code ++ [Unreachable], ctx, None)
            end
        end
  end.

(* ------------------------------------------------------------------ *)
(** ** Frames *)

(** The types of the locals declared so far: [i64] parameters, then the
    allocated ones. *)
Definition frame_types (ctx : WasmCodegenCtx) : list ValType :=
  replicate (N.to_nat (next_local ctx) - length (local_types ctx)) I64 ++ local_types ctx.

(** Every name is bound to a declared local of its type. *)
Definition ctx_wf (ctx : WasmCodegenCtx) : Prop :=
  (length (local_types ctx) ≤ N.to_nat (next_local ctx))%nat ∧
  ∀ name idx ty, (name, idx, ty) ∈ ctx_locals ctx → frame_types ctx !! N.to_nat idx = Some ty.

(** A machine that runs a function with at least the locals of the context. *)
Definition fits (ctx : WasmCodegenCtx) (m : Machine) : Prop :=
  ∃ rest, type_of <$> locals m = frame_types ctx ++ rest.

Lemma length_frame_types ctx :
  (length (local_types ctx) ≤ N.to_nat (next_local ctx))%nat →
  length (frame_types ctx) = N.to_nat (next_local ctx).
Proof. intros ?. unfold frame_types. rewrite length_app, length_replicate. lia. Qed.

Lemma frame_types_bind ty ctx ls :
  (length (local_types ctx) ≤ N.to_nat (next_local ctx))%nat →
  frame_types (MkCtx ls (next_local ctx + 1) (local_types ctx ++ [ty])) = frame_types ctx ++ [ty].
Proof.
  intros ?. unfold frame_types. simpl. rewrite length_app, app_assoc. simpl.
  by replace (N.to_nat (next_local ctx + 1) - (length (local_types ctx) + 1))%nat
    with (N.to_nat (next_local ctx) - length (local_types ctx))%nat by lia.
Qed.

Lemma ctx_new_wf params : ctx_wf (ctx_new params).
Proof.
  split; [simpl; lia|]. intros name idx ty Hin. unfold frame_types, ctx_new in *. simpl in *.
  apply elem_of_lookup_imap in Hin as (i & x & [= -> -> ->] & Hi).
  apply lookup_lt_Some in Hi. rewrite app_nil_r. apply lookup_replicate. split; [done|lia].
Qed.

Lemma bind_temp_wf ty ctx : ctx_wf ctx → ctx_wf (bind_temp ty ctx).2.
Proof.
  intros [Hlen Hl]. split; simpl; [rewrite length_app; simpl; lia|].
  intros name idx ty' Hin. rewrite frame_types_bind by done. apply lookup_app_l_Some. eauto.
Qed.

Lemma bind_local_wf name ty ctx : ctx_wf ctx → ctx_wf (bind_local name ty ctx).2.
Proof.
  intros [Hlen Hl]. split; simpl; [rewrite length_app; simpl; lia|].
  intros name' idx ty' Hin. rewrite frame_types_bind by done.
  apply elem_of_app in Hin as [Hin|[= -> -> ->]%list_elem_of_singleton].
  - apply lookup_app_l_Some. eauto.
  - rewrite lookup_app_r by (rewrite length_frame_types by done; lia).
    rewrite length_frame_types by done. by rewrite Nat.sub_diag.
Qed.

(** The local of a fresh temporary exists and has its type. *)
Lemma fits_temp ty ctx m :
  ctx_wf ctx → fits (bind_temp ty ctx).2 m →
  fits ctx m ∧ ∃ v, locals m !! N.to_nat (next_local ctx) = Some v ∧ type_of v = ty.
Proof.
  intros [Hlen _] [rest Hrest]. simpl in Hrest. rewrite frame_types_bind in Hrest by done.
  rewrite <- app_assoc in Hrest. split; [by exists ([ty] ++ rest)|].
  assert (Hl : (type_of <$> locals m) !! N.to_nat (next_local ctx) = Some ty).
  { rewrite Hrest, lookup_app_r by (rewrite length_frame_types by done; lia).
    rewrite length_frame_types by done. by rewrite Nat.sub_diag. }
  apply list_lookup_fmap_Some in Hl as (v & Hv & ?). eauto.
Qed.

(** The name [x] denotes a local that holds the integer [z]. *)
Definition reads (ctx : WasmCodegenCtx) (L : list WVal) (x : string) (ty : ValType) (z : Z)
  : Prop :=
  ∃ idx, lookup_local ctx x = Some (idx, ty) ∧
    (N.to_nat idx < N.to_nat (next_local ctx))%nat ∧
    match ty with
    | I64 => L !! N.to_nat idx = Some (W64 (bits z)) ∧ in_i64 z
    | I32 => L !! N.to_nat idx = Some (W32 z) ∧ 0 ≤ z < 2 ^ 32
    end.

Lemma reads_range ctx L x ty z : reads ctx L x ty z → in_i64 z.
Proof. intros (idx & _ & _ & Hz). destruct ty; i64_lia. Qed.

(** The locals below those of the code being emitted are as they were. *)
Definition below (ctx : WasmCodegenCtx) (L L' : list WVal) : Prop :=
  ∀ i, (i < N.to_nat (next_local ctx))%nat → L' !! i = L !! i.

Lemma below_refl ctx L : below ctx L L.
Proof. done. Qed.

Lemma below_insert ctx L L' i v :
  below ctx L L' → (N.to_nat (next_local ctx) ≤ i)%nat → below ctx L (<[i := v]> L').
Proof. intros Hb Hi j Hj. rewrite list_lookup_insert_ne by lia. by apply Hb. Qed.

(** Reading survives new temporaries and writes to them. *)
Lemma reads_below ctx ctx' L L' x ty z :
  ctx_locals ctx' = ctx_locals ctx → (next_local ctx ≤ next_local ctx')%N →
  below ctx L L' → reads ctx L x ty z → reads ctx' L' x ty z.
Proof.
  intros Hl Hn Hb (idx & Hx & Hlt & Hz). exists idx. split_and!.
  - unfold lookup_local in *. by rewrite Hl.
  - lia.
  - by rewrite Hb.
Qed.

Lemma exec_read ctx x ty z k st L :
  reads ctx L x ty z →
  exec (emit_local_as_i64 ctx x ++ k) Run (MkMachine st L) =
  exec k Run (MkMachine (W64 (bits z) :: st) L).
Proof.
  intros (idx & Hx & _ & Hz). unfold emit_local_as_i64. rewrite Hx.
  destruct ty; rewrite ?decide_True, ?decide_False by done; destruct Hz as [Hl Hr];
    cbn [app]; rewrite (exec_get _ _ _ _ _ Hl); [|done].
  cbn [exec step stack locals]. by rewrite bits_small by i64_lia.
Qed.

Lemma exec_skip_read ctx x k mode m :
  mode ≠ Run → exec (emit_local_as_i64 ctx x ++ k) mode m = exec k mode m.
Proof.
  intros Hm. unfold emit_local_as_i64. destruct (lookup_local ctx x) as [[idx ty]|];
    destruct mode; try done; cbn [app]; rewrite ?exec_skip_then, ?exec_skip_else by done; try done;
    case_decide; cbn [app]; by rewrite ?exec_skip_then, ?exec_skip_else.
Qed.

(* ------------------------------------------------------------------ *)
(** ** What the emitted code delivers *)

(** Run in a frame that holds the locals it needs, the code pushes [z] and leaves
    the locals of the enclosing code alone. *)
Definition delivers (ctx : WasmCodegenCtx) (st L : list WVal) (e : Emitted) (z : Z) : Prop :=
  let '(code, ctx', ty) := e in
  ty = Some I64 ∧
  (fits ctx' (MkMachine st L) →
   ∃ L', (∀ k, exec (code ++ k) Run (MkMachine st L) =
               exec k Run (MkMachine (W64 (bits z) :: st) L')) ∧
         type_of <$> L' = type_of <$> L ∧ below ctx L L').

(** The case of code that uses no temporaries. *)
Lemma emits_delivers ctx st L code z :
  (∀ k, exec (concat code ++ k) Run (MkMachine st L) =
        exec k Run (MkMachine (W64 (bits z) :: st) L)) →
  delivers ctx st L (emits ctx code) z.
Proof. intros Hk. split; [done|]. intros _. exists L. done. Qed.

Lemma in_i64_MIN : in_i64 i64_MIN. Proof. i64_lia. Qed.
Lemma in_i64_MAX : in_i64 i64_MAX. Proof. i64_lia. Qed.
Lemma in_i64_0 : in_i64 0. Proof. i64_lia. Qed.
Lemma in_i64_1 : in_i64 1. Proof. i64_lia. Qed.
Lemma in_i64_m1 : in_i64 (-1). Proof. i64_lia. Qed.
#[export] Hint Resolve in_i64_MIN in_i64_MAX in_i64_0 in_i64_1 in_i64_m1 : i64.

Ltac wasm_in := solve [assumption | eauto with i64].

(** One step of symbolic execution; branches on an unknown condition split. *)
Ltac wasm_step :=
  first
  [ rewrite exec_const
  | rewrite exec_and | rewrite exec_or | rewrite exec_xor | rewrite exec_extend
  | rewrite exec_if | rewrite exec_else | rewrite exec_end
  | match goal with
    | |- exec _ (if ?c then Run else _) _ = _ => destruct c eqn:?
    | |- exec (?i :: ?k) Run (MkMachine (W64 (bits ?b) :: W64 (bits ?a) :: ?st) ?L) = _ =>
        erewrite (exec_word i k a b _ st L) by (wasm_in || reflexivity); cbv iota beta
    | |- exec (emit_local_as_i64 ?c ?x ++ ?k) Run (MkMachine ?st ?L) = _ =>
        erewrite (exec_read c x _ _ k st L) by eassumption
    | |- exec (emit_local_as_i64 ?c ?x ++ ?k) ?mode ?m = _ =>
        rewrite (exec_skip_read c x k mode m) by done
    | |- exec (?i :: ?k) (SkipThen ?d) ?m = _ => rewrite (exec_skip_then i k d m) by reflexivity
    | |- exec (?i :: ?k) (SkipElse ?d) ?m = _ => rewrite (exec_skip_else i k d m) by reflexivity
    | |- exec (?i :: ?k) ?mode ?m = _ =>
        rewrite (exec_skip_control mode i k m) by done; cbn [skip_control]
    end ].

Ltac wasm_run :=
  cbn [concat app]; repeat first [rewrite <- app_assoc | progress cbn [app]]; repeat wasm_step.

(** The word on top of the stack is the expected one. *)
Ltac wasm_done := do 5 f_equal.

Section DirectOps.
Context (ctx : WasmCodegenCtx) (st L : list WVal).
Context (x y w : string) (tx ty tw : ValType) (a b c : Z).
Context (Hx : reads ctx L x tx a) (Hy : reads ctx L y ty b) (Hw : reads ctx L w tw c).

#[local] Lemma range_a : in_i64 a. Proof. by eapply reads_range. Qed.
#[local] Lemma range_b : in_i64 b. Proof. by eapply reads_range. Qed.
#[local] Lemma range_c : in_i64 c. Proof. by eapply reads_range. Qed.
#[local] Hint Resolve range_a range_b range_c : i64.

Lemma int_min_delivers : delivers ctx st L (emit_int_min [x; y] ctx) (Z.min a b).
Proof. apply emits_delivers. intros k. wasm_run; wasm_done; lia. Qed.

Lemma int_max_delivers : delivers ctx st L (emit_int_max [x; y] ctx) (Z.max a b).
Proof. apply emits_delivers. intros k. wasm_run; wasm_done; lia. Qed.

Lemma int_clamp_delivers : delivers ctx st L (emit_int_clamp [x; y; w] ctx) (clamp a b c).
Proof.
  apply emits_delivers. intros k. wasm_run; wasm_done; unfold clamp; by repeat case_match.
Qed.

Lemma int_abs_or_delivers :
  delivers ctx st L (emit_int_abs_or [x; y] ctx) (default b (checked_abs a)).
Proof.
  pose proof range_a as Ha. apply emits_delivers. intros k. unfold checked_abs, checked.
  wasm_run; wasm_done; case_decide; simpl; try i64_lia.
  rewrite wrap_id; i64_lia.
Qed.

Lemma int_neg_or_delivers :
  delivers ctx st L (emit_int_neg_or [x; y] ctx) (default b (checked_neg a)).
Proof.
  pose proof range_a as Ha. apply emits_delivers. intros k. unfold checked_neg, checked.
  wasm_run; wasm_done; case_decide; simpl; try i64_lia.
  rewrite wrap_id; i64_lia.
Qed.

Lemma int_saturating_neg_delivers :
  delivers ctx st L (emit_int_saturating_neg [x] ctx) (saturating_neg a).
Proof.
  pose proof range_a as Ha. apply emits_delivers. intros k. unfold saturating_neg, saturating.
  wasm_run; wasm_done; [i64_lia|]. rewrite wrap_id; i64_lia.
Qed.

Lemma int_wrapping_add_delivers :
  delivers ctx st L (emit_int_wrapping_add [x; y] ctx) (wrapping_add a b).
Proof. apply emits_delivers. intros k. by wasm_run. Qed.

Lemma int_wrapping_sub_delivers :
  delivers ctx st L (emit_int_wrapping_sub [x; y] ctx) (wrapping_sub a b).
Proof. apply emits_delivers. intros k. by wasm_run. Qed.

Lemma int_wrapping_mul_delivers :
  delivers ctx st L (emit_int_wrapping_mul [x; y] ctx) (wrapping_mul a b).
Proof. apply emits_delivers. intros k. by wasm_run. Qed.

Lemma int_wrapping_neg_delivers :
  delivers ctx st L (emit_int_wrapping_neg [x] ctx) (wrapping_neg a).
Proof. apply emits_delivers. intros k. by wasm_run. Qed.

(** The amount goes through [i32.wrap_i64] and back: only its low bits remain. *)
Lemma int_shift_left_delivers :
  delivers ctx st L (emit_int_shift_left [x; y] ctx) (wrapping_shl a b).
Proof.
  apply emits_delivers. intros k. wasm_run. cbn [exec step stack locals i64_binop].
  rewrite bits_as_shift, bits_shl by apply as_shift_range. done.
Qed.

Lemma int_shift_right_delivers :
  delivers ctx st L (emit_int_shift_right [x; y] ctx) (wrapping_shr a b).
Proof.
  apply emits_delivers. intros k. wasm_run. cbn [exec step stack locals i64_binop].
  rewrite bits_as_shift, signed_bits by apply range_a. done.
Qed.

Lemma int_shift_right_unsigned_delivers :
  delivers ctx st L (emit_int_shift_right_unsigned [x; y] ctx) (wrapping_shr_unsigned a b).
Proof.
  apply emits_delivers. intros k. wasm_run. cbn [exec step stack locals i64_binop].
  rewrite bits_as_shift, bits_shr_u by apply as_shift_range. done.
Qed.

Lemma int_div_or_delivers :
  delivers ctx st L (emit_int_div_or [x; y; w] ctx) (default c (checked_div a b)).
Proof.
  pose proof range_a as Ha. pose proof range_b as Hb. apply emits_delivers. intros k.
  destruct (checked_div a b) as [q|] eqn:E.
  - pose proof E as (Hz & Hm & ->)%checked_div_Some; [|done..].
    wasm_run; try (exfalso; lia). rewrite E. by wasm_run.
  - pose proof E as Hn. rewrite checked_div_None in Hn by done.
    wasm_run; try done. exfalso. lia.
Qed.

Lemma int_rem_or_delivers :
  delivers ctx st L (emit_int_rem_or [x; y; w] ctx) (default c (checked_rem a b)).
Proof.
  pose proof range_a as Ha. pose proof range_b as Hb. apply emits_delivers. intros k.
  destruct (checked_rem a b) as [q|] eqn:E.
  - pose proof E as (Hz & Hm & ->)%checked_rem_Some.
    wasm_run; try (exfalso; lia). rewrite decide_False by done. by wasm_run.
  - apply checked_rem_None in E. wasm_run; try done. exfalso. lia.
Qed.
End DirectOps.

(* ------------------------------------------------------------------ *)
(** ** Code with temporaries *)

Lemma exec_load ctx ctx' L L' x ty z i k st old :
  ctx_locals ctx' = ctx_locals ctx → (next_local ctx ≤ next_local ctx')%N → below ctx L L' →
  reads ctx L x ty z → L' !! N.to_nat i = Some old → type_of old = I64 →
  exec (load_temp ctx' x i ++ k) Run (MkMachine st L') =
  exec k Run (MkMachine st (<[N.to_nat i := W64 (bits z)]> L')).
Proof.
  intros Hl Hn Hb Hx Hi Hty. unfold load_temp. rewrite <- app_assoc.
  rewrite (exec_read _ _ _ _ _ _ _ (reads_below _ _ _ _ _ _ _ Hl Hn Hb Hx)). cbn [app].
  by apply (exec_set _ _ _ _ _ old).
Qed.

(** Writing a value of the local's type keeps the types. *)
Lemma insert_types (L L' : list WVal) i old v :
  type_of <$> L' = type_of <$> L → L !! i = Some old → type_of old = type_of v →
  type_of <$> <[i := v]> L' = type_of <$> L.
Proof.
  intros HL Hi Hty. rewrite list_fmap_insert, HL. apply list_insert_id.
  by rewrite list_lookup_fmap, Hi, <- Hty.
Qed.

Abbreviation temp ctx := (bind_temp I64 ctx).2.

(** The slot of a temporary is there. *)
Definition slot (L : list WVal) (i : N) : Prop :=
  ∃ v, L !! N.to_nat i = Some v ∧ type_of v = I64.

Lemma fits_temps3 ctx st L :
  ctx_wf ctx → fits (temp (temp (temp ctx))) (MkMachine st L) →
  slot L (next_local ctx) ∧ slot L (next_local ctx + 1) ∧ slot L (next_local ctx + 1 + 1).
Proof.
  intros Hwf Hf. apply fits_temp in Hf as [Hf H2]; [|by do 2 apply bind_temp_wf].
  apply fits_temp in Hf as [Hf H1]; [|by apply bind_temp_wf].
  apply fits_temp in Hf as [_ H0]; done.
Qed.

Lemma fits_temps4 ctx st L :
  ctx_wf ctx → fits (temp (temp (temp (temp ctx)))) (MkMachine st L) →
  slot L (next_local ctx) ∧ slot L (next_local ctx + 1) ∧ slot L (next_local ctx + 1 + 1) ∧
  slot L (next_local ctx + 1 + 1 + 1).
Proof.
  intros Hwf Hf. apply fits_temp in Hf as [Hf H3]; [|by do 3 apply bind_temp_wf].
  apply fits_temps3 in Hf as (? & ? & ?); done.
Qed.

(** Look a temporary up under the writes to the others. *)
Ltac temp_lookup :=
  repeat rewrite list_lookup_insert_ne by lia;
  first [ eassumption
        | apply list_lookup_insert_eq; rewrite ?length_insert; eapply lookup_lt_Some; eassumption ].

Ltac temp_below := repeat apply below_insert; [apply below_refl|lia..].

Ltac temp_step :=
  first
  [ match goal with
    | |- exec (LocalGet ?i :: ?k) Run (MkMachine ?st ?L) = _ =>
        erewrite (exec_get i k _ st L) by temp_lookup
    | |- exec (LocalSet ?i :: ?k) Run (MkMachine (?v :: ?st) ?L) = _ =>
        erewrite (exec_set i k v st L) by first [temp_lookup | eassumption | done]
    | H : reads ?c0 ?L0 ?x ?ty ?z |- exec (load_temp ?c ?x ?i ++ ?k) Run (MkMachine ?st ?L) = _ =>
        erewrite (exec_load c0 c L0 L x ty z i k st);
          [ | reflexivity | simpl; lia | temp_below | exact H | temp_lookup | eassumption ]
    end
  | wasm_step ].

Ltac temp_run :=
  cbn [concat app next_local ctx_locals local_types];
  repeat first [rewrite <- app_assoc | progress cbn [app]]; repeat temp_step.

(** The side conditions on the locals. *)
Ltac temp_locals :=
  split; [repeat (eapply insert_types; [|eassumption|eassumption]); done | temp_below].

Lemma exec_top k st L z z' :
  z = z' →
  exec k Run (MkMachine (W64 (bits z) :: st) L) = exec k Run (MkMachine (W64 (bits z') :: st) L).
Proof. by intros ->. Qed.

Section TempOps.
Context (ctx : WasmCodegenCtx) (st L : list WVal) (Hwf : ctx_wf ctx).
Context (x y w : string) (tx ty tw : ValType) (a b c : Z).
Context (Hx : reads ctx L x tx a) (Hy : reads ctx L y ty b) (Hw : reads ctx L w tw c).

#[local] Lemma temp_range_a : in_i64 a. Proof. by eapply reads_range. Qed.
#[local] Lemma temp_range_b : in_i64 b. Proof. by eapply reads_range. Qed.

Lemma int_add_or_delivers :
  delivers ctx st L (emit_int_add_or [x; y; w] ctx) (default c (checked_add a b)).
Proof.
  pose proof temp_range_a as Ha. pose proof temp_range_b as Hb.
  split; [done|]. intros ((v0&?&?) & (v1&?&?) & (v2&?&?) & (v3&?&?))%fits_temps4; [|done].
  eexists. split; [intros k; temp_run; apply exec_top|temp_locals];
    unfold checked_add, checked; case_decide; simpl; destruct (wrap_cases (a + b)); i64_lia.
Qed.

Lemma int_sub_or_delivers :
  delivers ctx st L (emit_int_sub_or [x; y; w] ctx) (default c (checked_sub a b)).
Proof.
  pose proof temp_range_a as Ha. pose proof temp_range_b as Hb.
  split; [done|]. intros ((v0&?&?) & (v1&?&?) & (v2&?&?) & (v3&?&?))%fits_temps4; [|done].
  eexists. split; [intros k; temp_run; apply exec_top|temp_locals];
    unfold checked_sub, checked; case_decide; simpl; destruct (wrap_cases (a - b)); i64_lia.
Qed.

Lemma int_saturating_add_delivers :
  delivers ctx st L (emit_int_saturating_add [x; y] ctx) (saturating_add a b).
Proof.
  pose proof temp_range_a as Ha. pose proof temp_range_b as Hb.
  split; [done|]. intros ((v0&?&?) & (v1&?&?) & (v2&?&?))%fits_temps3; [|done].
  eexists. split; [intros k; temp_run; apply exec_top|temp_locals];
    unfold saturating_add, saturating; destruct (wrap_cases (a + b)); i64_lia.
Qed.

Lemma int_saturating_sub_delivers :
  delivers ctx st L (emit_int_saturating_sub [x; y] ctx) (saturating_sub a b).
Proof.
  pose proof temp_range_a as Ha. pose proof temp_range_b as Hb.
  split; [done|]. intros ((v0&?&?) & (v1&?&?) & (v2&?&?))%fits_temps3; [|done].
  eexists. split; [intros k; temp_run; apply exec_top|temp_locals];
    unfold saturating_sub, saturating; destruct (wrap_cases (a - b)); i64_lia.
Qed.
(** The division that checks a product does not trap. *)
Lemma product_quotient :
  b ≠ 0 → (wrap (a * b) =? i64_MIN) && (b =? -1) = false →
  checked_div (wrap (a * b)) b = Some (Z.quot (wrap (a * b)) b).
Proof.
  intros Hz Ht. apply checked_div_Some; [apply wrap_range|apply temp_range_b|]. split_and!; [done| |done].
  intros [Hm ->]. rewrite Hm in Ht. done.
Qed.

(** How the product of the operands relates to its truncation. *)
Lemma checked_mul_cases :
  (b = 0 → checked_mul a b = Some (wrap (a * b))) ∧
  ((wrap (a * b) =? i64_MIN) && (b =? -1) = true → checked_mul a b = None) ∧
  (b ≠ 0 → checked_mul a b = if Z.quot (wrap (a * b)) b =? a then Some (wrap (a * b)) else None).
Proof.
  pose proof (mul_overflow_test a b temp_range_a temp_range_b) as Ht. unfold checked_mul, checked. split_and!.
  - intros ->. by rewrite Z.mul_0_r.
  - intros [Hm%Z.eqb_eq Hb%Z.eqb_eq]%andb_true_iff. rewrite decide_False; [done|].
    apply Ht; [lia|done].
  - intros Hz. destruct (Ht Hz) as [_ Hq]. case_decide as Hr.
    + apply Hq in Hr as Hr'. rewrite Hr', Z.eqb_refl. by rewrite wrap_id.
    + destruct (Z.eqb_spec (Z.quot (wrap (a * b)) b) a); [|done]. tauto.
Qed.

(** The three ends of a checked multiplication. *)
#[local] Ltac mul_tail M0 M1 M2 :=
  first
  [ apply exec_top; by rewrite M0 by lia
  | apply exec_top; by rewrite M1
  | let Hq := fresh "Hq" in
    assert (Hq : checked_div (wrap (a * b)) b = Some (Z.quot (wrap (a * b)) b))
      by (apply product_quotient; [lia|done]);
    rewrite Hq; apply checked_div_range in Hq; cbv iota beta;
    temp_run; apply exec_top; rewrite M2 by lia; by destruct (_ =? a) ].

Lemma int_mul_or_delivers :
  delivers ctx st L (emit_int_mul_or [x; y; w] ctx) (default c (checked_mul a b)).
Proof.
  pose proof temp_range_a as Ha. pose proof temp_range_b as Hb. destruct checked_mul_cases as (M0 & M1 & M2).
  split; [done|]. intros ((v0&?&?) & (v1&?&?) & (v2&?&?) & (v3&?&?))%fits_temps4; [|done].
  eexists. split; [intros k; temp_run; mul_tail M0 M1 M2|temp_locals].
Qed.

(** The value an overflowing product saturates to. *)
Lemma saturating_mul_cases :
  saturating_mul a b =
  default (if xorb (a <? 0) (b <? 0) then i64_MIN else i64_MAX) (checked_mul a b).
Proof.
  pose proof temp_range_a as Ha. pose proof temp_range_b as Hb.
  unfold saturating_mul, saturating, checked_mul, checked. case_decide as Hr; simpl; [i64_lia|].
  destruct (Z.ltb_spec a 0), (Z.ltb_spec b 0); simpl; i64_unfold; nia.
Qed.

Lemma int_saturating_mul_delivers :
  delivers ctx st L (emit_int_saturating_mul [x; y] ctx) (saturating_mul a b).
Proof.
  pose proof temp_range_a as Ha. pose proof temp_range_b as Hb. destruct checked_mul_cases as (M0 & M1 & M2).
  rewrite saturating_mul_cases.
  split; [done|]. intros ((v0&?&?) & (v1&?&?) & (v2&?&?) & (v3&?&?))%fits_temps4; [|done].
  destruct (xorb (a <? 0) (b <? 0)) eqn:Ex;
    (eexists; split; [intros k; temp_run; try congruence; mul_tail M0 M1 M2|temp_locals]).
Qed.
End TempOps.

(* ------------------------------------------------------------------ *)
(** ** Primitive calls *)

Lemma emit_args_reads ctx L args zs :
  Forall2 (λ x z, reads ctx L x I64 z) args zs →
  ∃ code, emit_args args ctx = (code, true) ∧
    ∀ k st, exec (code ++ k) Run (MkMachine st L) =
            exec k Run (MkMachine (reverse ((λ z, W64 (bits z)) <$> zs) ++ st) L).
Proof.
  induction 1 as [|x z args zs (idx & Hx & _ & Hl & _) _ (code & Hc & He)]; [by exists []|].
  exists (LocalGet idx :: code). cbn [emit_args]. rewrite Hx, Hc. split; [done|]. intros k st.
  cbn [app]. rewrite (exec_get _ _ _ _ _ Hl), He. rewrite fmap_cons, reverse_cons, <- app_assoc. done.
Qed.

Lemma primitive_delivers ctx st L func args zs z op functions :
  int_emitter func = None → emit_i64_primitive_call func (length args) = Some op →
  Forall2 (λ x z, reads ctx L x I64 z) args zs →
  (∀ k, exec (op ++ k) Run (MkMachine (reverse ((λ z, W64 (bits z)) <$> zs) ++ st) L) =
        exec k Run (MkMachine (W64 (bits z) :: st) L)) →
  delivers ctx st L (emit_scalar_call func args functions ctx) z.
Proof.
  intros Hi Hp Hargs Hop. destruct (emit_args_reads ctx L args zs Hargs) as (code & Hc & He).
  unfold emit_scalar_call. rewrite Hi, Hc. simpl. rewrite Hp. split; [done|]. intros _.
  exists L. split; [|done]. intros k. by rewrite <- app_assoc, He, Hop.
Qed.

Definition literal_word (lit : LiteralValue) : Z := default 0 (literal_int lit).

(** An operand of [func]: the primitives read their operands as they are, the
    functions of int.rs extend 32-bit ones. *)
Definition operand (func : string) (ctx : WasmCodegenCtx) (L : list WVal) (x : string) (z : Z)
  : Prop :=
  ∃ ty, reads ctx L x ty z ∧ (ty = I64 ∨ is_Some (int_emitter func)).

Lemma named_true func names : named func names = true ↔ func ∈ names.
Proof.
  unfold named. rewrite existsb_exists. setoid_rewrite String.eqb_eq.
  setoid_rewrite <- list_elem_of_In. naive_solver.
Qed.

Lemma primitive_operands func ctx L args zs :
  int_emitter func = None → Forall2 (operand func ctx L) args zs →
  Forall2 (λ x z, reads ctx L x I64 z) args zs.
Proof.
  intros Hi Hargs. eapply Forall2_impl; [exact Hargs|]. intros x z (ty & Hr & [->|[? ?]]); [done|]. congruence.
Qed.

(** The name of the function, from the arm it matched. *)
Ltac known_name H :=
  apply named_true in H; rewrite ?elem_of_cons, elem_of_nil in H;
  repeat match type of H with _ ∨ _ => destruct H as [H|H] end; [..|done]; subst.

Create HintDb delivers discriminated.
#[export] Hint Resolve int_min_delivers int_max_delivers int_clamp_delivers int_abs_or_delivers
  int_neg_or_delivers int_saturating_neg_delivers int_wrapping_add_delivers
  int_wrapping_sub_delivers int_wrapping_mul_delivers int_wrapping_neg_delivers
  int_shift_left_delivers int_shift_right_delivers int_shift_right_unsigned_delivers
  int_add_or_delivers int_sub_or_delivers int_mul_or_delivers int_saturating_add_delivers
  int_saturating_sub_delivers int_saturating_mul_delivers int_div_or_delivers
  int_rem_or_delivers : delivers.

(** A function of int.rs: its operands and the lemma of its emitter. *)
Ltac int_arm :=
  match goal with
  | |- delivers _ _ _ (emit_scalar_call ?f ?args ?fs ?c) _ =>
      let e := eval cbn [int_emitter named existsb String.eqb Ascii.eqb Bool.eqb orb] in
        (int_emitter f) in
      match e with Some ?em => change (emit_scalar_call f args fs c) with (em args c) end
  end;
  match goal with
  | H : Forall2 _ _ _ |- _ =>
      repeat (apply Forall2_cons_inv_r in H as (? & ? & (? & ? & _) & H & ->));
      apply Forall2_nil_inv_r in H as ->
  end;
  cbn [literal_word literal_int default];
  solve [eauto with delivers].

Ltac prim_arm :=
  match goal with
  | H : Forall2 (operand _ _ _) _ _ |- _ =>
      apply primitive_operands in H; [|reflexivity];
      pose proof (Forall2_length _ _ _ H) as Hlen;
      eapply primitive_delivers;
      [reflexivity|rewrite Hlen; reflexivity|exact H
      |intros k; cbn [reverse rev_append fmap list_fmap app]; wasm_run]
  end.

Lemma call_delivers func args zs lit functions ctx st L :
  ctx_wf ctx → Forall2 (operand func ctx L) args zs → fold_ints func zs = Some lit →
  delivers ctx st L (emit_scalar_call func args functions ctx) (literal_word lit).
Proof.
  intros Hwf Hargs.
  assert (Hz : Forall in_i64 zs).
  { eapply Forall2_Forall_r; [exact Hargs|]. apply Forall_true.
    intros x z (ty & ? & _). by eapply reads_range. }
  unfold fold_ints.
  repeat (case_match eqn:E;
    [fold_arm; known_name E; first [int_arm | prim_arm; try done]|clear E]); [..|done].
  all: first
    [ by match goal with Hd : checked_div _ _ = Some _ |- _ => rewrite Hd end
    | match goal with Hr : checked_rem _ _ = Some _ |- _ =>
        apply checked_rem_Some in Hr as (? & _ & ->); by rewrite decide_False by done end
    | by rewrite Z.lxor_m1_r ].
Qed.

(* ------------------------------------------------------------------ *)
(** ** The generated code and the constant folder *)

(** The folder knows the operand, and the local holds it. *)
Definition known_operand (func : string) (env : Env) (ctx : WasmCodegenCtx) (L : list WVal)
    (x : string) : Prop :=
  ∃ lit z, env !! x = Some lit ∧ literal_int lit = Some z ∧ operand func ctx L x z.

Lemma fold_call_operands func args env ctx L zs :
  Forall (known_operand func env ctx L) args →
  mapM (λ arg, lit ← env !! arg; literal_int lit) args = Some zs →
  Forall2 (operand func ctx L) args zs.
Proof.
  intros Hargs Hm%mapM_Some. induction Hm as [|x z args zs Hz _ IH]; [done|].
  apply Forall_cons in Hargs as [(lit & z' & Hlit & Hz' & Hop) Hargs].
  constructor; [|by apply IH]. rewrite Hlit in Hz. simpl in Hz. congruence.
Qed.

(** C20: the code generator and the constant folder agree on every integer
    function.  Whenever a call with known operands folds to a literal, the
    literal is a 64-bit integer or a boolean, and the emitted instructions, run
    on locals that hold the operands, push exactly that value, without touching
    the stack below or the locals of the surrounding code.  The wrap-around,
    checked, saturating and shifting functions and the overflow tests of their
    instruction sequences are all covered. *)
Theorem int_code_matches_folding (func : string) (args : list string) (env : Env)
    (lit : LiteralValue) (functions : gmap string N) (ctx : WasmCodegenCtx) (m : Machine)
    (Hwf : ctx_wf ctx) (Hargs : Forall (known_operand func env ctx (locals m)) args)
    (Hfold : fold_call func args env = Some lit)
    (Hfits : fits (emit_scalar_call func args functions ctx).1.2 m) :
  lit_in_range lit ∧
  (emit_scalar_call func args functions ctx).2 = Some I64 ∧
  ∃ L', exec (emit_scalar_call func args functions ctx).1.1 Run m =
          Ok (MkMachine (W64 (bits (literal_word lit)) :: stack m) L') ∧
        below ctx (locals m) L'.
Proof.
  apply bind_Some in Hfold as (zs & Hzs & Hfold).
  pose proof (fold_call_operands _ _ _ _ _ _ Hargs Hzs) as Hops.
  split.
  { eapply fold_ints_range; [|exact Hfold]. eapply Forall2_Forall_r; [exact Hops|].
    apply Forall_true. intros x z (ty & Hr & _). by eapply reads_range. }
  destruct m as [st L].
  pose proof (call_delivers func args zs lit functions ctx st L Hwf Hops Hfold) as Hd.
  destruct (emit_scalar_call func args functions ctx) as [[code ctx'] ty]. destruct Hd as [-> Hd].
  split; [done|]. destruct (Hd Hfits) as (L' & He & _ & Hb). exists L'. split; [|done].
  specialize (He []). by rewrite app_nil_r in He.
Qed.

(** Two parameters bound to known constants, and room for temporaries. *)
Definition frame_example : Machine :=
  MkMachine [] (W64 (bits i64_MAX) :: W64 (bits 2) :: replicate 4 (W64 0)).
Definition env_example : Env := <["a" := LInt i64_MAX]> (<["b" := LInt 2]> ∅).

Lemma int_code_matches_folding_witness :
  ∃ L', exec (emit_scalar_call "int.saturating_mul" ["a"; "b"] ∅ (ctx_new ["a"; "b"])).1.1 Run
          frame_example = Ok (MkMachine [W64 (bits i64_MAX)] L') ∧
        below (ctx_new ["a"; "b"]) (locals frame_example) L'.
Proof.
  apply (int_code_matches_folding "int.saturating_mul" ["a"; "b"] env_example (LInt i64_MAX) ∅
           (ctx_new ["a"; "b"]) frame_example).
  - apply ctx_new_wf.
  - repeat constructor.
    + exists (LInt i64_MAX), i64_MAX. split_and!; [reflexivity..|]. exists I64. split; [|by left].
      exists 0%N. split_and!; [reflexivity|simpl; lia|reflexivity|apply in_i64_MAX].
    + exists (LInt 2), 2. split_and!; [reflexivity..|]. exists I64. split; [|by left].
      exists 1%N. split_and!; [reflexivity|simpl; lia|reflexivity|]. i64_lia.
  - vm_compute. reflexivity.
  - exists []. reflexivity.
Defined.

(** Traps.  A division call traps exactly when the folder declines to fold
    it: on a zero divisor and on [MIN / -1].  A remainder call traps on a zero
    divisor only: on [MIN % -1], which the folder leaves alone as well, the code
    runs and gives 0. *)
Theorem division_traps (func x y : string) (a b : Z) (functions : gmap string N)
    (ctx : WasmCodegenCtx) (m : Machine)
    (Hx : reads ctx (locals m) x I64 a) (Hy : reads ctx (locals m) y I64 b) :
  let code := (emit_scalar_call func [x; y] functions ctx).1.1 in
  (func ∈ ["i64.div_s"; "/"; "div"] → exec code Run m = Err Trap ↔ fold_ints func [a; b] = None) ∧
  (func ∈ ["i64.rem_s"; "%"; "mod"] →
     (exec code Run m = Err Trap ↔ b = 0) ∧
     (fold_ints func [a; b] = None ↔ b = 0 ∨ a = i64_MIN ∧ b = -1)).
Proof.
  destruct m as [st L].
  pose proof (reads_range _ _ _ _ _ Hx) as Ha. pose proof (reads_range _ _ _ _ _ Hy) as Hb.
  destruct Hx as (i & Hi & _ & Hli & _), Hy as (j & Hj & _ & Hlj & _).
  assert (Hrun : ∀ op r, word_binop op a b = Some r →
    exec [LocalGet i; LocalGet j; op] Run (MkMachine st L) =
    match r with Ok v => Ok (MkMachine (v :: st) L) | Err e => Err e end).
  { intros op r Hr. rewrite (exec_get _ _ _ _ _ Hli), (exec_get _ _ _ _ _ Hlj).
    rewrite (exec_word op [] a b r) by done. by destruct r. }
  assert (Hargs : emit_args [x; y] ctx = ([LocalGet i; LocalGet j], true)).
  { simpl. by rewrite Hi, Hj. }
  split; intros Hf; rewrite !elem_of_cons, elem_of_nil in Hf.
  - assert ((emit_scalar_call func [x; y] functions ctx).1.1 = [LocalGet i; LocalGet j; I64DivS]
              ∧ fold_ints func [a; b] = LInt <$> checked_div a b) as [-> ->].
    { unfold emit_scalar_call. rewrite Hargs. by destruct Hf as [->|[->|[->|[]]]]. }
    rewrite (Hrun I64DivS _ eq_refl). by destruct (checked_div a b).
  - assert ((emit_scalar_call func [x; y] functions ctx).1.1 = [LocalGet i; LocalGet j; I64RemS]
              ∧ fold_ints func [a; b] = LInt <$> checked_rem a b) as [-> ->].
    { unfold emit_scalar_call. rewrite Hargs. by destruct Hf as [->|[->|[->|[]]]]. }
    rewrite (Hrun I64RemS _ eq_refl). split; [by case_decide|].
    rewrite fmap_None. apply checked_rem_None.
Qed.

Lemma division_traps_witness :
  exec (emit_scalar_call "i64.div_s" ["a"; "b"] ∅ (ctx_new ["a"; "b"])).1.1 Run
    (MkMachine [] [W64 (bits i64_MIN); W64 (bits (-1))]) = Err Trap.
Proof.
  destruct (division_traps "i64.div_s" "a" "b" i64_MIN (-1) ∅ (ctx_new ["a"; "b"])
              (MkMachine [] [W64 (bits i64_MIN); W64 (bits (-1))])) as [Hdiv _].
  - exists 0%N. split_and!; [reflexivity|simpl; lia|reflexivity|apply in_i64_MIN].
  - exists 1%N. split_and!; [reflexivity|simpl; lia|reflexivity|apply in_i64_m1].
  - apply Hdiv; [apply list_elem_of_here|]. vm_compute. reflexivity.
Defined.

(* ------------------------------------------------------------------ *)
(** ** The generated code as the meaning of calls *)

Definition zero_of (ty : ValType) : WVal := match ty with I32 => W32 0 | I64 => W64 0 end.

(** A function whose body is the call, run on the given words. *)
Definition run_call (func : string) (zs : list Z) : option Z :=
  let params := take (length zs) ["a"; "b"; "c"] in
  let '(code, ctx, _) := emit_scalar_call func params ∅ (ctx_new params) in
  match exec code Run (MkMachine [] (((λ z, W64 (bits z)) <$> zs) ++ (zero_of <$> local_types ctx))) with
  | Ok (MkMachine (W64 b :: _) _) => Some (signed b)
  | _ => None
  end.

#[global] Instance wasm_calls : CallSemantics := λ func vs,
  zs ← mapM as_word vs; VWord <$> run_call func zs.

(** A folded call has at most three operands and gives an integer or a boolean. *)
Lemma fold_ints_shape func ints lit :
  fold_ints func ints = Some lit →
  (length ints ≤ 3)%nat ∧ literal_value lit = VWord (literal_word lit).
Proof.
  unfold fold_ints. repeat (case_match; [fold_arm; simpl; split; (lia || done)|]). done.
Qed.

(** The parameters of the function being emitted. *)
Definition param_count (ctx : WasmCodegenCtx) : nat :=
  (N.to_nat (next_local ctx) - length (local_types ctx))%nat.

Lemma int_emitter_params func emit args ctx :
  int_emitter func = Some emit → param_count (emit args ctx).1.2 = param_count ctx.
Proof.
  unfold int_emitter, param_count. intros Hi.
  repeat (case_match; [injection Hi as <-; destruct args as [|? [|? [|? []]]]; simpl;
    rewrite ?length_app; simpl; lia|]). done.
Qed.

Lemma emit_call_params func args functions ctx :
  param_count (emit_scalar_call func args functions ctx).1.2 = param_count ctx.
Proof.
  unfold emit_scalar_call. destruct (int_emitter func) eqn:E; [by eapply int_emitter_params|].
  destruct (emit_args args ctx) as [code []]; simpl; by repeat case_match.
Qed.

Lemma run_call_fits func zs :
  (length zs ≤ 3)%nat →
  let params := take (length zs) ["a"; "b"; "c"] in
  let ctx := (emit_scalar_call func params ∅ (ctx_new params)).1.2 in
  fits ctx (MkMachine [] (((λ z, W64 (bits z)) <$> zs) ++ (zero_of <$> local_types ctx))).
Proof.
  intros Hlen params ctx. exists []. simpl. rewrite app_nil_r. unfold frame_types.
  fold (param_count ctx). unfold ctx. rewrite emit_call_params. fold ctx.
  rewrite fmap_app, <- !list_fmap_compose. f_equal.
  - unfold param_count. simpl. rewrite Nat.sub_0_r, Nat2N.id. unfold params.
    rewrite length_take_le by (simpl; lia). clear. by induction zs; simpl; f_equal.
  - transitivity (id <$> local_types ctx); [|apply list_fmap_id].
    apply list_fmap_ext. by intros ? [] _.
Qed.

Lemma run_call_operands func zs ls :
  (length zs ≤ 3)%nat → Forall in_i64 zs →
  let params := take (length zs) ["a"; "b"; "c"] in
  Forall2 (operand func (ctx_new params) (((λ z, W64 (bits z)) <$> zs) ++ ls)) params zs.
Proof.
  intros Hlen Hr. destruct zs as [|a [|b [|c []]]]; simpl in Hlen; [..|lia];
    rewrite ?Forall_cons in Hr; destruct_and?; simpl;
    repeat (constructor; [exists I64; split; [|by left]|]); try done.
  all: first
    [ exists 0%N; split_and!; [reflexivity|simpl; lia|reflexivity|done]
    | exists 1%N; split_and!; [reflexivity|simpl; lia|reflexivity|done]
    | exists 2%N; split_and!; [reflexivity|simpl; lia|reflexivity|done] ].
Qed.

(** The generated code satisfies what the optimiser assumes of calls. *)
#[global] Instance wasm_folding_laws : @FoldingLaws wasm_calls.
Proof.
  intros func zs lit Hr Hfold. destruct (fold_ints_shape func zs lit Hfold) as [Hlen Hword].
  assert (Hm : mapM as_word (VWord <$> zs) = Some zs).
  { clear. induction zs as [|z zs IH]; [done|]. rewrite fmap_cons, mapM_cons, IH. done. }
  unfold call_function, wasm_calls. rewrite Hm. simpl. rewrite Hword. unfold run_call.
  pose proof (run_call_fits func zs Hlen) as Hfits. cbv zeta in Hfits.
  set (params := take (length zs) ["a"; "b"; "c"]) in *.
  pose proof (call_delivers func params zs lit ∅ (ctx_new params) []
    (((λ z, W64 (bits z)) <$> zs) ++ (zero_of <$> local_types (emit_scalar_call func params ∅ (ctx_new params)).1.2))
    (ctx_new_wf _) (run_call_operands func zs _ Hlen Hr) Hfold) as Hd.
  destruct (emit_scalar_call func params ∅ (ctx_new params)) as [[code ctx] ty].
  destruct Hd as [_ Hd]. destruct (Hd Hfits) as (L' & He & _). specialize (He []).
  rewrite app_nil_r in He. simpl in He |- *. rewrite He. simpl. do 2 f_equal.
  apply signed_bits. eapply fold_ints_range in Hfold; [|done].
  destruct lit as [[]| | | | |]; simpl in *; try done; auto with i64.
Qed.
