(* ===== verification/Optimizer.v ===== *)
(** * The optimiser's passes on a module's bindings

    What the four passes of crates/ail-compiler/src/optimize/ guarantee of the
    bindings they rewrite, applied in the order optimize/mod.rs documents, with
    the generated WASM code as the meaning of calls, and three inputs on which
    the passes do more than their comments allow. *)

From S2P Require Import Prelude Text GraphTypes I64 Anf ConstFold Dce AnfEval Inline Cse WasmMachine WasmInt.

#[local] Open Scope Z_scope.

(** The passes in the order of the pipeline (optimize/mod.rs) *)
Definition optimize_passes (bindings : list AnfBinding) : list AnfBinding :=
  optimize_bindings (cse_bindings (inline_small_pure (eliminate_dead_pure bindings))).

(** The binding of a module after dead-element elimination *)
Definition eliminated (b : AnfBinding) : AnfBinding :=
  MkAnfBinding (ab_source_ref b) (ab_name b) (elim_dead_expr (ab_expr b)).

(** What the passes take for granted of a binding: literals are in range and no
    float is a negative zero; an inlined body has no short-circuit operator and
    no let that captures an argument; after inlining every let on a path binds a
    name that is new to the path. *)
Record optimizable (bindings : list AnfBinding) (b : AnfBinding) : Prop := MkOptimizable {
  op_lits : Forall (λ b, lits_ok (ab_expr b)) bindings;
  op_bodies : ∀ func params body,
    small_fns_of (eliminate_dead_pure bindings) !! func = Some (params, body) → substitutable body;
  op_captures : captures_nothing (small_fns_of (eliminate_dead_pure bindings)) (elim_dead_expr (ab_expr b));
  op_names : cse_safe [] [] (inlined (eliminate_dead_pure bindings) (eliminated b)) = true;
  op_floats : floats_ok (inlined (eliminate_dead_pure bindings) (eliminated b));
}.

(** C21: soundness of the optimiser.  Dead-element elimination, inlining, sharing of common subexpressions, constant
    folding and dead-let elimination, one after the other, keep every binding with its name and provenance, and
    whatever an optimizable binding of the effect-free fragment evaluates to, its optimised form evaluates to as well,
    for every meaning of calls that agrees with the folder and runs the bodies of the module's functions. *)
Theorem optimizer_sound `{FoldingLaws} (bindings : list AnfBinding)
    `{!ModuleCalls (small_fns_of (eliminate_dead_pure bindings))} (i : nat) (b : AnfBinding) (ρ : Scope) (v : Value)
    (Hb : bindings !! i = Some b) (Hok : optimizable bindings b) (Hv : eval ρ (ab_expr b) = Some v) :
  length (optimize_passes bindings) = length bindings ∧
  ∃ b', optimize_passes bindings !! i = Some b' ∧
    ab_source_ref b' = ab_source_ref b ∧ ab_name b' = ab_name b ∧
    eval ρ (ab_expr b') = Some v.
Proof.
  unfold optimize_passes, optimize_bindings, cse_bindings. split.
  { rewrite !length_fmap. unfold inline_small_pure. case_decide; unfold eliminate_dead_pure; by rewrite !length_fmap. }
  assert (eliminate_dead_pure bindings !! i = Some (eliminated b)) as Hd.
  { unfold eliminate_dead_pure. by rewrite list_lookup_fmap, Hb. }
  rewrite !list_lookup_fmap, inline_small_pure_lookup, Hd. eexists. split; [done|]. cbn. split_and!; [done..|].
  destruct Hok as [Hl Hbodies Hcap Hnames Hfloats].
  apply optimize_expr_sound; [|done|].
  { apply cse_lits, inline_module_lits; [|by eapply list_elem_of_lookup_2]. unfold eliminate_dead_pure.
    apply Forall_fmap. eapply Forall_impl; [exact Hl|]. intros b'. apply elim_dead_lits. }
  eapply cse_keeps; [exact Hnames|exact Hfloats|by intros ? ? ?%not_elem_of_nil|].
  apply elim_dead_sound in Hv. unfold inlined. case_decide; [done|]. by apply inline_keeps.
Qed.

(** The meaning of calls in a module with a function that doubles its argument *)
#[local] Instance double_calls : CallSemantics := λ func ws,
  if decide (func = "double") then match ws with [w] => wasm_calls "i64.add" [w; w] | _ => None end
  else wasm_calls func ws.

#[local] Instance double_folding : FoldingLaws.
Proof.
  intros func ints lit Hr Hf. unfold call_function, double_calls. case_decide as Hd; [by subst|].
  by apply (@call_folds wasm_calls wasm_folding_laws).
Qed.

(** [double] and [let a = 20 in let t = double(a) in let u = double(a) in { t; u - a }] *)
Definition double_binding : AnfBinding := MkAnfBinding 6%N "double" (ALambda ["x"] [] (ACall "i64.add" ["x"; "x"])).
Definition folding_binding : AnfBinding :=
  MkAnfBinding 7%N "fn.f"
    (ALet "a" (ALiteral (LInt 20))
      (ALet "t" (ACall "double" ["a"])
        (ALet "u" (ACall "double" ["a"])
          (ASeq [AVar "t"; ACall "i64.sub" ["u"; "a"]])))).
Definition folding_module : list AnfBinding := [double_binding; folding_binding].

Lemma folding_fns :
  small_fns_of (eliminate_dead_pure folding_module) = {[ "double" := (["x"], ACall "i64.add" ["x"; "x"]) ]}.
Proof. reflexivity. Qed.

#[local] Instance double_module : ModuleCalls (small_fns_of (eliminate_dead_pure folding_module)).
Proof.
  intros func params body ws v. rewrite folding_fns. intros [<- [= <- <-]]%lookup_singleton_Some. by destruct ws as [|w []].
Qed.

Lemma folding_optimizable : optimizable folding_module folding_binding.
Proof.
  constructor.
  - repeat first [ apply Forall_nil_2 | apply Forall_cons_2
      | apply lits_ok_intro; [first [done | intros ? [= <-]; simpl; i64_lia]|simpl] ].
  - rewrite folding_fns. intros func params body [_ [= <- <-]]%lookup_singleton_Some. by constructor.
  - rewrite folding_fns.
    repeat first [ apply Forall_nil_2 | apply Forall_cons_2 | apply captures_nothing_intro; [|cbn] ];
      intros func args params body x Hc [_ [= <- <-]]%lookup_singleton_Some; by intros ?%not_elem_of_nil.
  - vm_compute. reflexivity.
  - unfold inlined. rewrite folding_fns. rewrite decide_False by done.
    repeat first [ apply Forall_nil_2 | apply Forall_cons_2 | apply floats_ok_intro; [done|cbn] ].
Qed.

Lemma optimizer_sound_witness :
  ∃ b', optimize_passes folding_module !! 1%nat = Some b' ∧
    ab_source_ref b' = 7%N ∧ ab_name b' = "fn.f" ∧ eval ∅ (ab_expr b') = Some (VWord 20).
Proof.
  apply (optimizer_sound folding_module 1%nat folding_binding ∅ (VWord 20)).
  - reflexivity.
  - exact folding_optimizable.
  - vm_compute. reflexivity.
Defined.

(** The calls are inlined and folded and the second one is shared.  The alias [u = t] that sharing leaves stays: the
    folder knows literals only, and [u] is used. *)
Example folding_result :
  ab_expr <$> optimize_passes folding_module !! 1%nat =
  Some (ALet "a" (ALiteral (LInt 20))
         (ALet "t" (ALiteral (LInt 40)) (ALet "u" (AVar "t") (ACall "i64.sub" ["u"; "a"])))).
Proof. vm_compute. reflexivity. Qed.

(* ------------------------------------------------------------------ *)
(** ** Inputs outside the guarantees *)

(** The purity test calls a tuple pure whatever its elements do, so that a
    discarded tuple takes the effect in it along. *)
Lemma dce_drops_effect_in_tuple :
  let e := ASeq [ATupleNew [AEffectCall "log" "write" ["m"]]; ALiteral LUnit] in
  effects e = [AEffectCall "log" "write" ["m"]] ∧ elim_dead_expr e = ALiteral LUnit.
Proof. by vm_compute. Qed.

(** A variable used only as the duration of a timeout counts as unused: its let
    is removed and the timeout refers to nothing. *)
Lemma timeout_duration_unbound :
  let e := ALet "d" (ALiteral (LInt 5)) (ATimeout "d" (AEffectCall "io" "read" [])) in
  (optimize_expr e ∅).1 = ATimeout "d" (AEffectCall "io" "read" []).
Proof. by vm_compute. Qed.

(** A pattern variable does not shadow a known constant of the same name: the
    payload of [Some(x)] is taken for the outer [x]. *)
Lemma match_payload_not_shadowing :
  let e := ALet "x" (ALiteral (LInt 1))
             (AMatch "s" [MkAnfMatchArm "Some(x)" (ACall "i64.add" ["x"; "x"])]) in
  arm_payload_binding "Some(x)" = Some "x" ∧
  (optimize_expr e ∅).1 = AMatch "s" [MkAnfMatchArm "Some(x)" (ALiteral (LInt 2))].
Proof. by vm_compute. Qed.
