(* ===== verification/Packages.v ===== *)
(** * Packages: trust tiers, manifests and their validation

    crate ail-package: trust.rs, surface.rs, handler.rs, export.rs, import.rs,
    assumption.rs, manifest.rs and verification.rs.  A manifest is validated
    three times: [validate] reports the first structural error,
    [production_validation_issues] lists every obstacle to publishing, and
    [validate_verified_package_evidence] checks the evidence a [Verified]
    package carries.  SemVer parsing is third-party ([SemverBackend]). *)

From S2P Require Import Prelude Text ChangeModel Trim.

(* ------------------------------------------------------------------ *)
(** ** Trust *)

(** [ail_package::trust::TrustLevel] *)
Inductive PackageTrust : Type := Unsafe | Unverified | Assumed | Verified.
#[global] Instance PackageTrust_eq_dec : EqDecision PackageTrust.
Proof. solve_decision. Defined.

Definition trust_rank (t : PackageTrust) : N :=
  match t with Unsafe => 0 | Unverified => 1 | Assumed => 2 | Verified => 3 end.

(** [self >= minimum] in the derived order *)
Definition satisfies (t minimum : PackageTrust) : bool :=
  bool_decide (trust_rank minimum ≤ trust_rank t)%N.

Inductive PackageSigningKeyTrust : Type := KeyTrusted | KeyExpired | KeyRevoked.

Record PackageSigningTrustAnchor : Type := MkTrustAnchor {
  ta_public_key : list N;
  ta_trust : PackageSigningKeyTrust;
}.

Definition PackageSigningTrustPolicy : Type := list PackageSigningTrustAnchor.

Definition add_trust_anchor (a : PackageSigningTrustAnchor) (p : PackageSigningTrustPolicy)
  : PackageSigningTrustPolicy := p ++ [a].

Definition trust_for_key (public_key : list N) (p : PackageSigningTrustPolicy)
  : option PackageSigningKeyTrust :=
  ta_trust <$> find_first (λ a, ta_public_key a = public_key) p.

(* ------------------------------------------------------------------ *)
(** ** The manifest and its parts *)

Record UnsafeSurfaceEntry : Type := MkUnsafeSurfaceEntry {
  us_kind : string;
  us_name : string;
  us_description : string;
}.

Record HandlerExport : Type := MkHandlerExport {
  he_capability : string;
  he_handler_name : string;
  he_trust_level : PackageTrust;
}.

Inductive ExportVisibility : Type := VisPublic | VisInternal | VisPrivate.
Inductive ExportStability : Type := Stable | Beta | Experimental | Deprecated.

Record ExportDeclaration : Type := MkExportDeclaration {
  ed_name : string;
  ed_signature : string;
  ed_effects : list string;
  ed_contracts : list string;
  ed_visibility : ExportVisibility;
  ed_stability : ExportStability;
  ed_trust_state : option PackageTrust;
}.

Record ImportDeclaration : Type := MkImportDeclaration {
  id_source_package : string;
  id_items : list string;
  id_version_constraint : option string;
}.

Inductive AssumptionState : Type := Proposed | Approved | Active | Expired | Revoked | FailedReview.

Record PackageAssumption : Type := MkPackageAssumption {
  pa_id : string;
  pa_claim : string;
  pa_boundary : string;
  pa_owner : string;
  pa_expires : option string;
  pa_state : AssumptionState;
}.

Definition is_active (a : PackageAssumption) : bool :=
  match pa_state a with Active => true | _ => false end.

Record ApprovalRecord : Type := MkApprovalRecord {
  ar_assumption_id : string;
  ar_project : string;
  ar_approved_by : string;
}.

Record AssumptionEnforcementError : Type := UnacceptedAssumption {
  ua_assumption_id : string;
  ua_package : string;
}.

(** [AssumptionEnforcer::check] *)
Definition assumption_check (package : string) (assumptions : list PackageAssumption)
    (project : string) (approvals : list ApprovalRecord) : list AssumptionEnforcementError :=
  (λ a, UnacceptedAssumption (pa_id a) package) <$>
    filter (λ a, is_active a = true ∧
                 any (λ r, ar_assumption_id r = pa_id a ∧ ar_project r = project) approvals = false)
      assumptions.

Record ReproducibleBuildEvidence : Type := MkReproducibleBuildEvidence {
  rb_build_inputs_hash : string;
  rb_toolchain_id : string;
  rb_source_digest : string;
  rb_recipe_hash : string;
}.

(** [ail_package::manifest::Provenance] *)
Record PackageProvenance : Type := MkPackageProvenance {
  pp_url : option string;
  pp_source_repository : option string;
  pp_commit_hash : option string;
  pp_build_id : option string;
}.

Record ArtifactHashEntry : Type := MkArtifactHashEntry {
  ah_role : string;
  ah_hash : string;
}.

Record PackageVerificationReport : Type := MkPackageVerificationReport {
  pv_package : string;
  pv_version : string;
  pv_exports_verified : list string;
  pv_effects_declared : list string;
  pv_assumptions : list string;
  pv_unsafe_surface : list string;
  pv_artifact_hashes : list string;
}.

(** [PackageManifest]; [PackageDef] has the same fields, and [from_def] copies them. *)
Record PackageManifest : Type := MkPackageManifest {
  pm_name : string;
  pm_version : string;
  pm_trust_level : PackageTrust;
  pm_required_capabilities : list string;
  pm_exported_capabilities : list string;
  pm_assumptions : list PackageAssumption;
  pm_unsafe_surface : list UnsafeSurfaceEntry;
  pm_artifact_hashes : list ArtifactHashEntry;
  pm_build_env_hash : option string;
  pm_handlers : list HandlerExport;
  pm_contracts : list string;
  pm_exports : list ExportDeclaration;
  pm_imports : list ImportDeclaration;
  pm_boundaries : list string;
  pm_license : option string;
  pm_provenance : option PackageProvenance;
  pm_verification_report : option PackageVerificationReport;
  pm_graph_schema : option N;
  pm_core_ir_schema : option N;
  pm_reproducible_evidence : option ReproducibleBuildEvidence;
}.

(* ------------------------------------------------------------------ *)
(** ** Structural validation *)

Inductive PackageValidationError : Type :=
| UnsafeWithoutSurface
| ExportNameEmpty
| HandlerFieldEmpty
| ImportSourceEmpty
| WasmArtifactMissingAbiDescriptor
| ArtifactRoleEmpty
| ArtifactHashInvalid
| DuplicateArtifactRole.

Definition byte_is_lower_hex (a : ascii) : bool :=
  let n := N_of_ascii a in ((48 <=? n) && (n <=? 57) || (97 <=? n) && (n <=? 102))%N.

Definition is_valid_blake3_hex (hash : string) : bool :=
  bool_decide (String.length hash = 64) && string_all byte_is_lower_hex hash.

Definition has_artifact_role (artifacts : list ArtifactHashEntry) (role : string) : bool :=
  any (λ e, trim (ah_role e) = role) artifacts.

(** The loop over the artifacts, with the roles seen so far. *)
Fixpoint validate_artifacts (seen : gset string) (artifacts : list ArtifactHashEntry)
  : result unit PackageValidationError :=
  match artifacts with
  | [] => Ok ()
  | e :: artifacts' =>
      let role := trim (ah_role e) in
      if decide (role = "") then Err ArtifactRoleEmpty
      else if negb (is_valid_blake3_hex (ah_hash e)) then Err ArtifactHashInvalid
      else if decide (role ∈ seen) then Err DuplicateArtifactRole
      else validate_artifacts ({[role]} ∪ seen) artifacts'
  end.

(** [PackageManifest::validate] *)
Definition validate_manifest (m : PackageManifest) : result unit PackageValidationError :=
  if decide (pm_trust_level m = Unsafe ∧ pm_unsafe_surface m = []) then Err UnsafeWithoutSurface
  else if any (λ e, ed_name e = "") (pm_exports m) then Err ExportNameEmpty
  else if any (λ h, he_capability h = "" ∨ he_handler_name h = "") (pm_handlers m)
       then Err HandlerFieldEmpty
  else if any (λ i, id_source_package i = "") (pm_imports m) then Err ImportSourceEmpty
  else
    let? _ := validate_artifacts ∅ (pm_artifact_hashes m) in
    if has_artifact_role (pm_artifact_hashes m) "wasm-artifact"
       && negb (has_artifact_role (pm_artifact_hashes m) "wasm-abi-descriptor")
    then Err WasmArtifactMissingAbiDescriptor
    else Ok ().

(* ------------------------------------------------------------------ *)
(** ** Publishing *)

Inductive PackageManifestIssueKind : Type :=
| IssueInvalidPackageName
| IssueInvalidVersion
| IssueUnsafeWithoutSurface
| IssueExportNameEmpty
| IssueHandlerFieldEmpty
| IssueImportSourceEmpty
| IssueMissingLicense
| IssueMissingEntryMetadata
| IssueMissingAbiDescriptorArtifact
| IssueArtifactRoleEmpty
| IssueArtifactHashInvalid
| IssueDuplicateArtifactRole
| IssueDuplicateDependency
| IssueDuplicateCapability
| IssueDuplicateExport.

(** The issue with the fields of its descriptor. *)
Record PackageManifestIssue : Type := MkPackageManifestIssue {
  pi_kind : PackageManifestIssueKind;
  pi_path : string;
  pi_index : option nat;
  pi_duplicate_of : option nat;
  pi_message : string;
}.

(** [semver::Version::parse(..).is_ok()] *)
Class SemverBackend : Type := { semver_valid : string → bool }.

Fixpoint contains_dotdot (s : string) : bool :=
  match s with
  | String "." (String "." _) => true
  | String _ s' => contains_dotdot s'
  | EmptyString => false
  end.

Fixpoint ends_with_char (a : ascii) (s : string) : bool :=
  match s with
  | EmptyString => false
  | String c EmptyString => bool_decide (c = a)
  | String _ s' => ends_with_char a s'
  end.

Definition byte_is_name (a : ascii) : bool :=
  let n := N_of_ascii a in
  ((97 <=? n) && (n <=? 122) || (48 <=? n) && (n <=? 57)
   || (n =? 46) || (n =? 95) || (n =? 45))%N.

Definition is_valid_package_name (name : string) : bool :=
  if bool_decide (name = "") || starts_with "." name || ends_with_char "." name || contains_dotdot name
  then false
  else string_all byte_is_name name.

(** The loop shared by the four searches for duplicates: the index of each entry
    whose trimmed key came before, with the index of its first occurrence.
    Blank keys are passed over. *)
Fixpoint duplicates_from (i : nat) (first : gmap string nat) (keys : list string) : list (nat * nat) :=
  match keys with
  | [] => []
  | k :: keys' =>
      if decide (k = "") then duplicates_from (S i) first keys'
      else match first !! k with
           | Some j => (i, j) :: duplicates_from (S i) first keys'
           | None => duplicates_from (S i) (<[k := i]> first) keys'
           end
  end.

Definition index_le (a b : nat * nat) : Prop := a.1 < b.1 ∨ (a.1 = b.1 ∧ a.2 ≤ b.2).
#[global] Instance index_le_dec a b : Decision (index_le a b).
Proof. unfold index_le. apply _. Defined.

Definition duplicate_issues (kind : PackageManifestIssueKind) (path message : string)
    (keys : list string) : list PackageManifestIssue :=
  (λ '(i, j), MkPackageManifestIssue kind path (Some i) (Some j) message) <$>
    merge_sort index_le (duplicates_from 0 ∅ keys).

Definition push_duplicate_string_issues (values : list string) (kind : PackageManifestIssueKind)
    (path message : string) : list PackageManifestIssue :=
  duplicate_issues kind path message (trim <$> values).

Definition push_duplicate_import_issues (imports : list ImportDeclaration) : list PackageManifestIssue :=
  duplicate_issues IssueDuplicateDependency "manifest.imports.source_package"
    "dependency imports must be unique by source package" (trim ∘ id_source_package <$> imports).

Definition push_duplicate_export_issues (exports : list ExportDeclaration) : list PackageManifestIssue :=
  duplicate_issues IssueDuplicateExport "manifest.exports.name"
    "export declarations must be unique by export name" (trim ∘ ed_name <$> exports).

Definition artifact_entry_issues (i : nat) (e : ArtifactHashEntry) : list PackageManifestIssue :=
  (if decide (trim (ah_role e) = "")
   then [MkPackageManifestIssue IssueArtifactRoleEmpty "manifest.artifact_hashes.role" (Some i) None
           "artifact hash entries must include an artifact role"] else [])
  ++ (if negb (is_valid_blake3_hex (ah_hash e))
      then [MkPackageManifestIssue IssueArtifactHashInvalid "manifest.artifact_hashes.hash" (Some i) None
              "artifact hashes must be canonical BLAKE3 hex digests"] else []).

(** The duplicate roles come after the issues of the entries, unsorted. *)
Definition push_artifact_hash_issues (artifacts : list ArtifactHashEntry) : list PackageManifestIssue :=
  mjoin (imap artifact_entry_issues artifacts)
  ++ ((λ '(i, j), MkPackageManifestIssue IssueDuplicateArtifactRole "manifest.artifact_hashes.role"
                    (Some i) (Some j) "artifact hash roles must be unique")
      <$> duplicates_from 0 ∅ (trim ∘ ah_role <$> artifacts)).

Definition export_issues (i : nat) (e : ExportDeclaration) : list PackageManifestIssue :=
  (if decide (trim (ed_name e) = "")
   then [MkPackageManifestIssue IssueExportNameEmpty "manifest.exports.name" (Some i) None
           "export declarations must include an export name"] else [])
  ++ (if decide (trim (ed_signature e) = "")
      then [MkPackageManifestIssue IssueMissingEntryMetadata "manifest.exports.signature" (Some i) None
              "export declarations must include entry signature metadata"] else []).

Definition handler_issues (i : nat) (h : HandlerExport) : list PackageManifestIssue :=
  if decide (trim (he_capability h) = "" ∨ trim (he_handler_name h) = "")
  then [MkPackageManifestIssue IssueHandlerFieldEmpty "manifest.handlers" (Some i) None
          "handler exports must include capability and handler metadata"] else [].

Definition import_issues (i : nat) (d : ImportDeclaration) : list PackageManifestIssue :=
  if decide (trim (id_source_package d) = "")
  then [MkPackageManifestIssue IssueImportSourceEmpty "manifest.imports.source_package" (Some i) None
          "import declarations must include source package metadata"] else [].

Definition issue_if (b : bool) (kind : PackageManifestIssueKind) (path message : string)
  : list PackageManifestIssue :=
  if b then [MkPackageManifestIssue kind path None None message] else [].

Definition production_validation_issues `{SemverBackend} (m : PackageManifest)
  : list PackageManifestIssue :=
  issue_if (negb (is_valid_package_name (pm_name m))) IssueInvalidPackageName "manifest.name"
    "package name must be non-empty lowercase package coordinates"
  ++ issue_if (negb (semver_valid (pm_version m))) IssueInvalidVersion "manifest.version"
    "package version must be valid semantic version metadata"
  ++ issue_if (bool_decide (pm_trust_level m = Unsafe ∧ pm_unsafe_surface m = []))
    IssueUnsafeWithoutSurface "manifest.unsafe_surface"
    "unsafe packages must declare at least one unsafe surface entry"
  ++ issue_if (from_option (λ l, bool_decide (trim l = "")) true (pm_license m))
    IssueMissingLicense "manifest.license" "production package manifests must declare license metadata"
  ++ push_duplicate_string_issues (pm_required_capabilities m) IssueDuplicateCapability
    "manifest.required_capabilities" "required capability entries must be unique"
  ++ push_duplicate_string_issues (pm_exported_capabilities m) IssueDuplicateCapability
    "manifest.exported_capabilities" "exported capability entries must be unique"
  ++ push_duplicate_import_issues (pm_imports m)
  ++ push_artifact_hash_issues (pm_artifact_hashes m)
  ++ issue_if (has_artifact_role (pm_artifact_hashes m) "wasm-artifact"
               && negb (has_artifact_role (pm_artifact_hashes m) "wasm-abi-descriptor"))
    IssueMissingAbiDescriptorArtifact "manifest.artifact_hashes"
    "wasm packages must declare the ABI descriptor artifact"
  ++ mjoin (imap export_issues (pm_exports m))
  ++ push_duplicate_export_issues (pm_exports m)
  ++ mjoin (imap handler_issues (pm_handlers m))
  ++ mjoin (imap import_issues (pm_imports m)).

Definition validate_for_publish `{SemverBackend} (m : PackageManifest)
  : result unit (list PackageManifestIssue) :=
  match production_validation_issues m with [] => Ok () | issues => Err issues end.

(* ------------------------------------------------------------------ *)
(** ** Evidence of verified packages (verification.rs) *)

Inductive PackageVerificationEvidenceError : Type :=
| MissingReport
| PackageMismatch (expected actual : string)
| VersionMismatch (expected actual : string)
| ManifestArtifactHashesMissing
| ArtifactHashesMismatch (manifest_hashes report_hashes : list string)
| MissingReproducibleEvidence
| ReproducibleEvidenceInvalidFormat (field reason : string)
| ReproducibleEvidenceBuildInputsMismatch (expected actual : string).

Definition byte_is_hexdigit (a : ascii) : bool :=
  let n := N_of_ascii a in
  ((48 <=? n) && (n <=? 57) || (97 <=? n) && (n <=? 102) || (65 <=? n) && (n <=? 70))%N.

Definition is_blake3_hex (s : string) : bool :=
  bool_decide (String.length s = 64) && string_all byte_is_hexdigit s.

Definition invalid_format (field reason : string) : result unit PackageVerificationEvidenceError :=
  Err (ReproducibleEvidenceInvalidFormat field reason).

Definition validate_reproducible_evidence_fields (e : ReproducibleBuildEvidence)
  : result unit PackageVerificationEvidenceError :=
  let hex := "expected 64-char lower-case hex string" in
  if negb (is_blake3_hex (rb_build_inputs_hash e)) then invalid_format "build_inputs_hash" hex
  else if decide (rb_toolchain_id e = "") then invalid_format "toolchain_id" "must be non-empty"
  else if negb (is_blake3_hex (rb_source_digest e)) then invalid_format "source_digest" hex
  else if negb (is_blake3_hex (rb_recipe_hash e)) then invalid_format "recipe_hash" hex
  else Ok ().

Definition compute_build_inputs_hash `{HashBackend} (source_digest toolchain_id : string) : string :=
  to_hex (blake3 (string_bytes source_digest ++ string_bytes toolchain_id)).

(** [ReproducibleBuildEvidence::new] *)
Definition evidence_new `{HashBackend} (source_digest toolchain_id recipe_hash : string)
  : ReproducibleBuildEvidence :=
  MkReproducibleBuildEvidence (compute_build_inputs_hash source_digest toolchain_id) toolchain_id
    source_digest recipe_hash.

Definition validate_verified_package_evidence `{HashBackend} (m : PackageManifest)
  : result unit PackageVerificationEvidenceError :=
  if decide (pm_trust_level m ≠ Verified) then Ok ()
  else match pm_verification_report m with
  | None => Err MissingReport
  | Some report =>
    if decide (pv_package report ≠ pm_name m) then Err (PackageMismatch (pm_name m) (pv_package report))
    else if decide (pv_version report ≠ pm_version m)
         then Err (VersionMismatch (pm_version m) (pv_version report))
    else if decide (pm_artifact_hashes m = []) then Err ManifestArtifactHashesMissing
    else
      let manifest_hashes := merge_sort String.le (ah_hash <$> pm_artifact_hashes m) in
      let report_hashes := merge_sort String.le (pv_artifact_hashes report) in
      if decide (manifest_hashes ≠ report_hashes)
      then Err (ArtifactHashesMismatch manifest_hashes report_hashes)
      else match pm_reproducible_evidence m with
      | None => Err MissingReproducibleEvidence
      | Some evidence =>
          let? _ := validate_reproducible_evidence_fields evidence in
          let derived := compute_build_inputs_hash (rb_source_digest evidence) (rb_toolchain_id evidence) in
          if decide (rb_build_inputs_hash evidence ≠ derived)
          then Err (ReproducibleEvidenceBuildInputsMismatch derived (rb_build_inputs_hash evidence))
          else Ok ()
      end
  end.

(* ------------------------------------------------------------------ *)
(** ** Duplicates *)

(** The first occurrence of [k] is at [j]. *)
Definition first_at (l : list string) (k : string) (j : nat) : Prop :=
  l !! j = Some k ∧ ∀ j', j' < j → l !! j' ≠ Some k.

(** Entry [i] repeats the entry that first occurred at [j]. *)
Definition repeats (l : list string) (i j : nat) : Prop :=
  ∃ k, k ≠ "" ∧ l !! i = Some k ∧ j < i ∧ first_at l k j.

Definition firsts_of (pre : list string) (first : gmap string nat) : Prop :=
  ∀ k j, first !! k = Some j ↔ k ≠ "" ∧ first_at pre k j.

Lemma first_at_app l l' k j : j < length l → first_at (l ++ l') k j ↔ first_at l k j.
Proof.
  intros Hj. unfold first_at. rewrite lookup_app_l by done.
  split; intros [H1 H2]; (split; [done|]); intros j' Hj'; specialize (H2 j' Hj');
    rewrite lookup_app_l in * by lia; done.
Qed.

Lemma first_at_fun l k j j' : first_at l k j → first_at l k j' → j = j'.
Proof.
  intros [H1 H2] [H1' H2']. destruct (lt_eq_lt_dec j j') as [[Hlt|]|Hlt]; [|done|].
  - by destruct (H2' j Hlt).
  - by destruct (H2 j' Hlt).
Qed.

Lemma firsts_of_snoc pre first k :
  firsts_of pre first → first !! k = None → k ≠ "" →
  firsts_of (pre ++ [k]) (<[k := length pre]> first).
Proof.
  intros Hf Hn Hk k' j. rewrite lookup_insert. case_decide as E.
  - subst k'. split.
    + intros [= <-]. split; [done|]. split; [by rewrite lookup_app_r, Nat.sub_diag|].
      intros j' Hj' Hl. rewrite lookup_app_l in Hl by done.
      enough (∃ j0, first_at pre k j0) as [j0 Hj0].
      { assert (first !! k = Some j0) by (apply Hf; done). congruence. }
      clear -Hl. revert k j' Hl. induction pre as [|x pre IH]; intros k j' Hl; [done|].
      destruct (decide (x = k)) as [->|Hne]; [exists 0; split; [done|lia]|].
      destruct j' as [|j']; [cbn in Hl; congruence|]. destruct (IH k j' Hl) as (j0 & H1 & H2).
      exists (S j0). split; [done|]. intros [|j'']; cbn; [congruence|]. intros ?. apply H2. lia.
    + intros [_ [Hl Hf']]. f_equal. destruct (decide (j = length pre)) as [->|Hne]; [done|].
      apply lookup_lt_Some in Hl as Hlt. rewrite length_app in Hlt. cbn in Hlt.
      assert (first !! k = Some j); [|congruence]. apply Hf. split; [done|].
      rewrite <- (first_at_app pre [k]) by lia. done.
  - rewrite (Hf k' j). split; intros [? Hfa]; (split; [done|]).
    + apply first_at_app; [|done]. apply lookup_lt_Some with k'. apply Hfa.
    + destruct Hfa as [Hl Hr]. assert (j < length pre).
      { destruct (decide (j < length pre)); [done|]. rewrite lookup_app_r in Hl by lia.
        apply list_lookup_singleton_Some in Hl as [_ ->]. done. }
      by rewrite <- (first_at_app pre [k]).
Qed.

Lemma firsts_of_skip pre first k :
  firsts_of pre first → k = "" ∨ is_Some (first !! k) → firsts_of (pre ++ [k]) first.
Proof.
  intros Hf Hk k' j. rewrite (Hf k' j). split; intros [Hne Hfa]; (split; [done|]).
  - apply first_at_app; [|done]. apply lookup_lt_Some with k'. apply Hfa.
  - destruct (decide (j < length pre)) as [Hlt|Hge]; [by rewrite <- (first_at_app pre [k])|].
    destruct Hfa as [Hl Hr]. rewrite lookup_app_r in Hl by lia.
    apply list_lookup_singleton_Some in Hl as [Hj ->]. exfalso.
    destruct Hk as [->|[j0 Hj0]]; [done|]. apply Hf in Hj0 as [_ [Hj0 _]].
    apply lookup_lt_Some in Hj0 as Hlt. eapply (Hr j0); [lia|]. by rewrite lookup_app_l.
Qed.

Lemma duplicates_from_elem pre first keys i j :
  firsts_of pre first →
  (i, j) ∈ duplicates_from (length pre) first keys ↔ length pre ≤ i ∧ repeats (pre ++ keys) i j.
Proof.
  revert pre first. induction keys as [|k keys IH]; intros pre first Hf; cbn [duplicates_from].
  { split; [by intros ?%not_elem_of_nil|]. intros [Hi (k & _ & Hl & _)].
    apply lookup_lt_Some in Hl. rewrite app_nil_r in Hl. lia. }
  assert (∀ first', firsts_of (pre ++ [k]) first' →
    (i, j) ∈ duplicates_from (S (length pre)) first' keys ↔ S (length pre) ≤ i ∧ repeats (pre ++ k :: keys) i j) as IH'.
  { intros first' Hf'. specialize (IH (pre ++ [k]) first' Hf').
    by rewrite length_app, Nat.add_1_r, <- app_assoc in IH. }
  assert (¬ repeats (pre ++ k :: keys) (length pre) j →
    (S (length pre) ≤ i ∧ repeats (pre ++ k :: keys) i j) ↔ (length pre ≤ i ∧ repeats (pre ++ k :: keys) i j)) as Hskip.
  { intros Hn. split; intros [Hi Hr]; (split; [|done]); [lia|].
    destruct (decide (i = length pre)) as [->|]; [done|lia]. }
  assert (∀ k0, (pre ++ k :: keys) !! length pre = Some k0 → k0 = k) as Hat.
  { intros k0. rewrite lookup_app_r, Nat.sub_diag by lia. by intros [= ->]. }
  case_decide as Hk.
  - rewrite IH' by (apply firsts_of_skip; auto). apply Hskip.
    intros (k0 & Hne & Hl%Hat & _). congruence.
  - destruct (first !! k) as [j0|] eqn:E.
    + rewrite elem_of_cons, IH' by (apply firsts_of_skip; eauto).
      apply Hf in E as [_ Hfa]. pose proof (lookup_lt_Some _ _ _ (proj1 Hfa)) as Hlt.
      apply (first_at_app pre (k :: keys)) in Hfa; [|done]. split.
      * intros [[= -> ->]|[? ?]]; [|split; [lia|done]]. split; [lia|]. exists k.
        rewrite lookup_app_r, Nat.sub_diag by lia. done.
      * intros [Hi Hr]. destruct (decide (i = length pre)) as [->|]; [left|right; split; [lia|done]].
        destruct Hr as (k0 & _ & ->%Hat & _ & Hfa'). f_equal. by eapply first_at_fun.
    + rewrite IH' by (by apply firsts_of_snoc). apply Hskip.
      intros (k0 & Hne & ->%Hat & Hj & Hfa).
      assert (first !! k = Some j); [|congruence]. apply Hf. split; [done|].
      by rewrite <- (first_at_app pre (k :: keys)).
Qed.

Lemma duplicates_elem keys i j : (i, j) ∈ duplicates_from 0 ∅ keys ↔ repeats keys i j.
Proof.
  rewrite (duplicates_from_elem [] ∅ keys); cbn; [split; [by intros [_ ?]|split; [lia|done]]|].
  intros k j'. rewrite lookup_empty. split; [done|]. by intros [_ [? _]].
Qed.

(** Nothing is repeated: the keys that are not blank are distinct. *)
Lemma duplicates_nil keys :
  duplicates_from 0 ∅ keys = [] ↔ NoDup (filter (λ k, k ≠ "") keys).
Proof.
  rewrite NoDup_alt. split.
  - intros Hnil. assert (∀ i j, ¬ repeats keys i j) as Hno.
    { intros i j Hr%duplicates_elem. rewrite Hnil in Hr. by apply not_elem_of_nil in Hr. }
    rewrite <- NoDup_alt. clear Hnil. induction keys as [|k keys IH]; [constructor|].
    assert (∀ i j, ¬ repeats keys i j) as Hno'.
    { intros i j (k' & Hne & Hi & Hj & Hfa). destruct (decide (k = k')) as [->|Hk].
      - apply (Hno (S i) 0). exists k'. split; [done|]. split; [done|]. split; [lia|]. split; [done|lia].
      - apply (Hno (S i) (S j)). exists k'. split; [done|]. split; [done|]. split; [lia|].
        destruct Hfa as [H1 H2]. split; [done|]. intros [|j'] Hj'; cbn; [congruence|].
        apply H2. lia. }
    rewrite filter_cons. case_decide as Hk; [|auto]. constructor; [|auto].
    intros [_ (i & Hi)%list_elem_of_lookup]%list_elem_of_filter.
    apply (Hno (S i) 0). exists k. split; [done|]. split; [done|]. split; [lia|]. split; [done|lia].
  - rewrite <- NoDup_alt. intros Hnd. apply elem_of_nil_inv. intros [i j].
    rewrite duplicates_elem. intros (k & Hne & Hi & Hj & Hl & _).
    revert i j Hi Hj Hl. induction keys as [|x keys IH]; [done|]. intros [|i] [|j] Hi Hj Hl; cbn in Hi, Hl; try lia.
    + injection Hl as ->. rewrite filter_cons_True in Hnd by done. apply NoDup_cons in Hnd as [Hx _].
      apply Hx, list_elem_of_filter. split; [done|]. by eapply list_elem_of_lookup_2.
    + eapply (IH _ i j); [done|lia|done].
      Unshelve. rewrite filter_cons in Hnd. case_decide; [by apply NoDup_cons in Hnd as [_ ?]|done].
Qed.

(* ------------------------------------------------------------------ *)
(** ** What the checks decide *)

Definition blank (s : string) : Prop := trim s = "".
Definition distinct (keys : list string) : Prop := NoDup (filter (λ k, k ≠ "") (trim <$> keys)).

Definition artifact_ok (e : ArtifactHashEntry) : Prop :=
  ¬ blank (ah_role e) ∧ is_valid_blake3_hex (ah_hash e) = true.

(** A WASM artifact comes with its ABI descriptor. *)
Definition abi_declared (m : PackageManifest) : Prop :=
  has_artifact_role (pm_artifact_hashes m) "wasm-artifact" = true →
  has_artifact_role (pm_artifact_hashes m) "wasm-abi-descriptor" = true.

(** What [validate] is meant to enforce. *)
Definition structurally_valid (m : PackageManifest) : Prop :=
  ¬ (pm_trust_level m = Unsafe ∧ pm_unsafe_surface m = []) ∧
  (∀ e, e ∈ pm_exports m → ed_name e ≠ "") ∧
  (∀ h, h ∈ pm_handlers m → he_capability h ≠ "" ∧ he_handler_name h ≠ "") ∧
  (∀ i, i ∈ pm_imports m → id_source_package i ≠ "") ∧
  (∀ e, e ∈ pm_artifact_hashes m → artifact_ok e) ∧
  distinct (ah_role <$> pm_artifact_hashes m) ∧ abi_declared m.

(** What a manifest needs to be published. *)
Definition publishable `{SemverBackend} (m : PackageManifest) : Prop :=
  is_valid_package_name (pm_name m) = true ∧ semver_valid (pm_version m) = true ∧
  ¬ (pm_trust_level m = Unsafe ∧ pm_unsafe_surface m = []) ∧
  (∃ l, pm_license m = Some l ∧ ¬ blank l) ∧
  distinct (pm_required_capabilities m) ∧ distinct (pm_exported_capabilities m) ∧
  distinct (id_source_package <$> pm_imports m) ∧
  (∀ e, e ∈ pm_artifact_hashes m → artifact_ok e) ∧
  distinct (ah_role <$> pm_artifact_hashes m) ∧ abi_declared m ∧
  (∀ e, e ∈ pm_exports m → ¬ blank (ed_name e) ∧ ¬ blank (ed_signature e)) ∧
  distinct (ed_name <$> pm_exports m) ∧
  (∀ h, h ∈ pm_handlers m → ¬ blank (he_capability h) ∧ ¬ blank (he_handler_name h)) ∧
  (∀ i, i ∈ pm_imports m → ¬ blank (id_source_package i)).

Lemma imap_join_nil {A B} (f : nat → A → list B) (P : A → Prop) l :
  (∀ i x, f i x = [] ↔ P x) → mjoin (imap f l) = [] ↔ ∀ x, x ∈ l → P x.
Proof.
  revert f. induction l as [|x l IH]; intros f Hf; [split; [by intros _ x ?%not_elem_of_nil|done]|].
  cbn. rewrite app_nil, Hf, (IH (f ∘ S)) by (intros; apply Hf). set_solver.
Qed.

Lemma duplicate_issues_nil kind path message keys :
  duplicate_issues kind path message keys = [] ↔ NoDup (filter (λ k, k ≠ "") keys).
Proof.
  unfold duplicate_issues. rewrite <- duplicates_nil. split.
  - intros Hn%fmap_nil_inv. apply Permutation_nil_r. by rewrite <- Hn, merge_sort_Permutation.
  - intros Hn. rewrite Hn. done.
Qed.

Lemma issue_if_nil b kind path message : issue_if b kind path message = [] ↔ b = false.
Proof. unfold issue_if. by destruct b. Qed.

Lemma push_artifact_hash_issues_nil artifacts :
  push_artifact_hash_issues artifacts = [] ↔
  (∀ e, e ∈ artifacts → artifact_ok e) ∧ distinct (ah_role <$> artifacts).
Proof.
  unfold push_artifact_hash_issues. rewrite app_nil. f_equiv.
  - apply imap_join_nil. intros i e. unfold artifact_entry_issues, artifact_ok, blank.
    rewrite app_nil. case_decide; destruct (is_valid_blake3_hex (ah_hash e)); cbn; naive_solver.
  - unfold distinct. rewrite <- list_fmap_compose, <- duplicates_nil.
    split; [by intros ?%fmap_nil_inv|by intros ->].
Qed.

Lemma validate_artifacts_iff seen artifacts :
  validate_artifacts seen artifacts = Ok () ↔
  (∀ e, e ∈ artifacts → artifact_ok e ∧ trim (ah_role e) ∉ seen) ∧ distinct (ah_role <$> artifacts).
Proof.
  unfold distinct. revert seen. induction artifacts as [|e artifacts IH]; intros seen; cbn [validate_artifacts].
  { split; [|done]. intros _. split; [by intros e ?%not_elem_of_nil|constructor]. }
  csimpl. unfold artifact_ok, blank in *. case_decide as Hr; [split; [done|]; intros [Hall _]; exfalso|].
  { destruct (Hall e) as [[? _] _]; [by left|done]. }
  destruct (is_valid_blake3_hex (ah_hash e)) eqn:Hh; cbn [negb]; [|split; [done|]; intros [Hall _]; exfalso].
  2:{ destruct (Hall e) as [[_ ?] _]; [by left|congruence]. }
  rewrite filter_cons_True by done. rewrite NoDup_cons.
  case_decide as Hs; [split; [done|]; intros [Hall _]; exfalso; by destruct (Hall e ltac:(by left))|].
  rewrite IH. assert (trim (ah_role e) ∉ filter (λ k, k ≠ "") (trim <$> (ah_role <$> artifacts)) ↔
    ∀ e', e' ∈ artifacts → trim (ah_role e') ≠ trim (ah_role e)) as Hiff.
  { rewrite list_elem_of_filter. split.
    - intros Hn e' He' Heq. apply Hn. split; [done|]. rewrite <- Heq. by do 2 apply list_elem_of_fmap_2.
    - intros Hn [_ (r & Hreq & (e' & -> & He')%list_elem_of_fmap)%list_elem_of_fmap]. by apply (Hn e'). }
  rewrite Hiff. clear IH Hiff. split.
  - intros [Hall Hnd]. split; [|split; [|done]].
    + intros e' [->|He']%elem_of_cons; [done|]. destruct (Hall e' He') as [? Hn]. split; [done|].
      intros ?. apply Hn. by apply elem_of_union_r.
    + intros e' He' Heq. destruct (Hall e' He') as [_ Hn]. apply Hn, elem_of_union_l.
      by apply elem_of_singleton.
  - intros [Hall [Hne Hnd]]. split; [|done]. intros e' He'. destruct (Hall e' ltac:(by right)) as [? Hn].
    split; [done|]. intros [Hin%elem_of_singleton|Hin]%elem_of_union; [by apply (Hne e')|done].
Qed.

Lemma validate_manifest_iff m : validate_manifest m = Ok () ↔ structurally_valid m.
Proof.
  unfold validate_manifest, structurally_valid, abi_declared.
  case_decide as Hu; [split; [done|by intros [? _]]|].
  destruct (any (λ e, ed_name e = "") (pm_exports m)) eqn:He.
  { apply any_true in He. split; [done|]. naive_solver. }
  destruct (any (λ h, he_capability h = "" ∨ he_handler_name h = "") (pm_handlers m)) eqn:Hh.
  { apply any_true in Hh. split; [done|]. naive_solver. }
  destruct (any (λ i, id_source_package i = "") (pm_imports m)) eqn:Hi.
  { apply any_true in Hi. split; [done|]. naive_solver. }
  rewrite any_false in He. rewrite any_false in Hh. rewrite any_false in Hi. pose proof (validate_artifacts_iff ∅ (pm_artifact_hashes m)) as Ha.
  assert (validate_artifacts ∅ (pm_artifact_hashes m) = Ok () ↔
    (∀ e, e ∈ pm_artifact_hashes m → artifact_ok e) ∧ distinct (ah_role <$> pm_artifact_hashes m)) as Ha'
    by (rewrite Ha; set_solver). clear Ha.
  assert (∀ h, h ∈ pm_handlers m → he_capability h ≠ "" ∧ he_handler_name h ≠ "") as Hh'
    by (intros h Hin; specialize (Hh h Hin); tauto).
  match goal with |- ?L ↔ _ => enough (L ↔ ((∀ e, e ∈ pm_artifact_hashes m → artifact_ok e) ∧
    distinct (ah_role <$> pm_artifact_hashes m)) ∧
    (has_artifact_role (pm_artifact_hashes m) "wasm-artifact" = true →
     has_artifact_role (pm_artifact_hashes m) "wasm-abi-descriptor" = true)) by tauto end.
  rewrite <- Ha'. destruct (validate_artifacts ∅ (pm_artifact_hashes m)) as [[]|err]; cbn;
    [|split; [done|by intros [? _]]].
  destruct (has_artifact_role _ "wasm-artifact"), (has_artifact_role _ "wasm-abi-descriptor"); cbn;
    split; try done; intros [_ Habi]; by discriminate Habi.
Qed.

Section Publishing.
Context `{SemverBackend}.

Lemma production_issues_nil m : production_validation_issues m = [] ↔ publishable m.
Proof.
  unfold production_validation_issues, publishable, push_duplicate_string_issues,
    push_duplicate_import_issues, push_duplicate_export_issues.
  rewrite !app_nil, !issue_if_nil, !duplicate_issues_nil, push_artifact_hash_issues_nil.
  rewrite (imap_join_nil export_issues (λ e, ¬ blank (ed_name e) ∧ ¬ blank (ed_signature e))),
    (imap_join_nil handler_issues (λ h, ¬ blank (he_capability h) ∧ ¬ blank (he_handler_name h))),
    (imap_join_nil import_issues (λ i, ¬ blank (id_source_package i))).
  2:{ intros i d. unfold import_issues, blank. by case_decide. }
  2:{ intros i h. unfold handler_issues, blank. case_decide; naive_solver. }
  2:{ intros i e. unfold export_issues, blank. rewrite app_nil. repeat case_decide; naive_solver. }
  rewrite !negb_false_iff, bool_decide_eq_false. unfold distinct, abi_declared.
  rewrite <- !list_fmap_compose.
  assert (from_option (λ l, bool_decide (trim l = "")) true (pm_license m) = false ↔
          ∃ l, pm_license m = Some l ∧ ¬ blank l) as ->.
  { unfold blank. destruct (pm_license m) as [l|]; cbn; [rewrite bool_decide_eq_false|]; naive_solver. }
  assert (has_artifact_role (pm_artifact_hashes m) "wasm-artifact"
          && negb (has_artifact_role (pm_artifact_hashes m) "wasm-abi-descriptor") = false ↔
          (has_artifact_role (pm_artifact_hashes m) "wasm-artifact" = true →
           has_artifact_role (pm_artifact_hashes m) "wasm-abi-descriptor" = true)) as ->.
  { destruct (has_artifact_role _ "wasm-artifact"), (has_artifact_role _ "wasm-abi-descriptor"); cbn;
      naive_solver. }
  tauto.
Qed.

Lemma publishable_structurally_valid m : publishable m → structurally_valid m.
Proof.
  intros (_ & _ & Hu & _ & _ & _ & _ & Ha & Hd & Habi & He & _ & Hh & Hi).
  split; [done|]. split; [|split; [|split; [|by split]]].
  - intros e [Hn _]%He. by apply trim_nonempty.
  - intros h [Hc Hn]%Hh. split; by apply trim_nonempty.
  - intros i Hn%Hi. by apply trim_nonempty.
Qed.

(** The publishing gate.  A manifest can be published exactly when its name
    and version are valid, an unsafe package declares its surface, there is a
    license, the capabilities, dependencies, exports and artifact roles are
    distinct up to surrounding white space, the artifacts have roles and
    canonical hashes, a WASM artifact comes with its ABI descriptor, and no
    export, handler or import is blank; such a manifest also passes the
    structural validation, which decides its own rules. *)
Theorem publish_gate m :
  (validate_for_publish m = Ok () ↔ publishable m) ∧
  (validate_manifest m = Ok () ↔ structurally_valid m) ∧
  (validate_for_publish m = Ok () → validate_manifest m = Ok ()).
Proof.
  assert (validate_for_publish m = Ok () ↔ publishable m) as Hp.
  { rewrite <- production_issues_nil. unfold validate_for_publish.
    by destruct (production_validation_issues m). }
  split; [done|]. split; [apply validate_manifest_iff|].
  intros Hok%Hp. by apply validate_manifest_iff, publishable_structurally_valid.
Qed.

(** A duplicate is reported where it is.  In a list of capabilities the
    issues are, in order of position, one for each entry that repeats an earlier
    one up to white space, with the position of the first occurrence. *)
Theorem duplicate_capabilities_located values kind path message :
  Sorted index_le ((λ i, (default 0 (pi_index i), default 0 (pi_duplicate_of i)))
                     <$> push_duplicate_string_issues values kind path message) ∧
  ∀ i j, MkPackageManifestIssue kind path (Some i) (Some j) message
           ∈ push_duplicate_string_issues values kind path message ↔
         repeats (trim <$> values) i j.
Proof.
  unfold push_duplicate_string_issues, duplicate_issues. split.
  - rewrite <- list_fmap_compose.
    rewrite (list_fmap_ext _ id), list_fmap_id by (by intros ? [? ?] _).
    apply Sorted_merge_sort. intros a b. unfold index_le. destruct a, b; cbn; lia.
  - intros i j. rewrite list_elem_of_fmap. setoid_rewrite merge_sort_Permutation.
    rewrite <- duplicates_elem. split; [|intros; by exists (i, j)].
    by intros ([i' j'] & [= -> ->] & ?).
Qed.
End Publishing.

Section Evidence.
Context `{HashBackend}.

(** The evidence of a [Verified] package. *)
Definition evidence_ok (m : PackageManifest) : Prop :=
  ∃ report evidence, pm_verification_report m = Some report ∧
    pm_reproducible_evidence m = Some evidence ∧
    pv_package report = pm_name m ∧ pv_version report = pm_version m ∧
    pm_artifact_hashes m ≠ [] ∧ (ah_hash <$> pm_artifact_hashes m) ≡ₚ pv_artifact_hashes report ∧
    rb_toolchain_id evidence ≠ "" ∧ is_blake3_hex (rb_source_digest evidence) = true ∧
    is_blake3_hex (rb_recipe_hash evidence) = true ∧
    is_blake3_hex (rb_build_inputs_hash evidence) = true ∧
    rb_build_inputs_hash evidence =
      compute_build_inputs_hash (rb_source_digest evidence) (rb_toolchain_id evidence).

Lemma merge_sort_eq_iff (l k : list string) :
  merge_sort String.le l = merge_sort String.le k ↔ l ≡ₚ k.
Proof.
  split.
  - intros Heq. by rewrite <- (merge_sort_Permutation String.le l), Heq, merge_sort_Permutation.
  - intros Hp. apply (Sorted_unique String.le); try apply Sorted_merge_sort; try apply _.
    by rewrite !merge_sort_Permutation.
Qed.

Lemma evidence_fields_iff e :
  validate_reproducible_evidence_fields e = Ok () ↔
  is_blake3_hex (rb_build_inputs_hash e) = true ∧ rb_toolchain_id e ≠ "" ∧
  is_blake3_hex (rb_source_digest e) = true ∧ is_blake3_hex (rb_recipe_hash e) = true.
Proof.
  unfold validate_reproducible_evidence_fields, invalid_format. cbn zeta.
  destruct (is_blake3_hex (rb_build_inputs_hash e)), (is_blake3_hex (rb_source_digest e)),
    (is_blake3_hex (rb_recipe_hash e)); cbn; try case_decide; naive_solver.
Qed.

Lemma verified_evidence_iff m :
  validate_verified_package_evidence m = Ok () ↔ (pm_trust_level m = Verified → evidence_ok m).
Proof.
  unfold validate_verified_package_evidence, evidence_ok.
  destruct (decide (pm_trust_level m ≠ Verified)) as [|Hv]; [naive_solver|].
  assert (pm_trust_level m = Verified) as Hv' by (by apply dec_stable). clear Hv.
  destruct (pm_verification_report m) as [r|]; [|naive_solver].
  case_decide; [naive_solver|]. case_decide; [naive_solver|]. case_decide; [naive_solver|]. cbn zeta.
  destruct (decide (merge_sort String.le (ah_hash <$> pm_artifact_hashes m) ≠ _)) as [Hne|He].
  { split; [done|]. intros Hok. destruct (Hok Hv') as (r' & e & [= <-] & _ & _ & _ & _ & Hp & _).
    by apply merge_sort_eq_iff in Hp. }
  apply dec_stable, merge_sort_eq_iff in He.
  destruct (pm_reproducible_evidence m) as [e|]; [|naive_solver].
  pose proof (evidence_fields_iff e) as Hf.
  destruct (validate_reproducible_evidence_fields e) as [[]|err]; cbn.
  - destruct Hf as [Hf _]. destruct (Hf eq_refl) as (? & ? & ? & ?).
    case_decide as Hb; split; try done.
    + intros Hok. destruct (Hok Hv') as (r' & e' & [= <-] & [= <-] & Hrest). by destruct_and! Hrest.
    + intros _ _. exists r, e.
      repeat (split; [first [done|by apply dec_stable]|]). first [done|by apply dec_stable].
  - split; [done|]. intros Hok. destruct (Hok Hv') as (r' & e' & [= <-] & [= <-] & Hrest).
    destruct_and! Hrest. destruct Hf as [_ Hf]. discriminate Hf. done.
Qed.
End Evidence.
