(* ===== verification/Ordering.v ===== *)
(** * Comparisons, stable sorting and ordered iteration

    Rust's [Ord]: a comparison function with the laws of a total order, for
    strings (byte-wise), integers, options ([None] first), tuples and vectors
    (lexicographic).  [sort_on] is [slice::sort_by] with a key, a stable sort;
    [set_iter] and [map_iter] are the iterations of [BTreeSet] and [BTreeMap]. *)

From S2P Require Import Prelude Text.

Class Cmp (A : Type) : Type := cmp : A → A → comparison.

Class CmpLaws (A : Type) `{Cmp A} : Prop := {
  cmp_eq (x y : A) : cmp x y = Eq ↔ x = y;
  cmp_opp (x y : A) : cmp y x = CompOpp (cmp x y);
  cmp_trans (x y z : A) : cmp x y = Lt → cmp y z = Lt → cmp x z = Lt;
}.

(** [Ordering::then_with] *)
Definition then_with (c d : comparison) : comparison :=
  match c with Eq => d | _ => c end.

(* ------------------------------------------------------------------ *)
(** ** Instances *)

#[global] Instance N_cmp : Cmp N := N.compare.
#[global] Instance N_cmp_laws : CmpLaws N.
Proof.
  split; unfold cmp, N_cmp; intros.
  - apply N.compare_eq_iff.
  - apply N.compare_antisym.
  - rewrite !N.compare_lt_iff in *. lia.
Qed.

#[global] Instance nat_cmp : Cmp nat := Nat.compare.
#[global] Instance nat_cmp_laws : CmpLaws nat.
Proof.
  split; unfold cmp, nat_cmp; intros.
  - apply Nat.compare_eq_iff.
  - apply Nat.compare_antisym.
  - rewrite !Nat.compare_lt_iff in *. lia.
Qed.

#[global] Instance string_cmp : Cmp string := String.compare.
#[global] Instance string_cmp_laws : CmpLaws string.
Proof.
  assert (∀ s, String.compare s s = Eq) as Hrefl.
  { intros s. pose proof (String.compare_antisym s s). by destruct (String.compare s s). }
  split; unfold cmp, string_cmp.
  - intros x y. split; [apply String.compare_eq_iff|intros ->; apply Hrefl].
  - intros. apply String.compare_antisym.
  - intros x y z Hxy Hyz.
    assert (String.le x z) as Hle.
    { transitivity y; unfold String.le, String.leb; by rewrite ?Hxy, ?Hyz. }
    destruct (String.compare x z) eqn:Exz; [|done|].
    + apply String.compare_eq_iff in Exz as ->.
      rewrite String.compare_antisym, Hyz in Hxy. done.
    + unfold String.le, String.leb in Hle. by rewrite Exz in Hle.
Qed.

#[global] Instance option_cmp `{Cmp A} : Cmp (option A) := λ x y,
  match x, y with
  | None, None => Eq
  | None, Some _ => Lt
  | Some _, None => Gt
  | Some a, Some b => cmp a b
  end.
#[global] Instance option_cmp_laws `{CmpLaws A} : CmpLaws (option A).
Proof.
  split; unfold cmp, option_cmp; intros; repeat case_match; try done.
  - rewrite cmp_eq. naive_solver.
  - apply cmp_opp.
  - by eapply cmp_trans.
Qed.

#[global] Instance prod_cmp `{Cmp A, Cmp B} : Cmp (A * B) := λ x y,
  then_with (cmp x.1 y.1) (cmp x.2 y.2).

(** The laws of [then_with], for tuples and for vectors *)
Section ThenWith.
Context `{CmpLaws A}.

Lemma cmp_refl (x : A) : cmp x x = Eq.
Proof. by apply cmp_eq. Qed.

Lemma then_with_eq (x y : A) d : then_with (cmp x y) d = Eq ↔ x = y ∧ d = Eq.
Proof.
  destruct (cmp x y) eqn:E; cbn; rewrite <- (cmp_eq x y), E; naive_solver.
Qed.

Lemma then_with_opp (x y : A) d d' :
  d' = CompOpp d → then_with (cmp y x) d' = CompOpp (then_with (cmp x y) d).
Proof. intros ->. rewrite (cmp_opp x y). by destruct (cmp x y). Qed.

Lemma then_with_trans (x y z : A) d d' d'' :
  (d = Lt → d' = Lt → d'' = Lt) →
  then_with (cmp x y) d = Lt → then_with (cmp y z) d' = Lt → then_with (cmp x z) d'' = Lt.
Proof.
  intros Hd. destruct (cmp x y) eqn:Exy; cbn; try done; intros H1.
  - apply cmp_eq in Exy as ->. destruct (cmp y z) eqn:Eyz; cbn; auto.
  - destruct (cmp y z) eqn:Eyz; cbn; try done; intros H2.
    + apply cmp_eq in Eyz as ->. by rewrite Exy.
    + by rewrite (cmp_trans x y z).
Qed.
End ThenWith.

#[global] Instance prod_cmp_laws `{CmpLaws A, CmpLaws B} : CmpLaws (A * B).
Proof.
  split; unfold cmp at 1, prod_cmp.
  - intros [] []. rewrite then_with_eq, cmp_eq. cbn. naive_solver.
  - intros. apply then_with_opp, cmp_opp.
  - intros x y z ??. by eapply then_with_trans; [apply (cmp_trans x.2 y.2 z.2)| |].
Qed.

Fixpoint list_compare `{Cmp A} (x y : list A) : comparison :=
  match x, y with
  | [], [] => Eq
  | [], _ :: _ => Lt
  | _ :: _, [] => Gt
  | a :: x', b :: y' => then_with (cmp a b) (list_compare x' y')
  end.
#[global] Instance list_cmp `{Cmp A} : Cmp (list A) := list_compare.
#[global] Instance list_cmp_laws `{CmpLaws A} : CmpLaws (list A).
Proof.
  split; unfold cmp at 1, list_cmp.
  - induction x as [|a x IH]; intros [|b y]; cbn; try done.
    rewrite then_with_eq, IH. naive_solver.
  - induction x as [|a x IH]; intros [|b y]; cbn; try done. by apply then_with_opp.
  - induction x as [|a x IH]; intros [|b y] [|c z]; cbn; try done.
    intros ??. by eapply then_with_trans; [apply (IH y z)| |].
Qed.

(* ------------------------------------------------------------------ *)
(** ** The order *)

Definition cmp_le `{Cmp A} (x y : A) : Prop := cmp x y ≠ Gt.
Definition cmp_lt `{Cmp A} (x y : A) : Prop := cmp x y = Lt.
#[global] Instance cmp_le_dec `{Cmp A} (x y : A) : Decision (cmp_le x y).
Proof. unfold cmp_le. apply _. Defined.
#[global] Instance cmp_lt_dec `{Cmp A} (x y : A) : Decision (cmp_lt x y).
Proof. unfold cmp_lt. apply _. Defined.

Section Order.
Context `{CmpLaws A}.

Lemma cmp_le_lt (x y : A) : cmp_le x y ↔ x = y ∨ cmp_lt x y.
Proof. unfold cmp_le, cmp_lt. rewrite <- (cmp_eq x y). destruct (cmp x y); naive_solver. Qed.

Lemma cmp_le_refl (x : A) : cmp_le x x.
Proof. apply cmp_le_lt. by left. Qed.

Lemma cmp_lt_irrefl (x : A) : ¬ cmp_lt x x.
Proof. unfold cmp_lt. by rewrite cmp_refl. Qed.

#[global] Instance cmp_lt_trans : Transitive (cmp_lt (A := A)).
Proof. intros x y z. apply cmp_trans. Qed.

#[global] Instance cmp_le_trans : Transitive (cmp_le (A := A)).
Proof.
  intros x y z. rewrite !cmp_le_lt. intros [->|?] [->|?]; auto. right. by transitivity y.
Qed.

Lemma cmp_nle (x y : A) : ¬ cmp_le x y ↔ cmp_lt y x.
Proof. unfold cmp_le, cmp_lt. rewrite (cmp_opp x y). destruct (cmp x y); naive_solver. Qed.

Lemma cmp_le_antisym (x y : A) : cmp_le x y → cmp_le y x → x = y.
Proof.
  rewrite !cmp_le_lt. intros [->|?] [?|?]; auto.
  exfalso. eapply (cmp_lt_irrefl x). by transitivity y.
Qed.
End Order.

(* ------------------------------------------------------------------ *)
(** ** Stable sorting by a key *)

Section SortOn.
Context {A K : Type} `{CmpLaws K} (key : A → K).

Fixpoint insert_on (x : A) (l : list A) : list A :=
  match l with
  | [] => [x]
  | y :: l' => if decide (cmp_le (key x) (key y)) then x :: y :: l' else y :: insert_on x l'
  end.

Definition sort_on (l : list A) : list A := foldr insert_on [] l.

Definition on_le (x y : A) : Prop := cmp_le (key x) (key y).

Lemma insert_on_perm x l : insert_on x l ≡ₚ x :: l.
Proof.
  induction l as [|y l IH]; simpl; [done|]. case_decide; [done|]. rewrite IH. constructor.
Qed.

Lemma sort_on_perm l : sort_on l ≡ₚ l.
Proof. induction l as [|x l IH]; simpl; [done|]. by rewrite insert_on_perm, IH. Qed.

Lemma sort_on_elem x l : x ∈ sort_on l ↔ x ∈ l.
Proof. by rewrite sort_on_perm. Qed.

Lemma sort_on_nil l : sort_on l = [] ↔ l = [].
Proof.
  split; [|by intros ->]. intros Hl. apply Permutation_nil_r. by rewrite <- Hl, sort_on_perm.
Qed.

Lemma insert_on_sorted x l : StronglySorted on_le l → StronglySorted on_le (insert_on x l).
Proof.
  induction l as [|y l IH]; simpl; intros Hs; [repeat constructor|].
  apply StronglySorted_inv in Hs as [Hs Hall]. case_decide as Hle.
  - constructor; [by constructor|]. constructor; [done|].
    eapply Forall_impl; [done|]. intros z Hz. unfold on_le in *. by transitivity (key y).
  - constructor; [by apply IH|]. rewrite insert_on_perm. constructor; [|done].
    apply cmp_le_lt. right. by apply cmp_nle.
Qed.

Lemma sort_on_sorted l : StronglySorted on_le (sort_on l).
Proof. induction l; simpl; [constructor|by apply insert_on_sorted]. Qed.

Lemma sort_on_id l : StronglySorted on_le l → sort_on l = l.
Proof.
  induction 1 as [|x l Hs IH Hall]; simpl; [done|]. rewrite IH.
  destruct Hall; simpl; [done|]. by rewrite decide_True.
Qed.

(** Sorted lists with the same elements are equal, where the key tells the
    elements apart. *)
Lemma sorted_on_unique l l' :
  StronglySorted on_le l → StronglySorted on_le l' → l ≡ₚ l' →
  (∀ x y, x ∈ l → y ∈ l → key x = key y → x = y) → l = l'.
Proof.
  intros Hl. revert l'. induction Hl as [|x l Hs IH Hall]; intros l' Hl' Hp Hinj.
  - by apply Permutation_nil in Hp as ->.
  - destruct Hl' as [|y l' Hs' Hall']; [by apply Permutation_nil_r in Hp|].
    assert (x = y) as ->.
    { rewrite Forall_forall in Hall, Hall'.
      assert (x ∈ y :: l') as Hx by (rewrite <- Hp; left).
      assert (y ∈ x :: l) as Hy by (rewrite Hp; left).
      apply elem_of_cons in Hx as [->|Hx]; [done|]. apply elem_of_cons in Hy as [->|Hy]; [done|].
      apply Hinj; [left|by right|]. apply cmp_le_antisym; [by apply Hall|by apply Hall']. }
    f_equal. apply IH; [done| |].
    + by eapply Permutation_cons_inv.
    + intros a b Ha Hb. apply Hinj; by right.
Qed.

Lemma sort_on_proper l l' :
  l ≡ₚ l' → (∀ x y, x ∈ l → y ∈ l → key x = key y → x = y) → sort_on l = sort_on l'.
Proof.
  intros Hp Hinj. apply sorted_on_unique; try apply sort_on_sorted.
  - by rewrite !sort_on_perm.
  - intros x y. rewrite !sort_on_elem. apply Hinj.
Qed.
End SortOn.

(** Strictly sorted lists are determined by their elements. *)
Section Strict.
Context {A K : Type} `{CmpLaws K} (key : A → K).

Definition on_lt (x y : A) : Prop := cmp_lt (key x) (key y).

Lemma strictly_sorted_key l x y :
  StronglySorted on_lt l → x ∈ l → y ∈ l → key x = key y → x = y.
Proof.
  induction 1 as [|a l Hs IH Hall]; [by intros ?%not_elem_of_nil|].
  rewrite Forall_forall in Hall. unfold on_lt in Hall.
  intros [->|Hx]%elem_of_cons [->|Hy]%elem_of_cons Hk; [done|..|by apply IH].
  - exfalso. apply (cmp_lt_irrefl (key a)). rewrite Hk at 2. by apply Hall.
  - exfalso. apply (cmp_lt_irrefl (key a)). rewrite <- Hk at 2. by apply Hall.
Qed.

Lemma strictly_sorted_keys l : StronglySorted on_lt l → NoDup (key <$> l).
Proof.
  induction 1 as [|a l Hs IH Hall]; cbn; constructor; [|done].
  intros (b & Hk & Hb)%list_elem_of_fmap. rewrite Forall_forall in Hall. specialize (Hall b Hb).
  unfold on_lt in Hall. rewrite Hk in Hall. by apply cmp_lt_irrefl in Hall.
Qed.

Lemma strictly_sorted_unique l l' :
  StronglySorted on_lt l → StronglySorted on_lt l' → (∀ x, x ∈ l ↔ x ∈ l') → l = l'.
Proof.
  assert (∀ k, StronglySorted on_lt k → StronglySorted (on_le key) k ∧ NoDup k) as Hw.
  { induction 1 as [|a k Hs [IH1 IH2] Hall]; [split; constructor|]. split; constructor; try done.
    - eapply Forall_impl; [done|]. intros b Hb. apply cmp_le_lt. by right.
    - intros Ha. rewrite Forall_forall in Hall. by apply (cmp_lt_irrefl (key a)), Hall. }
  intros Hl Hl' Heq. destruct (Hw l Hl) as [Hs Hnd], (Hw l' Hl') as [Hs' Hnd'].
  apply (sorted_on_unique key); [done..| |].
  - by apply NoDup_Permutation.
  - intros x y. by apply strictly_sorted_key.
Qed.

Lemma sorted_on_strict l :
  StronglySorted (on_le key) l → NoDup (key <$> l) → StronglySorted on_lt l.
Proof.
  induction 1 as [|a l Hs IH Hall]; cbn; [constructor|].
  rewrite NoDup_cons, list_elem_of_fmap. intros [Hni Hnd]. constructor; [auto|].
  rewrite Forall_forall in Hall |- *. intros b Hb. specialize (Hall b Hb).
  apply cmp_le_lt in Hall as [Hk|]; [|done]. destruct Hni. eauto.
Qed.
End Strict.

(* ------------------------------------------------------------------ *)
(** ** [sort] followed by [dedup] *)

(** [Vec::dedup]: an element equal to the one kept before it is dropped. *)
Fixpoint dedup {A} `{EqDecision A} (l : list A) : list A :=
  match l with
  | x :: l' =>
      match l' with
      | y :: _ => if decide (x = y) then dedup l' else x :: dedup l'
      | [] => [x]
      end
  | [] => []
  end.

Section Dedup.
Context {A K : Type} `{EqDecision A, CmpLaws K} (key : A → K).

Lemma dedup_elem (x : A) l : x ∈ dedup l ↔ x ∈ l.
Proof.
  induction l as [|y [|z l] IH]; cbn [dedup]; [done..|]. case_decide as Hyz.
  - rewrite IH. subst z. set_solver.
  - rewrite !(elem_of_cons _ x y), IH. done.
Qed.

Lemma dedup_sorted (l : list A) : StronglySorted (on_le key) l → StronglySorted (on_le key) (dedup l).
Proof.
  induction 1 as [|x l Hs IH Hall]; cbn [dedup]; [constructor|].
  destruct l as [|y l]; [by repeat constructor|]. case_decide; [done|]. constructor; [done|].
  rewrite Forall_forall in Hall |- *. intros z Hz. by apply Hall, dedup_elem.
Qed.

Lemma dedup_head (x : A) l : head (dedup (x :: l)) = Some x.
Proof.
  revert x. induction l as [|y l IH]; intros x; cbn [dedup]; [done|]. case_decide; [|done].
  subst y. apply IH.
Qed.

Lemma dedup_idem (l : list A) : dedup (dedup l) = dedup l.
Proof.
  assert (∀ (x y : A) k, x ≠ y → dedup (x :: y :: k) = x :: dedup (y :: k)) as Hstep.
  { intros x y k Hxy. cbn [dedup]. by rewrite decide_False. }
  induction l as [|x [|y l] IH]; [done..|]. destruct (decide (x = y)) as [->|Hxy].
  - cbn [dedup]. by rewrite decide_True.
  - rewrite Hstep by done. pose proof (dedup_head y l) as Hh.
    destruct (dedup (y :: l)) as [|z k] eqn:E; [done|]. injection Hh as ->. by rewrite Hstep, IH.
Qed.

(** [v.sort_by(key); v.dedup()] *)
Definition sort_dedup (l : list A) : list A := dedup (sort_on key l).

Lemma sort_dedup_elem x l : x ∈ sort_dedup l ↔ x ∈ l.
Proof. unfold sort_dedup. by rewrite dedup_elem, sort_on_elem. Qed.

Lemma sort_dedup_idem l : sort_dedup (sort_dedup l) = sort_dedup l.
Proof.
  unfold sort_dedup. rewrite (sort_on_id key (dedup _)); [apply dedup_idem|].
  apply dedup_sorted, sort_on_sorted.
Qed.

(** Where the key tells elements apart, the result depends on the elements only. *)
Lemma sort_dedup_strict l : Inj (=) (=) key → StronglySorted (on_lt key) (sort_dedup l).
Proof.
  intros Hinj. unfold sort_dedup.
  assert (StronglySorted (on_le key) (sort_on key l)) as Hs by apply sort_on_sorted.
  induction Hs as [|x k Hs IH Hall]; cbn [dedup]; [constructor|].
  destruct k as [|y k]; [by repeat constructor|]. case_decide as Hxy; [done|]. constructor; [done|].
  apply Forall_forall. intros z Hz. apply (proj1 (dedup_elem z (y :: k))) in Hz.
  rewrite Forall_forall in Hall.
  assert (on_lt key x y) as Hlt.
  { assert (on_le key x y) as Hle by (apply Hall; by left).
    apply cmp_le_lt in Hle as [Hk|]; [|done]. by apply Hinj in Hk. }
  apply elem_of_cons in Hz as [->|Hz]; [done|].
  assert (on_le key y z) as Hyz.
  { inv Hs as [|? ? ? Hy]. rewrite Forall_forall in Hy. auto. }
  apply cmp_le_lt in Hyz as [Hk|Hlt']; unfold on_lt in *; [by rewrite <- Hk|by eapply cmp_trans].
Qed.

Lemma sort_dedup_set l l' :
  Inj (=) (=) key → (∀ x, x ∈ l ↔ x ∈ l') → sort_dedup l = sort_dedup l'.
Proof.
  intros Hinj Hl. apply (strictly_sorted_unique key); [by apply sort_dedup_strict..|].
  intros x. by rewrite !sort_dedup_elem.
Qed.
End Dedup.

(* ------------------------------------------------------------------ *)
(** ** Ordered sets and maps *)

(** [iter.collect::<BTreeSet<_>>().into_iter().collect::<Vec<_>>()], for an order
    given by a key that tells the elements apart *)
Definition collect_sorted {A K} `{EqDecision A, Cmp K} (key : A → K) (l : list A) : list A :=
  sort_on key (remove_dups l).

Section Collect.
Context {A K : Type} `{EqDecision A, CmpLaws K} (key : A → K).

Lemma collect_sorted_elem x l : x ∈ collect_sorted key l ↔ x ∈ l.
Proof. unfold collect_sorted. rewrite sort_on_elem. apply elem_of_remove_dups. Qed.

Lemma collect_sorted_nil l : collect_sorted key l = [] ↔ l = [].
Proof.
  split; [|by intros ->]. intros Hc. apply elem_of_nil_inv. intros x Hx.
  apply (collect_sorted_elem x l) in Hx. rewrite Hc in Hx. by apply not_elem_of_nil in Hx.
Qed.

Lemma collect_sorted_NoDup l : NoDup (collect_sorted key l).
Proof. unfold collect_sorted. rewrite sort_on_perm. apply NoDup_remove_dups. Qed.
End Collect.

Section Iter.
Context {K : Type} `{Countable K, CmpLaws K}.

(** [BTreeSet] in ascending order *)
Definition set_iter (s : gset K) : list K := sort_on id (elements s).

(** [BTreeMap] in ascending key order *)
Definition map_iter {V} (m : gmap K V) : list (K * V) := sort_on fst (map_to_list m).

Lemma set_iter_elem s x : x ∈ set_iter s ↔ x ∈ s.
Proof. unfold set_iter. rewrite sort_on_elem. apply elem_of_elements. Qed.

Lemma set_iter_NoDup s : NoDup (set_iter s).
Proof. unfold set_iter. rewrite sort_on_perm. apply NoDup_elements. Qed.

Lemma set_iter_nil s : set_iter s = [] ↔ s = ∅.
Proof. unfold set_iter. rewrite sort_on_nil, elements_empty_iff. apply leibniz_equiv_iff. Qed.

Lemma map_iter_elem {V} (m : gmap K V) k v : (k, v) ∈ map_iter m ↔ m !! k = Some v.
Proof. unfold map_iter. rewrite sort_on_elem. apply elem_of_map_to_list. Qed.

Lemma map_iter_keys {V} (m : gmap K V) : NoDup (map_iter m).*1.
Proof. unfold map_iter. rewrite sort_on_perm. apply NoDup_fst_map_to_list. Qed.

Lemma map_iter_sorted {V} (m : gmap K V) : StronglySorted (on_lt fst) (map_iter m).
Proof. apply sorted_on_strict; [apply sort_on_sorted|apply map_iter_keys]. Qed.

Lemma set_iter_sorted s : StronglySorted cmp_lt (set_iter s).
Proof.
  apply (sorted_on_strict id); [apply sort_on_sorted|]. rewrite list_fmap_id. apply set_iter_NoDup.
Qed.
End Iter.

#[export] Hint Resolve cmp_refl cmp_le_refl : ail.
