(* ===== verification/OptimizerDiag.v ===== *)
(** * The diagnostics of the optimiser

    crates/ail-compiler/src/optimize/diagnostics.rs: what every pass leaves
    alone and why, and whether a pass changes its own result.

    Node descriptors hash the [Debug] text of an expression; the formatter is
    the parameter [debug_expr]. *)

From stdpp Require Import pretty.
From S2P Require Import Prelude Text GraphTypes I64 Anf ConstFold Dce AnfEval Inline Cse Ordering.

(* ------------------------------------------------------------------ *)
(** ** Data *)

Inductive OptimizerPass : Type := EliminateDeadPure | InlineSmallPure | CseBindings | OptimizeBindings.
#[global] Instance OptimizerPass_eq_dec : EqDecision OptimizerPass.
Proof. solve_decision. Defined.

Definition ALL_PASSES : list OptimizerPass := [EliminateDeadPure; InlineSmallPure; CseBindings; OptimizeBindings].

Definition opass_name (p : OptimizerPass) : string :=
  match p with
  | EliminateDeadPure => "eliminate_dead_pure" | InlineSmallPure => "inline_small_pure"
  | CseBindings => "cse_bindings" | OptimizeBindings => "optimize_bindings"
  end.

Inductive OptimizerIssueKind : Type :=
| PassDisabled | UnsupportedIrShape | PurityBlocked | OptimizationBlocked | NonIdempotentPass.
#[global] Instance OptimizerIssueKind_eq_dec : EqDecision OptimizerIssueKind.
Proof. solve_decision. Defined.

Inductive OptimizerSeverity : Type := OptInfo | OptWarning | OptError.
#[global] Instance OptimizerSeverity_eq_dec : EqDecision OptimizerSeverity.
Proof. solve_decision. Defined.

(** The derived orders *)
Definition opass_rank (p : OptimizerPass) : N :=
  match p with EliminateDeadPure => 0 | InlineSmallPure => 1 | CseBindings => 2 | OptimizeBindings => 3 end%N.
Definition oissue_rank (k : OptimizerIssueKind) : N :=
  match k with
  | PassDisabled => 0 | UnsupportedIrShape => 1 | PurityBlocked => 2 | OptimizationBlocked => 3 | NonIdempotentPass => 4
  end%N.
Definition oseverity_rank (s : OptimizerSeverity) : N := match s with OptInfo => 0 | OptWarning => 1 | OptError => 2 end%N.

Record OptimizerDiagnostic : Type := MkOptimizerDiagnostic {
  od_pass : OptimizerPass;
  od_kind : OptimizerIssueKind;
  od_severity : OptimizerSeverity;
  od_binding : string;
  od_node : string;
  od_function : option string;
  od_detail : string;
}.
#[global] Instance OptimizerDiagnostic_eq_dec : EqDecision OptimizerDiagnostic.
Proof. solve_decision. Defined.

Record OptimizerDiagnosticConfig : Type := MkOptimizerDiagnosticConfig { disabled_passes : list OptimizerPass }.

Definition all_enabled : OptimizerDiagnosticConfig := MkOptimizerDiagnosticConfig [].
Definition with_disabled_pass (config : OptimizerDiagnosticConfig) (p : OptimizerPass) : OptimizerDiagnosticConfig :=
  if decide (p ∈ disabled_passes config) then config
  else MkOptimizerDiagnosticConfig (sort_on opass_rank (disabled_passes config ++ [p])).
Definition pass_enabled (config : OptimizerDiagnosticConfig) (p : OptimizerPass) : bool :=
  bool_decide (p ∉ disabled_passes config).

(* ------------------------------------------------------------------ *)
(** ** Descriptors *)

(** FNV-1a on [u64] *)
Definition hash_step (hash byte : N) : N := ((N.lxor hash byte * 0x100000001b3) mod 2 ^ 64)%N.

(** [{:016x}] *)
Fixpoint hex_digits (n : nat) (value : N) : string :=
  match n with
  | O => ""
  | S n' => String (hex_digit (N.land (N.shiftr value (4 * N.of_nat n')) 15)) (hex_digits n' value)
  end.

Definition stable_hash_hex (value : string) : string :=
  hex_digits 16 (foldl hash_step 0xcbf29ce484222325%N (string_bytes value)).

Definition redacted_function_descriptor (name : string) : string := "fn#" +:+ stable_hash_hex name.

Definition redacted_binding_descriptor (b : AnfBinding) : string :=
  "binding#" +:+ (stable_hash_hex (ab_name b) +:+ ("@node#" +:+ pretty (ab_source_ref b : N))).

Definition function_descriptor (e : AnfExpr) : option string :=
  match e with
  | ACall func _ | ATaskSpawn func _ | AFold _ _ func => Some (redacted_function_descriptor func)
  | AEffectCall capability func _ => Some (redacted_function_descriptor (capability +:+ ("." +:+ func)))
  | ADispatch handler method _ => Some (redacted_function_descriptor (handler +:+ ("." +:+ method)))
  | AResourceAcquire resource _ => Some (redacted_function_descriptor resource)
  | _ => None
  end.

Definition expr_shape (e : AnfExpr) : string :=
  match e with
  | ALiteral _ => "Literal" | AVar _ => "Var" | ALet _ _ _ => "Let" | AIf _ _ _ => "If" | ACall _ _ => "Call"
  | AFieldGet _ _ => "FieldGet" | AReturn _ => "Return" | ASeq _ => "Seq" | AMatch _ _ => "Match"
  | ALambda _ _ _ => "Lambda" | ARecordNew _ => "RecordNew" | AFieldUpdate _ _ _ => "FieldUpdate"
  | ATupleNew _ => "TupleNew" | AVariantNew _ _ => "VariantNew" | AListNew _ => "ListNew" | ALoop _ => "Loop"
  | ABreak _ => "Break" | AContinue => "Continue" | AWhileLoop _ _ => "WhileLoop"
  | AShortCircuitAnd _ _ => "ShortCircuitAnd" | AShortCircuitOr _ _ => "ShortCircuitOr"
  | AEffectCall _ _ _ => "EffectCall" | ADispatch _ _ _ => "Dispatch" | ATaskSpawn _ _ => "TaskSpawn"
  | AChannelSend _ _ => "ChannelSend" | AChannelReceive _ => "ChannelReceive" | ARuntimeCheck _ _ _ => "RuntimeCheck"
  | AResourceAcquire _ _ => "ResourceAcquire" | AResourceRelease _ => "ResourceRelease" | ATaskAwait _ => "TaskAwait"
  | ATaskCancel _ => "TaskCancel" | ATaskGroup _ => "TaskGroup" | AChannelNew _ => "ChannelNew" | ASelect _ => "Select"
  | ATimeout _ _ => "Timeout" | ACellNew _ => "CellNew" | ACellGet _ => "CellGet" | ACellSet _ _ => "CellSet"
  | AAssume _ _ => "Assume" | AAbort _ => "Abort" | AIndexGet _ _ => "IndexGet" | AMapNew _ => "MapNew"
  | ASetNew _ => "SetNew" | AForEach _ _ _ => "ForEach" | AFold _ _ _ => "Fold" | APlaceholder => "Placeholder"
  end.

(* ------------------------------------------------------------------ *)
(** ** Issues *)

(** Every sub-expression, the expression itself first *)
Fixpoint visit_expr (e : AnfExpr) : list AnfExpr :=
  e :: match e with
       | ALet _ v b => visit_expr v ++ visit_expr b
       | AIf _ t f => visit_expr t ++ visit_expr f
       | AReturn b | AFieldUpdate _ _ b | ALoop b | ABreak b | AWhileLoop _ b | AShortCircuitAnd _ b
       | AShortCircuitOr _ b | ALambda _ _ b | ATaskGroup b | ATimeout _ b | AForEach _ _ b => visit_expr b
       | ASeq l | ATupleNew l | AListNew l => l ≫= visit_expr
       | AMatch _ arms => arms ≫= λ '(MkAnfMatchArm _ b), visit_expr b
       | ARecordNew fields => fields ≫= λ '(_, b), visit_expr b
       | AVariantNew _ (Some p) => visit_expr p
       | ASelect branches => branches ≫= λ '(MkAnfSelectClause _ _ b), visit_expr b
       | _ => []
       end.

Definition unsupported_reason (p : OptimizerPass) (e : AnfExpr) : option string :=
  match p, e with
  | EliminateDeadPure, (ASelect _ | AForEach _ _ _) => Some "pass does not rewrite this control-flow shape"
  | (InlineSmallPure | CseBindings),
    (ASelect _ | AForEach _ _ _ | AFold _ _ _ | AWhileLoop _ _ | AShortCircuitAnd _ _ | AShortCircuitOr _ _) =>
      Some "pass does not inspect this IR shape for opportunities"
  | OptimizeBindings, (ASelect _ | AForEach _ _ _ | AFold _ _ _) =>
      Some "constant folding does not inspect this IR shape"
  | _, _ => None
  end.

Definition apply_pass (p : OptimizerPass) : list AnfBinding → list AnfBinding :=
  match p with
  | EliminateDeadPure => eliminate_dead_pure
  | InlineSmallPure => inline_small_pure
  | CseBindings => cse_bindings
  | OptimizeBindings => optimize_bindings
  end.

(** [==] on bindings *)
Definition binding_eqb (a b : AnfBinding) : bool :=
  bool_decide (ab_source_ref a = ab_source_ref b) && bool_decide (ab_name a = ab_name b) && anf_eqb (ab_expr a) (ab_expr b).

(** An issue of the whole pipeline *)
Definition pass_issue (p : OptimizerPass) (kind : OptimizerIssueKind) (severity : OptimizerSeverity) (detail : string)
  : OptimizerDiagnostic :=
  MkOptimizerDiagnostic p kind severity "optimizer.pipeline" "optimizer.pass" None (opass_name p +:+ detail).

Definition diagnose_idempotence (p : OptimizerPass) (bindings : list AnfBinding) : list OptimizerDiagnostic :=
  let once := apply_pass p bindings in
  if all2 binding_eqb once (apply_pass p once) then []
  else [pass_issue p NonIdempotentPass OptError " produced additional changes when applied twice"].

Definition INLINE_NODE_LIMIT : nat := 3.

Section Diagnose.
Context (debug_expr : AnfExpr → string).

Definition redacted_node_descriptor (e : AnfExpr) : string :=
  "anf." +:+ (expr_shape e +:+ ("#" +:+ stable_hash_hex (debug_expr e))).

Definition issue (p : OptimizerPass) (kind : OptimizerIssueKind) (severity : OptimizerSeverity) (b : AnfBinding)
    (e : AnfExpr) (detail : string) : OptimizerDiagnostic :=
  MkOptimizerDiagnostic p kind severity (redacted_binding_descriptor b) (redacted_node_descriptor e)
    (function_descriptor e) detail.

Definition unsupported_issue (p : OptimizerPass) (b : AnfBinding) (e : AnfExpr) : list OptimizerDiagnostic :=
  match unsupported_reason p e with
  | Some reason => [issue p UnsupportedIrShape OptWarning b e reason]
  | None => []
  end.

Definition diagnose_unsupported_shapes (p : OptimizerPass) (bindings : list AnfBinding) : list OptimizerDiagnostic :=
  bindings ≫= λ b, visit_expr (ab_expr b) ≫= unsupported_issue p b.

(** What keeps [e] from being treated as pure, after [prefix] *)
Definition purity_issue (p : OptimizerPass) (b : AnfBinding) (e : AnfExpr) (prefix middle suffix : string)
  : list OptimizerDiagnostic :=
  match purity_blocking_reason e with
  | Some r =>
      [issue p PurityBlocked OptInfo b e
         (prefix +:+ (pbr_shape r +:+ (middle +:+ (pbr_reason r +:+ suffix))))]
  | None => []
  end.

Definition sequence_issues (p : OptimizerPass) (b : AnfBinding) (e : AnfExpr) : list OptimizerDiagnostic :=
  match e with
  | ASeq exprs =>
      take (pred (length exprs)) exprs ≫= λ e,
        purity_issue p b e "non-final sequence element retained: " " (" ")"
  | _ => []
  end.

Definition lambda_issues (p : OptimizerPass) (b : AnfBinding) : list OptimizerDiagnostic :=
  match ab_expr b with
  | ALambda _ _ body =>
      match purity_blocking_reason body with
      | Some _ => purity_issue p b body "lambda not inlined: " " blocks purity (" ")"
      | None =>
          if INLINE_NODE_LIMIT <? anf_node_count body then
            [issue p OptimizationBlocked OptInfo b body
               ("lambda not inlined: node_count=" +:+ (pretty (anf_node_count body)
                 +:+ (" exceeds limit=" +:+ pretty INLINE_NODE_LIMIT)))]
          else []
      end
  | _ => []
  end.

Definition share_issues (p : OptimizerPass) (b : AnfBinding) (e : AnfExpr) : list OptimizerDiagnostic :=
  match e with
  | ALet _ value _ =>
      if negb (is_pure value) then purity_issue p b value "let value not shared: " " blocks purity (" ")" else []
  | _ => []
  end.

Definition dead_let_issues (p : OptimizerPass) (b : AnfBinding) (e : AnfExpr) : list OptimizerDiagnostic :=
  match e with
  | ALet name value body =>
      if negb (uses_var body name) && negb (is_pure value)
      then purity_issue p b value "dead let retained: " " blocks purity (" ")" else []
  | _ => []
  end.

Definition diagnose_blockers (p : OptimizerPass) (bindings : list AnfBinding) : list OptimizerDiagnostic :=
  bindings ≫= λ b,
    match p with
    | EliminateDeadPure => visit_expr (ab_expr b) ≫= sequence_issues p b
    | InlineSmallPure => lambda_issues p b
    | CseBindings => visit_expr (ab_expr b) ≫= share_issues p b
    | OptimizeBindings => visit_expr (ab_expr b) ≫= dead_let_issues p b
    end.

Definition optimizer_diagnostic_key (d : OptimizerDiagnostic) : N * N * N * string * string * option string * string :=
  (opass_rank (od_pass d), oissue_rank (od_kind d), oseverity_rank (od_severity d), od_binding d, od_node d,
   od_function d, od_detail d).

Definition pass_issues (bindings : list AnfBinding) (config : OptimizerDiagnosticConfig) (p : OptimizerPass)
  : list OptimizerDiagnostic :=
  if pass_enabled config p then
    diagnose_unsupported_shapes p bindings ++ diagnose_blockers p bindings ++ diagnose_idempotence p bindings
  else [pass_issue p PassDisabled OptInfo " disabled by diagnostic configuration"].

(** [sort_deterministically] is [sort_dedup]. *)
Definition diagnose_optimizer_with_config (bindings : list AnfBinding) (config : OptimizerDiagnosticConfig)
  : list OptimizerDiagnostic :=
  sort_dedup optimizer_diagnostic_key (ALL_PASSES ≫= pass_issues bindings config).

Definition diagnose_optimizer (bindings : list AnfBinding) : list OptimizerDiagnostic :=
  diagnose_optimizer_with_config bindings all_enabled.

Definition optimize_bindings_with_diagnostics (bindings : list AnfBinding) : list AnfBinding * list OptimizerDiagnostic :=
  (optimize_bindings bindings, diagnose_optimizer bindings).
End Diagnose.

Example hash_of_empty : stable_hash_hex "" = "cbf29ce484222325".
Proof. reflexivity. Qed.
Example hash_of_a : stable_hash_hex "a" = "af63dc4c8601ec8c".
Proof. reflexivity. Qed.

(* ------------------------------------------------------------------ *)
(** ** What the diagnostics say *)

(** The visit reaches every sub-expression. *)
Lemma visit_expr_children e : visit_expr e = e :: (children e ≫= visit_expr).
Proof.
  assert (∀ l : list AnfMatchArm,
    (l ≫= λ '(MkAnfMatchArm _ b), visit_expr b) = (arm_body <$> l) ≫= visit_expr) as Harms.
  { induction l as [|[p b] l IH]; [done|]. rewrite bind_cons, fmap_cons, bind_cons. by rewrite IH. }
  assert (∀ l : list AnfSelectClause,
    (l ≫= λ '(MkAnfSelectClause _ _ b), visit_expr b) = (clause_body <$> l) ≫= visit_expr) as Hclauses.
  { induction l as [|[p x b] l IH]; [done|]. rewrite bind_cons, fmap_cons, bind_cons. by rewrite IH. }
  assert (∀ l : list (string * AnfExpr), (l ≫= λ '(_, b), visit_expr b) = l.*2 ≫= visit_expr) as Hfields.
  { induction l as [|[k b] l IH]; [done|]. rewrite bind_cons, fmap_cons, bind_cons. by rewrite IH. }
  assert (([] : list AnfExpr) ≫= visit_expr = []) as Hnil by done.
  destruct e; try done; cbn [visit_expr children]; rewrite ?bind_cons, ?Hnil, ?app_nil_r; try done.
  - by rewrite Harms.
  - by rewrite Hfields.
  - destruct payload; [by rewrite bind_cons, Hnil, app_nil_r|done].
  - by rewrite Hclauses.
Qed.

Section Facts.
Context (debug_expr : AnfExpr → string).

Lemma diagnosed bindings d :
  d ∈ diagnose_optimizer debug_expr bindings ↔
  ∃ p, d ∈ diagnose_unsupported_shapes debug_expr p bindings ∨ d ∈ diagnose_blockers debug_expr p bindings ∨
       d ∈ diagnose_idempotence p bindings.
Proof.
  unfold diagnose_optimizer, diagnose_optimizer_with_config. rewrite sort_dedup_elem, list_elem_of_bind.
  unfold pass_issues, pass_enabled. split.
  - intros (p & Hd & _). exists p. rewrite bool_decide_eq_true_2 in Hd by apply not_elem_of_nil. by rewrite !elem_of_app in Hd.
  - intros (p & Hd). exists p. split; [|destruct p; set_solver].
    rewrite bool_decide_eq_true_2 by apply not_elem_of_nil. by rewrite !elem_of_app.
Qed.

Definition blocked (d : OptimizerDiagnostic) : Prop := od_kind d = PurityBlocked ∨ od_kind d = OptimizationBlocked.

Lemma unsupported_kind p bindings d : d ∈ diagnose_unsupported_shapes debug_expr p bindings → ¬ blocked d.
Proof.
  unfold diagnose_unsupported_shapes. intros (b & Hd & _)%list_elem_of_bind. apply list_elem_of_bind in Hd as (e & Hd & _).
  unfold unsupported_issue in Hd. destruct (unsupported_reason p e); [|by apply not_elem_of_nil in Hd].
  apply list_elem_of_singleton in Hd as ->. by intros [|].
Qed.

Lemma idempotence_kind p bindings d : d ∈ diagnose_idempotence p bindings → ¬ blocked d.
Proof.
  unfold diagnose_idempotence. case_match; [by intros ?%not_elem_of_nil|].
  intros ->%list_elem_of_singleton. by intros [|].
Qed.

Lemma purity_issue_elem p b e x y z d :
  d ∈ purity_issue debug_expr p b e x y z → od_pass d = p ∧ blocked d ∧ is_pure e = false.
Proof.
  unfold purity_issue. destruct (purity_blocking_reason e) eqn:E; [|by intros ?%not_elem_of_nil].
  intros ->%list_elem_of_singleton. split_and!; [done|by left|]. apply not_true_is_false.
  intros Hp%purity_blocking_reason_None. congruence.
Qed.

Lemma purity_issue_some p b e x y z : is_pure e = false → ∃ d, d ∈ purity_issue debug_expr p b e x y z.
Proof.
  intros He. unfold purity_issue. destruct (purity_blocking_reason e) as [r|] eqn:E; [eexists; by left|].
  apply purity_blocking_reason_None in E. congruence.
Qed.

(** What a pass leaves alone in a module *)
Definition left_alone (p : OptimizerPass) (b : AnfBinding) : Prop :=
  match p with
  | EliminateDeadPure =>
      ∃ exprs e, ASeq exprs ∈ visit_expr (ab_expr b) ∧ e ∈ take (pred (length exprs)) exprs ∧ is_pure e = false
  | InlineSmallPure => (∃ params captures body, ab_expr b = ALambda params captures body) ∧ small_fn b = None
  | CseBindings => ∃ x v e, ALet x v e ∈ visit_expr (ab_expr b) ∧ is_pure v = false
  | OptimizeBindings =>
      ∃ x v e, ALet x v e ∈ visit_expr (ab_expr b) ∧ uses_var e x = false ∧ is_pure v = false
  end.

Lemma visited_blockers (f : AnfExpr → list OptimizerDiagnostic) e :
  (∃ d, d ∈ visit_expr e ≫= f) ↔ ∃ x, x ∈ visit_expr e ∧ ∃ d, d ∈ f x.
Proof. setoid_rewrite list_elem_of_bind. naive_solver. Qed.

Lemma blockers_exact p bindings :
  (∃ d, d ∈ diagnose_blockers debug_expr p bindings) ↔ ∃ b, b ∈ bindings ∧ left_alone p b.
Proof.
  unfold diagnose_blockers. setoid_rewrite list_elem_of_bind.
  transitivity (∃ b, b ∈ bindings ∧ ∃ d, d ∈ match p with
    | EliminateDeadPure => visit_expr (ab_expr b) ≫= sequence_issues debug_expr p b
    | InlineSmallPure => lambda_issues debug_expr p b
    | CseBindings => visit_expr (ab_expr b) ≫= share_issues debug_expr p b
    | OptimizeBindings => visit_expr (ab_expr b) ≫= dead_let_issues debug_expr p b
    end); [naive_solver|]. f_equiv. intros b. f_equiv. destruct p; cbn [left_alone].
  - rewrite visited_blockers. split.
    + intros (x & Hx & d & Hd). destruct x; try (by apply not_elem_of_nil in Hd). cbn in Hd.
      apply list_elem_of_bind in Hd as (e & (_ & _ & He)%purity_issue_elem & Hin). by exists exprs, e.
    + intros (exprs & e & Hx & Hin & He). exists (ASeq exprs). split; [done|].
      edestruct (purity_issue_some EliminateDeadPure b e) as [d Hd]; [done|]. exists d. cbn. apply list_elem_of_bind. eauto.
  - unfold lambda_issues, small_fn. destruct (ab_expr b); try (split; [by intros (d & ?%not_elem_of_nil)|naive_solver]).
    destruct (purity_blocking_reason _) as [r|] eqn:E.
    + assert (is_pure a = false) as Hp.
      { apply not_true_is_false. intros Hp%purity_blocking_reason_None. congruence. }
      rewrite Hp. cbn. split; [naive_solver|]. intros _. by apply purity_issue_some.
    + apply purity_blocking_reason_None in E. rewrite E. cbn [andb]. unfold INLINE_NODE_LIMIT.
      destruct (Nat.ltb_spec 3 (anf_node_count a)) as [Hn|Hn].
      * assert ((anf_node_count a <=? 3) = false) as -> by (apply Nat.leb_gt; lia). split; [naive_solver|]. intros _.
        eexists. by left.
      * assert ((anf_node_count a <=? 3) = true) as -> by (apply Nat.leb_le; lia).
        split; [by intros (d & ?%not_elem_of_nil)|by intros [_ ?]].
  - rewrite visited_blockers. split.
    + intros (x & Hx & d & Hd). destruct x; try (by apply not_elem_of_nil in Hd). cbn in Hd.
      destruct (is_pure x1) eqn:E; [by apply not_elem_of_nil in Hd|]. by eexists _, _, _.
    + intros (x & v & e & Hx & Hv). exists (ALet x v e). split; [done|]. cbn. rewrite Hv. by apply purity_issue_some.
  - rewrite visited_blockers. split.
    + intros (x & Hx & d & Hd). destruct x; try (by apply not_elem_of_nil in Hd). cbn in Hd.
      destruct (uses_var x2 name) eqn:Eu; [by apply not_elem_of_nil in Hd|].
      destruct (is_pure x1) eqn:E; [by apply not_elem_of_nil in Hd|]. by eexists _, _, _.
    + intros (x & v & e & Hx & Hu & Hv). exists (ALet x v e). split; [done|]. cbn. rewrite Hu, Hv. by apply purity_issue_some.
Qed.

Lemma blockers_pass p bindings d : d ∈ diagnose_blockers debug_expr p bindings → od_pass d = p ∧ blocked d.
Proof.
  unfold diagnose_blockers. intros (b & Hd & _)%list_elem_of_bind.
  assert (∀ f : AnfExpr → list OptimizerDiagnostic, (∀ x, d ∈ f x → od_pass d = p ∧ blocked d) →
    d ∈ visit_expr (ab_expr b) ≫= f → od_pass d = p ∧ blocked d) as Hv.
  { intros f Hf (x & Hx & _)%list_elem_of_bind. by apply (Hf x). }
  destruct p; [apply Hv in Hd; [done|]| |apply Hv in Hd; [done|]|apply Hv in Hd; [done|]]; clear Hv.
  - intros x Hx. destruct x; try (by apply not_elem_of_nil in Hx). apply list_elem_of_bind in Hx as (e & Hx & _).
    by apply purity_issue_elem in Hx as (? & ? & _).
  - unfold lambda_issues in Hd. destruct (ab_expr b); try (by apply not_elem_of_nil in Hd).
    destruct (purity_blocking_reason _); [by apply purity_issue_elem in Hd as (? & ? & _)|].
    case_match; [|by apply not_elem_of_nil in Hd]. apply list_elem_of_singleton in Hd as ->. split; [done|by right].
  - intros x Hx. destruct x; try (by apply not_elem_of_nil in Hx). cbn in Hx.
    case_match; [|by apply not_elem_of_nil in Hx]. by apply purity_issue_elem in Hx as (? & ? & _).
  - intros x Hx. destruct x; try (by apply not_elem_of_nil in Hx). cbn in Hx.
    case_match; [|by apply not_elem_of_nil in Hx]. by apply purity_issue_elem in Hx as (? & ? & _).
Qed.

(** The diagnostics explain the passes: a pass is reported as blocked exactly when it leaves something of the module
    alone, an impure element of a sequence, a lambda that is not inlined, a let whose value is not shared, a dead let. *)
Theorem diagnostics_explain p bindings :
  (∃ d, d ∈ diagnose_optimizer debug_expr bindings ∧ od_pass d = p ∧ blocked d) ↔ ∃ b, b ∈ bindings ∧ left_alone p b.
Proof.
  rewrite <- blockers_exact. split.
  - intros (d & (p' & [Hd|[Hd|Hd]])%diagnosed & Hp & Hb).
    + by apply unsupported_kind in Hd.
    + destruct (blockers_pass _ _ _ Hd) as [Hp' _]. exists d. by replace p with p' by congruence.
    + by apply idempotence_kind in Hd.
  - intros (d & Hd). exists d. split; [apply diagnosed; exists p; auto|by eapply blockers_pass].
Qed.
End Facts.

(* ------------------------------------------------------------------ *)
(** ** Idempotence *)

Lemma drop_dead_idem l : drop_dead (drop_dead l) = drop_dead l.
Proof.
  induction l as [|e l IH]; [done|]. destruct l as [|e' l]; [done|].
  change (drop_dead (e :: e' :: l)) with (if is_pure e then drop_dead (e' :: l) else e :: drop_dead (e' :: l)).
  destruct (is_pure e) eqn:Ee; [done|]. destruct (drop_dead (e' :: l)) as [|y k] eqn:Ed; [done|].
  change (drop_dead (e :: y :: k)) with (if is_pure e then drop_dead (y :: k) else e :: drop_dead (y :: k)).
  rewrite Ee. by rewrite IH.
Qed.

Lemma elim_dead_idem e : elim_dead_expr (elim_dead_expr e) = elim_dead_expr e.
Proof.
  induction e as [e IH] using AnfExpr_children_ind.
  assert (∀ l, Forall (λ e, elim_dead_expr (elim_dead_expr e) = elim_dead_expr e) l →
    map elim_dead_expr (map elim_dead_expr l) = map elim_dead_expr l) as Hmap.
  { intros l Hl. induction Hl as [|x l Hx _ IHl]; [done|]. cbn in Hx |- *. by rewrite Hx, IHl. }
  destruct e; cbn [elim_dead_expr children] in *; try done;
    try (apply Forall_cons in IH as [-> IH]); try (apply Forall_cons in IH as [-> IH]); try done.
  - assert (∀ x, x ∈ drop_dead (map elim_dead_expr exprs) → elim_dead_expr x = x) as Hk.
    { intros x (y & -> & Hy)%drop_dead_elem%list_elem_of_fmap. rewrite Forall_forall in IH. by apply IH. }
    pose proof (drop_dead_idem (map elim_dead_expr exprs)) as Hd.
    destruct (drop_dead (map elim_dead_expr exprs)) as [|x [|y k]]; [done|by apply Hk; left|].
    cbn [seq_of elim_dead_expr]. rewrite (map_id_elem elim_dead_expr (x :: y :: k)) by done. by rewrite Hd.
  - f_equal. rewrite map_map. apply map_ext_in. intros [p b] Hin%list_elem_of_In. f_equal.
    rewrite Forall_fmap, Forall_forall in IH. apply (IH _ Hin).
  - f_equal. rewrite map_map. apply map_ext_in. intros [f x] Hin%list_elem_of_In. f_equal.
    rewrite Forall_fmap, Forall_forall in IH. apply (IH _ Hin).
  - f_equal. by apply Hmap.
  - destruct payload as [x|]; [|done]. apply Forall_cons in IH as [-> _]. done.
  - f_equal. by apply Hmap.
Qed.

(** Dead-element elimination is idempotent. *)
Lemma dce_idempotent bindings : apply_pass EliminateDeadPure (apply_pass EliminateDeadPure bindings) = apply_pass EliminateDeadPure bindings.
Proof.
  cbn. unfold eliminate_dead_pure. rewrite <- list_fmap_compose. apply list_fmap_ext. intros i b _. cbn.
  by rewrite elim_dead_idem.
Qed.

(** Sharing is not: the aliases that the first run leaves are shared by the second. *)
Example cse_not_idempotent :
  let e := ACall "neg" ["x"] in
  let bindings := [MkAnfBinding 1%N "f" (ALet "a" e (ALet "b" e (ALet "c" e (AVar "c"))))] in
  (od_kind <$> diagnose_idempotence CseBindings bindings) = [NonIdempotentPass] ∧
  ab_expr <$> apply_pass CseBindings (apply_pass CseBindings bindings) =
  [ALet "a" e (ALet "b" (AVar "a") (ALet "c" (AVar "b") (AVar "c")))].
Proof. vm_compute. done. Qed.

(** A literal that is not a number makes every pass look like it changes its own result. *)
Example nan_not_idempotent :
  (diagnose_idempotence EliminateDeadPure [MkAnfBinding 1%N "f" (ALiteral (LFloat 0x7FF8000000000000))]) ≠ [].
Proof. vm_compute. done. Qed.
