(* ===== verification/Namespaces.v ===== *)
(** * Package namespaces and coherence

    crates/ail-package/src/namespace.rs: namespace kinds, the redacted
    diagnostics of namespaces, imports and exports, the validation of names and
    aliases, and the ownership check; crates/ail-package/src/coherence.rs: the
    orphan rule and conflicting implementations, by prefix and by registered
    namespaces. *)

From S2P Require Import Prelude Text GraphTypes Packages Ordering.

(* ------------------------------------------------------------------ *)
(** ** Data *)

Inductive NamespaceKind : Type := NsPackage | NsType | NsHandler | NsCapability.
#[global] Instance NamespaceKind_eq_dec : EqDecision NamespaceKind.
Proof. solve_decision. Defined.

Definition namespace_kind_text (k : NamespaceKind) : string :=
  match k with NsPackage => "pkg" | NsType => "type" | NsHandler => "handler" | NsCapability => "cap" end.

Record PackageNamespace : Type := MkPackageNamespace {
  ns_owner : string;
  ns_namespace : string;
  ns_kind : NamespaceKind;
}.

Record ImportAlias : Type := MkImportAlias { ia_package : string; ia_alias : string }.
Definition stable_identity (a : ImportAlias) : string := ia_package a.

Record ImportedPackageSurface : Type := MkImportedPackageSurface {
  ips_package : string;
  ips_exports : list ExportDeclaration;
}.

Inductive PackageNamespaceDiagnosticKind : Type :=
| DuplicateNamespace | DuplicateExport | DuplicateImport | UnresolvedImport | InvalidNamespaceSegment | VisibilityMismatch.
#[global] Instance PackageNamespaceDiagnosticKind_eq_dec : EqDecision PackageNamespaceDiagnosticKind.
Proof. solve_decision. Defined.

Definition namespace_diagnostic_code (k : PackageNamespaceDiagnosticKind) : string :=
  match k with
  | DuplicateNamespace => "package_namespace.duplicate_namespace"
  | DuplicateExport => "package_namespace.duplicate_export"
  | DuplicateImport => "package_namespace.duplicate_import"
  | UnresolvedImport => "package_namespace.unresolved_import"
  | InvalidNamespaceSegment => "package_namespace.invalid_namespace_segment"
  | VisibilityMismatch => "package_namespace.visibility_mismatch"
  end.

(** The diagnostic with the fields of its descriptor *)
Record PackageNamespaceDiagnostic : Type := MkPackageNamespaceDiagnostic {
  pnd_kind : PackageNamespaceDiagnosticKind;
  pnd_path : string;
  pnd_index : option nat;
  pnd_related_index : option nat;
  pnd_message : string;
}.
#[global] Instance PackageNamespaceDiagnostic_eq_dec : EqDecision PackageNamespaceDiagnostic.
Proof. solve_decision. Defined.

(** The derived order *)
Definition diagnostic_kind_rank (k : PackageNamespaceDiagnosticKind) : N :=
  match k with
  | DuplicateNamespace => 0 | DuplicateExport => 1 | DuplicateImport => 2 | UnresolvedImport => 3
  | InvalidNamespaceSegment => 4 | VisibilityMismatch => 5
  end%N.
Definition namespace_diagnostic_key (d : PackageNamespaceDiagnostic) : N * string * option nat * option nat * string :=
  (diagnostic_kind_rank (pnd_kind d), pnd_path d, pnd_index d, pnd_related_index d, pnd_message d).

Inductive NamespaceIssueKind : Type :=
| InvalidPackageName | InvalidNamespace | InvalidAlias | AliasCollision | NamespaceOwnerMismatch | UnauthorizedNamespace.
#[global] Instance NamespaceIssueKind_eq_dec : EqDecision NamespaceIssueKind.
Proof. solve_decision. Defined.

Definition namespace_issue_text (k : NamespaceIssueKind) : string :=
  match k with
  | InvalidPackageName => "invalid_package_name" | InvalidNamespace => "invalid_namespace"
  | InvalidAlias => "invalid_alias" | AliasCollision => "alias_collision"
  | NamespaceOwnerMismatch => "namespace_owner_mismatch" | UnauthorizedNamespace => "unauthorized_namespace"
  end.
Definition namespace_issue_rank (k : NamespaceIssueKind) : N :=
  match k with
  | InvalidPackageName => 0 | InvalidNamespace => 1 | InvalidAlias => 2 | AliasCollision => 3
  | NamespaceOwnerMismatch => 4 | UnauthorizedNamespace => 5
  end%N.

Record NamespaceIssue : Type := MkNamespaceIssue {
  ni_kind : NamespaceIssueKind;
  ni_subject : string;
  ni_detail : string;
}.
Definition namespace_issue_key (i : NamespaceIssue) : N * string * string :=
  (namespace_issue_rank (ni_kind i), ni_subject i, ni_detail i).

(* ------------------------------------------------------------------ *)
(** ** Names *)

Definition ascii_is_lower (a : ascii) : bool := let n := N_of_ascii a in ((97 <=? n) && (n <=? 122))%N.
Definition segment_char (a : ascii) : bool :=
  let n := N_of_ascii a in (ascii_is_lower a || ((48 <=? n) && (n <=? 57)) || (n =? 95))%N.

Definition is_lowercase_segment (segment : string) : bool :=
  match segment with
  | EmptyString => false
  | String first rest => ascii_is_lower first && string_all segment_char rest
  end.

Definition is_dotted_lowercase_path (value : string) : bool :=
  bool_decide (value ≠ "") && forallb is_lowercase_segment (split_on "." value).

Definition is_reserved_namespace_prefix (segment : string) : bool :=
  bool_decide (segment ∈ ["pkg"; "type"; "handler"; "cap"]).

(* ------------------------------------------------------------------ *)
(** ** Diagnostics *)

Definition invalid_segment (path : string) (index : option nat) (message : string) (value : string)
  : list PackageNamespaceDiagnostic :=
  if is_dotted_lowercase_path value then []
  else [MkPackageNamespaceDiagnostic InvalidNamespaceSegment path index None message].

Definition push_invalid_namespace_segment_diagnostics (package_name : string) (namespaces : list PackageNamespace)
    (imports : list ImportDeclaration) : list PackageNamespaceDiagnostic :=
  invalid_segment "package.name" None "package name contains an invalid namespace segment" package_name
  ++ mjoin (imap (λ i ns,
       invalid_segment "namespaces.owner" (Some i) "namespace owner contains an invalid segment" (ns_owner ns)
       ++ invalid_segment "namespaces.namespace" (Some i) "namespace prefix contains an invalid segment" (ns_namespace ns))
       namespaces)
  ++ mjoin (imap (λ i d,
       invalid_segment "imports.source_package" (Some i) "import source package contains an invalid namespace segment"
         (id_source_package d)) imports).

(** Each entry whose key came before, with the index of the first *)
Fixpoint repeats_from `{Countable K} (i : nat) (first : gmap K nat) (keys : list K) : list (nat * nat) :=
  match keys with
  | [] => []
  | k :: keys' =>
      match first !! k with
      | Some j => (i, j) :: repeats_from (S i) first keys'
      | None => repeats_from (S i) (<[k := i]> first) keys'
      end
  end.

Definition repeated (kind : PackageNamespaceDiagnosticKind) (path message : string) (r : list (nat * nat))
  : list PackageNamespaceDiagnostic :=
  (λ p : nat * nat, MkPackageNamespaceDiagnostic kind path (Some p.1) (Some p.2) message) <$> r.

(** [(namespace.kind, namespace.namespace)] *)
Definition namespace_shape (ns : PackageNamespace) : string * string := (namespace_kind_text (ns_kind ns), ns_namespace ns).

Definition push_duplicate_namespace_diagnostics (namespaces : list PackageNamespace) : list PackageNamespaceDiagnostic :=
  repeated DuplicateNamespace "namespaces.namespace" "namespace declaration duplicates an earlier namespace shape"
    (repeats_from 0 ∅ (namespace_shape <$> namespaces)).
Definition push_duplicate_export_diagnostics (exports : list ExportDeclaration) : list PackageNamespaceDiagnostic :=
  repeated DuplicateExport "exports.name" "export declaration duplicates an earlier export name"
    (repeats_from 0 ∅ (ed_name <$> exports)).
Definition push_duplicate_import_diagnostics (imports : list ImportDeclaration) : list PackageNamespaceDiagnostic :=
  repeated DuplicateImport "imports.source_package" "import declaration duplicates an earlier source package"
    (repeats_from 0 ∅ (id_source_package <$> imports)).

(** [iter().map(|x| (key(x), x)).collect::<BTreeMap<_, _>>()]: the last entry wins. *)
Definition index_by {A} (key : A → string) (l : list A) : gmap string A := foldl (λ m x, <[key x := x]> m) ∅ l.

Definition item_diagnostic (i : nat) (exports : gmap string ExportDeclaration) (j : nat) (item : string)
  : list PackageNamespaceDiagnostic :=
  match exports !! item with
  | None =>
      [MkPackageNamespaceDiagnostic UnresolvedImport "imports.items" (Some i) (Some j)
         "imported item is not represented by the source package surface"]
  | Some e =>
      match ed_visibility e with
      | VisPublic => []
      | _ =>
          [MkPackageNamespaceDiagnostic VisibilityMismatch "imports.items" (Some i) (Some j)
             "imported item is represented but is not publicly visible"]
      end
  end.

Definition import_diagnostic (surfaces : gmap string ImportedPackageSurface) (i : nat) (d : ImportDeclaration)
  : list PackageNamespaceDiagnostic :=
  match surfaces !! id_source_package d with
  | None =>
      [MkPackageNamespaceDiagnostic UnresolvedImport "imports.source_package" (Some i) None
         "import source package is not represented by the available package surfaces"]
  | Some s => mjoin (imap (item_diagnostic i (index_by ed_name (ips_exports s))) (id_items d))
  end.

Definition push_import_resolution_diagnostics (imports : list ImportDeclaration) (available : list ImportedPackageSurface)
  : list PackageNamespaceDiagnostic :=
  mjoin (imap (import_diagnostic (index_by ips_package available)) imports).

(** The [BTreeSet] iterates in order and without repetitions. *)
Definition namespace_diagnostics (package_name : string) (namespaces : list PackageNamespace)
    (imports : list ImportDeclaration) (exports : list ExportDeclaration) (available : list ImportedPackageSurface)
  : list PackageNamespaceDiagnostic :=
  sort_dedup namespace_diagnostic_key
    (push_invalid_namespace_segment_diagnostics package_name namespaces imports
     ++ push_duplicate_namespace_diagnostics namespaces
     ++ push_duplicate_export_diagnostics exports
     ++ push_duplicate_import_diagnostics imports
     ++ push_import_resolution_diagnostics imports available).

(* ------------------------------------------------------------------ *)
(** ** Validation *)

Definition sort_issues (l : list NamespaceIssue) : list NamespaceIssue := sort_on namespace_issue_key l.

Definition validate_package_name (package : string) : list NamespaceIssue :=
  if is_dotted_lowercase_path package then []
  else [MkNamespaceIssue InvalidPackageName package "package names must be non-empty dotted lowercase segments"].

Definition validate_namespace (ns : PackageNamespace) : list NamespaceIssue :=
  let owner_ok := is_dotted_lowercase_path (ns_owner ns) in
  let namespace_ok := is_dotted_lowercase_path (ns_namespace ns) in
  sort_issues
    ((if owner_ok then []
      else [MkNamespaceIssue InvalidPackageName (ns_owner ns) "namespace owner must be a valid package name"])
     ++ (if namespace_ok then []
         else [MkNamespaceIssue InvalidNamespace (ns_namespace ns) "namespace must be a valid package-style prefix"])
     ++ (if owner_ok && namespace_ok && bool_decide (ns_namespace ns ≠ ns_owner ns)
            && negb (starts_with (ns_owner ns +:+ ".") (ns_namespace ns))
         then [MkNamespaceIssue NamespaceOwnerMismatch (ns_namespace ns)
                 ("namespace must equal owner '" +:+ (ns_owner ns +:+ "' or be below that prefix"))]
         else [])).

Definition alias_issues (a : ImportAlias) : list NamespaceIssue :=
  (if is_dotted_lowercase_path (ia_package a) then []
   else [MkNamespaceIssue InvalidPackageName (ia_package a) "alias package must be a valid package name"])
  ++ (if is_lowercase_segment (ia_alias a) && negb (is_reserved_namespace_prefix (ia_alias a)) then []
      else [MkNamespaceIssue InvalidAlias (ia_alias a) "aliases must be single lowercase non-reserved segments"]).

Definition packages_by_alias (aliases : list ImportAlias) : gmap string (gset string) :=
  foldl (λ m a, <[ia_alias a := {[ia_package a]} ∪ default ∅ (m !! ia_alias a)]> m) ∅ aliases.

Definition collision_issue (p : string * gset string) : list NamespaceIssue :=
  if 1 <? size p.2 then
    [MkNamespaceIssue AliasCollision p.1 ("alias maps to multiple packages: " +:+ join "," (set_iter p.2))]
  else [].

Definition validate_import_aliases (aliases : list ImportAlias) : list NamespaceIssue :=
  sort_issues ((aliases ≫= alias_issues) ++ (map_iter (packages_by_alias aliases) ≫= collision_issue)).

(* ------------------------------------------------------------------ *)
(** ** Ownership *)

Definition qualified_prefix (ns : PackageNamespace) : string :=
  namespace_kind_text (ns_kind ns) +:+ ("." +:+ ns_namespace ns).

Definition symbol_match_specificity (ns : PackageNamespace) (symbol : string) : option nat :=
  let prefix := qualified_prefix ns in
  if bool_decide (symbol = prefix) || starts_with (prefix +:+ ".") symbol then Some (String.length prefix) else None.

Definition contains_symbol (ns : PackageNamespace) (symbol : string) : bool :=
  bool_decide (is_Some (symbol_match_specificity ns symbol)).

Inductive OwnershipError : Type := OwnershipUnauthorized (symbol namespace_owner claimant : string).

Definition ownership_error_kind (e : OwnershipError) : NamespaceIssueKind := UnauthorizedNamespace.

(** The order of [max_by] *)
Definition specificity_key (m : nat * PackageNamespace) : nat * string * string :=
  (m.1, qualified_prefix m.2, ns_owner m.2).

(** [max_by]: of equal elements the last one *)
Definition max_step {A K} `{Cmp K} (key : A → K) (best x : A) : A := if decide (cmp_lt (key x) (key best)) then best else x.
Definition max_by {A K} `{Cmp K} (key : A → K) (l : list A) : option A :=
  match l with [] => None | x :: l' => Some (foldl (max_step key) x l') end.

Definition matching_namespace (symbol : string) (namespaces : list PackageNamespace) : option PackageNamespace :=
  snd <$> max_by specificity_key
            (omap (λ ns, (λ s, (s, ns)) <$> symbol_match_specificity ns symbol) namespaces).

Definition ownership_check (symbol claimant : string) (namespaces : list PackageNamespace) : result unit OwnershipError :=
  match matching_namespace symbol namespaces with
  | Some ns => if decide (ns_owner ns ≠ claimant) then Err (OwnershipUnauthorized symbol (ns_owner ns) claimant) else Ok tt
  | None => Ok tt
  end.

(* ------------------------------------------------------------------ *)
(** ** Coherence *)

Record InterfaceImpl : Type := MkInterfaceImpl {
  ii_implementor : string;
  ii_interface : string;
  ii_for_type : string;
  ii_is_adapter : bool;
}.

Inductive CoherenceError : Type :=
| OrphanViolation (implementor interface for_type : string)
| ConflictingImpl (implementor_a implementor_b interface for_type : string).

Definition package_owns (implementor symbol : string) : bool :=
  let bare := from_option snd symbol (split_once "." symbol) in
  bool_decide (bare = implementor) || starts_with (implementor +:+ ".") bare.

Fixpoint owns_from (covered : bool) (implementor symbol : string) (namespaces : list PackageNamespace) : bool :=
  match namespaces with
  | [] => negb covered
  | ns :: rest =>
      if contains_symbol ns symbol then
        if decide (ns_owner ns = implementor) then true else owns_from true implementor symbol rest
      else owns_from covered implementor symbol rest
  end.

Definition owns_in_namespaces (implementor symbol : string) (namespaces : list PackageNamespace) : bool :=
  owns_from false implementor symbol namespaces.

(** Pass 1, for a test of ownership *)
Definition orphan (owns : string → string → bool) (im : InterfaceImpl) : list CoherenceError :=
  if ii_is_adapter im then []
  else if negb (owns (ii_implementor im) (ii_interface im)) && negb (owns (ii_implementor im) (ii_for_type im))
  then [OrphanViolation (ii_implementor im) (ii_interface im) (ii_for_type im)] else [].

Definition conflict (a b : InterfaceImpl) : list CoherenceError :=
  if decide (ii_interface a = ii_interface b ∧ ii_for_type a = ii_for_type b)
  then [ConflictingImpl (ii_implementor a) (ii_implementor b) (ii_interface a) (ii_for_type a)] else [].

(** Pass 2: every pair, the earlier one first *)
Fixpoint conflicts (l : list InterfaceImpl) : list CoherenceError :=
  match l with [] => [] | a :: l' => (l' ≫= conflict a) ++ conflicts l' end.

Definition coherence_errors (owns : string → string → bool) (impls : list InterfaceImpl) : list CoherenceError :=
  (impls ≫= orphan owns) ++ conflicts (filter (λ im, ii_is_adapter im = false) impls).

Definition check_with_namespaces (impls : list InterfaceImpl) (namespaces : list PackageNamespace) : list CoherenceError :=
  coherence_errors (λ implementor symbol, owns_in_namespaces implementor symbol namespaces) impls.

Definition coherence_check (impls : list InterfaceImpl) : list CoherenceError := coherence_errors package_owns impls.

(* ------------------------------------------------------------------ *)
(** ** Ownership is exact *)

Lemma max_by_spec {A K} `{CmpLaws K} (key : A → K) l x :
  max_by key l = Some x → x ∈ l ∧ ∀ y, y ∈ l → cmp_le (key y) (key x).
Proof.
  destruct l as [|a l]; [done|]. cbn [max_by]. intros [= <-]. revert a.
  induction l as [|b l IH]; intros a; cbn [foldl].
  { split; [by left|]. intros y ->%list_elem_of_singleton. apply cmp_le_refl. }
  destruct (IH (max_step key a b)) as [Hin Hmax]. unfold max_step in *. case_decide as Hd.
  - split; [apply elem_of_cons in Hin as [->|?]; [by left|right; by right]|].
    intros y [->|[->|Hy]%elem_of_cons]%elem_of_cons; [apply Hmax; by left| |apply Hmax; by right].
    trans (key a); [apply cmp_le_lt; by right|apply Hmax; by left].
  - split; [by right|]. intros y [->|Hy]%elem_of_cons; [|by apply Hmax].
    trans (key b); [|apply Hmax; by left]. apply dec_stable. by intros ?%cmp_nle.
Qed.

Lemma prefix_unique (p q r t : string) :
  (p +:+ r) = (q +:+ t) → String.length p = String.length q → p = q.
Proof.
  revert q. induction p as [|c p IH]; intros [|d q]; try done. rewrite !append_cons. cbn.
  intros [= -> Heq] [= Hlen]. f_equal. by apply IH.
Qed.

Definition in_namespace (ns : PackageNamespace) (symbol : string) : Prop :=
  symbol = qualified_prefix ns ∨ starts_with (qualified_prefix ns +:+ ".") symbol = true.

Lemma specificity_Some ns symbol k :
  symbol_match_specificity ns symbol = Some k ↔ in_namespace ns symbol ∧ k = String.length (qualified_prefix ns).
Proof.
  unfold symbol_match_specificity, in_namespace.
  destruct (bool_decide_reflect (symbol = qualified_prefix ns)), (starts_with _ symbol); cbn; naive_solver.
Qed.

Lemma contains_symbol_iff ns symbol : contains_symbol ns symbol = true ↔ in_namespace ns symbol.
Proof.
  unfold contains_symbol. rewrite bool_decide_eq_true. unfold is_Some. setoid_rewrite specificity_Some. naive_solver.
Qed.

Lemma contains_prefix ns symbol : in_namespace ns symbol → ∃ r, symbol = (qualified_prefix ns +:+ r).
Proof.
  intros [->|(r & ->)%starts_with_iff]; [exists ""; by rewrite append_empty|]. exists ("." +:+ r). by rewrite append_assoc.
Qed.

(** The namespaces that decide about a symbol: the longest prefixes that contain it; of two owners of the same prefix
    the one whose name is greater. *)
Definition governs (namespaces : list PackageNamespace) (symbol : string) (ns : PackageNamespace) : Prop :=
  ns ∈ namespaces ∧ in_namespace ns symbol ∧
  ∀ ns', ns' ∈ namespaces → in_namespace ns' symbol →
    String.length (qualified_prefix ns') < String.length (qualified_prefix ns) ∨
    (qualified_prefix ns' = qualified_prefix ns ∧ cmp_le (ns_owner ns') (ns_owner ns)).

Lemma matching_elem symbol (namespaces : list PackageNamespace) m :
  m ∈ omap (λ ns, (λ s, (s, ns)) <$> symbol_match_specificity ns symbol) namespaces ↔
  m.2 ∈ namespaces ∧ in_namespace m.2 symbol ∧ m.1 = String.length (qualified_prefix m.2).
Proof.
  rewrite list_elem_of_omap. split.
  - intros (ns & Hin & (k & Hk & ->)%fmap_Some). apply specificity_Some in Hk as [? ->]. done.
  - destruct m as [k ns]. cbn. intros (Hin & Hc & ->). exists ns. split; [done|]. apply fmap_Some.
    exists (String.length (qualified_prefix ns)). split; [by apply specificity_Some|done].
Qed.

Lemma matching_None symbol (namespaces : list PackageNamespace) :
  matching_namespace symbol namespaces = None ↔ ∀ ns, ns ∈ namespaces → ¬ in_namespace ns symbol.
Proof.
  unfold matching_namespace. rewrite fmap_None. pose proof (matching_elem symbol namespaces) as Hc.
  destruct (omap _ namespaces) as [|m l]; split; try done.
  - intros _ ns Hin Hn. by apply (not_elem_of_nil (String.length (qualified_prefix ns), ns)), Hc.
  - intros Hn. destruct (Hc m) as [(Hin & Hm & _) _]; [by left|]. by apply Hn in Hm.
Qed.

Lemma cmp_le_pair {A B} `{CmpLaws A, CmpLaws B} (x y : A * B) :
  cmp_le x y ↔ cmp_lt x.1 y.1 ∨ (x.1 = y.1 ∧ cmp_le x.2 y.2).
Proof.
  unfold cmp_le, cmp_lt. change (cmp x y) with (then_with (cmp x.1 y.1) (cmp x.2 y.2)).
  destruct (cmp x.1 y.1) eqn:E; cbn; rewrite <- (cmp_eq x.1 y.1), E; naive_solver.
Qed.

Lemma key_le_governs symbol ns ns' :
  in_namespace ns symbol → in_namespace ns' symbol →
  cmp_le (specificity_key (String.length (qualified_prefix ns'), ns')) (specificity_key (String.length (qualified_prefix ns), ns)) ↔
  String.length (qualified_prefix ns') < String.length (qualified_prefix ns) ∨
  (qualified_prefix ns' = qualified_prefix ns ∧ cmp_le (ns_owner ns') (ns_owner ns)).
Proof.
  intros (r & Hr)%contains_prefix (t & Ht)%contains_prefix. unfold specificity_key. rewrite cmp_le_pair. cbn.
  assert (∀ n m : nat, cmp_lt n m ↔ n < m) as Hlt by (intros n m; unfold cmp_lt, cmp, nat_cmp; apply Nat.compare_lt_iff).
  assert (String.length (qualified_prefix ns') = String.length (qualified_prefix ns) → qualified_prefix ns' = qualified_prefix ns) as Heq.
  { apply (prefix_unique _ _ t r). congruence. }
  assert (cmp_lt (String.length (qualified_prefix ns'), qualified_prefix ns') (String.length (qualified_prefix ns), qualified_prefix ns) ↔
    String.length (qualified_prefix ns') < String.length (qualified_prefix ns)) as ->.
  { unfold cmp_lt at 1. unfold cmp, prod_cmp. cbn. unfold cmp at 1, nat_cmp. destruct (Nat.compare_spec
      (String.length (qualified_prefix ns')) (String.length (qualified_prefix ns))) as [He|?|?]; cbn.
    - rewrite (Heq He), cmp_refl. split; [done|lia].
    - done.
    - split; [done|lia]. }
  split; (intros [?|[He Ho]]; [by left|right]).
  - injection He as _ He. done.
  - by rewrite He.
Qed.

Lemma matching_Some symbol namespaces ns : matching_namespace symbol namespaces = Some ns → governs namespaces symbol ns.
Proof.
  unfold matching_namespace. intros ([k ns1] & Hm & ->)%fmap_Some. cbn.
  apply max_by_spec in Hm as [Hin Hmax]. apply matching_elem in Hin as (Hin & Hc & Hk). cbn in *. subst k.
  split; [done|]. split; [done|]. intros ns' Hin' Hc'. apply (key_le_governs symbol); [done..|].
  apply Hmax. by apply matching_elem.
Qed.

Lemma governs_owner namespaces symbol ns ns' :
  governs namespaces symbol ns → governs namespaces symbol ns' → ns_owner ns = ns_owner ns'.
Proof.
  intros (Hin & Hc & Hmax) (Hin' & Hc' & Hmax').
  destruct (Hmax ns' Hin' Hc') as [?|[_ H1]], (Hmax' ns Hin Hc) as [?|[He H2]]; try lia.
  - rewrite He in *. lia.
  - destruct (Hmax ns' Hin' Hc') as [?|[He' _]]; [lia|]. rewrite He' in *. lia.
  - by apply cmp_le_antisym.
Qed.

(** The ownership check is exact: a package may export a symbol exactly when it owns the most specific namespace that
    contains the symbol, or none does. *)
Theorem ownership_exact symbol claimant namespaces :
  ownership_check symbol claimant namespaces = Ok tt ↔
  ∀ ns, governs namespaces symbol ns → ns_owner ns = claimant.
Proof.
  unfold ownership_check. destruct (matching_namespace symbol namespaces) as [ns|] eqn:E.
  - apply matching_Some in E. case_decide as Hd.
    + split; [done|]. intros Ha. by destruct Hd; apply Ha.
    + split; [|done]. intros _ ns' Hg. rewrite (governs_owner _ _ _ _ Hg E). by destruct (decide (ns_owner ns = claimant)).
  - split; [|done]. intros _ ns (Hin & Hc & _). exfalso. by apply (proj1 (matching_None symbol namespaces) E ns).
Qed.

(* ------------------------------------------------------------------ *)
(** ** Coherence is exact *)

Lemma bind_nil_all {A B} (f : A → list B) l : l ≫= f = [] ↔ ∀ x, x ∈ l → f x = [].
Proof.
  induction l as [|x l IH]; [set_solver|]. rewrite bind_cons, app_nil, IH. setoid_rewrite elem_of_cons. naive_solver.
Qed.

Lemma owns_from_iff covered implementor symbol namespaces :
  owns_from covered implementor symbol namespaces = true ↔
  (∃ ns, ns ∈ namespaces ∧ in_namespace ns symbol ∧ ns_owner ns = implementor) ∨
  (covered = false ∧ ∀ ns, ns ∈ namespaces → ¬ in_namespace ns symbol).
Proof.
  revert covered. induction namespaces as [|ns l IH]; intros covered; cbn [owns_from].
  { rewrite negb_true_iff. split; [intros ->; right; split; [done|by intros ? ?%not_elem_of_nil]|].
    intros [(ns & ?%not_elem_of_nil & _)|[-> _]]; done. }
  pose proof (contains_symbol_iff ns symbol) as Hc. setoid_rewrite elem_of_cons.
  destruct (contains_symbol ns symbol).
  - case_decide as Ho; [naive_solver|]. rewrite IH. naive_solver.
  - rewrite IH. naive_solver.
Qed.

Lemma conflicts_nil l : conflicts l = [] ↔ NoDup ((λ im, (ii_interface im, ii_for_type im)) <$> l).
Proof.
  induction l as [|a l IH]; [split; [constructor|done]|]. cbn [conflicts]. rewrite fmap_cons, NoDup_cons, app_nil, IH, bind_nil_all.
  f_equiv. rewrite list_elem_of_fmap. unfold conflict. split.
  - intros Ha (b & [= Hi Ht] & Hb). specialize (Ha b Hb). by rewrite decide_True in Ha.
  - intros Hn b Hb. apply decide_False. intros [Hi Ht]. apply Hn. exists b. by rewrite Hi, Ht.
Qed.

(** The orphan rule and uniqueness, for a notion of ownership *)
Definition coherent (owns : string → string → Prop) (impls : list InterfaceImpl) : Prop :=
  (∀ im, im ∈ impls → ii_is_adapter im = false →
     owns (ii_implementor im) (ii_interface im) ∨ owns (ii_implementor im) (ii_for_type im)) ∧
  NoDup ((λ im, (ii_interface im, ii_for_type im)) <$> filter (λ im, ii_is_adapter im = false) impls).

Lemma coherence_errors_nil (owns : string → string → bool) impls :
  coherence_errors owns impls = [] ↔ coherent (λ p s, owns p s = true) impls.
Proof.
  unfold coherence_errors, coherent. rewrite app_nil, conflicts_nil, bind_nil_all. unfold orphan.
  split; intros [H Hn]; (split; [|done]); intros im Hin; specialize (H im Hin); destruct (ii_is_adapter im); try done;
    destruct (owns (ii_implementor im) (ii_interface im)), (owns (ii_implementor im) (ii_for_type im)); naive_solver.
Qed.

(** A package owns a registered symbol when a namespace that contains it is its own; symbols that no namespace contains
    are open. *)
Definition registered_owner (namespaces : list PackageNamespace) (package symbol : string) : Prop :=
  (∃ ns, ns ∈ namespaces ∧ in_namespace ns symbol ∧ ns_owner ns = package) ∨ ∀ ns, ns ∈ namespaces → ¬ in_namespace ns symbol.

(** The coherence check is exact: no error is reported exactly when every implementation that is not an adapter belongs
    to an owner of its interface or of its type, and no interface is implemented twice for a type. *)
Theorem coherence_exact impls namespaces :
  check_with_namespaces impls namespaces = [] ↔ coherent (registered_owner namespaces) impls.
Proof.
  unfold check_with_namespaces. rewrite coherence_errors_nil. unfold coherent, owns_in_namespaces.
  assert (∀ p s, owns_from false p s namespaces = true ↔ registered_owner namespaces p s) as Ho.
  { intros p s. rewrite owns_from_iff. unfold registered_owner. naive_solver. }
  split; intros [H Hn]; (split; [|done]); intros im Hin Ha; specialize (H im Hin Ha); by rewrite !Ho in *.
Qed.

(* ------------------------------------------------------------------ *)
(** ** The diagnostics are exact *)

Lemma repeats_nil `{Countable K} i first (keys : list K) :
  repeats_from i first keys = [] ↔ NoDup keys ∧ ∀ k, k ∈ keys → first !! k = None.
Proof.
  revert i first. induction keys as [|k keys IH]; intros i first; cbn [repeats_from].
  { split; [intros _; split; [constructor|by intros ? ?%not_elem_of_nil]|done]. }
  rewrite NoDup_cons. setoid_rewrite elem_of_cons. destruct (first !! k) as [j|] eqn:E.
  - split; [done|]. intros [_ Hn]. specialize (Hn k). naive_solver congruence.
  - rewrite IH. split.
    + intros [Hd Hn]. assert (k ∉ keys) as Hk by (intros Hin; specialize (Hn k Hin); by rewrite lookup_insert_eq in Hn).
      split; [done|]. intros k' [->|Hin]; [done|]. specialize (Hn k' Hin). rewrite lookup_insert_ne in Hn; [done|by intros ->].
    + intros [[Hk Hd] Hn]. split; [done|]. intros k' Hin. rewrite lookup_insert_ne; [auto|by intros ->].
Qed.

Definition path_ok (s : string) : Prop := is_dotted_lowercase_path s = true.

(** The items of an import are public exports of a known package. *)
Definition import_resolves (available : list ImportedPackageSurface) (d : ImportDeclaration) : Prop :=
  ∃ s, index_by ips_package available !! id_source_package d = Some s ∧
    ∀ item, item ∈ id_items d →
      ∃ e, index_by ed_name (ips_exports s) !! item = Some e ∧ ed_visibility e = VisPublic.

Lemma invalid_segment_nil path index message value : invalid_segment path index message value = [] ↔ path_ok value.
Proof. unfold invalid_segment, path_ok. by destruct (is_dotted_lowercase_path value). Qed.

Lemma import_diagnostic_nil available i d :
  import_diagnostic (index_by ips_package available) i d = [] ↔ import_resolves available d.
Proof.
  unfold import_diagnostic, import_resolves. destruct (index_by ips_package available !! _) as [s|]; [|naive_solver].
  rewrite (imap_join_nil _ (λ item, ∃ e, index_by ed_name (ips_exports s) !! item = Some e ∧ ed_visibility e = VisPublic)).
  { naive_solver. }
  intros j item. unfold item_diagnostic. destruct (index_by ed_name _ !! item) as [e|]; [|naive_solver].
  destruct (ed_visibility e) eqn:Ev; naive_solver congruence.
Qed.

Lemma sort_dedup_nil {A K} `{EqDecision A, CmpLaws K} (key : A → K) l : sort_dedup key l = [] ↔ l = [].
Proof.
  split; [|by intros ->]. intros Hs. apply elem_of_nil_inv. intros x Hx. rewrite <- (sort_dedup_elem key), Hs in Hx.
  by apply not_elem_of_nil in Hx.
Qed.

(** The diagnostics are exact: none is given exactly when all names are well formed, no namespace, export or imported
    package is declared twice, and every imported item is a public export of a known package. *)
Theorem namespace_diagnostics_exact name namespaces imports exports available :
  namespace_diagnostics name namespaces imports exports available = [] ↔
  path_ok name ∧ (∀ ns, ns ∈ namespaces → path_ok (ns_owner ns) ∧ path_ok (ns_namespace ns)) ∧
  (∀ d, d ∈ imports → path_ok (id_source_package d) ∧ import_resolves available d) ∧
  NoDup (namespace_shape <$> namespaces) ∧ NoDup (ed_name <$> exports) ∧ NoDup (id_source_package <$> imports).
Proof.
  unfold namespace_diagnostics, push_invalid_namespace_segment_diagnostics, push_duplicate_namespace_diagnostics,
    push_duplicate_export_diagnostics, push_duplicate_import_diagnostics, push_import_resolution_diagnostics, repeated.
  rewrite sort_dedup_nil, !app_nil, !fmap_nil_iff, !repeats_nil, invalid_segment_nil.
  rewrite (imap_join_nil _ (λ ns, path_ok (ns_owner ns) ∧ path_ok (ns_namespace ns)))
    by (intros; by rewrite app_nil, !invalid_segment_nil).
  rewrite (imap_join_nil _ (λ d, path_ok (id_source_package d))) by (intros; apply invalid_segment_nil).
  rewrite (imap_join_nil _ (import_resolves available)) by (intros; apply import_diagnostic_nil).
  assert (∀ (K : Type) `{Countable K} (l : list K), (NoDup l ∧ ∀ k, k ∈ l → (∅ : gmap K nat) !! k = None) ↔ NoDup l) as Hd.
  { intros. split; [by intros []|]. intros ?. split; [done|]. intros. apply lookup_empty. }
  rewrite !Hd. split.
  - intros ((? & ? & Hp) & ? & ? & ? & Hr). split_and!; auto.
  - intros (? & ? & Hi & ? & ? & ?). split_and!; try done; intros d ?; by apply Hi.
Qed.

(* ------------------------------------------------------------------ *)
(** ** Validation is exact *)

Lemma validate_namespace_exact ns :
  validate_namespace ns = [] ↔
  path_ok (ns_owner ns) ∧ path_ok (ns_namespace ns) ∧
  (ns_namespace ns = ns_owner ns ∨ starts_with (ns_owner ns +:+ ".") (ns_namespace ns) = true).
Proof.
  unfold validate_namespace, sort_issues, path_ok. rewrite sort_on_nil.
  destruct (is_dotted_lowercase_path (ns_owner ns)), (is_dotted_lowercase_path (ns_namespace ns)); cbn; try naive_solver.
  destruct (bool_decide_reflect (ns_namespace ns ≠ ns_owner ns)) as [Hn|Hn], (starts_with _ _); cbn;
    try (split; [|done]; intros _; split_and!; auto; left; by apply dec_stable).
  split; [done|]. intros (_ & _ & [?|?]); done.
Qed.

Lemma packages_by_alias_elem aliases alias package :
  package ∈ default ∅ (packages_by_alias aliases !! alias) ↔ MkImportAlias package alias ∈ aliases.
Proof.
  unfold packages_by_alias.
  assert (∀ m : gmap string (gset string),
    package ∈ default ∅ (foldl (λ m a, <[ia_alias a := {[ia_package a]} ∪ default ∅ (m !! ia_alias a)]> m) m aliases !! alias)
    ↔ package ∈ default ∅ (m !! alias) ∨ MkImportAlias package alias ∈ aliases) as Hg.
  { induction aliases as [|[p a] l IH]; intros m; cbn [foldl].
    - split; [by left|]. by intros [?|?%not_elem_of_nil].
    - rewrite IH. cbn. rewrite elem_of_cons. destruct (decide (a = alias)) as [->|Hne].
      + rewrite lookup_insert_eq. cbn. rewrite elem_of_union, elem_of_singleton. naive_solver.
      + rewrite lookup_insert_ne by done. naive_solver. }
  rewrite Hg, lookup_empty. cbn. set_solver.
Qed.

Lemma collision_nil p : collision_issue p = [] ↔ ∀ x y, x ∈ p.2 → y ∈ p.2 → x = y.
Proof.
  unfold collision_issue. destruct (Nat.ltb_spec 1 (size p.2)) as [Hs|Hs].
  - split; [done|]. intros H. exfalso. destruct (size_pos_elem_of p.2) as [x Hx]; [lia|].
    assert (p.2 = {[x]}) as E.
    { apply set_eq. intros y. rewrite elem_of_singleton. split; [intros Hy; by apply H|by intros ->]. }
    rewrite E, size_singleton in Hs. lia.
  - split; [|done]. intros _ x y Hx Hy. apply (size_singleton_inv p.2); [|done..].
    assert (size p.2 ≠ 0); [|lia]. intros H0%size_empty_inv. set_solver.
Qed.

(** Aliases are accepted exactly when every one is a fresh lower-case segment for a well-formed package, and no alias
    stands for two packages. *)
Theorem validate_import_aliases_exact aliases :
  validate_import_aliases aliases = [] ↔
  (∀ a, a ∈ aliases → path_ok (ia_package a) ∧ is_lowercase_segment (ia_alias a) = true ∧
     ia_alias a ∉ ["pkg"; "type"; "handler"; "cap"]) ∧
  (∀ a b, a ∈ aliases → b ∈ aliases → ia_alias a = ia_alias b → stable_identity a = stable_identity b).
Proof.
  unfold validate_import_aliases, sort_issues. rewrite sort_on_nil, app_nil, !bind_nil_all. f_equiv.
  - split; intros H a Ha; specialize (H a Ha); unfold alias_issues, path_ok, is_reserved_namespace_prefix in *;
      destruct (is_dotted_lowercase_path (ia_package a)), (is_lowercase_segment (ia_alias a)),
        (bool_decide_reflect (ia_alias a ∈ ["pkg"; "type"; "handler"; "cap"])); cbn in *; naive_solver.
  - split.
    + intros H [p a] [q b] Ha Hb. cbn. intros <-. apply packages_by_alias_elem in Ha, Hb.
      destruct (packages_by_alias aliases !! a) as [s|] eqn:E; [|set_solver].
      specialize (H (a, s)). rewrite map_iter_elem in H. by apply (proj1 (collision_nil (a, s)) (H E)).
    + intros H [a s] Hs%map_iter_elem. apply collision_nil. intros x y Hx Hy. cbn in *.
      apply (H (MkImportAlias x a) (MkImportAlias y a)); [| |done]; apply packages_by_alias_elem; by rewrite Hs.
Qed.

(* ------------------------------------------------------------------ *)
(** ** Samples *)

Module NamespaceSample.
Definition payments : PackageNamespace := MkPackageNamespace "payments" "payments" NsType.
Definition stripe : PackageNamespace := MkPackageNamespace "payments.stripe" "payments.stripe" NsType.

(** The most specific namespace decides about an export. *)
Example specific_owner :
  ownership_check "type.payments.stripe.Card" "payments.stripe" [payments; stripe] = Ok tt ∧
  ownership_check "type.payments.stripe.Card" "payments" [payments; stripe]
  = Err (OwnershipUnauthorized "type.payments.stripe.Card" "payments.stripe" "payments").
Proof. by vm_compute. Qed.

(** The orphan rule looks at any namespace that contains the symbol: the owner of a wider one passes. *)
Example wider_owner :
  check_with_namespaces
    [MkInterfaceImpl "payments" "type.payments.stripe.Show" "type.payments.stripe.Card" false] [payments; stripe] = [].
Proof. by vm_compute. Qed.

(** Two registrations of one namespace: the greater name owns it. *)
Example registered_twice :
  ownership_check "type.payments.Card" "payments"
    [payments; MkPackageNamespace "zeta" "payments" NsType]
  = Err (OwnershipUnauthorized "type.payments.Card" "zeta" "payments").
Proof. by vm_compute. Qed.
End NamespaceSample.
