(* ===== verification/CoreIr.v ===== *)
(** * The Core IR

    crates/ail-compiler/src/core_ir/: expressions, types, node kinds, nodes and
    stage hashes of the first compiler stage.  Literals are in Anf.v. *)

From S2P Require Import Prelude Text GraphTypes Anf.

(* ------------------------------------------------------------------ *)
(** ** Primitives *)

Inductive LoopTermination : Type := LtProven | LtBounded | LtAssumed | LtUnverified.
Inductive ResourceMode : Type := RmCopy | RmAffine | RmLinear | RmShared.

Inductive CoreNodeKind : Type :=
| CkModule | CkFunction | CkType | CkEffect | CkCapability | CkContract | CkInvariant | CkTest | CkBoundary
| CkPackage | CkInterface | CkImpl | CkEffectAlias | CkImport | CkExport | CkVersionConstraint
| CkCapabilityExport | CkContractExport.

(* ------------------------------------------------------------------ *)
(** ** Types *)

#[local] Set Warnings "-register-all".

Inductive CoreType : Type :=
| TUnit | TNever | TBool | TInt | TUInt | TFloat | TText | TBytes | TRecord | TVariant | TTuple
| TList (elem : CoreType)
| TMap (key value : CoreType)
| TSet (elem : CoreType)
| TOption (inner : CoreType)
| TResult (ok err : CoreType)
| TFunction (params : list CoreType) (ret : CoreType) (effects : list string)
| THandle (resource : CoreType) (mode : ResourceMode)
| TRefinement (base : CoreType) (predicate : string)
| TGeneric (inner : option CoreType)
| TDecimal | TExistential | TCodePoint | TGrapheme
| TNormalizedText (form : string)
| TInt32 | TInt64 | TUInt32 | TUInt64 | TTaskGroup
| TPatchField (inner : CoreType)
| TVector (elem : CoreType)
| TOrderedSet (elem : CoreType)
| TOrderedMap (key value : CoreType)
| TArray (elem : CoreType)
| TTask (result : CoreType)
| TChannel (elem : CoreType)
| TForeignType (name : string)
| TEncoded (name : string)
| TDecoded (inner : CoreType)
| TDyn (interface : string)
| TBoundarySchema (name : string)
| TAdapterContract (name : string).

(* ------------------------------------------------------------------ *)
(** ** Expressions *)

Inductive CoreExpr : Type :=
| CLiteral (lit : LiteralValue)
| CVar (name : string)
| CLet (name : string) (value body : CoreExpr)
| CIf (cond then_ else_ : CoreExpr)
| CMatch (scrutinee : CoreExpr) (arms : list MatchArm)
| CCall (func : string) (args : list CoreExpr)
| CAdd (left right : CoreExpr)
| CSub (left right : CoreExpr)
| CMul (left right : CoreExpr)
| CDiv (left right : CoreExpr)
| CMod (left right : CoreExpr)
| CEq (left right : CoreExpr)
| CLt (left right : CoreExpr)
| CGt (left right : CoreExpr)
| CNe (left right : CoreExpr)
| CLe (left right : CoreExpr)
| CGe (left right : CoreExpr)
| CNot (operand : CoreExpr)
| CLambda (params : list string) (body : CoreExpr)
| CRecordNew (fields : list (string * CoreExpr))
| CFieldGet (record : CoreExpr) (field : string)
| CFieldUpdate (record : CoreExpr) (field : string) (value : CoreExpr)
| CTupleNew (elems : list CoreExpr)
| CVariantNew (tag : string) (payload : option CoreExpr)
| CListNew (elems : list CoreExpr)
| CLoop (body : CoreExpr) (termination : option LoopTermination)
| CBreak (value : CoreExpr)
| CContinue
| CWhileLoop (cond body : CoreExpr) (termination : option LoopTermination)
| CAnd (left right : CoreExpr)
| COr (left right : CoreExpr)
| CEffectCall (capability func : string) (args : list CoreExpr)
| CDispatch (handler method : string) (args : list CoreExpr)
| CTaskSpawn (func : string) (args : list CoreExpr)
| CChannelSend (channel value : CoreExpr)
| CChannelReceive (channel : CoreExpr)
| CRuntimeCheck (check_ref : string) (cond : CoreExpr) (msg : string)
| CResourceAcquire (resource : string) (args : list CoreExpr)
| CResourceRelease (handle : CoreExpr)
| CTaskAwait (task : CoreExpr)
| CTaskCancel (task : CoreExpr)
| CTaskGroup (body : CoreExpr)
| CChannelNew (capacity : option N)
| CSelect (branches : list SelectClause)
| CTimeout (duration body : CoreExpr)
| CCellNew (init : CoreExpr)
| CCellGet (cell : CoreExpr)
| CCellSet (cell value : CoreExpr)
| CPlaceholder
| CForEach (binding : string) (collection body : CoreExpr)
| CFold (init lst func : CoreExpr)
| CReturn (value : CoreExpr)
| CMapNew (entries : list (CoreExpr * CoreExpr))
| CSetNew (elements : list CoreExpr)
| CIndexGet (collection index : CoreExpr)
| CBoundaryCall (boundary func : string) (args : list CoreExpr)
| CAssume (predicate reason : string)
| CAbort (message : string)
| CDynCall (interface method : string) (args : list CoreExpr)
| CCapabilityUse (capability : string) (args : list CoreExpr)
| CResourceUse (handle body : CoreExpr)
| CResourceUsing (resource : CoreExpr) (binding : string) (body : CoreExpr)
| CResourceTransfer (handle target : CoreExpr)
| CForeignFunctionCall (func : string) (args : list CoreExpr)
| CPatchFieldConstruct (state : string) (value : option CoreExpr)
| CPatchFieldMatch (scrutinee : CoreExpr) (arms : list MatchArm)
with MatchArm : Type :=
| MkMatchArm (pattern : string) (body : CoreExpr)
with SelectClause : Type :=
| MkSelectClause (channel : CoreExpr) (binding : string) (body : CoreExpr).

Definition ma_pattern (a : MatchArm) : string := let '(MkMatchArm p _) := a in p.
Definition ma_body (a : MatchArm) : CoreExpr := let '(MkMatchArm _ b) := a in b.

(* ------------------------------------------------------------------ *)
(** ** Nodes *)

Record CoreNode : Type := MkCoreNode {
  cn_source_ref : NodeRef;
  cn_kind : CoreNodeKind;
  cn_name : string;
  cn_ty : option CoreType;
  cn_expr : option CoreExpr;
}.

Record StageHashes : Type := MkStageHashes {
  sh_graph_snapshot_hash : list N;
  sh_verification_report_hash : list N;
  sh_core_ir_hash : list N;
  sh_anf_ir_hash : option (list N);
  sh_wasm_hash : option (list N);
  sh_native_hash : option (list N);
  sh_source_map_hash : option (list N);
  sh_artifact_manifest_hash : option (list N);
}.

Record CoreIr : Type := MkCoreIr { ci_nodes : list CoreNode; ci_stage_hashes : StageHashes }.

(* ------------------------------------------------------------------ *)
(** ** Induction *)

(** The immediate sub-expressions, in source order *)
Definition core_children (e : CoreExpr) : list CoreExpr :=
  match e with
  | CLet _ a b | CAdd a b | CSub a b | CMul a b | CDiv a b | CMod a b | CEq a b | CLt a b | CGt a b | CNe a b
  | CLe a b | CGe a b | CFieldUpdate a _ b | CWhileLoop a b _ | CAnd a b | COr a b | CChannelSend a b
  | CTimeout a b | CCellSet a b | CForEach _ a b | CIndexGet a b | CResourceUse a b | CResourceUsing a _ b
  | CResourceTransfer a b => [a; b]
  | CIf a b c | CFold a b c => [a; b; c]
  | CNot a | CLambda _ a | CFieldGet a _ | CLoop a _ | CBreak a | CChannelReceive a | CRuntimeCheck _ a _
  | CResourceRelease a | CTaskAwait a | CTaskCancel a | CTaskGroup a | CCellNew a | CCellGet a | CReturn a => [a]
  | CMatch s arms | CPatchFieldMatch s arms => s :: (ma_body <$> arms)
  | CCall _ l | CTupleNew l | CListNew l | CEffectCall _ _ l | CDispatch _ _ l | CTaskSpawn _ l
  | CResourceAcquire _ l | CSetNew l | CBoundaryCall _ _ l | CDynCall _ _ l | CCapabilityUse _ l
  | CForeignFunctionCall _ l => l
  | CRecordNew fields => fields.*2
  | CVariantNew _ (Some p) | CPatchFieldConstruct _ (Some p) => [p]
  | CSelect branches => branches ≫= λ '(MkSelectClause c _ b), [c; b]
  | CMapNew entries => entries ≫= λ '(k, v), [k; v]
  | _ => []
  end.

Lemma CoreExpr_children_ind (P : CoreExpr → Prop) :
  (∀ e, Forall P (core_children e) → P e) → ∀ e, P e.
Proof.
  intros Hstep. fix IH 1. intros e.
  assert (Hl : ∀ l : list CoreExpr, Forall P l).
  { fix go 1. intros [|x l]; constructor; [apply IH|apply go]. }
  assert (Ha : ∀ l : list MatchArm, Forall P (ma_body <$> l)).
  { fix go 1. intros [|[? x] l]; csimpl; constructor; [apply IH|apply go]. }
  assert (Hc : ∀ l : list SelectClause, Forall P (l ≫= λ '(MkSelectClause c _ b), [c; b])).
  { fix go 1. intros [|[c ? b] l]; csimpl; repeat constructor; [apply IH|apply IH|apply go]. }
  assert (Hm : ∀ l : list (CoreExpr * CoreExpr), Forall P (l ≫= λ '(k, v), [k; v])).
  { fix go 1. intros [|[k v] l]; csimpl; repeat constructor; [apply IH|apply IH|apply go]. }
  assert (Hf : ∀ l : list (string * CoreExpr), Forall P l.*2).
  { fix go 1. intros [|[? x] l]; csimpl; constructor; [apply IH|apply go]. }
  apply Hstep. destruct e; cbn [core_children]; repeat case_match;
    first [ apply Hc | apply Hm | apply Hf | apply (Forall_nil_2 P)
          | apply Forall_cons_2; [apply IH|apply Ha]
          | repeat (apply Forall_cons_2; [apply IH|]); apply Forall_nil_2 | apply Hl ].
Qed.
