(* ===== verification/Lower.v ===== *)
(** * Lowering expressions to A-normal form

    crates/ail-compiler/src/lower/lower_expr/: [atomize], [atomize_local] and
    the helpers (atomize.rs), the local lowering that keeps temporaries inside
    the expression (local.rs) and the global one that pushes them out as
    bindings (global/).  The two call each other, the local one also on the
    expression itself, so both are computed together.

    The counter is a [u32] and wraps.  [source_ref] is a section variable: it
    is the same throughout a call. *)

From stdpp Require Import pretty.
From S2P Require Import Prelude Text GraphTypes Anf ConstFold CoreIr.

(* ------------------------------------------------------------------ *)
(** ** Temporaries *)

(** [format!("anf_{}", *fresh)] *)
Definition fresh_name (n : N) : string := "anf_" +:+ pretty n.
Definition next_fresh (n : N) : N := as_u32 (n + 1).

Abbreviation Temp := (string * AnfExpr)%type.

Definition wrap_local_bindings (bindings : list Temp) (body : AnfExpr) : AnfExpr :=
  foldl (λ body '(name, value), ALet name value body) body (reverse bindings).

(** [if let Some(binding) = binding { wrap_local_bindings(vec![binding], e) } else { e }] *)
Definition wrap_binding (binding : option Temp) (e : AnfExpr) : AnfExpr :=
  match binding with Some b => wrap_local_bindings [b] e | None => e end.

(** The counter and the bindings pushed so far *)
Abbreviation Globals := (N * list AnfBinding)%type.

Record Lowered : Type := MkLowered {
  low_local : N → AnfExpr * N;
  low_global : Globals → AnfExpr * Globals;
}.

Section Lower.
Context (source_ref : NodeRef).

Definition push_binding (name : string) (e : AnfExpr) (g : Globals) : Globals :=
  (g.1, g.2 ++ [MkAnfBinding source_ref name e]).

(* ------------------------------------------------------------------ *)
(** ** atomize.rs *)

Definition atomize (lower : CoreExpr → Lowered) (expr : CoreExpr) (g : Globals) : string * Globals :=
  match expr with
  | CVar name => (name, g)
  | _ =>
      let '(anf_expr, g) := low_global (lower expr) g in
      let name := fresh_name g.1 in
      (name, push_binding name anf_expr (next_fresh g.1, g.2))
  end.

Definition atomize_local (lower : CoreExpr → Lowered) (expr : CoreExpr) (n : N) : (string * option Temp) * N :=
  match expr with
  | CVar name => ((name, None), n)
  | _ =>
      let '(value, n) := low_local (lower expr) n in
      let name := fresh_name n in
      ((name, Some (name, value)), next_fresh n)
  end.

(** The loop over arguments: the names, and the temporaries that were needed *)
Definition atomize_args (lower : CoreExpr → Lowered) (args : list CoreExpr) (n : N) : list string * list Temp * N :=
  let '(atoms, n) := map_state (atomize_local lower) args n in (atoms.*1, omap snd atoms, n).

Definition lower_core_call_to_anf (lower : CoreExpr → Lowered) (func : string) (args : list CoreExpr) (n : N) : AnfExpr * N :=
  let '(arg_names, bindings, n) := atomize_args lower args n in
  (wrap_local_bindings bindings (ACall func arg_names), n).

(** The calls with two operands and with one, unfolded ([calls_unfolded] below) *)
Definition lower_core_binary_to_anf (lower : CoreExpr → Lowered) (func : string) (lhs rhs : CoreExpr) (n : N) : AnfExpr * N :=
  let '((l, lb), n) := atomize_local lower lhs n in
  let '((r, rb), n) := atomize_local lower rhs n in
  (wrap_local_bindings (omap id [lb; rb]) (ACall func [l; r]), n).

Definition lower_core_unary_to_anf (lower : CoreExpr → Lowered) (func : string) (operand : CoreExpr) (n : N) : AnfExpr * N :=
  let '((x, b), n) := atomize_local lower operand n in
  (wrap_local_bindings (omap id [b]) (ACall func [x]), n).

(** The [WhileLoop] arm: a loop that tests its condition in every round *)
Definition lower_while (lower : CoreExpr → Lowered) (cond body : CoreExpr) (n : N) : AnfExpr * N :=
  let '(cond_lowered, n) := low_local (lower cond) n in
  let cond_tmp := fresh_name n in
  let n := next_fresh n in
  let '(body_lowered, n) := low_local (lower body) n in
  let body_tmp := fresh_name n in
  let n := next_fresh n in
  let if_expr := AIf cond_tmp (ALet body_tmp body_lowered AContinue) (ABreak (ALiteral LUnit)) in
  (ASeq [ALoop (ALet cond_tmp cond_lowered if_expr); ALiteral LUnit], n).

(** [lower_core_expr_to_anf_local] without the fall-through; [None] falls through. *)
Definition local_arm (lower : CoreExpr → Lowered) (expr : CoreExpr) : option (N → AnfExpr * N) :=
  match expr with
  | CLet name value body => Some (λ n,
      let '(value, n) := low_local (lower value) n in
      let '(body, n) := low_local (lower body) n in
      (ALet name value body, n))
  | CIf cond then_ else_ => Some (λ n,
      let '((cond_name, cond_binding), n) := atomize_local lower cond n in
      let '(then_, n) := low_local (lower then_) n in
      let '(else_, n) := low_local (lower else_) n in
      (wrap_binding cond_binding (AIf cond_name then_ else_), n))
  | CMatch scrutinee arms => Some (λ n,
      let '((scrutinee_name, scrutinee_binding), n) := atomize_local lower scrutinee n in
      let '(arms, n) := map_state (λ '(MkMatchArm pattern body) n,
          let '(body, n) := low_local (lower body) n in (MkAnfMatchArm pattern body, n)) arms n in
      (wrap_binding scrutinee_binding (AMatch scrutinee_name arms), n))
  | CCall func args => Some (lower_core_call_to_anf lower func args)
  | CEffectCall capability func args => Some (λ n,
      let '(arg_names, bindings, n) := atomize_args lower args n in
      (wrap_local_bindings bindings (AEffectCall capability func arg_names), n))
  | CAdd lhs rhs => Some (lower_core_binary_to_anf lower "add" lhs rhs)
  | CSub lhs rhs => Some (lower_core_binary_to_anf lower "sub" lhs rhs)
  | CMul lhs rhs => Some (lower_core_binary_to_anf lower "mul" lhs rhs)
  | CDiv lhs rhs => Some (lower_core_binary_to_anf lower "div" lhs rhs)
  | CMod lhs rhs => Some (lower_core_binary_to_anf lower "mod" lhs rhs)
  | CEq lhs rhs => Some (lower_core_binary_to_anf lower "eq" lhs rhs)
  | CLt lhs rhs => Some (lower_core_binary_to_anf lower "lt" lhs rhs)
  | CGt lhs rhs => Some (lower_core_binary_to_anf lower "gt" lhs rhs)
  | CNe lhs rhs => Some (lower_core_binary_to_anf lower "ne" lhs rhs)
  | CLe lhs rhs => Some (lower_core_binary_to_anf lower "le" lhs rhs)
  | CGe lhs rhs => Some (lower_core_binary_to_anf lower "ge" lhs rhs)
  | CNot operand => Some (lower_core_unary_to_anf lower "not" operand)
  | CAnd lhs rhs => Some (λ n,
      let '((left_name, left_binding), n) := atomize_local lower lhs n in
      let '(anf_right, n) := low_local (lower rhs) n in
      (wrap_binding left_binding (AShortCircuitAnd left_name anf_right), n))
  | COr lhs rhs => Some (λ n,
      let '((left_name, left_binding), n) := atomize_local lower lhs n in
      let '(anf_right, n) := low_local (lower rhs) n in
      (wrap_binding left_binding (AShortCircuitOr left_name anf_right), n))
  | CFieldGet record field => Some (λ n,
      let '((record_name, record_binding), n) := atomize_local lower record n in
      (wrap_binding record_binding (AFieldGet record_name field), n))
  | CFieldUpdate record field value => Some (λ n,
      let '((record_name, record_binding), n) := atomize_local lower record n in
      let '((value_name, value_binding), n) := atomize_local lower value n in
      (wrap_local_bindings (omap id [record_binding; value_binding])
         (AFieldUpdate record_name field (AVar value_name)), n))
  | CRecordNew fields => Some (λ n,
      let '(atoms, n) := map_state (λ '(field, value) n,
          let '(a, n) := atomize_local lower value n in ((field, a), n)) fields n in
      (wrap_local_bindings (omap (snd ∘ snd) atoms) (ARecordNew ((λ a, (a.1, AVar a.2.1)) <$> atoms)), n))
  | CTupleNew elems => Some (λ n,
      let '(names, bindings, n) := atomize_args lower elems n in
      (wrap_local_bindings bindings (ATupleNew (AVar <$> names)), n))
  | CVariantNew tag payload => Some (λ n,
      match payload with
      | Some payload =>
          let '((name, binding), n) := atomize_local lower payload n in
          (wrap_local_bindings (omap id [binding]) (AVariantNew tag (Some (AVar name))), n)
      | None => (wrap_local_bindings [] (AVariantNew tag None), n)
      end)
  | CListNew elems => Some (λ n,
      let '(names, bindings, n) := atomize_args lower elems n in
      (wrap_local_bindings bindings (AListNew (AVar <$> names)), n))
  | CLoop body _ => Some (λ n, let '(body, n) := low_local (lower body) n in (ALoop body, n))
  | CBreak value => Some (λ n, let '(value, n) := low_local (lower value) n in (ABreak value, n))
  | CContinue => Some (λ n, (AContinue, n))
  | CWhileLoop cond body _ => Some (lower_while lower cond body)
  | CForEach binding collection body => Some (λ n,
      let '((col_name, col_binding), n) := atomize_local lower collection n in
      let '(body, n) := low_local (lower body) n in
      (wrap_binding col_binding (AForEach binding col_name body), n))
  | CFold init lst func => Some (λ n,
      let '((init_name, init_binding), n) := atomize_local lower init n in
      let '((list_name, list_binding), n) := atomize_local lower lst n in
      let '((func_name, func_binding), n) := atomize_local lower func n in
      (wrap_local_bindings (omap id [init_binding; list_binding; func_binding]) (AFold init_name list_name func_name), n))
  | CCellNew init => Some (λ n,
      let '((init_name, init_binding), n) := atomize_local lower init n in
      (wrap_binding init_binding (ACellNew init_name), n))
  | CCellGet cell => Some (λ n,
      let '((cell_name, cell_binding), n) := atomize_local lower cell n in
      (wrap_binding cell_binding (ACellGet cell_name), n))
  | CCellSet cell value => Some (λ n,
      let '((cell_name, cell_binding), n) := atomize_local lower cell n in
      let '((value_name, value_binding), n) := atomize_local lower value n in
      (wrap_local_bindings (omap id [cell_binding; value_binding]) (ACellSet cell_name value_name), n))
  | CMapNew entries => Some (λ n,
      let '(atoms, n) := map_state (λ '(k, v) n,
          let '(k, n) := atomize_local lower k n in
          let '(v, n) := atomize_local lower v n in ((k, v), n)) entries n in
      (wrap_local_bindings (atoms ≫= λ a, omap snd [a.1; a.2]) (AMapNew ((λ a, (a.1.1, a.2.1)) <$> atoms)), n))
  | CSetNew elements => Some (λ n,
      let '(names, bindings, n) := atomize_args lower elements n in
      (wrap_local_bindings bindings (ASetNew names), n))
  | CIndexGet collection index => Some (λ n,
      let '((col_name, col_binding), n) := atomize_local lower collection n in
      let '((idx_name, idx_binding), n) := atomize_local lower index n in
      (wrap_local_bindings (omap id [col_binding; idx_binding]) (AIndexGet col_name idx_name), n))
  | _ => None
  end.

(* ------------------------------------------------------------------ *)
(** ** global/ *)

(** A lowering that leaves the pushed bindings alone *)
Definition local_in (f : N → AnfExpr * N) (g : Globals) : AnfExpr * Globals :=
  let '(e, n) := f g.1 in (e, (n, g.2)).

(** base.rs *)
Definition lower_base (lower : CoreExpr → Lowered) (expr : CoreExpr) : option (Globals → AnfExpr * Globals) :=
  let binary func lhs rhs := Some (local_in (lower_core_binary_to_anf lower func lhs rhs)) in
  match expr with
  | CLiteral v => Some (λ g, (ALiteral v, g))
  | CVar x => Some (λ g, (AVar x, g))
  | CLet name value body => Some (λ g,
      let '(value, g) := low_global (lower value) g in
      let '(body, g) := low_global (lower body) g in
      (ALet name value body, g))
  | CIf cond then_ else_ => Some (λ g,
      let '(cond_name, g) := atomize lower cond g in
      let '(then_, g) := low_global (lower then_) g in
      let '(else_, g) := low_global (lower else_) g in
      (AIf cond_name then_ else_, g))
  | CCall func args => Some (λ g, let '(args, g) := map_state (atomize lower) args g in (ACall func args, g))
  | CAdd lhs rhs => binary "add" lhs rhs
  | CSub lhs rhs => binary "sub" lhs rhs
  | CMul lhs rhs => binary "mul" lhs rhs
  | CDiv lhs rhs => binary "div" lhs rhs
  | CMod lhs rhs => binary "mod" lhs rhs
  | CEq lhs rhs => binary "eq" lhs rhs
  | CLt lhs rhs => binary "lt" lhs rhs
  | CGt lhs rhs => binary "gt" lhs rhs
  | CNe lhs rhs => binary "ne" lhs rhs
  | CLe lhs rhs => binary "le" lhs rhs
  | CGe lhs rhs => binary "ge" lhs rhs
  | CNot operand => Some (local_in (lower_core_unary_to_anf lower "not" operand))
  | CFieldGet record field => Some (λ g, let '(r, g) := atomize lower record g in (AFieldGet r field, g))
  | CMatch scrutinee arms => Some (λ g,
      let '(s, g) := atomize lower scrutinee g in
      let '(arms, g) := map_state (λ '(MkMatchArm pattern body) g,
          let '(body, g) := low_global (lower body) g in (MkAnfMatchArm pattern body, g)) arms g in
      (AMatch s arms, g))
  | CLambda params body => Some (λ g,
      let '(body, g) := low_global (lower body) g in (ALambda params (collect_free_vars body params []) body, g))
  | CRecordNew fields => Some (λ g,
      let '(fields, g) := map_state (λ '(name, val) g,
          let '(atom, g) := atomize lower val g in ((name, AVar atom), g)) fields g in
      (ARecordNew fields, g))
  | CFieldUpdate record field value => Some (λ g,
      let '(r, g) := atomize lower record g in
      let '(v, g) := atomize lower value g in
      (AFieldUpdate r field (AVar v), g))
  | CTupleNew elems => Some (λ g,
      let '(names, g) := map_state (atomize lower) elems g in (ATupleNew (AVar <$> names), g))
  | CVariantNew tag payload => Some (λ g,
      match payload with
      | Some p => let '(name, g) := atomize lower p g in (AVariantNew tag (Some (AVar name)), g)
      | None => (AVariantNew tag None, g)
      end)
  | CListNew elems => Some (λ g,
      let '(names, g) := map_state (atomize lower) elems g in (AListNew (AVar <$> names), g))
  | CLoop body _ => Some (λ g, let '(body, g) := low_global (lower body) g in (ALoop body, g))
  | CBreak value => Some (λ g, let '(value, g) := low_global (lower value) g in (ABreak value, g))
  | CContinue => Some (λ g, (AContinue, g))
  | CWhileLoop cond body _ => Some (local_in (lower_while lower cond body))
  | _ => None
  end.

(** effects.rs *)
Definition lower_effects (lower : CoreExpr → Lowered) (expr : CoreExpr) : option (Globals → AnfExpr * Globals) :=
  match expr with
  | CAnd lhs rhs => Some (λ g,
      let '(l, g) := atomize lower lhs g in
      let '(anf_right, g) := low_global (lower rhs) g in (AShortCircuitAnd l anf_right, g))
  | COr lhs rhs => Some (λ g,
      let '(l, g) := atomize lower lhs g in
      let '(anf_right, g) := low_global (lower rhs) g in (AShortCircuitOr l anf_right, g))
  | CEffectCall capability func args => Some (λ g,
      let '(args, g) := map_state (atomize lower) args g in (AEffectCall capability func args, g))
  | CDispatch handler method args => Some (λ g,
      let '(args, g) := map_state (atomize lower) args g in (ADispatch handler method args, g))
  | CTaskSpawn func args => Some (λ g,
      let '(args, g) := map_state (atomize lower) args g in (ATaskSpawn func args, g))
  | CChannelSend channel value => Some (λ g,
      let '(c, g) := atomize lower channel g in
      let '(v, g) := atomize lower value g in (AChannelSend c v, g))
  | CChannelReceive channel => Some (λ g, let '(c, g) := atomize lower channel g in (AChannelReceive c, g))
  | CRuntimeCheck check_ref cond msg => Some (λ g,
      let '(c, g) := atomize lower cond g in (ARuntimeCheck check_ref c msg, g))
  | CResourceAcquire resource args => Some (λ g,
      let '(args, g) := map_state (atomize lower) args g in (AResourceAcquire resource args, g))
  | CResourceRelease handle => Some (λ g, let '(h, g) := atomize lower handle g in (AResourceRelease h, g))
  | _ => None
  end.

(** concurrency.rs *)
Definition lower_concurrency (lower : CoreExpr → Lowered) (expr : CoreExpr) : option (Globals → AnfExpr * Globals) :=
  match expr with
  | CTaskAwait task => Some (λ g, let '(t, g) := atomize lower task g in (ATaskAwait t, g))
  | CTaskCancel task => Some (λ g, let '(t, g) := atomize lower task g in (ATaskCancel t, g))
  | CTaskGroup body => Some (λ g, let '(body, g) := low_global (lower body) g in (ATaskGroup body, g))
  | CChannelNew capacity => Some (λ g, (AChannelNew capacity, g))
  | CSelect branches => Some (λ g,
      let '(branches, g) := map_state (λ '(MkSelectClause channel binding body) g,
          let '(c, g) := atomize lower channel g in
          let '(body, g) := low_global (lower body) g in (MkAnfSelectClause c binding body, g)) branches g in
      (ASelect branches, g))
  | CTimeout duration body => Some (λ g,
      let '(d, g) := atomize lower duration g in
      let '(body, g) := low_global (lower body) g in (ATimeout d body, g))
  | CCellNew init => Some (λ g, let '(i, g) := atomize lower init g in (ACellNew i, g))
  | CCellGet cell => Some (λ g, let '(c, g) := atomize lower cell g in (ACellGet c, g))
  | CCellSet cell value => Some (λ g,
      let '(c, g) := atomize lower cell g in
      let '(v, g) := atomize lower value g in (ACellSet c v, g))
  | CPlaceholder => Some (λ g, (APlaceholder, g))
  | _ => None
  end.

(** extended.rs *)
Definition lower_extended (lower : CoreExpr → Lowered) (expr : CoreExpr) : option (Globals → AnfExpr * Globals) :=
  match expr with
  | CReturn value => Some (λ g, let '(v, g) := atomize lower value g in (AReturn (AVar v), g))
  | CAssume predicate reason => Some (λ g, (AAssume predicate reason, g))
  | CAbort message => Some (λ g, (AAbort message, g))
  | CBoundaryCall boundary func args => Some (λ g,
      let '(args, g) := map_state (atomize lower) args g in (ACall (boundary +:+ ("::" +:+ func)) args, g))
  | CDynCall interface method args => Some (λ g,
      let '(args, g) := map_state (atomize lower) args g in
      (ACall ("dyn::" +:+ (interface +:+ ("::" +:+ method))) args, g))
  | CCapabilityUse capability args => Some (λ g,
      let '(args, g) := map_state (atomize lower) args g in (AEffectCall capability capability args, g))
  | CResourceUse handle body => Some (λ g, let '(_, g) := atomize lower handle g in low_global (lower body) g)
  | CResourceUsing resource binding body => Some (λ g,
      let '(res_name, g) := atomize lower resource g in
      let g := push_binding binding (AResourceAcquire res_name []) g in
      let '(result, g) := low_global (lower body) g in
      (result, push_binding (fresh_name g.1) (AResourceRelease binding) (next_fresh g.1, g.2)))
  | CResourceTransfer handle target => Some (λ g,
      let '(h, g) := atomize lower handle g in
      let '(t, g) := atomize lower target g in (ACall "__resource_transfer" [h; t], g))
  | CForeignFunctionCall func args => Some (λ g,
      let '(args, g) := map_state (atomize lower) args g in (ACall ("__foreign::" +:+ func) args, g))
  | CPatchFieldConstruct state value => Some (λ g,
      match value with
      | Some v => let '(name, g) := atomize lower v g in (AVariantNew state (Some (AVar name)), g)
      | None => (AVariantNew state None, g)
      end)
  | CPatchFieldMatch scrutinee arms => Some (λ g,
      let '(s, g) := atomize lower scrutinee g in
      let '(arms, g) := map_state (λ '(MkMatchArm pattern body) g,
          let '(body, g) := low_global (lower body) g in (MkAnfMatchArm pattern body, g)) arms g in
      (AMatch s arms, g))
  | CIndexGet collection index => Some (λ g,
      let '(c, g) := atomize lower collection g in
      let '(i, g) := atomize lower index g in (AIndexGet c i, g))
  | CMapNew entries => Some (λ g,
      let '(entries, g) := map_state (λ '(k, v) g,
          let '(k, g) := atomize lower k g in
          let '(v, g) := atomize lower v g in ((k, v), g)) entries g in
      (AMapNew entries, g))
  | CSetNew elements => Some (λ g, let '(elems, g) := map_state (atomize lower) elements g in (ASetNew elems, g))
  | CForEach binding collection body => Some (λ g,
      let '(c, g) := atomize lower collection g in
      let '(body, g) := low_global (lower body) g in (AForEach binding c body, g))
  | CFold init lst func => Some (λ g,
      let '(i, g) := atomize lower init g in
      let '(l, g) := atomize lower lst g in
      let '(f, g) := atomize lower func g in (AFold i l f, g))
  | _ => None
  end.

(** [base.or_else(effects).or_else(concurrency).or_else(extended)]; no expression falls out of it
    ([global_total]). *)
Definition global_arm (lower : CoreExpr → Lowered) (expr : CoreExpr) : Globals → AnfExpr * Globals :=
  match lower_base lower expr with
  | Some f => f
  | None =>
      match lower_effects lower expr with
      | Some f => f
      | None =>
          match lower_concurrency lower expr with
          | Some f => f
          | None => default (λ g, (APlaceholder, g)) (lower_extended lower expr)
          end
      end
  end.

(** The fall-through of the local lowering discards what the global one pushes. *)
Fixpoint lower_expr (expr : CoreExpr) : Lowered :=
  MkLowered
    (match local_arm lower_expr expr with
     | Some f => f
     | None => λ n, let '(e, g) := global_arm lower_expr expr (n, []) in (e, g.1)
     end)
    (global_arm lower_expr expr).

Definition lower_core_expr_to_anf_local (expr : CoreExpr) : N → AnfExpr * N := low_local (lower_expr expr).
Definition lower_core_expr_to_anf (expr : CoreExpr) : Globals → AnfExpr * Globals := low_global (lower_expr expr).
End Lower.

(** The unfolded calls are [lower_core_call_to_anf], as in the source. *)
Lemma calls_unfolded lower func a b n :
  lower_core_binary_to_anf lower func a b n = lower_core_call_to_anf lower func [a; b] n ∧
  lower_core_unary_to_anf lower func a n = lower_core_call_to_anf lower func [a] n.
Proof.
  unfold lower_core_binary_to_anf, lower_core_unary_to_anf, lower_core_call_to_anf, atomize_args, map_state.
  destruct (atomize_local lower a n) as [[x bx] n1]. split; [|done]. by destruct (atomize_local lower b n1) as [[y b'] n2].
Qed.

(** Every expression is handled by one of the four parts: the [unreachable!] of
    [lower_core_expr_to_anf] is not reached. *)
Lemma global_total sr lower e :
  is_Some (lower_base sr lower e) ∨ is_Some (lower_effects sr lower e) ∨
  is_Some (lower_concurrency sr lower e) ∨ is_Some (lower_extended sr lower e).
Proof. destruct e; cbn; eauto 6. Qed.

Lemma lower_expr_unfold sr e :
  lower_expr sr e =
  MkLowered
    (match local_arm (lower_expr sr) e with
     | Some f => f
     | None => λ n, let '(e, g) := global_arm sr (lower_expr sr) e (n, []) in (e, g.1)
     end)
    (global_arm sr (lower_expr sr) e).
Proof. by destruct e. Qed.
