(* ===== verification/LowerSound.v ===== *)
(** * Lowering is sound

    [lower_core_expr_to_anf_local] (Lower.v) preserves the meaning of Core
    expressions (CoreEval.v) on every machine: values, the order of effects,
    loops, early exits and the final state. *)

From stdpp Require Import pretty.
From S2P Require Import Prelude Text GraphTypes Anf ConstFold CoreIr Lower CoreEval.

#[local] Open Scope N_scope.

(* ------------------------------------------------------------------ *)
(** ** The expressions that lower soundly *)

(** Not the name of a temporary *)
Definition name_ok (x : string) : bool := negb (starts_with "anf_" x).

Definition pattern_ok (pattern : string) : bool :=
  match arm_payload_binding pattern with Some x => name_ok x | None => true end.

(** Source names are not names of temporaries, a returned value is a variable,
    and the forms that [lower_core_expr_to_anf_local] leaves to the global
    lowering (lambdas, dispatch, tasks, channels, resources) do not occur. *)
Fixpoint core_ok (e : CoreExpr) : bool :=
  match e with
  | CLiteral _ | CContinue | CAssume _ _ | CAbort _ | CVariantNew _ None => true
  | CVar x | CReturn (CVar x) => name_ok x
  | CLet x a b | CForEach x a b => name_ok x && core_ok a && core_ok b
  | CIf a b c | CFold a b c => core_ok a && core_ok b && core_ok c
  | CMatch s arms => core_ok s && forallb (λ '(MkMatchArm p b), pattern_ok p && core_ok b) arms
  | CCall _ l | CEffectCall _ _ l | CTupleNew l | CListNew l | CSetNew l => forallb core_ok l
  | CAdd a b | CSub a b | CMul a b | CDiv a b | CMod a b | CEq a b | CLt a b | CGt a b | CNe a b | CLe a b
  | CGe a b | CFieldUpdate a _ b | CWhileLoop a b _ | CAnd a b | COr a b | CCellSet a b | CIndexGet a b =>
      core_ok a && core_ok b
  | CNot a | CFieldGet a _ | CVariantNew _ (Some a) | CLoop a _ | CBreak a | CCellNew a | CCellGet a => core_ok a
  | CRecordNew fields => forallb (λ '(_, e), core_ok e) fields
  | CMapNew entries => forallb (λ '(k, v), core_ok k && core_ok v) entries
  | _ => false
  end.

Definition sum_by {A} (f : A → N) (l : list A) : N := foldr (λ x acc, f x + acc) 0 l.
#[global] Arguments sum_by : simpl never.

Lemma sum_by_cons {A} (f : A → N) x l : sum_by f (x :: l) = f x + sum_by f l.
Proof. done. Qed.

(** A bound on the temporaries: the number of proper sub-expressions *)
Fixpoint temps (e : CoreExpr) : N :=
  match e with
  | CLet _ a b | CForEach _ a b | CAdd a b | CSub a b | CMul a b | CDiv a b | CMod a b | CEq a b | CLt a b
  | CGt a b | CNe a b | CLe a b | CGe a b | CFieldUpdate a _ b | CWhileLoop a b _ | CAnd a b | COr a b
  | CCellSet a b | CIndexGet a b => (1 + temps a) + (1 + temps b)
  | CIf a b c | CFold a b c => (1 + temps a) + (1 + temps b) + (1 + temps c)
  | CMatch s arms => (1 + temps s) + sum_by (λ '(MkMatchArm _ b), 1 + temps b) arms
  | CCall _ l | CEffectCall _ _ l | CTupleNew l | CListNew l | CSetNew l => sum_by (λ a, 1 + temps a) l
  | CNot a | CFieldGet a _ | CVariantNew _ (Some a) | CLoop a _ | CBreak a | CCellNew a | CCellGet a => 1 + temps a
  | CRecordNew fields => sum_by (λ '(_, a), 1 + temps a) fields
  | CMapNew entries => sum_by (λ '(k, v), (1 + temps k) + (1 + temps v)) entries
  | _ => 0
  end.

(* ------------------------------------------------------------------ *)
(** ** Temporaries *)

Lemma map_state_cons {A B S} (f : A → S → B * S) x l s :
  map_state f (x :: l) s = let '(y, s) := f x s in let '(k, s) := map_state f l s in (y :: k, s).
Proof. done. Qed.

#[global] Instance fresh_name_inj : Inj (=) (=) fresh_name.
Proof. intros a b H. unfold fresh_name in H. apply (inj (String.app "anf_")) in H. by apply (inj pretty) in H. Qed.

Lemma fresh_not_ok n x : name_ok x = true → x ≠ fresh_name n.
Proof. unfold name_ok. rewrite negb_true_iff, <- not_true_iff_false, starts_with_iff. intros Hx ->. apply Hx. by exists (pretty n). Qed.

Lemma next_fresh_small n : n + 1 < 2 ^ 32 → next_fresh n = n + 1.
Proof. intros Hn. unfold next_fresh, as_u32, u32_modulus. by apply N.mod_small. Qed.

Lemma wrap_cons b bs body : wrap_local_bindings (b :: bs) body = wrap_binding (Some b) (wrap_local_bindings bs body).
Proof. destruct b as [x v]. unfold wrap_binding, wrap_local_bindings. by rewrite reverse_cons, foldl_app. Qed.

Lemma wrap_atom {A} (f : A → option Temp) a l body :
  wrap_local_bindings (omap f (a :: l)) body = wrap_binding (f a) (wrap_local_bindings (omap f l) body).
Proof. cbn. destruct (f a); [apply wrap_cons|done]. Qed.

(* ------------------------------------------------------------------ *)
(** ** Scopes *)

(** The induction hypotheses, one by one *)
Ltac split_children IH :=
  repeat match type of IH with Forall _ (_ :: _) => let H := fresh "IHe" in apply Forall_cons in IH as [H IH] end.

Section Sound.
Context `{M : Machine} (source_ref : NodeRef).

Abbreviation Env := (gmap string m_val).
Abbreviation Run := (option (Outcome * m_state)).
Abbreviation low e := (low_local (lower_expr source_ref e)).
Abbreviation atom e := (atomize_local (lower_expr source_ref) e).

(** The scopes agree on the names of the source. *)
Definition agrees (ρ ρ' : Env) : Prop := ∀ x, name_ok x = true → ρ' !! x = ρ !! x.

(** The temporaries below [n] keep their values. *)
Definition extends (n : N) (ρ ρ' : Env) : Prop := ∀ j, j < n → ρ' !! fresh_name j = ρ !! fresh_name j.

(** A name keeps its value whatever later temporaries are bound. *)
Definition holds (n : N) (ρ ρ' : Env) (x : string) (v : m_val) : Prop :=
  ∀ ρ'', agrees ρ ρ'' → extends n ρ' ρ'' → ρ'' !! x = Some v.

Lemma agrees_insert ρ ρ' x v : agrees ρ ρ' → agrees (<[x := v]> ρ) (<[x := v]> ρ').
Proof.
  intros Ha y Hy. destruct (decide (x = y)) as [->|Hn]; [by rewrite !lookup_insert_eq|].
  rewrite !lookup_insert_ne by done. by apply Ha.
Qed.

Lemma agrees_temp ρ ρ' n v : agrees ρ ρ' → agrees ρ (<[fresh_name n := v]> ρ').
Proof. intros Ha y Hy. rewrite lookup_insert_ne; [by apply Ha|]. intros <-. by eapply (fresh_not_ok n). Qed.

Lemma extends_temp n j ρ v : n ≤ j → extends n ρ (<[fresh_name j := v]> ρ).
Proof. intros Hn i Hi. rewrite lookup_insert_ne; [done|]. intros ?%(inj _). lia. Qed.

Lemma extends_trans n m ρ1 ρ2 ρ3 : n ≤ m → extends n ρ1 ρ2 → extends m ρ2 ρ3 → extends n ρ1 ρ3.
Proof. intros Hn H12 H23 j Hj. rewrite H23 by lia. by apply H12. Qed.

Lemma holds_weaken n m ρ ρ1 ρ2 x v : n ≤ m → extends n ρ1 ρ2 → holds n ρ ρ1 x v → holds m ρ ρ2 x v.
Proof. intros Hn He Hh ρ3 Ha H3. apply Hh; [done|]. exact (extends_trans _ _ _ _ _ Hn He H3). Qed.

Lemma holds_now n ρ ρ' x v : agrees ρ ρ' → holds n ρ ρ' x v → ρ' !! x = Some v.
Proof. intros Ha Hh. apply Hh; [done|]. by intros j _. Qed.

Lemma bind_payload_agrees p w ρ ρ' : agrees ρ ρ' → agrees (bind_payload p w ρ) (bind_payload p w ρ').
Proof. intros Ha. unfold bind_payload. destruct (arm_payload_binding p), w; try done. by apply agrees_insert. Qed.

Lemma and_then_mono (r r' : Run) k k' (o : Outcome * m_state) :
  (∀ o, r = Some o → r' = Some o) → (∀ v σ, k v σ = Some o → k' v σ = Some o) →
  and_then r k = Some o → and_then r' k' = Some o.
Proof.
  intros Hr Hk. destruct r as [o'|] eqn:E; [|done]. rewrite (Hr o') by done. destruct o' as [[] σ]; cbn; try done. apply Hk.
Qed.

(* ------------------------------------------------------------------ *)
(** ** Operands *)

(** The lowering of [e] keeps its runs and uses at most [temps e] temporaries. *)
Definition keeps (e : CoreExpr) : Prop :=
  core_ok e = true → ∀ n, n + temps e < 2 ^ 32 →
  ∃ a n', low e n = (a, n') ∧ n ≤ n' ≤ n + temps e ∧
    ∀ fuel ρ ρ' σ o, agrees ρ ρ' → crun fuel ρ e σ = Some o → arun fuel ρ' a σ = Some o.

(** After an operand is made atomic, the rest runs in a scope where its name holds its value. *)
Definition atom_keeps (e : CoreExpr) : Prop :=
  core_ok e = true → ∀ n, n + (1 + temps e) < 2 ^ 32 →
  ∃ x b n', atom e n = ((x, b), n') ∧ n ≤ n' ≤ n + (1 + temps e) ∧
    ∀ fuel ρ ρ' σ o k body, agrees ρ ρ' → and_then (crun fuel ρ e σ) k = Some o →
      (∀ v σ' ρ'', agrees ρ ρ'' → extends n ρ' ρ'' → holds n' ρ ρ'' x v → k v σ' = Some o →
         arun fuel ρ'' body σ' = Some o) →
      arun fuel ρ' (wrap_binding b body) σ = Some o.

Lemma var_or_not (e : CoreExpr) : (∃ x, e = CVar x) ∨ ∀ x, e ≠ CVar x.
Proof. destruct e; eauto. Qed.

Lemma keeps_atom e : keeps e → atom_keeps e.
Proof.
  intros Hk Hok n Hn. destruct (var_or_not e) as [[x ->]|Hv].
  { exists x, None, n. split; [done|]. split; [cbn in *; lia|]. intros fuel ρ ρ' σ o k body Ha Hr Hbody. cbn in *.
    destruct (ρ !! x) as [v|] eqn:Ex; [|done]. cbn in Hr. apply (Hbody v); [done|by intros ? _| |done].
    intros ρ3 H3 _. by rewrite H3. }
  destruct (Hk Hok n) as (a & n' & Hlow & Hb & Hs); [lia|].
  exists (fresh_name n'), (Some (fresh_name n', a)), (n' + 1).
  assert (atom e n = ((fresh_name n', Some (fresh_name n', a)), n' + 1)) as ->.
  { unfold atomize_local. destruct e; try (rewrite Hlow, next_fresh_small; [done|lia]). by destruct (Hv name). }
  split; [done|]. split; [lia|]. intros fuel ρ ρ' σ o k body Ha Hr Hbody. cbn.
  destruct (crun fuel ρ e σ) as [[r σ']|] eqn:Er; [|done]. apply Hs with (ρ' := ρ') in Er; [|done]. rewrite Er.
  destruct r as [v| | | |]; cbn in *; try done.
  apply (Hbody v); [by apply agrees_temp|apply extends_temp; lia| |done].
  intros ρ3 H3 He. rewrite He by lia. by rewrite lookup_insert_eq.
Qed.

(** The operands of a list *)
Lemma atoms_keep l :
  Forall atom_keeps l → forallb core_ok l = true → ∀ n, n + sum_by (λ e, 1 + temps e) l < 2 ^ 32 →
  ∃ atoms n', map_state (atomize_local (lower_expr source_ref)) l n = (atoms, n') ∧
    n ≤ n' ≤ n + sum_by (λ e, 1 + temps e) l ∧
    ∀ fuel ρ ρ' σ o k body, agrees ρ ρ' → run_all (crun fuel ρ) l σ k = Some o →
      (∀ vs σ' ρ'', agrees ρ ρ'' → extends n ρ' ρ'' → Forall2 (holds n' ρ ρ'') atoms.*1 vs → k vs σ' = Some o →
         arun fuel ρ'' body σ' = Some o) →
      arun fuel ρ' (wrap_local_bindings (omap snd atoms) body) σ = Some o.
Proof.
  induction 1 as [|e l He Hl IH]; intros Hok n Hn.
  { exists [], n. split; [done|]. split; [cbn; lia|]. intros fuel ρ ρ' σ o k body Ha Hr Hbody. cbn in *.
    apply (Hbody []); [done|by intros ? _|constructor|done]. }
  cbn in Hok. apply andb_true_iff in Hok as [Hok Hokl]. rewrite sum_by_cons in *.
  destruct (He Hok n) as (x & b & n1 & Hat & Hb1 & Hs); [lia|].
  destruct (IH Hokl n1) as (atoms & n2 & Hms & Hb2 & Hss); [lia|].
  exists ((x, b) :: atoms), n2. rewrite map_state_cons, Hat. cbv beta iota. rewrite Hms. split; [done|]. split; [lia|].
  intros fuel ρ ρ' σ o k body Ha Hr Hbody. rewrite (wrap_atom snd). cbn in Hr. eapply Hs; [done|exact Hr|].
  intros v σ1 ρ1 Ha1 He1 Hh Hk. eapply Hss; [done|exact Hk|].
  intros vs σ2 ρ2 Ha2 He2 Hvs Hk2. eapply (Hbody (v :: vs)); [done| |cbn; constructor; [|done]|done].
  - eapply extends_trans; [|done|done]. lia.
  - eapply holds_weaken; [|exact He2|exact Hh]. lia.
Qed.

(* ------------------------------------------------------------------ *)
(** ** Primitive operations *)

Lemma holds_all n ρ ρ' names vs : agrees ρ ρ' → Forall2 (holds n ρ ρ') names vs → mapM (λ x, ρ' !! x) names = Some vs.
Proof. intros Ha Hf. apply mapM_Some. eapply Forall2_impl; [exact Hf|]. intros x v. by apply holds_now. Qed.

(** [mk names] runs primitive [p] on the values of [names]. *)
Definition runs_prim (mk : list string → AnfExpr) (p : Prim) : Prop :=
  ∀ fuel ρ names vs σ o,
    mapM (λ x, ρ !! x) names = Some vs → primitive p vs σ = Some o → arun fuel ρ (mk names) σ = Some o.

(** What [keeps] asks of a lowering [r] of [e] *)
Definition kept (e : CoreExpr) (n : N) (r : AnfExpr * N) : Prop :=
  n ≤ r.2 ≤ n + temps e ∧
  ∀ fuel ρ ρ' σ o, agrees ρ ρ' → crun fuel ρ e σ = Some o → arun fuel ρ' r.1 σ = Some o.

Lemma keeps_kept e : (core_ok e = true → ∀ n, n + temps e < 2 ^ 32 → kept e n (low e n)) → keeps e.
Proof. intros H Hok n Hn. destruct (H Hok n Hn) as [Hb Hs]. exists (low e n).1, (low e n).2. by destruct (low e n). Qed.

Lemma list_kept e l (mk : list string → AnfExpr) p n :
  runs_prim mk p → temps e = sum_by (λ a, 1 + temps a) l →
  (∀ fuel ρ σ, crun fuel ρ e σ = run_all (crun fuel ρ) l σ (primitive p)) →
  Forall atom_keeps l → forallb core_ok l = true → n + temps e < 2 ^ 32 →
  kept e n (let '(names, bindings, n) := atomize_args (lower_expr source_ref) l n in
            (wrap_local_bindings bindings (mk names), n)).
Proof.
  intros Hmk Ht Hc Hl Hok Hn. rewrite Ht in Hn. destruct (atoms_keep l Hl Hok n Hn) as (atoms & n' & Hms & Hb & Hs).
  unfold atomize_args. rewrite Hms. split; [cbn; by rewrite Ht|]. intros fuel ρ ρ' σ o Ha Hr. rewrite Hc in Hr. cbn [fst].
  eapply Hs; [exact Ha|exact Hr|]. intros vs σ' ρ'' Ha' _ Hvs Ho. eapply Hmk; [by eapply holds_all|done].
Qed.

Lemma two_kept e a1 a2 (mk : string → string → AnfExpr) p n :
  (∀ fuel ρ x y v w σ o, ρ !! x = Some v → ρ !! y = Some w → primitive p [v; w] σ = Some o →
     arun fuel ρ (mk x y) σ = Some o) →
  temps e = (1 + temps a1) + (1 + temps a2) →
  (∀ fuel ρ σ, crun fuel ρ e σ =
     and_then (crun fuel ρ a1 σ) (λ v σ, and_then (crun fuel ρ a2 σ) (λ w, primitive p [v; w]))) →
  atom_keeps a1 → atom_keeps a2 → core_ok a1 && core_ok a2 = true → n + temps e < 2 ^ 32 →
  kept e n (let '((x, b), n) := atom a1 n in let '((y, c), n) := atom a2 n in
            (wrap_local_bindings (omap id [b; c]) (mk x y), n)).
Proof.
  intros Hmk Ht Hc H1 H2 [Hok1 Hok2]%andb_true_iff Hn. rewrite Ht in Hn.
  destruct (H1 Hok1 n) as (x & b & n1 & Hat1 & Hb1 & Hs1); [lia|].
  destruct (H2 Hok2 n1) as (y & c & n2 & Hat2 & Hb2 & Hs2); [lia|].
  rewrite Hat1, Hat2. split; [cbn; rewrite Ht; lia|]. intros fuel ρ ρ' σ o Hag Hr. rewrite Hc in Hr. cbn [fst].
  rewrite !(wrap_atom id). eapply Hs1; [exact Hag|exact Hr|]. intros v σ1 ρ1 Ha1 _ Hv Ho.
  eapply Hs2; [exact Ha1|exact Ho|]. intros w σ2 ρ2 Ha2 He2 Hw Ho2. apply (Hmk fuel ρ2 x y v w); [|by eapply holds_now|done].
  eapply (holds_now n2); [done|]. eapply holds_weaken; [|exact He2|exact Hv]. lia.
Qed.
Lemma run_vars fuel ρ names vs σ k :
  mapM (λ x, ρ !! x) names = Some vs → run_all (arun fuel ρ) (AVar <$> names) σ k = k vs σ.
Proof.
  revert vs k. induction names as [|x names IH]; intros vs k; cbn [mapM]; [by intros [= <-]|].
  intros (v & Hv & (vs' & Hvs & [= <-])%bind_Some)%bind_Some. cbn. rewrite Hv. cbn. by rewrite (IH vs').
Qed.

(** Records and maps are lowered like the list of their operands. *)
Definition flat_entries (entries : list (CoreExpr * CoreExpr)) : list CoreExpr := entries ≫= λ '(k, v), [k; v].

Lemma fields_atoms (fields : list (string * CoreExpr)) n :
  map_state (λ '(field, value) n, let '(a, n) := atom value n in ((field, a), n)) fields n =
  let '(atoms, n) := map_state (atomize_local (lower_expr source_ref)) fields.*2 n in (zip fields.*1 atoms, n).
Proof.
  revert n. induction fields as [|[f e] l IH]; intros n; [done|]. rewrite !fmap_cons, !map_state_cons. cbn [fst snd].
  destruct (atom e n) as [a n1]. cbv beta iota. rewrite IH. by destruct (map_state _ l.*2 n1).
Qed.

Lemma fields_run fuel ρ (fields : list (string * CoreExpr)) σ k :
  run_all (λ '(_, e), crun fuel ρ e) fields σ k = run_all (crun fuel ρ) fields.*2 σ k.
Proof.
  revert σ k. induction fields as [|[f e] l IH]; intros σ k; [done|]. cbn. destruct (crun fuel ρ e σ) as [[[] ?]|]; cbn; auto.
Qed.

Lemma fields_sum (fields : list (string * CoreExpr)) :
  sum_by (λ '(_, a), 1 + temps a) fields = sum_by (λ a, 1 + temps a) fields.*2.
Proof. induction fields as [|[f e] l IH]; [done|]. rewrite fmap_cons, !sum_by_cons. cbn [snd]. by rewrite IH. Qed.

Lemma fields_ok (fields : list (string * CoreExpr)) :
  forallb (λ '(_, e), core_ok e) fields = forallb core_ok fields.*2.
Proof. induction fields as [|[f e] l IH]; [done|]. cbn. by rewrite IH. Qed.

Lemma entries_atoms entries n :
  ∃ atoms n', map_state (λ '(k, v) n, let '(k, n) := atom k n in let '(v, n) := atom v n in ((k, v), n)) entries n = (atoms, n') ∧
    map_state (atomize_local (lower_expr source_ref)) (flat_entries entries) n = (atoms ≫= λ a, [a.1; a.2], n').
Proof.
  revert n. induction entries as [|[k v] l IH]; intros n; [by exists [], n|].
  unfold flat_entries. rewrite bind_cons. cbn [app]. rewrite !map_state_cons. destruct (atom k n) as [ka n1].
  destruct (atom v n1) as [va n2] eqn:Ev. destruct (IH n2) as (atoms & n3 & Hm & Hf). exists ((ka, va) :: atoms), n3.
  rewrite Hm. cbv beta iota. split; [done|]. rewrite map_state_cons, Ev. cbv beta iota. unfold flat_entries in Hf. by rewrite Hf.
Qed.

Lemma entries_run fuel ρ entries σ k : run_pairs (crun fuel ρ) entries σ k = run_all (crun fuel ρ) (flat_entries entries) σ k.
Proof.
  revert σ k. induction entries as [|[x y] l IH]; intros σ k; [done|]. cbn.
  destruct (crun fuel ρ x σ) as [[[] σ1]|]; cbn; try done. destruct (crun fuel ρ y σ1) as [[[] ?]|]; cbn; auto.
Qed.

Lemma entries_sum entries :
  sum_by (λ '(k, v), (1 + temps k) + (1 + temps v)) entries = sum_by (λ a, 1 + temps a) (flat_entries entries).
Proof.
  induction entries as [|[k v] l IH]; [done|]. unfold flat_entries. rewrite bind_cons. cbn [app]. rewrite !sum_by_cons, IH.
  unfold flat_entries. lia.
Qed.

Lemma entries_ok entries :
  forallb (λ '(k, v), core_ok k && core_ok v) entries = forallb core_ok (flat_entries entries).
Proof. induction entries as [|[k v] l IH]; [done|]. cbn. rewrite IH. by rewrite andb_assoc. Qed.

(* ------------------------------------------------------------------ *)
(** ** Branches and loops *)

(** A condition, scrutinee or collection, then something that depends on its value *)
Lemma head_kept e a (t : N) (rest : string → N → AnfExpr * N) k n r :
  (∀ x b n1, atom a n = (x, b, n1) → r = (wrap_binding b (rest x n1).1, (rest x n1).2)) →
  temps e = (1 + temps a) + t →
  (∀ fuel ρ σ, crun fuel ρ e σ = and_then (crun fuel ρ a σ) (k fuel ρ)) →
  atom_keeps a → core_ok a = true → n + temps e < 2 ^ 32 →
  (∀ x n1, n1 + t < 2 ^ 32 →
     n1 ≤ (rest x n1).2 ≤ n1 + t ∧
     ∀ fuel ρ ρ' σ v o, agrees ρ ρ' → ρ' !! x = Some v → k fuel ρ v σ = Some o → arun fuel ρ' (rest x n1).1 σ = Some o) →
  kept e n r.
Proof.
  intros Hr Ht Hc Ha Hok Hn Hrest. rewrite Ht in Hn. destruct (Ha Hok n) as (x & b & n1 & Hat & Hb & Hs); [lia|].
  destruct (Hrest x n1) as [Hb1 Hs1]; [lia|]. rewrite (Hr _ _ _ Hat). destruct (rest x n1) as [r' n2]. cbn [fst snd] in *.
  split; [cbn; rewrite Ht; lia|]. intros fuel ρ ρ' σ o Hag Hcr. rewrite Hc in Hcr. cbn [fst].
  eapply Hs; [exact Hag|exact Hcr|]. intros v σ1 ρ1 Ha1 _ Hv Ho. eapply Hs1; [done|by eapply holds_now|exact Ho].
Qed.

Lemma loop_mono fuel (f g : m_state → Run) σ o :
  (∀ σ o, f σ = Some o → g σ = Some o) → loop_run fuel f σ = Some o → loop_run fuel g σ = Some o.
Proof.
  intros Hfg. revert σ. induction fuel as [|fuel IH]; intros σ; [done|]. cbn [loop_run].
  destruct (f σ) as [[r σ']|] eqn:Ef; [|done]. rewrite (Hfg _ _ Ef). destruct r; auto.
Qed.

Lemma each_mono (f g : m_val → m_state → Run) vs σ o :
  (∀ v σ o, f v σ = Some o → g v σ = Some o) → each_run f vs σ = Some o → each_run g vs σ = Some o.
Proof.
  intros Hfg. revert σ. induction vs as [|v vs IH]; intros σ; [done|]. cbn [each_run].
  destruct (f v σ) as [[r σ']|] eqn:Ef; [|done]. rewrite (Hfg _ _ _ Ef). destruct r; auto.
Qed.

(** The loop that [lower_while] makes runs like the [while]. *)
Lemma while_loop fuel (c b : m_state → Run) (body : m_state → Run) σ o :
  (∀ σ o, c σ = Some o → o.1 = OContinue ∨ (∃ v, o.1 = OBreak v) ∨ (∃ v, o.1 = OReturn v) ∨ (∃ m, o.1 = OAbort m) →
     body σ = Some o) →
  (∀ σ v σ', c σ = Some (OVal v, σ') →
     ∀ t, m_truth v = Some t → ∀ o, (if (t : bool) then and_then (b σ') (λ _ σ, Some (OContinue, σ))
                            else Some (OBreak m_unit, σ')) = Some o → body σ = Some o) →
  while_run fuel c b σ = Some o → and_then (loop_run fuel body σ) (λ _ σ, Some (OVal m_unit, σ)) = Some o.
Proof.
  intros He Hv. revert σ. induction fuel as [|fuel IH]; intros σ; [done|]. cbn [while_run loop_run].
  destruct (c σ) as [[r σ1]|] eqn:Ec; [|done].
  destruct r as [v|v| |v|m]; try (rewrite (He _ _ Ec) by naive_solver; cbn; auto).
  destruct (m_truth v) as [[]|] eqn:Et; [| |done]; pose proof (Hv _ _ _ Ec _ Et) as Hb; cbn in Hb.
  - destruct (b σ1) as [[r2 σ2]|] eqn:Eb; [|done]. cbn in Hb. destruct r2; rewrite (Hb _ eq_refl); cbn; auto.
  - rewrite (Hb _ eq_refl). cbn. auto.
Qed.

Lemma arms_kept (arms : list MatchArm) n :
  Forall keeps (ma_body <$> arms) → forallb (λ '(MkMatchArm p b), pattern_ok p && core_ok b) arms = true →
  n + sum_by (λ '(MkMatchArm _ b), 1 + temps b) arms < 2 ^ 32 →
  let r := map_state (λ '(MkMatchArm pattern body) n,
             let '(body, n) := low body n in (MkAnfMatchArm pattern body, n)) arms n in
  n ≤ r.2 ≤ n + sum_by (λ '(MkMatchArm _ b), 1 + temps b) arms ∧
  ∀ fuel ρ ρ' σ v o, agrees ρ ρ' →
    run_arms ma_pattern (λ '(MkMatchArm _ body) ρ, crun fuel ρ body) v ρ arms σ = Some o →
    run_arms arm_pattern (λ '(MkAnfMatchArm _ body) ρ, arun fuel ρ body) v ρ' r.1 σ = Some o.
Proof.
  revert n. induction arms as [|[p b] l IH]; intros n Hk Hok Hn; [split; [unfold sum_by, map_state; cbn; lia|done]|].
  rewrite fmap_cons in Hk. apply Forall_cons in Hk as [Hb Hk]. cbn [forallb] in Hok.
  apply andb_true_iff in Hok as [[Hp Hokb]%andb_true_iff Hok]. rewrite sum_by_cons in *. cbv beta iota in Hn |- *.
  rewrite map_state_cons. destruct (Hb Hokb n) as (a & n1 & Hlow & Hb1 & Hs); [cbn [ma_body] in *; lia|]. cbn [ma_body] in *. rewrite Hlow.
  cbv beta iota. destruct (IH n1 Hk Hok) as [Hb2 Hs2]; [lia|]. destruct (map_state _ l n1) as [r n2]. cbn [fst snd] in *.
  split; [lia|]. intros fuel ρ ρ' σ v o Ha. cbn. destruct (m_matches p v σ) as [w|]; [|by apply Hs2].
  apply Hs. by apply bind_payload_agrees.
Qed.

(* ------------------------------------------------------------------ *)
(** ** All expressions *)

Lemma runs_names (mk : list string → AnfExpr) p :
  (∀ fuel ρ names σ, arun fuel ρ (mk names) σ = prim_names p names ρ σ) → runs_prim mk p.
Proof. intros Hmk fuel ρ names vs σ o Hvs Ho. rewrite Hmk. unfold prim_names. by rewrite Hvs. Qed.
Lemma runs_vars (mk : list AnfExpr → AnfExpr) p :
  (∀ fuel ρ l σ, arun fuel ρ (mk l) σ = run_all (arun fuel ρ) l σ (primitive p)) → runs_prim (λ xs, mk (AVar <$> xs)) p.
Proof. intros Hmk fuel ρ names vs σ o Hvs Ho. by rewrite Hmk, (run_vars _ _ _ vs). Qed.

Ltac by_names := intros; cbn; unfold prim_names; cbn; by simplify_option_eq.

Lemma unary_kept e a (mk : string → AnfExpr) p n r :
  (∀ x b n1, atom a n = (x, b, n1) → r = (wrap_binding b (mk x), n1)) →
  temps e = 1 + temps a → (∀ fuel ρ σ, crun fuel ρ e σ = and_then (crun fuel ρ a σ) (λ v, primitive p [v])) →
  atom_keeps a → core_ok a = true → n + temps e < 2 ^ 32 →
  (∀ fuel ρ x v σ o, ρ !! x = Some v → primitive p [v] σ = Some o → arun fuel ρ (mk x) σ = Some o) →
  kept e n r.
Proof.
  intros Hr Ht Hc Ha Hok Hn Hmk. apply (head_kept e a 0 (λ x n, (mk x, n)) (λ _ _ v, primitive p [v])); try done; [lia|].
  intros x n1 Hn1. split; [cbn; lia|]. intros fuel ρ ρ' σ v o Hag Hx Ho. by eapply Hmk.
Qed.

Lemma binary_kept e func a b n :
  temps e = (1 + temps a) + (1 + temps b) →
  (∀ fuel ρ σ, crun fuel ρ e σ =
     and_then (crun fuel ρ a σ) (λ v σ, and_then (crun fuel ρ b σ) (λ w, primitive (PCall func) [v; w]))) →
  atom_keeps a → atom_keeps b → core_ok a && core_ok b = true → n + temps e < 2 ^ 32 →
  kept e n (lower_core_binary_to_anf (lower_expr source_ref) func a b n).
Proof. intros. apply (two_kept e a b (λ x y, ACall func [x; y]) (PCall func)); try done. by_names. Qed.

Lemma fold_kept a b c n :
  atom_keeps a → atom_keeps b → atom_keeps c → core_ok (CFold a b c) = true → n + temps (CFold a b c) < 2 ^ 32 →
  kept (CFold a b c) n (let '((x, bx), n) := atom a n in let '((y, by_), n) := atom b n in let '((z, bz), n) := atom c n in
            (wrap_local_bindings (omap id [bx; by_; bz]) (AFold x y z), n)).
Proof.
  intros H1 H2 H3 Hok Hn. cbn in Hok. apply andb_true_iff in Hok as [[Hok1 Hok2]%andb_true_iff Hok3]. cbn [temps] in Hn.
  destruct (H1 Hok1 n) as (x & bx & n1 & -> & Hb1 & Hs1); [lia|].
  destruct (H2 Hok2 n1) as (y & by_ & n2 & -> & Hb2 & Hs2); [lia|].
  destruct (H3 Hok3 n2) as (z & bz & n3 & -> & Hb3 & Hs3); [lia|].
  split; [cbn; lia|]. intros fuel ρ ρ' σ o Ha Hr. cbn [crun] in Hr. cbn [fst]. rewrite !(wrap_atom id).
  eapply Hs1; [exact Ha|exact Hr|]. intros v σ1 ρ1 Ha1 _ Hv Ho. cbv beta in Ho.
  eapply Hs2; [exact Ha1|exact Ho|]. intros w σ2 ρ2 Ha2 He2 Hw Ho2. cbv beta in Ho2.
  eapply Hs3; [exact Ha2|exact Ho2|]. intros u σ3 ρ3 Ha3 He3 Hu Ho3. cbv beta in Ho3.
  change (prim_names PFold [x; y; z] ρ3 σ3 = Some o). unfold prim_names.
  rewrite (holds_all n3 ρ _ _ [v; w; u]); [done|done|]. repeat constructor; [| |done].
  - apply (holds_weaken n1 n3 ρ ρ1); [lia| |done]. eapply extends_trans; [|exact He2|exact He3]. lia.
  - eapply holds_weaken; [|exact He3|exact Hw]. lia.
Qed.

Lemma record_kept fields n :
  Forall atom_keeps fields.*2 → core_ok (CRecordNew fields) = true → n + temps (CRecordNew fields) < 2 ^ 32 →
  kept (CRecordNew fields) n
    (let '(atoms, n) := map_state (λ '(field, value) n, let '(a, n) := atom value n in ((field, a), n)) fields n in
     (wrap_local_bindings (omap (snd ∘ snd) atoms) (ARecordNew ((λ a, (a.1, AVar a.2.1)) <$> atoms)), n)).
Proof.
  intros Hl Hok Hn. cbn [core_ok temps] in *. rewrite fields_ok in Hok. rewrite fields_sum in Hn.
  destruct (atoms_keep _ Hl Hok n Hn) as (atoms & n' & Hms & Hb & Hs). rewrite fields_atoms, Hms.
  split; [cbn [snd temps]; by rewrite fields_sum|]. intros fuel ρ ρ' σ o Ha Hr. cbn [crun] in Hr. rewrite fields_run in Hr.
  assert (length fields.*1 = length atoms) as Hlen.
  { rewrite length_fmap. clear -Hms. revert n atoms n' Hms. induction fields as [|[f e] l IH]; intros n atoms n'.
    - intros [= <- _]. done.
    - rewrite fmap_cons, map_state_cons. destruct (atom _ n) as [a n1]. destruct (map_state _ l.*2 n1) as [r n2] eqn:E.
      intros [= <- _]. cbn. f_equal. by eapply IH. }
  cbn [fst]. assert (omap (snd ∘ snd) (zip fields.*1 atoms) = omap snd atoms) as ->.
  { clear -Hlen. revert atoms Hlen. induction (fields.*1) as [|f fs IH]; intros [|a atoms]; [done..|]. cbn. intros [= Hl].
    destruct (a.2); by rewrite IH. }
  eapply Hs; [exact Ha|exact Hr|]. intros vs σ1 ρ1 Ha1 _ Hvs Ho. cbn [arun].
  assert ((((λ a : string * (string * option Temp), (a.1, AVar a.2.1)) <$> zip fields.*1 atoms)).*1 = fields.*1) as ->.
  { rewrite <- list_fmap_compose. apply (fst_zip fields.*1 atoms). lia. }
  rewrite <- Ho. rewrite <- (run_vars fuel ρ1 atoms.*1 vs σ1 (primitive (PRecord fields.*1))) by by eapply holds_all.
  clear -Hlen. generalize (primitive (PRecord fields.*1)). generalize σ1. revert atoms Hlen.
  induction (fields.*1) as [|f fs IH]; intros [|a atoms] Hl σ k; try done. cbn. destruct (ρ1 !! a.1); cbn; [|done].
  apply IH. by injection Hl.
Qed.

Lemma map_kept entries n :
  Forall atom_keeps (flat_entries entries) → core_ok (CMapNew entries) = true → n + temps (CMapNew entries) < 2 ^ 32 →
  kept (CMapNew entries) n
    (let '(atoms, n) := map_state (λ '(k, v) n,
        let '(k, n) := atom k n in let '(v, n) := atom v n in ((k, v), n)) entries n in
     (wrap_local_bindings (atoms ≫= λ a, omap snd [a.1; a.2]) (AMapNew ((λ a, (a.1.1, a.2.1)) <$> atoms)), n)).
Proof.
  intros Hl Hok Hn. cbn [core_ok temps] in *. rewrite entries_ok in Hok. rewrite entries_sum in Hn.
  destruct (atoms_keep _ Hl Hok n Hn) as (flat & n' & Hms & Hb & Hs).
  destruct (entries_atoms entries n) as (atoms & n2 & -> & Hf). rewrite Hms in Hf. injection Hf as -> ->.
  split; [cbn [snd temps]; by rewrite entries_sum|]. intros fuel ρ ρ' σ o Ha Hr. cbn [crun] in Hr. rewrite entries_run in Hr.
  cbn [fst]. assert ((atoms ≫= λ a, omap snd [a.1; a.2]) = omap snd (atoms ≫= λ a, [a.1; a.2])) as ->.
  { clear. induction atoms as [|[[x bx] [y b]] l IH]; [done|]. rewrite !bind_cons, IH. cbn. by destruct bx, b. }
  eapply Hs; [exact Ha|exact Hr|]. intros vs σ1 ρ1 Ha1 _ Hvs Ho. cbn [arun]. unfold prim_names.
  assert (((λ a : (string * option Temp) * (string * option Temp), (a.1.1, a.2.1)) <$> atoms) ≫= (λ '(k, v), [k; v])
          = (atoms ≫= λ a, [a.1; a.2]).*1) as ->.
  { clear. induction atoms as [|[[x bx] [y b]] l IH]; [done|]. rewrite fmap_cons, !bind_cons, fmap_app. by rewrite IH. }
  by rewrite (holds_all n2 ρ _ _ vs).
Qed.

Lemma let_kept x a b n :
  keeps a → keeps b → core_ok (CLet x a b) = true → n + temps (CLet x a b) < 2 ^ 32 →
  kept (CLet x a b) n (let '(v, n) := low a n in let '(w, n) := low b n in (ALet x v w, n)).
Proof.
  intros H1 H2 Hok Hn. cbn in Hok. apply andb_true_iff in Hok as [[Hx Hok1]%andb_true_iff Hok2]. cbn [temps] in Hn.
  destruct (H1 Hok1 n) as (v & n1 & -> & Hb1 & Hs1); [lia|]. destruct (H2 Hok2 n1) as (w & n2 & -> & Hb2 & Hs2); [lia|].
  split; [cbn; lia|]. intros fuel ρ ρ' σ o Ha. cbn. apply and_then_mono; [by intros o'; apply Hs1|].
  intros u σ'. by apply Hs2, agrees_insert.
Qed.

Lemma while_kept a b t n :
  keeps a → keeps b → core_ok (CWhileLoop a b t) = true → n + temps (CWhileLoop a b t) < 2 ^ 32 →
  kept (CWhileLoop a b t) n (lower_while (lower_expr source_ref) a b n).
Proof.
  intros H1 H2 Hok Hn. cbn in Hok. apply andb_true_iff in Hok as [Hok1 Hok2]. cbn [temps] in Hn. unfold lower_while.
  destruct (H1 Hok1 n) as (v & n1 & -> & Hb1 & Hs1); [lia|]. rewrite next_fresh_small by lia.
  destruct (H2 Hok2 (n1 + 1)) as (w & n2 & -> & Hb2 & Hs2); [lia|]. rewrite next_fresh_small by lia.
  split; [cbn; lia|]. intros fuel ρ ρ' σ o Ha Hr. cbn [fst arun run_seq]. eapply while_loop; [| |exact Hr].
  - intros σ1 o1 Hc Ho. apply Hs1 with (ρ' := ρ') in Hc; [|done]. cbn. rewrite Hc. destruct o1 as [[] ?]; naive_solver.
  - intros σ1 u σ2 Hc tr Ht o1 Ho. apply Hs1 with (ρ' := ρ') in Hc; [|done]. cbn [arun]. rewrite Hc. cbn.
    rewrite lookup_insert_eq. cbn. rewrite Ht. cbn. destruct tr; [|done].
    revert Ho. apply and_then_mono; [|done]. intros o2. by apply Hs2, agrees_temp.
Qed.

(** One more expression after the head *)
Lemma branch_kept e a b (f : string → AnfExpr → AnfExpr) (k : nat → Env → m_val → m_state → Run) n r :
  (∀ x bx n1, atom a n = (x, bx, n1) → r = (wrap_binding bx (f x (low b n1).1), (low b n1).2)) →
  temps e = (1 + temps a) + (1 + temps b) →
  (∀ fuel ρ σ, crun fuel ρ e σ = and_then (crun fuel ρ a σ) (k fuel ρ)) →
  atom_keeps a → core_ok a = true → keeps b → core_ok b = true → n + temps e < 2 ^ 32 →
  (∀ fuel ρ ρ' σ v o x c, agrees ρ ρ' → ρ' !! x = Some v →
     (∀ ρ ρ' σ o, agrees ρ ρ' → crun fuel ρ b σ = Some o → arun fuel ρ' c σ = Some o) →
     k fuel ρ v σ = Some o → arun fuel ρ' (f x c) σ = Some o) →
  kept e n r.
Proof.
  intros Hr Ht Hc Ha Hok Hk Hokb Hn Hf.
  apply (head_kept e a (1 + temps b) (λ x n, (f x (low b n).1, (low b n).2)) k); try done.
  intros x n1 Hn1. destruct (Hk Hokb n1) as (c & n2 & -> & Hb & Hs); [lia|]. split; [cbn; lia|].
  intros fuel ρ ρ' σ v o Hag Hx Ho. cbn. eapply Hf; [exact Hag|exact Hx| |exact Ho]. intros ρ1 ρ2 σ1 o1. apply Hs.
Qed.

Lemma if_kept a b c n :
  atom_keeps a → keeps b → keeps c → core_ok (CIf a b c) = true → n + temps (CIf a b c) < 2 ^ 32 →
  kept (CIf a b c) n (let '((x, bx), n) := atom a n in let '(t, n) := low b n in let '(f, n) := low c n in
                      (wrap_binding bx (AIf x t f), n)).
Proof.
  intros Ha Hb Hc Hok Hn. cbn in Hok. apply andb_true_iff in Hok as [[Hok1 Hok2]%andb_true_iff Hok3].
  apply (head_kept _ a ((1 + temps b) + (1 + temps c))
    (λ x n, let '(t, n) := low b n in let '(f, n) := low c n in (AIf x t f, n))
    (λ fuel ρ v σ, b' ← m_truth v; if (b' : bool) then crun fuel ρ b σ else crun fuel ρ c σ)); try done.
  { intros x bx n1 ->. destruct (low b n1) as [t n2]. by destruct (low c n2). }
  { cbn [temps]. lia. }
  intros x n1 Hn1. destruct (Hb Hok2 n1) as (t & n2 & -> & Hb2 & Hs2); [lia|].
  destruct (Hc Hok3 n2) as (f & n3 & -> & Hb3 & Hs3); [lia|]. split; [cbn; lia|]. intros fuel ρ ρ' σ v o Hag Hx Ho. cbn.
  rewrite Hx. cbn. destruct (m_truth v) as [[]|]; cbn in *; [by eapply Hs2|by eapply Hs3|done].
Qed.

Lemma match_kept a arms n :
  atom_keeps a → Forall keeps (ma_body <$> arms) → core_ok (CMatch a arms) = true → n + temps (CMatch a arms) < 2 ^ 32 →
  kept (CMatch a arms) n
    (let '((x, bx), n) := atom a n in
     let '(arms, n) := map_state (λ '(MkMatchArm pattern body) n,
         let '(body, n) := low body n in (MkAnfMatchArm pattern body, n)) arms n in
     (wrap_binding bx (AMatch x arms), n)).
Proof.
  intros Ha Hb Hok Hn. cbn [core_ok] in Hok. apply andb_true_iff in Hok as [Hok1 Hok2].
  apply (head_kept _ a (sum_by (λ '(MkMatchArm _ b), 1 + temps b) arms)
    (λ x n, let '(arms, n) := map_state (λ '(MkMatchArm pattern body) n,
         let '(body, n) := low body n in (MkAnfMatchArm pattern body, n)) arms n in (AMatch x arms, n))
    (λ fuel ρ v, run_arms ma_pattern (λ '(MkMatchArm _ body) ρ, crun fuel ρ body) v ρ arms)); try done.
  { intros x bx n1 ->. by destruct (map_state _ arms n1). }
  intros x n1 Hn1. destruct (arms_kept arms n1 Hb Hok2 Hn1) as [Hb2 Hs]. destruct (map_state _ arms n1) as [r n2].
  split; [done|]. intros fuel ρ ρ' σ v o Hag Hx Ho. cbn [arun fst]. rewrite Hx. cbn. by eapply Hs.
Qed.

Lemma keeps_all e : keeps e.
Proof.
  induction e as [e IH] using CoreExpr_children_ind. apply keeps_kept. intros Hok n Hn. rewrite lower_expr_unfold. cbn [low_local].
  assert (Forall atom_keeps (core_children e)) as IHa by (eapply Forall_impl; [exact IH|apply keeps_atom]).
  destruct e; try discriminate Hok; cbn [core_children] in IH, IHa.
  all: try (split_children IH; split_children IHa; cbn [local_arm]; apply binary_kept; done).
  - split; [cbn; lia|]. by intros fuel ρ ρ' σ o Ha.
  - split; [cbn; lia|]. intros fuel ρ ρ' σ o Ha. cbn in *. by rewrite Ha.
  - split_children IH. by apply let_kept.
  - split_children IH; split_children IHa. by apply if_kept.
  - apply Forall_cons in IH as [? IH]. apply Forall_cons in IHa as [? IHa]. by apply match_kept.
  - apply (list_kept _ _ (ACall func) (PCall func)); try done. by apply runs_names.
  - split_children IHa. apply (unary_kept _ e (λ x, ACall "not" [x]) (PCall "not")); try done; [|by_names].
    intros x [b|] n1 E; cbn [local_arm]; unfold lower_core_unary_to_anf; by rewrite E.
  - by apply record_kept.
  - split_children IHa. apply (unary_kept _ e (λ x, AFieldGet x field) (PField field)); try done; [|by_names].
    intros x b n1 E; cbn [local_arm]. by rewrite E.
  - split_children IHa. apply (two_kept _ e1 e2 (λ x y, AFieldUpdate x field (AVar y)) (PUpdate field)); try done.
    intros fuel ρ x y v w σ o Hx Hy Ho. cbn. by rewrite Hx, Hy.
  - apply (list_kept _ _ (λ xs, ATupleNew (AVar <$> xs)) PTuple); try done. by apply runs_vars.
  - destruct payload as [e|]; [|split; [cbn; lia|]; by intros fuel ρ ρ' σ o Ha]. split_children IHa.
    apply (unary_kept _ e (λ x, AVariantNew tag (Some (AVar x))) (PVariant tag)); try done.
    { intros x [b|] n1 E; cbn [local_arm]; by rewrite E. }
    intros fuel ρ x v σ o Hx Ho. cbn. by rewrite Hx.
  - apply (list_kept _ _ (λ xs, AListNew (AVar <$> xs)) PList); try done. by apply runs_vars.
  - split_children IH. cbn [local_arm temps core_ok] in *. destruct (IHe Hok n) as (a & n1 & -> & Hb & Hs); [lia|].
    split; [cbn; lia|]. intros fuel ρ ρ' σ o Ha. cbn. apply loop_mono. intros σ1 o1. by apply Hs.
  - split_children IH. cbn [local_arm temps core_ok] in *. destruct (IHe Hok n) as (a & n1 & -> & Hb & Hs); [lia|].
    split; [cbn; lia|]. intros fuel ρ ρ' σ o Ha. cbn. apply and_then_mono; [by intros o1; apply Hs|done].
  - split; [cbn; lia|]. by intros fuel ρ ρ' σ o Ha.
  - split_children IH. by apply while_kept.
  - split_children IH; split_children IHa. cbn in Hok. apply andb_true_iff in Hok as [Hok1 Hok2].
    apply (branch_kept _ e1 e2 AShortCircuitAnd
      (λ fuel ρ v σ, t ← m_truth v; if (t : bool) then crun fuel ρ e2 σ else Some (OVal (m_literal (LBool false)), σ))); try done.
    { intros x b n1 E. cbn [local_arm]. rewrite E. by destruct (low e2 n1). }
    intros fuel ρ ρ' σ v o x c Hag Hx Hs. cbn. rewrite Hx. cbn. destruct (m_truth v) as [[]|]; cbn; try done. by apply Hs.
  - split_children IH; split_children IHa. cbn in Hok. apply andb_true_iff in Hok as [Hok1 Hok2].
    apply (branch_kept _ e1 e2 AShortCircuitOr
      (λ fuel ρ v σ, t ← m_truth v; if (t : bool) then Some (OVal (m_literal (LBool true)), σ) else crun fuel ρ e2 σ)); try done.
    { intros x b n1 E. cbn [local_arm]. rewrite E. by destruct (low e2 n1). }
    intros fuel ρ ρ' σ v o x c Hag Hx Hs. cbn. rewrite Hx. cbn. destruct (m_truth v) as [[]|]; cbn; try done. by apply Hs.
  - apply (list_kept _ _ (AEffectCall capability func) (PEffect capability func)); try done. by apply runs_names.
  - split_children IHa. apply (unary_kept _ e ACellNew PCellNew); try done; [|by_names].
    intros x b n1 E; cbn [local_arm]. by rewrite E.
  - split_children IHa. apply (unary_kept _ e ACellGet PCellGet); try done; [|by_names].
    intros x b n1 E; cbn [local_arm]. by rewrite E.
  - split_children IHa. apply (two_kept _ e1 e2 ACellSet PCellSet); try done. by_names.
  - split_children IH; split_children IHa. cbn in Hok. apply andb_true_iff in Hok as [[Hx Hok1]%andb_true_iff Hok2].
    apply (branch_kept _ e1 e2 (AForEach binding)
      (λ fuel ρ v σ, vs ← m_elements v σ; each_run (λ w, crun fuel (<[binding := w]> ρ) e2) vs σ)); try done.
    { intros x b n1 E. cbn [local_arm]. rewrite E. by destruct (low e2 n1). }
    intros fuel ρ ρ' σ v o x c Hag Hv Hs. cbn. rewrite Hv. cbn. destruct (m_elements v σ) as [vs|]; cbn; [|done].
    apply each_mono. intros w σ1 o1. by apply Hs, agrees_insert.
  - split_children IHa. by apply fold_kept.
  - destruct e; try discriminate Hok. split; [cbn; lia|]. intros fuel ρ ρ' σ o Ha. cbn in *. by rewrite Ha.
  - by apply map_kept.
  - apply (list_kept _ _ ASetNew PSet); try done. by apply runs_names.
  - split_children IHa. apply (two_kept _ e1 e2 AIndexGet PIndex); try done. by_names.
  - split; [cbn; lia|]. by intros fuel ρ ρ' σ o Ha.
  - split; [cbn; lia|]. by intros fuel ρ ρ' σ o Ha.
Qed.
End Sound.

(** C5: The local lowering is sound on [core_ok] expressions: those in which no source name has the form of a temporary
    ([anf_N]), returned values are variables, and lambdas, dispatches, tasks, channels and resources do not occur.  If the
    counter [n] plus the temporaries of the expression stays below 2^32, then on every machine a run of the expression that
    ends (with a value, a break, a continue, a return or an abort) is matched by a run of the lowered expression with the
    same outcome and the same final state. *)
Theorem lowering_sound `{M : Machine} source_ref e n fuel (ρ : gmap string m_val) σ o :
  core_ok e = true → n + temps e < 2 ^ 32 →
  crun fuel ρ e σ = Some o →
  arun fuel ρ (lower_core_expr_to_anf_local source_ref e n).1 σ = Some o.
Proof.
  intros Hok Hn Hr. destruct (keeps_all source_ref e Hok n Hn) as (a & n' & Hl & _ & Hs).
  unfold lower_core_expr_to_anf_local. rewrite Hl. by eapply Hs.
Qed.

(* ------------------------------------------------------------------ *)
(** ** A machine with cells and a log *)

Module LowerSample.
Inductive Val : Type := VInt (z : Z) | VCell (i : nat) | VNothing.
Record State : Type := MkState { cells : list Z; log : list Z }.

Definition arith (func : string) (a b : Z) : option Val :=
  match func with
  | "add" => Some (VInt (a + b))
  | "lt" => Some (VInt (if (a <? b)%Z then 1 else 0))
  | _ => None
  end.

Definition prim (p : Prim) (vs : list Val) (σ : State) : option (Val * State) :=
  match p, vs with
  | PCall func, [VInt a; VInt b] => v ← arith func a b; Some (v, σ)
  | PEffect "log" "write", [VInt a] => Some (VNothing, MkState (cells σ) (log σ ++ [a]))
  | PCellNew, [VInt a] => Some (VCell (length (cells σ)), MkState (cells σ ++ [a]) (log σ))
  | PCellGet, [VCell i] => a ← cells σ !! i; Some (VInt a, σ)
  | PCellSet, [VCell i; VInt a] => Some (VNothing, MkState (<[i := a]> (cells σ)) (log σ))
  | _, _ => None
  end.

#[local] Instance machine : Machine := {|
  m_val := Val;
  m_state := State;
  m_literal lit := match lit with LInt z => VInt z | LBool b => VInt (Z.b2z b) | _ => VNothing end;
  m_truth v := match v with VInt z => Some (bool_decide (z ≠ 0%Z)) | _ => None end;
  m_prim := prim;
  m_elements _ _ := None;
  m_matches p v _ := if decide (p = "_") then Some None else None;
|}.

(** [let c = cell_new(0) in while(cell_get(c) < 3) { log.write(cell_get(c)); cell_set(c, cell_get(c) + 1) }] *)
Definition count_up : CoreExpr :=
  CLet "c" (CCellNew (CLiteral (LInt 0)))
    (CWhileLoop (CLt (CCellGet (CVar "c")) (CLiteral (LInt 3)))
      (CLet "u" (CEffectCall "log" "write" [CCellGet (CVar "c")])
        (CCellSet (CVar "c") (CAdd (CCellGet (CVar "c")) (CLiteral (LInt 1))))) None).

Lemma lowering_sound_witness :
  core_ok count_up = true ∧
  arun 4 ∅ (lower_core_expr_to_anf_local 7 count_up 0).1 (MkState [] []) = Some (OVal VNothing, MkState [3%Z] [0; 1; 2]%Z).
Proof.
  split; [reflexivity|]. apply (lowering_sound (M := machine) 7 count_up 0 4 ∅ (MkState [] [])).
  - reflexivity.
  - reflexivity.
  - vm_compute. reflexivity.
Defined.

(** The local lowering leaves [return] to the global one and drops the temporary that it pushes: the returned name is
    not bound. *)
Example return_lost :
  lower_core_expr_to_anf_local 7 (CReturn (CAdd (CVar "x") (CLiteral (LInt 1)))) 0 = (AReturn (AVar "anf_1"), 2) ∧
  crun 1 {[ "x" := VInt 1 ]} (CReturn (CAdd (CVar "x") (CLiteral (LInt 1)))) (MkState [] []) =
    Some (OReturn (VInt 2), MkState [] []) ∧
  arun 1 {[ "x" := VInt 1 ]} (AReturn (AVar "anf_1")) (MkState [] []) = None.
Proof. by vm_compute. Qed.

(** So are the nested calls of a lambda; the lost name even becomes a capture. *)
Example lambda_lost :
  lower_core_expr_to_anf_local 7 (CLambda ["x"] (CCall "f" [CCall "g" [CVar "x"]])) 0
  = (ALambda ["x"] ["anf_0"] (ACall "f" ["anf_0"]), 1).
Proof. by vm_compute. Qed.

(** A source name of the form of a temporary is captured. *)
Example temporary_captured :
  lower_core_expr_to_anf_local 7 (CCall "f" [CLiteral (LInt 1); CVar "anf_0"]) 0
  = (ALet "anf_0" (ALiteral (LInt 1)) (ACall "f" ["anf_0"; "anf_0"]), 1).
Proof. by vm_compute. Qed.

(** The global lowering moves the operands of a branch out of it. *)
Example branch_hoisted :
  lower_core_expr_to_anf 7 (CIf (CVar "c") (CCall "f" [CCall "g" []]) (CVar "d")) (0, [])
  = (AIf "c" (ACall "f" ["anf_0"]) (AVar "d"), (1, [MkAnfBinding 7 "anf_0" (ACall "g" [])])).
Proof. by vm_compute. Qed.
End LowerSample.
