(* ===== verification/Versioning.v ===== *)
(** * Package versions: requirements, compatibility and migrations

    ail-package/src/versioning.rs.  The [semver] crate is a parameter: the class
    [Semver] holds the functions the code calls, [SemverLaws] what its
    documentation promises.  A version requirement is normalised before it goes
    to the crate's parser; [CompatibilityEngine] decides whether an upgrade
    carries the migration metadata it needs. *)

From stdpp Require Import pretty.
From S2P Require Import Prelude Text Trim ChangeModel Ordering Packages.

Class Semver : Type := {
  Version : Type;
  VersionReq : Type;
  #[global] Version_eq_dec :: EqDecision Version;
  version_parse : string → option Version;
  version_display : Version → string;
  version_major : Version → N;
  version_minor : Version → N;
  version_patch : Version → N;
  version_pre : Version → string;
  #[global] version_cmp :: Cmp Version;
  req_parse : string → option VersionReq;
  req_matches : VersionReq → Version → bool;
}.

#[global] Instance semver_backend `{Semver} : SemverBackend := {
  semver_valid s := bool_decide (is_Some (version_parse s));
}.

(** Versions that differ at most in build metadata *)
Definition same_release `{Semver} (v w : Version) : Prop :=
  version_major v = version_major w ∧ version_minor v = version_minor w ∧
  version_patch v = version_patch w ∧ version_pre v = version_pre w.

(** [Ord for Version] is a total order; a version has no white space around it;
    [=V] accepts the versions that agree with [V] up to build metadata, which
    requirements ignore. *)
Class SemverLaws `{Semver} : Prop := {
  #[global] version_cmp_laws :: CmpLaws Version;
  version_trimmed s v : version_parse s = Some v → trim s = s ∧ s ≠ "";
  req_exact s v : version_parse s = Some v →
    ∃ r, req_parse ("=" +:+ s) = Some r ∧ ∀ w, req_matches r w = true ↔ same_release v w;
}.

(* ------------------------------------------------------------------ *)
(** ** Strings *)

Definition byte_is_digit (a : ascii) : bool :=
  let n := N_of_ascii a in ((48 <=? n) && (n <=? 57))%N.

Definition numeric_part (part : string) : bool :=
  negb (bool_decide (part = "")) && string_all byte_is_digit part.

(** [s.replace(" c", ", c")] for a character [c] *)
Fixpoint comma_before (c : ascii) (s : string) : string :=
  match s with
  | String x s' =>
      match s' with
      | String y s'' =>
          if decide (x = " "%char ∧ y = c) then ", " +:+ String c (comma_before c s'')
          else String x (comma_before c s')
      | EmptyString => s
      end
  | EmptyString => EmptyString
  end.

(** [s.chars().count()]: the bytes that start a UTF-8 character *)
Fixpoint char_count (s : string) : nat :=
  match s with
  | EmptyString => 0
  | String c s' =>
      let n := N_of_ascii c in
      (if ((128 <=? n) && (n <? 192))%N then 0 else 1) + char_count s'
  end.

(* ------------------------------------------------------------------ *)
(** ** Data *)

Inductive VersionRequirementIssueKind : Type := RequirementIssue.
Inductive VersionRequirementIssueCode : Type := RequirementEmpty | RequirementInvalid.
Inductive VersionRequirementShape : Type :=
| ShapeEmpty | ShapeExact | ShapeCaret | ShapeTilde | ShapeComparator | ShapeOther.

Definition requirement_code_str (c : VersionRequirementIssueCode) : string :=
  match c with
  | RequirementEmpty => "requirement.empty"
  | RequirementInvalid => "requirement.invalid"
  end.

Definition requirement_shape_str (s : VersionRequirementShape) : string :=
  match s with
  | ShapeEmpty => "empty" | ShapeExact => "exact" | ShapeCaret => "caret"
  | ShapeTilde => "tilde" | ShapeComparator => "comparator" | ShapeOther => "other"
  end.

Record VersionRequirementIssue : Type := MkVersionRequirementIssue {
  vi_kind : VersionRequirementIssueKind;
  vi_code : VersionRequirementIssueCode;
  vi_shape : VersionRequirementShape;
  vi_char_len : nat;
  vi_reason : string;
}.

Inductive CompatibilityClass : Type := Patch | Minor | Major.
#[global] Instance CompatibilityClass_eq_dec : EqDecision CompatibilityClass.
Proof. solve_decision. Defined.

Record MigrationStep : Type := MkMigrationStep {
  ms_changed : string;
  ms_replacement : string;
}.

Record MigrationRecord : Type := MkMigrationRecord {
  mr_package : string;
  mr_from_version : string;
  mr_to_version : string;
  mr_steps : list MigrationStep;
}.

Record PackageCompatibilityMetadata : Type := MkPackageCompatibilityMetadata {
  pc_package : string;
  pc_version : string;
  pc_compatibility : CompatibilityClass;
  pc_migrations : list MigrationRecord;
}.

Inductive LocalCompatibilityIssueKind : Type := KindCompatibility | KindMigration.

Definition local_kind_str (k : LocalCompatibilityIssueKind) : string :=
  match k with KindCompatibility => "compatibility" | KindMigration => "migration" end.

Inductive LocalCompatibilityIssueCode : Type :=
| MigrationMetadataRequired
| MigrationMetadataPresent
| MigrationStepChangedEmpty
| MigrationStepReplacementEmpty
| MigrationStepDuplicate
| MigrationVersionNonCanonical.

Definition local_code_str (c : LocalCompatibilityIssueCode) : string :=
  match c with
  | MigrationMetadataRequired => "migration.metadata_required"
  | MigrationMetadataPresent => "migration.metadata_present"
  | MigrationStepChangedEmpty => "migration.step_changed_empty"
  | MigrationStepReplacementEmpty => "migration.step_replacement_empty"
  | MigrationStepDuplicate => "migration.step_duplicate"
  | MigrationVersionNonCanonical => "migration.version_non_canonical"
  end.

Record LocalCompatibilityIssue : Type := MkLocalCompatibilityIssue {
  li_package : string;
  li_current_version : string;
  li_target_version : string;
  li_kind : LocalCompatibilityIssueKind;
  li_code : LocalCompatibilityIssueCode;
  li_reason : string;
  li_migration_hash : option string;
}.

Record PackageVersioning : Type := MkPackageVersioning {
  vg_version : string;
  vg_graph_schema : N;
  vg_core_ir_schema : N;
  vg_acl_version : string;
  vg_compatibility : CompatibilityClass;
  vg_migrations : list MigrationRecord;
}.

Inductive CompatibilityError : Type :=
| MajorBumpWithoutMigration
| PatchWithMigration
| InvalidVersion (version : string)
| MetadataTargetMismatch
| MigrationPackageMismatch
| MigrationTargetMismatch
| MigrationHashFailed (error : string).

(** [into_writer(&migration)] of ciborium *)
Class MigrationCodec : Type := { cbor_migration : MigrationRecord → result (list N) string }.

(* ------------------------------------------------------------------ *)
(** ** Versions and requirements *)

Section Versions.
Context `{Semver}.

Definition normalize_version (version : string) : result string CompatibilityError :=
  if bool_decide (is_Some (version_parse version)) then Ok version
  else
    match split_on "." version with
    | [major; minor] =>
        if numeric_part major && numeric_part minor
        then Ok (major +:+ ("." +:+ (minor +:+ ".0"))) else Err (InvalidVersion version)
    | [major] =>
        if numeric_part major then Ok (major +:+ ".0.0") else Err (InvalidVersion version)
    | _ => Err (InvalidVersion version)
    end.

Definition parse_version (version : string) : result Version CompatibilityError :=
  let? normalized := normalize_version version in
  match version_parse normalized with
  | Some v => Ok v
  | None => Err (InvalidVersion version)
  end.

Definition is_canonical_version (version : string) : bool :=
  match version_parse version with
  | Some parsed => bool_decide (version_display parsed = version)
  | None => false
  end.

Definition exact_requirement (requirement : string) : option string :=
  match normalize_version requirement with
  | Ok version => Some ("=" +:+ version)
  | Err _ => None
  end.

Definition is_comparator_requirement (requirement : string) : bool :=
  starts_with "<" requirement || starts_with ">" requirement || starts_with "=" requirement.

Definition range_requirement (requirement : string) : string :=
  let trimmed := trim requirement in
  if negb (no_char "," trimmed) || negb (is_comparator_requirement trimmed) then trimmed
  else comma_before "=" (comma_before ">" (comma_before "<" trimmed)).

Definition version_requirement_shape (requirement : string) : VersionRequirementShape :=
  let trimmed := trim requirement in
  if decide (trimmed = "") then ShapeEmpty
  else if bool_decide (is_Some (exact_requirement trimmed)) then ShapeExact
  else if starts_with "^" trimmed then ShapeCaret
  else if starts_with "~" trimmed then ShapeTilde
  else if starts_with ">" trimmed || starts_with "<" trimmed || starts_with "=" trimmed
  then ShapeComparator
  else ShapeOther.

Definition version_requirement_error (requirement : string) (code : VersionRequirementIssueCode)
    (reason : string) : VersionRequirementIssue :=
  MkVersionRequirementIssue RequirementIssue code (version_requirement_shape requirement)
    (char_count requirement) reason.

(** [VersionRequirement::parse]; the error wraps its issue only. *)
Definition requirement_parse (requirement : string) : result VersionReq VersionRequirementIssue :=
  let trimmed := trim requirement in
  if decide (trimmed = "") then
    Err (version_requirement_error trimmed RequirementEmpty "version requirement must not be empty")
  else
    let parse_target := default (range_requirement trimmed) (exact_requirement trimmed) in
    match req_parse parse_target with
    | Some r => Ok r
    | None =>
        Err (version_requirement_error trimmed RequirementInvalid
               "version requirement must be exact, caret, tilde, or comparator syntax")
    end.

(** [VersionRequirement::matches] *)
Definition requirement_matches (r : VersionReq) (version : string) : result bool CompatibilityError :=
  let? v := parse_version version in Ok (req_matches r v).

(* ------------------------------------------------------------------ *)
(** ** The compatibility engine *)

Definition check_class (c : CompatibilityClass) (migrations : list MigrationRecord)
  : result unit CompatibilityError :=
  match c, migrations with
  | Major, [] => Err MajorBumpWithoutMigration
  | Patch, _ :: _ => Err PatchWithMigration
  | _, _ => Ok ()
  end.

(** [CompatibilityEngine::evaluate] *)
Definition compatibility_evaluate (versioning : PackageVersioning) : result unit CompatibilityError :=
  check_class (vg_compatibility versioning) (vg_migrations versioning).

Fixpoint check_migration_targets (package version : string) (migrations : list MigrationRecord)
  : result unit CompatibilityError :=
  match migrations with
  | [] => Ok ()
  | m :: migrations' =>
      if decide (mr_package m ≠ package) then Err MigrationPackageMismatch
      else
        let? to_version := normalize_version (mr_to_version m) in
        let? version' := normalize_version version in
        if decide (to_version ≠ version') then Err MigrationTargetMismatch
        else check_migration_targets package version migrations'
  end.

Definition evaluate_local_metadata (metadata : PackageCompatibilityMetadata)
  : result unit CompatibilityError :=
  let? _ := check_class (pc_compatibility metadata) (pc_migrations metadata) in
  check_migration_targets (pc_package metadata) (pc_version metadata) (pc_migrations metadata).

Definition issue_key (i : LocalCompatibilityIssue)
  : string * string * string * string * string * string * option string :=
  (local_code_str (li_code i), local_kind_str (li_kind i), li_package i, li_current_version i,
   li_target_version i, li_reason i, li_migration_hash i).

Definition sort_local_issues : list LocalCompatibilityIssue → list LocalCompatibilityIssue :=
  sort_on issue_key.

Definition migration_issue (package : string) (migration : MigrationRecord)
    (code : LocalCompatibilityIssueCode) (reason : string) : LocalCompatibilityIssue :=
  MkLocalCompatibilityIssue package (mr_from_version migration) (mr_to_version migration)
    KindMigration code reason None.

(** The loop over the steps, with [seen_steps] *)
Fixpoint step_issues (package : string) (migration : MigrationRecord)
    (seen : gset (string * string)) (steps : list MigrationStep) : list LocalCompatibilityIssue :=
  match steps with
  | [] => []
  | step :: steps' =>
      let changed := trim (ms_changed step) in
      let replacement := trim (ms_replacement step) in
      let complete := bool_decide (changed ≠ "") && bool_decide (replacement ≠ "") in
      (if decide (changed = "") then
         [migration_issue package migration MigrationStepChangedEmpty
            "migration step changed item must not be empty"] else [])
      ++ (if decide (replacement = "") then
            [migration_issue package migration MigrationStepReplacementEmpty
               "migration step replacement must not be empty"] else [])
      ++ (if complete && bool_decide ((changed, replacement) ∈ seen) then
            [migration_issue package migration MigrationStepDuplicate
               "migration record repeats a changed/replacement step"] else [])
      ++ step_issues package migration
           (if complete then {[(changed, replacement)]} ∪ seen else seen) steps'
  end.

Definition migration_record_issues (package : string) (migration : MigrationRecord)
  : list LocalCompatibilityIssue :=
  sort_local_issues
    ((if is_canonical_version (mr_from_version migration) then []
      else [migration_issue package migration MigrationVersionNonCanonical
              "migration from_version must be a canonical semantic version"])
     ++ (if is_canonical_version (mr_to_version migration) then []
         else [migration_issue package migration MigrationVersionNonCanonical
                 "migration to_version must be a canonical semantic version"])
     ++ step_issues package migration ∅ (mr_steps migration)).

Fixpoint metadata_issues (package version : string) (migrations : list MigrationRecord)
  : result (list LocalCompatibilityIssue) CompatibilityError :=
  match migrations with
  | [] => Ok []
  | m :: migrations' =>
      if decide (mr_package m ≠ package) then Err MigrationPackageMismatch
      else
        match normalize_version (mr_to_version m) with
        | Ok target =>
            if decide (target ≠ version) then Err MigrationTargetMismatch
            else let? rest := metadata_issues package version migrations' in
                 Ok (migration_record_issues package m ++ rest)
        | Err _ => let? rest := metadata_issues package version migrations' in
                   Ok (migration_record_issues package m ++ rest)
        end
  end.

Definition evaluate_local_metadata_issues (metadata : PackageCompatibilityMetadata)
  : result (list LocalCompatibilityIssue) CompatibilityError :=
  let? _ := check_class (pc_compatibility metadata) (pc_migrations metadata) in
  let? version := normalize_version (pc_version metadata) in
  let? issues := metadata_issues (pc_package metadata) version (pc_migrations metadata) in
  Ok (sort_local_issues issues).

Definition classify_version_change (current_version target_version : string)
  : result CompatibilityClass CompatibilityError :=
  let? current := parse_version current_version in
  let? target := parse_version target_version in
  if decide (version_major target ≠ version_major current) then Ok Major
  else if decide (version_minor target ≠ version_minor current) then Ok Minor
  else Ok Patch.

Context `{HashBackend, MigrationCodec}.

(** [MigrationRecord::blake3_hex] *)
Definition migration_blake3_hex (m : MigrationRecord) : result string string :=
  let? bytes := cbor_migration m in Ok (to_hex (blake3 bytes)).

Definition upgrade_issue (package current target : string) (code : LocalCompatibilityIssueCode)
    (reason : string) (hash : option string) : LocalCompatibilityIssue :=
  MkLocalCompatibilityIssue package current target KindMigration code reason hash.

Definition metadata_required (package current target : string) : list LocalCompatibilityIssue :=
  [upgrade_issue package current target MigrationMetadataRequired
     "breaking upgrade requires local migration metadata" None].

(** [normalize_version(v).ok().as_deref() == Some(n)] *)
Definition normalizes_to (version normalized : string) : Prop := normalize_version version = Ok normalized.
#[global] Instance normalizes_to_dec version normalized : Decision (normalizes_to version normalized).
Proof.
  unfold normalizes_to. destruct (normalize_version version) as [v|e]; [|by right].
  destruct (decide (v = normalized)) as [->|]; [by left|right; congruence].
Defined.

(** The last part of [evaluate_local_upgrade], for a breaking upgrade *)
Definition breaking_report (package current_version target_version : string)
    (migrations : list MigrationRecord) : result (list LocalCompatibilityIssue) CompatibilityError :=
  let? normalized_current := normalize_version current_version in
  let? normalized_target := normalize_version target_version in
  match find_first (λ m, mr_package m = package ∧
                         normalizes_to (mr_from_version m) normalized_current ∧
                         normalizes_to (mr_to_version m) normalized_target) migrations with
  | Some migration =>
      match migration_blake3_hex migration with
      | Ok hash =>
          Ok [upgrade_issue package current_version target_version MigrationMetadataPresent
                "breaking upgrade has local migration metadata" (Some hash)]
      | Err err => Err (MigrationHashFailed err)
      end
  | None => Ok (metadata_required package current_version target_version)
  end.

Definition evaluate_local_upgrade (package current_version target_version : string)
    (target_metadata : option PackageCompatibilityMetadata)
  : result (list LocalCompatibilityIssue) CompatibilityError :=
  let? inferred := classify_version_change current_version target_version in
  let declared := pc_compatibility <$> target_metadata in
  let breaking := bool_decide (inferred = Major) || bool_decide (declared = Some Major) in
  match target_metadata with
  | None =>
      if breaking then Ok (metadata_required package current_version target_version) else Ok []
  | Some metadata =>
      if decide (pc_package metadata ≠ package) then Err MetadataTargetMismatch
      else
        let? version := normalize_version (pc_version metadata) in
        let? target := normalize_version target_version in
        if decide (version ≠ target) then Err MetadataTargetMismatch
        else if decide (pc_compatibility metadata = Major ∧ pc_migrations metadata = []) then
          Ok (metadata_required package current_version target_version)
        else
          let? issues := evaluate_local_metadata_issues metadata in
          if decide (issues ≠ []) then Ok issues
          else if breaking
          then breaking_report package current_version target_version (pc_migrations metadata)
          else Ok []
  end.
End Versions.

(* ------------------------------------------------------------------ *)
(** ** When an upgrade is accepted *)

Section Upgrade.
Context `{Semver}.

Definition step_key (s : MigrationStep) : string * string :=
  (trim (ms_changed s), trim (ms_replacement s)).

Definition steps_clean (steps : list MigrationStep) : Prop :=
  Forall (λ k, k.1 ≠ "" ∧ k.2 ≠ "") (step_key <$> steps) ∧ NoDup (step_key <$> steps).

(** A migration record that justifies an upgrade to [version] *)
Definition migration_clean (package version : string) (m : MigrationRecord) : Prop :=
  mr_package m = package ∧ normalizes_to (mr_to_version m) version ∧
  is_canonical_version (mr_from_version m) = true ∧ is_canonical_version (mr_to_version m) = true ∧
  steps_clean (mr_steps m).

Lemma step_issues_nil package m seen steps :
  step_issues package m seen steps = [] ↔
  steps_clean steps ∧ ∀ k, k ∈ step_key <$> steps → k ∉ seen.
Proof.
  unfold steps_clean. revert seen.
  induction steps as [|s steps IH]; intros seen; cbn [step_issues fmap list_fmap].
  { split; [|done]. intros _. split; [|set_solver]. split; constructor. }
  rewrite Forall_cons, NoDup_cons. cbn [fst snd step_key].
  set (c := trim (ms_changed s)). set (r := trim (ms_replacement s)).
  assert (step_key s = (c, r)) as -> by done. cbn [fst snd].
  destruct (decide (c = "")) as [Hc|Hc]; [split; [done|naive_solver]|].
  destruct (decide (r = "")) as [Hr|Hr]; [split; [done|naive_solver]|].
  rewrite !bool_decide_true by done. cbn [andb app].
  case_bool_decide as Hseen.
  { split; [done|]. intros [_ Hs]. exfalso. by apply (Hs (c, r)); [left|]. }
  cbn [app]. rewrite IH. split.
  - intros [[Hf Hnd] Hk]. repeat split; try done.
    + intros Hin. apply (Hk _ Hin). set_solver.
    + intros k [->|Hin]%elem_of_cons; [done|]. specialize (Hk k Hin). set_solver.
  - intros [[[_ Hf] [Hni Hnd]] Hk]. repeat split; try done.
    intros k Hin. specialize (Hk k ltac:(by right)). set_solver.
Qed.

Lemma record_issues_nil package m :
  migration_record_issues package m = [] ↔
  is_canonical_version (mr_from_version m) = true ∧ is_canonical_version (mr_to_version m) = true ∧
  steps_clean (mr_steps m).
Proof.
  unfold migration_record_issues, sort_local_issues.
  rewrite sort_on_nil, !app_nil, step_issues_nil.
  destruct (is_canonical_version (mr_from_version m)); [|naive_solver].
  destruct (is_canonical_version (mr_to_version m)); [|naive_solver].
  split; [naive_solver|]. intros (_ & _ & Hs). repeat split; try done; apply Hs || set_solver.
Qed.

Lemma canonical_normalizes version :
  is_canonical_version version = true → normalizes_to version version.
Proof.
  unfold is_canonical_version, normalizes_to, normalize_version.
  destruct (version_parse version); [|done]. intros _. by rewrite bool_decide_true by eauto.
Qed.

Lemma metadata_issues_clean package version ms :
  metadata_issues package version ms = Ok [] ↔ Forall (migration_clean package version) ms.
Proof.
  induction ms as [|m ms IH]; cbn [metadata_issues]; [by rewrite Forall_nil|].
  rewrite Forall_cons. unfold migration_clean at 1.
  destruct (decide (mr_package m ≠ package)) as [Hp|Hp]; [naive_solver|].
  apply dec_stable in Hp.
  destruct (normalize_version (mr_to_version m)) as [target|err] eqn:En.
  - unfold normalizes_to. rewrite En.
    destruct (decide (target ≠ version)) as [Ht|Ht]; [naive_solver congruence|].
    apply dec_stable in Ht as ->. rewrite <- IH.
    destruct (metadata_issues package version ms) as [rest|err]; [|naive_solver].
    rewrite <- record_issues_nil. split.
    + intros [= [Hm Hr]%app_nil]. by rewrite Hm, Hr.
    + intros [(_ & _ & ->) [= ->]]. done.
  - split.
    + destruct (metadata_issues package version ms) as [rest|]; [|done].
      intros [= [(_ & Hcan & _)%record_issues_nil _]%app_nil].
      apply canonical_normalizes in Hcan. unfold normalizes_to in Hcan. congruence.
    + intros [(_ & Hn & _) _]. unfold normalizes_to in Hn. congruence.
Qed.

(** The metadata of the upgrade's target is for it and without defects. *)
Definition metadata_clean (package target : string) (md : PackageCompatibilityMetadata) : Prop :=
  pc_package md = package ∧
  check_class (pc_compatibility md) (pc_migrations md) = Ok () ∧
  ∃ version, normalizes_to (pc_version md) version ∧ normalizes_to target version ∧
    Forall (migration_clean package version) (pc_migrations md).

Lemma local_metadata_clean md :
  evaluate_local_metadata_issues md = Ok [] ↔
  check_class (pc_compatibility md) (pc_migrations md) = Ok () ∧
  ∃ version, normalizes_to (pc_version md) version ∧
    Forall (migration_clean (pc_package md) version) (pc_migrations md).
Proof.
  unfold evaluate_local_metadata_issues, normalizes_to.
  destruct (check_class _ _) as [[]|]; [|naive_solver].
  destruct (normalize_version (pc_version md)) as [v|]; [|naive_solver].
  pose proof (metadata_issues_clean (pc_package md) v (pc_migrations md)) as Hc. split.
  - destruct (metadata_issues _ _ _) as [issues|]; [|done].
    intros [= Hs]. apply sort_on_nil in Hs as ->. naive_solver.
  - intros (_ & v' & [= <-] & Hf). apply Hc in Hf as ->. done.
Qed.

Lemma issues_unhashed package version ms issues :
  metadata_issues package version ms = Ok issues → Forall (λ i, li_migration_hash i = None) issues.
Proof.
  assert (∀ m seen steps, Forall (λ i, li_migration_hash i = None) (step_issues package m seen steps))
    as Hsteps.
  { intros m seen steps. revert seen. induction steps as [|s steps IH]; intros seen; cbn; [done|].
    rewrite !Forall_app. repeat case_match; repeat split; auto. }
  assert (∀ m, Forall (λ i, li_migration_hash i = None) (migration_record_issues package m)) as Hrec.
  { intros m. unfold migration_record_issues, sort_local_issues. rewrite sort_on_perm, !Forall_app.
    repeat case_match; repeat split; auto. }
  revert issues. induction ms as [|m ms IH]; intros issues; cbn; [by intros [= <-]|].
  case_decide; [done|].
  destruct (normalize_version _); [case_decide; [done|]|];
    (destruct (metadata_issues _ _ ms); [|done]); intros [= <-]; apply Forall_app; auto.
Qed.

Context `{HashBackend, MigrationCodec}.

(** The record that the upgrade follows *)
Definition migration_for (package current target : string) (md : PackageCompatibilityMetadata)
    (m : MigrationRecord) : Prop :=
  ∃ c t, normalizes_to current c ∧ normalizes_to target t ∧
    find_first (λ m, mr_package m = package ∧ normalizes_to (mr_from_version m) c ∧
                     normalizes_to (mr_to_version m) t) (pc_migrations md) = Some m.

Lemma breaking_report_nonempty package current target ms :
  breaking_report package current target ms ≠ Ok [].
Proof. unfold breaking_report. by repeat case_match. Qed.

Lemma breaking_report_present package current target md reason hash :
  breaking_report package current target (pc_migrations md) =
    Ok [upgrade_issue package current target MigrationMetadataPresent reason (Some hash)] ↔
  reason = "breaking upgrade has local migration metadata" ∧
  ∃ m, migration_for package current target md m ∧ migration_blake3_hex m = Ok hash.
Proof.
  unfold breaking_report, migration_for, normalizes_to.
  destruct (normalize_version current) as [c|]; [|naive_solver].
  destruct (normalize_version target) as [t|]; [|naive_solver].
  destruct (find_first _ _) as [m|] eqn:Ef; [|split; [done|naive_solver]].
  destruct (migration_blake3_hex m) as [h|] eqn:Eh; split.
  - intros [= <- <-]. split; [done|]. exists m. split; [|done]. eauto.
  - intros [-> (m' & (? & ? & [= <-] & [= <-] & Hf) & Hh)]. congruence.
  - done.
  - intros [-> (m' & (? & ? & [= <-] & [= <-] & Hf) & Hh)]. congruence.
Qed.

Lemma clean_iff package target md version :
  pc_package md = package → normalizes_to (pc_version md) version → normalizes_to target version →
  metadata_clean package target md ↔ evaluate_local_metadata_issues md = Ok [].
Proof.
  intros <- Hv Ht. rewrite local_metadata_clean. unfold metadata_clean. split.
  - intros (_ & Hc & v & Hv' & _ & Hf). eauto.
  - intros (Hc & v & Hv' & Hf). split; [done|]. split; [done|]. exists v. split; [done|].
    unfold normalizes_to in *. split; [congruence|done].
Qed.

Lemma local_issues_unhashed md issues :
  evaluate_local_metadata_issues md = Ok issues → Forall (λ i, li_migration_hash i = None) issues.
Proof.
  unfold evaluate_local_metadata_issues. destruct (check_class _ _); [|done].
  destruct (normalize_version _); [|done].
  destruct (metadata_issues _ _ _) as [l|] eqn:E; [|done]. intros [= <-].
  unfold sort_local_issues. rewrite sort_on_perm. by eapply issues_unhashed.
Qed.

(** An outcome that neither passes nor carries a hash, on metadata that is not clean *)
Lemma refused_upgrade package current target cls md r :
  ¬ metadata_clean package target md → r ≠ Ok [] → (∀ i, r = Ok [i] → li_migration_hash i = None) →
  (r = Ok [] ↔
     (∃ k, cls = Ok k ∧ k ≠ Major) ∧
     ∀ md', Some md = Some md' → pc_compatibility md' ≠ Major ∧ metadata_clean package target md') ∧
  (∀ reason hash,
     (r : result _ CompatibilityError) =
       Ok [upgrade_issue package current target MigrationMetadataPresent reason (Some hash)] ↔
     reason = "breaking upgrade has local migration metadata" ∧
     ∃ k md' m, (cls : result _ CompatibilityError) = Ok k ∧ Some md = Some md' ∧
       (k = Major ∨ pc_compatibility md' = Major) ∧ metadata_clean package target md' ∧
       migration_for package current target md' m ∧ migration_blake3_hex m = Ok hash).
Proof.
  intros Hd Hn Hi. split.
  - split; [done|]. intros [_ Hc]. by destruct (Hc md eq_refl).
  - intros reason hash. split.
    + intros ->. by specialize (Hi _ eq_refl).
    + by intros (_ & ? & ? & ? & _ & [= <-] & _ & ? & _).
Qed.

(** An upgrade passes unreported exactly when neither the version numbers
    nor the declared class make it breaking and its metadata, if any, is for the
    target and without defects; and a breaking upgrade is reported as covered
    exactly when clean metadata holds a record from the current to the target
    version, whose hash the report carries. *)
Theorem upgrade_gate package current target metadata :
  (evaluate_local_upgrade package current target metadata = Ok [] ↔
     (∃ k, classify_version_change current target = Ok k ∧ k ≠ Major) ∧
     ∀ md, metadata = Some md → pc_compatibility md ≠ Major ∧ metadata_clean package target md) ∧
  (∀ reason hash,
     evaluate_local_upgrade package current target metadata =
       Ok [upgrade_issue package current target MigrationMetadataPresent reason (Some hash)] ↔
     reason = "breaking upgrade has local migration metadata" ∧
     ∃ k md m, classify_version_change current target = Ok k ∧ metadata = Some md ∧
       (k = Major ∨ pc_compatibility md = Major) ∧ metadata_clean package target md ∧
       migration_for package current target md m ∧ migration_blake3_hex m = Ok hash).
Proof.
  unfold evaluate_local_upgrade.
  destruct (classify_version_change current target) as [k|err]; cycle 1.
  { split; [|intros reason hash]; (split; [done|]); [intros [(? & ? & _) _]|intros (_ & ? & ? & ? & ? & _)]; done. }
  destruct metadata as [md|]; cycle 1.
  { cbn. rewrite orb_false_r. case_bool_decide; split; naive_solver. }
  set (breaking := bool_decide (k = Major) || _).
  assert (breaking = true ↔ k = Major ∨ pc_compatibility md = Major) as Hb.
  { unfold breaking. rewrite orb_true_iff, !bool_decide_eq_true. cbn.
    split; (intros [->|Hm]; [by left|right; congruence]). }
  pose proof (λ r, refused_upgrade package current target (Ok k) md r) as Hrefused.
  destruct (decide (pc_package md ≠ package)) as [Hp|Hp%dec_stable].
  { apply Hrefused; [by intros (? & _)|done..]. }
  destruct (normalize_version (pc_version md)) as [v|] eqn:Ev; cycle 1.
  { apply Hrefused; [|done..]. intros (_ & _ & v & Hv & _). unfold normalizes_to in Hv. congruence. }
  destruct (normalize_version target) as [t|] eqn:Et; cycle 1.
  { apply Hrefused; [|done..]. intros (_ & _ & v' & _ & Ht & _). unfold normalizes_to in Ht. congruence. }
  destruct (decide (v ≠ t)) as [Hne|Hvt%dec_stable].
  { apply Hrefused; [|done..]. intros (_ & _ & v' & Hv & Ht & _). unfold normalizes_to in *. congruence. }
  subst t. pose proof (clean_iff package target md v Hp Ev Et) as Hclean.
  case_decide as Hmajor.
  { apply Hrefused; [|done|by intros i [= <-]]. intros (_ & Hc & _). destruct Hmajor as [Hm Hms].
    by rewrite Hm, Hms in Hc. }
  destruct (evaluate_local_metadata_issues md) as [issues|err] eqn:Eis; cycle 1.
  { apply Hrefused; [by rewrite Hclean|done..]. }
  destruct (decide (issues ≠ [])) as [Hi|Hi%dec_stable].
  { apply Hrefused; [rewrite Hclean; congruence|congruence|]. intros i [= ->].
    apply local_issues_unhashed in Eis. by inversion Eis. }
  subst issues. destruct breaking; split.
  - split; [by intros ?%breaking_report_nonempty|]. naive_solver.
  - intros reason hash. rewrite breaking_report_present. naive_solver.
  - split; [|done]. intros _. split; [exists k|]; naive_solver.
  - intros reason hash. split; [done|]. naive_solver.
Qed.
End Upgrade.

(* ------------------------------------------------------------------ *)
(** ** A small semantic version crate

    Three numbers with optional build metadata; exact, caret and lower-bound
    requirements.  It shows that the laws can hold. *)

Module SampleSemver.
Definition digits_value (s : string) : N :=
  foldl (λ n c, (10 * n + (N_of_ascii c - 48))%N) 0%N (String.list_ascii_of_string s).

Definition number (s : string) : option N :=
  if numeric_part s && (bool_decide (s = "0") || negb (starts_with "0" s))
  then Some (digits_value s) else None.

Definition SampleVersion : Type := N * N * N * string.

Definition parse_sample (s : string) : option SampleVersion :=
  if decide (trim s ≠ s) then None else
  let '(core, build) := default (s, "") (split_once "+" s) in
  match split_on "." core with
  | [a; b; c] => a ← number a; b ← number b; c ← number c; Some (a, b, c, build)
  | _ => None
  end.

Inductive SampleReq : Type := ReqExact (v : SampleVersion) | ReqCaret (v : SampleVersion).

Definition parse_req (s : string) : option SampleReq :=
  match s with
  | String "=" s' => ReqExact <$> parse_sample s'
  | String "^" s' => ReqCaret <$> parse_sample s'
  | _ => None
  end.

Definition matches_sample (r : SampleReq) (w : SampleVersion) : bool :=
  match r with
  | ReqExact v => bool_decide (v.1 = w.1)
  | ReqCaret v => bool_decide (v.1.1.1 = w.1.1.1 ∧ cmp_le v.1 w.1)
  end.

#[export] Instance sample_semver : Semver := {
  Version := SampleVersion;
  VersionReq := SampleReq;
  version_parse := parse_sample;
  version_display v :=
    let '(a, b, c, build) := v in
    pretty a +:+ ("." +:+ (pretty b +:+ ("." +:+ (pretty c +:+
      if decide (build = "") then "" else "+" +:+ build))));
  version_major v := v.1.1.1;
  version_minor v := v.1.1.2;
  version_patch v := v.1.2;
  version_pre v := "";
  version_cmp := _;
  req_parse := parse_req;
  req_matches := matches_sample;
}.

#[export] Instance sample_semver_laws : SemverLaws.
Proof.
  split; [apply prod_cmp_laws| |].
  { intros s v Hv. change (parse_sample s = Some v) in Hv. unfold parse_sample in Hv.
    case_decide as Ht; [done|]. split; [done|]. by intros ->. }
  intros s v Hv.
  exists (ReqExact v). split.
  { change (ReqExact <$> (parse_sample s : option SampleVersion) = Some (ReqExact v)).
    change (parse_sample s = Some v) in Hv. by rewrite Hv. }
  intros [[[a b] c] build].
  destruct v as [[[a' b'] c'] build']. unfold same_release. cbn. rewrite bool_decide_eq_true.
  split; [by intros [= -> -> ->]|by intros (-> & -> & -> & _)].
Qed.
End SampleSemver.
