(* ===== verification/PackagePolicy.v ===== *)
(** * Package policy: trust gates, capability rules, advisories

    ail-package/src/policy.rs and advisory.rs.  [TrustGate] admits a trust level
    under a deployment profile; capability rules are matched first to last;
    [PackagePolicyEnforcer] reports every way a manifest departs from a
    production policy; advisories that match a version are ordered by severity
    whatever the order of the registry. *)

From S2P Require Import Prelude Text Trim ChangeModel Ordering Packages Versioning.

(* ------------------------------------------------------------------ *)
(** ** Trust gates *)

Inductive DeploymentProfile : Type := Draft | Dev | Test | Staging | Prod | CriticalProfile.
Inductive TrustGateVerdict : Type := GateAllow | GateWarn | GateDeny.
#[global] Instance TrustGateVerdict_eq_dec : EqDecision TrustGateVerdict.
Proof. solve_decision. Defined.

(** [TrustGate::evaluate] *)
Definition trust_gate (trust_level : PackageTrust) (profile : DeploymentProfile) : TrustGateVerdict :=
  match profile, trust_level with
  | _, Verified => GateAllow
  | _, Unsafe => GateDeny
  | CriticalProfile, Assumed => GateWarn
  | _, Assumed => GateAllow
  | (Draft | Dev | Test), Unverified => GateWarn
  | (Staging | Prod | CriticalProfile), Unverified => GateDeny
  end.

(** [UnsafeSurfacePolicyEnforcer::check]; an approval is its [surface_id]. *)
Definition unsafe_surface_check (declared : list UnsafeSurfaceEntry) (approvals : list string)
  : list string :=
  us_name <$> filter (λ entry, us_name entry ∉ approvals) declared.

(* ------------------------------------------------------------------ *)
(** ** Capability rules *)

Inductive CapabilityPolicyVerdict : Type := PolicyAllow | PolicyDeny | PolicyDenyUnlessApproved.
#[global] Instance CapabilityPolicyVerdict_eq_dec : EqDecision CapabilityPolicyVerdict.
Proof. solve_decision. Defined.

Record CapabilityPolicy : Type := MkCapabilityPolicy {
  cp_pattern : string;
  cp_verdict : CapabilityPolicyVerdict;
}.

Record CapabilityViolation : Type := MkCapabilityViolation {
  cv_capability : string;
  cv_verdict : CapabilityPolicyVerdict;
}.

(** [pattern.strip_suffix(":*")] *)
Fixpoint strip_wildcard (s : string) : option string :=
  match s with
  | EmptyString => None
  | String c s' =>
      if decide (s = ":*") then Some ""
      else match strip_wildcard s' with Some p => Some (String c p) | None => None end
  end.

(** [capability.split(':').next()] *)
Definition before_colon (s : string) : string :=
  match split_once ":" s with Some (l, _) => l | None => s end.

(** [CapabilityPolicyEnforcer::matches] *)
Definition pattern_matches (capability pattern : string) : bool :=
  match strip_wildcard pattern with
  | Some prefix => bool_decide (before_colon capability = prefix)
  | None => bool_decide (capability = pattern)
  end.

Definition capability_verdict (policies : list CapabilityPolicy) (cap : string)
  : CapabilityPolicyVerdict :=
  default PolicyAllow (cp_verdict <$> find_first (λ p, pattern_matches cap (cp_pattern p) = true) policies).

(** [CapabilityPolicyEnforcer::check] *)
Definition capability_check (requested : list string) (policies : list CapabilityPolicy)
  : list CapabilityViolation :=
  requested ≫= λ cap,
    match capability_verdict policies cap with
    | PolicyAllow => []
    | verdict => [MkCapabilityViolation cap verdict]
    end.

(* ------------------------------------------------------------------ *)
(** ** Production policy *)

Record PackageProductionPolicy : Type := MkPackageProductionPolicy {
  pp_capability_policies : list CapabilityPolicy;
  pp_denied_exports : list string;
  pp_denied_imports : list string;
  pp_allowed_licenses : list string;
  pp_minimum_trust : option PackageTrust;
  pp_deployment_profile : option DeploymentProfile;
  pp_require_publish_ready : bool;
}.

Definition permissive : PackageProductionPolicy := MkPackageProductionPolicy [] [] [] [] None None false.

Inductive PackagePolicyDiagnosticKind : Type :=
| DeniedCapability
| DeniedExport
| DeniedImport
| LicensePolicyMismatch
| MinimumTrustPolicyMismatch
| ProfileTrustPolicyMismatch
| PublishPolicyMismatch.
#[global] Instance PackagePolicyDiagnosticKind_eq_dec : EqDecision PackagePolicyDiagnosticKind.
Proof. solve_decision. Defined.

Definition policy_kind_rank (k : PackagePolicyDiagnosticKind) : N :=
  match k with
  | DeniedCapability => 0 | DeniedExport => 1 | DeniedImport => 2 | LicensePolicyMismatch => 3
  | MinimumTrustPolicyMismatch => 4 | ProfileTrustPolicyMismatch => 5 | PublishPolicyMismatch => 6
  end.

(** The fields of [PackagePolicyDiagnosticDescriptor] are inlined. *)
Record PackagePolicyDiagnostic : Type := MkPackagePolicyDiagnostic {
  pd_kind : PackagePolicyDiagnosticKind;
  pd_path : string;
  pd_index : option nat;
  pd_related_index : option nat;
  pd_policy_index : option nat;
  pd_message : string;
}.
#[global] Instance PackagePolicyDiagnostic_eq_dec : EqDecision PackagePolicyDiagnostic.
Proof. solve_decision. Defined.

(** The derived order *)
Definition policy_diagnostic_key (d : PackagePolicyDiagnostic)
  : N * string * option nat * option nat * option nat * string :=
  (policy_kind_rank (pd_kind d), pd_path d, pd_index d, pd_related_index d, pd_policy_index d,
   pd_message d).

(** [iter().position(..)] *)
Definition position {A} (P : A → Prop) `{∀ x, Decision (P x)} (l : list A) : option nat :=
  fst <$> list_find P l.

Definition first_matching_pattern_index (value : string) (patterns : list string) : option nat :=
  position (λ pattern, pattern_matches value pattern = true) patterns.

Definition push_capability_policy_diagnostics (path : string) (policies : list CapabilityPolicy)
    (capabilities : list string) : list PackagePolicyDiagnostic :=
  mjoin (imap (λ index capability,
    match list_find (λ p, pattern_matches capability (cp_pattern p) = true) policies with
    | None => []
    | Some (policy_index, policy) =>
        let report message :=
          [MkPackagePolicyDiagnostic DeniedCapability path (Some index) None (Some policy_index) message] in
        match cp_verdict policy with
        | PolicyAllow => []
        | PolicyDeny => report "capability request is denied by production package policy"
        | PolicyDenyUnlessApproved =>
            report "capability request requires explicit production package policy approval"
        end
    end) capabilities).

(** [push_export_policy_diagnostics] and [push_import_policy_diagnostics] *)
Definition push_name_diagnostics (kind : PackagePolicyDiagnosticKind) (path message : string)
    (patterns names : list string) : list PackagePolicyDiagnostic :=
  mjoin (imap (λ index name,
    match first_matching_pattern_index name patterns with
    | Some policy_index => [MkPackagePolicyDiagnostic kind path (Some index) None (Some policy_index) message]
    | None => []
    end) names).

Definition license_allowed (license : option string) (allowed : list string) : bool :=
  match license with
  | Some l => bool_decide (trim l ≠ "" ∧ trim l ∈ trim <$> allowed)
  | None => false
  end.

Definition push_license_policy_diagnostic (license : option string) (allowed : list string)
  : list PackagePolicyDiagnostic :=
  if bool_decide (allowed = []) || license_allowed license allowed then []
  else [MkPackagePolicyDiagnostic LicensePolicyMismatch "manifest.license" None None None
          "package license does not satisfy represented production package policy"].

Definition push_trust_policy_diagnostics (trust : PackageTrust) (minimum : option PackageTrust)
    (profile : option DeploymentProfile) : list PackagePolicyDiagnostic :=
  (match minimum with
   | Some m =>
       if satisfies trust m then []
       else [MkPackagePolicyDiagnostic MinimumTrustPolicyMismatch "manifest.trust_level" None None None
               "package trust level is below represented production package policy"]
   | None => []
   end)
  ++ match profile with
     | Some p =>
         if decide (trust_gate trust p = GateDeny) then
           [MkPackagePolicyDiagnostic ProfileTrustPolicyMismatch "manifest.trust_level" None None None
              "package trust level is denied by represented deployment profile policy"]
         else []
     | None => []
     end.

Definition push_publish_policy_diagnostics `{SemverBackend} (m : PackageManifest)
  : list PackagePolicyDiagnostic :=
  (λ issue, MkPackagePolicyDiagnostic PublishPolicyMismatch (pi_path issue) (pi_index issue)
              (pi_duplicate_of issue) None
              "package manifest does not satisfy production publish-readiness policy")
    <$> production_validation_issues m.

(** [PackagePolicyEnforcer::diagnostics] *)
Definition policy_diagnostics `{SemverBackend} (m : PackageManifest) (policy : PackageProductionPolicy)
  : list PackagePolicyDiagnostic :=
  collect_sorted policy_diagnostic_key
    (push_capability_policy_diagnostics "manifest.required_capabilities"
       (pp_capability_policies policy) (pm_required_capabilities m)
     ++ push_capability_policy_diagnostics "manifest.exported_capabilities"
          (pp_capability_policies policy) (pm_exported_capabilities m)
     ++ push_name_diagnostics DeniedExport "manifest.exports.name"
          "export declaration is denied by production package policy"
          (pp_denied_exports policy) (ed_name <$> pm_exports m)
     ++ push_name_diagnostics DeniedImport "manifest.imports.source_package"
          "import declaration is denied by production package policy"
          (pp_denied_imports policy) (id_source_package <$> pm_imports m)
     ++ push_license_policy_diagnostic (pm_license m) (pp_allowed_licenses policy)
     ++ push_trust_policy_diagnostics (pm_trust_level m) (pp_minimum_trust policy)
          (pp_deployment_profile policy)
     ++ if pp_require_publish_ready policy then push_publish_policy_diagnostics m else []).

(** [PackagePolicyEnforcer::check] *)
Definition policy_check `{SemverBackend} (m : PackageManifest) (policy : PackageProductionPolicy)
  : result unit (list PackagePolicyDiagnostic) :=
  match policy_diagnostics m policy with [] => Ok () | ds => Err ds end.

(* ------------------------------------------------------------------ *)
(** ** Advisories *)

Inductive AdvisorySeverity : Type := Low | Medium | High | CriticalSeverity.
#[global] Instance AdvisorySeverity_eq_dec : EqDecision AdvisorySeverity.
Proof. solve_decision. Defined.

Definition severity_rank (s : AdvisorySeverity) : N :=
  match s with Low => 0 | Medium => 1 | High => 2 | CriticalSeverity => 3 end.

Record SecurityAdvisory : Type := MkSecurityAdvisory {
  sa_id : string;
  sa_package : string;
  sa_affected_constraint : string;
  sa_severity : AdvisorySeverity;
  sa_reason : string;
}.

(** [AdvisoryChecker::compare_matches]: the severity in descending order *)
Definition advisory_key (a : SecurityAdvisory) : N * string * string * string * string :=
  ((3 - severity_rank (sa_severity a))%N, sa_id a, sa_package a, sa_affected_constraint a, sa_reason a).

Inductive AdvisoryPolicyAction : Type := ActionWarn | ActionBlock.
#[global] Instance AdvisoryPolicyAction_eq_dec : EqDecision AdvisoryPolicyAction.
Proof. solve_decision. Defined.

Inductive AdvisoryPolicyIssueCode : Type :=
| PackageYanked | AdvisoryCritical | AdvisoryHigh | AdvisoryWarning.

Definition advisory_code_str (c : AdvisoryPolicyIssueCode) : string :=
  match c with
  | PackageYanked => "package.yanked"
  | AdvisoryCritical => "package.advisory.critical"
  | AdvisoryHigh => "package.advisory.high"
  | AdvisoryWarning => "package.advisory.warning"
  end.

Record AdvisoryPolicyIssue : Type := MkAdvisoryPolicyIssue {
  ai_code : AdvisoryPolicyIssueCode;
  ai_action : AdvisoryPolicyAction;
  ai_advisory_id : option string;
  ai_severity : option AdvisorySeverity;
  ai_reason : string;
}.

Section Advisories.
Context `{Semver}.

(** [AdvisoryChecker::version_matches] *)
Definition advisory_version_matches (version constraint : string) : bool :=
  if negb (existsb (λ p, starts_with p constraint) ["<"; ">"; "^"; "~"; "="; "*"]) then
    bool_decide (constraint = version)
  else
    match version_parse version with
    | None => bool_decide (constraint = version)
    | Some ver =>
        match req_parse constraint with
        | Some req => req_matches req ver
        | None => bool_decide (constraint = version)
        end
    end.

Definition affects (name version : string) (a : SecurityAdvisory) : Prop :=
  sa_package a = name ∧ advisory_version_matches version (sa_affected_constraint a) = true.

Definition is_affected (name version : string) (advisories : list SecurityAdvisory) : bool :=
  any (affects name version) advisories.

(** [AdvisoryChecker::matches] *)
Definition advisory_matches (name version : string) (advisories : list SecurityAdvisory)
  : list SecurityAdvisory := sort_on advisory_key (filter (affects name version) advisories).

Definition advisory_first_match (name version : string) (advisories : list SecurityAdvisory)
  : option SecurityAdvisory := head (advisory_matches name version advisories).

Definition advisory_issue (a : SecurityAdvisory) : AdvisoryPolicyIssue :=
  let '(code, action) :=
    match sa_severity a with
    | CriticalSeverity => (AdvisoryCritical, ActionBlock)
    | High => (AdvisoryHigh, ActionBlock)
    | Medium | Low => (AdvisoryWarning, ActionWarn)
    end in
  MkAdvisoryPolicyIssue code action (Some (sa_id a)) (Some (sa_severity a)) (sa_reason a).

(** [AdvisoryPolicyGate::evaluate] *)
Definition advisory_evaluate (name version : string) (yanked_reason : option string)
    (advisories : list SecurityAdvisory) : list AdvisoryPolicyIssue :=
  match yanked_reason with
  | Some reason => [MkAdvisoryPolicyIssue PackageYanked ActionBlock None None reason]
  | None => []
  end ++ (advisory_issue <$> advisory_matches name version advisories).

Definition is_blocked (issues : list AdvisoryPolicyIssue) : bool :=
  any (λ i, ai_action i = ActionBlock) issues.

Definition blocking_codes (issues : list AdvisoryPolicyIssue) : list string :=
  (λ i, advisory_code_str (ai_code i)) <$> filter (λ i, ai_action i = ActionBlock) issues.
End Advisories.

(* ------------------------------------------------------------------ *)
(** ** Patterns *)

Lemma strip_wildcard_iff s p : strip_wildcard s = Some p ↔ s = (p +:+ ":*").
Proof.
  revert p. induction s as [|c s IH]; intros p.
  { split; [done|]. by destruct p. }
  cbn [strip_wildcard]. case_decide as Hs.
  - rewrite Hs. split; [by intros [= <-]|]. by destruct p as [|x [|y [|z p]]].
  - transitivity (∃ q, p = String c q ∧ strip_wildcard s = Some q).
    { destruct (strip_wildcard s); naive_solver. }
    destruct p as [|x p]; [rewrite append_nil|rewrite append_cons; setoid_rewrite IH]; naive_solver.
Qed.

Lemma before_colon_iff s p :
  before_colon s = p ↔ no_char ":" p = true ∧ (s = p ∨ ∃ r, s = (p +:+ (":" +:+ r))).
Proof.
  unfold before_colon. split.
  - destruct (split_once ":" s) as [[l r]|] eqn:E; intros <-.
    + apply split_once_Some in E as [-> Hl]. split; [done|]. right. by exists r.
    + apply split_once_None in E. split; [done|]. by left.
  - intros [Hp [->|[r ->]]].
    + by rewrite (proj2 (split_once_None _ _)).
    + assert (split_once ":" (p +:+ (":" +:+ r)) = Some (p, r)) as ->; [|done].
      by apply split_once_Some.
Qed.

(** A rule [p:*] covers the capability [p] and those of the form [p:...], and
    a prefix that itself has a colon covers none; any other rule covers the
    capability it spells. *)
Theorem wildcard_rules cap p :
  (pattern_matches cap (p +:+ ":*") = true ↔
     no_char ":" p = true ∧ (cap = p ∨ ∃ r, cap = (p +:+ (":" +:+ r)))) ∧
  (∀ pattern, (∀ q, pattern ≠ (q +:+ ":*")) → pattern_matches cap pattern = true ↔ cap = pattern).
Proof.
  unfold pattern_matches. split.
  - assert (strip_wildcard (p +:+ ":*") = Some p) as -> by by apply strip_wildcard_iff.
    by rewrite bool_decide_eq_true, before_colon_iff.
  - intros pattern Hp. destruct (strip_wildcard pattern) as [q|] eqn:E.
    + apply strip_wildcard_iff in E. by destruct (Hp q).
    + apply bool_decide_eq_true.
Qed.

(* ------------------------------------------------------------------ *)
(** ** The production policy, as a specification *)

Definition policy_satisfied `{SemverBackend} (m : PackageManifest) (policy : PackageProductionPolicy)
  : Prop :=
  (∀ cap, cap ∈ pm_required_capabilities m ++ pm_exported_capabilities m →
     capability_verdict (pp_capability_policies policy) cap = PolicyAllow) ∧
  (∀ e p, e ∈ pm_exports m → p ∈ pp_denied_exports policy → pattern_matches (ed_name e) p = false) ∧
  (∀ i p, i ∈ pm_imports m → p ∈ pp_denied_imports policy →
     pattern_matches (id_source_package i) p = false) ∧
  (pp_allowed_licenses policy = [] ∨
   ∃ l, pm_license m = Some l ∧ trim l ≠ "" ∧ trim l ∈ trim <$> pp_allowed_licenses policy) ∧
  (∀ t, pp_minimum_trust policy = Some t → satisfies (pm_trust_level m) t = true) ∧
  (∀ p, pp_deployment_profile policy = Some p → trust_gate (pm_trust_level m) p ≠ GateDeny) ∧
  (pp_require_publish_ready policy = true → publishable m).

Lemma capability_diagnostics_nil path policies caps :
  push_capability_policy_diagnostics path policies caps = [] ↔
  ∀ cap, cap ∈ caps → capability_verdict policies cap = PolicyAllow.
Proof.
  unfold push_capability_policy_diagnostics. apply imap_join_nil. intros index cap.
  unfold capability_verdict. rewrite find_first_list_find.
  destruct (list_find _ policies) as [[i p]|]; [|done]. cbn. by destruct (cp_verdict p).
Qed.

Lemma name_diagnostics_nil kind path message patterns names :
  push_name_diagnostics kind path message patterns names = [] ↔
  ∀ name, name ∈ names → ∀ p, p ∈ patterns → pattern_matches name p = false.
Proof.
  unfold push_name_diagnostics. apply imap_join_nil. intros index name.
  unfold first_matching_pattern_index, position.
  destruct (list_find _ patterns) as [[i p]|] eqn:E; cbn.
  - apply list_find_Some in E as (Hp & Hm & _). split; [done|]. intros Hn.
    rewrite (Hn p) in Hm; [done|]. by eapply list_elem_of_lookup_2.
  - split; [|done]. intros _ p Hp. apply list_find_None in E. rewrite Forall_forall in E.
    by apply not_true_iff_false, E.
Qed.

Lemma license_diagnostic_nil license allowed :
  push_license_policy_diagnostic license allowed = [] ↔
  allowed = [] ∨ ∃ l, license = Some l ∧ trim l ≠ "" ∧ trim l ∈ trim <$> allowed.
Proof.
  unfold push_license_policy_diagnostic, license_allowed. case_bool_decide; [by split; [left|]|].
  cbn [orb]. destruct license as [l|]; [|naive_solver]. case_bool_decide; naive_solver.
Qed.

Lemma trust_diagnostics_nil trust minimum profile :
  push_trust_policy_diagnostics trust minimum profile = [] ↔
  (∀ t, minimum = Some t → satisfies trust t = true) ∧
  (∀ p, profile = Some p → trust_gate trust p ≠ GateDeny).
Proof.
  unfold push_trust_policy_diagnostics. rewrite app_nil. f_equiv.
  - destruct minimum as [t|]; [|naive_solver]. destruct (satisfies trust t) eqn:E.
    + split; [by intros _ ? [= <-]|done].
    + split; [done|]. intros Hs. specialize (Hs t eq_refl). congruence.
  - destruct profile as [p|]; [|naive_solver]. case_decide as E.
    + split; [done|]. intros Hs. by destruct (Hs p).
    + split; [by intros _ ? [= <-]|done].
Qed.

(** A production policy check passes exactly the manifests that satisfy every
    clause of the policy: no capability that the first matching rule does not
    allow, no denied export or import, an allowed license, enough trust for the
    minimum and for the deployment profile, and readiness to publish where that
    is asked for.  The report lists each departure once. *)
Theorem production_policy_exact `{SemverBackend} m policy :
  (policy_check m policy = Ok () ↔ policy_satisfied m policy) ∧
  NoDup (policy_diagnostics m policy).
Proof.
  split; [|apply collect_sorted_NoDup].
  transitivity (policy_diagnostics m policy = []).
  { unfold policy_check. by destruct (policy_diagnostics m policy). }
  unfold policy_diagnostics, policy_satisfied.
  rewrite collect_sorted_nil, !app_nil, !capability_diagnostics_nil, !name_diagnostics_nil,
    license_diagnostic_nil, trust_diagnostics_nil.
  setoid_rewrite elem_of_app. setoid_rewrite list_elem_of_fmap.
  assert ((if pp_require_publish_ready policy then push_publish_policy_diagnostics m else []) = [] ↔
          (pp_require_publish_ready policy = true → publishable m)) as ->.
  { rewrite <- production_issues_nil. unfold push_publish_policy_diagnostics.
    destruct (pp_require_publish_ready policy); [|by split].
    split; [by intros Hn%fmap_nil_inv _|intros Hp; by rewrite (Hp eq_refl)]. }
  split.
  - intros (Hr & He & Hx & Hi & Hl & [Ht Hp] & Hpub). split; [by intros cap [?|?]; auto|].
    split; [by intros e p ??; apply Hx; [exists e|]|].
    split; [by intros i p ??; apply Hi; [exists i|]|]. done.
  - intros (Hc & Hx & Hi & Hl & Ht & Hp & Hpub). split; [by auto|]. split; [by auto|].
    split; [by intros ? (e & -> & ?) p ?; eauto|]. split; [by intros ? (i & -> & ?) p ?; eauto|]. done.
Qed.

(* ------------------------------------------------------------------ *)
(** ** The advisory gate *)

Section AdvisoryGate.
Context `{Semver}.

Lemma advisory_key_inj a b : advisory_key a = advisory_key b → a = b.
Proof.
  destruct a as [i p c s r], b as [i' p' c' s' r']. unfold advisory_key. cbn.
  intros [= Hs -> -> -> ->]. f_equal. destruct s, s'; done.
Qed.

Definition blocks (a : SecurityAdvisory) : Prop := (2 ≤ severity_rank (sa_severity a))%N.

(** The rank of an issue in the documented order *)
Definition code_rank (c : AdvisoryPolicyIssueCode) : N :=
  match c with PackageYanked => 0 | AdvisoryCritical => 1 | AdvisoryHigh => 2 | AdvisoryWarning => 3 end.

Lemma advisory_matches_sorted name version advisories :
  StronglySorted (λ i j, code_rank (ai_code i) ≤ code_rank (ai_code j))%N
    (advisory_issue <$> advisory_matches name version advisories).
Proof.
  assert (StronglySorted (on_le advisory_key) (advisory_matches name version advisories)) as Hs
    by apply sort_on_sorted.
  induction Hs as [|a l Hs IH Hall]; cbn; [constructor|]. constructor; [done|].
  apply Forall_fmap. eapply Forall_impl; [done|]. intros b Hab. cbn.
  unfold on_le, cmp_le, advisory_key, cmp, prod_cmp in Hab. cbn in Hab. unfold cmp, N_cmp in Hab.
  unfold advisory_issue. by destruct (sa_severity a), (sa_severity b).
Qed.

(** The advisory gate.  Its report does not depend on the order in which the
    advisories are kept; it comes in the documented order, a yank before critical,
    high and other advisories, each affecting advisory once; and the package is
    blocked exactly when it is yanked or a high or critical advisory affects it. *)
Theorem advisory_gate name version yanked advisories :
  (∀ advisories', advisories ≡ₚ advisories' →
     advisory_evaluate name version yanked advisories' = advisory_evaluate name version yanked advisories) ∧
  StronglySorted (λ i j, code_rank (ai_code i) ≤ code_rank (ai_code j))%N
    (advisory_evaluate name version yanked advisories) ∧
  (is_blocked (advisory_evaluate name version yanked advisories) = true ↔
     is_Some yanked ∨ ∃ a, a ∈ advisories ∧ affects name version a ∧ blocks a).
Proof.
  unfold advisory_evaluate. split; [|split].
  - intros advisories' Hp. unfold advisory_matches. do 2 f_equal. symmetry.
    apply sort_on_proper; [by rewrite Hp|]. intros a b _ _. apply advisory_key_inj.
  - destruct yanked; [|apply advisory_matches_sorted]. constructor; [apply advisory_matches_sorted|].
    apply Forall_fmap, Forall_true. intros a. cbn. lia.
  - unfold is_blocked. rewrite any_true. setoid_rewrite elem_of_app.
    setoid_rewrite list_elem_of_fmap. unfold advisory_matches. setoid_rewrite sort_on_elem.
    setoid_rewrite list_elem_of_filter. split.
    + intros (i & [Hy|(a & -> & Ha & Hin)] & Hb); 
        [left; destruct yanked; [by eexists|by apply not_elem_of_nil in Hy]|].
      right. exists a. split; [done|]. split; [done|]. unfold blocks, advisory_issue in *.
      by destruct (sa_severity a).
    + intros [[reason ->]|(a & Hin & Ha & Hb)].
      * eexists. split; [left; by left|done].
      * exists (advisory_issue a). split; [by right; eauto|].
        unfold blocks, advisory_issue in *. by destruct (sa_severity a).
Qed.
End AdvisoryGate.
