(* ===== verification/Signing.v ===== *)
(** * Signed packages, the transparency log and the registry

    ail-package/src/signing.rs, registry.rs and yank.rs, with
    [PackageManifest::blake3_hex] of manifest.rs.  A signature covers the hex
    digest of the manifest; Ed25519 is [RemoteBackend], CBOR the class
    [PackageCodec].  The sequence counter of the log is a [u64] that wraps
    around (a debug build panics there instead). *)

From S2P Require Import Prelude Text Trim ChangeModel Remote Ordering Packages.

Record PackageSignature : Type := MkPackageSignature {
  ps_signer : list N;
  ps_signature : list N;
}.

Record SignedPackage : Type := MkSignedPackage {
  sp_manifest : PackageManifest;
  sp_sig : PackageSignature;
}.

(** [into_writer] of ciborium at the types of the crate that are hashed *)
Class PackageCodec : Type := {
  cbor_package : PackageManifest → result (list N) string;
  cbor_report : PackageVerificationReport → result (list N) string;
  cbor_signed : SignedPackage → result (list N) string;
}.

Inductive SigningError : Type :=
| SignatureInvalid
| HashError (msg : string).

Inductive PackageSigningDiagnosticKind : Type :=
| KindMissingSignature
| KindManifestHashInvalid
| KindSignatureInvalid
| KindUntrustedKey
| KindKeyExpired
| KindKeyRevoked.

Definition signing_kind_rank (k : PackageSigningDiagnosticKind) : N :=
  match k with
  | KindMissingSignature => 0 | KindManifestHashInvalid => 1 | KindSignatureInvalid => 2
  | KindUntrustedKey => 3 | KindKeyExpired => 4 | KindKeyRevoked => 5
  end.

Definition signing_code (k : PackageSigningDiagnosticKind) : string :=
  match k with
  | KindMissingSignature => "package.signing.missing_signature"
  | KindManifestHashInvalid => "package.signing.manifest_hash_invalid"
  | KindSignatureInvalid => "package.signing.signature_invalid"
  | KindUntrustedKey => "package.signing.key_untrusted"
  | KindKeyExpired => "package.signing.key_expired"
  | KindKeyRevoked => "package.signing.key_revoked"
  end.

Definition signing_category (k : PackageSigningDiagnosticKind) : string :=
  match k with
  | KindMissingSignature => "signature_presence"
  | KindManifestHashInvalid => "manifest_integrity"
  | KindSignatureInvalid => "signature_integrity"
  | KindUntrustedKey | KindKeyExpired | KindKeyRevoked => "key_trust"
  end.

Record PackageSigningKeyShape : Type := MkPackageSigningKeyShape {
  ks_algorithm : string;
  ks_byte_len : nat;
  ks_redacted : bool;
}.

Definition key_shape (s : PackageSignature) : PackageSigningKeyShape :=
  MkPackageSigningKeyShape "ed25519" (length (ps_signer s)) true.

Record PackageSigningDiagnostic : Type := MkPackageSigningDiagnostic {
  sg_kind : PackageSigningDiagnosticKind;
  sg_code : string;
  sg_category : string;
  sg_package_name : string;
  sg_package_version : string;
  sg_signer_key : option PackageSigningKeyShape;
  sg_message : string;
  sg_redacted : bool;
}.

Definition package_signing_diagnostic_message (k : PackageSigningDiagnosticKind) (m : PackageManifest)
  : string :=
  "package '" +:+ (pm_name m +:+ ("' version '" +:+ (pm_version m +:+ ("' " +:+
    match k with
    | KindMissingSignature => "is missing a package signature"
    | KindManifestHashInvalid => "manifest hash could not be computed"
    | KindSignatureInvalid => "signature is invalid"
    | KindUntrustedKey => "signer key is not trusted"
    | KindKeyExpired => "signer key is expired"
    | KindKeyRevoked => "signer key is revoked"
    end)))).

(** [PackageSigningDiagnostic::new] *)
Definition signing_diagnostic (k : PackageSigningDiagnosticKind) (m : PackageManifest)
    (s : option PackageSignature) : PackageSigningDiagnostic :=
  MkPackageSigningDiagnostic k (signing_code k) (signing_category k) (pm_name m) (pm_version m)
    (key_shape <$> s) (package_signing_diagnostic_message k m) true.

Record PackageSigningDiagnosticReport : Type := MkPackageSigningDiagnosticReport {
  sgr_accepted : bool;
  sgr_package_name : string;
  sgr_package_version : string;
  sgr_issues : list PackageSigningDiagnostic;
}.

Definition package_signing_diagnostic_report (m : PackageManifest)
    (issues : list PackageSigningDiagnostic) : PackageSigningDiagnosticReport :=
  MkPackageSigningDiagnosticReport (bool_decide (length issues = 0)) (pm_name m) (pm_version m) issues.

Definition package_signing_diagnostic_sort_key (i : PackageSigningDiagnostic)
  : N * string * string * nat :=
  (signing_kind_rank (sg_kind i), sg_package_name i, sg_package_version i,
   default 0 (ks_byte_len <$> sg_signer_key i)).

Definition diagnostic_kind_from_signing_error (e : SigningError) : PackageSigningDiagnosticKind :=
  match e with SignatureInvalid => KindSignatureInvalid | HashError _ => KindManifestHashInvalid end.

Record TransparencyLogEntry : Type := MkTransparencyLogEntry {
  tl_log_id : string;
  tl_sequence : N;
  tl_package_name : string;
  tl_package_version : string;
  tl_signed_package_hash : string;
  tl_publisher_key_hex : string;
}.

Record TransparencyLog : Type := MkTransparencyLog {
  tl_entries : list TransparencyLogEntry;
  tl_next_sequence : N;
}.

Definition log_new : TransparencyLog := MkTransparencyLog [] 0.

Record YankRecord : Type := MkYankRecord {
  yk_name : string;
  yk_version : string;
  yk_reason : string;
}.

Record PackageRegistry : Type := MkPackageRegistry {
  rg_manifests : list PackageManifest;
  rg_signed_packages : list SignedPackage;
  rg_yanked : list YankRecord;
}.

Definition registry_new : PackageRegistry := MkPackageRegistry [] [] [].

Section Signing.
Context `{HashBackend, RemoteBackend, PackageCodec}.

(** [PackageManifest::blake3_hex] *)
Definition package_blake3_hex (m : PackageManifest) : result string string :=
  match cbor_package m with
  | Ok bytes => Ok (to_hex (blake3 bytes))
  | Err e => Err ("CBOR serialization failed: " +:+ e)
  end.

(** [SignedPackage::verify]: a malformed key is reported as a bad signature. *)
Definition signed_verify (p : SignedPackage) : result unit SigningError :=
  match package_blake3_hex (sp_manifest p) with
  | Err e => Err (HashError e)
  | Ok hash_hex =>
      if ed25519_verify (ps_signer (sp_sig p)) (string_bytes hash_hex) (ps_signature (sp_sig p))
      then Ok () else Err SignatureInvalid
  end.

(** [PackageKeypair::sign_manifest] *)
Definition sign_manifest (secret : list N) (m : PackageManifest) : result SignedPackage SigningError :=
  match package_blake3_hex m with
  | Err e => Err (HashError e)
  | Ok hash_hex =>
      Ok (MkSignedPackage m
            (MkPackageSignature (ed25519_public_key secret) (ed25519_sign secret (string_bytes hash_hex))))
  end.

Definition signature_issues (m : PackageManifest) (s : PackageSignature) : list PackageSigningDiagnostic :=
  match signed_verify (MkSignedPackage m s) with
  | Ok _ => []
  | Err e => [signing_diagnostic (diagnostic_kind_from_signing_error e) m (Some s)]
  end.

Definition key_trust_issues (policy : PackageSigningTrustPolicy) (m : PackageManifest)
    (s : PackageSignature) : list PackageSigningDiagnostic :=
  match trust_for_key (ps_signer s) policy with
  | Some KeyTrusted => []
  | Some KeyExpired => [signing_diagnostic KindKeyExpired m (Some s)]
  | Some KeyRevoked => [signing_diagnostic KindKeyRevoked m (Some s)]
  | None => [signing_diagnostic KindUntrustedKey m (Some s)]
  end.

Definition diagnose_package_signing_trust (m : PackageManifest) (signature : option PackageSignature)
    (policy : PackageSigningTrustPolicy) : PackageSigningDiagnosticReport :=
  match signature with
  | None => package_signing_diagnostic_report m [signing_diagnostic KindMissingSignature m None]
  | Some s =>
      package_signing_diagnostic_report m
        (sort_on package_signing_diagnostic_sort_key (signature_issues m s ++ key_trust_issues policy m s))
  end.

(** [TransparencyLog::append] *)
Definition log_append (log_id : string) (signed : SignedPackage) (log : TransparencyLog)
  : TransparencyLog * result TransparencyLogEntry SigningError :=
  match signed_verify signed with
  | Err e => (log, Err e)
  | Ok _ =>
      match cbor_signed signed with
      | Err e => (log, Err (HashError ("CBOR error: " +:+ e)))
      | Ok bytes =>
          let entry := MkTransparencyLogEntry log_id (tl_next_sequence log)
                         (pm_name (sp_manifest signed)) (pm_version (sp_manifest signed))
                         (to_hex (blake3 bytes)) (to_hex (ps_signer (sp_sig signed))) in
          (MkTransparencyLog (tl_entries log ++ [entry]) (u64_add (tl_next_sequence log) 1), Ok entry)
      end
  end.

(* ------------------------------------------------------------------ *)
(** ** The registry *)

Definition register (m : PackageManifest) (r : PackageRegistry) : PackageRegistry :=
  MkPackageRegistry (rg_manifests r ++ [m]) (rg_signed_packages r) (rg_yanked r).

Definition register_signed (p : SignedPackage) (r : PackageRegistry)
  : PackageRegistry * result unit SigningError :=
  match signed_verify p with
  | Err e => (r, Err e)
  | Ok _ =>
      (MkPackageRegistry (rg_manifests r ++ [sp_manifest p]) (rg_signed_packages r ++ [p]) (rg_yanked r),
       Ok ())
  end.

Definition lookup_by_name_version (name version : string) (r : PackageRegistry) : option PackageManifest :=
  find_first (λ m, pm_name m = name ∧ pm_version m = version) (rg_manifests r).

Definition lookup_signed_by_name_version (name version : string) (r : PackageRegistry)
  : option SignedPackage :=
  find_first (λ p, pm_name (sp_manifest p) = name ∧ pm_version (sp_manifest p) = version)
    (rg_signed_packages r).

Definition yank (name version reason : string) (r : PackageRegistry) : PackageRegistry :=
  MkPackageRegistry (rg_manifests r) (rg_signed_packages r)
    (rg_yanked r ++ [MkYankRecord name version reason]).

Definition is_yanked (name version : string) (r : PackageRegistry) : bool :=
  any (λ y, yk_name y = name ∧ yk_version y = version) (rg_yanked r).

(* ------------------------------------------------------------------ *)
(** ** Publishing as steps *)

Inductive PublishOp : Type :=
| OpRegister (m : PackageManifest)
| OpRegisterSigned (p : SignedPackage)
| OpYank (name version reason : string)
| OpLog (log_id : string) (p : SignedPackage).

Definition publish_step (st : PackageRegistry * TransparencyLog) (op : PublishOp)
  : PackageRegistry * TransparencyLog :=
  match op with
  | OpRegister m => (register m st.1, st.2)
  | OpRegisterSigned p => ((register_signed p st.1).1, st.2)
  | OpYank name version reason => (yank name version reason st.1, st.2)
  | OpLog log_id p => (st.1, (log_append log_id p st.2).1)
  end.

Definition publish_run : PackageRegistry * TransparencyLog → list PublishOp →
  PackageRegistry * TransparencyLog := foldl publish_step.

(** A signed package is authentic: its manifest has a CBOR encoding, and the
    signature verifies under the signer's key over the hex digest of that
    encoding. *)
Definition authentic (p : SignedPackage) : Prop :=
  ∃ bytes, cbor_package (sp_manifest p) = Ok bytes ∧
    ed25519_verify (ps_signer (sp_sig p)) (string_bytes (to_hex (blake3 bytes)))
      (ps_signature (sp_sig p)) = true.

Lemma signed_verify_Ok p : signed_verify p = Ok () ↔ authentic p.
Proof.
  unfold signed_verify, package_blake3_hex, authentic.
  destruct (cbor_package _) as [bytes|]; [|by split; [|intros (? & ? & _)]].
  destruct (ed25519_verify _ _ _) eqn:E; [by split; [exists bytes|]|].
  split; [done|]. intros (? & [= <-] & ?). congruence.
Qed.

#[global] Instance authentic_dec p : Decision (authentic p).
Proof.
  destruct (signed_verify p) as [[]|] eqn:E; [left|right]; rewrite <- signed_verify_Ok; congruence.
Defined.

Lemma signed_verify_cases p :
  (authentic p ∧ signed_verify p = Ok ()) ∨ (¬ authentic p ∧ ∃ e, signed_verify p = Err e).
Proof.
  pose proof (signed_verify_Ok p) as Hp. destruct (signed_verify p) as [[]|e]; [left|right]; naive_solver.
Qed.

(** What each operation contributes, if it contributes anything. *)
Definition published (op : PublishOp) : option PackageManifest :=
  match op with
  | OpRegister m => Some m
  | OpRegisterSigned p => if decide (authentic p) then Some (sp_manifest p) else None
  | _ => None
  end.

Definition published_signed (op : PublishOp) : option SignedPackage :=
  match op with
  | OpRegisterSigned p => if decide (authentic p) then Some p else None
  | _ => None
  end.

Definition withdrawn (op : PublishOp) : option YankRecord :=
  match op with OpYank name version reason => Some (MkYankRecord name version reason) | _ => None end.

Definition logged (op : PublishOp) : option (string * SignedPackage * list N) :=
  match op with
  | OpLog log_id p =>
      if decide (authentic p) then
        match cbor_signed p with Ok bytes => Some (log_id, p, bytes) | Err _ => None end
      else None
  | _ => None
  end.

(** The entry for the package logged at position [n]. *)
Definition log_entry (n : nat) (l : string * SignedPackage * list N) : TransparencyLogEntry :=
  let '(log_id, p, bytes) := l in
  MkTransparencyLogEntry log_id (N.of_nat n mod u64_modulus)%N (pm_name (sp_manifest p))
    (pm_version (sp_manifest p)) (to_hex (blake3 bytes)) (to_hex (ps_signer (sp_sig p))).

Definition registry_of (ops : list PublishOp) : PackageRegistry :=
  MkPackageRegistry (omap published ops) (omap published_signed ops) (omap withdrawn ops).

Definition log_of (ops : list PublishOp) : TransparencyLog :=
  MkTransparencyLog (imap log_entry (omap logged ops))
    (N.of_nat (length (omap logged ops)) mod u64_modulus)%N.

Lemma publish_registry_snoc ops op :
  (publish_step (registry_of ops, log_of ops) op).1 = registry_of (ops ++ [op]).
Proof.
  unfold registry_of. rewrite !omap_app. destruct op as [m|p|name version reason|log_id p];
    cbn; rewrite ?app_nil_r; try done.
  unfold register_signed. destruct (signed_verify_cases p) as [[Ha ->]|[Ha [e ->]]]; cbn.
  - by rewrite !decide_True by done.
  - by rewrite !decide_False, !app_nil_r by done.
Qed.

Lemma publish_log_snoc ops op :
  (publish_step (registry_of ops, log_of ops) op).2 = log_of (ops ++ [op]).
Proof.
  unfold log_of. rewrite !omap_app. destruct op as [m|p|name version reason|log_id p];
    cbn; rewrite ?app_nil_r; try done.
  unfold log_append. destruct (signed_verify_cases p) as [[Ha ->]|[Ha [e ->]]]; cbn.
  - rewrite !decide_True by done. destruct (cbor_signed p) as [bytes|]; cbn; rewrite ?app_nil_r; [|done].
    rewrite imap_app, length_app. cbn. rewrite Nat.add_0_r. f_equal. unfold u64_add.
    rewrite N.Div0.add_mod_idemp_l. f_equal. lia.
  - by rewrite !decide_False, !app_nil_r by done.
Qed.

Lemma publish_run_exact ops :
  publish_run (registry_new, log_new) ops = (registry_of ops, log_of ops).
Proof.
  unfold publish_run. induction ops as [|op ops IH] using rev_ind; [done|].
  rewrite foldl_snoc, IH, <- publish_registry_snoc, <- publish_log_snoc. by destruct (publish_step _ op).
Qed.

(** C39: the contents of the registry and of the transparency log after any sequence
    of registrations, yanks and log requests, started empty.  The signed packages are
    exactly the authentic ones submitted, in order; the indexed manifests are those
    registered without a signature and those of the authentic packages, and of nobody
    else; yank records accumulate and remove nothing; the log has one entry per
    authentic package logged that can be encoded, with its position (modulo [2^64]) as
    sequence number, its name, version, digest and key.  A signed registration is
    answered [Ok] exactly when the package is authentic, and otherwise changes
    nothing.  Authentic: the Ed25519 signature verifies, under the key the package
    carries, over the hex digest of the manifest's CBOR encoding; whether that key is
    trusted is not asked here. *)
Theorem registry_provenance ops :
  let st := publish_run (registry_new, log_new) ops in
  rg_signed_packages st.1 = omap published_signed ops ∧
  rg_manifests st.1 = omap published ops ∧
  rg_yanked st.1 = omap withdrawn ops ∧
  tl_entries st.2 = imap log_entry (omap logged ops) ∧
  ∀ p, ((register_signed p st.1).2 = Ok () ↔ authentic p) ∧
       (¬ authentic p → (register_signed p st.1).1 = st.1).
Proof.
  rewrite publish_run_exact. split_and!; [done..|]. intros p. unfold register_signed.
  destruct (signed_verify_cases p) as [[Ha ->]|[Ha [e ->]]]; cbn; by split.
Qed.

Lemma length_zero_nil {A} (l : list A) : bool_decide (length l = 0) = true ↔ l = [].
Proof. rewrite bool_decide_eq_true. apply length_zero_iff_nil. Qed.

(** The signing report accepts exactly a manifest with a signature that
    verifies under a trusted key, and it reveals of key and signature only the
    key's length, whether the signature verified and how the key is trusted. *)
Theorem signing_report_exact m policy :
  (∀ signature, sgr_accepted (diagnose_package_signing_trust m signature policy) = true ↔
     ∃ s, signature = Some s ∧ signed_verify (MkSignedPackage m s) = Ok () ∧
          trust_for_key (ps_signer s) policy = Some KeyTrusted) ∧
  (∀ s s' policy',
     length (ps_signer s) = length (ps_signer s') ∧
     signed_verify (MkSignedPackage m s) = signed_verify (MkSignedPackage m s') ∧
     trust_for_key (ps_signer s) policy = trust_for_key (ps_signer s') policy' →
     diagnose_package_signing_trust m (Some s) policy = diagnose_package_signing_trust m (Some s') policy').
Proof.
  split.
  - intros [s|]; cbn; [|split; [done|naive_solver]].
    rewrite length_zero_nil, sort_on_nil, app_nil. unfold signature_issues, key_trust_issues. split.
    + intros [Hv Ht]. exists s. split; [done|].
      destruct (signed_verify _) as [[]|]; [|done]. by destruct (trust_for_key _ _) as [[]|].
    + by intros (? & [= <-] & -> & ->).
  - intros s s' policy' (Hl & Hv & Ht). cbn. unfold signature_issues, key_trust_issues.
    rewrite Hv, Ht. unfold signing_diagnostic. cbn. unfold key_shape. by rewrite Hl.
Qed.

(** Signing and verifying agree: what a keypair signs verifies, names the
    keypair's public key, and is accepted wherever that key is trusted. *)
Theorem signing_roundtrip `{!RemoteLaws} secret m p :
  sign_manifest secret m = Ok p →
  signed_verify p = Ok () ∧ sp_manifest p = m ∧ ps_signer (sp_sig p) = ed25519_public_key secret ∧
  ∀ policy, sgr_accepted (diagnose_package_signing_trust m (Some (sp_sig p)) policy) = true ↔
            trust_for_key (ed25519_public_key secret) policy = Some KeyTrusted.
Proof.
  unfold sign_manifest. destruct (package_blake3_hex m) as [h|] eqn:Eh; [|done]. intros [= <-].
  assert (signed_verify (MkSignedPackage m (MkPackageSignature (ed25519_public_key secret)
            (ed25519_sign secret (string_bytes h)))) = Ok ()) as Hv.
  { unfold signed_verify. cbn. rewrite Eh. by rewrite ed25519_sign_verify. }
  split_and!; [done..|]. intros policy. cbn.
  rewrite length_zero_nil, sort_on_nil, app_nil. unfold signature_issues, key_trust_issues.
  rewrite Hv. cbn. destruct (trust_for_key _ _) as [[]|]; naive_solver.
Qed.
End Signing.

Module SigningSample.

(** A digest that is never empty, and a codec that writes name and version *)
Definition test_hash : HashBackend := {|
  blake3 := λ bytes, 0%N :: bytes;
  cbor_node := @cbor_node test_backend;
  cbor_op := @cbor_op test_backend;
|}.

Definition test_codec : PackageCodec := {|
  cbor_package := λ m, Ok (string_bytes (pm_name m +:+ pm_version m));
  cbor_report := λ r, Ok [];
  cbor_signed := λ p, Ok (ps_signature (sp_sig p));
|}.

Definition plain_package (name version : string) : PackageManifest :=
  MkPackageManifest name version Verified [] [] [] [] [] None [] [] [] [] [] None None None None None None.

Lemma signing_roundtrip_witness :
  match @sign_manifest test_hash test_remote test_codec [7%N] (plain_package "a" "1.0.0") with
  | Ok p =>
      @signed_verify test_hash test_remote test_codec p = Ok ()
  | Err _ => False
  end.
Proof.
  cbn [sign_manifest package_blake3_hex cbor_package test_codec].
  refine (proj1 (@signing_roundtrip test_hash test_remote test_codec test_remote_laws [7%N]
    (plain_package "a" "1.0.0") _ _)). reflexivity.
Defined.
(** Two packages under the key [7], the second with a signature of the first's digest:
    the registry has the first only. *)
Definition genuine : SignedPackage :=
  MkSignedPackage (plain_package "a" "1.0.0")
    (MkPackageSignature [7%N] (7%N :: string_bytes (to_hex (0%N :: string_bytes "a1.0.0")))).
Definition forged : SignedPackage := MkSignedPackage (plain_package "b" "1.0.0") (sp_sig genuine).

Lemma registry_provenance_witness :
  let ops := [OpRegisterSigned forged; OpRegisterSigned genuine; OpYank "a" "1.0.0" "broken";
              OpLog "log" forged; OpLog "log" genuine] in
  let st := @publish_run test_hash test_remote test_codec (registry_new, log_new) ops in
  rg_signed_packages st.1 = [genuine] ∧
  (tl_package_name <$> tl_entries st.2) = ["a"] ∧
  ¬ @authentic test_hash test_remote test_codec forged.
Proof.
  intros ops st.
  assert (@authentic test_hash test_remote test_codec genuine) as Hg.
  { eexists. split; [reflexivity|]. vm_compute. reflexivity. }
  assert (¬ @authentic test_hash test_remote test_codec forged) as Hf.
  { intros (bytes & [= <-] & Hv). vm_compute in Hv. discriminate. }
  pose proof (@registry_provenance test_hash test_remote test_codec ops) as (Hs & _ & _ & Hl & _).
  split_and!; [| |done].
  - unfold st. rewrite Hs. cbn. by rewrite (decide_False _ _ Hf), (decide_True _ _ Hg).
  - unfold st. rewrite Hl. cbn. by rewrite (decide_False _ _ Hf), (decide_True _ _ Hg).
Defined.
End SigningSample.
