(* ===== verification/Resolver.v ===== *)
(** * Dependency resolution

    ail-package/src/resolver.rs.  [resolve] takes the highest registered version
    that a requirement accepts through the gates of yanks, advisories, trust,
    schema, license, capability and handler policy; [resolve_all] joins the
    results; [conflict_diagnostics] reports what is wrong with a set of
    dependencies, import cycles included. *)

From stdpp Require Import pretty.
From S2P Require Import Prelude Text Trim ChangeModel Remote Ordering Packages Versioning PackagePolicy Signing.

Record DependencySpec : Type := MkDependencySpec {
  ds_name : string;
  ds_version_constraint : string;
  ds_min_trust : PackageTrust;
  ds_profile : option DeploymentProfile;
  ds_allowed_licenses : list string;
  ds_denied_capabilities : list string;
  ds_denied_handlers : list string;
  ds_min_graph_schema : option N;
  ds_min_core_ir_schema : option N;
}.

Inductive ResolverError : Type :=
| InvalidVersionRequirement (name : string) (issue : VersionRequirementIssue)
| PackageNotFound (name version_constraint : string)
| Yanked (reason : string)
| AdvisoryHit (id : string) (severity : AdvisorySeverity)
| TrustViolation (actual required : PackageTrust)
| ProfilePolicyViolation (profile : DeploymentProfile) (trust_level : PackageTrust)
| LicenseViolation (actual_license : option string)
| CapabilityConflict (capability : string)
| HandlerConflict (handler : string)
| SchemaIncompatible (reason : string)
| ConflictingVersion (name v1 v2 : string).

Inductive ResolverDiagnosticKind : Type :=
| DuplicatePackage
| IncompatibleVersionRange
| MissingPackage
| InvalidRequirement
| MissingVersion
| DependencyCycle
| ConflictingSource.
#[global] Instance ResolverDiagnosticKind_eq_dec : EqDecision ResolverDiagnosticKind.
Proof. solve_decision. Defined.

Definition resolver_kind_rank (k : ResolverDiagnosticKind) : N :=
  match k with
  | DuplicatePackage => 0 | IncompatibleVersionRange => 1 | MissingPackage => 2
  | InvalidRequirement => 3 | MissingVersion => 4 | DependencyCycle => 5 | ConflictingSource => 6
  end.

Record ResolverDiagnostic : Type := MkResolverDiagnostic {
  rd_kind : ResolverDiagnosticKind;
  rd_package : string;
  rd_version : option string;
  rd_constraints : list string;
  rd_versions : list string;
  rd_related_packages : list string;
  rd_message : string;
  rd_redacted : bool;
}.

(* ------------------------------------------------------------------ *)
(** ** The constructors of diagnostics *)

Definition quoted (s : string) : string := "'" +:+ (s +:+ "'").

Definition duplicate_package (package : string) (constraints : list string) : ResolverDiagnostic :=
  MkResolverDiagnostic DuplicatePackage package None constraints [] []
    ("package " +:+ (quoted package +:+ (" is declared multiple times with constraints [" +:+
      (join ", " constraints +:+ "]")))) true.

Definition incompatible_version_range (package : string) (constraints versions : list string)
  : ResolverDiagnostic :=
  MkResolverDiagnostic IncompatibleVersionRange package None constraints versions []
    ("package " +:+ (quoted package +:+ (" constraints [" +:+
      (join ", " constraints +:+ "] cannot be satisfied by one registered version")))) true.

Definition missing_package (package constraint : string) : ResolverDiagnostic :=
  MkResolverDiagnostic MissingPackage package None [constraint] [] []
    ("package " +:+ (quoted package +:+
      (" is not present in the registry for constraint " +:+ quoted constraint))) true.

Definition invalid_version_requirement (package : string) (issue : VersionRequirementIssue)
  : ResolverDiagnostic :=
  MkResolverDiagnostic InvalidRequirement package None [] []
    ["shape=" +:+ (requirement_shape_str (vi_shape issue) +:+
       (";char_len=" +:+ (pretty (vi_char_len issue) +:+ ";category=requirement")))]
    ("package " +:+ (quoted package +:+ (" has invalid version requirement shape " +:+
      (quoted (requirement_shape_str (vi_shape issue)) +:+
        (" (" +:+ (requirement_code_str (vi_code issue) +:+ ")")))))) true.

Definition missing_version (package constraint : string) (versions : list string) : ResolverDiagnostic :=
  MkResolverDiagnostic MissingVersion package None [constraint] versions []
    ("package " +:+ (quoted package +:+
      (" has no registered version matching constraint " +:+ quoted constraint))) true.

Definition dependency_cycle (package : string) (related_packages : list string) : ResolverDiagnostic :=
  MkResolverDiagnostic DependencyCycle package None [] [] related_packages
    ("package dependency cycle detected: " +:+ join " -> " related_packages) true.

Definition conflicting_source (package version : string) (source_count : nat) : ResolverDiagnostic :=
  MkResolverDiagnostic ConflictingSource package (Some version) [] [version] []
    ("package " +:+ (quoted package +:+ (" version " +:+ (quoted version +:+ (" has " +:+
      (pretty source_count +:+ " distinct source descriptors (redacted)")))))) true.

Definition diagnostic_sort_key (d : ResolverDiagnostic)
  : string * N * option string * list string * list string * list string :=
  (rd_package d, resolver_kind_rank (rd_kind d), rd_version d, rd_constraints d, rd_versions d,
   rd_related_packages d).

(* ------------------------------------------------------------------ *)
(** ** Resolution *)

Section Resolve.
Context `{Semver}.

Definition manifest_version (m : PackageManifest) : option Version := version_parse (pm_version m).

(** One turn of the loop of [find_best_match]; [best] and [best_ver] are one pair. *)
Definition best_step (name : string) (requirement : VersionReq)
    (best : option (PackageManifest * Version)) (m : PackageManifest)
  : option (PackageManifest * Version) :=
  if decide (pm_name m ≠ name) then best
  else
    match manifest_version m with
    | None => best
    | Some version =>
        if negb (req_matches requirement version) then best
        else
          match best with
          | None => Some (m, version)
          | Some (_, prev) => if decide (cmp_lt prev version) then Some (m, version) else best
          end
    end.

Definition find_best_match (name version_constraint : string) (registry : PackageRegistry)
  : result (option PackageManifest) VersionRequirementIssue :=
  let? requirement := requirement_parse version_constraint in
  Ok (fst <$> foldl (best_step name requirement) None (rg_manifests registry)).

Definition canonical_conflict_versions (left right : string) : string * string :=
  match version_parse left, version_parse right with
  | Some left_ver, Some right_ver => if decide (cmp_lt right_ver left_ver) then (right, left) else (left, right)
  | _, _ => if decide (cmp_lt right left) then (right, left) else (left, right)
  end.

Definition schema_reason (field : string) (actual required : N) : string :=
  field +:+ (" " +:+ (pretty actual +:+ (" < required " +:+ pretty required))).

(** Step 6, for one of the two schemas *)
Definition schema_floor (field : string) (minimum actual : option N) : result unit ResolverError :=
  match minimum with
  | Some m =>
      if (default 0 actual <? m)%N
      then Err (SchemaIncompatible (schema_reason field (default 0%N actual) m)) else Ok ()
  | None => Ok ()
  end.

(** Step 7: [license.is_some_and(|l| allowed.iter().any(|a| a == l))] *)
Definition license_listed (license : option string) (allowed : list string) : bool :=
  match license with Some l => bool_decide (l ∈ allowed) | None => false end.

(** Step 2 *)
Definition yank_step (spec : DependencySpec) (yanks : list YankRecord) (m : PackageManifest)
  : result unit ResolverError :=
  match find_first (λ y, yk_name y = ds_name spec ∧ yk_version y = pm_version m) yanks with
  | Some y => Err (Yanked (yk_reason y))
  | None => Ok ()
  end.

(** Step 3 *)
Definition advisory_step (spec : DependencySpec) (advisories : list SecurityAdvisory)
    (m : PackageManifest) : result unit ResolverError :=
  match advisory_first_match (ds_name spec) (pm_version m) advisories with
  | Some adv => Err (AdvisoryHit (sa_id adv) (sa_severity adv))
  | None => Ok ()
  end.

(** Steps 4 and 5 *)
Definition trust_step (spec : DependencySpec) (m : PackageManifest) : result unit ResolverError :=
  if satisfies (pm_trust_level m) (ds_min_trust spec) then
    match ds_profile spec with
    | Some profile =>
        if decide (trust_gate (pm_trust_level m) profile = GateDeny)
        then Err (ProfilePolicyViolation profile (pm_trust_level m)) else Ok ()
    | None => Ok ()
    end
  else Err (TrustViolation (pm_trust_level m) (ds_min_trust spec)).

(** Step 7 *)
Definition license_step (spec : DependencySpec) (m : PackageManifest) : result unit ResolverError :=
  if bool_decide (ds_allowed_licenses spec = [])
     || license_listed (pm_license m) (ds_allowed_licenses spec)
  then Ok () else Err (LicenseViolation (pm_license m)).

(** Steps 8 and 9: the first denied name that the package has *)
Definition denied_step (error : string → ResolverError) (denied names : list string)
  : result unit ResolverError :=
  match find_first (λ x, x ∈ names) denied with
  | Some x => Err (error x)
  | None => Ok ()
  end.

(** Steps 2 to 9 of [resolve], on the manifest found *)
Definition admit_manifest (spec : DependencySpec) (advisories : list SecurityAdvisory)
    (yanks : list YankRecord) (m : PackageManifest) : result unit ResolverError :=
  let? _ := yank_step spec yanks m in
  let? _ := advisory_step spec advisories m in
  let? _ := trust_step spec m in
  let? _ := schema_floor "graph_schema" (ds_min_graph_schema spec) (pm_graph_schema m) in
  let? _ := schema_floor "core_ir_schema" (ds_min_core_ir_schema spec) (pm_core_ir_schema m) in
  let? _ := license_step spec m in
  let? _ := denied_step CapabilityConflict (ds_denied_capabilities spec) (pm_required_capabilities m) in
  denied_step HandlerConflict (ds_denied_handlers spec) (he_handler_name <$> pm_handlers m).

Definition resolve (spec : DependencySpec) (registry : PackageRegistry)
    (advisories : list SecurityAdvisory) (yanks : list YankRecord)
  : result PackageManifest ResolverError :=
  match find_best_match (ds_name spec) (ds_version_constraint spec) registry with
  | Err issue => Err (InvalidVersionRequirement (ds_name spec) issue)
  | Ok None => Err (PackageNotFound (ds_name spec) (ds_version_constraint spec))
  | Ok (Some m) => let? _ := admit_manifest spec advisories yanks m in Ok m
  end.

(** The loop of [resolve_all] with its [BTreeMap] *)
Fixpoint resolve_loop (registry : PackageRegistry) (advisories : list SecurityAdvisory)
    (yanks : list YankRecord) (specs : list DependencySpec) (resolved : gmap string PackageManifest)
  : result (gmap string PackageManifest) ResolverError :=
  match specs with
  | [] => Ok resolved
  | spec :: specs' =>
      let? m := resolve spec registry advisories yanks in
      match resolved !! pm_name m with
      | Some prev =>
          if decide (pm_version prev ≠ pm_version m) then
            let '(v1, v2) := canonical_conflict_versions (pm_version prev) (pm_version m) in
            Err (ConflictingVersion (pm_name m) v1 v2)
          else resolve_loop registry advisories yanks specs' resolved
      | None => resolve_loop registry advisories yanks specs' (<[pm_name m := m]> resolved)
      end
  end.

Definition resolve_all (specs : list DependencySpec) (registry : PackageRegistry)
    (advisories : list SecurityAdvisory) (yanks : list YankRecord)
  : result (list PackageManifest) ResolverError :=
  let? resolved := resolve_loop registry advisories yanks specs ∅ in
  Ok (map_iter resolved).*2.

(* ------------------------------------------------------------------ *)
(** ** What the gates let through *)

Definition admissible (spec : DependencySpec) (advisories : list SecurityAdvisory)
    (yanks : list YankRecord) (m : PackageManifest) : Prop :=
  (∀ y, y ∈ yanks → ¬ (yk_name y = ds_name spec ∧ yk_version y = pm_version m)) ∧
  (∀ a, a ∈ advisories → ¬ affects (ds_name spec) (pm_version m) a) ∧
  satisfies (pm_trust_level m) (ds_min_trust spec) = true ∧
  (∀ p, ds_profile spec = Some p → trust_gate (pm_trust_level m) p ≠ GateDeny) ∧
  (∀ n, ds_min_graph_schema spec = Some n → (n ≤ default 0 (pm_graph_schema m))%N) ∧
  (∀ n, ds_min_core_ir_schema spec = Some n → (n ≤ default 0 (pm_core_ir_schema m))%N) ∧
  (ds_allowed_licenses spec = [] ∨ ∃ l, pm_license m = Some l ∧ l ∈ ds_allowed_licenses spec) ∧
  (∀ cap, cap ∈ ds_denied_capabilities spec → cap ∉ pm_required_capabilities m) ∧
  (∀ h, h ∈ ds_denied_handlers spec → h ∉ he_handler_name <$> pm_handlers m).

Lemma schema_floor_ok field minimum actual :
  schema_floor field minimum actual = Ok () ↔ ∀ n, minimum = Some n → (n ≤ default 0 actual)%N.
Proof.
  unfold schema_floor. destruct minimum as [n|]; [|naive_solver].
  destruct (N.ltb_spec (default 0%N actual) n) as [Hl|Hl]; split; try done.
  - intros Hm. specialize (Hm n eq_refl). lia.
  - by intros _ ? [= <-].
Qed.

Lemma first_match_None name version advisories :
  advisory_first_match name version advisories = None ↔ ∀ a, a ∈ advisories → ¬ affects name version a.
Proof.
  unfold advisory_first_match, advisory_matches. rewrite head_None, sort_on_nil, filter_nil_iff. done.
Qed.

Lemma yank_step_ok spec yanks m :
  yank_step spec yanks m = Ok () ↔
  ∀ y, y ∈ yanks → ¬ (yk_name y = ds_name spec ∧ yk_version y = pm_version m).
Proof.
  unfold yank_step. destruct (find_first _ yanks) as [y|] eqn:E.
  - apply find_first_Some in E as [Hy Hm]. split; [done|]. intros Hn. by destruct (Hn y).
  - split; [|done]. intros _. exact (proj1 (find_first_None _ _) E).
Qed.

Lemma advisory_step_ok spec advisories m :
  advisory_step spec advisories m = Ok () ↔
  ∀ a, a ∈ advisories → ¬ affects (ds_name spec) (pm_version m) a.
Proof. unfold advisory_step. rewrite <- first_match_None. by destruct (advisory_first_match _ _ _). Qed.

Lemma trust_step_ok spec m :
  trust_step spec m = Ok () ↔
  satisfies (pm_trust_level m) (ds_min_trust spec) = true ∧
  ∀ p, ds_profile spec = Some p → trust_gate (pm_trust_level m) p ≠ GateDeny.
Proof.
  unfold trust_step. destruct (satisfies _ _); [|by split; [|intros [? _]]].
  destruct (ds_profile spec) as [p|]; [case_decide|done].
  - split; [done|]. intros [_ Hp]. by destruct (Hp p).
  - split; [|done]. intros _. split; [done|]. by intros ? [= <-].
Qed.

Lemma license_step_ok spec m :
  license_step spec m = Ok () ↔
  ds_allowed_licenses spec = [] ∨ ∃ l, pm_license m = Some l ∧ l ∈ ds_allowed_licenses spec.
Proof.
  unfold license_step, license_listed. case_bool_decide; cbn [orb]; [by split; [left|]|].
  destruct (pm_license m) as [l|]; [case_bool_decide|]; naive_solver.
Qed.

Lemma denied_step_ok error denied names :
  denied_step error denied names = Ok () ↔ ∀ x, x ∈ denied → x ∉ names.
Proof.
  unfold denied_step. destruct (find_first _ denied) as [x|] eqn:E.
  - apply find_first_Some in E as [Hx Hn]. split; [done|]. intros Hd. by destruct (Hd x).
  - split; [|done]. intros _. exact (proj1 (find_first_None _ _) E).
Qed.

Lemma admit_manifest_ok spec advisories yanks m :
  admit_manifest spec advisories yanks m = Ok () ↔ admissible spec advisories yanks m.
Proof.
  unfold admit_manifest, admissible. rewrite !seq_ok.
  rewrite yank_step_ok, advisory_step_ok, trust_step_ok, !schema_floor_ok, license_step_ok,
    !denied_step_ok. tauto.
Qed.

(** The manifest that a requirement selects: the first one registered with the
    highest version among those that match *)
Definition candidate (name : string) (r : VersionReq) (m : PackageManifest) (v : Version) : Prop :=
  pm_name m = name ∧ manifest_version m = Some v ∧ req_matches r v = true.

Definition best_of (name : string) (r : VersionReq) (ms : list PackageManifest)
    (m : PackageManifest) (v : Version) : Prop :=
  ∃ before after, ms = before ++ m :: after ∧ candidate name r m v ∧
    (∀ m' v', m' ∈ before → candidate name r m' v' → cmp_lt v' v) ∧
    (∀ m' v', m' ∈ after → candidate name r m' v' → cmp_le v' v).

Context `{!SemverLaws}.

Lemma best_of_max name r ms m v m' v' :
  best_of name r ms m v → m' ∈ ms → candidate name r m' v' → cmp_le v' v.
Proof.
  intros (before & after & -> & Hm & Hb & Ha) Hin Hc.
  apply elem_of_app in Hin as [Hin|[->|Hin]%elem_of_cons].
  - apply cmp_le_lt. right. by eapply Hb.
  - destruct Hm as (_ & Hv & _), Hc as (_ & Hv' & _).
    assert (v = v') as -> by congruence. apply cmp_le_refl.
  - by eapply Ha.
Qed.

Lemma best_of_elem name r ms m v : best_of name r ms m v → m ∈ ms.
Proof. intros (? & ? & -> & _). set_solver. Qed.

Lemma best_of_candidate name r ms m v : best_of name r ms m v → candidate name r m v.
Proof. by intros (? & ? & _ & ? & _). Qed.

Lemma best_step_cases name r best m :
  (best_step name r best m = best ∧
   ∀ v, candidate name r m v → ∃ m0 v0, best = Some (m0, v0) ∧ cmp_le v v0) ∨
  (∃ v, best_step name r best m = Some (m, v) ∧ candidate name r m v ∧
        ∀ m0 v0, best = Some (m0, v0) → cmp_lt v0 v).
Proof.
  unfold best_step, candidate.
  destruct (decide (pm_name m ≠ name)) as [Hn|Hn%dec_stable]; [left; naive_solver|].
  destruct (manifest_version m) as [v|]; [|left; naive_solver].
  destruct (req_matches r v) eqn:Er; cbn [negb]; [|left; split; [done|]; intros ? (_ & [= <-] & ?); congruence].
  destruct best as [[m0 v0]|]; [case_decide as Hlt|].
  - right. exists v. split_and!; try done. by intros ?? [= <- <-].
  - left. split; [done|]. intros ? (_ & [= <-] & _). exists m0, v0. split; [done|].
    destruct (decide (cmp_le v v0)) as [|Hx]; [done|]. by apply cmp_nle in Hx.
  - right. by exists v.
Qed.

Lemma best_fold name r ms :
  match foldl (best_step name r) None ms with
  | None => ∀ m v, m ∈ ms → ¬ candidate name r m v
  | Some (m, v) => best_of name r ms m v
  end.
Proof.
  induction ms as [|m ms IH] using rev_ind; [by intros ?? ?%not_elem_of_nil|].
  rewrite foldl_snoc. set (b := foldl _ None ms) in *.
  destruct (best_step_cases name r b m) as [[-> Hk]|(v & -> & Hc & Hlt)].
  - destruct b as [[m0 v0]|].
    + destruct IH as (before & after & -> & Hm & Hb & Ha). exists before, (after ++ [m]).
      split; [by rewrite <- app_assoc|]. split_and!; try done.
      intros m' v' [Hin|Hin%list_elem_of_singleton]%elem_of_app Hc; [by eapply Ha|]. subst.
      by destruct (Hk _ Hc) as (? & ? & [= <- <-] & ?).
    + intros m' v' [Hin|Hin%list_elem_of_singleton]%elem_of_app Hc; [by eapply IH|]. subst.
      by destruct (Hk _ Hc) as (? & ? & ? & _).
  - exists ms, []. split_and!; try done; [|by intros ?? ?%not_elem_of_nil].
    intros m' v' Hin Hc'. destruct b as [[m0 v0]|]; [|by destruct (IH m' v')].
    pose proof (best_of_max _ _ _ _ _ _ _ IH Hin Hc') as [->|Hl]%cmp_le_lt; [by eapply Hlt|].
    transitivity v0; [done|by eapply Hlt].
Qed.

Lemma best_of_unique name r r' ms m m' v :
  best_of name r ms m v → best_of name r' ms m' v → m = m'.
Proof.
  intros (b & a & Hms & Hm & Hb & _) (b' & a' & Hms' & Hm' & Hb' & _).
  assert (candidate name r m' v ∧ candidate name r' m v) as [Hc Hc'].
  { unfold candidate in *. naive_solver. }
  assert (m' ∉ b) as Hni by (intros Hin; by apply (cmp_lt_irrefl v), (Hb m' v)).
  assert (m ∉ b') as Hni' by (intros Hin; by apply (cmp_lt_irrefl v), (Hb' m v)).
  rewrite Hms' in Hms. clear Hms'. apply app_eq_inv in Hms as [(k & -> & Hk)|(k & -> & Hk)];
    destruct k as [|x k]; cbn in Hk; try (by injection Hk); injection Hk as -> _.
  - destruct Hni. set_solver.
  - destruct Hni'. set_solver.
Qed.

Lemma resolve_Ok spec registry advisories yanks m :
  resolve spec registry advisories yanks = Ok m ↔
  admissible spec advisories yanks m ∧
  ∃ r v, requirement_parse (ds_version_constraint spec) = Ok r ∧
         best_of (ds_name spec) r (rg_manifests registry) m v.
Proof.
  unfold resolve, find_best_match.
  destruct (requirement_parse (ds_version_constraint spec)) as [r|]; [|naive_solver].
  pose proof (best_fold (ds_name spec) r (rg_manifests registry)) as Hb.
  destruct (foldl _ None _) as [[m0 v]|]; cbn.
  - rewrite <- admit_manifest_ok.
    assert (∀ v', best_of (ds_name spec) r (rg_manifests registry) m v' → m0 = m) as Hu.
    { intros v' Hb'. assert (v = v') as <-; [|by eapply best_of_unique].
      apply cmp_le_antisym.
      - exact (best_of_max _ _ _ _ _ _ _ Hb' (best_of_elem _ _ _ _ _ Hb) (best_of_candidate _ _ _ _ _ Hb)).
      - exact (best_of_max _ _ _ _ _ _ _ Hb (best_of_elem _ _ _ _ _ Hb') (best_of_candidate _ _ _ _ _ Hb')). }
    destruct (admit_manifest spec advisories yanks m0) as [[]|] eqn:Ea; split.
    + intros [= <-]. rewrite Ea. eauto.
    + intros (_ & ? & v' & [= <-] & Hb'). by rewrite (Hu v').
    + done.
    + intros (Ham & ? & v' & [= <-] & Hb'). rewrite <- (Hu v' Hb') in Ham. congruence.
  - split; [done|]. intros (_ & ? & v & [= <-] & before & after & Hms & Hc & _).
    destruct (Hb m v); [rewrite Hms; set_solver|done].
Qed.

Section ResolveAll.
Context (registry : PackageRegistry) (advisories : list SecurityAdvisory) (yanks : list YankRecord).

Lemma resolve_unique s s' m m' :
  resolve s registry advisories yanks = Ok m → resolve s' registry advisories yanks = Ok m' →
  pm_name m = pm_name m' → pm_version m = pm_version m' → m = m'.
Proof.
  intros (_ & r & v & _ & Hb)%resolve_Ok (_ & r' & v' & _ & Hb')%resolve_Ok Hn Hv.
  destruct (best_of_candidate _ _ _ _ _ Hb) as (Hm & Hp & _).
  destruct (best_of_candidate _ _ _ _ _ Hb') as (Hm' & Hp' & _).
  assert (ds_name s = ds_name s') as Hs by congruence. rewrite Hs in Hb.
  assert (v = v') as -> by (unfold manifest_version in *; congruence).
  by eapply best_of_unique.
Qed.

(** What the loop has to hold in the end *)
Definition resolves (specs : list DependencySpec) (acc : gmap string PackageManifest)
    (m : PackageManifest) : Prop :=
  acc !! pm_name m = Some m ∨ ∃ s, s ∈ specs ∧ resolve s registry advisories yanks = Ok m.

Definition resolved_map (acc : gmap string PackageManifest) : Prop :=
  ∀ n m, acc !! n = Some m → pm_name m = n ∧ ∃ s, resolve s registry advisories yanks = Ok m.

Lemma resolve_loop_Ok specs acc res :
  resolved_map acc →
  resolve_loop registry advisories yanks specs acc = Ok res ↔
  (∀ s, s ∈ specs → ∃ m, resolve s registry advisories yanks = Ok m) ∧
  (∀ m m', resolves specs acc m → resolves specs acc m' → pm_name m = pm_name m' → m = m') ∧
  (∀ n m, res !! n = Some m ↔ pm_name m = n ∧ resolves specs acc m).
Proof.
  revert acc. induction specs as [|s specs IH]; intros acc Hacc; cbn [resolve_loop].
  { unfold resolves. setoid_rewrite elem_of_nil. split.
    - intros [= <-]. split; [done|]. split; [naive_solver congruence|].
      intros n m. split; [|naive_solver]. intros Hm. destruct (Hacc n m Hm) as [<- _]. auto.
    - intros (_ & _ & Hres). f_equal. apply map_eq. intros n. apply option_eq. intros m.
      rewrite Hres. split; [|naive_solver]. intros Hm. destruct (Hacc n m Hm) as [<- _]. auto. }
  destruct (resolve s registry advisories yanks) as [m|] eqn:Em; cycle 1.
  { split; [done|]. intros (Hall & _). destruct (Hall s) as [m Hm]; [by left|congruence]. }
  assert (resolves (s :: specs) acc m) as Hsm by (right; exists s; split; [by left|done]).
  destruct (acc !! pm_name m) as [prev|] eqn:Ep.
  - destruct (Hacc _ _ Ep) as [Hpn [sp Hsp]].
    destruct (decide (pm_version prev ≠ pm_version m)) as [Hv|Hv%dec_stable].
    { split; [by destruct (canonical_conflict_versions _ _)|]. intros (_ & Hu & _). destruct Hv.
      f_equal. apply Hu; [|done|done]. left. by rewrite Hpn. }
    assert (prev = m) as -> by (by eapply resolve_unique).
    rewrite IH by done.
    assert (∀ x, resolves specs acc x ↔ resolves (s :: specs) acc x) as Heq.
    { intros x. unfold resolves. setoid_rewrite elem_of_cons. split; [naive_solver|].
      intros [?|(s' & [->|?] & Hx)]; [by left| |by right; eauto]. left. congruence. }
    setoid_rewrite Heq. setoid_rewrite elem_of_cons. naive_solver.
  - rewrite IH; cycle 1.
    { intros n x. rewrite lookup_insert_Some. intros [[<- <-]|[_ Hx]]; [eauto|by apply Hacc]. }
    assert (∀ x, resolves specs (<[pm_name m := m]> acc) x ↔ resolves (s :: specs) acc x) as Heq.
    { intros x. unfold resolves. setoid_rewrite elem_of_cons. rewrite lookup_insert_Some. split.
      - intros [[[_ <-]|[_ Hx]]|?]; naive_solver.
      - intros [Hx|(s' & [->|?] & Hx)]; [left; right; split; congruence| |by right; eauto].
        left. left. split; congruence. }
    setoid_rewrite Heq. setoid_rewrite elem_of_cons. naive_solver.
Qed.

Definition resolution (specs : list DependencySpec) (ms : list PackageManifest) : Prop :=
  (∀ s, s ∈ specs → ∃ m, m ∈ ms ∧ resolve s registry advisories yanks = Ok m) ∧
  (∀ m, m ∈ ms → ∃ s, s ∈ specs ∧ resolve s registry advisories yanks = Ok m) ∧
  StronglySorted (on_lt pm_name) ms.

Lemma resolved_sound specs res :
  (∀ s, s ∈ specs → ∃ m, resolve s registry advisories yanks = Ok m) ∧
  (∀ m m', resolves specs ∅ m → resolves specs ∅ m' → pm_name m = pm_name m' → m = m') ∧
  (∀ n m, res !! n = Some m ↔ pm_name m = n ∧ resolves specs ∅ m) →
  resolution specs (map_iter res).*2.
Proof.
  intros (Hall & Hu & Hres).
  assert (∀ m, m ∈ (map_iter res).*2 ↔ ∃ s, s ∈ specs ∧ resolve s registry advisories yanks = Ok m) as Hin.
  { intros m. rewrite list_elem_of_fmap. unfold resolves in Hres. setoid_rewrite lookup_empty in Hres.
    split.
    - intros ([n m'] & -> & Hm). apply map_iter_elem, Hres in Hm as [_ [?|?]]; done.
    - intros Hs. exists (pm_name m, m). split; [done|]. apply map_iter_elem, Hres. auto. }
  split; [|split; [naive_solver|]].
  - intros s Hs. destruct (Hall s Hs) as [m Hm]. exists m. rewrite Hin. eauto.
  - pose proof (map_iter_sorted res) as Hs.
    assert (∀ n m, (n, m) ∈ map_iter res → pm_name m = n) as Hk.
    { intros n m Hm%map_iter_elem. by apply Hres in Hm as [? _]. }
    clear -Hs Hk. induction Hs as [|[n m] l Hs IH Hl]; cbn; [constructor|].
    constructor; [apply IH; intros; apply Hk; by right|]. apply Forall_fmap.
    rewrite Forall_forall in Hl |- *. intros [n' m'] Hm. specialize (Hl _ Hm). unfold on_lt in *. cbn in *.
    rewrite (Hk n m), (Hk n' m'); [done|by right|by left].
Qed.

Lemma resolve_all_iff specs ms :
  resolve_all specs registry advisories yanks = Ok ms ↔
  (∀ s, s ∈ specs → ∃ m, m ∈ ms ∧ resolve s registry advisories yanks = Ok m) ∧
  (∀ m, m ∈ ms → ∃ s, s ∈ specs ∧ resolve s registry advisories yanks = Ok m) ∧
  StronglySorted (on_lt pm_name) ms.
Proof.
  assert (∀ ms', resolve_all specs registry advisories yanks = Ok ms' → resolution specs ms') as Hsound.
  { intros ms'. unfold resolve_all.
    destruct (resolve_loop _ _ _ specs ∅) as [res|] eqn:El; [|done]. intros [= <-].
    apply resolved_sound. by apply resolve_loop_Ok in El. }
  split; [apply Hsound|]. intros Hms.
  assert (is_ok (resolve_all specs registry advisories yanks)) as Hok.
  { unfold resolve_all. destruct Hms as (Hall & Hback & Hs).
    assert (resolve_loop registry advisories yanks specs ∅ =
              Ok (list_to_map ((λ m, (pm_name m, m)) <$> ms))) as ->; [|done].
    apply resolve_loop_Ok; [done|].
    assert (∀ m, resolves specs ∅ m ↔ m ∈ ms) as Hin.
    { intros m. unfold resolves. rewrite lookup_empty. split; [|naive_solver].
      intros [?|(s & Hsp & Hr)]; [done|]. destruct (Hall s Hsp) as (m' & Hm' & Hr'). congruence. }
    setoid_rewrite Hin. split; [naive_solver|]. split; [intros m m' ??; by apply (strictly_sorted_key pm_name ms)|].
    intros n m. rewrite <- elem_of_list_to_map, list_elem_of_fmap; [naive_solver|].
    rewrite <- list_fmap_compose. by apply (strictly_sorted_keys pm_name). }
  destruct (resolve_all specs registry advisories yanks) as [ms'|]; [|done]. f_equal.
  destruct (Hsound ms' eq_refl) as (Ha' & Hb' & Hs'), Hms as (Ha & Hb & Hs).
  apply (strictly_sorted_unique pm_name); [done..|]. intros m. split; intros Hm.
  - destruct (Hb' m Hm) as (s & Hsp & Hr). destruct (Ha s Hsp) as (m' & ? & ?). congruence.
  - destruct (Hb m Hm) as (s & Hsp & Hr). destruct (Ha' s Hsp) as (m' & ? & ?). congruence.
Qed.

(** C36: resolving a set of dependencies.  The result is the list, strictly sorted
    by package name, of exactly the manifests that the dependencies resolve to;
    it exists exactly when each of them resolves and no package is resolved to
    two versions, so that it does not depend on their order.  A dependency
    resolves to the first manifest with the highest version its requirement
    matches, provided that this one is not yanked, has no advisory and satisfies
    every policy of the dependency. *)
Theorem resolve_all_exact specs ms :
  (resolve_all specs registry advisories yanks = Ok ms ↔
   (∀ s, s ∈ specs → ∃ m, m ∈ ms ∧ resolve s registry advisories yanks = Ok m) ∧
   (∀ m, m ∈ ms → ∃ s, s ∈ specs ∧ resolve s registry advisories yanks = Ok m) ∧
   StronglySorted (on_lt pm_name) ms) ∧
  ∀ s m, resolve s registry advisories yanks = Ok m ↔
    admissible s advisories yanks m ∧
    ∃ r v, requirement_parse (ds_version_constraint s) = Ok r ∧
           best_of (ds_name s) r (rg_manifests registry) m v.
Proof. split; [apply resolve_all_iff|]. intros s m. apply resolve_Ok. Qed.
End ResolveAll.
End Resolve.

Module ResolverSample.
Import SampleSemver.

Definition package (name version : string) (trust : PackageTrust) (imports : list string)
  : PackageManifest :=
  MkPackageManifest name version trust [] [] [] [] [] None [] [] []
    ((λ i, MkImportDeclaration i [] None) <$> imports) [] None None None None None None.

Definition depends (name constraint : string) : DependencySpec :=
  MkDependencySpec name constraint Unverified None [] [] [] None None.

Definition sample_registry : PackageRegistry :=
  MkPackageRegistry
    [package "a" "1.0.0" Verified ["b"]; package "a" "1.2.0" Verified ["b"];
     package "a" "2.0.0" Verified []; package "b" "1.0.0" Assumed ["c"];
     package "c" "1.0.0" Verified ["b"; "a"]] [] [].

Lemma resolve_all_exact_witness :
  resolve_all [depends "b" "1"; depends "a" "^1.0.0"] sample_registry [] [] =
  Ok [package "a" "1.2.0" Verified ["b"]; package "b" "1.0.0" Assumed ["c"]].
Proof.
  refine (proj2 (proj1 (resolve_all_exact _ _ _ _ _)) _). split; [|split].
  - intros s [->|[->|Hs%not_elem_of_nil]%elem_of_cons]%elem_of_cons; [..|done];
      eexists; (split; [|vm_compute; reflexivity]); set_solver.
  - intros m [->|[->|Hs%not_elem_of_nil]%elem_of_cons]%elem_of_cons; [..|done].
    + exists (depends "a" "^1.0.0"). split; [set_solver|vm_compute; reflexivity].
    + exists (depends "b" "1"). split; [set_solver|vm_compute; reflexivity].
  - repeat constructor.
Defined.
End ResolverSample.
