(* ===== verification/ResolverDiagnostics.v ===== *)
(** * Resolver diagnostics

    [DependencyResolver::conflict_diagnostics] and its helpers in
    ail-package/src/resolver.rs.  Two of them are loops that the code does not
    bound: the worklist of [dependency_graph_for] and the depth-first search of
    [visit_cycles].  Both take fuel here; [dependency_graph_total] and
    [visit_total] show that the fuel given never runs out. *)

From stdpp Require Import pretty.
From S2P Require Import Prelude Text Trim ChangeModel Remote Ordering Packages Versioning PackagePolicy Signing Resolver.

(* ------------------------------------------------------------------ *)
(** ** The import graph *)

Abbreviation ImportGraph := (gmap string (gset string)).

Definition registry_packages (registry : PackageRegistry) : gset string :=
  list_to_set (pm_name <$> rg_manifests registry).

(** The imports of all versions of a package that the registry has *)
Definition imports_of (registry : PackageRegistry) (package : string) : gset string :=
  list_to_set
    (filter (λ x, x ∈ registry_packages registry)
       (filter (λ m, pm_name m = package) (rg_manifests registry) ≫= λ m, id_source_package <$> pm_imports m)).

(** The [while let] loop; the head of [pending] is the top of the stack. *)
Fixpoint graph_loop (fuel : nat) (registry : PackageRegistry) (pending : list string) (graph : ImportGraph)
  : option ImportGraph :=
  match pending with
  | [] => Some graph
  | package :: pending =>
      match fuel with
      | O => None
      | S fuel =>
          if decide (package ∈ dom graph) then graph_loop fuel registry pending graph
          else
            let imports := imports_of registry package in
            let pushed := filter (λ i, i ∉ dom graph) (set_iter imports) in
            graph_loop fuel registry (reverse pushed ++ pending) (<[package := imports]> graph)
      end
  end.

Definition graph_universe (roots : gset string) (registry : PackageRegistry) : gset string :=
  roots ∪ registry_packages registry.

Definition graph_fuel (roots : gset string) (registry : PackageRegistry) : nat :=
  let n := size (graph_universe roots registry) in n * S n + size roots.

Definition dependency_graph_for (roots : gset string) (registry : PackageRegistry) : ImportGraph :=
  default ∅ (graph_loop (graph_fuel roots registry) registry (reverse (set_iter roots)) ∅).

Definition diagnostic_package_scope (specs : list DependencySpec) (registry : PackageRegistry)
  : gset string :=
  dom (dependency_graph_for
         (list_to_set (filter (λ n, n ∈ registry_packages registry) (ds_name <$> specs))) registry).

(* ------------------------------------------------------------------ *)
(** ** Cycles *)

Definition min_index (l : list string) : option nat :=
  x ← head (sort_on id l); position (x =.) l.

Definition normalized_cycle (cycle : list string) : list string :=
  match min_index cycle with
  | None => []
  | Some start_index =>
      let normalized := drop start_index cycle ++ take start_index cycle in
      match normalized with
      | first :: _ => normalized ++ [first]
      | [] => normalized
      end
  end.

(** [emitted_cycles] and [diagnostics] *)
Abbreviation CycleState := (gset (list string) * list ResolverDiagnostic)%type.

Definition emit_cycle (cycle : list string) (st : CycleState) : CycleState :=
  let normalized := normalized_cycle cycle in
  if decide (normalized ∈ st.1) then st
  else ({[normalized]} ∪ st.1, st.2 ++ [dependency_cycle (default "" (head normalized)) normalized]).

Fixpoint visit_cycles (fuel : nat) (graph : ImportGraph) (package : string) (path : list string)
    (st : CycleState) : option CycleState :=
  match position (package =.) path with
  | Some start_index => Some (emit_cycle (drop start_index path) st)
  | None =>
      match fuel with
      | O => None
      | S fuel =>
          foldl (λ acc import, st ← acc; visit_cycles fuel graph import (path ++ [package]) st)
            (Some st) (set_iter (default ∅ (graph !! package)))
      end
  end.

Definition visit_fuel (graph : ImportGraph) : nat := S (size graph).

Definition visit_roots (graph : ImportGraph) (roots : list string) (st : CycleState) : option CycleState :=
  foldl (λ acc root, st ← acc; visit_cycles (visit_fuel graph) graph root [] st) (Some st) roots.

Definition add_cycle_diagnostics (specs : list DependencySpec) (registry : PackageRegistry)
  : list ResolverDiagnostic :=
  let graph := dependency_graph_for (diagnostic_package_scope specs registry) registry in
  (default (∅, []) (visit_roots graph (set_iter (dom graph)) (∅, []))).2.

(* ------------------------------------------------------------------ *)
(** ** The other diagnostics *)

Definition specs_by_package (specs : list DependencySpec) : gmap string (list DependencySpec) :=
  foldl (λ m s, <[ds_name s := default [] (m !! ds_name s) ++ [s]]> m) ∅ specs.

(** The distinct constraints in ascending order *)
Definition constraints_of (specs : list DependencySpec) : list string :=
  collect_sorted id (ds_version_constraint <$> specs).

Definition add_duplicate_package_diagnostics (by_package : gmap string (list DependencySpec))
  : list ResolverDiagnostic :=
  map_iter by_package ≫= λ '(package, specs),
    if decide (length specs ≤ 1) then [] else [duplicate_package package (constraints_of specs)].

(** [format!] of both fields with [{:?}]; only whether two are equal matters. *)
Definition provenance_source_descriptor (m : PackageManifest) : option (option string * option string) :=
  p ← pm_provenance m;
  if decide (pp_source_repository p = None ∧ pp_url p = None) then None
  else Some (pp_source_repository p, pp_url p).

Definition add_conflicting_source_diagnostics (specs : list DependencySpec) (registry : PackageRegistry)
  : list ResolverDiagnostic :=
  let scope := diagnostic_package_scope specs registry in
  let sources : gmap (string * string) (gset (option string * option string)) :=
    foldl (λ acc m,
      match provenance_source_descriptor m with
      | Some source =>
          if decide (pm_name m ∈ scope) then
            let k := (pm_name m, pm_version m) in <[k := {[source]} ∪ default ∅ (acc !! k)]> acc
          else acc
      | None => acc
      end) ∅ (rg_manifests registry) in
  map_iter sources ≫= λ '((package, version), ss),
    if decide (1 < size ss) then [conflicting_source package version (size ss)] else [].

(** What [slice::sort_by] does to a list that its comparison does not order totally;
    [None] is a panic.  std promises no more than that a list it returns is a
    rearrangement. *)
Class UnspecifiedSort : Type := unspecified_sort : list string → option (list string).
Class UnspecifiedSortLaws `{UnspecifiedSort} : Prop :=
  unspecified_sort_perm l l' : unspecified_sort l = Some l' → l' ≡ₚ l.

Section Diagnostics.
Context `{Semver} `{UnspecifiedSort}.

Definition version_matches_constraint (version constraint : string) : bool :=
  match version_parse version, requirement_parse constraint with
  | Some v, Ok r => req_matches r v
  | _, _ => false
  end.

(** The comparison of [canonical_versions] *)
Definition version_text_cmp (left right : string) : comparison :=
  match version_parse left, version_parse right with
  | Some l, Some r => cmp l r
  | _, _ => cmp left right
  end.

Fixpoint insert_version (x : string) (l : list string) : list string :=
  match l with
  | [] => [x]
  | y :: l' => if decide (version_text_cmp x y = Gt) then y :: insert_version x l' else x :: l
  end.

(** The comparison is a total order on the versions at hand. *)
Definition totally_ordered (l : list string) : Prop :=
  Forall (λ x, Forall (λ y,
    version_text_cmp y x = CompOpp (version_text_cmp x y) ∧
    Forall (λ z, version_text_cmp x y ≠ Gt → version_text_cmp y z ≠ Gt →
                 version_text_cmp x z ≠ Gt) l) l) l.

(** Where the comparison is a total order, [sort_by] is the stable sort by it; where
    it is not, [sort_by] may panic ([None]) or return any order. *)
Definition canonical_versions (versions : gset string) : option (list string) :=
  let versions := set_iter versions in
  if decide (totally_ordered versions) then Some (foldr insert_version [] versions)
  else unspecified_sort versions.

Definition registry_versions_for (package : string) (registry : PackageRegistry)
  : option (list string) :=
  canonical_versions
    (list_to_set (pm_version <$> filter (λ m, pm_name m = package) (rg_manifests registry))).

Fixpoint missing_loop (registry : PackageRegistry) (emitted : gset (string * string))
    (specs : list DependencySpec) : option (list ResolverDiagnostic) :=
  match specs with
  | [] => Some []
  | spec :: specs' =>
      versions ← registry_versions_for (ds_name spec) registry;
      let key := (ds_name spec, ds_version_constraint spec) in
      if decide (key ∈ emitted) then missing_loop registry emitted specs'
      else
        let reported :=
          match requirement_parse (ds_version_constraint spec) with
          | Err issue => [invalid_version_requirement (ds_name spec) issue]
          | Ok _ =>
              if decide (versions = []) then [missing_package (ds_name spec) (ds_version_constraint spec)]
              else if any (λ v, version_matches_constraint v (ds_version_constraint spec) = true) versions
              then []
              else [missing_version (ds_name spec) (ds_version_constraint spec) versions]
          end in
        rest ← missing_loop registry ({[key]} ∪ emitted) specs'; Some (reported ++ rest)
  end.

Definition add_missing_diagnostics (specs : list DependencySpec) (registry : PackageRegistry)
  : option (list ResolverDiagnostic) := missing_loop registry ∅ specs.

(** The body of the loop of [add_incompatible_range_diagnostics] *)
Definition incompatible_range (registry : PackageRegistry) (entry : string * list DependencySpec)
  : option (list ResolverDiagnostic) :=
  let '(package, specs) := entry in
  if decide (length specs ≤ 1) then Some []
  else
    versions ← registry_versions_for package registry;
    let constraints := constraints_of specs in
    Some (if decide (versions = []) then []
          else if existsb (λ c, negb (is_ok (requirement_parse c))) constraints then []
          else if existsb (λ v, forallb (version_matches_constraint v) constraints) versions then []
          else [incompatible_version_range package constraints versions]).

Definition add_incompatible_range_diagnostics (by_package : gmap string (list DependencySpec))
    (registry : PackageRegistry) : option (list ResolverDiagnostic) :=
  found ← mapM (incompatible_range registry) (map_iter by_package); Some (concat found).

(** [None] when the sort of a package's versions panics. *)
Definition conflict_diagnostics (specs : list DependencySpec) (registry : PackageRegistry)
  : option (list ResolverDiagnostic) :=
  let by_package := specs_by_package specs in
  missing ← add_missing_diagnostics specs registry;
  incompatible ← add_incompatible_range_diagnostics by_package registry;
  Some (sort_on diagnostic_sort_key
    (add_duplicate_package_diagnostics by_package
     ++ missing
     ++ incompatible
     ++ add_cycle_diagnostics specs registry
     ++ add_conflicting_source_diagnostics specs registry)).
End Diagnostics.

(* ------------------------------------------------------------------ *)
(** ** Reachability of the graph *)

Section Graph.
Context (registry : PackageRegistry).

(** [imports x y]: some version of [x] imports [y], which is registered. *)
Definition imports (x y : string) : Prop :=
  y ∈ pm_name <$> rg_manifests registry ∧
  ∃ m i, m ∈ rg_manifests registry ∧ pm_name m = x ∧ i ∈ pm_imports m ∧ id_source_package i = y.
Definition reachable (roots : gset string) (y : string) : Prop := ∃ x, x ∈ roots ∧ rtc imports x y.

Lemma imports_iff x y : imports x y ↔ y ∈ imports_of registry x.
Proof.
  unfold imports, imports_of, registry_packages.
  rewrite elem_of_list_to_set, list_elem_of_filter, elem_of_list_to_set, list_elem_of_bind.
  setoid_rewrite list_elem_of_fmap. setoid_rewrite list_elem_of_filter. naive_solver.
Qed.

(** The loop invariant *)
Definition graph_inv (roots : gset string) (pending : list string) (graph : ImportGraph) : Prop :=
  (∀ p s, graph !! p = Some s → s = imports_of registry p) ∧
  (∀ p, p ∈ dom graph ∨ p ∈ pending → reachable roots p) ∧
  (∀ p q, p ∈ dom graph → imports p q → q ∈ dom graph ∨ q ∈ pending) ∧
  (∀ p, p ∈ roots → p ∈ dom graph ∨ p ∈ pending).

Lemma graph_inv_seen roots p pending graph :
  p ∈ dom graph → graph_inv roots (p :: pending) graph → graph_inv roots pending graph.
Proof. unfold graph_inv. setoid_rewrite elem_of_cons. naive_solver. Qed.

Lemma graph_inv_new roots p pending graph :
  p ∉ dom graph → graph_inv roots (p :: pending) graph →
  graph_inv roots
    (reverse (filter (λ i, i ∉ dom graph) (set_iter (imports_of registry p))) ++ pending)
    (<[p := imports_of registry p]> graph).
Proof.
  intros Hp (Hg & Hr & Hc & Hroots). unfold graph_inv.
  setoid_rewrite elem_of_app. setoid_rewrite elem_of_reverse. setoid_rewrite list_elem_of_filter.
  setoid_rewrite set_iter_elem. setoid_rewrite dom_insert. setoid_rewrite elem_of_union.
  setoid_rewrite elem_of_singleton.
  assert (reachable roots p) as Hrp by (apply Hr; right; by left).
  split; [|split; [|split]].
  - intros x s. rewrite lookup_insert_Some. naive_solver.
  - intros x [[->|Hx]|[[_ Hx]|Hx]]; [done|by apply Hr; left| |by apply Hr; right; right].
    destruct Hrp as (root & Hroot & Hpath). exists root. split; [done|].
    eapply rtc_r; [done|]. by apply imports_iff.
  - intros x y [->|Hx] Hxy.
    + apply imports_iff in Hxy. destruct (decide (y ∈ dom graph)); naive_solver.
    + destruct (Hc x y Hx Hxy) as [?|[->|?]%elem_of_cons]; naive_solver.
  - intros x Hx. destruct (Hroots x Hx) as [?|[->|?]%elem_of_cons]; naive_solver.
Qed.

Lemma graph_loop_inv roots fuel pending graph graph' :
  graph_inv roots pending graph → graph_loop fuel registry pending graph = Some graph' →
  graph_inv roots [] graph'.
Proof.
  revert pending graph. induction fuel as [|fuel IH]; intros [|p pending] graph Hi; cbn;
    try done; try (by intros [= <-]).
  case_decide; apply IH; [by eapply graph_inv_seen|by apply graph_inv_new].
Qed.

Lemma imports_registered p : imports_of registry p ⊆ registry_packages registry.
Proof.
  intros y. unfold imports_of. rewrite elem_of_list_to_set, list_elem_of_filter. tauto.
Qed.

Lemma set_iter_length (s : gset string) : length (set_iter s) = size s.
Proof. unfold set_iter. by rewrite sort_on_perm. Qed.

Lemma graph_loop_total U fuel pending graph :
  registry_packages registry ⊆ U → list_to_set pending ⊆ U →
  size (U ∖ dom graph) * S (size U) + length pending ≤ fuel →
  is_Some (graph_loop fuel registry pending graph).
Proof.
  intros HU. revert pending graph.
  induction fuel as [|fuel IH]; intros [|p pending] graph Hpend Hf; cbn [graph_loop]; try done.
  { cbn in Hf. lia. }
  cbn in Hpend, Hf. case_decide as Hp; [apply IH; [set_solver|lia]|].
  set (pushed := filter _ _).
  assert (length pushed ≤ size U) as Hlen.
  { transitivity (length (set_iter (imports_of registry p))); [apply length_filter|].
    rewrite set_iter_length. apply subseteq_size. transitivity (registry_packages registry); [|done].
    apply imports_registered. }
  assert (size (U ∖ dom (<[p := imports_of registry p]> graph)) < size (U ∖ dom graph)) as Hsz.
  { apply subset_size. rewrite dom_insert. set_solver. }
  apply IH.
  - intros x. rewrite elem_of_list_to_set, elem_of_app, elem_of_reverse.
    intros [Hx|Hx]; [|set_solver]. apply HU, (imports_registered p).
    apply list_elem_of_filter in Hx as [_ Hx]. by apply set_iter_elem in Hx.
  - rewrite length_app, length_reverse. nia.
Qed.

(** The worklist ends, and holds exactly what the roots reach. *)
Lemma dependency_graph_total roots :
  ∃ graph, graph_loop (graph_fuel roots registry) registry (reverse (set_iter roots)) ∅ = Some graph ∧
    dependency_graph_for roots registry = graph ∧
    (∀ p, p ∈ dom graph ↔ reachable roots p) ∧
    (∀ p s, graph !! p = Some s → s = imports_of registry p).
Proof.
  unfold dependency_graph_for.
  destruct (graph_loop_total (graph_universe roots registry) (graph_fuel roots registry)
              (reverse (set_iter roots)) ∅) as [graph Hg].
  { unfold graph_universe. set_solver. }
  { intros x. rewrite elem_of_list_to_set, elem_of_reverse, set_iter_elem.
    unfold graph_universe. set_solver. }
  { unfold graph_fuel. rewrite length_reverse, set_iter_length, dom_empty_L, difference_empty_L. done. }
  exists graph. split; [done|]. rewrite Hg. split; [done|].
  apply (graph_loop_inv roots) in Hg as (Hs & Hr & Hc & Hroots); cycle 1.
  { split; [by intros ?? ?%lookup_empty_Some|]. split; [|split].
    - intros p [Hp|Hp]; [set_solver|]. exists p. rewrite elem_of_reverse, set_iter_elem in Hp.
      split; [done|apply rtc_refl].
    - set_solver.
    - intros p Hp. right. by rewrite elem_of_reverse, set_iter_elem. }
  split; [|done]. intros p. split; [auto|]. intros (root & Hroot & Hpath).
  assert (root ∈ dom graph) as Hd by (destruct (Hroots root Hroot) as [|?%not_elem_of_nil]; done).
  clear Hroot. induction Hpath as [x|x y z Hxy _ IH]; [done|]. apply IH.
  destruct (Hc x y Hd Hxy) as [|?%not_elem_of_nil]; done.
Qed.
End Graph.

(* ------------------------------------------------------------------ *)
(** ** Elementary cycles *)

Section Cycles.
Context (edge : string → string → Prop).

(** [x] is linked through [l] to [z]. *)
Fixpoint linked (x : string) (l : list string) (z : string) : Prop :=
  match l with
  | [] => edge x z
  | y :: l' => edge x y ∧ linked y l' z
  end.

Definition simple_cycle (c : list string) : Prop :=
  ∃ x l, c = x :: l ∧ NoDup c ∧ linked x l x.

Lemma linked_app x l1 y l2 z : linked x (l1 ++ y :: l2) z ↔ linked x l1 y ∧ linked y l2 z.
Proof. revert x. induction l1 as [|a l1 IH]; intros x; cbn; [done|]. rewrite IH. tauto. Qed.

(** The cycles that the depth-first search meets from a package on a path *)
Inductive explores : list string → string → list string → Prop :=
| explores_hit path p i : position (p =.) path = Some i → explores path p (drop i path)
| explores_step path p q c :
    p ∉ path → edge p q → explores (path ++ [p]) q c → explores path p c.

Definition chain_to (path : list string) (p : string) : Prop :=
  NoDup path ∧ match path with [] => True | x :: l => linked x l p end.

Lemma position_Some (p : string) path i : position (p =.) path = Some i → path !! i = Some p.
Proof.
  unfold position. destruct (list_find _ path) as [[j y]|] eqn:E; [|done]. intros [= <-].
  by apply list_find_Some in E as (Hl & -> & _).
Qed.

Lemma position_None (p : string) path : position (p =.) path = None ↔ p ∉ path.
Proof.
  unfold position. destruct (list_find _ path) as [[j y]|] eqn:E; cbn.
  - apply list_find_Some in E as (Hl & -> & _). split; [done|]. intros Hn. destruct Hn.
    by eapply list_elem_of_lookup_2.
  - split; [|done]. intros _ Hin. apply list_find_None in E. rewrite Forall_forall in E. by apply (E p).
Qed.

Lemma chain_snoc path p q : chain_to path p → p ∉ path → edge p q → chain_to (path ++ [p]) q.
Proof.
  intros [Hnd Hl] Hp Hpq. split.
  - apply NoDup_app. split; [done|]. split; [set_solver|apply NoDup_singleton].
  - destruct path as [|x l]; [done|]. cbn. apply linked_app. done.
Qed.

Lemma explores_sound path p c : explores path p c → chain_to path p → simple_cycle c.
Proof.
  induction 1 as [path p i Hi|path p q c Hp Hpq _ IH]; intros Hc; [|by apply IH, chain_snoc].
  destruct Hc as [Hnd Hl]. apply position_Some in Hi.
  pose proof (take_drop_middle path i p Hi) as Hsplit. rewrite (drop_S _ p) by done.
  exists p, (drop (S i) path). split; [done|]. rewrite <- Hsplit in Hnd. split.
  - by apply NoDup_app in Hnd as (_ & _ & ?).
  - revert Hl. rewrite <- Hsplit at 1.
    destruct (take i path) as [|x pre]; cbn; [done|]. by intros [_ ?]%linked_app.
Qed.

Lemma explores_complete c : simple_cycle c → ∃ x, head c = Some x ∧ explores [] x c.
Proof.
  intros (x & l & Hc & Hnd & Hl). exists x. split; [by rewrite Hc|].
  assert (∀ rest pre p, c = pre ++ p :: rest → linked p rest x → explores pre p c) as Hgen.
  { induction rest as [|q rest IH]; intros pre p Hcp Hlink.
    - assert (p ∉ pre) as Hp by (rewrite Hcp in Hnd; apply NoDup_app in Hnd as (_ & Hd & _); set_solver).
      eapply explores_step; [done|exact Hlink|]. rewrite <- Hcp.
      change (explores c x (drop 0 c)). apply explores_hit. by rewrite Hc; unfold position; cbn; rewrite decide_True.
    - assert (p ∉ pre) as Hp by (rewrite Hcp in Hnd; apply NoDup_app in Hnd as (_ & Hd & _); set_solver).
      destruct Hlink as [Hpq Hlink]. eapply explores_step; [done|exact Hpq|].
      apply IH; [by rewrite <- app_assoc|done]. }
  by apply (Hgen l [] x).
Qed.
End Cycles.

(* ------------------------------------------------------------------ *)
(** ** Rotation of a cycle to its least package *)

Lemma min_index_spec l :
  l ≠ [] →
  ∃ l1 x l2, l = l1 ++ x :: l2 ∧ min_index l = Some (length l1) ∧ ∀ y, y ∈ l → cmp_le x y.
Proof.
  intros Hl. unfold min_index. pose proof (sort_on_sorted id l) as Hs.
  destruct (sort_on id l) as [|x s] eqn:E; [by apply sort_on_nil in E|]. cbn.
  assert (x ∈ l) as Hx by (apply (sort_on_elem id); rewrite E; left).
  destruct (position (x =.) l) as [i|] eqn:Ep; [|by apply position_None in Ep].
  pose proof (position_Some _ _ _ Ep) as Hi.
  exists (take i l), x, (drop (S i) l). split; [by rewrite take_drop_middle|].
  split; [by rewrite length_take_le by (apply lookup_lt_Some in Hi; lia)|].
  intros y Hy. apply (sort_on_elem id) in Hy. rewrite E in Hy.
  apply elem_of_cons in Hy as [->|Hy]; [apply cmp_le_refl|].
  apply StronglySorted_inv in Hs as [_ Hall]. rewrite Forall_forall in Hall. by apply Hall.
Qed.

(** The normal form starts and ends with the least package of the cycle. *)
Lemma normalized_cycle_rotation c :
  c ≠ [] →
  ∃ l1 x l2, c = l1 ++ x :: l2 ∧ normalized_cycle c = x :: (l2 ++ l1) ++ [x] ∧
    ∀ y, y ∈ c → cmp_le x y.
Proof.
  intros (l1 & x & l2 & -> & Hm & Hle)%min_index_spec. exists l1, x, l2. split; [done|].
  split; [|done]. unfold normalized_cycle. rewrite Hm, drop_app_length, take_app_length. done.
Qed.

(** A cycle whose first package is its least is its own normal form. *)
Lemma normalized_cycle_least x l :
  NoDup (x :: l) → Forall (cmp_lt x) l → normalized_cycle (x :: l) = x :: l ++ [x].
Proof.
  intros Hnd Hlt. destruct (normalized_cycle_rotation (x :: l)) as (l1 & y & l2 & Hc & -> & Hle); [done|].
  destruct l1 as [|z l1]; cbn in Hc; simplify_eq; [by rewrite app_nil_r|].
  exfalso. rewrite Forall_forall in Hlt. assert (cmp_lt z y) as Hzy by (apply Hlt; set_solver).
  apply cmp_nle in Hzy. apply Hzy, Hle. left.
Qed.

Section Rotation.
Context (edge : string → string → Prop).

Lemma simple_cycle_rotate l1 x l2 :
  simple_cycle edge (l1 ++ x :: l2) → simple_cycle edge (x :: l2 ++ l1).
Proof.
  intros (y & l & Hc & Hnd & Hl). exists x, (l2 ++ l1). split; [done|].
  split; [by rewrite app_comm_cons, Permutation_app_comm|].
  destruct l1 as [|z l1]; cbn in Hc; simplify_eq; [by rewrite app_nil_r|].
  apply linked_app in Hl as [? ?]. by apply linked_app.
Qed.

(** Every package of a cycle reaches every other. *)
Lemma linked_rtc x l z y : linked edge x l z → y ∈ l → rtc edge x y.
Proof.
  revert x. induction l as [|a l IH]; intros x; cbn; [by intros _ ?%not_elem_of_nil|].
  intros [Hxa Hl] [->|Hy]%elem_of_cons; [by apply rtc_once|].
  eapply rtc_l; [done|]. by apply IH.
Qed.
End Rotation.

(* ------------------------------------------------------------------ *)
(** ** The search meets every elementary cycle, once *)

(** The set of emitted cycles and the list of diagnostics say the same. *)
Definition cycle_inv (st : CycleState) : Prop :=
  NoDup (rd_related_packages <$> st.2) ∧
  (∀ n, n ∈ st.1 ↔ n ∈ rd_related_packages <$> st.2) ∧
  Forall (λ d, rd_kind d = DependencyCycle ∧ rd_package d = default "" (head (rd_related_packages d))) st.2.

(** From [st] to [st'] the cycles of [X] have been added. *)
Definition adds (X : list string → Prop) (st st' : CycleState) : Prop :=
  (cycle_inv st → cycle_inv st') ∧
  ∀ n, n ∈ st'.1 ↔ n ∈ st.1 ∨ ∃ c, X c ∧ n = normalized_cycle c.

Lemma emit_cycle_adds c st : adds (c =.) st (emit_cycle c st).
Proof.
  unfold emit_cycle. set (n := normalized_cycle c). case_decide as Hn.
  - split; [done|]. intros n'. naive_solver.
  - split; [|intros n'; cbn; rewrite elem_of_union, elem_of_singleton; naive_solver].
    intros (Hnd & Hiff & Hall). unfold cycle_inv. cbn. rewrite fmap_app. cbn.
    split; [|split].
    + apply NoDup_app. split; [done|]. split; [|apply NoDup_singleton].
      intros x Hx Hx'. apply list_elem_of_singleton in Hx' as ->. by apply Hn, Hiff.
    + intros n'. rewrite elem_of_union, elem_of_singleton, elem_of_app, list_elem_of_singleton, Hiff. tauto.
    + apply Forall_app. split; [done|]. by apply Forall_singleton.
Qed.

Lemma adds_foldl (f : string → CycleState → option CycleState) (X : string → list string → Prop) l st st' :
  (∀ q st st', q ∈ l → f q st = Some st' → adds (X q) st st') →
  foldl (λ acc q, st ← acc; f q st) (Some st) l = Some st' →
  adds (λ c, ∃ q, q ∈ l ∧ X q c) st st'.
Proof.
  revert st. induction l as [|q l IH]; intros st Hf; cbn.
  { intros [= <-]. split; [done|]. intros n. split; [by left|]. intros [?|(c & (q & ?%not_elem_of_nil & _) & _)]; done. }
  destruct (f q st) as [st1|] eqn:E; cycle 1.
  { cbn. replace (foldl _ None l) with (@None CycleState); [done|].
    clear. induction l; [done|]. done. }
  cbn. intros Hl. apply IH in Hl as [Hi Hn]; [|intros; apply Hf; [by right|done]].
  destruct (Hf q st st1) as [Hi1 Hn1]; [by left|done|]. split; [auto|].
  intros n. rewrite Hn, Hn1. setoid_rewrite elem_of_cons. naive_solver.
Qed.

Lemma foldl_total (f : string → CycleState → option CycleState) l st :
  (∀ q st, q ∈ l → is_Some (f q st)) → is_Some (foldl (λ acc q, st ← acc; f q st) (Some st) l).
Proof.
  revert st. induction l as [|q l IH]; intros st Hf; cbn; [done|].
  destruct (Hf q st) as [st1 ->]; [by left|]. apply IH. intros. apply Hf. by right.
Qed.

Section Visit.
Context (graph : ImportGraph).

Definition graph_edge (x y : string) : Prop := y ∈ default ∅ (graph !! x).

Lemma visit_adds fuel p path st st' :
  visit_cycles fuel graph p path st = Some st' → adds (explores graph_edge path p) st st'.
Proof.
  revert p path st st'. induction fuel as [|fuel IH]; intros p path st st'; cbn [visit_cycles];
    destruct (position (p =.) path) as [i|] eqn:Ei; try done.
  1, 2: intros [= <-]; destruct (emit_cycle_adds (drop i path) st) as [Hi Hn]; split; [done|];
    intros n; rewrite Hn; f_equiv; split;
    [intros (? & <- & ->); eexists; split; [by apply explores_hit|done]
    |intros (c & Hc & ->); exists (drop i path); split; [done|];
     inversion Hc; subst; [congruence|by apply position_Some, list_elem_of_lookup_2 in Ei]].
  intros Hf. apply (adds_foldl _ (λ q, explores graph_edge (path ++ [p]) q)) in Hf as [Hi Hn].
  - split; [done|]. intros n. rewrite Hn. f_equiv. f_equiv. intros c. f_equiv.
    apply position_None in Ei. split.
    + intros (q & Hq & Hc). eapply explores_step; [done| |done]. by apply set_iter_elem in Hq.
    + intros Hc. inversion Hc as [? ? i Hi'|? ? q ? _ Hpq Hc']; subst.
      * apply position_Some in Hi'. destruct Ei. by eapply list_elem_of_lookup_2.
      * exists q. split; [by apply set_iter_elem|done].
  - intros q st0 st1 _. apply IH.
Qed.

Context (closed : ∀ x y, x ∈ dom graph → graph_edge x y → y ∈ dom graph).

Lemma visit_total fuel p path st :
  p ∈ dom graph → NoDup path → (∀ x, x ∈ path → x ∈ dom graph) → size graph ≤ fuel + length path →
  is_Some (visit_cycles fuel graph p path st).
Proof.
  revert p path st. induction fuel as [|fuel IH]; intros p path st Hp Hnd Hsub Hf; cbn [visit_cycles];
    destruct (position (p =.) path) as [i|] eqn:Ei; try done; apply position_None in Ei.
  - exfalso. assert (NoDup (p :: path)) as Hnd' by by constructor.
    assert (list_to_set (p :: path) ⊆ dom graph) as Hs.
    { intros x. rewrite elem_of_list_to_set. intros [->|?]%elem_of_cons; auto. }
    apply subseteq_size in Hs. rewrite size_list_to_set, size_dom in Hs by done. cbn in Hs, Hf. lia.
  - apply foldl_total. intros q st0 Hq. apply set_iter_elem in Hq. apply IH.
    + by apply (closed p).
    + apply NoDup_app. split; [done|]. split; [set_solver|apply NoDup_singleton].
    + intros x [?|Hx%list_elem_of_singleton]%elem_of_app; [auto|by subst].
    + rewrite length_app. cbn. lia.
Qed.

Lemma visit_roots_spec :
  ∃ st, visit_roots graph (set_iter (dom graph)) (∅, []) = Some st ∧ cycle_inv st ∧
    ∀ n, n ∈ st.1 ↔ ∃ c, simple_cycle graph_edge c ∧ n = normalized_cycle c.
Proof.
  destruct (foldl_total (λ root st, visit_cycles (visit_fuel graph) graph root [] st)
              (set_iter (dom graph)) (∅, [])) as [st Hst].
  { intros q st Hq. apply set_iter_elem in Hq.
    apply visit_total; [done|constructor|by intros ? ?%not_elem_of_nil|unfold visit_fuel; lia]. }
  exists st. split; [done|].
  apply (adds_foldl _ (λ q, explores graph_edge [] q)) in Hst as [Hi Hn]; [|intros; by eapply visit_adds].
  split; [apply Hi; split; [constructor|]; split; [set_solver|constructor]|].
  intros n. rewrite Hn. split.
  - intros [?|(c & (q & _ & Hc) & ->)]; [set_solver|]. exists c. split; [|done].
    eapply explores_sound; [done|]. split; [constructor|done].
  - intros (c & Hc & ->). right. exists c. split; [|done].
    destruct (explores_complete _ _ Hc) as (x & Hx & He). exists x. split; [|done].
    apply set_iter_elem. destruct Hc as (x' & l & -> & _ & Hl). injection Hx as <-.
    apply elem_of_dom. assert (∃ y, graph_edge x' y) as [y Hy] by (destruct l; cbn in Hl; naive_solver).
    unfold graph_edge in Hy. destruct (graph !! x'); [done|]. cbn in Hy. set_solver.
Qed.
End Visit.

Definition spec_roots (specs : list DependencySpec) (registry : PackageRegistry) : gset string :=
  list_to_set (filter (λ n, n ∈ registry_packages registry) (ds_name <$> specs)).

Lemma cycle_graph_edge specs registry :
  let graph := dependency_graph_for (diagnostic_package_scope specs registry) registry in
  (∀ x, x ∈ dom graph ↔ reachable registry (spec_roots specs registry) x) ∧
  (∀ x y, graph_edge graph x y ↔ reachable registry (spec_roots specs registry) x ∧ imports registry x y).
Proof.
  intros graph. unfold diagnostic_package_scope in graph. fold (spec_roots specs registry) in graph.
  destruct (dependency_graph_total registry (spec_roots specs registry)) as (g0 & _ & Hg0 & Hd0 & _).
  unfold graph. rewrite Hg0.
  destruct (dependency_graph_total registry (dom g0)) as (g & _ & -> & Hd & Hs).
  assert (∀ x, x ∈ dom g ↔ reachable registry (spec_roots specs registry) x) as Hdom.
  { intros x. rewrite Hd. split.
    - intros (y & (root & Hroot & Hy)%Hd0 & Hx). exists root. split; [done|]. by transitivity y.
    - intros Hx%Hd0. exists x. split; [done|apply rtc_refl]. }
  split; [done|]. intros x y. rewrite <- Hdom, imports_iff. unfold graph_edge. rewrite elem_of_dom.
  destruct (g !! x) as [s|] eqn:E; cbn.
  - rewrite <- (Hs x s E). naive_solver.
  - split; [set_solver|]. intros [[? ?] _]. done.
Qed.

Lemma linked_reachable specs registry x l z :
  let graph := dependency_graph_for (diagnostic_package_scope specs registry) registry in
  linked (graph_edge graph) x l z ↔
  reachable registry (spec_roots specs registry) x ∧ linked (imports registry) x l z.
Proof.
  intros graph. destruct (cycle_graph_edge specs registry) as [_ He]. fold graph in He.
  revert x. induction l as [|y l IH]; intros x; cbn; rewrite He; [done|]. rewrite IH.
  split; [tauto|]. intros ((root & Hroot & Hx) & Hxy & Hl). split; [by split; [exists root|]|].
  split; [|done]. exists root. split; [done|]. by eapply rtc_r.
Qed.

Lemma cycle_diagnostics_spec specs registry :
  NoDup (rd_related_packages <$> add_cycle_diagnostics specs registry) ∧
  Forall (λ d, rd_kind d = DependencyCycle) (add_cycle_diagnostics specs registry) ∧
  ∀ n, n ∈ rd_related_packages <$> add_cycle_diagnostics specs registry ↔
    ∃ x l, simple_cycle (imports registry) (x :: l) ∧
      reachable registry (spec_roots specs registry) x ∧ n = normalized_cycle (x :: l).
Proof.
  unfold add_cycle_diagnostics. set (graph := dependency_graph_for _ registry).
  destruct (cycle_graph_edge specs registry) as [Hd He]. fold graph in Hd, He.
  destruct (visit_roots_spec graph) as (st & -> & (Hnd & Hiff & Hall) & Hn).
  { intros x y. rewrite !Hd, He. intros _ [(root & Hroot & Hx) Hxy]. exists root.
    split; [done|]. by eapply rtc_r. }
  cbn. split; [done|]. split; [eapply Forall_impl; [done|]; by intros d [? _]|].
  intros n. rewrite <- Hiff, Hn. unfold simple_cycle. split.
  - intros (? & (x & l & -> & Hnc & Hl) & ->). apply linked_reachable in Hl as [Hx Hl]. eauto 10.
  - intros (x & l & (? & ? & [= <- <-] & Hnc & Hl) & Hx & ->). exists (x :: l). split; [|done].
    exists x, l. split; [done|]. split; [done|]. by apply linked_reachable.
Qed.

(** The package names of the cycle diagnostics of a report *)
Definition reported_cycles (ds : list ResolverDiagnostic) : list (list string) :=
  rd_related_packages <$> filter (λ d, rd_kind d = DependencyCycle) ds.

(** A cycle of imports, written from its least package back to it: each package imports
    the next, none occurs twice, and the declared dependencies reach it. *)
Definition least_cycle (specs : list DependencySpec) (registry : PackageRegistry)
    (n : list string) : Prop :=
  ∃ x l, n = x :: l ++ [x] ∧ NoDup (x :: l) ∧ linked (imports registry) x l x ∧
    Forall (cmp_lt x) l ∧ reachable registry (spec_roots specs registry) x.

Lemma normalized_least specs registry n :
  (∃ x l, simple_cycle (imports registry) (x :: l) ∧
     reachable registry (spec_roots specs registry) x ∧ n = normalized_cycle (x :: l)) ↔
  least_cycle specs registry n.
Proof.
  split.
  - intros (x & l & Hc & (root & Hroot & Hx) & ->).
    destruct (normalized_cycle_rotation (x :: l)) as (l1 & y & l2 & Heq & -> & Hle); [done|].
    pose proof Hc as (x' & l' & [= <- <-] & _ & Hl). rewrite Heq in Hc, Hle.
    apply simple_cycle_rotate in Hc as (? & ? & [= <- <-] & Hnd & Hl').
    exists y, (l2 ++ l1). split_and!; [done..| |].
    + apply Forall_forall. intros z Hz.
      assert (cmp_le y z) as [->|Hlt]%cmp_le_lt; [|by apply NoDup_cons in Hnd as [[] _]|done].
      apply Hle. apply elem_of_app in Hz. rewrite elem_of_app, elem_of_cons. tauto.
    + exists root. split; [done|]. destruct l1 as [|z l1]; cbn in Heq; simplify_eq; [done|].
      transitivity z; [done|]. eapply linked_rtc; [done|]. set_solver.
  - intros (x & l & -> & Hnd & Hl & Hlt & Hx). exists x, l.
    split_and!; [by exists x, l|done|]. by rewrite normalized_cycle_least.
Qed.

Section Exact.
Context `{Semver} `{UnspecifiedSort}.

Lemma missing_kinds registry emitted specs ds :
  missing_loop registry emitted specs = Some ds → Forall (λ d, rd_kind d ≠ DependencyCycle) ds.
Proof.
  revert emitted ds. induction specs as [|s specs IH]; intros emitted ds; cbn; [by intros [= <-]|].
  destruct (registry_versions_for _ _); [|done]. cbn. case_decide; [apply IH|].
  destruct (missing_loop _ _ specs) as [rest|] eqn:E; [|done]. intros [= <-].
  apply IH in E. apply Forall_app. split; [|done]. repeat case_match; by repeat constructor.
Qed.

Lemma incompatible_kinds registry by_package ds :
  add_incompatible_range_diagnostics by_package registry = Some ds →
  Forall (λ d, rd_kind d ≠ DependencyCycle) ds.
Proof.
  unfold add_incompatible_range_diagnostics. intros (found & Hf & [= <-])%bind_Some.
  apply mapM_Some in Hf. induction Hf as [|[package specs] ds es found He _ IH]; cbn; [done|].
  apply Forall_app. split; [|done]. unfold incompatible_range in He. case_decide; [by simplify_eq|].
  apply bind_Some in He as (versions & _ & He). repeat case_match; simplify_eq; by repeat constructor.
Qed.

Lemma other_kinds specs registry :
  Forall (λ d, rd_kind d ≠ DependencyCycle) (add_duplicate_package_diagnostics (specs_by_package specs)) ∧
  Forall (λ d, rd_kind d ≠ DependencyCycle) (add_conflicting_source_diagnostics specs registry).
Proof.
  unfold add_duplicate_package_diagnostics, add_conflicting_source_diagnostics.
  split; apply Forall_bind, Forall_true; intros [k v]; cbn; try destruct k; repeat case_match;
    repeat constructor; done.
Qed.

Lemma conflict_cycles specs registry ds :
  conflict_diagnostics specs registry = Some ds →
  filter (λ d, rd_kind d = DependencyCycle) ds ≡ₚ add_cycle_diagnostics specs registry.
Proof.
  unfold conflict_diagnostics, add_missing_diagnostics. cbv zeta.
  destruct (missing_loop registry ∅ specs) as [missing|] eqn:Hmiss; [|done]. cbn [mbind option_bind].
  destruct (add_incompatible_range_diagnostics _ registry) as [incompatible|] eqn:Hinc; [|done].
  cbn [mbind option_bind]. intros Hds%(inj Some). subst ds.
  apply missing_kinds in Hmiss. apply incompatible_kinds in Hinc.
  destruct (other_kinds specs registry) as (Hdup & Hsrc).
  destruct (cycle_diagnostics_spec specs registry) as (_ & Hk & _).
  assert (∀ l, Forall (λ d, rd_kind d ≠ DependencyCycle) l →
            filter (λ d, rd_kind d = DependencyCycle) l = []) as Hnone.
  { intros l Hl. apply filter_nil_iff. by rewrite <- Forall_forall. }
  rewrite sort_on_perm, !filter_app, !(Hnone _ Hdup), !(Hnone _ Hmiss),
    !(Hnone _ Hinc), !(Hnone _ Hsrc), app_nil_r. cbn [app].
  rewrite filter_all; [done|]. by rewrite <- Forall_forall.
Qed.

(** The comparison is a total order on versions that parse. *)
Lemma parsed_totally_ordered `{!SemverLaws} l :
  Forall (λ v, is_Some (version_parse v)) l → totally_ordered l.
Proof.
  intros Hl. rewrite Forall_forall in Hl. unfold totally_ordered, version_text_cmp.
  apply Forall_forall. intros x Hx. apply Forall_forall. intros y Hy.
  destruct (Hl x Hx) as [vx ->], (Hl y Hy) as [vy ->]. split; [apply cmp_opp|].
  apply Forall_forall. intros z Hz. destruct (Hl z Hz) as [vz ->]. apply (cmp_le_trans vx vy vz).
Qed.

(** Every registered version parses. *)
Definition versions_parse (registry : PackageRegistry) : Prop :=
  Forall (λ m, is_Some (version_parse (pm_version m))) (rg_manifests registry).

Lemma registry_versions_total `{!SemverLaws} package registry :
  versions_parse registry → is_Some (registry_versions_for package registry).
Proof.
  intros Hp. unfold registry_versions_for, canonical_versions. rewrite decide_True; [done|].
  apply parsed_totally_ordered, Forall_forall. intros v. rewrite set_iter_elem, elem_of_list_to_set.
  intros (m & -> & [_ Hm]%list_elem_of_filter)%list_elem_of_fmap.
  unfold versions_parse in Hp. rewrite Forall_forall in Hp. by apply Hp.
Qed.

Lemma conflict_diagnostics_total `{!SemverLaws} specs registry :
  versions_parse registry → is_Some (conflict_diagnostics specs registry).
Proof.
  intros Hp. unfold conflict_diagnostics, add_missing_diagnostics, add_incompatible_range_diagnostics.
  assert (∀ emitted, is_Some (missing_loop registry emitted specs)) as Hm.
  { induction specs as [|s specs IH]; intros emitted; cbn; [done|].
    destruct (registry_versions_total (ds_name s) registry Hp) as [vs ->]. cbn.
    case_decide; [apply IH|]. destruct (IH ({[(ds_name s, ds_version_constraint s)]} ∪ emitted)) as [? ->]. done. }
  destruct (Hm ∅) as [missing ->]. cbn.
  assert (is_Some (mapM (incompatible_range registry) (map_iter (specs_by_package specs)))) as [found ->].
  { apply mapM_is_Some, Forall_true. intros [package l]. unfold compose, incompatible_range. destruct (decide (length l ≤ 1)); [done|].
    destruct (registry_versions_total package registry Hp) as [vs ->]. done. }
  done.
Qed.

(** C37: the cycle report.  Where every registered version parses, [conflict_diagnostics]
    returns (elsewhere the sort of the versions may panic).  Whenever it returns, its
    cycle diagnostics are exactly the import cycles that the declared dependencies
    reach: each is written once, from its least package (in byte order) back to it, each
    package importing the next and none occurring twice; and every way of going round a
    reachable cycle is a rotation of one that is reported. *)
Theorem cycle_report_exact `{!SemverLaws} specs registry :
  (versions_parse registry → is_Some (conflict_diagnostics specs registry)) ∧
  ∀ ds, conflict_diagnostics specs registry = Some ds →
    NoDup (reported_cycles ds) ∧
    (∀ n, n ∈ reported_cycles ds ↔ least_cycle specs registry n) ∧
    (∀ x l, NoDup (x :: l) → linked (imports registry) x l x →
       reachable registry (spec_roots specs registry) x →
       ∃ l1 y l2, x :: l = l1 ++ y :: l2 ∧ y :: (l2 ++ l1) ++ [y] ∈ reported_cycles ds).
Proof.
  split; [apply conflict_diagnostics_total|]. intros ds Hds%conflict_cycles.
  destruct (cycle_diagnostics_spec specs registry) as (Hnd & _ & Hn).
  assert (∀ n, n ∈ reported_cycles ds ↔ least_cycle specs registry n) as Hiff.
  { intros n. unfold reported_cycles. by rewrite Hds, Hn, normalized_least. }
  unfold reported_cycles in *. split_and!; [by rewrite Hds|done|].
  intros x l Hndx Hl Hx. destruct (normalized_cycle_rotation (x :: l)) as (l1 & y & l2 & Hc & Hnc & _); [done|].
  exists l1, y, l2. split; [done|]. apply Hiff, normalized_least. exists x, l. split_and!; [by exists x, l|done|done].
Qed.

(* ------------------------------------------------------------------ *)
(** ** Dependencies without conflicts *)

Context `{!SemverLaws} `{!UnspecifiedSortLaws}.

Lemma insert_version_perm x l : insert_version x l ≡ₚ x :: l.
Proof.
  induction l as [|y l IH]; cbn; [done|]. case_decide; [|done]. rewrite IH. constructor.
Qed.

Lemma canonical_versions_perm s vs : canonical_versions s = Some vs → vs ≡ₚ set_iter s.
Proof.
  unfold canonical_versions. case_decide as Ht; [intros [= <-]; clear Ht|apply unspecified_sort_perm].
  induction (set_iter s) as [|x l IH]; cbn; [done|]. by rewrite insert_version_perm, IH.
Qed.

Lemma registry_versions_elem package registry vs v :
  registry_versions_for package registry = Some vs →
  v ∈ vs ↔ ∃ m, m ∈ rg_manifests registry ∧ pm_name m = package ∧ pm_version m = v.
Proof.
  unfold registry_versions_for. set (s := list_to_set _). intros ->%canonical_versions_perm.
  rewrite set_iter_elem. unfold s. rewrite elem_of_list_to_set, list_elem_of_fmap.
  setoid_rewrite list_elem_of_filter. naive_solver.
Qed.

(** The registry has a version for the requirement. *)
Definition served (registry : PackageRegistry) (name constraint : string) : Prop :=
  ∃ m, find_best_match name constraint registry = Ok (Some m).

Lemma served_intro registry name constraint r vs v :
  requirement_parse constraint = Ok r → registry_versions_for name registry = Some vs → v ∈ vs →
  version_matches_constraint v constraint = true → served registry name constraint.
Proof.
  intros Hr Hvs Hin Hv. apply (registry_versions_elem _ _ _ _ Hvs) in Hin as (m & Hm & Hn & <-).
  unfold served, find_best_match. rewrite Hr.
  unfold version_matches_constraint in Hv. rewrite Hr in Hv.
  destruct (version_parse (pm_version m)) as [v|] eqn:Ev; [|done].
  pose proof (best_fold name r (rg_manifests registry)) as Hb.
  destruct (foldl _ None _) as [[m' v']|]; [by exists m'|].
  destruct (Hb m v); [done|]. done.
Qed.

Lemma missing_loop_nil registry emitted specs :
  missing_loop registry emitted specs = Some [] →
  ∀ s, s ∈ specs → (ds_name s, ds_version_constraint s) ∈ emitted ∨
                   served registry (ds_name s) (ds_version_constraint s).
Proof.
  revert emitted. induction specs as [|s specs IH]; intros emitted; cbn; [by intros _ ? ?%not_elem_of_nil|].
  destruct (registry_versions_for (ds_name s) registry) as [vs|] eqn:Evs; [|done]. cbn.
  case_decide as He; [intros Hl x [->|Hx]%elem_of_cons; [by left|by eapply IH]|].
  destruct (missing_loop registry _ specs) as [rest|] eqn:Hl; [|done]. intros [= [Hs ->]%app_nil].
  assert (served registry (ds_name s) (ds_version_constraint s)) as Hserved.
  { destruct (requirement_parse _) as [r|] eqn:Er; [|done]. case_decide; [done|].
    destruct (any _ _) eqn:Ea; [|done]. apply any_true in Ea as (v & Hv & Hm).
    by eapply served_intro. }
  intros x [->|Hx]%elem_of_cons; [by right|].
  destruct (IH _ Hl x Hx) as [[Hk|?]%elem_of_union|?]; [|by left|by right].
  apply elem_of_singleton in Hk as [= -> ->]. by right.
Qed.

Lemma specs_by_package_lookup specs n :
  specs_by_package specs !! n =
  match filter (λ s, ds_name s = n) specs with [] => None | l => Some l end.
Proof.
  unfold specs_by_package. induction specs as [|s specs IH] using rev_ind; [apply lookup_empty|].
  rewrite foldl_snoc, filter_app, filter_cons, filter_nil. destruct (decide (ds_name s = n)) as [<-|Hn].
  - rewrite lookup_insert_eq, IH. by destruct (filter _ specs).
  - by rewrite lookup_insert_ne, IH, app_nil_r by done.
Qed.

Lemma duplicates_nil_names specs :
  add_duplicate_package_diagnostics (specs_by_package specs) = [] → NoDup (ds_name <$> specs).
Proof.
  unfold add_duplicate_package_diagnostics. rewrite bind_nil_iff. intros Hn.
  apply NoDup_short_groups. intros n. pose proof (specs_by_package_lookup specs n) as Hl.
  destruct (filter _ specs) as [|s l] eqn:Ef; [cbn; lia|].
  apply map_iter_elem in Hl. specialize (Hn _ Hl). cbn in Hn. by case_decide.
Qed.

(** Only a policy is left to refuse a dependency. *)
Definition policy_error (e : ResolverError) : Prop :=
  match e with
  | Yanked _ | AdvisoryHit _ _ | TrustViolation _ _ | ProfilePolicyViolation _ _
  | LicenseViolation _ | CapabilityConflict _ | HandlerConflict _ | SchemaIncompatible _ => True
  | _ => False
  end.

Lemma admit_manifest_policy spec advisories yanks m e :
  admit_manifest spec advisories yanks m = Err e → policy_error e.
Proof.
  unfold admit_manifest, yank_step, advisory_step, trust_step, schema_floor, license_step, denied_step.
  repeat case_match; try done; intros [= <-]; simplify_eq; done.
Qed.

Lemma resolve_loop_policy registry advisories yanks specs acc e :
  NoDup (ds_name <$> specs) →
  (∀ s, s ∈ specs → served registry (ds_name s) (ds_version_constraint s) ∧ acc !! ds_name s = None) →
  resolve_loop registry advisories yanks specs acc = Err e → policy_error e.
Proof.
  revert acc. induction specs as [|s specs IH]; intros acc Hnd Hs; cbn [resolve_loop]; [done|].
  apply NoDup_cons in Hnd as [Hni Hnd]. destruct (Hs s) as [[m Hm] Hacc]; [by left|].
  destruct (resolve s registry advisories yanks) as [m'|e'] eqn:Er; cycle 1.
  { intros [= <-]. unfold resolve in Er. rewrite Hm in Er.
    destruct (admit_manifest _ _ _ m) eqn:Ea; simplify_eq. by eapply admit_manifest_policy. }
  apply resolve_Ok in Er as (_ & r & v & _ & (Hn & _)%best_of_candidate).
  rewrite Hn, Hacc. apply IH; [done|]. intros s' Hs'. destruct (Hs s') as [Hsv Ha]; [by right|].
  split; [done|]. rewrite lookup_insert_ne; [done|]. intros Heq. destruct Hni.
  rewrite Heq. by apply list_elem_of_fmap_2.
Qed.

(** Dependencies for which the report is empty resolve unless a policy forbids
    it: the only errors left are yanks, advisories, trust, profiles, schemas,
    licenses, and denied capabilities and handlers. *)
Theorem clean_dependencies_resolve specs registry advisories yanks :
  conflict_diagnostics specs registry = Some [] →
  match resolve_all specs registry advisories yanks with
  | Ok ms => ∀ s, s ∈ specs → ∃ m, m ∈ ms ∧ pm_name m = ds_name s
  | Err e => policy_error e
  end.
Proof.
  unfold conflict_diagnostics, add_missing_diagnostics. cbv zeta.
  destruct (missing_loop registry ∅ specs) as [missing|] eqn:Hmiss; [|done]. cbn [mbind option_bind].
  destruct (add_incompatible_range_diagnostics _ registry) as [incompatible|] eqn:Hinc; [|done].
  cbn [mbind option_bind]. intros Hs%(inj Some).
  apply sort_on_nil in Hs. rewrite !app_nil in Hs. destruct Hs as (Hdup & -> & _).
  destruct (resolve_all specs registry advisories yanks) as [ms|e] eqn:Er.
  - intros s Hs. unfold resolve_all in Er.
    destruct (resolve_loop _ _ _ specs ∅) as [res|] eqn:El; [|done]. simplify_eq.
    apply resolve_loop_Ok, resolved_sound in El as (Hall & _); [|by intros ?? ?%lookup_empty_Some].
    destruct (Hall s Hs) as (m & Hm & (_ & r & v & _ & (Hn & _)%best_of_candidate)%resolve_Ok). eauto.
  - unfold resolve_all in Er. destruct (resolve_loop _ _ _ specs ∅) as [|e'] eqn:El; simplify_eq.
    eapply resolve_loop_policy; [by apply duplicates_nil_names| |done].
    intros s Hs. split; [|apply lookup_empty].
    by destruct (missing_loop_nil _ _ _ Hmiss s Hs) as [?%elem_of_empty|].
Qed.
End Exact.

(* ------------------------------------------------------------------ *)
(** ** Instances *)

Module CycleSample.
Import SampleSemver ResolverSample.

(** A sort that panics. *)
#[export] Instance panicking_sort : UnspecifiedSort := λ _, None.
#[export] Instance panicking_sort_laws : UnspecifiedSortLaws.
Proof. done. Qed.

(** The comparison of [canonical_versions] is no order when a version does not
    parse: each of the three comes before the next. *)
Example version_order_cycle :
  version_text_cmp "10.0.0" "2x" = Lt ∧ version_text_cmp "2x" "9.0.0" = Lt ∧
  version_text_cmp "9.0.0" "10.0.0" = Lt ∧
  canonical_versions {["10.0.0"; "2x"; "9.0.0"]} = None ∧
  canonical_versions {["10.0.0"; "2.0.0"; "9.0.0"]} = Some ["2.0.0"; "9.0.0"; "10.0.0"].
Proof. vm_compute. done. Qed.

Lemma clean_dependencies_resolve_witness :
  match resolve_all [depends "c" "^1.0.0"] (MkPackageRegistry [package "c" "1.0.0" Verified []] [] [])
          [] [MkYankRecord "c" "1.0.0" "regression"] with
  | Ok ms => ∀ s, s ∈ [depends "c" "^1.0.0"] → ∃ m, m ∈ ms ∧ pm_name m = ds_name s
  | Err e => policy_error e
  end.
Proof.
  apply clean_dependencies_resolve. vm_compute. reflexivity.
Defined.

(** The sample registry has the cycles [b -> c -> b] and [a -> b -> c -> a]. *)
Example sample_cycles :
  reported_cycles <$> conflict_diagnostics [depends "b" "1"] sample_registry =
  Some [["a"; "b"; "c"; "a"]; ["b"; "c"; "b"]].
Proof. vm_compute. reflexivity. Qed.

(** The report of the sample exists, and the shorter cycle in it goes from [b], its
    least package, to [c] and back. *)
Lemma cycle_report_exact_witness :
  versions_parse sample_registry ∧
  is_Some (conflict_diagnostics [depends "b" "1"] sample_registry) ∧
  least_cycle [depends "b" "1"] sample_registry ["b"; "c"; "b"].
Proof.
  assert (versions_parse sample_registry) as Hp.
  { apply (bool_decide_unpack _). vm_compute. exact I. }
  split; [done|]. split; [by apply (cycle_report_exact [depends "b" "1"] sample_registry)|].
  destruct (conflict_diagnostics [depends "b" "1"] sample_registry) as [ds|] eqn:E.
  - apply (proj2 (cycle_report_exact [depends "b" "1"] sample_registry) ds E).
    pose proof sample_cycles as Hs. rewrite E in Hs. injection Hs as ->. right. left.
  - pose proof sample_cycles as Hs. rewrite E in Hs. discriminate.
Defined.

End CycleSample.
