(* ===== verification/Profile.v ===== *)
(** * Runtime profiles: grants, limits and revocations

    ail-runtime/src/profile.rs: the capability identifiers and grants of a
    profile (absence is denial), the resource limits the dispatcher enforces,
    the revocation registry, and the redacted diagnostics of a refused access.
    The registry sits behind a lock; a call of one of its methods is one step
    on the list of records. *)

From S2P Require Import Prelude Text Packages.

(** [CapabilityId(String)] *)
Definition CapabilityId : Type := string.

Record CapabilityGrant : Type := MkCapabilityGrant {
  cg_module : string;
  cg_capability : CapabilityId;
}.

Record RateLimit : Type := MkRateLimit {
  rl_capability : option string;
  rl_max_calls_per_second : N;
}.

Record ResourceLimits : Type := MkResourceLimits {
  max_memory_bytes : option N;
  max_fuel : option N;
  timeout : option N;
  max_capability_calls : option N;
  rate_limits : option (list RateLimit);
  payload_size_limit : option N;
  concurrency_limit : option N;
  recursion_stack_limit : option N;
  output_size_limit : option N;
}.

(** [ResourceLimits::default()] *)
Definition no_limits : ResourceLimits :=
  MkResourceLimits None None None None None None None None None.

Record ProfilePolicy : Type := MkProfilePolicy {
  pl_name : string;
  pl_config : option string;
}.

Inductive AssumptionStatus : Type := StatusActive | StatusInactive | StatusExpired.

(** [expires_at] in nanoseconds since the epoch *)
Record ProfileAssumption : Type := MkProfileAssumption {
  as_id : string;
  as_status : AssumptionStatus;
  as_expires_at : option N;
}.

Record SecretEntry : Type := MkSecretEntry {
  sec_secret_id : string;
  sec_vault_path : string;
}.

Record AuditConfig : Type := MkAuditConfig {
  ac_redact_payloads : bool;
  ac_log_level : string;
}.

Record ReplayConfig : Type := MkReplayConfig {
  rc_trace_id : option string;
  rc_use_recorded_responses : bool;
  rc_verify_output_hashes : bool;
}.

Record RuntimeProfile : Type := MkRuntimeProfile {
  rp_name : string;
  rp_module_hash : string;
  rp_verification_report_hash : string;
  rp_capability_manifest_hash : string;
  rp_grants : list CapabilityGrant;
  rp_limits : ResourceLimits;
  rp_min_package_trust : option PackageTrust;
  rp_require_handler_binding : bool;
  rp_min_handler_trust : option PackageTrust;
  rp_policies : list ProfilePolicy;
  rp_secrets_mapping : list SecretEntry;
  rp_audit_config : option AuditConfig;
  rp_replay_config : option ReplayConfig;
  rp_assumptions : list ProfileAssumption;
}.

(** [RuntimeProfile::grants_capability]: the module and the capability must both match. *)
Definition grants_capability (profile : RuntimeProfile) (module : string)
    (capability : CapabilityId) : bool :=
  any (λ g, cg_module g = module ∧ cg_capability g = capability) (rp_grants profile).

Definition grants_capability_to_any_module (profile : RuntimeProfile)
    (capability : CapabilityId) : bool :=
  any (λ g, cg_capability g = capability) (rp_grants profile).

(* ------------------------------------------------------------------ *)
(** ** Revocation *)

Inductive InFlightPolicy : Type := AllowComplete | Cancel | TimeoutThenCancel.

Record RevocationRecord : Type := MkRevocationRecord {
  rr_module : string;
  rr_capability : string;
  rr_profile : string;
  rr_in_flight_policy : InFlightPolicy;
}.

Definition CapabilityRevocationRegistry : Type := list RevocationRecord.

Definition revoke (module capability profile : string) (policy : InFlightPolicy)
    (records : CapabilityRevocationRegistry) : CapabilityRevocationRegistry :=
  records ++ [MkRevocationRecord module capability profile policy].

Definition is_revoked (module capability profile : string)
    (records : CapabilityRevocationRegistry) : bool :=
  any (λ r, rr_module r = module ∧ rr_capability r = capability ∧ rr_profile r = profile) records.

(* ------------------------------------------------------------------ *)
(** ** Redacted diagnostics *)

Inductive RuntimeCapabilityDiagnosticKind : Type :=
| AmbientAccessAttempt
| ProfileMismatch
| MissingGrant
| DeniedCapability.

Definition diagnostic_key (kind : RuntimeCapabilityDiagnosticKind) : string :=
  match kind with
  | AmbientAccessAttempt => "runtime.capability.ambient_access"
  | ProfileMismatch => "runtime.capability.profile_mismatch"
  | MissingGrant => "runtime.capability.missing_grant"
  | DeniedCapability => "runtime.capability.denied"
  end.

Record RuntimeCapabilityDiagnostic : Type := MkRuntimeCapabilityDiagnostic {
  rcd_kind : RuntimeCapabilityDiagnosticKind;
  rcd_diagnostic_key : string;
  rcd_capability : string;
  rcd_profile : string;
  rcd_module : string;
}.

Definition is_family_char (c : ascii) : bool :=
  let n := N_of_ascii c in
  (((97 <=? n) && (n <=? 122)) || ((48 <=? n) && (n <=? 57)))%N
  || bool_decide (c = "."%char ∨ c = "_"%char ∨ c = "-"%char).

(** [family.split('.').all(|segment| !segment.is_empty())]: no segment between
    two dots, before the first or after the last is empty.  [fresh] says that
    the current segment has no character yet. *)
Fixpoint segments_nonempty (fresh : bool) (s : string) : bool :=
  match s with
  | EmptyString => negb fresh
  | String c s' =>
      if decide (c = "."%char) then negb fresh && segments_nonempty true s'
      else segments_nonempty false s'
  end.

Definition is_safe_capability_family (family : string) : bool :=
  negb (bool_decide (family = "")) && segments_nonempty true family
  && string_all is_family_char family.

Definition redacted_capability_descriptor (capability : CapabilityId) : string :=
  if decide (capability = "") then "capability:<empty>"
  else
    let '(family, has_target) :=
      match split_once ":" capability with
      | Some (family, _) => (family, true)
      | None => (capability, false)
      end in
    if negb (is_safe_capability_family family) then "capability:<opaque>"
    else if (has_target : bool) then family +:+ ":<redacted>" else family +:+ ":<none>".

(** [RuntimeCapabilityDiagnostic::new], called with the active profile. *)
Definition capability_diagnostic (kind : RuntimeCapabilityDiagnosticKind)
    (capability : CapabilityId) (module : option string) : RuntimeCapabilityDiagnostic :=
  MkRuntimeCapabilityDiagnostic kind (diagnostic_key kind)
    (redacted_capability_descriptor capability) "profile:<active>"
    (match module with
     | Some m => if decide (m = "") then "module:<ambient>" else "module:<bound>"
     | None => "module:<ambient>"
     end).

Definition capability_diagnostic_for_access (profile : RuntimeProfile)
    (module : option string) (capability : CapabilityId) : option RuntimeCapabilityDiagnostic :=
  match module with
  | Some m =>
      if grants_capability profile m capability then None
      else if grants_capability_to_any_module profile capability
      then Some (capability_diagnostic ProfileMismatch capability module)
      else Some (capability_diagnostic DeniedCapability capability module)
  | None => Some (capability_diagnostic AmbientAccessAttempt capability None)
  end.

(* ------------------------------------------------------------------ *)
(** ** Properties *)

Lemma is_revoked_revoke module capability profile policy records m c p :
  is_revoked m c p (revoke module capability profile policy records) =
  is_revoked m c p records || bool_decide (module = m ∧ capability = c ∧ profile = p).
Proof.
  unfold is_revoked, revoke, any. rewrite <- bool_decide_or.
  apply bool_decide_ext. rewrite Exists_app, Exists_cons, Exists_nil. naive_solver.
Qed.

(** Revocation is monotone: a revoked grant stays revoked. *)
Lemma revoke_keeps module capability profile policy records m c p :
  is_revoked m c p records = true →
  is_revoked m c p (revoke module capability profile policy records) = true.
Proof. intros H. by rewrite is_revoked_revoke, H. Qed.

Lemma split_once_no_char a s l r : split_once a s = Some (l, r) → no_char a l = true.
Proof. rewrite split_once_Some. naive_solver. Qed.

(** Nothing after the colon of a capability reaches its descriptor. *)
Lemma descriptor_hides_target family t1 t2 :
  no_char ":" family = true →
  redacted_capability_descriptor (family +:+ (":" +:+ t1)) =
  redacted_capability_descriptor (family +:+ (":" +:+ t2)).
Proof.
  intros Hf. unfold redacted_capability_descriptor.
  assert (∀ t, split_once ":" (family +:+ (":" +:+ t)) = Some (family, t)) as Hs.
  { intros t. by apply split_once_Some. }
  rewrite !Hs. destruct family; by rewrite !decide_False.
Qed.

Lemma access_granted_iff profile module capability :
  capability_diagnostic_for_access profile module capability = None ↔
  ∃ m, module = Some m ∧ grants_capability profile m capability = true.
Proof.
  unfold capability_diagnostic_for_access. destruct module as [m|]; [|split; [done|by intros (?&?&?)]].
  destruct (grants_capability profile m capability) eqn:E; [by split; [exists m|]|].
  split; [by destruct (grants_capability_to_any_module _ _)|]. intros (m' & [= <-] & ?). congruence.
Qed.
