(* ===== verification/RateLimits.v ===== *)
(** * Rate limits: fixed one-second windows per scope

    ail-runtime/src/host_dispatch/limits.rs.  A profile's limits are reduced to
    one threshold per scope that applies to the call (the strictest wins),
    checked in scope order without touching the windows, and only when every
    one passes are the windows updated.  The clock is a reading [now] in
    nanoseconds, passed in where the code calls [clock_fn]. *)

From S2P Require Import Prelude Text Profile.
#[local] Open Scope N_scope.

Inductive RateLimitScope : Type :=
| Global
| Capability (name : string).

#[global] Instance RateLimitScope_eq_dec : EqDecision RateLimitScope.
Proof. solve_decision. Defined.

(** [RateLimitScope::window_key] *)
Definition window_key (scope : RateLimitScope) : option string :=
  match scope with Global => None | Capability name => Some name end.

#[global] Instance RateLimitScope_countable : Countable RateLimitScope.
Proof.
  apply (inj_countable' window_key (λ k, match k with None => Global | Some n => Capability n end)).
  by intros [].
Defined.

(** The derived [Ord]: [Global] first, then capabilities by name. *)
Definition scope_le (a b : RateLimitScope) : Prop :=
  match a, b with
  | Global, _ => True
  | Capability _, Global => False
  | Capability x, Capability y => String.le x y
  end.
#[global] Instance scope_le_dec a b : Decision (scope_le a b).
Proof. destruct a, b; apply _. Defined.

Definition scope_from_limit (limit : RateLimit) : RateLimitScope :=
  match rl_capability limit with Some capability => Capability capability | None => Global end.

Definition applies_to (scope : RateLimitScope) (cap : CapabilityId) : bool :=
  match scope with Global => true | Capability name => bool_decide (name = cap) end.

Record RateLimitRejection : Type := MkRateLimitRejection {
  rej_scope : RateLimitScope;
  rej_max_calls_per_second : N;
  rej_used_in_window : N;
}.

Inductive RateLimitDecision : Type :=
| Allowed
| Rejected (rejection : RateLimitRejection).

Definition is_allowed (d : RateLimitDecision) : bool :=
  match d with Allowed => true | Rejected _ => false end.

(** [HashMap<Option<String>, (u64, u64)>]: window start and calls in the window. *)
Abbreviation Windows := (gmap (option string) (N * N)).

Definition WINDOW_NANOS : N := 1000000000.

(** One turn of the loop of [applicable_rate_limits]. *)
Definition add_applicable (cap : CapabilityId) (applicable : gmap RateLimitScope N)
    (limit : RateLimit) : gmap RateLimitScope N :=
  let scope := scope_from_limit limit in
  if applies_to scope cap then
    match applicable !! scope with
    | Some max => <[scope := max `min` rl_max_calls_per_second limit]> applicable
    | None => <[scope := rl_max_calls_per_second limit]> applicable
    end
  else applicable.

Definition applicable_rate_limits (limits : list RateLimit) (cap : CapabilityId)
  : gmap RateLimitScope N :=
  foldl (add_applicable cap) ∅ limits.

(** Iteration of the [BTreeMap] in scope order. *)
Definition scope_iter (m : gmap RateLimitScope N) : list (RateLimitScope * N) :=
  merge_sort (λ a b, scope_le a.1 b.1) (map_to_list m).

(** [now.saturating_sub(window_start)] is subtraction on [N]. *)
Definition effective_count (now : N) (windows : Windows) (key : option string) : N :=
  let '(window_start, count) := default (now, 0) (windows !! key) in
  if decide (WINDOW_NANOS ≤ now - window_start) then 0 else count.

(** Pass 1 of [check_rate_limits_detailed]. *)
Fixpoint first_rejection (now : N) (windows : Windows) (limits : list (RateLimitScope * N))
  : option RateLimitRejection :=
  match limits with
  | [] => None
  | (scope, max) :: limits' =>
      let used := effective_count now windows (window_key scope) in
      if decide (max ≤ used) then Some (MkRateLimitRejection scope max used)
      else first_rejection now windows limits'
  end.

(** One turn of pass 2. *)
Definition record_call (now : N) (windows : Windows) (scope : RateLimitScope) : Windows :=
  let key := window_key scope in
  let '(start, count) := default (now, 0) (windows !! key) in
  <[key := if decide (WINDOW_NANOS ≤ now - start) then (now, 1) else (start, u64_add count 1)]> windows.

Definition check_rate_limits_detailed (limits : list RateLimit) (now : N)
    (windows : Windows) (cap : CapabilityId) : RateLimitDecision * Windows :=
  match limits with
  | [] => (Allowed, windows)
  | _ =>
      let applicable := scope_iter (applicable_rate_limits limits cap) in
      match first_rejection now windows applicable with
      | Some rejection => (Rejected rejection, windows)
      | None => (Allowed, foldl (record_call now) windows applicable.*1)
      end
  end.

Definition check_rate_limits (limits : list RateLimit) (now : N) (windows : Windows)
    (cap : CapabilityId) : bool * Windows :=
  let '(decision, windows') := check_rate_limits_detailed limits now windows cap in
  (is_allowed decision, windows').

(** A sequence of calls, each with its clock reading and capability; the result
    says for each call whether it was allowed. *)
Fixpoint run_calls (limits : list RateLimit) (windows : Windows)
    (calls : list (N * CapabilityId)) : list bool * Windows :=
  match calls with
  | [] => ([], windows)
  | (now, cap) :: calls' =>
      let '(ok, windows') := check_rate_limits limits now windows cap in
      let '(oks, windows'') := run_calls limits windows' calls' in
      (ok :: oks, windows'')
  end.

(* ------------------------------------------------------------------ *)
(** ** Thresholds *)

(** The strictest limit declared for a scope. *)
Definition omin : option N → option N → option N := union_with (λ a b, Some (a `min` b)).

Fixpoint strictest (limits : list RateLimit) (s : RateLimitScope) : option N :=
  match limits with
  | [] => None
  | l :: limits' =>
      if decide (scope_from_limit l = s)
      then omin (Some (rl_max_calls_per_second l)) (strictest limits' s)
      else strictest limits' s
  end.

Lemma omin_assoc a b c : omin a (omin b c) = omin (omin a b) c.
Proof. destruct a, b, c; cbn; f_equal; lia. Qed.

Lemma omin_comm a b : omin a b = omin b a.
Proof. destruct a, b; cbn; f_equal; lia. Qed.

Lemma strictest_perm l1 l2 s : l1 ≡ₚ l2 → strictest l1 s = strictest l2 s.
Proof.
  induction 1 as [|x l1 l2 _ IH|x y l|l1 l2 l3 _ IH1 _ IH2]; cbn [strictest].
  - done.
  - by rewrite IH.
  - repeat case_decide; try done. by rewrite !omin_assoc, (omin_comm (Some _)).
  - by rewrite IH1.
Qed.

Lemma add_applicable_lookup cap m l s :
  add_applicable cap m l !! s =
  if applies_to s cap && bool_decide (scope_from_limit l = s)
  then omin (m !! s) (Some (rl_max_calls_per_second l)) else m !! s.
Proof.
  unfold add_applicable. destruct (decide (scope_from_limit l = s)) as [<-|Hne].
  - rewrite bool_decide_true, andb_true_r by done.
    destruct (applies_to _ _); [|done].
    destruct (m !! scope_from_limit l) eqn:E; by simplify_map_eq.
  - rewrite bool_decide_false, andb_false_r by done.
    repeat case_match; by simplify_map_eq.
Qed.

Lemma foldl_applicable_lookup cap limits m s :
  foldl (add_applicable cap) m limits !! s =
  if applies_to s cap then omin (m !! s) (strictest limits s) else m !! s.
Proof.
  revert m. induction limits as [|l limits IH]; intros m; cbn [foldl strictest].
  - by destruct (applies_to s cap), (m !! s).
  - rewrite IH, add_applicable_lookup. destruct (applies_to s cap); [|done]. cbn [andb].
    case_decide.
    + by rewrite bool_decide_true, omin_assoc.
    + by rewrite bool_decide_false.
Qed.

Lemma applicable_lookup limits cap s :
  applicable_rate_limits limits cap !! s =
  if applies_to s cap then strictest limits s else None.
Proof.
  unfold applicable_rate_limits. rewrite foldl_applicable_lookup, lookup_empty.
  by destruct (strictest limits s).
Qed.

Lemma applicable_perm l1 l2 cap :
  l1 ≡ₚ l2 → applicable_rate_limits l1 cap = applicable_rate_limits l2 cap.
Proof.
  intros Hp. apply map_eq. intros s. rewrite !applicable_lookup.
  by rewrite (strictest_perm _ _ s Hp).
Qed.

Lemma strictest_elem limits s max :
  strictest limits s = Some max → ∃ l, l ∈ limits ∧ rl_max_calls_per_second l = max.
Proof.
  revert max. induction limits as [|l limits IH]; intros max; cbn [strictest]; [done|].
  case_decide; [|intros (l' & ? & ?)%IH; set_solver].
  destruct (strictest limits s) as [m|] eqn:E; cbn.
  - intros [= <-]. destruct (N.min_spec (rl_max_calls_per_second l) m) as [[_ ->]|[_ ->]]; [set_solver|].
    destruct (IH m eq_refl) as (l' & ? & ?). set_solver.
  - intros [= <-]. set_solver.
Qed.

(* ------------------------------------------------------------------ *)
(** ** One call *)

Lemma scope_iter_elem m s n : (s, n) ∈ scope_iter m ↔ m !! s = Some n.
Proof. unfold scope_iter. rewrite merge_sort_Permutation. apply elem_of_map_to_list. Qed.

Lemma scope_iter_NoDup m : NoDup (scope_iter m).*1.
Proof. unfold scope_iter. rewrite merge_sort_Permutation. apply NoDup_fst_map_to_list. Qed.

Lemma first_rejection_None now windows limits :
  first_rejection now windows limits = None ↔
  ∀ s max, (s, max) ∈ limits → effective_count now windows (window_key s) < max.
Proof.
  induction limits as [|[s max] limits IH]; cbn [first_rejection]; [set_solver|].
  case_decide as Hle.
  - split; [done|]. intros H. specialize (H s max ltac:(set_solver)). lia.
  - rewrite IH. split; [|set_solver].
    intros H s' max' [[= -> ->]|?]%elem_of_cons; [lia|eauto].
Qed.

Lemma window_key_inj s1 s2 : window_key s1 = window_key s2 → s1 = s2.
Proof. destruct s1, s2; naive_solver. Qed.

(** The window of a scope after an allowed call. *)
Definition next_window (now : N) (w : option (N * N)) : N * N :=
  let '(start, count) := default (now, 0) w in
  if decide (WINDOW_NANOS ≤ now - start) then (now, 1) else (start, u64_add count 1).

Lemma record_call_lookup now windows s s' :
  record_call now windows s !! window_key s' =
  if decide (s = s') then Some (next_window now (windows !! window_key s'))
  else windows !! window_key s'.
Proof.
  unfold record_call, next_window.
  destruct (default (now, 0) (windows !! window_key s)) as [start count] eqn:E. cbn zeta.
  destruct (decide (s = s')) as [<-|Hs].
  - rewrite lookup_insert_eq, E. done.
  - rewrite lookup_insert_ne; [done|]. by intros ?%window_key_inj.
Qed.

Lemma foldl_record_lookup now scopes windows s :
  NoDup scopes →
  foldl (record_call now) windows scopes !! window_key s =
  if decide (s ∈ scopes) then Some (next_window now (windows !! window_key s))
  else windows !! window_key s.
Proof.
  intros Hnd. revert windows. induction Hnd as [|x scopes Hx _ IH]; intros windows; cbn [foldl].
  - by rewrite decide_False by set_solver.
  - rewrite IH, record_call_lookup. destruct (decide (x = s)) as [->|].
    + rewrite (decide_False (P := s ∈ scopes)) by done. by rewrite decide_True by set_solver.
    + destruct (decide (s ∈ scopes)); [rewrite decide_True|rewrite decide_False]; set_solver.
Qed.

Lemma check_rate_limits_spec limits now windows cap ok windows' :
  check_rate_limits limits now windows cap = (ok, windows') →
  (ok = true ↔ ∀ s max, applies_to s cap = true → strictest limits s = Some max →
                 effective_count now windows (window_key s) < max) ∧
  (∀ s, windows' !! window_key s =
     if ok && applies_to s cap && bool_decide (is_Some (strictest limits s))
     then Some (next_window now (windows !! window_key s)) else windows !! window_key s).
Proof.
  unfold check_rate_limits, check_rate_limits_detailed. destruct limits as [|l limits].
  { intros [= <- <-]. split; [by split|]. intros s. rewrite (bool_decide_false (is_Some _)).
    - by rewrite andb_false_r.
    - cbn [strictest]. by intros [? ?]. }
  set (ls := l :: limits). set (app := scope_iter _).
  assert (∀ s n, (s, n) ∈ app ↔ applies_to s cap = true ∧ strictest ls s = Some n) as Happ.
  { intros s n. unfold app. rewrite scope_iter_elem, applicable_lookup.
    destruct (applies_to s cap); naive_solver. }
  destruct (first_rejection now windows app) as [r|] eqn:E; intros [= <- <-].
  - split; [|done]. split; [done|]. intros H. exfalso.
    enough (first_rejection now windows app = None) by congruence.
    apply first_rejection_None. intros s max [? ?]%Happ. eauto.
  - rewrite first_rejection_None in E. split.
    + split; [|done]. intros _ s max ? ?. apply E, Happ. done.
    + intros s. rewrite foldl_record_lookup by apply scope_iter_NoDup. cbn [andb].
      destruct (decide (s ∈ app.*1)) as [Hs|Hs].
      * apply list_elem_of_fmap in Hs as ([s' n] & -> & [Ha Hn]%Happ). simpl in *.
        by rewrite Ha, bool_decide_true by by rewrite Hn.
      * rewrite andb_comm. case_bool_decide as Hsome; [|done]. destruct Hsome as [n Hn].
        destruct (applies_to s cap) eqn:Ha; [|done]. exfalso. apply Hs.
        apply list_elem_of_fmap. exists (s, n). rewrite Happ. done.
Qed.

(** The decision and the windows do not depend on the order of the limits. *)
Lemma check_rate_limits_perm l1 l2 now windows cap :
  l1 ≡ₚ l2 →
  check_rate_limits_detailed l1 now windows cap = check_rate_limits_detailed l2 now windows cap.
Proof.
  intros Hp. unfold check_rate_limits_detailed. rewrite (applicable_perm _ _ cap Hp).
  destruct l1, l2; [done|by apply Permutation_nil_cons in Hp
    |by symmetry in Hp; apply Permutation_nil_cons in Hp|done].
Qed.

(* ------------------------------------------------------------------ *)
(** ** Sequences of calls *)

(** How many of the calls to which [s] applies were allowed. *)
Definition allowed_in (limits : list RateLimit) (windows : Windows)
    (calls : list (N * CapabilityId)) (s : RateLimitScope) : N :=
  N.of_nat (length (filter (λ p, applies_to s p.1.2 = true ∧ p.2 = true)
                      (zip calls (run_calls limits windows calls).1))).

Lemma allowed_in_cons limits windows now cap calls s ok windows' :
  check_rate_limits limits now windows cap = (ok, windows') →
  allowed_in limits windows ((now, cap) :: calls) s =
  (if applies_to s cap && ok then 1 else 0) + allowed_in limits windows' calls s.
Proof.
  intros Hc. unfold allowed_in. cbn [run_calls]. rewrite Hc.
  destruct (run_calls limits windows' calls) as [oks w]. cbn [fst zip zip_with].
  rewrite filter_cons. cbn [fst snd].
  destruct (applies_to s cap), ok; cbn [andb];
    first [rewrite decide_True by done|rewrite decide_False by naive_solver]; cbn [length]; lia.
Qed.

Section Window.
Context (limits : list RateLimit) (s : RateLimitScope) (max t : N).
Context (Hmax : strictest limits s = Some max).
Context (Hu64 : Forall (λ l, rl_max_calls_per_second l < u64_modulus) limits).

Lemma max_u64 : max < u64_modulus.
Proof.
  apply strictest_elem in Hmax as (l & Hl & <-). by rewrite Forall_forall in Hu64; apply Hu64.
Qed.

(** What one call of the sequence does to the window of [s]. *)
Lemma call_window now windows cap ok windows' :
  check_rate_limits limits now windows cap = (ok, windows') →
  (applies_to s cap && ok = true ∧ effective_count now windows (window_key s) < max ∧
   windows' !! window_key s = Some (next_window now (windows !! window_key s))) ∨
  (applies_to s cap && ok = false ∧ windows' !! window_key s = windows !! window_key s).
Proof.
  intros [Hok Hw]%check_rate_limits_spec. specialize (Hw s). rewrite Hmax in Hw.
  rewrite (bool_decide_true (is_Some (Some max))), andb_true_r in Hw by done.
  destruct ok, (applies_to s cap) eqn:Ha; cbn [andb] in *; auto.
  left. split; [done|]. split; [|done]. apply Hok; auto.
Qed.

(** A window opened at [t] or later admits what is left of its threshold. *)
Lemma allowed_current_window windows calls start count :
  Forall (λ c, t ≤ c.1 < t + WINDOW_NANOS) calls →
  windows !! window_key s = Some (start, count) → t ≤ start → count ≤ max →
  allowed_in limits windows calls s ≤ max - count.
Proof.
  intros Hc. revert windows count. induction Hc as [|[now cap] calls Hnow _ IH];
    intros windows count Hw Hstart Hcount; [unfold allowed_in; simpl; lia|]. simpl in Hnow.
  destruct (check_rate_limits limits now windows cap) as [ok windows'] eqn:E.
  rewrite (allowed_in_cons _ _ _ _ _ _ _ _ E).
  destruct (call_window _ _ _ _ _ E) as [(-> & He & Hw')|(-> & Hw')]; rewrite Hw in *.
  - unfold effective_count, next_window in *. rewrite Hw in He. simpl in *.
    assert (¬ WINDOW_NANOS ≤ now - start) by lia. rewrite decide_False in He by done. rewrite decide_False in Hw' by done.
    rewrite u64_add_small in Hw' by (pose proof max_u64; lia).
    specialize (IH _ _ Hw' Hstart). lia.
  - specialize (IH _ _ Hw' Hstart). lia.
Qed.

Lemma allowed_from_window windows calls start count :
  Forall (λ c, t ≤ c.1 < t + WINDOW_NANOS) calls →
  windows !! window_key s = Some (start, count) →
  allowed_in limits windows calls s ≤ (max - count) + max.
Proof.
  intros Hc. revert windows count. induction Hc as [|[now cap] calls Hnow Hc IH];
    intros windows count Hw; [unfold allowed_in; simpl; lia|]. simpl in Hnow.
  destruct (check_rate_limits limits now windows cap) as [ok windows'] eqn:E.
  rewrite (allowed_in_cons _ _ _ _ _ _ _ _ E).
  destruct (call_window _ _ _ _ _ E) as [(-> & He & Hw')|(-> & Hw')]; rewrite Hw in *;
    [|specialize (IH _ _ Hw'); lia].
  unfold effective_count, next_window in *. rewrite Hw in He. simpl in *.
  case_decide as Hexp.
  - pose proof (allowed_current_window windows' calls now 1 Hc Hw'). lia.
  - rewrite u64_add_small in Hw' by (pose proof max_u64; lia).
    specialize (IH _ _ Hw'). lia.
Qed.

Lemma allowed_no_window windows calls :
  Forall (λ c, t ≤ c.1 < t + WINDOW_NANOS) calls →
  windows !! window_key s = None →
  allowed_in limits windows calls s ≤ max.
Proof.
  intros Hc. revert windows. induction Hc as [|[now cap] calls Hnow Hc IH];
    intros windows Hw; [unfold allowed_in; simpl; lia|]. simpl in Hnow.
  destruct (check_rate_limits limits now windows cap) as [ok windows'] eqn:E.
  rewrite (allowed_in_cons _ _ _ _ _ _ _ _ E).
  destruct (call_window _ _ _ _ _ E) as [(-> & He & Hw')|(-> & Hw')]; rewrite Hw in *;
    [|specialize (IH _ Hw'); lia].
  unfold effective_count, next_window in *. rewrite Hw in He. simpl in *.
  assert (¬ WINDOW_NANOS ≤ now - now) by (unfold WINDOW_NANOS; lia).
  rewrite decide_False in He by done. rewrite decide_False in Hw' by done.
  rewrite u64_add_small in Hw' by done.
  pose proof (allowed_current_window windows' calls now 1 Hc Hw'). lia.
Qed.
End Window.

(** C31: a rate limit bounds the calls it lets through.  When every limit is
    below 2^64, then of the calls made within any one second, with clock
    readings in any order and calls of other capabilities in between, a scope
    whose strictest limit is [max] lets at most [2 * max] pass (a window that is
    already open may end within that second and another one begin), and at
    most [max] when no window of the scope is open yet. *)
Theorem rate_limit_bound limits windows calls s max t :
  strictest limits s = Some max →
  Forall (λ l, rl_max_calls_per_second l < u64_modulus) limits →
  Forall (λ c, t ≤ c.1 < t + WINDOW_NANOS) calls →
  allowed_in limits windows calls s ≤ 2 * max ∧
  (windows !! window_key s = None → allowed_in limits windows calls s ≤ max).
Proof.
  intros Hmax Hu Hc. split; [|by eapply allowed_no_window].
  destruct (windows !! window_key s) as [[start count]|] eqn:Hw.
  - pose proof (allowed_from_window limits s max t Hmax Hu windows calls start count Hc Hw). lia.
  - pose proof (allowed_no_window limits s max t Hmax Hu windows calls Hc Hw). lia.
Qed.

(** Two calls per second are allowed; the window opened 0.9 s before [t] still
    has room, so that four calls pass within the second from [t] on. *)
Lemma rate_limit_bound_witness :
  let limits := [MkRateLimit None 2; MkRateLimit None 5] in
  let windows : Windows := {[ None := (100000000, 0) ]} in
  let calls := [(1000000000, "io"); (1000000001, "io"); (1100000000, "db"); (1100000001, "io");
                (1100000002, "io")] in
  (run_calls limits windows calls).1 = [true; true; true; true; false] ∧
  allowed_in limits windows calls Global ≤ 2 * 2.
Proof.
  intros limits windows calls. split; [by vm_compute|].
  refine (proj1 (rate_limit_bound limits windows calls Global 2 1000000000 _ _ _)).
  - by vm_compute.
  - by repeat constructor.
  - subst calls. repeat constructor; simpl; unfold WINDOW_NANOS; lia.
Defined.
