(* ===== verification/Transaction.v ===== *)
(** * Transaction groups: commit, rollback and compensation

    ail-runtime/src/transaction.rs.  A group collects capability entries and is
    decided once, by the first commit or rollback; the operations take the
    group and return it with their result.  A trace of operations is run by
    [exec_all], which keeps every result. *)

From S2P Require Import Prelude Text Profile.

Inductive TransactionPolicy : Type := Transactional | NonRollbackable.

Definition is_rollbackable (p : TransactionPolicy) : bool :=
  match p with Transactional => true | NonRollbackable => false end.

Inductive CompensationPolicy : Type :=
| NoCompensation
| ExplicitRefund (refund_capability : CapabilityId)
| IdempotentRetry (idempotency_key : string).

#[global] Instance TransactionPolicy_eq_dec : EqDecision TransactionPolicy.
Proof. solve_decision. Defined.
#[global] Instance CompensationPolicy_eq_dec : EqDecision CompensationPolicy.
Proof. solve_decision. Defined.

Record CompensationRequired : Type := MkCompensationRequired {
  cr_capability : CapabilityId;
  cr_compensation : CompensationPolicy;
}.

Inductive TransactionStatus : Type := Pending | Committed | RolledBack.

#[global] Instance TransactionStatus_eq_dec : EqDecision TransactionStatus.
Proof. solve_decision. Defined.

Definition status_str (s : TransactionStatus) : string :=
  match s with Pending => "pending" | Committed => "committed" | RolledBack => "rolled_back" end.

Record TransactionEntry : Type := MkTransactionEntry {
  te_capability : CapabilityId;
  te_policy : TransactionPolicy;
  te_compensation : CompensationPolicy;
}.

Record TransactionGroup : Type := MkTransactionGroup {
  tg_name : string;
  tg_entries : list TransactionEntry;
  tg_status : TransactionStatus;
}.

Record TransactionAuditRecord : Type := MkTransactionAuditRecord {
  tar_group_name_shape : string;
  tar_action : string;
  tar_category : string;
  tar_status_before : string;
  tar_status_after : string;
  tar_entry_count : nat;
  tar_non_rollbackable_count : nat;
  tar_compensation_required_count : nat;
}.

Record TransactionReadinessIssue : Type := MkTransactionReadinessIssue {
  tri_category : string;
  tri_count : nat;
}.

Record TransactionPreflightReport : Type := MkTransactionPreflightReport {
  tpr_group_name_shape : string;
  tpr_status : string;
  tpr_category : string;
  tpr_entry_count : nat;
  tpr_non_rollbackable_count : nat;
  tpr_compensation_required_count : nat;
  tpr_missing_compensation_count : nat;
  tpr_duplicate_capability_count : nat;
  tpr_issues : list TransactionReadinessIssue;
}.

Definition is_ready (r : TransactionPreflightReport) : bool :=
  match tpr_issues r with [] => true | _ => false end.

(* ------------------------------------------------------------------ *)
(** ** Redaction and counts *)

Definition byte_is_ascii (c : ascii) : bool := (N_of_ascii c <? 128)%N.
Definition byte_is_ascii_whitespace (c : ascii) : bool :=
  let n := N_of_ascii c in bool_decide (n = 32 ∨ n = 9 ∨ n = 10 ∨ n = 12 ∨ n = 13)%N.
Definition byte_is_alphanumeric (c : ascii) : bool :=
  let n := N_of_ascii c in
  (((48 <=? n) && (n <=? 57)) || ((65 <=? n) && (n <=? 90)) || ((97 <=? n) && (n <=? 122)))%N.
Definition byte_is_separator (c : ascii) : bool :=
  bool_decide (c = "/"%char ∨ c = "\"%char ∨ c = ":"%char ∨ c = "@"%char).
Definition byte_is_label (c : ascii) : bool :=
  byte_is_alphanumeric c || bool_decide (c = "_"%char ∨ c = "-"%char ∨ c = "."%char).

(** [name.bytes().any(f)] *)
Definition string_any (f : ascii → bool) (s : string) : bool :=
  negb (string_all (λ c, negb (f c)) s).

Definition redacted_group_name_shape (name : string) : string :=
  if decide (name = "") then "empty"
  else if (64 <? String.length name)%nat then "too_long"
  else if negb (string_all byte_is_ascii name) then "non_ascii"
  else if string_any byte_is_ascii_whitespace name then "contains_whitespace"
  else if string_any byte_is_separator name then "contains_separator"
  else if string_all byte_is_label name then "safe_label"
  else "other".

Definition non_rollbackable_count (g : TransactionGroup) : nat :=
  length (filter (λ e, te_policy e = NonRollbackable) (tg_entries g)).

Definition compensation_required_count (g : TransactionGroup) : nat :=
  length (filter (λ e, te_policy e = NonRollbackable ∧ te_compensation e ≠ NoCompensation)
            (tg_entries g)).

Definition missing_compensation_count (g : TransactionGroup) : nat :=
  length (filter (λ e, te_policy e = NonRollbackable ∧ te_compensation e = NoCompensation)
            (tg_entries g)).

(** The filter with the [HashSet] of capabilities seen so far. *)
Fixpoint count_duplicates (seen : gset string) (entries : list TransactionEntry) : nat :=
  match entries with
  | [] => 0
  | e :: entries' =>
      (if decide (te_capability e ∈ seen) then 1 else 0)
      + count_duplicates ({[te_capability e]} ∪ seen) entries'
  end.

Definition duplicate_capability_count (g : TransactionGroup) : nat :=
  count_duplicates ∅ (tg_entries g).

Definition readiness_issues (entry_count missing_compensation_count duplicate_capability_count : nat)
  : list TransactionReadinessIssue :=
  (if decide (entry_count = 0)
   then [MkTransactionReadinessIssue "transaction.readiness.empty_group" 1] else [])
  ++ (if decide (0 < missing_compensation_count)
      then [MkTransactionReadinessIssue "transaction.readiness.missing_compensation"
              missing_compensation_count] else [])
  ++ (if decide (0 < duplicate_capability_count)
      then [MkTransactionReadinessIssue "transaction.readiness.duplicate_capability"
              duplicate_capability_count] else []).

Definition transaction_audit_category (action : string) (before : TransactionStatus) : string :=
  if decide (action = "commit") then
    match before with
    | Pending => "transaction.committed"
    | Committed => "transaction.commit_already_committed"
    | RolledBack => "transaction.commit_after_rollback"
    end
  else if decide (action = "rollback") then
    match before with
    | Pending => "transaction.rolled_back"
    | Committed => "transaction.rollback_after_commit"
    | RolledBack => "transaction.rollback_already_rolled_back"
    end
  else "transaction.unknown_action".

(* ------------------------------------------------------------------ *)
(** ** Operations *)

Definition new_group (name : string) : TransactionGroup := MkTransactionGroup name [] Pending.

Definition add_with_compensation (capability : CapabilityId) (policy : TransactionPolicy)
    (compensation : CompensationPolicy) (g : TransactionGroup) : TransactionGroup :=
  MkTransactionGroup (tg_name g)
    (tg_entries g ++ [MkTransactionEntry capability policy compensation]) (tg_status g).

Definition add (capability : CapabilityId) (policy : TransactionPolicy) (g : TransactionGroup)
  : TransactionGroup := add_with_compensation capability policy NoCompensation g.

Definition set_status (s : TransactionStatus) (g : TransactionGroup) : TransactionGroup :=
  MkTransactionGroup (tg_name g) (tg_entries g) s.

Definition commit (g : TransactionGroup) : TransactionGroup :=
  if decide (tg_status g = Pending) then set_status Committed g else g.

Definition audit_record (action : string) (before : TransactionStatus) (g : TransactionGroup)
  : TransactionAuditRecord :=
  MkTransactionAuditRecord (redacted_group_name_shape (tg_name g)) action
    (transaction_audit_category action before) (status_str before) (status_str (tg_status g))
    (length (tg_entries g)) (non_rollbackable_count g) (compensation_required_count g).

Definition commit_with_audit (g : TransactionGroup) : TransactionGroup * TransactionAuditRecord :=
  let g' := commit g in (g', audit_record "commit" (tg_status g) g').

Definition rollback (g : TransactionGroup) : TransactionGroup * list CapabilityId :=
  if decide (tg_status g ≠ Pending) then (g, [])
  else (set_status RolledBack g,
        te_capability <$> filter (λ e, te_policy e = NonRollbackable) (tg_entries g)).

Definition rollback_with_audit (g : TransactionGroup)
  : TransactionGroup * (list CapabilityId * TransactionAuditRecord) :=
  let '(g', caps) := rollback g in (g', (caps, audit_record "rollback" (tg_status g) g')).

Definition rollback_with_compensation (g : TransactionGroup)
  : TransactionGroup * list CompensationRequired :=
  if decide (tg_status g ≠ Pending) then (g, [])
  else (set_status RolledBack g,
        (λ e, MkCompensationRequired (te_capability e) (te_compensation e))
        <$> filter (λ e, te_policy e = NonRollbackable) (tg_entries g)).

Definition preflight_report (g : TransactionGroup) : TransactionPreflightReport :=
  let missing := missing_compensation_count g in
  let duplicate := duplicate_capability_count g in
  let issues := readiness_issues (length (tg_entries g)) missing duplicate in
  MkTransactionPreflightReport (redacted_group_name_shape (tg_name g)) (status_str (tg_status g))
    (match issues with [] => "transaction.preflight.ready" | _ => "transaction.preflight.blocked" end)
    (length (tg_entries g)) (non_rollbackable_count g) (compensation_required_count g)
    missing duplicate issues.

(* ------------------------------------------------------------------ *)
(** ** Traces *)

Inductive TxOp : Type :=
| OpAdd (capability : CapabilityId) (policy : TransactionPolicy)
| OpAddWithCompensation (capability : CapabilityId) (policy : TransactionPolicy)
    (compensation : CompensationPolicy)
| OpCommit
| OpCommitWithAudit
| OpRollback
| OpRollbackWithAudit
| OpRollbackWithCompensation
| OpPreflight.

(** The capabilities an operation hands back for compensation, and the group. *)
Definition exec_op (op : TxOp) (g : TransactionGroup) : TransactionGroup * list CapabilityId :=
  match op with
  | OpAdd c p => (add c p g, [])
  | OpAddWithCompensation c p k => (add_with_compensation c p k g, [])
  | OpCommit => (commit g, [])
  | OpCommitWithAudit => ((commit_with_audit g).1, [])
  | OpRollback => rollback g
  | OpRollbackWithAudit => let '(g', (caps, _)) := rollback_with_audit g in (g', caps)
  | OpRollbackWithCompensation =>
      let '(g', comps) := rollback_with_compensation g in (g', cr_capability <$> comps)
  | OpPreflight => (g, [])
  end.

Fixpoint exec_all (ops : list TxOp) (g : TransactionGroup)
  : TransactionGroup * list (list CapabilityId) :=
  match ops with
  | [] => (g, [])
  | op :: ops' =>
      let '(g', out) := exec_op op g in
      let '(g'', outs) := exec_all ops' g' in (g'', out :: outs)
  end.

(** The entry an operation adds, and the status it decides on. *)
Definition added (op : TxOp) : list TransactionEntry :=
  match op with
  | OpAdd c p => [MkTransactionEntry c p NoCompensation]
  | OpAddWithCompensation c p k => [MkTransactionEntry c p k]
  | _ => []
  end.

Definition decides (op : TxOp) : option TransactionStatus :=
  match op with
  | OpCommit | OpCommitWithAudit => Some Committed
  | OpRollback | OpRollbackWithAudit | OpRollbackWithCompensation => Some RolledBack
  | _ => None
  end.

(* ------------------------------------------------------------------ *)
(** ** Lifecycle *)

Definition decided (g : TransactionGroup) : Prop := tg_status g ≠ Pending.

Definition owed (entries : list TransactionEntry) : list CapabilityId :=
  te_capability <$> filter (λ e, te_policy e = NonRollbackable) entries.

Lemma exec_op_frame op g :
  tg_name (exec_op op g).1 = tg_name g ∧
  tg_entries (exec_op op g).1 = tg_entries g ++ added op.
Proof.
  destruct op; cbn; unfold rollback_with_audit, commit, rollback, rollback_with_compensation;
    repeat case_decide; cbn; by rewrite ?app_nil_r.
Qed.

(** A decided group keeps its status and owes nothing any more. *)
Lemma exec_op_decided op g :
  decided g → tg_status (exec_op op g).1 = tg_status g ∧ (exec_op op g).2 = [].
Proof.
  unfold decided. intros Hd.
  destruct op; cbn; unfold rollback_with_audit, commit, rollback, rollback_with_compensation;
    repeat case_decide; cbn; naive_solver.
Qed.

(** A pending group is decided by a deciding operation only. *)
Lemma exec_op_pending op g :
  tg_status g = Pending →
  tg_status (exec_op op g).1 = default Pending (decides op) ∧
  (exec_op op g).2 = if decide (decides op = Some RolledBack) then owed (tg_entries g) else [].
Proof.
  intros Hp. destruct op; cbn;
    unfold rollback_with_audit, commit, rollback, rollback_with_compensation, owed;
    repeat (case_decide; cbn); try naive_solver.
  split; [done|]. by rewrite <- list_fmap_compose.
Qed.

Lemma decides_not_pending op status : decides op = Some status → status ≠ Pending.
Proof. by destruct op; intros [= <-]. Qed.

Lemma exec_all_app ops1 ops2 g :
  exec_all (ops1 ++ ops2) g =
  ((exec_all ops2 (exec_all ops1 g).1).1,
   (exec_all ops1 g).2 ++ (exec_all ops2 (exec_all ops1 g).1).2).
Proof.
  revert g. induction ops1 as [|op ops1 IH]; intros g; cbn.
  - by destruct (exec_all ops2 g).
  - destruct (exec_op op g) as [g' out]. rewrite IH.
    by destruct (exec_all ops1 g') as [g1 outs1].
Qed.

Lemma exec_all_cons op ops g :
  exec_all (op :: ops) g =
  ((exec_all ops (exec_op op g).1).1, (exec_op op g).2 :: (exec_all ops (exec_op op g).1).2).
Proof. cbn. destruct (exec_op op g) as [g' out]. cbn. by destruct (exec_all ops g'). Qed.

Lemma exec_all_frame ops g :
  tg_name (exec_all ops g).1 = tg_name g ∧
  tg_entries (exec_all ops g).1 = tg_entries g ++ (ops ≫= added).
Proof.
  revert g. induction ops as [|op ops IH]; intros g.
  - cbn. by rewrite app_nil_r.
  - rewrite exec_all_cons. cbn. destruct (IH (exec_op op g).1) as [-> ->].
    destruct (exec_op_frame op g) as [-> ->]. by rewrite app_assoc.
Qed.

Lemma exec_all_decided ops g :
  decided g →
  tg_status (exec_all ops g).1 = tg_status g ∧
  (exec_all ops g).2 = replicate (length ops) [].
Proof.
  revert g. induction ops as [|op ops IH]; intros g Hd; [done|].
  rewrite exec_all_cons. cbn. destruct (exec_op_decided op g Hd) as [Hs Ho].
  destruct (IH (exec_op op g).1) as [-> ->]; [unfold decided in *; congruence|].
  by rewrite Hs, Ho.
Qed.

Lemma exec_all_pending ops g :
  tg_status g = Pending → Forall (λ op, decides op = None) ops →
  tg_status (exec_all ops g).1 = Pending ∧ (exec_all ops g).2 = replicate (length ops) [].
Proof.
  intros Hp Hops. revert g Hp. induction Hops as [|op ops Hop _ IH]; intros g Hp; [done|].
  rewrite exec_all_cons. cbn. destruct (exec_op_pending op g Hp) as [Hs Ho].
  rewrite Hop in Hs, Ho. destruct (IH (exec_op op g).1) as [-> ->]; [done|].
  by rewrite Ho.
Qed.

(** A transaction group is decided by the first commit or rollback it
    receives, whatever else happens before or after, and stays decided.  A
    rollback that decides hands back exactly the capabilities of the
    non-rollbackable entries added before it, in order; no other operation of
    the trace hands back any, so that each owed compensation is reported
    exactly once. *)
Theorem transaction_decided_once name pre op post status :
  Forall (λ o, decides o = None) pre → decides op = Some status →
  let '(g, outs) := exec_all (pre ++ op :: post) (new_group name) in
  tg_status g = status ∧ tg_name g = name ∧
  tg_entries g = (pre ++ op :: post) ≫= added ∧
  outs = replicate (length pre) [] ++
         (if decide (status = RolledBack) then owed (pre ≫= added) else []) ::
         replicate (length post) [].
Proof.
  intros Hpre Hop. rewrite exec_all_app. set (g1 := (exec_all pre (new_group name)).1).
  destruct (exec_all_pending pre (new_group name) eq_refl Hpre) as [Hp1 Ho1].
  destruct (exec_op_pending op g1 Hp1) as [Hs2 Ho2]. rewrite Hop in Hs2, Ho2. cbn in Hs2.
  destruct (exec_all_decided post (exec_op op g1).1) as [Hs3 Ho3].
  { unfold decided. rewrite Hs2. by eapply decides_not_pending. }
  destruct (exec_all_frame (pre ++ op :: post) (new_group name)) as [Hn He].
  rewrite exec_all_app in Hn, He. fold g1 in Hn, He.
  rewrite exec_all_cons in *. cbn in Hn, He |- *.
  rewrite Hs3, Hs2, Ho1, Ho2, Ho3, Hn, He. repeat split.
  do 2 f_equal. unfold g1. rewrite (proj2 (exec_all_frame pre (new_group name))).
  cbn [tg_entries new_group app]. clear -Hop. repeat case_decide; congruence.
Qed.

Lemma transaction_decided_once_witness :
  let '(g, outs) :=
    exec_all ([OpAdd "db" Transactional; OpAdd "pay" NonRollbackable; OpPreflight]
              ++ OpRollback :: [OpCommit; OpAdd "late" NonRollbackable; OpRollbackWithAudit])
      (new_group "tx") in
  tg_status g = RolledBack ∧ outs = [[]; []; []; ["pay"]; []; []; []].
Proof.
  pose proof (transaction_decided_once "tx"
    [OpAdd "db" Transactional; OpAdd "pay" NonRollbackable; OpPreflight] OpRollback
    [OpCommit; OpAdd "late" NonRollbackable; OpRollbackWithAudit] RolledBack
    ltac:(by repeat constructor) eq_refl) as (H1 & _ & _ & H2).
  split; [exact H1|exact H2].
Defined.

(* ------------------------------------------------------------------ *)
(** ** Preflight *)

Lemma count_duplicates_0 seen entries :
  count_duplicates seen entries = 0 ↔
  NoDup (te_capability <$> entries) ∧ ∀ e, e ∈ entries → te_capability e ∉ seen.
Proof.
  revert seen. induction entries as [|e entries IH]; intros seen; csimpl.
  - split; [|done]. intros _. split; [constructor|set_solver].
  - rewrite NoDup_cons. case_decide as Hin.
    + split; [lia|]. intros [_ H]. exfalso. by apply (H e); [set_solver|].
    + rewrite Nat.add_0_l, IH. split.
      * intros [Hnd Hs]. split; [split; [|done]|].
        -- intros (e' & Heq & He')%list_elem_of_fmap. specialize (Hs e' He'). set_solver.
        -- intros e' [->|He']%elem_of_cons; [done|]. specialize (Hs e' He'). set_solver.
      * intros [[Hni Hnd] Hs]. split; [done|]. intros e' He' Hin'.
        apply elem_of_union in Hin' as [Heq|Hin']; [|by apply (Hs e'); [apply elem_of_cons; by right|]].
        apply elem_of_singleton in Heq. apply Hni. apply list_elem_of_fmap. by exists e'.
Qed.

Lemma filter_length_0 {A} (P : A → Prop) {P_dec : ∀ x, Decision (P x)} (l : list A) :
  length (filter P l) = 0 ↔ ∀ x, x ∈ l → ¬ P x.
Proof. rewrite length_zero_iff_nil. apply filter_nil_iff. Qed.

(** The preflight report is ready exactly when the group has an entry, every
    non-rollbackable entry declares a compensation, and no capability occurs
    twice; and its counts add up (the non-rollbackable entries are those with
    and those without compensation). *)
Theorem preflight_ready_iff g :
  (is_ready (preflight_report g) = true ↔
     tg_entries g ≠ [] ∧
     (∀ e, e ∈ tg_entries g → te_policy e = NonRollbackable → te_compensation e ≠ NoCompensation) ∧
     NoDup (te_capability <$> tg_entries g)) ∧
  tpr_non_rollbackable_count (preflight_report g) =
    tpr_compensation_required_count (preflight_report g)
    + tpr_missing_compensation_count (preflight_report g).
Proof.
  split.
  - unfold is_ready, preflight_report, readiness_issues. cbn [tpr_issues].
    transitivity (length (tg_entries g) ≠ 0 ∧ missing_compensation_count g = 0 ∧
                  duplicate_capability_count g = 0).
    { repeat case_decide; cbn; naive_solver lia. }
    unfold missing_compensation_count, duplicate_capability_count.
    rewrite filter_length_0, count_duplicates_0, length_zero_iff_nil. set_solver.
  - cbn. unfold non_rollbackable_count, compensation_required_count, missing_compensation_count.
    induction (tg_entries g) as [|e l IH]; [done|]. rewrite !filter_cons.
    repeat case_decide; cbn; naive_solver lia.
Qed.

(* ------------------------------------------------------------------ *)
(** ** Redaction *)

(** What of a group may reach an audit record: the shape of its name, its
    status, and for each entry its policy and whether it has a compensation. *)
Definition redaction_view (g : TransactionGroup)
  : string * TransactionStatus * list (TransactionPolicy * bool) :=
  (redacted_group_name_shape (tg_name g), tg_status g,
   (λ e, (te_policy e, bool_decide (te_compensation e = NoCompensation))) <$> tg_entries g).

Lemma view_counts g1 g2 :
  redaction_view g1 = redaction_view g2 →
  length (tg_entries g1) = length (tg_entries g2) ∧
  non_rollbackable_count g1 = non_rollbackable_count g2 ∧
  compensation_required_count g1 = compensation_required_count g2.
Proof.
  unfold redaction_view, non_rollbackable_count, compensation_required_count.
  intros [= _ _ He]. revert He. generalize (tg_entries g1) (tg_entries g2). intros l1.
  induction l1 as [|e1 l1 IH]; intros [|e2 l2]; csimpl; try done.
  intros [= Hp Hc He]. apply IH in He as (Hl & Hn & Hr). rewrite !filter_cons, Hp.
  assert (te_compensation e1 = NoCompensation ↔ te_compensation e2 = NoCompensation) as Hiff.
  { rewrite <- (bool_decide_eq_true (te_compensation e1 = _)), Hc. apply bool_decide_eq_true. }
  repeat case_decide; cbn; repeat split; naive_solver lia.
Qed.

(** Audit records are redacted.  Two groups whose names have the same shape,
    with the same status and the same list of policies and compensation flags,
    give the same commit record and the same rollback record: group names,
    capability names, refund capabilities and idempotency keys do not reach
    them. *)
Theorem audit_records_redacted g1 g2 :
  redaction_view g1 = redaction_view g2 →
  (commit_with_audit g1).2 = (commit_with_audit g2).2 ∧
  (rollback_with_audit g1).2.2 = (rollback_with_audit g2).2.2.
Proof.
  intros Hv. pose proof (view_counts g1 g2 Hv) as (Hl & Hn & Hr).
  unfold redaction_view in Hv. injection Hv as Hs Ht _.
  unfold commit_with_audit, rollback_with_audit, commit, rollback.
  rewrite Ht. split; case_decide; unfold audit_record; cbn;
    unfold non_rollbackable_count, compensation_required_count in *; cbn;
    by rewrite ?Hs, ?Ht, ?Hl, ?Hn, ?Hr.
Qed.

Lemma audit_records_redacted_witness :
  let g k := add_with_compensation ("charge:" +:+ k) NonRollbackable (IdempotentRetry k)
               (new_group k) in
  g "alice" ≠ g "bob" ∧ (commit_with_audit (g "alice")).2 = (commit_with_audit (g "bob")).2.
Proof.
  intros g. split; [done|].
  exact (proj1 (audit_records_redacted (g "alice") (g "bob") eq_refl)).
Defined.

(** A compensation declared for a transactional entry is kept. *)
Lemma transactional_entry_with_compensation :
  te_compensation <$> tg_entries (add_with_compensation "db" Transactional (IdempotentRetry "k")
                                    (new_group "tx")) = [IdempotentRetry "k"].
Proof. done. Qed.
