(* ===== verification/Handles.v ===== *)
(** * Resource handles with reference counts

    [HandleRegistry] of ail-runtime/src/codec.rs: identifiers are handed out
    from 1 upwards, a released handle keeps its entry with count 0.  Counts are
    [u32], identifiers [u64]; both wrap around, as the release build does. *)

From S2P Require Import Prelude.
#[local] Open Scope N_scope.

Record HandleRegistry : Type := MkHandleRegistry {
  hr_next : N;
  hr_ref_counts : gmap N N;
}.

Definition registry_new : HandleRegistry := MkHandleRegistry 1 ∅.

Definition create (r : HandleRegistry) : HandleRegistry * N :=
  let id := hr_next r in
  (MkHandleRegistry (u64_add (hr_next r) 1) (<[id := 1]> (hr_ref_counts r)), id).

Definition clone_handle (id : N) (r : HandleRegistry) : HandleRegistry * bool :=
  match hr_ref_counts r !! id with
  | Some count =>
      if decide (0 < count)
      then (MkHandleRegistry (hr_next r) (<[id := as_u32 (count + 1)]> (hr_ref_counts r)), true)
      else (r, false)
  | None => (r, false)
  end.

Definition contains (id : N) (r : HandleRegistry) : bool :=
  bool_decide (0 < default 0 (hr_ref_counts r !! id)).

Definition release (id : N) (r : HandleRegistry) : HandleRegistry * bool :=
  match hr_ref_counts r !! id with
  | Some count =>
      if decide (0 < count)
      then (MkHandleRegistry (hr_next r) (<[id := count - 1]> (hr_ref_counts r)),
            bool_decide (count - 1 = 0))
      else (r, false)
  | None => (r, false)
  end.

(* ------------------------------------------------------------------ *)
(** ** Traces of operations and their results *)

Inductive HandleOp : Type :=
| HCreate
| HClone (id : N)
| HRelease (id : N).

Inductive HandleEvent : Type :=
| Created (id : N)
| Cloned (id : N) (ok : bool)
| Released (id : N) (last : bool).

#[global] Instance HandleEvent_eq_dec : EqDecision HandleEvent.
Proof. solve_decision. Defined.

Definition handle_step (op : HandleOp) (r : HandleRegistry) : HandleRegistry * HandleEvent :=
  match op with
  | HCreate => let '(r', id) := create r in (r', Created id)
  | HClone id => let '(r', ok) := clone_handle id r in (r', Cloned id ok)
  | HRelease id => let '(r', last) := release id r in (r', Released id last)
  end.

Fixpoint handle_run (ops : list HandleOp) (r : HandleRegistry)
  : HandleRegistry * list HandleEvent :=
  match ops with
  | [] => (r, [])
  | op :: ops' =>
      let '(r', e) := handle_step op r in
      let '(r'', es) := handle_run ops' r' in (r'', e :: es)
  end.

Definition occurrences (e : HandleEvent) (es : list HandleEvent) : nat :=
  length (filter (λ e', e' = e) es).

(** After [k] operations: identifiers below [next] only, counts at most [k]. *)
Definition registry_inv (k : N) (r : HandleRegistry) : Prop :=
  1 ≤ hr_next r ≤ k + 1 ∧
  ∀ id c, hr_ref_counts r !! id = Some c → 1 ≤ id < hr_next r ∧ c ≤ k.

Lemma registry_inv_new : registry_inv 0 registry_new.
Proof. split; [done|]. intros id c. simpl. by rewrite lookup_empty. Qed.

Lemma handle_step_inv k op r :
  k + 1 < u32_modulus → registry_inv k r → registry_inv (k + 1) (handle_step op r).1.
Proof.
  intros Hk [Hn Hc]. assert (k + 1 + 1 < u64_modulus) by (unfold u32_modulus, u64_modulus in *; lia).
  destruct op as [|id|id]; cbn; unfold create, clone_handle, release.
  - split; cbn; rewrite u64_add_small by lia; [lia|].
    intros j c. rewrite lookup_insert. case_decide; [intros [= <-]; lia|].
    intros Hj%Hc. lia.
  - destruct (hr_ref_counts r !! id) as [c0|] eqn:E; [case_decide|]; cbn;
      (split; cbn; [lia|]); intros j c; try (intros Hj%Hc; lia).
    pose proof (Hc _ _ E). rewrite lookup_insert. case_decide; [subst|intros Hj%Hc; lia].
    rewrite as_u32_small by lia. intros [= <-]. lia.
  - destruct (hr_ref_counts r !! id) as [c0|] eqn:E; [case_decide|]; cbn;
      (split; cbn; [lia|]); intros j c; try (intros Hj%Hc; lia).
    pose proof (Hc _ _ E). rewrite lookup_insert. case_decide; [subst|intros Hj%Hc; lia].
    intros [= <-]. lia.
Qed.

(** A fully released handle stays so. *)
Lemma handle_step_dead k op r id :
  registry_inv k r → hr_ref_counts r !! id = Some 0 →
  hr_ref_counts (handle_step op r).1 !! id = Some 0 ∧
  (handle_step op r).2 ≠ Cloned id true ∧ (handle_step op r).2 ≠ Released id true ∧
  (handle_step op r).2 ≠ Created id.
Proof.
  intros [_ Hc] Hid. pose proof (Hc _ _ Hid) as [Hlt _].
  destruct op as [|j|j]; cbn; unfold create, clone_handle, release.
  - cbn. rewrite lookup_insert_ne by lia. repeat split; try done. intros [= ?]. lia.
  - destruct (decide (j = id)) as [->|Hne].
    + rewrite Hid. by cbn.
    + repeat case_match; simplify_eq/=; rewrite ?lookup_insert_ne by done; repeat split; congruence.
  - destruct (decide (j = id)) as [->|Hne].
    + rewrite Hid. by cbn.
    + repeat case_match; simplify_eq/=; rewrite ?lookup_insert_ne by done; repeat split; congruence.
Qed.

Lemma handle_run_cons op ops r :
  handle_run (op :: ops) r =
  ((handle_run ops (handle_step op r).1).1,
   (handle_step op r).2 :: (handle_run ops (handle_step op r).1).2).
Proof. cbn. destruct (handle_step op r) as [r' e]. cbn. by destruct (handle_run ops r'). Qed.

Lemma occurrences_cons e e' es :
  occurrences e (e' :: es) = ((if decide (e' = e) then 1 else 0) + occurrences e es)%nat.
Proof. unfold occurrences. rewrite filter_cons. by case_decide. Qed.

Definition revives (id : N) (e : HandleEvent) : bool :=
  bool_decide (e = Cloned id true ∨ e = Released id true ∨ e = Created id).

Lemma handle_run_dead k ops r id :
  k + N.of_nat (length ops) < u32_modulus →
  registry_inv k r → hr_ref_counts r !! id = Some 0 →
  Forall (λ e, revives id e = false) (handle_run ops r).2.
Proof.
  revert k r. induction ops as [|op ops IH]; intros k r Hk Hinv Hid; [by constructor|].
  cbn [length] in Hk. rewrite handle_run_cons. cbn.
  destruct (handle_step_dead k op r id Hinv Hid) as (Hid' & H1 & H2 & H3). constructor.
  - apply bool_decide_eq_false. naive_solver.
  - eapply (IH (k + 1)); [lia| |done]. apply handle_step_inv; [lia|done].
Qed.

(** The step after which a handle reports its last release leaves count 0. *)
Lemma last_release_dead op r id :
  (handle_step op r).2 = Released id true →
  hr_ref_counts (handle_step op r).1 !! id = Some 0.
Proof.
  destruct op as [|j|j]; cbn; unfold clone_handle, release.
  - done.
  - repeat case_match; naive_solver.
  - destruct (hr_ref_counts r !! j) as [c|]; [case_decide|]; cbn; intros [= -> Hl]; [|done..].
    apply bool_decide_eq_true in Hl. by rewrite lookup_insert_eq, Hl.
Qed.

Lemma created_alive k op r id :
  registry_inv k r → (handle_step op r).2 = Created id →
  hr_ref_counts r !! id = None ∧ id < hr_next (handle_step op r).1 ∨ u64_modulus ≤ k + 2.
Proof.
  intros [Hn Hc]. destruct op as [|j|j]; cbn; unfold create, clone_handle, release;
    try (repeat case_match; naive_solver).
  cbn. intros [= <-]. destruct (decide (u64_modulus ≤ k + 2)); [by right|left].
  rewrite u64_add_small by lia. split; [|lia].
  destruct (hr_ref_counts r !! hr_next r) eqn:E; [|done]. apply Hc in E. lia.
Qed.

Lemma handle_run_no_create k ops r id :
  k + N.of_nat (length ops) < u32_modulus → registry_inv k r → id < hr_next r →
  occurrences (Created id) (handle_run ops r).2 = 0%nat.
Proof.
  revert k r. induction ops as [|op ops IH]; intros k r Hk Hinv Hid; [done|].
  cbn [length] in Hk. rewrite handle_run_cons. cbn [snd]. rewrite occurrences_cons.
  assert (registry_inv (k + 1) (handle_step op r).1) as Hinv' by (apply handle_step_inv; [lia|done]).
  assert (hr_next r ≤ hr_next (handle_step op r).1) as Hmono.
  { destruct Hinv as [Hn _], op as [|j|j]; cbn; unfold create, clone_handle, release;
      [cbn; rewrite u64_add_small; unfold u32_modulus, u64_modulus in *; lia| |];
      repeat case_match; simplify_eq/=; lia. }
  rewrite (IH (k + 1)) by (done || lia). rewrite decide_False; [done|].
  destruct op as [|j|j]; cbn; unfold create, clone_handle, release;
    [intros [= ?]; lia|repeat case_match; naive_solver..].
Qed.

(** Handles are linear.  In every trace of fewer than [2^32] operations on a
    fresh registry, a handle is created at most once, its final release is
    reported at most once, and after that report no clone, release or creation
    of it succeeds, while the registry's invariant holds throughout. *)
Theorem handle_released_once ops id :
  N.of_nat (length ops) < u32_modulus →
  let '(r, es) := handle_run ops registry_new in
  registry_inv (N.of_nat (length ops)) r ∧
  (occurrences (Created id) es ≤ 1)%nat ∧
  (occurrences (Released id true) es ≤ 1)%nat ∧
  ∀ pre post, es = pre ++ Released id true :: post → Forall (λ e, revives id e = false) post.
Proof.
  intros Hlen.
  enough (∀ k r, k + N.of_nat (length ops) < u32_modulus → registry_inv k r →
    registry_inv (k + N.of_nat (length ops)) (handle_run ops r).1 ∧
    (occurrences (Created id) (handle_run ops r).2 ≤ 1)%nat ∧
    (occurrences (Released id true) (handle_run ops r).2 ≤ 1)%nat ∧
    ∀ pre post, (handle_run ops r).2 = pre ++ Released id true :: post →
      Forall (λ e, revives id e = false) post) as H.
  { specialize (H 0 registry_new Hlen registry_inv_new).
    destruct (handle_run ops registry_new). exact H. }
  clear Hlen. induction ops as [|op ops IH]; intros k r Hk Hinv.
  { cbn. rewrite N.add_0_r. split; [done|]. split; [lia|]. split; [lia|].
    intros pre post Heq; by destruct pre. }
  cbn [length] in Hk |- *. rewrite handle_run_cons. cbn [fst snd]. rewrite !occurrences_cons.
  assert (registry_inv (k + 1) (handle_step op r).1) as Hinv' by (apply handle_step_inv; [lia|done]).
  destruct (IH (k + 1) (handle_step op r).1 ltac:(lia) Hinv') as (Hr & Hcr & Hrel & Hdead).
  replace (k + N.of_nat (S (length ops))) with (k + 1 + N.of_nat (length ops)) by lia.
  assert ((handle_step op r).2 = Released id true →
          Forall (λ e, revives id e = false) (handle_run ops (handle_step op r).1).2) as Hd.
  { intros Hl. eapply (handle_run_dead (k + 1)); [lia|done|]. by apply last_release_dead. }
  split; [done|]. split; [|split].
  - case_decide as Hc; [|done]. apply (created_alive k) in Hc as [[_ Hlt]|?]; [|unfold u32_modulus, u64_modulus in *; lia|done].
    rewrite (handle_run_no_create (k + 1)) by (done || lia). lia.
  - case_decide as Hl; [|done]. specialize (Hd Hl).
    enough (occurrences (Released id true) (handle_run ops (handle_step op r).1).2 = 0%nat) by lia.
    apply length_zero_iff_nil, filter_nil_iff. intros e He ->. rewrite Forall_forall in Hd.
    specialize (Hd _ He). apply bool_decide_eq_false in Hd. naive_solver.
  - intros [|e pre] post Heq; [|injection Heq as _ Heq; by eapply Hdead].
    injection Heq as He <-. by apply Hd.
Qed.

Lemma handle_released_once_witness :
  let ops := [HCreate; HClone 1; HRelease 1; HRelease 1; HRelease 1; HClone 1; HCreate] in
  (handle_run ops registry_new).2 =
    [Created 1; Cloned 1 true; Released 1 false; Released 1 true; Released 1 false;
     Cloned 1 false; Created 2] ∧
  (occurrences (Released 1 true) (handle_run ops registry_new).2 ≤ 1)%nat.
Proof.
  intros ops. split; [by vm_compute|].
  pose proof (handle_released_once ops 1 eq_refl) as H.
  destruct (handle_run ops registry_new) as [r es]. exact (proj1 (proj2 (proj2 H))).
Defined.

(** A [u32] count that reaches [2^32] references wraps to 0: a live handle
    becomes a released one. *)
Lemma clone_overflow_kills :
  let r := MkHandleRegistry 2 {[ 1 := u32_modulus - 1 ]} in
  (clone_handle 1 r).2 = true ∧ contains 1 (clone_handle 1 r).1 = false.
Proof. by vm_compute. Qed.
