(* ===== verification/ValueCodec.v ===== *)
(** * The value decoder of the WASM boundary

    [ValueDecoder] of ail-runtime/src/codec.rs: a raw [i64] and the linear
    memory are turned into a structured value as a layout says.  A read outside
    the memory gives [None] and the decoder answers [SUnit].  The one way to
    fail is the allocation of the result of a list, [Vec::with_capacity(count)],
    with a [count] taken from the memory: Rust panics when [count] elements
    exceed [isize::MAX] bytes.  The size of an element, which Rust leaves to the
    compiler, is the parameter [elem_size].  Also here: the scalar argument
    encoding of ail-runtime/src/handler.rs. *)

From S2P Require Import Prelude Text I64.
#[local] Open Scope Z_scope.
#[local] Set Warnings "-register-all".

Inductive StructuredValue : Type :=
| SScalar (n : Z)
| SFloat (bits : Z)
| SRecord (fields : list (string * StructuredValue))
| SVariant (tag : string) (payload : option StructuredValue)
| SList (elems : list StructuredValue)
| SText (ptr len : Z)
| SBytes (ptr len : Z)
| SHandle (id : Z)
| SUnit.

Inductive ValueLayout : Type :=
| LayoutScalar
| LayoutText
| LayoutBytes
| LayoutRecord (fields : list string)
| LayoutVariant (tags : list string)
| LayoutTuple (elems : list ValueLayout)
| LayoutList (inner : ValueLayout)
| LayoutOption (inner : ValueLayout)
| LayoutResult (ok err : ValueLayout)
| LayoutHandle.

(** The panic "capacity overflow" of [Vec::with_capacity]. *)
Inductive panic : Type := CapacityOverflow.

Definition usize_modulus : Z := 2 ^ 64.
Definition isize_MAX : Z := 2 ^ 63 - 1.

(** [usize::checked_add] *)
Definition usize_checked_add (a b : Z) : option Z :=
  if decide (a + b < usize_modulus) then Some (a + b) else None.

(** [z as i32] *)
Definition as_i32 (z : Z) : Z := (z + 2 ^ 31) mod 2 ^ 32 - 2 ^ 31.

(** The number a little-endian byte string stands for. *)
Fixpoint le_value (bytes : list N) : Z :=
  match bytes with
  | [] => 0
  | b :: bytes' => Z.of_N b + 256 * le_value bytes'
  end.

(** [&memory[offset..offset + n]], when it is in bounds *)
Definition slice (memory : list N) (offset : Z) (n : nat) : option (list N) :=
  match usize_checked_add offset (Z.of_nat n) with
  | Some end_ =>
      if decide (Z.of_nat (length memory) < end_) then None
      else Some (take n (drop (Z.to_nat offset) memory))
  | None => None
  end.

Definition read_i64_at (memory : list N) (offset : Z) : option Z :=
  wrap ∘ le_value <$> slice memory offset 8.

Definition read_i32_at (memory : list N) (offset : Z) : option Z :=
  as_i32 ∘ le_value <$> slice memory offset 4.

Definition ptr_from_raw (raw : Z) : option Z :=
  if decide (- 2 ^ 31 ≤ raw < 2 ^ 31) then (if decide (0 ≤ raw) then Some raw else None) else None.

(** [(raw & 0xFFFF_FFFF) as i32] and [((raw >> 32) & 0xFFFF_FFFF) as i32] *)
Definition packed_ptr (raw : Z) : Z := as_i32 (Z.land raw 4294967295).
Definition packed_len (raw : Z) : Z := as_i32 (Z.land (Z.shiftr raw 32) 4294967295).

(** [tags.get(v as usize)]: a negative [v] becomes an index no vector has. *)
Definition get_tag {A} (tags : list A) (v : Z) : option A :=
  if decide (0 ≤ v < Z.of_nat (length tags)) then tags !! Z.to_nat v else None.

(** The loop of [decode_record]; [None] is the early return of [Unit]. *)
Fixpoint record_fields (fields : list string) (i : Z) (ptr : Z) (memory : list N)
  : option (list (string * StructuredValue)) :=
  match fields with
  | [] => Some []
  | name :: fields' =>
      offset ← usize_checked_add ptr (i * 8);
      val ← read_i64_at memory offset;
      rest ← record_fields fields' (i + 1) ptr memory;
      Some ((name, SScalar val) :: rest)
  end.

Definition decode_record (fields : list string) (raw : Z) (memory : list N) : StructuredValue :=
  match ptr_from_raw raw with
  | None => SUnit
  | Some ptr => from_option SRecord SUnit (record_fields fields 0 ptr memory)
  end.

Definition decode_variant (tags : list string) (ptr : Z) (memory : list N) : StructuredValue :=
  match read_i32_at memory ptr with
  | None => SUnit
  | Some v =>
      match get_tag tags v with
      | None => SUnit
      | Some tag =>
          match usize_checked_add ptr 8 ≫= read_i64_at memory with
          | None => SUnit
          | Some payload_raw => SVariant tag (Some (SScalar payload_raw))
          end
      end
  end.

Section Decoder.
Context (elem_size : Z) (memory : list N).

(** [decode_typed_variant], with the payload decoder of each tag. *)
Definition decode_typed_variant (tags : list string) (ptr : Z)
    (payloads : list (Z → result StructuredValue panic)) : result StructuredValue panic :=
  match read_i32_at memory ptr with
  | None => Ok SUnit
  | Some v =>
      match get_tag tags v with
      | None => Ok SUnit
      | Some tag =>
          match get_tag payloads v with
          | None => Ok SUnit
          | Some decode_payload =>
              if decide (tag = "None") then Ok (SVariant tag None)
              else
                match usize_checked_add ptr 8 ≫= read_i64_at memory with
                | None => Ok SUnit
                | Some payload_raw =>
                    let? value := decode_payload payload_raw in
                    Ok (SVariant tag (Some value))
                end
          end
      end
  end.

(** The loop of [decode_list]: [Ok None] is the early return of [Unit]. *)
Fixpoint list_elems (decode_elem : Z → result StructuredValue panic) (n : nat) (i ptr : Z)
  : result (option (list StructuredValue)) panic :=
  match n with
  | O => Ok (Some [])
  | S n' =>
      match usize_checked_add ptr (8 + i * 8) ≫= read_i64_at memory with
      | None => Ok None
      | Some val =>
          let? value := decode_elem val in
          let? rest := list_elems decode_elem n' (i + 1) ptr in
          Ok (cons value <$> rest)
      end
  end.

(** The loop makes at most [list_turns] turns: a turn past the end of the
    memory is the last one. *)
Definition list_turns (count : Z) : nat :=
  Z.to_nat (Z.min count (Z.of_nat (length memory) / 8 + 1)).

Definition decode_list (decode_elem : Z → result StructuredValue panic) (ptr : Z)
  : result StructuredValue panic :=
  match read_i64_at memory ptr with
  | None => Ok SUnit
  | Some count =>
      if decide (count < 0) then Ok SUnit
      else if decide (isize_MAX < count * elem_size) then Err CapacityOverflow
      else
        let? elems := list_elems decode_elem (list_turns count) 0 ptr in
        Ok (from_option SList SUnit elems)
  end.

(** The loop of [decode_tuple] over the element decoders. *)
Fixpoint tuple_elems (decoders : list (Z → result StructuredValue panic)) (i ptr : Z)
  : result (option (list StructuredValue)) panic :=
  match decoders with
  | [] => Ok (Some [])
  | decode_elem :: decoders' =>
      match usize_checked_add ptr (i * 8) ≫= read_i64_at memory with
      | None => Ok None
      | Some val =>
          let? value := decode_elem val in
          let? rest := tuple_elems decoders' (i + 1) ptr in
          Ok (cons value <$> rest)
      end
  end.

Definition decode_tuple (decoders : list (Z → result StructuredValue panic)) (raw : Z)
  : result StructuredValue panic :=
  match ptr_from_raw raw with
  | None => Ok SUnit
  | Some ptr =>
      let? elems := tuple_elems decoders 0 ptr in
      Ok (from_option SList SUnit elems)
  end.

(** [ValueDecoder::decode] *)
Fixpoint decode (layout : ValueLayout) (raw : Z) : result StructuredValue panic :=
  match layout with
  | LayoutScalar => Ok (SScalar raw)
  | LayoutText => Ok (SText (packed_ptr raw) (packed_len raw))
  | LayoutBytes => Ok (SBytes (packed_ptr raw) (packed_len raw))
  | LayoutRecord fields => Ok (decode_record fields raw memory)
  | LayoutTuple elems => decode_tuple (map decode elems) raw
  | LayoutVariant tags =>
      match ptr_from_raw raw with
      | Some ptr => Ok (decode_variant tags ptr memory)
      | None => Ok SUnit
      end
  | LayoutList inner =>
      match ptr_from_raw raw with
      | Some ptr => decode_list (decode inner) ptr
      | None => Ok SUnit
      end
  | LayoutOption inner =>
      match ptr_from_raw raw with
      | Some ptr =>
          decode_typed_variant ["None"; "Some"] ptr [λ payload, Ok (SScalar payload); decode inner]
      | None => Ok SUnit
      end
  | LayoutResult ok err =>
      match ptr_from_raw raw with
      | Some ptr => decode_typed_variant ["Ok"; "Err"] ptr [decode ok; decode err]
      | None => Ok SUnit
      end
  | LayoutHandle => Ok (SHandle (raw mod 2 ^ 64))
  end.
End Decoder.

(** [n.to_le_bytes()] of an [i64] *)
Definition i64_le_bytes (n : Z) : list N := le_bytes 8 (Z.to_N (n mod 2 ^ 64)).

(** [encode_args_as_le_bytes] and [decode_raw_as_structured] of handler.rs *)
Definition encode_args_as_le_bytes (args : list StructuredValue) : list N :=
  args ≫= λ arg, i64_le_bytes (match arg with SScalar n => n | _ => 0 end).

Definition decode_raw_as_structured (raw : list N) : StructuredValue :=
  if decide (length raw < 8)%nat then SUnit
  else SScalar (wrap (le_value (take 8 raw))).

(* ------------------------------------------------------------------ *)
(** ** Little-endian words *)

Lemma le_value_app bs cs :
  le_value (bs ++ cs) = le_value bs + 256 ^ Z.of_nat (length bs) * le_value cs.
Proof.
  induction bs as [|b bs IH]; cbn [app le_value length]; [rewrite Z.pow_0_r; lia|].
  rewrite IH, Nat2Z.inj_succ, Z.pow_succ_r by lia. ring.
Qed.

Lemma le_value_le_bytes k n :
  le_value (le_bytes k n) = Z.of_N n mod 256 ^ Z.of_nat k.
Proof.
  revert n. induction k as [|k IH]; intros n.
  { cbn. by rewrite Z.mod_1_r. }
  cbn [le_bytes le_value]. rewrite IH, Nat2Z.inj_succ, Z.pow_succ_r by lia.
  rewrite N2Z.inj_mod, N2Z.inj_div.
  rewrite Z.rem_mul_r by lia. change (Z.of_N 256) with 256. ring.
Qed.

Lemma le_value_i64 n : in_i64 n → wrap (le_value (i64_le_bytes n)) = n.
Proof.
  intros Hn. unfold i64_le_bytes. rewrite le_value_le_bytes.
  rewrite Z2N.id by (apply Z.mod_pos_bound; lia).
  change (256 ^ Z.of_nat 8) with (2 ^ 64). rewrite Z.mod_mod by lia.
  rewrite <- (wrap_id n) at 2 by done. apply wrap_eq_mod. unfold i64_modulus.
  by rewrite Z.mod_mod by lia.
Qed.

Lemma length_i64_le_bytes n : length (i64_le_bytes n) = 8%nat.
Proof. apply length_le_bytes. Qed.

Lemma read_i64_range memory offset z : read_i64_at memory offset = Some z → in_i64 z.
Proof.
  unfold read_i64_at. destruct (slice memory offset 8); [|done]. intros [= <-]. apply wrap_range.
Qed.

Lemma as_i32_range z : - 2 ^ 31 ≤ as_i32 z < 2 ^ 31.
Proof. unfold as_i32. pose proof (Z.mod_pos_bound (z + 2 ^ 31) (2 ^ 32) ltac:(lia)). lia. Qed.

(** A read succeeds exactly when the word lies inside the memory. *)
Lemma slice_Some memory offset n :
  0 ≤ offset → Z.of_nat (length memory) < usize_modulus →
  is_Some (slice memory offset n) ↔ offset + Z.of_nat n ≤ Z.of_nat (length memory).
Proof.
  intros Ho Hm. unfold slice, usize_checked_add.
  case_decide as H1; cbn; [case_decide as H2|]; (split; [intros [? [=]]; lia|intros H]); try lia.
  all: try (exfalso; lia). by eexists.
Qed.

(** The word written at an offset is the word read there. *)
Lemma read_i64_word pre post n :
  in_i64 n → Z.of_nat (length (pre ++ i64_le_bytes n ++ post)) < usize_modulus →
  read_i64_at (pre ++ i64_le_bytes n ++ post) (Z.of_nat (length pre)) = Some n.
Proof.
  intros Hn Hm. unfold read_i64_at, slice, usize_checked_add.
  rewrite !length_app, length_i64_le_bytes in *.
  rewrite decide_True by lia. cbn [mbind]. rewrite decide_False by lia.
  rewrite Nat2Z.id, drop_app_length. cbn [fmap option_fmap option_map].
  rewrite take_app_length' by by rewrite length_i64_le_bytes.
  unfold compose. by rewrite le_value_i64.
Qed.

(* ------------------------------------------------------------------ *)
(** ** Decoded values have the shape of their layout *)

Section LayoutInd.
Context (P : ValueLayout → Prop).
Context (Hleaf : ∀ l, match l with
                      | LayoutTuple _ | LayoutList _ | LayoutOption _ | LayoutResult _ _ => True
                      | _ => P l end).
Context (Htuple : ∀ ls, Forall P ls → P (LayoutTuple ls)).
Context (Hlist : ∀ l, P l → P (LayoutList l)).
Context (Hoption : ∀ l, P l → P (LayoutOption l)).
Context (Hresult : ∀ ok err, P ok → P err → P (LayoutResult ok err)).

Fixpoint ValueLayout_nested_ind (l : ValueLayout) : P l :=
  match l as l0 return P l0 with
  | LayoutTuple ls =>
      Htuple ls ((fix go ls : Forall P ls :=
        match ls with
        | [] => Forall_nil_2 _
        | l' :: ls' => Forall_cons_2 _ _ _ (ValueLayout_nested_ind l') (go ls')
        end) ls)
  | LayoutList l' => Hlist l' (ValueLayout_nested_ind l')
  | LayoutOption l' => Hoption l' (ValueLayout_nested_ind l')
  | LayoutResult a b => Hresult a b (ValueLayout_nested_ind a) (ValueLayout_nested_ind b)
  | l' => Hleaf l'
  end.
End LayoutInd.

Definition is_scalar (v : StructuredValue) : Prop :=
  match v with SScalar n => in_i64 n | _ => False end.

Definition in_i32 (z : Z) : Prop := - 2 ^ 31 ≤ z < 2 ^ 31.

(** The values a layout describes; a value read through a pointer can be
    [SUnit], the answer to a read outside the memory or an unknown tag. *)
Inductive conforms : ValueLayout → StructuredValue → Prop :=
| conf_scalar n : in_i64 n → conforms LayoutScalar (SScalar n)
| conf_text p n : in_i32 p → in_i32 n → conforms LayoutText (SText p n)
| conf_bytes p n : in_i32 p → in_i32 n → conforms LayoutBytes (SBytes p n)
| conf_handle id : 0 ≤ id < 2 ^ 64 → conforms LayoutHandle (SHandle id)
| conf_record fields kvs :
    kvs.*1 = fields → Forall is_scalar kvs.*2 → conforms (LayoutRecord fields) (SRecord kvs)
| conf_record_unit fields : conforms (LayoutRecord fields) SUnit
| conf_variant tags tag v :
    tag ∈ tags → is_scalar v → conforms (LayoutVariant tags) (SVariant tag (Some v))
| conf_variant_unit tags : conforms (LayoutVariant tags) SUnit
| conf_tuple ls vs : Forall2 conforms ls vs → conforms (LayoutTuple ls) (SList vs)
| conf_tuple_unit ls : conforms (LayoutTuple ls) SUnit
| conf_list l vs : Forall (conforms l) vs → conforms (LayoutList l) (SList vs)
| conf_list_unit l : conforms (LayoutList l) SUnit
| conf_none l : conforms (LayoutOption l) (SVariant "None" None)
| conf_some l v : conforms l v → conforms (LayoutOption l) (SVariant "Some" (Some v))
| conf_option_unit l : conforms (LayoutOption l) SUnit
| conf_ok l e v : conforms l v → conforms (LayoutResult l e) (SVariant "Ok" (Some v))
| conf_err l e v : conforms e v → conforms (LayoutResult l e) (SVariant "Err" (Some v))
| conf_result_unit l e : conforms (LayoutResult l e) SUnit.

Create HintDb codec discriminated.
#[export] Hint Constructors conforms : codec.
#[export] Hint Resolve read_i64_range as_i32_range wrap_range : codec.

(** A decoder is typed when it answers an [i64] with a value of the layout. *)
Definition typed (l : ValueLayout) (dec : Z → result StructuredValue panic) : Prop :=
  ∀ raw v, in_i64 raw → dec raw = Ok v → conforms l v.

Lemma get_tag_Some {A} (tags : list A) v t : get_tag tags v = Some t → tags !! Z.to_nat v = Some t.
Proof. unfold get_tag. by case_decide. Qed.

Lemma record_fields_conforms fields i ptr memory kvs :
  record_fields fields i ptr memory = Some kvs →
  kvs.*1 = fields ∧ Forall is_scalar kvs.*2.
Proof.
  revert i kvs. induction fields as [|f fields IH]; intros i kvs; cbn.
  { by intros [= <-]. }
  destruct (usize_checked_add ptr (i * 8)) as [o|]; cbn; [|done].
  destruct (read_i64_at memory o) as [z|] eqn:Ez; cbn; [|done].
  destruct (record_fields fields (i + 1) ptr memory) as [rest|] eqn:Er; cbn; [|done].
  intros [= <-]. apply IH in Er as [<- Hr]. split; [done|]. csimpl. constructor; [|done].
  by eapply read_i64_range.
Qed.

Lemma decode_record_conforms fields raw memory : conforms (LayoutRecord fields) (decode_record fields raw memory).
Proof.
  unfold decode_record. destruct (ptr_from_raw raw) as [ptr|]; [|constructor].
  destruct (record_fields fields 0 ptr memory) as [kvs|] eqn:E; [|constructor].
  apply record_fields_conforms in E as [? ?]. by constructor.
Qed.

Lemma decode_variant_conforms tags ptr memory : conforms (LayoutVariant tags) (decode_variant tags ptr memory).
Proof.
  unfold decode_variant. destruct (read_i32_at memory ptr) as [v|]; [|constructor].
  destruct (get_tag tags v) as [t|] eqn:Et; [|constructor].
  destruct (usize_checked_add ptr 8) as [o|]; cbn; [|constructor].
  destruct (read_i64_at memory o) as [z|] eqn:Ez; [|constructor]. constructor.
  - eapply list_elem_of_lookup_2. by apply get_tag_Some.
  - by eapply read_i64_range.
Qed.

Lemma tuple_elems_conforms memory ls decs i ptr vs :
  Forall2 typed ls decs → tuple_elems memory decs i ptr = Ok (Some vs) → Forall2 conforms ls vs.
Proof.
  intros Ht. revert i vs. induction Ht as [|l dec ls decs Hd _ IH]; intros i vs; cbn.
  { intros [= <-]. constructor. }
  destruct (usize_checked_add ptr (i * 8)) as [o|]; cbn; [|done].
  destruct (read_i64_at memory o) as [z|] eqn:Ez; cbn; [|done].
  destruct (dec z) as [v|] eqn:Ev; [|done].
  destruct (tuple_elems memory decs (i + 1) ptr) as [[rest|]|] eqn:Er; cbn; try done.
  intros [= <-]. constructor; [|by eapply IH]. eapply Hd; [|done]. by eapply read_i64_range.
Qed.

Lemma list_elems_conforms memory l dec n i ptr vs :
  typed l dec → list_elems memory dec n i ptr = Ok (Some vs) → Forall (conforms l) vs.
Proof.
  intros Hd. revert i vs. induction n as [|n IH]; intros i vs; cbn [list_elems].
  { intros [= <-]. constructor. }
  destruct (usize_checked_add ptr (8 + i * 8)) as [o|]; cbn [mbind option_bind]; [|done].
  destruct (read_i64_at memory o) as [z|] eqn:Ez; [|done].
  destruct (dec z) as [v|] eqn:Ev; [|done].
  destruct (list_elems memory dec n (i + 1) ptr) as [[rest|]|] eqn:Er; cbn; try done.
  intros [= <-]. constructor; [|by eapply IH]. eapply Hd; [|done]. by eapply read_i64_range.
Qed.

Lemma decode_typed_variant_cases memory tags ptr decs v :
  decode_typed_variant memory tags ptr decs = Ok v →
  v = SUnit ∨
  ∃ k tag dec, tags !! k = Some tag ∧ decs !! k = Some dec ∧
    ((tag = "None" ∧ v = SVariant tag None) ∨
     (tag ≠ "None" ∧ ∃ z w, in_i64 z ∧ dec z = Ok w ∧ v = SVariant tag (Some w))).
Proof.
  unfold decode_typed_variant. destruct (read_i32_at memory ptr) as [k|]; [|intros [= <-]; auto].
  destruct (get_tag tags k) as [tag|] eqn:Et; [|intros [= <-]; auto].
  destruct (get_tag decs k) as [dec|] eqn:Ed; [|intros [= <-]; auto].
  apply get_tag_Some in Et, Ed. intros H. case_decide as Hn.
  - injection H as <-. right. exists (Z.to_nat k), tag, dec. auto.
  - destruct (usize_checked_add ptr 8) as [o|]; cbn in H; [|injection H as <-; auto].
    destruct (read_i64_at memory o) as [z|] eqn:Ez; [|injection H as <-; auto].
    destruct (dec z) as [w|] eqn:Ew; [|done]. injection H as <-.
    apply read_i64_range in Ez. right. exists (Z.to_nat k), tag, dec. repeat split; [done..|].
    right. split; [done|]. by exists z, w.
Qed.

Fixpoint mentions_list (l : ValueLayout) : bool :=
  match l with
  | LayoutList _ => true
  | LayoutTuple ls => existsb mentions_list ls
  | LayoutOption l' => mentions_list l'
  | LayoutResult ok err => mentions_list ok || mentions_list err
  | _ => false
  end.

Lemma decode_typed elem_size memory l : typed l (decode elem_size memory l).
Proof.
  revert l. apply (ValueLayout_nested_ind (λ l, typed l (decode elem_size memory l)));
    [intros l|intros ls IH|intros l IH|intros l IH|intros ok err IHok IHerr].
  - destruct l; try done; intros raw v Hraw; cbn [decode].
    + intros [= <-]. by constructor.
    + intros [= <-]. constructor; apply as_i32_range.
    + intros [= <-]. constructor; apply as_i32_range.
    + intros [= <-]. apply decode_record_conforms.
    + destruct (ptr_from_raw raw); intros [= <-]; [apply decode_variant_conforms|constructor].
    + intros [= <-]. constructor. by apply Z.mod_pos_bound.
  - intros raw v Hraw. cbn [decode]. unfold decode_tuple.
    destruct (ptr_from_raw raw) as [ptr|]; [|intros [= <-]; constructor].
    destruct (tuple_elems _ _ 0 ptr) as [[vs|]|] eqn:E; [|intros [= <-]; constructor|done].
    intros [= <-]. constructor. eapply tuple_elems_conforms; [|done].
    clear -IH. induction IH; constructor; auto.
  - intros raw v Hraw. cbn [decode].
    destruct (ptr_from_raw raw) as [ptr|]; [|intros [= <-]; constructor].
    unfold decode_list. destruct (read_i64_at memory ptr) as [c|]; [|intros [= <-]; constructor].
    case_decide; [intros [= <-]; constructor|]. case_decide; [done|].
    destruct (list_elems _ _ _ _ _) as [[vs|]|] eqn:E; [|intros [= <-]; constructor|done].
    intros [= <-]. constructor. by eapply list_elems_conforms.
  - intros raw v Hraw. cbn [decode].
    destruct (ptr_from_raw raw) as [ptr|]; [|intros [= <-]; constructor].
    intros [->|(k & tag & dec & Ht & Hd & Hv)]%decode_typed_variant_cases; [constructor|].
    destruct k as [|[|k]]; [..|done]; injection Ht as <-; injection Hd as <-; naive_solver eauto with codec.
  - intros raw v Hraw. cbn [decode].
    destruct (ptr_from_raw raw) as [ptr|]; [|intros [= <-]; constructor].
    intros [->|(k & tag & dec & Ht & Hd & Hv)]%decode_typed_variant_cases; [constructor|].
    destruct k as [|[|k]]; [..|done]; injection Ht as <-; injection Hd as <-; naive_solver eauto with codec.
Qed.

Lemma tuple_elems_ok memory decs i ptr :
  (∀ dec z, dec ∈ decs → is_ok (dec z) = true) → is_ok (tuple_elems memory decs i ptr) = true.
Proof.
  revert i. induction decs as [|dec decs IH]; intros i Hd; cbn; [done|].
  destruct (usize_checked_add ptr (i * 8) ≫= read_i64_at memory) as [z|]; [|done].
  specialize (Hd dec z ltac:(set_solver)) as Hz. destruct (dec z); [|done].
  specialize (IH (i + 1) ltac:(set_solver)). by destruct (tuple_elems memory decs (i + 1) ptr).
Qed.

Lemma decode_typed_variant_ok memory tags ptr decs :
  (∀ dec z, dec ∈ decs → is_ok (dec z) = true) →
  is_ok (decode_typed_variant memory tags ptr decs) = true.
Proof.
  intros Hd. unfold decode_typed_variant. destruct (read_i32_at memory ptr) as [k|]; [|done].
  destruct (get_tag tags k) as [tag|]; [|done].
  destruct (get_tag decs k) as [dec|] eqn:Ed; [|done]. case_decide; [done|].
  destruct (usize_checked_add ptr 8 ≫= read_i64_at memory) as [z|]; [|done].
  apply get_tag_Some, list_elem_of_lookup_2 in Ed. specialize (Hd dec z Ed). by destruct (dec z).
Qed.

Lemma decode_no_panic elem_size memory l raw :
  mentions_list l = false → is_ok (decode elem_size memory l raw) = true.
Proof.
  revert l raw.
  apply (ValueLayout_nested_ind (λ l, ∀ raw, mentions_list l = false →
           is_ok (decode elem_size memory l raw) = true));
    [intros l|intros ls IH raw|intros l IH raw|intros l IH raw|intros ok err IHok IHerr raw]; cbn.
  - destruct l; try done; intros raw _; cbn; try done. by destruct (ptr_from_raw raw).
  - intros Hm. unfold decode_tuple. destruct (ptr_from_raw raw) as [ptr|]; [|done].
    enough (is_ok (tuple_elems memory (map (decode elem_size memory) ls) 0 ptr) = true) as H
      by by destruct (tuple_elems _ _ _ _).
    apply tuple_elems_ok. intros dec z (l & -> & Hl)%list_elem_of_fmap.
    rewrite Forall_forall in IH. apply IH; [done|].
    rewrite <- not_true_iff_false in Hm |- *. contradict Hm. apply existsb_exists.
    exists l. by rewrite <- list_elem_of_In.
  - done.
  - intros Hm. destruct (ptr_from_raw raw) as [ptr|]; [|done]. apply decode_typed_variant_ok.
    intros dec z [->|[->|[]%not_elem_of_nil]%elem_of_cons]%elem_of_cons; [done|by apply IH].
  - intros [Ho He]%orb_false_iff. destruct (ptr_from_raw raw) as [ptr|]; [|done].
    apply decode_typed_variant_ok.
    intros dec z [->|[->|[]%not_elem_of_nil]%elem_of_cons]%elem_of_cons; auto.
Qed.

(** The decoder is type safe.  Whatever the memory holds, decoding a raw
    [i64] either yields a value of the requested layout (the record's fields in
    order with [i64] scalars, a tag of the variant, elements that conform in
    turn, or [Unit] where a pointer is followed), or panics on the capacity of
    a list, which needs a list in the layout. *)
Theorem decode_sound elem_size memory l raw :
  in_i64 raw →
  match decode elem_size memory l raw with
  | Ok v => conforms l v
  | Err CapacityOverflow => mentions_list l = true
  end.
Proof.
  intros Hraw. pose proof (decode_no_panic elem_size memory l raw) as Hp.
  destruct (decode elem_size memory l raw) as [v|[]] eqn:E; [by eapply decode_typed|].
  destruct (mentions_list l); [done|]. by specialize (Hp eq_refl).
Qed.

Lemma decode_sound_witness :
  let memory := i64_le_bytes 1 ++ i64_le_bytes (-5) in
  decode 32 memory (LayoutOption LayoutScalar) 0 = Ok (SVariant "Some" (Some (SScalar (-5)))) ∧
  conforms (LayoutOption LayoutScalar) (SVariant "Some" (Some (SScalar (-5)))).
Proof.
  intros memory. assert (in_i64 0) as H0 by (unfold in_i64, i64_MIN, i64_MAX; lia).
  pose proof (decode_sound 32 memory (LayoutOption LayoutScalar) 0 H0) as H.
  assert (decode 32 memory (LayoutOption LayoutScalar) 0 =
          Ok (SVariant "Some" (Some (SScalar (-5))))) as E by by vm_compute.
  split; [exact E|]. rewrite E in H. exact H.
Defined.

(* ------------------------------------------------------------------ *)
(** ** Lists *)

Section Lists.
Context (elem_size : Z) (memory : list N) (dec : Z → result StructuredValue panic).
Context (Hmem : Z.of_nat (length memory) < usize_modulus).
Context (Hdec : ∀ z, in_i64 z → ∃ v, dec z = Ok v).

Lemma read_word_Some offset :
  0 ≤ offset →
  is_Some (usize_checked_add 0 offset ≫= read_i64_at memory) ↔
  offset + 8 ≤ Z.of_nat (length memory).
Proof.
  intros Ho. unfold usize_checked_add. case_decide; cbn [mbind option_bind].
  - unfold read_i64_at. rewrite fmap_is_Some, Z.add_0_l. by apply (slice_Some memory offset 8).
  - split; [by intros [? ?]|]. lia.
Qed.

Lemma usize_add_shift a b : usize_checked_add a b = usize_checked_add 0 (a + b).
Proof. unfold usize_checked_add. by rewrite Z.add_0_l. Qed.

Lemma list_elems_in_bounds n i ptr :
  0 ≤ ptr → 0 ≤ i → ptr + 8 + (i + Z.of_nat n) * 8 ≤ Z.of_nat (length memory) →
  ∃ vs, list_elems memory dec n i ptr = Ok (Some vs) ∧ length vs = n ∧
    ∀ j, (j < n)%nat → ∃ w v, read_i64_at memory (ptr + 8 + (i + Z.of_nat j) * 8) = Some w ∧
                       dec w = Ok v ∧ vs !! j = Some v.
Proof.
  intros Hp. revert i. induction n as [|n IH]; intros i Hi Hb.
  { exists []. repeat split; lia. }
  cbn [list_elems]. rewrite usize_add_shift.
  destruct (proj2 (read_word_Some (ptr + (8 + i * 8)) ltac:(lia)) ltac:(lia)) as [w Hw].
  assert (read_i64_at memory (ptr + 8 + i * 8) = Some w) as Hr.
  { unfold usize_checked_add in Hw. case_decide; cbn in Hw; [|done].
    rewrite <- Hw. f_equal. lia. }
  rewrite Hw. destruct (Hdec w (read_i64_range _ _ _ Hr)) as [v Hv]. rewrite Hv.
  destruct (IH (i + 1) ltac:(lia) ltac:(lia)) as (vs & Hvs & Hlen & Hel). rewrite Hvs.
  exists (v :: vs). split; [done|]. split; [by cbn; rewrite Hlen|].
  intros [|j] Hj.
  - exists w, v. rewrite Z.add_0_r. auto.
  - destruct (Hel j ltac:(lia)) as (w' & v' & Hw' & Hv' & Hj'). exists w', v'.
    rewrite <- Hw'. split; [f_equal; lia|]. auto.
Qed.

Lemma list_elems_out_of_bounds n i ptr :
  0 ≤ ptr → 0 ≤ i → Z.of_nat (length memory) < ptr + 8 + (i + Z.of_nat n) * 8 → (0 < n)%nat →
  list_elems memory dec n i ptr = Ok None.
Proof.
  intros Hp. revert i. induction n as [|n IH]; intros i Hi Hb Hn; [lia|].
  cbn [list_elems]. rewrite usize_add_shift.
  destruct (usize_checked_add 0 (ptr + (8 + i * 8)) ≫= read_i64_at memory) as [w|] eqn:Hw; [|done].
  assert (ptr + (8 + i * 8) + 8 ≤ Z.of_nat (length memory)) as Hin.
  { apply read_word_Some; [lia|]. by rewrite Hw. }
  assert (∃ v, dec w = Ok v) as [v ->].
  { apply Hdec. unfold usize_checked_add in Hw. case_decide; cbn in Hw; [|done].
    by eapply read_i64_range. }
  rewrite IH by lia. done.
Qed.

Lemma decode_list_spec ptr count :
  0 ≤ ptr → read_i64_at memory ptr = Some count → 0 ≤ count → count * elem_size ≤ isize_MAX →
  if decide (ptr + 8 + count * 8 ≤ Z.of_nat (length memory))
  then ∃ vs, decode_list elem_size memory dec ptr = Ok (SList vs) ∧ Z.of_nat (length vs) = count ∧
         ∀ j, (j < length vs)%nat → ∃ w v, read_i64_at memory (ptr + 8 + Z.of_nat j * 8) = Some w ∧
                                   dec w = Ok v ∧ vs !! j = Some v
  else decode_list elem_size memory dec ptr = Ok SUnit.
Proof.
  intros Hp Hc H0 Hs. unfold decode_list. rewrite Hc.
  rewrite (decide_False (P := count < 0)) by lia.
  rewrite (decide_False (P := isize_MAX < count * elem_size)) by lia.
  assert (ptr + 8 ≤ Z.of_nat (length memory)) as Hpm.
  { pose proof (slice_Some memory ptr 8 Hp Hmem) as Hsl. apply Hsl.
    unfold read_i64_at in Hc. by destruct (slice memory ptr 8). }
  pose proof (Z_div_mod_eq_full (Z.of_nat (length memory)) 8) as Hdiv.
  pose proof (Z.mod_pos_bound (Z.of_nat (length memory)) 8 ltac:(lia)) as Hmod.
  unfold list_turns. case_decide as Hin.
  - rewrite Z.min_l by lia.
    destruct (list_elems_in_bounds (Z.to_nat count) 0 ptr Hp) as (vs & -> & Hlen & Hel); [lia|lia|].
    exists vs. cbn. split; [done|]. split; [lia|]. intros j Hj.
    destruct (Hel j ltac:(lia)) as (w & v & Hw & Hv & Hvj). exists w, v. split; [|done].
    rewrite <- Hw. f_equal.
  - rewrite list_elems_out_of_bounds; [done|lia|lia|lia|lia].
Qed.
End Lists.

(** The elements of a list in memory, read one after the other. *)
Definition list_contents (elem_size : Z) (memory : list N) (inner : ValueLayout) (ptr count : Z)
    (vs : list StructuredValue) : Prop :=
  Z.of_nat (length vs) = count ∧
  ∀ j v, vs !! j = Some v → ∃ w, read_i64_at memory (ptr + 8 + Z.of_nat j * 8) = Some w ∧
                            decode elem_size memory inner w = Ok v.

(** Decoding a list is exact on every branch.  With a count word [count] at
    the pointer, a negative count gives [Unit]; a count whose elements exceed
    [isize::MAX] bytes panics; a list that reaches past the memory gives [Unit];
    and every other list is decoded to exactly [count] elements, each the
    decoding of its own word, so that the bound on the loop's turns never cuts
    a list short. *)
Theorem decode_list_exact elem_size memory inner raw count :
  Z.of_nat (length memory) < usize_modulus → mentions_list inner = false →
  0 ≤ raw < 2 ^ 31 → read_i64_at memory raw = Some count →
  let out := decode elem_size memory (LayoutList inner) raw in
  (count < 0 → out = Ok SUnit) ∧
  (0 ≤ count → isize_MAX < count * elem_size → out = Err CapacityOverflow) ∧
  (0 ≤ count → count * elem_size ≤ isize_MAX →
     Z.of_nat (length memory) < raw + 8 + count * 8 → out = Ok SUnit) ∧
  (0 ≤ count → count * elem_size ≤ isize_MAX →
     raw + 8 + count * 8 ≤ Z.of_nat (length memory) →
     ∃ vs, out = Ok (SList vs) ∧ list_contents elem_size memory inner raw count vs).
Proof.
  intros Hmem Hl Hraw Hc out.
  assert (out = decode_list elem_size memory (decode elem_size memory inner) raw) as Hout.
  { unfold out. cbn [decode]. unfold ptr_from_raw. by rewrite !decide_True by lia. }
  assert (∀ z, in_i64 z → ∃ v, decode elem_size memory inner z = Ok v) as Hdec.
  { intros z _. pose proof (decode_no_panic elem_size memory inner z Hl).
    destruct (decode elem_size memory inner z); [by eexists|done]. }
  pose proof (decode_list_spec elem_size memory _ Hmem Hdec raw count ltac:(lia) Hc) as Hspec.
  rewrite Hout. repeat split; intros H0.
  - unfold decode_list. by rewrite Hc, decide_True.
  - intros Hs. unfold decode_list. rewrite Hc, decide_False by lia. by rewrite decide_True.
  - intros Hs Hb. specialize (Hspec H0 Hs). by rewrite decide_False in Hspec by lia.
  - intros Hs Hb. specialize (Hspec H0 Hs). rewrite decide_True in Hspec by lia.
    destruct Hspec as (vs & -> & Hlen & Hel). exists vs. split; [done|]. split; [done|].
    intros j v Hj. destruct (Hel j) as (w & v' & Hw & Hv & Hj').
    { by eapply lookup_lt_Some. }
    simplify_eq. eauto.
Qed.

Lemma decode_list_exact_witness :
  let memory := i64_le_bytes 2 ++ i64_le_bytes 7 ++ i64_le_bytes (-1) in
  decode 32 memory (LayoutList LayoutScalar) 0 = Ok (SList [SScalar 7; SScalar (-1)]) ∧
  ∃ vs, decode 32 memory (LayoutList LayoutScalar) 0 = Ok (SList vs) ∧
        list_contents 32 memory LayoutScalar 0 2 vs.
Proof.
  intros memory. split; [by vm_compute|].
  refine (proj2 (proj2 (proj2 (decode_list_exact 32 memory LayoutScalar 0 2 _ _ _ _))) _ _ _);
    first [by vm_compute|done|lia].
Defined.

(** A guest can make the host panic.  Eight bytes of memory that claim
    [i64::MAX] elements are enough: the decoder allocates before it looks at
    the elements, and an element of two bytes or more overflows the capacity. *)
Theorem list_count_panics elem_size :
  2 ≤ elem_size →
  decode elem_size (i64_le_bytes i64_MAX) (LayoutList LayoutScalar) 0 = Err CapacityOverflow.
Proof.
  intros Hs.
  assert (read_i64_at (i64_le_bytes i64_MAX) 0 = Some i64_MAX) as Hr by by vm_compute.
  cbn [decode]. unfold ptr_from_raw. rewrite !decide_True by lia. unfold decode_list.
  rewrite Hr, decide_False by (unfold i64_MAX; lia).
  rewrite decide_True; [done|]. unfold isize_MAX, i64_MAX. lia.
Qed.

Lemma list_count_panics_witness :
  decode 32 (i64_le_bytes i64_MAX) (LayoutList LayoutScalar) 0 = Err CapacityOverflow.
Proof. apply (list_count_panics 32). lia. Defined.

(* ------------------------------------------------------------------ *)
(** ** Scalar arguments round trip *)

Lemma tuple_elems_args args pre post memory :
  Forall is_scalar args → memory = pre ++ encode_args_as_le_bytes args ++ post →
  Z.of_nat (length memory) < usize_modulus →
  ∀ i ptr, Z.of_nat (length pre) = ptr + i * 8 →
  tuple_elems memory (replicate (length args) (λ z, Ok (SScalar z))) i ptr = Ok (Some args).
Proof.
  intros Hargs. revert pre. induction Hargs as [|a args Ha _ IH]; intros pre -> Hmem i ptr Hi; [done|].
  destruct a as [n| | | | | | | |]; try done. cbn in Ha.
  cbn [length replicate tuple_elems]. rewrite usize_add_shift.
  unfold encode_args_as_le_bytes in *. rewrite bind_cons in *. rewrite <- app_assoc in *.
  assert (usize_checked_add 0 (ptr + i * 8) ≫=
    read_i64_at (pre ++ i64_le_bytes n ++
      (args ≫= λ arg, i64_le_bytes match arg with SScalar n => n | _ => 0 end) ++ post) = Some n) as ->.
  { unfold usize_checked_add. rewrite decide_True.
    - cbn [mbind option_bind]. rewrite Z.add_0_l, <- Hi. by apply read_i64_word.
    - rewrite length_app in Hmem. lia. }
  rewrite (IH (pre ++ i64_le_bytes n)).
  - done.
  - by rewrite <- !app_assoc.
  - done.
  - rewrite length_app, length_i64_le_bytes. lia.
Qed.

(** Scalar arguments round trip through memory.  The bytes
    [encode_args_as_le_bytes] produces for scalar arguments, placed anywhere a
    pointer can reach, decode as a tuple of scalars to the same arguments, and
    the first argument is what [decode_raw_as_structured] reads from them. *)
Theorem scalar_args_roundtrip elem_size args pre post :
  Forall is_scalar args →
  let memory := pre ++ encode_args_as_le_bytes args ++ post in
  Z.of_nat (length memory) < 2 ^ 31 →
  decode elem_size memory (LayoutTuple (replicate (length args) LayoutScalar))
    (Z.of_nat (length pre)) = Ok (SList args) ∧
  decode_raw_as_structured (encode_args_as_le_bytes args) = default SUnit (head args).
Proof.
  intros Hargs memory Hmem. split.
  - cbn [decode]. unfold decode_tuple, ptr_from_raw.
    assert (Z.of_nat (length pre) ≤ Z.of_nat (length memory)).
    { unfold memory. rewrite length_app. lia. }
    rewrite !decide_True by lia.
    replace (map (decode elem_size memory) (replicate (length args) LayoutScalar))
      with (replicate (length args) (λ z : Z, @Ok StructuredValue panic (SScalar z)))
      by (induction (length args) as [|k IHk]; [done|]; cbn; by rewrite IHk).
    rewrite (tuple_elems_args args pre post memory);
      [done|done|done|unfold usize_modulus; lia|lia].
  - destruct Hargs as [|a args Ha _]; [done|]. destruct a as [n| | | | | | | |]; try done.
    unfold decode_raw_as_structured, encode_args_as_le_bytes. rewrite bind_cons. cbn [head default].
    rewrite decide_False by (rewrite length_app, length_i64_le_bytes; lia).
    rewrite (take_app_length' _ _ 8) by by rewrite length_i64_le_bytes. by rewrite le_value_i64.
Qed.

Lemma scalar_args_roundtrip_witness :
  decode 32 ([1; 2]%N ++ encode_args_as_le_bytes [SScalar (-3); SScalar 9] ++ [])
    (LayoutTuple [LayoutScalar; LayoutScalar]) 2 = Ok (SList [SScalar (-3); SScalar 9]).
Proof.
  refine (proj1 (scalar_args_roundtrip 32 [SScalar (-3); SScalar 9] [1; 2]%N [] _ _)).
  - repeat constructor; unfold i64_MIN, i64_MAX; lia.
  - by vm_compute.
Defined.
