(* ===== verification/Dispatch.v ===== *)
(** * Capability dispatch from WASM to the host

    ail-runtime/src/host_dispatch: dispatch.rs ([dispatch_host_call]),
    write_dispatch.rs ([dispatch_host_call_write]), memory.rs, state.rs,
    audit.rs, result_diagnostics.rs and trace.rs, with the errors of abi.rs and
    the trait of handler.rs.

    The guest's linear memory is a byte list ([None] when the module exports no
    memory).  A handler is a function on a world [W], the state of everything
    the handlers can touch: that a call leaves the world alone says that no
    handler ran.  Clock readings and the process-wide span counter come in with
    the call ([CallClock]).  Counters are [u64] and wrap around. *)

From stdpp Require Import pretty.
From S2P Require Import Prelude Text ChangeModel I64 Packages Profile RateLimits ValueCodec.
#[local] Open Scope Z_scope.

(* ------------------------------------------------------------------ *)
(** ** Errors and handlers *)

Inductive HostError : Type :=
| CapabilityDenied (msg : string)
| CapabilityDeniedCategorized (message audit_category : string)
| HandlerNotBound (msg : string)
| PayloadDecodeError (msg : string)
| PayloadEncodeError (msg : string)
| ContractViolation (msg : string)
| Timeout (msg : string)
| LimitExceeded (msg : string)
| HandlerUnavailable (msg : string)
| BoundaryFailure (msg : string)
| AuditFailure (msg : string)
| ManifestMismatch (msg : string)
| Custom (msg : string).

Definition audit_category (e : HostError) : option string :=
  match e with CapabilityDeniedCategorized _ c => Some c | _ => None end.

Definition into_opaque_denial (e : HostError) : HostError :=
  match e with CapabilityDeniedCategorized m _ => CapabilityDenied m | other => other end.

Definition host_error_classification (e : HostError) : string :=
  match e with
  | CapabilityDenied _ | CapabilityDeniedCategorized _ _ => "host_error.capability_denied"
  | HandlerNotBound _ => "host_error.handler_not_bound"
  | PayloadDecodeError _ => "host_error.payload_decode"
  | PayloadEncodeError _ => "host_error.payload_encode"
  | ContractViolation _ => "host_error.contract_violation"
  | Timeout _ => "host_error.timeout"
  | LimitExceeded _ => "host_error.limit_exceeded"
  | HandlerUnavailable _ => "host_error.handler_unavailable"
  | BoundaryFailure _ => "host_error.boundary_failure"
  | AuditFailure _ => "host_error.audit_failure"
  | ManifestMismatch _ => "host_error.manifest_mismatch"
  | Custom _ => "host_error.custom"
  end.

(** The trait [Handler], with the world its implementation acts on. *)
Record Handler (W : Type) : Type := MkHandler {
  h_name : string;
  h_trust_level : PackageTrust;
  h_capabilities : list CapabilityId;
  h_handle : CapabilityId → string → list N → W → W * result (list N) HostError;
}.
Arguments MkHandler {W}.
Arguments h_name {W}.
Arguments h_trust_level {W}.
Arguments h_capabilities {W}.
Arguments h_handle {W}.

(* ------------------------------------------------------------------ *)
(** ** Audit events, diagnostics and the state of the store *)

Record TraceContext : Type := MkTraceContext {
  tc_trace_id : string;
  tc_span_id : string;
  tc_parent_span_id : option string;
}.

(** [TraceContext::child], with the span id [next_span_id] gave out. *)
Definition trace_child (span_id : string) (ctx : TraceContext) : TraceContext :=
  MkTraceContext (tc_trace_id ctx) span_id (Some (tc_span_id ctx)).

(** [AuditEvent::CapabilityCallExecuted] *)
Record CapabilityCallExecuted : Type := MkCapabilityCallExecuted {
  ae_capability : CapabilityId;
  ae_operation : string;
  ae_handler_name : string;
  ae_succeeded : bool;
  ae_duration_us : N;
  ae_timestamp : N;
  ae_profile : option string;
  ae_module : option string;
  ae_function : option string;
  ae_input_hash : option string;
  ae_output_hash : option string;
  ae_trace_id : option string;
  ae_verification_report_hash : option string;
  ae_trace_context : option TraceContext;
  ae_denial_category : option string;
}.

Inductive HostDispatchResultDiagnosticKind : Type :=
| MalformedArgs
| HandlerMissing
| HostErrorDiagnostic
| ResultAbiMismatch.

Record HostDispatchResultDiagnostic : Type := MkHostDispatchResultDiagnostic {
  hd_kind : HostDispatchResultDiagnosticKind;
  hd_diagnostic_key : string;
  hd_subject : string;
  hd_classification : string;
  hd_detail : string;
}.

Record HostState (W : Type) : Type := MkHostState {
  hs_handlers : list (Handler W);
  hs_profile : RuntimeProfile;
  hs_module_name : string;
  hs_audit_log : list CapabilityCallExecuted;
  hs_diagnostics : list HostDispatchResultDiagnostic;
  hs_trace_context : option TraceContext;
  hs_capability_calls_used : N;
  hs_revocations : CapabilityRevocationRegistry;
  hs_rate_limit_windows : Windows;
  hs_concurrent_calls : N;
  hs_call_depth : N;
}.
Arguments MkHostState {W}.
Arguments hs_handlers {W}.
Arguments hs_profile {W}.
Arguments hs_module_name {W}.
Arguments hs_audit_log {W}.
Arguments hs_diagnostics {W}.
Arguments hs_trace_context {W}.
Arguments hs_capability_calls_used {W}.
Arguments hs_revocations {W}.
Arguments hs_rate_limit_windows {W}.
Arguments hs_concurrent_calls {W}.
Arguments hs_call_depth {W}.

(** What the clocks and the span counter read during one call. *)
Record CallClock : Type := MkCallClock {
  cc_timestamp : N;
  cc_duration_us : N;
  cc_now_nanos : N;
  cc_span_id : string;
}.

(* ------------------------------------------------------------------ *)
(** ** UTF-8 ([String::from_utf8]) *)

Definition is_continuation (b : N) : bool := ((128 <=? b) && (b <=? 191))%N.

(** The well-formed byte sequences of the Unicode standard: no overlong form,
    no surrogate, nothing above U+10FFFF. *)
Fixpoint utf8_valid (bytes : list N) : bool :=
  match bytes with
  | [] => true
  | b0 :: rest =>
      if (b0 <=? 127)%N then utf8_valid rest
      else if ((194 <=? b0) && (b0 <=? 223))%N then
        match rest with
        | b1 :: rest' => is_continuation b1 && utf8_valid rest'
        | _ => false
        end
      else if ((224 <=? b0) && (b0 <=? 239))%N then
        match rest with
        | b1 :: b2 :: rest' =>
            is_continuation b1 && is_continuation b2
            && (if (b0 =? 224)%N then (160 <=? b1)%N else true)
            && (if (b0 =? 237)%N then (b1 <=? 159)%N else true) && utf8_valid rest'
        | _ => false
        end
      else if ((240 <=? b0) && (b0 <=? 244))%N then
        match rest with
        | b1 :: b2 :: b3 :: rest' =>
            is_continuation b1 && is_continuation b2 && is_continuation b3
            && (if (b0 =? 240)%N then (144 <=? b1)%N else true)
            && (if (b0 =? 244)%N then (b1 <=? 143)%N else true) && utf8_valid rest'
        | _ => false
        end
      else false
  end.

Fixpoint bytes_string (bytes : list N) : string :=
  match bytes with
  | [] => EmptyString
  | b :: bytes' => String (ascii_of_N b) (bytes_string bytes')
  end.

Definition string_from_utf8 (bytes : list N) : option string :=
  if utf8_valid bytes then Some (bytes_string bytes) else None.

(* ------------------------------------------------------------------ *)
(** ** Guest memory (memory.rs) *)

Definition read_memory (memory : option (list N)) (ptr len : Z) : option (list N) :=
  if decide (ptr < 0 ∨ len < 0) then None
  else
    memory ← memory;
    if decide (ptr + len ≤ Z.of_nat (length memory))
    then Some (take (Z.to_nat len) (drop (Z.to_nat ptr) memory)) else None.

(** [Memory::write] of the response at [ptr]; [None] when it does not fit. *)
Definition write_memory (memory : list N) (ptr : Z) (bytes : list N) : option (list N) :=
  if decide (ptr + Z.of_nat (length bytes) ≤ Z.of_nat (length memory))
  then Some (take (Z.to_nat ptr) memory ++ bytes
             ++ drop (Z.to_nat ptr + length bytes) memory)
  else None.

Definition decode_packed_text_arg (memory : option (list N)) (arg : list N)
    (max_payload_bytes : option N) : option (list N) :=
  if decide (length arg ≠ 8%nat) then None
  else
    let packed := wrap (le_value arg) in
    let ptr := as_i32 (Z.land packed 4294967295) in
    let len := as_i32 (Z.shiftr packed 32) in
    if decide (len < 0) then None
    else if match max_payload_bytes with
            | Some max => bool_decide (Z.of_N max < len)
            | None => false
            end then None
    else read_memory memory ptr len.

Definition handler_payload (memory : option (list N)) (cap operation : string)
    (args_bytes : list N) (max_payload_bytes : option N) : option (list N) :=
  if decide ((cap = "log.write" ∧ operation = "write") ∨ (cap = "file.read" ∧ operation = "read"))
  then
    payload ← decode_packed_text_arg memory args_bytes max_payload_bytes;
    if utf8_valid payload then Some payload else None
  else Some args_bytes.

(** [i32::checked_mul(8)] *)
Definition i32_checked_mul8 (n : Z) : option Z :=
  if decide (- 2 ^ 31 ≤ n * 8 < 2 ^ 31) then Some (n * 8) else None.

Section Dispatch.
Context `{HashBackend} {W : Type}.
#[local] Abbreviation State := (HostState W).

(* ------------------------------------------------------------------ *)
(** ** Diagnostics (result_diagnostics.rs) *)

Definition blake3_hex_of (bytes : list N) : string := to_hex (blake3 bytes).

Definition redacted_label (value : string) : string :=
  "h" +:+ (String.substring 0 12 (blake3_hex_of (string_bytes value))
           +:+ (":len" +:+ pretty (String.length value))).

Definition label_or_unknown (value : option string) : string :=
  from_option redacted_label "unknown" value.

Definition call_subject (capability operation handler_name : option string) : string :=
  "capability=" +:+ (label_or_unknown capability
    +:+ (",operation=" +:+ (label_or_unknown operation
    +:+ (",handler=" +:+ label_or_unknown handler_name)))).

(** [{kind:?}] *)
Definition kind_debug (k : HostDispatchResultDiagnosticKind) : string :=
  match k with
  | MalformedArgs => "MalformedArgs"
  | HandlerMissing => "HandlerMissing"
  | HostErrorDiagnostic => "HostError"
  | ResultAbiMismatch => "ResultAbiMismatch"
  end.

Definition diagnostic_new (kind : HostDispatchResultDiagnosticKind)
    (subject classification detail : string) : HostDispatchResultDiagnostic :=
  MkHostDispatchResultDiagnostic kind
    ("host_dispatch_result/" +:+ (kind_debug kind +:+ ("/" +:+ (subject +:+ ("/" +:+ classification)))))
    subject classification detail.

Definition malformed_args (capability operation : option string) (classification detail : string) :=
  diagnostic_new MalformedArgs (call_subject capability operation None) classification detail.

Definition handler_missing (capability operation : string) :=
  diagnostic_new HandlerMissing (call_subject (Some capability) (Some operation) None)
    "handler.missing" "no handler bound for granted capability".

Definition host_error (capability operation handler_name : string) (error : HostError) :=
  let classification := host_error_classification error in
  diagnostic_new HostErrorDiagnostic
    (call_subject (Some capability) (Some operation) (Some handler_name))
    classification ("error_shape=" +:+ classification).

Definition result_abi_mismatch (capability operation handler_name classification detail : string) :=
  diagnostic_new ResultAbiMismatch
    (call_subject (Some capability) (Some operation) (Some handler_name)) classification detail.

(* ------------------------------------------------------------------ *)
(** ** State updates *)

Definition record_diagnostic (d : HostDispatchResultDiagnostic) (s : State) : State :=
  MkHostState (hs_handlers s) (hs_profile s) (hs_module_name s) (hs_audit_log s)
    (hs_diagnostics s ++ [d]) (hs_trace_context s) (hs_capability_calls_used s)
    (hs_revocations s) (hs_rate_limit_windows s) (hs_concurrent_calls s) (hs_call_depth s).

Definition push_audit (e : CapabilityCallExecuted) (s : State) : State :=
  MkHostState (hs_handlers s) (hs_profile s) (hs_module_name s) (hs_audit_log s ++ [e])
    (hs_diagnostics s) (hs_trace_context s) (hs_capability_calls_used s)
    (hs_revocations s) (hs_rate_limit_windows s) (hs_concurrent_calls s) (hs_call_depth s).

Definition set_windows (w : Windows) (s : State) : State :=
  MkHostState (hs_handlers s) (hs_profile s) (hs_module_name s) (hs_audit_log s)
    (hs_diagnostics s) (hs_trace_context s) (hs_capability_calls_used s)
    (hs_revocations s) w (hs_concurrent_calls s) (hs_call_depth s).

(** The three increments on entry. *)
Definition enter_call (s : State) : State :=
  MkHostState (hs_handlers s) (hs_profile s) (hs_module_name s) (hs_audit_log s)
    (hs_diagnostics s) (hs_trace_context s) (u64_add (hs_capability_calls_used s) 1)
    (hs_revocations s) (hs_rate_limit_windows s)
    (u64_add (hs_concurrent_calls s) 1) (u64_add (hs_call_depth s) 1).

(** [n -= 1] on a [u64] *)
Definition u64_dec (n : N) : N := u64_add n (u64_modulus - 1).

(** The two decrements at every return point after the entry. *)
Definition leave_call (s : State) : State :=
  MkHostState (hs_handlers s) (hs_profile s) (hs_module_name s) (hs_audit_log s)
    (hs_diagnostics s) (hs_trace_context s) (hs_capability_calls_used s)
    (hs_revocations s) (hs_rate_limit_windows s)
    (u64_dec (hs_concurrent_calls s)) (u64_dec (hs_call_depth s)).

(** The event of a call; module, profile, hashes and trace come from the
    snapshot taken before the checks. *)
Definition audit_event (clock : CallClock) (s : State) (cap operation : string)
    (args_bytes : list N) (handler_name : string) (succeeded : bool)
    (output_hash : option string) (category : option string) : CapabilityCallExecuted :=
  let child := trace_child (cc_span_id clock) <$> hs_trace_context s in
  MkCapabilityCallExecuted cap operation handler_name succeeded
    (cc_duration_us clock) (cc_timestamp clock)
    (Some (rp_name (hs_profile s))) (Some (hs_module_name s)) None
    (Some (blake3_hex_of args_bytes)) output_hash (tc_trace_id <$> child)
    (Some (rp_verification_report_hash (hs_profile s))) child category.

(* ------------------------------------------------------------------ *)
(** ** Reading the call and the gate, shared by both entry points *)

Record HostCall : Type := MkHostCall {
  hc_capability : CapabilityId;
  hc_operation : string;
  hc_args_bytes : list N;
}.

(** The reads at the start of both functions; the error is the diagnostic. *)
Definition read_call (memory : option (list N)) (cap_ptr cap_len op_ptr op_len args_ptr args_len : Z)
  : result HostCall HostDispatchResultDiagnostic :=
  match read_memory memory cap_ptr cap_len with
  | None => Err (malformed_args None None "capability.memory"
                   "failed to read capability label from wasm memory")
  | Some capability_bytes =>
  match string_from_utf8 capability_bytes with
  | None => Err (malformed_args None None "capability.utf8" "capability label is not valid utf-8")
  | Some cap =>
  match read_memory memory op_ptr op_len with
  | None => Err (malformed_args (Some cap) None "operation.memory"
                   "failed to read operation label from wasm memory")
  | Some operation_bytes =>
  match string_from_utf8 operation_bytes with
  | None => Err (malformed_args (Some cap) None "operation.utf8" "operation label is not valid utf-8")
  | Some operation =>
  match i32_checked_mul8 args_len with
  | None => Err (malformed_args (Some cap) (Some operation) "args.length_overflow"
                   "args word length overflows byte length")
  | Some args_byte_len =>
  match read_memory memory args_ptr args_byte_len with
  | None => Err (malformed_args (Some cap) (Some operation) "args.memory"
                   "failed to read argument bytes from wasm memory")
  | Some args_bytes => Ok (MkHostCall cap operation args_bytes)
  end end end end end end.

(** [log.write] measures the text it points to, not the packed argument. *)
Definition log_write_text_limit (s : State) (call : HostCall) : option N :=
  if decide (hc_capability call = "log.write" ∧ hc_operation call = "write")
  then payload_size_limit (rp_limits (hs_profile s)) else None.

Definition reaches (limit : option N) (n : N) : bool :=
  match limit with Some max => bool_decide (max ≤ n)%N | None => false end.

Definition exceeds (limit : option N) (n : N) : bool :=
  match limit with Some max => bool_decide (max < n)%N | None => false end.

Definition args_len_u64 (call : HostCall) : N := N.of_nat (length (hc_args_bytes call)).

(** The checks of both functions in their order: the state (a passed rate
    limit counts the call) and the category of the denial, if any. *)
Definition admit_call (clock : CallClock) (call : HostCall) (s : State) : State * option string :=
  let profile := hs_profile s in
  let limits := rp_limits profile in
  let cap := hc_capability call in
  if negb (grants_capability profile (hs_module_name s) cap) then
    (s, Some (if grants_capability_to_any_module profile cap
              then "capability.profile_mismatch" else "capability.not_granted"))
  else if is_revoked (hs_module_name s) cap (rp_name profile) (hs_revocations s) then
    (s, Some "capability.revoked")
  else if bool_decide (log_write_text_limit s call = None)
          && exceeds (payload_size_limit limits) (args_len_u64 call) then
    (s, Some "limit.payload_size")
  else if reaches (max_capability_calls limits) (hs_capability_calls_used s) then
    (s, Some "limit.max_capability_calls")
  else
    let '(allowed, windows) := check_rate_limits (default [] (rate_limits limits))
                                 (cc_now_nanos clock) (hs_rate_limit_windows s) cap in
    let s := set_windows windows s in
    if negb allowed then (s, Some "limit.rate")
    else if reaches (concurrency_limit limits) (hs_concurrent_calls s) then
      (s, Some "limit.concurrency")
    else if reaches (recursion_stack_limit limits) (hs_call_depth s) then
      (s, Some "limit.recursion_depth")
    else (s, None).

(** [handlers.iter().find(|h| h.capabilities().contains(&cap))] *)
Definition find_handler (s : State) (cap : CapabilityId) : option (Handler W) :=
  find_first (λ h, cap ∈ h_capabilities h) (hs_handlers s).

(* ------------------------------------------------------------------ *)
(** ** dispatch_host_call *)

(** The value returned for a successful response of at least eight bytes. *)
Definition response_value (bytes : list N) : Z := wrap (le_value (take 8 bytes)).

Definition dispatch_host_call (memory : option (list N)) (clock : CallClock)
    (cap_ptr cap_len op_ptr op_len args_ptr args_len : Z) (s : State) (w : W)
  : State * W * option Z :=
  match read_call memory cap_ptr cap_len op_ptr op_len args_ptr args_len with
  | Err d => (record_diagnostic d s, w, None)
  | Ok call =>
    let cap := hc_capability call in
    let operation := hc_operation call in
    let args_bytes := hc_args_bytes call in
    let event := audit_event clock s cap operation args_bytes in
    let '(s1, denial) := admit_call clock call s in
    match denial with
    | Some category => (push_audit (event "none" false None (Some category)) s1, w, Some (-1))
    | None =>
      let s2 := enter_call s1 in
      match find_handler s2 cap with
      | None =>
          (push_audit (event "none" false None (Some "handler.not_bound"))
             (leave_call (record_diagnostic (handler_missing cap operation) s2)), w, Some (-1))
      | Some h =>
        match handler_payload memory cap operation args_bytes (log_write_text_limit s call) with
        | None =>
            (push_audit (event (h_name h) false None (Some "payload.decode"))
               (leave_call (record_diagnostic
                  (malformed_args (Some cap) (Some operation) "payload.decode"
                     "failed to decode host payload from dispatch arguments") s2)), w, Some (-1))
        | Some payload =>
          let '(w', response) := h_handle h cap operation payload w in
          match response with
          | Err err =>
              (push_audit (event (h_name h) false None (audit_category err))
                 (leave_call (record_diagnostic (host_error cap operation (h_name h) err) s2)),
               w', Some (-1))
          | Ok bytes =>
            if exceeds (output_size_limit (rp_limits (hs_profile s2))) (N.of_nat (length bytes)) then
              (push_audit (event (h_name h) false None (Some "limit.output_size")) (leave_call s2),
               w', Some (-1))
            else
              let s3 :=
                if decide (8 ≤ length bytes)%nat then s2
                else record_diagnostic
                       (result_abi_mismatch cap operation (h_name h) "result.i64_bytes"
                          ("expected_bytes=8; actual_bytes=" +:+ pretty (length bytes))) s2 in
              (push_audit (event (h_name h) true (Some (blake3_hex_of bytes)) None) (leave_call s3),
               w', Some (if decide (8 ≤ length bytes)%nat then response_value bytes else 0))
          end
        end
      end
    end
  end.

(* ------------------------------------------------------------------ *)
(** ** dispatch_host_call_write *)

Definition dispatch_host_call_write (memory : option (list N)) (clock : CallClock)
    (cap_ptr cap_len op_ptr op_len args_ptr args_len out_ptr out_max : Z) (s : State) (w : W)
  : State * W * option (list N) * option Z :=
  match read_call memory cap_ptr cap_len op_ptr op_len args_ptr args_len with
  | Err d => (record_diagnostic d s, w, memory, None)
  | Ok call =>
    let cap := hc_capability call in
    let operation := hc_operation call in
    let args_bytes := hc_args_bytes call in
    let event := audit_event clock s cap operation args_bytes in
    let denied name category s' w' :=
      (push_audit (event name false None (Some category)) s', w', memory, None) in
    if decide (out_ptr < 0 ∨ out_max < 0) then
      denied "none" "payload.decode"
        (record_diagnostic (malformed_args (Some cap) (Some operation) "output_buffer.pointer"
                              "output buffer pointer or length is negative") s) w
    else
    let '(s1, denial) := admit_call clock call s in
    match denial with
    | Some category => denied "none" category s1 w
    | None =>
      match find_handler s1 cap with
      | None => denied "none" "handler.not_bound" (record_diagnostic (handler_missing cap operation) s1) w
      | Some h =>
        let s2 := enter_call s1 in
        let mismatch classification detail :=
          record_diagnostic (result_abi_mismatch cap operation (h_name h) classification detail) s2 in
        match handler_payload memory cap operation args_bytes (log_write_text_limit s call) with
        | None =>
            denied (h_name h) "payload.decode"
              (leave_call (record_diagnostic
                 (malformed_args (Some cap) (Some operation) "payload.decode"
                    "failed to decode host payload from dispatch arguments") s2)) w
        | Some payload =>
          let '(w', response) := h_handle h cap operation payload w in
          match response with
          | Err err =>
              (push_audit (event (h_name h) false None (audit_category err))
                 (leave_call (record_diagnostic (host_error cap operation (h_name h) err) s2)),
               w', memory, None)
          | Ok bytes =>
            if exceeds (output_size_limit (rp_limits (hs_profile s2))) (N.of_nat (length bytes)) then
              denied (h_name h) "limit.output_size" (leave_call s2) w'
            else if decide (out_max < Z.of_nat (length bytes)) then
              denied (h_name h) "limit.output_size"
                (leave_call (mismatch "result.output_buffer_too_small"
                   ("response_bytes=" +:+ (pretty (length bytes)
                      +:+ ("; output_buffer_bytes=" +:+ pretty out_max))))) w'
            else
              match memory with
              | None =>
                  denied (h_name h) "payload.decode"
                    (leave_call (mismatch "result.memory_missing"
                       "wasm memory export is unavailable for host_call_write result")) w'
              | Some mem =>
                match write_memory mem out_ptr bytes with
                | None =>
                    denied (h_name h) "payload.decode"
                      (leave_call (mismatch "result.memory_write"
                         "failed to write host_call_write result into wasm memory")) w'
                | Some mem' =>
                    (push_audit (event (h_name h) true (Some (blake3_hex_of bytes)) None)
                       (leave_call s2), w', Some mem', Some (Z.of_nat (length bytes)))
                end
              end
          end
        end
      end
    end
  end.
End Dispatch.

(* ------------------------------------------------------------------ *)
(** ** The gate *)

Section Gate.
Context `{HashBackend} {W : Type}.
Implicit Types (s : HostState W).

(** What a call needs to be let through: deny by default, then the limits. *)
Definition permitted (clock : CallClock) (call : HostCall) s : Prop :=
  let profile := hs_profile s in
  let limits := rp_limits profile in
  let cap := hc_capability call in
  MkCapabilityGrant (hs_module_name s) cap ∈ rp_grants profile ∧
  is_revoked (hs_module_name s) cap (rp_name profile) (hs_revocations s) = false ∧
  (log_write_text_limit s call = None → exceeds (payload_size_limit limits) (args_len_u64 call) = false) ∧
  reaches (max_capability_calls limits) (hs_capability_calls_used s) = false ∧
  (check_rate_limits (default [] (rate_limits limits)) (cc_now_nanos clock)
     (hs_rate_limit_windows s) cap).1 = true ∧
  reaches (concurrency_limit limits) (hs_concurrent_calls s) = false ∧
  reaches (recursion_stack_limit limits) (hs_call_depth s) = false.

Lemma grants_capability_iff profile module cap :
  grants_capability profile module cap = true ↔ MkCapabilityGrant module cap ∈ rp_grants profile.
Proof.
  unfold grants_capability. rewrite any_true. split.
  - intros ([m c] & Hg & <- & <-). done.
  - intros Hg. by exists (MkCapabilityGrant module cap).
Qed.

(** The gate changes the rate-limit windows at most. *)
Lemma admit_call_frame clock call s :
  ∃ windows, (admit_call clock call s).1 = set_windows windows s.
Proof.
  assert (s = set_windows (hs_rate_limit_windows s) s) as Hs by by destruct s.
  unfold admit_call. destruct (check_rate_limits _ _ _ _) as [allowed windows].
  repeat case_match; cbn; eauto.
Qed.

Lemma admit_call_None clock call s :
  (admit_call clock call s).2 = None ↔ permitted clock call s.
Proof.
  unfold admit_call, permitted. rewrite <- grants_capability_iff.
  destruct (grants_capability _ _ _); cbn [negb snd]; [|by split; [|intros [? _]]].
  destruct (is_revoked _ _ _ _); cbn [snd]; [by split; [|intros (_ & ? & _)]|].
  destruct (bool_decide (log_write_text_limit s call = None)) eqn:Hl;
    [apply bool_decide_eq_true in Hl|apply bool_decide_eq_false in Hl]; cbn [andb].
  1: destruct (exceeds _ _); cbn [snd]; [by split; [|intros (_ & _ & Hx & _); specialize (Hx Hl)]|].
  all: destruct (reaches (max_capability_calls _) _); cbn [snd]; [by split; [|intros (_ & _ & _ & ? & _)]|].
  all: destruct (check_rate_limits _ _ _ _) as [[] windows]; cbn [negb snd fst];
    [|by split; [|intros (_ & _ & _ & _ & ? & _)]].
  all: destruct (reaches (concurrency_limit _) _); cbn [snd];
    [by split; [|intros (_ & _ & _ & _ & _ & ? & _)]|].
  all: destruct (reaches (recursion_stack_limit _) _); cbn [snd];
    [by split; [|intros (_ & _ & _ & _ & _ & _ & ?)]|].
  all: split; [|done]; intros _; repeat split; done.
Qed.

(* ------------------------------------------------------------------ *)
(** ** Calls from the guest *)

(** One call from the guest, through either entry point; the guest owns its
    memory, so that it can be anything at each call. *)
Record GuestCall : Type := MkGuestCall {
  gc_memory : option (list N);
  gc_clock : CallClock;
  gc_cap : Z * Z;
  gc_op : Z * Z;
  gc_args : Z * Z;
  gc_out : option (Z * Z);
}.

Definition gc_read (g : GuestCall) : result HostCall HostDispatchResultDiagnostic :=
  read_call (gc_memory g) (gc_cap g).1 (gc_cap g).2 (gc_op g).1 (gc_op g).2
    (gc_args g).1 (gc_args g).2.

Definition host_step (g : GuestCall) s (w : W) : HostState W * W :=
  match gc_out g with
  | None =>
      (dispatch_host_call (gc_memory g) (gc_clock g) (gc_cap g).1 (gc_cap g).2
         (gc_op g).1 (gc_op g).2 (gc_args g).1 (gc_args g).2 s w).1
  | Some (out_ptr, out_max) =>
      (dispatch_host_call_write (gc_memory g) (gc_clock g) (gc_cap g).1 (gc_cap g).2
         (gc_op g).1 (gc_op g).2 (gc_args g).1 (gc_args g).2 out_ptr out_max s w).1.1
  end.

Fixpoint host_run (gs : list GuestCall) s (w : W) : HostState W * W :=
  match gs with
  | [] => (s, w)
  | g :: gs' => let '(s', w') := host_step g s w in host_run gs' s' w'
  end.

(** The call reached the handler that serves it. *)
Definition handled (g : GuestCall) s (w w' : W) : Prop :=
  ∃ call h payload,
    gc_read g = Ok call ∧ permitted (gc_clock g) call s ∧
    find_handler s (hc_capability call) = Some h ∧
    handler_payload (gc_memory g) (hc_capability call) (hc_operation call) (hc_args_bytes call)
      (log_write_text_limit s call) = Some payload ∧
    w' = (h_handle h (hc_capability call) (hc_operation call) payload w).1.

(** What every call keeps of the state, and what it does to the counters. *)
Definition same_config (s s' : HostState W) : Prop :=
  hs_handlers s' = hs_handlers s ∧ hs_profile s' = hs_profile s ∧
  hs_module_name s' = hs_module_name s ∧ hs_revocations s' = hs_revocations s ∧
  hs_trace_context s' = hs_trace_context s.

Definition balanced (s s' : HostState W) : Prop :=
  hs_concurrent_calls s' = hs_concurrent_calls s ∧ hs_call_depth s' = hs_call_depth s.

Definition counters_u64 (s : HostState W) : Prop :=
  (hs_concurrent_calls s < u64_modulus ∧ hs_call_depth s < u64_modulus)%N.

Lemma u64_dec_add n : (n < u64_modulus)%N → u64_dec (u64_add n 1) = n.
Proof.
  intros Hn. unfold u64_dec, u64_add. rewrite N.Div0.add_mod_idemp_l.
  replace (n + 1 + (u64_modulus - 1))%N with (n + 1 * u64_modulus)%N by (unfold u64_modulus; lia).
  rewrite N.Div0.mod_add. by apply N.mod_small.
Qed.

(** The event of a call that could be read. *)
Definition records_call (g : GuestCall) s (call : HostCall) (e : CapabilityCallExecuted) : Prop :=
  ae_capability e = hc_capability call ∧ ae_operation e = hc_operation call ∧
  ae_module e = Some (hs_module_name s) ∧ ae_profile e = Some (rp_name (hs_profile s)) ∧
  ae_input_hash e = Some (blake3_hex_of (hc_args_bytes call)) ∧
  (ae_succeeded e = true → ae_denial_category e = None ∧ is_Some (ae_output_hash e)) ∧
  (ae_succeeded e = false → ae_output_hash e = None).

(** One step, seen from outside: configuration, counters, audit log, budget
    and world. *)
Record step_view (g : GuestCall) s (w : W) (s' : HostState W) (w' : W) : Prop := MkStepView {
  sv_config : same_config s s';
  sv_balanced : counters_u64 s → balanced s s';
  sv_audit : match gc_read g with
             | Err _ => hs_audit_log s' = hs_audit_log s
             | Ok call => ∃ e, hs_audit_log s' = hs_audit_log s ++ [e] ∧ records_call g s call e ∧
                          (ae_succeeded e = true → handled g s w w')
             end;
  sv_world : (w' = w ∧ (hs_capability_calls_used s' = hs_capability_calls_used s ∨
                        hs_capability_calls_used s' = u64_add (hs_capability_calls_used s) 1 ∧
                        ∃ call, permitted (gc_clock g) call s)) ∨
             (handled g s w w' ∧
              hs_capability_calls_used s' = u64_add (hs_capability_calls_used s) 1);
}.

(** Closes the goal of one return point: [leaf] where no handler ran, [served]
    where one did, given the proof that the call was handled. *)
Ltac sv_common Hr :=
  [> repeat split
   | intros [? ?]; split; cbn; rewrite ?u64_dec_add by done; done
   | rewrite Hr; eexists; split; [cbn; done|]; split;
     [repeat split; cbn; intros; done|cbn; intros; done]
   | idtac ].
Ltac leaf Hr := constructor; sv_common Hr; left; split; [done|]; cbn; eauto.
Ltac served Hr Hh := constructor; sv_common Hr; right; split; [exact Hh|]; cbn; auto.

Lemma host_step_view g s w : step_view g s w (host_step g s w).1 (host_step g s w).2.
Proof.
  unfold host_step. destruct (gc_read g) as [call|d] eqn:Hr.
  2: { destruct (gc_out g) as [[op om]|]; unfold dispatch_host_call, dispatch_host_call_write;
       unfold gc_read in Hr; rewrite Hr; cbn [fst snd]; constructor;
         [done|done|unfold gc_read; by rewrite Hr|left; by split; [|left]|done|done
         |unfold gc_read; by rewrite Hr|left; by split; [|left]]. }
  destruct (admit_call_frame (gc_clock g) call s) as [windows Hs1].
  pose proof (admit_call_None (gc_clock g) call s) as Hadm.
  destruct (admit_call (gc_clock g) call s) as [s1 denial] eqn:Ha. cbn [fst snd] in Hs1, Hadm.
  assert (∀ h payload, denial = None → find_handler s (hc_capability call) = Some h →
    handler_payload (gc_memory g) (hc_capability call) (hc_operation call) (hc_args_bytes call)
      (log_write_text_limit s call) = Some payload →
    handled g s w (h_handle h (hc_capability call) (hc_operation call) payload w).1) as Hh.
  { intros h payload Hd Hf Hp. exists call, h, payload. split; [done|]. split; [by apply Hadm|]. auto. }
  assert (denial = None → ∃ call, permitted (gc_clock g) call s) as Hperm.
  { intros Hd. exists call. by apply Hadm. }
  clear Hadm. subst s1.
  assert (∀ s', hs_handlers s' = hs_handlers s →
            find_handler s' (hc_capability call) = find_handler s (hc_capability call)) as Hfind.
  { intros s' E. unfold find_handler. by rewrite E. }
  unfold gc_read in Hr.
  destruct (gc_out g) as [[out_ptr out_max]|]; unfold dispatch_host_call, dispatch_host_call_write;
    rewrite Hr; fold (gc_read g) in Hr.
  - case_decide; [leaf Hr|]. rewrite Ha. destruct denial as [category|]; [leaf Hr|].
    rewrite Hfind by done. destruct (find_handler s (hc_capability call)) as [h|] eqn:Hf; [|leaf Hr].
    destruct (handler_payload _ _ _ _ _) as [payload|] eqn:Hp; [|leaf Hr].
    specialize (Hh h payload eq_refl eq_refl eq_refl).
    destruct (h_handle h _ _ payload w) as [w' [bytes|err]]; cbn [fst] in Hh; [|served Hr Hh].
    destruct (exceeds _ _); [served Hr Hh|]. case_decide; [served Hr Hh|].
    destruct (gc_memory g) as [mem|]; [|served Hr Hh].
    destruct (write_memory mem out_ptr bytes); served Hr Hh.
  - rewrite Ha. destruct denial as [category|]; [leaf Hr|].
    rewrite Hfind by done. destruct (find_handler s (hc_capability call)) as [h|] eqn:Hf; [|leaf Hr].
    destruct (handler_payload _ _ _ _ _) as [payload|] eqn:Hp; [|leaf Hr].
    specialize (Hh h payload eq_refl eq_refl eq_refl).
    destruct (h_handle h _ _ payload w) as [w' [bytes|err]]; cbn [fst] in Hh; [|served Hr Hh].
    destruct (exceeds _ _); [served Hr Hh|]. case_decide; served Hr Hh.
Qed.
End Gate.

(* ------------------------------------------------------------------ *)
(** ** Runs of guest calls *)

Section Runs.
Context `{HashBackend} {W : Type}.
Implicit Types (s : HostState W) (w : W).

Lemma host_run_cons g gs s w :
  host_run (g :: gs) s w = host_run gs (host_step g s w).1 (host_step g s w).2.
Proof. cbn. by destruct (host_step g s w). Qed.

Lemma same_config_trans s1 s2 s3 : same_config s1 s2 → same_config s2 s3 → same_config s1 s3.
Proof. unfold same_config. intuition congruence. Qed.

Lemma host_run_config gs s w : same_config s (host_run gs s w).1.
Proof.
  revert s w. induction gs as [|g gs IH]; intros s w; [done|]. rewrite host_run_cons.
  eapply same_config_trans; [apply (host_step_view g s w)|apply IH].
Qed.

Lemma host_run_counters gs s w :
  counters_u64 s → balanced s (host_run gs s w).1.
Proof.
  revert s w. induction gs as [|g gs IH]; intros s w Hc; [done|]. rewrite host_run_cons.
  destruct (sv_balanced _ _ _ _ _ (host_step_view g s w) Hc) as [H1 H2].
  destruct (IH (host_step g s w).1 (host_step g s w).2) as [H3 H4].
  { destruct Hc. by split; rewrite ?H1, ?H2. }
  split; congruence.
Qed.

(** A guest cannot reach beyond its grants.  Whatever calls a guest makes
    through either entry point, with whatever memory, if anything outside the
    sandbox changed then one of the calls named a capability that the profile
    grants to this very module and that was not revoked, and a handler bound to
    that capability ran; and no call changes the grants, the revocations, the
    handlers or the module it runs as. *)
Theorem guest_confined gs s w :
  let '(s', w') := host_run gs s w in
  same_config s s' ∧
  (w' ≠ w →
   ∃ g call h, g ∈ gs ∧ gc_read g = Ok call ∧
     MkCapabilityGrant (hs_module_name s) (hc_capability call) ∈ rp_grants (hs_profile s) ∧
     is_revoked (hs_module_name s) (hc_capability call) (rp_name (hs_profile s)) (hs_revocations s)
       = false ∧
     h ∈ hs_handlers s ∧ hc_capability call ∈ h_capabilities h).
Proof.
  pose proof (host_run_config gs s w) as Hcfg.
  destruct (host_run gs s w) as [s' w'] eqn:Hrun. split; [done|]. clear Hcfg.
  revert s w Hrun. induction gs as [|g gs IH]; intros s w; [by intros [= <- <-]|].
  rewrite host_run_cons. intros Hrun Hw.
  destruct (host_step_view g s w) as [(Hh & Hp & Hm & Hr & _) _ _ Hworld].
  destruct Hworld as [[Heq _]|[Hdone _]].
  - rewrite Heq in Hrun. destruct (IH _ _ Hrun Hw) as (g' & call & h & Hin & Hrest).
    rewrite Hh, Hp, Hm, Hr in Hrest. exists g', call, h. split; [by right|done].
  - destruct Hdone as (call & h & payload & Hread & (Hgrant & Hrev & _) & Hfind & _).
    apply find_first_Some in Hfind as [Hin Hcap]. exists g, call, h.
    split; [by left|]. auto.
Qed.

(** Every call is audited.  A run appends to the audit log exactly one event
    per call whose arguments could be read, in order, naming the capability,
    the operation, the module, the profile and the hash of the input; a
    successful event carries an output hash and no denial category, a failed
    one no output hash. *)
Theorem audit_complete gs s w :
  ∃ es, hs_audit_log (host_run gs s w).1 = hs_audit_log s ++ es ∧
    Forall2 (λ c e, records_call c.1 s c.2 e)
      (omap (λ g, match gc_read g with Ok call => Some (g, call) | Err _ => None end) gs) es.
Proof.
  revert s w. induction gs as [|g gs IH]; intros s w.
  { exists []. by rewrite app_nil_r. }
  rewrite host_run_cons.
  destruct (host_step_view g s w) as [(Hh & Hp & Hm & Hr & Ht) _ Haudit _].
  destruct (IH (host_step g s w).1 (host_step g s w).2) as (es & Hes & Hall).
  assert (∀ l, Forall2 (λ c e, records_call c.1 (host_step g s w).1 c.2 e) l es →
               Forall2 (λ c e, records_call c.1 s c.2 e) l es) as Hconv.
  { intros l Hl. eapply Forall2_impl; [exact Hl|]. intros c e. unfold records_call. by rewrite Hm, Hp. }
  apply Hconv in Hall. cbn [omap list_omap].
  destruct (gc_read g) as [call|d] eqn:Hread.
  - destruct Haudit as (e & Hlog & Hrec & _). exists (e :: es).
    rewrite Hes, Hlog, <- app_assoc. split; [done|]. by constructor.
  - exists es. by rewrite Hes, Haudit.
Qed.

(** C30: the call budget bounds what handlers do.  If a profile allows [m]
    capability calls and [used] of them are spent, and every handler call costs
    at most one unit of some measure of the world, then no run of guest calls
    costs more than the [m - used] units that are left. *)
Theorem call_budget gs s w (cost : W → N) m :
  max_capability_calls (rp_limits (hs_profile s)) = Some m → (m < u64_modulus)%N →
  (hs_capability_calls_used s ≤ m)%N →
  (∀ h cap op payload v, h ∈ hs_handlers s → (cost (h_handle h cap op payload v).1 ≤ cost v + 1)%N) →
  (cost (host_run gs s w).2 ≤ cost w + (m - hs_capability_calls_used s))%N.
Proof.
  intros Hm Hu Hused Hcost. revert s w Hm Hused Hcost.
  induction gs as [|g gs IH]; intros s w Hm Hused Hcost; [cbn; lia|]. rewrite host_run_cons.
  pose proof (host_step_view g s w) as [(Hh & Hp & _ & _ & _) _ _ Hworld].
  assert (∀ n, hs_capability_calls_used (host_step g s w).1 = n → (n ≤ m)%N →
    (cost (host_run gs (host_step g s w).1 (host_step g s w).2).2
     ≤ cost (host_step g s w).2 + (m - n))%N) as Hnext.
  { intros n <- Hn. apply IH; [by rewrite Hp|done|by rewrite Hh]. }
  assert (∀ call, permitted (gc_clock g) call s → (hs_capability_calls_used s < m)%N) as Hroom.
  { intros call (_ & _ & _ & Hreach & _). unfold reaches in Hreach. rewrite Hm in Hreach.
    apply bool_decide_eq_false in Hreach. lia. }
  destruct Hworld as [[Hw [Hsame|[Hinc [call Hperm]]]]|[Hdone Hinc]]; try rewrite Hw in *.
  - specialize (Hnext _ Hsame Hused). lia.
  - specialize (Hroom call Hperm). rewrite u64_add_small in Hinc by lia.
    specialize (Hnext _ Hinc ltac:(lia)). lia.
  - destruct Hdone as (call & h & payload & _ & Hperm & Hfind & _ & Hw).
    specialize (Hroom call Hperm). rewrite Hw in Hnext |- *.
    apply find_first_Some in Hfind as [Hin _].
    rewrite u64_add_small in Hinc by lia. specialize (Hnext _ Hinc ltac:(lia)).
    specialize (Hcost h (hc_capability call) (hc_operation call) payload w Hin). lia.
Qed.

(** The in-flight counters are balanced.  Every return point undoes what the
    entry did, so that after any run both counters are what they were; calls of
    a guest never overlap, and a fresh store with a positive concurrency or
    recursion limit never refuses a call for either. *)
Theorem counters_balanced gs s w clock call :
  counters_u64 s →
  let s' := (host_run gs s w).1 in
  balanced s s' ∧
  (hs_concurrent_calls s = 0%N → concurrency_limit (rp_limits (hs_profile s)) ≠ Some 0%N →
   (admit_call clock call s').2 ≠ Some "limit.concurrency") ∧
  (hs_call_depth s = 0%N → recursion_stack_limit (rp_limits (hs_profile s)) ≠ Some 0%N →
   (admit_call clock call s').2 ≠ Some "limit.recursion_depth").
Proof.
  intros Hc s'. pose proof (host_run_counters gs s w Hc) as [Hcc Hcd]. fold s' in Hcc, Hcd.
  destruct (host_run_config gs s w) as (_ & Hp & _). fold s' in Hp.
  assert (∀ limit, limit ≠ Some 0%N → reaches limit 0 = false) as Hz.
  { intros [[|m]|] Hl; cbn; try done. }
  split; [done|]. split; intros H0 Hl; unfold admit_call; rewrite Hp;
    destruct (check_rate_limits _ _ _ _) as [allowed windows]; cbn [hs_concurrent_calls hs_call_depth set_windows].
  - rewrite Hcc, H0, (Hz _ Hl). repeat case_match; cbn; congruence.
  - rewrite Hcd, H0, (Hz _ Hl). repeat case_match; cbn; congruence.
Qed.

Lemma write_memory_Some mem ptr bytes mem' :
  0 ≤ ptr → write_memory mem ptr bytes = Some mem' →
  length mem' = length mem ∧ take (Z.to_nat ptr) mem' = take (Z.to_nat ptr) mem ∧
  drop (Z.to_nat ptr + length bytes) mem' = drop (Z.to_nat ptr + length bytes) mem ∧
  read_memory (Some mem') ptr (Z.of_nat (length bytes)) = Some bytes.
Proof.
  unfold write_memory. intros Hp. case_decide as Hfit; [|done]. intros [= <-].
  assert (length (take (Z.to_nat ptr) mem) = Z.to_nat ptr) as Hlt by (rewrite length_take; lia).
  assert (length (take (Z.to_nat ptr) mem ++ bytes ++ drop (Z.to_nat ptr + length bytes) mem)
          = length mem) as Hlen by (rewrite !length_app, length_drop; lia).
  split; [done|]. split; [by rewrite take_app_length' |]. split.
  - rewrite app_assoc, drop_app_length'; [done|]. rewrite length_app. lia.
  - unfold read_memory. rewrite decide_False by lia. cbn [mbind option_bind].
    rewrite decide_True by lia. rewrite drop_app_length' by lia.
    by rewrite Nat2Z.id, take_app_length.
Qed.

(** A response is written where the guest asked for it.  When
    [dispatch_host_call_write] answers [n], the response has [n] bytes, at most
    the [out_max] the guest offered, it can be read back at [out_ptr], and no
    other byte of the memory changed; when it refuses, the memory is untouched. *)
Theorem response_in_buffer memory clock cap_ptr cap_len op_ptr op_len args_ptr args_len out_ptr out_max s w :
  match dispatch_host_call_write memory clock cap_ptr cap_len op_ptr op_len args_ptr args_len
          out_ptr out_max s w with
  | (_, _, memory', None) => memory' = memory
  | (_, _, memory', Some n) =>
      0 ≤ n ≤ out_max ∧
      ∃ mem mem' bytes, memory = Some mem ∧ memory' = Some mem' ∧ length mem' = length mem ∧
        n = Z.of_nat (length bytes) ∧ read_memory memory' out_ptr n = Some bytes ∧
        take (Z.to_nat out_ptr) mem' = take (Z.to_nat out_ptr) mem ∧
        drop (Z.to_nat out_ptr + length bytes) mem' = drop (Z.to_nat out_ptr + length bytes) mem
  end.
Proof.
  unfold dispatch_host_call_write.
  destruct (read_call _ _ _ _ _ _ _) as [call|d]; [|done].
  case_decide as Hneg; [done|]. destruct (admit_call clock call s) as [s1 [category|]]; [done|].
  destruct (find_handler s1 _) as [h|]; [|done].
  destruct (handler_payload _ _ _ _ _) as [payload|]; [|done].
  destruct (h_handle h _ _ payload w) as [w' [bytes|err]]; [|done].
  destruct (exceeds _ _); [done|]. case_decide as Hmax; [done|].
  destruct memory as [mem|]; [|done].
  destruct (write_memory mem out_ptr bytes) as [mem'|] eqn:Hw; [|done].
  apply write_memory_Some in Hw as (Hlen & Ht & Hd & Hr); [|lia].
  split; [lia|]. by exists mem, mem', bytes.
Qed.
End Runs.

(* ------------------------------------------------------------------ *)
(** ** A concrete store *)

Module SampleStore.
Definition profile (limits : ResourceLimits) : RuntimeProfile :=
  MkRuntimeProfile "prod" "" "" "" [MkCapabilityGrant "shop" "db"] limits None false None [] [] None None [].

(** A handler that counts its calls and answers with eight bytes. *)
Definition counter : Handler N :=
  MkHandler "counter" Assumed ["db"] (λ _ _ _ n, ((n + 1)%N, Ok (i64_le_bytes 42))).

Definition store (limits : ResourceLimits) : HostState N :=
  MkHostState [counter] (profile limits) "shop" [] [] None 0 [] ∅ 0 0.

Definition one_call_limit : ResourceLimits :=
  MkResourceLimits None None None (Some 1%N) None None None None None.

(** "db" at 0, "get" at 2 *)
Definition memory : option (list N) := Some (string_bytes "dbget" ++ replicate 59 0%N).

Definition call : GuestCall :=
  MkGuestCall memory (MkCallClock 0 0 0 "") (0, 2) (2, 3) (8, 1) None.
End SampleStore.

Section Witnesses.
#[local] Instance no_hash : HashBackend := { blake3 _ := []; cbor_node _ := []; cbor_op _ := [] }.

(** Three calls, of which the budget lets one through. *)
Lemma call_budget_witness :
  (host_run [SampleStore.call; SampleStore.call; SampleStore.call] (SampleStore.store SampleStore.one_call_limit) 0%N).2 = 1%N ∧
  ((host_run [SampleStore.call; SampleStore.call; SampleStore.call] (SampleStore.store SampleStore.one_call_limit) 0%N).2
   ≤ 0 + (1 - 0))%N.
Proof.
  split; [by vm_compute|].
  refine (call_budget [SampleStore.call; SampleStore.call; SampleStore.call]
            (SampleStore.store SampleStore.one_call_limit) 0%N (λ n, n) 1%N eq_refl _ _ _).
  - by vm_compute.
  - cbn. lia.
  - intros h cap op payload v [->|[]%not_elem_of_nil]%elem_of_cons. cbn. lia.
Defined.

Lemma counters_balanced_witness :
  balanced (SampleStore.store no_limits) (host_run [SampleStore.call; SampleStore.call] (SampleStore.store no_limits) 0%N).1.
Proof.
  refine (proj1 (counters_balanced [SampleStore.call; SampleStore.call] (SampleStore.store no_limits) 0%N
            (MkCallClock 0 0 0 "") (MkHostCall "db" "get" []) _)).
  by split; vm_compute.
Defined.
End Witnesses.
