(* ===== verification/Preflight.v ===== *)
(** * Preflight

    ail-runtime/src/host_preflight.rs, host_dispatch/instantiate.rs, error.rs
    and [CapabilityManifest] of manifest.rs: the stages a module passes before
    it may run.  Wasmtime is a parameter ([Engine]): it accepts or refuses the
    bytes, and instantiating a module runs its start function, whose host calls
    go through the dispatcher of [Dispatch]; so a preflight that fails late can
    already have changed the world and the audit log. *)

From S2P Require Import Prelude Text ChangeModel Packages Profile RateLimits Dispatch.
#[local] Open Scope N_scope.

(* ------------------------------------------------------------------ *)
(** ** Failures and manifests *)

Inductive PreflightFailure : Type :=
| HashMismatch (expected actual : string)
| PreflightCapabilityDenied (denied : list CapabilityId)
| WasmValidationError (msg : string)
| PackageTrustViolation (package : string) (required actual : PackageTrust)
| UnsafePackageNotApproved (package : string)
| PackageVerificationEvidenceInvalid (package : string) (reason : PackageVerificationEvidenceError)
| PreflightHandlerNotBound (capability : CapabilityId)
| ResourceLimitExceeded (reason : string)
| HandlerTrustViolation (handler : string) (required actual : PackageTrust)
| AssumptionExpired (assumption_id reason : string).

Inductive RuntimeError : Type :=
| PreflightFailed (failure : PreflightFailure)
| EncodingError (msg : string)
| CapabilityCallFailed (error : HostError).

Record CapabilityManifest : Type := MkCapabilityManifest {
  cm_module : string;
  cm_requires : list CapabilityId;
}.

(** [into_writer(&manifest)] of ciborium *)
Class ManifestCodec : Type := { cbor_manifest : CapabilityManifest → result (list N) string }.

(** [CapabilityManifest::blake3_hex] *)
Definition manifest_blake3_hex `{HashBackend, ManifestCodec} (m : CapabilityManifest)
  : result string string :=
  let? buf := cbor_manifest m in Ok (blake3_hex_of buf).

(* ------------------------------------------------------------------ *)
(** ** Wasmtime *)

(** One error of a chain: whether it is the trap [OutOfFuel], and its text. *)
Record WasmtimeError : Type := MkWasmtimeError {
  we_out_of_fuel : bool;
  we_display : string;
}.

(** [Module::validate], [Module::new], [Store::set_fuel], and
    [Linker::instantiate] under a memory cap and a fuel budget: the host calls
    of the start function, and the chain of errors if it fails. *)
Record Engine (W : Type) : Type := MkEngine {
  en_validate : list N → option string;
  en_compile : list N → option string;
  en_set_fuel : N → option string;
  en_instantiate : list N → option N → N → HostState W → W →
                   list GuestCall * option (WasmtimeError * list WasmtimeError);
}.
Arguments en_validate {W}.
Arguments en_compile {W}.
Arguments en_set_fuel {W}.
Arguments en_instantiate {W}.

Fixpoint contains_text (sub s : string) : bool :=
  starts_with sub s || match s with String _ s' => contains_text sub s' | EmptyString => false end.

(** The walk along the chain of sources. *)
Fixpoint classify_chain (chain : list WasmtimeError) : option PreflightFailure :=
  match chain with
  | [] => None
  | err :: chain' =>
      if we_out_of_fuel err then Some (ResourceLimitExceeded "fuel limit exceeded")
      else if contains_text "forcing trap when growing memory" (we_display err)
           then Some (ResourceLimitExceeded "memory growth denied by resource limiter")
           else classify_chain chain'
  end.

Definition classify_instantiate_error (e : WasmtimeError) (sources : list WasmtimeError)
  : RuntimeError :=
  PreflightFailed (default (WasmValidationError (we_display e)) (classify_chain (e :: sources))).

Definition u64_max : N := u64_modulus - 1.

Section Preflight.
Context `{HashBackend, ManifestCodec} {W : Type}.

(** The state of a fresh store. *)
Definition initial_state (handlers : list (Handler W)) (revocations : CapabilityRevocationRegistry)
    (profile : RuntimeProfile) (module_name : string) : HostState W :=
  MkHostState handlers profile module_name [] [] None 0 revocations ∅ 0 0.

(** Stages 4 and 5.  The audit log of the store is its share of the host's log;
    the state returned holds what the start function did. *)
Definition instantiate_inner (engine : Engine W) (handlers : list (Handler W))
    (revocations : CapabilityRevocationRegistry) (wasm : list N) (profile : RuntimeProfile)
    (module_name : string) (w : W) : HostState W * W * option RuntimeError :=
  let s0 := initial_state handlers revocations profile module_name in
  match en_validate engine wasm with
  | Some msg => (s0, w, Some (PreflightFailed (WasmValidationError msg)))
  | None =>
  match en_compile engine wasm with
  | Some msg => (s0, w, Some (PreflightFailed (WasmValidationError msg)))
  | None =>
    let fuel := default u64_max (max_fuel (rp_limits profile)) in
    match en_set_fuel engine fuel with
    | Some e => (s0, w, Some (PreflightFailed (ResourceLimitExceeded ("failed to set fuel: " +:+ e))))
    | None =>
      let '(calls, failure) := en_instantiate engine wasm (max_memory_bytes (rp_limits profile)) fuel s0 w in
      let '(s, w') := host_run calls s0 w in
      (s, w', (λ '(e, sources), classify_instantiate_error e sources) <$> failure)
    end
  end end.

(* ------------------------------------------------------------------ *)
(** ** The stages *)

Fixpoint check_package_trust (manifests : list PackageManifest) (profile : RuntimeProfile)
  : result unit RuntimeError :=
  match manifests with
  | [] => Ok ()
  | m :: manifests' =>
      if decide (pm_trust_level m = Unsafe)
      then Err (PreflightFailed (UnsafePackageNotApproved (pm_name m)))
      else match validate_verified_package_evidence m with
      | Err err => Err (PreflightFailed (PackageVerificationEvidenceInvalid (pm_name m) err))
      | Ok _ =>
          match rp_min_package_trust profile with
          | Some required =>
              if satisfies (pm_trust_level m) required then check_package_trust manifests' profile
              else Err (PreflightFailed (PackageTrustViolation (pm_name m) required (pm_trust_level m)))
          | None => check_package_trust manifests' profile
          end
      end
  end.

(** Stages 1, 2 and 3. *)
Definition check_hashes_and_grants (wasm : list N) (manifest : CapabilityManifest)
    (profile : RuntimeProfile) : result unit RuntimeError :=
  let actual_module_hash := blake3_hex_of wasm in
  if decide (actual_module_hash ≠ rp_module_hash profile)
  then Err (PreflightFailed (HashMismatch (rp_module_hash profile) actual_module_hash))
  else match manifest_blake3_hex manifest with
  | Err msg => Err (EncodingError msg)
  | Ok actual_manifest_hash =>
      if decide (actual_manifest_hash ≠ rp_capability_manifest_hash profile)
      then Err (PreflightFailed (HashMismatch (rp_capability_manifest_hash profile) actual_manifest_hash))
      else match filter (λ cap, grants_capability profile (cm_module manifest) cap = false)
                   (cm_requires manifest) with
      | [] => Ok ()
      | denied => Err (PreflightFailed (PreflightCapabilityDenied denied))
      end
  end.

(** Stage 7 at [now] nanoseconds since the epoch. *)
Definition expired_by_time (now : N) (a : ProfileAssumption) : bool :=
  from_option (λ t, bool_decide (t < now)) false (as_expires_at a).

Fixpoint check_assumptions (now : N) (assumptions : list ProfileAssumption) : result unit RuntimeError :=
  match assumptions with
  | [] => Ok ()
  | a :: assumptions' =>
      match as_status a with
      | StatusExpired => Err (PreflightFailed (AssumptionExpired (as_id a) "status is Expired"))
      | StatusInactive => Err (PreflightFailed (AssumptionExpired (as_id a) "status is Inactive"))
      | StatusActive =>
          if expired_by_time now a
          then Err (PreflightFailed (AssumptionExpired (as_id a) "expires_at is in the past"))
          else check_assumptions now assumptions'
      end
  end.

(** Stage 6, the loop over the grants. *)
Fixpoint check_handlers (handlers : list (Handler W)) (profile : RuntimeProfile)
    (grants : list CapabilityGrant) : result unit RuntimeError :=
  match grants with
  | [] => Ok ()
  | grant :: grants' =>
      match find_first (λ h, cg_capability grant ∈ h_capabilities h) handlers,
            rp_min_handler_trust profile with
      | None, _ =>
          if rp_require_handler_binding profile
          then Err (PreflightFailed (PreflightHandlerNotBound (cg_capability grant)))
          else check_handlers handlers profile grants'
      | Some h, Some required =>
          if satisfies (h_trust_level h) required then check_handlers handlers profile grants'
          else Err (PreflightFailed (HandlerTrustViolation (h_name h) required (h_trust_level h)))
      | Some _, None => check_handlers handlers profile grants'
      end
  end.

Definition handler_stage (handlers : list (Handler W)) (profile : RuntimeProfile)
  : result unit RuntimeError :=
  if rp_require_handler_binding profile || bool_decide (is_Some (rp_min_handler_trust profile))
  then check_handlers handlers profile (rp_grants profile)
  else Ok ().

(** Stages 0 to 3 and 7: nothing has run yet. *)
Definition static_stages (wasm : list N) (manifest : CapabilityManifest) (profile : RuntimeProfile)
    (packages : list PackageManifest) (now : N) : result unit RuntimeError :=
  let? _ := (if decide (packages = []) then Ok () else check_package_trust packages profile) in
  let? _ := check_hashes_and_grants wasm manifest profile in
  check_assumptions now (rp_assumptions profile).

(** The state of the store comes back in every case, for the audit events of a
    start function. *)
Definition preflight_inner (engine : Engine W) (handlers : list (Handler W))
    (revocations : CapabilityRevocationRegistry) (wasm : list N) (manifest : CapabilityManifest)
    (profile : RuntimeProfile) (packages : list PackageManifest) (now : N) (w : W)
  : HostState W * W * result unit RuntimeError :=
  match static_stages wasm manifest profile packages now with
  | Err err => (initial_state handlers revocations profile (cm_module manifest), w, Err err)
  | Ok _ =>
      let '(s, w', failure) :=
        instantiate_inner engine handlers revocations wasm profile (cm_module manifest) w in
      match failure with
      | Some err => (s, w', Err err)
      | None => (s, w', handler_stage handlers profile)
      end
  end.
End Preflight.

(* ------------------------------------------------------------------ *)
(** ** The audit event *)

Definition failure_parts (err : RuntimeError) : list CapabilityId * PreflightFailure :=
  match err with
  | PreflightFailed (PreflightCapabilityDenied denied) => (denied, PreflightCapabilityDenied denied)
  | PreflightFailed failure => ([], failure)
  | EncodingError msg => ([], WasmValidationError ("encoding: " +:+ msg))
  | CapabilityCallFailed _ =>
      ([], WasmValidationError "unexpected capability call failure in preflight")
  end.

(* ------------------------------------------------------------------ *)
(** ** What the stages decide *)

Section PreflightFacts.
Context `{HashBackend, ManifestCodec} {W : Type}.
Implicit Types (engine : Engine W) (handlers : list (Handler W)).

Definition package_admissible (profile : RuntimeProfile) (m : PackageManifest) : Prop :=
  pm_trust_level m ≠ Unsafe ∧ (pm_trust_level m = Verified → evidence_ok m) ∧
  ∀ required, rp_min_package_trust profile = Some required →
    satisfies (pm_trust_level m) required = true.

Lemma check_package_trust_iff manifests profile :
  check_package_trust manifests profile = Ok () ↔
  ∀ m, m ∈ manifests → package_admissible profile m.
Proof.
  induction manifests as [|m manifests IH]; cbn [check_package_trust].
  { split; [by intros _ m ?%not_elem_of_nil|done]. }
  setoid_rewrite elem_of_cons. unfold package_admissible in *.
  case_decide as Hu; [split; [done|]; intros Hall; by destruct (Hall m ltac:(by left))|].
  pose proof (verified_evidence_iff m) as Hev.
  destruct (validate_verified_package_evidence m) as [[]|err].
  2:{ split; [done|]. intros Hall. destruct (Hall m ltac:(by left)) as (_ & He & _).
      by apply Hev in He. }
  assert (pm_trust_level m = Verified → evidence_ok m) as Hm by (by apply Hev). clear Hev.
  destruct (rp_min_package_trust profile) as [required|] eqn:Hr.
  - destruct (satisfies (pm_trust_level m) required) eqn:Hs.
    + rewrite IH. split; intros Hall; [|auto]. intros m' [->|Hm']; [|auto].
      split; [done|]. split; [done|]. by intros ? [= <-].
    + split; [done|]. intros Hall. destruct (Hall m ltac:(by left)) as (_ & _ & Ht).
      rewrite (Ht required) in Hs by done. done.
  - rewrite IH. split; intros Hall; [|auto]. by intros m' [->|Hm']; [|auto].
Qed.

Lemma check_hashes_and_grants_iff wasm manifest profile :
  check_hashes_and_grants wasm manifest profile = Ok () ↔
  blake3_hex_of wasm = rp_module_hash profile ∧
  manifest_blake3_hex manifest = Ok (rp_capability_manifest_hash profile) ∧
  ∀ cap, cap ∈ cm_requires manifest → MkCapabilityGrant (cm_module manifest) cap ∈ rp_grants profile.
Proof.
  unfold check_hashes_and_grants. cbn zeta.
  destruct (decide (blake3_hex_of wasm ≠ _)) as [Hne|He%dec_stable]; [naive_solver|].
  destruct (manifest_blake3_hex manifest) as [h|msg]; [|naive_solver].
  destruct (decide (h ≠ _)) as [Hne|Hh%dec_stable]; [naive_solver|].
  transitivity (filter (λ cap, grants_capability profile (cm_module manifest) cap = false)
                  (cm_requires manifest) = []).
  { by destruct (filter _ _). }
  rewrite filter_nil_iff. setoid_rewrite not_false_iff_true. setoid_rewrite grants_capability_iff.
  naive_solver.
Qed.

Definition assumption_live (now : N) (a : ProfileAssumption) : Prop :=
  as_status a = StatusActive ∧ ∀ t, as_expires_at a = Some t → now ≤ t.

Lemma check_assumptions_iff now assumptions :
  check_assumptions now assumptions = Ok () ↔ ∀ a, a ∈ assumptions → assumption_live now a.
Proof.
  induction assumptions as [|a assumptions IH]; cbn [check_assumptions].
  { split; [by intros _ a ?%not_elem_of_nil|done]. }
  setoid_rewrite elem_of_cons. unfold assumption_live in *.
  destruct (as_status a) eqn:Hs; [|split; [done|]; intros Hall; by destruct (Hall a ltac:(by left)); congruence..].
  unfold expired_by_time. destruct (as_expires_at a) as [t|] eqn:Ht; cbn.
  - case_bool_decide as Hlt.
    + split; [done|]. intros Hall. destruct (Hall a ltac:(by left)) as [_ Hle]. specialize (Hle t Ht). lia.
    + rewrite IH. split; intros Hall; [|auto]. intros a' [->|?]; [|auto]. split; [done|].
      intros t' Ht'. rewrite Ht in Ht'. injection Ht' as <-. lia.
  - rewrite IH. split; intros Hall; [|auto]. intros a' [->|?]; [|auto]. split; [done|].
    intros t' Ht'. congruence.
Qed.

(** The handler that would serve a grant exists when binding is required, and
    is trusted enough when a minimum is set. *)
Definition grant_served handlers (profile : RuntimeProfile) (grant : CapabilityGrant) : Prop :=
  let bound := find_first (λ h, cg_capability grant ∈ h_capabilities h) handlers in
  (rp_require_handler_binding profile = true → is_Some bound) ∧
  ∀ h required, bound = Some h → rp_min_handler_trust profile = Some required →
    satisfies (h_trust_level h) required = true.

Lemma check_handlers_iff handlers profile grants :
  check_handlers handlers profile grants = Ok () ↔
  ∀ grant, grant ∈ grants → grant_served handlers profile grant.
Proof.
  induction grants as [|g grants IH]; cbn [check_handlers].
  { split; [by intros _ g ?%not_elem_of_nil|done]. }
  setoid_rewrite elem_of_cons.
  enough (∀ (P : Prop), (P ↔ check_handlers handlers profile grants = Ok () ∧ grant_served handlers profile g) →
    P ↔ ∀ grant, grant = g ∨ grant ∈ grants → grant_served handlers profile grant) as Hgo.
  { apply Hgo. unfold grant_served. cbn zeta.
    destruct (find_first _ handlers) as [h|].
    - destruct (rp_min_handler_trust profile) as [required|]; [|naive_solver].
      destruct (satisfies (h_trust_level h) required) eqn:Hs; [naive_solver|].
      split; [done|]. intros [_ [_ Ht]]. specialize (Ht h required eq_refl eq_refl). congruence.
    - destruct (rp_require_handler_binding profile); [|naive_solver].
      split; [done|]. intros [_ [Hb _]]. destruct (Hb eq_refl) as [? ?]. done. }
  intros P ->. rewrite IH. naive_solver.
Qed.

Lemma handler_stage_iff handlers profile :
  handler_stage handlers profile = Ok () ↔
  ∀ grant, grant ∈ rp_grants profile → grant_served handlers profile grant.
Proof.
  unfold handler_stage. destruct (rp_require_handler_binding profile) eqn:Hb; cbn [orb].
  { apply check_handlers_iff. }
  case_bool_decide as Ht; [apply check_handlers_iff|]. split; [|done]. intros _ g _.
  split; [by rewrite Hb|]. intros h required _ Hr. destruct Ht. by exists required.
Qed.

Definition statically_admissible (wasm : list N) (manifest : CapabilityManifest)
    (profile : RuntimeProfile) (packages : list PackageManifest) (now : N) : Prop :=
  (∀ m, m ∈ packages → package_admissible profile m) ∧
  blake3_hex_of wasm = rp_module_hash profile ∧
  manifest_blake3_hex manifest = Ok (rp_capability_manifest_hash profile) ∧
  (∀ cap, cap ∈ cm_requires manifest →
     MkCapabilityGrant (cm_module manifest) cap ∈ rp_grants profile) ∧
  (∀ a, a ∈ rp_assumptions profile → assumption_live now a).

Lemma static_stages_iff wasm manifest profile packages now :
  static_stages wasm manifest profile packages now = Ok () ↔
  statically_admissible wasm manifest profile packages now.
Proof.
  unfold static_stages, statically_admissible.
  assert ((if decide (packages = []) then Ok () else check_package_trust packages profile)
          = check_package_trust packages profile) as -> by (case_decide; by subst).
  rewrite <- check_package_trust_iff, <- check_assumptions_iff.
  pose proof (check_hashes_and_grants_iff wasm manifest profile) as Hg.
  destruct (check_package_trust packages profile) as [[]|err]; [|naive_solver].
  destruct (check_hashes_and_grants wasm manifest profile) as [[]|err]; [|naive_solver].
  cbn. naive_solver.
Qed.
End PreflightFacts.

(* ------------------------------------------------------------------ *)
(** ** Admission and what it guarantees *)

Section Admission.
Context `{HashBackend, ManifestCodec} {W : Type}.
Implicit Types (engine : Engine W) (handlers : list (Handler W)).

(** Whatever its outcome, instantiation is a run of host calls in a fresh store. *)
Lemma instantiate_runs engine handlers revocations wasm profile module w :
  ∃ calls, (instantiate_inner engine handlers revocations wasm profile module w).1 =
           host_run calls (initial_state handlers revocations profile module) w.
Proof.
  unfold instantiate_inner. destruct (en_validate engine wasm); [by exists []|].
  destruct (en_compile engine wasm); [by exists []|].
  destruct (en_set_fuel engine _); [by exists []|].
  destruct (en_instantiate _ _ _ _ _ _) as [calls failure]. exists calls.
  by destruct (host_run calls _ w).
Qed.

Lemma preflight_verdict engine handlers revocations wasm manifest profile packages now (w : W) :
  let '(s, _, verdict) :=
    preflight_inner engine handlers revocations wasm manifest profile packages now w in
  (verdict = Ok () ↔
   statically_admissible wasm manifest profile packages now ∧
   (instantiate_inner engine handlers revocations wasm profile (cm_module manifest) w).2 = None ∧
   ∀ grant, grant ∈ rp_grants profile → grant_served handlers profile grant) ∧
  same_config (initial_state handlers revocations profile (cm_module manifest)) s.
Proof.
  unfold preflight_inner. pose proof (static_stages_iff wasm manifest profile packages now) as Hst.
  destruct (static_stages wasm manifest profile packages now) as [[]|err]; [|split; [naive_solver|done]].
  destruct (instantiate_runs engine handlers revocations wasm profile (cm_module manifest) w) as [calls Hrun].
  pose proof (host_run_config calls (initial_state handlers revocations profile (cm_module manifest)) w) as Hc.
  rewrite <- Hrun in Hc. clear Hrun.
  destruct (instantiate_inner engine handlers revocations wasm profile (cm_module manifest) w)
    as [[s w'] [err|]]; cbn in Hc |- *; (split; [|done]); [naive_solver|].
  rewrite handler_stage_iff. naive_solver.
Qed.

(** Admission is exact.  Preflight admits a module exactly when its packages
    are admissible (none unsafe, verified ones with valid evidence, all at the
    profile's tier), its bytes and its manifest have the hashes of the profile,
    every capability it requires is granted to it, every assumption is active
    and not expired, Wasmtime accepts it, and every grant is served as the
    profile demands; the store it then runs in has the profile, the handlers
    and the name it was admitted with, and no call for a required capability
    is refused for want of a grant. *)
Theorem preflight_admits_iff engine handlers revocations wasm manifest profile packages now (w : W) :
  let '(s, _, verdict) :=
    preflight_inner engine handlers revocations wasm manifest profile packages now w in
  (verdict = Ok () ↔
   statically_admissible wasm manifest profile packages now ∧
   (instantiate_inner engine handlers revocations wasm profile (cm_module manifest) w).2 = None ∧
   ∀ grant, grant ∈ rp_grants profile → grant_served handlers profile grant) ∧
  same_config (initial_state handlers revocations profile (cm_module manifest)) s ∧
  (verdict = Ok () → ∀ clock call, hc_capability call ∈ cm_requires manifest →
     (admit_call clock call s).2 ≠ Some "capability.not_granted" ∧
     (admit_call clock call s).2 ≠ Some "capability.profile_mismatch").
Proof.
  pose proof (preflight_verdict engine handlers revocations wasm manifest profile packages now w) as Hv.
  destruct (preflight_inner engine handlers revocations wasm manifest profile packages now w)
    as [[s w'] verdict]. destruct Hv as [Hiff Hc]. split; [done|]. split; [done|].
  intros ((_ & _ & _ & Hreq & _) & _)%Hiff clock call Hcall.
  destruct Hc as (_ & Hp & Hm & _). cbn in Hp, Hm. unfold admit_call. rewrite Hp, Hm.
  rewrite (proj2 (grants_capability_iff profile (cm_module manifest) (hc_capability call))) by auto.
  destruct (check_rate_limits _ _ _ _) as [allowed windows]. cbn [negb].
  repeat case_match; cbn; split; congruence.
Qed.

(** Handlers that serve a grant keep [I], so any run of the guest does. *)
Lemma host_run_invariant gs (s : HostState W) w (I : W → Prop) :
  (∀ h cap op payload v,
     MkCapabilityGrant (hs_module_name s) cap ∈ rp_grants (hs_profile s) →
     find_handler s cap = Some h → I v → I (h_handle h cap op payload v).1) →
  I w → I (host_run gs s w).2.
Proof.
  revert s w. induction gs as [|g gs IH]; intros s w Hk HI; [done|]. rewrite host_run_cons.
  pose proof (host_step_view g s w) as [(Hh & Hp & Hm & _ & _) _ _ Hworld].
  apply IH.
  - intros h cap op payload v. rewrite Hm, Hp. unfold find_handler. rewrite Hh. apply Hk.
  - destruct Hworld as [[-> _]|[(call & h & payload & _ & (Hg & _) & Hf & _ & ->) _]]; [done|].
    by apply (Hk h).
Qed.

(** C26: an admitted module only ever reaches trusted handlers.  If the profile
    sets a minimum trust for handlers and preflight admits the module, then
    whatever the handlers of at least that trust preserve is preserved by the
    start function and by every later run of the module, whatever the other
    registered handlers would do. *)
Theorem admitted_reaches_trusted_handlers engine handlers revocations wasm manifest profile packages
    now (w : W) s w1 required (I : W → Prop)
    (Hok : preflight_inner engine handlers revocations wasm manifest profile packages now w = (s, w1, Ok ()))
    (Hmin : rp_min_handler_trust profile = Some required)
    (Hkeep : ∀ h cap op payload v, h ∈ handlers → satisfies (h_trust_level h) required = true →
       I v → I (h_handle h cap op payload v).1)
    (HI : I w) :
  I w1 ∧ ∀ gs, I (host_run gs s w1).2.
Proof.
  pose proof (preflight_verdict engine handlers revocations wasm manifest profile packages now w) as Hiff.
  rewrite Hok in Hiff. destruct Hiff as ([Hadm _] & (Hh & Hp & Hm & _)). cbn in Hh, Hp, Hm.
  destruct (Hadm eq_refl) as (_ & Hinst & Hserved).
  assert (∀ (s' : HostState W) h cap op payload v, hs_handlers s' = handlers →
    MkCapabilityGrant (cm_module manifest) cap ∈ rp_grants profile →
    find_handler s' cap = Some h → I v → I (h_handle h cap op payload v).1) as Hgo.
  { intros s' h cap op payload v Hhs Hg Hf. unfold find_handler in Hf. rewrite Hhs in Hf.
    destruct (Hserved _ Hg) as [_ Ht]. apply Hkeep; [by apply find_first_Some in Hf as [? _]|by apply Ht]. }
  assert (I w1) as HI1.
  { unfold preflight_inner in Hok. destruct (static_stages _ _ _ _ _) as [[]|]; [|done].
    destruct (instantiate_runs engine handlers revocations wasm profile (cm_module manifest) w)
      as [calls Hrun].
    destruct (instantiate_inner _ _ _ _ _ _ _) as [[s' w'] failure]. cbn in Hrun, Hinst. subst failure.
    injection Hok as <- <- _. replace w' with (s', w').2 by done. rewrite Hrun.
    apply host_run_invariant; [|done]. intros h cap op payload v. by apply Hgo. }
  split; [done|]. intros gs. apply host_run_invariant; [|done].
  rewrite Hp, Hm. intros h cap op payload v. by apply Hgo.
Qed.
End Admission.

(* ------------------------------------------------------------------ *)
(** ** A concrete host *)

Module PreflightSample.
#[local] Instance plain_hash : HashBackend := { blake3 bytes := bytes; cbor_node _ := []; cbor_op _ := [] }.
#[local] Instance plain_manifest : ManifestCodec :=
  { cbor_manifest m := Ok (string_bytes (cm_module m)) }.

Definition wasm : list N := [0; 97; 115; 109].
Definition manifest : CapabilityManifest := MkCapabilityManifest "shop" ["db"].

(** The profile of the module, with a minimum trust for handlers. *)
Definition profile (min_trust : PackageTrust) : RuntimeProfile :=
  MkRuntimeProfile "prod" (blake3_hex_of wasm) "" (blake3_hex_of (string_bytes "shop"))
    [MkCapabilityGrant "shop" "db"] no_limits None true (Some min_trust) [] [] None None [].

(** A module whose start function makes one call. *)
Definition engine : Engine N :=
  MkEngine _ (λ _, None) (λ _, None) (λ _, None) (λ _ _ _ _ _, ([SampleStore.call], None)).

(** A handler that writes 42, and an unverified one that would write 100. *)
Definition setter : Handler N := MkHandler "setter" Assumed ["db"] (λ _ _ _ _, (42, Ok [])).
Definition rogue : Handler N := MkHandler "rogue" Unverified ["db"; "net"] (λ _ _ _ _, (100, Ok [])).

Definition preflight (min_trust : PackageTrust) : HostState N * N * result unit RuntimeError :=
  preflight_inner engine [setter; rogue] [] wasm manifest (profile min_trust) [] 0 0.

Lemma admitted_reaches_trusted_handlers_witness :
  ∃ s, preflight Assumed = (s, 42, Ok ()) ∧ ∀ gs, (host_run gs s 42).2 ≤ 42.
Proof.
  destruct (preflight Assumed) as [[s w1] v] eqn:E. pose proof E as E'. vm_compute in E'.
  injection E' as Es <- <-. exists s. split; [done|].
  refine (proj2 (admitted_reaches_trusted_handlers engine [setter; rogue] [] wasm manifest
    (profile Assumed) [] 0 0 s 42 Assumed (λ n, n ≤ 42) E eq_refl _ _)); [|lia].
  intros h cap op payload v [->|[->|[]%not_elem_of_nil]%elem_of_cons]%elem_of_cons Ht Hv; [cbn; lia|].
  by vm_compute in Ht.
Defined.

(** The trust gate comes after the start function.  With a minimum trust
    that the registered handler does not have, preflight refuses the module,
    but the start function has already run that handler: the world has changed
    and the call is in the audit log as a success. *)
Theorem start_precedes_trust_gate :
  let '(s, w', verdict) := preflight Verified in
  verdict = Err (PreflightFailed (HandlerTrustViolation "setter" Verified Assumed)) ∧ w' = 42 ∧
  (ae_succeeded <$> hs_audit_log s) = [true].
Proof. by vm_compute. Qed.
End PreflightSample.
