(* ===== verification/Schema.v ===== *)
(** * Capability schemas

    ail-runtime/src/schema.rs: the boundary protocol of the host.  A payload is
    a list [key=value,...]; a schema asks for the leaf paths of its fields, and
    for a tag that selects the branch of a variant. *)

From stdpp Require Import pretty.
From S2P Require Import Prelude Text Trim Profile ValueCodec Dispatch.

#[local] Set Warnings "-register-all".

(** [SchemaField] and [SchemaVariant] *)
Inductive SchemaField : Type :=
| MkSchemaField (name type_name : string) (fields : list SchemaField)
    (variants : list (string * list SchemaField)).

Definition sf_name (f : SchemaField) : string := let 'MkSchemaField n _ _ _ := f in n.
Definition sf_type_name (f : SchemaField) : string := let 'MkSchemaField _ t _ _ := f in t.

(** [SchemaField::new], [record], [option] and [result] *)
Definition field_new (name type_name : string) : SchemaField := MkSchemaField name type_name [] [].
Definition field_record (name : string) (fields : list SchemaField) : SchemaField :=
  MkSchemaField name "Record" fields [].
Definition field_option (name : string) (some_fields : list SchemaField) : SchemaField :=
  MkSchemaField name "Option" [] [("None", []); ("Some", some_fields)].
Definition field_result (name : string) (ok_fields err_fields : list SchemaField) : SchemaField :=
  MkSchemaField name "Result" [] [("Ok", ok_fields); ("Err", err_fields)].

Record SchemaMismatchDiagnostic : Type := MkSchemaMismatch {
  sm_key : string;
  sm_category : string;
  sm_expected_shape : string;
  sm_actual_shape : string;
}.

(** A mismatch, or the message of [validate_bytes_response]. *)
Inductive SchemaValidationError : Type :=
| Mismatch (d : SchemaMismatchDiagnostic)
| BytesOutputError (msg : string).

(* ------------------------------------------------------------------ *)
(** ** Parsing *)

Definition parse_pair (pair : string) : option (string * string) :=
  let pair := trim pair in
  if decide (pair = "") then None
  else
    let '(key, value) := default (pair, "") (split_once "=" pair) in
    let key := trim key in
    if decide (key = "") then None else Some (key, trim value).

(** Collecting into a [HashMap]: a later pair replaces an earlier one. *)
Definition parse_fields (payload : list N) : result (gmap string string) SchemaValidationError :=
  match string_from_utf8 payload with
  | None => Err (Mismatch (MkSchemaMismatch "schema.payload.invalid_utf8" "payload_decode"
                             "payload:utf8_key_value_pairs" "payload:non_utf8_bytes"))
  | Some s => Ok (foldl (λ m '(k, v), <[k := v]> m) ∅ (omap parse_pair (split_on "," s)))
  end.

(* ------------------------------------------------------------------ *)
(** ** Validation *)

Definition field_shape (f : SchemaField) (path : string) : string :=
  "field:" +:+ (path +:+ (":" +:+ sf_type_name f)).

Definition variant_shape (type_name : string) (tags : list string) (path : string) : string :=
  "variant:" +:+ (path +:+ (":" +:+ (type_name +:+ (":tags=" +:+ join "|" tags)))).

Definition child_path (parent_path name : string) : string :=
  if decide (parent_path = "") then name else parent_path +:+ ("." +:+ name).

(** The loops over nested fields, parameterised by the check of one of them. *)
Fixpoint each_field (check : SchemaField → string → result unit SchemaValidationError)
    (path : string) (l : list SchemaField) : result unit SchemaValidationError :=
  match l with
  | [] => Ok ()
  | f :: l' => let? _ := check f path in each_field check path l'
  end.

Fixpoint branch (check : SchemaField → string → result unit SchemaValidationError) (path tag : string)
    (unknown : SchemaValidationError) (l : list (string * list SchemaField))
  : result unit SchemaValidationError :=
  match l with
  | [] => Err unknown
  | (t, payload) :: l' => if decide (t = tag) then each_field check path payload
                          else branch check path tag unknown l'
  end.

Fixpoint validate_field_path (fields : gmap string string) (field : SchemaField) (parent_path : string)
  : result unit SchemaValidationError :=
  match field with
  | MkSchemaField name type_name nested variants =>
      let path := child_path parent_path name in
      match variants with
      | _ :: _ =>
          match fields !! (path +:+ ".$tag") with
          | None => Err (Mismatch (MkSchemaMismatch "schema.mismatch.missing_variant_tag"
                          "missing_variant_tag" (variant_shape type_name variants.*1 path)
                          "variant_tag:absent"))
          | Some tag =>
              branch (validate_field_path fields) path tag
                (Mismatch (MkSchemaMismatch "schema.mismatch.unknown_variant" "unknown_variant"
                   (variant_shape type_name variants.*1 path) "variant_tag:present_unknown")) variants
          end
      | [] =>
          match nested with
          | [] =>
              if decide (is_Some (fields !! path)) then Ok ()
              else Err (Mismatch (MkSchemaMismatch "schema.mismatch.missing_field" "missing_field"
                          (field_shape field path) "field:absent"))
          | _ :: _ => each_field (validate_field_path fields) path nested
          end
      end
  end.

Definition validate_fields (payload : list N) (required : list SchemaField)
  : result unit SchemaValidationError :=
  match required with
  | [] => Ok ()
  | _ =>
      let? fields := parse_fields payload in
      each_field (validate_field_path fields) "" required
  end.

(* ------------------------------------------------------------------ *)
(** ** Schemas *)

Definition schema_field_to_value_layout (f : SchemaField) : option ValueLayout :=
  let t := sf_type_name f in
  if decide (t = "Bytes") then Some LayoutBytes
  else if decide (t ∈ ["Text"; "String"]) then Some LayoutText
  else if decide (t ∈ ["i8"; "i16"; "i32"; "i64"; "u8"; "u16"; "u32"; "u64"; "i128"; "u128"; "Int";
                       "Bool"; "Scalar"]) then Some LayoutScalar
  else if decide (t = "Handle") then Some LayoutHandle
  else None.

Definition declared_value_layout (fields : list SchemaField) : option ValueLayout :=
  match fields with [field] => schema_field_to_value_layout field | _ => None end.

Definition validate_bytes_response (fields : list SchemaField) (response : list N)
  : result StructuredValue SchemaValidationError :=
  match declared_value_layout fields with
  | Some LayoutBytes =>
      let len := Z.of_nat (length response) in
      if decide (2 ^ 31 - 1 < len)%Z
      then Err (BytesOutputError ("BytesOutputError: response length " +:+
                                  (pretty (length response) +:+ " exceeds i32::MAX")))
      else Ok (SBytes 0 len)
  | Some _ => Err (BytesOutputError "BytesOutputError: schema output is not declared as Bytes; use the appropriate validator for your schema type (e.g. validate() for text-encoded payloads, or a typed decoder for Scalar and Handle layouts)")
  | None => Err (BytesOutputError "BytesOutputError: schema has no single simple-typed output field; cannot derive a Bytes layout")
  end.

(** [CapabilitySchema]: the fields of its input and output schemas, the
    variants of its error schema. *)
Record CapabilitySchema : Type := MkCapabilitySchema {
  cs_input : list SchemaField;
  cs_output : list SchemaField;
  cs_errors : list string;
}.

Record CapabilityDefinition : Type := MkCapabilityDefinition {
  cd_capability : CapabilityId;
  cd_schema : CapabilitySchema;
}.

(* ------------------------------------------------------------------ *)
(** ** What validation decides *)

Section NestedInduction.
Context (P : SchemaField → Prop).
Hypothesis Hfield : ∀ n t fs vs, Forall P fs → Forall (λ v, Forall P v.2) vs → P (MkSchemaField n t fs vs).

Fixpoint SchemaField_nested_ind (f : SchemaField) : P f :=
  let fix all (l : list SchemaField) : Forall P l :=
    match l with
    | [] => Forall_nil_2 P
    | x :: l' => Forall_cons_2 P x l' (SchemaField_nested_ind x) (all l')
    end in
  let fix branches (l : list (string * list SchemaField)) : Forall (λ v, Forall P v.2) l :=
    match l with
    | [] => Forall_nil_2 _
    | (tag, payload) :: l' => Forall_cons_2 _ (tag, payload) l' (all payload) (branches l')
    end in
  match f with MkSchemaField n t fs vs => Hfield n t fs vs (all fs) (branches vs) end.
End NestedInduction.

(** The fields satisfy a schema field below a path: a leaf has its key, a
    record its fields, a variant a tag and the fields of the branch it selects. *)
Inductive conforms (fields : gmap string string) : string → SchemaField → Prop :=
| conforms_leaf parent n t :
    is_Some (fields !! child_path parent n) → conforms fields parent (MkSchemaField n t [] [])
| conforms_record parent n t fs :
    fs ≠ [] → Forall (conforms fields (child_path parent n)) fs →
    conforms fields parent (MkSchemaField n t fs [])
| conforms_variant parent n t fs vs tag payload :
    fields !! (child_path parent n +:+ ".$tag") = Some tag →
    find_first (λ v, v.1 = tag) vs = Some (tag, payload) →
    Forall (conforms fields (child_path parent n)) payload →
    conforms fields parent (MkSchemaField n t fs vs).

Lemma each_field_iff check path l (Q : SchemaField → Prop) :
  Forall (λ f, check f path = Ok () ↔ Q f) l → each_field check path l = Ok () ↔ Forall Q l.
Proof.
  induction 1 as [|f l Hf _ IH]; cbn; [split; [constructor|done]|].
  rewrite Forall_cons, <- Hf, <- IH. destruct (check f path) as [[]|e]; naive_solver.
Qed.

Lemma branch_iff check path tag unknown vs (Q : SchemaField → Prop) :
  Forall (λ v, Forall (λ f, check f path = Ok () ↔ Q f) v.2) vs →
  branch check path tag unknown vs = Ok () ↔
  ∃ payload, find_first (λ v, v.1 = tag) vs = Some (tag, payload) ∧ Forall Q payload.
Proof.
  induction 1 as [|[t payload] vs Hv _ IH]; cbn [branch find_first]; [naive_solver|]. cbn [fst].
  case_decide as Ht; [|done]. subst t. rewrite (each_field_iff _ _ _ Q) by done. naive_solver.
Qed.

Lemma validate_field_path_iff fields f parent :
  validate_field_path fields f parent = Ok () ↔ conforms fields parent f.
Proof.
  revert parent. induction f as [n t fs vs Hfs Hvs] using SchemaField_nested_ind. intros parent.
  set (Q := conforms fields (child_path parent n)).
  assert (Forall (λ f, validate_field_path fields f (child_path parent n) = Ok () ↔ Q f) fs) as Hf.
  { eapply Forall_impl; [exact Hfs|]. auto. }
  assert (Forall (λ v, Forall (λ f, validate_field_path fields f (child_path parent n) = Ok () ↔ Q f) v.2) vs)
    as Hv.
  { eapply Forall_impl; [exact Hvs|]. intros v Hall. eapply Forall_impl; [exact Hall|]. auto. }
  cbn [validate_field_path]. destruct vs as [|v vs].
  - destruct fs as [|f fs].
    + case_decide as Hk; split; try done; [by intros _; constructor|].
      inversion 1; subst; [done|done|]. done.
    + rewrite (each_field_iff _ _ _ Q) by done. split; [by constructor|].
      inversion 1; subst; [done|]. done.
  - destruct (fields !! (child_path parent n +:+ ".$tag")) as [tag|] eqn:Htag.
    + rewrite (branch_iff _ _ _ _ _ Q) by done. split.
      * intros (payload & Hfind & Hall). by econstructor.
      * inversion 1; subst. simplify_eq. eauto.
    + split; [done|]. inversion 1; subst. congruence.
Qed.

(** Validation decides conformance.  A payload passes a schema exactly when
    the schema is empty, or the payload is UTF-8 text whose pairs hold a key
    for every leaf path, and for every variant a tag that names one of its
    branches together with the leaf paths of that branch. *)
Theorem validate_fields_iff payload required :
  validate_fields payload required = Ok () ↔
  required = [] ∨ ∃ fields, parse_fields payload = Ok fields ∧ Forall (conforms fields "") required.
Proof.
  unfold validate_fields. destruct required as [|f required]; [naive_solver|].
  destruct (parse_fields payload) as [fields|e].
  - rewrite (each_field_iff _ _ _ (conforms fields "")); [naive_solver|].
    apply Forall_forall. intros g _. apply validate_field_path_iff.
  - naive_solver.
Qed.
