(* ===== verification/RuntimeHost.v ===== *)
(** * The runtime host

    ail-runtime/src/host.rs: [RuntimeHost] admits modules
    ([validate_and_instantiate_with_packages]), dispatches the host's own
    capability calls ([call_capability]) and runs closures in a transaction
    ([execute_with_rollback], [execute_with_rollback_detail]).  One log of audit
    events is shared with the stores of the modules.  The closure of a
    transaction is a function on the host and the world. *)

From stdpp Require Import pretty.
From S2P Require Import Prelude Text ChangeModel ValueCodec Packages Profile RateLimits Dispatch Preflight Schema Transaction.
#[local] Open Scope N_scope.

Inductive AuditEvent : Type :=
| EventPreflightPassed (profile_name module_hash : string)
| EventPreflightFailed (profile_name : string) (denied : list CapabilityId) (reason : PreflightFailure)
| EventCallExecuted (e : CapabilityCallExecuted)
| EventTransactionLifecycle (record : TransactionAuditRecord).

Record RuntimeHost (W : Type) : Type := MkRuntimeHost {
  rh_engine : Engine W;
  rh_audit_log : list AuditEvent;
  rh_handlers : list (Handler W);
  rh_schema_registry : gmap string CapabilityDefinition;
  rh_current_profile : option RuntimeProfile;
  rh_current_module_name : option string;
  rh_current_trace_context : option TraceContext;
  rh_capability_calls_used : N;
  rh_revocations : CapabilityRevocationRegistry;
  rh_rate_limit_windows : Windows;
  rh_concurrent_calls : N;
  rh_call_depth : N;
}.
Arguments MkRuntimeHost {W}.
Arguments rh_engine {W}.
Arguments rh_audit_log {W}.
Arguments rh_handlers {W}.
Arguments rh_schema_registry {W}.
Arguments rh_current_profile {W}.
Arguments rh_current_module_name {W}.
Arguments rh_current_trace_context {W}.
Arguments rh_capability_calls_used {W}.
Arguments rh_revocations {W}.
Arguments rh_rate_limit_windows {W}.
Arguments rh_concurrent_calls {W}.
Arguments rh_call_depth {W}.

(** [transaction_lifecycle_event]: the record's fields, as strings *)
Definition transaction_lifecycle_event (record : TransactionAuditRecord) : AuditEvent :=
  EventTransactionLifecycle record.

Definition capability_denial_category_for_access (profile : option RuntimeProfile)
    (module : option string) (capability : CapabilityId) : string :=
  match profile with
  | None => "capability.ambient_access"
  | Some p =>
      match module with
      | None | Some "" => "capability.ambient_access"
      | Some _ =>
          if grants_capability_to_any_module p capability then "capability.profile_mismatch"
          else "capability.not_granted"
      end
  end.

Section Host.
Context `{HashBackend, ManifestCodec} {W : Type}.
#[local] Abbreviation Host := (RuntimeHost W).

Definition host_new (engine : Engine W) : Host :=
  MkRuntimeHost engine [] [] ∅ None None None 0 [] ∅ 0 0.

Definition with_handler (h : Handler W) (host : Host) : Host :=
  MkRuntimeHost (rh_engine host) (rh_audit_log host) (rh_handlers host ++ [h])
    (rh_schema_registry host) (rh_current_profile host) (rh_current_module_name host)
    (rh_current_trace_context host) (rh_capability_calls_used host) (rh_revocations host)
    (rh_rate_limit_windows host) (rh_concurrent_calls host) (rh_call_depth host).

Definition with_capability_definition (def : CapabilityDefinition) (host : Host) : Host :=
  MkRuntimeHost (rh_engine host) (rh_audit_log host) (rh_handlers host)
    (<[cd_capability def := def]> (rh_schema_registry host)) (rh_current_profile host)
    (rh_current_module_name host) (rh_current_trace_context host) (rh_capability_calls_used host)
    (rh_revocations host) (rh_rate_limit_windows host) (rh_concurrent_calls host) (rh_call_depth host).

Definition with_revocation_registry (registry : CapabilityRevocationRegistry) (host : Host) : Host :=
  MkRuntimeHost (rh_engine host) (rh_audit_log host) (rh_handlers host) (rh_schema_registry host)
    (rh_current_profile host) (rh_current_module_name host) (rh_current_trace_context host)
    (rh_capability_calls_used host) registry (rh_rate_limit_windows host)
    (rh_concurrent_calls host) (rh_call_depth host).

Definition revoke_capability (module capability profile : string) (policy : InFlightPolicy)
    (host : Host) : Host :=
  with_revocation_registry (revoke module capability profile policy (rh_revocations host)) host.

Definition set_trace_context (ctx : TraceContext) (host : Host) : Host :=
  MkRuntimeHost (rh_engine host) (rh_audit_log host) (rh_handlers host) (rh_schema_registry host)
    (rh_current_profile host) (rh_current_module_name host) (Some ctx)
    (rh_capability_calls_used host) (rh_revocations host) (rh_rate_limit_windows host)
    (rh_concurrent_calls host) (rh_call_depth host).

Definition append_log (events : list AuditEvent) (host : Host) : Host :=
  MkRuntimeHost (rh_engine host) (rh_audit_log host ++ events) (rh_handlers host)
    (rh_schema_registry host) (rh_current_profile host) (rh_current_module_name host)
    (rh_current_trace_context host) (rh_capability_calls_used host) (rh_revocations host)
    (rh_rate_limit_windows host) (rh_concurrent_calls host) (rh_call_depth host).

(* ------------------------------------------------------------------ *)
(** ** Admission *)

Definition build_audit_event (verdict : result unit RuntimeError) (profile : RuntimeProfile)
    (wasm : list N) : AuditEvent :=
  match verdict with
  | Ok _ => EventPreflightPassed (rp_name profile) (blake3_hex_of wasm)
  | Err err => let '(denied, reason) := failure_parts err in
               EventPreflightFailed (rp_name profile) denied reason
  end.

(** The instance is the state of its store; the events of a start function are
    in the log before the event of the preflight. *)
Definition validate_and_instantiate_with_packages (wasm : list N) (manifest : CapabilityManifest)
    (profile : RuntimeProfile) (packages : list PackageManifest) (now : N) (host : Host) (w : W)
  : Host * W * result (HostState W) RuntimeError :=
  let '(s, w', verdict) :=
    preflight_inner (rh_engine host) (rh_handlers host) (rh_revocations host) wasm manifest profile
      packages now w in
  let host1 := append_log ((EventCallExecuted <$> hs_audit_log s)
                           ++ [build_audit_event verdict profile wasm]) host in
  match verdict with
  | Ok _ =>
      (MkRuntimeHost (rh_engine host1) (rh_audit_log host1) (rh_handlers host1)
         (rh_schema_registry host1) (Some profile) (Some (cm_module manifest))
         (rh_current_trace_context host1) 0 (rh_revocations host1)
         (rh_rate_limit_windows host1) (rh_concurrent_calls host1) (rh_call_depth host1), w', Ok s)
  | Err err => (host1, w', Err err)
  end.

(* ------------------------------------------------------------------ *)
(** ** call_capability *)

Definition host_limits (host : Host) : ResourceLimits :=
  from_option rp_limits no_limits (rh_current_profile host).

Definition host_set_windows (windows : Windows) (host : Host) : Host :=
  MkRuntimeHost (rh_engine host) (rh_audit_log host) (rh_handlers host) (rh_schema_registry host)
    (rh_current_profile host) (rh_current_module_name host) (rh_current_trace_context host)
    (rh_capability_calls_used host) (rh_revocations host) windows
    (rh_concurrent_calls host) (rh_call_depth host).

Definition host_enter (host : Host) : Host :=
  MkRuntimeHost (rh_engine host) (rh_audit_log host) (rh_handlers host) (rh_schema_registry host)
    (rh_current_profile host) (rh_current_module_name host) (rh_current_trace_context host)
    (u64_add (rh_capability_calls_used host) 1) (rh_revocations host) (rh_rate_limit_windows host)
    (u64_add (rh_concurrent_calls host) 1) (u64_add (rh_call_depth host) 1).

Definition host_leave (host : Host) : Host :=
  MkRuntimeHost (rh_engine host) (rh_audit_log host) (rh_handlers host) (rh_schema_registry host)
    (rh_current_profile host) (rh_current_module_name host) (rh_current_trace_context host)
    (rh_capability_calls_used host) (rh_revocations host) (rh_rate_limit_windows host)
    (u64_dec (rh_concurrent_calls host)) (u64_dec (rh_call_depth host)).

Definition host_event (clock : CallClock) (host : Host) (cap operation : string) (payload : list N)
    (handler_name : string) (succeeded : bool) (output_hash category : option string) : AuditEvent :=
  let child := trace_child (cc_span_id clock) <$> rh_current_trace_context host in
  EventCallExecuted (MkCapabilityCallExecuted cap operation handler_name succeeded
    (cc_duration_us clock) (cc_timestamp clock)
    (rp_name <$> rh_current_profile host) (rh_current_module_name host) None
    (Some (blake3_hex_of payload)) output_hash (tc_trace_id <$> child)
    (rp_verification_report_hash <$> rh_current_profile host) child category).

Definition limit_message (what : string) (limit : option N) (rest : string) : HostError :=
  LimitExceeded (what +:+ (" exceeded: limit=" +:+ (from_option pretty "" limit +:+ rest))).

(** The checks before the counters move: the error and the category, if any. *)
Definition host_admit (clock : CallClock) (cap : CapabilityId) (payload : list N) (host : Host)
  : Host * option (HostError * string) :=
  let module := default "" (rh_current_module_name host) in
  let limits := host_limits host in
  let payload_len := N.of_nat (length payload) in
  if negb (from_option (λ p, grants_capability p module cap) false (rh_current_profile host)) then
    (host, Some (CapabilityDenied cap,
                 capability_denial_category_for_access (rh_current_profile host)
                   (rh_current_module_name host) cap))
  else if from_option (λ p, is_revoked module cap (rp_name p) (rh_revocations host)) false
            (rh_current_profile host) then
    (host, Some (CapabilityDenied cap, "capability.revoked"))
  else if exceeds (payload_size_limit limits) payload_len then
    (host, Some (limit_message "payload_size_limit" (payload_size_limit limits)
                   (", actual=" +:+ pretty payload_len), "limit.payload_size"))
  else if reaches (max_capability_calls limits) (rh_capability_calls_used host) then
    (host, Some (limit_message "max_capability_calls" (max_capability_calls limits)
                   (", used=" +:+ pretty (rh_capability_calls_used host)), "limit.max_capability_calls"))
  else
    let '(allowed, windows) := check_rate_limits (default [] (rate_limits limits))
                                 (cc_now_nanos clock) (rh_rate_limit_windows host) cap in
    let host := host_set_windows windows host in
    if negb allowed then
      (host, Some (LimitExceeded ("rate_limit exceeded for capability `" +:+ (cap +:+ "`")), "limit.rate"))
    else if reaches (concurrency_limit limits) (rh_concurrent_calls host) then
      (host, Some (limit_message "concurrency_limit" (concurrency_limit limits)
                     (", in_flight=" +:+ pretty (rh_concurrent_calls host)), "limit.concurrency"))
    else if reaches (recursion_stack_limit limits) (rh_call_depth host) then
      (host, Some (limit_message "recursion_stack_limit" (recursion_stack_limit limits)
                     (", depth=" +:+ pretty (rh_call_depth host)), "limit.recursion_depth"))
    else (host, None).

(** [SchemaValidationError::message] *)
Definition schema_message (e : SchemaValidationError) : string :=
  match e with
  | Mismatch d =>
      "SchemaMismatch: key=" +:+ (sm_key d +:+ (" category=" +:+ (sm_category d
        +:+ (" expected_shape=" +:+ (sm_expected_shape d +:+ (" actual_shape=" +:+ sm_actual_shape d))))))
  | BytesOutputError msg => msg
  end.

(** Step 5 on a response, by the layout the output schema declares. *)
Definition check_output (def : CapabilityDefinition) (response : list N)
  : result unit SchemaValidationError :=
  let output := cs_output (cd_schema def) in
  match declared_value_layout output with
  | Some LayoutBytes => let? _ := validate_bytes_response output response in Ok ()
  | _ => validate_fields response output
  end.

(** Steps 4 and 5: the result and the runtime's denial category. *)
Definition settle (host : Host) (cap : CapabilityId) (response : result (list N) HostError)
  : result (list N) HostError * option string :=
  match response with
  | Err err => (Err err, None)
  | Ok bytes =>
      if exceeds (output_size_limit (host_limits host)) (N.of_nat (length bytes)) then
        (Err (limit_message "output_size_limit" (output_size_limit (host_limits host)) ""),
         Some "limit.output_size")
      else match rh_schema_registry host !! cap with
      | None => (Ok bytes, None)
      | Some def =>
          match check_output def bytes with
          | Ok _ => (Ok bytes, None)
          | Err e =>
              (Err (ContractViolation ("schema validation failed for `" +:+
                      (cap +:+ ("` response: " +:+ schema_message e)))), Some "schema.output")
          end
      end
  end.

Definition call_capability (clock : CallClock) (cap : CapabilityId) (operation : string)
    (payload : list N) (host : Host) (w : W) : Host * W * result (list N) HostError :=
  let event := host_event clock host cap operation payload in
  let '(host1, denial) := host_admit clock cap payload host in
  match denial with
  | Some (err, category) => (append_log [event "none" false None (Some category)] host1, w, Err err)
  | None =>
    let host2 := host_enter host1 in
    let refuse err category :=
      (append_log [event "none" false None (Some category)] (host_leave host2), w, Err err) in
    match (def ← rh_schema_registry host2 !! cap;
           match validate_fields payload (cs_input (cd_schema def)) with
           | Err e => Some e
           | Ok _ => None
           end) with
    | Some e =>
        refuse (PayloadDecodeError ("schema validation failed for `" +:+
                  (cap +:+ ("`: " +:+ schema_message e)))) "schema.input"
    | None =>
      match find_first (λ h, cap ∈ h_capabilities h) (rh_handlers host2) with
      | None => refuse (HandlerNotBound cap) "handler.not_bound"
      | Some h =>
        let '(w', response) := h_handle h cap operation payload w in
        let '(outcome, runtime_category) := settle host2 cap response in
        match outcome with
        | Ok bytes =>
            (append_log [event (h_name h) true (Some (blake3_hex_of bytes)) runtime_category]
               (host_leave host2), w', Ok bytes)
        | Err err =>
            let category := match audit_category err with
                            | Some c => Some c
                            | None => runtime_category
                            end in
            (append_log [event (h_name h) false None category] (host_leave host2), w',
             Err (into_opaque_denial err))
        end
      end
    end
  end.

(* ------------------------------------------------------------------ *)
(** ** Transactions *)

Definition execute_with_rollback_detail {T} (f : Host → W → Host * W * result T HostError)
    (tx : TransactionGroup) (host : Host) (w : W)
  : Host * W * TransactionGroup * (result T HostError * list CapabilityId) :=
  let '(host1, w', outcome) := f host w in
  match outcome with
  | Ok val =>
      let '(tx', audit) := commit_with_audit tx in
      (append_log [transaction_lifecycle_event audit] host1, w', tx', (Ok val, []))
  | Err err =>
      let '(tx', (non_rollbackable, audit)) := rollback_with_audit tx in
      (append_log [transaction_lifecycle_event audit] host1, w', tx', (Err err, non_rollbackable))
  end.

Definition execute_with_rollback {T} (f : Host → W → Host * W * result T HostError)
    (tx : TransactionGroup) (host : Host) (w : W)
  : Host * W * TransactionGroup * result T HostError :=
  let '(host1, w', outcome) := f host w in
  match outcome with
  | Ok val =>
      let '(tx', audit) := commit_with_audit tx in
      (append_log [transaction_lifecycle_event audit] host1, w', tx', Ok val)
  | Err err =>
      let '(tx', (_, audit)) := rollback_with_audit tx in
      (append_log [transaction_lifecycle_event audit] host1, w', tx', Err err)
  end.

(* ------------------------------------------------------------------ *)
(** ** A host with one instance

    The registry of revocations and the audit log are shared between a host and
    its instances: before a guest call the store sees the registry of the host,
    and its event goes to the host's log. *)

Definition see_revocations (records : CapabilityRevocationRegistry) (s : HostState W) : HostState W :=
  MkHostState (hs_handlers s) (hs_profile s) (hs_module_name s) [] (hs_diagnostics s)
    (hs_trace_context s) (hs_capability_calls_used s) records (hs_rate_limit_windows s)
    (hs_concurrent_calls s) (hs_call_depth s).

Inductive SystemOp : Type :=
| OpGuestCall (g : GuestCall)
| OpHostCall (clock : CallClock) (cap : CapabilityId) (operation : string) (payload : list N)
| OpRevoke (module capability profile : string) (policy : InFlightPolicy)
| OpTrace (ctx : TraceContext).

Definition system_step (op : SystemOp) (st : Host * HostState W * W) : Host * HostState W * W :=
  let '(host, s, w) := st in
  match op with
  | OpGuestCall g =>
      let '(s', w') := host_step g (see_revocations (rh_revocations host) s) w in
      (append_log (EventCallExecuted <$> hs_audit_log s') host, s', w')
  | OpHostCall clock cap operation payload =>
      let '(host', w', _) := call_capability clock cap operation payload host w in (host', s, w')
  | OpRevoke module capability profile policy =>
      (revoke_capability module capability profile policy host, s, w)
  | OpTrace ctx => (set_trace_context ctx host, s, w)
  end.

Fixpoint system_run (ops : list SystemOp) (st : Host * HostState W * W) : Host * HostState W * W :=
  match ops with [] => st | op :: ops' => system_run ops' (system_step op st) end.
End Host.

(* ------------------------------------------------------------------ *)
(** ** The two gates *)

Section HostFacts.
Context `{HashBackend, ManifestCodec} {W : Type}.
Implicit Types (host : RuntimeHost W).

(** A host and a store that see the same profile, registry and counters. *)
Definition same_view host (s : HostState W) : Prop :=
  rh_current_profile host = Some (hs_profile s) ∧
  rh_current_module_name host = Some (hs_module_name s) ∧ hs_module_name s ≠ "" ∧
  rh_revocations host = hs_revocations s ∧
  rh_rate_limit_windows host = hs_rate_limit_windows s ∧
  rh_capability_calls_used host = hs_capability_calls_used s ∧
  rh_concurrent_calls host = hs_concurrent_calls s ∧ rh_call_depth host = hs_call_depth s.

(** The two gates agree.  On the same profile, registry, windows and
    counters, [call_capability] and the dispatcher of the guest's calls admit
    the same calls, refuse the others with the same category and count the call
    in the same windows; only [log.write], whose payload the guest passes by
    pointer, is measured differently. *)
Theorem gates_agree clock (call : HostCall) host s
    (Hview : same_view host s)
    (Hlog : ¬ (hc_capability call = "log.write" ∧ hc_operation call = "write")) :
  let '(host', denial) := host_admit clock (hc_capability call) (hc_args_bytes call) host in
  let '(s', category) := admit_call clock call s in
  snd <$> denial = category ∧ same_view host' s'.
Proof.
  destruct Hview as (Hp & Hm & Hne & Hr & Hw & Hu & Hc & Hd).
  assert (∀ windows, same_view (host_set_windows windows host) (set_windows windows s)) as Hview'
    by (by intros windows).
  assert (same_view host s) as Hview by done.
  unfold host_admit, admit_call, host_limits, args_len_u64, log_write_text_limit.
  rewrite (decide_False _ _ Hlog), Hp, Hm, Hr, Hw, Hu, (bool_decide_true (None = None)) by done.
  cbn [from_option default andb]. unfold default. cbn [from_option].
  destruct (grants_capability _ _ _); cbn [negb].
  2:{ split; [|done]. cbn. by destruct (hs_module_name s). }
  destruct (is_revoked _ _ _ _); [done|]. destruct (exceeds _ _); [done|].
  destruct (reaches (max_capability_calls _) _); [done|].
  destruct (check_rate_limits _ _ _ _) as [[] windows]; cbn [negb]; [|by split].
  cbn [rh_concurrent_calls host_set_windows hs_concurrent_calls set_windows rh_call_depth hs_call_depth].
  rewrite Hc, Hd. destruct (reaches (concurrency_limit _) _); [by split|].
  destruct (reaches (recursion_stack_limit _) _); by split.
Qed.

Lemma host_admit_frame clock cap payload host :
  ∃ windows, (host_admit clock cap payload host).1 = host_set_windows windows host.
Proof.
  assert (host = host_set_windows (rh_rate_limit_windows host) host) as Hs by by destruct host.
  unfold host_admit. destruct (check_rate_limits _ _ _ _) as [allowed windows].
  repeat case_match; cbn; eauto.
Qed.

(** The access [host] has to a capability: granted to its module by its profile
    and not revoked. *)
Definition accessible host (cap : CapabilityId) : Prop :=
  ∃ p, rh_current_profile host = Some p ∧
    MkCapabilityGrant (default "" (rh_current_module_name host)) cap ∈ rp_grants p ∧
    is_revoked (default "" (rh_current_module_name host)) cap (rp_name p) (rh_revocations host) = false.

Lemma host_admit_accessible clock cap payload host :
  (host_admit clock cap payload host).2 = None → accessible host cap.
Proof.
  unfold host_admit, accessible. destruct (rh_current_profile host) as [p|]; cbn [from_option]; [|done].
  destruct (grants_capability _ _ _) eqn:Hg; cbn [negb]; [|done].
  destruct (is_revoked _ _ _ _) eqn:Hr; [done|]. intros _. exists p.
  split; [done|]. split; [|done]. by apply grants_capability_iff.
Qed.

Lemma host_admit_opaque clock cap payload host err category message category' :
  (host_admit clock cap payload host).2 = Some (err, category) →
  err ≠ CapabilityDeniedCategorized message category'.
Proof.
  unfold host_admit, limit_message. destruct (check_rate_limits _ _ _ _) as [allowed windows].
  repeat case_match; cbn; intros; simplify_eq; done.
Qed.

Lemma settle_Err host cap response outcome runtime_category bytes :
  settle host cap response = (outcome, runtime_category) → outcome = Ok bytes → runtime_category = None.
Proof. unfold settle. repeat case_match; intros; by simplify_eq. Qed.

(** The payload satisfies the input schema registered for the capability. *)
Definition input_ok host (cap : CapabilityId) (payload : list N) : Prop :=
  ∀ def, rh_schema_registry host !! cap = Some def →
    validate_fields payload (cs_input (cd_schema def)) = Ok ().

Definition host_counters_u64 host : Prop :=
  rh_concurrent_calls host < u64_modulus ∧ rh_call_depth host < u64_modulus.

(** What one call does to the host, whatever its outcome. *)
Definition call_frame host (host' : RuntimeHost W) : Prop :=
  rh_handlers host' = rh_handlers host ∧ rh_revocations host' = rh_revocations host ∧
  rh_current_profile host' = rh_current_profile host ∧
  rh_current_module_name host' = rh_current_module_name host ∧
  rh_schema_registry host' = rh_schema_registry host ∧
  (host_counters_u64 host →
   rh_concurrent_calls host' = rh_concurrent_calls host ∧ rh_call_depth host' = rh_call_depth host).

(** What a call does, on every path. *)
Lemma call_capability_facts clock cap operation payload host (w : W) :
  let '(host', w', answer) := call_capability clock cap operation payload host w in
  (∃ e, rh_audit_log host' = rh_audit_log host ++ [EventCallExecuted e] ∧
     ae_capability e = cap ∧ ae_succeeded e = is_ok answer ∧
     (is_ok answer = true → ae_denial_category e = None) ∧
     ae_input_hash e = Some (blake3_hex_of payload)) ∧
  call_frame host host' ∧
  (∀ message category, answer ≠ Err (CapabilityDeniedCategorized message category)) ∧
  (w' = w ∧ is_ok answer = false ∨
   accessible host cap ∧ input_ok host cap payload ∧
   ∃ h, find_first (λ h, cap ∈ h_capabilities h) (rh_handlers host) = Some h ∧
     w' = (h_handle h cap operation payload w).1).
Proof.
  unfold call_capability. destruct (host_admit_frame clock cap payload host) as [windows Hf].
  pose proof (host_admit_accessible clock cap payload host) as Hacc.
  destruct (host_admit clock cap payload host) as [host1 [[err category]|]] eqn:Ha;
    cbn [fst snd] in Hf, Hacc; subst host1.
  { split; [by eexists|]. split; [done|]. split.
    - intros message category' [= ->]. eapply host_admit_opaque; [by rewrite Ha|done].
    - by left. }
  specialize (Hacc eq_refl). cbn zeta.
  assert (call_frame host (host_leave (host_enter (host_set_windows windows host)))) as Hframe.
  { repeat split. all: cbn; apply u64_dec_add; by destruct H1. }
  destruct (mbind _ _) as [e|] eqn:Hin.
  { split; [by eexists|]. split; [done|]. split; [done|]. by left. }
  assert (input_ok host cap payload) as Hok.
  { intros def Hdef. cbn in Hin. rewrite Hdef in Hin. cbn in Hin.
    destruct (validate_fields payload (cs_input (cd_schema def))) as [[]|e]; done. }
  clear Hin. cbn [rh_handlers host_enter host_set_windows].
  destruct (find_first _ (rh_handlers host)) as [h|] eqn:Hh.
  2:{ split; [by eexists|]. split; [done|]. split; [done|]. by left. }
  destruct (h_handle h cap operation payload w) as [w' response] eqn:Hw.
  destruct (settle _ cap response) as [outcome runtime_category] eqn:Hs.
  destruct outcome as [bytes|err].
  - rewrite (settle_Err _ _ _ _ _ bytes Hs eq_refl). split; [by eexists|]. split; [done|].
    split; [done|]. right. split; [done|]. split; [done|]. exists h. by rewrite Hw.
  - split; [by eexists|]. split; [done|]. split; [by destruct err|].
    right. split; [done|]. split; [done|]. exists h. by rewrite Hw.
Qed.

(** The host's own calls.  Every call of [call_capability] appends exactly
    one event, which succeeded exactly when the caller got an answer, and leaves
    profile, handlers, registry and in-flight counters as they were; the caller
    never sees an audit category; and either the call was refused and the world
    is as it was, or the capability was granted and not revoked, the payload
    passed its input schema and the first handler registered for it has run. *)
Theorem host_call_spec clock cap operation payload host (w : W) :
  let '(host', w', answer) := call_capability clock cap operation payload host w in
  (∃ e, rh_audit_log host' = rh_audit_log host ++ [EventCallExecuted e] ∧
     ae_capability e = cap ∧ ae_succeeded e = is_ok answer ∧
     (is_ok answer = true → ae_denial_category e = None) ∧
     ae_input_hash e = Some (blake3_hex_of payload)) ∧
  call_frame host host' ∧
  (∀ message category, answer ≠ Err (CapabilityDeniedCategorized message category)) ∧
  (w' = w ∧ is_ok answer = false ∨
   accessible host cap ∧ input_ok host cap payload ∧
   ∃ h, find_first (λ h, cap ∈ h_capabilities h) (rh_handlers host) = Some h ∧
     w' = (h_handle h cap operation payload w).1).
Proof. apply call_capability_facts. Qed.

Lemma is_revoked_elem r (records : CapabilityRevocationRegistry) :
  r ∈ records → is_revoked (rr_module r) (rr_capability r) (rr_profile r) records = true.
Proof. intros Hr. apply any_true. by exists r. Qed.

(** The registry only grows, and the configuration of host and store stays. *)
Definition keeps (st st' : RuntimeHost W * HostState W * W) : Prop :=
  let '(host, s, _) := st in
  let '(host', s', _) := st' in
  rh_revocations host ⊆ rh_revocations host' ∧
  rh_current_profile host' = rh_current_profile host ∧
  rh_current_module_name host' = rh_current_module_name host ∧
  hs_profile s' = hs_profile s ∧ hs_module_name s' = hs_module_name s.

Lemma system_step_keeps op st : keeps st (system_step op st).
Proof.
  destruct st as [[host s] w]. destruct op as [g|clock cap operation payload|m c p policy|ctx]; cbn [system_step].
  - pose proof (sv_config _ _ _ _ _ (host_step_view g (see_revocations (rh_revocations host) s) w))
      as (_ & Hp & Hm & _).
    destruct (host_step g _ w) as [s' w']. cbn in *. by repeat split.
  - pose proof (call_capability_facts clock cap operation payload host w) as Hf.
    destruct (call_capability clock cap operation payload host w) as [[host' w'] answer].
    destruct Hf as (_ & (_ & Hr & Hp & Hm & _) & _). cbn. rewrite Hr. by repeat split.
  - cbn. repeat split; try done. unfold revoke. set_solver.
  - by cbn; repeat split.
Qed.

Lemma system_run_keeps ops st : keeps st (system_run ops st).
Proof.
  revert st. induction ops as [|op ops IH]; intros st; cbn [system_run].
  { destruct st as [[host s] w]. by repeat split. }
  pose proof (system_step_keeps op st) as H1. specialize (IH (system_step op st)).
  destruct st as [[host s] w], (system_step op (host, s, w)) as [[host1 s1] w1],
    (system_run ops _) as [[host2 s2] w2]. cbn in *.
  destruct H1 as (? & ? & ? & ? & ?), IH as (? & ? & ? & ? & ?).
  split; [set_solver|]. repeat split; congruence.
Qed.

(** C27: a revocation is final.  Once a capability is revoked for a module in a
    profile, then after any interleaving of guest calls, host calls, further
    revocations and trace changes, no guest call and no host call for it
    reaches the world any more. *)
Theorem revocation_is_final ops module cap profile policy host s (w : W) :
  let '(host', s', w') := system_run ops (revoke_capability module cap profile policy host, s, w) in
  (hs_module_name s = module → rp_name (hs_profile s) = profile →
   ∀ g call, gc_read g = Ok call → hc_capability call = cap →
     (system_step (OpGuestCall g) (host', s', w')).2 = w') ∧
  (rh_current_module_name host = Some module → rp_name <$> rh_current_profile host = Some profile →
   ∀ clock operation payload,
     (system_step (OpHostCall clock cap operation payload) (host', s', w')).2 = w').
Proof.
  pose proof (system_run_keeps ops (revoke_capability module cap profile policy host, s, w)) as Hk.
  destruct (system_run ops _) as [[host' s'] w']. destruct Hk as (Hr & Hp & Hm & Hsp & Hsm). cbn in Hp, Hm.
  assert (is_revoked module cap profile (rh_revocations host') = true) as Hrev.
  { apply (is_revoked_elem (MkRevocationRecord module cap profile policy)), Hr. cbn. unfold revoke. set_solver. }
  split.
  - intros <- <- g call Hread <-. cbn [system_step].
    pose proof (sv_world _ _ _ _ _ (host_step_view g (see_revocations (rh_revocations host') s') w')) as Hw.
    destruct (host_step g _ w') as [s2 w2]. cbn in Hw |- *.
    destruct Hw as [[-> _]|[(call' & h & payload & Hread' & (_ & Hnr & _) & _) _]]; [done|].
    rewrite Hread in Hread'. injection Hread' as <-. cbn in Hnr. rewrite Hsm, Hsp in Hnr. congruence.
  - intros Hmod Hprof clock operation payload. cbn [system_step].
    pose proof (call_capability_facts clock cap operation payload host' w') as Hw.
    destruct (call_capability clock cap operation payload host' w') as [[host2 w2] answer].
    destruct Hw as (_ & _ & _ & Hw).
    cbn. destruct Hw as [[-> _]|[(p & Hpp & _ & Hnr) _]]; [done|].
    rewrite Hp in Hpp. rewrite Hm, Hmod in Hnr. rewrite Hpp in Hprof. injection Hprof as <-.
    cbn in Hnr. congruence.
Qed.

(** The transaction follows the closure: its verdict is committed or rolled back
    once, and one event follows those of the closure. *)
Lemma transaction_follows_outcome {T} (f : RuntimeHost W → W → RuntimeHost W * W * result T HostError)
    tx host (w : W) :
  let '(host1, w1, answer) := f host w in
  let '(host', w', tx', (outcome, owed)) := execute_with_rollback_detail f tx host w in
  outcome = answer ∧ w' = w1 ∧ length (rh_audit_log host') = S (length (rh_audit_log host1)) ∧
  (tg_status tx = Pending → tg_status tx' = if is_ok answer then Committed else RolledBack) ∧
  (tg_status tx ≠ Pending → tx' = tx) ∧ (is_ok answer = true → owed = []).
Proof.
  unfold execute_with_rollback_detail, commit_with_audit, rollback_with_audit, commit, rollback.
  destruct (f host w) as [[host1 w1] [val|err]]; repeat case_decide; cbn;
    rewrite length_app; cbn; repeat split; try done; try lia; try congruence.
Qed.
End HostFacts.

(* ------------------------------------------------------------------ *)
(** ** A concrete host *)

Module HostSample.
#[local] Instance no_hash : HashBackend := { blake3 _ := []; cbor_node _ := []; cbor_op _ := [] }.

Definition host : RuntimeHost N :=
  MkRuntimeHost PreflightSample.engine [] [SampleStore.counter] ∅ (Some (SampleStore.profile no_limits))
    (Some "shop") None 0 [] ∅ 0 0.

Lemma gates_agree_witness :
  (host_admit (MkCallClock 0 0 0 "") "net" [] host).2 = Some (CapabilityDenied "net", "capability.not_granted") ∧
  (admit_call (MkCallClock 0 0 0 "") (MkHostCall "net" "get" []) (SampleStore.store no_limits)).2
    = Some "capability.not_granted".
Proof.
  split; [by vm_compute|].
  pose proof (gates_agree (MkCallClock 0 0 0 "") (MkHostCall "net" "get" []) host
                (SampleStore.store no_limits)) as Hg.
  destruct (host_admit (MkCallClock 0 0 0 "") _ _ host) as [host' denial] eqn:E.
  destruct (admit_call _ _ _) as [s' category]. destruct Hg as [Hc _].
  - by vm_compute.
  - by intros [? _].
  - cbn. rewrite <- Hc. vm_compute in E. by injection E as <- <-.
Defined.
End HostSample.
