(* ===== verification/Storage.v ===== *)
(** * Storage: content-addressed objects, snapshots, branches, tags, tombstones

    crate ail-storage: object.rs and backends/memory.rs (the object store),
    graph.rs ([ObjectBackedGraphStore]), branch.rs, tag.rs, tombstone.rs.  The
    trait [ObjectStore] with its extensions is a class of operations; its
    contract is the class [ObjectStoreLaws], the in-memory store an instance,
    and the stores built on top are verified against the class.  The async
    methods take their locks for one operation at a time; each is one step.

    CBOR is the class [StorageCodec].  [HashMap] iteration has no specified
    order: it is [hash_iter], any permutation of the entries, so that what is
    proved holds in every order. *)

From S2P Require Import Prelude Text ChangeModel Remote.

Inductive StorageError : Type :=
| CodecError (msg : string)
| NotFound
| Io
| Postgres.

Record ChangeSetLogEntry : Type := MkChangeSetLogEntry {
  cl_id : ObjectId;
  cl_base_snapshot_id : ObjectId;
  cl_payload_hash : ObjectId;
  cl_created_at : N;
}.

Record Tombstone : Type := MkTombstone {
  ts_deleted_by : ObjectId;
  ts_replacement : option ObjectId;
  ts_timestamp : N;
}.

(** [CborCodec] at the types the stores use. *)
Class StorageCodec : Type := {
  encode_snapshot : SnapshotEnvelope → result (list N) StorageError;
  decode_snapshot : list N → result SnapshotEnvelope StorageError;
  encode_log_entry : ChangeSetLogEntry → result (list N) StorageError;
  encode_tombstone : Tombstone → result (list N) StorageError;
  decode_tombstone : list N → result Tombstone StorageError;
}.

(** Encoding then decoding gives the value back. *)
Class StorageCodecLaws `{StorageCodec} : Prop := {
  snapshot_roundtrip : ∀ v bytes, encode_snapshot v = Ok bytes → decode_snapshot bytes = Ok v;
  tombstone_roundtrip : ∀ v bytes, encode_tombstone v = Ok bytes → decode_tombstone bytes = Ok v;
}.

(** The iteration order of a [HashMap], which may differ from run to run. *)
Class HashOrder : Type := {
  hash_iter : ∀ {V}, gmap ObjectId V → list (ObjectId * V);
  hash_iter_perm : ∀ V (m : gmap ObjectId V), hash_iter m ≡ₚ map_to_list m;
}.

(* ------------------------------------------------------------------ *)
(** ** The object store *)

(** [ObjectStore], [EnumerableObjectStore] and [MutableObjectStore] *)
Class ObjectStore (S : Type) : Type := {
  put : list N → S → result (ObjectId * S) StorageError;
  get : ObjectId → S → result (option (list N)) StorageError;
  exists_object : ObjectId → S → result bool StorageError;
  list_object_ids : S → result (list ObjectId) StorageError;
  delete_object : ObjectId → S → result (option N * S) StorageError;
}.

(** What the traits promise: [contents] is the map from identifiers to bytes. *)
Class ObjectStoreLaws (S : Type) `{HashBackend, ObjectStore S} : Type := {
  contents : S → gmap ObjectId (list N);
  put_law : ∀ bytes s, ∃ s', put bytes s = Ok (object_id_from_bytes bytes, s') ∧
    contents s' = match contents s !! object_id_from_bytes bytes with
                  | Some _ => contents s
                  | None => <[object_id_from_bytes bytes := bytes]> (contents s)
                  end;
  get_law : ∀ id s, get id s = Ok (contents s !! id);
  exists_law : ∀ id s, exists_object id s = Ok (bool_decide (is_Some (contents s !! id)));
  list_law : ∀ s, ∃ ids, list_object_ids s = Ok ids ∧ ids ≡ₚ elements (dom (contents s));
  delete_law : ∀ id s, ∃ s', delete_object id s = Ok (N.of_nat ∘ length <$> contents s !! id, s') ∧
    contents s' = delete id (contents s);
}.

(** [MemoryObjectStore] *)
Definition MemoryObjectStore : Type := gmap ObjectId (list N).

Definition memory_put `{HashBackend} (bytes : list N) (s : MemoryObjectStore)
  : ObjectId * MemoryObjectStore :=
  let id := object_id_from_bytes bytes in
  (id, match s !! id with Some _ => s | None => <[id := bytes]> s end).

#[global] Instance memory_object_store `{HashBackend, HashOrder} : ObjectStore MemoryObjectStore := {
  put bytes s := Ok (memory_put bytes s);
  get id s := Ok ((s : gmap ObjectId (list N)) !! id);
  exists_object id s := Ok (bool_decide (is_Some ((s : gmap ObjectId (list N)) !! id)));
  list_object_ids s := Ok (hash_iter s).*1;
  delete_object id s :=
    Ok (N.of_nat ∘ length <$> (s : gmap ObjectId (list N)) !! id, delete id (s : gmap ObjectId (list N)));
}.

(* ------------------------------------------------------------------ *)
(** ** Snapshots (graph.rs) *)

Record ObjectBackedGraphStore (S : Type) : Type := MkGraphStore {
  gs_store : S;
  gs_snapshot_index : gmap ObjectId ObjectId;
}.
Arguments MkGraphStore {S}.
Arguments gs_store {S}.
Arguments gs_snapshot_index {S}.

Section GraphStore.
Context `{HashBackend, StorageCodec, HashOrder} {S : Type} `{ObjectStore S}.
#[local] Abbreviation G := (ObjectBackedGraphStore S).

Definition graph_store_new (store : S) : G := MkGraphStore store ∅.

Definition save_snapshot (value : SnapshotEnvelope) (g : G) : result (ObjectId * G) StorageError :=
  let? bytes := encode_snapshot value in
  let? (cas_id, store) := put bytes (gs_store g) in
  Ok (se_id value, MkGraphStore store (<[se_id value := cas_id]> (gs_snapshot_index g))).

Definition load_snapshot (id : ObjectId) (g : G) : result (option SnapshotEnvelope) StorageError :=
  match gs_snapshot_index g !! id with
  | None => Ok None
  | Some cas_id =>
      let? raw := get cas_id (gs_store g) in
      match raw with
      | None => Ok None
      | Some raw => let? snap := decode_snapshot raw in Ok (Some snap)
      end
  end.

Definition append_changeset_log (entry : ChangeSetLogEntry) (g : G)
  : result (ObjectId * G) StorageError :=
  let? bytes := encode_log_entry entry in
  let? (cas_id, store) := put bytes (gs_store g) in
  Ok (cas_id, MkGraphStore store (gs_snapshot_index g)).

(** The loop of [list_snapshots] over the index. *)
Fixpoint load_indexed (pairs : list (ObjectId * ObjectId)) (store : S)
  : result (list SnapshotEnvelope) StorageError :=
  match pairs with
  | [] => Ok []
  | (_, cas_id) :: pairs' =>
      let? raw := get cas_id store in
      match raw with
      | None => Err NotFound
      | Some raw =>
          let? snap := decode_snapshot raw in
          let? rest := load_indexed pairs' store in
          Ok (snap :: rest)
      end
  end.

Definition list_snapshots (g : G) : result (list SnapshotEnvelope) StorageError :=
  load_indexed (hash_iter (gs_snapshot_index g)) (gs_store g).

(** [remove_snapshot_from_index], which is [delete_snapshot] of the trait
    [MutableGraphStore]: the bytes stay in the object store. *)
Definition delete_snapshot (id : ObjectId) (g : G) : G :=
  MkGraphStore (gs_store g) (delete id (gs_snapshot_index g)).
End GraphStore.

(* ------------------------------------------------------------------ *)
(** ** Tombstones (tombstone.rs) *)

Record ObjectBackedTombstoneStore (S : Type) : Type := MkTombstoneStore {
  tb_store : S;
  tb_index : gmap ObjectId ObjectId;
}.
Arguments MkTombstoneStore {S}.
Arguments tb_store {S}.
Arguments tb_index {S}.

Section TombstoneStore.
Context `{HashBackend, StorageCodec, HashOrder} {S : Type} `{ObjectStore S}.

Definition write_tombstone (deleted_id : ObjectId) (tombstone : Tombstone)
    (t : ObjectBackedTombstoneStore S) : result (ObjectId * ObjectBackedTombstoneStore S) StorageError :=
  let? bytes := encode_tombstone tombstone in
  let? (cas_id, store) := put bytes (tb_store t) in
  Ok (cas_id, MkTombstoneStore store (<[deleted_id := cas_id]> (tb_index t))).

Definition read_tombstone (deleted_id : ObjectId) (t : ObjectBackedTombstoneStore S)
  : result (option Tombstone) StorageError :=
  match tb_index t !! deleted_id with
  | None => Ok None
  | Some cas_id =>
      let? raw := get cas_id (tb_store t) in
      match raw with
      | None => Ok None
      | Some raw => let? tombstone := decode_tombstone raw in Ok (Some tombstone)
      end
  end.

Fixpoint load_tombstones (pairs : list (ObjectId * ObjectId)) (store : S)
  : result (list (ObjectId * Tombstone)) StorageError :=
  match pairs with
  | [] => Ok []
  | (deleted_id, cas_id) :: pairs' =>
      let? raw := get cas_id store in
      match raw with
      | None => load_tombstones pairs' store
      | Some raw =>
          let? tombstone := decode_tombstone raw in
          let? rest := load_tombstones pairs' store in
          Ok ((deleted_id, tombstone) :: rest)
      end
  end.

Definition list_tombstones (t : ObjectBackedTombstoneStore S)
  : result (list (ObjectId * Tombstone)) StorageError :=
  load_tombstones (hash_iter (tb_index t)) (tb_store t).
End TombstoneStore.

(* ------------------------------------------------------------------ *)
(** ** Branches and tags (branch.rs, tag.rs) *)

Record Branch : Type := MkBranch {
  br_name : string;
  br_target_snapshot_id : ObjectId;
  br_created_at : N;
}.

Definition BranchRegistry : Type := gmap string Branch.

(** Order by creation time, ties by name; names are unique in a registry. *)
Definition created_le {A} (created : A → N) (name : A → string) (a b : A) : Prop :=
  (created a < created b)%N ∨ (created a = created b ∧ String.le (name a) (name b)).
#[global] Instance created_le_dec {A} (created : A → N) (name : A → string) a b :
  Decision (created_le created name a b).
Proof. unfold created_le. apply _. Defined.

Definition create_branch (name : string) (target : ObjectId) (created_at : N)
    (r : BranchRegistry) : result (Branch * BranchRegistry) StorageError :=
  match (r : gmap string Branch) !! name with
  | Some _ => Err (CodecError ("branch '" +:+ (name +:+ "' already exists")))
  | None =>
      let branch := MkBranch name target created_at in
      Ok (branch, <[name := branch]> (r : gmap string Branch))
  end.

Definition get_branch (name : string) (r : BranchRegistry) : option Branch :=
  (r : gmap string Branch) !! name.

Definition update_branch (name : string) (target : ObjectId) (r : BranchRegistry)
  : result (Branch * BranchRegistry) StorageError :=
  match (r : gmap string Branch) !! name with
  | None => Err NotFound
  | Some branch =>
      let branch' := MkBranch (br_name branch) target (br_created_at branch) in
      Ok (branch', <[name := branch']> (r : gmap string Branch))
  end.

Definition delete_branch (name : string) (r : BranchRegistry) : BranchRegistry :=
  delete name (r : gmap string Branch).

Definition list_branches (r : BranchRegistry) : list Branch :=
  merge_sort (created_le br_created_at br_name) (map_to_list (r : gmap string Branch)).*2.

Record ReleaseMetadata : Type := MkReleaseMetadata {
  rm_graph_root_hash : ObjectId;
  rm_verification_report_hash : option (list N);
  rm_runtime_profile_hash : option (list N);
  rm_artifact_hashes : list ObjectId;
}.

Record Tag : Type := MkTag {
  tag_name : string;
  tag_snapshot_id : ObjectId;
  tag_created_at : N;
  tag_release_metadata : option ReleaseMetadata;
}.

Definition TagRegistry : Type := gmap string Tag.

Definition create_tag (name : string) (snapshot_id : ObjectId) (created_at : N)
    (release_metadata : option ReleaseMetadata) (r : TagRegistry)
  : result (Tag * TagRegistry) StorageError :=
  match (r : gmap string Tag) !! name with
  | Some _ => Err (CodecError ("tag '" +:+ (name +:+ "' already exists")))
  | None =>
      let tag := MkTag name snapshot_id created_at release_metadata in
      Ok (tag, <[name := tag]> (r : gmap string Tag))
  end.

Definition get_tag_named (name : string) (r : TagRegistry) : option Tag :=
  (r : gmap string Tag) !! name.

Definition delete_tag (name : string) (r : TagRegistry) : TagRegistry :=
  delete name (r : gmap string Tag).

Definition list_tags (r : TagRegistry) : list Tag :=
  merge_sort (created_le tag_created_at tag_name) (map_to_list (r : gmap string Tag)).*2.

(* ------------------------------------------------------------------ *)
(** ** The in-memory store keeps the contract *)

#[global] Instance memory_object_store_laws `{HashBackend, HashOrder} :
  ObjectStoreLaws MemoryObjectStore.
Proof.
  refine {| contents := λ s, (s : gmap ObjectId (list N)) |}.
  - intros bytes s. exists (memory_put bytes s).2. split; reflexivity.
  - done.
  - done.
  - intros s. exists (hash_iter (s : gmap ObjectId (list N))).*1. split; [done|].
    rewrite hash_iter_perm. apply NoDup_Permutation.
    + apply NoDup_fst_map_to_list.
    + apply NoDup_elements.
    + intros id. rewrite elem_of_elements, elem_of_dom, list_elem_of_fmap. split.
      * intros ([id' b] & -> & Hb%elem_of_map_to_list). cbn. by rewrite Hb.
      * intros [b Hb]. exists (id, b). by rewrite elem_of_map_to_list.
  - intros id s. eexists. done.
Defined.

(* ------------------------------------------------------------------ *)
(** ** Snapshots *)

Section GraphStoreFacts.
Context `{!HashBackend, !StorageCodec, !StorageCodecLaws, !HashOrder} {S : Type}.
Context `{!ObjectStore S, !ObjectStoreLaws S}.
Implicit Types (g : ObjectBackedGraphStore S) (v : SnapshotEnvelope).

(** Objects lie under the hash of their bytes, and every index entry leads to
    the bytes of the snapshot it names. *)
Definition addressed (store : S) : Prop :=
  ∀ id bytes, contents store !! id = Some bytes → id = object_id_from_bytes bytes.

Definition stores (g : ObjectBackedGraphStore S) (id : ObjectId) v : Prop :=
  ∃ bytes, gs_snapshot_index g !! id = Some (object_id_from_bytes bytes) ∧
    encode_snapshot v = Ok bytes ∧ se_id v = id ∧
    contents (gs_store g) !! object_id_from_bytes bytes = Some bytes.

Definition graph_store_wf g : Prop :=
  addressed (gs_store g) ∧
  ∀ id cas, gs_snapshot_index g !! id = Some cas → ∃ v, stores g id v.

(** Two byte strings with the same BLAKE3 hash. *)
Definition hash_collision : Prop :=
  ∃ a b : list N, a ≠ b ∧ object_id_from_bytes a = object_id_from_bytes b.

Lemma put_contents bytes (s : S) :
  addressed s →
  ∃ s', put bytes s = Ok (object_id_from_bytes bytes, s') ∧ addressed s' ∧
    contents s ⊆ contents s' ∧
    (contents s' !! object_id_from_bytes bytes = Some bytes ∨ hash_collision).
Proof.
  intros Ha. destruct (put_law bytes s) as (s' & Hput & Hc). exists s'. split; [done|].
  destruct (contents s !! object_id_from_bytes bytes) as [b|] eqn:E.
  - unfold addressed. rewrite Hc. split; [done|]. split; [done|].
    destruct (decide (b = bytes)) as [->|Hne]; [by left|right].
    exists b, bytes. split; [done|]. symmetry. by apply Ha.
  - unfold addressed. rewrite Hc. split; [|split; [by apply insert_subseteq|left; by simplify_map_eq]].
    intros id b'. rewrite lookup_insert. case_decide as Hid; [by intros [= <-]|apply Ha].
Qed.

Lemma load_stores g id v : stores g id v → load_snapshot id g = Ok (Some v).
Proof.
  intros (bytes & Hi & He & _ & Hb). unfold load_snapshot. rewrite Hi, get_law, Hb.
  by rewrite (snapshot_roundtrip _ _ He).
Qed.

Lemma stores_fun g id v v' : stores g id v → stores g id v' → v = v'.
Proof. intros Hv%load_stores Hv'%load_stores. congruence. Qed.

Lemma load_snapshot_iff g id v :
  graph_store_wf g → load_snapshot id g = Ok (Some v) ↔ stores g id v.
Proof.
  intros [_ Hwf]. split; [|apply load_stores]. intros Hl.
  destruct (gs_snapshot_index g !! id) as [cas|] eqn:E.
  - destruct (Hwf id cas E) as [v' Hv']. pose proof (load_stores _ _ _ Hv'). congruence.
  - unfold load_snapshot in Hl. by rewrite E in Hl.
Qed.

Lemma load_snapshot_total g id : graph_store_wf g → ∃ o, load_snapshot id g = Ok o.
Proof.
  intros [_ Hwf]. destruct (gs_snapshot_index g !! id) as [cas|] eqn:E.
  - destruct (Hwf id cas E) as [v Hv]. exists (Some v). by apply load_stores.
  - exists None. unfold load_snapshot. by rewrite E.
Qed.

(** Saving keeps the store well formed and makes the snapshot loadable under
    its own id, without touching the others. *)
Lemma save_snapshot_spec v g bytes :
  graph_store_wf g → encode_snapshot v = Ok bytes →
  (∃ g', save_snapshot v g = Ok (se_id v, g') ∧ graph_store_wf g' ∧
     load_snapshot (se_id v) g' = Ok (Some v) ∧
     ∀ id, id ≠ se_id v → load_snapshot id g' = load_snapshot id g)
  ∨ hash_collision.
Proof.
  intros [Ha Hwf] He. destruct (put_contents bytes (gs_store g) Ha) as (s' & Hput & Ha' & Hsub & [Hc|?]);
    [left|by right].
  unfold save_snapshot. rewrite He, Hput. eexists. split; [done|].
  set (g' := MkGraphStore s' _).
  assert (stores g' (se_id v) v) as Hv.
  { exists bytes. unfold g'. cbn. by rewrite lookup_insert_eq. }
  assert (∀ id v', id ≠ se_id v → stores g id v' → stores g' id v') as Hkeep.
  { intros id v' Hne (b & Hi & Heb & Hid & Hb). exists b. unfold g'. cbn.
    rewrite lookup_insert_ne by done. repeat split; try done. by eapply lookup_weaken. }
  split; [split; [done|]|split; [by apply load_stores|]].
  - intros id cas. unfold g'. cbn. rewrite lookup_insert. case_decide as Hid; [subst; by eauto|].
    intros Hcas. destruct (Hwf id cas Hcas) as [v' Hv']. exists v'. by apply Hkeep.
  - intros id Hne. destruct (gs_snapshot_index g !! id) as [cas|] eqn:E.
    + destruct (Hwf id cas E) as [v' Hv']. rewrite (load_stores _ _ _ Hv').
      by apply load_stores, Hkeep.
    + unfold load_snapshot, g'. cbn. by rewrite lookup_insert_ne, E.
Qed.

Lemma delete_snapshot_stores g d id v :
  stores (delete_snapshot d g) id v ↔ id ≠ d ∧ stores g id v.
Proof.
  unfold stores, delete_snapshot. cbn. split.
  - intros (b & Hi & Hr). apply lookup_delete_Some in Hi as [? ?]. split; [done|]. by exists b.
  - intros [Hne (b & Hi & Hr)]. exists b. by rewrite lookup_delete_ne.
Qed.

Lemma delete_snapshot_wf g id : graph_store_wf g → graph_store_wf (delete_snapshot id g).
Proof.
  intros [Ha Hwf]. split; [done|]. intros j cas Hj.
  cbn in Hj. apply lookup_delete_Some in Hj as [Hne Hj].
  destruct (Hwf j cas Hj) as [v Hv]. exists v. by apply delete_snapshot_stores.
Qed.

Lemma append_log_wf entry g bytes :
  graph_store_wf g → encode_log_entry entry = Ok bytes →
  ∃ g', append_changeset_log entry g = Ok (object_id_from_bytes bytes, g') ∧ graph_store_wf g' ∧
    gs_snapshot_index g' = gs_snapshot_index g ∧ contents (gs_store g) ⊆ contents (gs_store g').
Proof.
  intros [Ha Hwf] He.
  destruct (put_contents bytes (gs_store g) Ha) as (s' & Hput & Ha' & Hsub & _).
  unfold append_changeset_log. rewrite He, Hput. eexists. split; [done|]. split; [|done].
  split; [done|]. intros id cas Hi. destruct (Hwf id cas Hi) as (v & b & Hib & Heb & Hid & Hb).
  exists v, b. repeat split; try done. by eapply lookup_weaken.
Qed.

(** ** Listing *)

Lemma Forall2_elem_of_r {A B} (P : A → B → Prop) l k y :
  Forall2 P l k → y ∈ k → ∃ x, x ∈ l ∧ P x y.
Proof.
  intros Hall (i & Hi)%list_elem_of_lookup.
  destruct (Forall2_lookup_r _ _ _ _ _ Hall Hi) as (x & Hx & HP).
  exists x. split; [|done]. by eapply list_elem_of_lookup_2.
Qed.

Lemma Forall2_elem_of_l {A B} (P : A → B → Prop) l k x :
  Forall2 P l k → x ∈ l → ∃ y, y ∈ k ∧ P x y.
Proof.
  intros Hall (i & Hi)%list_elem_of_lookup.
  destruct (Forall2_lookup_l _ _ _ _ _ Hall Hi) as (y & Hy & HP).
  exists y. split; [|done]. by eapply list_elem_of_lookup_2.
Qed.

Lemma load_indexed_spec g pairs :
  (∀ p, p ∈ pairs → gs_snapshot_index g !! p.1 = Some p.2) → graph_store_wf g →
  ∃ vs, load_indexed pairs (gs_store g) = Ok vs ∧ Forall2 (λ p v, stores g p.1 v) pairs vs.
Proof.
  intros Hp [Ha Hwf]. induction pairs as [|[id cas] pairs IH]; [by exists []|].
  destruct IH as (vs & Hvs & Hall); [intros p ?; apply Hp; by right|].
  pose proof (Hp (id, cas) ltac:(by left)) as Hi. cbn in Hi.
  destruct (Hwf id cas Hi) as [v Hv]. exists (v :: vs). split; [|by constructor].
  destruct Hv as (b & Hib & Heb & _ & Hb). cbn. rewrite Hi in Hib. injection Hib as ->.
  by rewrite get_law, Hb, (snapshot_roundtrip _ _ Heb), Hvs.
Qed.

(** Listing a well-formed store succeeds and lists each stored snapshot once. *)
Lemma list_snapshots_spec g :
  graph_store_wf g →
  ∃ vs, list_snapshots g = Ok vs ∧ NoDup (se_id <$> vs) ∧
    (∀ v, v ∈ vs ↔ stores g (se_id v) v) ∧
    length vs = size (gs_snapshot_index g).
Proof.
  intros Hwf. unfold list_snapshots. set (pairs := hash_iter (gs_snapshot_index g)).
  assert (∀ p, p ∈ pairs ↔ gs_snapshot_index g !! p.1 = Some p.2) as Hp.
  { intros [id cas]. unfold pairs. rewrite hash_iter_perm. apply elem_of_map_to_list. }
  destruct (load_indexed_spec g pairs) as (vs & Hvs & Hall); [by intros p ?%Hp|done|].
  exists vs. split; [done|].
  assert (se_id <$> vs = pairs.*1) as Hids.
  { clear -Hall. induction Hall as [|p v ps vs (b & _ & _ & Hid & _) _ IH]; [done|]. csimpl. congruence. }
  split; [|split].
  - rewrite Hids. unfold pairs. rewrite hash_iter_perm. apply NoDup_fst_map_to_list.
  - intros v. split.
    + intros Hv. eapply Forall2_elem_of_r in Hall as (p & Hpp & Hst); [|done].
      pose proof Hst as (b & _ & _ & Hid & _). by rewrite Hid.
    + intros Hst. pose proof Hst as (b & Hi & _).
      assert ((se_id v, object_id_from_bytes b) ∈ pairs) as Hin by by apply Hp.
      eapply Forall2_elem_of_l in Hall as (v' & Hv' & Hst'); [|done]. cbn in Hst'.
      by rewrite (stores_fun _ _ _ _ Hst Hst').
  - rewrite <- (Forall2_length _ _ _ Hall). unfold pairs. rewrite hash_iter_perm.
    apply length_map_to_list.
Qed.
End GraphStoreFacts.

#[global] Instance SnapshotEnvelope_eq_dec : EqDecision SnapshotEnvelope.
Proof. solve_decision. Defined.
#[global] Instance Tombstone_eq_dec : EqDecision Tombstone.
Proof. solve_decision. Defined.

(** A codec, an iteration order and a hash that satisfy the laws: a record is
    encoded as its position in a table, the hash of a byte string is the byte
    string. *)
Module SampleCodec.
Definition position {A} `{EqDecision A} (table : list A) (x : A) : result (list N) StorageError :=
  match list_find (x =.) table with Some (i, _) => Ok [N.of_nat i] | None => Err (CodecError "encode") end.
Definition at_position {A} (table : list A) (bytes : list N) : result A StorageError :=
  match bytes with
  | [n] => from_option Ok (Err (CodecError "decode")) (table !! N.to_nat n)
  | _ => Err (CodecError "decode")
  end.

Lemma position_roundtrip {A} `{EqDecision A} (table : list A) x bytes :
  position table x = Ok bytes → at_position table bytes = Ok x.
Proof.
  unfold position, at_position. destruct (list_find _ table) as [[i y]|] eqn:E; [|done].
  intros [= <-]. apply list_find_Some in E as (Hi & -> & _). by rewrite Nat2N.id, Hi.
Qed.

Definition table_codec (snapshots : list SnapshotEnvelope) (tombstones : list Tombstone)
  : StorageCodec := {|
  encode_snapshot := position snapshots;
  decode_snapshot := at_position snapshots;
  encode_log_entry v := Ok [cl_created_at v];
  encode_tombstone := position tombstones;
  decode_tombstone := at_position tombstones;
|}.

#[export] Instance table_codec_laws snapshots tombstones :
  StorageCodecLaws (H := table_codec snapshots tombstones).
Proof. split; apply position_roundtrip. Qed.

#[export] Instance sample_order : HashOrder := {
  hash_iter V m := map_to_list m;
  hash_iter_perm V m := Permutation_refl _;
}.

#[export] Instance sample_hash : HashBackend := {
  blake3 bytes := bytes; cbor_node _ := []; cbor_op _ := [];
}.
End SampleCodec.
