(* ===== verification/SnapshotChains.v ===== *)
(** * Parent chains of snapshots and the snapshot diagnostics

    The walk along parent links that ail-storage uses twice: in
    [collect_branch_holds_with_ancestry] (retention.rs) and in
    [diagnose_snapshot_envelopes] (graph.rs), together with the diagnostics
    themselves.  The code's [while let] loop stops at a snapshot it has seen;
    [walk] takes one turn per unit of fuel, and [walk_total] shows that one
    turn more than there are snapshots is always enough. *)

From S2P Require Import Prelude Text ChangeModel Remote Storage.

(** [HashMap<ObjectId, Option<ObjectId>>]: the parent link of each snapshot *)
Abbreviation ParentMap := (gmap ObjectId (option ObjectId)).

(** [parent_map.get(&id).copied().flatten()] *)
Definition parent_of (pm : ParentMap) (id : ObjectId) : option ObjectId := mjoin (pm !! id).

(** [true] when the walk came to a snapshot in [visited]; [None] out of fuel. *)
Fixpoint walk (fuel : nat) (pm : ParentMap) (visited : gset ObjectId) (current : option ObjectId)
  : option (gset ObjectId * bool) :=
  match current with
  | None => Some (visited, false)
  | Some id =>
      if decide (id ∈ visited) then Some (visited, true)
      else match fuel with
           | O => None
           | S fuel' => walk fuel' pm ({[id]} ∪ visited) (parent_of pm id)
           end
  end.

Definition walk_fuel (pm : ParentMap) : nat := S (size pm).

(** The loop with enough fuel; the default is never used. *)
Definition walk_all (pm : ParentMap) (visited : gset ObjectId) (current : option ObjectId)
  : gset ObjectId * bool :=
  default (visited, false) (walk (walk_fuel pm) pm visited current).

(** The ancestors of a snapshot, itself included. *)
Definition parent_step (pm : ParentMap) (x y : ObjectId) : Prop := parent_of pm x = Some y.
Definition ancestor (pm : ParentMap) : ObjectId → ObjectId → Prop := rtc (parent_step pm).

(** The chain from [id] ends: at a genesis snapshot or outside the store. *)
Definition chain_ends (pm : ParentMap) (id : ObjectId) : Prop :=
  ∃ last, ancestor pm id last ∧ parent_of pm last = None.

Section Walk.
Context (pm : ParentMap).

Lemma walk_total fuel visited current :
  size (dom pm ∖ visited) < fuel → is_Some (walk fuel pm visited current).
Proof.
  revert visited current. induction fuel as [|fuel IH]; intros visited current Hf; [lia|].
  destruct current as [id|]; cbn; [|done]. case_decide as Hv; [done|].
  destruct (decide (id ∈ dom pm)) as [Hid|Hid].
  - apply IH. assert (dom pm ∖ ({[id]} ∪ visited) ⊂ dom pm ∖ visited) as Hsub by set_solver.
    apply subset_size in Hsub. lia.
  - unfold parent_of. rewrite (not_elem_of_dom_1 _ _ Hid). cbn. by destruct fuel.
Qed.

Lemma walk_all_Some visited current :
  walk (walk_fuel pm) pm visited current = Some (walk_all pm visited current).
Proof.
  unfold walk_all. destruct (walk_total (walk_fuel pm) visited current) as [r Hr].
  - unfold walk_fuel. rewrite <- size_dom. pose proof (subseteq_size (dom pm ∖ visited) (dom pm)).
    specialize (H ltac:(set_solver)). lia.
  - by rewrite Hr.
Qed.

Lemma walk_adds fuel visited current v' rep :
  walk fuel pm visited current = Some (v', rep) →
  visited ⊆ v' ∧ (∀ id, current = Some id → id ∈ v') ∧
  (∀ x, x ∈ v' → x ∈ visited ∨ ∃ id, current = Some id ∧ ancestor pm id x) ∧
  (∀ x y, x ∈ v' → x ∉ visited → parent_of pm x = Some y → y ∈ v').
Proof.
  revert visited current. induction fuel as [|fuel IH]; intros visited current.
  all: destruct current as [id|]; cbn; [|by intros [= <- <-]; set_solver].
  all: case_decide as Hv; [intros [= <- <-]; set_solver|].
  { done. }
  intros (Hsub & Hcur & Horig & Hclosed)%IH. split; [set_solver|]. split; [set_solver|]. split.
  - intros x Hx. destruct (Horig x Hx) as [Hin|(y & Hy & Hanc)].
    + apply elem_of_union in Hin as [->%elem_of_singleton|]; [|by left].
      right. exists id. split; [done|]. apply rtc_refl.
    + right. exists id. split; [done|]. by eapply rtc_l.
  - intros x y Hx Hnv Hp. destruct (decide (x = id)) as [->|Hne].
    + by apply Hcur.
    + eapply Hclosed; [done|set_solver|done].
Qed.

(** The links form a function, so that a chain cannot both end and loop. *)
Lemma cycle_step x y : tc (parent_step pm) x x → parent_step pm x y → tc (parent_step pm) y y.
Proof.
  intros Hc Hxy.
  assert (∃ z, parent_step pm x z ∧ rtc (parent_step pm) z x) as (z & Hz & Hzx).
  { inversion Hc as [? ? H1|? z ? H1 H2]; subst; [exists x; by split; [|apply rtc_refl]|].
    exists z. split; [done|]. by apply tc_rtc. }
  unfold parent_step in *. assert (z = y) as -> by congruence.
  eapply tc_rtc_l; [done|]. by apply tc_once.
Qed.

Lemma cycle_reaches x y : tc (parent_step pm) x x → ancestor pm x y → tc (parent_step pm) y y.
Proof. intros Hc Ha. induction Ha as [|x y z Hxy _ IH]; [done|]. apply IH. by eapply cycle_step. Qed.

Lemma ancestor_linear x y z :
  ancestor pm x y → ancestor pm x z → parent_of pm z = None → ancestor pm y z.
Proof.
  intros Hy. induction Hy as [|x x' y Hxx' _ IH]; intros Hz Hn; [done|]. apply IH; [|done].
  inversion Hz as [|? x'' ? Hx'' Hrest]; subst.
  - unfold parent_step in Hxx'. congruence.
  - unfold parent_step in *. by replace x' with x'' by congruence.
Qed.

Lemma cycle_never_ends id x : ancestor pm id x → tc (parent_step pm) x x → ¬ chain_ends pm id.
Proof.
  intros Hx Hc (last & Hlast & Hn).
  assert (tc (parent_step pm) last last) as Hl.
  { eapply cycle_reaches; [done|]. by eapply ancestor_linear. }
  assert (∃ z, parent_step pm last z) as [z Hz] by (inversion Hl; subst; by eexists).
  unfold parent_step in Hz. congruence.
Qed.

Lemma walk_ends fuel visited current v' :
  walk fuel pm visited current = Some (v', false) → ∀ id, current = Some id → chain_ends pm id.
Proof.
  revert visited current. induction fuel as [|fuel IH]; intros visited current Hw id ->; cbn in Hw;
    (case_decide as Hv; [done|]); [done|].
  destruct (parent_of pm id) as [p|] eqn:Hp.
  - destruct (IH _ _ Hw p eq_refl) as (last & Hl & Hn). exists last. split; [|done]. by eapply rtc_l.
  - exists id. split; [apply rtc_refl|done].
Qed.

Lemma walk_loops fuel visited current v' start :
  walk fuel pm visited current = Some (v', true) →
  (∀ id, current = Some id → ancestor pm start id) →
  (∀ x id, x ∈ visited → current = Some id → tc (parent_step pm) x id) →
  ∃ x, ancestor pm start x ∧ tc (parent_step pm) x x.
Proof.
  revert visited current. induction fuel as [|fuel IH]; intros visited current Hw Hs Hv.
  all: destruct current as [id|]; cbn in Hw; [|done].
  all: case_decide as Hin; [exists id; by split; [apply Hs|apply Hv]|].
  { done. }
  eapply IH; [exact Hw| |].
  - intros y Hy. eapply rtc_r; [by apply Hs|done].
  - intros x y [->%elem_of_singleton|Hx]%elem_of_union Hy; [by apply tc_once|].
    eapply tc_r; [by apply Hv|done].
Qed.

(** The walk from a snapshot reports a repetition exactly when its chain has no end. *)
Lemma walk_all_cycle id : (walk_all pm ∅ (Some id)).2 = false ↔ chain_ends pm id.
Proof.
  pose proof (walk_all_Some ∅ (Some id)) as Hw.
  destruct (walk_all pm ∅ (Some id)) as [v' []] eqn:E; cbn; split; try done.
  - intros Hends. exfalso. eapply walk_loops in Hw as (x & Hx & Hc).
    + by eapply cycle_never_ends.
    + intros ? [= <-]. apply rtc_refl.
    + intros x y Hx. set_solver.
  - intros _. by eapply walk_ends.
Qed.
End Walk.

(* ------------------------------------------------------------------ *)
(** ** All ancestors of a list of snapshots *)

(** The loop over the branches: one walk from each target, sharing [held]. *)
Definition hold_chains (pm : ParentMap) (targets : list ObjectId) : gset ObjectId :=
  foldl (λ held id, (walk_all pm held (Some id)).1) ∅ targets.

Definition closed (pm : ParentMap) (held : gset ObjectId) : Prop :=
  ∀ x y, x ∈ held → parent_of pm x = Some y → y ∈ held.

Lemma foldl_hold_spec pm targets held0 :
  closed pm held0 →
  let held := foldl (λ held id, (walk_all pm held (Some id)).1) held0 targets in
  closed pm held ∧ held0 ⊆ held ∧ (∀ id, id ∈ targets → id ∈ held) ∧
  (∀ x, x ∈ held → x ∈ held0 ∨ ∃ id, id ∈ targets ∧ ancestor pm id x).
Proof.
  revert held0. induction targets as [|t targets IH]; intros held0 Hc; cbn [foldl]; cbn zeta.
  { split; [exact Hc|]. split; [set_solver|]. split; [set_solver|auto]. }
  pose proof (walk_all_Some pm held0 (Some t)) as Hw.
  destruct (walk_all pm held0 (Some t)) as [h1 rep]. cbn [fst].
  apply walk_adds in Hw as (Hsub & Hin & Horig & Hcl).
  destruct (IH h1) as (H1 & H2 & H3 & H4).
  { intros x y Hx Hp. destruct (decide (x ∈ held0)) as [Hx0|Hx0]; [|by eapply Hcl].
    apply Hsub. by eapply Hc. }
  split; [exact H1|]. split; [set_solver|]. split.
  - intros id [->|Hid]%elem_of_cons; [|by apply H3]. apply H2, Hin. done.
  - intros x Hx. destruct (H4 x Hx) as [Hx1|(id & Hid & Ha)].
    + destruct (Horig x Hx1) as [?|(id & [= ->] & Ha)]; [by left|]. right. exists id. by split; [left|].
    + right. exists id. by split; [right|].
Qed.

(** Exactly the ancestors of the targets are held. *)
Lemma hold_chains_spec pm targets x :
  x ∈ hold_chains pm targets ↔ ∃ id, id ∈ targets ∧ ancestor pm id x.
Proof.
  destruct (foldl_hold_spec pm targets ∅) as (Hc & _ & Ht & Ho); [intros ? ?; set_solver|].
  fold (hold_chains pm targets) in *. split.
  - intros Hx. destruct (Ho x Hx) as [Hx0|Hx0]; [set_solver|done].
  - intros (id & Hid%Ht & Ha). induction Ha as [|x y z Hxy _ IH]; [done|]. apply IH.
    eapply Hc; [exact Hid|exact Hxy].
Qed.
