(* ===== verification/SnapshotDiag.v ===== *)
(** * Snapshot diagnostics

    [diagnose_snapshot_envelopes] and [ObjectBackedGraphStore::diagnose_snapshots]
    of ail-storage/src/graph.rs: missing roots and objects, duplicate ids,
    parent gaps and cycles, stale manifest and index entries.  The report is
    sorted by (kind, primary id, secondary id), which determines an issue. *)

From S2P Require Import Prelude Text ChangeModel Remote Storage SnapshotChains.

Record SnapshotEntry : Type := MkSnapshotEntry {
  sn_snapshot_id : ObjectId;
  sn_graph_root_hash : ObjectId;
}.

(** [SnapshotManifestEntry] and [SnapshotIndexEntry] have the same fields. *)
Record SnapshotDiagnosticsInput : Type := MkSnapshotDiagnosticsInput {
  di_manifest_entries : list SnapshotEntry;
  di_index_entries : list SnapshotEntry;
}.

Inductive SnapshotDiagnosticsIssue : Type :=
| MissingRootObject (snapshot_id root_id : ObjectId)
| MissingSnapshotObject (snapshot_id object_id : ObjectId)
| StaleManifestEntry (snapshot_id : ObjectId)
| StaleIndexEntry (snapshot_id : ObjectId)
| DuplicateSnapshotId (snapshot_id : ObjectId)
| ParentChainGap (snapshot_id parent_id : ObjectId)
| ParentChainCycle (snapshot_id : ObjectId).

Definition kind_ord (i : SnapshotDiagnosticsIssue) : N :=
  match i with
  | MissingRootObject _ _ => 0
  | MissingSnapshotObject _ _ => 1
  | StaleManifestEntry _ => 2
  | StaleIndexEntry _ => 3
  | DuplicateSnapshotId _ => 4
  | ParentChainGap _ _ => 5
  | ParentChainCycle _ => 6
  end.

Definition primary_id (i : SnapshotDiagnosticsIssue) : ObjectId :=
  match i with
  | MissingRootObject s _ | MissingSnapshotObject s _ | StaleManifestEntry s | StaleIndexEntry s
  | DuplicateSnapshotId s | ParentChainGap s _ | ParentChainCycle s => s
  end.

Definition secondary_id (i : SnapshotDiagnosticsIssue) : option ObjectId :=
  match i with
  | MissingRootObject _ r => Some r
  | MissingSnapshotObject _ o => Some o
  | ParentChainGap _ p => Some p
  | _ => None
  end.

(** The key of [sort_snapshot_issues] as one byte string per component; [None]
    comes before [Some]. *)
Definition issue_le (a b : SnapshotDiagnosticsIssue) : Prop :=
  (kind_ord a < kind_ord b)%N ∨
  (kind_ord a = kind_ord b ∧
   (primary_id a ≠ primary_id b ∧ bytes_le (primary_id a) (primary_id b) = true ∨
    primary_id a = primary_id b ∧
    match secondary_id a, secondary_id b with
    | None, _ => True
    | Some _, None => False
    | Some x, Some y => bytes_le x y = true
    end)).
#[global] Instance issue_le_dec a b : Decision (issue_le a b).
Proof. unfold issue_le. repeat case_match; apply _. Defined.

Definition sort_snapshot_issues (issues : list SnapshotDiagnosticsIssue)
  : list SnapshotDiagnosticsIssue := merge_sort issue_le issues.

Record SnapshotIssueDescriptor : Type := MkSnapshotIssueDescriptor {
  sd_code : string;
  sd_category : string;
  sd_severity : string;
  sd_subject : string;
  sd_fingerprint : string;
  sd_reason : string;
  sd_message : string;
}.

(** [format!("blake3:{}…", &hex[..12])] *)
Definition snapshot_redacted_fingerprint (id : ObjectId) : string :=
  "blake3:" +:+ (String.substring 0 12 (to_hex id) +:+ "…").

Definition descriptor (i : SnapshotDiagnosticsIssue) : SnapshotIssueDescriptor :=
  let make code category subject reason message :=
    MkSnapshotIssueDescriptor code category "error" subject
      (snapshot_redacted_fingerprint (primary_id i)) reason message in
  match i with
  | MissingRootObject _ _ =>
      make "storage.snapshot.missing_root_object" "storage.snapshot.reachability" "snapshot_root"
        "missing_root_object" "snapshot graph root points to a missing object"
  | MissingSnapshotObject _ _ =>
      make "storage.snapshot.missing_snapshot_object" "storage.snapshot.index" "snapshot_object"
        "missing_snapshot_object" "snapshot index points to a missing encoded snapshot object"
  | StaleManifestEntry _ =>
      make "storage.snapshot.stale_manifest_entry" "storage.snapshot.manifest" "snapshot_manifest"
        "stale_manifest_entry" "snapshot manifest entry does not match stored snapshot metadata"
  | StaleIndexEntry _ =>
      make "storage.snapshot.stale_index_entry" "storage.snapshot.index" "snapshot_index"
        "stale_index_entry" "snapshot index entry does not match stored snapshot metadata"
  | DuplicateSnapshotId _ =>
      make "storage.snapshot.duplicate_id" "storage.snapshot.manifest" "snapshot"
        "duplicate_snapshot_id" "snapshot listing contains a duplicate snapshot id"
  | ParentChainGap _ _ =>
      make "storage.snapshot.parent_gap" "storage.snapshot.chain" "snapshot_parent"
        "parent_chain_gap" "snapshot parent link points to a missing snapshot"
  | ParentChainCycle _ =>
      make "storage.snapshot.parent_cycle" "storage.snapshot.chain" "snapshot_parent"
        "parent_chain_cycle" "snapshot parent chain contains a cycle"
  end.

Record SnapshotDiagnosticsReport : Type := MkSnapshotDiagnosticsReport {
  sr_issues : list SnapshotDiagnosticsIssue;
  sr_diagnostics : list SnapshotIssueDescriptor;
  sr_snapshots_checked : nat;
  sr_passed : bool;
}.

(** [snapshot_by_id.entry(snapshot.id).or_insert(snapshot)] in a loop. *)
Definition snapshots_by_id (snapshots : list SnapshotEnvelope) : gmap ObjectId SnapshotEnvelope :=
  foldl (λ m s, match m !! se_id s with Some _ => m | None => <[se_id s := s]> m end) ∅ snapshots.

(** The loop with [seen_snapshot_ids] and [duplicated_snapshot_ids]. *)
Fixpoint duplicated_ids (seen : gset ObjectId) (snapshots : list SnapshotEnvelope) : gset ObjectId :=
  match snapshots with
  | [] => ∅
  | s :: snapshots' =>
      (if decide (se_id s ∈ seen) then {[se_id s]} else ∅)
      ∪ duplicated_ids ({[se_id s]} ∪ seen) snapshots'
  end.

Section Diagnose.
Context `{HashBackend, StorageCodec, HashOrder} {S : Type} `{ObjectStore S}.

(** The loop over the roots and parents of the snapshots. *)
Fixpoint root_and_parent_issues (by_id : gmap ObjectId SnapshotEnvelope) (store : S)
    (snapshots : list SnapshotEnvelope) : result (list SnapshotDiagnosticsIssue) StorageError :=
  match snapshots with
  | [] => Ok []
  | s :: snapshots' =>
      let? root_ok := exists_object (se_graph_root_hash s) store in
      let? rest := root_and_parent_issues by_id store snapshots' in
      Ok ((if (root_ok : bool) then [] else [MissingRootObject (se_id s) (se_graph_root_hash s)])
          ++ match se_parent_id s with
             | Some p => match by_id !! p with
                         | Some _ => []
                         | None => [ParentChainGap (se_id s) p]
                         end
             | None => []
             end
          ++ rest)
  end.

Definition entry_matches (by_id : gmap ObjectId SnapshotEnvelope) (e : SnapshotEntry) : bool :=
  match by_id !! sn_snapshot_id e with
  | Some s => bool_decide (se_graph_root_hash s = sn_graph_root_hash e)
  | None => false
  end.

Definition stale_entries (by_id : gmap ObjectId SnapshotEnvelope)
    (issue : ObjectId → SnapshotDiagnosticsIssue) (entries : list SnapshotEntry)
  : list SnapshotDiagnosticsIssue :=
  entries ≫= λ e, if entry_matches by_id e then [] else [issue (sn_snapshot_id e)].

(** The parent walk from every snapshot. *)
Definition cycle_issues (by_id : gmap ObjectId SnapshotEnvelope) (snapshots : list SnapshotEnvelope)
  : list SnapshotDiagnosticsIssue :=
  snapshots ≫= λ s,
    if (walk_all (se_parent_id <$> by_id) ∅ (Some (se_id s))).2
    then [ParentChainCycle (se_id s)] else [].

Definition diagnose_snapshot_envelopes (snapshots : list SnapshotEnvelope) (store : S)
    (input : SnapshotDiagnosticsInput) (issues : list SnapshotDiagnosticsIssue)
  : result SnapshotDiagnosticsReport StorageError :=
  let by_id := snapshots_by_id snapshots in
  let? roots_parents := root_and_parent_issues by_id store snapshots in
  let issues :=
    issues
    ++ (DuplicateSnapshotId <$> elements (duplicated_ids ∅ snapshots))
    ++ roots_parents
    ++ stale_entries by_id StaleManifestEntry (di_manifest_entries input)
    ++ stale_entries by_id StaleIndexEntry (di_index_entries input)
    ++ cycle_issues by_id snapshots in
  let issues := sort_snapshot_issues issues in
  Ok (MkSnapshotDiagnosticsReport issues (descriptor <$> issues) (length snapshots)
        (match issues with [] => true | _ => false end)).

Definition diagnose_snapshot_store (g : ObjectBackedGraphStore S) (store : S)
    (input : SnapshotDiagnosticsInput) : result SnapshotDiagnosticsReport StorageError :=
  let? snapshots := list_snapshots g in
  diagnose_snapshot_envelopes snapshots store input [].

(** The loop of [diagnose_snapshots] over the index in id order. *)
Fixpoint check_index (pairs : list (ObjectId * ObjectId)) (store : S)
  : result (list SnapshotEnvelope * list SnapshotDiagnosticsIssue) StorageError :=
  match pairs with
  | [] => Ok ([], [])
  | (indexed_id, object_id) :: pairs' =>
      let? raw := get object_id store in
      match raw with
      | None =>
          let? (snapshots, issues) := check_index pairs' store in
          Ok (snapshots, MissingSnapshotObject indexed_id object_id :: issues)
      | Some raw =>
          let? snapshot := decode_snapshot raw in
          let? (snapshots, issues) := check_index pairs' store in
          Ok (snapshot :: snapshots,
              if decide (se_id snapshot = indexed_id) then issues
              else StaleIndexEntry indexed_id :: issues)
      end
  end.

(** Identifiers are unique in the index, so that they decide the order. *)
Definition pair_le (a b : ObjectId * ObjectId) : Prop :=
  if decide (a.1 = b.1) then bytes_le a.2 b.2 = true else bytes_le a.1 b.1 = true.
#[global] Instance pair_le_dec a b : Decision (pair_le a b).
Proof. unfold pair_le. case_decide; apply _. Defined.

Definition diagnose_snapshots (g : ObjectBackedGraphStore S) (input : SnapshotDiagnosticsInput)
  : result SnapshotDiagnosticsReport StorageError :=
  let pairs := merge_sort pair_le (hash_iter (gs_snapshot_index g)) in
  let? (snapshots, issues) := check_index pairs (gs_store g) in
  diagnose_snapshot_envelopes snapshots (gs_store g) input issues.
End Diagnose.

(* ------------------------------------------------------------------ *)
(** ** What a passed report says *)

Lemma snapshots_by_id_lookup_aux (m : gmap ObjectId SnapshotEnvelope) snapshots id :
  foldl (λ m s, match m !! se_id s with Some _ => m | None => <[se_id s := s]> m end) m snapshots !! id
  = match m !! id with Some s => Some s | None => find_first (λ s, se_id s = id) snapshots end.
Proof.
  revert m. induction snapshots as [|s snapshots IH]; intros m; cbn.
  { by destruct (m !! id). }
  rewrite IH. destruct (m !! se_id s) eqn:E.
  - destruct (m !! id) eqn:E'; [done|]. rewrite decide_False; [done|]. congruence.
  - destruct (decide (se_id s = id)) as [<-|Hne].
    + by rewrite lookup_insert_eq, E.
    + by rewrite lookup_insert_ne.
Qed.

Lemma snapshots_by_id_lookup snapshots id :
  snapshots_by_id snapshots !! id = find_first (λ s, se_id s = id) snapshots.
Proof. unfold snapshots_by_id. by rewrite snapshots_by_id_lookup_aux, lookup_empty. Qed.

Lemma duplicated_ids_empty seen snapshots :
  duplicated_ids seen snapshots = ∅ ↔
  NoDup (se_id <$> snapshots) ∧ ∀ s, s ∈ snapshots → se_id s ∉ seen.
Proof.
  revert seen. induction snapshots as [|s snapshots IH]; intros seen; csimpl.
  - split; [|done]. intros _. split; [constructor|set_solver].
  - rewrite NoDup_cons. case_decide as Hin.
    + split; [set_solver|]. intros [_ Hs]. exfalso. apply (Hs s); [by left|done].
    + rewrite (left_id_L ∅ (∪)), IH. split.
      * intros [Hnd Hs]. split; [split; [|done]|].
        -- intros (s' & Heq & Hs')%list_elem_of_fmap. specialize (Hs s' Hs'). set_solver.
        -- intros s' [->|Hs']%elem_of_cons; [done|]. specialize (Hs s' Hs'). set_solver.
      * intros [[Hni Hnd] Hs]. split; [done|]. intros s' Hs' [Heq%elem_of_singleton|Hin']%elem_of_union.
        -- apply Hni, list_elem_of_fmap. by exists s'.
        -- apply (Hs s'); [by right|done].
Qed.

Section Passed.
Context `{!HashBackend, !StorageCodec, !StorageCodecLaws, !HashOrder} {S : Type}.
Context `{!ObjectStore S, !ObjectStoreLaws S}.

Lemma root_and_parent_spec by_id (store : S) snapshots :
  ∃ issues, root_and_parent_issues by_id store snapshots = Ok issues ∧
    (issues = [] ↔ ∀ s, s ∈ snapshots → is_Some (contents store !! se_graph_root_hash s) ∧
                     ∀ p, se_parent_id s = Some p → is_Some (by_id !! p)).
Proof.
  induction snapshots as [|s snapshots (rest & Hrest & Hiff)]; cbn.
  { exists []. split; [done|]. set_solver. }
  rewrite exists_law, Hrest. eexists. split; [done|].
  rewrite !app_nil, Hiff. split.
  - intros (Hroot & Hpar & Hall) s' [->|Hs']%elem_of_cons; [|by apply Hall]. split.
    + by case_bool_decide.
    + intros p Hp. rewrite Hp in Hpar. by destruct (by_id !! p).
  - intros Hs. destruct (Hs s ltac:(by left)) as [Hroot Hpar].
    rewrite bool_decide_true by done. split; [done|]. split; [|intros s' ?; apply Hs; by right].
    destruct (se_parent_id s) as [p|]; [|done]. by destruct (Hpar p eq_refl) as [? ->].
Qed.

(** The store is healthy: the snapshots have distinct ids, their roots and
    parents are there, their chains end, and the external entries match. *)
Definition healthy (snapshots : list SnapshotEnvelope) (store : S) (input : SnapshotDiagnosticsInput)
  : Prop :=
  let by_id := snapshots_by_id snapshots in
  NoDup (se_id <$> snapshots) ∧
  (∀ s, s ∈ snapshots →
     is_Some (contents store !! se_graph_root_hash s) ∧
     (∀ p, se_parent_id s = Some p → p ∈ se_id <$> snapshots) ∧
     chain_ends (se_parent_id <$> by_id) (se_id s)) ∧
  (∀ e, e ∈ di_manifest_entries input ++ di_index_entries input →
     ∃ s, s ∈ snapshots ∧ se_id s = sn_snapshot_id e ∧ se_graph_root_hash s = sn_graph_root_hash e).

Lemma by_id_is_Some snapshots p :
  is_Some (snapshots_by_id snapshots !! p) ↔ p ∈ se_id <$> snapshots.
Proof.
  rewrite snapshots_by_id_lookup, find_first_is_Some, list_elem_of_fmap. naive_solver.
Qed.

Lemma entry_matches_iff snapshots e :
  NoDup (se_id <$> snapshots) →
  entry_matches (snapshots_by_id snapshots) e = true ↔
  ∃ s, s ∈ snapshots ∧ se_id s = sn_snapshot_id e ∧ se_graph_root_hash s = sn_graph_root_hash e.
Proof.
  intros Hnd. unfold entry_matches. rewrite snapshots_by_id_lookup.
  destruct (find_first _ snapshots) as [s|] eqn:E.
  - apply find_first_Some in E as [Hs Hid]. rewrite bool_decide_eq_true. split; [by exists s|].
    intros (s' & Hs' & Hid' & <-). f_equal. eapply (NoDup_fmap_key se_id); eauto. congruence.
  - rewrite find_first_None in E. split; [done|]. intros (s & Hs & Hid & _). by apply E in Hs.
Qed.

Lemma diag_duplicate_issues_nil snapshots :
  DuplicateSnapshotId <$> elements (duplicated_ids ∅ snapshots) = [] ↔ NoDup (se_id <$> snapshots).
Proof.
  transitivity (duplicated_ids ∅ snapshots = ∅).
  - split; [|intros ->; by rewrite elements_empty].
    intros Hnil%fmap_nil_inv. apply elem_of_equiv_empty_L. intros x Hx.
    rewrite <- elem_of_elements, Hnil in Hx. by apply not_elem_of_nil in Hx.
  - rewrite duplicated_ids_empty. split; [by intros [? _]|]. intros ?. split; [done|set_solver].
Qed.

Lemma stale_entries_nil by_id issue entries :
  stale_entries by_id issue entries = [] ↔ ∀ e, e ∈ entries → entry_matches by_id e = true.
Proof.
  unfold stale_entries. rewrite bind_nil_iff. split; intros Hs e He; specialize (Hs e He); by destruct (entry_matches by_id e).
Qed.

Lemma cycle_issues_nil by_id snapshots :
  cycle_issues by_id snapshots = [] ↔
  ∀ s, s ∈ snapshots → chain_ends (se_parent_id <$> by_id) (se_id s).
Proof.
  unfold cycle_issues. rewrite bind_nil_iff.
  split; intros Hs s Hin; specialize (Hs s Hin); rewrite <- walk_all_cycle in *;
    by destruct (walk_all _ _ _).2.
Qed.

(** C32: the diagnostics decide health.  The run never fails on a store that
    answers, and its report passes exactly when the snapshot ids are distinct,
    every graph root and every parent is present, every chain of parents comes
    to an end, and every manifest and index entry names a stored snapshot with
    its root. *)
Theorem diagnose_passes_iff_healthy snapshots (store : S) input :
  ∃ report, diagnose_snapshot_envelopes snapshots store input [] = Ok report ∧
    sr_snapshots_checked report = length snapshots ∧
    (sr_passed report = true ↔ healthy snapshots store input).
Proof.
  unfold diagnose_snapshot_envelopes. set (by_id := snapshots_by_id snapshots).
  destruct (root_and_parent_spec by_id store snapshots) as (rp & -> & Hrp).
  eexists. split; [done|]. split; [done|]. cbn [sr_passed app].
  set (issues := _ ++ rp ++ _).
  transitivity (issues = []).
  { unfold sort_snapshot_issues. destruct (merge_sort issue_le issues) eqn:E; split; try done.
    - intros _. apply Permutation_nil_r. by rewrite <- E, merge_sort_Permutation.
    - intros ->. done. }
  unfold issues. rewrite !app_nil, diag_duplicate_issues_nil, Hrp.
  rewrite !stale_entries_nil, cycle_issues_nil. unfold healthy. fold by_id.
  setoid_rewrite elem_of_app. setoid_rewrite <- by_id_is_Some. fold by_id. split.
  - intros (Hnd & Hr & Hm & Hi & Hc). split; [done|]. split.
    + intros s Hs. destruct (Hr s Hs). auto.
    + intros e [He|He]; apply entry_matches_iff; auto.
  - intros (Hnd & Hs & He). split; [done|]. split; [|split; [|split]].
    + intros s Hin. destruct (Hs s Hin) as (? & ? & _). auto.
    + intros e Hin. apply entry_matches_iff; auto.
    + intros e Hin. apply entry_matches_iff; auto.
    + intros s Hin. by destruct (Hs s Hin) as (_ & _ & ?).
Qed.
End Passed.

(* ------------------------------------------------------------------ *)
(** ** A healthy store and a cycle *)

Module DiagSample.
Import SampleCodec.

Definition genesis : SnapshotEnvelope := MkSnapshotEnvelope [1%N] [7%N] None None 1 None [] [].
Definition child : SnapshotEnvelope := MkSnapshotEnvelope [2%N] [7%N] (Some [1%N]) None 2 None [] [].
Definition looped : SnapshotEnvelope := MkSnapshotEnvelope [1%N] [7%N] (Some [2%N]) None 1 None [] [].

#[local] Instance diag_codec : StorageCodec := table_codec [genesis; child] [].

Definition roots : MemoryObjectStore := {[ [7%N] := [7%N] ]}.
Definition entries : SnapshotDiagnosticsInput :=
  MkSnapshotDiagnosticsInput [MkSnapshotEntry [2%N] [7%N]] [].

Lemma diagnose_passes_iff_healthy_witness :
  healthy [genesis; child] roots entries ∧ ¬ healthy [looped; child] roots entries.
Proof.
  destruct (diagnose_passes_iff_healthy [genesis; child] roots entries) as (r & Hr & _ & Hok).
  destruct (diagnose_passes_iff_healthy [looped; child] roots entries) as (r' & Hr' & _ & Hbad).
  split.
  - apply Hok. revert Hr. vm_compute. by intros [= <-].
  - rewrite <- Hbad. revert Hr'. vm_compute. by intros [= <-].
Defined.
End DiagSample.
