(* ===== verification/Retention.v ===== *)
(** * Retention, garbage collection and compaction

    ail-storage/src/retention.rs.  Policies and holds decide which snapshots
    survive; [gc_unreferenced] removes index entries, [run_gc] removes objects,
    and [gc_cycle] runs them in the order the module documents.  Durations are
    [u64] milliseconds with the saturating operations of the code. *)

From S2P Require Import Prelude Text ChangeModel Remote Storage SnapshotChains.
#[local] Open Scope N_scope.

Definition MILLIS_PER_DAY : N := 86400000.
Definition u64_MAX : N := u64_modulus - 1.
Definition u64_saturating_mul (a b : N) : N := (a * b) `min` u64_MAX.

Record RetentionPolicy : Type := MkRetentionPolicy {
  max_age_days : option N;
  keep_releases : bool;
  keep_tagged : bool;
}.

(** The window of rule 3; [now.saturating_sub(age)] is subtraction on [N]. *)
Definition in_age_window (policy : RetentionPolicy) (snapshot : SnapshotEnvelope) (now_ms : N) : bool :=
  match max_age_days policy with
  | Some max_days =>
      bool_decide (now_ms - u64_saturating_mul max_days MILLIS_PER_DAY ≤ se_created_at snapshot)
  | None => false
  end.

Definition is_retained (policy : RetentionPolicy) (snapshot : SnapshotEnvelope) (now_ms : N) : bool :=
  if keep_releases policy && bool_decide (se_parent_id snapshot = None) then true
  else if keep_tagged policy && bool_decide (is_Some (se_applied_change_id snapshot)) then true
  else in_age_window policy snapshot now_ms.

Record SnapshotHolds : Type := MkSnapshotHolds {
  sh_branch_heads : list ObjectId;
  sh_tag_locks : list ObjectId;
  sh_audit_holds : list ObjectId;
}.

Definition is_held (holds : SnapshotHolds) (id : ObjectId) : bool :=
  bool_decide (id ∈ sh_branch_heads holds) || bool_decide (id ∈ sh_tag_locks holds)
  || bool_decide (id ∈ sh_audit_holds holds).

Definition as_set (holds : SnapshotHolds) : gset ObjectId :=
  list_to_set (sh_branch_heads holds) ∪ list_to_set (sh_tag_locks holds)
  ∪ list_to_set (sh_audit_holds holds).

(* ------------------------------------------------------------------ *)
(** ** Policy diagnostics *)

Record RetentionPolicyIssueDescriptor : Type := MkRetentionIssue {
  ri_code : string;
  ri_category : string;
  ri_severity : string;
  ri_subject : string;
  ri_reason : string;
  ri_snapshot_ordinal : option nat;
  ri_message : string;
}.

Definition invalid_window_zero : RetentionPolicyIssueDescriptor :=
  MkRetentionIssue "retention.policy.max_age_zero" "retention.policy.invalid_window" "error" "policy"
    "max_age_days_zero" None "retention max_age_days must be greater than zero".

Definition invalid_window_overflow : RetentionPolicyIssueDescriptor :=
  MkRetentionIssue "retention.policy.max_age_overflow" "retention.policy.invalid_window" "error"
    "policy" "max_age_days_overflow" None "retention max_age_days exceeds millisecond window capacity".

Definition snapshot_protected (ordinal : nat) (reason : string) : RetentionPolicyIssueDescriptor :=
  MkRetentionIssue "retention.snapshot.protected" "retention.snapshot.protected" "info" "snapshot"
    reason (Some ordinal) "snapshot is protected by retention policy or explicit hold".

Definition snapshot_prune_eligible (ordinal : nat) : RetentionPolicyIssueDescriptor :=
  MkRetentionIssue "retention.snapshot.prune_eligible" "retention.snapshot.prune_eligible" "info"
    "snapshot" "unprotected" (Some ordinal) "snapshot is eligible for pruning".

Definition validate_retention_policy (policy : RetentionPolicy) : list RetentionPolicyIssueDescriptor :=
  match max_age_days policy with
  | None => []
  | Some days =>
      (if decide (days = 0) then [invalid_window_zero] else [])
      ++ (if decide (u64_MAX < days * MILLIS_PER_DAY) then [invalid_window_overflow] else [])
  end.

Definition snapshot_retention_reason (snapshot : SnapshotEnvelope) (policy : RetentionPolicy)
    (branch_holds tag_holds audit_holds : gset ObjectId) (now_ms : N) : option string :=
  if decide (se_id snapshot ∈ branch_holds) then Some "branch_hold"
  else if decide (se_id snapshot ∈ tag_holds) then Some "tag_hold"
  else if decide (se_id snapshot ∈ audit_holds) then Some "audit_hold"
  else if keep_releases policy && bool_decide (se_parent_id snapshot = None) then Some "release"
  else if keep_tagged policy && bool_decide (is_Some (se_applied_change_id snapshot))
       then Some "tagged_change"
  else if in_age_window policy snapshot now_ms then Some "age_window"
  else None.

(** The canonical order [(created_at, id)] of the snapshots. *)
Definition snapshot_le (a b : SnapshotEnvelope) : Prop :=
  se_created_at a < se_created_at b ∨
  (se_created_at a = se_created_at b ∧ bytes_le (se_id a) (se_id b) = true).
#[global] Instance snapshot_le_dec a b : Decision (snapshot_le a b).
Proof. unfold snapshot_le. apply _. Defined.

Definition sort_snapshots (l : list SnapshotEnvelope) : list SnapshotEnvelope :=
  merge_sort snapshot_le l.

(** The body of the loop of [describe_retention_policy_issues]. *)
Definition describe_snapshot (policy : RetentionPolicy) (holds : SnapshotHolds) (now_ms : N)
    (ordinal : nat) (snapshot : SnapshotEnvelope) : RetentionPolicyIssueDescriptor :=
  match snapshot_retention_reason snapshot policy (list_to_set (sh_branch_heads holds))
          (list_to_set (sh_tag_locks holds)) (list_to_set (sh_audit_holds holds)) now_ms with
  | Some reason => snapshot_protected ordinal reason
  | None => snapshot_prune_eligible ordinal
  end.

Definition issue_phase (i : RetentionPolicyIssueDescriptor) : N :=
  match ri_snapshot_ordinal i with Some _ => 1 | None => 0 end.

Definition code_ord (i : RetentionPolicyIssueDescriptor) : N :=
  if decide (ri_code i = "retention.policy.max_age_zero") then 0
  else if decide (ri_code i = "retention.policy.max_age_overflow") then 1
  else if decide (ri_code i = "retention.snapshot.protected") then 2
  else if decide (ri_code i = "retention.snapshot.prune_eligible") then 3
  else 255.

(** The comparison of [sort_retention_issue_descriptors]: phase, ordinal, code,
    then reason and message. *)
Definition ordinal_N (i : RetentionPolicyIssueDescriptor) : N :=
  match ri_snapshot_ordinal i with Some n => N.of_nat n + 1 | None => 0 end.

Definition retention_issue_le (a b : RetentionPolicyIssueDescriptor) : Prop :=
  issue_phase a < issue_phase b ∨
  issue_phase a = issue_phase b ∧
  (ordinal_N a < ordinal_N b ∨
   ordinal_N a = ordinal_N b ∧
   (code_ord a < code_ord b ∨
    code_ord a = code_ord b ∧
    (ri_reason a ≠ ri_reason b ∧ String.le (ri_reason a) (ri_reason b) ∨
     ri_reason a = ri_reason b ∧ String.le (ri_message a) (ri_message b)))).
#[global] Instance retention_issue_le_dec a b : Decision (retention_issue_le a b).
Proof. unfold retention_issue_le. apply _. Defined.

Definition describe_retention_policy_issues (snapshots : list SnapshotEnvelope)
    (policy : RetentionPolicy) (holds : SnapshotHolds) (now_ms : N)
  : list RetentionPolicyIssueDescriptor :=
  merge_sort retention_issue_le
    (validate_retention_policy policy
     ++ imap (describe_snapshot policy holds now_ms) (sort_snapshots snapshots)).

Record RetentionDiagnosticsReport : Type := MkRetentionDiagnosticsReport {
  rd_issues : list RetentionPolicyIssueDescriptor;
  rd_snapshots_examined : nat;
  rd_has_errors : bool;
}.

Record GcReport : Type := MkGcReport {
  gc_snapshots_examined : N;
  gc_snapshots_removed : N;
  gc_snapshots_retained : N;
}.

Record CompactionReport : Type := MkCompactionReport {
  cp_snapshots_merged : N;
  cp_covering_snapshot_id : ObjectId;
}.

Record ObjectGcReport : Type := MkObjectGcReport {
  og_objects_examined : N;
  og_objects_deleted : N;
  og_bytes_freed : N;
}.

(* ------------------------------------------------------------------ *)
(** ** Holds *)

Definition collect_branch_holds (branches : BranchRegistry) : list ObjectId :=
  br_target_snapshot_id <$> list_branches branches.

Definition collect_tag_holds (tags : TagRegistry) : list ObjectId :=
  tag_snapshot_id <$> list_tags tags.

(** [all_snapshots.into_iter().map(|s| (s.id, s.parent_id)).collect()]: a later
    entry replaces an earlier one. *)
Definition parent_map (snapshots : list SnapshotEnvelope) : ParentMap :=
  foldl (λ m s, <[se_id s := se_parent_id s]> m) ∅ snapshots.

Definition id_le (a b : ObjectId) : Prop := bytes_le a b = true.
#[global] Instance id_le_dec a b : Decision (id_le a b).
Proof. unfold id_le. apply _. Defined.

(** The elements of a [BTreeSet<ObjectId>] in order. *)
Definition btree_set_iter (s : gset ObjectId) : list ObjectId := merge_sort id_le (elements s).

Section Gc.
Context `{HashBackend, StorageCodec, HashOrder} {S : Type} `{ObjectStore S}.
#[local] Abbreviation G := (ObjectBackedGraphStore S).

Definition diagnose_retention_policy (g : G) (policy : RetentionPolicy) (holds : SnapshotHolds)
    (now_ms : N) : result RetentionDiagnosticsReport StorageError :=
  let? snapshots := list_snapshots g in
  let issues := describe_retention_policy_issues snapshots policy holds now_ms in
  Ok (MkRetentionDiagnosticsReport issues (length snapshots)
        (any (λ i, ri_severity i = "error") issues)).

Definition collect_branch_holds_with_ancestry (branches : BranchRegistry) (g : G)
  : result (list ObjectId) StorageError :=
  match list_branches branches with
  | [] => Ok []
  | bs =>
      let? all_snapshots := list_snapshots g in
      Ok (btree_set_iter (hold_chains (parent_map all_snapshots) (br_target_snapshot_id <$> bs)))
  end.

(** One turn of the loop: the encoded envelope and the graph root. *)
Fixpoint collect_reachable_object_ids_for_snapshots (retained : list SnapshotEnvelope)
  : result (gset ObjectId) StorageError :=
  match retained with
  | [] => Ok ∅
  | envelope :: retained' =>
      let? bytes := encode_snapshot envelope in
      let? rest := collect_reachable_object_ids_for_snapshots retained' in
      Ok ({[object_id_from_bytes bytes; se_graph_root_hash envelope]} ∪ rest)
  end.

(** The loop of [run_gc]. *)
Fixpoint gc_objects (ids : list ObjectId) (reachable : gset ObjectId) (report : ObjectGcReport)
    (store : S) : result (ObjectGcReport * S) StorageError :=
  match ids with
  | [] => Ok (report, store)
  | id :: ids' =>
      if decide (id ∈ reachable) then gc_objects ids' reachable report store
      else
        let? (freed, store') := delete_object id store in
        let report' := match freed with
                       | Some bytes =>
                           MkObjectGcReport (og_objects_examined report)
                             (u64_add (og_objects_deleted report) 1)
                             (u64_add (og_bytes_freed report) bytes)
                       | None => report
                       end in
        gc_objects ids' reachable report' store'
  end.

Definition run_gc (reachable : gset ObjectId) (store : S)
  : result (ObjectGcReport * S) StorageError :=
  let? all_ids := list_object_ids store in
  gc_objects all_ids reachable (MkObjectGcReport (N.of_nat (length all_ids)) 0 0) store.

(** The loop of [gc_unreferenced]. *)
Fixpoint gc_snapshots (snapshots : list SnapshotEnvelope) (retained_ids : gset ObjectId)
    (report : GcReport) (g : G) : GcReport * G :=
  match snapshots with
  | [] => (report, g)
  | s :: snapshots' =>
      if decide (se_id s ∈ retained_ids)
      then gc_snapshots snapshots' retained_ids
             (MkGcReport (gc_snapshots_examined report) (gc_snapshots_removed report)
                (u64_add (gc_snapshots_retained report) 1)) g
      else gc_snapshots snapshots' retained_ids
             (MkGcReport (gc_snapshots_examined report) (u64_add (gc_snapshots_removed report) 1)
                (gc_snapshots_retained report)) (delete_snapshot (se_id s) g)
  end.

Definition survives (policy : RetentionPolicy) (holds : SnapshotHolds) (now_ms : N)
    (s : SnapshotEnvelope) : Prop :=
  is_retained policy s now_ms = true ∨ se_id s ∈ as_set holds.

Definition gc_unreferenced (policy : RetentionPolicy) (holds : SnapshotHolds) (now_ms : N) (g : G)
  : result (GcReport * G) StorageError :=
  let? snapshots := list_snapshots g in
  let retained_ids : gset ObjectId :=
    list_to_set (se_id <$> filter (λ s, is_retained policy s now_ms = true ∨ se_id s ∈ as_set holds)
                   snapshots) in
  Ok (gc_snapshots snapshots retained_ids (MkGcReport (N.of_nat (length snapshots)) 0 0) g).

(** The covering snapshot of [compact_snapshots]. *)
Definition covering_snapshot (range : list SnapshotEnvelope) (first last : SnapshotEnvelope)
  : SnapshotEnvelope :=
  MkSnapshotEnvelope (object_id_from_bytes (range ≫= se_id)) (se_graph_root_hash last)
    (se_parent_id first) (se_applied_change_id last) (se_created_at last)
    (se_verification_report_hash last)
    (btree_set_iter (list_to_set (range ≫= se_audit_record_ids)))
    (btree_set_iter (list_to_set (range ≫= se_migration_metadata_ids))).

Definition compact_snapshots (range_start range_end : nat) (g : G)
  : result (CompactionReport * G) StorageError :=
  if decide (range_end < range_start)%nat then Err NotFound
  else
    let? all_snapshots := list_snapshots g in
    let all_snapshots := sort_snapshots all_snapshots in
    if decide (length all_snapshots ≤ range_end)%nat then Err NotFound
    else
      let range := take (range_end - range_start + 1) (drop range_start all_snapshots) in
      match head range, last range with
      | Some first, Some last =>
          let covering := covering_snapshot range first last in
          let? (_, g') := save_snapshot covering g in
          Ok (MkCompactionReport (N.of_nat (length range)) (se_id covering),
              foldl (λ g snap, delete_snapshot (se_id snap) g) g' range)
      | _, _ => Err NotFound
      end.

(** The sequence documented at [collect_reachable_object_ids_for_snapshots],
    for a graph store whose object store is the one collected. *)
Definition gc_cycle (policy : RetentionPolicy) (holds : SnapshotHolds) (now_ms : N) (g : G)
  : result G StorageError :=
  let? (_, g1) := gc_unreferenced policy holds now_ms g in
  let? retained := list_snapshots g1 in
  let? reachable := collect_reachable_object_ids_for_snapshots retained in
  let? (_, store) := run_gc reachable (gs_store g1) in
  Ok (MkGraphStore store (gs_snapshot_index g1)).
End Gc.

(* ------------------------------------------------------------------ *)
(** ** Policies and holds *)

Lemma is_held_as_set holds id : is_held holds id = true ↔ id ∈ as_set holds.
Proof.
  unfold is_held, as_set. rewrite !orb_true_iff, !bool_decide_eq_true. set_solver.
Qed.

Lemma retention_reason_survives s policy holds now_ms :
  is_Some (snapshot_retention_reason s policy (list_to_set (sh_branch_heads holds))
             (list_to_set (sh_tag_locks holds)) (list_to_set (sh_audit_holds holds)) now_ms) ↔
  survives policy holds now_ms s.
Proof.
  unfold snapshot_retention_reason, survives, is_retained, as_set.
  destruct (decide (se_id s ∈ list_to_set (sh_branch_heads holds))) as [|Hb]; [split; [set_solver|done]|].
  destruct (decide (se_id s ∈ list_to_set (sh_tag_locks holds))) as [|Ht]; [split; [set_solver|done]|].
  destruct (decide (se_id s ∈ list_to_set (sh_audit_holds holds))) as [|Ha]; [split; [set_solver|done]|].
  destruct (keep_releases policy && _); [split; [by left|done]|].
  destruct (keep_tagged policy && _); [split; [by left|done]|].
  destruct (in_age_window policy s now_ms); [split; [by left|done]|].
  split; [by intros [? ?]|]. intros [|Hin]; [done|]. set_solver.
Qed.

(** A window of days that is not too long protects exactly the snapshots of the
    last days. *)
Lemma age_window_exact policy s now_ms days :
  max_age_days policy = Some days → days * MILLIS_PER_DAY ≤ u64_MAX → now_ms < u64_modulus →
  in_age_window policy s now_ms = true ↔ now_ms ≤ se_created_at s + days * MILLIS_PER_DAY.
Proof.
  intros Hd Hm Hn. unfold in_age_window, u64_saturating_mul. rewrite Hd, bool_decide_eq_true.
  rewrite N.min_l by done. lia.
Qed.

Lemma parent_map_lookup snapshots s :
  NoDup (se_id <$> snapshots) → s ∈ snapshots → parent_of (parent_map snapshots) (se_id s) = se_parent_id s.
Proof.
  intros Hnd Hs. unfold parent_of, parent_map.
  enough (∀ m : ParentMap, foldl (λ m s, <[se_id s := se_parent_id s]> m) m snapshots !! se_id s =
            Some (se_parent_id s)) as -> by done.
  induction snapshots as [|x snapshots IH]; [by apply not_elem_of_nil in Hs|]. intros m.
  csimpl in *. apply NoDup_cons in Hnd as [Hx Hnd].
  apply elem_of_cons in Hs as [->|Hs]; [|by apply IH].
  clear -Hx. enough (∀ m : ParentMap, se_id x ∉ se_id <$> snapshots →
    foldl (λ m s, <[se_id s := se_parent_id s]> m) m snapshots !! se_id x = m !! se_id x) as H.
  { rewrite H by done. apply lookup_insert_eq. }
  clear m Hx. induction snapshots as [|y snapshots IH]; intros m Hx; [done|]. csimpl in *.
  rewrite IH by set_solver. rewrite lookup_insert_ne; [done|]. set_solver.
Qed.

Lemma btree_set_iter_elem s x : x ∈ btree_set_iter s ↔ x ∈ s.
Proof. unfold btree_set_iter. rewrite merge_sort_Permutation. apply elem_of_elements. Qed.

Lemma list_branches_elem (r : BranchRegistry) b :
  b ∈ list_branches r ↔ ∃ name, (r : gmap string Branch) !! name = Some b.
Proof.
  unfold list_branches. rewrite merge_sort_Permutation, list_elem_of_fmap. split.
  - intros ([n b'] & -> & Hb%elem_of_map_to_list). by exists n.
  - intros [n Hn]. exists (n, b). by rewrite elem_of_map_to_list.
Qed.

(* ------------------------------------------------------------------ *)
(** ** Collection *)

Lemma and_iff_compat_l' (P Q R : Prop) : (P → Q ↔ R) → P ∧ Q ↔ P ∧ R.
Proof. tauto. Qed.

Section GcFacts.
Context `{!HashBackend, !StorageCodec, !StorageCodecLaws, !HashOrder} {S : Type}.
Context `{!ObjectStore S, !ObjectStoreLaws S}.
Implicit Types (g : ObjectBackedGraphStore S).

Lemma gc_snapshots_spec snapshots retained_ids report g :
  let '(_, g') := gc_snapshots snapshots retained_ids report g in
  gs_store g' = gs_store g ∧ (graph_store_wf g → graph_store_wf g') ∧
  ∀ id v, stores g' id v ↔ stores g id v ∧ (id ∈ se_id <$> snapshots → id ∈ retained_ids).
Proof.
  revert report g. induction snapshots as [|s snapshots IH]; intros report g; cbn [gc_snapshots].
  { split; [done|]. split; [done|]. intros id v. set_solver. }
  case_decide as Hs.
  - specialize (IH (MkGcReport (gc_snapshots_examined report) (gc_snapshots_removed report)
                      (u64_add (gc_snapshots_retained report) 1)) g).
    destruct (gc_snapshots snapshots retained_ids _ g) as [r' g']. destruct IH as (Hst & Hwf & Hiff).
    split; [done|]. split; [done|]. intros id v. rewrite Hiff. csimpl. set_solver.
  - specialize (IH (MkGcReport (gc_snapshots_examined report) (u64_add (gc_snapshots_removed report) 1)
                      (gc_snapshots_retained report)) (delete_snapshot (se_id s) g)).
    destruct (gc_snapshots snapshots retained_ids _ _) as [r' g']. destruct IH as (Hst & Hwf & Hiff).
    split; [done|]. split; [intros; by apply Hwf, delete_snapshot_wf|].
    intros id v. rewrite Hiff, delete_snapshot_stores. csimpl. split; [|set_solver].
    intros [[Hne Hv] Hr]. split; [done|]. intros [->|Hin]%elem_of_cons; [done|auto].
Qed.

Lemma gc_unreferenced_spec policy holds now_ms g :
  graph_store_wf g →
  ∃ report g', gc_unreferenced policy holds now_ms g = Ok (report, g') ∧ graph_store_wf g' ∧
    gs_store g' = gs_store g ∧
    ∀ id v, stores g' id v ↔ stores g id v ∧ survives policy holds now_ms v.
Proof.
  intros Hwf. destruct (list_snapshots_spec g Hwf) as (vs & Hvs & Hnd & Hel & _).
  unfold gc_unreferenced. rewrite Hvs. set (ids := list_to_set _). set (rep := MkGcReport _ _ _).
  pose proof (gc_snapshots_spec vs ids rep g) as Hspec.
  destruct (gc_snapshots vs ids rep g) as [report g']. destruct Hspec as (Hst & Hwf' & Hiff).
  exists report, g'. split; [done|]. split; [by apply Hwf'|]. split; [done|].
  intros id v. rewrite Hiff. apply and_iff_compat_l'. intros Hv.
  pose proof Hv as (b & _ & _ & Hid & _). subst id.
  assert (v ∈ vs) as Hin by by apply Hel.
  assert (se_id v ∈ se_id <$> vs) as Hin' by (apply list_elem_of_fmap; by exists v).
  unfold ids. rewrite elem_of_list_to_set. split.
  - intros Hr. apply list_elem_of_fmap in Hr as (v' & Heq & [Hs Hv']%list_elem_of_filter); [|done].
    by rewrite (NoDup_fmap_key se_id vs v v').
  - intros Hs _. apply list_elem_of_fmap. exists v. split; [done|]. by apply list_elem_of_filter.
Qed.

Lemma gc_objects_spec ids reachable report (store : S) :
  ∃ report' store', gc_objects ids reachable report store = Ok (report', store') ∧
    ∀ id, contents store' !! id =
      if decide (id ∈ ids ∧ id ∉ reachable) then None else contents store !! id.
Proof.
  revert report store. induction ids as [|x ids IH]; intros report store; cbn [gc_objects].
  { exists report, store. split; [done|]. intros id. by rewrite decide_False by set_solver. }
  case_decide as Hx.
  - destruct (IH report store) as (r & s' & -> & Hc). exists r, s'. split; [done|].
    intros id. rewrite Hc. apply decide_ext. set_solver.
  - destruct (delete_law x store) as (s1 & -> & Hd). cbn.
    destruct (IH (match N.of_nat ∘ length <$> contents store !! x with
                  | Some bytes => MkObjectGcReport (og_objects_examined report)
                                    (u64_add (og_objects_deleted report) 1)
                                    (u64_add (og_bytes_freed report) bytes)
                  | None => report end) s1) as (r & s' & -> & Hc).
    exists r, s'. split; [done|]. intros id. rewrite Hc, Hd.
    destruct (decide (id = x)) as [->|Hne].
    + rewrite lookup_delete_eq. rewrite (decide_True (P := x ∈ x :: ids ∧ _)) by set_solver.
      by case_decide.
    + rewrite lookup_delete_ne by done. apply decide_ext. set_solver.
Qed.

Lemma run_gc_spec reachable (store : S) :
  ∃ report store', run_gc reachable store = Ok (report, store') ∧
    ∀ id, contents store' !! id = if decide (id ∈ reachable) then contents store !! id else None.
Proof.
  unfold run_gc. destruct (list_law store) as (ids & -> & Hperm).
  destruct (gc_objects_spec ids reachable (MkObjectGcReport (N.of_nat (length ids)) 0 0) store)
    as (r & s' & -> & Hc).
  exists r, s'. split; [done|]. intros id. rewrite Hc.
  assert (id ∈ ids ↔ is_Some (contents store !! id)) as Hin.
  { rewrite Hperm, elem_of_elements. apply elem_of_dom. }
  repeat case_decide; try done; [set_solver|].
  destruct (contents store !! id) eqn:E; [|done]. exfalso. set_solver.
Qed.

Lemma collect_reachable_spec vs :
  (∀ v, v ∈ vs → ∃ bytes, encode_snapshot v = Ok bytes) →
  ∃ reachable, collect_reachable_object_ids_for_snapshots vs = Ok reachable ∧
    ∀ x, x ∈ reachable ↔ ∃ v bytes, v ∈ vs ∧ encode_snapshot v = Ok bytes ∧
                          (x = object_id_from_bytes bytes ∨ x = se_graph_root_hash v).
Proof.
  induction vs as [|v vs IH]; intros Henc; cbn.
  { exists ∅. split; [done|]. intros x. split; [set_solver|]. intros (v & b & Hv & _). by apply not_elem_of_nil in Hv. }
  destruct (Henc v ltac:(by left)) as [b Hb]. rewrite Hb.
  destruct IH as (r & -> & Hr); [intros v' ?; apply Henc; by right|].
  eexists. split; [done|]. intros x. rewrite elem_of_union, Hr. split.
  - intros [Hx|(v' & b' & Hv' & Hrest)].
    + exists v, b. split; [by left|]. split; [done|]. set_solver.
    + exists v', b'. by split; [right|].
  - intros (v' & b' & [->|Hv']%elem_of_cons & Heb & Hx); [left|right; eauto].
    assert (b' = b) as -> by congruence. set_solver.
Qed.

(** What the cycle keeps of a listed snapshot: its own envelope and its graph root. *)
Definition needed g (x : ObjectId) : Prop :=
  ∃ v bytes, stores g (se_id v) v ∧ encode_snapshot v = Ok bytes ∧
    (x = object_id_from_bytes bytes ∨ x = se_graph_root_hash v).

(** A store cut down to the objects its listed snapshots need still holds them. *)
Lemma keep_needed g (store' : S) :
  graph_store_wf g →
  (∀ x bytes, contents store' !! x = Some bytes ↔ contents (gs_store g) !! x = Some bytes ∧ needed g x) →
  let g' := MkGraphStore store' (gs_snapshot_index g) in
  graph_store_wf g' ∧ ∀ id v, stores g' id v ↔ stores g id v.
Proof.
  intros [Ha Hwf] Hc g'.
  assert (∀ id v, stores g' id v ↔ stores g id v) as Hiff.
  { intros id v. unfold stores, g'. cbn. split.
    - intros (b & Hi & He & Hid & Hb). exists b. repeat split; try done. by apply Hc in Hb as [? _].
    - intros (b & Hi & He & Hid & Hb). exists b. repeat split; try done. apply Hc. split; [done|].
      exists v, b. subst id. split; [by exists b|]. auto. }
  split; [split|done].
  - intros id b [Hb _]%Hc. by apply Ha.
  - intros id cas Hi. destruct (Hwf id cas Hi) as [v Hv]. exists v. by apply Hiff.
Qed.

Lemma gc_cycle_spec policy holds now_ms g :
  graph_store_wf g →
  ∃ g', gc_cycle policy holds now_ms g = Ok g' ∧ graph_store_wf g' ∧
    (∀ id v, stores g' id v ↔ stores g id v ∧ survives policy holds now_ms v) ∧
    (∀ x bytes, contents (gs_store g') !! x = Some bytes ↔
       contents (gs_store g) !! x = Some bytes ∧ needed g' x).
Proof.
  intros Hwf. unfold gc_cycle.
  destruct (gc_unreferenced_spec policy holds now_ms g Hwf) as (rep & g1 & -> & Hwf1 & Hst & Hsurv).
  cbn. destruct (list_snapshots_spec g1 Hwf1) as (vs & -> & _ & Hel & _). cbn.
  destruct (collect_reachable_spec vs) as (reach & -> & Hreach).
  { intros v (b & _ & Hb & _)%Hel. by exists b. }
  cbn. destruct (run_gc_spec reach (gs_store g1)) as (rep2 & store' & -> & Hc).
  assert (∀ x bytes, contents store' !! x = Some bytes ↔
            contents (gs_store g1) !! x = Some bytes ∧ needed g1 x) as Hc'.
  { intros x bytes. rewrite Hc. unfold needed. setoid_rewrite <- Hel. rewrite <- Hreach.
    case_decide; naive_solver. }
  destruct (keep_needed g1 store' Hwf1 Hc') as [Hwf' Hiff].
  eexists. split; [done|]. split; [done|]. split.
  - intros id v. by rewrite Hiff.
  - intros x bytes. cbn. rewrite Hc', Hst. unfold needed. by setoid_rewrite Hiff.
Qed.
End GcFacts.

(** ** Compaction *)

Section CompactFacts.
Context `{!HashBackend, !StorageCodec, !StorageCodecLaws, !HashOrder} {S : Type}.
Context `{!ObjectStore S, !ObjectStoreLaws S}.
Implicit Types (g : ObjectBackedGraphStore S).

Lemma delete_all_spec range g :
  let g' := foldl (λ g snap, delete_snapshot (se_id snap) g) g range in
  (graph_store_wf g → graph_store_wf g') ∧
  ∀ id v, stores g' id v ↔ (id ∉ se_id <$> range) ∧ stores g id v.
Proof.
  revert g. induction range as [|s range IH]; intros g; cbn [foldl]; cbn zeta.
  { split; [done|]. set_solver. }
  destruct (IH (delete_snapshot (se_id s) g)) as [Hwf Hiff].
  split; [intros; by apply Hwf, delete_snapshot_wf|].
  intros id v. rewrite Hiff, delete_snapshot_stores. csimpl. set_solver.
Qed.

(** The slice [all_snapshots[range_start..=range_end]] of the sorted listing. *)
Definition compacted_range (vs : list SnapshotEnvelope) (range_start range_end : nat)
  : list SnapshotEnvelope :=
  take (range_end - range_start + 1) (drop range_start (sort_snapshots vs)).

Lemma compacted_range_ends vs lo hi :
  (lo ≤ hi < length vs)%nat →
  ∃ first last, head (compacted_range vs lo hi) = Some first ∧
    list.last (compacted_range vs lo hi) = Some last.
Proof.
  intros Hb. assert (length (compacted_range vs lo hi) = hi - lo + 1)%nat as Hl.
  { unfold compacted_range, sort_snapshots.
    rewrite length_take, length_drop, (Permutation_length (merge_sort_Permutation _ vs)). lia. }
  destruct (compacted_range vs lo hi) as [|s l] eqn:E; [cbn in Hl; lia|]. exists s.
  destruct (list.last (s :: l)) as [x|] eqn:El; [by exists x|]. by apply last_None in El.
Qed.

Lemma compacted_range_sub vs lo hi v : v ∈ compacted_range vs lo hi → v ∈ vs.
Proof.
  unfold compacted_range, sort_snapshots. intros (i & Hi)%list_elem_of_lookup.
  apply lookup_take_Some in Hi as [Hi _]. rewrite lookup_drop in Hi.
  rewrite <- (merge_sort_Permutation snapshot_le vs). by eapply list_elem_of_lookup_2.
Qed.
End CompactFacts.

(* ------------------------------------------------------------------ *)
(** ** What collection and compaction promise *)

Section Promises.
Context `{!HashBackend, !StorageCodec, !StorageCodecLaws, !HashOrder} {S : Type}.
Context `{!ObjectStore S, !ObjectStoreLaws S}.
Implicit Types (g : ObjectBackedGraphStore S).

(** What protects a snapshot: a hold of a branch, a tag or an audit, or the policy, which keeps first snapshots, snapshots
    of an applied change, and those of the last days (of 86,400,000 ms). *)
Definition protected (policy : RetentionPolicy) (holds : SnapshotHolds) (now_ms : N) (v : SnapshotEnvelope) : Prop :=
  (se_id v ∈ sh_branch_heads holds ∨ se_id v ∈ sh_tag_locks holds ∨ se_id v ∈ sh_audit_holds holds) ∨
  (keep_releases policy = true ∧ se_parent_id v = None) ∨
  (keep_tagged policy = true ∧ se_applied_change_id v ≠ None) ∨
  (∃ days, max_age_days policy = Some days ∧ now_ms ≤ se_created_at v + days * 86400000).

Lemma survives_protected policy holds now_ms v :
  now_ms < u64_modulus → survives policy holds now_ms v ↔ protected policy holds now_ms v.
Proof.
  intros Hn. assert (in_age_window policy v now_ms = true ↔
    ∃ days, max_age_days policy = Some days ∧ now_ms ≤ se_created_at v + days * 86400000) as Hage.
  { unfold in_age_window, u64_saturating_mul, u64_MAX, u64_modulus, MILLIS_PER_DAY in *.
    destruct (max_age_days policy) as [days|]; [|naive_solver]. rewrite bool_decide_eq_true. split.
    - intros Hc. exists days. split; [done|]. lia.
    - intros (d & [= <-] & Hc). lia. }
  unfold survives, protected, is_retained. rewrite <- is_held_as_set. unfold is_held.
  rewrite !orb_true_iff, !bool_decide_eq_true, <- Hage.
  destruct (keep_releases policy), (keep_tagged policy); cbn [andb]; repeat case_bool_decide;
    destruct (se_applied_change_id v); naive_solver.
Qed.

(** The records a snapshot names beside its graph root: the applied change, the verification report, audit records and
    migration metadata *)
Definition side_record (v : SnapshotEnvelope) (x : ObjectId) : Prop :=
  se_applied_change_id v = Some x ∨ se_verification_report_hash v = Some x ∨
  x ∈ se_audit_record_ids v ∨ x ∈ se_migration_metadata_ids v.

(** The objects a loadable snapshot is made of: its envelope and everything it names *)
Definition belongs g (x : ObjectId) : Prop :=
  ∃ id v, load_snapshot id g = Ok (Some v) ∧
    ((∃ bytes, encode_snapshot v = Ok bytes ∧ x = object_id_from_bytes bytes) ∨ x = se_graph_root_hash v ∨ side_record v x).

(** C28: a collection cycle is exact.  On a well-formed store, at a time below 2^64 ms, when no record named by a protected
    snapshot beside its graph root (applied change, verification report, audit record, migration metadata) is an object
    of the collected store, the documented cycle succeeds and leaves a well-formed store; the snapshots that load are
    those that loaded before and that a hold or the policy protects; and the objects that remain, with their contents, are
    those of the store that belong to these snapshots.  (The condition is needed: such records are collected.) *)
Theorem gc_cycle_exact policy holds now_ms g :
  graph_store_wf g → now_ms < u64_modulus →
  (∀ id v x, load_snapshot id g = Ok (Some v) → protected policy holds now_ms v → side_record v x →
     get x (gs_store g) = Ok None) →
  ∃ g', gc_cycle policy holds now_ms g = Ok g' ∧ graph_store_wf g' ∧
    (∀ id v, load_snapshot id g' = Ok (Some v) ↔
       load_snapshot id g = Ok (Some v) ∧ protected policy holds now_ms v) ∧
    (∀ x bytes, get x (gs_store g') = Ok (Some bytes) ↔
       get x (gs_store g) = Ok (Some bytes) ∧ belongs g' x).
Proof.
  intros Hwf Hn Hside. destruct (gc_cycle_spec policy holds now_ms g Hwf) as (g' & Hgc & Hwf' & Hst & Hc).
  assert (∀ id v, load_snapshot id g' = Ok (Some v) ↔
    load_snapshot id g = Ok (Some v) ∧ protected policy holds now_ms v) as Hload.
  { intros id v. rewrite !load_snapshot_iff, <- survives_protected by done. apply Hst. }
  exists g'. split_and!; [done..|]. intros x bytes. rewrite !get_law. split.
  - intros [= Hx]. apply Hc in Hx as [Hx (v & b & Hv & He & Hor)]. split; [by rewrite Hx|].
    exists (se_id v), v. split; [by apply load_snapshot_iff|]. destruct Hor as [->| ->]; [left; eauto|right; by left].
  - intros [[= Hx] (id & v & Hv & Hor)]. f_equal. apply Hc. split; [done|]. apply Hload in Hv as Hvg. destruct Hvg as [Hvg Hp].
    apply load_snapshot_iff in Hv; [|done]. pose proof Hv as (b & _ & He & <- & _). exists v, b. split; [done|]. split; [done|].
    destruct Hor as [(b' & Hb' & ->)|[->|Hs]]; [left; congruence|by right|].
    specialize (Hside _ _ _ Hvg Hp Hs). rewrite get_law in Hside. congruence.
Qed.

(** One parent link of the stored snapshots. *)
Definition parent_link g (x y : ObjectId) : Prop :=
  ∃ v, load_snapshot x g = Ok (Some v) ∧ se_parent_id v = Some y.

Lemma parent_link_ancestor g vs x y :
  graph_store_wf g → NoDup (se_id <$> vs) → (∀ v, v ∈ vs ↔ stores g (se_id v) v) →
  rtc (parent_link g) x y → ancestor (parent_map vs) x y.
Proof.
  intros Hwf Hnd Hel Hr. induction Hr as [|x y z (v & Hv & Hp) _ IH]; [apply rtc_refl|].
  eapply rtc_l; [|exact IH]. apply load_snapshot_iff in Hv; [|done].
  pose proof Hv as (b & _ & _ & <- & _). unfold parent_step.
  by rewrite parent_map_lookup by (try apply Hel; done).
Qed.

(** C29: the history of a branch survives collection.  When the holds are those
    of [collect_branch_holds_with_ancestry], whatever the policy, every
    snapshot on the parent chain of a branch head that loads before the cycle
    loads after it. *)
Theorem branch_history_survives policy tags audits now_ms branches g (Hwf : graph_store_wf g) :
  ∃ held g', collect_branch_holds_with_ancestry branches g = Ok held ∧
    gc_cycle policy (MkSnapshotHolds held tags audits) now_ms g = Ok g' ∧
    ∀ name b id v, get_branch name branches = Some b →
      rtc (parent_link g) (br_target_snapshot_id b) id →
      load_snapshot id g = Ok (Some v) → load_snapshot id g' = Ok (Some v).
Proof.
  destruct (list_snapshots_spec g Hwf) as (vs & Hvs & Hnd & Hel & _).
  assert (∃ held, collect_branch_holds_with_ancestry branches g = Ok held ∧
    ∀ b x, b ∈ list_branches branches → ancestor (parent_map vs) (br_target_snapshot_id b) x →
      x ∈ held) as (held & Hheld & Hin).
  { unfold collect_branch_holds_with_ancestry. destruct (list_branches branches) as [|b0 bs] eqn:E.
    - exists []. split; [done|]. intros b x Hb. by apply not_elem_of_nil in Hb.
    - rewrite Hvs. eexists. split; [done|]. intros b x Hb Ha. apply btree_set_iter_elem, hold_chains_spec.
      exists (br_target_snapshot_id b). split; [|done]. apply list_elem_of_fmap. by exists b. }
  destruct (gc_cycle_spec policy (MkSnapshotHolds held tags audits) now_ms g Hwf)
    as (g' & Hgc & Hwf' & Hst & _).
  exists held, g'. split; [done|]. split; [done|]. intros name b id v Hb Hr Hv.
  apply load_snapshot_iff; [done|]. apply load_snapshot_iff in Hv; [|done].
  apply Hst. split; [done|]. right. pose proof Hv as (bytes & _ & _ & -> & _).
  apply is_held_as_set. unfold is_held. cbn. rewrite bool_decide_true; [done|].
  apply (Hin b); [|by eapply (parent_link_ancestor g)].
  apply list_branches_elem. by exists name.
Qed.

(** After the covering snapshot is saved and the range deleted. *)
Lemma replace_range_loads g g1 vs range covering :
  graph_store_wf g → graph_store_wf g1 → list_snapshots g = Ok vs →
  (∀ v, v ∈ range → v ∈ vs) → load_snapshot (se_id covering) g = Ok None →
  load_snapshot (se_id covering) g1 = Ok (Some covering) →
  (∀ id, id ≠ se_id covering → load_snapshot id g1 = load_snapshot id g) →
  let g' := foldl (λ g snap, delete_snapshot (se_id snap) g) g1 range in
  graph_store_wf g' ∧
  ∀ id v, load_snapshot id g' = Ok (Some v) ↔
    id = se_id covering ∧ v = covering ∨ load_snapshot id g = Ok (Some v) ∧ v ∉ range.
Proof.
  intros Hwf Hwf1 Hvs Hsub Hnew Hcov Hold g'.
  destruct (list_snapshots_spec g Hwf) as (vs' & Hvs' & Hnd & Hel & _).
  assert (vs' = vs) as -> by congruence.
  destruct (delete_all_spec range g1) as [Hwfd Hdel]. fold g' in Hwfd, Hdel.
  split; [auto|]. intros id v. rewrite load_snapshot_iff, Hdel, <- load_snapshot_iff by auto.
  assert (∀ u, u ∈ range → load_snapshot (se_id u) g = Ok (Some u)) as Hload.
  { intros u Hu%Hsub%Hel. by apply load_stores. }
  destruct (decide (id = se_id covering)) as [->|Hne].
  - rewrite Hcov, Hnew. split; [intros [_ [= <-]]; by left|].
    intros [[_ ->]|[? _]]; [|done]. split; [|done].
    intros (u & Hid & Hu%Hload)%list_elem_of_fmap. congruence.
  - rewrite Hold by done. split.
    + intros [Hn Hv]. right. split; [done|]. intros Hr. apply Hn, list_elem_of_fmap. exists v.
      split; [|done]. apply load_snapshot_iff in Hv as (? & _ & _ & ? & _); auto.
    + intros [[? _]|[Hv Hn]]; [done|]. split; [|done].
      intros (u & -> & Hu)%list_elem_of_fmap. pose proof (Hload u Hu). congruence.
Qed.

(** Compaction replaces a range.  When the range lies in the listing, the
    covering snapshot can be encoded and its id is new, compaction succeeds and
    the store then lists the covering snapshot and the snapshots outside the
    range, unless BLAKE3 collides.  A snapshot outside the range keeps its
    parent link, so that a link into the range leads nowhere afterwards. *)
Theorem compact_snapshots_spec lo hi g vs first last bytes
    (Hwf : graph_store_wf g) (Hvs : list_snapshots g = Ok vs) (Hb : (lo ≤ hi < length vs)%nat)
    (range := compacted_range vs lo hi)
    (Hends : head range = Some first ∧ list.last range = Some last)
    (covering := covering_snapshot range first last)
    (Henc : encode_snapshot covering = Ok bytes)
    (Hnew : load_snapshot (se_id covering) g = Ok None) :
  (∃ g', compact_snapshots lo hi g =
           Ok (MkCompactionReport (N.of_nat (length range)) (se_id covering), g') ∧
     graph_store_wf g' ∧
     (∀ id v, load_snapshot id g' = Ok (Some v) ↔
        id = se_id covering ∧ v = covering ∨
        load_snapshot id g = Ok (Some v) ∧ v ∉ range) ∧
     (∀ child parent, child ∈ vs → child ∉ range → parent ∈ range →
        se_parent_id child = Some (se_id parent) →
        load_snapshot (se_id child) g' = Ok (Some child) ∧
        load_snapshot (se_id parent) g' = Ok None))
  ∨ hash_collision.
Proof.
  destruct (save_snapshot_spec covering g bytes Hwf Henc) as [(g1 & Hsave & Hwf1 & Hnewl & Hold)|?];
    [left|by right].
  assert (∀ v, v ∈ range → v ∈ vs) as Hsub by (intros v; apply compacted_range_sub).
  destruct (replace_range_loads g g1 vs range covering) as [Hwf' Hiff]; try done.
  eexists. split.
  { destruct Hends as [Hf Hl]. unfold compact_snapshots. rewrite decide_False by lia. rewrite Hvs.
    cbn zeta. rewrite decide_False by (unfold sort_snapshots;
      rewrite (Permutation_length (merge_sort_Permutation _ vs)); lia).
    fold (compacted_range vs lo hi). fold range. rewrite Hf, Hl. fold covering. by rewrite Hsave. }
  split; [exact Hwf'|]. split; [exact Hiff|]. intros child parent Hc Hnc Hp _.
  assert (∀ v, v ∈ vs → load_snapshot (se_id v) g = Ok (Some v)) as Hload.
  { destruct (list_snapshots_spec g Hwf) as (vs' & Hvs' & _ & Hel & _).
    intros v Hv. apply load_stores, Hel. congruence. }
  split; [apply Hiff; auto|].
  destruct (load_snapshot_total _ (se_id parent) Hwf') as [[v|] Hv]; [|done].
  pose proof (Hload parent (Hsub _ Hp)). apply Hiff in Hv as [[? _]|[? ?]]; congruence.
Qed.
End Promises.

(** ** Witnesses *)

Module RetentionSample.
Import SampleCodec.

(** Three snapshots in a row; the second has an audit record. *)
Definition root : list N := [7].
Definition s1 : SnapshotEnvelope := MkSnapshotEnvelope [1] root None None 1 None [] [].
Definition s2 : SnapshotEnvelope := MkSnapshotEnvelope [2] root (Some [1]) None 2 None [[9]] [].
Definition s3 : SnapshotEnvelope := MkSnapshotEnvelope [3] root (Some [2]) None 3 None [] [].

(** What compaction makes of the first two. *)
Definition s12 : SnapshotEnvelope := MkSnapshotEnvelope [1; 2] root None None 2 None [[9]] [].

#[local] Instance sample_codec : StorageCodec := table_codec [s1; s2; s3; s12] [].

Definition save_all (vs : list SnapshotEnvelope) (g : ObjectBackedGraphStore MemoryObjectStore)
  : ObjectBackedGraphStore MemoryObjectStore :=
  foldl (λ g v, match save_snapshot v g with Ok (_, g') => g' | Err _ => g end) g vs.

Definition chain : ObjectBackedGraphStore MemoryObjectStore :=
  save_all [s1; s2; s3] (graph_store_new ({[ [7] := [7]; [9] := [9] ]} : gmap ObjectId (list N))).

Lemma save_all_wf vs g :
  graph_store_wf g → graph_store_wf (save_all vs g).
Proof.
  revert g. induction vs as [|v vs IH]; intros g Hg; [done|]. apply IH.
  destruct (encode_snapshot v) as [bytes|e] eqn:He; [|unfold save_snapshot; by rewrite He].
  destruct (save_snapshot_spec v g bytes Hg He) as [(g' & -> & Hwf & _)|(a & b & Hne & Heq)]; [done|].
  by cbn in Heq.
Qed.

Lemma chain_wf : graph_store_wf chain.
Proof.
  apply save_all_wf. split; [|by intros id cas Hi].
  intros id bytes Hb. cbn in *. apply lookup_insert_Some in Hb as [[<- <-]|[_ Hb]]; [done|].
  by apply lookup_singleton_Some in Hb as [<- <-].
Qed.

Definition expire : RetentionPolicy := MkRetentionPolicy None false false.
Definition hold_tip : SnapshotHolds := MkSnapshotHolds [[2]] [] [].

(** An audit record of a snapshot that a hold protects is collected. *)
Example audit_record_collected :
  match gc_cycle expire hold_tip 0 chain with
  | Ok g' => load_snapshot [2] g' = Ok (Some s2) ∧ get [9] (gs_store chain) = Ok (Some [9]) ∧ get [9] (gs_store g') = Ok None
  | Err _ => False
  end.
Proof. vm_compute. by split_and!. Qed.

(** The last snapshot is held: it remains with its root, and the audit record of its parent goes. *)
Definition hold_last : SnapshotHolds := MkSnapshotHolds [[3]] [] [].

Lemma sample_encoded v bytes : encode_snapshot v = Ok bytes → v ∈ [s1; s2; s3; s12].
Proof.
  intros He. pose proof (position_roundtrip [s1; s2; s3; s12] v bytes He) as Hr. unfold at_position in Hr.
  destruct bytes as [|n [|]]; try done. destruct ([s1; s2; s3; s12] !! N.to_nat n) as [w|] eqn:E; [|done].
  injection Hr as <-. by eapply list_elem_of_lookup_2.
Qed.

Lemma gc_cycle_exact_witness :
  ∃ g', gc_cycle expire hold_last 0 chain = Ok g' ∧ load_snapshot [3] g' = Ok (Some s3) ∧ load_snapshot [2] g' = Ok None ∧
    (∀ x bytes, get x (gs_store g') = Ok (Some bytes) ↔ get x (gs_store chain) = Ok (Some bytes) ∧ belongs g' x).
Proof.
  destruct (gc_cycle_exact expire hold_last 0 chain chain_wf) as (g' & Hgc & _ & Hload & Hobj).
  - reflexivity.
  - intros id v x Hv Hp Hs. apply load_snapshot_iff in Hv; [|apply chain_wf]. destruct Hv as (b & _ & He & _).
    assert (se_id v = [3]) as Hid.
    { destruct Hp as [[Hp|[Hp|Hp]]|[[[=] _]|[[[=] _]|(d & [=] & _)]]]; [by apply list_elem_of_singleton in Hp|..];
        by apply not_elem_of_nil in Hp. }
    apply sample_encoded in He. rewrite !elem_of_cons, elem_of_nil in He. destruct He as [->|[->|[->|[->|[]]]]]; try done.
    destruct Hs as [[=]|[[=]|[Hs|Hs]]]; by apply not_elem_of_nil in Hs.
  - exists g'. split; [exact Hgc|]. split; [|split; [|exact Hobj]].
    + apply Hload. split; [vm_compute; reflexivity|]. left. left. by left.
    + revert Hgc. vm_compute. intros [= <-]. reflexivity.
Defined.

Definition main_branch : BranchRegistry := {[ "main" := MkBranch "main" [3] 0 ]}.

Lemma branch_history_survives_witness :
  ∃ held g', collect_branch_holds_with_ancestry main_branch chain = Ok held ∧
    gc_cycle expire (MkSnapshotHolds held [] []) 0 chain = Ok g' ∧
    load_snapshot [1] g' = Ok (Some s1).
Proof.
  destruct (branch_history_survives expire [] [] 0 main_branch chain chain_wf)
    as (held & g' & Hh & Hgc & Hall).
  exists held, g'. split; [done|]. split; [done|].
  apply (Hall "main" (MkBranch "main" [3] 0)); [reflexivity| |vm_compute; reflexivity].
  eapply (rtc_l _ _ [2]); [|eapply (rtc_l _ _ [1]); [|apply rtc_refl]].
  - exists s3. split; vm_compute; reflexivity.
  - exists s2. split; vm_compute; reflexivity.
Defined.

Lemma compact_snapshots_spec_witness :
  ∃ report g', compact_snapshots 0 1 chain = Ok (report, g') ∧
    load_snapshot [3] g' = Ok (Some s3) ∧ load_snapshot [2] g' = Ok None.
Proof.
  destruct (compact_snapshots_spec 0 1 chain [s2; s1; s3] s1 s2 [3] chain_wf)
    as [(g' & Hc & _ & _ & Hd)|(a & b & Hne & Heq)].
  all: try by vm_compute.
  - cbn. lia.
  - eexists _, g'. split; [exact Hc|]. apply (Hd s3 s2); [set_solver| | |reflexivity].
    + apply (bool_decide_unpack _). vm_compute. done.
    + apply (bool_decide_unpack _). vm_compute. done.
Defined.
End RetentionSample.
