(* ===== verification/VerifySolver.v ===== *)
(** * The conservative solver

    ail-verify/src/solver.rs: [SimpleSolver] with its lower-bound facts
    ([FactDb]), and the implication test of proof.rs ([semantic_implies]).
    Predicates are texts [lhs op rhs]; their meaning, for a valuation of the
    identifiers, is [pred_holds].  Alphanumeric characters are those of ASCII. *)

From S2P Require Import Prelude Text Trim I64.

(* ------------------------------------------------------------------ *)
(** ** Text *)

(** [s.find(pat)] with the slices before and after the match *)
Fixpoint split_text (pat s : string) : option (string * string) :=
  match strip_prefix pat s with
  | Some rest => Some ("", rest)
  | None =>
      match s with
      | EmptyString => None
      | String c s' =>
          match split_text pat s' with
          | Some (l, r) => Some (String c l, r)
          | None => None
          end
      end
  end.

(** [s.strip_suffix(c)] *)
Fixpoint strip_last (a : ascii) (s : string) : option string :=
  match s with
  | EmptyString => None
  | String c EmptyString => if decide (c = a) then Some EmptyString else None
  | String c s' => match strip_last a s' with Some r => Some (String c r) | None => None end
  end.

(** [s.chars().last()] of a text whose last character is ASCII *)
Fixpoint last_char (s : string) : option ascii :=
  match s with
  | EmptyString => None
  | String c EmptyString => Some c
  | String _ s' => last_char s'
  end.

Definition first_char (s : string) : option ascii :=
  match s with EmptyString => None | String c _ => Some c end.

Definition digit_value (c : ascii) : option Z :=
  let n := Z.of_N (N_of_ascii c) in
  if decide (48 ≤ n ≤ 57)%Z then Some (n - 48)%Z else None.

Fixpoint digits_from (acc : Z) (s : string) : option Z :=
  match s with
  | EmptyString => Some acc
  | String c s' =>
      match digit_value c with Some d => digits_from (10 * acc + d)%Z s' | None => None end
  end.

Definition parse_digits (s : string) : option Z :=
  if decide (s = "") then None else digits_from 0 s.

(** [str::parse::<i64>]: an optional sign, at least one digit, in range *)
Definition parse_i64 (s : string) : option Z :=
  match s with
  | String "-" r => parse_digits r ≫= λ n, checked (- n)
  | String "+" r => parse_digits r ≫= checked
  | _ => parse_digits s ≫= checked
  end.

Definition is_ident_char (c : ascii) : bool :=
  let n := N_of_ascii c in
  bool_decide (48 ≤ n ≤ 57)%N || bool_decide (65 ≤ n ≤ 90)%N || bool_decide (97 ≤ n ≤ 122)%N
  || bool_decide (c = "_"%char) || bool_decide (c = "."%char).

(** [s.chars().all(|c| c.is_alphanumeric() || c == '_' || c == '.') && !s.is_empty()] *)
Definition is_ident (s : string) : bool := string_all is_ident_char s && negb (bool_decide (s = "")).

(* ------------------------------------------------------------------ *)
(** ** Predicates *)

Definition parse_int (s : string) : option Z := parse_i64 (trim s).

Inductive CmpOp : Type := OpGe | OpLe | OpEq | OpNe | OpGt | OpLt.
#[global] Instance CmpOp_eq_dec : EqDecision CmpOp.
Proof. solve_decision. Defined.

Definition op_text (op : CmpOp) : string :=
  match op with
  | OpGe => ">=" | OpLe => "<=" | OpEq => "==" | OpNe => "!=" | OpGt => ">" | OpLt => "<"
  end.

Definition valid_side (s : string) : bool := bool_decide (is_Some (parse_int s)) || is_ident s.

(** One turn of the loop over the operators: the sides, where they are valid *)
Definition sides_at (pred : string) (op : CmpOp) : option (string * CmpOp * string) :=
  match split_text (op_text op) pred with
  | Some (l, r) =>
      let lhs := trim l in
      let rhs := trim r in
      if decide (lhs = "" ∨ rhs = "") then None
      else if valid_side lhs && valid_side rhs then Some (lhs, op, rhs) else None
  | None => None
  end.

Fixpoint first_sides (pred : string) (ops : list CmpOp) : option (string * CmpOp * string) :=
  match ops with
  | [] => None
  | op :: ops' => match sides_at pred op with Some t => Some t | None => first_sides pred ops' end
  end.

Definition parse_simple_pred (pred : string) : option (string * CmpOp * string) :=
  first_sides (trim pred) [OpGe; OpLe; OpEq; OpNe; OpGt; OpLt].

Definition compare_ints (op : CmpOp) (l r : Z) : bool :=
  match op with
  | OpGe => bool_decide (r ≤ l)%Z
  | OpLe => bool_decide (l ≤ r)%Z
  | OpEq => bool_decide (l = r)
  | OpNe => bool_decide (l ≠ r)
  | OpGt => bool_decide (r < l)%Z
  | OpLt => bool_decide (l < r)%Z
  end.

Definition is_constant_tautology (pred : string) : bool :=
  match parse_simple_pred pred with
  | Some (lhs, op, rhs) =>
      match parse_int lhs, parse_int rhs with
      | Some l, Some r => compare_ints op l r
      | _, _ => false
      end
  | None => false
  end.

Definition is_reflexive_tautology (pred : string) : bool :=
  match parse_simple_pred pred with
  | Some (lhs, op, rhs) => bool_decide (lhs = rhs) && bool_decide (op ∈ [OpGe; OpEq; OpLe])
  | None => false
  end.

(* ------------------------------------------------------------------ *)
(** ** Facts: inclusive lower bounds *)

Abbreviation FactDb := (gmap string Z).

(** [let entry = lb.entry(x).or_insert(i64::MIN); if bound > *entry { *entry = bound }] *)
Definition raise_bound (x : string) (bound : Z) (lb : FactDb) : FactDb :=
  <[x := Z.max bound (default i64_MIN (lb !! x))]> lb.

(** Pass 1, for one constraint *)
Definition bound_fact (lb : FactDb) (constraint : string) : FactDb :=
  match parse_simple_pred (trim constraint) with
  | Some (lhs, op, rhs) =>
      match parse_int rhs, parse_int lhs with
      | Some val, None =>
          match op with
          | OpEq => <[lhs := val]> lb
          | OpGe => raise_bound lhs val lb
          | OpGt => raise_bound lhs (saturating_add val 1) lb
          | _ => lb
          end
      | _, _ => lb
      end
  | None => lb
  end.

(** The shape [x = expr] of pass 2, with a single [=] and an identifier [x] *)
Definition parse_assignment (c : string) : option (string * string) :=
  match split_once "=" c with
  | Some (before, after) =>
      if bool_decide (last_char before ∈ [Some ">"; Some "<"; Some "!"; Some "="]%char)
         || bool_decide (first_char after = Some "="%char) then None
      else
        let lhs := trim before in
        if is_ident lhs then Some (lhs, trim after) else None
  | None => None
  end.

Definition split_sum (rhs : string) : option (string * string) :=
  match split_once "+" rhs with
  | Some (a, b) => Some (trim a, trim b)
  | None => None
  end.

Definition known_bound (lb : FactDb) (x : string) : option Z :=
  match lb !! x with
  | Some v => if decide (v = i64_MIN) then None else Some v
  | None => None
  end.

(** The bound that the facts give to an expression [a + b] or [y] *)
Definition expr_bound (lb : FactDb) (rhs : string) : option Z :=
  let sum :=
    match split_sum rhs with
    | Some (a, b) =>
        match known_bound lb a, known_bound lb b with
        | Some la, Some lb' => Some (saturating_add la lb')
        | _, _ => None
        end
    | None => None
    end in
  match sum with
  | Some s => Some s
  | None => if is_ident rhs then known_bound lb rhs else None
  end.

(** Pass 2, for one constraint *)
Definition assignment_fact (lb : FactDb) (constraint : string) : FactDb :=
  match parse_assignment (trim constraint) with
  | Some (lhs, rhs) =>
      match expr_bound lb rhs with
      | Some bound => raise_bound lhs bound lb
      | None => lb
      end
  | None => lb
  end.

Definition from_constraints (constraints : list string) : FactDb :=
  foldl assignment_fact (foldl bound_fact ∅ constraints) constraints.

Definition lower_bound (lb : FactDb) (x : string) : option Z := known_bound lb x.

Definition prove_pred (lb : FactDb) (predicate : string) : option bool :=
  match parse_simple_pred predicate with
  | Some (lhs, op, rhs) =>
      match (match parse_int lhs with Some n => Some n | None => lower_bound lb lhs end), parse_int rhs with
      | Some l, Some r => Some (compare_ints op l r)
      | _, _ => None
      end
  | None => None
  end.

(* ------------------------------------------------------------------ *)
(** ** Solving *)

Inductive ClauseRole : Type := Requires | Ensures.
#[global] Instance ClauseRole_eq_dec : EqDecision ClauseRole.
Proof. solve_decision. Defined.

Record ProofObligation : Type := MkProofObligation {
  ob_predicate : string;
  ob_role : ClauseRole;
  ob_scope : string;
}.
#[global] Instance ProofObligation_eq_dec : EqDecision ProofObligation.
Proof. solve_decision. Defined.

Inductive SolverOutcome : Type :=
| OutcomeProven
| OutcomeAssumed (reason : string)
| OutcomeUnsupported.
#[global] Instance SolverOutcome_eq_dec : EqDecision SolverOutcome.
Proof. solve_decision. Defined.

(** The trait [Solver]: the default of [solve_with_constraints] ignores them. *)
Class Solver : Type := {
  solve : ProofObligation → SolverOutcome;
  solve_with_constraints : ProofObligation → list string → SolverOutcome;
}.

Definition KNOWN_REFINEMENT_TYPES : list string :=
  ["PositiveMoney"; "NonEmptyText"; "Email"; "NonEmpty"; "Positive"; "NonNegative"; "NonZero"].

Definition KNOWN_DOMAIN_OBLIGATIONS : list string :=
  ["resource_lifecycle"; "concurrency_safe"; "boundary_trust"].

(** [name(ident)] *)
Definition applies_name (pred name : string) : bool :=
  match strip_prefix name pred with
  | Some rest =>
      match strip_prefix "(" (trim rest) ≫= strip_last ")" with
      | Some inner => is_ident (trim inner)
      | None => false
      end
  | None => false
  end.

Definition is_known_refinement_pattern (predicate : string) : bool :=
  existsb (applies_name (trim predicate)) KNOWN_REFINEMENT_TYPES.

Definition is_domain_obligation_pattern (predicate : string) : bool :=
  existsb (applies_name (trim predicate)) KNOWN_DOMAIN_OBLIGATIONS.

Definition simple_solve (ob : ProofObligation) : SolverOutcome :=
  let pred := trim (ob_predicate ob) in
  if bool_decide (pred = "true") || is_known_refinement_pattern pred
     || is_domain_obligation_pattern pred || is_constant_tautology pred || is_reflexive_tautology pred
  then OutcomeProven else OutcomeUnsupported.

Definition simple_solve_with_constraints (ob : ProofObligation) (constraints : list string)
  : SolverOutcome :=
  let base := simple_solve ob in
  if decide (base = OutcomeProven ∨ constraints = []) then base
  else
    match prove_pred (from_constraints constraints) (trim (ob_predicate ob)) with
    | Some true => OutcomeProven
    | _ => base
    end.

Definition simple_solver : Solver := {|
  solve := simple_solve;
  solve_with_constraints := simple_solve_with_constraints;
|}.

(* ------------------------------------------------------------------ *)
(** ** Implication between comparisons (proof.rs) *)

Definition sides_cmp (s : string) (op : CmpOp) : option (string * CmpOp * Z) :=
  match split_text (op_text op) s with
  | Some (l, r) =>
      let ident := trim l in
      if is_ident ident then
        match parse_i64 (trim r) with Some val => Some (ident, op, val) | None => None end
      else None
  | None => None
  end.

Fixpoint first_cmp (s : string) (ops : list CmpOp) : option (string * CmpOp * Z) :=
  match ops with
  | [] => None
  | op :: ops' => match sides_cmp s op with Some t => Some t | None => first_cmp s ops' end
  end.

Definition parse_simple_cmp (s : string) : option (string * CmpOp * Z) :=
  first_cmp (trim s) [OpGe; OpLe; OpGt; OpLt].

Definition to_lower_bound (op : CmpOp) (val : Z) : option Z :=
  match op with
  | OpGt => Some (saturating_add val 1)
  | OpGe => Some val
  | _ => None
  end.

Definition semantic_implies (required candidate : string) : bool :=
  if decide (trim required = trim candidate) then true
  else
    match parse_simple_cmp required, parse_simple_cmp candidate with
    | Some (r_ident, r_op, r_val), Some (c_ident, c_op, c_val) =>
        if decide (r_ident ≠ c_ident) then false
        else
          match to_lower_bound r_op r_val, to_lower_bound c_op c_val with
          | Some r_lb, Some c_lb => bool_decide (r_lb ≤ c_lb)%Z
          | _, _ => false
          end
    | _, _ => false
    end.

(* ------------------------------------------------------------------ *)
(** ** The meaning of predicates and constraints *)

Section Meaning.
Context (ρ : string → Z).

Definition side_value (s : string) : Z := default (ρ s) (parse_int s).

Definition compares (op : CmpOp) (l r : Z) : Prop := compare_ints op l r = true.

(** A text that is a comparison holds when its sides compare so. *)
Definition pred_holds (p : string) : Prop :=
  ∃ lhs op rhs, parse_simple_pred p = Some (lhs, op, rhs) ∧ compares op (side_value lhs) (side_value rhs).

(** The value of [a + b] or of an identifier *)
Definition expr_value (rhs : string) (v : Z) : Prop :=
  (∃ a b, split_sum rhs = Some (a, b) ∧ v = (side_value a + side_value b)%Z) ∨
  (is_ident rhs = true ∧ v = side_value rhs).

(** What the context of an obligation may assume of a clause or a body: a
    comparison holds, an assignment is an equation. *)
Definition constraint_holds (c : string) : Prop :=
  (is_Some (parse_simple_pred (trim c)) → pred_holds (trim c)) ∧
  ∀ lhs rhs v, parse_assignment (trim c) = Some (lhs, rhs) → expr_value rhs v → side_value lhs = v.

Definition db_sound (lb : FactDb) : Prop :=
  ∀ x v, lb !! x = Some v → in_i64 v ∧ (v ≠ i64_MIN → (v ≤ side_value x)%Z).

Lemma known_bound_sound lb x v :
  db_sound lb → known_bound lb x = Some v → in_i64 v ∧ (v ≤ side_value x)%Z.
Proof.
  unfold known_bound. intros Hdb Hx. destruct (lb !! x) as [w|] eqn:E; [|done].
  case_decide; simplify_eq. destruct (Hdb _ _ E). auto.
Qed.

Lemma raise_bound_sound lb x b :
  db_sound lb → (b ≠ i64_MIN → (b ≤ side_value x)%Z) → in_i64 b → db_sound (raise_bound x b lb).
Proof.
  intros Hdb Hb Hr y v. unfold raise_bound. rewrite lookup_insert_Some.
  intros [[<- <-]|[_ Hy]]; [|by apply Hdb].
  destruct (lb !! x) as [w|] eqn:E; cbn.
  - destruct (Hdb _ _ E) as [Hw Hle]. unfold in_i64 in *. split; [lia|].
    destruct (Z.max_spec b w) as [[? ->]|[? ->]]; auto.
  - unfold in_i64 in *. assert (Z.max b i64_MIN = b) as -> by lia. split; [lia|auto].
Qed.
End Meaning.

Lemma parse_i64_range s v : parse_i64 s = Some v → in_i64 v.
Proof.
  intros H.
  assert (∃ z, checked z = Some v) as [z Hz].
  { unfold parse_i64 in H. repeat case_match; apply bind_Some in H as (n & _ & Hn); eauto. }
  by apply checked_range in Hz.
Qed.

Lemma saturating_le z : (i64_MIN ≤ z)%Z → (saturating z ≤ z)%Z.
Proof. unfold saturating. lia. Qed.

Lemma bound_fact_sound ρ lb c :
  db_sound ρ lb → constraint_holds ρ c → db_sound ρ (bound_fact lb c).
Proof.
  intros Hdb [Hc _]. unfold bound_fact.
  destruct (parse_simple_pred (trim c)) as [[[lhs op] rhs]|] eqn:E; [|done].
  destruct (Hc (mk_is_Some _ _ eq_refl)) as (l & o & r & El & Hcmp). rewrite E in El. injection El as <- <- <-.
  destruct (parse_int rhs) as [val|] eqn:Er; [|done]. destruct (parse_int lhs) eqn:El; [done|].
  assert (in_i64 val) as Hval by by apply (parse_i64_range (trim rhs)).
  unfold compares, side_value in Hcmp. rewrite Er, El in Hcmp. cbn in Hcmp.
  destruct op; try done; apply bool_decide_eq_true in Hcmp.
  - apply raise_bound_sound; [done| |done]. unfold side_value. by rewrite El.
  - intros x v. rewrite lookup_insert_Some. intros [[<- <-]|[_ Hx]]; [|by apply Hdb].
    split; [done|]. unfold side_value. rewrite El. cbn. lia.
  - apply raise_bound_sound; [done| |apply saturating_range]. intros _. unfold side_value. rewrite El. cbn.
    pose proof (saturating_le (val + 1)). unfold saturating_add, in_i64 in *. lia.
Qed.

Lemma expr_bound_sound ρ lb rhs b :
  db_sound ρ lb → expr_bound lb rhs = Some b → in_i64 b ∧
  ∃ v, expr_value ρ rhs v ∧ (b ≠ i64_MIN → (b ≤ v)%Z).
Proof.
  intros Hdb. unfold expr_bound.
  destruct (match split_sum rhs with Some _ => _ | None => None end) as [s|] eqn:Es.
  - intros [= <-]. destruct (split_sum rhs) as [[x y]|] eqn:Ex; [|done].
    destruct (known_bound lb x) as [bx|] eqn:Ebx; [|done].
    destruct (known_bound lb y) as [by_|] eqn:Eby; [|done]. injection Es as <-.
    split; [apply saturating_range|]. eexists. split; [left; eauto|].
    apply (known_bound_sound ρ) in Ebx as [_ ?], Eby as [_ ?]; [|done..].
    unfold saturating_add, saturating. lia.
  - clear Es. destruct (is_ident rhs) eqn:Ei; [|done].
    intros [? ?]%(known_bound_sound ρ); [|done]. split; [done|]. eexists. split; [by right|done].
Qed.

Lemma assignment_fact_sound ρ lb c :
  db_sound ρ lb → constraint_holds ρ c → db_sound ρ (assignment_fact lb c).
Proof.
  intros Hdb [_ Hc]. unfold assignment_fact.
  destruct (parse_assignment (trim c)) as [[lhs rhs]|]; [|done].
  destruct (expr_bound lb rhs) as [b|] eqn:Eb; [|done].
  destruct (expr_bound_sound _ _ _ _ Hdb Eb) as (Hr & v & Hv & Hle).
  apply raise_bound_sound; [done| |done]. by rewrite (Hc lhs rhs v).
Qed.

Lemma foldl_sound ρ (f : FactDb → string → FactDb) constraints :
  (∀ lb c, db_sound ρ lb → constraint_holds ρ c → db_sound ρ (f lb c)) →
  Forall (constraint_holds ρ) constraints → ∀ lb, db_sound ρ lb → db_sound ρ (foldl f lb constraints).
Proof. intros Hf. induction 1 as [|c cs Hc Hcs IH]; intros lb Hdb; cbn; auto. Qed.

Lemma from_constraints_sound ρ constraints :
  Forall (constraint_holds ρ) constraints → db_sound ρ (from_constraints constraints).
Proof.
  intros Hcs. unfold from_constraints.
  apply foldl_sound; [apply assignment_fact_sound|done|].
  apply foldl_sound; [apply bound_fact_sound|done|]. intros x v. by rewrite lookup_empty.
Qed.

(* ------------------------------------------------------------------ *)
(** ** What the solver proves *)

(** Accepted for its spelling alone *)
Definition accepted_by_name (pred : string) : Prop :=
  pred = "true" ∨ is_known_refinement_pattern pred = true ∨ is_domain_obligation_pattern pred = true.

(** A claim about a variable that the lower bound [l] of the variable satisfies,
    of a kind that a lower bound does not establish *)
Definition bound_taken_for_value (constraints : list string) (pred : string) : Prop :=
  ∃ x op r l n, parse_simple_pred pred = Some (x, op, r) ∧ parse_int x = None ∧ parse_int r = Some n ∧
    op ∈ [OpLe; OpLt; OpEq; OpNe] ∧ lower_bound (from_constraints constraints) x = Some l ∧
    compare_ints op l n = true.

Lemma constant_tautology_holds ρ pred : is_constant_tautology pred = true → pred_holds ρ pred.
Proof.
  unfold is_constant_tautology, pred_holds, compares, side_value.
  destruct (parse_simple_pred pred) as [[[l op] r]|]; [|done].
  destruct (parse_int l) as [zl|] eqn:El; [|done]. destruct (parse_int r) as [zr|] eqn:Er; [|done].
  intros H. exists l, op, r. by rewrite El, Er.
Qed.

Lemma reflexive_tautology_holds ρ pred : is_reflexive_tautology pred = true → pred_holds ρ pred.
Proof.
  unfold is_reflexive_tautology, pred_holds, compares.
  destruct (parse_simple_pred pred) as [[[l op] r]|]; [|done].
  intros [->%bool_decide_eq_true Hop%bool_decide_eq_true]%andb_true_iff. exists r, op, r. split; [done|].
  rewrite !elem_of_cons, elem_of_nil in Hop.
  destruct Hop as [->|[->|[->|[]]]]; cbn; apply bool_decide_eq_true; lia.
Qed.

Lemma simple_solve_Proven ob :
  simple_solve ob = OutcomeProven →
  accepted_by_name (trim (ob_predicate ob)) ∨ ∀ ρ, pred_holds ρ (trim (ob_predicate ob)).
Proof.
  unfold simple_solve, accepted_by_name. destruct (_ || _) eqn:E; [|done]. intros _.
  rewrite !orb_true_iff, bool_decide_eq_true in E.
  destruct E as [[[[?|?]|?]|?]|?]; [tauto..| |];
    right; intros ρ; eauto using constant_tautology_holds, reflexive_tautology_holds.
Qed.

Lemma prove_pred_sound constraints pred :
  prove_pred (from_constraints constraints) pred = Some true →
  (∀ ρ, Forall (constraint_holds ρ) constraints → pred_holds ρ pred) ∨
  bound_taken_for_value constraints pred.
Proof.
  unfold prove_pred. destruct (parse_simple_pred pred) as [[[x op] r]|] eqn:E; [|done].
  destruct (parse_int x) as [zx|] eqn:Ex.
  - destruct (parse_int r) as [n|] eqn:Er; [|done]. intros [= Hc]. left. intros ρ _. exists x, op, r.
    split; [done|]. unfold compares, side_value. by rewrite Ex, Er.
  - destruct (lower_bound _ x) as [l|] eqn:El; [|done]. destruct (parse_int r) as [n|] eqn:Er; [|done].
    intros [= Hc]. destruct (decide (op ∈ [OpLe; OpLt; OpEq; OpNe])) as [Hop|Hop].
    { right. by exists x, op, r, l, n. }
    left. intros ρ Hcs. exists x, op, r. split; [done|].
    apply from_constraints_sound in Hcs. apply (known_bound_sound ρ) in El as [_ Hl]; [|done].
    unfold compares, side_value in *. rewrite Ex, Er in *. cbn in *.
    destruct op; try (exfalso; apply Hop; set_solver); cbn in *;
      apply bool_decide_eq_true in Hc; apply bool_decide_eq_true; lia.
Qed.

(** The three ways in which the solver comes to [Proven]: the predicate is accepted for
    its spelling, or follows from the constraints under every valuation, or compares a
    variable by [<=], [<], [==] or [!=] with a literal and is true of the variable's lower
    bound only.  The first and the last say nothing of the predicate; the second is what
    the goals [x >= n] and [x > n] come down to (SolverSound.v). *)
Lemma solver_verdict ob constraints :
  simple_solve_with_constraints ob constraints = OutcomeProven →
  let pred := trim (ob_predicate ob) in
  accepted_by_name pred ∨
  (∀ ρ, Forall (constraint_holds ρ) constraints → pred_holds ρ pred) ∨
  bound_taken_for_value constraints pred.
Proof.
  unfold simple_solve_with_constraints. intros H.
  destruct (decide (simple_solve ob = OutcomeProven)) as [Hb|Hb].
  { destruct (simple_solve_Proven _ Hb); auto. }
  case_decide; [done|]. right. apply prove_pred_sound. repeat case_match; simplify_eq; done.
Qed.

Definition cmp_text_holds (ρ : string → Z) (s : string) : Prop :=
  ∃ x op v, parse_simple_cmp s = Some (x, op, v) ∧ compares op (side_value ρ x) v.

Lemma parse_simple_cmp_range s x op v : parse_simple_cmp s = Some (x, op, v) → in_i64 v.
Proof.
  unfold parse_simple_cmp. generalize (trim s). intros t. induction [OpGe; OpLe; OpGt; OpLt] as [|o ops IH]; [done|].
  cbn. destruct (sides_cmp t o) as [y|] eqn:E; [|done]. intros [= ->]. revert E. unfold sides_cmp.
  destruct (split_text _ _) as [[l r]|]; [|done]. destruct (is_ident _); [|done].
  destruct (parse_i64 _) eqn:Ev; [|done]. intros [= <- <- <-]. by apply parse_i64_range in Ev.
Qed.

(** what the implication test decides for comparisons with a literal: a
    candidate that covers a requirement implies it under every valuation, unless
    the requirement is [x > i64::MAX], whose bound saturates. *)
Theorem semantic_implies_sound required candidate ρ :
  semantic_implies required candidate = true →
  trim required = trim candidate ∨
  (cmp_text_holds ρ candidate → cmp_text_holds ρ required) ∨
  ∃ x, parse_simple_cmp required = Some (x, OpGt, i64_MAX).
Proof.
  unfold semantic_implies. case_decide as Heq; [by left|]. right.
  destruct (parse_simple_cmp required) as [[[x op] v]|] eqn:Er; [|done].
  destruct (parse_simple_cmp candidate) as [[[y op'] w]|] eqn:Ec; [|done].
  case_decide as Hxy; [done|]. revert H. assert (x = y) as <- by (by destruct (decide (x = y))).
  destruct (to_lower_bound op v) as [a|] eqn:Ea; [|done].
  destruct (to_lower_bound op' w) as [b|] eqn:Eb; [|done]. intros Hab%bool_decide_eq_true.
  destruct (decide (op = OpGt ∧ v = i64_MAX)) as [[-> ->]|Hn]; [right; eauto|left].
  assert (op = OpGt → v ≠ i64_MAX) as Hmax by (intros ? ?; by apply Hn). clear Hn.
  pose proof (parse_simple_cmp_range _ _ _ _ Er) as Hv. pose proof (parse_simple_cmp_range _ _ _ _ Ec) as Hw.
  intros (? & ? & ? & [= <- <- <-]%(eq_trans (eq_sym Ec)) & Hc). exists x, op, v. split; [done|].
  unfold compares in *.
  destruct op; try done; destruct op'; try done; cbn in *; simplify_eq;
    apply bool_decide_eq_true in Hc; apply bool_decide_eq_true;
    unfold saturating_add, saturating, in_i64 in *; try specialize (Hmax eq_refl); lia.
Qed.

Module SolverSample.

Definition ensures (p : string) : ProofObligation := MkProofObligation p Ensures "fn.f".
Definition ten (x : string) : Z := 10.

(** A lower bound is taken for the value: [x >= 0] is said to prove [x <= 5]. *)
Example lower_bound_taken_for_value :
  simple_solve_with_constraints (ensures "x <= 5") ["x >= 0"] = OutcomeProven ∧
  Forall (constraint_holds ten) ["x >= 0"] ∧ ¬ pred_holds ten "x <= 5".
Proof.
  split; [vm_compute; reflexivity|]. split.
  - constructor; [|constructor]. split.
    + intros _. exists "x", OpGe, "0". split; vm_compute; reflexivity.
    + intros lhs rhs v Hl. vm_compute in Hl. discriminate.
  - intros (l & op & r & Hp & Hc). vm_compute in Hp. injection Hp as <- <- <-. vm_compute in Hc. discriminate.
Qed.

Lemma semantic_implies_sound_witness :
  cmp_text_holds ten "x >= 1" → cmp_text_holds ten "x > 0".
Proof.
  destruct (semantic_implies_sound "x > 0" "x >= 1" ten) as [H|[H|[x H]]]; [vm_compute; reflexivity|..].
  - exfalso. vm_compute in H. discriminate.
  - exact H.
  - exfalso. vm_compute in H. discriminate.
Defined.

(** The bound of [x > i64::MAX] saturates. *)
Example implication_saturates :
  semantic_implies "x > 9223372036854775807" "x >= 9223372036854775807" = true ∧
  cmp_text_holds (λ _, i64_MAX) "x >= 9223372036854775807" ∧
  ¬ cmp_text_holds (λ _, i64_MAX) "x > 9223372036854775807".
Proof.
  split; [vm_compute; reflexivity|]. split.
  - exists "x", OpGe, i64_MAX. split; vm_compute; reflexivity.
  - intros (l & op & r & Hp & Hc). vm_compute in Hp. injection Hp as <- <- <-. vm_compute in Hc. discriminate.
Qed.
End SolverSample.
