(* ===== verification/VerifyReport.v ===== *)
(** * Verification reports

    ail-verify/src/report.rs and diagnostic.rs, with the data types of proof.rs
    and policy.rs that a report holds: the six verification states, entries and
    diagnostics, the obligation ledger, and [canonicalize_for_ci], which makes
    equivalent output equal.  [Debug] of a text escapes the ASCII characters that
    Rust escapes and leaves other bytes alone. *)

From Stdlib Require Import SpecFloat.
From stdpp Require Import pretty.
From S2P Require Import Prelude Text Trim Ordering GraphTypes ChangeModel VerifySolver.

(* ------------------------------------------------------------------ *)
(** ** States and entries *)

Inductive VerificationState : Type :=
| StProven | StRuntimeChecked | StAssumed | StUnverified | StUnsafe | StFailed.
#[global] Instance VerificationState_eq_dec : EqDecision VerificationState.
Proof. solve_decision. Defined.

(** [VerificationState::priority], and [verification_state_rank] of the checkers *)
Definition state_priority (s : VerificationState) : N :=
  match s with
  | StProven => 0 | StRuntimeChecked => 1 | StAssumed => 2
  | StUnverified => 3 | StUnsafe => 4 | StFailed => 5
  end%N.

Record VerificationEntry : Type := MkVerificationEntry {
  ve_claim : string;
  ve_state : VerificationState;
  ve_scope : string;
  ve_evidence : option string;
  ve_blocking : bool;
  ve_repair_options : list string;
}.
#[global] Instance VerificationEntry_eq_dec : EqDecision VerificationEntry.
Proof. solve_decision. Defined.

(** [matches!(state, Failed | Unsafe)] *)
Definition state_blocks (s : VerificationState) : bool :=
  match s with StFailed | StUnsafe => true | _ => false end.

Record SummaryCounts : Type := MkSummaryCounts {
  sc_verified_count : nat;
  sc_runtime_checked_count : nat;
  sc_assumed_count : nat;
  sc_unverified_count : nat;
  sc_unsafe_count : nat;
  sc_failed_count : nat;
}.
#[global] Instance SummaryCounts_eq_dec : EqDecision SummaryCounts.
Proof. solve_decision. Defined.

Definition count_state (s : VerificationState) (entries : list VerificationEntry) : nat :=
  length (filter (λ e, ve_state e = s) entries).

(** [SummaryCounts::from_entries], [compute_counts] of the checkers *)
Definition counts_from_entries (entries : list VerificationEntry) : SummaryCounts :=
  MkSummaryCounts
    (length (filter (λ e, ve_state e = StProven ∨ ve_state e = StRuntimeChecked) entries))
    (count_state StRuntimeChecked entries) (count_state StAssumed entries)
    (count_state StUnverified entries) (count_state StUnsafe entries) (count_state StFailed entries).

(* ------------------------------------------------------------------ *)
(** ** Diagnostics *)

Inductive DiagnosticSeverity : Type := SevError | SevWarning | SevInfo.
#[global] Instance DiagnosticSeverity_eq_dec : EqDecision DiagnosticSeverity.
Proof. solve_decision. Defined.

(** [diagnostic_severity_rank], [diagnostic_severity_rank] *)
Definition diagnostic_severity_rank (s : DiagnosticSeverity) : N :=
  match s with SevError => 0 | SevWarning => 1 | SevInfo => 2 end%N.

Inductive RepairOption : Type :=
| DirectOp (op : ChangeSetOp)
| Choice (ops : list ChangeSetOp)
| Migration (text : string)
| Approval (text : string)
| Explanation (text : string).
#[global] Instance RepairOption_eq_dec : EqDecision RepairOption.
Proof. solve_decision. Defined.

Record Diagnostic : Type := MkDiagnostic {
  dg_code : string;
  dg_severity : DiagnosticSeverity;
  dg_target : NodeRef;
  dg_evidence : option string;
  dg_expected : option string;
  dg_actual : option string;
  dg_repair_options : list RepairOption;
  dg_blocking : bool;
}.
#[global] Instance Diagnostic_eq_dec : EqDecision Diagnostic.
Proof. solve_decision. Defined.

Definition diagnostic_error (code : string) (target : NodeRef) : Diagnostic :=
  MkDiagnostic code SevError target None None None [] true.

Definition diagnostic_warning (code : string) (target : NodeRef) : Diagnostic :=
  MkDiagnostic code SevWarning target None None None [] false.

Definition with_evidence (evidence : string) (d : Diagnostic) : Diagnostic :=
  MkDiagnostic (dg_code d) (dg_severity d) (dg_target d) (Some evidence) (dg_expected d) (dg_actual d)
    (dg_repair_options d) (dg_blocking d).

Definition with_expected (expected : string) (d : Diagnostic) : Diagnostic :=
  MkDiagnostic (dg_code d) (dg_severity d) (dg_target d) (dg_evidence d) (Some expected) (dg_actual d)
    (dg_repair_options d) (dg_blocking d).

Definition with_actual (actual : string) (d : Diagnostic) : Diagnostic :=
  MkDiagnostic (dg_code d) (dg_severity d) (dg_target d) (dg_evidence d) (dg_expected d) (Some actual)
    (dg_repair_options d) (dg_blocking d).

Definition with_repair (option : RepairOption) (d : Diagnostic) : Diagnostic :=
  MkDiagnostic (dg_code d) (dg_severity d) (dg_target d) (dg_evidence d) (dg_expected d) (dg_actual d)
    (dg_repair_options d ++ [option]) (dg_blocking d).

(** ** [Debug] of repair options *)

Definition op_debug (op : ChangeSetOp) : string :=
  match op with
  | OpCreate => "Create" | OpSet => "Set" | OpAdd => "Add" | OpRemove => "Remove"
  | OpDelete => "Delete" | OpDisconnect => "Disconnect" | OpRename => "Rename" | OpMove => "Move"
  | OpReplace => "Replace" | OpConnect => "Connect" | OpBind => "Bind" | OpExpose => "Expose"
  | OpHide => "Hide" | OpGrant => "Grant" | OpRevoke => "Revoke" | OpInfer => "Infer"
  | OpDerive => "Derive" | OpGenerate => "Generate" | OpAssert => "Assert" | OpLock => "Lock"
  | OpRefactor => "Refactor" | OpMigrate => "Migrate" | OpApprove => "Approve"
  | OpReject => "Reject" | OpDeprecate => "Deprecate" | OpAnnotate => "Annotate"
  | OpVerify => "Verify"
  end.

Definition hex_text (n : N) : string :=
  if (n <? 16)%N then String (hex_digit n) "" else String (hex_digit (n / 16)) (String (hex_digit (n mod 16)) "").

Definition quote : ascii := ascii_of_N 34.

(** [char::escape_debug] on ASCII *)
Definition debug_char (c : ascii) : string :=
  let n := N_of_ascii c in
  if decide (n = 0)%N then "\0"
  else if decide (n = 9)%N then "\t"
  else if decide (n = 10)%N then "\n"
  else if decide (n = 13)%N then "\r"
  else if decide (c = quote ∨ c = "\"%char) then String "\" (String c "")
  else if decide (n < 32 ∨ n = 127)%N then "\u{" +:+ (hex_text n +:+ "}")
  else String c "".

Fixpoint debug_chars (s : string) : string :=
  match s with
  | EmptyString => EmptyString
  | String c s' => debug_char c +:+ debug_chars s'
  end.

Definition debug_text (s : string) : string := String quote (debug_chars s +:+ String quote "").

Definition debug_list (items : list string) : string := "[" +:+ (join ", " items +:+ "]").

Definition debug_repair (r : RepairOption) : string :=
  match r with
  | DirectOp op => "DirectOp(" +:+ (op_debug op +:+ ")")
  | Choice ops => "Choice(" +:+ (debug_list (op_debug <$> ops) +:+ ")")
  | Migration t => "Migration(" +:+ (debug_text t +:+ ")")
  | Approval t => "Approval(" +:+ (debug_text t +:+ ")")
  | Explanation t => "Explanation(" +:+ (debug_text t +:+ ")")
  end.

(* ------------------------------------------------------------------ *)
(** ** The obligation ledger (data of proof.rs) *)

Inductive ObligationState : Type :=
| ObProven | ObRuntimeChecked | ObAssumed (reason : string) | ObFailed.
#[global] Instance ObligationState_eq_dec : EqDecision ObligationState.
Proof. solve_decision. Defined.

Record ObligationAttempt : Type := MkObligationAttempt {
  oa_stage : string;
  oa_outcome : string;
  oa_evidence : option string;
}.
#[global] Instance ObligationAttempt_eq_dec : EqDecision ObligationAttempt.
Proof. solve_decision. Defined.

Record ObligationLedgerEntry : Type := MkObligationLedgerEntry {
  ol_id : string;
  ol_obligation : ProofObligation;
  ol_state : ObligationState;
  ol_source_stage : string;
  ol_attempts : list ObligationAttempt;
  ol_degradation_reason : option string;
  ol_repair_options : list string;
}.
#[global] Instance ObligationLedgerEntry_eq_dec : EqDecision ObligationLedgerEntry.
Proof. solve_decision. Defined.

Record DegradationEvent : Type := MkDegradationEvent {
  de_obligation_id : string;
  de_source_stage : string;
  de_from_state : VerificationState;
  de_to_state : VerificationState;
  de_reason : string;
  de_repair_options : list string;
}.
#[global] Instance DegradationEvent_eq_dec : EqDecision DegradationEvent.
Proof. solve_decision. Defined.

Record ArtifactHash : Type := MkArtifactHash {
  ar_artifact : string;
  ar_hash : string;
}.
#[global] Instance ArtifactHash_eq_dec : EqDecision ArtifactHash.
Proof. solve_decision. Defined.

(* ------------------------------------------------------------------ *)
(** ** Solver and profile diagnostics *)

Inductive SolverDiagnosticStatus : Type := SdTimeout | SdResourceLimited | SdUnsupported.
#[global] Instance SolverDiagnosticStatus_eq_dec : EqDecision SolverDiagnosticStatus.
Proof. solve_decision. Defined.

Definition solver_status_str (s : SolverDiagnosticStatus) : string :=
  match s with
  | SdTimeout => "timeout" | SdResourceLimited => "resource_limited" | SdUnsupported => "unsupported"
  end.

Definition issue_code (s : SolverDiagnosticStatus) : string :=
  match s with
  | SdTimeout => "VERIFY_SOLVER_TIMEOUT"
  | SdResourceLimited => "VERIFY_SOLVER_RESOURCE_LIMITED"
  | SdUnsupported => "VERIFY_SOLVER_UNSUPPORTED"
  end.

Definition solver_status_rank (s : SolverDiagnosticStatus) : N :=
  match s with SdTimeout => 0 | SdResourceLimited => 1 | SdUnsupported => 2 end%N.

Record SolverDiagnostic : Type := MkSolverDiagnostic {
  sd_code : string;
  sd_obligation_id : string;
  sd_source_stage : string;
  sd_status : SolverDiagnosticStatus;
  sd_reason : string;
  sd_repair_options : list string;
}.
#[global] Instance SolverDiagnostic_eq_dec : EqDecision SolverDiagnostic.
Proof. solve_decision. Defined.

Definition solver_diagnostic_status_from_reason (reason : string) : option SolverDiagnosticStatus :=
  let normalized := to_lowercase (trim reason) in
  if starts_with "solver_timeout:" normalized then Some SdTimeout
  else if starts_with "solver_resource_limited:" normalized then Some SdResourceLimited
  else if starts_with "solver_unsupported:" normalized then Some SdUnsupported
  else None.

Definition solver_diagnostic_status_from_attempt_outcome (outcome : string)
  : option SolverDiagnosticStatus :=
  let normalized := to_lowercase (trim outcome) in
  if decide (normalized = "timeout") then Some SdTimeout
  else if decide (normalized = "resource_limited") then Some SdResourceLimited
  else if decide (normalized = "unsupported") then Some SdUnsupported
  else solver_diagnostic_status_from_reason outcome.

Definition attempt_status (a : ObligationAttempt) : option SolverDiagnosticStatus :=
  match solver_diagnostic_status_from_attempt_outcome (oa_outcome a) with
  | Some s => Some s
  | None => oa_evidence a ≫= solver_diagnostic_status_from_reason
  end.

Definition solver_attempts (e : ObligationLedgerEntry) : list ObligationAttempt :=
  filter (λ a, oa_stage a = "solver") (ol_attempts e).

Definition solver_diagnostic_status_from_ledger (e : ObligationLedgerEntry)
  : option SolverDiagnosticStatus := head (omap attempt_status (solver_attempts e)).

(** The turn of the loop of [solver_diagnostic_reason]: the outer [None] goes on *)
Definition attempt_reason (status : SolverDiagnosticStatus) (a : ObligationAttempt)
  : option (option string) :=
  if decide (solver_diagnostic_status_from_attempt_outcome (oa_outcome a) = Some status) then
    Some (Some (default (oa_outcome a) (oa_evidence a)))
  else if decide (oa_evidence a ≫= solver_diagnostic_status_from_reason = Some status) then
    Some (oa_evidence a)
  else None.

Definition solver_diagnostic_reason (e : ObligationLedgerEntry) (status : SolverDiagnosticStatus)
  : option string := mjoin (head (omap (attempt_reason status) (solver_attempts e))).

Definition solver_diagnostic_repair_options (s : SolverDiagnosticStatus) : list string :=
  match s with
  | SdTimeout =>
      ["simplify the predicate or split it into smaller obligations";
       "provide a narrower precondition or invariant for the solver";
       "add a runtime check when static proof is not practical"]
  | SdResourceLimited =>
      ["reduce solver search space with stronger local facts";
       "split the proof obligation into lower-cost predicates";
       "add a runtime check or explicit assumption with policy approval"]
  | SdUnsupported =>
      ["rewrite the predicate into the supported solver fragment";
       "add a runtime check for the unsupported condition";
       "record an explicit assumption when the boundary is policy-approved"]
  end.

(** [if !v.contains(x) { v.push(x) }] *)
Definition push_new (v : list string) (x : string) : list string :=
  if decide (x ∈ v) then v else v ++ [x].

Definition from_ledger_entry (e : ObligationLedgerEntry) : option SolverDiagnostic :=
  match solver_diagnostic_status_from_ledger e with
  | None => None
  | Some status =>
      Some (MkSolverDiagnostic (issue_code status) (ol_id e) (ol_source_stage e) status
              (default ("solver outcome classified as " +:+ solver_status_str status)
                 (solver_diagnostic_reason e status))
              (foldl push_new (solver_diagnostic_repair_options status) (ol_repair_options e)))
  end.

Record ProfileDiagnostic : Type := MkProfileDiagnostic {
  pd_code : string;
  pd_requested_profile : string;
  pd_policy_profile : string;
  pd_message : string;
  pd_blocking : bool;
}.
#[global] Instance ProfileDiagnostic_eq_dec : EqDecision ProfileDiagnostic.
Proof. solve_decision. Defined.

Definition rule_mismatch (requested policy : string) : ProfileDiagnostic :=
  MkProfileDiagnostic "VERIFY_PROFILE_RULE_MISMATCH" requested policy
    ("verification profile '" +:+ (requested +:+ ("' does not match policy gate profile '" +:+ (policy +:+ "'"))))
    true.

(* ------------------------------------------------------------------ *)
(** ** Policy data (policy.rs) *)

Inductive ApprovalStrength : Type := Strong | Weak.
#[global] Instance ApprovalStrength_eq_dec : EqDecision ApprovalStrength.
Proof. solve_decision. Defined.

Record ApprovalRecord : Type := MkApprovalRecord {
  ap_scope : string;
  ap_approver : string;
  ap_reason : string;
  ap_strength : ApprovalStrength;
}.
#[global] Instance ApprovalRecord_eq_dec : EqDecision ApprovalRecord.
Proof. solve_decision. Defined.

Record PolicyViolation : Type := MkPolicyViolation {
  pv_code : string;
  pv_scope : string;
  pv_message : string;
}.
#[global] Instance PolicyViolation_eq_dec : EqDecision PolicyViolation.
Proof. solve_decision. Defined.

Record PolicyWarning : Type := MkPolicyWarning {
  pw_code : string;
  pw_scope : string;
  pw_message : string;
}.
#[global] Instance PolicyWarning_eq_dec : EqDecision PolicyWarning.
Proof. solve_decision. Defined.

Inductive PolicyDecision : Type :=
| Passed
| PassedWithWarnings (warnings : list PolicyWarning)
| PolicyFailed (violations : list PolicyViolation)
| ApprovalRequired (scopes : list string).
#[global] Instance PolicyDecision_eq_dec : EqDecision PolicyDecision.
Proof. solve_decision. Defined.

Inductive PolicyRule : Type :=
| NoUnsafe
| NoUnverifiedPublicApi
| RequireApproval
| ProfileGate (profile : string)
| NoPublicApiChangesWithoutApproval
| ProofSufficiencyGate (max_assumed_ratio : spec_float).

Record VerifyStructuralDiff : Type := MkVerifyStructuralDiff { vd_description : string }.

Record PublicApiChange : Type := MkPublicApiChange {
  pc_scope : string;
  pc_description : string;
}.

Record PolicyAuditEntry : Type := MkPolicyAuditEntry {
  pa_scope : string;
  pa_state : string;
  pa_gate_decision : string;
  pa_approval_used : option string;
}.

Record PolicyAudit : Type := MkPolicyAudit {
  pa_profile : string;
  pa_entries : list PolicyAuditEntry;
  pa_approval_scopes_consulted : list string;
}.

(* ------------------------------------------------------------------ *)
(** ** Reports *)

Record VerificationReport : Type := MkVerificationReport {
  vr_entries : list VerificationEntry;
  vr_diagnostics : list Diagnostic;
  vr_schema_version : string;
  vr_summary_counts : SummaryCounts;
  vr_policy_decision : option PolicyDecision;
  vr_policy_audit : option PolicyAudit;
  vr_proof_obligations : list ObligationLedgerEntry;
  vr_solver_diagnostics : list SolverDiagnostic;
  vr_profile_diagnostics : list ProfileDiagnostic;
  vr_degradation_events : list DegradationEvent;
  vr_artifact_hashes : list ArtifactHash;
  vr_base_snapshot : option string;
  vr_target_snapshot : option string;
  vr_structural_diff : option VerifyStructuralDiff;
  vr_approvals : list ApprovalRecord;
  vr_verified_profile : option string;
}.

(** A checker's report: the remaining fields are those of [Default]. *)
Definition stage_report (entries : list VerificationEntry) (diagnostics : list Diagnostic)
    (hashes : list ArtifactHash) : VerificationReport :=
  MkVerificationReport entries diagnostics "verification/1.0" (counts_from_entries entries)
    None None [] [] [] [] hashes None None None [] None.

(** [VerificationReport::summary]; [max_by_key] keeps the last maximum. *)
Definition worse (a b : VerificationState) : VerificationState :=
  if (state_priority a <=? state_priority b)%N then b else a.

Definition worst_state (states : list VerificationState) : VerificationState :=
  foldl worse StProven states.

Definition summary (r : VerificationReport) : VerificationState :=
  worst_state (ve_state <$> vr_entries r).

(** [dedupe_preserve_order] *)
Definition dedupe_preserve_order {A} `{EqDecision A} (items : list A) : list A :=
  foldl (λ acc x, if decide (x ∈ acc) then acc else acc ++ [x]) [] items.

(** [b.cmp(b').reverse()] on booleans: [true] comes first. *)
Definition true_first (b : bool) : N := if b then 0%N else 1%N.

Definition report_diagnostic_key (d : Diagnostic)
  : N * string * N * N * option string * option string * option string * string :=
  (diagnostic_severity_rank (dg_severity d), dg_code d, dg_target d, true_first (dg_blocking d), dg_evidence d,
   dg_expected d, dg_actual d, debug_list (debug_repair <$> dg_repair_options d)).

Definition solver_diagnostic_key (d : SolverDiagnostic)
  : N * string * string * string * string * list string :=
  (solver_status_rank (sd_status d), sd_code d, sd_obligation_id d, sd_source_stage d, sd_reason d,
   sd_repair_options d).

Definition profile_diagnostic_key (d : ProfileDiagnostic) : string * string * string * N * string :=
  (pd_code d, pd_requested_profile d, pd_policy_profile d, true_first (pd_blocking d), pd_message d).

Definition degradation_key (d : DegradationEvent) : string * string * N * N * string * list string :=
  (de_obligation_id d, de_source_stage d, state_priority (de_from_state d),
   state_priority (de_to_state d), de_reason d, de_repair_options d).

Definition artifact_hash_key (h : ArtifactHash) : string * string := (ar_artifact h, ar_hash h).

Definition canonicalize_for_ci (r : VerificationReport) : VerificationReport :=
  let entries := dedupe_preserve_order (vr_entries r) in
  MkVerificationReport entries
    (sort_dedup report_diagnostic_key (vr_diagnostics r))
    (vr_schema_version r) (counts_from_entries entries) (vr_policy_decision r) (vr_policy_audit r)
    (vr_proof_obligations r)
    (sort_dedup solver_diagnostic_key (vr_solver_diagnostics r))
    (sort_dedup profile_diagnostic_key (vr_profile_diagnostics r))
    (sort_dedup degradation_key (vr_degradation_events r))
    (sort_dedup artifact_hash_key (vr_artifact_hashes r))
    (vr_base_snapshot r) (vr_target_snapshot r) (vr_structural_diff r) (vr_approvals r)
    (vr_verified_profile r).

(* ------------------------------------------------------------------ *)
(** ** [Debug] tells repair options apart *)

(** A code: no text of one value starts with the text of another. *)
Definition prefix_code {A} (f : A → string) : Prop :=
  ∀ x y t t', (f x +:+ t) = (f y +:+ t') → x = y ∧ t = t'.

Definition nibble (a : ascii) : option N :=
  find_first (λ n, hex_digit n = a) [0; 1; 2; 3; 4; 5; 6; 7; 8; 9; 10; 11; 12; 13; 14; 15]%N.

Definition undebug (s : string) : option (ascii * string) :=
  match s with
  | String "\" (String c rest) =>
      if decide (c = "0"%char) then Some (ascii_of_N 0, rest)
      else if decide (c = "t"%char) then Some (ascii_of_N 9, rest)
      else if decide (c = "n"%char) then Some (ascii_of_N 10, rest)
      else if decide (c = "r"%char) then Some (ascii_of_N 13, rest)
      else if decide (c = "u"%char) then
        match rest with
        | String "{" (String a (String "}" r)) => nibble a ≫= λ n, Some (ascii_of_N n, r)
        | String "{" (String a (String b (String "}" r))) =>
            nibble a ≫= λ n, nibble b ≫= λ m, Some (ascii_of_N (16 * n + m), r)
        | _ => None
        end
      else Some (c, rest)
  | String c rest => Some (c, rest)
  | EmptyString => None
  end.

Lemma undebug_char c t : undebug (debug_char c +:+ t) = Some (c, t).
Proof. destruct c as [[] [] [] [] [] [] [] []]; reflexivity. Qed.

Lemma debug_char_no_quote c t r : (debug_char c +:+ t) ≠ String quote r.
Proof. destruct c as [[] [] [] [] [] [] [] []]; discriminate. Qed.

Lemma debug_text_code : prefix_code debug_text.
Proof.
  intros x y t t' H. unfold debug_text in H. rewrite !append_cons in H. injection H as H.
  rewrite <- !append_assoc, !append_cons, !append_nil in H.
  revert y H. induction x as [|c x IH]; intros [|d y]; cbn [debug_chars]; rewrite ?append_nil, <- ?append_assoc.
  - by intros [= ->].
  - intros H. symmetry in H. by apply debug_char_no_quote in H.
  - intros H. by apply debug_char_no_quote in H.
  - intros H. apply (f_equal undebug) in H. rewrite !undebug_char in H. injection H as -> H.
    apply IH in H as [-> ->]. done.
Qed.

Lemma op_debug_code : prefix_code op_debug.
Proof. intros x y t t'. destruct x, y; intros H; lazy in H; (injection H as ->; done) || discriminate. Qed.

(** A bracketed list of code words is a code. *)
Lemma debug_list_code {A} (f : A → string) :
  prefix_code f → (∀ x t r, (f x +:+ t) ≠ String "]" r) → prefix_code (λ l, debug_list (f <$> l)).
Proof.
  intros Hf Hb x y t t'. unfold debug_list. rewrite !append_cons, !append_nil. intros [= H].
  rewrite <- !append_assoc, !append_cons, !append_nil in H.
  revert y H. induction x as [|a [|b x] IH]; intros [|c [|d y]]; cbn [fmap list_fmap join];
    rewrite ?append_nil, <- ?append_assoc, ?append_cons, ?append_nil; intros H.
  - by injection H as ->.
  - symmetry in H. by apply Hb in H.
  - symmetry in H. by apply Hb in H.
  - by apply Hb in H.
  - apply Hf in H as [-> [= ->]]. done.
  - by apply Hf in H as [-> H].
  - by apply Hb in H.
  - by apply Hf in H as [-> H].
  - apply Hf in H as [-> [= H]]. apply (IH (d :: y)) in H as [[= -> ->] ->]. done.
Qed.

Lemma debug_repair_code : prefix_code debug_repair.
Proof.
  intros x y t t'.
  destruct x, y; cbn [debug_repair]; intros H; rewrite <- !append_assoc in H;
    try (apply (f_equal first_char) in H; rewrite !append_cons in H; discriminate H).
  - apply append_inj in H. apply op_debug_code in H as [-> H]. by apply append_inj in H as ->.
  - apply append_inj in H. apply (debug_list_code op_debug op_debug_code) in H as [-> H]; [by apply append_inj in H as ->|].
    intros o ? ?. by destruct o.
  - apply append_inj in H. apply debug_text_code in H as [-> H]. by apply append_inj in H as ->.
  - apply append_inj in H. apply debug_text_code in H as [-> H]. by apply append_inj in H as ->.
  - apply append_inj in H. apply debug_text_code in H as [-> H]. by apply append_inj in H as ->.
Qed.

Lemma debug_repairs_inj : Inj (=) (=) (λ l, debug_list (debug_repair <$> l)).
Proof.
  intros x y H. apply (f_equal (λ s, s +:+ "")) in H.
  apply (debug_list_code debug_repair debug_repair_code) in H as [-> _]; [done|].
  intros r ? ?. by destruct r.
Qed.

(* ------------------------------------------------------------------ *)
(** ** Canonical reports *)

Lemma dedupe_app {A} `{EqDecision A} (l k : list A) :
  dedupe_preserve_order (l ++ k) =
  foldl (λ acc x, if decide (x ∈ acc) then acc else acc ++ [x]) (dedupe_preserve_order l) k.
Proof. unfold dedupe_preserve_order. by rewrite foldl_app. Qed.

Lemma dedupe_spec {A} `{EqDecision A} (l : list A) :
  NoDup (dedupe_preserve_order l) ∧ ∀ x, x ∈ dedupe_preserve_order l ↔ x ∈ l.
Proof.
  induction l as [|y l [IH1 IH2]] using rev_ind; [split; [constructor|done]|].
  rewrite dedupe_app. cbn. case_decide as Hy.
  - split; [done|]. intros x. rewrite elem_of_app, list_elem_of_singleton, IH2. apply IH2 in Hy.
    split; [by left|by intros [?| ->]].
  - split.
    + apply NoDup_app. split; [done|]. split; [|apply NoDup_singleton].
      intros x Hx Hy'%list_elem_of_singleton. by subst.
    + intros x. by rewrite !elem_of_app, IH2.
Qed.

Lemma dedupe_id {A} `{EqDecision A} (l : list A) : NoDup l → dedupe_preserve_order l = l.
Proof.
  induction l as [|y l IH] using rev_ind; [done|]. rewrite NoDup_app, dedupe_app.
  intros (Hl & Hd & _). rewrite IH by done. cbn. rewrite decide_False; [done|].
  intros Hy. apply (Hd y Hy). by left.
Qed.

#[global] Instance diagnostic_severity_rank_inj : Inj (=) (=) diagnostic_severity_rank.
Proof. by intros [] []. Qed.
#[global] Instance true_first_inj : Inj (=) (=) true_first.
Proof. by intros [] []. Qed.
#[global] Instance solver_status_rank_inj : Inj (=) (=) solver_status_rank.
Proof. by intros [] []. Qed.
#[global] Instance state_priority_inj : Inj (=) (=) state_priority.
Proof. by intros [] []. Qed.

#[global] Instance diagnostic_key_inj : Inj (=) (=) report_diagnostic_key.
Proof.
  intros x y H. pose proof (f_equal snd H) as Hr. apply debug_repairs_inj in Hr.
  apply (f_equal fst) in H. destruct x, y. unfold report_diagnostic_key in H. cbn in *.
  injection H as Hs ? ? Hb ? ? ?. apply (inj diagnostic_severity_rank) in Hs. apply (inj true_first) in Hb. by subst.
Qed.
#[global] Instance solver_diagnostic_key_inj : Inj (=) (=) solver_diagnostic_key.
Proof. intros [] []. cbn. intros H. injection H as Hs ? ? ? ? ?. apply (inj solver_status_rank) in Hs. by subst. Qed.
#[global] Instance profile_diagnostic_key_inj : Inj (=) (=) profile_diagnostic_key.
Proof. intros [] []. cbn. intros H. injection H as ? ? ? Hb ?. apply (inj true_first) in Hb. by subst. Qed.
#[global] Instance degradation_key_inj : Inj (=) (=) degradation_key.
Proof.
  intros [] []. cbn. intros H. injection H as ? ? Hf Ht ? ?.
  apply (inj state_priority) in Hf. apply (inj state_priority) in Ht. by subst.
Qed.
#[global] Instance artifact_hash_key_inj : Inj (=) (=) artifact_hash_key.
Proof. intros [] []. cbn. intros H. by injection H as -> ->. Qed.

(** Reports with the same entries in the same order of first occurrence, and the
    same diagnostics, events and hashes in any order and number *)
Record report_equiv (r r' : VerificationReport) : Prop := {
  eq_entries : dedupe_preserve_order (vr_entries r) = dedupe_preserve_order (vr_entries r');
  eq_diagnostics x : x ∈ vr_diagnostics r ↔ x ∈ vr_diagnostics r';
  eq_solver x : x ∈ vr_solver_diagnostics r ↔ x ∈ vr_solver_diagnostics r';
  eq_profile x : x ∈ vr_profile_diagnostics r ↔ x ∈ vr_profile_diagnostics r';
  eq_degradation x : x ∈ vr_degradation_events r ↔ x ∈ vr_degradation_events r';
  eq_hashes x : x ∈ vr_artifact_hashes r ↔ x ∈ vr_artifact_hashes r';
  eq_rest : (vr_schema_version r, vr_policy_decision r, vr_policy_audit r, vr_proof_obligations r,
             vr_base_snapshot r, vr_target_snapshot r, vr_structural_diff r, vr_approvals r,
             vr_verified_profile r) =
            (vr_schema_version r', vr_policy_decision r', vr_policy_audit r', vr_proof_obligations r',
             vr_base_snapshot r', vr_target_snapshot r', vr_structural_diff r', vr_approvals r',
             vr_verified_profile r');
}.

#[global] Instance report_equiv_equivalence : Equivalence report_equiv.
Proof.
  split.
  - by intros r.
  - intros r r' []. split; intros; symmetry; auto.
  - intros r r' r'' [] []. split; intros; etransitivity; eauto.
Qed.

Lemma canonicalize_equiv r : report_equiv (canonicalize_for_ci r) r.
Proof.
  split; cbn; intros; rewrite ?sort_dedup_elem; try done. apply dedupe_id, dedupe_spec.
Qed.

#[global] Instance canonicalize_proper : Proper (report_equiv ==> (=)) canonicalize_for_ci.
Proof.
  intros r r' [He Hd Hs Hp Hg Hh Hr]. unfold canonicalize_for_ci. injection Hr as -> -> -> -> -> -> -> -> ->.
  rewrite He. f_equal; apply sort_dedup_set; first [apply _|done].
Qed.

Lemma worst_state_spec l :
  (∀ s, s ∈ l → (state_priority s ≤ state_priority (worst_state l))%N) ∧
  (worst_state l = StProven ∨ worst_state l ∈ l).
Proof.
  unfold worst_state. induction l as [|s l [IH1 IH2]] using rev_ind; [split; [set_solver|by left]|].
  rewrite foldl_app. cbn. unfold worse at 1 3 5.
  destruct (N.leb_spec (state_priority (foldl worse StProven l)) (state_priority s)) as [Hle|Hlt].
  - split; [|right; set_solver]. intros t [Ht|Ht%list_elem_of_singleton]%elem_of_app; [|subst; lia].
    specialize (IH1 t Ht). lia.
  - split; [|destruct IH2; set_solver]. intros t [Ht|Ht%list_elem_of_singleton]%elem_of_app; [auto|subst; lia].
Qed.

Lemma worst_state_set l k : (∀ s, s ∈ l ↔ s ∈ k) → worst_state l = worst_state k.
Proof.
  intros H. apply (inj state_priority).
  destruct (worst_state_spec l) as [Hl Hl'], (worst_state_spec k) as [Hk Hk'].
  apply N.le_antisymm.
  - destruct Hl' as [->|Hin]; [cbn; lia|]. by apply Hk, H.
  - destruct Hk' as [->|Hin]; [cbn; lia|]. by apply Hl, H.
Qed.

(** Canonicalisation gives equivalent reports one form: two reports with the
    same findings, in whatever order and number their diagnostics were emitted,
    become equal; the form is a fixed point; and no entry, diagnostic or state
    is lost, so that the summary is unchanged. *)
Theorem canonical_report r :
  (∀ r', report_equiv r r' → canonicalize_for_ci r = canonicalize_for_ci r') ∧
  canonicalize_for_ci (canonicalize_for_ci r) = canonicalize_for_ci r ∧
  report_equiv (canonicalize_for_ci r) r ∧
  (∀ e, e ∈ vr_entries (canonicalize_for_ci r) ↔ e ∈ vr_entries r) ∧
  summary (canonicalize_for_ci r) = summary r.
Proof.
  split; [by intros r' ->|]. split; [by apply canonicalize_proper, canonicalize_equiv|].
  split; [apply canonicalize_equiv|].
  assert (∀ e, e ∈ vr_entries (canonicalize_for_ci r) ↔ e ∈ vr_entries r) as He by apply dedupe_spec.
  split; [done|]. apply worst_state_set. intros s. rewrite !list_elem_of_fmap. by setoid_rewrite He.
Qed.
