(* ===== verification/VerifyProof.v ===== *)
(** * Proof obligations

    ail-verify/src/proof.rs: [ProofObligationPipeline], in the default build
    without the Z3 back end.  Obligations come from contracts, refinements,
    resources, concurrency tags and boundaries of the graph; each is simplified,
    given to the solver, composed with the [ensures] clauses of the graph, or
    degraded to an assumption.  [run_with_ledger] records the attempts. *)

From stdpp Require Import pretty.
From S2P Require Import Prelude Text Trim Ordering GraphTypes SemanticGraph VerifySolver VerifyReport.

Record ObligationResult : Type := MkObligationResult {
  or_obligation : ProofObligation;
  or_state : ObligationState;
}.

Record GeneratedObligation : Type := MkGeneratedObligation {
  go_obligation : ProofObligation;
  go_source_stage : string;
}.
#[global] Instance GeneratedObligation_eq_dec : EqDecision GeneratedObligation.
Proof. solve_decision. Defined.

(* ------------------------------------------------------------------ *)
(** ** Stage 1: generate *)

Definition generated (predicate : string) (role : ClauseRole) (scope stage : string) : GeneratedObligation :=
  MkGeneratedObligation (MkProofObligation predicate role scope) stage.

Definition contract_obligations (n : GraphNode) : list GeneratedObligation :=
  match node_contract_clauses n with
  | Some clauses =>
      ((λ p, generated p Requires (node_name n) "contract") <$> cc_requires clauses)
      ++ ((λ p, generated p Ensures (node_name n) "contract") <$> cc_ensures clauses)
  | None => []
  end.

Definition refinement_obligations (n : GraphNode) : list GeneratedObligation :=
  match node_refinement_ref n with
  | Some r =>
      if decide (rr_status r = RsProven) then []
      else [generated (rr_predicate r) Ensures (node_name n) "refinement"]
  | None => []
  end.

Definition has_trust (P : TrustMetadata → bool) (n : GraphNode) : bool :=
  match node_trust_metadata n with Some tm => P tm | None => false end.

Definition resource_obligations (n : GraphNode) : list GeneratedObligation :=
  if has_trust (λ tm, starts_with "resource:" (trust_as_str (tm_level tm))) n then
    [generated ("resource_lifecycle(" +:+ (node_name n +:+ ")")) Ensures (node_name n) "resource"]
  else [].

Definition concurrency_obligations (n : GraphNode) : list GeneratedObligation :=
  if has_trust (λ tm, any (λ tag, tag = "concurrent" ∨ tag = "shared") (tm_tags tm)) n then
    [generated ("concurrency_safe(" +:+ (node_name n +:+ ")")) Ensures (node_name n) "concurrency"]
  else [].

Definition boundary_obligations (n : GraphNode) : list GeneratedObligation :=
  if decide (node_kind n = NkBoundary) then
    [generated ("boundary_trust(" +:+ (node_name n +:+ ")")) Requires (node_name n) "boundary"]
  else [].

Definition node_obligations (n : GraphNode) : list GeneratedObligation :=
  contract_obligations n ++ refinement_obligations n ++ resource_obligations n
  ++ concurrency_obligations n ++ boundary_obligations n.

Definition generate_with_sources (g : SemanticGraph) : list GeneratedObligation :=
  graph_nodes g ≫= node_obligations.

Definition generate (g : SemanticGraph) : list ProofObligation :=
  go_obligation <$> filter (λ o, go_source_stage o = "contract") (generate_with_sources g).

Definition source_stage_rank (stage : string) : N :=
  if decide (stage = "contract") then 0
  else if decide (stage = "refinement") then 1
  else if decide (stage = "resource") then 2
  else if decide (stage = "concurrency") then 3
  else if decide (stage = "boundary") then 4
  else 255.

Definition role_rank (r : ClauseRole) : N := match r with Requires => 0%N | Ensures => 1%N end.

Definition obligation_key (o : GeneratedObligation) : N * string * string * N * string :=
  (source_stage_rank (go_source_stage o), go_source_stage o, ob_scope (go_obligation o),
   role_rank (ob_role (go_obligation o)), ob_predicate (go_obligation o)).

(** The [dedup_by] compares every field. *)
Definition canonicalize_ledger_obligations : list GeneratedObligation → list GeneratedObligation :=
  sort_dedup obligation_key.

(* ------------------------------------------------------------------ *)
(** ** Stages 2 to 5 *)

Definition node_ensures (n : GraphNode) : list string :=
  match node_contract_clauses n with Some c => cc_ensures c | None => [] end.

Definition compose_check (predicate : string) (g : SemanticGraph) : bool :=
  any (λ e, trim e = predicate ∨ semantic_implies predicate (trim e) = true)
    (graph_nodes g ≫= node_ensures).

(** The context of an obligation: nothing for a precondition *)
Definition scope_constraints (g : SemanticGraph) (ob : ProofObligation) : list string :=
  if decide (ob_role ob = Ensures) then
    match find_first (λ n, node_name n = ob_scope ob) (graph_nodes g) with
    | Some n =>
        (match node_contract_clauses n with Some c => cc_requires c | None => [] end)
        ++ (match node_body_expr n with Some b => [b] | None => [] end)
    | None => []
    end
  else [].

Definition degraded_reason : string := "solver cannot evaluate predicate; accepted by policy".

Section Resolve.
Context `{Solver}.

Definition resolve (ob : ProofObligation) (g : SemanticGraph) : ObligationResult :=
  let predicate := trim (ob_predicate ob) in
  if decide (predicate = "true") then MkObligationResult ob ObProven
  else if decide (predicate = "false") then MkObligationResult ob ObFailed
  else
    match solve_with_constraints ob (scope_constraints g ob) with
    | OutcomeProven => MkObligationResult ob ObProven
    | OutcomeAssumed reason =>
        if compose_check predicate g then MkObligationResult ob ObRuntimeChecked
        else MkObligationResult ob (ObAssumed reason)
    | OutcomeUnsupported =>
        if compose_check predicate g then MkObligationResult ob ObRuntimeChecked
        else MkObligationResult ob (ObAssumed degraded_reason)
    end.

Definition run (g : SemanticGraph) : list ObligationResult := (λ ob, resolve ob g) <$> generate g.

Definition composed : ObligationAttempt :=
  MkObligationAttempt "compose" "composed" (Some "peer node ensures clause covers this predicate").

(** Stages 4 and 5, after the solver's attempt [a] *)
Definition compose_or_degrade (id stage : string) (ob : ProofObligation) (g : SemanticGraph)
    (a : ObligationAttempt) (reason : string) : ObligationLedgerEntry :=
  if compose_check (trim (ob_predicate ob)) g then
    MkObligationLedgerEntry id ob ObRuntimeChecked stage [a; composed] None []
  else
    MkObligationLedgerEntry id ob (ObAssumed reason) stage
      [a; MkObligationAttempt "degrade" "degraded" (Some reason)] (Some reason)
      ["add a requires guard proven by the caller"; "add a runtime check at the call site"].

Definition resolve_to_ledger (id : string) (ob : ProofObligation) (stage : string) (g : SemanticGraph)
  : ObligationLedgerEntry :=
  let predicate := trim (ob_predicate ob) in
  if decide (predicate = "true") then
    MkObligationLedgerEntry id ob ObProven stage [MkObligationAttempt "simplify" "proven" None] None []
  else if decide (predicate = "false") then
    MkObligationLedgerEntry id ob ObFailed stage
      [MkObligationAttempt "simplify" "failed" (Some "literal false — obligation is trivially violated")]
      (Some "literal false clause")
      ["remove or correct the false precondition";
       "add a guard that makes the clause reachable only when satisfiable"]
  else
    match solve_with_constraints ob (scope_constraints g ob) with
    | OutcomeProven =>
        MkObligationLedgerEntry id ob ObProven stage [MkObligationAttempt "solver" "proven" None] None []
    | OutcomeAssumed reason =>
        compose_or_degrade id stage ob g (MkObligationAttempt "solver" "assumed" (Some reason)) reason
    | OutcomeUnsupported =>
        compose_or_degrade id stage ob g
          (MkObligationAttempt "solver" "unsupported" (Some "predicate not supported by SimpleSolver"))
          degraded_reason
    end.

Definition ledger_id (idx : nat) : string := "po_" +:+ pretty (S idx).

Definition run_with_ledger (g : SemanticGraph) : list ObligationLedgerEntry :=
  imap (λ idx o, resolve_to_ledger (ledger_id idx) (go_obligation o) (go_source_stage o) g)
    (canonicalize_ledger_obligations (generate_with_sources g)).
End Resolve.

(* ------------------------------------------------------------------ *)
(** ** The verdict on an obligation *)

Definition covered (predicate : string) (g : SemanticGraph) : Prop :=
  ∃ n e, n ∈ graph_nodes g ∧ e ∈ node_ensures n ∧
    (trim e = predicate ∨ semantic_implies predicate (trim e) = true).

Lemma compose_check_iff predicate g : compose_check predicate g = true ↔ covered predicate g.
Proof.
  unfold compose_check, covered. rewrite any_true. setoid_rewrite list_elem_of_bind. naive_solver.
Qed.

Section Verdicts.
Context `{Solver}.

(** What each state of an entry means *)
Definition verdict_ok (g : SemanticGraph) (e : ObligationLedgerEntry) : Prop :=
  let ob := ol_obligation e in
  let p := trim (ob_predicate ob) in
  let outcome := solve_with_constraints ob (scope_constraints g ob) in
  match ol_state e with
  | ObProven => ol_degradation_reason e = None ∧ p ≠ "false" ∧ (p = "true" ∨ outcome = OutcomeProven)
  | ObFailed => is_Some (ol_degradation_reason e) ∧ p = "false"
  | ObRuntimeChecked =>
      ol_degradation_reason e = None ∧ p ≠ "true" ∧ p ≠ "false" ∧ outcome ≠ OutcomeProven ∧ covered p g
  | ObAssumed reason =>
      ol_degradation_reason e = Some reason ∧ p ≠ "true" ∧ p ≠ "false" ∧ outcome ≠ OutcomeProven ∧
      ¬ covered p g
  end.

Lemma resolve_to_ledger_ok id ob stage g : verdict_ok g (resolve_to_ledger id ob stage g).
Proof.
  unfold resolve_to_ledger, verdict_ok. case_decide as Ht.
  { cbn. split; [done|]. rewrite Ht. by split; [|left]. }
  case_decide as Hf; [by cbn; split|].
  destruct (solve_with_constraints ob _) eqn:Es; unfold compose_or_degrade;
    [by cbn; rewrite Es; auto|..];
    destruct (compose_check _ g) eqn:Ec; cbn; rewrite Es; split_and!; try done;
    try (by apply compose_check_iff); by intros Hc%compose_check_iff; congruence.
Qed.

Lemma resolve_to_ledger_fields id ob stage g :
  let e := resolve_to_ledger id ob stage g in
  ol_id e = id ∧ ol_obligation e = ob ∧ ol_source_stage e = stage ∧ ol_state e = or_state (resolve ob g).
Proof.
  cbn. unfold resolve_to_ledger, resolve, compose_or_degrade. repeat case_match; done.
Qed.

Lemma run_with_ledger_elem g e :
  e ∈ run_with_ledger g →
  ∃ id o, o ∈ generate_with_sources g ∧ e = resolve_to_ledger id (go_obligation o) (go_source_stage o) g.
Proof.
  unfold run_with_ledger. rewrite elem_of_lookup_imap. intros (i & o & -> & Ho).
  apply list_elem_of_lookup_2 in Ho. unfold canonicalize_ledger_obligations in Ho.
  rewrite sort_dedup_elem in Ho. eauto.
Qed.

Lemma generated_ensures g o :
  o ∈ generate_with_sources g → go_source_stage o = "contract" → ob_role (go_obligation o) = Ensures →
  covered (trim (ob_predicate (go_obligation o))) g.
Proof.
  intros (n & Ho & Hn)%list_elem_of_bind Hs Hr. exists n, (ob_predicate (go_obligation o)).
  split; [done|]. split; [|by left].
  unfold node_obligations in Ho. rewrite !elem_of_app in Ho. destruct Ho as [Ho|Ho].
  - unfold contract_obligations, node_ensures in *. destruct (node_contract_clauses n); [|set_solver].
    apply elem_of_app in Ho as [(p & -> & Hp)%list_elem_of_fmap|(p & -> & Hp)%list_elem_of_fmap]; done.
  - exfalso. unfold refinement_obligations, resource_obligations, concurrency_obligations,
      boundary_obligations in Ho.
    destruct Ho as [Ho|[Ho|[Ho|Ho]]]; repeat case_match; rewrite ?elem_of_nil, ?list_elem_of_singleton in Ho;
      subst; done.
Qed.

(** The verdicts of the ledger.  An entry is proven exactly for [true] or a
    predicate the solver proves, failed for [false] only, checked at run time
    where some [ensures] clause of the graph covers it, and assumed otherwise; it
    has a degradation reason exactly when it is assumed or failed; the plain
    pipeline reaches the same state.  Since the clauses that may cover an
    obligation include its own, no postcondition of a contract is ever assumed. *)
Theorem ledger_verdicts g e :
  e ∈ run_with_ledger g →
  verdict_ok g e ∧ ol_state e = or_state (resolve (ol_obligation e) g) ∧
  (ol_source_stage e = "contract" → ob_role (ol_obligation e) = Ensures →
   ∀ reason, ol_state e ≠ ObAssumed reason).
Proof.
  intros (id & o & Ho & ->)%run_with_ledger_elem.
  pose proof (resolve_to_ledger_ok id (go_obligation o) (go_source_stage o) g) as Hok.
  destruct (resolve_to_ledger_fields id (go_obligation o) (go_source_stage o) g) as (_ & Eo & Es & Est).
  split; [done|]. rewrite Eo, Es. split; [done|]. intros Hs Hr reason Hst.
  unfold verdict_ok in Hok. rewrite Hst, Eo in Hok. destruct Hok as (_ & _ & _ & _ & Hn).
  by apply Hn, generated_ensures.
Qed.
End Verdicts.

(* ------------------------------------------------------------------ *)
(** ** Stability of the ledger *)

#[global] Instance role_rank_inj : Inj (=) (=) role_rank.
Proof. by intros [] []. Qed.

#[global] Instance obligation_key_inj : Inj (=) (=) obligation_key.
Proof.
  intros [[] ?] [[] ?]. unfold obligation_key. cbn. intros H. injection H as _ ? ? Hr ?.
  apply (inj role_rank) in Hr. by subst.
Qed.

Lemma find_first_key_perm {A K} `{EqDecision K} (key : A → K) (l l' : list A) k :
  NoDup (key <$> l) → l ≡ₚ l' → find_first (λ x, key x = k) l = find_first (λ x, key x = k) l'.
Proof.
  intros Hnd Hp.
  destruct (find_first (λ x, key x = k) l) as [x|] eqn:E, (find_first (λ x, key x = k) l') as [y|] eqn:E';
    [|exfalso..|done].
  - apply find_first_Some in E as [Hx Ex], E' as [Hy Ey]. f_equal.
    apply (NoDup_fmap_key key l); [done|done|by rewrite Hp|congruence].
  - apply find_first_Some in E as [Hx Ex]. rewrite Hp in Hx.
    by apply (proj1 (find_first_None _ _) E' x).
  - apply find_first_Some in E' as [Hy Ey]. rewrite <- Hp in Hy.
    by apply (proj1 (find_first_None _ _) E y).
Qed.

Section Stable.
Context `{Solver} (g g' : SemanticGraph).
Context (names : NoDup (node_name <$> graph_nodes g)) (same : graph_nodes g ≡ₚ graph_nodes g').

Lemma scope_constraints_perm ob : scope_constraints g ob = scope_constraints g' ob.
Proof. unfold scope_constraints. by rewrite (find_first_key_perm node_name _ (graph_nodes g')). Qed.

Lemma compose_check_perm p : compose_check p g = compose_check p g'.
Proof.
  apply Bool.eq_iff_eq_true. rewrite !compose_check_iff. unfold covered. by setoid_rewrite same.
Qed.

Lemma resolve_to_ledger_perm id ob stage :
  resolve_to_ledger id ob stage g = resolve_to_ledger id ob stage g'.
Proof.
  unfold resolve_to_ledger, compose_or_degrade. by rewrite scope_constraints_perm, compose_check_perm.
Qed.

(** The ledger lists the canonical obligations in order. *)
Lemma ledger_obligations :
  (λ e, MkGeneratedObligation (ol_obligation e) (ol_source_stage e)) <$> run_with_ledger g =
  canonicalize_ledger_obligations (generate_with_sources g).
Proof.
  unfold run_with_ledger. rewrite fmap_imap.
  rewrite <- (list_fmap_id (canonicalize_ledger_obligations _)) at 2.
  rewrite <- imap_const. apply imap_ext. intros i o _. unfold compose.
  destruct (resolve_to_ledger_fields (ledger_id i) (go_obligation o) (go_source_stage o) g)
    as (_ & -> & -> & _). by destruct o.
Qed.

(** the ledger depends on the content of the graph only: listing the nodes of
    a graph with distinct names in another order gives the same entries with the
    same identifiers; and it has one entry for each distinct obligation. *)
Theorem ledger_stable :
  run_with_ledger g = run_with_ledger g' ∧
  (∀ o, o ∈ generate_with_sources g ↔
        ∃ e, e ∈ run_with_ledger g ∧ o = MkGeneratedObligation (ol_obligation e) (ol_source_stage e)) ∧
  NoDup ((λ e, MkGeneratedObligation (ol_obligation e) (ol_source_stage e)) <$> run_with_ledger g).
Proof.
  split; [|split].
  - unfold run_with_ledger, canonicalize_ledger_obligations.
    rewrite (sort_dedup_set obligation_key _ (generate_with_sources g')); [|apply _|].
    + apply imap_ext. intros i o _. apply resolve_to_ledger_perm.
    + intros o. unfold generate_with_sources. by rewrite same.
  - intros o. transitivity (o ∈ canonicalize_ledger_obligations (generate_with_sources g)).
    { symmetry. apply sort_dedup_elem. }
    rewrite <- ledger_obligations, list_elem_of_fmap. naive_solver.
  - rewrite ledger_obligations. apply (NoDup_fmap_1 obligation_key).
    apply (strictly_sorted_keys obligation_key), sort_dedup_strict, _.
Qed.
End Stable.

Module ProofSample.

Definition guarded : GraphNode :=
  MkGraphNode 1%N NkFunction "fn.f" None None None (Some (MkContractClauses ["x >= 1"] ["x > 0"; "sorted(x)"]))
    None None None None None None None None None None None None None [] [] [] [] [] None None None None.

Definition boundary : GraphNode := graph_node_new 2%N NkBoundary "bd.db".

#[local] Existing Instance simple_solver.

(** The postcondition that the solver cannot evaluate covers itself. *)
Example self_covered :
  (λ e, (ol_id e, ol_state e)) <$> run_with_ledger (MkSemanticGraph [guarded; boundary] []) =
  [("po_1", ObRuntimeChecked); ("po_2", ObRuntimeChecked); ("po_3", ObProven); ("po_4", ObProven)].
Proof. vm_compute. reflexivity. Qed.

Lemma ledger_verdicts_witness :
  Forall (verdict_ok (MkSemanticGraph [guarded; boundary] []))
    (run_with_ledger (MkSemanticGraph [guarded; boundary] [])).
Proof. apply Forall_forall. intros e He. apply (ledger_verdicts _ e He). Defined.

Lemma ledger_stable_witness :
  run_with_ledger (MkSemanticGraph [guarded; boundary] []) =
  run_with_ledger (MkSemanticGraph [boundary; guarded] []).
Proof.
  apply (ledger_stable (MkSemanticGraph [guarded; boundary] []) (MkSemanticGraph [boundary; guarded] [])).
  - cbn. apply NoDup_cons. split; [|apply NoDup_singleton]. intros H%list_elem_of_singleton. discriminate.
  - constructor.
Defined.
End ProofSample.
