(* ===== verification/VerifyPolicy.v ===== *)
(** * The verification policy engine

    ail-verify/src/policy.rs: rules over the entries of a report, merged by
    severity (failed, then approval required, then warnings), and the matrix of
    the profiles, with unknown profiles as strict as [critical].  The ratio of the
    sufficiency gate is a binary64 division ([SpecFloat]).  The profile
    diagnostics of pipeline.rs override the decision. *)

From Stdlib Require Import SpecFloat.
From stdpp Require Import pretty.
From S2P Require Import Prelude Text Trim Ordering GraphTypes VerifySolver VerifyReport.

Record PolicyInput : Type := MkPolicyInput {
  pi_report : VerificationReport;
  pi_rules : list PolicyRule;
  pi_approvals : list ApprovalRecord;
  pi_public_api_changes : list PublicApiChange;
}.

(** The verdict of a profile on one entry *)
Inductive GateResult : Type :=
| GatePass
| GateWarn (code message : string)
| GateRequireApproval
| GateBlock (code message : string).

Inductive ProfileTier : Type := Draft | Dev | TestTier | Staging | Prod | Critical | UnknownTier.
#[global] Instance ProfileTier_eq_dec : EqDecision ProfileTier.
Proof. solve_decision. Defined.

(** The [match profile] of the matrix *)
Definition profile_tier (profile : string) : ProfileTier :=
  if decide (profile = "draft") then Draft
  else if decide (profile = "dev") then Dev
  else if decide (profile = "test") then TestTier
  else if decide (profile = "staging") then Staging
  else if decide (profile = "prod") then Prod
  else if decide (profile = "critical") then Critical
  else UnknownTier.

Definition is_strong (a : ApprovalRecord) : bool := bool_decide (ap_strength a = Strong).

Definition has_any_approval (scope : string) (approvals : list ApprovalRecord) : bool :=
  any (λ a, ap_scope a = scope) approvals.

Definition approval_has_critical_metadata (a : ApprovalRecord) : bool :=
  bool_decide (trim (ap_approver a) ≠ "") && bool_decide (trim (ap_reason a) ≠ "").

Definition is_public (scope : string) : bool := starts_with "pub::" scope.

Definition in_profile (prefix profile suffix : string) : string :=
  prefix +:+ ("'" +:+ (profile +:+ ("'" +:+ suffix))).

Definition unsafe_gate (profile : string) (approval : option ApprovalRecord) : GateResult :=
  match profile_tier profile with
  | Critical => GateBlock "POLICY_PROFILE_GATE" (in_profile "profile " profile " always blocks Unsafe entries")
  | Prod =>
      match approval with
      | Some a =>
          if is_strong a then GatePass
          else GateBlock "POLICY_UNSAFE_BLOCKED"
                 (in_profile "profile " profile " blocks Unsafe without strong security exception")
      | None => GateBlock "POLICY_UNSAFE_BLOCKED"
                  (in_profile "profile " profile " blocks Unsafe without strong security exception")
      end
  | Staging => GateBlock "POLICY_PROFILE_GATE" (in_profile "profile " profile " blocks Unsafe entries")
  | Draft | Dev | TestTier =>
      match approval with
      | Some _ => GatePass
      | None => GateBlock "POLICY_UNSAFE_BLOCKED"
                  (in_profile "profile " profile " blocks Unsafe without approval")
      end
  | UnknownTier =>
      GateBlock "POLICY_PROFILE_GATE"
        (in_profile "unknown profile " profile " treated as conservative — blocks Unsafe")
  end.

Definition unverified_gate (profile : string) (public : bool) : GateResult :=
  match profile_tier profile with
  | Prod | Staging | Critical =>
      GateBlock "POLICY_PROFILE_GATE" (in_profile "profile " profile " blocks Unverified entries")
  | Dev =>
      if public then GateBlock "POLICY_PROFILE_GATE" "dev profile blocks Unverified in public scope"
      else GatePass
  | Draft =>
      GateWarn "POLICY_UNVERIFIED_WARN"
        "entry has Unverified state in draft profile; annotation recommended"
  | TestTier => GatePass
  | UnknownTier =>
      GateBlock "POLICY_PROFILE_GATE"
        (in_profile "unknown profile " profile " treated as conservative — blocks Unverified")
  end.

(** The arm of [critical] and of unknown profiles, with their messages *)
Definition strict_assumed_gate (incomplete weak : string) (approval : option ApprovalRecord) : GateResult :=
  match approval with
  | Some a =>
      if is_strong a && approval_has_critical_metadata a then GatePass
      else if is_strong a then GateBlock "POLICY_CRITICAL_APPROVAL_INCOMPLETE" incomplete
      else GateBlock "POLICY_WEAK_ASSUMPTION" weak
  | None => GateRequireApproval
  end.

Definition assumed_gate (profile : string) (approval : option ApprovalRecord) : GateResult :=
  match profile_tier profile with
  | Critical =>
      strict_assumed_gate "critical profile requires Assumed approvals to include approver and reason"
        "critical profile rejects Assumed with only Weak approval" approval
  | Prod =>
      match approval with
      | Some a =>
          if is_strong a then GatePass
          else GateBlock "POLICY_WEAK_ASSUMPTION" "prod profile requires Strong approval for Assumed entries"
      | None => GateRequireApproval
      end
  | Staging | Dev => match approval with Some _ => GatePass | None => GateRequireApproval end
  | Draft =>
      GateWarn "POLICY_ASSUMED_WARN" "Assumed entry in draft profile; boundary annotation recommended"
  | TestTier => GatePass
  | UnknownTier =>
      strict_assumed_gate
        (in_profile "unknown profile " profile " treated as conservative — requires Assumed approval metadata")
        (in_profile "unknown profile " profile " treated as conservative — rejects weak Assumed") approval
  end.

Definition runtime_checked_gate (profile : string) : GateResult :=
  match profile_tier profile with
  | Critical =>
      GateWarn "POLICY_RUNTIME_CHECK_ADVISORY"
        ("critical profile: entry has RuntimeChecked state — a runtime assertion is not a formal proof; "
         +:+ "consider upgrading to Proven for critical invariants")
  | UnknownTier =>
      GateWarn "POLICY_RUNTIME_CHECK_ADVISORY"
        (in_profile "unknown profile " profile
           " treated as conservative — RuntimeChecked entry carries advisory warning")
  | _ => GatePass
  end.

Definition profile_gate_result (profile : string) (state : VerificationState) (public : bool)
    (approval : option ApprovalRecord) : GateResult :=
  match state with
  | StFailed => GateBlock "POLICY_PROFILE_GATE" (in_profile "profile " profile " always blocks Failed entries")
  | StUnsafe => unsafe_gate profile approval
  | StUnverified => unverified_gate profile public
  | StAssumed => assumed_gate profile approval
  | StRuntimeChecked => runtime_checked_gate profile
  | StProven => GatePass
  end.

(* ------------------------------------------------------------------ *)
(** ** Rules *)

Definition approval_for (approvals : list ApprovalRecord) (scope : string) : option ApprovalRecord :=
  find_first (λ a, ap_scope a = scope) approvals.

Definition failed_unless_empty (violations : list PolicyViolation) : PolicyDecision :=
  match violations with [] => Passed | _ => PolicyFailed violations end.

Definition unapproved_unsafe (report : VerificationReport) (approvals : list ApprovalRecord)
  : list VerificationEntry :=
  filter (λ e, has_any_approval (ve_scope e) approvals = false)
    (filter (λ e, ve_state e = StUnsafe) (vr_entries report)).

Definition eval_no_unsafe (report : VerificationReport) (approvals : list ApprovalRecord) : PolicyDecision :=
  failed_unless_empty
    ((λ e, MkPolicyViolation "POLICY_UNSAFE_BLOCKED" (ve_scope e)
             (in_profile "entry " (ve_scope e) " has Unsafe state and no explicit approval record"))
     <$> unapproved_unsafe report approvals).

Definition eval_no_unverified_public_api (report : VerificationReport) : PolicyDecision :=
  failed_unless_empty
    ((λ e, MkPolicyViolation "POLICY_UNVERIFIED_PUBLIC_API" (ve_scope e)
             (in_profile "public-scope entry " (ve_scope e)
                " has Unverified state; public API must be verified"))
     <$> filter (λ e, ve_state e = StUnverified ∧ is_public (ve_scope e) = true) (vr_entries report)).

Definition eval_require_approval (report : VerificationReport) (approvals : list ApprovalRecord)
  : PolicyDecision :=
  match ve_scope <$> unapproved_unsafe report approvals with
  | [] => Passed
  | scopes => ApprovalRequired scopes
  end.

Definition eval_no_public_api_changes (changes : list PublicApiChange) (approvals : list ApprovalRecord)
  : PolicyDecision :=
  failed_unless_empty
    ((λ c, MkPolicyViolation "POLICY_PUBLIC_API_CHANGED" (pc_scope c)
             (in_profile "public API " (pc_scope c) (" changed without approval: " +:+ pc_description c)))
     <$> filter (λ c, has_any_approval (pc_scope c) approvals = false) changes).

(** The buckets that rules and entries fill *)
Record Buckets : Type := MkBuckets {
  bk_violations : list PolicyViolation;
  bk_scopes : list string;
  bk_warnings : list PolicyWarning;
}.

Definition bucket_app (a b : Buckets) : Buckets :=
  MkBuckets (bk_violations a ++ bk_violations b) (bk_scopes a ++ bk_scopes b)
    (bk_warnings a ++ bk_warnings b).

(** [Failed] over [ApprovalRequired] over [PassedWithWarnings] over [Passed] *)
Definition decide_buckets (b : Buckets) : PolicyDecision :=
  match bk_violations b, bk_scopes b, bk_warnings b with
  | _ :: _, _, _ => PolicyFailed (bk_violations b)
  | [], _ :: _, _ => ApprovalRequired (bk_scopes b)
  | [], [], _ :: _ => PassedWithWarnings (bk_warnings b)
  | [], [], [] => Passed
  end.

Definition entry_gate (profile : string) (approvals : list ApprovalRecord) (e : VerificationEntry)
  : GateResult :=
  profile_gate_result profile (ve_state e) (is_public (ve_scope e)) (approval_for approvals (ve_scope e)).

Definition entry_buckets (profile : string) (approvals : list ApprovalRecord) (e : VerificationEntry)
  : Buckets :=
  match entry_gate profile approvals e with
  | GateBlock code msg => MkBuckets [MkPolicyViolation code (ve_scope e) msg] [] []
  | GateWarn code msg => MkBuckets [] [] [MkPolicyWarning code (ve_scope e) msg]
  | GateRequireApproval => MkBuckets [] [ve_scope e] []
  | GatePass => MkBuckets [] [] []
  end.

Definition is_critical_like (profile : string) : bool :=
  bool_decide (profile_tier profile = Critical ∨ profile_tier profile = UnknownTier).

Definition solver_violation (d : SolverDiagnostic) : PolicyViolation :=
  MkPolicyViolation "POLICY_SOLVER_DIAGNOSTIC_BLOCKED" (sd_obligation_id d)
    (in_profile "critical profile blocks unresolved solver diagnostic " (sd_obligation_id d)
       (" (" +:+ (solver_status_str (sd_status d) +:+ ("): " +:+ sd_reason d)))).

Definition eval_profile_gate (report : VerificationReport) (profile : string)
    (approvals : list ApprovalRecord) : PolicyDecision :=
  decide_buckets
    (bucket_app (foldr (λ e b, bucket_app (entry_buckets profile approvals e) b) (MkBuckets [] [] [])
                   (vr_entries report))
       (MkBuckets (if is_critical_like profile then solver_violation <$> vr_solver_diagnostics report else [])
          [] [])).

(** [x as f64] for a count *)
Definition f64_of_nat (n : nat) : spec_float := binary_normalize 53 1024 (Z.of_nat n) 0 false.

(** [a > b] *)
Definition f64_gt (a b : spec_float) : bool := bool_decide (SFcompare a b = Some Gt).

Definition counts_total (c : SummaryCounts) : nat :=
  sc_verified_count c + sc_runtime_checked_count c + sc_assumed_count c + sc_unverified_count c
  + sc_unsafe_count c + sc_failed_count c.

(** [format!("{:.1}", x)]: the exact value rounded half to even at one decimal *)
Definition tenths (m : Z) (e : Z) : Z :=
  if (0 <=? e)%Z then (10 * m * 2 ^ e)%Z
  else
    let d := (2 ^ (- e))%Z in
    let q := (10 * m / d)%Z in
    match (2 * (10 * m mod d) ?= d)%Z with
    | Gt => (q + 1)%Z
    | Eq => if Z.odd q then (q + 1)%Z else q
    | Lt => q
    end.

Definition fixed1 (x : spec_float) : string :=
  match x with
  | S754_zero s => if s then "-0.0" else "0.0"
  | S754_infinity s => if s then "-inf" else "inf"
  | S754_nan => "NaN"
  | S754_finite s m e =>
      let n := tenths (Z.pos m) e in
      (if s then "-" else "") +:+ (pretty (n / 10)%Z +:+ ("." +:+ pretty (n mod 10)%Z))
  end.

Definition eval_proof_sufficiency (report : VerificationReport) (max_assumed_ratio : spec_float)
  : PolicyDecision :=
  let counts := vr_summary_counts report in
  let total := counts_total counts in
  if decide (total = 0) then Passed
  else
    let non_proven := total - sc_verified_count counts in
    let ratio := SFdiv 53 1024 (f64_of_nat non_proven) (f64_of_nat total) in
    if f64_gt ratio max_assumed_ratio then
      PolicyFailed [MkPolicyViolation "POLICY_PROOF_SUFFICIENCY" "summary"
        ("proof sufficiency gate: " +:+ (pretty non_proven +:+ ("/" +:+ (pretty total +:+ (" ("
           +:+ (fixed1 (SFmul 53 1024 ratio (f64_of_nat 100)) +:+ ("%) entries non-proven, exceeds max allowed ratio "
           +:+ (fixed1 (SFmul 53 1024 max_assumed_ratio (f64_of_nat 100)) +:+ "%"))))))))]
    else Passed.

Definition evaluate_rule (rule : PolicyRule) (input : PolicyInput) : PolicyDecision :=
  match rule with
  | NoUnsafe => eval_no_unsafe (pi_report input) (pi_approvals input)
  | NoUnverifiedPublicApi => eval_no_unverified_public_api (pi_report input)
  | RequireApproval => eval_require_approval (pi_report input) (pi_approvals input)
  | ProfileGate profile => eval_profile_gate (pi_report input) profile (pi_approvals input)
  | NoPublicApiChangesWithoutApproval =>
      eval_no_public_api_changes (pi_public_api_changes input) (pi_approvals input)
  | ProofSufficiencyGate ratio => eval_proof_sufficiency (pi_report input) ratio
  end.

Definition decision_buckets (d : PolicyDecision) : Buckets :=
  match d with
  | PolicyFailed v => MkBuckets v [] []
  | ApprovalRequired s => MkBuckets [] s []
  | PassedWithWarnings w => MkBuckets [] [] w
  | Passed => MkBuckets [] [] []
  end.

Definition evaluate (input : PolicyInput) : PolicyDecision :=
  decide_buckets
    (foldr (λ rule b, bucket_app (decision_buckets (evaluate_rule rule input)) b) (MkBuckets [] [] [])
       (pi_rules input)).

(* ------------------------------------------------------------------ *)
(** ** Audit *)

Definition gate_decision_for (profile : string) (state : VerificationState) (scope : string)
    (approval : option ApprovalRecord) : string :=
  match profile_gate_result profile state (is_public scope) approval with
  | GateBlock _ _ => "failed"
  | GateWarn _ _ => "warning"
  | GateRequireApproval => "approval_required"
  | GatePass => "passed"
  end.

Definition state_label (s : VerificationState) : string :=
  match s with
  | StProven => "proven" | StRuntimeChecked => "runtime_checked" | StAssumed => "assumed"
  | StUnverified => "unverified" | StUnsafe => "unsafe" | StFailed => "failed"
  end.

Definition gate_profile (rules : list PolicyRule) : string :=
  default "unknown" (head (omap (λ r, match r with ProfileGate p => Some p | _ => None end) rules)).

Definition evaluate_with_audit (input : PolicyInput) : PolicyDecision * PolicyAudit :=
  let profile := gate_profile (pi_rules input) in
  (evaluate input,
   MkPolicyAudit profile
     ((λ e, let approval := approval_for (pi_approvals input) (ve_scope e) in
            MkPolicyAuditEntry (ve_scope e) (state_label (ve_state e))
              (gate_decision_for profile (ve_state e) (ve_scope e) approval) (ap_approver <$> approval))
      <$> vr_entries (pi_report input))
     (ap_scope <$> pi_approvals input)).

(* ------------------------------------------------------------------ *)
(** ** Profile diagnostics (pipeline.rs) *)

Definition profile_rule_diagnostics (requested : string) (rules : list PolicyRule)
  : list ProfileDiagnostic :=
  omap (λ r, match r with
             | ProfileGate p => if decide (p ≠ requested) then Some (rule_mismatch requested p) else None
             | _ => None
             end) rules.

Definition enforce_profile_diagnostics (decision : PolicyDecision) (diagnostics : list ProfileDiagnostic)
  : PolicyDecision :=
  match (λ d, MkPolicyViolation (pd_code d) "profile" (pd_message d))
          <$> filter (λ d, pd_blocking d = true) diagnostics with
  | [] => decision
  | violations =>
      match decision with
      | PolicyFailed existing => PolicyFailed (existing ++ violations)
      | _ => PolicyFailed violations
      end
  end.

(* ------------------------------------------------------------------ *)
(** ** What the engine accepts *)

Definition accepted (d : PolicyDecision) : bool :=
  match d with Passed | PassedWithWarnings _ => true | _ => false end.

Definition gate_open (r : GateResult) : Prop :=
  match r with GatePass | GateWarn _ _ => True | _ => False end.

Definition approved (approvals : list ApprovalRecord) (scope : string) : Prop :=
  ∃ a, a ∈ approvals ∧ ap_scope a = scope.

(** What the evaluation of each rule comes down to, in terms of the matrix and of the
    ratio; an intermediate form for the proofs. *)
Definition rule_satisfied (input : PolicyInput) (rule : PolicyRule) : Prop :=
  let entries := vr_entries (pi_report input) in
  match rule with
  | NoUnsafe | RequireApproval =>
      ∀ e, e ∈ entries → ve_state e = StUnsafe → approved (pi_approvals input) (ve_scope e)
  | NoUnverifiedPublicApi =>
      ∀ e, e ∈ entries → ve_state e = StUnverified → is_public (ve_scope e) = false
  | ProfileGate profile =>
      (∀ e, e ∈ entries → gate_open (entry_gate profile (pi_approvals input) e)) ∧
      (is_critical_like profile = true → vr_solver_diagnostics (pi_report input) = [])
  | NoPublicApiChangesWithoutApproval =>
      ∀ c, c ∈ pi_public_api_changes input → approved (pi_approvals input) (pc_scope c)
  | ProofSufficiencyGate ratio => eval_proof_sufficiency (pi_report input) ratio = Passed
  end.

Lemma accepted_buckets b : accepted (decide_buckets b) = true ↔ bk_violations b = [] ∧ bk_scopes b = [].
Proof. destruct b as [[] [] []]; cbn; naive_solver. Qed.

Lemma buckets_empty {A} (f : A → Buckets) l :
  let b := foldr (λ x b, bucket_app (f x) b) (MkBuckets [] [] []) l in
  (bk_violations b = [] ↔ ∀ x, x ∈ l → bk_violations (f x) = []) ∧
  (bk_scopes b = [] ↔ ∀ x, x ∈ l → bk_scopes (f x) = []).
Proof.
  induction l as [|x l [IH1 IH2]]; cbn in *; [split; split; try done; intros _ ? ?%not_elem_of_nil; done|].
  rewrite !app_nil, IH1, IH2. setoid_rewrite elem_of_cons. split; (split; [intros [? ?] y [->|?]|]; auto).
Qed.

Lemma has_any_approval_iff scope approvals :
  has_any_approval scope approvals = false ↔ ¬ approved approvals scope.
Proof.
  rewrite <- not_true_iff_false. unfold has_any_approval, approved. by rewrite any_true.
Qed.

Lemma unapproved_unsafe_nil report approvals :
  unapproved_unsafe report approvals = [] ↔
  ∀ e, e ∈ vr_entries report → ve_state e = StUnsafe → approved approvals (ve_scope e).
Proof.
  unfold unapproved_unsafe. rewrite filter_nil_iff. setoid_rewrite list_elem_of_filter.
  split.
  - intros H e He Hs. specialize (H e (conj Hs He)). destruct (has_any_approval _ _) eqn:E; [|done].
    apply any_true in E as (a & ? & ?). by exists a.
  - intros H e [Hs He] Hn%has_any_approval_iff. by apply Hn, H.
Qed.

Lemma failed_unless_empty_accepted v : accepted (failed_unless_empty v) = true ↔ v = [].
Proof. by destruct v. Qed.

Lemma decision_buckets_empty rule input :
  bk_violations (decision_buckets (evaluate_rule rule input)) = [] ∧
  bk_scopes (decision_buckets (evaluate_rule rule input)) = [] ↔
  accepted (evaluate_rule rule input) = true.
Proof.
  assert (evaluate_rule rule input ≠ PolicyFailed [] ∧ evaluate_rule rule input ≠ ApprovalRequired []) as [H1 H2].
  { destruct rule; cbn; unfold eval_no_unsafe, eval_no_unverified_public_api, eval_require_approval,
      eval_no_public_api_changes, eval_profile_gate, eval_proof_sufficiency, failed_unless_empty, decide_buckets;
      repeat case_match; split; congruence. }
  destruct (evaluate_rule rule input) as [| |[]|[]]; cbn; naive_solver.
Qed.

Lemma rule_accepted_iff rule input :
  accepted (evaluate_rule rule input) = true ↔ rule_satisfied input rule.
Proof.
  destruct rule as [| | |profile| |ratio]; cbn [evaluate_rule rule_satisfied].
  - unfold eval_no_unsafe. by rewrite failed_unless_empty_accepted, fmap_nil_iff, unapproved_unsafe_nil.
  - unfold eval_no_unverified_public_api. rewrite failed_unless_empty_accepted, fmap_nil_iff, filter_nil_iff.
    split; intros H e He.
    + intros Hs. destruct (is_public _) eqn:E; [|done]. by destruct (H e He).
    + intros [Hs Hp]. rewrite (H e He Hs) in Hp. done.
  - unfold eval_require_approval. rewrite <- unapproved_unsafe_nil. by destruct (unapproved_unsafe _ _).
  - unfold eval_profile_gate. rewrite accepted_buckets. cbn.
    destruct (buckets_empty (entry_buckets profile (pi_approvals input)) (vr_entries (pi_report input)))
      as [Hv Hs].
    rewrite app_nil_r, app_nil, Hv, Hs. clear Hv Hs.
    assert ((if is_critical_like profile then solver_violation <$> vr_solver_diagnostics (pi_report input) else [])
              = [] ↔ (is_critical_like profile = true → vr_solver_diagnostics (pi_report input) = [])) as ->.
    { destruct (is_critical_like profile); [rewrite fmap_nil_iff|]; naive_solver. }
    unfold entry_buckets, gate_open. split.
    + intros [[Hv Hd] Hs]. split; [|done]. intros e He. specialize (Hv e He). specialize (Hs e He).
      by destruct (entry_gate _ _ e).
    + intros [Hg Hd]. split; [split; [|done]|]; intros e He; specialize (Hg e He); by destruct (entry_gate _ _ e).
  - unfold eval_no_public_api_changes. rewrite failed_unless_empty_accepted, fmap_nil_iff, filter_nil_iff.
    setoid_rewrite has_any_approval_iff. unfold approved. split; intros H c Hc.
    + specialize (H c Hc). destruct (any (λ a, ap_scope a = pc_scope c) (pi_approvals input)) eqn:E.
      * apply any_true in E as (a & ? & ?). by exists a.
      * exfalso. apply H. intros (a & Ha & Hac).
        assert (any (λ a, ap_scope a = pc_scope c) (pi_approvals input) = true) as Hx by (apply any_true; eauto).
        congruence.
    + intros Hn. by apply Hn, H.
  - unfold eval_proof_sufficiency. case_decide; [by cbn|]. by destruct (f64_gt _ _).
Qed.

Example fixed1_values :
  fixed1 (SFmul 53 1024 (SFdiv 53 1024 (f64_of_nat 1) (f64_of_nat 3)) (f64_of_nat 100)) = "33.3" ∧
  fixed1 (SFdiv 53 1024 (f64_of_nat 1) (f64_of_nat 4)) = "0.2" ∧
  fixed1 (SFdiv 53 1024 (f64_of_nat 3) (f64_of_nat 4)) = "0.8".
Proof. vm_compute. done. Qed.

Lemma evaluate_accepted_iff input :
  accepted (evaluate input) = true ↔ ∀ rule, rule ∈ pi_rules input → rule_satisfied input rule.
Proof.
  unfold evaluate. rewrite accepted_buckets.
  destruct (buckets_empty (λ rule, decision_buckets (evaluate_rule rule input)) (pi_rules input)) as [-> ->].
  setoid_rewrite <- rule_accepted_iff. setoid_rewrite <- decision_buckets_empty. naive_solver.
Qed.

Lemma enforce_accepted_iff decision diagnostics :
  accepted (enforce_profile_diagnostics decision diagnostics) = true ↔
  accepted decision = true ∧ ∀ d, d ∈ diagnostics → pd_blocking d = false.
Proof.
  unfold enforce_profile_diagnostics.
  assert ((∀ d, d ∈ diagnostics → pd_blocking d = false) ↔ filter (λ d, pd_blocking d = true) diagnostics = [])
    as ->.
  { rewrite filter_nil_iff. by setoid_rewrite not_true_iff_false. }
  destruct (filter _ diagnostics) as [|d ds]; [by cbn; intuition|].
  destruct decision; cbn; intuition congruence.
Qed.

Lemma profile_rule_diagnostics_blocking requested rules :
  (∀ d, d ∈ profile_rule_diagnostics requested rules → pd_blocking d = false) ↔
  ∀ p, ProfileGate p ∈ rules → p = requested.
Proof.
  unfold profile_rule_diagnostics. setoid_rewrite list_elem_of_omap. split.
  - intros H p Hp. destruct (decide (p = requested)) as [|Hne]; [done|].
    assert (pd_blocking (rule_mismatch requested p) = false) as Hb; [|done].
    apply H. exists (ProfileGate p). split; [done|]. by rewrite decide_True.
  - intros H d ([]& Hr & Hd); try done. by rewrite decide_False in Hd by (intros Hn; by apply Hn, H).
Qed.

Lemma is_strong_iff a : is_strong a = true ↔ ap_strength a = Strong.
Proof. apply bool_decide_eq_true. Qed.

Lemma critical_metadata_iff a :
  approval_has_critical_metadata a = true ↔ trim (ap_approver a) ≠ "" ∧ trim (ap_reason a) ≠ "".
Proof. unfold approval_has_critical_metadata. by rewrite andb_true_iff, !bool_decide_eq_true. Qed.

(** The rows of the matrix under [critical] and under unknown profiles *)
Lemma critical_gate_open profile state public approval :
  is_critical_like profile = true →
  gate_open (profile_gate_result profile state public approval) ↔
  state = StProven ∨ state = StRuntimeChecked ∨
  (state = StAssumed ∧ ∃ a, approval = Some a ∧ is_strong a = true ∧ approval_has_critical_metadata a = true).
Proof.
  unfold is_critical_like. intros Ht%bool_decide_eq_true.
  assert (gate_open (profile_gate_result profile state public approval) ↔
    match state with
    | StProven | StRuntimeChecked => True
    | StAssumed =>
        match approval with
        | Some a => is_strong a = true ∧ approval_has_critical_metadata a = true
        | None => False
        end
    | _ => False
    end) as ->.
  { destruct state; cbn; unfold unsafe_gate, unverified_gate, assumed_gate, runtime_checked_gate, strict_assumed_gate;
      destruct Ht as [Ht|Ht]; rewrite ?Ht; try done; destruct approval as [a|]; try done;
      destruct (is_strong a), (approval_has_critical_metadata a); cbn; intuition congruence. }
  destruct state, approval as [a|]; naive_solver.
Qed.

(** No profile is stricter than [critical]. *)
Lemma critical_gate_strictest strict profile state public approval :
  is_critical_like strict = true →
  gate_open (profile_gate_result strict state public approval) →
  gate_open (profile_gate_result profile state public approval).
Proof.
  intros Hc Ho. apply (critical_gate_open _ _ _ _ Hc) in Ho as [-> | [-> | [-> (a & -> & Hs & Hm)]]]; [done| |];
    cbn; unfold runtime_checked_gate, assumed_gate, strict_assumed_gate; rewrite ?Hs, ?Hm;
    by destruct (profile_tier profile).
Qed.

Definition with_gate (input : PolicyInput) (profile : string) : PolicyInput :=
  MkPolicyInput (pi_report input) [ProfileGate profile] (pi_approvals input) (pi_public_api_changes input).

Lemma with_gate_accepted input profile :
  accepted (evaluate (with_gate input profile)) = true ↔ rule_satisfied input (ProfileGate profile).
Proof. rewrite evaluate_accepted_iff. cbn. setoid_rewrite list_elem_of_singleton. naive_solver. Qed.

(** The policy stage accepts exactly when every configured rule evaluates to an accepting
    decision and every profile gate is for the requested profile: the merge of the rules loses
    nothing. *)
Lemma policy_gate_exact input requested :
  accepted (enforce_profile_diagnostics (evaluate_with_audit input).1
              (profile_rule_diagnostics requested (pi_rules input))) = true ↔
  (∀ rule, rule ∈ pi_rules input → rule_satisfied input rule) ∧
  (∀ p, ProfileGate p ∈ pi_rules input → p = requested).
Proof.
  rewrite enforce_accepted_iff, profile_rule_diagnostics_blocking. cbn. by rewrite evaluate_accepted_iff.
Qed.

(** The approval that counts for a scope: the first record of the scope. *)
Definition first_approval (approvals : list ApprovalRecord) (scope : string) (a : ApprovalRecord) : Prop :=
  ∃ pre post, approvals = pre ++ a :: post ∧ ap_scope a = scope ∧ ∀ b, b ∈ pre → ap_scope b ≠ scope.

(** The rows of the profiles from [staging] upwards, as the table at the head of policy.rs has
    them; profiles that are not in the table are as strict as [critical]. *)
Definition strict_row (profile : string) (approvals : list ApprovalRecord) (e : VerificationEntry) : Prop :=
  ve_state e = StProven ∨ ve_state e = StRuntimeChecked ∨
  (ve_state e = StAssumed ∧ ∃ a, first_approval approvals (ve_scope e) a ∧
     (profile = "staging" ∨ profile = "prod" ∧ ap_strength a = Strong ∨
      ap_strength a = Strong ∧ trim (ap_approver a) ≠ "" ∧ trim (ap_reason a) ≠ "")) ∨
  (ve_state e = StUnsafe ∧ profile = "prod" ∧
   ∃ a, first_approval approvals (ve_scope e) a ∧ ap_strength a = Strong).

(** A profile that the table does not name below [critical] *)
Definition beyond_prod (profile : string) : Prop := profile ∉ ["draft"; "dev"; "test"; "staging"; "prod"].

Lemma first_approval_iff approvals scope a :
  approval_for approvals scope = Some a ↔ first_approval approvals scope a.
Proof.
  unfold approval_for, first_approval. induction approvals as [|b l IH]; cbn.
  { split; [done|]. by intros ([] & ? & ? & _). }
  case_decide as Hb.
  - split; [intros [= <-]; exists [], l; split_and!; [done..|by intros ? ?%not_elem_of_nil]|].
    intros ([|c pre] & post & [= -> ->] & _ & Hpre); [done|]. by destruct (Hpre c); [left|].
  - rewrite IH. split.
    + intros (pre & post & -> & Ha & Hpre). exists (b :: pre), post. split_and!; [done..|].
      intros c [->|Hc]%elem_of_cons; auto.
    + intros ([|c pre] & post & [= -> ->] & Ha & Hpre); [done|]. exists pre, post. split_and!; [done..|].
      intros d Hd. apply Hpre. by right.
Qed.

Lemma strict_tier profile :
  profile ∉ ["draft"; "dev"; "test"] →
  (profile_tier profile = Staging ∧ profile = "staging") ∨ (profile_tier profile = Prod ∧ profile = "prod") ∨
  (is_critical_like profile = true ∧ beyond_prod profile).
Proof.
  unfold is_critical_like, beyond_prod. rewrite !not_elem_of_cons. unfold profile_tier.
  intros (H1 & H2 & H3 & _). rewrite !decide_False by done.
  destruct (decide (profile = "staging")) as [->|H4]; [by left|].
  destruct (decide (profile = "prod")) as [->|H5]; [by right; left|]. right; right.
  split; [|split_and!; [done..|apply not_elem_of_nil]].
  apply bool_decide_eq_true. case_decide; auto.
Qed.

Lemma prod_gate_open state public approval :
  gate_open (profile_gate_result "prod" state public approval) ↔
  match state with
  | StProven | StRuntimeChecked => True
  | StAssumed | StUnsafe => match approval with Some a => ap_strength a = Strong | None => False end
  | _ => False
  end.
Proof.
  destruct state; try done; cbn [profile_gate_result]; unfold unsafe_gate, assumed_gate;
    change (profile_tier "prod") with Prod; destruct approval as [a|]; try done;
    rewrite <- is_strong_iff; by destruct (is_strong a).
Qed.

Lemma strict_row_open profile approvals e :
  profile ∉ ["draft"; "dev"; "test"] →
  gate_open (entry_gate profile approvals e) ↔ strict_row profile approvals e.
Proof.
  intros Hp. unfold strict_row. setoid_rewrite <- first_approval_iff. unfold entry_gate.
  set (approval := approval_for approvals (ve_scope e)). clearbody approval.
  destruct (strict_tier profile Hp) as [[Ht ->]|[[Ht ->]|[Hc Hb]]].
  - destruct (ve_state e); cbn; destruct approval as [a|]; naive_solver.
  - rewrite prod_gate_open. destruct (ve_state e); try naive_solver; destruct approval as [a|]; naive_solver.
  - rewrite (critical_gate_open _ _ _ _ Hc). setoid_rewrite is_strong_iff. setoid_rewrite critical_metadata_iff.
    unfold beyond_prod in Hb. rewrite !not_elem_of_cons in Hb. naive_solver.
Qed.

Lemma critical_beyond profile :
  profile ∉ ["draft"; "dev"; "test"] → is_critical_like profile = true ↔ beyond_prod profile.
Proof.
  intros Hp. destruct (strict_tier profile Hp) as [[Ht ->]|[[Ht ->]|[Hc Hb]]]; [..|done];
    (split; [done|]); intros Hb; exfalso; apply Hb; set_solver.
Qed.

Lemma strict_gate_satisfied input profile :
  profile ∉ ["draft"; "dev"; "test"] →
  rule_satisfied input (ProfileGate profile) ↔
  (∀ e, e ∈ vr_entries (pi_report input) → strict_row profile (pi_approvals input) e) ∧
  (beyond_prod profile → vr_solver_diagnostics (pi_report input) = []).
Proof.
  intros Hp. cbn. rewrite (critical_beyond profile Hp). by setoid_rewrite strict_row_open.
Qed.

(** C33: the strict profiles, [staging], [prod], [critical] and every name that is not [draft], [dev]
    or [test].  Whenever the configured rules contain the gate of such a profile, an accepted report
    has only entries that are proven, checked at run time, or assumed under an approval; the approval
    that counts is the first record of the entry's scope, it must be strong unless the profile is
    [staging], and beyond [prod] it must name an approver and a reason.  An unsafe entry is
    accepted under [prod] alone, with a strong approval; beyond [prod] no solver diagnostic may be left.
    Where the gate is the only rule, every such report is accepted.  And what the gate of [critical] or of
    an unknown profile accepts is accepted by the gate of every profile. *)
Theorem strict_by_default input profile (Hp : profile ∉ ["draft"; "dev"; "test"]) :
  let admitted :=
    (∀ e, e ∈ vr_entries (pi_report input) → strict_row profile (pi_approvals input) e) ∧
    (beyond_prod profile → vr_solver_diagnostics (pi_report input) = []) in
  (ProfileGate profile ∈ pi_rules input → accepted (evaluate input) = true → admitted) ∧
  (accepted (evaluate (with_gate input profile)) = true ↔ admitted) ∧
  (beyond_prod profile → admitted → ∀ p, accepted (evaluate (with_gate input p)) = true).
Proof.
  cbv zeta. rewrite <- strict_gate_satisfied by done. split_and!.
  - intros Hin Ha. by apply (proj1 (evaluate_accepted_iff input) Ha).
  - apply with_gate_accepted.
  - intros Hb [Ho Hd] p. apply with_gate_accepted. apply (critical_beyond profile Hp) in Hb.
    split; [|intros _; by apply Hd]. intros e He. eapply critical_gate_strictest; [done|]. by apply Ho.
Qed.

(* ------------------------------------------------------------------ *)
(** ** Samples *)

Module PolicySample.

Definition entry (state : VerificationState) : VerificationEntry :=
  MkVerificationEntry "c" state "pub::f" None false [].

Definition approval (strength : ApprovalStrength) : ApprovalRecord :=
  MkApprovalRecord "pub::f" "alice" "reviewed" strength.

Definition input (entries : list VerificationEntry) (rules : list PolicyRule) (approvals : list ApprovalRecord)
  : PolicyInput :=
  MkPolicyInput (stage_report entries [] []) rules approvals [].

(** An assumed entry with a strong approval passes an unknown profile and [prod]; an unverified one
    does not pass the unknown profile. *)
Lemma strict_by_default_witness :
  "nightly" ∉ ["draft"; "dev"; "test"] ∧
  accepted (evaluate (with_gate (input [entry StAssumed] [] [approval Strong]) "nightly")) = true ∧
  accepted (evaluate (with_gate (input [entry StAssumed] [] [approval Strong]) "prod")) = true ∧
  accepted (evaluate (with_gate (input [entry StUnverified] [] [approval Strong]) "nightly")) ≠ true.
Proof.
  assert ("nightly" ∉ ["draft"; "dev"; "test"]) as Hp by (apply (bool_decide_unpack _); vm_compute; exact I).
  destruct (strict_by_default (input [entry StAssumed] [] [approval Strong]) "nightly" Hp) as (_ & Hiff & Hall).
  assert (accepted (evaluate (with_gate (input [entry StAssumed] [] [approval Strong]) "nightly")) = true) as Ha
    by (vm_compute; reflexivity).
  split; [exact Hp|]. split; [exact Ha|]. split.
  - apply Hall; [apply (bool_decide_unpack _); vm_compute; exact I|by apply Hiff].
  - unfold not. rewrite (proj1 (proj2 (strict_by_default (input [entry StUnverified] [] [approval Strong]) "nightly" Hp))).
    intros [Hr _]. specialize (Hr (entry StUnverified) ltac:(left)).
    destruct Hr as [Hr|[Hr|[[Hr _]|[Hr _]]]]; discriminate.
Defined.

(** Only the first approval of a scope is read: a weak record before a strong one closes the gate. *)
Example weak_approval_shadows :
  accepted (evaluate (with_gate (input [entry StAssumed] [] [approval Strong; approval Weak]) "prod")) = true ∧
  accepted (evaluate (with_gate (input [entry StAssumed] [] [approval Weak; approval Strong]) "prod")) = false.
Proof. vm_compute. done. Qed.

(** Entries checked at run time count as verified and again on their own: two entries, one of them failed, make a
    total of three, two of which are reported as not proven. *)
Example runtime_checked_counted_twice :
  let report := stage_report [entry StRuntimeChecked; entry StFailed] [] [] in
  counts_total (vr_summary_counts report) = 3 ∧
  eval_proof_sufficiency report (SFdiv 53 1024 (f64_of_nat 1) (f64_of_nat 2)) =
    PolicyFailed [MkPolicyViolation "POLICY_PROOF_SUFFICIENCY" "summary"
      "proof sufficiency gate: 2/3 (66.7%) entries non-proven, exceeds max allowed ratio 50.0%"].
Proof. vm_compute. done. Qed.

End PolicySample.
