(* ===== verification/VerifyCheckers.v ===== *)
(** * The graph checkers: facts, effects, contracts, concurrency

    The stages of ail-verify that read the semantic graph alone: checker.rs
    (declared facts), effect_checker.rs (declared against inferred effects),
    contract_checker.rs (clauses given to the solver) and
    concurrency_checker.rs (lifecycle tags of tasks, groups and channels).
    Each turns the nodes of the graph into entries and diagnostics. *)

From stdpp Require Import pretty gmap.
From S2P Require Import Prelude Text Trim Ordering GraphTypes SemanticGraph VerifySolver VerifyReport.

(** The report of a stage that leaves the version and the counts to [Default] *)
Definition bare_report (entries : list VerificationEntry) (diagnostics : list Diagnostic) : VerificationReport :=
  MkVerificationReport entries diagnostics "" (MkSummaryCounts 0 0 0 0 0 0)
    None None [] [] [] [] [] None None None [] None.

(** An entry whose [blocking] flag follows from its state *)
Definition state_entry (claim : string) (state : VerificationState) (scope : string)
    (evidence : option string) : VerificationEntry :=
  MkVerificationEntry claim state scope evidence (state_blocks state) [].

Definition has_tag (tags : list string) (tag : string) : bool := any (λ t, t = tag) tags.

(** ['subject'] *)
Definition quoting (prefix subject suffix : string) : string :=
  prefix +:+ ("'" +:+ (subject +:+ ("'" +:+ suffix))).

(* ------------------------------------------------------------------ *)
(** ** Declared facts (checker.rs) *)

Definition fact_entry (claim : string) (state : VerificationState) (scope : string) : VerificationEntry :=
  MkVerificationEntry claim state scope None false [].

Definition type_state (n : GraphNode) : VerificationState :=
  match node_type_facts n with
  | Some tf => if decide (tf_nominal tf = "") then StUnverified else StProven
  | None => StUnverified
  end.

Definition declared_state {A} (fact : option A) : VerificationState :=
  match fact with Some _ => StAssumed | None => StUnverified end.

Definition classify_node (n : GraphNode) : list VerificationEntry * list Diagnostic :=
  ([fact_entry "type" (type_state n) (node_name n);
    fact_entry "effect" (declared_state (node_effect_row n)) (node_name n);
    fact_entry "capability" (declared_state (node_capability_reqs n)) (node_name n)],
   if decide (type_state n = StUnverified) then
     [with_evidence (quoting "node " (node_name n) " has no declared type facts")
        (diagnostic_error "E_TYPE_MISMATCH" (node_id n))]
   else []).

Definition fact_check (g : SemanticGraph) : VerificationReport :=
  bare_report (graph_nodes g ≫= λ n, (classify_node n).1) (graph_nodes g ≫= λ n, (classify_node n).2).

(* ------------------------------------------------------------------ *)
(** ** Effects (effect_checker.rs) *)

(** The [HashMap] from ids to names: the last node of an id wins. *)
Definition name_of (g : SemanticGraph) : gmap NodeRef string :=
  foldl (λ m n, <[node_id n := node_name n]> m) ∅ (graph_nodes g).

Definition infer_edge (names : gmap NodeRef string) (m : gmap NodeRef (gset string)) (e : GraphEdge)
  : gmap NodeRef (gset string) :=
  if decide (edge_kind e = EkEmits) then
    match names !! edge_target e with
    | Some target => <[edge_source e := {[ target ]} ∪ default ∅ (m !! edge_source e)]> m
    | None => m
    end
  else m.

(** What each node emits, along its [Emits] edges *)
Definition inferred (g : SemanticGraph) : gmap NodeRef (gset string) :=
  foldl (infer_edge (name_of g)) ∅ (graph_edges g).

Definition declared (n : GraphNode) : gset string :=
  match node_effect_row n with Some er => list_to_set (er_effects er) | None => ∅ end.

Definition redacted_descriptors (kind : string) (count : nat) : list string :=
  (λ index, kind +:+ ("#" +:+ pretty index)) <$> seq 0 count.

Definition effect_issue_evidence (code category reason descriptor_kind : string)
    (raw_descriptors : list string) : string :=
  code +:+ (": category=" +:+ (category +:+ ("; reason=" +:+ (reason +:+ ("; count="
    +:+ (pretty (length raw_descriptors) +:+ ("; descriptors=["
    +:+ (join ", " (redacted_descriptors descriptor_kind (length raw_descriptors)) +:+ "]")))))))).

Definition effect_entry (g : SemanticGraph) (n : GraphNode) : VerificationEntry :=
  let inf := default ∅ (inferred g !! node_id n) in
  let undeclared := set_iter (inf ∖ declared n) in
  let extra := set_iter (declared n ∖ inf) in
  if decide (undeclared ≠ []) then
    MkVerificationEntry "effect-check" StFailed (node_name n)
      (Some (effect_issue_evidence "E_EFFECT_UNDECLARED" "effect.missing"
               "inferred effect(s) missing from effect_row" "effect" undeclared)) true
      ["add the missing effect to the node's effect_row declaration";
       "remove the Emits edge if the effect emission is unintended"]
  else if decide (extra ≠ []) then
    MkVerificationEntry "effect-check" StAssumed (node_name n)
      (Some (effect_issue_evidence "E_EFFECT_UNUSED" "effect.extra"
               "declared effect(s) absent from inferred Emits edges" "effect" extra)) false
      ["remove the unused effect declaration from effect_row";
       "add an Emits edge to connect the declared effect to its target node"]
  else MkVerificationEntry "effect-check" StProven (node_name n) None false [].

(** The order of the states from [Proven] up, in effect_checker.rs and codegen_checker.rs *)
Definition verification_state_rank (s : VerificationState) : N :=
  match s with
  | StProven => 0 | StRuntimeChecked => 1 | StAssumed => 2 | StUnverified => 3 | StUnsafe => 4 | StFailed => 5
  end%N.

Definition effect_entry_key (e : VerificationEntry) : string * string * N * option string * list string :=
  (ve_claim e, ve_scope e, verification_state_rank (ve_state e), ve_evidence e, ve_repair_options e).

Definition normalize_effect_entries (entries : list VerificationEntry) : list VerificationEntry :=
  sort_dedup effect_entry_key entries.

Definition effect_check (g : SemanticGraph) : VerificationReport :=
  stage_report (normalize_effect_entries (effect_entry g <$> graph_nodes g)) [] [].

(* ------------------------------------------------------------------ *)
(** ** Contracts (contract_checker.rs) *)

Definition role_label (role : ClauseRole) : string :=
  match role with Requires => "requires" | Ensures => "ensures" end.

Section Contracts.
Context `{Solver}.

(** [evaluate] and [evaluate_invariant] differ in the prefix of the claim and in the reason. *)
Definition evaluate_clause (prefix cannot predicate : string) (role : ClauseRole) (scope : string)
  : VerificationEntry :=
  if decide (trim predicate = "false") then
    MkVerificationEntry (prefix +:+ (" " +:+ predicate)) StFailed scope None true []
  else
    let '(state, evidence) :=
      match solve (MkProofObligation predicate role "") with
      | OutcomeProven => (StRuntimeChecked, None)
      | OutcomeUnsupported => (StAssumed, Some (cannot +:+ predicate))
      | OutcomeAssumed reason => (StAssumed, Some reason)
      end in
    state_entry (prefix +:+ (" " +:+ predicate)) state scope evidence.

Definition contract_evaluate (predicate : string) (role : ClauseRole) (scope : string) : VerificationEntry :=
  evaluate_clause (role_label role +:+ ":") "solver cannot evaluate predicate: " predicate role scope.

Definition evaluate_invariant (predicate : string) (role : ClauseRole) (scope : string) : VerificationEntry :=
  evaluate_clause (match role with Requires => "invariant-requires:" | Ensures => "invariant-ensures:" end)
    "solver cannot evaluate invariant predicate: " predicate role scope.

Definition contract_failure_category (role : ClauseRole) (is_invariant : bool) : string :=
  match role, is_invariant with
  | Requires, false => "contract.precondition_failed"
  | Ensures, false => "contract.postcondition_failed"
  | Requires, true => "contract.invariant_precondition_failed"
  | Ensures, true => "contract.invariant_postcondition_failed"
  end.

Definition contract_failure_diagnostic (target : NodeRef) (scope predicate : string) (role : ClauseRole)
    (is_invariant : bool) : Diagnostic :=
  with_evidence
    ("category=" +:+ (contract_failure_category role is_invariant +:+ ("; role=" +:+ (role_label role
       +:+ (quoting "; scope=" scope ("; predicate=" +:+ trim predicate))))))
    (diagnostic_error "E_CONTRACT_VIOLATED" target).

Definition clause_result (n : GraphNode) (role : ClauseRole) (predicate : string)
  : VerificationEntry * list Diagnostic :=
  let is_invariant := bool_decide (node_kind n = NkInvariant) in
  let entry := if is_invariant then evaluate_invariant predicate role (node_name n)
               else contract_evaluate predicate role (node_name n) in
  (entry,
   if decide (ve_state entry = StFailed) then
     [contract_failure_diagnostic (node_id n) (node_name n) predicate role is_invariant]
   else []).

Definition node_clauses (n : GraphNode) : list (VerificationEntry * list Diagnostic) :=
  match node_contract_clauses n with
  | Some c => (clause_result n Requires <$> cc_requires c) ++ (clause_result n Ensures <$> cc_ensures c)
  | None => []
  end.

Definition diagnostic_category (evidence : string) : option string :=
  match strip_prefix "category=" evidence with
  | Some rest => fst <$> split_once ";" rest
  | None => None
  end.

Definition contract_diagnostic_category_rank (d : Diagnostic) : N :=
  match dg_evidence d ≫= diagnostic_category with
  | Some c =>
      if decide (c = "contract.precondition_failed") then 0
      else if decide (c = "contract.postcondition_failed") then 1
      else if decide (c = "contract.invariant_precondition_failed") then 2
      else if decide (c = "contract.invariant_postcondition_failed") then 3
      else 4
  | None => 4
  end%N.

Definition contract_diagnostic_key (d : Diagnostic) : N * N * string * option string :=
  (contract_diagnostic_category_rank d, dg_target d, dg_code d, dg_evidence d).

Definition canonicalize_contract_diagnostics (ds : list Diagnostic) : list Diagnostic :=
  sort_dedup contract_diagnostic_key ds.

Definition contract_check (g : SemanticGraph) : VerificationReport :=
  let results := graph_nodes g ≫= node_clauses in
  bare_report results.*1 (canonicalize_contract_diagnostics (results ≫= snd)).
End Contracts.

(* ------------------------------------------------------------------ *)
(** ** Concurrency (concurrency_checker.rs) *)

Inductive ConcurrencyKind : Type :=
| Task | TaskGroup | Channel | SharedState | CellCrossing | UnboundedConcurrency.

Definition concurrency_kind (level : string) : option ConcurrencyKind :=
  if decide (level = "task") then Some Task
  else if decide (level = "task-group") then Some TaskGroup
  else if decide (level = "channel") then Some Channel
  else if decide (level = "shared-state") then Some SharedState
  else if decide (level = "cell-crossing") then Some CellCrossing
  else if decide (level = "unbounded-concurrency") then Some UnboundedConcurrency
  else None.

Definition is_task_group (n : GraphNode) : bool :=
  match node_trust_metadata n with
  | Some tm => bool_decide (trust_as_str (tm_level tm) = "task-group")
  | None => false
  end.

Definition has_parent_scope (g : SemanticGraph) (id : NodeRef) : bool :=
  any (λ e, edge_source e = id ∧ (edge_kind e = EkSpawnedBy ∨ edge_kind e = EkChildOf) ∧
            any (λ n, node_id n = edge_target e ∧ is_task_group n = true) (graph_nodes g) = true)
    (graph_edges g).

Definition classify_concurrency (kind : ConcurrencyKind) (tags : list string) (scope : string)
    (id : NodeRef) (g : SemanticGraph) : VerificationState * option string :=
  match kind with
  | Task =>
      if has_tag tags "orphan" then
        (StFailed, Some (quoting "task " scope
           " is orphaned (not awaited, cancelled, or transferred); orphan tasks are always failed"))
      else if has_tag tags "awaited" || has_tag tags "cancelled" || has_tag tags "transferred" then (StProven, None)
      else
        (StUnverified, Some (quoting "task " scope
           (if has_parent_scope g id
            then " has no lifecycle tag (awaited/cancelled/transferred); lifecycle unverified"
            else " has no lifecycle tag and no parent TaskGroup scope edge; potential orphan scope")))
  | TaskGroup =>
      if has_tag tags "closed" then (StProven, None)
      else (StFailed, Some (quoting "task group " scope
              " scope is not closed; all task groups must close cleanly"))
  | Channel =>
      if has_tag tags "closed" || has_tag tags "transferred" then (StProven, None)
      else (StUnverified, Some (quoting "channel " scope
              " has no 'closed' or 'transferred' tag; lifecycle unverified"))
  | SharedState =>
      if has_tag tags "safe-capability" then (StProven, None)
      else (StUnsafe, Some (quoting "shared state " scope
              " lacks 'safe-capability' tag; concurrent mutable access is unsafe"))
  | CellCrossing =>
      (StFailed, Some (quoting "Cell<T> " scope
         " crosses a task boundary; this is always a concurrency violation"))
  | UnboundedConcurrency =>
      if has_tag tags "policy-approved" then
        (StAssumed, Some (quoting "unbounded concurrency " scope " is policy-approved; treated as assumed"))
      else (StUnverified, Some (quoting "unbounded concurrency " scope
              " without policy approval; unverified by default"))
  end.

Definition concurrency_code (kind : ConcurrencyKind) (state : VerificationState) : option string :=
  match state with
  | StFailed =>
      Some match kind with
           | Task => "E_ORPHAN_TASK"
           | TaskGroup => "E_UNCLOSED_TASK_GROUP"
           | CellCrossing => "E_CELL_CROSSING_BOUNDARY"
           | _ => "E_ORPHAN_TASK"
           end
  | StUnsafe => Some "E_SHARED_STATE_UNSAFE"
  | _ => None
  end.

Definition concurrency_result (g : SemanticGraph) (n : GraphNode)
  : option (VerificationEntry * list Diagnostic) :=
  tm ← node_trust_metadata n;
  kind ← concurrency_kind (trust_as_str (tm_level tm));
  let '(state, evidence) := classify_concurrency kind (tm_tags tm) (node_name n) (node_id n) g in
  Some (state_entry ("concurrency-safety[" +:+ (trust_as_str (tm_level tm) +:+ "]")) state (node_name n) evidence,
        match concurrency_code kind state with
        | Some code => [MkDiagnostic code SevError (node_id n) evidence None None [] true]
        | None => []
        end).

Definition concurrency_check (g : SemanticGraph) : VerificationReport :=
  let results := omap (concurrency_result g) (graph_nodes g) in
  stage_report results.*1 (results ≫= snd) [].

(* ------------------------------------------------------------------ *)
(** ** What the checkers decide *)

Definition emits_effect (g : SemanticGraph) (id : NodeRef) (effect : string) : Prop :=
  ∃ e, e ∈ graph_edges g ∧ edge_kind e = EkEmits ∧ edge_source e = id ∧
       name_of g !! edge_target e = Some effect.

Lemma infer_edges_elem names edges m id x :
  x ∈ default ∅ (foldl (infer_edge names) m edges !! id) ↔
  x ∈ default ∅ (m !! id) ∨
  ∃ e, e ∈ edges ∧ edge_kind e = EkEmits ∧ edge_source e = id ∧ names !! edge_target e = Some x.
Proof.
  revert m. induction edges as [|e edges IH]; intros m; cbn; [set_solver|].
  rewrite IH, exists_elem_cons. clear IH.
  assert (x ∈ default ∅ (infer_edge names m e !! id) ↔ x ∈ default ∅ (m !! id) ∨
    (edge_kind e = EkEmits ∧ edge_source e = id ∧ names !! edge_target e = Some x)) as ->.
  { unfold infer_edge. case_decide as Hk; [|naive_solver].
    destruct (names !! edge_target e) as [t|]; [|naive_solver].
    destruct (decide (edge_source e = id)) as [Hs|Hs].
    - rewrite Hs, lookup_insert_eq. cbn. rewrite elem_of_union, elem_of_singleton. naive_solver.
    - rewrite lookup_insert_ne by done. naive_solver. }
  naive_solver.
Qed.

Lemma inferred_elem g id x : x ∈ default ∅ (inferred g !! id) ↔ emits_effect g id x.
Proof. unfold inferred, emits_effect. rewrite infer_edges_elem, lookup_empty. set_solver. Qed.

Lemma effect_entry_state g n :
  (ve_state (effect_entry g n) = StFailed ↔ ∃ x, emits_effect g (node_id n) x ∧ x ∉ declared n) ∧
  (ve_state (effect_entry g n) = StProven ↔ ∀ x, emits_effect g (node_id n) x ↔ x ∈ declared n) ∧
  (ve_state (effect_entry g n) = StFailed ∨ ve_state (effect_entry g n) = StAssumed ∨
   ve_state (effect_entry g n) = StProven).
Proof.
  unfold effect_entry. setoid_rewrite <- inferred_elem.
  set (inf := default ∅ (inferred g !! node_id n)). clearbody inf.
  case_decide as Hu; [|case_decide as He]; cbn;
    rewrite set_iter_nil in *.
  - apply set_choose_L in Hu as [x [Hx Hd]%elem_of_difference]. split_and!; [by split; eauto| |auto].
    split; [done|]. intros Heq. by destruct Hd; apply Heq.
  - apply set_choose_L in He as [x [Hx Hd]%elem_of_difference]. split_and!; [| |auto]; (split; [done|]).
    + intros (y & Hy & Hn). set_solver.
    + intros Heq. by destruct Hd; apply Heq.
  - split_and!; [| |auto].
    + split; [done|]. intros (y & Hy & Hn). set_solver.
    + split; [|done]. intros _ x. apply empty_difference_subseteq_L in Hu, He. by split; [apply Hu|apply He].
Qed.

Lemma effect_check_entries g e : e ∈ vr_entries (effect_check g) ↔ ∃ n, n ∈ graph_nodes g ∧ e = effect_entry g n.
Proof. cbn. unfold normalize_effect_entries. rewrite sort_dedup_elem, list_elem_of_fmap. naive_solver. Qed.

Lemma contract_check_entries `{Solver} g e :
  e ∈ vr_entries (contract_check g) ↔
  ∃ n role p, n ∈ graph_nodes g ∧ (clause_result n role p).1 = e ∧
    match node_contract_clauses n with
    | Some c => p ∈ match role with Requires => cc_requires c | Ensures => cc_ensures c end
    | None => False
    end.
Proof.
  cbn. rewrite list_elem_of_fmap. setoid_rewrite list_elem_of_bind. unfold node_clauses. split.
  - intros (r & -> & n & Hr & Hn). destruct (node_contract_clauses n) as [c|] eqn:E; [|by apply not_elem_of_nil in Hr].
    apply elem_of_app in Hr as [(p & -> & Hp)%list_elem_of_fmap|(p & -> & Hp)%list_elem_of_fmap].
    + exists n, Requires, p. by rewrite E.
    + exists n, Ensures, p. by rewrite E.
  - intros (n & role & p & Hn & <- & Hp). exists (clause_result n role p). split; [done|]. exists n.
    destruct (node_contract_clauses n) as [c|]; [|done]. split; [|done].
    apply elem_of_app. destruct role; [left|right]; by apply list_elem_of_fmap_2.
Qed.

Lemma clause_state `{Solver} n role p :
  ve_state (clause_result n role p).1 =
  if decide (trim p = "false") then StFailed
  else if decide (solve (MkProofObligation p role "") = OutcomeProven) then StRuntimeChecked
  else StAssumed.
Proof.
  unfold clause_result, evaluate_invariant, contract_evaluate, evaluate_clause. cbn.
  case_bool_decide; (case_decide; [done|]); destruct (solve _); by repeat case_decide.
Qed.

(** The checkers that skip nodes *)
Lemma omap_entries {A B} (f : A → option (VerificationEntry * B)) l e :
  e ∈ (omap f l).*1 ↔ ∃ n ds, n ∈ l ∧ f n = Some (e, ds).
Proof.
  rewrite list_elem_of_fmap. setoid_rewrite list_elem_of_omap. split.
  - intros ([e' ds] & -> & n & Hn & Hr). by exists n, ds.
  - intros (n & ds & Hn & Hr). by exists (e, ds); eauto.
Qed.

Lemma concurrency_check_entries g e :
  e ∈ vr_entries (concurrency_check g) ↔
  ∃ n ds, n ∈ graph_nodes g ∧ concurrency_result g n = Some (e, ds).
Proof. apply omap_entries. Qed.

Lemma concurrency_entry_in g n tm kind :
  n ∈ graph_nodes g → node_trust_metadata n = Some tm →
  concurrency_kind (trust_as_str (tm_level tm)) = Some kind →
  ∃ e, e ∈ vr_entries (concurrency_check g) ∧
    ve_state e = (classify_concurrency kind (tm_tags tm) (node_name n) (node_id n) g).1 ∧ ve_scope e = node_name n.
Proof.
  intros Hn Htm Hk. setoid_rewrite concurrency_check_entries. unfold concurrency_result.
  destruct (classify_concurrency kind (tm_tags tm) (node_name n) (node_id n) g) as [state ev] eqn:Ec.
  exists (state_entry ("concurrency-safety[" +:+ (trust_as_str (tm_level tm) +:+ "]")) state (node_name n) ev).
  split; [|done]. eexists n, _. split; [done|]. rewrite Htm. cbn. rewrite Hk. cbn. by rewrite Ec.
Qed.

(** The tags that let a concurrency primitive pass *)
Definition concurrency_safe (kind : ConcurrencyKind) (tags : list string) : Prop :=
  match kind with
  | Task => "orphan" ∉ tags
  | TaskGroup => "closed" ∈ tags
  | SharedState => "safe-capability" ∈ tags
  | CellCrossing => False
  | Channel | UnboundedConcurrency => True
  end.

Lemma has_tag_iff tags t : has_tag tags t = true ↔ t ∈ tags.
Proof. unfold has_tag. rewrite any_true. naive_solver. Qed.

Lemma classify_concurrency_blocks kind tags scope id g :
  state_blocks (classify_concurrency kind tags scope id g).1 = false ↔ concurrency_safe kind tags.
Proof.
  destruct kind; cbn; rewrite <- ?has_tag_iff;
    repeat match goal with |- context [if ?b then _ else _] => destruct b eqn:? end; cbn; intuition congruence.
Qed.

(** The effect checker is exact: its entries are one per node (equal ones merged); an entry fails exactly when an
    [Emits] edge of the node leads to a named node that the effect row does not declare, and is proven
    exactly when the row declares what the edges emit. *)
Theorem effects_exact g :
  (∀ e, e ∈ vr_entries (effect_check g) ↔ ∃ n, n ∈ graph_nodes g ∧ e = effect_entry g n) ∧
  ∀ n,
    (ve_state (effect_entry g n) = StFailed ↔ ∃ x, emits_effect g (node_id n) x ∧ x ∉ declared n) ∧
    (ve_state (effect_entry g n) = StProven ↔ ∀ x, emits_effect g (node_id n) x ↔ x ∈ declared n).
Proof.
  split; [apply effect_check_entries|]. intros n. destruct (effect_entry_state g n) as (? & ? & _). by split.
Qed.

