(* ===== verification/VerifyTrust.v ===== *)
(** * Resources, boundaries and generated artifacts

    The stages of ail-verify over lifecycle and trust tags: resource_checker.rs
    (linear, affine and shared resources), boundary_checker.rs (foreign
    boundaries, their assumptions and expiry dates) and codegen_checker.rs
    (artifact hashes and the capability manifest). *)

From stdpp Require Import pretty gmap.
From S2P Require Import Prelude Text Ordering GraphTypes ChangeModel SemanticGraph VerifyReport VerifyCheckers.

(* ------------------------------------------------------------------ *)
(** ** Resources (resource_checker.rs) *)

Inductive ResourceKind : Type := Linear | Affine | Shared.

Record ResourceIssue : Type := MkResourceIssue {
  ri_code : string;
  ri_category : string;
  ri_detail : string;
  ri_severity : DiagnosticSeverity;
  ri_expected : string;
  ri_actual : string;
  ri_repair : string;
  ri_blocking : bool;
}.

(** [ResourceIssue::error], [ResourceIssue::warning] *)
Definition issue_error (code category detail expected actual repair : string) : ResourceIssue :=
  MkResourceIssue code category detail SevError expected actual repair true.

Definition issue_warning (code category detail expected actual repair : string) : ResourceIssue :=
  MkResourceIssue code category detail SevWarning expected actual repair false.

Definition resource_issue_evidence (code category detail : string) (target : NodeRef) : string :=
  code +:+ (": category=" +:+ (category +:+ ("; target=node#" +:+ (pretty target +:+ ("; resource=resource#"
    +:+ (pretty target +:+ ("; detail=" +:+ detail))))))).

Definition ResourceResult : Type := VerificationState * option string * option ResourceIssue.

Definition issue_result (state : VerificationState) (issue : ResourceIssue) (target : NodeRef) : ResourceResult :=
  (state, Some (resource_issue_evidence (ri_code issue) (ri_category issue) (ri_detail issue) target), Some issue).

(** The violations that are looked for before the kind of the resource, in the order of the tests *)
Definition resource_violations : list (list string * VerificationState * ResourceIssue) :=
  [(["use-after-close"], StFailed,
    issue_error "E_USE_AFTER_CLOSE" "resource-lifecycle" "use-after-close" "resource is not used after close"
      "use-after-close" "move close after the final use or remove the later use");
   (["use-after-release"], StFailed,
    issue_error "E_USE_AFTER_RELEASE" "resource-lifecycle" "use-after-release"
      "resource is not used after release" "use-after-release"
      "move release after the final use or remove the later use");
   (["double-close"], StFailed,
    issue_error "E_DOUBLE_CLOSE" "resource-lifecycle" "double-close" "resource is closed at most once"
      "double-close" "make close idempotent in one owner or remove the duplicate close path");
   (["double-release"], StFailed,
    issue_error "E_DOUBLE_RELEASE" "resource-lifecycle" "double-release" "resource is released at most once"
      "double-release" "make release idempotent in one owner or remove the duplicate release path");
   (["lifetime-mismatch"], StFailed,
    issue_error "E_RESOURCE_LIFETIME_MISMATCH" "resource-lifecycle" "lifetime-mismatch"
      "resource lifetime matches the owning scope" "lifetime-mismatch"
      "shorten the borrow, transfer ownership, or extend the owner scope explicitly");
   (["quota-exceeded"], StFailed,
    issue_error "E_RESOURCE_QUOTA_EXCEEDED" "resource-quota-limit" "quota-exceeded"
      "resource usage stays within declared quota" "quota-exceeded"
      "reduce resource usage, increase the declared quota, or split the workload");
   (["limit-exceeded"], StFailed,
    issue_error "E_RESOURCE_LIMIT_EXCEEDED" "resource-quota-limit" "limit-exceeded"
      "resource usage stays within configured limit" "limit-exceeded"
      "lower peak resource usage, raise the configured limit, or add backpressure");
   (["missing-capability"], StUnsafe,
    issue_error "E_RESOURCE_MISSING_CAPABILITY" "resource-capability" "missing-capability"
      "resource has the required capability proof" "missing-capability"
      "attach a SafeCapability edge or safe-capability lifecycle tag");
   (["leaked-resource"; "leaked"], StFailed,
    issue_error "E_RESOURCE_LEAKED" "resource-lifecycle" "leaked-resource"
      "linear resource is consumed exactly once or explicitly released" "leaked-resource"
      "add a release/consume path before the resource leaves scope")].

Definition find_violation (tags : list string) : option (list string * VerificationState * ResourceIssue) :=
  find_first (λ v, any (λ t, has_tag tags t = true) v.1.1 = true) resource_violations.

Definition has_edge (g : SemanticGraph) (id : NodeRef) (kinds : list EdgeKind) : bool :=
  any (λ e, edge_source e = id ∧ edge_kind e ∈ kinds) (graph_edges g).

Definition affine_release_tags : list string :=
  ["released"; "transaction-committed"; "transaction-rolled-back"; "lock-released"; "stream-closed"].

Definition classify_kind (kind : ResourceKind) (tags : list string) (id : NodeRef) (g : SemanticGraph)
  : ResourceResult :=
  match kind with
  | Linear =>
      if has_tag tags "never-consumed" then
        issue_result StFailed
          (issue_error "E_LINEAR_NOT_CONSUMED" "resource-lifecycle" "never consumed"
             "linear resource is consumed exactly once or explicitly released" "never-consumed"
             "add a release/consume path before the linear resource leaves scope") id
      else if has_tag tags "released" then (StProven, None, None)
      else if has_edge g id [EkConsumes; EkReleases] then (StProven, None, None)
      else
        issue_result StUnverified
          (issue_warning "E_RESOURCE_NO_LIFECYCLE_EDGE" "resource-lifecycle" "missing-lifecycle-edge"
             "linear resource has a release tag or Consumes/Releases edge" "no lifecycle proof"
             "add an explicit release tag or a Consumes/Releases edge") id
  | Affine =>
      if any (λ t, has_tag tags t = true) affine_release_tags then (StProven, None, None)
      else
        (StUnverified,
         Some (resource_issue_evidence "E_RESOURCE_NO_LIFECYCLE_EDGE" "resource-lifecycle"
                 "affine-lifecycle-unverified" id), None)
  | Shared =>
      if has_tag tags "safe-capability" then (StProven, None, None)
      else if has_edge g id [EkSafeCapability] then (StProven, None, None)
      else
        issue_result StUnsafe
          (issue_error "E_SHARED_WITHOUT_SAFE_CAPABILITY" "resource-capability" "missing-safe-capability"
             "shared resource has a SafeCapability edge or safe-capability tag" "missing-safe-capability"
             "attach a SafeCapability edge or safe-capability lifecycle tag") id
  end.

Definition classify_resource (kind : ResourceKind) (tags : list string) (id : NodeRef) (g : SemanticGraph)
  : ResourceResult :=
  match find_violation tags with
  | Some (_, state, issue) => issue_result state issue id
  | None => classify_kind kind tags id g
  end.

Definition resource_diagnostic (target : NodeRef) (issue : ResourceIssue) : Diagnostic :=
  MkDiagnostic (ri_code issue) (ri_severity issue) target
    (Some (resource_issue_evidence (ri_code issue) (ri_category issue) (ri_detail issue) target))
    (Some (ri_expected issue)) (Some (ri_actual issue)) [Explanation (ri_repair issue)] (ri_blocking issue).

Definition resource_kind (level : string) : option ResourceKind :=
  if decide (level = "resource:linear") then Some Linear
  else if decide (level = "resource:affine") then Some Affine
  else if decide (level = "resource:shared") then Some Shared
  else None.

Definition resource_result (g : SemanticGraph) (n : GraphNode) : option (VerificationEntry * list Diagnostic) :=
  tm ← node_trust_metadata n;
  kind ← resource_kind (trust_as_str (tm_level tm));
  let '(state, evidence, issue) := classify_resource kind (tm_tags tm) (node_id n) g in
  Some (state_entry ("resource-lifecycle[" +:+ (trust_as_str (tm_level tm) +:+ "]")) state (node_name n) evidence,
        match issue with Some i => [resource_diagnostic (node_id n) i] | None => [] end).

Definition resource_diagnostic_rank (code : string) : N :=
  if decide (code ∈ ["E_USE_AFTER_CLOSE"; "E_USE_AFTER_RELEASE"]) then 0
  else if decide (code ∈ ["E_DOUBLE_CLOSE"; "E_DOUBLE_RELEASE"]) then 1
  else if decide (code = "E_RESOURCE_LIFETIME_MISMATCH") then 2
  else if decide (code ∈ ["E_RESOURCE_LEAKED"; "E_LINEAR_NOT_CONSUMED"]) then 3
  else if decide (code ∈ ["E_RESOURCE_MISSING_CAPABILITY"; "E_SHARED_WITHOUT_SAFE_CAPABILITY"]) then 4
  else if decide (code = "E_RESOURCE_QUOTA_EXCEEDED") then 5
  else if decide (code = "E_RESOURCE_LIMIT_EXCEEDED") then 6
  else if decide (code = "E_RESOURCE_NO_LIFECYCLE_EDGE") then 7
  else 8%N.

Definition repair_debug (d : Diagnostic) : string := debug_list (debug_repair <$> dg_repair_options d).

Definition resource_diagnostic_key (d : Diagnostic)
  : N * string * N * N * N * option string * option string * option string * string :=
  (resource_diagnostic_rank (dg_code d), dg_code d, dg_target d, diagnostic_severity_rank (dg_severity d),
   true_first (dg_blocking d), dg_evidence d, dg_expected d, dg_actual d, repair_debug d).

Definition canonicalize_resource_diagnostics (ds : list Diagnostic) : list Diagnostic :=
  sort_dedup resource_diagnostic_key ds.

Definition resource_check (g : SemanticGraph) : VerificationReport :=
  let results := omap (resource_result g) (graph_nodes g) in
  stage_report results.*1 (canonicalize_resource_diagnostics (results ≫= snd)) [].

(* ------------------------------------------------------------------ *)
(** ** Boundaries (boundary_checker.rs) *)

Definition REQUIRED_TAGS : list string :=
  ["has-trust-level"; "has-contract"; "has-handler"; "has-owner"; "has-review-policy"].

Record BoundaryCheckerConfig : Type := MkBoundaryCheckerConfig {
  bc_reference_date : option string;
}.

Definition is_digit (c : ascii) : bool := (48 <=? N_of_ascii c)%N && (N_of_ascii c <=? 57)%N.

(** The characters of a [YYYY-MM-DD] date from index [i] on *)
Fixpoint date_chars (i : nat) (s : string) : bool :=
  match s with
  | EmptyString => true
  | String c s' =>
      (if decide (i = 4 ∨ i = 7) then bool_decide (c = "-"%char) else is_digit c) && date_chars (S i) s'
  end.

Definition valid_date (s : string) : bool := bool_decide (String.length s = 10) && date_chars 0 s.

(** The loop over the [expires:] tags; [None] when none of them decides *)
Fixpoint expiry_verdict (ref_date scope : string) (tags : list string)
  : option (VerificationState * option string) :=
  match tags with
  | [] => None
  | tag :: tags' =>
      match strip_prefix "expires:" tag with
      | None => expiry_verdict ref_date scope tags'
      | Some expires =>
          if valid_date expires then
            if decide (cmp_le expires ref_date) then
              Some (StFailed, Some (quoting "E_BOUNDARY_EXPIRED_ASSUMPTION: boundary " scope
                (" assumption expired " +:+ (expires +:+ (" (reference: " +:+ (ref_date +:+ ")"))))))
            else expiry_verdict ref_date scope tags'
          else Some (StUnverified, Some ("expires tag has invalid date format: " +:+ expires))
      end
  end.

Definition missing_tags (tags : list string) : list string :=
  filter (λ req, has_tag tags req = false) REQUIRED_TAGS.

(** The checks after the expiry dates, in their order *)
Definition classify_declared (tm : TrustMetadata) (scope : string) : VerificationState * option string :=
  let tags := tm_tags tm in
  if has_tag tags "has-assumption-expired" || has_tag tags "has-assumption-revoked" then
    (StFailed, Some (quoting "E_BOUNDARY_ASSUMPTION_REVOKED: boundary " scope
       " assumption has been expired or revoked"))
  else if has_tag tags "has-assumption-proposed" && negb (has_tag tags "has-assumption-approved")
          && negb (has_tag tags "has-assumption-active") then
    (StUnverified, Some (quoting "boundary " scope " assumption is proposed but not yet approved or active"))
  else if has_tag tags "expired-assumption" then
    (StFailed, Some (quoting "boundary " scope
       " assumption has expired; expired assumptions are rejected in prod/critical"))
  else if has_tag tags "no-contract" then
    (StFailed, Some (quoting "boundary " scope
       " has no contract; boundaries without contracts are always failed"))
  else if has_tag tags "adapter-mismatch" then
    (StFailed, Some (quoting "E_BOUNDARY_ADAPTER_MISMATCH: boundary " scope
       " adapter shape does not match the declared contract"))
  else if has_tag tags "ffi-host-type-mismatch" || has_tag tags "host-type-mismatch" then
    (StFailed, Some (quoting "E_BOUNDARY_FFI_HOST_TYPE_MISMATCH: boundary " scope
       " FFI host type does not match the declared boundary schema"))
  else if bool_decide (tm_level tm = TlUnsafe) && negb (has_tag tags "approved") then
    (StUnsafe, Some (quoting "E_BOUNDARY_UNSAFE_TRUST: boundary " scope
       " has TrustLevel::Unsafe without explicit approval"))
  else if has_tag tags "unsafe-ffi" && negb (has_tag tags "approved") then
    (StUnsafe, Some (quoting "boundary " scope
       " uses unchecked FFI without explicit approval; unsafe FFI requires approval"))
  else
    match missing_tags tags with
    | [] => (StAssumed, None)
    | missing =>
        (StUnverified, Some (quoting "boundary " scope
           (" is missing required declarations: " +:+ join ", " missing)))
    end.

Definition classify_boundary (tm : TrustMetadata) (scope : string) (config : BoundaryCheckerConfig)
  : VerificationState * option string :=
  match bc_reference_date config ≫= λ d, expiry_verdict d scope (tm_tags tm) with
  | Some verdict => verdict
  | None => classify_declared tm scope
  end.

Record BoundaryIssue : Type := MkBoundaryIssue {
  bi_code : string;
  bi_detail : string;
  bi_severity : DiagnosticSeverity;
  bi_blocking : bool;
}.

Definition severity_for_state (s : VerificationState) : DiagnosticSeverity :=
  match s with StFailed | StUnsafe => SevError | StUnverified => SevWarning | _ => SevInfo end.

Definition boundary_issue (tm : option TrustMetadata) (state : VerificationState) (evidence : string)
  : BoundaryIssue :=
  let tags := match tm with Some t => tm_tags t | None => [] end in
  let '(code, detail) :=
    if has_tag tags "has-assumption-expired" || has_tag tags "has-assumption-revoked" then
      ("E_BOUNDARY_ASSUMPTION_REVOKED", "assumption-revoked")
    else if str_contains "E_BOUNDARY_EXPIRED_ASSUMPTION" evidence || has_tag tags "expired-assumption" then
      ("E_BOUNDARY_EXPIRED_ASSUMPTION", "assumption-expired")
    else if str_contains "E_BOUNDARY_ADAPTER_MISMATCH" evidence || has_tag tags "adapter-mismatch" then
      ("E_BOUNDARY_ADAPTER_MISMATCH", "adapter-mismatch")
    else if str_contains "E_BOUNDARY_FFI_HOST_TYPE_MISMATCH" evidence || has_tag tags "ffi-host-type-mismatch"
            || has_tag tags "host-type-mismatch" then
      ("E_BOUNDARY_FFI_HOST_TYPE_MISMATCH", "ffi-host-type-mismatch")
    else if str_contains "E_BOUNDARY_UNSAFE_TRUST" evidence || bool_decide (tm_level <$> tm = Some TlUnsafe) then
      ("E_BOUNDARY_UNSAFE_TRUST", "unsafe-trust-boundary")
    else if has_tag tags "unsafe-ffi" then ("E_BOUNDARY_UNCHECKED_FFI", "unchecked-ffi")
    else if bool_decide (tm = None) then ("E_BOUNDARY_INCOMPLETE", "incomplete-boundary-declaration")
    else if has_tag tags "no-contract" || negb (has_tag tags "has-contract") then
      ("E_BOUNDARY_NO_CONTRACT", "missing-contract")
    else ("E_BOUNDARY_INCOMPLETE", "incomplete-boundary-declaration") in
  MkBoundaryIssue code detail (severity_for_state state) (state_blocks state).

Definition expected_boundary_descriptor (detail : string) : string :=
  if decide (detail = "missing-contract") then "declared boundary contract"
  else if decide (detail = "adapter-mismatch") then "adapter signature matching declared boundary contract"
  else if decide (detail = "ffi-host-type-mismatch") then "FFI host type matching declared boundary schema"
  else if decide (detail = "unsafe-trust-boundary") then "approved safe boundary trust posture"
  else if decide (detail = "unchecked-ffi") then "approved FFI boundary with checked contract"
  else if decide (detail ∈ ["assumption-expired"; "assumption-revoked"]) then "active boundary assumption"
  else "complete boundary declaration set".

Definition repair_boundary_descriptor (detail : string) : string :=
  if decide (detail = "missing-contract") then "add a formal boundary contract before production verification"
  else if decide (detail = "adapter-mismatch") then "align the adapter shape with the boundary contract"
  else if decide (detail = "ffi-host-type-mismatch") then "align the FFI host type with the boundary schema"
  else if decide (detail = "unsafe-trust-boundary") then
    "downgrade the unsafe trust posture or attach explicit production approval"
  else if decide (detail = "unchecked-ffi") then "add explicit approval and a checked FFI boundary contract"
  else if decide (detail ∈ ["assumption-expired"; "assumption-revoked"]) then
    "refresh, replace, or remove the expired boundary assumption"
  else "complete trust level, contract, handler, owner, and review policy declarations".

Definition boundary_diagnostic (target : NodeRef) (issue : BoundaryIssue) : Diagnostic :=
  MkDiagnostic (bi_code issue) (bi_severity issue) target
    (Some ("category=boundary; code=" +:+ (bi_code issue +:+ ("; target=node#" +:+ (pretty target
       +:+ ("; detail=" +:+ bi_detail issue))))))
    (Some (expected_boundary_descriptor (bi_detail issue)))
    (Some ("boundary issue redacted; boundary#" +:+ (pretty target +:+ ("; detail=" +:+ bi_detail issue))))
    [Explanation (repair_boundary_descriptor (bi_detail issue))] (bi_blocking issue).

Definition boundary_result (config : BoundaryCheckerConfig) (n : GraphNode)
  : option (VerificationEntry * list Diagnostic) :=
  if decide (node_kind n = NkBoundary) then
    let '(state, evidence) :=
      match node_trust_metadata n with
      | None =>
          (StUnverified, Some (quoting "boundary " (node_name n)
             " has no trust_metadata; boundary declarations are required"))
      | Some tm => classify_boundary tm (node_name n) config
      end in
    Some (state_entry "boundary-trust" state (node_name n) evidence,
          match state with
          | StFailed | StUnsafe | StUnverified =>
              [boundary_diagnostic (node_id n) (boundary_issue (node_trust_metadata n) state (default "" evidence))]
          | _ => []
          end)
  else None.

Definition boundary_diagnostic_rank (code : string) : N :=
  if decide (code = "E_BOUNDARY_NO_CONTRACT") then 0
  else if decide (code = "E_BOUNDARY_ADAPTER_MISMATCH") then 1
  else if decide (code = "E_BOUNDARY_FFI_HOST_TYPE_MISMATCH") then 2
  else if decide (code = "E_BOUNDARY_UNSAFE_TRUST") then 3
  else if decide (code = "E_BOUNDARY_UNCHECKED_FFI") then 4
  else if decide (code = "E_BOUNDARY_ASSUMPTION_REVOKED") then 5
  else if decide (code = "E_BOUNDARY_EXPIRED_ASSUMPTION") then 6
  else if decide (code = "E_BOUNDARY_INCOMPLETE") then 7
  else 8%N.

Definition boundary_diagnostic_key (d : Diagnostic)
  : N * string * N * N * option string * option string * option string * string :=
  (boundary_diagnostic_rank (dg_code d), dg_code d, dg_target d, true_first (dg_blocking d), dg_evidence d,
   dg_expected d, dg_actual d, repair_debug d).

Definition canonicalize_boundary_diagnostics (ds : list Diagnostic) : list Diagnostic :=
  sort_dedup boundary_diagnostic_key ds.

Definition boundary_check_with_config (g : SemanticGraph) (config : BoundaryCheckerConfig) : VerificationReport :=
  let results := omap (boundary_result config) (graph_nodes g) in
  stage_report results.*1 (canonicalize_boundary_diagnostics (results ≫= snd)) [].

Definition boundary_check (g : SemanticGraph) : VerificationReport :=
  boundary_check_with_config g (MkBoundaryCheckerConfig None).

(* ------------------------------------------------------------------ *)
(** ** Generated artifacts (codegen_checker.rs) *)

Record ArtifactEntry : Type := MkArtifactEntry {
  ae_name : string;
  ae_expected_hash : string;
  ae_actual_hash : string;
}.

Record CodegenVerificationContext : Type := MkCodegenVerificationContext {
  cv_backend : string;
  cv_supported_backends : list string;
  cv_artifacts : list ArtifactEntry;
  cv_proof_evidence_present : bool;
  cv_translation_evidence_present : bool;
  cv_output_deterministic : option bool;
}.

Definition artifact_entry (a : ArtifactEntry) : VerificationEntry :=
  let '(state, evidence) :=
    if decide (ae_expected_hash a = "" ∨ ae_actual_hash a = "") then
      (StUnverified, Some (quoting "artifact " (ae_name a) " hash not computed; cannot verify consistency"))
    else if decide (ae_expected_hash a = ae_actual_hash a) then (StProven, None)
    else (StFailed, Some (quoting "artifact " (ae_name a)
            (quoting " hash mismatch: expected " (ae_expected_hash a) (quoting ", actual " (ae_actual_hash a) "")))) in
  state_entry "codegen-consistency" state ("artifact:" +:+ ae_name a) evidence.

Definition codegen_claim_rank (claim : string) : N :=
  if decide (claim = "codegen-consistency") then 0
  else if decide (claim = "manifest-consistency") then 1
  else 9%N.

Definition codegen_entry_key (e : VerificationEntry) : N * string * N * option string * list string :=
  (codegen_claim_rank (ve_claim e), ve_scope e, verification_state_rank (ve_state e), ve_evidence e,
   ve_repair_options e).

Definition normalize_codegen_entries (entries : list VerificationEntry) : list VerificationEntry :=
  sort_dedup codegen_entry_key entries.

(** The derived [Ord] of repair options: the variant, then its field *)
Definition repair_key (r : RepairOption) : N * list N * string :=
  match r with
  | DirectOp op => (0%N, [op_code op], "")
  | Choice ops => (1%N, op_code <$> ops, "")
  | Migration text => (2%N, [], text)
  | Approval text => (3%N, [], text)
  | Explanation text => (4%N, [], text)
  end.

Definition codegen_diagnostic_key (d : Diagnostic)
  : string * N * N * option string * option string * option string * list (N * list N * string) * N :=
  (dg_code d, dg_target d, diagnostic_severity_rank (dg_severity d), dg_evidence d, dg_expected d, dg_actual d,
   repair_key <$> dg_repair_options d, if dg_blocking d then 1%N else 0%N).

Definition normalize_codegen_diagnostics (ds : list Diagnostic) : list Diagnostic :=
  sort_dedup codegen_diagnostic_key ds.

Definition normalize_artifact_hashes (hashes : list ArtifactHash) : list ArtifactHash :=
  sort_dedup artifact_hash_key hashes.

(** The target is [CODEGEN_DIAGNOSTIC_TARGET], node 0. *)
Definition codegen_diagnostic (code evidence expected actual repair : string) : Diagnostic :=
  MkDiagnostic code SevError 0%N (Some evidence) (Some expected) (Some actual) [Explanation repair] true.

Definition redacted_hash_label (hash : string) : string :=
  if decide (hash = "") then "hash:<missing>" else "hash:<redacted>".

Definition artifact_mismatch (a : ArtifactEntry) : bool :=
  bool_decide (ae_expected_hash a ≠ "" ∧ ae_actual_hash a ≠ "" ∧ ae_expected_hash a ≠ ae_actual_hash a).

Definition artifact_diagnostics (artifacts : list ArtifactEntry) : list Diagnostic :=
  normalize_codegen_diagnostics
    ((λ a, codegen_diagnostic "VERIFY_CODEGEN_ARTIFACT_MISMATCH"
             "generated artifact hash does not match verifier expectation"
             (redacted_hash_label (ae_expected_hash a)) (redacted_hash_label (ae_actual_hash a))
             "regenerate the artifact from the verified IR or reject the changed output")
     <$> filter (λ a, artifact_mismatch a = true) artifacts).

Definition check_artifacts (artifacts : list ArtifactEntry) : VerificationReport :=
  stage_report (normalize_codegen_entries (artifact_entry <$> artifacts)) (artifact_diagnostics artifacts)
    (normalize_artifact_hashes ((λ a, MkArtifactHash (ae_name a) (ae_actual_hash a)) <$> artifacts)).

(** The blockers of production acceptance *)
Definition production_diagnostics (ctx : CodegenVerificationContext) : list Diagnostic :=
  (if decide (cv_backend ctx ∈ cv_supported_backends ctx) then []
   else [codegen_diagnostic "VERIFY_CODEGEN_UNSUPPORTED_BACKEND"
           "requested codegen backend is not supported by production verifier" "supported codegen backend"
           "unsupported codegen backend"
           "choose a verifier-supported backend or add backend verification coverage"])
  ++ (if cv_proof_evidence_present ctx then []
      else [codegen_diagnostic "VERIFY_CODEGEN_MISSING_PROOF_EVIDENCE"
              "production codegen verification is missing proof-obligation evidence" "proof evidence attached"
              "proof evidence missing"
              "attach proof-obligation ledger evidence before accepting generated output"])
  ++ (if cv_translation_evidence_present ctx then []
      else [codegen_diagnostic "VERIFY_CODEGEN_MISSING_TRANSLATION_EVIDENCE"
              "production codegen verification is missing translation-validation evidence"
              "translation evidence attached" "translation evidence missing"
              "attach translation-validation evidence before accepting generated output"])
  ++ (if decide (cv_output_deterministic ctx = Some false) then
        [codegen_diagnostic "VERIFY_CODEGEN_NONDETERMINISTIC_OUTPUT"
           "codegen reported nondeterministic output for the verified input" "deterministic output"
           "nondeterministic output" "stabilize codegen ordering before accepting generated output"]
      else []).

Definition with_diagnostics (ds : list Diagnostic) (r : VerificationReport) : VerificationReport :=
  MkVerificationReport (vr_entries r) ds (vr_schema_version r) (vr_summary_counts r) (vr_policy_decision r)
    (vr_policy_audit r) (vr_proof_obligations r) (vr_solver_diagnostics r) (vr_profile_diagnostics r)
    (vr_degradation_events r) (vr_artifact_hashes r) (vr_base_snapshot r) (vr_target_snapshot r)
    (vr_structural_diff r) (vr_approvals r) (vr_verified_profile r).

Definition check_production_codegen (ctx : CodegenVerificationContext) : VerificationReport :=
  let report := check_artifacts (cv_artifacts ctx) in
  with_diagnostics (normalize_codegen_diagnostics (vr_diagnostics report ++ production_diagnostics ctx)) report.

(** [position] and [remove]: the list without its first occurrence of [c] *)
Fixpoint remove_first (c : string) (caps : list string) : option (list string) :=
  match caps with
  | [] => None
  | d :: caps' => if decide (d = c) then Some caps' else (cons d) <$> remove_first c caps'
  end.

(** The loop over the capability nodes: each takes one entry of the manifest. *)
Fixpoint match_capabilities (names caps : list string) : list VerificationEntry * list string :=
  match names with
  | [] => ([], caps)
  | name :: names' =>
      match remove_first name caps with
      | Some caps' =>
          let '(entries, rest) := match_capabilities names' caps' in
          (state_entry "manifest-consistency" StProven ("capability:" +:+ name) None :: entries, rest)
      | None =>
          let '(entries, rest) := match_capabilities names' caps in
          (state_entry "manifest-consistency" StFailed ("capability:" +:+ name)
             (Some (quoting "capability " name
                " declared in graph but not present in capabilities manifest; manifest mismatch")) :: entries, rest)
      end
  end.

Definition extra_capability (cap : string) : VerificationEntry :=
  MkVerificationEntry "manifest-consistency" StFailed ("capability:" +:+ cap)
    (Some (quoting "capability " cap
       " is in capabilities manifest but not declared in the semantic graph; manifest mismatch")) true [].

Definition graph_capabilities (g : SemanticGraph) : list string :=
  node_name <$> filter (λ n, node_kind n = NkCapability) (graph_nodes g).

Definition check_manifest_consistency (g : SemanticGraph) (manifest_caps : list string) : VerificationReport :=
  let '(entries, rest) := match_capabilities (graph_capabilities g) manifest_caps in
  stage_report (normalize_codegen_entries (entries ++ (extra_capability <$> rest))) [] [].

(* ------------------------------------------------------------------ *)
(** ** What the checkers decide *)

(** A resource passes (is not failed or unsafe) exactly when no violation tag is set and its kind's discipline holds. *)
Definition violation_tags : list string := resource_violations ≫= λ v, v.1.1.

Definition resource_safe (kind : ResourceKind) (tags : list string) (id : NodeRef) (g : SemanticGraph) : Prop :=
  (∀ t, t ∈ violation_tags → t ∉ tags) ∧
  match kind with
  | Linear => "never-consumed" ∉ tags
  | Affine => True
  | Shared =>
      "safe-capability" ∈ tags ∨
      ∃ e, e ∈ graph_edges g ∧ edge_source e = id ∧ edge_kind e = EkSafeCapability
  end.

Lemma find_violation_None tags : find_violation tags = None ↔ ∀ t, t ∈ violation_tags → t ∉ tags.
Proof.
  unfold find_violation. rewrite find_first_None. unfold violation_tags. setoid_rewrite list_elem_of_bind.
  setoid_rewrite any_true. setoid_rewrite has_tag_iff. naive_solver.
Qed.

Lemma find_violation_blocks tags v : find_violation tags = Some v → state_blocks v.1.2 = true.
Proof.
  intros [Hv _]%find_first_Some.
  assert (Forall (λ v, state_blocks v.1.2 = true) resource_violations) as Hall by repeat constructor.
  rewrite Forall_forall in Hall. by apply Hall.
Qed.

Lemma has_edge_iff g id kinds :
  has_edge g id kinds = true ↔ ∃ e, e ∈ graph_edges g ∧ edge_source e = id ∧ edge_kind e ∈ kinds.
Proof. apply any_true. Qed.

Lemma classify_resource_blocks kind tags id g :
  state_blocks (classify_resource kind tags id g).1.1 = false ↔ resource_safe kind tags id g.
Proof.
  unfold classify_resource, resource_safe. rewrite <- find_violation_None.
  destruct (find_violation tags) as [[[ts state] issue]|] eqn:E.
  - apply find_violation_blocks in E. cbn in *. rewrite E. naive_solver.
  - destruct kind; cbn; rewrite <- ?has_tag_iff.
    + destruct (has_tag tags "never-consumed"), (has_tag tags "released"), (has_edge g id [EkConsumes; EkReleases]); cbn; intuition congruence.
    + destruct (any _ _); cbn; intuition.
    + setoid_rewrite <- (list_elem_of_singleton _ EkSafeCapability). rewrite <- has_edge_iff.
      destruct (has_tag tags "safe-capability"), (has_edge g id [EkSafeCapability]); cbn; intuition congruence.
Qed.

(** A boundary is accepted as an assumption exactly when its declarations are complete and nothing speaks against it. *)
Definition boundary_sound (tm : TrustMetadata) : Prop :=
  (∀ t, t ∈ ["has-assumption-expired"; "has-assumption-revoked"; "expired-assumption"; "no-contract";
             "adapter-mismatch"; "ffi-host-type-mismatch"; "host-type-mismatch"] → t ∉ tm_tags tm) ∧
  ("has-assumption-proposed" ∈ tm_tags tm →
   "has-assumption-approved" ∈ tm_tags tm ∨ "has-assumption-active" ∈ tm_tags tm) ∧
  (tm_level tm = TlUnsafe ∨ "unsafe-ffi" ∈ tm_tags tm → "approved" ∈ tm_tags tm) ∧
  (∀ t, t ∈ REQUIRED_TAGS → t ∈ tm_tags tm).

Lemma missing_tags_nil tags : missing_tags tags = [] ↔ ∀ t, t ∈ REQUIRED_TAGS → t ∈ tags.
Proof.
  unfold missing_tags. rewrite filter_nil_iff. setoid_rewrite <- has_tag_iff.
  by setoid_rewrite not_false_iff_true.
Qed.

Lemma not_has_tag tags t : has_tag tags t = false ↔ t ∉ tags.
Proof. by rewrite <- not_true_iff_false, has_tag_iff. Qed.

(** The conditions of [classify_declared] as one test *)
Definition declared_test (tm : TrustMetadata) : bool :=
  let tags := tm_tags tm in
  negb (any (λ t, has_tag tags t = true)
          ["has-assumption-expired"; "has-assumption-revoked"; "expired-assumption"; "no-contract";
           "adapter-mismatch"; "ffi-host-type-mismatch"; "host-type-mismatch"])
  && (negb (has_tag tags "has-assumption-proposed") || has_tag tags "has-assumption-approved"
      || has_tag tags "has-assumption-active")
  && (negb (bool_decide (tm_level tm = TlUnsafe) || has_tag tags "unsafe-ffi") || has_tag tags "approved")
  && bool_decide (missing_tags tags = []).

Lemma declared_test_iff tm : declared_test tm = true ↔ boundary_sound tm.
Proof.
  unfold declared_test, boundary_sound. rewrite !andb_true_iff, !orb_true_iff, !negb_true_iff, any_false.
  rewrite !orb_false_iff, bool_decide_eq_true, bool_decide_eq_false, missing_tags_nil.
  setoid_rewrite has_tag_iff. rewrite !not_has_tag.
  destruct (decide ("has-assumption-proposed" ∈ tm_tags tm)), (decide (tm_level tm = TlUnsafe)),
    (decide ("unsafe-ffi" ∈ tm_tags tm)); naive_solver.
Qed.

Lemma classify_declared_sound tm scope :
  ((classify_declared tm scope).1 = StAssumed ↔ boundary_sound tm) ∧
  (classify_declared tm scope).1 ≠ StProven ∧ (classify_declared tm scope).1 ≠ StRuntimeChecked.
Proof.
  rewrite <- declared_test_iff. unfold classify_declared, declared_test.
  rewrite !any_cons, !bool_decide_is_true.
  repeat match goal with
         | |- context [if ?b then _ else _] =>
             match b with context [has_tag ?ts ?t] => destruct (has_tag ts t); cbn [andb orb negb] end
         | |- context [if ?b then _ else _] =>
             match b with context [bool_decide ?P] => destruct (bool_decide P); cbn [andb orb negb] end
         end.
  all: rewrite ?andb_false_r; destruct (missing_tags (tm_tags tm)); cbn; by repeat split.
Qed.

Lemma resource_check_entries g e :
  e ∈ vr_entries (resource_check g) ↔ ∃ n ds, n ∈ graph_nodes g ∧ resource_result g n = Some (e, ds).
Proof. apply omap_entries. Qed.

Lemma boundary_check_entries g config e :
  e ∈ vr_entries (boundary_check_with_config g config) ↔
  ∃ n ds, n ∈ graph_nodes g ∧ boundary_result config n = Some (e, ds).
Proof. apply omap_entries. Qed.

Lemma resource_entry_in g n tm kind :
  n ∈ graph_nodes g → node_trust_metadata n = Some tm → resource_kind (trust_as_str (tm_level tm)) = Some kind →
  ∃ e, e ∈ vr_entries (resource_check g) ∧
    ve_state e = (classify_resource kind (tm_tags tm) (node_id n) g).1.1 ∧ ve_scope e = node_name n.
Proof.
  intros Hn Htm Hk. setoid_rewrite resource_check_entries. unfold resource_result.
  destruct (classify_resource kind (tm_tags tm) (node_id n) g) as [[state ev] issue] eqn:Ec.
  exists (state_entry ("resource-lifecycle[" +:+ (trust_as_str (tm_level tm) +:+ "]")) state (node_name n) ev).
  split; [|done]. eexists n, _. split; [done|]. rewrite Htm. cbn. rewrite Hk. cbn. by rewrite Ec.
Qed.

Lemma boundary_entry_in g n :
  n ∈ graph_nodes g → node_kind n = NkBoundary →
  ∃ e, e ∈ vr_entries (boundary_check g) ∧
    ve_state e = match node_trust_metadata n with
                 | None => StUnverified
                 | Some tm => (classify_declared tm (node_name n)).1
                 end.
Proof.
  intros Hn Hk. unfold boundary_check. setoid_rewrite boundary_check_entries. unfold boundary_result.
  destruct (node_trust_metadata n) as [tm|] eqn:Htm.
  - destruct (classify_declared tm (node_name n)) as [state ev] eqn:Ec.
    exists (state_entry "boundary-trust" state (node_name n) ev). split; [|done].
    eexists n, _. split; [done|]. rewrite decide_True, Htm by done. unfold classify_boundary. cbn. by rewrite Ec.
  - eexists (state_entry "boundary-trust" StUnverified (node_name n) _). split; [|done].
    eexists n, _. split; [done|]. by rewrite decide_True, Htm by done.
Qed.

(** A date that has passed is enforced whatever the other tags say; a date in the future changes nothing. *)
Lemma expiry_enforced date scope tags tag expires :
  tag ∈ tags → strip_prefix "expires:" tag = Some expires →
  valid_date expires = false ∨ cmp_le expires date →
  ∃ state evidence, expiry_verdict date scope tags = Some (state, evidence) ∧
    (state = StFailed ∨ state = StUnverified).
Proof.
  intros Htag Hs Hx. induction tags as [|t tags IH]; [by apply not_elem_of_nil in Htag|].
  cbn [expiry_verdict]. apply elem_of_cons in Htag as [->|Htag].
  - rewrite Hs. destruct (valid_date expires); [|by eauto]. destruct Hx as [?|Hx]; [done|].
    rewrite decide_True by done. eauto.
  - destruct (strip_prefix "expires:" t) as [x|]; [|auto]. destruct (valid_date x); [|by eauto].
    case_decide; eauto.
Qed.

(* ------------------------------------------------------------------ *)
(** ** The manifest *)

Lemma remove_first_None c caps : remove_first c caps = None ↔ c ∉ caps.
Proof.
  induction caps as [|d caps IH]; cbn; [set_solver|]. case_decide as Hd; [set_solver|].
  destruct (remove_first c caps); cbn; set_solver.
Qed.

Lemma remove_first_perm c caps caps' : remove_first c caps = Some caps' → caps ≡ₚ c :: caps'.
Proof.
  revert caps'. induction caps as [|d caps IH]; cbn; intros caps'; [done|]. case_decide as Hd.
  - intros [= ->]. by rewrite Hd.
  - destruct (remove_first c caps) as [r|]; cbn; [|done]. intros [= <-]. rewrite (IH r) by done. constructor.
Qed.

Lemma match_capabilities_proven names caps :
  let '(entries, rest) := match_capabilities names caps in
  (∀ e, e ∈ entries → ve_state e = StProven) ∧ rest = [] ↔ names ≡ₚ caps.
Proof.
  revert caps. induction names as [|name names IH]; intros caps; cbn.
  { split; [intros [_ ->]; done|]. intros Hp. apply Permutation_nil in Hp as ->. set_solver. }
  destruct (remove_first name caps) as [caps'|] eqn:E.
  - specialize (IH caps'). destruct (match_capabilities names caps') as [entries rest].
    apply remove_first_perm in E. rewrite E. split.
    + intros [He Hr]. constructor. apply IH. split; [|done]. intros e Hin. apply He. by right.
    + intros Hp%Permutation_cons_inv%IH. destruct Hp as [He Hr]. split; [|done].
      intros e [->|Hin]%elem_of_cons; auto.
  - specialize (IH caps). destruct (match_capabilities names caps) as [entries rest].
    apply remove_first_None in E. split.
    + intros [He _]. assert (StFailed = StProven); [|done]. apply (He _ (list_elem_of_here _ _)).
    + intros Hp. destruct E. rewrite <- Hp. left.
Qed.

(** The manifest check is exact: every entry is proven exactly when the names of the graph's capability nodes and
    the capabilities of the manifest agree, with multiplicity and up to order. *)
Theorem manifest_exact g manifest_caps :
  (∀ e, e ∈ vr_entries (check_manifest_consistency g manifest_caps) → ve_state e = StProven) ↔
  graph_capabilities g ≡ₚ manifest_caps.
Proof.
  unfold check_manifest_consistency. pose proof (match_capabilities_proven (graph_capabilities g) manifest_caps) as H.
  destruct (match_capabilities _ _) as [entries rest]. rewrite <- H. cbn. unfold normalize_codegen_entries.
  setoid_rewrite sort_dedup_elem. setoid_rewrite elem_of_app. split.
  - intros Hall. split; [by auto|]. destruct rest as [|c rest]; [done|].
    assert (StFailed = StProven); [|done]. apply (Hall (extra_capability c)). right. left.
  - intros [He ->] e [?|Hin]; [by auto|]. by apply not_elem_of_nil in Hin.
Qed.

Lemma check_artifacts_failed artifacts e :
  e ∈ vr_entries (check_artifacts artifacts) → ve_state e = StFailed →
  ∃ a, a ∈ artifacts ∧ artifact_mismatch a = true.
Proof.
  cbn. unfold normalize_codegen_entries. rewrite sort_dedup_elem, list_elem_of_fmap.
  intros (a & -> & Ha) Hs. exists a. split; [done|]. unfold artifact_entry in Hs. unfold artifact_mismatch.
  case_decide; [done|]. case_decide; [done|]. apply bool_decide_eq_true. tauto.
Qed.
