(* ===== verification/Search.v ===== *)
(** * Breadth-first search over edges

    The worklist loop that the verifier (stage 12) and the context queries share.
    [bfs] carries fuel, one step per node it takes from the queue, and
    [bfs_exact] shows that the fuel given by [search] always suffices and that
    what is seen is what is reachable. *)

From stdpp Require Import gmap.
From S2P Require Import Prelude GraphTypes SemanticGraph.

(* ------------------------------------------------------------------ *)
(** ** Breadth-first search *)

(** Insert and enqueue, unless seen *)
Definition visit (st : gset NodeRef * list NodeRef) (y : NodeRef) : gset NodeRef * list NodeRef :=
  if decide (y ∈ st.1) then st else ({[ y ]} ∪ st.1, st.2 ++ [y]).

Section Search.
Context (next : NodeRef → GraphEdge → list NodeRef) (edges : list GraphEdge).

Definition neighbours (cur : NodeRef) : list NodeRef := edges ≫= next cur.

(** [while let Some(cur) = queue.pop_front()] *)
Fixpoint bfs (fuel : nat) (seen : gset NodeRef) (queue : list NodeRef) : option (gset NodeRef) :=
  match queue with
  | [] => Some seen
  | cur :: rest =>
      match fuel with
      | O => None
      | S fuel' => let '(seen', queue') := foldl visit (seen, rest) (neighbours cur) in bfs fuel' seen' queue'
      end
  end.

Definition search (start : NodeRef) : gset NodeRef :=
  default ∅ (bfs (S (2 * length edges)) {[ start ]} [start]).
End Search.

(* ------------------------------------------------------------------ *)
(** ** The search is exact *)

Lemma size_difference_insert `{Countable K} (ends seen : gset K) c :
  c ∈ ends → c ∉ seen → size (ends ∖ seen) = S (size (ends ∖ ({[ c ]} ∪ seen))).
Proof.
  intros Hc Hin. assert (ends ∖ seen = {[ c ]} ∪ (ends ∖ ({[ c ]} ∪ seen))) as ->.
  { apply leibniz_equiv. intros x. destruct (decide (x = c)); set_solver. }
  rewrite size_union by set_solver. by rewrite size_singleton.
Qed.

Lemma size_list_to_set_le `{Countable K} (l : list K) : size (list_to_set l : gset K) ≤ length l.
Proof.
  induction l as [|x l IH]; cbn; [by rewrite size_empty|]. rewrite size_union_alt, size_singleton.
  pose proof (subseteq_size (list_to_set l ∖ {[ x ]}) (list_to_set l : gset K)). set_solver by lia.
Qed.

Section SearchExact.
Context (next : NodeRef → GraphEdge → list NodeRef) (edges : list GraphEdge).

Definition adjacent (x y : NodeRef) : Prop := y ∈ neighbours next edges x.

Lemma visit_all cs seen q (ends : gset NodeRef) :
  list_to_set cs ⊆ ends →
  let '(seen', q') := foldl visit (seen, q) cs in
  seen' = seen ∪ list_to_set cs ∧
  (∀ x, x ∈ q' ↔ x ∈ q ∨ (x ∈ cs ∧ x ∉ seen)) ∧
  length q' + size (ends ∖ seen') = length q + size (ends ∖ seen).
Proof.
  revert seen q. induction cs as [|c cs IH]; intros seen q Hends; cbn [foldl].
  { split_and!; [set_solver|set_solver|done]. }
  assert (list_to_set cs ⊆ ends) as Hcs by set_solver. assert (c ∈ ends) as Hc by set_solver.
  unfold visit at 2. cbn. case_decide as Hin.
  - specialize (IH seen q Hcs). destruct (foldl visit (seen, q) cs) as [seen' q'].
    destruct IH as (-> & Hq & Hlen). split_and!; [set_solver| |done].
    intros x. rewrite Hq, elem_of_cons. split; [intros [?|[? ?]]; auto|]. intros [?|[[->|?] ?]]; auto; done.
  - specialize (IH ({[ c ]} ∪ seen) (q ++ [c]) Hcs).
    destruct (foldl visit ({[ c ]} ∪ seen, q ++ [c]) cs) as [seen' q'].
    destruct IH as (-> & Hq & Hlen). split_and!; [set_solver| |].
    + intros x. rewrite Hq, elem_of_app, list_elem_of_singleton, elem_of_cons, not_elem_of_union, not_elem_of_singleton.
      split; [intros [[?| ->]|[? [? ?]]]; auto|]. destruct (decide (x = c)); intros [?|[[?|?] ?]]; auto.
    + rewrite Hlen, length_app, (size_difference_insert ends seen c) by done. cbn. lia.
Qed.

Lemma closed_rtc (seen : gset NodeRef) x y :
  (∀ a b, a ∈ seen → adjacent a b → b ∈ seen) → rtc adjacent x y → x ∈ seen → y ∈ seen.
Proof. intros Hcl. induction 1; eauto. Qed.

Definition bfs_inv (start : NodeRef) (seen : gset NodeRef) (queue : list NodeRef) : Prop :=
  start ∈ seen ∧ (∀ x, x ∈ queue → x ∈ seen) ∧
  (∀ x y, x ∈ seen → x ∉ queue → adjacent x y → y ∈ seen) ∧
  (∀ x, x ∈ seen → rtc adjacent start x).

Lemma bfs_spec (ends : gset NodeRef) start fuel seen queue :
  (∀ x y, adjacent x y → y ∈ ends) → bfs_inv start seen queue →
  length queue + size (ends ∖ seen) ≤ fuel →
  ∃ res, bfs next edges fuel seen queue = Some res ∧ ∀ x, x ∈ res ↔ rtc adjacent start x.
Proof.
  intros Hends. revert seen queue. induction fuel as [|fuel IH]; intros seen [|cur rest] Hinv Hfuel; cbn in *; try lia.
  1,2: exists seen; split; [done|]; destruct Hinv as (Hs & _ & Hcl & Hr); intros x; split; [by auto|];
       intros Hx; eapply closed_rtc; [|done..]; intros a b Ha; apply Hcl; [done|apply not_elem_of_nil].
  destruct Hinv as (Hs & Hq & Hcl & Hr).
  pose proof (visit_all (neighbours next edges cur) seen rest ends) as Hv.
  destruct (foldl visit (seen, rest) (neighbours next edges cur)) as [seen' queue'].
  destruct Hv as (-> & Hq' & Hlen).
  { intros x Hx%elem_of_list_to_set. by apply (Hends cur). }
  apply IH; [|lia]. unfold bfs_inv. setoid_rewrite elem_of_union. setoid_rewrite elem_of_list_to_set.
  split_and!; [by left| | |].
  - intros x [?|[? ?]]%Hq'; [left; apply Hq; by right|by right].
  - intros x y Hx Hnq Hxy. rewrite Hq' in Hnq. destruct (decide (x = cur)) as [->|Hne]; [by right|].
    left. destruct (decide (x ∈ seen)) as [Hxs|Hxs]; [|destruct Hx; tauto].
    apply (Hcl x); [done| |done]. intros [?|?]%elem_of_cons; tauto.
  - intros x [?|Hx]; [by auto|]. eapply rtc_r; [apply (Hr cur), Hq; left|done].
Qed.

Lemma bfs_exact start :
  (∀ x e y, y ∈ next x e → y = edge_source e ∨ y = edge_target e) →
  ∃ res, bfs next edges (S (2 * length edges)) {[ start ]} [start] = Some res ∧
         search next edges start = res ∧ ∀ x, x ∈ res ↔ rtc adjacent start x.
Proof.
  intros Hnext. set (ends := list_to_set (edges ≫= λ e, [edge_source e; edge_target e]) : gset NodeRef).
  destruct (bfs_spec ends start (S (2 * length edges)) {[ start ]} [start]) as (res & Hb & Hres).
  - intros x y (e & Hy & He)%list_elem_of_bind. apply elem_of_list_to_set, list_elem_of_bind.
    exists e. split; [|done]. apply Hnext in Hy as [->| ->]; set_solver.
  - unfold bfs_inv. setoid_rewrite elem_of_singleton. setoid_rewrite list_elem_of_singleton.
    split_and!; try done. by intros x ->.
  - cbn [length]. pose proof (subseteq_size (ends ∖ {[ start ]}) ends) as Hsub.
    pose proof (size_list_to_set_le (edges ≫= λ e, [edge_source e; edge_target e])) as Hle.
    assert (length (edges ≫= λ e, [edge_source e; edge_target e]) = 2 * length edges) as Hlen.
    { clear. induction edges as [|e l IH]; cbn in *; lia. }
    assert (size (ends ∖ {[ start ]}) ≤ size ends) by (apply Hsub; set_solver). unfold ends in *. lia.
  - exists res. unfold search. by rewrite Hb.
Qed.
End SearchExact.

Lemma rtc_iff {A} (R S : relation A) x y : (∀ a b, R a b ↔ S a b) → rtc R x y ↔ rtc S x y.
Proof. intros HRS. split; apply rtc_subrel; intros a b; apply HRS. Qed.
