(* ===== verification/VerifyImpact.v ===== *)
(** * Refinements and the impact of a change on invariants

    ail-verify/src/pipeline/core_stages.rs: stage 10 gives the declared
    refinements to the solver, stage 12 asks, for every invariant node, whether
    a changed node it is connected to is not covered by [BreaksIfChanged]
    edges.  Both searches are the breadth-first search of Search.v. *)

From stdpp Require Import gmap.
From S2P Require Import Prelude Text Trim Ordering GraphTypes SemanticGraph Search VerifySolver VerifyReport VerifyCheckers.

(* ------------------------------------------------------------------ *)
(** ** Stage 10: refinements *)

Section Refinements.
Context `{Solver}.

Definition refinement_state (n : GraphNode) (r : RefinementRef) : VerificationState :=
  if decide (trim (rr_predicate r) = "" ∨ trim (rr_predicate r) = "false") then StFailed
  else if decide (rr_status r = RsRuntimeChecked ∧ default [] (node_runtime_checks n) ≠ []) then StRuntimeChecked
  else
    match rr_status r with
    | RsProven => StProven
    | RsRuntimeChecked => StFailed
    | RsAssumed => StAssumed
    | RsUnverified =>
        match solve (MkProofObligation (rr_predicate r) Requires (node_name n)) with
        | OutcomeProven => StProven
        | OutcomeAssumed _ | OutcomeUnsupported => StAssumed
        end
    | RsFailed => StFailed
    end.

Definition refinement_entry (n : GraphNode) : option VerificationEntry :=
  r ← node_refinement_ref n;
  Some (state_entry "10-check-refinements" (refinement_state n r) (node_name n)
          (Some (rr_base_type r +:+ (" -> " +:+ rr_predicate r)))).

Definition check_refinements (g : SemanticGraph) : list VerificationEntry :=
  match omap refinement_entry (graph_nodes g) with
  | [] => [state_entry "10-check-refinements" StProven "refinements" (Some "no refinement refs present")]
  | entries => entries
  end.
End Refinements.

(* ------------------------------------------------------------------ *)
(** ** The two relations searched *)

(** Both ends of an edge, from either side *)
Definition either_end (cur : NodeRef) (e : GraphEdge) : list NodeRef :=
  (if decide (edge_source e = cur) then [edge_target e] else [])
  ++ (if decide (edge_target e = cur) then [edge_source e] else []).

(** [BreaksIfChanged] edges, backward *)
Definition breaks_back (cur : NodeRef) (e : GraphEdge) : list NodeRef :=
  if decide (edge_kind e = EkBreaksIfChanged ∧ edge_target e = cur) then [edge_source e] else [].

(* ------------------------------------------------------------------ *)
(** ** Stage 12: impact analysis *)

(** The last node of a name wins. *)
Definition base_by_name (base : SemanticGraph) : gmap string GraphNode :=
  foldl (λ m n, <[node_name n := n]> m) ∅ (graph_nodes base).

Definition node_changed (base : SemanticGraph) (t : GraphNode) : bool :=
  match base_by_name base !! node_name t with
  | None => true
  | Some b => bool_decide (node_type_facts b ≠ node_type_facts t ∨ node_effect_row b ≠ node_effect_row t)
  end.

Definition changed_ids (base target : SemanticGraph) : gset NodeRef :=
  list_to_set (node_id <$> filter (λ t, node_changed base t = true) (graph_nodes target)).

Definition impact_entry (state : VerificationState) (name : string) (evidence : option string)
  : VerificationEntry :=
  state_entry "12-check-invariants-via-impact-analysis" state name evidence.

(** [covered] is what the backward search adds to the invariant itself. *)
Definition uncovered (base target : SemanticGraph) (inv : NodeRef) : list string :=
  let reachable := search either_end (graph_edges target) inv in
  let covered := search breaks_back (graph_edges target) inv ∖ {[ inv ]} in
  let reachable_changed := filter (λ id, id ≠ inv ∧ id ∈ reachable) (set_iter (changed_ids base target)) in
  omap (λ id, node_name <$> find_first (λ n, node_id n = id) (graph_nodes target))
    (filter (λ id, id ∉ covered) reachable_changed).

Definition invariant_entry (base target : SemanticGraph) (n : GraphNode) : VerificationEntry :=
  if decide (changed_ids base target = ∅) then impact_entry StProven (node_name n) None
  else
    match uncovered base target (node_id n) with
    | [] => impact_entry StProven (node_name n) None
    | names =>
        impact_entry StUnverified (node_name n)
          (Some ("invariant impacted by changes in: " +:+ join ", " names))
    end.

Definition check_invariants (base : option SemanticGraph) (target : SemanticGraph) : list VerificationEntry :=
  match filter (λ n, node_kind n = NkInvariant) (graph_nodes target) with
  | [] => [impact_entry StProven "invariants" (Some "no invariant nodes present")]
  | invariants =>
      match base with
      | None =>
          (λ n, impact_entry StUnverified (node_name n)
                  (Some "no base graph snapshot provided; cannot assess impact")) <$> invariants
      | Some b => invariant_entry b target <$> invariants
      end
  end.

(* ------------------------------------------------------------------ *)
(** ** What the impact analysis decides *)

(** Connected by edges, in either direction *)
Definition linked_by_edge (g : SemanticGraph) (x y : NodeRef) : Prop :=
  ∃ e, e ∈ graph_edges g ∧
    ((edge_source e = x ∧ edge_target e = y) ∨ (edge_target e = x ∧ edge_source e = y)).

(** [y] declares that changing it breaks [x]. *)
Definition breaks (g : SemanticGraph) (x y : NodeRef) : Prop :=
  ∃ e, e ∈ graph_edges g ∧ edge_kind e = EkBreaksIfChanged ∧ edge_target e = x ∧ edge_source e = y.

(** Every changed node the invariant is connected to is covered by a chain of declarations. *)
Definition impact_covered (base target : SemanticGraph) (inv : NodeRef) : Prop :=
  ∀ m, m ∈ graph_nodes target → node_changed base m = true → node_id m ≠ inv →
    rtc (linked_by_edge target) inv (node_id m) → rtc (breaks target) inv (node_id m).

Lemma either_end_ends x e y : y ∈ either_end x e → y = edge_source e ∨ y = edge_target e.
Proof. unfold either_end. repeat case_decide; set_solver. Qed.

Lemma breaks_back_ends x e y : y ∈ breaks_back x e → y = edge_source e ∨ y = edge_target e.
Proof. unfold breaks_back. case_decide; set_solver. Qed.

Lemma search_either g inv x : x ∈ search either_end (graph_edges g) inv ↔ rtc (linked_by_edge g) inv x.
Proof.
  destruct (bfs_exact either_end (graph_edges g) inv either_end_ends) as (res & _ & -> & Hres). rewrite Hres.
  apply rtc_iff. intros a b. unfold adjacent, neighbours, linked_by_edge. rewrite list_elem_of_bind. unfold either_end.
  split; intros (e & He); exists e; revert He; repeat case_decide; set_solver.
Qed.

Lemma search_breaks g inv x : x ∈ search breaks_back (graph_edges g) inv ↔ rtc (breaks g) inv x.
Proof.
  destruct (bfs_exact breaks_back (graph_edges g) inv breaks_back_ends) as (res & _ & -> & Hres). rewrite Hres.
  apply rtc_iff. intros a b. unfold adjacent, neighbours, breaks. rewrite list_elem_of_bind. unfold breaks_back.
  split; intros (e & He); exists e; revert He; case_decide; set_solver.
Qed.

Lemma changed_ids_elem base target id :
  id ∈ changed_ids base target ↔
  ∃ m, m ∈ graph_nodes target ∧ node_changed base m = true ∧ node_id m = id.
Proof.
  unfold changed_ids. rewrite elem_of_list_to_set, list_elem_of_fmap. setoid_rewrite list_elem_of_filter. naive_solver.
Qed.

Lemma uncovered_nil base target inv : uncovered base target inv = [] ↔ impact_covered base target inv.
Proof.
  unfold uncovered. rewrite omap_nil_iff. split.
  - intros Hn m Hm Hc Hne Hl. apply search_breaks.
    destruct (decide (node_id m ∈ search breaks_back (graph_edges target) inv)) as [|Hb]; [done|]. exfalso.
    assert (is_Some (find_first (λ n, node_id n = node_id m) (graph_nodes target))) as [k Hk]
      by (apply find_first_is_Some; eauto).
    assert (node_name <$> find_first (λ n, node_id n = node_id m) (graph_nodes target) = None) as Hx.
    { apply Hn. rewrite !list_elem_of_filter, set_iter_elem, changed_ids_elem, search_either.
      rewrite elem_of_difference. split_and!; try done; [tauto|]. by eauto. }
    by rewrite Hk in Hx.
  - intros Hcov id Hid. rewrite !list_elem_of_filter, set_iter_elem, changed_ids_elem, search_either in Hid.
    destruct Hid as (Hn & (Hne & Hl) & m & Hm & Hc & <-). destruct Hn.
    rewrite elem_of_difference, search_breaks, elem_of_singleton. split; [|done]. by apply Hcov.
Qed.

Lemma invariant_entry_state base target n :
  (ve_state (invariant_entry base target n) = StProven ↔ impact_covered base target (node_id n)) ∧
  (ve_state (invariant_entry base target n) = StProven ∨ ve_state (invariant_entry base target n) = StUnverified).
Proof.
  unfold invariant_entry. case_decide as Hc.
  - split; [|by left]. split; [|done]. intros _ m Hm Hch. exfalso.
    assert (node_id m ∈ changed_ids base target) as Hin by (apply changed_ids_elem; eauto).
    rewrite Hc in Hin. by apply not_elem_of_empty in Hin.
  - rewrite <- uncovered_nil. destruct (uncovered _ _ _); cbn; naive_solver.
Qed.

Lemma invariant_entry_in base target n :
  n ∈ graph_nodes target → node_kind n = NkInvariant →
  invariant_entry base target n ∈ check_invariants (Some base) target.
Proof.
  intros Hn Hk. unfold check_invariants.
  assert (n ∈ filter (λ n, node_kind n = NkInvariant) (graph_nodes target)) as Hf by (by apply list_elem_of_filter).
  destruct (filter _ _); [by apply not_elem_of_nil in Hf|]. by apply list_elem_of_fmap_2.
Qed.

(** C10: The impact analysis is exact: against a base snapshot, each invariant node has an entry, proven exactly when
    every changed node that edges connect to the invariant, in either direction, is linked back to it by
    a chain of [BreaksIfChanged] declarations, and unverified otherwise. *)
Theorem impact_exact base target n :
  n ∈ graph_nodes target → node_kind n = NkInvariant →
  invariant_entry base target n ∈ check_invariants (Some base) target ∧
  (ve_state (invariant_entry base target n) = StProven ↔ impact_covered base target (node_id n)) ∧
  (ve_state (invariant_entry base target n) = StUnverified ↔ ¬ impact_covered base target (node_id n)).
Proof.
  intros Hn Hk. destruct (invariant_entry_state base target n) as [<- Hs].
  split_and!; [by apply invariant_entry_in|done|]. destruct Hs as [-> | ->]; naive_solver.
Qed.

Module ImpactSample.

Definition base : SemanticGraph := MkSemanticGraph [] [].
Definition inv : GraphNode := graph_node_new 0%N NkInvariant "inv.A".
Definition edge (s t : NodeRef) (k : EdgeKind) : GraphEdge := graph_edge_new s t k.
Definition target (k : EdgeKind) : SemanticGraph :=
  MkSemanticGraph [inv; graph_node_new 1%N NkFunction "fn.B"; graph_node_new 2%N NkFunction "fn.C"]
    [edge 2%N 1%N k; edge 1%N 0%N EkBreaksIfChanged].

Lemma impact_exact_witness :
  impact_covered base (target EkBreaksIfChanged) 0%N ∧ ¬ impact_covered base (target EkCalls) 0%N.
Proof.
  destruct (impact_exact base (target EkBreaksIfChanged) inv) as (_ & Hp & _);
    [left|reflexivity|].
  destruct (impact_exact base (target EkCalls) inv) as (_ & _ & Hu); [left|reflexivity|].
  split; [apply Hp; vm_compute; reflexivity|apply Hu; vm_compute; reflexivity].
Defined.
End ImpactSample.
