(* ===== verification/VerifyStages.v ===== *)
(** * The change-set and lowering stages of the verification pipeline

    ail-verify/src/pipeline/changeset_stages.rs (op schemas, references,
    semantic diff, Core IR) and anf_stages.rs (approval records, ANF shape,
    ordering of effects and resources, the capability manifest).  The ordering
    stage walks a body byte by byte and slices it there: [None] is the panic of
    slicing inside a character.  Its maps are [HashMap]s, whose iteration order
    is the class [MapOrder]. *)

From stdpp Require Import pretty gmap.
From S2P Require Import Prelude Text Trim Ordering GraphTypes SemanticGraph ChangeModel VerifySolver VerifyReport VerifyCheckers VerifyTrust.

(* ------------------------------------------------------------------ *)
(** ** Stage 3: op schemas *)

Definition CURRENT_SCHEMA_VERSION : Z := 1.

Definition KNOWN_PRIMITIVES : list string := ["Int"; "String"; "Bool"; "Float"; "Decimal"; "Money"; "Email"].

Definition required_args (kind : ChangeSetOp) (verb : string) : list string :=
  match kind with
  | OpCreate =>
      if decide (verb ∈ ["create_module"; "create_type"; "create_function"; "create_capability"]) then ["id"] else []
  | OpSet =>
      if decide (verb = "set_return") then ["target"; "type"]
      else if decide (verb = "set_body") then ["target"; "body"] else []
  | OpAdd =>
      if decide (verb = "add_param") then ["target"; "name"; "type"]
      else if decide (verb = "add_effect") then ["target"; "effect"]
      else if decide (verb = "add_contract") then ["target"; "kind"; "rule"] else []
  | OpRemove =>
      if decide (verb = "remove_effect") then ["target"; "effect"]
      else if decide (verb = "remove_contract") then ["target"; "rule"] else []
  | OpConnect | OpDisconnect => ["source"; "target"]
  | OpRename => ["target"; "name"]
  | OpMove => ["target"; "to"]
  | OpDelete => ["target"]
  | OpBind => ["capability"; "handler"]
  | OpGrant | OpRevoke => ["target"; "capability"]
  | OpExpose | OpHide => ["target"]
  | OpInfer | OpDerive | OpGenerate | OpAssert | OpLock | OpRefactor | OpMigrate | OpApprove | OpReject
  | OpDeprecate | OpAnnotate | OpVerify => ["target"]
  | OpReplace => []
  end.

(** [str::parse::<u32>] *)
Definition parse_u32 (s : string) : option Z :=
  n ← parse_digits (match s with String "+" r => r | _ => s end);
  if decide (n < 2 ^ 32)%Z then Some n else None.

(** An identifier of a dotted path, on ASCII *)
Definition is_segment (s : string) : bool :=
  negb (bool_decide (s = "")) && string_all (λ c, is_ident_char c && negb (bool_decide (c = "."%char))) s.

Definition is_qualified (s : string) : bool :=
  negb (no_char "." s) && forallb is_segment (split_on "." s).

Definition node_names (g : SemanticGraph) : gset string := list_to_set (node_name <$> graph_nodes g).

Definition type_arg_ok (names : gset string) (ty : string) : bool :=
  bool_decide (ty ∈ KNOWN_PRIMITIVES ∨ ty ∈ names ∨ ty = "") || is_qualified ty.

Definition schema_entry (state : VerificationState) (scope : string) (evidence : option string)
  : VerificationEntry :=
  state_entry "03-validate-op-schemas" state scope evidence.

Definition too_new (args : OpArgs) : option Z :=
  v ← args !! "version"; n ← parse_u32 v; if decide (CURRENT_SCHEMA_VERSION < n)%Z then Some n else None.

Definition op_schema_entry (names : gset string) (idx : nat) (op : CanonicalOp) : VerificationEntry :=
  let args := cop_args op in
  let scope := "op[" +:+ (pretty idx +:+ ("]:" +:+ cop_verb op)) in
  match filter (λ key, args !! key = None) (required_args (cop_kind op) (cop_verb op)) with
  | _ :: _ as missing =>
      schema_entry StFailed scope (Some ("E_OP_SCHEMA: missing required args: " +:+ join ", " missing))
  | [] =>
      match too_new args with
      | Some v =>
          schema_entry StFailed scope
            (Some ("E_OP_VERSION_INCOMPATIBLE: op version " +:+ (pretty v
               +:+ (" exceeds current schema version " +:+ pretty CURRENT_SCHEMA_VERSION))))
      | None =>
          match filter (λ ty, type_arg_ok names ty = false) (option_list (args !! "type")) with
          | ty :: _ =>
              schema_entry StFailed scope
                (Some (quoting "E_OP_ARG_TYPE_INVALID: type " ty
                   " is not a known primitive, graph node name, or qualified external type"))
          | [] =>
              match filter (λ eff, no_char ":" eff = true) (option_list (args !! "effect")) with
              | eff :: _ =>
                  schema_entry StFailed scope
                    (Some (quoting "E_OP_ARG_EFFECT_MALFORMED: effect " eff
                       " must follow 'name:Provider' pattern (missing ':')"))
              | [] => schema_entry StProven scope None
              end
          end
      end
  end.

Definition validate_op_schemas_with_graph (canonical : option CanonicalChangeSet) (g : option SemanticGraph)
  : list VerificationEntry :=
  match canonical with
  | None => [schema_entry StUnverified "changeset.ops" (Some "canonical change unavailable")]
  | Some c =>
      match ccs_ops c with
      | [] => [schema_entry StProven "changeset.ops" (Some "identity changeset has no ops")]
      | ops => imap (op_schema_entry (match g with Some g => node_names g | None => ∅ end)) ops
      end
  end.

(* ------------------------------------------------------------------ *)
(** ** Stage 4: references *)

Definition is_hexdigit (c : ascii) : bool :=
  let n := N_of_ascii c in
  bool_decide (48 ≤ n ≤ 57)%N || bool_decide (65 ≤ n ≤ 70)%N || bool_decide (97 ≤ n ≤ 102)%N.

Definition is_valid_64char_hex (s : string) : bool :=
  bool_decide (String.length s = 64) && string_all is_hexdigit s.

Definition reference_entry (state : VerificationState) (scope : string) (evidence : option string)
  : VerificationEntry :=
  state_entry "04-resolve-graph-references" state scope evidence.

Definition op_scope (idx : nat) (key : string) : string := "op[" +:+ (pretty idx +:+ ("]." +:+ key)).

Definition hash_reference (idx : nat) (op : CanonicalOp) (key : string) : option VerificationEntry :=
  value ← cop_args op !! key;
  Some (if is_valid_64char_hex value
        then reference_entry StProven (op_scope idx key) (Some (key +:+ " is a valid 64-char hex hash"))
        else reference_entry StFailed (op_scope idx key)
               (Some ("E_STALE_CONTEXT: " +:+ quoting (key +:+ " ") value " is not a valid 64-char hex snapshot hash"))).

Definition creates_node (op : CanonicalOp) : bool :=
  match cop_payload op with CreateNode _ => true | _ => false end.

Definition name_reference (names : gset string) (idx : nat) (op : CanonicalOp) (key : string)
  : option VerificationEntry :=
  value ← cop_args op !! key;
  if decide (key = "to" ∧ (cop_kind op = OpMove ∨ cop_kind op = OpMigrate)) then None
  else if decide ((key = "target" ∧ creates_node op = true) ∨ value ∈ names) then
    Some (reference_entry StProven (op_scope idx key) None)
  else
    Some (reference_entry StFailed (op_scope idx key)
            (Some (quoting "E_GRAPH_REF_UNRESOLVED: " value " does not exist in target graph"))).

Definition op_references (names : gset string) (idx : nat) (op : CanonicalOp) : list VerificationEntry :=
  omap (hash_reference idx op) ["base_hash"; "snapshot_hash"]
  ++ omap (name_reference names idx op) ["target"; "source"; "from"; "to"; "capability"; "handler"].

Definition resolve_graph_references (canonical : option CanonicalChangeSet) (g : SemanticGraph)
  : list VerificationEntry :=
  match canonical with
  | None => [reference_entry StUnverified "changeset.refs" (Some "canonical change unavailable")]
  | Some c =>
      match mjoin (imap (op_references (node_names g)) (ccs_ops c)) with
      | [] => [reference_entry StProven "changeset.refs" (Some "no graph references to resolve")]
      | entries => entries
      end
  end.

(* ------------------------------------------------------------------ *)
(** ** Stage 5: semantic diff *)

Definition diff_entry (state : VerificationState) (scope evidence : string) : VerificationEntry :=
  state_entry "05-build-semantic-diff" state scope (Some evidence).

(** Some node of that name has an outgoing [DependsOn] edge. *)
Definition had_expose (base : SemanticGraph) (name : string) : bool :=
  any (λ e, any (λ n, node_name n = name ∧ node_id n = edge_source e) (graph_nodes base) = true ∧
            edge_kind e = EkDependsOn) (graph_edges base).

Definition node_named (g : SemanticGraph) (name : string) : option GraphNode :=
  find_first (λ n, node_name n = name) (graph_nodes g).

Definition facts_differ (base target : SemanticGraph) (name : string) : bool :=
  match node_named base name, node_named target name with
  | Some b, Some t => bool_decide (node_type_facts b ≠ node_type_facts t ∨ node_effect_row b ≠ node_effect_row t)
  | _, _ => false
  end.

Definition diff_entries (base target : SemanticGraph) : list VerificationEntry :=
  ((λ name, diff_entry StProven name (quoting "node " name " added in this changeset"))
   <$> set_iter (node_names target ∖ node_names base))
  ++ ((λ name, diff_entry StUnverified name
                 (if had_expose base name
                  then quoting "E_PUBLIC_API_CHANGED: node " name " removed; had dependent edges"
                  else quoting "node " name " removed from graph; verify no references remain"))
      <$> set_iter (node_names base ∖ node_names target))
  ++ ((λ name, diff_entry StUnverified name
                 (quoting "node " name " type_facts or effect_row changed; verify compatibility"))
      <$> filter (λ name, facts_differ base target name = true) (set_iter (node_names base ∩ node_names target))).

Definition build_semantic_diff (base : option SemanticGraph) (target : SemanticGraph) : list VerificationEntry :=
  match base with
  | None => [diff_entry StUnverified "semantic_diff" "base graph snapshot not provided"]
  | Some b =>
      match diff_entries b target with
      | [] => [diff_entry StProven "semantic_diff" "no structural changes detected"]
      | entries => entries
      end
  end.

(* ------------------------------------------------------------------ *)
(** ** Stage 6: Core IR *)

Definition node_ref_debug (r : NodeRef) : string := "NodeRef(" +:+ (pretty r +:+ ")").

(** [{err:?}] *)
Definition validation_error_debug (e : GraphValidationError) : string :=
  match e with
  | DuplicateRef r => "DuplicateRef(" +:+ (node_ref_debug r +:+ ")")
  | DanglingEdge r role =>
      "DanglingEdge { ref: " +:+ (node_ref_debug r +:+ (", role: "
        +:+ ((match role with RoleSource => "Source" | RoleTarget => "Target" end) +:+ " }")))
  | EffectRowNoEmitsEdge r => "EffectRowNoEmitsEdge(" +:+ (node_ref_debug r +:+ ")")
  | CapabilityReqsMissingNode r cap =>
      "CapabilityReqsMissingNode { owner_ref: " +:+ (node_ref_debug r +:+ (", cap_name: "
        +:+ (debug_text cap +:+ " }")))
  end.

Definition lower_core_ir (g : SemanticGraph) : VerificationEntry :=
  match validate g with
  | Ok _ =>
      state_entry "06-lower-affected-graph-to-core-ir" StProven "core_ir"
        (Some (pretty (length (graph_nodes g)) +:+ " graph nodes lowered"))
  | Err err =>
      state_entry "06-lower-affected-graph-to-core-ir" StFailed "core_ir"
        (Some ("E_CORE_IR_LOWERING: graph validation failed: " +:+ validation_error_debug err))
  end.

(* ------------------------------------------------------------------ *)
(** ** Stage 18: approval records *)

Definition approval_valid (a : ApprovalRecord) : bool :=
  bool_decide (trim (ap_scope a) ≠ "" ∧ trim (ap_approver a) ≠ "" ∧ trim (ap_reason a) ≠ "").

Definition check_approval_records (approvals : list ApprovalRecord) : list VerificationEntry :=
  match approvals with
  | [] =>
      [state_entry "18-check-approval-records" StProven "approvals" (Some "no approval records required by input")]
  | _ =>
      (λ a, if approval_valid a then state_entry "18-check-approval-records" StProven (ap_scope a) None
            else state_entry "18-check-approval-records" StFailed (ap_scope a) (Some "E_APPROVAL_RECORD_INCOMPLETE"))
      <$> approvals
  end.

(* ------------------------------------------------------------------ *)
(** ** Stage 19: the shape of bodies *)

Definition has_let_in_pattern (body : string) : bool :=
  match split_text "let " body with
  | Some (_, rest) => str_contains " in " ("let " +:+ rest)
  | None => false
  end.

Definition not_anf (body : string) : bool :=
  str_contains "while " body || str_contains "for " body || str_contains "loop " body
  || (negb (no_char ";" body) && negb (has_let_in_pattern body)).

Definition anf_entry (state : VerificationState) (scope evidence : string) : VerificationEntry :=
  state_entry "19-lower-to-anf" state scope (Some evidence).

Definition has_no_body (n : GraphNode) : bool := bool_decide (node_kind n = NkFunction ∧ node_body_expr n = None).

Definition lower_anf (g : SemanticGraph) : list VerificationEntry :=
  ((λ n, anf_entry StUnverified (node_name n)
           (quoting "E_ANF_NO_BODY: function " (node_name n) " has no body expression"))
   <$> filter (λ n, has_no_body n = true) (graph_nodes g))
  ++ match find_first (λ p, not_anf p.2 = true)
             (omap (λ n, (λ b, (node_name n, b)) <$> node_body_expr n) (graph_nodes g)) with
     | Some (name, body) => [anf_entry StUnverified name ("body requires non-trivial ANF lowering: " +:+ body)]
     | None => [anf_entry StProven "anf_ir" "graph expressions are ANF-compatible"]
     end.

(* ------------------------------------------------------------------ *)
(** ** Stage 20: order of effects and resources *)

(** Iteration over a [HashMap]: every entry once, in an order that is not specified. *)
Class MapOrder : Type := {
  entry_order : gmap string nat → list (string * nat);
  entry_order_perm m : entry_order m ≡ₚ map_to_list m;
}.

(** The text after [keyword] up to the closing parenthesis, trimmed *)
Definition call_at (keyword s : string) : option string :=
  rest ← strip_prefix keyword s; p ← split_once ")" rest; Some (trim p.1).

(** Every [keyword(text)], with the byte it starts at *)
Fixpoint calls_from (keyword : string) (pos : nat) (s : string) : list (string * nat) :=
  match s with
  | EmptyString => []
  | String _ s' =>
      match call_at keyword s with
      | Some ident => (ident, pos) :: calls_from keyword (S pos) s'
      | None => calls_from keyword (S pos) s'
      end
  end.

Definition ident_calls (keyword body : string) : list (string * nat) :=
  filter (λ c, is_ident c.1 = true) (calls_from keyword 0 body).

(** [entry(ident).or_insert(pos)] *)
Definition first_positions (calls : list (string * nat)) : gmap string nat :=
  foldl (λ m c, match m !! c.1 with Some _ => m | None => <[c.1 := c.2]> m end) ∅ calls.

(** [*entry(ident).or_insert(0) += 1] *)
Definition call_counts (calls : list (string * nat)) : gmap string nat :=
  foldl (λ m c, <[c.1 := S (default 0 (m !! c.1))]> m) ∅ calls.

(** [find_keyword_pos] *)
Definition find_keyword_pos (body keyword ident : string) : option nat :=
  snd <$> find_first (λ c, c.1 = ident) (calls_from keyword 0 body).

(** A byte inside a character: slicing there panics. *)
Definition continuation_byte (c : ascii) : bool := bool_decide (128 ≤ N_of_ascii c < 192)%N.

Definition sliceable (body : string) : bool := string_all (λ c, negb (continuation_byte c)) body.

Section Order.
Context `{MapOrder}.

Definition release_violation (acquires : gmap string nat) (r : string * nat) : bool :=
  match acquires !! r.1 with Some a => (r.2 <? a)%nat | None => true end.

(** The outer [option] is the panic. *)
Definition find_ordering_violation (body : string) : option (option string) :=
  if sliceable body then
    let acquires := first_positions (ident_calls "acquire(" body) in
    let releases := first_positions (ident_calls "release(" body) in
    Some (fst <$> find_first (λ r, release_violation acquires r = true) (entry_order releases))
  else None.

Inductive EffectViolation : Type :=
| DuplicateEffect (ident : string)
| EffectNoBind (ident : string)
| EffectOrder (ident : string).

Definition effect_violation (body ident : string) : option EffectViolation :=
  match find_keyword_pos body "bind_effect(" ident, find_keyword_pos body "run_effect(" ident with
  | None, Some _ => Some (EffectNoBind ident)
  | Some b, Some r => if (r <? b)%nat then Some (EffectOrder ident) else None
  | _, None => None
  end.

Definition find_effect_ordering_violation (body : string) : option (option EffectViolation) :=
  if sliceable body then
    let runs := call_counts (ident_calls "run_effect(" body) in
    let emitted := call_counts (ident_calls "emit_effect(" body) in
    Some match find_first (λ c, (1 < c.2)%nat) (entry_order emitted) with
         | Some (ident, _) => Some (DuplicateEffect ident)
         | None => head (omap (λ c, effect_violation body c.1) (entry_order runs))
         end
  else None.

(** The codes are carried as a prefix of the text in the source and taken apart again. *)
Definition effect_violation_text (v : EffectViolation) : string :=
  match v with
  | DuplicateEffect i => "E_ANF_DUPLICATE_EFFECT: " +:+ quoting "emit_effect(" i ") appears more than once"
  | EffectNoBind i => "E_ANF_EFFECT_ORDER: " +:+ quoting "run_effect(" i ") without bind_effect"
  | EffectOrder i => "E_ANF_EFFECT_ORDER: " +:+ quoting "run_effect(" i (quoting ") before bind_effect(" i ")")
  end.

Definition ordering_entry (state : VerificationState) (scope evidence : string) : VerificationEntry :=
  state_entry "20-check-anf-effect-resource-ordering" state scope (Some evidence).

(** The loop over the nodes: the first violation ends it. *)
Fixpoint check_bodies (nodes : list GraphNode) : option VerificationEntry :=
  match nodes with
  | [] => Some (ordering_entry StProven "anf_ir" "effect/resource ordering preserved")
  | n :: nodes' =>
      match node_body_expr n with
      | None => check_bodies nodes'
      | Some body =>
          r ← find_ordering_violation body;
          match r with
          | Some ident =>
              Some (ordering_entry StFailed (node_name n)
                      ("E_ANF_RESOURCE_ORDER: " +:+ quoting "release(" ident (quoting ") appears before acquire(" ident ")")))
          | None =>
              v ← find_effect_ordering_violation body;
              match v with
              | Some v => Some (ordering_entry StFailed (node_name n) (effect_violation_text v))
              | None => check_bodies nodes'
              end
          end
      end
  end.

Definition check_anf_ordering (g : SemanticGraph) : option VerificationEntry := check_bodies (graph_nodes g).
End Order.

(* ------------------------------------------------------------------ *)
(** ** Stage 21: the manifest *)

Definition u64_mul (a b : N) : N := ((a * b) mod u64_modulus)%N.

(** The four constants that spread the accumulator, and the accumulator *)
Definition fnv_byte (h : N) (b : N) : N := u64_mul (N.lxor h b) 0x100000001b3.

Definition fnv_name (h : N) (name : string) : N :=
  u64_mul (foldl fnv_byte h (string_bytes name)) 0x9e3779b97f4a7c15.

Definition caps_accumulator (names : list string) : N := foldl fnv_name 0xcbf29ce484222325%N (sort_on id names).

(** [{h:016x}] *)
Fixpoint hex_fixed (digits : nat) (n : N) : string :=
  match digits with
  | O => ""
  | S d => hex_fixed d (n / 16) +:+ String (hex_digit (n mod 16)) ""
  end.

Definition compute_caps_hash (cap_names : list string) : string :=
  let h := caps_accumulator cap_names in
  hex_fixed 16 h
  +:+ (hex_fixed 16 (u64_add (u64_mul h 0x517cc1b727220a95) 0xf6bdbff8bce24095)
  +:+ (hex_fixed 16 (u64_add (u64_mul h 0xbf58476d1ce4e5b9) 0x94d049bb133111eb)
  +:+ hex_fixed 16 (u64_add (u64_mul h 0x6c62272e07bb0142) 0x62b821756295c58d))).

Definition manifest_entry (state : VerificationState) (evidence : string) : VerificationEntry :=
  state_entry "21-generate-validate-manifest" state "capabilities_manifest" (Some evidence).

Definition validate_manifest (g : SemanticGraph) (manifest_caps : list string)
    (artifact_manifest_hash : option string) : VerificationEntry :=
  let graph_caps : gset string := list_to_set (graph_capabilities g) in
  let manifest : gset string := list_to_set manifest_caps in
  let actual_hash := compute_caps_hash (set_iter graph_caps) in
  if match artifact_manifest_hash with Some expected => bool_decide (actual_hash ≠ expected) | None => false end then
    manifest_entry StFailed
      ("E_MANIFEST_HASH_MISMATCH: expected " +:+ (default "" artifact_manifest_hash
         +:+ (", computed " +:+ actual_hash)))
  else if decide (manifest_caps = [] ∧ graph_caps = ∅) then manifest_entry StProven "no capabilities required"
  else if decide (graph_caps = manifest) then
    manifest_entry StProven (pretty (size graph_caps) +:+ " capabilities validated")
  else manifest_entry StFailed "E_MANIFEST_MISMATCH: graph capabilities differ from manifest capabilities".

(* ------------------------------------------------------------------ *)
(** ** What the stages decide *)

Lemma release_violation_iff acquires ident pos :
  release_violation acquires (ident, pos) = true ↔ ∀ a, acquires !! ident = Some a → pos < a.
Proof.
  unfold release_violation. cbn [fst snd]. destruct (acquires !! ident) as [a|]; [|naive_solver].
  rewrite Nat.ltb_lt. naive_solver.
Qed.

(** The verdict on a body does not depend on the iteration order: a violation is reported exactly when a released
    name is not acquired before it. *)
Definition released_early (body ident : string) : Prop :=
  ∃ pos, first_positions (ident_calls "release(" body) !! ident = Some pos ∧
    ∀ a, first_positions (ident_calls "acquire(" body) !! ident = Some a → pos < a.

Lemma ordering_violation_exact `{MapOrder} body :
  sliceable body = true →
  ∃ r, find_ordering_violation body = Some r ∧
    (r = None ↔ ∀ ident, ¬ released_early body ident) ∧
    (∀ ident, r = Some ident → released_early body ident).
Proof.
  intros Hs. unfold find_ordering_violation. rewrite Hs. eexists. split; [done|].
  set (acq := first_positions (ident_calls "acquire(" body)). set (rel := first_positions (ident_calls "release(" body)).
  assert (∀ p, p ∈ entry_order rel ↔ rel !! p.1 = Some p.2) as Hel.
  { intros [i pos]. by rewrite entry_order_perm, elem_of_map_to_list. }
  split.
  - rewrite fmap_None, find_first_None. split.
    + intros Hn ident (pos & Hp & Ha). apply (Hn (ident, pos)); [by apply Hel|]. by apply release_violation_iff.
    + intros Hn [ident pos] Hp Hv. apply (Hn ident). exists pos. split; [by apply Hel in Hp|].
      by apply release_violation_iff.
  - intros ident Hi. apply fmap_Some in Hi as ([i pos] & Hf & ->). apply find_first_Some in Hf as [Hp Hv].
    exists pos. split; [by apply Hel in Hp|]. by apply release_violation_iff.
Qed.

(** The slices of the ordering stage fail exactly on bodies that hold a continuation byte, as every text with a
    character outside ASCII does. *)
Lemma ordering_panics_iff `{MapOrder} body :
  find_ordering_violation body = None ↔ sliceable body = false.
Proof. unfold find_ordering_violation. by destruct (sliceable body). Qed.

(** Two iteration orders, two reports *)
Definition ascending : MapOrder.
Proof. exists (λ m, sort_on fst (map_to_list m)). intros m. apply sort_on_perm. Defined.

Definition descending : MapOrder.
Proof. exists (λ m, reverse (sort_on fst (map_to_list m))). intros m. rewrite reverse_Permutation. apply sort_on_perm. Defined.

Example order_dependent :
  @find_ordering_violation ascending "release(a); release(b)" = Some (Some "a") ∧
  @find_ordering_violation descending "release(a); release(b)" = Some (Some "b").
Proof. vm_compute. done. Qed.

(** The text is UTF-8: an accented letter is two bytes. *)
Example accented_body_panics : @find_ordering_violation ascending "é" = None.
Proof. vm_compute. done. Qed.

Lemma validate_manifest_exact g caps hash :
  ve_state (validate_manifest g caps hash) = StProven ↔
  (∀ h, hash = Some h → h = compute_caps_hash (set_iter (list_to_set (graph_capabilities g) : gset string))) ∧
  (∀ c, c ∈ graph_capabilities g ↔ c ∈ caps).
Proof.
  unfold validate_manifest.
  assert (((list_to_set (graph_capabilities g) : gset string) = list_to_set caps) ↔
          ∀ c, c ∈ graph_capabilities g ↔ c ∈ caps) as Hset.
  { rewrite set_eq. by setoid_rewrite elem_of_list_to_set. }
  rewrite <- Hset. clear Hset.
  set (h0 := compute_caps_hash _).
  assert ((match hash with Some expected => bool_decide (h0 ≠ expected) | None => false end) = false ↔
          ∀ h, hash = Some h → h = h0) as Hh.
  { destruct hash as [h|]; [|naive_solver]. rewrite bool_decide_eq_false. split; [|naive_solver].
    intros Hn h' [= <-]. symmetry. by apply dec_stable. }
  rewrite <- Hh. destruct (match hash with Some expected => _ | None => false end); cbn; [naive_solver|].
  case_decide as He; cbn.
  - destruct He as [-> ->]. done.
  - case_decide; cbn; naive_solver.
Qed.

(** Stage 21 compares the capabilities as sets, stage 22 with multiplicity: on a name declared twice they disagree. *)
Example manifests_disagree :
  let g := MkSemanticGraph [graph_node_new 1%N NkCapability "cap.io"; graph_node_new 2%N NkCapability "cap.io"] [] in
  ve_state (validate_manifest g ["cap.io"] None) = StProven ∧
  ve_state <$> vr_entries (check_manifest_consistency g ["cap.io"]) = [StProven; StFailed].
Proof. vm_compute. done. Qed.
