(* ===== verification/VerifyPackages.v ===== *)
(** * Package trust

    ail-verify/src/package_checker.rs: the trust tier of every manifest against
    the profile, the metadata of assumed packages, version constraints and
    deprecated exports. *)

From S2P Require Import Prelude Text Trim VerifyReport Packages Versioning.

Definition strict_profile (profile : string) : bool := bool_decide (profile ∈ ["prod"; "staging"; "critical"]).

Definition minimum_trust_for_profile (profile : string) : PackageTrust :=
  if strict_profile profile then Assumed else Unverified.

Definition requires_assumption_approval (profile : string) : bool := strict_profile profile.

(** [Display for TrustLevel] *)
Definition trust_display (t : PackageTrust) : string :=
  match t with Verified => "verified" | Assumed => "assumed" | Unverified => "unverified" | Unsafe => "unsafe" end.

Definition package_scope (m : PackageManifest) : string := "package:" +:+ (pm_name m +:+ ("@" +:+ pm_version m)).

Definition trust_claim (profile : string) : string := "package-trust[" +:+ (profile +:+ "]").

(** An entry of [check_assumed_package_metadata], always blocking *)
Definition metadata_entry (m : PackageManifest) (profile : string) (state : VerificationState)
    (evidence repair : string) : VerificationEntry :=
  MkVerificationEntry (trust_claim profile) state (package_scope m) (Some evidence) true [repair].

Definition state_debug (s : AssumptionState) : string :=
  match s with
  | Proposed => "Proposed" | Approved => "Approved" | Active => "Active" | Expired => "Expired"
  | Revoked => "Revoked" | FailedReview => "FailedReview"
  end.

Definition assumption_incomplete (a : PackageAssumption) : bool :=
  bool_decide (trim (pa_id a) = "" ∨ trim (pa_claim a) = "" ∨ trim (pa_boundary a) = "" ∨ trim (pa_owner a) = "").

Definition assumption_lapsed (a : PackageAssumption) : bool :=
  match pa_state a with Expired | Revoked | FailedReview => true | _ => false end.

(** The checks of one assumption, in their order *)
Definition assumption_issue (m : PackageManifest) (profile : string) (a : PackageAssumption)
  : option VerificationEntry :=
  if assumption_incomplete a then
    Some (metadata_entry m profile StFailed
            "E_PACKAGE_ASSUMPTION_INVALID: assumption must declare id, claim, boundary, and owner"
            "complete_package_assumption_metadata")
  else if decide (pa_boundary a ∉ pm_boundaries m) then
    Some (metadata_entry m profile StFailed
            ("E_PACKAGE_ASSUMPTION_FLOATING: assumption '" +:+ (pa_id a
               +:+ ("' references undeclared boundary '" +:+ (pa_boundary a +:+ "'"))))
            "declare_assumption_boundary")
  else if assumption_lapsed a then
    Some (metadata_entry m profile StFailed
            ("E_PACKAGE_ASSUMPTION_INACTIVE: assumption '" +:+ (pa_id a +:+ ("' is " +:+ state_debug (pa_state a))))
            "renew_or_replace_package_assumption")
  else None.

Definition check_assumed_package_metadata (m : PackageManifest) (profile : string) : option VerificationEntry :=
  if decide (pm_assumptions m = []) then
    Some (metadata_entry m profile StUnverified
            "E_PACKAGE_ASSUMPTION_MISSING: assumed package must declare boundary-scoped assumptions"
            "add_package_assumption_with_boundary")
  else if decide (pm_boundaries m = []) then
    Some (metadata_entry m profile StUnverified
            "E_PACKAGE_BOUNDARY_MISSING: assumed package must declare trust boundaries" "add_package_boundary")
  else head (omap (assumption_issue m profile) (pm_assumptions m)).

Definition approval_entry (m : PackageManifest) (profile : string) (a : PackageAssumption) : VerificationEntry :=
  MkVerificationEntry ("package-assumption-approval[" +:+ (profile +:+ "]")) StAssumed
    (package_scope m +:+ ("#assumption:" +:+ pa_id a))
    (Some ("E_PACKAGE_ASSUMPTION_APPROVAL_REQUIRED: active package assumption '" +:+ (pa_id a
       +:+ "' requires consumer approval"))) false ["add_consumer_assumption_approval"].

(** The last test of [check_one]; [Unsafe] is handled before it. *)
Definition tier_entry (m : PackageManifest) (profile : string) : VerificationEntry :=
  let trust := pm_trust_level m in
  let min_trust := minimum_trust_for_profile profile in
  if satisfies trust min_trust then
    MkVerificationEntry (trust_claim profile)
      (match trust with Verified => StProven | Assumed => StAssumed | _ => StUnverified end) (package_scope m)
      (if decide (trust = Assumed)
       then Some ("package assumptions are boundary-scoped: " +:+ join ", " (pa_id <$> pm_assumptions m))
       else None) false []
  else
    MkVerificationEntry (trust_claim profile) StUnverified (package_scope m)
      (Some ("package trust level `" +:+ (trust_display trust +:+ ("` does not meet profile minimum `"
         +:+ (trust_display min_trust +:+ "`"))))) true
      ["raise_package_trust_or_select_lower_profile"].

Definition check_one (m : PackageManifest) (profile : string) : list VerificationEntry :=
  match pm_trust_level m with
  | Unsafe =>
      [MkVerificationEntry (trust_claim profile) StUnsafe (package_scope m)
         (Some "package has TrustLevel::Unsafe; explicit approval required") true []]
  | Assumed =>
      match check_assumed_package_metadata m profile with
      | Some entry => [entry]
      | None =>
          let active := filter (λ a, is_active a = true) (pm_assumptions m) in
          if requires_assumption_approval profile && bool_decide (active ≠ []) then
            approval_entry m profile <$> active
          else [tier_entry m profile]
      end
  | _ => [tier_entry m profile]
  end.

Definition package_check (manifests : list PackageManifest) (profile : string) : list VerificationEntry :=
  manifests ≫= λ m, check_one m profile.

Section Constraints.
Context `{Semver}.

Definition constraint_entry (m : PackageManifest) (i : ImportDeclaration) : VerificationEntry :=
  let scope := "import:" +:+ (id_source_package i +:+ ("@" +:+ (pm_name m +:+ ("@" +:+ pm_version m)))) in
  match id_version_constraint i with
  | Some c =>
      if bool_decide (is_Some (req_parse c)) then MkVerificationEntry "version-constraint" StProven scope None false []
      else MkVerificationEntry "version-constraint" StUnverified scope
             (Some ("E_VERSION_CONSTRAINT_INVALID: " +:+ c)) true []
  | None => MkVerificationEntry "version-constraint" StProven scope None false []
  end.

Definition check_version_constraints (manifests : list PackageManifest) : list VerificationEntry :=
  manifests ≫= λ m, constraint_entry m <$> pm_imports m.
End Constraints.

Definition is_deprecated (e : ExportDeclaration) : bool :=
  match ed_stability e with Deprecated => true | _ => false end.

Definition check_deprecated_exports (manifests : list PackageManifest) : list VerificationEntry :=
  manifests ≫= λ m,
    (λ e, MkVerificationEntry "deprecated-api" StAssumed
            ("export:" +:+ (ed_name e +:+ ("@" +:+ (pm_name m +:+ ("@" +:+ pm_version m)))))
            (Some ("E_DEPRECATED_API: " +:+ ed_name e)) false [])
    <$> filter (λ e, is_deprecated e = true) (pm_exports m).

(** [VerificationEntry::is_blocking] *)
Definition is_blocking (e : VerificationEntry) : bool :=
  match ve_state e with
  | StUnsafe | StFailed => true
  | StUnverified => bool_decide (ve_evidence e ≠ None)
  | _ => false
  end.

(* ------------------------------------------------------------------ *)
(** ** What the checker decides *)

(** A package passes the checker exactly when it is verified, or assumed with complete, live and bounded assumptions,
    or, outside the strict profiles, unverified. *)
Definition package_trusted (m : PackageManifest) (profile : string) : Prop :=
  match pm_trust_level m with
  | Unsafe => False
  | Verified => True
  | Unverified => strict_profile profile = false
  | Assumed =>
      pm_assumptions m ≠ [] ∧ pm_boundaries m ≠ [] ∧
      ∀ a, a ∈ pm_assumptions m →
        assumption_incomplete a = false ∧ pa_boundary a ∈ pm_boundaries m ∧ assumption_lapsed a = false
  end.

Lemma assumption_issue_None m profile a :
  assumption_issue m profile a = None ↔
  assumption_incomplete a = false ∧ pa_boundary a ∈ pm_boundaries m ∧ assumption_lapsed a = false.
Proof.
  unfold assumption_issue. destruct (assumption_incomplete a); [naive_solver|].
  case_decide as Hb; [naive_solver|]. destruct (assumption_lapsed a); naive_solver.
Qed.

Lemma metadata_None m profile :
  check_assumed_package_metadata m profile = None ↔
  pm_assumptions m ≠ [] ∧ pm_boundaries m ≠ [] ∧
  ∀ a, a ∈ pm_assumptions m →
    assumption_incomplete a = false ∧ pa_boundary a ∈ pm_boundaries m ∧ assumption_lapsed a = false.
Proof.
  unfold check_assumed_package_metadata. case_decide; [naive_solver|]. case_decide; [naive_solver|].
  setoid_rewrite <- (assumption_issue_None m profile). rewrite head_None, omap_nil_iff. naive_solver.
Qed.

Lemma metadata_blocks m profile e :
  check_assumed_package_metadata m profile = Some e → ve_blocking e = true ∧ is_blocking e = true.
Proof.
  unfold check_assumed_package_metadata. case_decide; [by intros [= <-]|]. case_decide; [by intros [= <-]|].
  intros He. apply head_Some_elem_of in He as (a & _ & Ha)%list_elem_of_omap. revert Ha. unfold assumption_issue.
  destruct (assumption_incomplete a); [by intros [= <-]|]. case_decide; [by intros [= <-]|].
  destruct (assumption_lapsed a); [by intros [= <-]|done].
Qed.

(** Package trust is enforced exactly: under every profile the entries of a manifest agree with
    [VerificationEntry::is_blocking] on what blocks, and none of them blocks exactly when the package is
    verified, or assumed with complete, live assumptions on declared boundaries, or, outside [staging], [prod]
    and [critical], unverified. *)
Theorem package_trust_exact m profile :
  (∀ e, e ∈ check_one m profile → ve_blocking e = is_blocking e) ∧
  ((∀ e, e ∈ check_one m profile → is_blocking e = false) ↔ package_trusted m profile).
Proof.
  unfold package_trusted, check_one. destruct (pm_trust_level m) eqn:Et.
  - setoid_rewrite list_elem_of_singleton. split; [by intros e ->|]. split; [|done]. intros He. by specialize (He _ eq_refl).
  - setoid_rewrite list_elem_of_singleton. unfold tier_entry, minimum_trust_for_profile. rewrite Et.
    destruct (strict_profile profile); cbn; (split; [by intros e ->|]); split; try done.
    + intros He. by specialize (He _ eq_refl).
    + by intros _ e ->.
  - rewrite <- (metadata_None m profile). destruct (check_assumed_package_metadata m profile) as [e|] eqn:Em.
    { apply metadata_blocks in Em as [Hb Hi]. setoid_rewrite list_elem_of_singleton.
      split; [intros ? ->; congruence|]. split; [|done]. intros He. rewrite (He e eq_refl) in Hi. done. }
    destruct (requires_assumption_approval profile && _).
    + setoid_rewrite list_elem_of_fmap. split; [by intros e (a & -> & _)|]. split; [done|]. by intros _ e (a & -> & _).
    + setoid_rewrite list_elem_of_singleton. unfold tier_entry, minimum_trust_for_profile. rewrite Et.
      destruct (strict_profile profile); cbn; (split; [by intros e ->|]); split; try done; by intros _ e ->.
  - setoid_rewrite list_elem_of_singleton. unfold tier_entry, minimum_trust_for_profile. rewrite Et.
    destruct (strict_profile profile); cbn; (split; [by intros e ->|]); split; try done; by intros _ e ->.
Qed.
