(* ===== verification/VerifyPipeline.v ===== *)
(** * The verification pipeline

    ail-verify/src/pipeline.rs: the stages in their order, the report before
    the policy decision, the decision, and the stages that follow it.  The ACL
    parser, the type checker, the translation validator and the JSON form of
    the operations are parameters; the theorems hold for all of them.  [None]
    is a panic: the migration of an unknown ACL version, or a body the
    translation validator or the ordering stage cannot slice. *)

From stdpp Require Import pretty gmap.
From S2P Require Import Prelude Text Trim Ordering GraphTypes SemanticGraph ChangeModel Canonical Packages Versioning VerifySolver VerifyReport VerifyProof VerifyPolicy VerifyCheckers VerifyTrust Search VerifyImpact VerifyStages VerifyPackages.

Record PipelineContext : Type := MkPipelineContext {
  px_graph : SemanticGraph;
  px_manifests : list PackageManifest;
  px_profile : string;
  px_approvals : list VerifyReport.ApprovalRecord;
  px_rules : list PolicyRule;
  px_structural_diff : option VerifyStructuralDiff;
  px_public_api_changes : list PublicApiChange;
  px_artifacts : list ArtifactEntry;
  px_manifest_caps : list string;
  px_artifact_manifest_hash : option string;
}.

(* ------------------------------------------------------------------ *)
(** ** [Debug] of a decision *)

Definition debug_struct (name code scope message : string) : string :=
  name +:+ (" { code: " +:+ (debug_text code +:+ (", scope: " +:+ (debug_text scope +:+ (", message: "
    +:+ (debug_text message +:+ " }")))))).

Definition decision_debug (d : PolicyDecision) : string :=
  match d with
  | Passed => "Passed"
  | PassedWithWarnings ws =>
      "PassedWithWarnings(" +:+ (debug_list ((λ w, debug_struct "PolicyWarning" (pw_code w) (pw_scope w)
                                                     (pw_message w)) <$> ws) +:+ ")")
  | PolicyFailed vs =>
      "Failed(" +:+ (debug_list ((λ v, debug_struct "PolicyViolation" (pv_code v) (pv_scope v)
                                         (pv_message v)) <$> vs) +:+ ")")
  | ApprovalRequired scopes => "ApprovalRequired(" +:+ (debug_list (debug_text <$> scopes) +:+ ")")
  end.

(** A stage that ran *)
Definition header (claim scope evidence : string) : VerificationEntry :=
  state_entry claim StProven scope (Some evidence).

(** [graph_snapshot_id] *)
Definition graph_snapshot_id (g : SemanticGraph) : string :=
  "snap:" +:+ (pretty (length (graph_nodes g)) +:+ (":" +:+ join "|" (sort_on id (node_name <$> graph_nodes g)))).

Definition degradation_events (ledger : list ObligationLedgerEntry) : list DegradationEvent :=
  omap (λ e, match ol_state e with
             | ObAssumed reason =>
                 Some (MkDegradationEvent (ol_id e) (ol_source_stage e) StProven StAssumed reason
                         (ol_repair_options e))
             | _ => None
             end) ledger.

Section Pipeline.
Context `{HashBackend, Semver, Solver, MapOrder}.
Context (parse_changeset : string → result ParsedChangeSet string).
Context (type_check : SemanticGraph → VerificationReport).
Context (translation_check : SemanticGraph → string → option (list VerificationEntry)).
Context (json_ops : list CanonicalOp → list N).

(** Stage 1 *)
Definition parse_stage (text : option string) : VerificationEntry * option ParsedChangeSet :=
  match text with
  | Some t =>
      match parse_changeset t with
      | Ok parsed => (state_entry "01-parse-changeset" StProven "changeset" None, Some parsed)
      | Err err => (state_entry "01-parse-changeset" StFailed "changeset" (Some ("E_CHANGESET_PARSE: " +:+ err)), None)
      end
  | None =>
      (state_entry "01-parse-changeset" StUnverified "changeset"
         (Some "no submitted ChangeSet text provided to pipeline"), None)
  end.

(** [canonicalize_parsed]: the migration error is an [expect]. *)
Definition canonicalize_or_panic (parsed : option ParsedChangeSet) : option (option CanonicalChangeSet) :=
  match parsed with
  | None => Some None
  | Some pcs =>
      match try_canonicalize_parsed pcs with
      | Some (Ok c) => Some (Some c)
      | _ => None
      end
  end.

(** Stage 2 *)
Definition canonical_entry (canonical : option CanonicalChangeSet) : VerificationEntry :=
  match canonical with
  | Some c =>
      state_entry "02-canonicalize-changeset" StProven "changeset"
        (Some (pretty (length (ccs_ops c)) +:+ " canonical ops"))
  | None =>
      state_entry "02-canonicalize-changeset" StUnverified "changeset"
        (Some "canonical change unavailable because parsing was skipped or failed")
  end.

(** Stage 6b, on the entries of the translation validator *)
Definition translation_stage (ctx : PipelineContext) (entries : list VerificationEntry) : list VerificationEntry :=
  state_entry "translation-validation" (worst_state (ve_state <$> entries)) "translation_validation"
    (Some (quoting "profile " (px_profile ctx) ": translation validation executed")) :: entries.

(** Stages 1 to 16 *)
Definition stage_entries (ctx : PipelineContext) (parse_entry : VerificationEntry)
    (canonical : option CanonicalChangeSet) (base : option SemanticGraph) (validated : list VerificationEntry)
  : list VerificationEntry :=
  let g := px_graph ctx in
  [parse_entry; canonical_entry canonical]
  ++ validate_op_schemas_with_graph canonical (Some g)
  ++ resolve_graph_references canonical g
  ++ build_semantic_diff base g
  ++ [lower_core_ir g]
  ++ translation_stage ctx validated
  ++ [header "07-type-check" "type-checker" "type checker executed"]
  ++ vr_entries (type_check g)
  ++ [header "08-effect-capability-check" "effect-checker" "effect/capability checker executed"]
  ++ vr_entries (effect_check g)
  ++ [header "09-generate-proof-obligations" "proof-obligations"
        (pretty (length (run_with_ledger g)) +:+ " obligations")]
  ++ check_refinements g
  ++ [header "11-check-contracts" "contracts" "contract checker executed"]
  ++ vr_entries (contract_check g)
  ++ check_invariants base g
  ++ [header "13-check-resource-lifecycle" "resources" "resource checker executed"]
  ++ vr_entries (resource_check g)
  ++ [header "14-check-concurrency-safety" "concurrency" "concurrency checker executed"]
  ++ vr_entries (concurrency_check g)
  ++ [header "15-check-boundaries-ffi-trust" "boundaries" "boundary checker executed"]
  ++ vr_entries (boundary_check g)
  ++ [header "16-check-package-trust-dependencies" "packages" "package trust checker executed"]
  ++ package_check (px_manifests ctx) (px_profile ctx)
  ++ check_version_constraints (px_manifests ctx)
  ++ check_deprecated_exports (px_manifests ctx).

Definition stage_diagnostics (g : SemanticGraph) : list Diagnostic :=
  vr_diagnostics (type_check g) ++ vr_diagnostics (effect_check g) ++ vr_diagnostics (contract_check g)
  ++ vr_diagnostics (resource_check g) ++ vr_diagnostics (concurrency_check g) ++ vr_diagnostics (boundary_check g).

(** The report that the policy reads *)
Definition pre_policy_report (ctx : PipelineContext) (entries : list VerificationEntry)
    (base : option SemanticGraph) : VerificationReport :=
  let g := px_graph ctx in
  let ledger := run_with_ledger g in
  canonicalize_for_ci
    (MkVerificationReport entries (stage_diagnostics g) "verification/1.0" (counts_from_entries entries) None None
       ledger (omap from_ledger_entry ledger) (profile_rule_diagnostics (px_profile ctx) (px_rules ctx))
       (degradation_events ledger) [] (graph_snapshot_id <$> base) (Some (graph_snapshot_id g))
       (px_structural_diff ctx) (px_approvals ctx) (Some (px_profile ctx))).

(** Stage 17 *)
Definition policy_stage (ctx : PipelineContext) (report : VerificationReport) : PolicyDecision * PolicyAudit :=
  let '(decision, audit) :=
    evaluate_with_audit
      (MkPolicyInput report (px_rules ctx) (px_approvals ctx) (px_public_api_changes ctx)) in
  (enforce_profile_diagnostics decision (profile_rule_diagnostics (px_profile ctx) (px_rules ctx)), audit).

(** Stage 22 *)
Definition codegen_stage (ctx : PipelineContext)
  : list VerificationEntry * list Diagnostic * list ArtifactHash :=
  let artifacts :=
    if decide (px_artifacts ctx = []) then bare_report [] [] else check_artifacts (px_artifacts ctx) in
  let manifest :=
    if decide (px_manifest_caps ctx = []) then bare_report [] []
    else check_manifest_consistency (px_graph ctx) (px_manifest_caps ctx) in
  (header "22-codegen-consistency-check" "codegen" "codegen consistency checker executed"
     :: vr_entries artifacts ++ vr_entries manifest,
   vr_diagnostics artifacts ++ vr_diagnostics manifest, vr_artifact_hashes artifacts).

(** Stages 17 to 23: what is appended after the decision *)
Definition late_entries (ctx : PipelineContext) (decision : PolicyDecision) (ordering : VerificationEntry)
  : list VerificationEntry :=
  [header "17-check-policy-gates" "policy" ("policy decision: " +:+ decision_debug decision)]
  ++ check_approval_records (px_approvals ctx)
  ++ lower_anf (px_graph ctx)
  ++ [ordering; validate_manifest (px_graph ctx) (px_manifest_caps ctx) (px_artifact_manifest_hash ctx)]
  ++ (codegen_stage ctx).1.1
  ++ [header "23-emit-verification-report" "verification_report" "schema verification/1.0 emitted"].

Definition canonical_change_hash (c : CanonicalChangeSet) : string := to_hex (blake3 (json_ops (ccs_ops c))).

Definition emit_report (ctx : PipelineContext) (canonical : option CanonicalChangeSet)
    (pre : VerificationReport) (decision : PolicyDecision) (audit : PolicyAudit) (ordering : VerificationEntry)
  : VerificationReport :=
  let entries := vr_entries pre ++ late_entries ctx decision ordering in
  canonicalize_for_ci
    (MkVerificationReport entries (vr_diagnostics pre ++ (codegen_stage ctx).1.2) (vr_schema_version pre)
       (counts_from_entries entries) (Some decision) (Some audit) (vr_proof_obligations pre)
       (vr_solver_diagnostics pre) (vr_profile_diagnostics pre) (vr_degradation_events pre)
       ((match canonical with
         | Some c => [MkArtifactHash "canonical_change" (canonical_change_hash c)]
         | None => []
         end) ++ (codegen_stage ctx).2)
       (vr_base_snapshot pre) (vr_target_snapshot pre) (vr_structural_diff pre) (vr_approvals pre)
       (vr_verified_profile pre)).

Definition run_with_changeset (ctx : PipelineContext) (text : option string) (base : option SemanticGraph)
  : option VerificationReport :=
  let '(parse_entry, parsed) := parse_stage text in
  canonical ← canonicalize_or_panic parsed;
  validated ← translation_check (px_graph ctx) (px_profile ctx);
  let pre := pre_policy_report ctx (stage_entries ctx parse_entry canonical base validated) base in
  let '(decision, audit) := policy_stage ctx pre in
  ordering ← check_anf_ordering (px_graph ctx);
  Some (emit_report ctx canonical pre decision audit ordering).

Definition run (ctx : PipelineContext) : option VerificationReport := run_with_changeset ctx None None.
End Pipeline.

(* ------------------------------------------------------------------ *)
(** ** What an accepted report says of the graph *)

Definition report_accepted (r : VerificationReport) : Prop :=
  ∃ d, vr_policy_decision r = Some d ∧ accepted d = true.

Lemma gate_open_not_failed profile approvals e :
  gate_open (entry_gate profile approvals e) → ve_state e ≠ StFailed.
Proof. unfold entry_gate. intros Ho Hs. by rewrite Hs in Ho. Qed.

Lemma approval_for_approved approvals scope a : approval_for approvals scope = Some a → approved approvals scope.
Proof. intros [? ?]%find_first_Some. by exists a. Qed.

(** A failed entry closes every gate; an unsafe one asks for an approval of its scope. *)
Lemma gate_open_blocks profile approvals e :
  gate_open (entry_gate profile approvals e) → state_blocks (ve_state e) = true → approved approvals (ve_scope e).
Proof.
  intros Ho Hb. destruct (ve_state e) eqn:Es; try done; unfold entry_gate in Ho; rewrite Es in Ho; [|done].
  cbn in Ho. unfold unsafe_gate in Ho. destruct (profile_tier profile); try done;
    destruct (approval_for approvals (ve_scope e)) as [a|] eqn:Ea; try done; by eapply approval_for_approved.
Qed.

Section Accepted.
Context `{HashBackend, Semver, Solver, MapOrder}.
Context (parse_changeset : string → result ParsedChangeSet string).
Context (type_check : SemanticGraph → VerificationReport).
Context (translation_check : SemanticGraph → string → option (list VerificationEntry)).
Context (json_ops : list CanonicalOp → list N).

Abbreviation run_with := (run_with_changeset parse_changeset type_check translation_check json_ops).
Abbreviation entries_of := (stage_entries type_check).

(** Acceptance opens the gate of every profile rule for every entry of stages 1 to 16. *)
Lemma accepted_stages ctx text base report p :
  run_with ctx text base = Some report → report_accepted report → ProfileGate p ∈ px_rules ctx →
  ∃ canonical validated, canonicalize_or_panic (parse_stage parse_changeset text).2 = Some canonical ∧
    translation_check (px_graph ctx) (px_profile ctx) = Some validated ∧
    (∀ e, e ∈ entries_of ctx (parse_stage parse_changeset text).1 canonical base validated →
       gate_open (entry_gate p (px_approvals ctx) e)) ∧
    (is_critical_like p = true → ∀ o, o ∈ run_with_ledger (px_graph ctx) → from_ledger_entry o = None).
Proof.
  unfold run_with_changeset. destruct (parse_stage parse_changeset text) as [pe parsed]. intros Hrun (d & Hd & Ha) Hp.
  apply bind_Some in Hrun as (canonical & Hc & Hrun).
  apply bind_Some in Hrun as (validated & Hv & Hrun). exists canonical, validated. split; [done|]. split; [done|].
  set (pre := pre_policy_report _ _ _ _) in Hrun. destruct (policy_stage ctx pre) as [decision audit] eqn:Ep.
  apply bind_Some in Hrun as (ordering & _ & [= <-]). cbn in Hd. injection Hd as <-.
  unfold policy_stage in Ep. destruct (evaluate_with_audit _) as [d0 a0] eqn:Ev. injection Ep as <- <-.
  apply enforce_accepted_iff in Ha as [Ha _]. assert (d0 = evaluate (MkPolicyInput pre (px_rules ctx)
    (px_approvals ctx) (px_public_api_changes ctx))) as -> by (by injection Ev).
  rewrite evaluate_accepted_iff in Ha. destruct (Ha _ Hp) as [Hg Hsolver]. split.
  - intros e He. apply Hg. exact (proj2 (proj2 (dedupe_spec (entries_of ctx pe canonical base validated)) e) He).
  - intros Hcrit o Ho. apply (omap_nil_iff from_ledger_entry (run_with_ledger (px_graph ctx))); [|done].
    specialize (Hsolver Hcrit). apply elem_of_nil_inv. intros x Hx.
    apply (sort_dedup_elem solver_diagnostic_key) in Hx. change (x ∈ vr_solver_diagnostics pre) in Hx.
    cbn [pi_report] in Hsolver. rewrite Hsolver in Hx. by apply not_elem_of_nil in Hx.
Qed.

Ltac in_stage := unfold stage_entries; rewrite !elem_of_app; tauto.

(** The report of each checker passes through [accepted_stages]. *)
Section Stages.
Context (ctx : PipelineContext) (pe : VerificationEntry) (canonical : option CanonicalChangeSet)
  (base : option SemanticGraph) (validated : list VerificationEntry) (p : string).
Hypothesis Hopen : ∀ e, e ∈ entries_of ctx pe canonical base validated → gate_open (entry_gate p (px_approvals ctx) e).

Lemma stage_not_failed e : e ∈ entries_of ctx pe canonical base validated → ve_state e ≠ StFailed.
Proof. intros He. eapply gate_open_not_failed. by apply Hopen. Qed.

Lemma stage_blocks e :
  e ∈ entries_of ctx pe canonical base validated → state_blocks (ve_state e) = true →
  approved (px_approvals ctx) (ve_scope e).
Proof. intros He. eapply gate_open_blocks. by apply Hopen. Qed.

Lemma stage_graph_valid : validate (px_graph ctx) = Ok tt.
Proof.
  assert (ve_state (lower_core_ir (px_graph ctx)) ≠ StFailed) as Hs.
  { apply stage_not_failed. assert (lower_core_ir (px_graph ctx) ∈ [lower_core_ir (px_graph ctx)]) by left. in_stage. }
  unfold lower_core_ir in Hs. by destruct (validate (px_graph ctx)) as [[]|].
Qed.

Lemma stage_effects n x :
  n ∈ graph_nodes (px_graph ctx) → emits_effect (px_graph ctx) (node_id n) x → x ∈ declared n.
Proof.
  intros Hn Hx. destruct (decide (x ∈ declared n)) as [|Hd]; [done|]. exfalso.
  apply (stage_not_failed (effect_entry (px_graph ctx) n)).
  - assert (effect_entry (px_graph ctx) n ∈ vr_entries (effect_check (px_graph ctx)))
      by (apply effect_check_entries; eauto). in_stage.
  - apply effect_entry_state. eauto.
Qed.

Lemma stage_contracts n c pred :
  n ∈ graph_nodes (px_graph ctx) → node_contract_clauses n = Some c → pred ∈ cc_requires c ++ cc_ensures c →
  trim pred ≠ "false".
Proof.
  intros Hn Hc [Hp|Hp]%elem_of_app Hf;
    [apply (stage_not_failed (clause_result n Requires pred).1)|apply (stage_not_failed (clause_result n Ensures pred).1)];
    rewrite ?clause_state, ?decide_True by done; try done.
  - assert ((clause_result n Requires pred).1 ∈ vr_entries (contract_check (px_graph ctx))).
    { apply contract_check_entries. exists n, Requires, pred. by rewrite Hc. } in_stage.
  - assert ((clause_result n Ensures pred).1 ∈ vr_entries (contract_check (px_graph ctx))).
    { apply contract_check_entries. exists n, Ensures, pred. by rewrite Hc. } in_stage.
Qed.

Lemma stage_concurrency n tm kind :
  n ∈ graph_nodes (px_graph ctx) → node_trust_metadata n = Some tm →
  concurrency_kind (trust_as_str (tm_level tm)) = Some kind →
  concurrency_safe kind (tm_tags tm) ∨ approved (px_approvals ctx) (node_name n).
Proof.
  intros Hn Htm Hk. destruct (concurrency_entry_in _ n tm kind Hn Htm Hk) as (e & He & Hs & Hsc).
  rewrite <- (classify_concurrency_blocks _ _ (node_name n) (node_id n) (px_graph ctx)), <- Hs, <- Hsc.
  destruct (state_blocks (ve_state e)) eqn:E; [right|by left]. apply stage_blocks; [in_stage|done].
Qed.

Lemma stage_resources n tm kind :
  n ∈ graph_nodes (px_graph ctx) → node_trust_metadata n = Some tm →
  resource_kind (trust_as_str (tm_level tm)) = Some kind →
  resource_safe kind (tm_tags tm) (node_id n) (px_graph ctx) ∨ approved (px_approvals ctx) (node_name n).
Proof.
  intros Hn Htm Hk. destruct (resource_entry_in _ n tm kind Hn Htm Hk) as (e & He & Hs & Hsc).
  rewrite <- classify_resource_blocks, <- Hs, <- Hsc.
  destruct (state_blocks (ve_state e)) eqn:E; [right|by left]. apply stage_blocks; [in_stage|done].
Qed.

(** Under [critical] and unknown profiles *)
Hypothesis Hcrit : is_critical_like p = true.

Lemma stage_settled e :
  e ∈ entries_of ctx pe canonical base validated →
  ve_state e ≠ StUnverified ∧ ve_state e ≠ StUnsafe ∧ ve_state e ≠ StFailed.
Proof.
  intros He%Hopen. apply critical_gate_open in He; [|done].
  destruct He as [-> | [-> | [-> _]]]; done.
Qed.

Lemma stage_settled_blocks e : e ∈ entries_of ctx pe canonical base validated → state_blocks (ve_state e) = false.
Proof. intros (_ & Hu & Hf)%stage_settled. by destruct (ve_state e). Qed.

Lemma stage_diff :
  ∃ b, base = Some b ∧ (∀ name, name ∈ node_names b → name ∈ node_names (px_graph ctx)) ∧
    (∀ name, name ∈ node_names b → facts_differ b (px_graph ctx) name = false).
Proof.
  assert (∀ e, e ∈ build_semantic_diff base (px_graph ctx) → ve_state e ≠ StUnverified) as Hd.
  { intros e He. apply stage_settled. in_stage. }
  destruct base as [b|]; [|by destruct (Hd _ (list_elem_of_here _ _))]. exists b. split; [done|].
  assert (∀ e, e ∈ diff_entries b (px_graph ctx) → ve_state e ≠ StUnverified) as He.
  { intros e He. apply Hd. cbn. destruct (diff_entries b (px_graph ctx)); [by apply not_elem_of_nil in He|done]. }
  assert (∀ name, name ∈ node_names b → name ∈ node_names (px_graph ctx)) as Hsub.
  { intros name Hn. destruct (decide (name ∈ node_names (px_graph ctx))) as [|Hx]; [done|]. exfalso.
    eapply He; [unfold diff_entries; rewrite !elem_of_app; right; left;
      apply list_elem_of_fmap_2, set_iter_elem, elem_of_difference; split; [exact Hn|exact Hx]|done]. }
  split; [done|]. intros name Hn. destruct (facts_differ b (px_graph ctx) name) eqn:E; [|done]. exfalso.
  eapply He; [unfold diff_entries; rewrite !elem_of_app; right; right;
    apply list_elem_of_fmap_2, list_elem_of_filter; split; [exact E|];
    apply set_iter_elem, elem_of_intersection; split; [exact Hn|by apply Hsub]|done].
Qed.

Lemma stage_impact b inv :
  base = Some b → inv ∈ graph_nodes (px_graph ctx) → node_kind inv = NkInvariant →
  impact_covered b (px_graph ctx) (node_id inv).
Proof.
  intros Hb Hn Hk. apply invariant_entry_state.
  destruct (invariant_entry_state b (px_graph ctx) inv) as [_ [Hs|Hs]]; [done|]. exfalso.
  assert (invariant_entry b (px_graph ctx) inv ∈ check_invariants base (px_graph ctx)) as Hin
    by (rewrite Hb; by apply invariant_entry_in).
  destruct (stage_settled (invariant_entry b (px_graph ctx) inv)) as [Hu _]; [in_stage|done].
Qed.

Lemma stage_concurrency_strict n tm kind :
  n ∈ graph_nodes (px_graph ctx) → node_trust_metadata n = Some tm →
  concurrency_kind (trust_as_str (tm_level tm)) = Some kind → concurrency_safe kind (tm_tags tm).
Proof.
  intros Hn Htm Hk. apply (classify_concurrency_blocks _ _ (node_name n) (node_id n) (px_graph ctx)).
  destruct (concurrency_entry_in _ n tm kind Hn Htm Hk) as (e & He & <- & _). apply stage_settled_blocks. in_stage.
Qed.

Lemma stage_resources_strict n tm kind :
  n ∈ graph_nodes (px_graph ctx) → node_trust_metadata n = Some tm →
  resource_kind (trust_as_str (tm_level tm)) = Some kind →
  resource_safe kind (tm_tags tm) (node_id n) (px_graph ctx).
Proof.
  intros Hn Htm Hk. apply classify_resource_blocks.
  destruct (resource_entry_in _ n tm kind Hn Htm Hk) as (e & He & <- & _). apply stage_settled_blocks. in_stage.
Qed.

Lemma stage_boundaries n :
  n ∈ graph_nodes (px_graph ctx) → node_kind n = NkBoundary →
  ∃ tm, node_trust_metadata n = Some tm ∧ boundary_sound tm.
Proof.
  intros Hn Hk. destruct (boundary_entry_in _ n Hn Hk) as (e & He & Hs).
  destruct (stage_settled e) as (Hu & Hun & Hf); [in_stage|].
  destruct (node_trust_metadata n) as [tm|]; [|done]. exists tm. split; [done|].
  destruct (classify_declared_sound tm (node_name n)) as [<- [Hp Hr]]. rewrite Hs in *.
  by destruct (classify_declared tm (node_name n)).1.
Qed.
End Stages.

Lemma parse_not_failed t ctx canonical base validated p :
  (∀ e, e ∈ entries_of ctx (parse_stage parse_changeset (Some t)).1 canonical base validated →
     gate_open (entry_gate p (px_approvals ctx) e)) →
  ∃ pcs, parse_changeset t = Ok pcs.
Proof.
  intros Hopen. assert (ve_state (parse_stage parse_changeset (Some t)).1 ≠ StFailed) as Hs.
  { eapply stage_not_failed; [exact Hopen|]. unfold stage_entries. rewrite elem_of_app. left. left. }
  cbn in Hs. destruct (parse_changeset t) as [pcs|]; [by eauto|done].
Qed.

(** An obligation of the ledger that the solver gave up on *)
Definition solver_gave_up (o : ObligationLedgerEntry) : Prop :=
  ∃ a, a ∈ ol_attempts o ∧ oa_stage a = "solver" ∧ oa_outcome a = "unsupported".

Lemma no_diagnostic_no_surrender o : from_ledger_entry o = None → ¬ solver_gave_up o.
Proof.
  unfold from_ledger_entry. destruct (solver_diagnostic_status_from_ledger o) as [st|] eqn:E; [done|].
  intros _ (a & Ha & Hs & Ho). unfold solver_diagnostic_status_from_ledger in E. apply head_None in E.
  assert (attempt_status a = Some SdUnsupported) as Hst.
  { unfold attempt_status. rewrite Ho. reflexivity. }
  apply (not_elem_of_nil SdUnsupported). rewrite <- E. apply list_elem_of_omap. exists a. split; [|done].
  apply list_elem_of_filter. done.
Qed.

Lemma facts_same b g name nb nt :
  facts_differ b g name = false → node_named b name = Some nb → node_named g name = Some nt →
  node_type_facts nt = node_type_facts nb ∧ node_effect_row nt = node_effect_row nb.
Proof.
  unfold facts_differ. intros Hf Hb Ht. rewrite Hb, Ht in Hf. apply bool_decide_eq_false in Hf.
  split; apply dec_stable; intros Hn; apply Hf; [left|right]; congruence.
Qed.

Lemma declared_elem n x : x ∈ declared n → ∃ row, node_effect_row n = Some row ∧ x ∈ er_effects row.
Proof.
  unfold declared. destruct (node_effect_row n) as [row|]; [|by intros ?%elem_of_empty].
  rewrite elem_of_list_to_set. eauto.
Qed.

(** C6: for every run of the pipeline whose rules contain the gate of some profile [p] (a run without a profile gate
    among its rules decides nothing about its entries).  If the report is accepted, then, whatever [p] is: the graph
    has no duplicate id and no dangling edge; every effect that a node emits is in its effect row; no [requires] or
    [ensures] clause is the literal [false]; every node marked as task, task group, shared state or resource keeps
    the discipline of its kind unless an approval names the node; and the submitted text, if any, parsed.  This holds
    for every parser, type checker, translation validator, solver and encoding that the pipeline is run with. *)
Theorem accepted_graph_safe ctx text base report p :
  run_with ctx text base = Some report → report_accepted report → ProfileGate p ∈ px_rules ctx →
  let g := px_graph ctx in
  graph_wf g ∧
  (∀ n x, n ∈ graph_nodes g → emits_effect g (node_id n) x →
     ∃ row, node_effect_row n = Some row ∧ x ∈ er_effects row) ∧
  (∀ n c pred, n ∈ graph_nodes g → node_contract_clauses n = Some c → pred ∈ cc_requires c ++ cc_ensures c →
     trim pred ≠ "false") ∧
  (∀ n tm kind, n ∈ graph_nodes g → node_trust_metadata n = Some tm →
     concurrency_kind (trust_as_str (tm_level tm)) = Some kind →
     concurrency_safe kind (tm_tags tm) ∨ approved (px_approvals ctx) (node_name n)) ∧
  (∀ n tm kind, n ∈ graph_nodes g → node_trust_metadata n = Some tm →
     resource_kind (trust_as_str (tm_level tm)) = Some kind →
     resource_safe kind (tm_tags tm) (node_id n) g ∨ approved (px_approvals ctx) (node_name n)) ∧
  (∀ t, text = Some t → ∃ pcs, parse_changeset t = Ok pcs).
Proof.
  intros Hrun Ha Hp. destruct (accepted_stages _ _ _ _ _ Hrun Ha Hp) as (canonical & validated & _ & _ & Hopen & _).
  split_and!.
  - apply validate_Ok. exact (stage_graph_valid _ _ _ _ _ _ Hopen).
  - intros n x Hn Hx. by eapply declared_elem, stage_effects.
  - exact (stage_contracts _ _ _ _ _ _ Hopen).
  - exact (stage_concurrency _ _ _ _ _ _ Hopen).
  - exact (stage_resources _ _ _ _ _ _ Hopen).
  - intros t ->. by eapply parse_not_failed.
Qed.

(** C7: for every run of the pipeline whose rules contain the gate of [critical] or of a name that is none of [draft],
    [dev], [test], [staging] and [prod].  If the report is accepted, then: a text was submitted and parsed, and a base
    graph was given; the graph has a node of every name of the base, and the nodes first found under a name have the
    same type facts and effect row in both; every invariant reaches along [BreaksIfChanged] edges the changed nodes
    that it is connected to; every concurrency primitive and every resource keeps the discipline of its kind and
    every boundary declares sound trust metadata, and no approval excuses them; and the solver gave up on no
    obligation of the ledger. *)
Theorem critical_acceptance ctx text base report p :
  run_with ctx text base = Some report → report_accepted report → ProfileGate p ∈ px_rules ctx →
  p ∉ ["draft"; "dev"; "test"; "staging"; "prod"] →
  let g := px_graph ctx in
  ∃ t pcs b, text = Some t ∧ parse_changeset t = Ok pcs ∧ base = Some b ∧
    (∀ nb, nb ∈ graph_nodes b → ∃ n, n ∈ graph_nodes g ∧ node_name n = node_name nb) ∧
    (∀ name nb nt, node_named b name = Some nb → node_named g name = Some nt →
       node_type_facts nt = node_type_facts nb ∧ node_effect_row nt = node_effect_row nb) ∧
    (∀ n, n ∈ graph_nodes g → node_kind n = NkInvariant → impact_covered b g (node_id n)) ∧
    (∀ n tm kind, n ∈ graph_nodes g → node_trust_metadata n = Some tm →
       concurrency_kind (trust_as_str (tm_level tm)) = Some kind → concurrency_safe kind (tm_tags tm)) ∧
    (∀ n tm kind, n ∈ graph_nodes g → node_trust_metadata n = Some tm →
       resource_kind (trust_as_str (tm_level tm)) = Some kind → resource_safe kind (tm_tags tm) (node_id n) g) ∧
    (∀ n, n ∈ graph_nodes g → node_kind n = NkBoundary →
       ∃ tm, node_trust_metadata n = Some tm ∧ boundary_sound tm) ∧
    (∀ o, o ∈ run_with_ledger g → ¬ solver_gave_up o).
Proof.
  intros Hrun Ha Hp Hpc. assert (is_critical_like p = true) as Hc.
  { apply critical_beyond; [|done]. rewrite !not_elem_of_cons in *. tauto. }
  destruct (accepted_stages _ _ _ _ _ Hrun Ha Hp) as (canonical & validated & _ & _ & Hopen & Hsolver).
  destruct text as [t|]; [|].
  2:{ destruct (stage_settled _ _ _ _ _ _ Hopen Hc (parse_stage parse_changeset None).1) as [Hu _]; [|done].
      unfold stage_entries. rewrite elem_of_app. left. left. }
  destruct (parse_not_failed _ _ _ _ _ _ Hopen) as [pcs Hpcs].
  destruct (stage_diff _ _ _ _ _ _ Hopen Hc) as (b & Hb & Hsub & Hsame).
  exists t, pcs, b. split_and!; try done.
  - intros nb Hnb. assert (node_name nb ∈ node_names b) as Hin by (by apply elem_of_list_to_set, list_elem_of_fmap_2).
    apply Hsub in Hin. apply elem_of_list_to_set, list_elem_of_fmap in Hin as (n & Hn & Hin). by exists n.
  - intros name nb nt Hnb Hnt. eapply facts_same; [|done..]. apply Hsame.
    apply find_first_Some in Hnb as [Hin <-]. by apply elem_of_list_to_set, list_elem_of_fmap_2.
  - intros n. by apply (stage_impact _ _ _ _ _ _ Hopen Hc b).
  - exact (stage_concurrency_strict _ _ _ _ _ _ Hopen Hc).
  - exact (stage_resources_strict _ _ _ _ _ _ Hopen Hc).
  - exact (stage_boundaries _ _ _ _ _ _ Hopen Hc).
  - intros o Ho. apply no_diagnostic_no_surrender. exact (Hsolver Hc o Ho).
Qed.
End Accepted.

(* ------------------------------------------------------------------ *)
(** ** Samples *)

Module PipelineSample.

#[local] Existing Instance simple_solver.
#[local] Existing Instance test_backend.
#[local] Existing Instance ascending.
Import Versioning.SampleSemver.

Definition parse (text : string) : result ParsedChangeSet string :=
  if decide (text = "noop") then Ok parsed_change_set_default else Err "unexpected end".

Definition node (id : NodeRef) (kind : NodeKind) (name : string) : GraphNode := graph_node_new id kind name.

Definition graph : SemanticGraph :=
  MkSemanticGraph [node 0%N NkInvariant "inv.total"; node 1%N NkModule "mod.bank"]
    [graph_edge_new 1%N 0%N EkBreaksIfChanged].

Definition ctx (profile : string) (g : SemanticGraph) : PipelineContext :=
  MkPipelineContext g [] profile [] [ProfileGate profile] None [] [] [] None.

Definition outcome (profile : string) (g : SemanticGraph) (text : option string) (base : option SemanticGraph)
  : option VerificationReport :=
  run_with_changeset parse (λ _, bare_report [] []) (λ _ _, Some []) (λ _, []) (ctx profile g) text base.

Definition accepts (r : option VerificationReport) : bool :=
  match r ≫= vr_policy_decision with Some d => accepted d | None => false end.

Lemma accepts_report profile g text base :
  accepts (outcome profile g text base) = true →
  ∃ report, outcome profile g text base = Some report ∧ report_accepted report.
Proof.
  unfold accepts, report_accepted. destruct (outcome profile g text base) as [r|]; [|done]. cbn.
  destruct (vr_policy_decision r) as [d|] eqn:E; [|done]. eauto.
Qed.

Lemma accepted_graph_safe_witness : graph_wf graph ∧ ∃ pcs, parse "noop" = Ok pcs.
Proof.
  destruct (accepts_report "dev" graph (Some "noop") (Some graph)) as (report & Hr & Ha);
    [vm_compute; reflexivity|].
  destruct (accepted_graph_safe _ _ _ _ (ctx "dev" graph) (Some "noop") (Some graph) report "dev" Hr Ha)
    as (Hv & _ & _ & _ & _ & Hp); [left|].
  exact (conj Hv (Hp "noop" eq_refl)).
Defined.

Lemma critical_acceptance_witness : impact_covered graph graph 0%N.
Proof.
  destruct (accepts_report "critical" graph (Some "noop") (Some graph)) as (report & Hr & Ha);
    [vm_compute; reflexivity|].
  destruct (critical_acceptance _ _ _ _ (ctx "critical" graph) (Some "noop") (Some graph) report "critical" Hr Ha)
    as (t & pcs & b & _ & _ & [= <-] & _ & _ & Hi & _); [left|apply (bool_decide_unpack _); vm_compute; exact I|].
  apply (Hi (node 0%N NkInvariant "inv.total")); [left|reflexivity].
Defined.

(** The stages after the decision do not reach it: an artifact that differs from the verified one fails, and the
    report is accepted. *)
Example late_failure_accepted :
  (λ r, (summary r, vr_policy_decision r)) <$>
    run_with_changeset parse (λ _, bare_report [] []) (λ _ _, Some []) (λ _, [])
      (MkPipelineContext graph [] "critical" [] [ProfileGate "critical"] None []
         [MkArtifactEntry "wasm" "aa" "bb"] [] None) (Some "noop") (Some graph)
  = Some (StFailed, Some Passed).
Proof. vm_compute. reflexivity. Qed.

(** A text that declares an ACL version without a migration ends the run in a panic. *)
Example unknown_version_panics :
  run_with_changeset (λ _, Ok (set_acl_version "9.9" parsed_change_set_default)) (λ _, bare_report [] []) (λ _ _, Some [])
    (λ _, []) (ctx "dev" graph) (Some "noop") (Some graph) = None.
Proof. vm_compute. reflexivity. Qed.
End PipelineSample.
