(* ===== verification/AclText.v ===== *)
(** * Lines, words and numbers of a text

    The operations of [str] that the ACL parser calls, on UTF-8 byte strings
    with Unicode white space: [lines], [split_whitespace], [splitn],
    [trim_start] and [parse::<u64>]; and what they do to printed text. *)

From stdpp Require Import pretty.
From S2P Require Import Prelude Text Trim I64 VerifySolver VerifyStages.

(* ------------------------------------------------------------------ *)
(** ** Lines and words *)

Abbreviation to_chars := String.list_ascii_of_string.
Abbreviation of_chars := String.string_of_list_ascii.

Definition newline : ascii := "010"%char.
Definition dquote : ascii := "034"%char.

(** [s.strip_suffix('\r').unwrap_or(s)] *)
Fixpoint strip_cr (s : string) : string :=
  match s with
  | EmptyString => EmptyString
  | String c EmptyString => if decide (c = "013"%char) then EmptyString else s
  | String c s' => String c (strip_cr s')
  end.

(** The pieces between the line ends: the last one is not a line when empty. *)
Fixpoint drop_last_empty (l : list string) : list string :=
  match l with
  | [] => []
  | [s] => if decide (s = "") then [] else [s]
  | s :: l' => s :: drop_last_empty l'
  end.

(** [src.lines()] *)
Definition text_lines (src : string) : list string := strip_cr <$> drop_last_empty (split_on newline src).

(** [s.trim_start()] *)
Definition str_trim_start (s : string) : string := of_chars (Trim.trim_start (to_chars s)).

(** The first white space character: what precedes it and what follows it *)
Fixpoint cut_white (l : list ascii) : list ascii * option (list ascii) :=
  match l with
  | [] => ([], None)
  | a :: l1 =>
      let '(w, r) := cut_white l1 in
      let next := (a :: w, r) in
      if space1 a then ([], Some l1)
      else match l1 with
           | b :: l2 =>
               if space2 a b then ([], Some l2)
               else match l2 with
                    | c :: l3 => if space3 a b c then ([], Some l3) else next
                    | [] => next
                    end
           | [] => next
           end
  end.

(** [s.splitn(2, |c| c.is_whitespace())] *)
Definition splitn_white (s : string) : string * option string :=
  let '(w, r) := cut_white (to_chars s) in (of_chars w, of_chars <$> r).

Definition flush_word (cur : list ascii) : list string :=
  match cur with [] => [] | _ => [of_chars (rev cur)] end.

(** [s.split_whitespace()]; [cur] is the word being read, reversed. *)
Fixpoint words_from (cur l : list ascii) : list string :=
  match l with
  | [] => flush_word cur
  | a :: l1 =>
      if space1 a then flush_word cur ++ words_from [] l1
      else match l1 with
           | b :: l2 =>
               if space2 a b then flush_word cur ++ words_from [] l2
               else match l2 with
                    | c :: l3 =>
                        if space3 a b c then flush_word cur ++ words_from [] l3 else words_from (a :: cur) l1
                    | [] => words_from (a :: cur) l1
                    end
           | [] => words_from (a :: cur) l1
           end
  end.
Definition split_whitespace (s : string) : list string := words_from [] (to_chars s).

(** [s.splitn(3, ' ')] *)
Definition splitn3 (s : string) : string * option string * option string :=
  match split_once " " s with
  | None => (s, None, None)
  | Some (a, r) =>
      match split_once " " r with
      | None => (a, Some r, None)
      | Some (b, c) => (a, Some b, Some c)
      end
  end.

(** [s.splitn(2, ' ')], an absent second part read as empty *)
Definition splitn2 (s : string) : string * string := default (s, "") (split_once " " s).

(** [str::parse::<u64>] *)
Definition parse_u64 (s : string) : option Z :=
  n ← parse_digits (match s with String "+" r => r | _ => s end);
  if decide (n < 2 ^ 64)%Z then Some n else None.

(** Lines, each ended but the last *)
Definition lines_text (ls : list string) : string := join (String newline "") ls.

(* ------------------------------------------------------------------ *)
(** ** Characters of a string *)

Lemma to_chars_app (s t : string) : to_chars (s +:+ t) = to_chars s ++ to_chars t.
Proof. induction s as [|c s IH]; [done|]. rewrite append_cons. cbn. by rewrite IH. Qed.

Lemma of_chars_app l k : of_chars (l ++ k) = of_chars l +:+ of_chars k.
Proof. induction l as [|c l IH]; [done|]. cbn. by rewrite IH. Qed.

Lemma of_to_chars s : of_chars (to_chars s) = s.
Proof. apply String.string_of_list_ascii_of_string. Qed.

Lemma to_of_chars l : to_chars (of_chars l) = l.
Proof. apply String.list_ascii_of_string_of_list_ascii. Qed.

Lemma length_chars s : length (to_chars s) = String.length s.
Proof. induction s as [|c s IH]; cbn; [done|]. by rewrite IH. Qed.

Lemma string_all_chars f s : string_all f s = true ↔ Forall (λ c, f c = true) (to_chars s).
Proof.
  induction s as [|c s IH]; cbn; [split; [constructor|done]|]. by rewrite andb_true_iff, Forall_cons, IH.
Qed.

Lemma string_all_app f s t : string_all f (s +:+ t) = string_all f s && string_all f t.
Proof. induction s as [|c s IH]; [done|]. rewrite append_cons. cbn. by rewrite IH, andb_assoc. Qed.

(** The one-byte characters *)
Definition one_byte (c : ascii) : bool := (N_of_ascii c <? 128)%N.

Lemma one_byte_no_lead a b c : one_byte a = true → space2 a b = false ∧ space3 a b c = false.
Proof. by destruct a as [[] [] [] [] [] [] [] []]. Qed.

Lemma graphic_one_byte c : graphic c = true → one_byte c = true.
Proof. by destruct c as [[] [] [] [] [] [] [] []]. Qed.

(* ------------------------------------------------------------------ *)
(** ** Trimming *)

Lemma length_trim_start l : length (Trim.trim_start l) ≤ length l.
Proof.
  remember (length l) as n eqn:En. revert l En. induction n as [n IH] using lt_wf_ind. intros l ->.
  destruct l as [|a l1]; cbn; [done|].
  destruct (space1 a); [etrans; [by apply (IH (length l1)); [cbn; lia|]|lia]|].
  destruct l1 as [|b l2]; [done|].
  destruct (space2 a b); [etrans; [by apply (IH (length l2)); [cbn; lia|]|cbn; lia]|].
  destruct l2 as [|c l3]; [done|].
  destruct (space3 a b c); [etrans; [by apply (IH (length l3)); [cbn; lia|]|cbn; lia]|done].
Qed.

Lemma length_trim_start_rev l : length (trim_start_rev l) ≤ length l.
Proof.
  remember (length l) as n eqn:En. revert l En. induction n as [n IH] using lt_wf_ind. intros l ->.
  destruct l as [|a l1]; cbn; [done|].
  destruct (space1 a); [etrans; [by apply (IH (length l1)); [cbn; lia|]|lia]|].
  destruct l1 as [|b l2]; [done|].
  destruct (space2 b a); [etrans; [by apply (IH (length l2)); [cbn; lia|]|cbn; lia]|].
  destruct l2 as [|c l3]; [done|].
  destruct (space3 c b a); [etrans; [by apply (IH (length l3)); [cbn; lia|]|cbn; lia]|done].
Qed.

Lemma trim_start_graphic a l : graphic a = true → Trim.trim_start (a :: l) = a :: l.
Proof.
  intros Ha. cbn. destruct (graphic_no_space a a a Ha) as (-> & _).
  destruct l as [|b l]; [done|]. destruct (graphic_no_space a b a Ha) as (_ & -> & _).
  destruct l as [|c l]; [done|]. by destruct (graphic_no_space a b c Ha) as (_ & _ & ->).
Qed.

Lemma trim_start_rev_graphic a l : graphic a = true → Forall (λ c, one_byte c = true) l →
  trim_start_rev (a :: l) = a :: l.
Proof.
  intros Ha Hl. cbn. destruct (graphic_no_space a a a Ha) as (-> & _).
  destruct l as [|b l]; [done|]. apply Forall_cons in Hl as [Hb Hl].
  destruct (one_byte_no_lead b a a Hb) as [-> _].
  destruct l as [|c l]; [done|]. apply Forall_cons in Hl as [Hc Hl].
  by destruct (one_byte_no_lead c b a Hc) as [_ ->].
Qed.

(** A reversed text that does not start with white space is not changed by what
    one-byte characters follow it. *)
Lemma trim_start_rev_app l k :
  l ≠ [] → trim_start_rev l = l → Forall (λ c, one_byte c = true) k → trim_start_rev (l ++ k) = l ++ k.
Proof.
  assert (∀ (m : list ascii) x, trim_start_rev m = x :: m → False) as Hgrow.
  { intros m x H. pose proof (length_trim_start_rev m) as Hl. rewrite H in Hl. cbn in Hl. lia. }
  intros Hn Hl Hk. destruct l as [|c l]; [done|]. cbn in Hl |- *.
  destruct (space1 c); [by destruct (Hgrow _ _ Hl)|].
  destruct l as [|b l]; cbn.
  { destruct k as [|b k]; [done|]. apply Forall_cons in Hk as [Hb Hk].
    destruct (one_byte_no_lead b c c Hb) as [-> _]. destruct k as [|a k]; [done|].
    apply Forall_cons in Hk as [Ha Hk]. by destruct (one_byte_no_lead a b c Ha) as [_ ->]. }
  destruct (space2 b c).
  { pose proof (length_trim_start_rev l) as H. rewrite Hl in H. cbn in H. lia. }
  destruct l as [|a l]; cbn.
  { destruct k as [|a k]; [done|]. apply Forall_cons in Hk as [Ha Hk].
    by destruct (one_byte_no_lead a b c Ha) as [_ ->]. }
  destruct (space3 a b c); [|done].
  pose proof (length_trim_start_rev l) as H. rewrite Hl in H. cbn in H. lia.
Qed.

(** A text without white space at its ends *)
Lemma trimmed_iff s :
  trim s = s ↔ Trim.trim_start (to_chars s) = to_chars s ∧ trim_start_rev (rev (to_chars s)) = rev (to_chars s).
Proof.
  split.
  - intros H. assert (rev (trim_start_rev (rev (Trim.trim_start (to_chars s)))) = to_chars s) as H'.
    { rewrite <- H at 2. unfold trim. by rewrite to_of_chars. }
    assert (length (to_chars s) ≤ length (Trim.trim_start (to_chars s))) as Hle.
    { rewrite <- H' at 1. rewrite length_rev. etrans; [apply length_trim_start_rev|]. by rewrite length_rev. }
    assert (∀ l, length l ≤ length (Trim.trim_start l) → Trim.trim_start l = l) as Hs.
    { intros l. destruct l as [|a l1]; cbn; [done|].
      pose proof (length_trim_start l1). destruct (space1 a); [lia|]. destruct l1 as [|b l2]; [done|].
      pose proof (length_trim_start l2). destruct (space2 a b); [cbn; lia|]. destruct l2 as [|c l3]; [done|].
      pose proof (length_trim_start l3). destruct (space3 a b c); [cbn; lia|done]. }
    rewrite Hs in H' by done. split; [by apply Hs|]. by rewrite <- H' at 2; rewrite rev_involutive.
  - intros [H1 H2]. unfold trim. by rewrite H1, H2, rev_involutive, of_to_chars.
Qed.

(** A keyword in front of a trimmed text *)
Lemma trim_keyword a kw s :
  graphic a = true → string_all one_byte kw = true → s ≠ "" → trim s = s →
  trim (String a kw +:+ s) = (String a kw +:+ s).
Proof.
  intros Ha Hk Hs [_ Ht]%trimmed_iff. apply trimmed_iff. rewrite to_chars_app. split.
  - cbn. by apply trim_start_graphic.
  - rewrite rev_app_distr. apply trim_start_rev_app; [|done|].
    + destruct s; [done|]. cbn. intros H%(f_equal length). rewrite length_app in H. cbn in H. lia.
    + apply Forall_rev. cbn. constructor; [by apply graphic_one_byte|]. by apply string_all_chars.
Qed.

(* ------------------------------------------------------------------ *)
(** ** Words *)

(** A word: not empty, printable ASCII without spaces *)
Definition is_word (s : string) : Prop := s ≠ "" ∧ string_all graphic s = true.

(** A text that fills a line: trimmed, not empty, without line ends *)
Definition is_text (s : string) : Prop := s ≠ "" ∧ trim s = s ∧ no_char newline s = true.

Lemma is_word_text s : is_word s → is_text s.
Proof.
  intros [Hs Hg]. split_and!; [done|by apply trim_id|]. unfold no_char. revert Hg. apply string_all_impl.
  intros c Hc. apply bool_decide_eq_true. by intros ->.
Qed.

Lemma word_no_char a s : graphic a = false → string_all graphic s = true → no_char a s = true.
Proof. intros Ha. apply string_all_impl. intros c Hc. apply bool_decide_eq_true. by intros ->; rewrite Ha in Hc. Qed.

Lemma graphic_not_white a l : graphic a = true → cut_white (a :: l) = (a :: (cut_white l).1, (cut_white l).2).
Proof.
  intros Ha. cbn. destruct (cut_white l) as [w r] eqn:E.
  destruct (graphic_no_space a a a Ha) as (-> & _). destruct l as [|b l2]; [done|].
  destruct (graphic_no_space a b a Ha) as (_ & -> & _). destruct l2 as [|c l3]; [done|].
  by destruct (graphic_no_space a b c Ha) as (_ & _ & ->).
Qed.

Lemma cut_white_word l : Forall (λ c, graphic c = true) l →
  cut_white l = (l, None) ∧ ∀ r, cut_white (l ++ " "%char :: r) = (l, Some r).
Proof.
  induction 1 as [|a l Ha Hl [IH1 IH2]].
  - split; [done|]. intros r. cbn. by destruct (cut_white r).
  - split; [by rewrite graphic_not_white, IH1|]. intros r. cbn [app]. by rewrite graphic_not_white, IH2.
Qed.

Lemma splitn_white_word w : string_all graphic w = true →
  splitn_white w = (w, None) ∧ ∀ r, splitn_white (w +:+ String " " r) = (w, Some r).
Proof.
  intros Hw%string_all_chars. destruct (cut_white_word _ Hw) as [H1 H2]. unfold splitn_white. split.
  - rewrite H1. cbn. by rewrite of_to_chars.
  - intros r. rewrite to_chars_app. cbn [String.list_ascii_of_string]. rewrite H2. cbn. by rewrite !of_to_chars.
Qed.

Lemma words_from_word cur l : Forall (λ c, graphic c = true) l → words_from cur l = flush_word (rev l ++ cur).
Proof.
  intros Hl. revert cur. induction Hl as [|a l Ha Hl IH]; intros cur; [done|]. cbn.
  destruct (graphic_no_space a a a Ha) as (-> & _). rewrite IH, <- app_assoc. cbn.
  destruct l as [|b l2]; [done|]. destruct (graphic_no_space a b a Ha) as (_ & -> & _).
  destruct l2 as [|c l3]; [done|]. by destruct (graphic_no_space a b c Ha) as (_ & _ & ->).
Qed.

Lemma split_whitespace_word s : is_word s → split_whitespace s = [s].
Proof.
  intros [Hs Hg%string_all_chars]. unfold split_whitespace. rewrite words_from_word by done.
  rewrite app_nil_r. unfold flush_word.
  destruct (rev (to_chars s)) eqn:E.
  - apply (f_equal (@rev ascii)) in E. rewrite rev_involutive in E. by destruct s.
  - by rewrite <- E, rev_involutive, of_to_chars.
Qed.

Lemma str_trim_start_graphic a s : graphic a = true → str_trim_start (String a s) = String a s.
Proof.
  intros Ha. unfold str_trim_start. cbn [String.list_ascii_of_string]. rewrite trim_start_graphic by done. cbn. by rewrite of_to_chars.
Qed.

Lemma str_trim_start_space s : str_trim_start (String " " s) = str_trim_start s.
Proof. done. Qed.

Lemma length_str_trim_start s : String.length (str_trim_start s) ≤ String.length s.
Proof.
  unfold str_trim_start. rewrite <- length_chars, to_of_chars, <- (length_chars s). apply length_trim_start.
Qed.

Lemma splitn3_two a b : no_char " " a = true → no_char " " b = true →
  splitn3 (a +:+ String " " b) = (a, Some b, None).
Proof.
  intros Ha Hb. unfold splitn3. rewrite (proj2 (split_once_Some _ _ a b)) by done.
  by rewrite (proj2 (split_once_None _ _)).
Qed.

Lemma splitn3_three a b c : no_char " " a = true → no_char " " b = true →
  splitn3 (a +:+ String " " (b +:+ String " " c)) = (a, Some b, Some c).
Proof.
  intros Ha Hb. unfold splitn3. rewrite (proj2 (split_once_Some _ _ a (b +:+ String " " c))) by done.
  by rewrite (proj2 (split_once_Some _ _ b c)).
Qed.

Lemma splitn2_two a b : no_char " " a = true → splitn2 (a +:+ String " " b) = (a, b).
Proof. intros Ha. unfold splitn2. by rewrite (proj2 (split_once_Some _ _ a b)). Qed.

Lemma splitn2_one a : no_char " " a = true → splitn2 a = (a, "").
Proof. intros Ha. unfold splitn2. by rewrite (proj2 (split_once_None _ _)). Qed.

(* ------------------------------------------------------------------ *)
(** ** Lines *)

Lemma split_on_nonempty a s : split_on a s ≠ [].
Proof. destruct s as [|c s]; cbn; [done|]. case_decide; [done|]. by destruct (split_on a s). Qed.

Lemma split_on_app a s t : no_char a s = true →
  split_on a (s +:+ String a t) = s :: split_on a t.
Proof.
  induction s as [|c s IH]; intros Hs.
  - rewrite append_nil. cbn. by rewrite decide_True.
  - apply no_char_cons in Hs as [Hc Hs]. rewrite append_cons. cbn. by rewrite decide_False, IH.
Qed.

Lemma split_on_whole a s : no_char a s = true → split_on a s = [s].
Proof.
  induction s as [|c s IH]; intros Hs; [done|]. apply no_char_cons in Hs as [Hc Hs].
  cbn. by rewrite decide_False, IH.
Qed.

Lemma join_split_on a s : join (String a "") (split_on a s) = s.
Proof.
  induction s as [|c s IH]; [done|]. cbn. case_decide as Hc.
  - subst. destruct (split_on a s) eqn:E; [by destruct (split_on_nonempty a s)|].
    change (join (String a "") ("" :: s0 :: l)) with (String a (join (String a "") (s0 :: l))). by rewrite IH.
  - destruct (split_on a s) as [|w ws] eqn:E; [by destruct (split_on_nonempty a s)|].
    cbn [join] in *. destruct ws as [|w' ws]; [by rewrite <- IH|]. rewrite append_cons. by rewrite <- IH.
Qed.

Lemma split_on_pieces a s : Forall (λ w, no_char a w = true) (split_on a s).
Proof.
  induction s as [|c s IH]; cbn; [by repeat constructor|]. case_decide as Hc; [by constructor|].
  destruct (split_on a s) as [|w ws]; [by repeat constructor; apply no_char_cons|].
  apply Forall_cons in IH as [Hw Hws]. constructor; [by apply no_char_cons|done].
Qed.

Lemma split_on_join a ls : ls ≠ [] → Forall (λ w, no_char a w = true) ls →
  split_on a (join (String a "") ls) = ls.
Proof.
  intros Hn Hl. induction Hl as [|s ls Hs Hl IH]; [done|]. destruct ls as [|t ls].
  - by apply split_on_whole.
  - change (join (String a "") (s :: t :: ls)) with (s +:+ String a (join (String a "") (t :: ls))).
    rewrite split_on_app by done. by rewrite IH.
Qed.

Lemma drop_last_nonempty ls s : s ≠ "" → drop_last_empty (ls ++ [s]) = ls ++ [s].
Proof.
  intros Hs. induction ls as [|t ls IH]; cbn; [by rewrite decide_False|].
  rewrite IH. destruct ls; done.
Qed.

Lemma strip_cr_trimmed s : trim s = s → strip_cr s = s.
Proof.
  intros [_ H]%trimmed_iff. assert (∀ l, to_chars s ≠ l ++ ["013"%char]) as Hl.
  { intros l E. rewrite E, rev_app_distr in H. change (trim_start_rev (rev l) = "013"%char :: rev l) in H. pose proof (length_trim_start_rev (rev l)) as Hle.
    rewrite H in Hle. cbn in Hle. lia. }
  clear H. induction s as [|c s IH]; [done|]. cbn. destruct s as [|d s].
  - case_decide; [|done]. subst. by destruct (Hl []).
  - f_equal. apply IH. intros l E. apply (Hl (c :: l)). cbn in *. by rewrite E.
Qed.

(** The lines of a text made of trimmed lines, of which the last is not blank *)
Lemma text_lines_text ls s :
  Forall (λ w, trim w = w ∧ no_char newline w = true) (ls ++ [s]) → s ≠ "" →
  text_lines (lines_text (ls ++ [s])) = ls ++ [s].
Proof.
  intros Hl Hs. unfold text_lines, lines_text.
  rewrite split_on_join; [|by destruct ls|eapply Forall_impl; [done|naive_solver]].
  rewrite drop_last_nonempty by done. clear Hs. induction Hl as [|w ws [Hw _] _ IH]; [done|]. csimpl.
  by rewrite IH, strip_cr_trimmed.
Qed.

(* ------------------------------------------------------------------ *)
(** ** Numbers *)

Lemma digit_value_pretty n : (n < 10)%N → digit_value (pretty_N_char n) = Some (Z.of_N n).
Proof.
  intros H. assert (n = 0 ∨ n = 1 ∨ n = 2 ∨ n = 3 ∨ n = 4 ∨ n = 5 ∨ n = 6 ∨ n = 7 ∨ n = 8 ∨ n = 9)%N as Hn by lia.
  by destruct Hn as [->|[->|[->|[->|[->|[->|[->|[->|[->| ->]]]]]]]]].
Qed.

Lemma digits_from_pretty n s : digits_from 0 (pretty_N_go n s) = digits_from (Z.of_N n) s.
Proof.
  revert s. induction n as [n IH] using (well_founded_ind N.lt_wf_0). intros s.
  destruct (decide (n = 0)%N) as [->|Hn]; [by rewrite pretty_N_go_0|].
  rewrite pretty_N_go_step by lia. rewrite IH by (apply N.div_lt; lia). cbn [digits_from].
  rewrite digit_value_pretty by (apply N.mod_lt; lia). f_equal.
  rewrite N2Z.inj_div, N2Z.inj_mod. pose proof (Z.div_mod (Z.of_N n) 10). lia.
Qed.

(** The printed form of a number is a word of digits. *)
Definition is_digit (c : ascii) : bool := ((48 <=? N_of_ascii c) && (N_of_ascii c <=? 57))%N.

Lemma pretty_digits (n : N) : string_all is_digit (pretty n) = true ∧ pretty n ≠ "".
Proof.
  assert (∀ n s, string_all is_digit s = true → string_all is_digit (pretty_N_go n s) = true) as Hall.
  { clear n. intros n. induction n as [n IH] using (well_founded_ind N.lt_wf_0). intros s Hs.
    destruct (decide (n = 0)%N) as [->|Hn]; [by rewrite pretty_N_go_0|].
    rewrite pretty_N_go_step by lia. apply IH; [apply N.div_lt; lia|]. cbn. rewrite Hs, andb_true_r.
    assert (n mod 10 < 10)%N as Hd by (apply N.mod_lt; lia).
    assert (∀ m, m < 10 → is_digit (pretty_N_char m) = true)%N as H; [|by apply H].
    clear. intros m Hm.
    assert (m = 0 ∨ m = 1 ∨ m = 2 ∨ m = 3 ∨ m = 4 ∨ m = 5 ∨ m = 6 ∨ m = 7 ∨ m = 8 ∨ m = 9)%N as Hn by lia.
    by destruct Hn as [->|[->|[->|[->|[->|[->|[->|[->|[->| ->]]]]]]]]]. }
  unfold pretty, pretty_N. case_decide as Hn; [done|]. split; [by apply Hall|].
  intros E. pose proof (digits_from_pretty n "") as H. rewrite E in H. cbn in H. injection H. lia.
Qed.

Lemma digit_graphic c : is_digit c = true → graphic c = true.
Proof. by destruct c as [[] [] [] [] [] [] [] []]. Qed.

Lemma pretty_word (n : N) : is_word (pretty n).
Proof.
  destruct (pretty_digits n) as [Hd Hn]. split; [done|]. eapply string_all_impl; [|done]. apply digit_graphic.
Qed.

Lemma parse_digits_pretty (n : N) : parse_digits (pretty n) = Some (Z.of_N n).
Proof.
  unfold parse_digits. rewrite decide_False by apply pretty_digits. unfold pretty, pretty_N.
  case_decide; [by subst|]. by rewrite digits_from_pretty.
Qed.

(** How often a character occurs *)
Fixpoint count_char (a : ascii) (s : string) : nat :=
  match s with
  | EmptyString => 0
  | String c s' => (if decide (c = a) then 1 else 0) + count_char a s'
  end.

Lemma count_char_app a s t : count_char a (s +:+ t) = count_char a s + count_char a t.
Proof. induction s as [|c s IH]; [done|]. rewrite append_cons. cbn [count_char]. rewrite IH. apply Nat.add_assoc. Qed.

Lemma count_char_none a s : no_char a s = true → count_char a s = 0.
Proof.
  induction s as [|c s IH]; [done|]. intros [Hc Hs]%no_char_cons. cbn. rewrite decide_False by done. auto.
Qed.

(** A 64-bit integer in decimal: an optional sign and digits, read back by [parse_i64] *)
Lemma pretty_Z_text z :
  in_i64 z → ∃ sign digits, pretty z = sign +:+ digits ∧ string_all is_digit digits = true ∧ digits ≠ "" ∧
    (sign = "" ∨ sign = "-") ∧ parse_i64 (sign +:+ digits) = Some z.
Proof.
  intros Hz. destruct (decide (z < 0)%Z) as [Hneg|Hpos].
  - exists "-", (pretty (Z.to_N (- z))). destruct (pretty_digits (Z.to_N (- z))) as [Hd Hn]. split_and!; auto.
    + destruct z; done.
    + change (parse_i64 _) with (parse_digits (pretty (Z.to_N (- z))) ≫= λ n, checked (- n)).
      rewrite parse_digits_pretty. cbn [mbind option_bind]. rewrite Z2N.id by lia. unfold checked. rewrite Z.opp_involutive. by rewrite decide_True.
  - exists "", (pretty (Z.to_N z)). destruct (pretty_digits (Z.to_N z)) as [Hd Hn]. split_and!; auto.
    + destruct z; done.
    + rewrite append_nil. destruct (pretty (Z.to_N z)) as [|c s] eqn:E; [done|]. unfold parse_i64.
      assert (parse_digits (String c s) = Some z) as Hp by (rewrite <- E, parse_digits_pretty; by rewrite Z2N.id by lia).
      cbn in Hd. apply andb_true_iff in Hd as [Hd _].
      destruct c as [[] [] [] [] [] [] [] []]; try done; rewrite Hp; cbn; unfold checked; by rewrite decide_True.
Qed.

Lemma pretty_no_sign (n : N) : (match pretty n with String "+" r => r | _ => pretty n end) = pretty n.
Proof.
  destruct (pretty_digits n) as [Hd _]. destruct (pretty n) as [|c s]; [done|]. cbn in Hd.
  by destruct c as [[] [] [] [] [] [] [] []].
Qed.

Lemma parse_u64_pretty (n : N) : (n < 2 ^ 64)%N → parse_u64 (pretty n) = Some (Z.of_N n).
Proof.
  intros Hn. unfold parse_u64. rewrite pretty_no_sign, parse_digits_pretty. cbn [mbind option_bind].
  by rewrite decide_True by lia.
Qed.

Lemma parse_u32_pretty (n : N) : (n < 2 ^ 32)%N → parse_u32 (pretty n) = Some (Z.of_N n).
Proof.
  intros Hn. unfold parse_u32. rewrite pretty_no_sign, parse_digits_pretty. cbn [mbind option_bind].
  by rewrite decide_True by lia.
Qed.

(** What the number parsers accept is in range. *)
Lemma parse_digits_nonneg s n : parse_digits s = Some n → (0 ≤ n)%Z.
Proof.
  assert (∀ acc, (0 ≤ acc)%Z → digits_from acc s = Some n → (0 ≤ n)%Z) as H.
  { induction s as [|c s IH]; cbn; [naive_solver|]. intros acc Hacc. unfold digit_value.
    case_decide; [|done]. apply IH. lia. }
  unfold parse_digits. case_decide; [done|]. by apply H.
Qed.

Lemma parse_u64_range s n : parse_u64 s = Some n → (0 ≤ n < 2 ^ 64)%Z.
Proof.
  unfold parse_u64. intros (m & Hm%parse_digits_nonneg & H)%bind_Some. case_decide; simplify_eq. lia.
Qed.

Lemma parse_u32_range s n : parse_u32 s = Some n → (0 ≤ n < 2 ^ 32)%Z.
Proof.
  unfold parse_u32. intros (m & Hm%parse_digits_nonneg & H)%bind_Some. case_decide; simplify_eq. lia.
Qed.
