(* ===== verification/SolverSound.v ===== *)
(** * What the conservative solver proves

    The solver of ail-verify/src/solver.rs reads its constraints and its goal as
    texts.  Here they are printed from facts about integers, whose meaning does not
    mention the solver, and its verdict is compared with that meaning: [solver_sound].
    Goals are [x >= n] and [x > n]; the other comparisons are decided wrongly (see
    [SolverSample.lower_bound_taken_for_value]), and a predicate such as [Email(x)] is accepted
    for its name. *)

From stdpp Require Import pretty.
From S2P Require Import Prelude Text Trim I64 VerifySolver AclText.

(* ------------------------------------------------------------------ *)
(** ** Facts and goals *)

Inductive Fact : Type :=
| FGe (x : string) (n : Z)
| FGt (x : string) (n : Z)
| FEq (x : string) (n : Z)
| FSum (x y z : string)
| FCopy (x y : string).

Inductive Bound : Type :=
| BGe (x : string) (n : Z)
| BGt (x : string) (n : Z).

Definition comparison_text (x op : string) (n : Z) : string :=
  x +:+ (" " +:+ (op +:+ (" " +:+ pretty n))).

Definition fact_text (f : Fact) : string :=
  match f with
  | FGe x n => comparison_text x ">=" n
  | FGt x n => comparison_text x ">" n
  | FEq x n => comparison_text x "==" n
  | FSum x y z => x +:+ (" = " +:+ (y +:+ (" + " +:+ z)))
  | FCopy x y => x +:+ (" = " +:+ y)
  end.

Definition bound_text (b : Bound) : string :=
  match b with
  | BGe x n => comparison_text x ">=" n
  | BGt x n => comparison_text x ">" n
  end.

(** The meaning: integers, and sums that do not wrap around *)
Definition fact_holds (ρ : string → Z) (f : Fact) : Prop :=
  match f with
  | FGe x n => (n ≤ ρ x)%Z
  | FGt x n => (n < ρ x)%Z
  | FEq x n => ρ x = n
  | FSum x y z => ρ x = (ρ y + ρ z)%Z
  | FCopy x y => ρ x = ρ y
  end.

Definition bound_holds (ρ : string → Z) (b : Bound) : Prop :=
  match b with BGe x n => (n ≤ ρ x)%Z | BGt x n => (n < ρ x)%Z end.

(** A variable: letters, digits, [_] and [.], and not a numeral *)
Definition var_name (x : string) : Prop := is_ident x = true ∧ parse_i64 x = None.

Definition fact_ok (f : Fact) : Prop :=
  match f with
  | FGe x n | FGt x n | FEq x n => var_name x ∧ in_i64 n
  | FSum x y z => var_name x ∧ var_name y ∧ var_name z
  | FCopy x y => var_name x ∧ var_name y
  end.

Definition bound_ok (b : Bound) : Prop :=
  match b with BGe x n | BGt x n => var_name x ∧ in_i64 n end.

(** [i64::MIN] stands for an unknown bound. *)
Definition bound_range (n : Z) : Prop := (i64_MIN < n ≤ i64_MAX)%Z.

(** The lower bounds that the comparisons state *)
Definition stated (facts : list Fact) (x : string) (n : Z) : Prop :=
  bound_range n ∧ (FGe x n ∈ facts ∨ FGt x (n - 1) ∈ facts ∨ FEq x n ∈ facts).

(** The lower bounds that follow from them by one equation *)
Definition derived (facts : list Fact) (x : string) (n : Z) : Prop :=
  bound_range n ∧
  (stated facts x n ∨
   (∃ y z a b, FSum x y z ∈ facts ∧ stated facts y a ∧ stated facts z b ∧ n = (a + b)%Z) ∨
   (∃ y, FCopy x y ∈ facts ∧ stated facts y n)).

(* ------------------------------------------------------------------ *)
(** ** Characters *)

Lemma no_char_app a s t : no_char a (s +:+ t) = no_char a s && no_char a t.
Proof. apply string_all_app. Qed.

(** The characters of variables and of numerals *)
Definition token_char (c : ascii) : bool := is_ident_char c || bool_decide (c = "-"%char).

Definition token (s : string) : Prop := s ≠ "" ∧ string_all token_char s = true.

Lemma token_char_graphic c : token_char c = true → graphic c = true.
Proof. by destruct c as [[] [] [] [] [] [] [] []]. Qed.

Lemma token_no_char a s : token_char a = false → token s → no_char a s = true.
Proof.
  intros Ha [_ Hs]. unfold no_char. revert Hs. apply string_all_impl. intros c Hc.
  apply bool_decide_eq_true. intros ->. congruence.
Qed.

Lemma token_trim s : token s → trim s = s.
Proof.
  intros [_ Hs]. apply trim_id. revert Hs. apply string_all_impl, token_char_graphic.
Qed.

Lemma var_token x : var_name x → token x.
Proof.
  intros [Hx _]. unfold is_ident in Hx. apply andb_true_iff in Hx as [Hx Hn]. split.
  - intros ->. done.
  - revert Hx. apply string_all_impl. intros c Hc. unfold token_char. by rewrite Hc.
Qed.

Lemma digits_token digits : string_all is_digit digits = true → string_all token_char digits = true.
Proof. apply string_all_impl. intros c. by destruct c as [[] [] [] [] [] [] [] []]. Qed.

Lemma pretty_token n : in_i64 n → token (pretty n) ∧ parse_i64 (pretty n) = Some n.
Proof.
  intros (sign & digits & -> & Hd & Hn & Hs & Hp)%pretty_Z_text. split; [|done].
  split; [by destruct Hs as [->| ->]; [rewrite append_nil|]|].
  destruct Hs as [->| ->]; [rewrite append_nil; by apply digits_token|].
  rewrite string_all_app, (digits_token _ Hd). done.
Qed.

(* ------------------------------------------------------------------ *)
(** ** Trimming *)

Lemma trim_start_suffix l : ∃ k, l = k ++ trim_start l.
Proof.
  remember (length l) as n eqn:En. revert l En. induction n as [n IH] using lt_wf_ind. intros l ->.
  destruct l as [|a l1]; [by exists []|]. cbn.
  destruct (space1 a).
  { destruct (IH (length l1)) with (l := l1) as [k Hk]; [cbn; lia|done|]. exists (a :: k). by rewrite Hk at 1. }
  destruct l1 as [|b l2]; [by exists []|]. destruct (space2 a b).
  { destruct (IH (length l2)) with (l := l2) as [k Hk]; [cbn; lia|done|]. exists (a :: b :: k). by rewrite Hk at 1. }
  destruct l2 as [|c l3]; [by exists []|]. destruct (space3 a b c); [|by exists []].
  destruct (IH (length l3)) with (l := l3) as [k Hk]; [cbn; lia|done|].
  exists (a :: b :: c :: k). by rewrite Hk at 1.
Qed.

Lemma trim_start_rev_suffix l : ∃ k, l = k ++ trim_start_rev l.
Proof.
  remember (length l) as n eqn:En. revert l En. induction n as [n IH] using lt_wf_ind. intros l ->.
  destruct l as [|a l1]; [by exists []|]. cbn.
  destruct (space1 a).
  { destruct (IH (length l1)) with (l := l1) as [k Hk]; [cbn; lia|done|]. exists (a :: k). by rewrite Hk at 1. }
  destruct l1 as [|b l2]; [by exists []|]. destruct (space2 b a).
  { destruct (IH (length l2)) with (l := l2) as [k Hk]; [cbn; lia|done|]. exists (a :: b :: k). by rewrite Hk at 1. }
  destruct l2 as [|c l3]; [by exists []|]. destruct (space3 c b a); [|by exists []].
  destruct (IH (length l3)) with (l := l3) as [k Hk]; [cbn; lia|done|].
  exists (a :: b :: c :: k). by rewrite Hk at 1.
Qed.

(** Trimming adds no character. *)
Lemma trim_all (P : ascii → bool) s : string_all P s = true → string_all P (trim s) = true.
Proof.
  rewrite !string_all_chars. unfold trim. rewrite to_of_chars. intros Hs.
  apply List.Forall_rev. destruct (trim_start_suffix (to_chars s)) as [k Hk].
  assert (Forall (λ c, P c = true) (trim_start (to_chars s))) as Ht.
  { rewrite Hk in Hs. by apply Forall_app in Hs as [_ Hs]. }
  apply List.Forall_rev in Ht. destruct (trim_start_rev_suffix (rev (trim_start (to_chars s)))) as [k' Hk'].
  rewrite Hk' in Ht. by apply Forall_app in Ht as [_ Ht].
Qed.

(** A token between two spaces *)
Lemma trim_pad_right s : token s → trim (s +:+ " ") = s.
Proof.
  intros Hs. pose proof (token_trim s Hs) as Ht. destruct Hs as [Hn Hs]. apply trimmed_iff in Ht as [_ Ht].
  unfold trim. rewrite to_chars_app. destruct s as [|a s]; [done|]. cbn in Hs. apply andb_true_iff in Hs as [Ha _].
  cbn [to_chars String.list_ascii_of_string app]. rewrite trim_start_graphic by by apply token_char_graphic.
  rewrite app_comm_cons, rev_app_distr. cbn [rev app trim_start_rev].
  change (space1 " ") with true. cbn iota.
  change (rev (to_chars s) ++ [a]) with (rev (to_chars (String a s))).
  change (a :: to_chars s) with (to_chars (String a s)).
  rewrite Ht, rev_involutive. apply of_to_chars.
Qed.

Lemma trim_pad_left s : trim (" " +:+ s) = trim s.
Proof. done. Qed.

(** A text that starts and ends with tokens *)
Lemma trim_between s mid t :
  token s → string_all one_byte mid = true → token t →
  trim (s +:+ (mid +:+ t)) = (s +:+ (mid +:+ t)).
Proof.
  intros [Hs Ha] Hm Ht. destruct s as [|a s]; [done|]. cbn in Ha. apply andb_true_iff in Ha as [Ha Hall].
  rewrite append_assoc. apply trim_keyword; [by apply token_char_graphic| |apply Ht|by apply token_trim].
  rewrite string_all_app, Hm, andb_true_r. revert Hall. apply string_all_impl.
  intros c Hc. by apply graphic_one_byte, token_char_graphic.
Qed.

(* ------------------------------------------------------------------ *)
(** ** Reading the printed texts *)

Lemma split_text_sound pat s l r : split_text pat s = Some (l, r) → s = (l +:+ (pat +:+ r)).
Proof.
  revert l r. induction s as [|c s IH]; intros l r; cbn [split_text].
  - destruct (strip_prefix pat "") as [rest|] eqn:E; [|done]. intros [= <- <-].
    by apply strip_prefix_Some in E.
  - destruct (strip_prefix pat (String c s)) as [rest|] eqn:E.
    { intros [= <- <-]. by apply strip_prefix_Some in E. }
    destruct (split_text pat s) as [[l' r']|]; [|done]. intros [= <- <-].
    rewrite append_cons. f_equal. by apply IH.
Qed.

(** A pattern with a character that the text does not have is not found. *)
Lemma split_text_absent a pat s : no_char a s = true → no_char a pat = false → split_text pat s = None.
Proof.
  intros Hs Hp. destruct (split_text pat s) as [[l r]|] eqn:E; [|done].
  apply split_text_sound in E as ->. rewrite !no_char_app, Hp in Hs. cbn in Hs.
  by rewrite andb_false_r in Hs.
Qed.

(** The first match is found. *)
Lemma split_text_first a pat l r :
  no_char a l = true → split_text (String a pat) (l +:+ (String a pat +:+ r)) = Some (l, r).
Proof.
  induction l as [|c l IH].
  - intros _. rewrite append_nil. destruct (String a pat +:+ r) eqn:E; cbn [split_text]; rewrite <- E;
      by rewrite (proj2 (strip_prefix_Some (String a pat) _ r) eq_refl).
  - intros [Hc Hl]%no_char_cons. rewrite append_cons. cbn [split_text].
    destruct (strip_prefix (String a pat) _) as [rest|] eqn:E.
    { apply strip_prefix_Some in E. injection E as E _. congruence. }
    by rewrite IH.
Qed.

(** [==] is not found in a text with one [=]. *)
Lemma split_text_single s : count_char "=" s = 1 → split_text "==" s = None.
Proof.
  intros Hc. destruct (split_text "==" s) as [[l r]|] eqn:E; [|done].
  apply split_text_sound in E as ->. rewrite !count_char_app in Hc. cbn [count_char] in Hc. rewrite !decide_True in Hc by done. lia.
Qed.

Lemma var_valid x : var_name x → valid_side x = true ∧ parse_int x = None.
Proof.
  intros Hx. pose proof (token_trim x (var_token x Hx)) as Ht. destruct Hx as [Hi Hp].
  unfold valid_side, parse_int. rewrite Ht, Hi, orb_true_r. by split.
Qed.

Lemma pretty_valid n : in_i64 n → valid_side (pretty n) = true ∧ parse_int (pretty n) = Some n.
Proof.
  intros Hn. destruct (pretty_token n Hn) as [Ht Hp]. unfold valid_side, parse_int.
  rewrite (token_trim _ Ht), Hp. split; [|done]. by rewrite bool_decide_true.
Qed.

Section Comparison.
Context (x : string) (n : Z) (Hx : var_name x) (Hn : in_i64 n).

Lemma comparison_trim op : string_all one_byte op = true → trim (comparison_text x op n) = comparison_text x op n.
Proof.
  intros Hop. unfold comparison_text. rewrite (append_assoc op), (append_assoc " ").
  apply trim_between; [by apply var_token| |by apply pretty_token].
  rewrite !string_all_app, Hop. done.
Qed.

Lemma comparison_no_char a op :
  token_char a = false → a ≠ " "%char → no_char a op = true → no_char a (comparison_text x op n) = true.
Proof.
  intros Ha Hsp Hop. unfold comparison_text. rewrite !no_char_app, Hop.
  rewrite (token_no_char a x), (token_no_char a (pretty n)) by first [done | by apply var_token | by apply pretty_token].
  assert (no_char a " " = true) as ->; [|done]. apply no_char_cons. split; [congruence|done].
Qed.

(** The operator is found where it was printed. *)
Lemma comparison_sides op a rest :
  op_text op = String a rest → token_char a = false → a ≠ " "%char →
  sides_at (comparison_text x (op_text op) n) op = Some (x, op, pretty n).
Proof.
  intros Hop Ha Hsp. unfold sides_at, comparison_text.
  assert (split_text (op_text op) (x +:+ (" " +:+ (op_text op +:+ (" " +:+ pretty n)))) =
          Some (x +:+ " ", " " +:+ pretty n)) as ->.
  { rewrite (append_assoc x). rewrite Hop. apply split_text_first. rewrite no_char_app.
    rewrite token_no_char by first [done | by apply var_token]. apply no_char_cons. split; [congruence|done]. }
  destruct (pretty_token n Hn) as [Ht _]. pose proof (var_token x Hx) as Htx.
  rewrite trim_pad_right, trim_pad_left, token_trim by done.
  rewrite decide_False by (intros [->|E]; [by destruct Htx|by destruct Ht]).
  destruct (var_valid x Hx) as [-> _], (pretty_valid n Hn) as [-> _]. done.
Qed.

Lemma sides_absent a s op : no_char a s = true → no_char a (op_text op) = false → sides_at s op = None.
Proof. intros Hs Hop. unfold sides_at. by rewrite (split_text_absent a). Qed.

Lemma parse_ge : parse_simple_pred (comparison_text x ">=" n) = Some (x, OpGe, pretty n).
Proof.
  unfold parse_simple_pred. rewrite comparison_trim by done. cbn [first_sides].
  change ">=" with (op_text OpGe). by rewrite (comparison_sides OpGe ">" "=").
Qed.

Lemma parse_gt : parse_simple_pred (comparison_text x ">" n) = Some (x, OpGt, pretty n).
Proof.
  unfold parse_simple_pred. rewrite comparison_trim by done. cbn [first_sides].
  rewrite !(sides_absent "=" _ OpGe), !(sides_absent "=" _ OpLe), !(sides_absent "=" _ OpEq),
    !(sides_absent "=" _ OpNe) by first [done | by apply comparison_no_char].
  change ">" with (op_text OpGt). by rewrite (comparison_sides OpGt ">" "").
Qed.

Lemma parse_eq : parse_simple_pred (comparison_text x "==" n) = Some (x, OpEq, pretty n).
Proof.
  unfold parse_simple_pred. rewrite comparison_trim by done. cbn [first_sides].
  rewrite (sides_absent ">" _ OpGe), (sides_absent "<" _ OpLe) by first [done | by apply comparison_no_char].
  change "==" with (op_text OpEq). by rewrite (comparison_sides OpEq "=" "=").
Qed.
End Comparison.

(** Comparisons are no assignments. *)
Lemma ge_no_assignment x n : var_name x → in_i64 n → parse_assignment (comparison_text x ">=" n) = None.
Proof.
  intros Hx Hn. unfold parse_assignment, comparison_text.
  assert (split_once "=" (x +:+ (" " +:+ (">=" +:+ (" " +:+ pretty n)))) = Some (x +:+ " >", " " +:+ pretty n)) as ->.
  { apply split_once_Some. rewrite <- append_assoc. split; [done|].
    rewrite no_char_app, token_no_char by first [done | by apply var_token]. done. }
  assert (last_char (x +:+ " >") = Some ">"%char) as ->; [|done].
  clear. induction x as [|c x IH]; [done|]. rewrite append_cons. cbn [last_char]. rewrite IH.
  by destruct x.
Qed.

Lemma gt_no_assignment x n : var_name x → in_i64 n → parse_assignment (comparison_text x ">" n) = None.
Proof.
  intros Hx Hn. unfold parse_assignment. rewrite (proj2 (split_once_None _ _)); [done|].
  by apply comparison_no_char.
Qed.

Lemma eq_no_assignment x n : var_name x → in_i64 n → parse_assignment (comparison_text x "==" n) = None.
Proof.
  intros Hx Hn. unfold parse_assignment, comparison_text.
  assert (split_once "=" (x +:+ (" " +:+ ("==" +:+ (" " +:+ pretty n)))) =
          Some (x +:+ " ", "= " +:+ pretty n)) as ->.
  { apply split_once_Some. rewrite <- append_assoc. split; [done|].
    rewrite no_char_app, token_no_char by first [done | by apply var_token]. done. }
  cbn. by rewrite orb_true_r.
Qed.

(** An equation is an assignment, and no comparison. *)
Section Equation.
Context (x rhs : string) (Hx : var_name x)
  (Heq : no_char "=" rhs = true) (Hgt : no_char ">" rhs = true) (Hlt : no_char "<" rhs = true)
  (Hne : no_char "!" rhs = true).

Lemma equation_no_char a :
  token_char a = false → a ≠ " "%char → a ≠ "="%char → no_char a rhs = true →
  no_char a (x +:+ (" = " +:+ rhs)) = true.
Proof.
  intros Ha Hs He Hr. rewrite !no_char_app, Hr, (token_no_char a x) by first [done | by apply var_token].
  rewrite !andb_true_r. cbn [andb]. unfold no_char. cbn.
  rewrite !bool_decide_true by congruence. done.
Qed.

Lemma equation_no_pred : trim (x +:+ (" = " +:+ rhs)) = x +:+ (" = " +:+ rhs) →
  parse_simple_pred (x +:+ (" = " +:+ rhs)) = None.
Proof.
  intros Ht. unfold parse_simple_pred. rewrite Ht. cbn [first_sides].
  rewrite (sides_absent ">" _ OpGe), (sides_absent "<" _ OpLe), (sides_absent "!" _ OpNe),
    (sides_absent ">" _ OpGt), (sides_absent "<" _ OpLt) by first [done | by apply equation_no_char].
  unfold sides_at. cbn [op_text]. rewrite split_text_single; [done|].
  rewrite !count_char_app, (count_char_none "=" rhs), (count_char_none "=" x); [done| |done].
  apply token_no_char; [done|by apply var_token].
Qed.

Lemma equation_assignment : parse_assignment (x +:+ (" = " +:+ rhs)) = Some (x, trim rhs).
Proof.
  unfold parse_assignment.
  assert (split_once "=" (x +:+ (" = " +:+ rhs)) = Some (x +:+ " ", " " +:+ rhs)) as ->.
  { apply split_once_Some. rewrite <- append_assoc. split; [done|].
    rewrite no_char_app, token_no_char by first [done | by apply var_token]. done. }
  assert (last_char (x +:+ " ") = Some " "%char) as ->.
  { clear. induction x as [|c s IH]; [done|]. rewrite append_cons. cbn [last_char]. rewrite IH. by destruct s. }
  cbn [first_char]. rewrite bool_decide_false by (rewrite !elem_of_cons, elem_of_nil; naive_solver).
  rewrite append_cons. cbn [first_char]. rewrite bool_decide_false by done. cbn [orb].
  rewrite trim_pad_right by by apply var_token. destruct Hx as [-> _]. done.
Qed.
End Equation.

Lemma sum_text_trim y z : var_name y → var_name z → trim (y +:+ (" + " +:+ z)) = (y +:+ (" + " +:+ z)).
Proof. intros. apply trim_between; [by apply var_token|done|by apply var_token]. Qed.

Lemma sum_split y z : var_name y → var_name z → split_sum (y +:+ (" + " +:+ z)) = Some (y, z).
Proof.
  intros Hy Hz. unfold split_sum.
  assert (split_once "+" (y +:+ (" + " +:+ z)) = Some (y +:+ " ", " " +:+ z)) as ->.
  { apply split_once_Some. rewrite <- append_assoc. split; [done|].
    rewrite no_char_app, token_no_char by first [done | by apply var_token]. done. }
  by rewrite trim_pad_right, trim_pad_left, token_trim by by apply var_token.
Qed.

Lemma sum_no_ident y z : is_ident (y +:+ (" + " +:+ z)) = false.
Proof. unfold is_ident. rewrite !string_all_app. cbn. by rewrite andb_false_r. Qed.

Lemma sum_no_char a y z :
  var_name y → var_name z → token_char a = false → a ≠ " "%char → a ≠ "+"%char →
  no_char a (y +:+ (" + " +:+ z)) = true.
Proof.
  intros Hy Hz Ha Hs Hp. rewrite !no_char_app, !(token_no_char a y), !(token_no_char a z)
    by first [done | by apply var_token].
  rewrite andb_true_r. cbn [andb]. unfold no_char. cbn. rewrite !bool_decide_true by congruence. done.
Qed.

Lemma var_no_sum y : var_name y → split_sum y = None.
Proof.
  intros Hy. unfold split_sum. rewrite (proj2 (split_once_None _ _)); [done|].
  apply token_no_char; [done|by apply var_token].
Qed.

(** Both passes read the printed facts as they are meant. *)
Lemma sum_reads x y z :
  var_name x → var_name y → var_name z →
  trim (fact_text (FSum x y z)) = fact_text (FSum x y z) ∧
  parse_simple_pred (fact_text (FSum x y z)) = None ∧
  parse_assignment (fact_text (FSum x y z)) = Some (x, y +:+ (" + " +:+ z)).
Proof.
  intros Hx Hy Hz. cbn [fact_text].
  assert (trim (x +:+ (" = " +:+ (y +:+ (" + " +:+ z)))) = x +:+ (" = " +:+ (y +:+ (" + " +:+ z)))) as Ht.
  { rewrite (append_assoc y), (append_assoc " = ").
    apply trim_between; [by apply var_token| |by apply var_token].
    rewrite !string_all_app. assert (string_all one_byte y = true) as ->; [|done].
    destruct (var_token y Hy) as [_ Hc]. revert Hc.
    apply string_all_impl. intros c Hc. by apply graphic_one_byte, token_char_graphic. }
  split_and!; [done|apply equation_no_pred; [done|by apply sum_no_char..|done]|].
  rewrite equation_assignment by done. by rewrite sum_text_trim.
Qed.

Lemma copy_reads x y :
  var_name x → var_name y →
  trim (fact_text (FCopy x y)) = fact_text (FCopy x y) ∧
  parse_simple_pred (fact_text (FCopy x y)) = None ∧
  parse_assignment (fact_text (FCopy x y)) = Some (x, y).
Proof.
  intros Hx Hy. pose proof (var_token y Hy) as Hty. cbn [fact_text].
  assert (trim (x +:+ (" = " +:+ y)) = x +:+ (" = " +:+ y)) as Ht
    by (apply trim_between; [by apply var_token|done|done]).
  split_and!; [done|apply equation_no_pred; [done|by apply token_no_char..|done]|].
  rewrite equation_assignment by done. by rewrite token_trim.
Qed.

Lemma side_var ρ x : var_name x → side_value ρ x = ρ x.
Proof. intros [_ Hx]%var_valid. unfold side_value. by rewrite Hx. Qed.

Lemma side_int ρ n : in_i64 n → side_value ρ (pretty n) = n.
Proof. intros [_ Hn]%pretty_valid. unfold side_value. by rewrite Hn. Qed.

Lemma comparison_constraint ρ x op n t :
  var_name x → in_i64 n → string_all one_byte t = true →
  parse_simple_pred (comparison_text x t n) = Some (x, op, pretty n) →
  parse_assignment (comparison_text x t n) = None →
  compare_ints op (ρ x) n = true → constraint_holds ρ (comparison_text x t n).
Proof.
  intros Hx Hn Hop Hp Ha Hc. unfold constraint_holds. rewrite comparison_trim by done. split; [|by rewrite Ha].
  intros _. exists x, op, (pretty n). split; [done|]. unfold compares. by rewrite side_var, side_int.
Qed.

Lemma fact_constraint ρ f : fact_ok f → fact_holds ρ f → constraint_holds ρ (fact_text f).
Proof.
  destruct f as [x n|x n|x n|x y z|x y]; cbn [fact_ok fact_holds].
  - intros [Hx Hn] H. apply (comparison_constraint ρ x OpGe); try done;
      [by apply parse_ge|by apply ge_no_assignment|by apply bool_decide_eq_true].
  - intros [Hx Hn] H. apply (comparison_constraint ρ x OpGt); try done;
      [by apply parse_gt|by apply gt_no_assignment|by apply bool_decide_eq_true].
  - intros [Hx Hn] H. apply (comparison_constraint ρ x OpEq); try done;
      [by apply parse_eq|by apply eq_no_assignment|by apply bool_decide_eq_true].
  - intros (Hx & Hy & Hz) H. destruct (sum_reads x y z Hx Hy Hz) as (Ht & Hp & Ha).
    unfold constraint_holds. rewrite Ht, Hp, Ha. split; [by intros [? ?]|].
    intros lhs rhs v [= <- <-] [(a & b & Hs & ->)|[Hi _]]; [|by rewrite sum_no_ident in Hi].
    rewrite sum_split in Hs by done. injection Hs as <- <-. by rewrite !side_var.
  - intros (Hx & Hy) H. destruct (copy_reads x y Hx Hy) as (Ht & Hp & Ha).
    unfold constraint_holds. rewrite Ht, Hp, Ha. split; [by intros [? ?]|].
    intros lhs rhs v [= <- <-] [(a & b & Hs & _)|[_ ->]]; [by rewrite var_no_sum in Hs|]. by rewrite !side_var.
Qed.

(* ------------------------------------------------------------------ *)
(** ** Soundness *)

Lemma applies_name_paren p name : no_char "(" p = true → applies_name p name = false.
Proof.
  intros Hp. unfold applies_name. destruct (strip_prefix name p) as [rest|] eqn:E; [|done].
  apply strip_prefix_Some in E as ->. rewrite no_char_app in Hp. apply andb_true_iff in Hp as [_ Hr].
  destruct (strip_prefix "(" (trim rest)) as [r|] eqn:E; [|done].
  apply strip_prefix_Some in E. apply (trim_all _ rest) in Hr. rewrite E in Hr. done.
Qed.

Section Goal.
Context (x : string) (n : Z) (Hx : var_name x) (Hn : in_i64 n).

Lemma comparison_not_named t :
  no_char "(" t = true → string_all one_byte t = true → ¬ accepted_by_name (comparison_text x t n).
Proof.
  intros Ht Hb. assert (no_char "(" (comparison_text x t n) = true) as Hp by (by apply comparison_no_char).
  assert (∀ names, existsb (applies_name (trim (comparison_text x t n))) names = false) as Hnone.
  { intros names. rewrite comparison_trim by done. induction names as [|name names IH]; [done|].
    cbn. by rewrite applies_name_paren, IH. }
  intros [H|[H|H]].
  - assert (no_char " " (comparison_text x t n) = true) as Hsp by by rewrite H.
    unfold comparison_text in Hsp. rewrite !no_char_app in Hsp. cbn in Hsp.
    by rewrite andb_false_r in Hsp.
  - unfold is_known_refinement_pattern in H. by rewrite Hnone in H.
  - unfold is_domain_obligation_pattern in H. by rewrite Hnone in H.
Qed.
End Goal.

Lemma bound_reads b :
  bound_ok b →
  ∃ x op n, parse_simple_pred (bound_text b) = Some (x, op, pretty n) ∧ trim (bound_text b) = bound_text b ∧
    ¬ accepted_by_name (bound_text b) ∧ var_name x ∧ in_i64 n ∧ (op = OpGe ∨ op = OpGt) ∧
    ∀ ρ, compare_ints op (ρ x) n = true ↔ bound_holds ρ b.
Proof.
  destruct b as [x n|x n]; intros [Hx Hn]; cbn [bound_text].
  - exists x, OpGe, n. split_and!; auto using parse_ge; [by apply comparison_trim|by apply comparison_not_named|].
    intros ρ. apply bool_decide_eq_true.
  - exists x, OpGt, n. split_and!; auto using parse_gt; [by apply comparison_trim|by apply comparison_not_named|].
    intros ρ. apply bool_decide_eq_true.
Qed.

Lemma bound_sound facts b role scope ρ :
  Forall fact_ok facts → bound_ok b →
  simple_solve_with_constraints (MkProofObligation (bound_text b) role scope) (fact_text <$> facts) =
    OutcomeProven →
  Forall (fact_holds ρ) facts → bound_holds ρ b.
Proof.
  intros Hok Hb Hp Hf. destruct (bound_reads b Hb) as (x & op & n & Hparse & Ht & Hname & Hx & Hn & Hop & Hiff).
  apply solver_verdict in Hp. cbn [ob_predicate] in Hp. rewrite Ht in Hp.
  destruct Hp as [?|[Hp|(y & o & r & l & m & Hp & _ & _ & Ho & _)]]; [done| |].
  - destruct (Hp ρ) as (lhs & o & rhs & Hp' & Hc).
    { apply Forall_fmap. rewrite Forall_forall in Hok, Hf |- *. intros f Hin. apply fact_constraint; auto. }
    rewrite Hparse in Hp'. injection Hp' as <- <- <-. apply Hiff.
    unfold compares in Hc. by rewrite side_var, side_int in Hc.
  - exfalso. rewrite Hparse in Hp. injection Hp as <- <- <-.
    rewrite !elem_of_cons, elem_of_nil in Ho. destruct Hop; naive_solver.
Qed.

(* ------------------------------------------------------------------ *)
(** ** Completeness for derived bounds *)

Definition at_least (lb : FactDb) (x : string) (n : Z) : Prop := ∃ w, lb !! x = Some w ∧ (n ≤ w)%Z.

Lemma raise_at_least lb x b : at_least (raise_bound x b lb) x b.
Proof. unfold at_least, raise_bound. rewrite lookup_insert_eq. eexists. split; [done|lia]. Qed.

Lemma raise_keeps lb x b y n : at_least lb y n → at_least (raise_bound x b lb) y n.
Proof.
  intros (w & Hw & Hn). unfold at_least, raise_bound. destruct (decide (x = y)) as [->|Hxy].
  - rewrite lookup_insert_eq, Hw. cbn. eexists. split; [done|lia].
  - rewrite lookup_insert_ne by done. eauto.
Qed.

Lemma at_least_known lb x n :
  at_least lb x n → (i64_MIN < n)%Z → ∃ w, known_bound lb x = Some w ∧ (n ≤ w)%Z.
Proof.
  intros (w & Hw & Hn) Hlt. exists w. split; [|done]. unfold known_bound. rewrite Hw.
  by rewrite decide_False by lia.
Qed.

(** What the first pass does with a printed fact *)
Lemma bound_fact_text lb f :
  fact_ok f →
  bound_fact lb (fact_text f) =
  match f with
  | FGe x n => raise_bound x n lb
  | FGt x n => raise_bound x (saturating_add n 1) lb
  | FEq x n => <[x := n]> lb
  | _ => lb
  end.
Proof.
  unfold bound_fact. destruct f as [x n|x n|x n|x y z|x y]; cbn [fact_ok fact_text].
  1-3: intros [Hx Hn]; rewrite comparison_trim, ?parse_ge, ?parse_gt, ?parse_eq by done;
    destruct (var_valid x Hx) as [_ ->], (pretty_valid n Hn) as [_ ->]; done.
  - intros (Hx & Hy & Hz). destruct (sum_reads x y z Hx Hy Hz) as (Ht & Hp & _). cbn [fact_text] in Ht, Hp.
    by rewrite Ht, Hp.
  - intros (Hx & Hy). destruct (copy_reads x y Hx Hy) as (Ht & Hp & _). cbn [fact_text] in Ht, Hp. by rewrite Ht, Hp.
Qed.

Lemma stated_holds ρ facts x n : Forall (fact_holds ρ) facts → stated facts x n → (n ≤ ρ x)%Z.
Proof.
  rewrite Forall_forall. intros Hf [_ [H|[H|H]]]; apply Hf in H; cbn in H; lia.
Qed.

Section Complete.
Context (facts : list Fact) (ρ : string → Z).
Context (Hok : Forall fact_ok facts) (Hρ : Forall (fact_holds ρ) facts).

Lemma first_pass_keeps lb f x n :
  f ∈ facts → (n ≤ ρ x)%Z → at_least lb x n → at_least (bound_fact lb (fact_text f)) x n.
Proof.
  rewrite Forall_forall in Hok, Hρ. intros Hf Hx Hl. rewrite bound_fact_text by auto.
  specialize (Hρ f Hf). destruct f as [y m|y m|y m|y z w|y z]; auto using raise_keeps.
  destruct (decide (y = x)) as [->|Hne]; unfold at_least in *.
  - rewrite lookup_insert_eq. eexists. split; [done|]. cbn in Hρ. lia.
  - by rewrite lookup_insert_ne.
Qed.

Lemma first_pass_states lb f x n :
  f ∈ facts → stated [f] x n → at_least (bound_fact lb (fact_text f)) x n.
Proof.
  rewrite Forall_forall in Hok. intros Hf [Hr Hs]. rewrite bound_fact_text by auto.
  rewrite !list_elem_of_singleton in Hs. unfold bound_range in Hr. destruct Hs as [<-|[<-|<-]].
  - apply raise_at_least.
  - unfold saturating_add, saturating. replace (i64_MIN `max` _)%Z with n; [apply raise_at_least|lia].
  - unfold at_least. rewrite lookup_insert_eq. eauto with lia.
Qed.

Lemma first_pass x n : stated facts x n → at_least (foldl bound_fact ∅ (fact_text <$> facts)) x n.
Proof.
  intros Hs. pose proof (stated_holds ρ _ _ _ Hρ Hs) as Hx.
  assert (∀ l lb, (∀ f, f ∈ l → f ∈ facts) → at_least lb x n ∨ stated l x n →
            at_least (foldl bound_fact lb (fact_text <$> l)) x n) as Hgen; [|by apply Hgen; auto].
  clear Hs. induction l as [|f l IH]; intros lb Hl Hor; cbn.
  { destruct Hor as [|[_ Hs]]; [done|]. rewrite !elem_of_nil in Hs. tauto. }
  assert (f ∈ facts) as Hf by (apply Hl; left). apply IH; [intros; apply Hl; by right|].
  destruct Hor as [Hor|[Hr Hs]]; [left; by apply first_pass_keeps|].
  assert (stated [f] x n ∨ stated l x n) as [Hfs|Hls]; [|left; by apply first_pass_states|by right].
  unfold stated. rewrite !elem_of_cons in Hs. rewrite !list_elem_of_singleton. tauto.
Qed.

(** What the second pass does with a printed fact *)
Lemma assignment_fact_text lb f :
  fact_ok f →
  assignment_fact lb (fact_text f) =
  match f with
  | FSum x y z =>
      match known_bound lb y, known_bound lb z with
      | Some a, Some b => raise_bound x (saturating_add a b) lb
      | _, _ => lb
      end
  | FCopy x y => match known_bound lb y with Some a => raise_bound x a lb | None => lb end
  | _ => lb
  end.
Proof.
  clear. unfold assignment_fact. destruct f as [x n|x n|x n|x y z|x y]; cbn [fact_ok fact_text].
  1-3: intros [Hx Hn]; rewrite comparison_trim, ?ge_no_assignment, ?gt_no_assignment, ?eq_no_assignment by done; done.
  - intros (Hx & Hy & Hz). destruct (sum_reads x y z Hx Hy Hz) as (Ht & _ & Ha). cbn [fact_text] in Ht, Ha.
    rewrite Ht, Ha. unfold expr_bound. rewrite sum_split, sum_no_ident by done.
    destruct (known_bound lb y); [|done]. by destruct (known_bound lb z).
  - intros (Hx & Hy). destruct (copy_reads x y Hx Hy) as (Ht & _ & Ha). cbn [fact_text] in Ht, Ha.
    rewrite Ht, Ha. unfold expr_bound. rewrite var_no_sum by done. destruct Hy as [-> _].
    by destruct (known_bound lb y).
Qed.

Lemma second_pass_keeps lb f x n : fact_ok f → at_least lb x n → at_least (assignment_fact lb (fact_text f)) x n.
Proof.
  intros Hf Hl. rewrite assignment_fact_text by done.
  destruct f; repeat case_match; auto using raise_keeps.
Qed.

(** The bound that an equation gives, once those of its right-hand side are known *)
Lemma second_pass_derives lb x n f :
  f ∈ facts → bound_range n → (∀ y a, stated facts y a → at_least lb y a) →
  (∃ y z a b, FSum x y z = f ∧ stated facts y a ∧ stated facts z b ∧ n = (a + b)%Z) ∨
  (∃ y, FCopy x y = f ∧ stated facts y n) →
  at_least (assignment_fact lb (fact_text f)) x n.
Proof.
  rewrite Forall_forall in Hok. intros Hf Hn Hlb. rewrite assignment_fact_text by auto. unfold bound_range in Hn.
  intros [(y & z & a & b & <- & Ha & Hb & ->)|(y & <- & Ha)].
  - pose proof (Hlb _ _ Ha) as Hya. pose proof (Hlb _ _ Hb) as Hzb.
    destruct Ha as [[Ha _] _], Hb as [[Hb _] _].
    apply at_least_known in Hya as (v & -> & Hv); [|done]. apply at_least_known in Hzb as (w & -> & Hw); [|done].
    destruct (raise_at_least lb x (saturating_add v w)) as (u & Hu & Hle). exists u. split; [done|].
    unfold saturating_add, saturating in Hle. lia.
  - pose proof (Hlb _ _ Ha) as Hya. destruct Ha as [[Ha _] _].
    apply at_least_known in Hya as (v & -> & Hv); [|done].
    destruct (raise_at_least lb x v) as (u & Hu & Hle). exists u. split; [done|lia].
Qed.

Lemma second_pass x n : derived facts x n → at_least (from_constraints (fact_text <$> facts)) x n.
Proof.
  intros [Hr Hd]. unfold from_constraints.
  assert (∀ l lb, (∀ f, f ∈ l → f ∈ facts) → (∀ y a, stated facts y a → at_least lb y a) →
            (at_least lb x n ∨ ∃ f, f ∈ l ∧
               ((∃ y z a b, FSum x y z = f ∧ stated facts y a ∧ stated facts z b ∧ n = (a + b)%Z) ∨
                (∃ y, FCopy x y = f ∧ stated facts y n))) →
            at_least (foldl assignment_fact lb (fact_text <$> l)) x n) as Hgen.
  { induction l as [|f l IH]; intros lb Hl Hlb Hor; cbn.
    { destruct Hor as [|(f & Hin%not_elem_of_nil & _)]; done. }
    assert (f ∈ facts) as Hf by (apply Hl; left).
    assert (fact_ok f) as Hfo by (rewrite Forall_forall in Hok; auto).
    apply IH; [intros; apply Hl; by right|intros; apply second_pass_keeps; auto|].
    destruct Hor as [Hor|(g & [->|Hg]%elem_of_cons & Hor)]; [left; by apply second_pass_keeps| |right; by exists g].
    left. by apply second_pass_derives. }
  apply Hgen; [done|apply first_pass|].
  destruct Hd as [Hs|[(y & z & a & b & Hf & Hs)|(y & Hf & Hs)]]; [left; by apply first_pass|right; eexists..].
  - split; [done|left]. exists y, z, a, b. naive_solver.
  - split; [done|right]. by exists y.
Qed.
End Complete.

Lemma bound_complete facts b role scope x n ρ :
  Forall fact_ok facts → Forall (fact_holds ρ) facts → bound_ok b → derived facts x n →
  (∃ m, b = BGe x m ∧ (m ≤ n)%Z) ∨ (∃ m, b = BGt x m ∧ (m < n)%Z) →
  simple_solve_with_constraints (MkProofObligation (bound_text b) role scope) (fact_text <$> facts) =
    OutcomeProven.
Proof.
  intros Hok Hρ Hb Hd Hor. unfold simple_solve_with_constraints.
  assert (facts ≠ []) as Hne.
  { intros ->. destruct Hd as [_ [[_ Hs]|[(? & ? & ? & ? & Hs & _)|(? & Hs & _)]]]; set_solver. }
  case_decide as Hc; [destruct Hc as [|Hc%fmap_nil_inv]; done|]. cbn [ob_predicate].
  pose proof (second_pass facts ρ Hok Hρ x n Hd) as Hl. destruct Hd as [[Hmin _] _].
  apply at_least_known in Hl as (w & Hw & Hnw); [|done].
  assert (prove_pred (from_constraints (fact_text <$> facts)) (trim (bound_text b)) = Some true) as ->; [|done].
  destruct Hor as [(m & -> & Hm)|(m & -> & Hm)]; destruct Hb as [Hx Hmi]; cbn [bound_text];
    rewrite comparison_trim by done; unfold prove_pred; rewrite ?parse_ge, ?parse_gt by done;
    destruct (var_valid x Hx) as [_ ->], (pretty_valid m Hmi) as [_ ->]; unfold lower_bound; rewrite Hw;
    cbn; by rewrite bool_decide_true by lia.
Qed.

(** C35: the conservative solver on lower bounds.  Take facts about integer variables,
    [x >= n], [x > n], [x == n], [x = y + z] and [x = y], with 64-bit literals and
    variables that are identifiers and not numerals, printed as constraints; and a goal
    [x >= n] or [x > n].  Soundness: if the solver answers [Proven], the goal holds under
    every valuation in which all the facts hold (sums are sums of integers, without
    wrap-around).  Completeness for one step: if the facts hold under some valuation, and
    state a lower bound of [x], or bounds of [y] and [z] (or [y]) with [x = y + z] (or
    [x = y]), all strictly above [i64::MIN] and at most [i64::MAX], then the goals that this
    bound implies are [Proven], in whatever order the facts are listed.  Nothing is claimed
    of the goals with [<=], [<], [==] or [!=], nor of predicates accepted by name. *)
Theorem solver_sound (facts : list Fact) (b : Bound) (role : ClauseRole) (scope : string)
    (Hfacts : Forall fact_ok facts) (Hb : bound_ok b) :
  let proven := simple_solve_with_constraints (MkProofObligation (bound_text b) role scope)
                  (fact_text <$> facts) = OutcomeProven in
  (proven → ∀ ρ, Forall (fact_holds ρ) facts → bound_holds ρ b) ∧
  (∀ x n, (∃ ρ, Forall (fact_holds ρ) facts) → derived facts x n →
     (∃ m, b = BGe x m ∧ (m ≤ n)%Z) ∨ (∃ m, b = BGt x m ∧ (m < n)%Z) → proven).
Proof.
  split.
  - intros Hp ρ. by eapply bound_sound.
  - intros x n [ρ Hρ] Hd Hor. by eapply bound_complete.
Qed.

(** [x >= 1], [z == 3] and [y = x + z] prove [y > 3], in every valuation and by the
    solver, and not [y > 4], which fails for [x = 1]. *)
Lemma solver_sound_witness :
  let facts := [FSum "y" "x" "z"; FGe "x" 1; FEq "z" 3] in
  simple_solve_with_constraints (MkProofObligation "y > 3" Ensures "fn.f")
    ["y = x + z"; "x >= 1"; "z == 3"] = OutcomeProven ∧
  (∀ ρ, Forall (fact_holds ρ) facts → (3 < ρ "y")%Z) ∧
  simple_solve_with_constraints (MkProofObligation "y > 4" Ensures "fn.f")
    ["y = x + z"; "x >= 1"; "z == 3"] = OutcomeUnsupported.
Proof.
  intros facts.
  assert (Forall fact_ok facts) as Hf.
  { repeat constructor; vm_compute; reflexivity || discriminate. }
  assert (bound_ok (BGt "y" 3)) as Hb by (repeat constructor; vm_compute; reflexivity || discriminate).
  destruct (solver_sound facts (BGt "y" 3) Ensures "fn.f" Hf Hb) as [Hs Hc].
  assert (simple_solve_with_constraints (MkProofObligation "y > 3" Ensures "fn.f")
    ["y = x + z"; "x >= 1"; "z == 3"] = OutcomeProven) as Hp.
  { apply (Hc "y" 4%Z).
    - exists (λ v, if decide (v = "y") then 4%Z else if decide (v = "z") then 3%Z else 1%Z).
      repeat constructor; vm_compute; reflexivity || discriminate.
    - split; [split; vm_compute; (reflexivity || discriminate)|]. right. left. exists "x", "z", 1%Z, 3%Z.
      split_and!; [left|..|done]; (split; [split; vm_compute; (reflexivity || discriminate)|]).
      + left. right. left.
      + right. right. right. right. left.
    - right. by exists 3%Z. }
  split_and!; [exact Hp|exact (Hs Hp)|vm_compute; reflexivity].
Defined.
