(* ===== verification/VerifyTypes.v ===== *)
(** * The type checker

    ail-verify/src/type_checker/ with its subpasses in type_obligations.rs and
    type_refinements/: nominal presence, calls, variance, structural and Dyn
    calls, coherence, constraints, generics, effects and capabilities across
    calls, refinements, boundaries, absence and float policies.  A subpass turns
    the nodes or the call edges of the graph into entries, in graph order;
    [type_check] appends them.  [infer_expr_type] follows nested [if]s; its fuel
    is the length of the expression.  Alphanumeric characters are those of
    ASCII. *)

From stdpp Require Import pretty gmap.
From S2P Require Import Prelude Text Anf Trim Ordering GraphTypes SemanticGraph VerifySolver VerifyReport VerifyCheckers VerifyStages AclText.

(* ------------------------------------------------------------------ *)
(** ** Text *)

(** [format!], as the list of its pieces *)
Definition fmt (pieces : list string) : string := foldr String.append "" pieces.

(** [s.trim_end()] *)
Definition str_trim_end (s : string) : string := of_chars (rev (trim_start_rev (rev (to_chars s)))).

Fixpoint drop_char (c : ascii) (l : list ascii) : list ascii :=
  match l with a :: l' => if decide (a = c) then drop_char c l' else l | [] => [] end.

(** [s.trim_end_matches(c)] *)
Definition trim_end_matches (c : ascii) (s : string) : string := of_chars (rev (drop_char c (rev (to_chars s)))).

(** [s.contains(c)] *)
Definition has_char (c : ascii) (s : string) : bool := negb (no_char c s).

(** ["Base<Inner>"] as the pair of its parts *)
Definition split_generic (ty : string) : string * string :=
  match split_once "<" ty with
  | Some (base, inner) => (str_trim_end base, trim (trim_end_matches ">" inner))
  | None => (ty, "")
  end.

Definition dyn_interface (ty : string) : option string :=
  rest ← strip_prefix "Dyn<" ty;
  inner ← strip_last ">" rest;
  if decide (trim inner = "") then None else Some (trim inner).

Definition structural_fields (ty : string) : option (list string) :=
  rest ← strip_prefix "struct{" ty;
  body ← strip_last "}" rest;
  match filter (λ f, f ≠ "") (trim <$> split_on "," body) with
  | [] => None
  | fields => Some fields
  end.

Definition is_simple_identifier (name : string) : bool := is_segment name.

Definition is_const_param_value (ty : string) : bool :=
  if decide (ty = "") then false
  else string_all is_digit ty || is_simple_identifier ty.

Definition split_assoc_type (ty : string) : string * string := default (ty, "") (split_text "::" ty).

(* ------------------------------------------------------------------ *)
(** ** The context *)

Record TypeContext : Type := MkTypeContext {
  by_ref : gmap NodeRef GraphNode;
  by_name : gmap string NodeRef;
}.

(** The last node of an id, and of a name, wins. *)
Definition collect (g : SemanticGraph) : TypeContext :=
  MkTypeContext (foldl (λ m n, <[node_id n := n]> m) ∅ (graph_nodes g))
    (foldl (λ m n, <[node_name n := node_id n]> m) ∅ (graph_nodes g)).

Definition get_by_name (ctx : TypeContext) (name : string) : option GraphNode :=
  id ← by_name ctx !! name; by_ref ctx !! id.

(** The call edges with their callee *)
Definition calls (g : SemanticGraph) : list (GraphEdge * GraphNode) :=
  omap (λ e, if decide (edge_kind e = EkCalls)
             then callee ← by_ref (collect g) !! edge_target e; Some (e, callee) else None) (graph_edges g).

(** The arguments of a call beside the parameters of its callee: [zip] stops at
    the shorter list. *)
Definition call_params (e : GraphEdge) (callee : GraphNode) : list (string * ParamDecl) :=
  match edge_call_args e, node_params callee with
  | Some args, Some params => zip args params
  | _, _ => []
  end.

Definition call_scope (e : GraphEdge) (callee : GraphNode) : string :=
  fmt [pretty (edge_source e : N); "→"; node_name callee].
Definition arg_scope (e : GraphEdge) (callee : GraphNode) (i : nat) : string :=
  fmt [call_scope e callee; "["; pretty i; "]"].

Definition pass (claim scope : string) : VerificationEntry := MkVerificationEntry claim StProven scope None false [].
Definition failure (claim scope evidence : string) : VerificationEntry :=
  MkVerificationEntry claim StFailed scope (Some evidence) true [].
Definition open_entry (claim scope evidence : string) : VerificationEntry :=
  MkVerificationEntry claim StUnverified scope (Some evidence) false [].

(* ------------------------------------------------------------------ *)
(** ** type_obligations.rs *)

Definition classify_nominal_presence (n : GraphNode) : VerificationEntry :=
  match node_type_facts n with
  | None => MkVerificationEntry "type-check" StUnverified (node_name n) None false []
  | Some tf =>
      if decide (tf_nominal tf = "") then MkVerificationEntry "type-check" StUnverified (node_name n) None false []
      else if any (λ x, x = "") (tf_generics tf) then
        failure "type-check" (node_name n) "E_GENERIC_ARITY: generic parameter name is empty"
      else MkVerificationEntry "type-check" StProven (node_name n) None true []
  end.

(** Subpass 1 *)
Definition check_nominal_presence (g : SemanticGraph) : list VerificationEntry :=
  classify_nominal_presence <$> filter (λ n, node_kind n = NkFunction ∨ node_kind n = NkType) (graph_nodes g).

(** Subpass 2 *)
Definition nominal_call (e : GraphEdge) (callee : GraphNode) (i : nat) (a : string * ParamDecl) : VerificationEntry :=
  if decide (a.1 = pd_ty a.2) then pass "nominal-call" (arg_scope e callee i)
  else failure "nominal-call" (arg_scope e callee i)
         (fmt ["E_NOMINAL_MISMATCH: expected '"; pd_ty a.2; "', got '"; a.1; "' at param '"; pd_name a.2; "' of '";
               node_name callee; "'"]).

Definition check_nominal_calls (g : SemanticGraph) : list VerificationEntry :=
  calls g ≫= λ '(e, callee), imap (nominal_call e callee) (call_params e callee).

(** Subpass 4 *)
Definition variance_violated (a : string * ParamDecl) : bool :=
  has_char "<" a.1 && has_char "<" (pd_ty a.2)
  && bool_decide ((split_generic a.1).1 = (split_generic (pd_ty a.2)).1)
  && bool_decide ((split_generic a.1).2 ≠ (split_generic (pd_ty a.2)).2).

Definition variance_call (e : GraphEdge) (callee : GraphNode) (i : nat) (a : string * ParamDecl)
  : list VerificationEntry :=
  if variance_violated a then
    [failure "variance" (arg_scope e callee i)
       (fmt ["E_VARIANCE_COERCION: implicit coercion from '"; a.1; "' to '"; pd_ty a.2;
             "' violates invariance; use an explicit adapter/constraint instead"])]
  else [].

Definition check_variance (g : SemanticGraph) : list VerificationEntry :=
  calls g ≫= λ '(e, callee), concat (imap (variance_call e callee) (call_params e callee)).

(** Subpass 4b *)
Definition structural_type_satisfies (ctx : TypeContext) (arg_ty : string) (required : list string) : bool :=
  match structural_fields arg_ty with
  | Some actual => bool_decide (Forall (λ f, f ∈ actual) required)
  | None =>
      match get_by_name ctx arg_ty ≫= node_constraint_set with
      | Some cs =>
          bool_decide (Forall (λ f, Exists (λ x, x = f ∨ strip_prefix "field:" x = Some f) (cs_extras cs)) required)
      | None => false
      end
  end.

Definition implements (ctx : TypeContext) (ty interface : string) : bool :=
  match get_by_name ctx ty ≫= node_interface_impls with
  | Some impls => any (λ i, iim_interface i = interface) impls
  | None => false
  end.

Definition structural_call (ctx : TypeContext) (e : GraphEdge) (callee : GraphNode) (i : nat) (a : string * ParamDecl)
  : list VerificationEntry :=
  let scope := arg_scope e callee i in
  let ty := pd_ty a.2 in
  (match structural_fields ty with
   | Some required =>
       if structural_type_satisfies ctx a.1 required then [pass "structural-type" scope]
       else [failure "structural-type" scope
               (fmt ["E_STRUCTURAL_TYPE_MISMATCH: argument type '"; a.1;
                     "' does not satisfy structural requirement '"; ty; "'"])]
   | None => []
   end) ++
  (match dyn_interface ty with
   | Some interface =>
       if implements ctx a.1 interface then [pass "dyn-interface" scope]
       else [failure "dyn-interface" scope
               (fmt ["E_DYN_INTERFACE_UNAVAILABLE: argument type '"; a.1; "' has no impl for Dyn<"; interface; ">"])]
   | None => []
   end).

Definition check_structural_and_dyn_calls (g : SemanticGraph) : list VerificationEntry :=
  calls g ≫= λ '(e, callee), concat (imap (structural_call (collect g) e callee) (call_params e callee)).

(** Subpass 5 *)
Definition assoc_failures (n : GraphNode) (im : InterfaceImplMeta) (at_ : AssociatedTypeBinding)
  : list VerificationEntry :=
  (if decide (atb_name at_ = "") then
     [failure "coherence" (node_name n)
        (fmt ["E_ASSOC_TYPE_MISMATCH: associated type binding has empty name in impl of '"; iim_interface im;
              "' on '"; node_name n; "'"])]
   else []) ++
  (if decide (atb_ty at_ = "") then
     [failure "coherence" (node_name n)
        (fmt ["E_ASSOC_TYPE_EMPTY_BINDING: associated type binding '"; atb_name at_;
              "' has no concrete type in impl of '"; iim_interface im; "' on '"; node_name n;
              "'; associated types must be explicit in the IR"])]
   else []).

(** The loop over the implementations of a node, with the index at which each
    interface was seen first *)
Fixpoint coherence_from (n : GraphNode) (idx : nat) (seen : gmap string nat) (impls : list InterfaceImplMeta)
  : list VerificationEntry :=
  match impls with
  | [] => []
  | im :: impls' =>
      (iim_associated_types im ≫= assoc_failures n im) ++
      (if iim_is_adapter im then coherence_from n (S idx) seen impls'
       else match seen !! iim_interface im with
            | Some first_idx =>
                failure "coherence" (node_name n)
                  (fmt ["E_COHERENCE_DUPLICATE: duplicate non-adapter implementation #"; pretty idx; " of '";
                        iim_interface im; "' on '"; node_name n; "' (first at #"; pretty first_idx;
                        "); ambiguous impl must fail deterministically"])
                :: coherence_from n (S idx) seen impls'
            | None => coherence_from n (S idx) (<[iim_interface im := idx]> seen) impls'
            end)
  end.

Definition check_interface_coherence (g : SemanticGraph) : list VerificationEntry :=
  graph_nodes g ≫= λ n, coherence_from n 0 ∅ (default [] (node_interface_impls n)).

(** Subpass 6 *)
Definition COLLECTION_CONSTRAINTS : list (string * (bool * bool * bool)) :=
  [("Set", (true, true, false)); ("Map", (true, true, false));
   ("OrderedSet", (true, false, true)); ("OrderedMap", (true, false, true))].

Definition missing_constraints (cs : option ConstraintSet) (ty : string) (needs : bool * bool * bool) : list string :=
  let '(needs_eq, needs_hash, needs_ord) := needs in
  let lacks (need : bool) (has : ConstraintSet → bool) := need && negb (from_option has false cs) in
  (if lacks needs_eq cs_has_eq then [fmt ["E_MISSING_EQ: type '"; ty; "' requires Eq constraint"]] else [])
  ++ (if lacks needs_hash cs_has_hash then [fmt ["E_MISSING_HASH: type '"; ty; "' requires Hashable constraint"]] else [])
  ++ (if lacks needs_ord cs_has_ord then [fmt ["E_MISSING_ORD: type '"; ty; "' requires Ord constraint"]] else []).

(** [emit_constraint_check_for_scope] *)
Definition constraint_entry (ctx : TypeContext) (type_name scope : string) (needs : bool * bool * bool)
  : list VerificationEntry :=
  match get_by_name ctx type_name with
  | None => []
  | Some n =>
      match missing_constraints (node_constraint_set n) type_name needs with
      | [] => [pass "constraint-check" scope]
      | parts => [failure "constraint-check" scope (join "; " parts)]
      end
  end.

Definition collection_constraint (ctx : TypeContext) (n : GraphNode) : list VerificationEntry :=
  match node_type_facts n with
  | Some (MkTypeFacts nominal (type_arg :: _)) =>
      match find_first (λ row : string * _, row.1 = nominal) COLLECTION_CONSTRAINTS with
      | Some (_, needs) => constraint_entry ctx type_arg (fmt [node_name n; "<"; type_arg; ">"]) needs
      | None => []
      end
  | _ => []
  end.

Definition binding_scope (e : GraphEdge) (callee : GraphNode) (b : TypeArgBinding) : string :=
  fmt [call_scope e callee; "["; tab_param b; "="; tab_ty b; "]"].

Definition needed (cs : list WhereConstraint) : bool * bool * bool :=
  (any (λ c, wc_interface c = "Eq") cs, any (λ c, wc_interface c = "Hashable") cs, any (λ c, wc_interface c = "Ord") cs).

(** The type arguments of a call beside the generic parameters of its callee *)
Definition call_bindings (e : GraphEdge) (callee : GraphNode) : option (list TypeArgBinding * list GenericParamDecl) :=
  bs ← edge_type_arg_bindings e; ps ← node_generic_params callee; Some (bs, ps).

Definition binding_constraint (ctx : TypeContext) (e : GraphEdge) (callee : GraphNode) (params : list GenericParamDecl)
    (b : TypeArgBinding) : list VerificationEntry :=
  match find_first (λ p, gpd_name p = tab_param b) params with
  | Some gp =>
      if decide (gpd_required_constraints gp = []) then []
      else constraint_entry ctx (tab_ty b) (binding_scope e callee b) (needed (gpd_required_constraints gp))
  | None => []
  end.

Definition check_constraints (g : SemanticGraph) : list VerificationEntry :=
  (graph_nodes g ≫= collection_constraint (collect g)) ++
  (calls g ≫= λ '(e, callee),
     match call_bindings e callee with
     | Some (bs, ps) => bs ≫= binding_constraint (collect g) e callee ps
     | None => []
     end).

(** Subpass 17 *)
Definition own_impls (n : GraphNode) : list InterfaceImplMeta :=
  filter (λ im, iim_is_adapter im = false) (default [] (node_interface_impls n)).

(** The names of the implementing nodes by interface, in graph order *)
Definition impl_map (g : SemanticGraph) : gmap string (list string) :=
  foldl (λ m p, <[p.1 := default [] (m !! p.1) ++ [p.2]]> m) ∅
    (graph_nodes g ≫= λ n, (λ im, (iim_interface im, node_name n)) <$> own_impls n).

Definition blanket_entry (p : string * list string) : list VerificationEntry :=
  if decide (1 < length p.2) then
    [failure "blanket-impl-coherence" (join "," p.2)
       (fmt ["E_BLANKET_IMPL_OVERLAP: interface '"; p.1; "' has overlapping non-adapter impls on nodes ";
             debug_list (debug_text <$> p.2); "; blanket impl coherence violation"])]
  else [].

Definition interface_owned (ctx : TypeContext) (interface : string) : bool :=
  match get_by_name ctx interface with
  | Some n => bool_decide (node_kind n = NkInterface ∨ node_kind n = NkType)
  | None => false
  end.

Definition orphan_entry (ctx : TypeContext) (n : GraphNode) (im : InterfaceImplMeta) : list VerificationEntry :=
  if interface_owned ctx (iim_interface im) then []
  else [failure "orphan-rule" (node_name n)
          (fmt ["E_ORPHAN_RULE_VIOLATION: node '"; node_name n; "' implements interface '"; iim_interface im;
                "' (is_adapter=false) but neither an Interface nor a Type node named '"; iim_interface im;
                "' exists in the graph; orphan rule requires the interface or type to be declared locally"])].

Definition check_blanket_impl_coherence (g : SemanticGraph) : list VerificationEntry :=
  (map_iter (impl_map g) ≫= blanket_entry) ++
  (graph_nodes g ≫= λ n, own_impls n ≫= orphan_entry (collect g) n).

(* ------------------------------------------------------------------ *)
(** ** type_refinements/ *)

(** Subpass 3 *)
Definition effects_of (n : GraphNode) : list string := from_option er_effects [] (node_effect_row n).
Definition caps_of (n : GraphNode) : list string := from_option cr_caps [] (node_capability_reqs n).

(** The evidence against a generic parameter of a node *)
Definition generic_param_issue (n : GraphNode) (gp : GenericParamDecl) : option string :=
  match gpd_kind gp with
  | GpEffectParam =>
      if decide (gpd_name gp ∈ effects_of n) then None
      else Some (fmt ["E_EFFECT_PARAM_WIDENED: EffectParam '"; gpd_name gp; "' not found in effect_row of '"; node_name n;
                      "'; effect precision would be silently widened"])
  | GpCapabilityParam =>
      if decide (gpd_name gp ∈ caps_of n) then None
      else Some (fmt ["E_CAPABILITY_PARAM_WIDENED: CapabilityParam '"; gpd_name gp;
                      "' not found in capability_reqs of '"; node_name n;
                      "'; capability precision would be silently widened"])
  | GpTypeParam => None
  | GpConstParam =>
      if is_simple_identifier (gpd_name gp) then None
      else Some (fmt ["E_CONST_PARAM_UNDECIDABLE: ConstParam '"; gpd_name gp;
                      "' contains a complex expression; only simple decidable identifiers are permitted"])
  end.

Definition generic_param_entry (n : GraphNode) (gp : GenericParamDecl) : VerificationEntry :=
  let scope := fmt [node_name n; "::"; gpd_name gp] in
  if decide (gpd_name gp = "") then
    failure "generic-param-kind" scope
      (fmt ["E_GENERIC_ARITY: generic parameter name is empty on node '"; node_name n; "'"])
  else
    let issue := generic_param_issue n gp in
    MkVerificationEntry "generic-param-kind" (match issue with Some _ => StFailed | None => StProven end) scope issue
      false [].

Definition check_generic_params (g : SemanticGraph) : list VerificationEntry :=
  graph_nodes g ≫= λ n, generic_param_entry n <$> default [] (node_generic_params n).

(** Subpass 3b *)
Definition is_const_binding (ps : list GenericParamDecl) (b : TypeArgBinding) : bool :=
  any (λ p, gpd_name p = tab_param b ∧ gpd_kind p = GpConstParam) ps.

Definition declared_type_params (ps : list GenericParamDecl) : list string :=
  gpd_name <$> filter (λ p, gpd_kind p = GpTypeParam) ps.

Definition generic_binding_entry (e : GraphEdge) (callee : GraphNode) (bs : list TypeArgBinding)
    (ps : list GenericParamDecl) : list VerificationEntry :=
  let declared := declared_type_params ps in
  let type_bindings := filter (λ b, is_const_binding ps b = false) bs in
  let scope := call_scope e callee in
  match find_first (λ b, tab_param b ∉ declared) type_bindings with
  | Some b =>
      [failure "generic-call-binding" scope
         (fmt ["E_GENERIC_BINDING_ARITY: call binds unknown generic '"; tab_param b; "' on '"; node_name callee; "'"])]
  | None =>
      if decide (length type_bindings ≠ length declared) then
        [failure "generic-call-binding" scope
           (fmt ["E_GENERIC_BINDING_ARITY: '"; node_name callee; "' expects "; pretty (length declared);
                 " type generic bindings, got "; pretty (length type_bindings)])]
      else if decide (type_bindings = []) then [] else [pass "generic-call-binding" scope]
  end.

Definition check_generic_call_bindings (g : SemanticGraph) : list VerificationEntry :=
  calls g ≫= λ '(e, callee),
    match call_bindings e callee with Some (bs, ps) => generic_binding_entry e callee bs ps | None => [] end.

(** Subpass 15 *)
Definition const_binding_entry (e : GraphEdge) (callee : GraphNode) (ps : list GenericParamDecl) (b : TypeArgBinding)
  : list VerificationEntry :=
  if is_const_binding ps b then
    if is_const_param_value (tab_ty b) then [pass "const-param-value" (binding_scope e callee b)]
    else [failure "const-param-value" (binding_scope e callee b)
            (fmt ["E_CONST_PARAM_VALUE_INVALID: ConstParam '"; tab_param b; "' on '"; node_name callee; "' bound to '";
                  tab_ty b;
                  "' which is not a decidable literal; only numeric strings or simple identifiers are permitted"])]
  else [].

Definition check_const_param_call_bindings (g : SemanticGraph) : list VerificationEntry :=
  calls g ≫= λ '(e, callee),
    match call_bindings e callee with Some (bs, ps) => bs ≫= const_binding_entry e callee ps | None => [] end.

(** Subpasses 3c and 18: the calls between known nodes *)
Definition known_calls (g : SemanticGraph) : list (GraphEdge * GraphNode * GraphNode) :=
  omap (λ '(e, callee), caller ← by_ref (collect g) !! edge_source e; Some (e, caller, callee)) (calls g).

Definition type_effect_evidence (code category reason kind : string) (count : nat) : string :=
  fmt [code; ": category="; category; "; type-category=effect; reason="; reason; "; count="; pretty count;
       "; descriptors=["; join ", " (redacted_descriptors kind count); "]"].

(** What is missing, as a set of names *)
Definition missing_names (need have : list string) : gset string := list_to_set need ∖ list_to_set have.

Definition propagation_entry (claim code category reason kind : string) (scope : string) (need have : list string)
  : list VerificationEntry :=
  let missing := missing_names need have in
  if decide (missing ≠ ∅) then [failure claim scope (type_effect_evidence code category reason kind (size missing))]
  else if decide (need ≠ []) then [pass claim scope] else [].

Definition pair_scope (caller callee : GraphNode) : string := fmt [node_name caller; "→"; node_name callee].

Definition call_propagation (c : GraphEdge * GraphNode * GraphNode) : list VerificationEntry :=
  let '(_, caller, callee) := c in
  (match node_effect_row callee with
   | Some row =>
       propagation_entry "effect-propagation" "E_EFFECT_NOT_PROPAGATED" "effect.missing"
         "callee effect(s) missing from caller effect_row" "effect" (pair_scope caller callee) (er_effects row)
         (effects_of caller)
   | None => []
   end) ++
  (match node_capability_reqs callee with
   | Some reqs =>
       propagation_entry "capability-propagation" "E_CAPABILITY_NOT_PROPAGATED" "capability.missing"
         "callee capability requirement(s) missing from caller capability_reqs" "capability" (pair_scope caller callee)
         (cr_caps reqs) (caps_of caller)
   | None => []
   end).

Definition threading_entry (claim code category reason kind : string) (scope : string) (need have : list string)
  : VerificationEntry :=
  let missing := missing_names need have in
  if decide (missing = ∅) then pass claim scope
  else failure claim scope (type_effect_evidence code category reason kind (size missing)).

Definition call_threading (c : GraphEdge * GraphNode * GraphNode) : list VerificationEntry :=
  let '(e, caller, callee) := c in
  (match edge_effect_arg_bindings e with
   | Some bs =>
       [threading_entry "effect-param-threading" "E_EFFECT_PARAM_NOT_THREADED" "effect.missing"
          "call-site EffectParam binding references effect(s) absent from caller effect_row" "effect"
          (pair_scope caller callee) (bs ≫= eab_effects) (effects_of caller)]
   | None => []
   end) ++
  (match edge_capability_arg_bindings e with
   | Some bs =>
       [threading_entry "capability-param-threading" "E_CAPABILITY_PARAM_NOT_THREADED" "capability.missing"
          "call-site CapabilityParam binding references capability requirement(s) absent from caller capability_reqs"
          "capability" (pair_scope caller callee) (bs ≫= cab_caps) (caps_of caller)]
   | None => []
   end).

Definition effect_claim_rank (claim : string) : N :=
  (if decide (claim = "effect-propagation") then 0
   else if decide (claim = "capability-propagation") then 1
   else if decide (claim = "effect-param-threading") then 2
   else if decide (claim = "capability-param-threading") then 3 else 9)%N.

Definition type_effect_key (e : VerificationEntry) : N * string * N * option string * list string :=
  (effect_claim_rank (ve_claim e), ve_scope e, verification_state_rank (ve_state e), ve_evidence e, ve_repair_options e).

Definition check_effect_capability_propagation (g : SemanticGraph) : list VerificationEntry :=
  sort_dedup type_effect_key (known_calls g ≫= call_propagation).
Definition check_effect_capability_param_threading (g : SemanticGraph) : list VerificationEntry :=
  sort_dedup type_effect_key (known_calls g ≫= call_threading).

(** Subpass 7 *)
Definition status_state (s : RefinementStatus) : VerificationState :=
  match s with
  | RsProven => StProven | RsRuntimeChecked => StRuntimeChecked | RsAssumed => StAssumed
  | RsUnverified => StUnverified | RsFailed => StFailed
  end.

(** [node.contract_clauses ... any(|p| p.trim() == predicate.trim())] *)
Definition ensured (n : GraphNode) (pred : string) : bool :=
  match node_contract_clauses n with
  | Some c => any (λ p, trim p = trim pred) (cc_ensures c)
  | None => false
  end.

Definition refinement_outcome (n : GraphNode) (rf : RefinementRef) : VerificationState * string :=
  let pred := rr_predicate rf in
  let plain := (status_state (rr_status rf), fmt ["predicate: '"; pred; "'; base: '"; rr_base_type rf; "'"]) in
  match rr_status rf with
  | RsProven =>
      if decide (trim pred = "true") then plain
      else if decide (trim pred = "false" ∨ trim pred = "") then
        (StFailed, fmt ["E_REFINEMENT_PROOF_UNDISCHARGED: proven refinement '"; pred; "' cannot be discharged locally"])
      else if ensured n pred then plain
      else (StUnverified, fmt ["E_REFINEMENT_PROOF_UNDISCHARGED: refinement '"; pred;
                               "' has no matching ensures clause or literal proof"])
  | RsRuntimeChecked =>
      match node_runtime_checks n with
      | Some (_ :: _) => plain
      | _ => (StFailed, fmt ["E_REFINEMENT_RUNTIME_CHECK_MISSING: runtime-checked refinement '"; pred;
                             "' has no materialized runtime check"])
      end
  | _ => plain
  end.

Definition refinement_entries (n : GraphNode) : list VerificationEntry :=
  match node_refinement_ref n with
  | None => []
  | Some rf =>
      let '(state, evidence) := refinement_outcome n rf in
      MkVerificationEntry "refinement" state (node_name n) (Some evidence) false [] ::
      (if rr_erased rf then
         [MkVerificationEntry "refinement-erasure" StAssumed (node_name n)
            (Some (fmt ["E_REFINEMENT_ERASURE: refinement '"; rr_predicate rf; "' erased to base type '"; rr_base_type rf;
                        "'; erasure is explicit and tracked"])) false []]
       else [])
  end.

Definition check_type_refinements (g : SemanticGraph) : list VerificationEntry := graph_nodes g ≫= refinement_entries.

(** The characters before the first parenthesis or white space *)
Fixpoint callee_chars (l : list ascii) : list ascii :=
  match l with
  | [] => []
  | a :: l1 =>
      let next := a :: callee_chars l1 in
      if decide (a = "("%char) then []
      else if space1 a then []
      else match l1 with
           | b :: l2 =>
               if space2 a b then []
               else match l2 with c :: _ => if space3 a b c then [] else next | [] => next end
           | [] => next
           end
  end.

Definition call_return (ctx : TypeContext) (body : string) : option string :=
  let callee_name := trim (of_chars (callee_chars (to_chars body))) in
  if decide (callee_name = "") then None else get_by_name ctx callee_name ≫= node_return_type.

(** The else branch of an if-expression *)
Definition else_branch (body : string) : option string :=
  parts ← split_text "else" body;
  let after_else := trim parts.2 in
  Some (match strip_prefix "{" after_else with
        | Some s => from_option trim after_else (strip_last "}" s)
        | None => after_else
        end).

Fixpoint infer_expr_type (fuel : nat) (ctx : TypeContext) (body : string) : option string :=
  match fuel with
  | O => None
  | S fuel' =>
      if decide (is_Some (parse_i64 body)) then Some "Int"
      else if decide (body = "true" ∨ body = "false") then Some "Bool"
      else
        let by_else :=
          if starts_with "if " body || starts_with "if(" body
          then else_branch body ≫= infer_expr_type fuel' ctx else None in
        match by_else with
        | Some ty => Some ty
        | None => call_return ctx body
        end
  end.

Definition infer_local_types (g : SemanticGraph) : gmap NodeRef string :=
  foldl (λ m n,
      if decide (node_kind n = NkFunction ∧ node_return_type n = None) then
        match body ← node_body_expr n; infer_expr_type (S (String.length (trim body))) (collect g) (trim body) with
        | Some ty => <[node_id n := ty]> m
        | None => m
        end
      else m) ∅ (graph_nodes g).

(** Subpass 8 *)
Definition materialization_entry (inferred : gmap NodeRef string) (n : GraphNode) : list VerificationEntry :=
  if decide (node_kind n = NkFunction ∧ default [] (node_params n) ≠ []) then
    if decide (is_Some (node_return_type n) ∨ is_Some (inferred !! node_id n))
    then [pass "boundary-materialization" (node_name n)]
    else [open_entry "boundary-materialization" (node_name n)
            (fmt ["E_BOUNDARY_NOT_MATERIALIZED: function '"; node_name n;
                  "' declares params but has no return_type; boundary signature is not fully materialized in the canonical graph"])]
  else [].

Definition check_boundary_materialization (g : SemanticGraph) : list VerificationEntry :=
  graph_nodes g ≫= materialization_entry (infer_local_types g).

(** Subpass 9 *)
Definition NULL_WORDS : list string := ["null"; "nil"; "undefined"; "void"].

Definition null_entry (n : GraphNode) : list VerificationEntry :=
  match node_return_type n with
  | Some ty =>
      if decide (to_lowercase ty ∈ NULL_WORDS) then
        [failure "null-policy" (node_name n)
           (fmt ["E_NULL_IN_CORE_IR: return_type '"; ty; "' of '"; node_name n;
                 "' is a null/nil sentinel; Core IR prohibits null — use Option<T>, Result<T,E>, or PatchField<T>"])]
      else []
  | None => []
  end.
Definition check_null_policy (g : SemanticGraph) : list VerificationEntry := graph_nodes g ≫= null_entry.

(** Subpass 10 *)
Definition float_entry (n : GraphNode) : list VerificationEntry :=
  match node_type_facts n, node_constraint_set n with
  | Some tf, Some cs =>
      if decide (tf_nominal tf = "Float") then
        (if cs_has_eq cs then
           [failure "float-policy" (node_name n)
              (fmt ["E_FLOAT_EQ_IMPLICIT: Float type '"; node_name n;
                    "' declares has_eq=true; Float equality must be explicit (approximately_equal, bitwise_equal, or a domain-specific comparator) — not implicit `==`"])]
         else []) ++
        (if cs_has_ord cs then
           [failure "float-policy" (node_name n)
              (fmt ["E_FLOAT_ORD_IMPLICIT: Float type '"; node_name n;
                    "' declares has_ord=true; Float has no default total order (NaN breaks totality) — use NonNaNFloat or an explicit comparator/wrapper instead"])]
         else [])
      else []
  | _, _ => []
  end.
Definition check_float_policy (g : SemanticGraph) : list VerificationEntry := graph_nodes g ≫= float_entry.

(** Subpass 11 *)
Definition patchfield_entry (n : GraphNode) : list VerificationEntry :=
  match node_return_type n with
  | Some ty =>
      if starts_with "PatchField<" ty then
        if decide ((split_generic ty).2 = "") then
          [failure "patchfield" (node_name n)
             (fmt ["E_PATCHFIELD_EMPTY_INNER: PatchField on '"; node_name n;
                   "' has no inner type; Core IR requires PatchField<T> where T is a non-empty concrete type"])]
        else [pass "patchfield" (node_name n)]
      else []
  | None => []
  end.
Definition check_patchfield (g : SemanticGraph) : list VerificationEntry := graph_nodes g ≫= patchfield_entry.

(** Subpass 12 *)
Definition partial_ord_entry (n : GraphNode) : list VerificationEntry :=
  match node_constraint_set n, node_return_type n with
  | Some cs, Some ty =>
      if cs_has_partial_ord cs then
        if starts_with "PartialOrd<" ty then [pass "partial-ord" (node_name n)]
        else if cs_has_ord cs then []
        else [open_entry "partial-ord" (node_name n)
                (fmt ["E_PARTIAL_ORD_REQUIRED: type '"; node_name n;
                      "' has has_partial_ord=true but lacks has_ord=true; in a total-order context only partial ordering is available, which may be insufficient"])]
      else []
  | _, _ => []
  end.
Definition check_partial_ord (g : SemanticGraph) : list VerificationEntry := graph_nodes g ≫= partial_ord_entry.

(** Subpass 13 *)
Definition inference_entry (n : GraphNode) (fact : InferredFact) : list VerificationEntry :=
  if decide (if_kind fact = "boundary") then
    match strip_prefix "return:" (if_value fact) with
    | Some claimed =>
        let declared := default "" (node_return_type n) in
        if decide (claimed = declared) then [pass "boundary-inference" (node_name n)]
        else [failure "boundary-inference" (node_name n)
                (fmt ["E_BOUNDARY_INFERENCE_MISMATCH: boundary inferred return type '"; claimed;
                      "' does not match declared return_type '"; declared; "' on '"; node_name n; "'"])]
    | None => []
    end
  else [].
Definition check_boundary_inference (g : SemanticGraph) : list VerificationEntry :=
  filter (λ n, node_kind n = NkFunction) (graph_nodes g) ≫= λ n, node_inferred n ≫= inference_entry n.

(** Subpass 14 *)
Definition resolve_assoc_type (ctx : TypeContext) (arg_ty interface_base assoc_name : string) : option string :=
  n ← get_by_name ctx arg_ty;
  impls ← node_interface_impls n;
  find_map (λ im, if starts_with interface_base (iim_interface im)
                  then atb_ty <$> find_first (λ a, atb_name a = assoc_name) (iim_associated_types im) else None) impls.

Definition assoc_call (ctx : TypeContext) (e : GraphEdge) (callee : GraphNode) : list VerificationEntry :=
  match edge_call_args e, node_return_type callee with
  | Some args, Some ty =>
      if str_contains "::" ty then
        let '(interface_base, assoc_name) := split_assoc_type ty in
        match find_map (λ a, resolve_assoc_type ctx a interface_base assoc_name) args with
        | Some concrete =>
            [MkVerificationEntry "assoc-type-resolution" StProven (call_scope e callee)
               (Some (fmt ["resolved '"; ty; "' → '"; concrete; "'"])) false []]
        | None =>
            [open_entry "assoc-type-resolution" (call_scope e callee)
               (fmt ["E_ASSOC_TYPE_NOT_RESOLVED: associated type '"; ty; "' on callee '"; node_name callee;
                     "' could not be resolved from call_args "; debug_list (debug_text <$> args)])]
        end
      else []
  | _, _ => []
  end.
Definition check_associated_type_resolution (g : SemanticGraph) : list VerificationEntry :=
  calls g ≫= λ '(e, callee), assoc_call (collect g) e callee.

(** Subpass 16 *)
Definition schema_fact_entry (n : GraphNode) : list VerificationEntry :=
  match node_return_type n with
  | Some ty =>
      if decide (node_kind n = NkFunction ∧ starts_with "ForeignType" ty = true) then
        if any (λ f, if_kind f = "boundary-schema") (node_inferred n) then [pass "boundary-schema" (node_name n)]
        else [failure "boundary-schema" (node_name n)
                (fmt ["E_FOREIGN_TYPE_NO_SCHEMA: function '"; node_name n; "' returns a ForeignType ('"; ty;
                      "') but has no 'boundary-schema' inferred fact; foreign values crossing boundaries must declare a serialization schema"])]
      else []
  | None => []
  end.
Definition check_boundary_schema (g : SemanticGraph) : list VerificationEntry := graph_nodes g ≫= schema_fact_entry.

(* ------------------------------------------------------------------ *)
(** ** The subpasses in their order *)

Definition type_entries (g : SemanticGraph) : list VerificationEntry :=
  check_nominal_presence g
  ++ check_nominal_calls g
  ++ check_generic_params g
  ++ check_generic_call_bindings g
  ++ check_effect_capability_propagation g
  ++ check_variance g
  ++ check_structural_and_dyn_calls g
  ++ check_interface_coherence g
  ++ check_constraints g
  ++ check_type_refinements g
  ++ check_boundary_materialization g
  ++ check_null_policy g
  ++ check_float_policy g
  ++ check_patchfield g
  ++ check_partial_ord g
  ++ check_boundary_inference g
  ++ check_associated_type_resolution g
  ++ check_const_param_call_bindings g
  ++ check_boundary_schema g
  ++ check_effect_capability_param_threading g
  ++ check_blanket_impl_coherence g.

(* ------------------------------------------------------------------ *)
(** ** type_diagnostics.rs *)

Definition TYPE_ERROR_CODES : list string :=
  ["E_NOMINAL_MISMATCH"; "E_GENERIC_ARITY"; "E_EFFECT_PARAM_WIDENED"; "E_CAPABILITY_PARAM_WIDENED";
   "E_VARIANCE_COERCION"; "E_COHERENCE_DUPLICATE"; "E_ASSOC_TYPE_MISMATCH"; "E_MISSING_EQ"; "E_MISSING_HASH";
   "E_MISSING_ORD"; "E_CONST_PARAM_UNDECIDABLE"; "E_BOUNDARY_INFERENCE_MISMATCH"; "E_FLOAT_EQ_IMPLICIT";
   "E_FLOAT_ORD_IMPLICIT"; "E_ASSOC_TYPE_EMPTY_BINDING"; "E_GENERIC_BINDING_ARITY"; "E_EFFECT_NOT_PROPAGATED";
   "E_CAPABILITY_NOT_PROPAGATED"; "E_STRUCTURAL_TYPE_MISMATCH"; "E_DYN_INTERFACE_UNAVAILABLE";
   "E_REFINEMENT_PROOF_UNDISCHARGED"; "E_REFINEMENT_RUNTIME_CHECK_MISSING"; "E_PATCHFIELD_EMPTY_INNER";
   "E_PARTIAL_ORD_REQUIRED"; "E_ASSOC_TYPE_NOT_RESOLVED"; "E_FOREIGN_TYPE_NO_SCHEMA"; "E_ORPHAN_RULE_VIOLATION";
   "E_EFFECT_PARAM_NOT_THREADED"; "E_CAPABILITY_PARAM_NOT_THREADED"; "E_CONST_PARAM_VALUE_INVALID"].

(** The smallest id of the nodes of a name *)
Definition node_by_name (g : SemanticGraph) : gmap string NodeRef :=
  foldl (λ m n, <[node_name n := match m !! node_name n with
                                 | Some existing => if decide (node_id n < existing)%N then node_id n else existing
                                 | None => node_id n
                                 end]> m) ∅ (graph_nodes g).

Definition scope_source (scope : string) : string :=
  let source := from_option fst scope (split_text "→" scope) in
  from_option fst source (split_once "[" source).

Definition target_for_scope (g : SemanticGraph) (scope : string) : option NodeRef :=
  match parse_u32 (scope_source scope) with
  | Some n => Some (Z.to_N n)
  | None => node_by_name g !! scope_source scope
  end.

Definition type_error_code (evidence : string) : option string :=
  find_first (λ code, str_contains code evidence = true) TYPE_ERROR_CODES.

Inductive TypeCategory : Type := TcMismatch | TcUnknownSymbol | TcEffect | TcRefinement | TcGenericBinding.
#[global] Instance TypeCategory_eq_dec : EqDecision TypeCategory.
Proof. solve_decision. Defined.

Definition category_text (c : TypeCategory) : string :=
  match c with
  | TcMismatch => "type-mismatch" | TcUnknownSymbol => "unknown-symbol" | TcEffect => "effect"
  | TcRefinement => "refinement" | TcGenericBinding => "generic-call-binding"
  end.

Definition type_diagnostic_category (claim code evidence : string) : option TypeCategory :=
  if decide (code ∈ ["E_NOMINAL_MISMATCH"; "E_STRUCTURAL_TYPE_MISMATCH"; "E_VARIANCE_COERCION";
                     "E_BOUNDARY_INFERENCE_MISMATCH"; "E_ASSOC_TYPE_MISMATCH"; "E_ASSOC_TYPE_EMPTY_BINDING";
                     "E_COHERENCE_DUPLICATE"; "E_MISSING_EQ"; "E_MISSING_HASH"; "E_MISSING_ORD";
                     "E_FLOAT_EQ_IMPLICIT"; "E_FLOAT_ORD_IMPLICIT"; "E_PARTIAL_ORD_REQUIRED";
                     "E_PATCHFIELD_EMPTY_INNER"]) then Some TcMismatch
  else if decide (code ∈ ["E_ASSOC_TYPE_NOT_RESOLVED"; "E_DYN_INTERFACE_UNAVAILABLE"; "E_ORPHAN_RULE_VIOLATION"])
  then Some TcUnknownSymbol
  else if decide (code ∈ ["E_EFFECT_NOT_PROPAGATED"; "E_CAPABILITY_NOT_PROPAGATED"; "E_EFFECT_PARAM_NOT_THREADED";
                          "E_CAPABILITY_PARAM_NOT_THREADED"; "E_EFFECT_PARAM_WIDENED"; "E_CAPABILITY_PARAM_WIDENED"])
  then Some TcEffect
  else if decide (code ∈ ["E_REFINEMENT_PROOF_UNDISCHARGED"; "E_REFINEMENT_RUNTIME_CHECK_MISSING"])
  then Some TcRefinement
  else if decide (code = "E_GENERIC_BINDING_ARITY") then
    if str_contains "unknown generic" evidence then Some TcUnknownSymbol
    else if decide (claim = "generic-call-binding") then Some TcGenericBinding else None
  else if decide (code ∈ ["E_GENERIC_ARITY"; "E_CONST_PARAM_UNDECIDABLE"; "E_CONST_PARAM_VALUE_INVALID"])
  then Some TcGenericBinding
  else if decide (code = "E_FOREIGN_TYPE_NO_SCHEMA") then Some TcUnknownSymbol
  else None.

Definition severity_for (s : VerificationState) : DiagnosticSeverity :=
  match s with StFailed => SevError | StUnverified => SevWarning | _ => SevInfo end.

Definition expected_descriptor (c : TypeCategory) : string :=
  match c with
  | TcMismatch => "compatible type descriptors"
  | TcUnknownSymbol => "resolved type symbol or binding"
  | TcEffect => "declared caller effect/capability coverage"
  | TcRefinement => "discharged or materialized refinement proof"
  | TcGenericBinding => "complete generic call-site binding set"
  end.

Definition repair_descriptor (c : TypeCategory) : string :=
  match c with
  | TcMismatch => "align the call-site and declared type shapes without relying on implicit coercion"
  | TcUnknownSymbol => "declare the referenced type symbol or remove the unresolved binding"
  | TcEffect => "thread the required effect or capability through the caller declaration"
  | TcRefinement => "add a proof obligation witness or materialize the required runtime check"
  | TcGenericBinding => "bind every declared generic parameter exactly once with a decidable value"
  end.

Definition param_index (scope : string) : option string :=
  after ← split_once "[" scope;
  index ← split_once "]" after.2;
  if string_all is_digit index.1 then Some index.1 else None.

Definition redacted_scope_descriptor (scope : string) : string :=
  join ";" ([if str_contains "→" scope then "call-site"
             else if has_char "<" scope then "type-argument-scope" else "node"]
            ++ match param_index scope with
               | Some index => ["param_index=" +:+ index]
               | None => if has_char "[" scope then ["binding"] else []
               end).

Definition redacted_detail_descriptor (claim code evidence : string) : string :=
  if decide (code = "E_GENERIC_BINDING_ARITY") then
    if str_contains "unknown generic" evidence then "unknown-binding" else "arity-mismatch"
  else if decide (code ∈ ["E_NOMINAL_MISMATCH"; "E_STRUCTURAL_TYPE_MISMATCH"; "E_VARIANCE_COERCION"])
  then "call-type-shape-mismatch"
  else if decide (code = "E_ASSOC_TYPE_NOT_RESOLVED") then "associated-type-unresolved"
  else if decide (code ∈ ["E_DYN_INTERFACE_UNAVAILABLE"; "E_ORPHAN_RULE_VIOLATION"]) then "interface-unresolved"
  else if decide (code ∈ ["E_EFFECT_NOT_PROPAGATED"; "E_CAPABILITY_NOT_PROPAGATED"])
  then "callee-requirement-not-propagated"
  else if decide (code ∈ ["E_EFFECT_PARAM_NOT_THREADED"; "E_CAPABILITY_PARAM_NOT_THREADED"])
  then "generic-requirement-not-threaded"
  else if decide (code = "E_REFINEMENT_PROOF_UNDISCHARGED") then "proof-undischarged"
  else if decide (code = "E_REFINEMENT_RUNTIME_CHECK_MISSING") then "runtime-check-missing"
  else if decide (claim = "boundary-inference") then "boundary-descriptor-mismatch"
  else "type-checker-condition".

Definition type_entry_diagnostic (g : SemanticGraph) (e : VerificationEntry) : option Diagnostic :=
  if decide (ve_state e = StFailed ∨ ve_state e = StUnverified) then
    evidence ← ve_evidence e;
    code ← type_error_code evidence;
    category ← type_diagnostic_category (ve_claim e) code evidence;
    target ← target_for_scope g (ve_scope e);
    let scope := redacted_scope_descriptor (ve_scope e) in
    let detail := redacted_detail_descriptor (ve_claim e) code evidence in
    Some (MkDiagnostic code (severity_for (ve_state e)) target
            (Some (fmt ["category="; category_text category; "; code="; code; "; claim="; ve_claim e; "; target=node#";
                        pretty (target : N); "; scope="; scope; "; detail="; detail]))
            (Some (expected_descriptor category))
            (Some (fmt [category_text category; " issue redacted; "; scope; "; "; detail]))
            [Explanation (repair_descriptor category)] (ve_blocking e))
  else None.

(** [diagnostic_category] of type_diagnostics.rs *)
Definition evidence_category (evidence : string) : option string :=
  find_map (λ part, strip_prefix "category=" (trim part)) (split_on ";" evidence).

Definition type_diagnostic_category_rank (d : Diagnostic) : N :=
  match dg_evidence d ≫= evidence_category with
  | Some c =>
      if decide (c = "type-mismatch") then 0
      else if decide (c = "unknown-symbol") then 1
      else if decide (c = "effect") then 2
      else if decide (c = "refinement") then 3
      else if decide (c = "generic-call-binding") then 4 else 5
  | None => 5
  end%N.

Definition type_diagnostic_key (d : Diagnostic)
  : N * string * N * N * option string * option string * option string * string :=
  (type_diagnostic_category_rank d, dg_code d, dg_target d, true_first (dg_blocking d), dg_evidence d, dg_expected d,
   dg_actual d, debug_list (debug_repair <$> dg_repair_options d)).

Definition build_structured_diagnostics (entries : list VerificationEntry) (g : SemanticGraph) : list Diagnostic :=
  sort_dedup type_diagnostic_key (omap (type_entry_diagnostic g) entries).

(** [TypeChecker::check] *)
Definition type_check (g : SemanticGraph) : VerificationReport :=
  stage_report (type_entries g) (build_structured_diagnostics (type_entries g) g) [].

(* ------------------------------------------------------------------ *)
(** ** What the checker accepts

    [well_typed] collects, rule by rule, what the subpasses accept, in their own terms and with their
    peculiarities (arguments are compared as texts, and zipped with the parameters).  It is the middle of the
    proofs; what acceptance is worth is stated on the fields of the nodes in [types_sound]. *)

Definition type_params_bound (bs : list TypeArgBinding) (ps : list GenericParamDecl) : Prop :=
  let type_bindings := filter (λ b, is_const_binding ps b = false) bs in
  Forall (λ b, tab_param b ∈ declared_type_params ps) type_bindings ∧
  length type_bindings = length (declared_type_params ps).

Definition meets (ctx : TypeContext) (ty : string) (needs : bool * bool * bool) : Prop :=
  ∀ n, get_by_name ctx ty = Some n →
    let has (f : ConstraintSet → bool) := from_option f false (node_constraint_set n) = true in
    (needs.1.1 = true → has cs_has_eq) ∧ (needs.1.2 = true → has cs_has_hash) ∧ (needs.2 = true → has cs_has_ord).

Definition generic_param_ok (n : GraphNode) (gp : GenericParamDecl) : Prop :=
  gpd_name gp ≠ "" ∧
  match gpd_kind gp with
  | GpTypeParam => True
  | GpEffectParam => gpd_name gp ∈ effects_of n
  | GpCapabilityParam => gpd_name gp ∈ caps_of n
  | GpConstParam => is_simple_identifier (gpd_name gp) = true
  end.

Definition refinement_ok (n : GraphNode) (rf : RefinementRef) : Prop :=
  match rr_status rf with
  | RsProven => trim (rr_predicate rf) ≠ "false" ∧ trim (rr_predicate rf) ≠ ""
  | RsRuntimeChecked => default [] (node_runtime_checks n) ≠ []
  | RsFailed => False
  | RsAssumed | RsUnverified => True
  end.

(** A node on its own *)
Record node_typed (ctx : TypeContext) (n : GraphNode) : Prop := {
  nt_generics : (node_kind n = NkFunction ∨ node_kind n = NkType) →
    ∀ tf, node_type_facts n = Some tf → tf_nominal tf ≠ "" → "" ∉ tf_generics tf;
  nt_generic_params : Forall (generic_param_ok n) (default [] (node_generic_params n));
  nt_assoc : Forall (λ im, Forall (λ a, atb_name a ≠ "" ∧ atb_ty a ≠ "") (iim_associated_types im))
               (default [] (node_interface_impls n));
  nt_owned : Forall (λ im, interface_owned ctx (iim_interface im) = true) (own_impls n);
  nt_collection : ∀ tf arg rest needs, node_type_facts n = Some tf → tf_generics tf = arg :: rest →
    (tf_nominal tf, needs) ∈ COLLECTION_CONSTRAINTS → meets ctx arg needs;
  nt_refinement : ∀ rf, node_refinement_ref n = Some rf → refinement_ok n rf;
  nt_null : ∀ ty, node_return_type n = Some ty → to_lowercase ty ∉ NULL_WORDS;
  nt_float : ∀ tf cs, node_type_facts n = Some tf → node_constraint_set n = Some cs → tf_nominal tf = "Float" →
    cs_has_eq cs = false ∧ cs_has_ord cs = false;
  nt_patchfield : ∀ ty, node_return_type n = Some ty → starts_with "PatchField<" ty = true → (split_generic ty).2 ≠ "";
  nt_inference : node_kind n = NkFunction → ∀ f ty, f ∈ node_inferred n → if_kind f = "boundary" →
    strip_prefix "return:" (if_value f) = Some ty → ty = default "" (node_return_type n);
  nt_schema : ∀ ty, node_kind n = NkFunction → node_return_type n = Some ty → starts_with "ForeignType" ty = true →
    ∃ f, f ∈ node_inferred n ∧ if_kind f = "boundary-schema";
}.

(** A call *)
Record call_typed (ctx : TypeContext) (e : GraphEdge) (callee : GraphNode) : Prop := {
  ct_args : Forall (λ a, a.1 = pd_ty a.2) (call_params e callee);
  ct_structural : Forall (λ a, ∀ required, structural_fields (pd_ty a.2) = Some required →
    structural_type_satisfies ctx a.1 required = true) (call_params e callee);
  ct_dyn : Forall (λ a, ∀ interface, dyn_interface (pd_ty a.2) = Some interface → implements ctx a.1 interface = true)
    (call_params e callee);
  ct_bindings : ∀ bs ps, call_bindings e callee = Some (bs, ps) → type_params_bound bs ps;
  ct_constraints : ∀ bs ps b gp, call_bindings e callee = Some (bs, ps) → b ∈ bs →
    find_first (λ p, gpd_name p = tab_param b) ps = Some gp → gpd_required_constraints gp ≠ [] →
    meets ctx (tab_ty b) (needed (gpd_required_constraints gp));
  ct_consts : ∀ bs ps b, call_bindings e callee = Some (bs, ps) → b ∈ bs → is_const_binding ps b = true →
    is_const_param_value (tab_ty b) = true;
}.

(** A call between known nodes *)
Record call_covered (e : GraphEdge) (caller callee : GraphNode) : Prop := {
  cc_effects : ∀ x, x ∈ effects_of callee → x ∈ effects_of caller;
  cc_caps : ∀ x, x ∈ caps_of callee → x ∈ caps_of caller;
  cc_effect_args : ∀ bs b x, edge_effect_arg_bindings e = Some bs → b ∈ bs → x ∈ eab_effects b → x ∈ effects_of caller;
  cc_cap_args : ∀ bs b x, edge_capability_arg_bindings e = Some bs → b ∈ bs → x ∈ cab_caps b → x ∈ caps_of caller;
}.

Record well_typed (g : SemanticGraph) : Prop := {
  wt_nodes : Forall (node_typed (collect g)) (graph_nodes g);
  wt_calls : Forall (λ c, call_typed (collect g) c.1 c.2) (calls g);
  wt_covered : Forall (λ c, call_covered c.1.1 c.1.2 c.2) (known_calls g);
  wt_coherent : NoDup (graph_nodes g ≫= λ n, iim_interface <$> own_impls n);
}.

(* ------------------------------------------------------------------ *)
(** ** Entries without failures *)

Definition unfailed (es : list VerificationEntry) : Prop := Forall (λ e, ve_state e ≠ StFailed) es.

Lemma unfailed_app es fs : unfailed (es ++ fs) ↔ unfailed es ∧ unfailed fs.
Proof. apply Forall_app. Qed.

Lemma unfailed_nil : unfailed [] ↔ True.
Proof. by split; [|constructor]. Qed.

Lemma unfailed_cons e es : unfailed (e :: es) ↔ ve_state e ≠ StFailed ∧ unfailed es.
Proof. unfold unfailed. by rewrite Forall_cons. Qed.

Lemma unfailed_pass claim scope : unfailed [pass claim scope] ↔ True.
Proof. rewrite unfailed_cons, unfailed_nil. naive_solver. Qed.

Lemma unfailed_open claim scope ev : unfailed [open_entry claim scope ev] ↔ True.
Proof. rewrite unfailed_cons, unfailed_nil. naive_solver. Qed.

Lemma unfailed_failure claim scope ev : unfailed [failure claim scope ev] ↔ False.
Proof. rewrite unfailed_cons. naive_solver. Qed.

Lemma unfailed_bind {A} (f : A → list VerificationEntry) l : unfailed (l ≫= f) ↔ Forall (λ x, unfailed (f x)) l.
Proof.
  induction l as [|x l IH]; [split; constructor|]. rewrite bind_cons.
  by rewrite unfailed_app, Forall_cons, IH.
Qed.

Lemma unfailed_fmap {A} (f : A → VerificationEntry) l : unfailed (f <$> l) ↔ Forall (λ x, ve_state (f x) ≠ StFailed) l.
Proof. unfold unfailed. by rewrite Forall_fmap. Qed.

Lemma unfailed_concat_imap {A} (f : nat → A → list VerificationEntry) (Q : A → Prop) l :
  (∀ i x, unfailed (f i x) ↔ Q x) → unfailed (concat (imap f l)) ↔ Forall Q l.
Proof.
  intros Hf. revert f Hf. induction l as [|x l IH]; intros f Hf; [split; constructor|].
  cbn [imap concat]. rewrite unfailed_app, Hf, Forall_cons. apply and_iff_compat_l. apply IH. intros. apply Hf.
Qed.

Lemma unfailed_imap {A} (f : nat → A → VerificationEntry) (Q : A → Prop) l :
  (∀ i x, ve_state (f i x) ≠ StFailed ↔ Q x) → unfailed (imap f l) ↔ Forall Q l.
Proof.
  intros Hf. revert f Hf. induction l as [|x l IH]; intros f Hf; [split; constructor|].
  cbn [imap]. rewrite unfailed_cons, Hf, Forall_cons. apply and_iff_compat_l. apply IH. intros. apply Hf.
Qed.

Lemma unfailed_sort {K} `{CmpLaws K} (key : VerificationEntry → K) es : unfailed (sort_dedup key es) ↔ unfailed es.
Proof. unfold unfailed. rewrite !Forall_forall. by setoid_rewrite sort_dedup_elem. Qed.

Lemma Forall_iff_compat {A} (P Q : A → Prop) l : (∀ x, x ∈ l → P x ↔ Q x) → Forall P l ↔ Forall Q l.
Proof. intros H. rewrite !Forall_forall. naive_solver. Qed.

(** ** The subpasses on nodes *)

Create Rewrite HintDb unfailed.
Hint Rewrite unfailed_app unfailed_nil unfailed_cons unfailed_pass unfailed_open unfailed_failure
  @unfailed_bind @unfailed_fmap : unfailed.

(** No entry, and a condition whose hypotheses do not hold *)
Ltac vacuous := autorewrite with unfailed; split; [intros _; intros; simplify_eq; try done; try congruence|done].

(** One entry, decided by a test on the value of an option *)
Ltac decided :=
  autorewrite with unfailed; split;
  [try done; by intros _ ? [= <-]|try done; intros Hall; specialize (Hall _ eq_refl); congruence].

(** Case analysis on the decisions of one entry *)
Ltac entry_cases :=
  repeat (case_decide || case_match); autorewrite with unfailed; cbn; try naive_solver.

Lemma nominal_presence_ok g :
  unfailed (check_nominal_presence g) ↔
  Forall (λ n, (node_kind n = NkFunction ∨ node_kind n = NkType) →
    ∀ tf, node_type_facts n = Some tf → tf_nominal tf ≠ "" → "" ∉ tf_generics tf) (graph_nodes g).
Proof.
  unfold check_nominal_presence. rewrite unfailed_fmap, !Forall_forall. setoid_rewrite list_elem_of_filter.
  assert (∀ n, ve_state (classify_nominal_presence n) ≠ StFailed ↔
    ∀ tf, node_type_facts n = Some tf → tf_nominal tf ≠ "" → "" ∉ tf_generics tf) as H.
  { intros n. unfold classify_nominal_presence. destruct (node_type_facts n) as [tf|]; [|cbn; naive_solver].
    destruct (decide (tf_nominal tf = "")); [cbn; naive_solver|].
    destruct (any (λ x, x = "") (tf_generics tf)) eqn:E; cbn.
    - apply any_true in E. naive_solver.
    - rewrite any_false in E. naive_solver. }
  setoid_rewrite H. naive_solver.
Qed.

Lemma generic_params_ok g :
  unfailed (check_generic_params g) ↔
  Forall (λ n, Forall (generic_param_ok n) (default [] (node_generic_params n))) (graph_nodes g).
Proof.
  unfold check_generic_params. rewrite unfailed_bind. apply Forall_iff_compat. intros n _. rewrite unfailed_fmap.
  apply Forall_iff_compat. intros gp _. unfold generic_param_entry, generic_param_ok, generic_param_issue.
  case_decide; [cbn; naive_solver|]. cbn [ve_state].
  destruct (gpd_kind gp); [naive_solver|case_decide; naive_solver..|].
  destruct (is_simple_identifier (gpd_name gp)); naive_solver.
Qed.

Lemma refinements_ok g :
  unfailed (check_type_refinements g) ↔
  Forall (λ n, ∀ rf, node_refinement_ref n = Some rf → refinement_ok n rf) (graph_nodes g).
Proof.
  unfold check_type_refinements. rewrite unfailed_bind. apply Forall_iff_compat. intros n _.
  unfold refinement_entries. destruct (node_refinement_ref n) as [rf|]; [|rewrite unfailed_nil; naive_solver].
  transitivity (refinement_ok n rf); [|naive_solver]. destruct (refinement_outcome n rf) as [st ev] eqn:E.
  transitivity (st ≠ StFailed); [rewrite unfailed_cons; destruct (rr_erased rf); autorewrite with unfailed; cbn; naive_solver|].
  revert E. unfold refinement_outcome, refinement_ok. destruct (rr_status rf); cbn; try (intros [= <- _]; naive_solver).
  - destruct (decide (trim (rr_predicate rf) = "true")) as [->|]; [intros [= <- _]; naive_solver|].
    case_decide; [intros [= <- _]; naive_solver|]. destruct (ensured n _); intros [= <- _]; naive_solver.
  - destruct (node_runtime_checks n) as [[|]|]; cbn; intros [= <- _]; naive_solver.
Qed.

Lemma null_ok g :
  unfailed (check_null_policy g) ↔
  Forall (λ n, ∀ ty, node_return_type n = Some ty → to_lowercase ty ∉ NULL_WORDS) (graph_nodes g).
Proof.
  unfold check_null_policy. rewrite unfailed_bind. apply Forall_iff_compat. intros n _. unfold null_entry. entry_cases.
Qed.

Lemma float_ok g :
  unfailed (check_float_policy g) ↔
  Forall (λ n, ∀ tf cs, node_type_facts n = Some tf → node_constraint_set n = Some cs → tf_nominal tf = "Float" →
    cs_has_eq cs = false ∧ cs_has_ord cs = false) (graph_nodes g).
Proof.
  unfold check_float_policy. rewrite unfailed_bind. apply Forall_iff_compat. intros n _. unfold float_entry.
  destruct (node_type_facts n) as [tf|], (node_constraint_set n) as [cs|]; try vacuous.
  case_decide; [|vacuous]. rewrite unfailed_app.
  transitivity (cs_has_eq cs = false ∧ cs_has_ord cs = false).
  - destruct (cs_has_eq cs), (cs_has_ord cs); autorewrite with unfailed; naive_solver.
  - split; [intros Hc tf' cs' [= <-] [= <-] _; done|]. intros Hc. by apply (Hc tf cs).
Qed.

Lemma patchfield_ok g :
  unfailed (check_patchfield g) ↔
  Forall (λ n, ∀ ty, node_return_type n = Some ty → starts_with "PatchField<" ty = true → (split_generic ty).2 ≠ "")
    (graph_nodes g).
Proof.
  unfold check_patchfield. rewrite unfailed_bind. apply Forall_iff_compat. intros n _. unfold patchfield_entry.
  destruct (node_return_type n) as [ty|]; [|vacuous].
  destruct (starts_with "PatchField<" ty) eqn:E; [|vacuous].
  case_decide as Hi; autorewrite with unfailed.
  - split; [done|]. intros H. by apply (H ty).
  - split; [|done]. by intros _ ty' [= <-].
Qed.

Lemma partial_ord_never_fails g : unfailed (check_partial_ord g).
Proof.
  unfold check_partial_ord. rewrite unfailed_bind. apply Forall_forall. intros n _. unfold partial_ord_entry. entry_cases.
Qed.

Lemma materialization_never_fails g : unfailed (check_boundary_materialization g).
Proof.
  unfold check_boundary_materialization. rewrite unfailed_bind. apply Forall_forall. intros n _.
  unfold materialization_entry. entry_cases.
Qed.

Lemma inference_ok g :
  unfailed (check_boundary_inference g) ↔
  Forall (λ n, node_kind n = NkFunction → ∀ f ty, f ∈ node_inferred n → if_kind f = "boundary" →
    strip_prefix "return:" (if_value f) = Some ty → ty = default "" (node_return_type n)) (graph_nodes g).
Proof.
  unfold check_boundary_inference. rewrite unfailed_bind, !Forall_forall. setoid_rewrite list_elem_of_filter.
  setoid_rewrite unfailed_bind. setoid_rewrite Forall_forall.
  assert (∀ n f, unfailed (inference_entry n f) ↔ ∀ ty, if_kind f = "boundary" →
    strip_prefix "return:" (if_value f) = Some ty → ty = default "" (node_return_type n)) as H.
  { intros n f. unfold inference_entry. case_decide; [|vacuous].
    destruct (strip_prefix "return:" (if_value f)) as [ty|]; [|vacuous].
    case_decide; autorewrite with unfailed; naive_solver. }
  setoid_rewrite H. naive_solver.
Qed.

Lemma schema_ok g :
  unfailed (check_boundary_schema g) ↔
  Forall (λ n, ∀ ty, node_kind n = NkFunction → node_return_type n = Some ty → starts_with "ForeignType" ty = true →
    ∃ f, f ∈ node_inferred n ∧ if_kind f = "boundary-schema") (graph_nodes g).
Proof.
  unfold check_boundary_schema. rewrite unfailed_bind. apply Forall_iff_compat. intros n _. unfold schema_fact_entry.
  destruct (node_return_type n) as [ty|]; [|vacuous].
  case_decide as Hk; [|vacuous; by destruct Hk].
  destruct (any (λ f, if_kind f = "boundary-schema") (node_inferred n)) eqn:E; autorewrite with unfailed.
  - apply any_true in E. naive_solver.
  - rewrite any_false in E. naive_solver.
Qed.

(** ** Implementations *)

Definition assoc_ok (im : InterfaceImplMeta) : Prop :=
  Forall (λ a, atb_name a ≠ "" ∧ atb_ty a ≠ "") (iim_associated_types im).
Definition own (impls : list InterfaceImplMeta) : list InterfaceImplMeta :=
  filter (λ im, iim_is_adapter im = false) impls.

Lemma assoc_failures_ok n im : unfailed (iim_associated_types im ≫= assoc_failures n im) ↔ assoc_ok im.
Proof.
  rewrite unfailed_bind. apply Forall_iff_compat. intros a _. unfold assoc_failures. rewrite unfailed_app.
  repeat case_decide; autorewrite with unfailed; naive_solver.
Qed.

Lemma coherence_from_ok n impls idx seen :
  unfailed (coherence_from n idx seen impls) ↔
  Forall assoc_ok impls ∧ NoDup (iim_interface <$> own impls) ∧ (∀ im, im ∈ own impls → seen !! iim_interface im = None).
Proof.
  revert idx seen. induction impls as [|im impls IH]; intros idx seen.
  { cbn. rewrite unfailed_nil. split; [intros _; split_and!; try constructor; intros ? []%not_elem_of_nil|done]. }
  cbn [coherence_from]. rewrite unfailed_app, assoc_failures_ok, Forall_cons.
  unfold own. rewrite filter_cons. destruct (iim_is_adapter im) eqn:Ea.
  { rewrite decide_False by done. rewrite IH. unfold own. tauto. }
  rewrite decide_True by done. rewrite fmap_cons, NoDup_cons.
  destruct (seen !! iim_interface im) as [k|] eqn:Es.
  { rewrite unfailed_cons. split; [intros (_ & H & _); by destruct H|].
    intros (_ & _ & H). specialize (H im (list_elem_of_here _ _)). congruence. }
  rewrite IH. fold (own impls). split.
  - intros (? & ? & Hd & Hs). split_and!; try done.
    + intros (im' & Heq & Hin)%list_elem_of_fmap. specialize (Hs im' Hin). rewrite Heq in Hs. by rewrite lookup_insert_eq in Hs.
    + intros im' [->|Hin]%elem_of_cons; [done|]. specialize (Hs im' Hin).
      by apply lookup_insert_None in Hs as [? _].
  - intros ([? ?] & [Hni ?] & Hs). split_and!; try done. intros im' Hin. apply lookup_insert_None. split.
    + apply Hs. by right.
    + intros Heq. apply Hni. apply list_elem_of_fmap. eauto.
Qed.

Lemma coherence_ok g :
  unfailed (check_interface_coherence g) ↔
  Forall (λ n, Forall assoc_ok (default [] (node_interface_impls n))) (graph_nodes g) ∧
  Forall (λ n, NoDup (iim_interface <$> own_impls n)) (graph_nodes g).
Proof.
  unfold check_interface_coherence. rewrite unfailed_bind, <- Forall_and. apply Forall_iff_compat. intros n _.
  rewrite coherence_from_ok. unfold own_impls, own. split; [by intros (? & ? & _)|]. intros [? ?].
  split_and!; try done; by intros.
Qed.

(** The entries of a map built by appending values under their keys *)
Lemma grouped_lookup (l : list (string * string)) k (m : gmap string (list string)) :
  foldl (λ m p, <[p.1 := default [] (m !! p.1) ++ [p.2]]> m) m l !! k =
  match snd <$> filter (λ p, p.1 = k) l with [] => m !! k | vs => Some (default [] (m !! k) ++ vs) end.
Proof.
  revert m. induction l as [|[a v] l IH]; intros m; [done|]. cbn [foldl fst snd]. rewrite IH, filter_cons. cbn [fst].
  destruct (decide (a = k)) as [->|Hne].
  - rewrite lookup_insert_eq. rewrite fmap_cons. cbn [snd].
    destruct (snd <$> filter (λ p, p.1 = k) l) as [|w ws]; [done|].
    change (default [] (Some (default [] (m !! k) ++ [v]))) with (default [] (m !! k) ++ [v]). by rewrite <- app_assoc.
  - by rewrite lookup_insert_ne.
Qed.

Lemma impl_map_lookup g k vs :
  impl_map g !! k = Some vs ↔
  vs ≠ [] ∧ vs = snd <$> filter (λ p, p.1 = k)
    (graph_nodes g ≫= λ n, (λ im, (iim_interface im, node_name n)) <$> own_impls n).
Proof.
  unfold impl_map. rewrite grouped_lookup. cbn.
  destruct (snd <$> filter _ _) as [|w ws]; [rewrite lookup_empty; naive_solver|]. cbn. naive_solver.
Qed.

Lemma impl_pairs_fst g :
  (graph_nodes g ≫= λ n, (λ im, (iim_interface im, node_name n)) <$> own_impls n).*1 =
  (graph_nodes g ≫= λ n, iim_interface <$> own_impls n).
Proof.
  induction (graph_nodes g) as [|n l IH]; [done|]. rewrite !bind_cons, fmap_app, IH. f_equal.
  by rewrite <- list_fmap_compose.
Qed.

Lemma blanket_ok g :
  unfailed (check_blanket_impl_coherence g) ↔
  NoDup (graph_nodes g ≫= λ n, iim_interface <$> own_impls n) ∧
  Forall (λ n, Forall (λ im, interface_owned (collect g) (iim_interface im) = true) (own_impls n)) (graph_nodes g).
Proof.
  unfold check_blanket_impl_coherence. rewrite unfailed_app. apply Morphisms_Prop.and_iff_morphism.
  - rewrite <- impl_pairs_fst, NoDup_short_groups, unfailed_bind, Forall_forall.
    set (pairs := graph_nodes g ≫= _). split.
    + intros H k. destruct (snd <$> filter (λ p, p.1 = k) pairs) as [|v vs] eqn:E.
      { apply fmap_nil_iff in E. rewrite E. cbn. lia. }
      specialize (H (k, v :: vs)). unfold blanket_entry in H. cbn [snd] in H.
      rewrite <- (length_fmap snd), E. destruct (decide (1 < length (v :: vs))); [|lia].
      exfalso. eapply unfailed_failure, H. apply map_iter_elem, impl_map_lookup. split; [done|]. by rewrite <- E.
    + intros H [k vs] Hin%map_iter_elem. apply impl_map_lookup in Hin as [_ ->]. unfold blanket_entry. cbn [snd].
      rewrite decide_False; [by apply unfailed_nil|]. rewrite length_fmap. fold pairs. specialize (H k). lia.
  - rewrite unfailed_bind. apply Forall_iff_compat. intros n _. rewrite unfailed_bind. apply Forall_iff_compat.
    intros im _. unfold orphan_entry. destruct (interface_owned _ _); autorewrite with unfailed; naive_solver.
Qed.

(** ** Constraints *)

Lemma constraint_entry_ok ctx ty scope needs : unfailed (constraint_entry ctx ty scope needs) ↔ meets ctx ty needs.
Proof.
  unfold constraint_entry, meets. destruct (get_by_name ctx ty) as [n|]; [|vacuous].
  destruct needs as [[eq hash] ord]. cbn [fst snd].
  transitivity (missing_constraints (node_constraint_set n) ty (eq, hash, ord) = []).
  { destruct (missing_constraints _ _ _); autorewrite with unfailed; naive_solver. }
  unfold missing_constraints. set (cs := node_constraint_set n).
  split.
  - intros Hm n' [= <-]. fold cs. destruct eq, hash, ord, (from_option cs_has_eq false cs), (from_option cs_has_hash false cs),
      (from_option cs_has_ord false cs); cbn in Hm; split_and!; intros; done.
  - intros H. destruct (H n eq_refl) as (H1 & H2 & H3). fold cs in H1, H2, H3.
    destruct eq, hash, ord; cbn; rewrite ?H1, ?H2, ?H3 by done; done.
Qed.

Lemma collection_ok ctx n :
  unfailed (collection_constraint ctx n) ↔
  ∀ tf arg rest needs, node_type_facts n = Some tf → tf_generics tf = arg :: rest →
    (tf_nominal tf, needs) ∈ COLLECTION_CONSTRAINTS → meets ctx arg needs.
Proof.
  unfold collection_constraint. destruct (node_type_facts n) as [[nominal [|arg rest]]|]; [vacuous| |vacuous].
  destruct (find_first (λ row, row.1 = nominal) COLLECTION_CONSTRAINTS) as [[k needs]|] eqn:E.
  - apply find_first_Some in E as [Hin Hk]. cbn in Hk. subst k. rewrite constraint_entry_ok. split.
    + intros Hm tf a r needs' [= <-] [= -> ->] Hin'. cbn in Hin'.
      assert (needs' = needs) as ->; [|done].
      unfold COLLECTION_CONSTRAINTS in Hin, Hin'. rewrite !elem_of_cons, elem_of_nil in Hin, Hin'. naive_solver.
    + intros H. by eapply H.
  - rewrite unfailed_nil. split; [|done]. intros _ tf a r needs [= <-] _ Hin.
    rewrite find_first_None in E. by destruct (E _ Hin).
Qed.

(** ** The subpasses on calls *)

(** A subpass over the calls, call by call *)
Lemma on_calls_ok (f : GraphEdge * GraphNode → list VerificationEntry) (P : GraphEdge → GraphNode → Prop) l :
  (∀ e callee, unfailed (f (e, callee)) ↔ P e callee) → unfailed (l ≫= f) ↔ Forall (λ c, P c.1 c.2) l.
Proof. intros Hf. rewrite unfailed_bind. apply Forall_iff_compat. intros [e callee] _. apply Hf. Qed.

Lemma nominal_calls_ok g :
  unfailed (check_nominal_calls g) ↔
  Forall (λ c, Forall (λ a, a.1 = pd_ty a.2) (call_params c.1 c.2)) (calls g).
Proof.
  apply (on_calls_ok _ (λ e callee, Forall (λ a, a.1 = pd_ty a.2) (call_params e callee))). intros e callee.
  apply unfailed_imap. intros i a. unfold nominal_call. case_decide; cbn; naive_solver.
Qed.

(** An argument that breaks invariance has the wrong type name. *)
Lemma variance_nominal a : a.1 = pd_ty a.2 → variance_violated a = false.
Proof.
  intros Ha. unfold variance_violated. rewrite Ha. rewrite (bool_decide_eq_false_2 (_ ≠ _)); [by rewrite andb_false_r|].
  intros H. by apply H.
Qed.

Lemma variance_implied g : unfailed (check_nominal_calls g) → unfailed (check_variance g).
Proof.
  rewrite nominal_calls_ok. intros H. unfold check_variance.
  apply (on_calls_ok _ (λ e callee, Forall (λ a, variance_violated a = false) (call_params e callee))).
  - intros e callee. apply unfailed_concat_imap. intros i a. unfold variance_call.
    destruct (variance_violated a); autorewrite with unfailed; naive_solver.
  - eapply Forall_impl; [exact H|]. intros c Hc. eapply Forall_impl; [exact Hc|]. apply variance_nominal.
Qed.

Lemma structural_ok g :
  unfailed (check_structural_and_dyn_calls g) ↔
  Forall (λ c,
    Forall (λ a, ∀ required, structural_fields (pd_ty a.2) = Some required →
      structural_type_satisfies (collect g) a.1 required = true) (call_params c.1 c.2) ∧
    Forall (λ a, ∀ interface, dyn_interface (pd_ty a.2) = Some interface →
      implements (collect g) a.1 interface = true) (call_params c.1 c.2)) (calls g).
Proof.
  apply (on_calls_ok _ (λ e callee,
    Forall (λ a, ∀ required, structural_fields (pd_ty a.2) = Some required →
      structural_type_satisfies (collect g) a.1 required = true) (call_params e callee) ∧
    Forall (λ a, ∀ interface, dyn_interface (pd_ty a.2) = Some interface →
      implements (collect g) a.1 interface = true) (call_params e callee))).
  intros e callee. rewrite <- Forall_and. apply unfailed_concat_imap. intros i a. unfold structural_call.
  rewrite unfailed_app. apply Morphisms_Prop.and_iff_morphism.
  - destruct (structural_fields (pd_ty a.2)) as [req|]; [|vacuous].
    destruct (structural_type_satisfies _ _ req) eqn:E; decided.
  - destruct (dyn_interface (pd_ty a.2)) as [i'|]; [|vacuous].
    destruct (implements _ _ i') eqn:E; decided.
Qed.

(** A subpass over the generic bindings of the calls *)
Lemma on_bindings_ok g (f : GraphEdge → GraphNode → list TypeArgBinding → list GenericParamDecl → list VerificationEntry)
    (P : list TypeArgBinding → list GenericParamDecl → Prop) :
  (∀ e callee bs ps, unfailed (f e callee bs ps) ↔ P bs ps) →
  unfailed (calls g ≫= λ '(e, callee),
    match call_bindings e callee with Some (bs, ps) => f e callee bs ps | None => [] end) ↔
  Forall (λ c, ∀ bs ps, call_bindings c.1 c.2 = Some (bs, ps) → P bs ps) (calls g).
Proof.
  intros Hf.
  apply (on_calls_ok _ (λ e callee, ∀ bs ps, call_bindings e callee = Some (bs, ps) → P bs ps)). intros e callee.
  destruct (call_bindings e callee) as [[bs ps]|]; [|vacuous]. rewrite Hf. naive_solver.
Qed.

Lemma generic_bindings_ok g :
  unfailed (check_generic_call_bindings g) ↔
  Forall (λ c, ∀ bs ps, call_bindings c.1 c.2 = Some (bs, ps) → type_params_bound bs ps) (calls g).
Proof.
  apply on_bindings_ok. intros e callee bs ps. unfold generic_binding_entry, type_params_bound.
  set (tb := filter _ bs). set (d := declared_type_params ps).
  destruct (find_first (λ b, tab_param b ∉ d) tb) as [b|] eqn:E.
  - apply find_first_Some in E as [Hin Hb]. autorewrite with unfailed. rewrite Forall_forall. split; [done|].
    intros [H _]. by apply Hb, H.
  - rewrite find_first_None in E. assert (Forall (λ b, tab_param b ∈ d) tb) as Hall.
    { apply Forall_forall. intros b Hb. destruct (decide (tab_param b ∈ d)); [done|]. by destruct (E b Hb). }
    case_decide; [autorewrite with unfailed; naive_solver|]. case_decide; autorewrite with unfailed; naive_solver.
Qed.

Lemma const_bindings_ok g :
  unfailed (check_const_param_call_bindings g) ↔
  Forall (λ c, ∀ bs ps, call_bindings c.1 c.2 = Some (bs, ps) →
    Forall (λ b, is_const_binding ps b = true → is_const_param_value (tab_ty b) = true) bs) (calls g).
Proof.
  apply (on_bindings_ok g (λ e callee bs ps, bs ≫= const_binding_entry e callee ps)
    (λ bs ps, Forall (λ b, is_const_binding ps b = true → is_const_param_value (tab_ty b) = true) bs)).
  intros e callee bs ps. rewrite unfailed_bind. apply Forall_iff_compat. intros b _. unfold const_binding_entry.
  destruct (is_const_binding ps b); [|vacuous].
  destruct (is_const_param_value (tab_ty b)); autorewrite with unfailed; naive_solver.
Qed.

Lemma constraints_ok g :
  unfailed (check_constraints g) ↔
  Forall (λ n, ∀ tf arg rest needs, node_type_facts n = Some tf → tf_generics tf = arg :: rest →
    (tf_nominal tf, needs) ∈ COLLECTION_CONSTRAINTS → meets (collect g) arg needs) (graph_nodes g) ∧
  Forall (λ c, ∀ bs ps, call_bindings c.1 c.2 = Some (bs, ps) →
    Forall (λ b, ∀ gp, find_first (λ p, gpd_name p = tab_param b) ps = Some gp → gpd_required_constraints gp ≠ [] →
      meets (collect g) (tab_ty b) (needed (gpd_required_constraints gp))) bs) (calls g).
Proof.
  unfold check_constraints. rewrite unfailed_app. apply Morphisms_Prop.and_iff_morphism.
  - rewrite unfailed_bind. apply Forall_iff_compat. intros n _. apply collection_ok.
  - apply (on_bindings_ok g (λ e callee bs ps, bs ≫= binding_constraint (collect g) e callee ps)
      (λ bs ps, Forall (λ b, ∀ gp, find_first (λ p, gpd_name p = tab_param b) ps = Some gp →
        gpd_required_constraints gp ≠ [] → meets (collect g) (tab_ty b) (needed (gpd_required_constraints gp))) bs)).
    intros e callee bs ps. rewrite unfailed_bind. apply Forall_iff_compat. intros b _. unfold binding_constraint.
    destruct (find_first _ ps) as [gp|]; [|vacuous]. case_decide as Hr; [vacuous|]. rewrite constraint_entry_ok. naive_solver.
Qed.

Lemma assoc_never_fails g : unfailed (check_associated_type_resolution g).
Proof.
  unfold check_associated_type_resolution. rewrite unfailed_bind. apply Forall_forall. intros [e callee] _.
  unfold assoc_call. destruct (edge_call_args e) as [args|], (node_return_type callee) as [ty|]; try (by apply unfailed_nil).
  destruct (str_contains "::" ty); [|by apply unfailed_nil]. destruct (split_assoc_type ty) as [base name].
  destruct (find_map _ args); apply unfailed_cons; (split; [done|by apply unfailed_nil]).
Qed.

Lemma missing_names_empty need have : missing_names need have = ∅ ↔ ∀ x, x ∈ need → x ∈ have.
Proof.
  unfold missing_names. rewrite <- leibniz_equiv_iff, elem_of_equiv_empty.
  setoid_rewrite elem_of_difference. setoid_rewrite elem_of_list_to_set. split.
  - intros H x Hx. destruct (decide (x ∈ have)); [done|]. by destruct (H x).
  - intros H x [Hx Hn]. by apply Hn, H.
Qed.

Lemma propagation_entry_ok claim code category reason kind scope need have :
  unfailed (propagation_entry claim code category reason kind scope need have) ↔ ∀ x, x ∈ need → x ∈ have.
Proof.
  unfold propagation_entry. rewrite <- missing_names_empty. repeat case_decide; autorewrite with unfailed; tauto.
Qed.

Lemma threading_entry_ok claim code category reason kind scope need have :
  unfailed [threading_entry claim code category reason kind scope need have] ↔ ∀ x, x ∈ need → x ∈ have.
Proof.
  unfold threading_entry. rewrite <- missing_names_empty. case_decide; autorewrite with unfailed; tauto.
Qed.

Lemma propagation_ok g :
  unfailed (check_effect_capability_propagation g) ↔
  Forall (λ c : GraphEdge * GraphNode * GraphNode, (∀ x, x ∈ effects_of c.2 → x ∈ effects_of c.1.2) ∧
    (∀ x, x ∈ caps_of c.2 → x ∈ caps_of c.1.2)) (known_calls g).
Proof.
  unfold check_effect_capability_propagation. rewrite unfailed_sort, unfailed_bind. apply Forall_iff_compat.
  intros [[e caller] callee] _. cbn [fst snd]. unfold call_propagation. rewrite unfailed_app.
  apply Morphisms_Prop.and_iff_morphism;
    [change (effects_of callee) with (from_option er_effects [] (node_effect_row callee))
    |change (caps_of callee) with (from_option cr_caps [] (node_capability_reqs callee))].
  - destruct (node_effect_row callee) as [row|]; cbn [from_option]; [apply propagation_entry_ok|].
    rewrite unfailed_nil. split; [|done]. by intros _ x []%not_elem_of_nil.
  - destruct (node_capability_reqs callee) as [reqs|]; cbn [from_option]; [apply propagation_entry_ok|].
    rewrite unfailed_nil. split; [|done]. by intros _ x []%not_elem_of_nil.
Qed.

Lemma threading_ok g :
  unfailed (check_effect_capability_param_threading g) ↔
  Forall (λ c : GraphEdge * GraphNode * GraphNode,
    (∀ bs b x, edge_effect_arg_bindings c.1.1 = Some bs → b ∈ bs → x ∈ eab_effects b → x ∈ effects_of c.1.2) ∧
    (∀ bs b x, edge_capability_arg_bindings c.1.1 = Some bs → b ∈ bs → x ∈ cab_caps b → x ∈ caps_of c.1.2))
    (known_calls g).
Proof.
  unfold check_effect_capability_param_threading. rewrite unfailed_sort, unfailed_bind. apply Forall_iff_compat.
  intros [[e caller] callee] _. cbn [fst snd]. unfold call_threading. rewrite unfailed_app.
  apply Morphisms_Prop.and_iff_morphism.
  - destruct (edge_effect_arg_bindings e) as [bs|]; [|vacuous]. rewrite threading_entry_ok.
    setoid_rewrite list_elem_of_bind. naive_solver.
  - destruct (edge_capability_arg_bindings e) as [bs|]; [|vacuous]. rewrite threading_entry_ok.
    setoid_rewrite list_elem_of_bind. naive_solver.
Qed.

(** Of a flattened list without duplicates, no part has duplicates *)
Lemma NoDup_bind_part {A B} (f : A → list B) (l : list A) x : NoDup (l ≫= f) → x ∈ l → NoDup (f x).
Proof.
  intros H (l1 & l2 & ->)%list_elem_of_split. rewrite bind_app, bind_cons in H.
  by apply NoDup_app in H as (_ & _ & (H & _ & _)%NoDup_app).
Qed.

Lemma type_entries_ok g : unfailed (type_entries g) ↔ well_typed g.
Proof.
  pose proof (partial_ord_never_fails g) as Hpo. pose proof (materialization_never_fails g) as Hma.
  pose proof (assoc_never_fails g) as Has. pose proof (variance_implied g) as Hva.
  unfold type_entries. rewrite !unfailed_app. rewrite nominal_presence_ok, nominal_calls_ok, generic_params_ok, generic_bindings_ok,
    propagation_ok, structural_ok, coherence_ok, constraints_ok, refinements_ok, null_ok, float_ok, patchfield_ok,
    inference_ok, const_bindings_ok, schema_ok, threading_ok, blanket_ok.
  rewrite nominal_calls_ok in Hva. split.
  - intros (H1 & H2 & H3 & H4 & H5 & _ & H7 & (H8 & _) & (H9 & H10) & H11 & _ & H12 & H13 & H14 & _ & H15 & _ & H16 & H17 & H18 & H19 & H20).
    repeat match goal with H : Forall _ (_ g) |- _ => rewrite Forall_forall in H end.
    split; [..|done]; apply Forall_forall.
    + intros n Hn. split; eauto.
    + intros [e callee] Hc. destruct (H7 _ Hc) as [Hs Hd]. split; cbn [fst snd]; [by apply (H2 _ Hc)|done|done| | |].
      * by apply (H4 _ Hc).
      * intros bs ps b gp Hb Hin. specialize (H10 _ Hc bs ps Hb). rewrite Forall_forall in H10. by apply H10.
      * intros bs ps b Hb Hin. specialize (H16 _ Hc bs ps Hb). rewrite Forall_forall in H16. by apply H16.
    + intros [[e caller] callee] Hc. destruct (H5 _ Hc), (H18 _ Hc). by split.
  - intros [Hn Hc Hk Hu]. assert (∀ (P : GraphNode → Prop), (∀ n, node_typed (collect g) n → P n) → Forall P (graph_nodes g)) as Gn.
    { intros P HP. by eapply Forall_impl. }
    assert (∀ P : _ → Prop, (∀ c, call_typed (collect g) c.1 c.2 → P c) → Forall P (calls g)) as Gc.
    { intros P HP. by eapply Forall_impl. }
    assert (∀ P : _ → Prop, (∀ c, call_covered c.1.1 c.1.2 c.2 → P c) → Forall P (known_calls g)) as Gk.
    { intros P HP. by eapply Forall_impl. }
    split_and!; try done.
    all: try (apply Gn; intros n Hnt; apply Hnt).
    + apply Gc. intros c Hct. apply Hct.
    + apply Gc. intros c Hct. apply Hct.
    + apply Gk. intros c Hct. split; apply Hct.
    + apply Hva. apply Gc. intros c Hct. apply Hct.
    + apply Gc. intros c Hct. split; apply Hct.
    + apply Forall_forall. intros n Hin. by apply (NoDup_bind_part _ _ n Hu).
    + apply Gc. intros c Hct bs ps Hb. apply Forall_forall. intros b Hin gp. by apply (ct_constraints _ _ _ Hct bs ps b gp).
    + apply Gc. intros c Hct bs ps Hb. apply Forall_forall. intros b Hin. by apply (ct_consts _ _ _ Hct bs ps b).
    + apply Gk. intros c Hct. split; apply Hct.
Qed.

(** The checker reports no failure exactly on the graphs its subpasses accept. *)
Lemma type_check_exact g :
  (∀ e, e ∈ vr_entries (type_check g) → ve_state e ≠ StFailed) ↔ well_typed g.
Proof. rewrite <- type_entries_ok. unfold unfailed. by rewrite Forall_forall. Qed.

(* ------------------------------------------------------------------ *)
(** ** What acceptance is worth *)

(** [e] is a call edge from [caller] to [callee]. *)
Definition call_edge (g : SemanticGraph) (e : GraphEdge) (caller callee : GraphNode) : Prop :=
  e ∈ graph_edges g ∧ edge_kind e = EkCalls ∧
  caller ∈ graph_nodes g ∧ node_id caller = edge_source e ∧
  callee ∈ graph_nodes g ∧ node_id callee = edge_target e.

Definition calls_node (g : SemanticGraph) (caller callee : GraphNode) : Prop := ∃ e, call_edge g e caller callee.

Definition declares_effect (n : GraphNode) (x : string) : Prop :=
  ∃ row, node_effect_row n = Some row ∧ x ∈ er_effects row.
Definition requires_capability (n : GraphNode) (x : string) : Prop :=
  ∃ reqs, node_capability_reqs n = Some reqs ∧ x ∈ cr_caps reqs.

(** A type that is compared by name: neither [Dyn<...>] nor [struct{...}] *)
Definition nominal_type (ty : string) : Prop := starts_with "Dyn<" ty = false ∧ starts_with "struct{" ty = false.

Record types_sound (g : SemanticGraph) : Prop := {
  ts_effects : ∀ caller callee x, rtc (calls_node g) caller callee → declares_effect callee x →
    declares_effect caller x;
  ts_capabilities : ∀ caller callee x, rtc (calls_node g) caller callee → requires_capability callee x →
    requires_capability caller x;
  ts_arguments : ∀ e caller callee args params i arg param, call_edge g e caller callee →
    edge_call_args e = Some args → node_params callee = Some params →
    args !! i = Some arg → params !! i = Some param → nominal_type (pd_ty param) → arg = pd_ty param;
  ts_coherent : ∀ n impls i j a b, n ∈ graph_nodes g → node_interface_impls n = Some impls →
    impls !! i = Some a → impls !! j = Some b → iim_is_adapter a = false → iim_is_adapter b = false →
    iim_interface a = iim_interface b → i = j;
  ts_refinement : ∀ n rf, n ∈ graph_nodes g → node_refinement_ref n = Some rf →
    rr_status rf ≠ RsFailed ∧
    (rr_status rf = RsProven → trim (rr_predicate rf) ≠ "false" ∧ trim (rr_predicate rf) ≠ "") ∧
    (rr_status rf = RsRuntimeChecked → ∃ checks, node_runtime_checks n = Some checks ∧ checks ≠ []);
  ts_null : ∀ n ty, n ∈ graph_nodes g → node_return_type n = Some ty →
    to_lowercase ty ∉ ["null"; "nil"; "undefined"; "void"];
  ts_float : ∀ n tf cs, n ∈ graph_nodes g → node_type_facts n = Some tf → tf_nominal tf = "Float" →
    node_constraint_set n = Some cs → cs_has_eq cs = false ∧ cs_has_ord cs = false;
}.

Lemma by_ref_lookup l (m : gmap NodeRef GraphNode) id n :
  NoDup (node_id <$> l) →
  foldl (λ m n, <[node_id n := n]> m) m l !! id = Some n ↔
  (n ∈ l ∧ node_id n = id) ∨ ((id ∉ (node_id <$> l)) ∧ m !! id = Some n).
Proof.
  revert m. induction l as [|a l IH]; intros m Hnd; cbn.
  { split; [right; split; [apply not_elem_of_nil|done]|]. by intros [[[]%not_elem_of_nil _]|[_ ?]]. }
  apply NoDup_cons in Hnd as [Ha Hnd]. rewrite IH by done. rewrite !elem_of_cons.
  destruct (decide (id = node_id a)) as [->|Hne].
  - rewrite lookup_insert_eq. split.
    + intros [[Hn Hi]|[_ [= <-]]]; [|by left; split; [left|]].
      left. split; [by right|done].
    + intros [[[->|Hn] Hi]|[[] _]]; [by right|by left|by left].
  - rewrite lookup_insert_ne by done. split.
    + intros [[Hn Hi]|[Hn Hm]]; [left; split; [by right|done]|right; split; [tauto|done]].
    + intros [[[->|Hn] Hi]|[Hn Hm]]; [by subst|by left|right; split; [tauto|done]].
Qed.

Lemma collect_lookup g id n :
  NoDup (node_ids g) → by_ref (collect g) !! id = Some n ↔ n ∈ graph_nodes g ∧ node_id n = id.
Proof.
  intros Hnd. unfold collect. cbn [by_ref]. rewrite by_ref_lookup by done. rewrite lookup_empty. naive_solver.
Qed.

Lemma known_calls_edge g e caller callee :
  NoDup (node_ids g) → (e, caller, callee) ∈ known_calls g ↔ call_edge g e caller callee.
Proof.
  intros Hnd. unfold known_calls, calls, call_edge. rewrite list_elem_of_omap. split.
  - intros ([e' c'] & Hc & Hk). apply bind_Some in Hk as (a & Ha & [= <- <- <-]).
    apply list_elem_of_omap in Hc as (e & He & Hc). case_decide as Hkind; [|done].
    apply bind_Some in Hc as (b & Hb & [= <- <-]). apply collect_lookup in Ha, Hb; [|done..]. tauto.
  - intros (He & Hk & Hcaller & Hs & Hcallee & Ht). exists (e, callee). split.
    + apply list_elem_of_omap. exists e. split; [done|]. rewrite decide_True by done.
      by rewrite (proj2 (collect_lookup g _ callee Hnd) (conj Hcallee Ht)).
    + by rewrite (proj2 (collect_lookup g _ caller Hnd) (conj Hcaller Hs)).
Qed.

Lemma known_calls_calls g e caller callee : (e, caller, callee) ∈ known_calls g → (e, callee) ∈ calls g.
Proof.
  unfold known_calls. rewrite list_elem_of_omap. intros ([e' c'] & Hc & Hk).
  by apply bind_Some in Hk as (a & Ha & [= <- <- <-]).
Qed.

Lemma declares_effect_iff n x : declares_effect n x ↔ x ∈ effects_of n.
Proof. unfold declares_effect, effects_of. destruct (node_effect_row n); cbn; [naive_solver|]. rewrite elem_of_nil. naive_solver. Qed.
Lemma requires_capability_iff n x : requires_capability n x ↔ x ∈ caps_of n.
Proof. unfold requires_capability, caps_of. destruct (node_capability_reqs n); cbn; [naive_solver|]. rewrite elem_of_nil. naive_solver. Qed.

(** Names that occur once in a filtered list *)
Lemma own_unique impls i j a b :
  NoDup (iim_interface <$> filter (λ im, iim_is_adapter im = false) impls) →
  impls !! i = Some a → impls !! j = Some b → iim_is_adapter a = false → iim_is_adapter b = false →
  iim_interface a = iim_interface b → i = j.
Proof.
  revert i j. induction impls as [|c impls IH]; intros i j Hnd Hi Hj Ha Hb Hab; [done|].
  destruct i as [|i], j as [|j]; cbn in Hi, Hj; simplify_eq; [done| | |].
  - exfalso. rewrite filter_cons_True in Hnd by done. cbn in Hnd. apply NoDup_cons in Hnd as [[] _].
    rewrite Hab. apply list_elem_of_fmap_2, list_elem_of_filter. split; [done|by eapply list_elem_of_lookup_2].
  - exfalso. rewrite filter_cons_True in Hnd by done. cbn in Hnd. apply NoDup_cons in Hnd as [[] _].
    rewrite <- Hab. apply list_elem_of_fmap_2, list_elem_of_filter. split; [done|by eapply list_elem_of_lookup_2].
  - f_equal. apply IH; try done. rewrite filter_cons in Hnd. case_decide; [|done].
    cbn in Hnd. by apply NoDup_cons in Hnd as [_ ?].
Qed.

Lemma well_typed_sound g : NoDup (node_ids g) → well_typed g → types_sound g.
Proof.
  intros Hnd [Hn Hc Hk Hu]. rewrite Forall_forall in Hn. rewrite Forall_forall in Hc. rewrite Forall_forall in Hk.
  assert (∀ caller callee, calls_node g caller callee → ∃ e, (e, caller, callee) ∈ known_calls g) as Hcall.
  { intros caller callee [e He]. exists e. by apply known_calls_edge. }
  split.
  - intros caller callee x Hr. setoid_rewrite declares_effect_iff.
    induction Hr as [|a b c (e & He)%Hcall _ IH]; [done|]. intros Hx. apply (cc_effects _ _ _ (Hk _ He)). auto.
  - intros caller callee x Hr. setoid_rewrite requires_capability_iff.
    induction Hr as [|a b c (e & He)%Hcall _ IH]; [done|]. intros Hx. apply (cc_caps _ _ _ (Hk _ He)). auto.
  - intros e caller callee args params i arg param He Hargs Hparams Hi Hj _.
    apply known_calls_edge in He; [|done]. apply known_calls_calls in He. pose proof (ct_args _ _ _ (Hc _ He)) as Ha.
    unfold call_params in Ha. cbn in Ha. rewrite Hargs, Hparams, Forall_forall in Ha.
    apply (Ha (arg, param)). apply (list_elem_of_lookup_2 _ i). by rewrite lookup_zip_with, Hi; cbn; rewrite Hj.
  - intros n impls i j a b Hin Himpls. eapply own_unique.
    pose proof (NoDup_bind_part _ _ n Hu Hin) as Hp. unfold own_impls in Hp. by rewrite Himpls in Hp.
  - intros n rf Hin Hrf. pose proof (nt_refinement _ _ (Hn _ Hin) rf Hrf) as Hr. unfold refinement_ok in Hr.
    destruct (rr_status rf); try done. split_and!; [done..|]. intros _.
    destruct (node_runtime_checks n) as [checks|]; [|done]. by exists checks.
  - intros n ty Hin Hty. exact (nt_null _ _ (Hn _ Hin) ty Hty).
  - intros n tf cs Hin Htf Hf Hcs. exact (nt_float _ _ (Hn _ Hin) tf cs Htf Hcs Hf).
Qed.

(** C9: what a type check without failed entries is worth, on graphs without duplicate node ids.  (1) The effect and
    capability subpass fails no entry exactly when, for every call edge between nodes of the graph, the effects and the
    capability requirements that the callee declares are declared by the caller too.  (2) If the whole report has no
    failed entry, then every node declares the effects and capabilities of all nodes it reaches along call edges; an
    argument passed to a parameter whose type is neither [Dyn<...>] nor [struct{...}] has the declared type, position by
    position (that there are as many arguments as parameters is not checked); no node implements an interface twice
    without an adapter; no refinement is marked failed, proven with an empty or false predicate, or checked at run time
    without a runtime check; no return type is a null word; and no [Float] declares equality or an order. *)
Theorem type_check_sound g (Hids : NoDup (node_ids g)) :
  ((∀ e, e ∈ check_effect_capability_propagation g → ve_state e ≠ StFailed) ↔
   ∀ caller callee, calls_node g caller callee →
     (∀ x, declares_effect callee x → declares_effect caller x) ∧
     (∀ x, requires_capability callee x → requires_capability caller x)) ∧
  ((∀ e, e ∈ vr_entries (type_check g) → ve_state e ≠ StFailed) → types_sound g).
Proof.
  split; [|rewrite type_check_exact; by apply well_typed_sound].
  pose proof (propagation_ok g) as Hp. unfold unfailed in Hp. rewrite !Forall_forall in Hp. rewrite Hp.
  setoid_rewrite declares_effect_iff. setoid_rewrite requires_capability_iff. split.
  - intros H caller callee [e He]. apply known_calls_edge in He; [|done]. exact (H _ He).
  - intros H [[e caller] callee] He. apply known_calls_edge in He; [|done]. apply H. by exists e.
Qed.

(* ------------------------------------------------------------------ *)
(** ** Local inference: the fuel suffices *)

Lemma length_trim s : String.length (trim s) ≤ String.length s.
Proof.
  unfold trim. rewrite <- length_chars, to_of_chars, length_rev. etrans; [apply length_trim_start_rev|].
  rewrite length_rev. etrans; [apply length_trim_start|]. by rewrite <- (length_chars s).
Qed.

Lemma split_text_Some pat s l r : split_text pat s = Some (l, r) → s = (l +:+ (pat +:+ r)).
Proof.
  revert l r. induction s as [|c s IH]; intros l r; cbn [split_text].
  - destruct (strip_prefix pat "") as [r'|] eqn:E; [|done]. intros [= <- <-]. rewrite append_nil. by apply strip_prefix_Some.
  - destruct (strip_prefix pat (String c s)) as [r'|] eqn:E.
    { intros [= <- <-]. rewrite append_nil. by apply strip_prefix_Some. }
    destruct (split_text pat s) as [[l' r']|]; [|done]. intros [= <- <-]. rewrite append_cons. f_equal. by apply IH.
Qed.

Lemma length_strip_last a s r : strip_last a s = Some r → String.length r < String.length s.
Proof.
  revert r. induction s as [|c s IH]; intros r; cbn [strip_last]; [done|].
  destruct s as [|d s]; [case_decide; [|done]; intros [= <-]; cbn; lia|].
  destruct (strip_last a (String d s)) as [r'|]; [|done]. intros [= <-]. specialize (IH r' eq_refl). cbn in *. lia.
Qed.

Lemma length_else_branch body e : else_branch body = Some e → String.length e < String.length body.
Proof.
  intros ([l r] & Hs%split_text_Some & He)%bind_Some. apply (inj Some) in He. subst e. cbn [snd].
  assert (String.length (trim r) < String.length body) as Hr.
  { rewrite Hs, !length_append. pose proof (length_trim r). cbn [String.length]. lia. }
  destruct (strip_prefix "{" (trim r)) as [s|] eqn:Ep; [|done].
  destruct (strip_last "}" s) as [t|] eqn:El; cbn [from_option]; [|done].
  apply strip_prefix_Some in Ep. rewrite Ep, length_append in Hr. apply length_strip_last in El.
  pose proof (length_trim t). lia.
Qed.

(** Every amount of fuel beyond the length of the expression gives the same type. *)
Lemma infer_expr_enough ctx body f1 f2 :
  String.length body < f1 → String.length body < f2 → infer_expr_type f1 ctx body = infer_expr_type f2 ctx body.
Proof.
  revert f2 body. induction f1 as [|f1 IH]; intros [|f2] body H1 H2; try lia. cbn [infer_expr_type].
  assert (else_branch body ≫= infer_expr_type f1 ctx = else_branch body ≫= infer_expr_type f2 ctx) as ->; [|done].
  destruct (else_branch body) as [e|] eqn:E; [|done]. apply length_else_branch in E. apply IH; lia.
Qed.

(* ------------------------------------------------------------------ *)
(** ** Consequences *)

(** Arguments are compared by name before the structural and [Dyn] checks run: in
    a well-typed graph what is passed to a [Dyn<I>] or [struct{...}] parameter has that very type. *)
Lemma dyn_argument_is_dyn g e callee arg p :
  well_typed g → (e, callee) ∈ calls g → (arg, p) ∈ call_params e callee → arg = pd_ty p.
Proof.
  intros [_ Hc _ _] Hin Ha. rewrite Forall_forall in Hc. destruct (Hc _ Hin) as [Hargs _ _ _ _ _].
  rewrite Forall_forall in Hargs. exact (Hargs _ Ha).
Qed.

Module TypeSample.

Definition callee (params : list ParamDecl) : GraphNode :=
  set_params (Some params) (graph_node_new 1%N NkFunction "fn.pay").
Definition user : GraphNode :=
  MkGraphNode 2%N NkType "Stripe" None None None None None None None None None None None None None
    (Some [MkInterfaceImplMeta "PaymentProvider" [] false]) None None None [] [] [] [] [] None None None None.
Definition interface : GraphNode := graph_node_new 3%N NkInterface "PaymentProvider".

Definition graph (args : list string) (params : list ParamDecl) : SemanticGraph :=
  MkSemanticGraph [graph_node_new 0%N NkFunction "fn.main"; callee params; user; interface]
    [MkGraphEdge 0%N 1%N EkCalls (Some args) None None None].

Definition failures (g : SemanticGraph) : list (string * string) :=
  (λ e, (ve_claim e, ve_scope e)) <$> filter (λ e, ve_state e = StFailed) (vr_entries (type_check g)).

(** A type that implements the interface is refused where [Dyn] of the interface is asked for. *)
Example dyn_implementation_refused :
  failures (graph ["Stripe"] [MkParamDecl "provider" "Dyn<PaymentProvider>"]) = [("nominal-call", "0→fn.pay[0]")].
Proof. vm_compute. reflexivity. Qed.

(** A call with too few or too many arguments passes: the arguments are zipped with the parameters. *)
Example arity_unchecked :
  failures (graph [] [MkParamDecl "provider" "Stripe"]) = [] ∧
  failures (graph ["Stripe"; "Stripe"] [MkParamDecl "provider" "Stripe"]) = [].
Proof. split; vm_compute; reflexivity. Qed.

(** A graph of three functions that call one another, whose effects are declared along the calls. *)
Definition with_effects (id : NodeRef) (name : string) (effects : list string) : GraphNode :=
  set_effect_row (Some (MkEffectRow effects)) (graph_node_new id NkFunction name).
Definition effect_chain (effects : list string) : SemanticGraph :=
  MkSemanticGraph [with_effects 0%N "fn.main" effects; with_effects 1%N "fn.mid" ["db:Postgres"];
                   with_effects 2%N "fn.leaf" ["db:Postgres"]]
    [graph_edge_new 0%N 1%N EkCalls; graph_edge_new 1%N 2%N EkCalls].

(** The leaf's effect is declared by the root of the chain; without the declaration the subpass fails. *)
Lemma type_check_sound_witness :
  types_sound (effect_chain ["db:Postgres"]) ∧
  ¬ (∀ e, e ∈ check_effect_capability_propagation (effect_chain []) → ve_state e ≠ StFailed).
Proof.
  assert (∀ effects, NoDup (node_ids (effect_chain effects))) as Hids.
  { intros effects. apply (bool_decide_unpack _). vm_compute. exact I. }
  split.
  - apply (type_check_sound (effect_chain ["db:Postgres"]) (Hids _)). apply Forall_forall.
    apply (bool_decide_unpack _). vm_compute. exact I.
  - rewrite (proj1 (type_check_sound (effect_chain []) (Hids _))). intros H.
    destruct (H (with_effects 0%N "fn.main" []) (with_effects 1%N "fn.mid" ["db:Postgres"])) as [He _].
    { exists (graph_edge_new 0%N 1%N EkCalls). split_and!; try reflexivity; [left|left|right; left]. }
    destruct (He "db:Postgres") as (row & [= <-] & []%not_elem_of_nil).
    exists (MkEffectRow ["db:Postgres"]). split; [reflexivity|left].
Defined.
End TypeSample.
