(* ===== verification/VerifyTranslation.v ===== *)
(** * Translation validation

    ail-verify/src/translation_validator.rs and tv_obligations.rs: the four
    tiers of checks on what survives lowering, the profiles that run them, and
    the scan of a body for the effects it uses.  The scan walks the bytes of the
    body and slices it there, so it panics inside a character that takes several
    bytes: [None].  Alphanumeric characters are those of ASCII. *)

From stdpp Require Import pretty gmap.
From S2P Require Import Prelude Text Anf Trim Ordering GraphTypes SemanticGraph VerifySolver VerifyReport VerifyCheckers VerifyStages AclText VerifyTypes.

(* ------------------------------------------------------------------ *)
(** ** tv_obligations.rs *)

Definition make_entry (claim : string) (state : VerificationState) (scope : string) (evidence : option string)
    (repair_options : list string) : VerificationEntry :=
  MkVerificationEntry claim state scope evidence (state_blocks state) repair_options.

Definition is_prod_or_stricter (profile : string) : bool :=
  bool_decide (profile ∈ ["prod"; "staging"; "critical"]) || negb (bool_decide (profile ∈ ["draft"; "dev"; "test"])).

Definition tv_is_critical_like (profile : string) : bool :=
  bool_decide (profile = "critical")
  || negb (bool_decide (profile ∈ ["draft"; "dev"; "test"; "staging"; "prod"])).

Definition canonical_effects (effects : list string) : list string :=
  set_iter (list_to_set effects : gset string).

Definition translation_claim_rank (claim : string) : N :=
  if decide (claim = "translation-validation/shape") then 0
  else if decide (claim = "translation-validation/provenance") then 1
  else if decide (claim = "translation-validation/effect-obligation") then 2
  else if decide (claim = "translation-validation/evidence-sufficiency") then 3
  else if decide (claim = "translation-validation/summary") then 4
  else 9.

Definition translation_key (e : VerificationEntry) : N * string * N * option string * list string :=
  (translation_claim_rank (ve_claim e), ve_scope e, verification_state_rank (ve_state e), ve_evidence e,
   ve_repair_options e).

Definition normalize_translation_entries (entries : list VerificationEntry) : list VerificationEntry :=
  sort_dedup translation_key entries.

(** The characters of an effect identifier *)
Definition effect_char (c : ascii) : bool := is_ident_char c || bool_decide (c = ":"%char).
Definition effect_ident (ident : string) : bool := negb (bool_decide (ident = "")) && string_all effect_char ident.

(** The scan for one keyword from a position of the body: [skip] bytes before the next slice are consumed *)
Fixpoint effect_scan (keyword : string) (skip : nat) (rest : string) : option (list string) :=
  match rest with
  | "" => Some []
  | String c rest' =>
      match skip with
      | S skip' => effect_scan keyword skip' rest'
      | O =>
          if continuation_byte c then None
          else match strip_prefix keyword rest with
               | Some inner =>
                   match split_once ")" inner with
                   | Some (raw, _) =>
                       found ← effect_scan keyword (String.length keyword + String.length raw) rest';
                       Some (if effect_ident (trim raw) then trim raw :: found else found)
                   | None => effect_scan keyword (Nat.pred (String.length keyword)) rest'
                   end
               | None => effect_scan keyword 0 rest'
               end
      end
  end.

Definition EFFECT_KEYWORDS : list string := ["emit_effect("; "run_effect("; "bind_effect("].

Definition extract_body_effects (body : string) : option (list string) :=
  found ← mapM (λ keyword, effect_scan keyword 0 body) EFFECT_KEYWORDS;
  Some (set_iter (list_to_set (mjoin found) : gset string)).

Definition effect_is_declared (id : string) (declared_effects : list string) : bool :=
  existsb (λ decl, bool_decide (decl = id) || starts_with (id +:+ ":") decl) declared_effects.

Definition declared_row (n : GraphNode) : list string :=
  from_option (λ r, canonical_effects (er_effects r)) [] (node_effect_row n).

Definition obligation_entry (n : GraphNode) (body_effects : list string) : VerificationEntry :=
  match filter (λ id, effect_is_declared id (declared_row n) = false) body_effects with
  | [] =>
      make_entry "translation-validation/effect-obligation" StProven (node_name n)
        (Some (fmt ["all "; pretty (length body_effects);
                    " body effect(s) declared in effect_row; control-flow/effect obligation satisfied"])) []
  | undeclared =>
      make_entry "translation-validation/effect-obligation" StFailed (node_name n)
        (Some (fmt ["E_TV_EFFECT_UNDECLARED: body of '"; node_name n; "' uses effect(s) ["; join ", " undeclared;
                    "] not declared in effect_row; undeclared effects cannot be lowered to Core IR safely"]))
        ["add the missing effect(s) to the function's effect_row declaration";
         "remove the effect call from the body if the effect is unintended"]
  end.

(** One turn of the loop over the nodes *)
Definition node_obligation (n : GraphNode) : option (list VerificationEntry) :=
  if decide (node_kind n = NkFunction) then
    match node_body_expr n with
    | None => Some []
    | Some body =>
        body_effects ← extract_body_effects body;
        Some (if decide (body_effects = []) then [] else [obligation_entry n body_effects])
    end
  else Some [].

Definition check_effect_obligations (g : SemanticGraph) : option (list VerificationEntry) :=
  mjoin <$> mapM node_obligation (graph_nodes g).

Definition has_evidence (n : GraphNode) : bool :=
  bool_decide (is_Some (node_body_expr n)) || negb (bool_decide (default [] (node_runtime_checks n) = [])).

Definition evidence_entry (n : GraphNode) : list VerificationEntry :=
  if decide (node_kind n = NkFunction) then
    match node_effect_row n with
    | None => []
    | Some row =>
        if decide (er_effects row = []) then []
        else
          let declared_effects := canonical_effects (er_effects row) in
          let declared_count := pretty (length declared_effects) in
          if has_evidence n then
            [make_entry "translation-validation/evidence-sufficiency" StProven (node_name n)
               (Some (fmt ["function '"; node_name n; "' has evidence path for "; declared_count;
                           " declared effect(s); translation sufficiency satisfied"])) []]
          else
            [make_entry "translation-validation/evidence-sufficiency" StFailed (node_name n)
               (Some (fmt ["E_TV_INSUFFICIENT_EVIDENCE: function '"; node_name n; "' declares "; declared_count;
                           " effect(s) ["; join ", " declared_effects;
                           "] but has no body_expr and no runtime_checks; critical profile requires at least one evidence path through the translation chain"]))
               ["provide a body_expr with at least one effect call to serve as implementation evidence";
                "add runtime_checks entries to serve as evidence for the declared effects";
                "move the function to a less restrictive profile if critical evidence is not required"]]
    end
  else [].

Definition check_evidence_sufficiency (g : SemanticGraph) : list VerificationEntry := graph_nodes g ≫= evidence_entry.

(* ------------------------------------------------------------------ *)
(** ** translation_validator.rs *)

Definition shape_entry (n : GraphNode) : list VerificationEntry :=
  if decide (node_kind n = NkFunction) then
    match node_body_expr n with
    | None => []
    | Some _ =>
        match node_return_type n with
        | None =>
            [make_entry "translation-validation/shape" StUnverified (node_name n)
               (Some (fmt ["E_TV_SHAPE_NO_RETURN_TYPE: function '"; node_name n;
                           "' has body_expr but no declared return_type; return type is required for typed Core IR lowering"]))
               ["declare a return type annotation on the function signature";
                "if the function is a trait method, add a concrete return type to the implementation"]]
        | Some _ =>
            [make_entry "translation-validation/shape" StProven (node_name n)
               (Some (fmt ["function '"; node_name n;
                           "' has body_expr and declared return_type; shape consistent"])) []]
        end
    end
  else [].

Definition check_shape (g : SemanticGraph) : list VerificationEntry := graph_nodes g ≫= shape_entry.

Definition malformed_effects (effects : list string) : list string :=
  canonical_effects (filter (λ e, has_char ":" e = false) effects).

Definition provenance_entry (n : GraphNode) : list VerificationEntry :=
  match node_effect_row n with
  | None => []
  | Some row =>
      if decide (er_effects row = []) then []
      else match malformed_effects (er_effects row) with
           | [] =>
               [make_entry "translation-validation/provenance" StProven (node_name n)
                  (Some (fmt [pretty (length (canonical_effects (er_effects row)));
                              " declared effect(s) follow 'name:Provider' format; provenance traceable"])) []]
           | malformed =>
               [make_entry "translation-validation/provenance" StUnverified (node_name n)
                  (Some (fmt ["E_TV_EFFECT_MALFORMED: effect(s) ["; join ", " malformed; "] in '"; node_name n;
                              "' lack 'name:Provider' separator; provenance cannot be traced through Core IR lowering"]))
                  ["reformat the effect declaration to 'name:Provider' (e.g., 'db:Postgres')";
                   "verify the effect name uses the canonical 'name:Provider' handler-binding format"]]
           end
  end.

Definition check_effect_provenance (g : SemanticGraph) : list VerificationEntry := graph_nodes g ≫= provenance_entry.

Definition summary_entry : VerificationEntry :=
  make_entry "translation-validation/summary" StProven "translation_validation"
    (Some "all translation validation checks passed") [].

Definition translation_check (g : SemanticGraph) (profile : string) : option (list VerificationEntry) :=
  obligations ← if is_prod_or_stricter profile then check_effect_obligations g else Some [];
  let entries :=
    normalize_translation_entries
      (check_shape g ++ check_effect_provenance g ++ obligations
       ++ if tv_is_critical_like profile then check_evidence_sufficiency g else []) in
  Some (if decide (entries = []) then [summary_entry] else entries).

(* ------------------------------------------------------------------ *)
(** ** The scan *)

(** What the scan finds is a call of the keyword in the body. *)
Lemma effect_scan_sound keyword skip s found x :
  effect_scan keyword skip s = Some found → x ∈ found →
  effect_ident x = true ∧
  ∃ pre raw post, s = (pre +:+ keyword +:+ raw +:+ String ")" post) ∧ no_char ")" raw = true ∧ x = trim raw.
Proof.
  revert skip found. induction s as [|c s IH]; intros skip found; cbn [effect_scan].
  { intros [= <-] []%not_elem_of_nil. }
  assert (∀ skip' found', effect_scan keyword skip' s = Some found' → x ∈ found' → effect_ident x = true ∧
    ∃ pre raw post, String c s = (pre +:+ keyword +:+ raw +:+ String ")" post) ∧ no_char ")" raw = true ∧ x = trim raw)
    as Hrest.
  { intros skip' found' Hs Hx. destruct (IH _ _ Hs Hx) as (Hi & pre & raw & post & -> & ? & ?). split; [done|].
    by exists (String c pre), raw, post. }
  destruct skip as [|skip]; [|apply Hrest]. destruct (continuation_byte c); [done|].
  destruct (strip_prefix keyword (String c s)) as [inner|] eqn:Ek; [|apply Hrest].
  destruct (split_once ")" inner) as [[raw post]|] eqn:Ep; [|apply Hrest].
  intros (found' & Hs & [= <-])%bind_Some Hx.
  destruct (effect_ident (trim raw)) eqn:Ei; [|by eapply Hrest].
  apply elem_of_cons in Hx as [->|Hx]; [|by eapply Hrest]. split; [done|].
  apply strip_prefix_Some in Ek. apply split_once_Some in Ep as [-> Hn]. rewrite Ek. by exists "", raw, post.
Qed.

(** A body of ASCII characters is scanned to its end. *)
Lemma effect_scan_total keyword skip s : sliceable s = true → is_Some (effect_scan keyword skip s).
Proof.
  unfold sliceable. revert skip. induction s as [|c s IH]; intros skip; cbn [effect_scan string_all]; [by eauto|].
  intros [Hc Hs]%andb_true_iff. destruct skip; [|by apply IH].
  destruct (continuation_byte c); [done|].
  destruct (strip_prefix keyword (String c s)) as [inner|]; [|by apply IH].
  destruct (split_once ")" inner) as [[raw post]|]; [|by apply IH].
  destruct (IH (String.length keyword + String.length raw) Hs) as [found ->]. by eexists.
Qed.

(** The bytes to skip are skipped. *)
Lemma effect_scan_skip keyword a s : effect_scan keyword (String.length a) (a +:+ s) = effect_scan keyword 0 s.
Proof. induction a as [|c a IH]; [done|]. exact IH. Qed.

(** Bytes before which no call starts are walked over. *)
Lemma effect_scan_walk keyword a s :
  sliceable a = true →
  (∀ a1 a2 r, a = (a1 +:+ a2) → a2 ≠ "" → (a2 +:+ s) ≠ (keyword +:+ r)) →
  effect_scan keyword 0 (a +:+ s) = effect_scan keyword 0 s.
Proof.
  unfold sliceable. induction a as [|c a IH]; intros Hs Hn; [done|].
  cbn [string_all] in Hs. apply andb_true_iff in Hs as [Hc Hs]. rewrite append_cons. cbn [effect_scan].
  destruct (continuation_byte c); [done|].
  destruct (strip_prefix keyword (String c (a +:+ s))) as [inner|] eqn:Ek.
  { apply strip_prefix_Some in Ek. by destruct (Hn "" (String c a) inner). }
  apply IH; [done|]. intros a1 a2 r -> Hne. by apply (Hn (String c a1) a2 r).
Qed.

(** A call: its identifier is found, and the scan goes on behind it. *)
Lemma effect_scan_call keyword raw s :
  keyword ≠ "" → sliceable keyword = true → no_char ")" raw = true →
  effect_scan keyword 0 (keyword +:+ raw +:+ String ")" s) =
  found ← effect_scan keyword 0 s; Some (if effect_ident (trim raw) then trim raw :: found else found).
Proof.
  intros Hne Hs Hr. destruct keyword as [|c k]; [done|]. unfold sliceable in Hs. cbn [string_all] in Hs.
  apply andb_true_iff in Hs as [Hc _]. set (kw := String c k) in *.
  assert (strip_prefix kw (kw +:+ raw +:+ String ")" s) = Some (raw +:+ String ")" s)) as Ek by (by apply strip_prefix_Some).
  assert (split_once ")" (raw +:+ String ")" s) = Some (raw, s)) as Ep by (by apply split_once_Some).
  change (effect_scan kw 0 (kw +:+ raw +:+ String ")" s)) with
    (if continuation_byte c then None
     else match strip_prefix kw (kw +:+ raw +:+ String ")" s) with
          | Some inner =>
              match split_once ")" inner with
              | Some (raw', _) =>
                  found ← effect_scan kw (String.length kw + String.length raw') (k +:+ raw +:+ String ")" s);
                  Some (if effect_ident (trim raw') then trim raw' :: found else found)
              | None => effect_scan kw (Nat.pred (String.length kw)) (k +:+ raw +:+ String ")" s)
              end
          | None => effect_scan kw 0 (k +:+ raw +:+ String ")" s)
          end).
  rewrite Ek, Ep. destruct (continuation_byte c); [done|].
  assert (∀ n, String.length kw + String.length raw = n → n = String.length (k +:+ raw +:+ ")")) as Hl.
  { intros n <-. unfold kw. rewrite !length_append. cbn [String.length]. lia. }
  rewrite (Hl _ eq_refl). replace (k +:+ raw +:+ String ")" s) with ((k +:+ raw +:+ ")") +:+ s).
  - by rewrite effect_scan_skip.
  - by rewrite <- !append_assoc.
Qed.

(* ------------------------------------------------------------------ *)
(** ** A body as the calls it makes *)

(** [keyword] starts nowhere in [text] when [after] follows it. *)
Definition free_of (keyword text after : string) : Prop :=
  ∀ a1 a2 r, text = (a1 +:+ a2) → a2 ≠ "" → (a2 +:+ after) ≠ (keyword +:+ r).

Fixpoint calls_text (keyword : string) (calls : list (string * string)) (tail : string) : string :=
  match calls with
  | [] => tail
  | (before, raw) :: calls' => before +:+ (keyword +:+ (raw +:+ String ")" (calls_text keyword calls' tail)))
  end.

Fixpoint plain_calls (keyword : string) (calls : list (string * string)) (tail : string) : Prop :=
  match calls with
  | [] => sliceable tail = true ∧ free_of keyword tail ""
  | (before, raw) :: calls' =>
      sliceable before = true ∧ no_char ")" raw = true ∧
      free_of keyword before (keyword +:+ (raw +:+ String ")" (calls_text keyword calls' tail))) ∧
      plain_calls keyword calls' tail
  end.

(** On a body written as calls with text between them, the scan finds the identifiers of all of them, in order. *)
Lemma effect_scan_calls keyword calls tail :
  keyword ≠ "" → sliceable keyword = true → plain_calls keyword calls tail →
  effect_scan keyword 0 (calls_text keyword calls tail) =
  Some (filter (λ x, effect_ident x = true) (trim ∘ snd <$> calls)).
Proof.
  intros Hk Hs. induction calls as [|[before raw] calls IH]; cbn [plain_calls calls_text].
  - intros [Ht Hf]. rewrite <- (append_empty tail). by rewrite effect_scan_walk.
  - intros (Hb & Hr & Hf & Hp). rewrite effect_scan_walk by done. rewrite effect_scan_call by done.
    rewrite IH by done. cbn [mbind option_bind fmap list_fmap compose snd]. f_equal.
    destruct (effect_ident (trim raw)) eqn:E; [by rewrite filter_cons_True|by rewrite filter_cons_False; [|congruence]].
Qed.

Lemma mapM_total {A B} (f : A → option B) l : (∀ x, x ∈ l → is_Some (f x)) → is_Some (mapM f l).
Proof.
  intros H. apply mapM_is_Some. by apply Forall_forall.
Qed.

Lemma mapM_elem {A B} (f : A → option B) l ys y : mapM f l = Some ys → y ∈ ys ↔ ∃ x, x ∈ l ∧ f x = Some y.
Proof.
  intros Hm%mapM_Some. induction Hm as [|x z l ys Hx Hm IH].
  - split; [by intros []%not_elem_of_nil|]. by intros (x & []%not_elem_of_nil & _).
  - rewrite elem_of_cons, IH. setoid_rewrite elem_of_cons. naive_solver.
Qed.

Lemma extract_total body : sliceable body = true → is_Some (extract_body_effects body).
Proof.
  intros Hs. unfold extract_body_effects.
  destruct (mapM_total (λ keyword, effect_scan keyword 0 body) EFFECT_KEYWORDS) as [found ->]; [|by eexists].
  intros k _. by apply effect_scan_total.
Qed.

(** What a body is said to use *)
Lemma extract_elem body found x :
  extract_body_effects body = Some found →
  x ∈ found ↔ ∃ keyword xs, keyword ∈ EFFECT_KEYWORDS ∧ effect_scan keyword 0 body = Some xs ∧ x ∈ xs.
Proof.
  intros (fss & Hm & [= <-])%bind_Some. rewrite set_iter_elem, elem_of_list_to_set, list_elem_of_join.
  setoid_rewrite (mapM_elem _ _ _ _ Hm). naive_solver.
Qed.

(* ------------------------------------------------------------------ *)
(** ** The calls of a body *)

(** [pat] occurs in [s]. *)
Definition occurs_in (pat s : string) : Prop := ∃ a b, s = (a +:+ (pat +:+ b)).

(** [body] has a call of the keyword with the argument text [raw]. *)
Definition call_at (keyword raw body : string) : Prop :=
  ∃ pre post, body = (pre +:+ (keyword +:+ (raw +:+ String ")" post))) ∧ no_char ")" raw = true.

(** The name of an effect: not empty, made of letters, digits, [_], [.] and [:]. *)
Definition effect_name (x : string) : Prop :=
  x ≠ "" ∧ Forall (λ c, c ∈ to_chars "ABCDEFGHIJKLMNOPQRSTUVWXYZabcdefghijklmnopqrstuvwxyz0123456789_.:") (to_chars x).

Lemma effect_name_iff x : effect_ident x = true ↔ effect_name x.
Proof.
  unfold effect_ident, effect_name. rewrite andb_true_iff, negb_true_iff, bool_decide_eq_false, string_all_chars.
  assert (∀ c, effect_char c = true ↔
    c ∈ to_chars "ABCDEFGHIJKLMNOPQRSTUVWXYZabcdefghijklmnopqrstuvwxyz0123456789_.:") as Hc.
  { intros c. rewrite <- (bool_decide_eq_true (c ∈ _)).
    assert (effect_char c = bool_decide (c ∈ to_chars "ABCDEFGHIJKLMNOPQRSTUVWXYZabcdefghijklmnopqrstuvwxyz0123456789_.:"))
      as <-; [|done].
    by destruct c as [[] [] [] [] [] [] [] []]. }
  by setoid_rewrite Hc.
Qed.

(** [x] is an effect that [body] uses: it is the trimmed argument of a call of [emit_effect],
    [run_effect] or [bind_effect], and the name of an effect. *)
Definition calls_effect (body x : string) : Prop :=
  effect_name x ∧
  ∃ keyword raw, keyword ∈ ["emit_effect("; "run_effect("; "bind_effect("] ∧
    call_at keyword raw body ∧ x = trim raw.

(** No call is written inside the argument of a call of the same keyword. *)
Definition flat (body : string) : Prop :=
  ∀ keyword raw, keyword ∈ ["emit_effect("; "run_effect("; "bind_effect("] →
    call_at keyword raw body → ¬ occurs_in keyword raw.

Definition ascii_text (s : string) : Prop := string_all (λ c, bool_decide (N_of_ascii c < 128)%N) s = true.

Lemma ascii_sliceable s : ascii_text s → sliceable s = true.
Proof.
  unfold ascii_text, sliceable. apply string_all_impl. intros c Hc%bool_decide_eq_true.
  unfold continuation_byte. rewrite bool_decide_false; [done|lia].
Qed.

(** Two ways of cutting one text *)
Lemma append_cut a b c d :
  (a +:+ b) = (c +:+ d) → (∃ e, a = (c +:+ e) ∧ d = (e +:+ b)) ∨ (∃ e, e ≠ "" ∧ c = (a +:+ e) ∧ b = (e +:+ d)).
Proof.
  revert c. induction a as [|x a IH]; intros c H.
  - destruct c as [|y c]; [left; by exists ""|]. right. by exists (String y c).
  - destruct c as [|y c]; [left; by exists (String x a)|]. rewrite !append_cons in H. injection H as -> H.
    destruct (IH c H) as [(e & -> & ->)|(e & He & -> & ->)]; [left|right]; by exists e.
Qed.

Lemma no_char_in a s t : no_char a (s +:+ String a t) = false.
Proof. apply not_true_is_false. rewrite <- split_once_None. intros H%split_once_None. unfold no_char in H. rewrite string_all_app in H. apply andb_true_iff in H as [_ H]. by apply no_char_cons in H as [? _]. Qed.

(** A keyword ends with its only parenthesis. *)
Definition keyword_shape (keyword : string) : Prop :=
  ∃ name, keyword = (name +:+ "(") ∧ no_char "(" name = true ∧ no_char ")" keyword = true.

Lemma keywords_shape keyword :
  keyword ∈ ["emit_effect("; "run_effect("; "bind_effect("] → keyword_shape keyword ∧ keyword ≠ "" ∧ sliceable keyword = true.
Proof.
  rewrite !elem_of_cons, elem_of_nil. intros [->|[->|[->|[]]]];
    (split; [|done]); [exists "emit_effect"|exists "run_effect"|exists "bind_effect"]; done.
Qed.

(** It does not overlap itself. *)
Lemma keyword_no_overlap keyword a e k :
  keyword_shape keyword → keyword = (a +:+ e) → e ≠ "" → keyword = (e +:+ k) → a ≠ "" → False.
Proof.
  intros (name & Hk & Hn & _) Ha He Hek Hane.
  assert (k ≠ "") as Hkne.
  { intros ->. rewrite append_empty in Hek. subst e.
    apply (f_equal String.length) in Ha. rewrite length_append in Ha.
    destruct a; [done|]. cbn in Ha. lia. }
  assert (∃ e', e = (e' +:+ "(")) as [e' He'].
  { rewrite Hk in Ha. symmetry in Ha. destruct (append_cut _ _ _ _ Ha) as [(d & -> & Hd)|(d & _ & -> & Hd)].
    - destruct d as [|c d]; [by exists ""; rewrite append_nil in Hd|].
      rewrite append_cons in Hd. injection Hd as -> Hd. by destruct d, e.
    - by exists d. }
  rewrite He' in Hek. rewrite Hk, <- append_assoc in Hek.
  destruct (append_cut _ _ _ _ Hek) as [(d & Hd & Hrest)|(d & Hdne & Hd & Hrest)].
  - destruct d as [|c d].
    + rewrite append_nil in Hrest. cbn in Hrest. injection Hrest as Hrest. done.
    + rewrite append_cons in Hrest. cbn in Hrest. injection Hrest as <- _.
      rewrite Hd in Hn. by rewrite no_char_in in Hn.
  - destruct d as [|c d]; [done|]. rewrite append_cons in Hrest. injection Hrest as _ Hrest.
    by destruct d.
Qed.

Lemma call_unique keyword raw raw' post post' :
  no_char ")" raw = true → no_char ")" raw' = true →
  (keyword +:+ (raw +:+ String ")" post)) = (keyword +:+ (raw' +:+ String ")" post')) → raw = raw'.
Proof.
  intros Hr Hr' H%append_inj. assert (split_once ")" (raw +:+ String ")" post) = Some (raw, post)) as H1 by (by apply split_once_Some).
  assert (split_once ")" (raw' +:+ String ")" post') = Some (raw', post')) as H2 by (by apply split_once_Some).
  rewrite H in H1. congruence.
Qed.

(** A call behind the start of another one lies behind its end, where calls are not nested. *)
Lemma call_behind keyword raw0 post0 pre raw post :
  keyword_shape keyword → no_char ")" raw0 = true → ¬ occurs_in keyword raw0 → pre ≠ "" →
  (keyword +:+ (raw0 +:+ String ")" post0)) = (pre +:+ (keyword +:+ (raw +:+ String ")" post))) →
  ∃ pre', post0 = (pre' +:+ (keyword +:+ (raw +:+ String ")" post))).
Proof.
  intros Hk Hr0 Hflat Hpre H. destruct Hk as (name & Hkw & Hn & Hp) eqn:Hk'. clear Hk'.
  assert (keyword_shape keyword) as Hs by (by exists name). symmetry in H.
  destruct (append_cut _ _ _ _ H) as [(e & -> & He)|(e & Hene & Hke & He)].
  - symmetry in He. destruct (append_cut _ _ _ _ He) as [(d & -> & Hd)|(d & Hdne & -> & Hd)].
    + destruct d as [|c d]; rewrite ?append_nil, ?append_cons in Hd.
      * exfalso. rewrite Hkw in Hp, Hd. destruct name as [|c name]; [discriminate Hd|].
        injection Hd as Hc _. subst c. discriminate Hp.
      * injection Hd as -> Hd. by exists d.
    + exfalso. symmetry in Hd. destruct (append_cut _ _ _ _ Hd) as [(b & -> & Hb)|(b & Hbne & -> & Hb)].
      * apply Hflat. by exists e, b.
      * destruct b as [|c b]; [done|]. rewrite append_cons in Hb. injection Hb as <- _.
        by rewrite no_char_in in Hp.
  - exfalso. destruct (append_cut _ _ _ _ He) as [(k & Hkk & _)|(k & _ & Hkk & _)].
    + exact (keyword_no_overlap keyword pre e k Hs Hke Hene Hkk Hpre).
    + apply (f_equal String.length) in Hkk. apply (f_equal String.length) in Hke.
      rewrite length_append in Hkk, Hke. destruct pre; [done|]. cbn in Hke. lia.
Qed.

Lemma flat_suffix a s keyword raw : call_at keyword raw s → call_at keyword raw (a +:+ s).
Proof. intros (pre & post & -> & Hr). exists (a +:+ pre), post. by rewrite <- append_assoc. Qed.

Lemma sliceable_app a s : sliceable (a +:+ s) = true → sliceable s = true.
Proof.
  unfold sliceable. induction a as [|c a IH]; [done|]. rewrite append_cons. cbn. intros [_ H]%andb_true_iff. auto.
Qed.

(** The scan finds every call of a flat body. *)
Lemma effect_scan_complete keyword s found raw :
  keyword_shape keyword → keyword ≠ "" → sliceable keyword = true → sliceable s = true →
  (∀ r, call_at keyword r s → ¬ occurs_in keyword r) →
  effect_scan keyword 0 s = Some found → call_at keyword raw s → effect_ident (trim raw) = true → trim raw ∈ found.
Proof.
  intros Hk Hkne Hks. remember (String.length s) as n eqn:En. revert s found En.
  induction n as [n IH] using lt_wf_ind. intros s found -> Hs Hflat Hscan (pre & post & Hcall & Hr) Hi.
  destruct s as [|c s]; [by destruct pre, keyword|].
  destruct (strip_prefix keyword (String c s)) as [inner|] eqn:Ek.
  - apply strip_prefix_Some in Ek. destruct (split_once ")" inner) as [[raw0 post0]|] eqn:Ep.
    + apply split_once_Some in Ep as [-> Hr0]. rewrite Ek in Hscan. rewrite effect_scan_call in Hscan by done.
      apply bind_Some in Hscan as (found' & Hscan & [= <-]).
      destruct (decide (pre = "")) as [->|Hpre].
      * rewrite append_nil, Ek in Hcall. apply call_unique in Hcall; [|done..]. subst raw0. rewrite Hi. left.
      * rewrite Ek in Hcall. assert (¬ occurs_in keyword raw0) as Hno by (apply Hflat; rewrite Ek; by exists "", post0).
        destruct (call_behind _ _ _ _ _ _ Hk Hr0 Hno Hpre Hcall) as [pre' Hpost].
        assert (trim raw ∈ found') as Hin; [|destruct (effect_ident (trim raw0)); [by right|done]].
        assert (String c s = ((keyword +:+ (raw0 +:+ ")")) +:+ post0)) as Hcut by (rewrite Ek, <- !append_assoc; done).
        eapply (IH (String.length post0)); [|done|..|exact Hscan| |done].
        -- rewrite Hcut, !length_append. cbn. lia.
        -- apply (sliceable_app (keyword +:+ (raw0 +:+ ")"))). by rewrite <- Hcut.
        -- intros r Hcr. apply Hflat. rewrite Hcut. by apply flat_suffix.
        -- by exists pre', post.
    + exfalso. apply split_once_None in Ep. destruct Hk as (name & _ & _ & Hkp).
      assert (no_char ")" (String c s) = true) as Hno.
      { rewrite Ek. unfold no_char in *. rewrite string_all_app. by rewrite Hkp. }
      rewrite Hcall, !append_assoc in Hno. by rewrite no_char_in in Hno.
  - destruct pre as [|d pre].
    { exfalso. rewrite append_nil in Hcall. rewrite Hcall in Ek.
      by rewrite (proj2 (strip_prefix_Some keyword _ _) eq_refl) in Ek. }
    rewrite append_cons in Hcall. injection Hcall as <- Hcall.
    unfold sliceable in Hs. cbn [string_all] in Hs. apply andb_true_iff in Hs as [Hc Hs].
    cbn [effect_scan] in Hscan. rewrite Ek in Hscan. destruct (continuation_byte c); [done|].
    eapply (IH (String.length s)); [cbn; lia|done|done| |exact Hscan|by exists pre, post|done].
    intros r Hcr. apply Hflat. by apply (flat_suffix (String c "")).
Qed.

(** On a flat body of ASCII characters, the extraction finds the effects that are called. *)
Lemma extract_exact body :
  ascii_text body → flat body →
  ∃ found, extract_body_effects body = Some found ∧ ∀ x, x ∈ found ↔ calls_effect body x.
Proof.
  intros Hs%ascii_sliceable Hf. destruct (extract_total body Hs) as [found Hfound]. exists found. split; [done|].
  intros x. rewrite (extract_elem _ _ _ Hfound). unfold calls_effect. rewrite <- effect_name_iff. split.
  - intros (keyword & xs & Hk & Hscan & Hx). destruct (effect_scan_sound _ _ _ _ _ Hscan Hx) as (Hi & pre & raw & post & Hb & Hr & ->).
    split; [done|]. exists keyword, raw. split; [done|]. split; [|done]. by exists pre, post.
  - intros (Hi & keyword & raw & Hk & Hcall & ->). destruct (keywords_shape _ Hk) as (Hsh & Hne & Hks).
    destruct (effect_scan_total keyword 0 body Hs) as [xs Hscan]. exists keyword, xs. split_and!; [done..|].
    apply (effect_scan_complete keyword body xs raw); try done. intros r Hr. exact (Hf keyword r Hk Hr).
Qed.

(* ------------------------------------------------------------------ *)
(** ** What translation validation decides *)

Definition effects_listed (n : GraphNode) : list string := from_option er_effects [] (node_effect_row n).

(** A used effect is declared by itself or with a provider. *)
Definition effect_covered (n : GraphNode) (x : string) : Prop :=
  x ∈ effects_listed n ∨ ∃ provider, (x +:+ ":" +:+ provider) ∈ effects_listed n.

(** TV-3, for the effects that the scan finds *)
Definition scan_obligation (n : GraphNode) : Prop :=
  node_kind n = NkFunction → ∀ body found x,
    node_body_expr n = Some body → extract_body_effects body = Some found → x ∈ found → effect_covered n x.

(** TV-3, for the effects that the body calls *)
Definition obligation_met (n : GraphNode) : Prop :=
  node_kind n = NkFunction → ∀ body x, node_body_expr n = Some body → calls_effect body x → effect_covered n x.

(** The bodies that the scan reads as they are meant *)
Definition readable (n : GraphNode) : Prop :=
  node_kind n = NkFunction → ∀ body, node_body_expr n = Some body → ascii_text body ∧ flat body.

Lemma readable_obligation n : readable n → scan_obligation n ↔ obligation_met n.
Proof.
  intros Hr. unfold scan_obligation, obligation_met. split.
  - intros H Hk body x Hb Hx. destruct (Hr Hk body Hb) as [Ha Hf].
    destruct (extract_exact body Ha Hf) as (found & He & Hiff). by apply (H Hk body found), Hiff.
  - intros H Hk body found x Hb He Hx. destruct (Hr Hk body Hb) as [Ha Hf].
    destruct (extract_exact body Ha Hf) as (found' & He' & Hiff). rewrite He in He'. injection He' as <-.
    by apply (H Hk body), Hiff.
Qed.

(** TV-4 *)
Definition evidence_met (n : GraphNode) : Prop :=
  node_kind n = NkFunction → effects_listed n ≠ [] →
  is_Some (node_body_expr n) ∨ ∃ checks, node_runtime_checks n = Some checks ∧ checks ≠ [].

Lemma has_evidence_iff n :
  has_evidence n = true ↔
  is_Some (node_body_expr n) ∨ ∃ checks, node_runtime_checks n = Some checks ∧ checks ≠ [].
Proof.
  unfold has_evidence. rewrite orb_true_iff, negb_true_iff, bool_decide_eq_true, bool_decide_eq_false.
  f_equiv. destruct (node_runtime_checks n) as [checks|]; cbn; naive_solver.
Qed.

(** TV-1 and TV-2 *)
Definition shape_met (n : GraphNode) : Prop :=
  node_kind n = NkFunction → is_Some (node_body_expr n) → is_Some (node_return_type n).

Definition provenance_met (n : GraphNode) : Prop :=
  ∀ e, e ∈ effects_listed n → ∃ name provider, e = (name +:+ ":" +:+ provider).

(** The bodies that end the run *)
Definition unscannable (n : GraphNode) : Prop :=
  node_kind n = NkFunction ∧ ∃ body, node_body_expr n = Some body ∧ extract_body_effects body = None.

Definition all_in (Q : VerificationState → Prop) (es : list VerificationEntry) : Prop :=
  ∀ e, e ∈ es → Q (ve_state e).

Lemma canonical_effects_elem es x : x ∈ canonical_effects es ↔ x ∈ es.
Proof. unfold canonical_effects. by rewrite set_iter_elem, elem_of_list_to_set. Qed.

Lemma canonical_effects_nil es : canonical_effects es = [] ↔ es = [].
Proof.
  unfold canonical_effects. rewrite set_iter_nil. split; [|by intros ->].
  destruct es as [|e es]; [done|]. intros H. exfalso. apply (not_elem_of_empty (C := gset string) e). rewrite <- H.
  apply elem_of_list_to_set. by left.
Qed.

Lemma effect_is_declared_iff n x : effect_is_declared x (declared_row n) = true ↔ effect_covered n x.
Proof.
  unfold effect_is_declared, declared_row, effect_covered, effects_listed. rewrite existsb_exists.
  destruct (node_effect_row n) as [row|]; cbn [from_option].
  2:{ split; [by intros (? & [] & _)|]. intros [[]%not_elem_of_nil|[? []%not_elem_of_nil]]. }
  setoid_rewrite <- list_elem_of_In. setoid_rewrite canonical_effects_elem. split.
  - intros (d & Hd & [->%bool_decide_eq_true|(r & ->)%starts_with_iff]%orb_true_iff); [by left|right].
    exists r. by rewrite append_assoc.
  - intros [H|[p H]]; [exists x|exists (x +:+ ":" +:+ p)]; (split; [done|]); apply orb_true_iff.
    + left. by apply bool_decide_eq_true.
    + right. apply starts_with_iff. exists p. by rewrite append_assoc.
Qed.

Lemma has_colon e : has_char ":" e = true ↔ ∃ name provider, e = (name +:+ ":" +:+ provider).
Proof.
  unfold has_char. rewrite negb_true_iff. destruct (split_once ":" e) as [[l r]|] eqn:E.
  - apply split_once_Some in E as E'. destruct E' as [-> _]. split; [by eauto|]. intros _.
    apply not_true_is_false. intros H%split_once_None. congruence.
  - assert (no_char ":" e = true) as -> by (by apply split_once_None). split; [done|].
    intros (l & r & ->). exfalso. apply split_once_None in E. induction l as [|c l IH].
    + by apply no_char_cons in E as [? _].
    + rewrite append_cons in E. apply no_char_cons in E as [_ E]. auto.
Qed.

Lemma all_in_single (Q : VerificationState → Prop) e : all_in Q [e] ↔ Q (ve_state e).
Proof.
  unfold all_in. split; [intros H; apply H; by left|]. intros H e' Hin%list_elem_of_singleton. by rewrite Hin.
Qed.

Lemma all_in_nil Q : all_in Q [].
Proof. by intros e []%not_elem_of_nil. Qed.

Lemma all_in_bind Q (f : GraphNode → list VerificationEntry) (P : GraphNode → Prop) g :
  (∀ n, all_in Q (f n) ↔ P n) → all_in Q (graph_nodes g ≫= f) ↔ ∀ n, n ∈ graph_nodes g → P n.
Proof.
  intros H. setoid_rewrite <- H. unfold all_in. setoid_rewrite list_elem_of_bind. naive_solver.
Qed.

Lemma all_in_app Q es fs : all_in Q (es ++ fs) ↔ all_in Q es ∧ all_in Q fs.
Proof. unfold all_in. setoid_rewrite elem_of_app. naive_solver. Qed.

Section Verdicts.
Context (Q : VerificationState → Prop) (Hproven : Q StProven).

Lemma obligation_entry_in n found :
  ¬ Q StFailed → all_in Q [obligation_entry n found] ↔ ∀ x, x ∈ found → effect_covered n x.
Proof.
  intros Hf. rewrite all_in_single. unfold obligation_entry. setoid_rewrite <- effect_is_declared_iff.
  destruct (filter _ found) as [|y ys] eqn:E; cbn [ve_state make_entry].
  - split; [|done]. intros _ x Hx. destruct (effect_is_declared x (declared_row n)) eqn:Ex; [done|].
    exfalso. apply (not_elem_of_nil x). rewrite <- E. by apply list_elem_of_filter.
  - split; [done|]. intros H. exfalso. assert (y ∈ filter (λ id, effect_is_declared id (declared_row n) = false) found) as Hy.
    { rewrite E. by left. }
    apply list_elem_of_filter in Hy as [Hy Hin]. specialize (H y Hin). congruence.
Qed.

Lemma node_obligation_in n es :
  ¬ Q StFailed → node_obligation n = Some es → all_in Q es ↔ scan_obligation n.
Proof.
  intros Hf. unfold node_obligation, scan_obligation. case_decide as Hk.
  2:{ intros [= <-]. split; [by intros|]. intros _. apply all_in_nil. }
  destruct (node_body_expr n) as [body|].
  2:{ intros [= <-]. split; [by intros|]. intros _. apply all_in_nil. }
  intros (found & Hx & [= <-])%bind_Some. case_decide as Hn.
  - subst found. split; [|intros _; apply all_in_nil]. intros _ _ b f x [= <-] Hb Hin. rewrite Hx in Hb.
    injection Hb as <-. by apply not_elem_of_nil in Hin.
  - rewrite obligation_entry_in by done. split.
    + intros H _ b f x [= <-] Hb Hin. rewrite Hx in Hb. injection Hb as <-. auto.
    + intros H x Hin. by apply (H Hk body found).
Qed.

Lemma obligations_in g es :
  ¬ Q StFailed → check_effect_obligations g = Some es →
  all_in Q es ↔ ∀ n, n ∈ graph_nodes g → scan_obligation n.
Proof.
  intros Hf (ess & Hm & ->)%fmap_Some. assert (all_in Q (mjoin ess) ↔ ∀ es, es ∈ ess → all_in Q es) as ->.
  { unfold all_in. setoid_rewrite list_elem_of_join. naive_solver. }
  setoid_rewrite (mapM_elem _ _ _ _ Hm). split.
  - intros H n Hn. apply mapM_Some in Hm. destruct (list_elem_of_lookup_1 _ _ Hn) as [i Hi].
    destruct (Forall2_lookup_l _ _ _ _ _ Hm Hi) as (es & _ & Hes). eapply node_obligation_in; [done..|]. eauto.
  - intros H es (n & Hn & Hes). eapply node_obligation_in; [done..|]. auto.
Qed.

Lemma evidence_in n : ¬ Q StFailed → all_in Q (evidence_entry n) ↔ evidence_met n.
Proof.
  intros Hf. unfold evidence_entry, evidence_met, effects_listed. case_decide as Hk.
  2:{ split; [by intros|]. intros _. apply all_in_nil. }
  destruct (node_effect_row n) as [row|]; cbn [from_option].
  2:{ split; [by intros|]. intros _. apply all_in_nil. }
  case_decide as He.
  { split; [by intros|]. intros _. apply all_in_nil. }
  rewrite <- has_evidence_iff. destruct (has_evidence n); rewrite all_in_single; cbn [ve_state make_entry]; naive_solver.
Qed.

Lemma shape_in n : ¬ Q StUnverified → all_in Q (shape_entry n) ↔ shape_met n.
Proof.
  intros Hu. unfold shape_entry, shape_met. case_decide as Hk.
  2:{ split; [by intros|]. intros _. apply all_in_nil. }
  destruct (node_body_expr n) as [body|].
  2:{ split; [by intros _ _ [? ?]|]. intros _. apply all_in_nil. }
  destruct (node_return_type n); rewrite all_in_single; cbn [ve_state make_entry].
  - split; [|done]. by intros.
  - split; [done|]. intros H. by destruct (H Hk (mk_is_Some _ _ eq_refl)).
Qed.

Lemma provenance_in n : ¬ Q StUnverified → all_in Q (provenance_entry n) ↔ provenance_met n.
Proof.
  intros Hu. unfold provenance_entry, provenance_met, effects_listed. setoid_rewrite <- has_colon.
  destruct (node_effect_row n) as [row|]; cbn [from_option].
  2:{ split; [|intros _; apply all_in_nil]. by intros _ e []%not_elem_of_nil. }
  case_decide as He.
  { rewrite He. split; [|intros _; apply all_in_nil]. by intros _ e []%not_elem_of_nil. }
  destruct (malformed_effects (er_effects row)) as [|m ms] eqn:E; rewrite all_in_single; cbn [ve_state make_entry].
  - split; [|done]. intros _ e Hin. destruct (has_char ":" e) eqn:Ec; [done|]. exfalso.
    apply (not_elem_of_nil e). rewrite <- E. unfold malformed_effects. by rewrite canonical_effects_elem, list_elem_of_filter.
  - split; [done|]. intros H. exfalso. assert (m ∈ malformed_effects (er_effects row)) as Hm by (rewrite E; by left).
    unfold malformed_effects in Hm. rewrite canonical_effects_elem, list_elem_of_filter in Hm.
    destruct Hm as [Hc Hin]. specialize (H m Hin). congruence.
Qed.
End Verdicts.

(** The first two tiers never fail. *)
Lemma shape_open Q n : Q StProven → Q StUnverified → all_in Q (shape_entry n).
Proof.
  intros Hp Hu. unfold shape_entry. case_decide; [|apply all_in_nil].
  destruct (node_body_expr n); [|apply all_in_nil]. by destruct (node_return_type n); apply all_in_single.
Qed.

Lemma provenance_open Q n : Q StProven → Q StUnverified → all_in Q (provenance_entry n).
Proof.
  intros Hp Hu. unfold provenance_entry. destruct (node_effect_row n); [|apply all_in_nil].
  case_decide; [apply all_in_nil|]. by destruct (malformed_effects _); apply all_in_single.
Qed.

Lemma all_in_check Q g profile entries :
  Q StProven → ¬ Q StFailed → translation_check g profile = Some entries →
  all_in Q entries ↔
  all_in Q (check_shape g) ∧ all_in Q (check_effect_provenance g) ∧
  (is_prod_or_stricter profile = true → ∀ n, n ∈ graph_nodes g → scan_obligation n) ∧
  (tv_is_critical_like profile = true → ∀ n, n ∈ graph_nodes g → evidence_met n).
Proof.
  intros Hp Hf (obligations & Ho & [= <-])%bind_Some. set (raw := check_shape g ++ _).
  transitivity (all_in Q raw).
  { case_decide as Hn; [|unfold all_in, normalize_translation_entries; by setoid_rewrite sort_dedup_elem].
    rewrite all_in_single. split; [|done]. intros _ e He. exfalso. apply (not_elem_of_nil e).
    rewrite <- Hn. by apply sort_dedup_elem. }
  unfold raw. rewrite !all_in_app. do 2 (apply and_iff_compat_l). apply Morphisms_Prop.and_iff_morphism.
  - destruct (is_prod_or_stricter profile).
    + rewrite (obligations_in Q Hp g obligations Hf Ho). naive_solver.
    + injection Ho as <-. split; [by intros|]. intros _. apply all_in_nil.
  - destruct (tv_is_critical_like profile).
    + unfold check_evidence_sufficiency. rewrite (all_in_bind Q evidence_entry evidence_met); [naive_solver|].
      intros n. by apply evidence_in.
    + split; [by intros|]. intros _. apply all_in_nil.
Qed.

Lemma strict_profile profile : is_prod_or_stricter profile = true ↔ profile ∉ ["draft"; "dev"; "test"].
Proof.
  unfold is_prod_or_stricter. rewrite orb_true_iff, negb_true_iff, bool_decide_eq_true, bool_decide_eq_false.
  split; [|by right]. intros [H|H]; [|done]. rewrite !elem_of_cons, elem_of_nil in *. naive_solver.
Qed.

Lemma critical_profile profile :
  tv_is_critical_like profile = true ↔ profile ∉ ["draft"; "dev"; "test"; "staging"; "prod"].
Proof.
  unfold tv_is_critical_like. rewrite orb_true_iff, negb_true_iff, bool_decide_eq_true, bool_decide_eq_false.
  split; [|by right]. intros [H|H]; [|done]. rewrite !elem_of_cons, elem_of_nil in *. naive_solver.
Qed.

Lemma translation_total g profile :
  (profile ∉ ["draft"; "dev"; "test"] → ∀ n, n ∈ graph_nodes g → readable n) →
  is_Some (translation_check g profile).
Proof.
  intros Hr. unfold translation_check. destruct (is_prod_or_stricter profile) eqn:Ep; [|done].
  apply strict_profile in Ep. unfold check_effect_obligations.
  destruct (mapM_total node_obligation (graph_nodes g)) as [ess ->]; [|done].
  intros n Hn. unfold node_obligation. case_decide as Hk; [|done].
  destruct (node_body_expr n) as [body|] eqn:Eb; [|done].
  destruct (Hr Ep n Hn Hk body Eb) as [Ha Hf]. destruct (extract_exact body Ha Hf) as (found & -> & _). done.
Qed.

(** C34: the verdict of the translation validator, on graphs whose function bodies are ASCII texts without
    an effect call inside the argument of a call of the same keyword (asked only for the profiles that scan the
    bodies).  It returns; it fails no entry exactly when, under every profile but [draft], [dev] and [test],
    each effect that a function body calls by [emit_effect(x)], [run_effect(x)] or [bind_effect(x)] is declared in
    the function's row as [x] or [x:provider], and, under every profile but these, [staging] and [prod], each
    function that declares effects has a body or a runtime check; and it proves every entry exactly when, in addition,
    each function with a body has a return type and each declared effect has the form [name:provider]. *)
Theorem translation_exact g profile
    (Hbodies : profile ∉ ["draft"; "dev"; "test"] → ∀ n, n ∈ graph_nodes g → readable n) :
  ∃ entries, translation_check g profile = Some entries ∧
  let obligations := (profile ∉ ["draft"; "dev"; "test"] → ∀ n, n ∈ graph_nodes g → obligation_met n) in
  let evidence := (profile ∉ ["draft"; "dev"; "test"; "staging"; "prod"] → ∀ n, n ∈ graph_nodes g → evidence_met n) in
  ((∀ e, e ∈ entries → ve_state e ≠ StFailed) ↔ obligations ∧ evidence) ∧
  ((∀ e, e ∈ entries → ve_state e = StProven) ↔
     (∀ n, n ∈ graph_nodes g → shape_met n ∧ provenance_met n) ∧ obligations ∧ evidence).
Proof.
  destruct (translation_total g profile Hbodies) as [entries Hc]. exists entries. split; [done|].
  intros obligations evidence.
  assert ((is_prod_or_stricter profile = true → ∀ n, n ∈ graph_nodes g → scan_obligation n) ↔ obligations) as Hob.
  { unfold obligations. rewrite strict_profile. split; intros H Hp n Hn; apply readable_obligation; auto. }
  split.
  - rewrite (all_in_check (λ s, s ≠ StFailed) g profile entries) by (done || by intros []).
    rewrite Hob, critical_profile.
    unfold check_shape, check_effect_provenance. rewrite !(all_in_bind _ _ (λ _, True)); [naive_solver| |];
      intros n; (split; [done|]); intros _; [by apply provenance_open|by apply shape_open].
  - rewrite (all_in_check (λ s, s = StProven) g profile entries) by done.
    rewrite Hob, critical_profile.
    unfold check_shape, check_effect_provenance. rewrite (all_in_bind _ shape_entry shape_met), (all_in_bind _ provenance_entry provenance_met);
      [|intros n; by apply provenance_in|intros n; by apply shape_in].
    unfold evidence. naive_solver.
Qed.

(** The validator ends in a panic exactly under the profiles that scan bodies, on a function body it cannot slice;
    bodies of ASCII characters can be sliced. *)
Theorem translation_panics g profile :
  (translation_check g profile = None ↔
   is_prod_or_stricter profile = true ∧ ∃ n, n ∈ graph_nodes g ∧ unscannable n) ∧
  ∀ body, extract_body_effects body = None → sliceable body = false.
Proof.
  split.
  - unfold translation_check. destruct (is_prod_or_stricter profile); [|by split; [|intros []]].
    transitivity (check_effect_obligations g = None); [by destruct (check_effect_obligations g)|].
    unfold check_effect_obligations. rewrite fmap_None, mapM_None.
    assert (∀ n, node_obligation n = None ↔ unscannable n) as Hn.
    { intros n. unfold node_obligation, unscannable. case_decide as Hk; [|naive_solver].
      destruct (node_body_expr n) as [body|]; [|naive_solver]. rewrite bind_None. naive_solver. }
    rewrite Exists_exists. setoid_rewrite Hn. naive_solver.
  - intros body Hb. apply not_true_is_false. intros Hs%extract_total. rewrite Hb in Hs. by destruct Hs.
Qed.

(* ------------------------------------------------------------------ *)
(** ** Samples *)

Example scan_sample :
  extract_body_effects "let x = run_effect( db ) in emit_effect(db:Postgres); emit_effect(a b)"
  = Some ["db"; "db:Postgres"].
Proof. vm_compute. reflexivity. Qed.

(** A call nested in a call of the same keyword is not seen: the scan resumes behind the first parenthesis. *)
Example nested_effect_unseen : extract_body_effects "emit_effect(f(emit_effect(db)))" = Some [].
Proof. vm_compute. reflexivity. Qed.

Module TranslationSample.

Definition charge (body : option string) (effects : list string) : GraphNode :=
  set_return_type (Some "Unit") (set_body_expr body (set_effect_row (Some (MkEffectRow effects))
    (graph_node_new 0%N NkFunction "fn.charge"))).

Definition graph (body : string) (effects : list string) : SemanticGraph :=
  MkSemanticGraph [charge (Some body) effects] [].

(** A body without parentheses inside its calls is flat. *)
Lemma simple_body_flat : flat "emit_effect(db)".
Proof.
  intros keyword raw Hk (pre & post & Hb & Hr) (a & b & ->).
  destruct (keywords_shape _ Hk) as ((name & -> & _ & _) & _).
  apply (f_equal (count_char "(")) in Hb. rewrite !count_char_app in Hb.
  change (count_char "(" "(") with 1 in Hb. change (count_char "(" "emit_effect(db)") with 1 in Hb. lia.
Qed.

Lemma charge_readable effects : readable (charge (Some "emit_effect(db)") effects).
Proof. intros _ body [= <-]. split; [vm_compute; reflexivity|apply simple_body_flat]. Qed.

(** A body that calls [emit_effect(db)] is accepted with [db:Postgres] declared, and not with [dbx:Postgres]. *)
Lemma translation_exact_witness :
  obligation_met (charge (Some "emit_effect(db)") ["db:Postgres"]) ∧
  ¬ obligation_met (charge (Some "emit_effect(db)") ["dbx:Postgres"]).
Proof.
  assert (∀ effects, "prod" ∉ ["draft"; "dev"; "test"] → ∀ n, n ∈ graph_nodes (graph "emit_effect(db)" effects) → readable n) as Hr.
  { intros effects _ n Hn. apply list_elem_of_singleton in Hn. rewrite Hn. apply charge_readable. }
  assert ("prod" ∉ ["draft"; "dev"; "test"]) as Hp by (apply (bool_decide_unpack _); vm_compute; exact I).
  split.
  - destruct (translation_exact (graph "emit_effect(db)" ["db:Postgres"]) "prod" (Hr _)) as (es & He & [H _] & _).
    apply H; [|exact Hp|by left].
    intros e Hin. assert (Forall (λ e, ve_state e ≠ StFailed) (default [] (translation_check (graph "emit_effect(db)" ["db:Postgres"]) "prod"))) as Hall
      by (vm_compute; repeat constructor; discriminate). rewrite He in Hall. rewrite Forall_forall in Hall. by apply Hall.
  - intros Hm. destruct (translation_exact (graph "emit_effect(db)" ["dbx:Postgres"]) "prod" (Hr _)) as (es & He & [_ H] & _).
    assert (Exists (λ e, ve_state e = StFailed) (default [] (translation_check (graph "emit_effect(db)" ["dbx:Postgres"]) "prod"))) as Hex.
    { vm_compute. repeat (apply Exists_cons_hd; reflexivity) || apply Exists_cons_tl. }
    rewrite He in Hex. apply Exists_exists in Hex as (e & Hin & Hs). refine (H _ e Hin Hs). split.
    + intros _ n Hn. apply list_elem_of_singleton in Hn. by rewrite Hn.
    + intros Hc. exfalso. apply Hc. apply (bool_decide_unpack _). vm_compute. exact I.
Defined.

(** A body with a character outside ASCII ends a [prod] run, and passes under [dev]. *)
Example non_ascii_body :
  translation_check (graph "greet(é)" []) "prod" = None ∧ is_Some (translation_check (graph "greet(é)" []) "dev").
Proof. split; [vm_compute; reflexivity|]. eexists. vm_compute. reflexivity. Qed.
End TranslationSample.
