(* ===== verification/AclParser.v ===== *)
(** * The ACL parser

    ail-change/src/parser.rs: [parse_changeset], a line-oriented parser of ACL
    documents.  The mutable variables of its loop are [ParserState], one turn of
    the loop is [parse_line].  Errors are values with one constructor per
    [format!] call; [parse_error_text] is the message.  Strings are UTF-8 byte
    strings; white space is the Unicode property, as in Trim.v.

    [parse_wf] says what holds of each parsed document; AclPrint.v has the
    round trip with a printer. *)

From stdpp Require Import pretty.
From S2P Require Import Prelude Text Anf Trim Ordering GraphTypes SemanticGraph ChangeModel OpSchema Remote I64 VerifySolver VerifyStages AclText.

(* ------------------------------------------------------------------ *)
(** ** Errors and state *)

Inductive AclSection : Type :=
| TopLevel | Metadata | Requires | Ops | Expect | Approval | BlockSection | VerifySection.
#[global] Instance AclSection_eq_dec : EqDecision AclSection.
Proof. solve_decision. Defined.

Inductive ParseError : Type :=
| NestedChange (line : N)
| InvalidBase (line : N) (raw : string)
| BlockNeedsKind (line : N)
| BlockNeedsRef (line : N)
| OpInMetadata (line : N)
| UnrecognisedDirective (line : N) (text : string)
| UnknownVerb (line : N) (verb : string)
| ExpectedOp (line : N) (text : string)
| MissingSig (line : N)
| HashLength (line : N) (len : nat)
| InvalidHex (line : N) (c : N)
| ContextNeedsTarget (line : N)
| UnrecognisedPrecondition (line : N) (text : string)
| UnclosedBlock
| UnclosedSection (section : AclSection)
| MissingAuthor
| MissingBase.
#[global] Instance ParseError_eq_dec : EqDecision ParseError.
Proof. solve_decision. Defined.

Definition section_name (section : AclSection) : string :=
  match section with
  | TopLevel => "" | Metadata => "metadata" | Requires => "requires" | Ops => "ops" | Expect => "expect"
  | Approval => "approval" | BlockSection => "block" | VerifySection => "verify"
  end.

(** [c as char], a character of Latin-1, in UTF-8 *)
Definition latin1 (c : N) : string :=
  (if c <? 128 then String (ascii_of_N c) ""
   else String (ascii_of_N (192 + c / 64)) (String (ascii_of_N (128 + c mod 64)) ""))%N.

Definition parse_error_text (e : ParseError) : string :=
  let at_line (n : N) (msg : string) := "line " +:+ (pretty n +:+ (": " +:+ msg)) in
  let quoted (s : string) := "'" +:+ (s +:+ "'") in
  match e with
  | NestedChange n => at_line n "nested 'change' declaration is not allowed"
  | InvalidBase n raw => at_line n ("invalid base snapshot id: " +:+ quoted raw)
  | BlockNeedsKind n => at_line n "block requires a kind (e.g. 'expr')"
  | BlockNeedsRef n => at_line n "block requires a @ref identifier"
  | OpInMetadata n => at_line n "'op' directive is not allowed inside 'metadata' section"
  | UnrecognisedDirective n text => at_line n ("unrecognised directive: " +:+ quoted text)
  | UnknownVerb n verb => at_line n ("unknown op verb: " +:+ quoted verb)
  | ExpectedOp n text => at_line n ("expected 'op' directive inside 'ops' section, got: " +:+ quoted text)
  | MissingSig n => at_line n "assert_hash requires 'sig=<hex>' argument"
  | HashLength n len => at_line n ("hash must be 64 hex characters, got " +:+ (pretty len +:+ " characters"))
  | InvalidHex n c => at_line n ("invalid hex character: " +:+ quoted (latin1 c))
  | ContextNeedsTarget n => at_line n "assert_context requires a target name"
  | UnrecognisedPrecondition n text => at_line n ("unrecognised precondition: " +:+ quoted text)
  | UnclosedBlock => "unclosed block section"
  | UnclosedSection s => "unclosed section: " +:+ section_name s
  | MissingAuthor => "missing required field: author"
  | MissingBase => "missing required field: base"
  end.

(** The variables that directives set *)
Record Directives : Type := MkDirectives {
  d_author : option string;
  d_description : option string;
  d_base : option SnapshotId;
  d_acl_version : string;
  d_op_schema : option string;
  d_graph_schema : option string;
  d_core_ir_schema : option string;
  d_diagnostics_schema : option string;
  d_verification_schema : option string;
  d_composition : ChangeComposition;
}.

(** The variables of the loop *)
Record ParserState : Type := MkParserState {
  ps_directives : Directives;
  ps_ops : list ChangeSetOp;
  ps_parsed_ops : list ParsedOp;
  ps_preconditions : list Precondition;
  ps_expect : list string;
  ps_approval : list string;
  ps_blocks : list ParsedBlock;
  ps_verify : list string;
  ps_current_block : option ParsedBlock;
  ps_in_verify_block : bool;
  ps_section : AclSection;
  ps_in_change : bool;
}.

Definition directives_new : Directives :=
  MkDirectives None None None default_acl_version None None None None None change_composition_default.
Definition parser_new : ParserState :=
  MkParserState directives_new [] [] [] [] [] [] [] None false TopLevel false.

(** Assignments *)
Definition set_author (x : option string) (d : Directives) : Directives :=
  let 'MkDirectives _ b c e f g h i j k := d in MkDirectives x b c e f g h i j k.
Definition set_description (x : option string) (d : Directives) : Directives :=
  let 'MkDirectives a _ c e f g h i j k := d in MkDirectives a x c e f g h i j k.
Definition set_base (x : option SnapshotId) (d : Directives) : Directives :=
  let 'MkDirectives a b _ e f g h i j k := d in MkDirectives a b x e f g h i j k.
Definition set_acl (x : string) (d : Directives) : Directives :=
  let 'MkDirectives a b c _ f g h i j k := d in MkDirectives a b c x f g h i j k.
Definition set_op_schema (x : option string) (d : Directives) : Directives :=
  let 'MkDirectives a b c e _ g h i j k := d in MkDirectives a b c e x g h i j k.
Definition set_graph_schema (x : option string) (d : Directives) : Directives :=
  let 'MkDirectives a b c e f _ h i j k := d in MkDirectives a b c e f x h i j k.
Definition set_core_ir_schema (x : option string) (d : Directives) : Directives :=
  let 'MkDirectives a b c e f g _ i j k := d in MkDirectives a b c e f g x i j k.
Definition set_diagnostics_schema (x : option string) (d : Directives) : Directives :=
  let 'MkDirectives a b c e f g h _ j k := d in MkDirectives a b c e f g h x j k.
Definition set_verification_schema (x : option string) (d : Directives) : Directives :=
  let 'MkDirectives a b c e f g h i _ k := d in MkDirectives a b c e f g h i x k.
Definition on_composition (f : ChangeComposition → ChangeComposition) (d : Directives) : Directives :=
  let 'MkDirectives a b c e g h i j k comp := d in MkDirectives a b c e g h i j k (f comp).

Definition push_depends_on (s : string) (c : ChangeComposition) : ChangeComposition :=
  let 'MkChangeComposition a b d e f := c in MkChangeComposition (a ++ [s]) b d e f.
Definition push_supersedes (s : string) (c : ChangeComposition) : ChangeComposition :=
  let 'MkChangeComposition a b d e f := c in MkChangeComposition a (b ++ [s]) d e f.
Definition push_conflicts_with (s : string) (c : ChangeComposition) : ChangeComposition :=
  let 'MkChangeComposition a b d e f := c in MkChangeComposition a b (d ++ [s]) e f.
Definition push_part_of (s : string) (c : ChangeComposition) : ChangeComposition :=
  let 'MkChangeComposition a b d e f := c in MkChangeComposition a b d (e ++ [s]) f.
Definition push_blocks (s : string) (c : ChangeComposition) : ChangeComposition :=
  let 'MkChangeComposition a b d e f := c in MkChangeComposition a b d e (f ++ [s]).

Definition on_directives (f : Directives → Directives) (st : ParserState) : ParserState :=
  let 'MkParserState d a b c e g h i j k l m := st in MkParserState (f d) a b c e g h i j k l m.
Definition push_op (op : ParsedOp) (st : ParserState) : ParserState :=
  let 'MkParserState d a b c e g h i j k l m := st in
  MkParserState d (a ++ [po_kind op]) (b ++ [op]) c e g h i j k l m.
Definition push_precondition (p : Precondition) (st : ParserState) : ParserState :=
  let 'MkParserState d a b c e g h i j k l m := st in MkParserState d a b (c ++ [p]) e g h i j k l m.
Definition push_expect (s : string) (st : ParserState) : ParserState :=
  let 'MkParserState d a b c e g h i j k l m := st in MkParserState d a b c (e ++ [s]) g h i j k l m.
Definition push_approval (s : string) (st : ParserState) : ParserState :=
  let 'MkParserState d a b c e g h i j k l m := st in MkParserState d a b c e (g ++ [s]) h i j k l m.
Definition push_block (blk : ParsedBlock) (st : ParserState) : ParserState :=
  let 'MkParserState d a b c e g h i j k l m := st in MkParserState d a b c e g (h ++ [blk]) i j k l m.
Definition push_verify (s : string) (st : ParserState) : ParserState :=
  let 'MkParserState d a b c e g h i j k l m := st in MkParserState d a b c e g h (i ++ [s]) j k l m.
Definition set_block (blk : option ParsedBlock) (st : ParserState) : ParserState :=
  let 'MkParserState d a b c e g h i j k l m := st in MkParserState d a b c e g h i blk k l m.
Definition set_in_verify (x : bool) (st : ParserState) : ParserState :=
  let 'MkParserState d a b c e g h i j k l m := st in MkParserState d a b c e g h i j x l m.
Definition set_section (x : AclSection) (st : ParserState) : ParserState :=
  let 'MkParserState d a b c e g h i j k l m := st in MkParserState d a b c e g h i j k x m.
Definition set_in_change (x : bool) (st : ParserState) : ParserState :=
  let 'MkParserState d a b c e g h i j k l m := st in MkParserState d a b c e g h i j k l x.

(* ------------------------------------------------------------------ *)
(** ** Values *)

(** [token.starts_with('"') && token.ends_with('"') && token.len() >= 2] *)
Definition extract_string_value (token : string) : string :=
  match strip_prefix (String dquote "") token with
  | Some r => default token (Anf.strip_suffix_char dquote r)
  | None => token
  end.

(** [extract_kv_value]: the first word [key=value] *)
Definition extract_kv_value (kv_str key : string) : option string :=
  Anf.find_map (λ pair, rest ← strip_prefix key pair; value ← strip_prefix "=" rest;
                        Some (extract_string_value value)) (split_whitespace kv_str).

(** The open brackets of the three kinds *)
Record Depths : Type := MkDepths { paren_depth : nat; brace_depth : nat; bracket_depth : nat }.

Definition bracket_step (ch : ascii) (d : Depths) : Depths :=
  let 'MkDepths p b k := d in
  if decide (ch = "("%char) then MkDepths (S p) b k
  else if decide (ch = ")"%char) then MkDepths (p - 1) b k
  else if decide (ch = "{"%char) then MkDepths p (S b) k
  else if decide (ch = "}"%char) then MkDepths p (b - 1) k
  else if decide (ch = "["%char) then MkDepths p b (S k)
  else if decide (ch = "]"%char) then MkDepths p b (k - 1)
  else d.

Definition closed (d : Depths) : bool :=
  bool_decide (paren_depth d = 0 ∧ brace_depth d = 0 ∧ bracket_depth d = 0).

(** White space at the head of the characters *)
Definition starts_white (l : list ascii) : bool :=
  match l with
  | a :: l1 =>
      space1 a || match l1 with
                  | b :: l2 => space2 a b || match l2 with c :: _ => space3 a b c | [] => false end
                  | [] => false
                  end
  | [] => false
  end.

(** [bare_value_end], as the two parts of the characters it separates *)
Fixpoint bare_value_end (d : Depths) (l : list ascii) : list ascii * list ascii :=
  match l with
  | [] => ([], [])
  | a :: l' =>
      if starts_white l && closed d then ([], l)
      else let '(v, r) := bare_value_end (bracket_step a d) l' in (a :: v, r)
  end.

(** One value: it and what follows *)
Definition kv_value (remaining : string) : string * string :=
  match strip_prefix (String dquote "") remaining with
  | Some stripped =>
      match split_once dquote stripped with
      | Some (inside, after) =>
          (extract_string_value (trim (String dquote (inside +:+ String dquote ""))), str_trim_start after)
      | None => (extract_string_value (trim remaining), "")
      end
  | None =>
      let '(v, r) := bare_value_end (MkDepths 0 0 0) (to_chars remaining) in
      (trim (of_chars v), str_trim_start (of_chars r))
  end.

(** The loop of [parse_kv_args]: each turn consumes an equals sign, so that the
    length of the text bounds the turns ([kv_loop_enough]). *)
Fixpoint kv_loop (fuel : nat) (remaining : string) (map : OpArgs) : OpArgs :=
  match fuel with
  | O => map
  | S fuel' =>
      match split_once "=" remaining with
      | None => map
      | Some (k, after) =>
          let key := trim k in
          let '(value, rest) := kv_value after in
          kv_loop fuel' rest (if decide (key = "") then map else <[key := value]> map)
      end
  end.

Definition parse_kv_args (args_str : string) : OpArgs :=
  let remaining := trim args_str in kv_loop (String.length remaining) remaining ∅.

Definition parse_snapshot_id (raw : string) (line_num : N) : result SnapshotId ParseError :=
  match parse_u64 (default raw (strip_prefix "snapshot_" raw)) with
  | Some n => Ok (Z.to_N n)
  | None => Err (InvalidBase line_num raw)
  end.

Definition hex_nibble (c line_num : N) : result N ParseError :=
  (if (48 <=? c) && (c <=? 57) then Ok (c - 48)
   else if (97 <=? c) && (c <=? 102) then Ok (c - 97 + 10)
   else if (65 <=? c) && (c <=? 70) then Ok (c - 65 + 10)
   else Err (InvalidHex line_num c))%N.

(** The loop over [hex.as_bytes().chunks(2)]; the length is even there. *)
Fixpoint hex_chunks (line_num : N) (bytes : list N) : result (list N) ParseError :=
  match bytes with
  | c0 :: c1 :: rest =>
      let? hi := hex_nibble c0 line_num in
      let? lo := hex_nibble c1 line_num in
      let? bs := hex_chunks line_num rest in
      Ok (N.lor (N.shiftl hi 4) lo :: bs)
  | _ => Ok []
  end.

Definition acl_decode_hex32 (hex : string) (line_num : N) : result BlockHash ParseError :=
  if decide (String.length hex ≠ 64) then Err (HashLength line_num (String.length hex))
  else hex_chunks line_num (string_bytes hex).

(* ------------------------------------------------------------------ *)
(** ** Headers and directives *)

Definition change_attr (line_num : N) (token : string) (d : Directives) : result Directives ParseError :=
  match strip_prefix "acl=" token with
  | Some v => Ok (set_acl v d)
  | None =>
      match strip_prefix "base=" token with
      | Some v => let? b := parse_snapshot_id v line_num in Ok (set_base (Some b) d)
      | None => Ok d
      end
  end.

Fixpoint parse_change_line_attrs (line_num : N) (tokens : list string) (d : Directives)
  : result Directives ParseError :=
  match tokens with
  | [] => Ok d
  | token :: tokens' => let? d' := change_attr line_num token d in parse_change_line_attrs line_num tokens' d'
  end.

Definition parse_block_header (rest : string) (line_num : N) : result ParsedBlock ParseError :=
  let '(kind, block_ref, attrs) := splitn3 rest in
  if decide (kind = "") then Err (BlockNeedsKind line_num)
  else match block_ref with
       | Some r =>
           if starts_with "@" r then
             Ok (MkParsedBlock kind r ""
                   (Anf.find_map (λ tok, extract_string_value <$> strip_prefix "hash=" tok)
                      (split_whitespace (trim (default "" attrs)))))
           else Err (BlockNeedsRef line_num)
       | None => Err (BlockNeedsRef line_num)
       end.

(** The directives by their keyword, in the order the code tries them *)
Definition directive_table : list (string * (string → N → Directives → result Directives ParseError)) :=
  [("author ", λ v _ d, Ok (set_author (Some (trim v)) d));
   ("description ", λ v _ d, Ok (set_description (Some (trim v)) d));
   ("intent ", λ v _ d, Ok (set_description (Some (extract_string_value (trim v))) d));
   ("base ", λ v n d, let? b := parse_snapshot_id (trim v) n in Ok (set_base (Some b) d));
   ("language ", λ v _ d,
      Ok (match strip_prefix "acl/" (trim v) with Some ver => set_acl ver d | None => d end));
   ("acl_version ", λ v _ d, Ok (set_acl (default (trim v) (strip_prefix "acl/" (trim v))) d));
   ("op_schema ", λ v _ d, Ok (set_op_schema (Some (trim v)) d));
   ("graph_schema ", λ v _ d, Ok (set_graph_schema (Some (trim v)) d));
   ("core_ir_schema ", λ v _ d, Ok (set_core_ir_schema (Some (trim v)) d));
   ("diagnostics_schema ", λ v _ d, Ok (set_diagnostics_schema (Some (trim v)) d));
   ("verification_schema ", λ v _ d, Ok (set_verification_schema (Some (trim v)) d));
   ("depends_on ", λ v _ d, Ok (on_composition (push_depends_on (trim v)) d));
   ("supersedes ", λ v _ d, Ok (on_composition (push_supersedes (trim v)) d));
   ("conflicts_with ", λ v _ d, Ok (on_composition (push_conflicts_with (trim v)) d));
   ("part_of ", λ v _ d, Ok (on_composition (push_part_of (trim v)) d));
   ("blocks ", λ v _ d, Ok (on_composition (push_blocks (trim v)) d));
   ("author_role ", λ _ _ d, Ok d);
   ("reason ", λ _ _ d, Ok d);
   ("op ", λ _ n _, Err (OpInMetadata n))].

Definition parse_metadata_line (line : string) (line_num : N) (d : Directives) : result Directives ParseError :=
  match Anf.find_map (λ row : string * _, v ← strip_prefix row.1 line; Some (row.2 v)) directive_table with
  | Some act => act line_num d
  | None => Err (UnrecognisedDirective line_num line)
  end.

Definition parse_op_or_directive (line : string) (line_num : N) (st : ParserState)
  : result ParserState ParseError :=
  match strip_prefix "op " line with
  | Some rest =>
      let '(v, a) := splitn_white rest in
      let verb := trim v in
      let args_str := trim (default "" a) in
      match map_verb verb with
      | Some kind => Ok (push_op (MkParsedOp kind verb (parse_kv_args args_str)) st)
      | None => Err (UnknownVerb line_num verb)
      end
  | None =>
      if decide (ps_section st = TopLevel) then
        let? d := parse_metadata_line line line_num (ps_directives st) in
        Ok (on_directives (λ _, d) st)
      else Err (ExpectedOp line_num line)
  end.

Definition parse_precondition_line (line : string) (line_num : N) : result Precondition ParseError :=
  match strip_prefix "assert_exists " line with
  | Some rest =>
      let id_str := trim rest in
      match parse_u32 id_str with
      | Some n => Ok (AssertExists (Z.to_N n))
      | None => Ok (AssertExistsByName id_str)
      end
  | None =>
  match strip_prefix "assert_hash " line with
  | Some rest =>
      let '(p, k) := splitn2 rest in
      let id_part := trim p in
      match extract_kv_value (trim k) "sig" with
      | None => Err (MissingSig line_num)
      | Some hex =>
          let? expected_hash := acl_decode_hex32 hex line_num in
          match parse_u32 id_part with
          | Some n => Ok (AssertHash (Z.to_N n) expected_hash)
          | None => Ok (AssertHashByName id_part expected_hash)
          end
      end
  | None =>
  match strip_prefix "assert_context " line with
  | Some rest =>
      let '(t, k) := splitn2 rest in
      let target_name := trim t in
      let kv_part := trim k in
      let context_hash :=
        match extract_kv_value kv_part "hash" with
        | Some h => Some h
        | None => extract_kv_value kv_part "context_hash"
        end in
      if decide (target_name = "") then Err (ContextNeedsTarget line_num)
      else Ok (AssertContext target_name context_hash)
  | None => Err (UnrecognisedPrecondition line_num line)
  end
  end
  end.

(* ------------------------------------------------------------------ *)
(** ** The loop *)

Definition block_line (line : string) (blk : ParsedBlock) : ParsedBlock :=
  MkParsedBlock (pb_kind blk) (pb_block_ref blk)
    ((if decide (pb_content blk = "") then "" else pb_content blk +:+ String newline "") +:+ line) (pb_hash blk).

Definition block_blank (blk : ParsedBlock) : ParsedBlock :=
  MkParsedBlock (pb_kind blk) (pb_block_ref blk) (pb_content blk +:+ String newline "") (pb_hash blk).

(** [end] closes the innermost open context. *)
Definition close_context (st : ParserState) : ParserState :=
  match ps_current_block st with
  | Some blk => push_block blk (set_block None st)
  | None =>
      if ps_in_verify_block st then set_section TopLevel (set_in_verify false st)
      else if decide (ps_section st = TopLevel) then set_in_change false st
      else set_section TopLevel st
  end.

Definition opened_section (line : string) : option AclSection :=
  if decide (line = "metadata") then Some Metadata
  else if decide (line = "requires") then Some Requires
  else if decide (line = "ops") then Some Ops
  else if decide (line = "expect") then Some Expect
  else if decide (line = "approval") then Some Approval
  else None.

(** Dispatch by current section *)
Definition section_line (n : N) (line : string) (st : ParserState) : result ParserState ParseError :=
  match ps_section st with
  | Metadata =>
      let? d := parse_metadata_line line n (ps_directives st) in Ok (on_directives (λ _, d) st)
  | Requires => let? p := parse_precondition_line line n in Ok (push_precondition p st)
  | TopLevel | Ops => parse_op_or_directive line n st
  | Expect => Ok (push_expect line st)
  | Approval => Ok (push_approval line st)
  | BlockSection | VerifySection => Ok st
  end.

(** What follows the tests for block contents and block headers *)
Definition body_line (n : N) (line : string) (st : ParserState) : result ParserState ParseError :=
  let rest_of_turn :=
    if decide (ps_section st = VerifySection) then Ok (push_verify line st)
    else match opened_section line with
         | Some section => Ok (set_section section st)
         | None => section_line n line st
         end in
  if decide (ps_section st = TopLevel ∨ ps_section st = VerifySection) then
    if decide (line = "verify") then Ok (set_section VerifySection (set_in_verify true st))
    else match strip_prefix "verify " line with
         | Some rest => Ok (push_verify (trim rest) st)
         | None => rest_of_turn
         end
  else rest_of_turn.

(** One turn, on the trimmed line *)
Definition parse_line (n : N) (line : string) (st : ParserState) : result ParserState ParseError :=
  if decide (line = "") then
    Ok (match ps_current_block st with Some blk => set_block (Some (block_blank blk)) st | None => st end)
  else if starts_with "#" line then Ok st
  else if starts_with "change " line || bool_decide (line = "change") then
    if ps_in_change st then Err (NestedChange n)
    else
      let st' := set_in_change true st in
      let after_id := trim (default "" (splitn3 line).2) in
      let? d := parse_change_line_attrs n (split_whitespace after_id) (ps_directives st') in
      Ok (on_directives (λ _, d) st')
  else if decide (line = "end") then Ok (close_context st)
  else match ps_current_block st with
       | Some blk => Ok (set_block (Some (block_line line blk)) st)
       | None =>
           match strip_prefix "block " line with
           | Some rest =>
               if decide (ps_section st = TopLevel) then
                 let? blk := parse_block_header rest n in Ok (set_block (Some blk) st)
               else body_line n line st
           | None => body_line n line st
           end
       end.

Fixpoint parse_lines (n : N) (lines : list string) (st : ParserState) : result ParserState ParseError :=
  match lines with
  | [] => Ok st
  | raw :: lines' => let? st' := parse_line (n + 1) (trim raw) st in parse_lines (n + 1) lines' st'
  end.

Definition some_unless_empty {A} (mk : list string → A) (l : list string) : option A :=
  match l with [] => None | _ => Some (mk l) end.

(** The checks after the loop *)
Definition finish_parse (st : ParserState) : result ParsedChangeSet ParseError :=
  let d := ps_directives st in
  match ps_current_block st with
  | Some _ => Err UnclosedBlock
  | None =>
      if decide (ps_section st ≠ TopLevel) then Err (UnclosedSection (ps_section st))
      else match d_author d, d_base d with
           | None, _ => Err MissingAuthor
           | Some _, None => Err MissingBase
           | Some author, Some base =>
               Ok (MkParsedChangeSet
                     (MkChangeSet (MkChangeSetMeta author (default "" (d_description d)) 0%N) base (ps_ops st))
                     (ps_preconditions st) (ps_parsed_ops st) (d_acl_version d) (d_op_schema d) (d_graph_schema d)
                     (d_core_ir_schema d) (d_diagnostics_schema d) (d_verification_schema d)
                     (some_unless_empty MkExpectClaims (ps_expect st))
                     (some_unless_empty MkApprovalRequirements (ps_approval st))
                     (d_composition d) (ps_blocks st) (ps_verify st))
           end
  end.

Definition parse_changeset (src : string) : result ParsedChangeSet ParseError :=
  let? st := parse_lines 0 (text_lines src) parser_new in finish_parse st.

(* ------------------------------------------------------------------ *)
(** ** Arguments: the fuel suffices *)

Lemma bare_value_end_parts d l : (bare_value_end d l).1 ++ (bare_value_end d l).2 = l.
Proof.
  revert d. induction l as [|a l IH]; intros d; [done|]. cbn [bare_value_end].
  destruct (starts_white (a :: l) && closed d); [done|].
  specialize (IH (bracket_step a d)). destruct (bare_value_end _ l) as [v r]. cbn in *. by rewrite IH.
Qed.

Lemma kv_value_length s : String.length (kv_value s).2 ≤ String.length s.
Proof.
  unfold kv_value. destruct (strip_prefix _ s) as [t|] eqn:E.
  - apply strip_prefix_Some in E as ->. destruct (split_once dquote t) as [[l r]|] eqn:E; cbn; [|lia].
    apply split_once_Some in E as [-> _]. etrans; [apply length_str_trim_start|].
    rewrite !length_append. cbn. lia.
  - pose proof (bare_value_end_parts (MkDepths 0 0 0) (to_chars s)) as H.
    destruct (bare_value_end _ _) as [v r]. cbn in *. etrans; [apply length_str_trim_start|].
    rewrite <- !length_chars, to_of_chars, <- H, length_app. lia.
Qed.

Lemma kv_loop_enough f g s m :
  String.length s ≤ f → String.length s ≤ g → kv_loop f s m = kv_loop g s m.
Proof.
  assert (∀ g m, kv_loop g "" m = m) as He by (by intros []).
  revert g s m. induction f as [|f IH]; intros g s m Hf Hg.
  { destruct s; [by rewrite !He|cbn in Hf; lia]. }
  destruct g as [|g]; [destruct s; [by rewrite !He|cbn in Hg; lia]|]. cbn [kv_loop].
  destruct (split_once "=" s) as [[k after]|] eqn:E; [|done].
  apply split_once_Some in E as [-> _]. pose proof (kv_value_length after) as Hl.
  destruct (kv_value after) as [value rest]. cbn in Hl. rewrite length_append in Hf, Hg. cbn in Hf, Hg.
  apply IH; lia.
Qed.

(* ------------------------------------------------------------------ *)
(** ** What holds of every parsed document *)

Definition op_ok (op : ParsedOp) : Prop :=
  map_verb (po_verb op) = Some (po_kind op) ∧ po_args op !! "" = None.

Definition hash_ok (h : BlockHash) : Prop := length h = 32 ∧ Forall is_byte h.

Definition precondition_ok (p : Precondition) : Prop :=
  match p with
  | AssertExists n => (n < 2 ^ 32)%N
  | AssertHash n h => (n < 2 ^ 32)%N ∧ hash_ok h
  | AssertExistsByName name => parse_u32 name = None
  | AssertHashByName name h => parse_u32 name = None ∧ hash_ok h
  | AssertContext name _ => name ≠ ""
  end.

Definition block_ok (b : ParsedBlock) : Prop := pb_kind b ≠ "" ∧ starts_with "@" (pb_block_ref b) = true.

Definition base_ok (d : Directives) : Prop := from_option (λ b, (b < 2 ^ 64)%N) True (d_base d).

(** The op lists run in parallel; an open block or verify section matches the
    section variable. *)
Record state_ok (st : ParserState) : Prop := {
  so_ops : ps_ops st = po_kind <$> ps_parsed_ops st;
  so_parsed : Forall op_ok (ps_parsed_ops st);
  so_pre : Forall precondition_ok (ps_preconditions st);
  so_base : base_ok (ps_directives st);
  so_blocks : Forall block_ok (ps_blocks st ++ option_list (ps_current_block st));
  so_verify : ps_section st = VerifySection ↔ ps_in_verify_block st = true;
  so_section : ps_section st ≠ BlockSection;
  so_current : is_Some (ps_current_block st) → ps_section st = TopLevel;
}.

Record parsed_ok (pcs : ParsedChangeSet) : Prop := {
  po_ops : cs_ops (pcs_changeset pcs) = po_kind <$> pcs_parsed_ops pcs;
  po_parsed : Forall op_ok (pcs_parsed_ops pcs);
  po_pre : Forall precondition_ok (pcs_preconditions pcs);
  po_base : (cs_base_snapshot_id (pcs_changeset pcs) < 2 ^ 64)%N;
  po_timestamp : csm_timestamp (cs_meta (pcs_changeset pcs)) = 0%N;
  po_blocks : Forall block_ok (pcs_blocks pcs);
  po_expect : pcs_expect pcs ≠ Some (MkExpectClaims []);
  po_approval : pcs_approval pcs ≠ Some (MkApprovalRequirements []);
}.

Lemma kv_loop_no_empty_key f s m : m !! "" = None → kv_loop f s m !! "" = None.
Proof.
  revert s m. induction f as [|f IH]; intros s m Hm; cbn [kv_loop]; [done|].
  destruct (split_once "=" s) as [[k after]|]; [|done]. destruct (kv_value after) as [v rest].
  apply IH. case_decide; [done|]. by rewrite lookup_insert_ne.
Qed.

(** The decoder is the one of ail-remote, with the error of its first bad byte. *)
Lemma hex_nibble_Ok c n x : hex_nibble c n = Ok x ↔ decode_hex_nibble c = Some x.
Proof. unfold hex_nibble, decode_hex_nibble. repeat case_match; naive_solver. Qed.

Lemma hex_chunks_Ok n bytes bs : hex_chunks n bytes = Ok bs ↔ decode_hex_pairs bytes = Some bs.
Proof.
  remember (length bytes) as k eqn:Ek. revert bytes bs Ek. induction k as [k IH] using lt_wf_ind.
  intros [|c0 [|c1 bytes]] bs ->; cbn; [naive_solver..|].
  destruct (hex_nibble c0 n) as [hi|] eqn:E0; destruct (decode_hex_nibble c0) as [hi'|] eqn:D0; cbn.
  2,3: exfalso; clear -E0 D0; unfold hex_nibble, decode_hex_nibble in *; by repeat case_match.
  2: done.
  apply hex_nibble_Ok in E0. rewrite D0 in E0. injection E0 as ->.
  destruct (hex_nibble c1 n) as [lo|] eqn:E1; destruct (decode_hex_nibble c1) as [lo'|] eqn:D1; cbn.
  2,3: exfalso; clear -E1 D1; unfold hex_nibble, decode_hex_nibble in *; by repeat case_match.
  2: done.
  apply hex_nibble_Ok in E1. rewrite D1 in E1. injection E1 as ->.
  specialize (IH (length bytes) ltac:(cbn; lia) bytes).
  destruct (hex_chunks n bytes) as [r|]; destruct (decode_hex_pairs bytes) as [r'|]; cbn;
    [|exfalso; by eapply eq_None_ne_Some; [|apply IH]|exfalso|done].
  - destruct (IH r eq_refl) as [H _]. specialize (H eq_refl). naive_solver.
  - by destruct (IH r' eq_refl) as [_ H]; specialize (H eq_refl).
Qed.

Lemma length_string_bytes s : length (string_bytes s) = String.length s.
Proof. induction s as [|c s IH]; cbn; [done|]. by rewrite IH. Qed.

Lemma acl_decode_hex32_ok hex n h : acl_decode_hex32 hex n = Ok h → hash_ok h.
Proof.
  unfold acl_decode_hex32. case_decide as Hl; [done|]. intros H%hex_chunks_Ok.
  pose proof (decode_hex_pairs_spec 32 (string_bytes hex)) as Hs. rewrite H, length_string_bytes in Hs.
  destruct Hs as (? & ? & _); [lia|]. done.
Qed.

Lemma precondition_line_ok line n p : parse_precondition_line line n = Ok p → precondition_ok p.
Proof.
  unfold parse_precondition_line. destruct (strip_prefix _ line) as [rest|].
  { destruct (parse_u32 _) as [k|] eqn:E; intros [= <-]; cbn; [|done]. apply parse_u32_range in E. lia. }
  destruct (strip_prefix _ line) as [rest|].
  { destruct (splitn2 rest) as [p0 k]. destruct (extract_kv_value _ _) as [hex|]; [|done].
    destruct (acl_decode_hex32 hex n) as [h|] eqn:Eh; [|done]. apply acl_decode_hex32_ok in Eh.
    destruct (parse_u32 _) as [m|] eqn:E; intros [= <-]; cbn; split; try done. apply parse_u32_range in E. lia. }
  destruct (strip_prefix _ line) as [rest|]; [|done].
  destruct (splitn2 rest) as [t k]. case_decide; [done|]. by intros [= <-].
Qed.

Lemma snapshot_id_ok raw n b : parse_snapshot_id raw n = Ok b → (b < 2 ^ 64)%N.
Proof.
  unfold parse_snapshot_id. destruct (parse_u64 _) as [m|] eqn:E; intros [= <-]. apply parse_u64_range in E. lia.
Qed.

Lemma change_attrs_ok n tokens d d' : base_ok d → parse_change_line_attrs n tokens d = Ok d' → base_ok d'.
Proof.
  revert d. induction tokens as [|t tokens IH]; intros d Hd; cbn; [naive_solver|].
  destruct (change_attr n t d) as [d1|] eqn:E; [|done]. apply IH. revert E. unfold change_attr.
  destruct (strip_prefix "acl=" t); [intros [= <-]; by destruct d|].
  destruct (strip_prefix "base=" t) as [v|]; [|by intros [= <-]].
  destruct (parse_snapshot_id v n) as [b|] eqn:Eb; intros [= <-]. apply snapshot_id_ok in Eb. by destruct d.
Qed.

Lemma find_map_Some {A B} (f : A → option B) l y : find_map f l = Some y → ∃ x, x ∈ l ∧ f x = Some y.
Proof.
  induction l as [|x l IH]; cbn; [done|]. destruct (f x) eqn:E; [intros [= ->]; exists x; split; [left|done]|].
  intros (z & ? & ?)%IH. exists z. split; [by right|done].
Qed.

Lemma metadata_line_ok line n d d' : base_ok d → parse_metadata_line line n d = Ok d' → base_ok d'.
Proof.
  intros Hd. unfold parse_metadata_line.
  destruct (find_map _ directive_table) as [act|] eqn:E; [|done].
  apply find_map_Some in E as ([kw f] & Hin & (v & _ & [= <-])%bind_Some). cbn.
  unfold directive_table in Hin.
  repeat (apply elem_of_cons in Hin as [[= -> ->]|Hin]); [..|by apply not_elem_of_nil in Hin];
    try (intros [= <-]; by destruct d).
  - destruct (parse_snapshot_id (trim v) n) as [b|] eqn:Eb; intros [= <-]. apply snapshot_id_ok in Eb. by destruct d.
  - intros [= <-]. case_match; by destruct d.
Qed.

Lemma block_header_ok rest n b : parse_block_header rest n = Ok b → block_ok b.
Proof.
  unfold parse_block_header. destruct (splitn3 rest) as [[kind r] attrs]. case_decide; [done|].
  destruct r as [r|]; [|done]. destruct (starts_with "@" r) eqn:E; [|done]. intros [= <-]. by split.
Qed.

(** The updates that leave the invariant to be checked on one component *)
Ltac state_cases st H :=
  destruct st as [sd ops pops pre ex ap bl ve cur iv sec ic]; destruct H as [I1 I2 I3 I4 I5 I6 I7 I8]; cbn in *.

Lemma on_directives_ok st d : state_ok st → base_ok d → state_ok (on_directives (λ _, d) st).
Proof. intros H Hd. state_cases st H. by split. Qed.

Lemma push_op_ok st op : state_ok st → op_ok op → state_ok (push_op op st).
Proof.
  intros H Ho. state_cases st H. split; cbn; try done; [by rewrite I1, fmap_app|].
  apply Forall_app. split; [done|by apply Forall_singleton].
Qed.

Lemma push_text_ok st s :
  state_ok st → state_ok (push_expect s st) ∧ state_ok (push_approval s st) ∧ state_ok (push_verify s st).
Proof. intros H. state_cases st H. split_and!; by split. Qed.

Lemma push_precondition_ok st p : state_ok st → precondition_ok p → state_ok (push_precondition p st).
Proof. intros H Hp. state_cases st H. split; cbn; try done. apply Forall_app. split; [done|by apply Forall_singleton]. Qed.

Lemma set_block_ok st b :
  state_ok st → block_ok b → ps_section st = TopLevel → state_ok (set_block (Some b) st).
Proof.
  intros H Hb Hs. state_cases st H. split; cbn; try done. apply Forall_app in I5 as [? _].
  apply Forall_app. split; [done|by apply Forall_singleton].
Qed.

Lemma set_section_ok st sec' :
  state_ok st → ps_current_block st = None → ps_in_verify_block st = false →
  sec' ≠ VerifySection → sec' ≠ BlockSection → state_ok (set_section sec' st).
Proof.
  intros H Hc Hv Hn1 Hn2. state_cases st H. subst.
  split; cbn; try done.
Qed.

Lemma close_context_ok st : state_ok st → state_ok (close_context st).
Proof.
  intros H. unfold close_context. state_cases st H. destruct cur as [b|]; cbn.
  { split; cbn; try done. by rewrite app_nil_r. }
  destruct iv; cbn; [split; cbn; try done|]. destruct (decide _); split; cbn; try done; by intros [].
Qed.

Lemma section_line_ok n line st st' : state_ok st → section_line n line st = Ok st' → state_ok st'.
Proof.
  intros H. destruct (push_text_ok st line H) as (He & Ha & Hv). unfold section_line.
  assert (∀ st', parse_op_or_directive line n st = Ok st' → state_ok st') as Hop.
  { intros st1. unfold parse_op_or_directive. destruct (strip_prefix "op " line) as [rest|].
    - destruct (splitn_white rest) as [v a]. destruct (map_verb (trim v)) as [kind|] eqn:Ev; intros [= <-].
      apply push_op_ok; [done|]. split; [done|]. by apply kv_loop_no_empty_key.
    - case_decide; [|done]. destruct (parse_metadata_line _ _ _) as [d|] eqn:E; intros [= <-].
      apply on_directives_ok; [done|]. eapply metadata_line_ok; [|done]. apply H. }
  destruct (ps_section st); try (by intros [= <-]); try by apply Hop.
  - destruct (parse_metadata_line _ _ _) as [d|] eqn:E; intros [= <-].
    apply on_directives_ok; [done|]. eapply metadata_line_ok; [|done]. apply H.
  - destruct (parse_precondition_line line n) as [p|] eqn:E; intros [= <-].
    apply push_precondition_ok; [done|]. by eapply precondition_line_ok.
Qed.

Lemma opened_section_plain line sec : opened_section line = Some sec → sec ≠ VerifySection ∧ sec ≠ BlockSection.
Proof. unfold opened_section. intros H. by repeat case_decide; simplify_eq. Qed.

Lemma body_line_ok n line st st' :
  state_ok st → ps_current_block st = None → body_line n line st = Ok st' → state_ok st'.
Proof.
  intros H Hc. destruct (push_text_ok st line H) as (_ & _ & Hv). unfold body_line.
  set (rest := if decide (ps_section st = VerifySection) then _ else _).
  assert (rest = Ok st' → state_ok st') as Hrest.
  { unfold rest. case_decide as Hs; [by intros [= <-]|].
    destruct (opened_section line) as [sec|] eqn:E; [|by apply section_line_ok]. intros [= <-].
    apply opened_section_plain in E as [? ?]. apply set_section_ok; try done.
    apply not_true_is_false. by rewrite <- (so_verify _ H). }
  case_decide; [|done]. case_decide.
  - intros [= <-]. clear rest Hrest Hv. state_cases st H. subst. split; cbn; try done.
  - destruct (strip_prefix "verify " line) as [r|]; [|done]. intros [= <-]. by apply push_text_ok.
Qed.

Lemma parse_line_ok n line st st' : state_ok st → parse_line n line st = Ok st' → state_ok st'.
Proof.
  intros H. assert (∀ b f, ps_current_block st = Some b → (∀ b, block_ok b → block_ok (f b)) →
    state_ok (set_block (Some (f b)) st)) as Hblk.
  { intros b f Hb Hf. apply set_block_ok; [done| |by apply (so_current _ H); rewrite Hb].
    apply Hf. pose proof (so_blocks _ H) as Hbs. rewrite Hb in Hbs. apply Forall_app in Hbs as [_ Hbs].
    by apply Forall_cons in Hbs as [? _]. }
  unfold parse_line. case_decide.
  { intros [= <-]. destruct (ps_current_block st) as [b|] eqn:Eb; [|done]. by apply (Hblk b block_blank). }
  destruct (starts_with "#" line); [by intros [= <-]|].
  destruct (_ || _).
  { destruct (ps_in_change st); [done|]. destruct (parse_change_line_attrs _ _ _) as [d|] eqn:E; intros [= <-].
    assert (state_ok (set_in_change true st)) as Hc by (clear -H; state_cases st H; by split).
    apply on_directives_ok; [done|]. eapply change_attrs_ok; [apply Hc|done]. }
  case_decide; [intros [= <-]; by apply close_context_ok|].
  destruct (ps_current_block st) as [b|] eqn:Eb.
  { intros [= <-]. by apply (Hblk b (block_line line)). }
  destruct (strip_prefix "block " line) as [rest|]; [|by apply body_line_ok].
  case_decide as Hs; [|by apply body_line_ok].
  destruct (parse_block_header rest n) as [b|] eqn:E; intros [= <-]. apply set_block_ok; [done| |done].
  by eapply block_header_ok.
Qed.

Lemma parse_lines_ok n ls st st' : state_ok st → parse_lines n ls st = Ok st' → state_ok st'.
Proof.
  revert n st. induction ls as [|l ls IH]; intros n st H; cbn; [naive_solver|].
  destruct (parse_line _ _ st) as [st1|] eqn:E; [|done]. apply IH. by eapply parse_line_ok.
Qed.

(** What the parser promises to the stages after it: the op list is that of the
    parsed ops, each op has the kind of its verb, no argument has an empty key,
    numbers are in the range of their types, hashes are 32 bytes, a name that
    reads as a number never stands for a node name, and blocks have a kind and
    a reference. *)
Theorem parse_wf src pcs : parse_changeset src = Ok pcs → parsed_ok pcs.
Proof.
  unfold parse_changeset. destruct (parse_lines 0 (text_lines src) parser_new) as [st|] eqn:E; [|done].
  apply parse_lines_ok in E; [|by split].
  unfold finish_parse. destruct (ps_current_block st) as [b|] eqn:Eb; [done|]. case_decide; [done|].
  destruct (d_author _) as [author|]; [|done]. destruct (d_base _) as [base|] eqn:Ebase; [|done].
  intros [= <-]. pose proof (so_blocks _ E) as Hb. rewrite Eb, app_nil_r in Hb.
  pose proof (so_base _ E) as Hbase. unfold base_ok in Hbase. rewrite Ebase in Hbase.
  split; cbn; try done; try apply E.
  - by destruct (ps_expect st).
  - by destruct (ps_approval st).
Qed.

(* ------------------------------------------------------------------ *)
(** ** Samples *)

Module AclSample.

Definition meta : list string := ["author ana"; "base 0"].
Definition kinds (r : result ParsedChangeSet ParseError) : option (list ChangeSetOp) :=
  match r with Ok pcs => Some (cs_ops (pcs_changeset pcs)) | Err _ => None end.

(** Ops before [change], after the closing [end], or without either are read
    like those inside; a second [change] continues the document. *)
Example outside_change :
  kinds (parse_changeset (lines_text (["op create_type id=a"] ++ meta ++ ["change c"; "end"; "op delete target=a"])))
  = Some [OpCreate; OpDelete].
Proof. vm_compute. reflexivity. Qed.

(** A change that is never closed is accepted. *)
Example unclosed_change : kinds (parse_changeset (lines_text (["change c"] ++ meta))) = Some [].
Proof. vm_compute. reflexivity. Qed.

(** A word without an equals sign is not ignored: it becomes a part of the next key. *)
Example stray_word_joins_key :
  parse_kv_args "draft id=fn.a" = {[ "draft id" := "fn.a" ]}.
Proof. vm_compute. reflexivity. Qed.

(** A section that is opened inside another takes its place, and one [end]
    closes both. *)
Example nested_section :
  kinds (parse_changeset (lines_text (meta ++ ["metadata"; "ops"; "op create_type id=a"; "end"]))) = Some [OpCreate].
Proof. vm_compute. reflexivity. Qed.

(** A blank line before the contents of a block counts twice, and a line that
    starts with a hash sign is lost. *)
Example block_contents_shift :
  (λ r, match r with Ok pcs => pb_content <$> pcs_blocks pcs | Err _ => [] end)
    (parse_changeset (lines_text (meta ++ ["block doc @d"; ""; "a"; "# b"; "c"; "end"])))
  = [lines_text [""; ""; "a"; "c"]].
Proof. vm_compute. reflexivity. Qed.

Lemma parse_wf_witness : ∃ pcs, parse_changeset (lines_text (meta ++ ["op create_type id=a"])) = Ok pcs ∧ parsed_ok pcs.
Proof.
  destruct (parse_changeset (lines_text (meta ++ ["op create_type id=a"]))) as [pcs|e] eqn:E.
  - exists pcs. split; [reflexivity|]. exact (parse_wf _ pcs E).
  - vm_compute in E. discriminate E.
Defined.
End AclSample.
