(* ===== verification/AclPrint.v ===== *)
(** * Printing ChangeSets in ACL

    A reference printer for the parser of AclParser.v: [render] writes a parsed
    ChangeSet as an ACL document, one directive, op, precondition, claim or
    block per line, with every argument quoted.  [parse_render] shows that the
    parser reads the document back as it was, for every ChangeSet whose texts
    fit on lines ([printable]), so that the parser loses nothing that ACL can
    express and each line reaches the field it is meant for. *)

From stdpp Require Import pretty.
From S2P Require Import Prelude Text Anf Trim Ordering GraphTypes SemanticGraph ChangeModel OpSchema Remote I64 VerifySolver VerifyStages AclText AclParser.

(* ------------------------------------------------------------------ *)
(** ** The printer *)

Definition quoted (s : string) : string := String dquote (s +:+ String dquote "").

(** [key="value"], separated by spaces *)
Definition arg_text (a : string * string) : string := a.1 +:+ String "=" (quoted a.2).
Definition args_text (args : list (string * string)) : string := join " " (arg_text <$> args).

Definition op_text (op : ParsedOp) : string :=
  match btree_iter (po_args op) with
  | [] => "op " +:+ po_verb op
  | args => "op " +:+ (po_verb op +:+ String " " (args_text args))
  end.

Definition precondition_text (p : Precondition) : string :=
  match p with
  | AssertExists n => "assert_exists " +:+ pretty (n : N)
  | AssertExistsByName name => "assert_exists " +:+ name
  | AssertHash n h => "assert_hash " +:+ (pretty (n : N) +:+ String " " ("sig=" +:+ encode_hex32 h))
  | AssertHashByName name h => "assert_hash " +:+ (name +:+ String " " ("sig=" +:+ encode_hex32 h))
  | AssertContext t None => "assert_context " +:+ t
  | AssertContext t (Some h) => "assert_context " +:+ (t +:+ String " " ("hash=" +:+ h))
  end.

Definition block_header (b : ParsedBlock) : string :=
  match pb_hash b with
  | None => "block " +:+ (pb_kind b +:+ String " " (pb_block_ref b))
  | Some h => "block " +:+ (pb_kind b +:+ String " " (pb_block_ref b +:+ String " " ("hash=" +:+ h)))
  end.

Definition content_lines (content : string) : list string :=
  if decide (content = "") then [] else split_on newline content.

Definition block_text (b : ParsedBlock) : list string :=
  block_header b :: content_lines (pb_content b) ++ ["end"].

Definition opt_line (kw : string) (o : option string) : list string := (λ v, kw +:+ v) <$> option_list o.
Definition many_lines (kw : string) (l : list string) : list string := (λ v, kw +:+ v) <$> l.
Definition section_text (kw : string) (l : list string) : list string :=
  match l with [] => [] | _ => kw :: l ++ ["end"] end.

Definition composition_text (c : ChangeComposition) : list string :=
  many_lines "depends_on " (comp_depends_on c) ++ many_lines "supersedes " (comp_supersedes c)
  ++ many_lines "conflicts_with " (comp_conflicts_with c) ++ many_lines "part_of " (comp_part_of c)
  ++ many_lines "blocks " (comp_blocks c).

Definition header_text (pcs : ParsedChangeSet) : list string :=
  let meta := cs_meta (pcs_changeset pcs) in
  ["author " +:+ csm_author meta]
  ++ opt_line "description " (if decide (csm_description meta = "") then None else Some (csm_description meta))
  ++ ["base " +:+ pretty (cs_base_snapshot_id (pcs_changeset pcs) : N); "acl_version " +:+ pcs_acl_version pcs]
  ++ opt_line "op_schema " (pcs_op_schema_version pcs)
  ++ opt_line "graph_schema " (pcs_graph_schema_version pcs)
  ++ opt_line "core_ir_schema " (pcs_core_ir_schema_version pcs)
  ++ opt_line "diagnostics_schema " (pcs_diagnostics_schema_version pcs)
  ++ opt_line "verification_schema " (pcs_verification_schema_version pcs)
  ++ composition_text (pcs_composition pcs).

Definition expect_lines (pcs : ParsedChangeSet) : list string := from_option expect_claims [] (pcs_expect pcs).
Definition approval_lines (pcs : ParsedChangeSet) : list string :=
  from_option approval_requirements [] (pcs_approval pcs).

Definition render_lines (pcs : ParsedChangeSet) : list string :=
  ["change doc"]
  ++ header_text pcs
  ++ section_text "requires" (precondition_text <$> pcs_preconditions pcs)
  ++ (op_text <$> pcs_parsed_ops pcs)
  ++ section_text "expect" (expect_lines pcs)
  ++ section_text "approval" (approval_lines pcs)
  ++ (pcs_blocks pcs ≫= block_text)
  ++ many_lines "verify " (pcs_verify pcs).

Definition render (pcs : ParsedChangeSet) : string := lines_text (render_lines pcs ++ ["end"]).

(* ------------------------------------------------------------------ *)
(** ** What can be printed *)

(** A line that a section keeps as it is *)
Definition plain_line (s : string) : Prop :=
  is_text s ∧ starts_with "#" s = false ∧ starts_with "change " s = false ∧ s ≠ "change" ∧ s ≠ "end".
Definition claim_line (s : string) : Prop := plain_line s ∧ opened_section s = None.

Definition arg_printable (a : string * string) : Prop :=
  is_word a.1 ∧ no_char "=" a.1 = true ∧ no_char dquote a.2 = true ∧ no_char newline a.2 = true.

Definition op_printable (op : ParsedOp) : Prop :=
  is_word (po_verb op) ∧ map_verb (po_verb op) = Some (po_kind op) ∧
  ∀ k v, po_args op !! k = Some v → arg_printable (k, v).

Definition bare_word (s : string) : Prop := is_word s ∧ starts_with (String dquote "") s = false.

Definition precondition_printable (p : Precondition) : Prop :=
  precondition_ok p ∧
  match p with
  | AssertExists _ | AssertHash _ _ => True
  | AssertExistsByName name => is_text name
  | AssertHashByName name _ => is_word name
  | AssertContext t h => is_word t ∧ from_option bare_word True h
  end.

(** Blank lines are kept inside the contents of a block, not before them. *)
Definition block_printable (b : ParsedBlock) : Prop :=
  is_word (pb_kind b) ∧ is_word (pb_block_ref b) ∧ starts_with "@" (pb_block_ref b) = true ∧
  from_option bare_word True (pb_hash b) ∧
  (pb_content b = "" ∨
   Forall (λ l, l = "" ∨ plain_line l) (split_on newline (pb_content b)) ∧ head (split_on newline (pb_content b)) ≠ Some "").

Definition composition_printable (c : ChangeComposition) : Prop :=
  Forall is_text (comp_depends_on c ++ comp_supersedes c ++ comp_conflicts_with c ++ comp_part_of c ++ comp_blocks c).

Definition schemas (pcs : ParsedChangeSet) : list (option string) :=
  [pcs_op_schema_version pcs; pcs_graph_schema_version pcs; pcs_core_ir_schema_version pcs;
   pcs_diagnostics_schema_version pcs; pcs_verification_schema_version pcs].

Record printable (pcs : ParsedChangeSet) : Prop := {
  pr_author : is_text (csm_author (cs_meta (pcs_changeset pcs)));
  pr_description : csm_description (cs_meta (pcs_changeset pcs)) = "" ∨
                   is_text (csm_description (cs_meta (pcs_changeset pcs)));
  pr_timestamp : csm_timestamp (cs_meta (pcs_changeset pcs)) = 0%N;
  pr_base : (cs_base_snapshot_id (pcs_changeset pcs) < 2 ^ 64)%N;
  pr_acl : is_text (pcs_acl_version pcs) ∧ strip_prefix "acl/" (pcs_acl_version pcs) = None;
  pr_schemas : Forall (from_option is_text True) (schemas pcs);
  pr_composition : composition_printable (pcs_composition pcs);
  pr_pre : Forall precondition_printable (pcs_preconditions pcs);
  pr_ops : cs_ops (pcs_changeset pcs) = po_kind <$> pcs_parsed_ops pcs;
  pr_parsed_ops : Forall op_printable (pcs_parsed_ops pcs);
  pr_expect : from_option (λ c, expect_claims c ≠ [] ∧ Forall claim_line (expect_claims c)) True (pcs_expect pcs);
  pr_approval : from_option (λ c, approval_requirements c ≠ [] ∧ Forall claim_line (approval_requirements c)) True
                  (pcs_approval pcs);
  pr_blocks : Forall block_printable (pcs_blocks pcs);
  pr_verify : Forall is_text (pcs_verify pcs);
}.

(* ------------------------------------------------------------------ *)
(** ** Runs *)

(** The parser takes the lines, wherever they stand, from one state to another. *)
Definition reads (ls : list string) (st st' : ParserState) : Prop := ∀ n, parse_lines n ls st = Ok st'.

Lemma parse_lines_app n l k st :
  parse_lines n (l ++ k) st = let? st' := parse_lines n l st in parse_lines (n + N.of_nat (length l)) k st'.
Proof.
  revert n st. induction l as [|s l IH]; intros n st; cbn; [by rewrite N.add_0_r|].
  destruct (parse_line _ _ st) as [st'|]; [|done]. rewrite IH. destruct (parse_lines _ l st'); [|done]. f_equal. lia.
Qed.

Lemma reads_app l k st1 st2 st3 : reads l st1 st2 → reads k st2 st3 → reads (l ++ k) st1 st3.
Proof. intros Hl Hk n. by rewrite parse_lines_app, Hl, Hk. Qed.

Lemma reads_nil st : reads [] st st.
Proof. by intros n. Qed.

Lemma reads_line s st st' : (∀ n, parse_line n (trim s) st = Ok st') → reads [s] st st'.
Proof. intros H n. cbn. by rewrite H. Qed.

Lemma reads_cons s ls st1 st2 st3 :
  (∀ n, parse_line n (trim s) st1 = Ok st2) → reads ls st2 st3 → reads (s :: ls) st1 st3.
Proof. intros H. apply (reads_app [s]). by apply reads_line. Qed.

(** At top level, within the change, with no open block *)
Definition top (d : Directives) (ops : list ParsedOp) (pre : list Precondition) (ex ap : list string)
    (bl : list ParsedBlock) (ve : list string) : ParserState :=
  MkParserState d (po_kind <$> ops) ops pre ex ap bl ve None false TopLevel true.

Lemma trim_kw (kw s : string) a k :
  kw = String a k → graphic a = true → string_all one_byte k = true → is_text s → trim (kw +:+ s) = (kw +:+ s).
Proof. intros -> ?? (? & ? & _). by apply trim_keyword. Qed.

(** The line of a keyword: the parser trims the text after it, which is trimmed. *)
Ltac keyword_line :=
  apply reads_line; intros n; erewrite trim_kw by (reflexivity || eassumption);
  match goal with H : is_text _ |- _ => destruct H as (_ & H & _); rewrite <- H at 2; reflexivity end.

(** ** Directives *)

Section Directives.
Context (d : Directives) (ops : list ParsedOp) (pre : list Precondition) (ex ap : list string)
  (bl : list ParsedBlock) (ve : list string).
Abbreviation at_top d := (top d ops pre ex ap bl ve).

Lemma reads_author s : is_text s → reads ["author " +:+ s] (at_top d) (at_top (set_author (Some s) d)).
Proof. intros H. keyword_line. Qed.

Lemma reads_description s :
  is_text s → reads ["description " +:+ s] (at_top d) (at_top (set_description (Some s) d)).
Proof. intros H. keyword_line. Qed.

Lemma reads_base (b : N) : (b < 2 ^ 64)%N → reads ["base " +:+ pretty b] (at_top d) (at_top (set_base (Some b) d)).
Proof.
  intros Hb. pose proof (is_word_text _ (pretty_word b)) as Ht. apply reads_line. intros n.
  erewrite trim_kw by (reflexivity || eassumption). destruct Ht as (_ & Ht & _).
  transitivity (let? x := parse_snapshot_id (trim (pretty b)) n in
                let? d' := Ok (set_base (Some x) d) in Ok (on_directives (λ _, d') (at_top d))).
  { change (parse_line n ("base " +:+ pretty b) (at_top d)) with
      (let? d' := (let? x := parse_snapshot_id (trim (pretty b)) n in Ok (set_base (Some x) d)) in
       Ok (on_directives (λ _, d') (at_top d))). by destruct (parse_snapshot_id _ _). }
  rewrite Ht. unfold parse_snapshot_id.
  destruct (strip_prefix "snapshot_" (pretty b)) as [r|] eqn:E; cbn [default].
  - apply strip_prefix_Some in E. destruct (pretty_digits b) as [Hd _]. by rewrite E in Hd.
  - rewrite parse_u64_pretty by done. by rewrite N2Z.id.
Qed.

Lemma reads_acl s :
  is_text s → strip_prefix "acl/" s = None → reads ["acl_version " +:+ s] (at_top d) (at_top (set_acl s d)).
Proof.
  intros Ht Hs. apply reads_line. intros n. erewrite trim_kw by (reflexivity || eassumption).
  destruct Ht as (_ & Ht & _).
  transitivity (Ok (at_top (set_acl (default (trim s) (strip_prefix "acl/" (trim s))) d)) : result _ ParseError);
    [reflexivity|]. by rewrite Ht, Hs.
Qed.

Lemma reads_op_schema s : is_text s → reads ["op_schema " +:+ s] (at_top d) (at_top (set_op_schema (Some s) d)).
Proof. intros H. keyword_line. Qed.

Lemma reads_graph_schema s :
  is_text s → reads ["graph_schema " +:+ s] (at_top d) (at_top (set_graph_schema (Some s) d)).
Proof. intros H. keyword_line. Qed.

Lemma reads_core_ir_schema s :
  is_text s → reads ["core_ir_schema " +:+ s] (at_top d) (at_top (set_core_ir_schema (Some s) d)).
Proof. intros H. keyword_line. Qed.

Lemma reads_diagnostics_schema s :
  is_text s → reads ["diagnostics_schema " +:+ s] (at_top d) (at_top (set_diagnostics_schema (Some s) d)).
Proof. intros H. keyword_line. Qed.

Lemma reads_verification_schema s :
  is_text s → reads ["verification_schema " +:+ s] (at_top d) (at_top (set_verification_schema (Some s) d)).
Proof. intros H. keyword_line. Qed.

Lemma reads_depends_on s :
  is_text s → reads ["depends_on " +:+ s] (at_top d) (at_top (on_composition (push_depends_on s) d)).
Proof. intros H. keyword_line. Qed.

Lemma reads_supersedes s :
  is_text s → reads ["supersedes " +:+ s] (at_top d) (at_top (on_composition (push_supersedes s) d)).
Proof. intros H. keyword_line. Qed.

Lemma reads_conflicts_with s :
  is_text s → reads ["conflicts_with " +:+ s] (at_top d) (at_top (on_composition (push_conflicts_with s) d)).
Proof. intros H. keyword_line. Qed.

Lemma reads_part_of s :
  is_text s → reads ["part_of " +:+ s] (at_top d) (at_top (on_composition (push_part_of s) d)).
Proof. intros H. keyword_line. Qed.

Lemma reads_blocks_directive s :
  is_text s → reads ["blocks " +:+ s] (at_top d) (at_top (on_composition (push_blocks s) d)).
Proof. intros H. keyword_line. Qed.

Lemma reads_verify s : is_text s → reads ["verify " +:+ s] (at_top d) (top d ops pre ex ap bl (ve ++ [s])).
Proof. intros H. keyword_line. Qed.
End Directives.

(** A list of texts under one keyword, read by a fold *)
Lemma reads_many {A} (kw : string) (st : A → ParserState) (push : string → A → A) l a :
  (∀ s a, is_text s → reads [kw +:+ s] (st a) (st (push s a))) → Forall is_text l →
  reads (many_lines kw l) (st a) (st (foldl (λ a s, push s a) a l)).
Proof.
  intros Hp Hl. revert a. induction Hl as [|s l Hs Hl IH]; intros a; [apply reads_nil|]. cbn [foldl].
  apply (reads_app [kw +:+ s] (many_lines kw l) _ (st (push s a))); [by apply Hp|apply IH].
Qed.

Lemma reads_opt {A} (kw : string) (st : A → ParserState) (set : option string → A → A) o a :
  (∀ s a, is_text s → reads [kw +:+ s] (st a) (st (set (Some s) a))) → from_option is_text True o →
  set None a = a → reads (opt_line kw o) (st a) (st (set o a)).
Proof. intros Hp Ho Ha. destruct o as [s|]; cbn; [by apply Hp|]. rewrite Ha. apply reads_nil. Qed.

(** The directives a printed header sets *)
Definition directives_of (pcs : ParsedChangeSet) : Directives :=
  let meta := cs_meta (pcs_changeset pcs) in
  MkDirectives (Some (csm_author meta))
    (if decide (csm_description meta = "") then None else Some (csm_description meta))
    (Some (cs_base_snapshot_id (pcs_changeset pcs))) (pcs_acl_version pcs) (pcs_op_schema_version pcs)
    (pcs_graph_schema_version pcs) (pcs_core_ir_schema_version pcs) (pcs_diagnostics_schema_version pcs)
    (pcs_verification_schema_version pcs) (pcs_composition pcs).

Lemma foldl_push_all {A} (f : A → Directives → Directives) (g : list A → Directives) (l k : list A) :
  (∀ s k, f s (g k) = g (k ++ [s])) → foldl (λ d s, f s d) (g k) l = g (k ++ l).
Proof.
  intros Hf. revert k. induction l as [|s l IH]; intros k; cbn; [by rewrite app_nil_r|].
  rewrite Hf, IH, <- app_assoc. done.
Qed.

(** One of the five lists of the composition *)
Lemma reads_composition_part kw (push : string → ChangeComposition → ChangeComposition)
    (g : list string → ChangeComposition) l d :
  (∀ d s, is_text s → reads [kw +:+ s] (top d [] [] [] [] [] []) (top (on_composition (push s) d) [] [] [] [] [] [])) →
  (∀ s k, push s (g k) = g (k ++ [s])) → Forall is_text l →
  reads (many_lines kw l) (top (on_composition (λ _, g []) d) [] [] [] [] [] [])
    (top (on_composition (λ _, g l) d) [] [] [] [] [] []).
Proof.
  intros Hp Hg Hl.
  pose proof (reads_many kw (λ d, top d [] [] [] [] [] []) (λ s, on_composition (push s)) l
    (on_composition (λ _, g []) d) (λ s a, Hp a s) Hl) as H.
  pose proof (foldl_push_all (λ s, on_composition (push s)) (λ k, on_composition (λ _, g k) d) l []) as Hf.
  cbn in H, Hf. rewrite Hf in H; [done|]. intros s k. destruct d as [? ? ? ? ? ? ? ? ? c]. cbn. by rewrite Hg.
Qed.

Lemma reads_composition c d :
  composition_printable c →
  reads (composition_text c) (top (on_composition (λ _, change_composition_default) d) [] [] [] [] [] [])
    (top (on_composition (λ _, c) d) [] [] [] [] [] []).
Proof.
  intros Hc. destruct c as [a b e f g]. unfold composition_printable in Hc. cbn in Hc.
  apply Forall_app in Hc as (Ha & Hc). apply Forall_app in Hc as (Hb & Hc). apply Forall_app in Hc as (He & Hc).
  apply Forall_app in Hc as (Hf & Hg). unfold composition_text. cbn.
  eapply reads_app; [apply (reads_composition_part _ push_depends_on (λ k, MkChangeComposition k [] [] [] [])); try done;
    intros; by apply reads_depends_on|].
  eapply reads_app; [apply (reads_composition_part _ push_supersedes (λ k, MkChangeComposition a k [] [] [])); try done;
    intros; by apply reads_supersedes|].
  eapply reads_app;
    [apply (reads_composition_part _ push_conflicts_with (λ k, MkChangeComposition a b k [] [])); try done;
     intros; by apply reads_conflicts_with|].
  eapply reads_app; [apply (reads_composition_part _ push_part_of (λ k, MkChangeComposition a b e k [])); try done;
    intros; by apply reads_part_of|].
  apply (reads_composition_part _ push_blocks (λ k, MkChangeComposition a b e f k)); try done.
  intros. by apply reads_blocks_directive.
Qed.

Lemma reads_header pcs :
  printable pcs →
  reads (header_text pcs) (top directives_new [] [] [] [] [] []) (top (directives_of pcs) [] [] [] [] [] []).
Proof.
  intros H. pose proof (pr_schemas _ H) as Hs. unfold schemas in Hs.
  repeat match goal with H : Forall _ (_ :: _) |- _ => apply Forall_cons in H as [? H] end.
  destruct (pr_acl _ H) as [Ha1 Ha2].
  unfold header_text, directives_of. set (meta := cs_meta (pcs_changeset pcs)).
  eapply reads_app; [apply reads_author, H|].
  eapply reads_app; [apply (reads_opt _ (λ d, top d [] [] [] [] [] []) set_description)|];
    [intros; by apply reads_description| |done|].
  { destruct (pr_description _ H) as [E|E]; case_decide; done. }
  eapply (reads_app [_; _]).
  { eapply (reads_app [_] [_]); [by apply reads_base, H|by apply reads_acl]. }
  eapply reads_app; [apply (reads_opt _ (λ d, top d [] [] [] [] [] []) set_op_schema); try done;
    intros; by apply reads_op_schema|].
  eapply reads_app; [apply (reads_opt _ (λ d, top d [] [] [] [] [] []) set_graph_schema); try done;
    intros; by apply reads_graph_schema|].
  eapply reads_app; [apply (reads_opt _ (λ d, top d [] [] [] [] [] []) set_core_ir_schema); try done;
    intros; by apply reads_core_ir_schema|].
  eapply reads_app; [apply (reads_opt _ (λ d, top d [] [] [] [] [] []) set_diagnostics_schema); try done;
    intros; by apply reads_diagnostics_schema|].
  eapply reads_app; [apply (reads_opt _ (λ d, top d [] [] [] [] [] []) set_verification_schema); try done;
    intros; by apply reads_verification_schema|].
  apply (reads_composition _ (directives_of pcs)), H.
Qed.

(* ------------------------------------------------------------------ *)
(** ** Preconditions *)

(** Inside a section *)
Definition within (sec : AclSection) (d : Directives) (ops : list ParsedOp) (pre : list Precondition)
    (ex ap : list string) (bl : list ParsedBlock) (ve : list string) : ParserState :=
  MkParserState d (po_kind <$> ops) ops pre ex ap bl ve None false sec true.

Lemma is_text_pair w s : is_word w → is_text s → is_text (w +:+ String " " s).
Proof.
  intros [Hw Hg] (Hs & Ht & Hn). destruct w as [|a w]; [done|]. cbn in Hg. apply andb_true_iff in Hg as [Ha Hg].
  split_and!; [done| |].
  - change (String " " s) with (" " +:+ s). rewrite append_assoc, append_cons. apply trim_keyword; try done.
    rewrite string_all_app. cbn. rewrite andb_true_r. eapply string_all_impl; [apply graphic_one_byte|done].
  - unfold no_char in *. rewrite string_all_app. apply andb_true_iff. split; [|done].
    apply (word_no_char newline (String a w)); [done|]. cbn. by rewrite Ha, Hg.
Qed.

Lemma word_app w v : string_all graphic w = true → w ≠ "" → string_all graphic v = true → is_word (w +:+ v).
Proof. intros Hw Hn Hv. split; [by destruct w|]. rewrite string_all_app. by rewrite Hw, Hv. Qed.

Lemma encode_hex32_graphic h : Forall is_byte h → string_all graphic (encode_hex32 h) = true.
Proof.
  assert (∀ n, (n < 16)%N → graphic (hex_digit n) = true) as Hd.
  { intros n Hn. apply (below_by_evaluation 16 (λ n, graphic (hex_digit n))); [vm_compute; reflexivity|done]. }
  induction 1 as [|b h Hb Hh IH]; [done|]. cbn. rewrite IH, !Hd; [done| |].
  - change 15%N with (N.ones 4). rewrite N.land_ones. by apply N.mod_lt.
  - unfold is_byte in Hb. rewrite N.shiftr_div_pow2. apply N.Div0.div_lt_upper_bound. cbn. lia.
Qed.

Lemma acl_decode_encode h n : hash_ok h → acl_decode_hex32 (encode_hex32 h) n = Ok h.
Proof.
  intros [Hl Hb]. unfold acl_decode_hex32. rewrite <- length_string_bytes, length_encode_hex32, Hl.
  rewrite decide_False by lia. apply hex_chunks_Ok. by apply decode_encode_pairs.
Qed.

Lemma extract_bare s : starts_with (String dquote "") s = false → extract_string_value s = s.
Proof.
  intros H. unfold extract_string_value. destruct (strip_prefix _ s) as [r|] eqn:E; [|done].
  apply strip_prefix_Some in E. rewrite (proj2 (starts_with_iff _ _)) in H; [done|by exists r].
Qed.

(** The value of the only pair of a text *)
Lemma extract_kv_single key v :
  string_all graphic key = true → string_all graphic v = true → starts_with (String dquote "") v = false →
  extract_kv_value (trim (key +:+ String "=" v)) key = Some v.
Proof.
  intros Hk Hv Hq. assert (is_word (key +:+ String "=" v)) as Hw.
  { split; [by destruct key|]. rewrite string_all_app. cbn. by rewrite Hk, Hv. }
  destruct (is_word_text _ Hw) as (_ & -> & _). unfold extract_kv_value. rewrite split_whitespace_word by done.
  cbn [find_map]. rewrite (proj2 (strip_prefix_Some _ _ (String "=" v))) by done.
  cbn [mbind option_bind]. change (strip_prefix "=" (String "=" v)) with (Some v).
  cbn [mbind option_bind]. by rewrite extract_bare.
Qed.

Lemma hex_not_quoted h : Forall is_byte h → starts_with (String dquote "") (encode_hex32 h) = false.
Proof.
  destruct 1 as [|b h Hb _]; [done|]. apply not_true_is_false. intros [r Hr]%starts_with_iff.
  assert (hex_digit (N.shiftr b 4) ≠ dquote) as Hd; [|by destruct Hd; injection Hr].
  apply (below_by_evaluation 256 (λ b, bool_decide (hex_digit (N.shiftr b 4) ≠ dquote))) in Hb;
    [by apply bool_decide_eq_true in Hb|vm_compute; reflexivity].
Qed.

Section Preconditions.
Context (d : Directives) (ops : list ParsedOp) (ex ap : list string) (bl : list ParsedBlock) (ve : list string).
Abbreviation in_requires pre := (within Requires d ops pre ex ap bl ve).

(** A line of the section is a precondition line. *)
Lemma reads_requires kw rest p pre :
  kw ∈ ["assert_exists "; "assert_hash "; "assert_context "] → is_text rest →
  (∀ n, parse_precondition_line (kw +:+ rest) n = Ok p) →
  reads [kw +:+ rest] (in_requires pre) (in_requires (pre ++ [p])).
Proof.
  intros Hkw Ht Hp. apply reads_line. intros n.
  assert (trim (kw +:+ rest) = (kw +:+ rest)) as ->.
  { rewrite !elem_of_cons in Hkw. destruct Hkw as [->|[->|[->|[]%not_elem_of_nil]]];
      erewrite trim_kw by (reflexivity || eassumption); done. }
  transitivity (let? p := parse_precondition_line (kw +:+ rest) n in Ok (push_precondition p (in_requires pre))).
  - rewrite !elem_of_cons in Hkw. by destruct Hkw as [->|[->|[->|[]%not_elem_of_nil]]].
  - by rewrite Hp.
Qed.

Lemma assert_hash_line id h n :
  is_word id → hash_ok h →
  parse_precondition_line ("assert_hash " +:+ (id +:+ String " " ("sig=" +:+ encode_hex32 h))) n =
  Ok (match parse_u32 id with Some n => AssertHash (Z.to_N n) h | None => AssertHashByName id h end).
Proof.
  intros Hid Hh. pose proof Hh as [_ Hb]. pose proof (word_no_char " " id eq_refl (proj2 Hid)) as Hsp.
  destruct (is_word_text _ Hid) as (_ & Hti & _).
  transitivity (let '(p, k) := splitn2 (id +:+ String " " ("sig=" +:+ encode_hex32 h)) in
    match extract_kv_value (trim k) "sig" with
    | None => Err (MissingSig n)
    | Some hex =>
        let? expected_hash := acl_decode_hex32 hex n in
        match parse_u32 (trim p) with
        | Some n => Ok (AssertHash (Z.to_N n) expected_hash)
        | None => Ok (AssertHashByName (trim p) expected_hash)
        end
    end); [reflexivity|].
  rewrite splitn2_two by done. change ("sig=" +:+ encode_hex32 h) with ("sig" +:+ String "=" (encode_hex32 h)).
  rewrite extract_kv_single by (done || by apply encode_hex32_graphic || by apply hex_not_quoted).
  rewrite acl_decode_encode by done. rewrite Hti. by destruct (parse_u32 id).
Qed.

Lemma reads_precondition p pre :
  precondition_printable p → reads [precondition_text p] (in_requires pre) (in_requires (pre ++ [p])).
Proof.
  assert (∀ id h, is_word id → hash_ok h → is_text (id +:+ String " " ("sig=" +:+ encode_hex32 h))) as Htext.
  { intros id h Hid [_ Hh]. apply is_text_pair; [done|]. apply is_word_text, word_app; try done. by apply encode_hex32_graphic. }
  intros [Hok Hp]. destruct p as [n|n h|name|name h|t o]; cbn [precondition_text] in *.
  - pose proof (pretty_word n) as Hw. apply reads_requires; [left|by apply is_word_text|]. intros m.
    destruct (is_word_text _ Hw) as (_ & Ht & _).
    transitivity (match parse_u32 (trim (pretty (n : N))) with
      | Some k => Ok (AssertExists (Z.to_N k)) | None => Ok (AssertExistsByName (trim (pretty (n : N)))) end : result _ ParseError);
      [reflexivity|].
    rewrite Ht, parse_u32_pretty by done. by rewrite N2Z.id.
  - destruct Hok as [Hn Hh]. apply reads_requires; [right; left|apply Htext; [apply pretty_word|done]|].
    intros m. rewrite assert_hash_line by (done || apply pretty_word).
    rewrite parse_u32_pretty by done. by rewrite N2Z.id.
  - apply reads_requires; [left|done|]. intros m. destruct Hp as (_ & Ht & _).
    transitivity (match parse_u32 (trim name) with
      | Some k => Ok (AssertExists (Z.to_N k)) | None => Ok (AssertExistsByName (trim name)) end : result _ ParseError);
      [reflexivity|]. rewrite Ht. cbn in Hok. by rewrite Hok.
  - destruct Hok as [Hn Hh]. apply reads_requires; [right; left|by apply Htext|].
    intros m. rewrite assert_hash_line by done. by rewrite Hn.
  - destruct Hp as [Ht Ho]. pose proof (word_no_char " " t eq_refl (proj2 Ht)) as Hsp.
    destruct (is_word_text _ Ht) as (Hne & Htt & _). destruct o as [h|]; cbn in Ho.
    + destruct Ho as [Hh Hq]. apply reads_requires; [right; right; left| |].
      { apply is_text_pair; [done|]. apply is_word_text, word_app; try done. apply Hh. }
      intros m. unfold parse_precondition_line.
      rewrite (proj2 (strip_prefix_Some "assert_context " _ _)) by reflexivity.
      change (strip_prefix "assert_exists " _) with (@None string).
      change (strip_prefix "assert_hash " _) with (@None string).
      rewrite splitn2_two by done. change ("hash=" +:+ h) with ("hash" +:+ String "=" h).
      rewrite extract_kv_single by (done || apply Hh). rewrite Htt. by rewrite decide_False.
    + apply reads_requires; [right; right; left|by apply is_word_text|].
      intros m. unfold parse_precondition_line.
      rewrite (proj2 (strip_prefix_Some "assert_context " _ _)) by reflexivity.
      change (strip_prefix "assert_exists " _) with (@None string).
      change (strip_prefix "assert_hash " _) with (@None string).
      rewrite splitn2_one by done. rewrite Htt. by rewrite decide_False.
Qed.
End Preconditions.

(* ------------------------------------------------------------------ *)
(** ** Operations *)

Lemma graphic_no_tail a b c : graphic c = true → space2 b c = false ∧ space3 a b c = false.
Proof.
  intros Hc. assert (N_of_ascii c < 128)%N as Hn by (apply N.ltb_lt; by apply graphic_one_byte).
  unfold space2, space3. split.
  - apply andb_false_iff. right. apply orb_false_iff. split; apply N.eqb_neq; lia.
  - assert ((N_of_ascii c =? 128) = false ∧ (128 <=? N_of_ascii c) = false ∧ (N_of_ascii c =? 168) = false ∧
      (N_of_ascii c =? 169) = false ∧ (N_of_ascii c =? 175) = false ∧ (N_of_ascii c =? 159) = false)%N
      as (-> & -> & -> & -> & -> & ->).
    { split_and!; try (apply N.eqb_neq; lia). apply N.leb_gt. lia. }
    by rewrite !andb_false_r.
Qed.

Lemma trim_ends a s b :
  graphic a = true → graphic b = true → trim (String a (s +:+ String b "")) = String a (s +:+ String b "").
Proof.
  intros Ha Hb. apply trimmed_iff. split; [by apply trim_start_graphic|].
  cbn [String.list_ascii_of_string]. rewrite to_chars_app. cbn [rev]. rewrite rev_app_distr. cbn [rev app].
  set (l := rev (to_chars s) ++ [a]). cbn. destruct (graphic_no_space b b b Hb) as (-> & _).
  fold (app (rev (to_chars s)) [a]). fold l. destruct l as [|c l]; [done|].
  destruct (graphic_no_tail c c b Hb) as [-> _]. destruct l as [|e l]; [done|].
  by destruct (graphic_no_tail e c b Hb) as [_ ->].
Qed.

Lemma strip_suffix_app c s : strip_suffix_char c (s +:+ String c "") = Some s.
Proof.
  induction s as [|a s IH]; [rewrite append_nil; cbn; by rewrite decide_True|].
  rewrite append_cons. cbn. rewrite IH. by destruct s.
Qed.

Lemma quoted_value v rest :
  no_char dquote v = true → kv_value (quoted v +:+ rest) = (v, str_trim_start rest).
Proof.
  intros Hv. unfold quoted. rewrite append_cons, <- append_assoc, append_cons, append_nil. unfold kv_value.
  rewrite (proj2 (strip_prefix_Some (String dquote "") _ (v +:+ String dquote rest))) by reflexivity.
  rewrite (proj2 (split_once_Some dquote _ v rest)) by done. rewrite trim_ends by done. f_equal.
  unfold extract_string_value.
  rewrite (proj2 (strip_prefix_Some (String dquote "") _ (v +:+ String dquote ""))) by reflexivity.
  by rewrite strip_suffix_app.
Qed.

(** The arguments after the first *)
Definition more_args (args : list (string * string)) : string :=
  match args with [] => "" | _ => String " " (args_text args) end.

Lemma args_text_cons a args : args_text (a :: args) = arg_text a +:+ more_args args.
Proof. destruct args; [by rewrite append_empty|done]. Qed.

Lemma args_text_ends args : args ≠ [] → Forall arg_printable args →
  no_char newline (args_text args) = true ∧
  ∃ a s, graphic a = true ∧ args_text args = String a (s +:+ String dquote "").
Proof.
  intros Hn Ha. induction Ha as [|[k v] args ((Hk & Hg) & He & Hq & Hv) Ha IH]; [done|]. cbn [fst snd] in *.
  rewrite args_text_cons. unfold arg_text, quoted. cbn [fst snd].
  destruct k as [|c k]; [done|]. cbn in Hg. apply andb_true_iff in Hg as [Hc Hg]. split.
  - unfold no_char. rewrite !string_all_app. cbn. rewrite !string_all_app.
    pose proof (word_no_char newline k eq_refl Hg) as Hk'. unfold no_char in Hk', Hv. rewrite Hk', Hv.
    assert (c ≠ newline) as Hcn by (by intros ->). rewrite bool_decide_eq_true_2 by done. cbn.
    destruct args; [done|]. cbn. by destruct (IH ltac:(done)) as [IHn _].
  - exists c. destruct args as [|b args].
    + cbn [more_args]. exists (k +:+ String "=" (String dquote v)). split; [done|].
      rewrite append_empty, append_cons, <- append_assoc. by rewrite !append_cons.
    + destruct IH as (_ & a & s & Ha' & Es); [done|]. cbn [more_args]. rewrite Es.
      exists ((k +:+ String "=" (String dquote (v +:+ String dquote (String " " (String a s)))))). split; [done|].
      rewrite !append_cons, <- !append_assoc, !append_cons, <- !append_assoc, !append_cons. done.
Qed.

Lemma more_args_start args : Forall arg_printable args → str_trim_start (more_args args) = args_text args.
Proof.
  intros Ha. destruct args as [|a args]; [done|]. cbn [more_args]. rewrite str_trim_start_space.
  destruct (args_text_ends (a :: args)) as (_ & c & s & Hc & ->); [done..|]. by apply str_trim_start_graphic.
Qed.

Lemma kv_loop_args f args m :
  String.length (args_text args) ≤ f → Forall arg_printable args →
  kv_loop f (args_text args) m = foldl (λ m a, <[a.1 := a.2]> m) m args.
Proof.
  intros Hf Ha. revert f m Hf. induction Ha as [|[k v] args ((Hk & Hg) & He & Hq & Hv) Ha IH]; intros f m Hf.
  { by destruct f. }
  rewrite args_text_cons in *. unfold arg_text in *. cbn [fst snd] in *.
  rewrite <- append_assoc, append_cons in *. rewrite length_append in Hf. destruct f as [|f]; [cbn in Hf; lia|].
  cbn [kv_loop]. rewrite (proj2 (split_once_Some "=" _ k (quoted v +:+ more_args args))) by done.
  rewrite quoted_value by done. rewrite trim_id by done. rewrite decide_False by done.
  rewrite more_args_start by done. cbn [foldl fst snd]. apply IH.
  cbn in Hf. rewrite length_append in Hf. assert (String.length (args_text args) ≤ String.length (more_args args)).
  { destruct args; [done|]. cbn. lia. }
  lia.
Qed.

Lemma foldl_insert_map (m : OpArgs) : foldl (λ m a, <[a.1 := a.2]> m) ∅ (btree_iter m) = m.
Proof.
  assert (∀ (l : list (string * string)), foldl (λ (m : OpArgs) a, <[a.1 := a.2]> m) ∅ l = list_to_map (reverse l)) as H.
  { intros l. induction l as [|[k v] l IH] using rev_ind; [done|]. rewrite foldl_snoc, reverse_snoc. cbn. by rewrite IH. }
  rewrite H.
  assert (reverse (btree_iter m) ≡ₚ map_to_list m) as Hp.
  { rewrite reverse_Permutation. apply merge_sort_Permutation. }
  rewrite (list_to_map_proper _ (map_to_list m)); [apply list_to_map_to_list| |done].
  rewrite Hp. apply NoDup_fst_map_to_list.
Qed.

Lemma parse_kv_args_text (m : OpArgs) :
  (∀ k v, m !! k = Some v → arg_printable (k, v)) → parse_kv_args (args_text (btree_iter m)) = m.
Proof.
  intros Hm. assert (Forall arg_printable (btree_iter m)) as Ha.
  { apply Forall_forall. intros [k v] Hin%btree_iter_elem. by apply Hm. }
  unfold parse_kv_args. destruct (decide (btree_iter m = [])) as [E|E].
  - pose proof (foldl_insert_map m) as H. rewrite E in H |- *. done.
  - destruct (args_text_ends _ E Ha) as (_ & a & s & Hs & Et).
    assert (trim (args_text (btree_iter m)) = args_text (btree_iter m)) as -> by (rewrite Et; by apply trim_ends).
    rewrite kv_loop_args by done. apply foldl_insert_map.
Qed.

Lemma reads_op d ops pre ex ap bl ve op :
  op_printable op → reads [op_text op] (top d ops pre ex ap bl ve) (top d (ops ++ [op]) pre ex ap bl ve).
Proof.
  intros (Hw & Hm & Ha). destruct op as [kind verb args]. cbn [po_verb po_kind po_args] in *.
  assert (∀ rest a, is_text rest → splitn_white rest = (verb, a) → parse_kv_args (trim (default "" a)) = args →
    reads ["op " +:+ rest] (top d ops pre ex ap bl ve) (top d (ops ++ [MkParsedOp kind verb args]) pre ex ap bl ve)) as Hgo.
  { intros rest a Ht Hs Hargs. apply reads_line. intros n. erewrite trim_kw by (reflexivity || eassumption).
    transitivity (let '(v, a) := splitn_white rest in
      match map_verb (trim v) with
      | Some kind => Ok (push_op (MkParsedOp kind (trim v) (parse_kv_args (trim (default "" a)))) (top d ops pre ex ap bl ve))
      | None => Err (UnknownVerb n (trim v))
      end); [reflexivity|]. rewrite Hs. destruct (is_word_text _ Hw) as (_ & -> & _).
    rewrite Hm, Hargs. unfold top, push_op. by rewrite fmap_app. }
  destruct (splitn_white_word verb (proj2 Hw)) as [Hs1 Hs2].
  pose proof (parse_kv_args_text args Ha) as Hargs. unfold op_text. cbn [po_args po_verb].
  destruct (btree_iter args) as [|p ps] eqn:E.
  - eapply Hgo; [by apply is_word_text|apply Hs1|]. done.
  - assert (Forall arg_printable (p :: ps)) as Hp.
    { rewrite <- E. apply Forall_forall. intros [k v] Hin%btree_iter_elem. by apply Ha. }
    destruct (args_text_ends (p :: ps)) as (Hn & c & s & Hc & Et); [done..|].
    assert (trim (args_text (p :: ps)) = args_text (p :: ps)) as Htrim by (rewrite Et; by apply trim_ends).
    eapply Hgo; [|apply Hs2|change (parse_kv_args (trim (args_text (p :: ps))) = args); by rewrite Htrim].
    apply is_text_pair; [done|]. split_and!; [by rewrite Et|done|done].
Qed.

(* ------------------------------------------------------------------ *)
(** ** Claims, blocks and the document *)

(** A list of things printed on a line each *)
Lemma reads_each {A} (text : A → string) (P : A → Prop) (st : list A → ParserState) l k :
  (∀ x k, P x → reads [text x] (st k) (st (k ++ [x]))) → Forall P l → reads (text <$> l) (st k) (st (k ++ l)).
Proof.
  intros Hp Hl. revert k. induction Hl as [|x l Hx Hl IH]; intros k; [rewrite app_nil_r; apply reads_nil|].
  rewrite (cons_middle x), app_assoc. rewrite fmap_cons.
  apply (reads_app [text x] (text <$> l) _ (st (k ++ [x]))); [by apply Hp|apply IH].
Qed.

(** A plain line is none of the lines the parser takes before it looks at the
    open block and the section. *)
Lemma parse_plain_line n s st :
  plain_line s →
  parse_line n (trim s) st =
  match ps_current_block st with
  | Some blk => Ok (set_block (Some (block_line s blk)) st)
  | None =>
      match strip_prefix "block " s with
      | Some rest =>
          if decide (ps_section st = TopLevel) then
            let? blk := parse_block_header rest n in Ok (set_block (Some blk) st)
          else body_line n s st
      | None => body_line n s st
      end
  end.
Proof.
  intros ((Hs & -> & _) & H1 & H2 & H3 & H4). unfold parse_line. rewrite decide_False by done.
  rewrite H1, H2, bool_decide_eq_false_2 by done. cbn. by rewrite decide_False.
Qed.

Lemma reads_claim sec d ops pre ex ap bl ve s :
  claim_line s → sec = Expect ∨ sec = Approval →
  reads [s] (within sec d ops pre ex ap bl ve)
    (match sec with
     | Expect => within sec d ops pre (ex ++ [s]) ap bl ve
     | _ => within sec d ops pre ex (ap ++ [s]) bl ve
     end).
Proof.
  intros [Hp Ho] Hsec. apply reads_line. intros n. rewrite parse_plain_line by done. cbn [ps_current_block within].
  assert (∀ st, st = within sec d ops pre ex ap bl ve → body_line n s st =
    Ok (match sec with Expect => push_expect s st | _ => push_approval s st end)) as Hb.
  { intros st ->. unfold body_line. rewrite Ho. by destruct Hsec as [-> | ->]. }
  destruct Hsec as [-> | ->]; destruct (strip_prefix "block " s); by rewrite (Hb _ eq_refl).
Qed.

Lemma reads_section_text {A} (kw : string) (text : A → string) (P : A → Prop) (top_st in_st : list A → ParserState) l :
  (∀ n k, parse_line n (trim kw) (top_st k) = Ok (in_st k)) →
  (∀ n k, parse_line n "end" (in_st k) = Ok (top_st k)) →
  (∀ x k, P x → reads [text x] (in_st k) (in_st (k ++ [x]))) → Forall P l →
  reads (section_text kw (text <$> l)) (top_st []) (top_st l).
Proof.
  intros Hopen Hclose Hp Hl. destruct l as [|x l]; [apply reads_nil|].
  change (section_text kw (text <$> x :: l)) with (kw :: ((text <$> x :: l) ++ ["end"])).
  eapply reads_cons; [intros n; apply Hopen|]. eapply reads_app.
  - apply (reads_each text P in_st (x :: l) []); done.
  - apply reads_line. intros n. apply Hclose.
Qed.

(** The contents of a block, appended line by line *)
Definition in_block (blk : ParsedBlock) (st : ParserState) : ParserState := set_block (Some blk) st.

Definition with_content (c : string) (blk : ParsedBlock) : ParsedBlock :=
  MkParsedBlock (pb_kind blk) (pb_block_ref blk) c (pb_hash blk).

Lemma join_snoc (sep : string) l s : l ≠ [] → join sep (l ++ [s]) = join sep l +:+ (sep +:+ s).
Proof.
  induction l as [|x l IH]; [done|]. intros _. destruct l as [|y l]; [done|].
  change (join sep ((x :: y :: l) ++ [s])) with (x +:+ (sep +:+ join sep ((y :: l) ++ [s]))).
  rewrite IH by done. change (join sep (x :: y :: l)) with (x +:+ (sep +:+ join sep (y :: l))).
  by rewrite <- !append_assoc.
Qed.

Lemma reads_content st b ls done_ :
  done_ ≠ [] → lines_text done_ ≠ "" → Forall (λ l, l = "" ∨ plain_line l) ls →
  reads ls (in_block (with_content (lines_text done_) b) st) (in_block (with_content (lines_text (done_ ++ ls)) b) st).
Proof.
  intros Hd Ht Hl. revert done_ Hd Ht. induction Hl as [|s ls Hs Hl IH]; intros done_ Hd Ht.
  { rewrite app_nil_r. apply reads_nil. }
  rewrite (cons_middle s), app_assoc.
  assert (lines_text (done_ ++ [s]) = (lines_text done_ +:+ String newline "") +:+ s) as Ej.
  { unfold lines_text. rewrite join_snoc by done. by rewrite append_assoc. }
  apply (reads_cons s _ _ (in_block (with_content (lines_text (done_ ++ [s])) b) st)).
  - intros n. destruct Hs as [->|Hs].
    + change (parse_line n (trim "") (in_block (with_content (lines_text done_) b) st)) with
        (Ok (match ps_current_block (in_block (with_content (lines_text done_) b) st) with
             | Some blk => set_block (Some (block_blank blk)) (in_block (with_content (lines_text done_) b) st)
             | None => in_block (with_content (lines_text done_) b) st end) : result _ ParseError).
      destruct st. cbn. unfold block_blank. cbn. rewrite append_empty in Ej. unfold with_content. by rewrite Ej.
    + rewrite parse_plain_line by done. destruct st. cbn. unfold block_line. cbn [pb_content pb_kind pb_block_ref pb_hash with_content].
      rewrite decide_False by done. by rewrite <- Ej.
  - apply IH; [by destruct done_|]. rewrite Ej. destruct (lines_text done_) eqn:E; [done|]. by rewrite append_cons.
Qed.

Lemma reads_block_content st b c :
  c = "" ∨ Forall (λ l, l = "" ∨ plain_line l) (split_on newline c) ∧ head (split_on newline c) ≠ Some "" →
  reads (content_lines c) (in_block (with_content "" b) st) (in_block (with_content c b) st).
Proof.
  unfold content_lines. case_decide as Hc; [intros _; subst; apply reads_nil|]. intros [?|[Hl Hh]]; [done|].
  pose proof (join_split_on newline c) as Hj. destruct (split_on newline c) as [|s ls]; [done|].
  apply Forall_cons in Hl as [[->|Hs] Hl]; [done|]. rewrite <- Hj.
  eapply reads_cons; [|apply (reads_content st b ls [s]); [done|apply Hs|done]].
  intros n. rewrite parse_plain_line by done. destruct st. cbn. unfold block_line. cbn. done.
Qed.

Lemma block_header_text b : block_printable b →
  ∃ rest, block_header b = "block " +:+ rest ∧ is_text rest ∧
    ∀ n, parse_block_header rest n = Ok (with_content "" b).
Proof.
  intros (Hk & Hr & Hat & Hh & _). destruct b as [kind r c h].
  cbn [pb_kind pb_block_ref pb_hash] in *.
  pose proof (word_no_char " " _ eq_refl (proj2 Hk)) as Hk'. pose proof (word_no_char " " _ eq_refl (proj2 Hr)) as Hr'.
  unfold block_header. cbn [pb_hash pb_kind pb_block_ref]. destruct h as [h|]; cbn in Hh.
  - destruct Hh as [Hw Hq]. eexists. split; [reflexivity|]. assert (is_word ("hash=" +:+ h)) as Hwh.
    { apply word_app; try done. apply Hw. }
    split; [by apply is_text_pair, is_text_pair, is_word_text|]. intros n. unfold parse_block_header.
    rewrite splitn3_three by done. rewrite decide_False by apply Hk. rewrite Hat.
    change (default "" (Some ("hash=" +:+ h))) with ("hash=" +:+ h).
    destruct (is_word_text _ Hwh) as (_ & -> & _). rewrite split_whitespace_word by done.
    cbn [find_map]. rewrite (proj2 (strip_prefix_Some "hash=" _ h)) by done. cbn [fmap option_fmap option_map].
    by rewrite extract_bare.
  - eexists. split; [reflexivity|]. split; [by apply is_text_pair, is_word_text|]. intros n. unfold parse_block_header.
    rewrite splitn3_two by done. rewrite decide_False by apply Hk. by rewrite Hat.
Qed.

Lemma reads_block d ops pre ex ap bl ve b :
  block_printable b → reads (block_text b) (top d ops pre ex ap bl ve) (top d ops pre ex ap (bl ++ [b]) ve).
Proof.
  intros Hb. destruct (block_header_text b Hb) as (rest & Eh & Ht & Hp). unfold block_text. rewrite Eh.
  eapply reads_cons.
  - intros n. erewrite trim_kw by (reflexivity || eassumption).
    transitivity (let? blk := parse_block_header rest n in Ok (in_block blk (top d ops pre ex ap bl ve)));
      [reflexivity|]. by rewrite Hp.
  - eapply reads_app; [apply reads_block_content, Hb|]. apply reads_line. intros n. by destruct b.
Qed.

Lemma reads_blocks d ops pre ex ap bl ve bs :
  Forall block_printable bs →
  reads (bs ≫= block_text) (top d ops pre ex ap bl ve) (top d ops pre ex ap (bl ++ bs) ve).
Proof.
  intros Hb. revert bl. induction Hb as [|b bs Hb Hbs IH]; intros bl; [rewrite app_nil_r; apply reads_nil|].
  rewrite (cons_middle b), app_assoc.
  change (b :: bs ≫= block_text) with (block_text b ++ (bs ≫= block_text)).
  eapply reads_app; [by apply reads_block|apply IH].
Qed.

(** Every printed line is trimmed and has no line end in it. *)
Definition line_ok (s : string) : Prop := trim s = s ∧ no_char newline s = true.

Lemma text_line_ok s : is_text s → line_ok s.
Proof. by intros (_ & ? & ?). Qed.

Lemma kw_line_ok kw a k s :
  kw = String a k → graphic a = true → string_all one_byte k = true → no_char newline k = true → is_text s →
  line_ok (kw +:+ s).
Proof.
  intros -> Ha Hk Hn Hs. split; [by eapply trim_kw|]. destruct Hs as (_ & _ & Hs). unfold no_char in *.
  rewrite string_all_app, Hs, andb_true_r. cbn. rewrite Hn, andb_true_r. apply bool_decide_eq_true. by intros ->.
Qed.

Lemma many_lines_ok kw a k l :
  kw = String a k → graphic a = true → string_all one_byte k = true → no_char newline k = true → Forall is_text l →
  Forall line_ok (many_lines kw l).
Proof. intros. apply Forall_fmap. eapply Forall_impl; [done|]. intros s Hs. by eapply kw_line_ok. Qed.

Lemma opt_line_ok kw a k o :
  kw = String a k → graphic a = true → string_all one_byte k = true → no_char newline k = true →
  from_option is_text True o → Forall line_ok (opt_line kw o).
Proof. intros. destruct o; [|constructor]. apply Forall_singleton. by eapply kw_line_ok. Qed.

Lemma section_text_ok kw l : line_ok kw → Forall line_ok l → Forall line_ok (section_text kw l).
Proof.
  intros Hk Hl. destruct l as [|s l]; [constructor|]. constructor; [done|]. apply Forall_app. split; [done|].
  by apply Forall_singleton.
Qed.

Lemma header_text_ok pcs : printable pcs → Forall line_ok (header_text pcs).
Proof.
  intros H. pose proof (pr_schemas _ H) as Hs. unfold schemas in Hs.
  repeat match goal with H : Forall _ (_ :: _) |- _ => apply Forall_cons in H as [? H] end.
  pose proof (pr_composition _ H) as Hc. unfold composition_printable in Hc. unfold header_text, composition_text.
  rewrite !Forall_app in Hc. repeat rewrite Forall_app. rewrite !Forall_cons, Forall_nil. split_and!;
    try (by eapply opt_line_ok); try (by eapply many_lines_ok; try done; apply Hc).
  - by eapply kw_line_ok; try done; apply H.
  - done.
  - eapply opt_line_ok; try done. destruct (pr_description _ H); case_decide; done.
  - eapply kw_line_ok; try done. apply is_word_text, pretty_word.
  - by eapply kw_line_ok; try done; apply H.
  - done.
Qed.

Lemma precondition_text_ok p : precondition_printable p → line_ok (precondition_text p).
Proof.
  assert (∀ h, hash_ok h → is_text ("sig=" +:+ encode_hex32 h)) as Hh.
  { intros h [_ Hh]. apply is_word_text, word_app; try done. by apply encode_hex32_graphic. }
  intros [Hok Hp]. destruct p as [n|n h|name|name h|t [h|]]; cbn [precondition_text] in *;
    (eapply kw_line_ok; [reflexivity..|]); try done.
  - apply is_word_text, pretty_word.
  - apply is_text_pair; [apply pretty_word|apply Hh, Hok].
  - apply is_text_pair; [done|apply Hh, Hok].
  - apply is_text_pair; [apply Hp|]. apply is_word_text, word_app; try done. apply Hp.
  - apply is_word_text, Hp.
Qed.

Lemma op_text_ok op : op_printable op → line_ok (op_text op).
Proof.
  intros (Hw & _ & Ha). unfold op_text. destruct (btree_iter (po_args op)) as [|p ps] eqn:E.
  - eapply kw_line_ok; [reflexivity..|]. by apply is_word_text.
  - destruct (args_text_ends (p :: ps)) as (Hn & c & s & Hc & Et); [done| |].
    { rewrite <- E. apply Forall_forall. intros [k v] Hin%btree_iter_elem. by apply Ha. }
    eapply kw_line_ok; [reflexivity..|]. apply is_text_pair; [done|]. split_and!; [by rewrite Et| |done].
    rewrite Et. by apply trim_ends.
Qed.

Lemma block_text_ok b : block_printable b → Forall line_ok (block_text b).
Proof.
  intros Hb. destruct (block_header_text b Hb) as (rest & Eh & Ht & _). unfold block_text. rewrite Eh.
  constructor; [by eapply kw_line_ok|]. apply Forall_app. split; [|by apply Forall_singleton].
  destruct Hb as (_ & _ & _ & _ & Hc). unfold content_lines. case_decide; [constructor|].
  destruct Hc as [?|[Hc _]]; [done|]. eapply Forall_impl; [exact Hc|].
  intros l [->|[Hl _]]; [done|]. by apply text_line_ok.
Qed.

Lemma claims_ok l : Forall claim_line l → Forall line_ok l.
Proof. intros H. eapply Forall_impl; [exact H|]. intros s [[Hs _] _]. by apply text_line_ok. Qed.

Lemma expect_claims_ok pcs : printable pcs → Forall claim_line (expect_lines pcs) ∧ Forall claim_line (approval_lines pcs).
Proof.
  intros H. pose proof (pr_expect _ H) as He. pose proof (pr_approval _ H) as Ha. unfold expect_lines, approval_lines.
  split; [destruct (pcs_expect pcs)|destruct (pcs_approval pcs)]; cbn in *; try constructor; naive_solver.
Qed.

Lemma render_lines_ok pcs : printable pcs → Forall line_ok (render_lines pcs ++ ["end"]).
Proof.
  intros H. destruct (expect_claims_ok pcs H) as [He Ha]. unfold render_lines.
  rewrite !Forall_app. split_and!; try (by apply Forall_singleton).
  - by apply header_text_ok.
  - apply section_text_ok; [done|]. apply Forall_fmap. eapply Forall_impl; [apply H|]. apply precondition_text_ok.
  - apply Forall_fmap. eapply Forall_impl; [apply H|]. apply op_text_ok.
  - apply section_text_ok; [done|by apply claims_ok].
  - apply section_text_ok; [done|by apply claims_ok].
  - pose proof (pr_blocks _ H) as Hb. induction Hb as [|b bs Hb Hbs IH]; [constructor|].
    change (b :: bs ≫= block_text) with (block_text b ++ (bs ≫= block_text)). apply Forall_app.
    split; [by apply block_text_ok|done].
  - eapply many_lines_ok; try done. apply H.
Qed.

Lemma reads_document pcs :
  printable pcs →
  reads (render_lines pcs ++ ["end"]) parser_new
    (set_in_change false
       (top (directives_of pcs) (pcs_parsed_ops pcs) (pcs_preconditions pcs) (expect_lines pcs) (approval_lines pcs)
          (pcs_blocks pcs) (pcs_verify pcs))).
Proof.
  intros H. destruct (expect_claims_ok pcs H) as [He Ha]. unfold render_lines. set (d := directives_of pcs).
  rewrite <- !app_assoc.
  apply (reads_app ["change doc"] _ _ (top directives_new [] [] [] [] [] [])); [by apply reads_line|].
  eapply reads_app; [by apply reads_header|]. fold d.
  eapply reads_app.
  { apply (reads_section_text "requires" precondition_text precondition_printable (λ k, top d [] k [] [] [] [])
      (λ k, within Requires d [] k [] [] [] [])); try done; [intros; by apply reads_precondition|apply H]. }
  eapply reads_app.
  { apply (reads_each op_text op_printable (λ k, top d k (pcs_preconditions pcs) [] [] [] [])); [|apply H].
    intros. by apply reads_op. }
  rewrite app_nil_l. set (ops := pcs_parsed_ops pcs). set (pre := pcs_preconditions pcs).
  eapply reads_app.
  { rewrite <- (list_fmap_id (expect_lines pcs)) at 1.
    apply (reads_section_text "expect" id claim_line (λ k, top d ops pre k [] [] [])
      (λ k, within Expect d ops pre k [] [] [])); try done.
    intros s k Hs. by apply (reads_claim Expect); [|left]. }
  eapply reads_app.
  { rewrite <- (list_fmap_id (approval_lines pcs)) at 1.
    apply (reads_section_text "approval" id claim_line (λ k, top d ops pre (expect_lines pcs) k [] [])
      (λ k, within Approval d ops pre (expect_lines pcs) k [] [])); try done.
    intros s k Hs. by apply (reads_claim Approval); [|right]. }
  eapply reads_app; [by apply reads_blocks, H|]. rewrite app_nil_l.
  eapply reads_app.
  { apply (reads_each (λ v, "verify " +:+ v) is_text
      (λ k, top d ops pre (expect_lines pcs) (approval_lines pcs) (pcs_blocks pcs) k)); [|apply H].
    intros. by apply reads_verify. }
  by apply reads_line.
Qed.

(** C12: Round trip: a ChangeSet whose texts fit on lines, printed in ACL, is parsed
    back as it was: every directive, precondition, op with its arguments, claim,
    approval, block and verify line reaches its field, in order. *)
Theorem parse_render pcs : printable pcs → parse_changeset (render pcs) = Ok pcs.
Proof.
  intros H. unfold parse_changeset, render. rewrite text_lines_text; [|by apply render_lines_ok|done].
  rewrite (reads_document pcs H 0%N). pose proof (pr_expect _ H) as He. pose proof (pr_approval _ H) as Ha.
  pose proof (pr_description _ H) as Hd. pose proof (pr_timestamp _ H) as Ht. pose proof (pr_ops _ H) as Ho.
  unfold expect_lines, approval_lines, directives_of.
  destruct pcs as [[[author desc ts] base ops] pre pops acl v1 v2 v3 v4 v5 e a comp bl ve].
  cbn in *. subst. unfold finish_parse. cbn. do 2 f_equal.
  - do 2 f_equal. destruct (decide (desc = "")) as [->|]; done.
  - destruct e as [[[|]]|]; cbn in *; naive_solver.
  - destruct a as [[[|]]|]; cbn in *; naive_solver.
Qed.

(* ------------------------------------------------------------------ *)
(** ** Sample *)

Module PrintSample.

Definition hash : BlockHash := replicate 32 171%N.

Definition sample : ParsedChangeSet :=
  MkParsedChangeSet (MkChangeSet (MkChangeSetMeta "ana maria" "add a cart" 0%N) 7%N [OpCreate; OpAnnotate])
    [AssertExists 3%N; AssertHashByName "type.Cart" hash; AssertContext "fn.pay" (Some "abc")]
    [MkParsedOp OpCreate "create_function" {[ "id" := "fn.a"; "body" := "add(x, y) # 1" ]};
     MkParsedOp OpAnnotate "annotate" ∅]
    "1.0" (Some "2") None None None None (Some (MkExpectClaims ["adds fn.a"])) None
    (MkChangeComposition ["c.1"; "c.2"] [] [] [] [])
    [MkParsedBlock "doc" "@doc.a" (lines_text ["first"; ""; "second line"]) (Some "ff")] ["all"].

Lemma parse_render_witness : parse_changeset (render sample) = Ok sample.
Proof.
  apply parse_render. split.
  - by split_and!.
  - right. by split_and!.
  - done.
  - done.
  - by split_and!.
  - unfold schemas. cbn. repeat (apply Forall_cons; split); try done.
  - unfold composition_printable. cbn. repeat (apply Forall_cons; split); done.
  - repeat (apply Forall_cons; split); try apply Forall_nil; split; cbn; try done.
    split; [vm_compute; reflexivity|]. split; [reflexivity|]. repeat constructor; vm_compute; reflexivity.
  - done.
  - apply Forall_cons; split; [|apply Forall_singleton].
    + split_and!; [done|vm_compute; reflexivity|]. intros k v Hk. cbn [po_args] in Hk.
      apply lookup_insert_Some in Hk as [[<- <-]|[_ [<- <-]%lookup_singleton_Some]]; by split_and!.
    + split_and!; [done|vm_compute; reflexivity|]. intros k v Hk. by apply (lookup_empty_Some k v) in Hk.
  - split; [done|]. apply Forall_singleton. by split_and!.
  - done.
  - apply Forall_singleton. split_and!; try done. right. split; [|done].
    change (Forall (λ l, l = "" ∨ plain_line l) ["first"; ""; "second line"]).
    apply Forall_cons; split; [right|apply Forall_cons; split; [by left|apply Forall_singleton; right]]; by split_and!.
  - apply Forall_singleton. by split_and!.
Defined.
End PrintSample.
