(* ===== verification/VerifySystem.v ===== *)
(** * The verifier, put together

    ail-verify/src/pipeline.rs with the ACL parser of ail-change, the type
    checker and the translation validator in the places the pipeline calls them.
    The JSON form of the operations stays a parameter. *)

From stdpp Require Import pretty gmap.
From S2P Require Import Prelude Text Anf Trim Ordering GraphTypes SemanticGraph ChangeModel Canonical Packages Versioning VerifySolver VerifyReport VerifyProof VerifyPolicy VerifyCheckers VerifyTrust Search VerifyImpact VerifyStages VerifyPackages VerifyPipeline AclText AclParser VerifyTypes VerifyTranslation.

(** [format!] of the parse error in the evidence of stage 1 *)
Definition parse_text (text : string) : result ParsedChangeSet string :=
  match parse_changeset text with
  | Ok pcs => Ok pcs
  | Err e => Err (parse_error_text e)
  end.

Lemma parse_text_Ok t pcs : parse_text t = Ok pcs → parse_changeset t = Ok pcs.
Proof. unfold parse_text. destruct (parse_changeset t); congruence. Qed.

Section System.
Context `{HashBackend, Semver, Solver, MapOrder}.
Context (json_ops : list CanonicalOp → list N).

Definition verify_changeset : PipelineContext → option string → option SemanticGraph → option VerificationReport :=
  run_with_changeset parse_text type_check translation_check json_ops.

(** The entries of the type checker and of the translation validator are among those the gates see. *)
Lemma system_entries ctx text base report p :
  verify_changeset ctx text base = Some report → report_accepted report → ProfileGate p ∈ px_rules ctx →
  ∃ validated, translation_check (px_graph ctx) (px_profile ctx) = Some validated ∧ graph_wf (px_graph ctx) ∧
    (∀ t, text = Some t → ∃ pcs, parse_changeset t = Ok pcs) ∧
    (∀ e, e ∈ type_entries (px_graph ctx) ∨ e ∈ validated → ve_state e ≠ StFailed) ∧
    (is_critical_like p = true → ∀ e, e ∈ type_entries (px_graph ctx) ∨ e ∈ validated → ve_state e ≠ StUnverified).
Proof.
  intros Hrun Ha Hp. destruct (accepted_stages _ _ _ _ _ _ _ _ _ Hrun Ha Hp) as (canonical & validated & _ & Hv & Hopen & _).
  exists validated. split; [done|].
  assert (∀ e, e ∈ type_entries (px_graph ctx) ∨ e ∈ validated →
    e ∈ stage_entries type_check ctx (parse_stage parse_text text).1 canonical base validated) as Hin.
  { intros e He. change (type_entries (px_graph ctx)) with (vr_entries (type_check (px_graph ctx))) in He.
    unfold stage_entries, translation_stage. rewrite !elem_of_app, !elem_of_cons. tauto. }
  split_and!.
  - apply validate_Ok. eapply (stage_graph_valid parse_text). exact Hopen.
  - intros t ->. destruct (parse_not_failed _ _ _ _ _ _ _ _ Hopen) as [pcs Hpcs]. eauto using parse_text_Ok.
  - intros e He. eapply stage_not_failed; [exact Hopen|auto].
  - intros Hc e He. eapply stage_settled; [exact Hopen|done|auto].
Qed.

(** A function with parameters has a declared or an inferred return type. *)
Definition signature_known (g : SemanticGraph) (n : GraphNode) : Prop :=
  node_kind n = NkFunction → default [] (node_params n) ≠ [] →
  is_Some (node_return_type n) ∨ is_Some (infer_local_types g !! node_id n).

Lemma materialised g n :
  (∀ e, e ∈ type_entries g → ve_state e ≠ StUnverified) → n ∈ graph_nodes g → signature_known g n.
Proof.
  intros Hu Hn Hk Hp.
  assert (∀ e, e ∈ materialization_entry (infer_local_types g) n → ve_state e ≠ StUnverified) as He.
  { intros e He. apply Hu. unfold type_entries, check_boundary_materialization.
    rewrite !elem_of_app, !list_elem_of_bind. naive_solver. }
  unfold materialization_entry in He. rewrite decide_True in He by done.
  case_decide as Hm; [done|]. exfalso. by eapply He; [left|].
Qed.

(** C8: the whole verifier, for every run whose rules contain the gate of some profile [p]; [profile] is the profile of the
    run.  If the report is accepted, then: node ids are distinct and [types_sound] holds of the graph (effects and
    capabilities are declared along calls, arguments have the declared types, see [type_check_sound]); the submitted
    text, if any, parsed to a well-formed ChangeSet; unless the run's profile is [draft], [dev] or [test], every
    effect that a function body calls is in the function's row, for bodies that are ASCII texts without an effect call
    inside an effect call of the same keyword; unless it is one of these, [staging] or [prod], every function that
    declares effects has a body or a runtime check; and if [p] is none of these five, every function with a body has a
    return type, every declared effect has the form [name:provider], and every function with parameters has a return
    type that is declared or inferred. *)
Theorem accepted_system_sound ctx text base report p :
  verify_changeset ctx text base = Some report → report_accepted report → ProfileGate p ∈ px_rules ctx →
  let g := px_graph ctx in
  let profile := px_profile ctx in
  NoDup (node_ids g) ∧ types_sound g ∧
  (∀ t, text = Some t → ∃ pcs, parse_changeset t = Ok pcs ∧ parsed_ok pcs) ∧
  (profile ∉ ["draft"; "dev"; "test"] → ∀ n, n ∈ graph_nodes g → readable n → obligation_met n) ∧
  (profile ∉ ["draft"; "dev"; "test"; "staging"; "prod"] → ∀ n, n ∈ graph_nodes g → evidence_met n) ∧
  (p ∉ ["draft"; "dev"; "test"; "staging"; "prod"] →
   ∀ n, n ∈ graph_nodes g → shape_met n ∧ provenance_met n ∧ signature_known g n).
Proof.
  intros Hrun Ha Hp g profile.
  destruct (system_entries _ _ _ _ _ Hrun Ha Hp) as (validated & Hv & Hwf & Hparse & Hf & Hu).
  assert (all_in (λ s, s ≠ StFailed) validated) as Hok by (intros e He; apply Hf; by right).
  rewrite (all_in_check (λ s, s ≠ StFailed) _ _ _) in Hok by (done || exact Hv || by intros []).
  destruct Hok as (_ & _ & Hob & Hev). rewrite strict_profile in Hob. rewrite critical_profile in Hev.
  destruct Hwf as [Hnd _]. split_and!; [done| | | |done|].
  - apply well_typed_sound; [done|]. apply type_entries_ok, Forall_forall. intros e He. apply Hf. by left.
  - intros t ->. destruct (Hparse t eq_refl) as [pcs Hpcs]. exists pcs. split; [done|]. by eapply parse_wf.
  - intros Hs n Hn Hr. by apply readable_obligation, Hob.
  - intros Hpc n Hn. assert (is_critical_like p = true) as Hc.
    { apply critical_beyond; [|done]. rewrite !not_elem_of_cons in *. tauto. }
    set (Q := λ s, s ≠ StFailed ∧ s ≠ StUnverified).
    assert (all_in Q validated) as Hq by (intros e He; split; [apply Hf|apply Hu]; (done || by right)).
    rewrite (all_in_check Q _ _ _) in Hq by (done || exact Hv || by intros []).
    destruct Hq as (Hs & Hpr & _). unfold check_shape in Hs. unfold check_effect_provenance in Hpr.
    rewrite (all_in_bind Q _ shape_met) in Hs by (intros ?; apply shape_in; (done || by intros [])).
    rewrite (all_in_bind Q _ provenance_met) in Hpr by (intros ?; apply provenance_in; (done || by intros [])).
    split_and!; [by apply Hs|by apply Hpr|]. apply materialised; [|done]. intros e He. apply Hu; [done|by left].
Qed.
End System.

(* ------------------------------------------------------------------ *)
(** ** Samples *)

Module SystemSample.

#[local] Existing Instance simple_solver.
#[local] Existing Instance test_backend.
#[local] Existing Instance ascending.
Import Versioning.SampleSemver.

Definition text : string :=
  lines_text ["author ana"; "base 0"].

Definition charge (body : string) : GraphNode :=
  set_type_facts (Some (MkTypeFacts "Fn" [])) (TranslationSample.charge (Some body) ["db:Postgres"]).

Definition graph (body : string) : SemanticGraph :=
  MkSemanticGraph [charge body; graph_node_new 1%N NkEffect "db:Postgres"] [graph_edge_new 0%N 1%N EkEmits].

Definition outcome (profile body : string) : option VerificationReport :=
  verify_changeset (λ _, []) (PipelineSample.ctx profile (graph body)) (Some text) (Some (graph body)).

Definition system_ctx : PipelineContext := PipelineSample.ctx "critical" (graph "emit_effect(db)").
Lemma accepts_some (r : option VerificationReport) :
  PipelineSample.accepts r = true → ∃ report, r = Some report ∧ report_accepted report.
Proof.
  unfold PipelineSample.accepts, report_accepted. destruct r as [r|]; [|done]. cbn.
  destruct (vr_policy_decision r) as [d|] eqn:E; [|done]. eauto.
Qed.

Lemma system_accepts :
  PipelineSample.accepts (verify_changeset (λ _, []) system_ctx (Some text) (Some (graph "emit_effect(db)"))) = true.
Proof. vm_compute. reflexivity. Qed.

Lemma accepted_system_sound_witness :
  types_sound (graph "emit_effect(db)") ∧ (∃ pcs, parse_changeset text = Ok pcs ∧ parsed_ok pcs) ∧
  obligation_met (charge "emit_effect(db)") ∧ shape_met (charge "emit_effect(db)").
Proof.
  destruct (accepts_some _ system_accepts) as (report & Hr & Ha).
  destruct (accepted_system_sound (λ _, []) system_ctx (Some text) (Some (graph "emit_effect(db)")) report "critical" Hr Ha)
    as (_ & Hw & Hp & Ho & _ & Hs); [left|].
  assert (charge "emit_effect(db)" ∈ graph_nodes (px_graph system_ctx)) as Hn by left.
  split; [exact Hw|]. split; [exact (Hp text eq_refl)|].
  split; [apply Ho; [apply (bool_decide_unpack _); vm_compute; exact I|exact Hn|]|].
  - intros _ body [= <-]. split; [vm_compute; reflexivity|apply TranslationSample.simple_body_flat].
  - apply Hs; [apply (bool_decide_unpack _); vm_compute; exact I|exact Hn].
Defined.

(** The same graph with a body that uses an undeclared effect is refused, and one the scan cannot slice ends the run. *)
Example refused_bodies :
  PipelineSample.accepts (outcome "prod" "emit_effect(net)") = false ∧ outcome "prod" "é" = None.
Proof. split; vm_compute; reflexivity. Qed.
End SystemSample.
