(* ===== verification/ExprParser.v ===== *)
(** * The parser of function bodies

    crates/ail-compiler/src/expr_parser.rs and expr_parser_helpers.rs: the
    recursive-descent parser of body expressions into the Core IR.

    The parser's position is the rest of the input; positions in messages are
    recovered from its length.  Text is taken byte by byte: outside string
    literals the grammar is ASCII.  [skip_ws] moves one byte per white-space
    character: at one that is encoded in two or three bytes the next slice of
    the input is not at a character boundary and the thread panics, the
    outcome [Panicked].  The conversion of a decimal text to a binary64 is an
    argument ([parse_f64], the bits).  The message of an unsupported escape
    shows the first byte of the character.  Recursion takes fuel;
    [parse_shrinks] shows that the fuel given by [parse_expr] is enough. *)

From stdpp Require Import pretty.
From S2P Require Import Prelude Text Trim GraphTypes I64 Anf VerifySolver AclText VerifyReport VerifyTypes CoreIr.

Record ParseError : Type := MkParseError { pe_message : string }.
#[global] Instance ParseError_eq_dec : EqDecision ParseError.
Proof. solve_decision. Defined.

Abbreviation Parsed A := (result A ParseError).

(** How a run of the parser ends without a value: with an error, or with a panic *)
Inductive ParseStop : Type :=
| Failed (e : ParseError)
| Panicked.
#[global] Instance ParseStop_eq_dec : EqDecision ParseStop.
Proof. solve_decision. Defined.

Abbreviation Attempt A := (result A ParseStop).
Definition attempt {A} (p : Parsed A) : Attempt A := match p with Ok a => Ok a | Err e => Err (Failed e) end.

Definition parse_error {A} (pieces : list string) : Parsed A := Err (MkParseError (fmt pieces)).

(* ------------------------------------------------------------------ *)
(** ** expr_parser_helpers.rs *)

Definition ident_char (c : ascii) : bool :=
  let n := N_of_ascii c in
  (((48 <=? n) && (n <=? 57)) || ((65 <=? n) && (n <=? 90)) || ((97 <=? n) && (n <=? 122)) || (n =? 95) || (n =? 46))%N.

Definition expect_arity {A} (func : string) (n : nat) (args : list CoreExpr) : Parsed A :=
  parse_error [func; " expects "; pretty n; " args, got "; pretty (length args)].

Definition arity1 (func : string) (make : CoreExpr → Parsed CoreExpr) (args : list CoreExpr) : Parsed CoreExpr :=
  match args with [a] => make a | _ => expect_arity func 1 args end.
Definition arity2 (func : string) (make : CoreExpr → CoreExpr → Parsed CoreExpr) (args : list CoreExpr) : Parsed CoreExpr :=
  match args with [a; b] => make a b | _ => expect_arity func 2 args end.
Definition arity3 (func : string) (make : CoreExpr → CoreExpr → CoreExpr → Parsed CoreExpr) (args : list CoreExpr)
  : Parsed CoreExpr :=
  match args with [a; b; c] => make a b c | _ => expect_arity func 3 args end.

Definition binary (func : string) (make : CoreExpr → CoreExpr → CoreExpr) : list CoreExpr → Parsed CoreExpr :=
  arity2 func (λ a b, Ok (make a b)).

Definition expect_name (context : string) (e : CoreExpr) : Parsed string :=
  match e with CVar name => Ok name | _ => parse_error [context; " must be an identifier"] end.

Definition map_ok {A B} (f : A → Parsed B) : list A → Parsed (list B) :=
  fix go l :=
    match l with
    | [] => Ok []
    | x :: l' => let? y := f x in let? k := go l' in Ok (y :: k)
    end.

Fixpoint render_match_pattern (pattern : CoreExpr) : Parsed string :=
  match pattern with
  | CVar name => Ok name
  | CLiteral (LBool value) => Ok (if value then "true" else "false")
  | CLiteral (LInt value) => Ok (pretty value)
  | CCall func args => let? rendered := map_ok render_match_pattern args in Ok (fmt [func; "("; join ", " rendered; ")"])
  | CVariantNew tag None => Ok tag
  | CVariantNew tag (Some inner) => let? rendered := render_match_pattern inner in Ok (fmt [tag; "("; rendered; ")"])
  | _ => parse_error ["match pattern must be an identifier, literal, wildcard, or constructor pattern"]
  end.

(** The loops over pattern/body and field/value pairs; the number of arguments was checked. *)
Fixpoint match_arms (args : list CoreExpr) : Parsed (list MatchArm) :=
  match args with
  | pattern :: body :: args' =>
      let? p := render_match_pattern pattern in
      let? arms := match_arms args' in Ok (MkMatchArm p body :: arms)
  | _ => Ok []
  end.

Fixpoint record_fields (args : list CoreExpr) : Parsed (list (string * CoreExpr)) :=
  match args with
  | field :: value :: args' =>
      let? name := expect_name "record field name" field in
      let? fields := record_fields args' in Ok ((name, value) :: fields)
  | _ => Ok []
  end.

Fixpoint map_entries (args : list CoreExpr) : list (CoreExpr * CoreExpr) :=
  match args with k :: v :: args' => (k, v) :: map_entries args' | _ => [] end.

Definition parse_match_call (args : list CoreExpr) : Parsed CoreExpr :=
  if (length args <? 3) || Nat.even (length args) then
    parse_error ["match expects scrutinee plus pattern/body pairs, got "; pretty (length args); " args"]
  else
    match args with
    | scrutinee :: args' => let? arms := match_arms args' in Ok (CMatch scrutinee arms)
    | [] => parse_error []
    end.

Definition parse_record_call (args : list CoreExpr) : Parsed CoreExpr :=
  if negb (Nat.even (length args)) then
    parse_error ["record expects field/value pairs, got "; pretty (length args); " args"]
  else let? fields := record_fields args in Ok (CRecordNew fields).

Definition parse_variant_call (args : list CoreExpr) : Parsed CoreExpr :=
  match args with
  | [tag] => let? tag := expect_name "variant tag" tag in Ok (CVariantNew tag None)
  | [tag; payload] => let? tag := expect_name "variant tag" tag in Ok (CVariantNew tag (Some payload))
  | _ => parse_error ["variant expects 1 or 2 args, got "; pretty (length args)]
  end.

(* ------------------------------------------------------------------ *)
(** ** [expr_from_call] *)

Definition no_args (func : string) (e : CoreExpr) (args : list CoreExpr) : Parsed CoreExpr :=
  match args with [] => Ok e | _ => parse_error [func; " expects 0 args, got "; pretty (length args)] end.

Definition variant_of (func tag : string) : list CoreExpr → Parsed CoreExpr :=
  arity1 func (λ payload, Ok (CVariantNew tag (Some payload))).

Definition parse_let (args : list CoreExpr) : Parsed CoreExpr :=
  arity3 "let" (λ binding value body,
    match binding with
    | CVar name => Ok (CLet name value body)
    | _ => parse_error ["let binding name must be an identifier"]
    end) args.

Definition parse_abort (args : list CoreExpr) : Parsed CoreExpr :=
  arity1 "abort" (λ arg,
    match arg with
    | CLiteral (LText s) => Ok (CAbort s)
    | CVar name => Ok (CAbort name)
    | _ => parse_error ["abort expects a string literal or identifier as the message"]
    end) args.

Definition parse_print (args : list CoreExpr) : Parsed CoreExpr :=
  arity1 "print" (λ arg,
    match arg with
    | CLiteral (LText _) => Ok (CEffectCall "log.write" "write" [arg])
    | _ => parse_error ["print expects a Text literal argument"]
    end) args.

Definition parse_effect_call (args : list CoreExpr) : Parsed CoreExpr :=
  match args with
  | capability :: op :: call_args =>
      let? capability := expect_name "capability name" capability in
      let? op := expect_name "operation name" op in
      Ok (CEffectCall capability op call_args)
  | _ => parse_error ["effect_call expects at least 2 args (capability, operation), got "; pretty (length args)]
  end.

(** All arguments but the last are parameters. *)
Definition parse_lambda (args : list CoreExpr) : Parsed CoreExpr :=
  match last args with
  | None => parse_error ["lambda expects at least 1 arg (body expression)"]
  | Some body =>
      let? params := map_ok (expect_name "lambda parameter") (take (length args - 1) args) in Ok (CLambda params body)
  end.

Definition parse_map (args : list CoreExpr) : Parsed CoreExpr :=
  if negb (Nat.even (length args)) then
    parse_error ["map expects an even number of args (key/value pairs), got "; pretty (length args)]
  else Ok (CMapNew (map_entries args)).

(** The arms of the match on the function name *)
Definition call_forms : list (string * (list CoreExpr → Parsed CoreExpr)) :=
  [ ("let", parse_let);
    ("if", arity3 "if" (λ a b c, Ok (CIf a b c)));
    ("match", parse_match_call);
    ("unit", no_args "unit" (CLiteral LUnit));
    ("record", parse_record_call);
    ("field", arity2 "field" (λ record field, let? f := expect_name "field name" field in Ok (CFieldGet record f)));
    ("update", arity3 "update" (λ record field value,
        let? f := expect_name "field name" field in Ok (CFieldUpdate record f value)));
    ("tuple", λ args, Ok (CTupleNew args));
    ("variant", parse_variant_call);
    ("list", λ args, Ok (CListNew args));
    ("add", binary "add" CAdd); ("sub", binary "sub" CSub); ("mul", binary "mul" CMul); ("div", binary "div" CDiv);
    ("mod", binary "mod" CMod); ("eq", binary "eq" CEq); ("ne", binary "ne" CNe); ("lt", binary "lt" CLt);
    ("le", binary "le" CLe); ("gt", binary "gt" CGt); ("ge", binary "ge" CGe);
    ("not", arity1 "not" (λ a, Ok (CNot a)));
    ("none", no_args "none" (CVariantNew "None" None));
    ("some", variant_of "some" "Some"); ("ok", variant_of "ok" "Ok"); ("err", variant_of "err" "Err");
    ("and", binary "and" CAnd); ("or", binary "or" COr);
    ("abort", parse_abort);
    ("loop", arity1 "loop" (λ body, Ok (CLoop body None)));
    ("while", arity2 "while" (λ cond body, Ok (CWhileLoop cond body None)));
    ("break", arity1 "break" (λ value, Ok (CBreak value)));
    ("continue", no_args "continue" CContinue);
    ("return", arity1 "return" (λ value, Ok (CReturn value)));
    ("print", parse_print);
    ("effect_call", parse_effect_call);
    ("lambda", parse_lambda);
    ("foreach", arity3 "foreach" (λ binding collection body,
        let? x := expect_name "foreach binding" binding in Ok (CForEach x collection body)));
    ("fold", arity3 "fold" (λ init lst f, Ok (CFold init lst f)));
    ("cell_new", arity1 "cell_new" (λ init, Ok (CCellNew init)));
    ("cell_get", arity1 "cell_get" (λ cell, Ok (CCellGet cell)));
    ("cell_set", binary "cell_set" CCellSet);
    ("map", parse_map);
    ("set", λ args, Ok (CSetNew args));
    ("index", binary "index" CIndexGet) ].

Definition expr_from_call (func : string) (args : list CoreExpr) : Parsed CoreExpr :=
  match find_first (λ p, p.1 = func) call_forms with
  | Some (_, make) => make args
  | None => Ok (CCall func args)
  end.

(* ------------------------------------------------------------------ *)
(** ** Tokens *)

Fixpoint span (f : ascii → bool) (s : string) : string * string :=
  match s with
  | String c s' => if f c then let '(a, b) := span f s' in (String c a, b) else ("", s)
  | EmptyString => ("", "")
  end.

Definition consume (expected : ascii) (s : string) : option string :=
  match s with String c r => if decide (c = expected) then Some r else None | EmptyString => None end.

(** [{:?}] of an [Option<char>] *)
Definition debug_escape (s : string) : string :=
  match s with
  | EmptyString => "None"
  | String c _ =>
      fmt ["Some('"; (if decide (c = "'"%char) then "\'" else if decide (c = dquote) then String c "" else debug_char c); "')"]
  end.

(** After the opening quote *)
Fixpoint parse_string_literal (s : string) : Parsed (string * string) :=
  match s with
  | EmptyString => parse_error ["unterminated string literal"]
  | String c s' =>
      if decide (c = dquote) then Ok ("", s')
      else if decide (c = "\"%char) then
        match s' with
        | String e s2 =>
            if decide (e = dquote) then let? (t, r) := parse_string_literal s2 in Ok (String dquote t, r)
            else if decide (e = "\"%char) then let? (t, r) := parse_string_literal s2 in Ok (String "\" t, r)
            else if decide (e = "n"%char) then let? (t, r) := parse_string_literal s2 in Ok (String newline t, r)
            else if decide (e = "t"%char) then let? (t, r) := parse_string_literal s2 in Ok (String "009" t, r)
            else parse_error ["unsupported escape sequence: \"; debug_escape s']
        | EmptyString => parse_error ["unsupported escape sequence: \"; debug_escape s']
        end
      else let? (t, r) := parse_string_literal s' in Ok (String c t, r)
  end.

(** The next character is white space of two or three bytes. *)
Definition wide_space (s : string) : bool :=
  match s with
  | String a (String b s') => space2 a b || match s' with String c _ => space3 a b c | EmptyString => false end
  | _ => false
  end.

(** [while self.peek().is_some_and(char::is_whitespace) { self.pos += 1 }] *)
Fixpoint skip_ws (s : string) : Attempt string :=
  match s with
  | EmptyString => Ok ""
  | String c s' => if space1 c then skip_ws s' else if wide_space s then Err Panicked else Ok s
  end.

Section Parser.
Context (parse_f64 : string → option N).

(** [Ok None] when there is no digit after an optional minus *)
Definition parse_number (s : string) : Parsed (option (LiteralValue * string)) :=
  let '(sign, body) := match consume "-" s with Some r => ("-", r) | None => ("", s) end in
  let '(digits, r) := span is_digit body in
  if decide (digits = "") then Ok None
  else
    let int :=
      match parse_i64 (sign +:+ digits) with
      | Some z => Ok (Some (LInt z, r))
      | None => parse_error ["integer literal out of range: "; sign +:+ digits]
      end in
    match consume "." r with
    | Some r1 =>
        let '(frac, r2) := span is_digit r1 in
        if decide (frac = "") then int
        else
          let text := fmt [sign; digits; "."; frac] in
          match parse_f64 text with
          | Some bits => Ok (Some (LFloat bits, r2))
          | None => parse_error ["float literal out of range: "; text]
          end
    | None => int
    end.

(** [input.len()] *)
Context (total : nat).
Definition byte_at (rest : string) : string := pretty (total - String.length rest).

Definition parse_ident (s : string) : Parsed (string * string) :=
  let '(name, r) := span ident_char s in
  if decide (name = "") then parse_error ["expected identifier at byte "; byte_at s] else Ok (name, r).

(** The inner [parse_expr] and the loop of [parse_args]; [None] is out of fuel. *)
Fixpoint parse_at (fuel : nat) (rest : string) : option (Attempt (CoreExpr * string)) :=
  match fuel with
  | O => None
  | S fuel =>
      match skip_ws rest with
      | Err stop => Some (Err stop)
      | Ok EmptyString => Some (attempt (parse_error ["expected expression"]))
      | Ok (String c s' as s) =>
          if decide (c = dquote) then
            Some (attempt (let? (t, r) := parse_string_literal s' in Ok (CLiteral (LText t), r)))
          else
            match parse_number s with
            | Err e => Some (Err (Failed e))
            | Ok (Some (lit, r)) => Some (Ok (CLiteral lit, r))
            | Ok None =>
                match parse_ident s with
                | Err e => Some (Err (Failed e))
                | Ok (ident, r) =>
                    match skip_ws r with
                    | Err stop => Some (Err stop)
                    | Ok r0 =>
                        match consume "(" r0 with
                        | Some r1 =>
                            match (match skip_ws r1 with
                                   | Err stop => Some (Err stop)
                                   | Ok r2 =>
                                       match consume ")" r2 with
                                       | Some r3 => Some (Ok ([], r3))
                                       | None => parse_args_loop fuel r2
                                       end
                                   end) with
                            | None => None
                            | Some (Err stop) => Some (Err stop)
                            | Some (Ok (args, r4)) => Some (attempt (let? e := expr_from_call ident args in Ok (e, r4)))
                            end
                        | None =>
                            Some (Ok ((if decide (ident = "true") then CLiteral (LBool true)
                                       else if decide (ident = "false") then CLiteral (LBool false) else CVar ident), r0))
                        end
                    end
                end
            end
      end
  end
with parse_args_loop (fuel : nat) (rest : string) : option (Attempt (list CoreExpr * string)) :=
  match fuel with
  | O => None
  | S fuel =>
      match parse_at fuel rest with
      | None => None
      | Some (Err stop) => Some (Err stop)
      | Some (Ok (e, r)) =>
          match skip_ws r with
          | Err stop => Some (Err stop)
          | Ok r0 =>
              match consume ")" r0 with
              | Some r1 => Some (Ok ([e], r1))
              | None =>
                  match consume "," r0 with
                  | Some r1 =>
                      match parse_args_loop fuel r1 with
                      | Some (Ok (es, r2)) => Some (Ok (e :: es, r2))
                      | other => other
                      end
                  | None => Some (attempt (parse_error ["expected ',' or ')' at byte "; byte_at r0]))
                  end
              end
          end
      end
  end.
End Parser.

(** [parse_expr], the entry point *)
Definition parse_expr (parse_f64 : string → option N) (input : string) : option (Attempt CoreExpr) :=
  match parse_at parse_f64 (String.length input) (2 * String.length input + 2) input with
  | None => None
  | Some (Err stop) => Some (Err stop)
  | Some (Ok (e, r)) =>
      Some (match skip_ws r with
            | Err stop => Err stop
            | Ok EmptyString => Ok e
            | Ok r1 => attempt (parse_error ["unexpected trailing input at byte "; byte_at (String.length input) r1])
            end)
  end.

(* ------------------------------------------------------------------ *)
(** ** The parser terminates *)

Abbreviation len := String.length.

Lemma span_app f s : (let '(a, b) := span f s in a +:+ b) = s.
Proof. induction s as [|c s IH]; cbn; [done|]. destruct (f c); [|done]. destruct (span f s). change (String c (s0 +:+ s1) = String c s). f_equal. exact IH. Qed.

(** What is left of a text: a suffix of it, and a proper one *)
Definition suffix_of (r s : string) : Prop := ∃ k, s = k +:+ r.
Definition after (r s : string) : Prop := ∃ c k, s = String c (k +:+ r).

Lemma after_length r s : after r s → len r < len s.
Proof. intros (c & k & ->). cbn. rewrite length_append. lia. Qed.
Lemma suffix_length r s : suffix_of r s → len r ≤ len s.
Proof. intros (k & ->). rewrite length_append. lia. Qed.
Lemma suffix_refl s : suffix_of s s.
Proof. by exists "". Qed.
Lemma suffix_trans r s t : suffix_of r s → suffix_of s t → suffix_of r t.
Proof. intros (k & ->) (k' & ->). exists (k' +:+ k). by rewrite append_assoc. Qed.
Lemma after_suffix r s : after r s → suffix_of r s.
Proof. intros (c & k & ->). by exists (String c k). Qed.
Lemma after_l r s t : suffix_of r s → after s t → after r t.
Proof. intros (k & ->) (c & k' & ->). exists c, (k' +:+ k). by rewrite append_assoc. Qed.
Lemma after_r r s t : after r s → suffix_of s t → after r t.
Proof.
  intros (c & k & ->) (k' & ->). destruct k' as [|c' k']; [by exists c, k|]. exists c', (k' +:+ String c k).
  by rewrite append_cons, <- append_assoc, append_cons.
Qed.
Lemma after_cons c s : after s (String c s).
Proof. by exists c, "". Qed.

Lemma span_suffix f s a b : span f s = (a, b) → suffix_of b s.
Proof. intros E. pose proof (span_app f s) as Ha. rewrite E in Ha. by exists a. Qed.
Lemma span_after f s a b : span f s = (a, b) → a ≠ "" → after b s.
Proof. intros E. pose proof (span_app f s) as Ha. rewrite E in Ha. destruct a as [|c a]; [done|]. intros _. by exists c, a. Qed.

Lemma literal_after s t r : parse_string_literal s = Ok (t, r) → after r s.
Proof.
  assert (∀ n s t r, len s ≤ n → parse_string_literal s = Ok (t, r) → after r s) as H; [|by apply (H (len s))].
  clear. induction n as [|n IH]; intros [|c s] t r Hn; try done; [cbn in Hn; lia|]. cbn [parse_string_literal len] in *.
  case_decide; [intros [= _ ->]; apply after_cons|]. case_decide.
  - destruct s as [|e s]; [done|]. cbn [len] in *.
    repeat (case_decide; [destruct (parse_string_literal s) as [[t' r']|] eqn:E; [|done]; intros [= _ <-];
      apply IH in E; [|lia]; apply (after_l _ (String e s)), after_cons; by eapply after_suffix, after_l, after_cons; apply after_suffix|]).
    done.
  - destruct (parse_string_literal s) as [[t' r']|] eqn:E; [|done]. intros [= _ <-]. apply IH in E; [|lia].
    by eapply after_l, after_cons; apply after_suffix.
Qed.

Lemma consume_after c s r : consume c s = Some r → after r s.
Proof. unfold consume. destruct s; [done|]. case_decide; [|done]. intros [= ->]. apply after_cons. Qed.

Lemma number_after f64 s lit r : parse_number f64 s = Ok (Some (lit, r)) → after r s.
Proof.
  unfold parse_number. set (p := match consume "-" s with Some r => ("-", r) | None => ("", s) end).
  assert (suffix_of p.2 s) as Hp.
  { subst p. destruct (consume "-" s) eqn:E; [by apply after_suffix, (consume_after "-")|apply suffix_refl]. }
  destruct p as [sign body]. cbn in Hp. destruct (span is_digit body) as [digits r0] eqn:Es.
  case_decide as Hd; [done|]. apply span_after in Es; [|done]. pose proof (after_r _ _ _ Es Hp) as Hr0.
  assert (∀ z, match parse_i64 (sign +:+ digits) with Some z => Ok (Some (LInt z, r0))
     | None => parse_error ["integer literal out of range: "; sign +:+ digits] end = Ok (Some (z, r)) → after r s) as Hint.
  { intros z. destruct (parse_i64 _); [|done]. by intros [= _ <-]. }
  destruct (consume "." r0) as [r1|] eqn:E1; [|apply Hint]. apply consume_after in E1.
  destruct (span is_digit r1) as [frac r2] eqn:E2. apply span_suffix in E2. case_decide; [apply Hint|].
  destruct (f64 _); [|done]. intros [= _ <-]. eapply after_l; [|done]. eapply suffix_trans; [done|]. by apply after_suffix.
Qed.

Lemma ident_after total s x r : parse_ident total s = Ok (x, r) → after r s.
Proof.
  unfold parse_ident. destruct (span ident_char s) as [a b] eqn:E. case_decide as Hd; [done|].
  intros [= <- <-]. by eapply span_after.
Qed.

(** The encodings of the white space that [skip_ws] cannot step over: U+0085, U+00A0, U+1680, U+2000 to U+200A, U+2028,
    U+2029, U+202F, U+205F and U+3000 *)
Definition WIDE_SPACES : list (list N) :=
  [[194; 133]; [194; 160]; [225; 154; 128]]%N
  ++ ((λ c, [226; 128; c]%N) <$> [128; 129; 130; 131; 132; 133; 134; 135; 136; 137; 138; 168; 169; 175]%N)
  ++ [[226; 129; 159]; [227; 128; 128]]%N.
Definition bytes_text (bytes : list N) : string := foldr (λ b s, String (ascii_of_N b) s) "" bytes.
Definition has_wide_space (s : string) : Prop := ∃ w pre post, w ∈ WIDE_SPACES ∧ s = pre +:+ bytes_text w +:+ post.

Lemma has_wide_suffix r s : suffix_of r s → has_wide_space r → has_wide_space s.
Proof. intros (k & ->) (w & pre & post & Hw & ->). exists w, (k +:+ pre), post. by rewrite append_assoc. Qed.

Lemma wide_encoding a b c : space3 a b c = true → [N_of_ascii a; N_of_ascii b; N_of_ascii c] ∈ WIDE_SPACES.
Proof.
  unfold space3. set (x := N_of_ascii a). set (y := N_of_ascii b). set (z := N_of_ascii c). clearbody x y z. cbv zeta.
  rewrite !orb_true_iff, !andb_true_iff, !orb_true_iff, !andb_true_iff, !N.eqb_eq, !N.leb_le.
  intros [[[[[-> ->] ->]|[[-> ->] Hz]]|[[-> ->] ->]]|[[-> ->] ->]]; try by apply (bool_decide_unpack _).
  assert (z ∈ [128; 129; 130; 131; 132; 133; 134; 135; 136; 137; 138; 168; 169; 175]%N) as Hin.
  { rewrite !elem_of_cons, elem_of_nil. lia. }
  unfold WIDE_SPACES. rewrite !elem_of_app. right. left. by apply (list_elem_of_fmap_2 (λ c, [226; 128; c]%N)).
Qed.

Lemma wide_space_in s : wide_space s = true → has_wide_space s.
Proof.
  destruct s as [|a [|b s]]; try done. cbn [wide_space]. rewrite orb_true_iff. intros [H|H].
  - exists [N_of_ascii a; N_of_ascii b], "", s. split; [|cbn; by rewrite !ascii_N_embedding].
    unfold space2 in H. destruct (N_of_ascii a =? 194)%N eqn:Ea; [|done]. apply N.eqb_eq in Ea as ->.
    apply orb_true_iff in H as [->%N.eqb_eq| ->%N.eqb_eq]; by apply (bool_decide_unpack _).
  - destruct s as [|c s]; [done|].
    exists [N_of_ascii a; N_of_ascii b; N_of_ascii c], "", s. split; [|cbn; by rewrite !ascii_N_embedding].
    by apply wide_encoding.
Qed.

Lemma skip_ws_spec s :
  match skip_ws s with Ok r => suffix_of r s | Err stop => stop = Panicked ∧ has_wide_space s end.
Proof.
  induction s as [|c s IH]; [apply suffix_refl|]. cbn [skip_ws]. destruct (space1 c).
  - destruct (skip_ws s) as [r|stop]; [by eapply suffix_trans, after_suffix, after_cons|]. destruct IH as [? IH]. split; [done|].
    eapply has_wide_suffix, IH. apply after_suffix, after_cons.
  - destruct (wide_space (String c s)) eqn:E; [|apply suffix_refl]. split; [done|]. by apply wide_space_in.
Qed.

(** The parser answers: the rest is a proper suffix, and it panics only where there is wide white space. *)
Definition shrinks {A} (s : string) (p : option (Attempt (A * string))) : Prop :=
  ∃ res, p = Some res ∧ (∀ a r, res = Ok (a, r) → after r s) ∧ (res = Err Panicked → has_wide_space s).

Lemma shrinks_failed {A} s e : shrinks (A := A) s (Some (Err (Failed e))).
Proof. eexists. by split_and!. Qed.

Lemma shrinks_panicked {A} r s : suffix_of r s → has_wide_space r → shrinks (A := A) s (Some (Err Panicked)).
Proof. intros Hr Hw. eexists. split_and!; [done|done|]. intros _. by eapply has_wide_suffix. Qed.

Lemma shrinks_ok {A} s (a : A) r : after r s → shrinks s (Some (Ok (a, r))).
Proof. intros Hr. eexists. split_and!; [done| |done]. by intros a' r' [= _ <-]. Qed.

Lemma shrinks_more {A} s s' (p : option (Attempt (A * string))) : suffix_of s s' → shrinks s p → shrinks s' p.
Proof.
  intros Hs (res & -> & Hres & Hp). exists res. split_and!; [done| |].
  - intros a r E. by eapply after_r; [eapply Hres|].
  - intros E. by eapply has_wide_suffix; [|apply Hp].
Qed.

Lemma shrinks_skip {A} r s (k : string → option (Attempt (A * string))) :
  suffix_of r s → (∀ r0, suffix_of r0 r → shrinks s (k r0)) →
  shrinks s (match skip_ws r with Err stop => Some (Err stop) | Ok r0 => k r0 end).
Proof.
  intros Hr Hk. pose proof (skip_ws_spec r) as Hw. destruct (skip_ws r) as [r0|stop]; [by apply Hk|].
  destruct Hw as [-> Hw]. by eapply shrinks_panicked.
Qed.

Lemma parse_at_S f64 total fuel rest :
  parse_at f64 total (S fuel) rest =
      match skip_ws rest with
      | Err stop => Some (Err stop)
      | Ok EmptyString => Some (attempt (parse_error ["expected expression"]))
      | Ok (String c s' as s) =>
          if decide (c = dquote) then
            Some (attempt (let? (t, r) := parse_string_literal s' in Ok (CLiteral (LText t), r)))
          else
            match parse_number f64 s with
            | Err e => Some (Err (Failed e))
            | Ok (Some (lit, r)) => Some (Ok (CLiteral lit, r))
            | Ok None =>
                match parse_ident total s with
                | Err e => Some (Err (Failed e))
                | Ok (ident, r) =>
                    match skip_ws r with
                    | Err stop => Some (Err stop)
                    | Ok r0 =>
                        match consume "(" r0 with
                        | Some r1 =>
                            match (match skip_ws r1 with
                                   | Err stop => Some (Err stop)
                                   | Ok r2 =>
                                       match consume ")" r2 with
                                       | Some r3 => Some (Ok ([], r3))
                                       | None => parse_args_loop f64 total fuel r2
                                       end
                                   end) with
                            | None => None
                            | Some (Err stop) => Some (Err stop)
                            | Some (Ok (args, r4)) => Some (attempt (let? e := expr_from_call ident args in Ok (e, r4)))
                            end
                        | None =>
                            Some (Ok ((if decide (ident = "true") then CLiteral (LBool true)
                                       else if decide (ident = "false") then CLiteral (LBool false) else CVar ident), r0))
                        end
                    end
                end
            end
      end.
Proof. done. Qed.

Lemma parse_args_S f64 total fuel rest :
  parse_args_loop f64 total (S fuel) rest =
      match parse_at f64 total fuel rest with
      | None => None
      | Some (Err stop) => Some (Err stop)
      | Some (Ok (e, r)) =>
          match skip_ws r with
          | Err stop => Some (Err stop)
          | Ok r0 =>
              match consume ")" r0 with
              | Some r1 => Some (Ok ([e], r1))
              | None =>
                  match consume "," r0 with
                  | Some r1 =>
                      match parse_args_loop f64 total fuel r1 with
                      | Some (Ok (es, r2)) => Some (Ok (e :: es, r2))
                      | other => other
                      end
                  | None => Some (attempt (parse_error ["expected ',' or ')' at byte "; byte_at total r0]))
                  end
              end
          end
      end.
Proof. done. Qed.

Lemma args_shrink f64 total fuel r1 s :
  suffix_of r1 s → (∀ s, 2 * len s + 2 ≤ fuel → shrinks s (parse_args_loop f64 total fuel s)) → 2 * len s + 2 ≤ fuel →
  shrinks s (match skip_ws r1 with
             | Err stop => Some (Err stop)
             | Ok r2 =>
                 match consume ")" r2 with
                 | Some r3 => Some (Ok ([], r3))
                 | None => parse_args_loop f64 total fuel r2
                 end
             end).
Proof.
  intros Hs IHa Hf. apply (shrinks_skip r1 s (λ r2, match consume ")" r2 with Some r3 => Some (Ok ([], r3))
    | None => parse_args_loop f64 total fuel r2 end)); [done|]. intros r2 Hr2. pose proof (suffix_trans _ _ _ Hr2 Hs) as Hr2s.
  destruct (consume ")" r2) as [r3|] eqn:E; [apply consume_after in E; apply shrinks_ok; by eapply after_r|].
  eapply shrinks_more; [exact Hr2s|]. apply IHa. apply suffix_length in Hr2s. lia.
Qed.

Lemma parse_shrinks f64 total fuel :
  (∀ s, 2 * len s + 1 ≤ fuel → shrinks s (parse_at f64 total fuel s)) ∧
  (∀ s, 2 * len s + 2 ≤ fuel → shrinks s (parse_args_loop f64 total fuel s)).
Proof.
  induction fuel as [|fuel [IHe IHa]]; [split; intros; lia|]. split; intros s Hf.
  - rewrite parse_at_S. pose proof (skip_ws_spec s) as Hw. destruct (skip_ws s) as [s0|stop].
    2: { destruct Hw as [-> Hw]. by apply (shrinks_panicked s), Hw; apply suffix_refl. }
    apply (shrinks_more s0); [done|]. apply suffix_length in Hw as Hl. destruct s0 as [|c s']; [apply shrinks_failed|]. case_decide.
    { destruct (parse_string_literal s') as [[t r]|] eqn:E; [|apply shrinks_failed]. apply literal_after in E.
      apply shrinks_ok. eapply after_r; [exact E|]. apply after_suffix, after_cons. }
    destruct (parse_number f64 (String c s')) as [[[lit r]|]|] eqn:En; [|clear En|apply shrinks_failed].
    { apply shrinks_ok. by apply number_after in En. }
    destruct (parse_ident total (String c s')) as [[x r]|] eqn:Ei; [|apply shrinks_failed]. apply ident_after in Ei.
    pose proof (skip_ws_spec r) as Hr. destruct (skip_ws r) as [r0|stop].
    2: { destruct Hr as [-> Hr]. by apply (shrinks_panicked r), Hr; apply after_suffix. }
    pose proof (after_l _ _ _ Hr Ei) as Hr0. destruct (consume "(" r0) as [r1|] eqn:Ec; [|by apply shrinks_ok].
    apply consume_after in Ec. pose proof (args_shrink f64 total fuel r1 r1 (suffix_refl _) IHa) as Ha.
    apply after_length in Ec as Hl1. apply after_length in Hr0 as Hl0. cbn [len] in Hl0. destruct Ha as (res & -> & Hres & Hp); [cbn [len] in *; lia|].
    assert (after r1 (String c s')) as Hr1 by (eapply after_r; [exact Ec|by apply after_suffix]).
    destruct res as [[args r4]|[e|]]; [|apply shrinks_failed|].
    + specialize (Hres _ _ eq_refl). destruct (expr_from_call x args); [|apply shrinks_failed]. apply shrinks_ok.
      eapply after_r; [exact Hres|by apply after_suffix].
    + by apply (shrinks_panicked r1), Hp; [apply after_suffix|].
  - rewrite parse_args_S. destruct (IHe s) as (res & -> & Hres & Hp); [lia|].
    destruct res as [[e r]|[e|]]; [|apply shrinks_failed|by apply (shrinks_panicked s), Hp; [apply suffix_refl|]].
    specialize (Hres _ _ eq_refl). pose proof (skip_ws_spec r) as Hr. destruct (skip_ws r) as [r0|stop].
    2: { destruct Hr as [-> Hr]. by apply (shrinks_panicked r), Hr; apply after_suffix. }
    pose proof (after_l _ _ _ Hr Hres) as Hr0. apply after_suffix in Hr0 as Hs0.
    destruct (consume ")" r0) as [r1|] eqn:E1; [apply consume_after in E1; apply shrinks_ok; by eapply after_r|].
    destruct (consume "," r0) as [r1|] eqn:E2; [|apply shrinks_failed]. apply consume_after in E2.
    pose proof (after_r _ _ _ E2 Hs0) as Hr1. apply after_length in Hr1 as Hl.
    destruct (IHa r1) as (res & -> & Hres' & Hp'); [lia|].
    destruct res as [[es r2]|[e'|]]; [|apply shrinks_failed|by apply (shrinks_panicked r1), Hp'; [apply after_suffix|]].
    specialize (Hres' _ _ eq_refl). apply shrinks_ok. eapply after_l; [by apply after_suffix|done].
Qed.

Lemma parse_ends f64 input : ∃ res, parse_expr f64 input = Some res ∧ (res = Err Panicked → has_wide_space input).
Proof.
  unfold parse_expr. destruct (parse_shrinks f64 (len input) (2 * len input + 2)) as [He _].
  destruct (He input) as (res & -> & Hres & Hp); [lia|]. destruct res as [[e r]|stop].
  - specialize (Hres _ _ eq_refl). eexists. split; [done|]. pose proof (skip_ws_spec r) as Hr.
    destruct (skip_ws r) as [[|c r']|stop]; [done|done|]. intros _. destruct Hr as [_ Hr].
    eapply has_wide_suffix; [|exact Hr]. by apply after_suffix.
  - eexists. split; [done|]. intros [= ->]. by apply Hp.
Qed.

(** C23: The parser terminates on every input, with an expression, an error or a panic, and it never panics on a text
    without white space of two or three bytes (U+0085, U+00A0, U+1680, U+2000 to U+200A, U+2028, U+2029, U+202F, U+205F,
    U+3000), in particular on ASCII text. *)
Theorem parse_total f64 input :
  (∃ e, parse_expr f64 input = Some (Ok e)) ∨
  (∃ message, parse_expr f64 input = Some (Err (Failed (MkParseError message)))) ∨
  (parse_expr f64 input = Some (Err Panicked) ∧ has_wide_space input).
Proof.
  destruct (parse_ends f64 input) as (res & -> & Hp). destruct res as [e|[[m]|]]; [left; eauto|right; left; eauto|].
  right. right. split; [done|]. by apply Hp.
Qed.

(** A no-break space in front of an argument: the parser panics. *)
Definition no_break : string := "f(" +:+ bytes_text [194; 160]%N +:+ "1)".
Example no_break_panics : parse_expr (λ _, None) no_break = Some (Err Panicked).
Proof. vm_compute. reflexivity. Qed.

(** An ASCII text is answered, one with a no-break space may panic. *)
Lemma parse_total_witness :
  ((∃ e, parse_expr (λ _, None) "f(1, g(x)" = Some (Ok e)) ∨
   (∃ message, parse_expr (λ _, None) "f(1, g(x)" = Some (Err (Failed (MkParseError message))))) ∧
  has_wide_space no_break.
Proof.
  split.
  - destruct (parse_total (λ _, None) "f(1, g(x)") as [H|[H|[H _]]]; [by left|by right|vm_compute in H; discriminate].
  - destruct (parse_total (λ _, None) no_break) as [[e H]|[[m H]|[_ H]]];
      [vm_compute in H; discriminate|vm_compute in H; discriminate|exact H].
Defined.
