(* ===== verification/ExprRoundtrip.v ===== *)
(** * Source forms parse back

    A reference printer of expressions ([source_text]), and that every
    expression with a source form ([source_ok]) is what the parser of
    ExprParser.v returns for its text. *)

From stdpp Require Import pretty.
From S2P Require Import Prelude Text Trim GraphTypes I64 Anf VerifySolver AclText VerifyReport VerifyTypes CoreIr ExprParser.

(* ------------------------------------------------------------------ *)
(** ** The source form of an expression

    A reference printer: the text of an expression in the grammar above. *)

Definition keywords : list string := call_forms.*1.

(** A name that is not read as a number *)
Definition identifier (x : string) : bool :=
  match x with String c _ => negb (is_digit c) && string_all ident_char x | EmptyString => false end.

(** A name that is read as a variable *)
Definition variable (x : string) : bool := identifier x && bool_decide (x ∉ ["true"; "false"]).

Definition function_name (f : string) : bool := identifier f && bool_decide (f ∉ keywords).

(** Patterns: names and constructors applied to a name *)
Definition pattern_text (p : string) : bool :=
  match split_once "(" p with
  | None => identifier p
  | Some (tag, r) =>
      function_name tag && match strip_suffix_char ")" r with Some x => identifier x | None => false end
  end.

Fixpoint escape (s : string) : string :=
  match s with
  | EmptyString => ""
  | String c s' =>
      (if decide (c = dquote) then String "\" (String dquote "")
       else if decide (c = "\"%char) then "\\"
       else String c "") +:+ escape s'
  end.

Definition quoted_text (s : string) : string := String dquote (escape s +:+ String dquote "").

Definition call_text (func : string) (args : list string) : string := func +:+ ("(" +:+ (join ", " args +:+ ")")).

Definition literal_text (lit : LiteralValue) : string :=
  match lit with
  | LBool b => if b then "true" else "false"
  | LInt z => pretty z
  | LText s => quoted_text s
  | LUnit => "unit()"
  | _ => ""
  end.

Definition literal_ok (lit : LiteralValue) : bool :=
  match lit with LInt z => bool_decide (in_i64 z) | LFloat _ | LBytes _ => false | _ => true end.

Fixpoint source_text (e : CoreExpr) : string :=
  match e with
  | CLiteral lit => literal_text lit
  | CVar x => x
  | CLet x a b => call_text "let" [x; source_text a; source_text b]
  | CIf a b c => call_text "if" [source_text a; source_text b; source_text c]
  | CMatch s arms =>
      call_text "match" (source_text s :: mjoin ((λ '(MkMatchArm p b), [p; source_text b]) <$> arms))
  | CCall f args => call_text f (source_text <$> args)
  | CAdd a b => call_text "add" [source_text a; source_text b]
  | CSub a b => call_text "sub" [source_text a; source_text b]
  | CMul a b => call_text "mul" [source_text a; source_text b]
  | CDiv a b => call_text "div" [source_text a; source_text b]
  | CMod a b => call_text "mod" [source_text a; source_text b]
  | CEq a b => call_text "eq" [source_text a; source_text b]
  | CNe a b => call_text "ne" [source_text a; source_text b]
  | CLt a b => call_text "lt" [source_text a; source_text b]
  | CLe a b => call_text "le" [source_text a; source_text b]
  | CGt a b => call_text "gt" [source_text a; source_text b]
  | CGe a b => call_text "ge" [source_text a; source_text b]
  | CNot a => call_text "not" [source_text a]
  | CLambda params body => call_text "lambda" (params ++ [source_text body])
  | CRecordNew fields => call_text "record" (mjoin ((λ '(f, e), [f; source_text e]) <$> fields))
  | CFieldGet a f => call_text "field" [source_text a; f]
  | CFieldUpdate a f b => call_text "update" [source_text a; f; source_text b]
  | CTupleNew l => call_text "tuple" (source_text <$> l)
  | CVariantNew tag None => call_text "variant" [tag]
  | CVariantNew tag (Some a) => call_text "variant" [tag; source_text a]
  | CListNew l => call_text "list" (source_text <$> l)
  | CLoop a _ => call_text "loop" [source_text a]
  | CBreak a => call_text "break" [source_text a]
  | CContinue => call_text "continue" []
  | CWhileLoop a b _ => call_text "while" [source_text a; source_text b]
  | CAnd a b => call_text "and" [source_text a; source_text b]
  | COr a b => call_text "or" [source_text a; source_text b]
  | CEffectCall c f args => call_text "effect_call" (c :: f :: (source_text <$> args))
  | CCellNew a => call_text "cell_new" [source_text a]
  | CCellGet a => call_text "cell_get" [source_text a]
  | CCellSet a b => call_text "cell_set" [source_text a; source_text b]
  | CForEach x a b => call_text "foreach" [x; source_text a; source_text b]
  | CFold a b c => call_text "fold" [source_text a; source_text b; source_text c]
  | CReturn a => call_text "return" [source_text a]
  | CMapNew entries => call_text "map" (mjoin ((λ '(k, v), [source_text k; source_text v]) <$> entries))
  | CSetNew l => call_text "set" (source_text <$> l)
  | CIndexGet a b => call_text "index" [source_text a; source_text b]
  | CAbort m => call_text "abort" [quoted_text m]
  | _ => ""
  end.

(** The expressions that have a source form *)
Fixpoint source_ok (e : CoreExpr) : bool :=
  match e with
  | CLiteral lit => literal_ok lit
  | CVar x => variable x
  | CLet x a b | CForEach x a b => variable x && source_ok a && source_ok b
  | CIf a b c | CFold a b c => source_ok a && source_ok b && source_ok c
  | CMatch s arms =>
      source_ok s && bool_decide (arms ≠ []) && forallb (λ '(MkMatchArm p b), pattern_text p && source_ok b) arms
  | CCall f args => function_name f && forallb source_ok args
  | CAdd a b | CSub a b | CMul a b | CDiv a b | CMod a b | CEq a b | CNe a b | CLt a b | CLe a b | CGt a b | CGe a b
  | CWhileLoop a b None | CAnd a b | COr a b | CCellSet a b | CIndexGet a b => source_ok a && source_ok b
  | CNot a | CLoop a None | CBreak a | CCellNew a | CCellGet a | CReturn a => source_ok a
  | CLambda params body => forallb variable params && source_ok body
  | CRecordNew fields => forallb (λ '(f, e), variable f && source_ok e) fields
  | CFieldGet a f => source_ok a && variable f
  | CFieldUpdate a f b => source_ok a && variable f && source_ok b
  | CTupleNew l | CListNew l | CSetNew l => forallb source_ok l
  | CVariantNew tag None => variable tag
  | CVariantNew tag (Some a) => variable tag && source_ok a
  | CContinue | CAbort _ => true
  | CEffectCall c f args => variable c && variable f && forallb source_ok args
  | CMapNew entries => forallb (λ '(k, v), source_ok k && source_ok v) entries
  | _ => false
  end.

(* ------------------------------------------------------------------ *)
(** ** Reading it back *)

(** What may follow an expression *)
Definition stops (rest : string) : Prop := match rest with String c _ => c = ")"%char ∨ c = ","%char | EmptyString => True end.

(** It starts with something to read. *)
Definition starts (s : string) : Prop :=
  match s with String c _ => graphic c = true ∧ c ≠ ")"%char ∧ c ≠ "@"%char | EmptyString => False end.

(** [s] is read as [e], whatever follows. *)
Definition parses (s : string) (e : CoreExpr) : Prop :=
  starts s ∧
  ∀ f64 total fuel rest, 2 * len s + 2 ≤ fuel → stops rest → parse_at f64 total fuel (s +:+ rest) = Some (Ok (e, rest)).

(* ------------------------------------------------------------------ *)
(** ** Tokens *)

Lemma graphic_skip c s : graphic c = true → skip_ws (String c s) = Ok (String c s).
Proof.
  intros Hc. cbn [skip_ws]. destruct (graphic_no_space c c c Hc) as (-> & _ & _). destruct s as [|b s]; [done|]. cbn [wide_space].
  destruct (graphic_no_space c b b Hc) as (_ & -> & _). destruct s as [|d s]; [done|].
  by destruct (graphic_no_space c b d Hc) as (_ & _ & ->).
Qed.

Lemma stops_skip rest : stops rest → skip_ws rest = Ok rest.
Proof. destruct rest as [|c r]; [done|]. intros [->| ->]; by apply graphic_skip. Qed.

Lemma span_stops (f : ascii → bool) s rest :
  string_all f s = true → match rest with String c _ => f c = false | EmptyString => True end → span f (s +:+ rest) = (s, rest).
Proof.
  intros Hs Hr. induction s as [|c s IH].
  - rewrite append_nil. destruct rest as [|c r]; [done|]. cbn [span]. by rewrite Hr.
  - cbn [string_all] in Hs. apply andb_true_iff in Hs as [Hc Hs]. rewrite append_cons. cbn [span]. by rewrite Hc, IH.
Qed.

Lemma stops_not f rest : stops rest → f ")"%char = false → f ","%char = false →
  match rest with String c _ => f c = false | EmptyString => True end.
Proof. destruct rest; [done|]. by intros [->| ->]. Qed.

Lemma consume_stops c rest : stops rest → c ≠ ")"%char → c ≠ ","%char → consume c rest = None.
Proof. destruct rest as [|d r]; [done|]. intros Hs ? ?. cbn. apply decide_False. by destruct Hs as [->| ->]. Qed.

Lemma consume_other c d s : d ≠ c → consume c (String d s) = None.
Proof. intros Hd. unfold consume. by rewrite decide_False. Qed.
Lemma consume_same c s : consume c (String c s) = Some s.
Proof. unfold consume. by rewrite decide_True. Qed.

Lemma ident_char_graphic c : ident_char c = true → graphic c = true.
Proof. by destruct c as [[] [] [] [] [] [] [] []]. Qed.
Lemma ident_char_not_quote c : ident_char c = true → c ≠ dquote ∧ c ≠ "-"%char.
Proof. by destruct c as [[] [] [] [] [] [] [] []]. Qed.

(** A name in front of something that is not part of a name *)
Lemma parse_name f64 total x r :
  identifier x = true → match r with String c _ => ident_char c = false | EmptyString => True end →
  skip_ws (x +:+ r) = Ok (x +:+ r) ∧ (∃ c s, x +:+ r = String c s ∧ c ≠ dquote) ∧
  parse_number f64 (x +:+ r) = Ok None ∧ parse_ident total (x +:+ r) = Ok (x, r).
Proof.
  destruct x as [|c x]; [done|]. cbn [identifier string_all]. intros [Hd [Hc Hx]%andb_true_iff]%andb_true_iff Hr.
  destruct (ident_char_not_quote c Hc) as [Hq Hm]. rewrite append_cons. split; [|split; [eauto|split]].
  - by apply graphic_skip, ident_char_graphic.
  - unfold parse_number. rewrite consume_other by done. cbn [span]. apply negb_true_iff in Hd. by rewrite Hd.
  - unfold parse_ident. rewrite <- append_cons, span_stops; [done| |done]. cbn. by rewrite Hc.
Qed.

Lemma ident_starts x : identifier x = true → starts x.
Proof.
  destruct x as [|c x]; [done|]. cbn [identifier string_all]. intros [_ [Hc _]%andb_true_iff]%andb_true_iff.
  split; [by apply ident_char_graphic|]. by split; intros ->.
Qed.

Lemma parses_name x :
  identifier x = true →
  parses x (if decide (x = "true") then CLiteral (LBool true) else if decide (x = "false") then CLiteral (LBool false) else CVar x).
Proof.
  intros Hx. split; [by apply ident_starts|]. intros f64 total [|fuel] rest Hf Hs; [lia|].
  destruct (parse_name f64 total x rest Hx) as (Ht & (c & s & E & Hq) & Hn & Hi); [by apply stops_not|].
  rewrite parse_at_S, Ht, E. rewrite decide_False by done. rewrite <- E, Hn, Hi.
  rewrite stops_skip by done. by rewrite consume_stops.
Qed.

Lemma parses_var x : variable x = true → parses x (CVar x).
Proof.
  unfold variable. intros [Hx Hn%bool_decide_eq_true]%andb_true_iff. pose proof (parses_name x Hx) as H.
  rewrite !decide_False in H by set_solver. done.
Qed.

(* ------------------------------------------------------------------ *)
(** ** Literals *)

Lemma digit_not_special c : is_digit c = true → c ≠ dquote ∧ c ≠ "-"%char.
Proof. by destruct c as [[] [] [] [] [] [] [] []]. Qed.

Lemma parses_int z : in_i64 z → parses (pretty z) (CLiteral (LInt z)).
Proof.
  intros Hz. destruct (pretty_Z_text z Hz) as (sign & digits & -> & Hd & Hn & Hs & Hp). split.
  { destruct digits as [|c digits]; [done|]. destruct Hs as [->| ->]; [|done]. cbn [string_all] in Hd.
    apply andb_true_iff in Hd as [Hc _]. split; [by apply digit_graphic|]. by split; intros ->. }
  intros f64 total [|fuel] rest Hf Hst; [lia|]. destruct digits as [|c digits]; [done|]. cbn in Hd. apply andb_true_iff in Hd as [Hc Hd].
  assert (parse_number f64 ((sign +:+ String c digits) +:+ rest) = Ok (Some (LInt z, rest))) as Hnum.
  { unfold parse_number.
    assert (match consume "-" ((sign +:+ String c digits) +:+ rest) with Some r => ("-", r)
      | None => ("", (sign +:+ String c digits) +:+ rest) end = (sign, String c digits +:+ rest)) as ->.
    { destruct Hs as [->| ->]; [|done]. rewrite append_nil, append_cons, consume_other; [done|]. by apply digit_not_special. }
    rewrite span_stops; [| |by apply stops_not].
    - rewrite decide_False by done. rewrite Hp. by rewrite consume_stops.
    - cbn. by rewrite Hc. }
  rewrite parse_at_S.
  assert (∃ a s, (sign +:+ String c digits) +:+ rest = String a s ∧ graphic a = true ∧ a ≠ dquote) as (a & s & E & Ha & Hq).
  { destruct Hs as [->| ->]; rewrite ?append_nil, !append_cons; do 2 eexists; (split; [reflexivity|]); [|done].
    split; [by apply digit_graphic|by apply digit_not_special]. }
  rewrite E, graphic_skip by done. rewrite E in Hnum. by rewrite decide_False, Hnum.
Qed.

Lemma literal_escape e s :
  e = dquote ∨ e = "\"%char →
  parse_string_literal (String "\" (String e s)) = let? (t, r) := parse_string_literal s in Ok (String e t, r).
Proof. by intros [->| ->]. Qed.

Lemma literal_plain c s :
  c ≠ dquote → c ≠ "\"%char → parse_string_literal (String c s) = let? (t, r) := parse_string_literal s in Ok (String c t, r).
Proof. intros Hq Hb. cbn [parse_string_literal]. by rewrite !decide_False. Qed.

Lemma parse_escaped s rest : parse_string_literal (escape s +:+ String dquote rest) = Ok (s, rest).
Proof.
  induction s as [|c s IH]; cbn [escape]; [done|]. rewrite <- append_assoc.
  destruct (decide (c = dquote)) as [->|Hq]; [|destruct (decide (c = "\"%char)) as [->|Hb]]; rewrite !append_cons, append_nil.
  - by rewrite literal_escape, IH by auto.
  - by rewrite literal_escape, IH by auto.
  - by rewrite literal_plain, IH.
Qed.

Lemma parses_text s : parses (quoted_text s) (CLiteral (LText s)).
Proof.
  split; [done|]. intros f64 total [|fuel] rest Hf Hst; [lia|]. unfold quoted_text. rewrite append_cons, parse_at_S.
  rewrite graphic_skip by done. rewrite decide_True by done.
  rewrite <- append_assoc, append_cons, append_nil. by rewrite parse_escaped.
Qed.

(* ------------------------------------------------------------------ *)
(** ** Calls *)

Lemma starts_app s rest : starts s → starts (s +:+ rest).
Proof. by destruct s. Qed.

Lemma starts_skip s : starts s → skip_ws s = Ok s.
Proof. destruct s as [|c s]; [done|]. intros [Hc _]. by apply graphic_skip. Qed.

Lemma starts_consume s : starts s → consume ")" s = None.
Proof. destruct s as [|c s]; [done|]. intros (_ & Hc & _). by apply consume_other. Qed.

Lemma parse_at_space f64 total fuel s : parse_at f64 total fuel (String " " s) = parse_at f64 total fuel s.
Proof. destruct fuel; [done|]. by rewrite !parse_at_S. Qed.

Lemma parse_args_space f64 total fuel s : parse_args_loop f64 total fuel (String " " s) = parse_args_loop f64 total fuel s.
Proof. destruct fuel; [done|]. rewrite !parse_args_S. by rewrite parse_at_space. Qed.

Lemma parse_args_ok f64 total ss es rest fuel :
  Forall2 parses ss es → ss ≠ [] → 2 * len (join ", " ss) + 3 ≤ fuel →
  parse_args_loop f64 total fuel (join ", " ss +:+ String ")" rest) = Some (Ok (es, rest)).
Proof.
  intros Hf. revert fuel. induction Hf as [|s e ss es [_ Hp] Hf IH]; intros [|fuel] Hne Hl; [done|done|lia|].
  rewrite parse_args_S. destruct ss as [|s2 ss].
  - apply Forall2_nil_inv_l in Hf as ->. cbn [join] in *. rewrite Hp; [|lia|by left]. rewrite stops_skip by by left.
    by rewrite consume_same.
  - change (join ", " (s :: s2 :: ss)) with (s +:+ (", " +:+ join ", " (s2 :: ss))) in *.
    rewrite <- !append_assoc. rewrite !length_append in Hl. rewrite Hp; [|cbn in Hl |- *; lia|by right].
    rewrite stops_skip by by right. rewrite !append_cons, append_nil.
    rewrite consume_other by done. rewrite consume_same, parse_args_space, IH; [done|done|]. cbn [len] in Hl. lia.
Qed.

Lemma join_starts s ss rest : starts s → starts (join ", " (s :: ss) +:+ rest).
Proof. intros Hs. destruct ss; cbn [join]; repeat apply starts_app; done. Qed.

Lemma parses_call f ss es e :
  identifier f = true → Forall2 parses ss es → expr_from_call f es = Ok e → parses (call_text f ss) e.
Proof.
  intros Hid Hf He. split; [by apply starts_app, ident_starts|]. intros f64 total [|fuel] rest Hl Hst; [lia|].
  unfold call_text in *. rewrite <- !append_assoc. rewrite !length_append in Hl. cbn [len] in Hl.
  destruct (parse_name f64 total f ("(" +:+ (join ", " ss +:+ (")" +:+ rest))) Hid) as (Ht & (c & s & E & Hq) & Hn & Hi); [done|].
  rewrite parse_at_S, Ht, E. rewrite decide_False by done. rewrite <- E, Hn, Hi, !append_cons, !append_nil.
  rewrite graphic_skip, consume_same by done.
  destruct Hf as [|s1 e1 ss es Hp Hf].
  - cbn [join]. rewrite append_nil, graphic_skip by done. by rewrite consume_same, He.
  - assert (starts (join ", " (s1 :: ss) +:+ String ")" rest)) as Hs by (apply join_starts; apply Hp).
    rewrite (starts_skip _ Hs), (starts_consume _ Hs). rewrite (parse_args_ok f64 total (s1 :: ss) (e1 :: es)); [by rewrite He|by constructor|done|].
    cbn [len] in Hl. lia.
Qed.

(* ------------------------------------------------------------------ *)
(** ** Patterns and pairs *)

(** The operands of a call, one by one *)
Ltac operands := repeat (apply Forall2_cons_2; [try done; try by apply parses_var|]); try apply Forall2_nil_2; try done.

Lemma call_is_call f args : bool_decide (f ∉ keywords) = true → expr_from_call f args = Ok (CCall f args).
Proof.
  intros Hf%bool_decide_eq_true. unfold expr_from_call. assert (find_first (λ p, p.1 = f) call_forms = None) as ->; [|done].
  apply find_first_None. intros p Hp <-. apply Hf. by apply list_elem_of_fmap_2.
Qed.

Lemma strip_suffix_Some c s r : strip_suffix_char c s = Some r → s = r +:+ String c "".
Proof.
  revert r. induction s as [|a s IH]; intros r; [done|]. cbn [strip_suffix_char]. destruct s as [|b s].
  - case_decide; [|done]. intros [= <-]. by subst.
  - intros (r' & Hr & ->)%fmap_Some. apply IH in Hr. rewrite append_cons. by f_equal.
Qed.

Lemma pattern_parses p : pattern_text p = true → ∃ e, parses p e ∧ render_match_pattern e = Ok p.
Proof.
  unfold pattern_text. destruct (split_once "(" p) as [[tag r]|] eqn:Es.
  - intros [[Htag Hk]%andb_true_iff Hx]%andb_true_iff. apply split_once_Some in Es as [-> _].
    destruct (strip_suffix_char ")" r) as [x|] eqn:Er; [|done]. apply strip_suffix_Some in Er as ->.
    pose proof (parses_name x Hx) as Hp. revert Hp. set (pe := if decide (x = "true") then _ else _). intros Hp.
    assert (render_match_pattern pe = Ok x) as Hr by (subst pe; repeat case_decide; by subst).
    exists (CCall tag [pe]). split.
    + apply (parses_call tag [x] [pe]); [done|operands|by apply call_is_call].
    + cbn. rewrite Hr. done.
  - intros Hx. eexists. split; [by apply parses_name|]. repeat case_decide; by subst.
Qed.

Lemma mjoin_cons {A} (x : list A) l : mjoin (x :: l) = x ++ mjoin l.
Proof. done. Qed.

Lemma Forall2_pairs {A} (f : A → list string) (g : A → list CoreExpr) l :
  (∀ x, x ∈ l → Forall2 parses (f x) (g x)) → Forall2 parses (mjoin (f <$> l)) (mjoin (g <$> l)).
Proof.
  induction l as [|x l IH]; intros H; [constructor|]. rewrite !fmap_cons, !mjoin_cons. apply Forall2_app.
  - apply H. left.
  - apply IH. intros y Hy. apply H. by right.
Qed.

Lemma length_pairs {A B} (g : A → list B) l : (∀ x, length (g x) = 2) → length (mjoin (g <$> l)) = 2 * length l.
Proof.
  intros Hg. induction l as [|x l IH]; [done|]. rewrite fmap_cons, mjoin_cons, length_app, IH, Hg. cbn. lia.
Qed.

Lemma even_double n : Nat.even (2 * n) = true.
Proof. apply Nat.even_spec. by exists n. Qed.

Lemma match_source s arms :
  arms ≠ [] → parses (source_text s) s → Forall (λ e, parses (source_text e) e) (ma_body <$> arms) →
  forallb (λ '(MkMatchArm p b), pattern_text p && source_ok b) arms = true →
  parses (source_text (CMatch s arms)) (CMatch s arms).
Proof.
  intros Hne Hs Hf Hok.
  assert (∃ es, Forall2 parses (mjoin ((λ '(MkMatchArm p b), [p; source_text b]) <$> arms)) es ∧ match_arms es = Ok arms ∧
            length es = 2 * length arms) as (es & Hes & Hm & Hl).
  { clear Hs Hne. induction arms as [|[p b] l IH]; [exists []; split_and!; [constructor|done..]|].
    rewrite fmap_cons in Hf. apply Forall_cons in Hf as [Hb Hf]. cbn [forallb] in Hok.
    apply andb_true_iff in Hok as [[Hp _]%andb_true_iff Hok]. destruct (IH Hf Hok) as (es & He & Hm & Hl).
    destruct (pattern_parses p Hp) as (pe & Hpe & Hr). exists (pe :: b :: es). split_and!.
    - rewrite fmap_cons, mjoin_cons. cbn [app]. operands.
    - cbn [match_arms]. by rewrite Hr, Hm.
    - cbn [length]. rewrite Hl. lia. }
  cbn [source_text]. apply (parses_call "match" _ (s :: es)); [done|by constructor|].
  change (expr_from_call "match" (s :: es)) with (parse_match_call (s :: es)). unfold parse_match_call. cbn [length]. rewrite Hl.
  assert (1 ≤ length arms) by (destruct arms; cbn; [done|lia]).
  destruct (Nat.ltb_spec (S (2 * length arms)) 3) as [?|_]; [lia|]. rewrite Nat.even_succ, <- Nat.negb_even, even_double. cbn.
  by rewrite Hm.
Qed.

Lemma record_source fields :
  Forall (λ e, parses (source_text e) e) fields.*2 → forallb (λ '(f, e), variable f && source_ok e) fields = true →
  parses (source_text (CRecordNew fields)) (CRecordNew fields).
Proof.
  intros Hf Hok. cbn [source_text].
  apply (parses_call "record" _ (mjoin ((λ '(f, e), [CVar f; e]) <$> fields))); [done| |].
  - apply Forall2_pairs. intros [f e] Hin. rewrite Forall_forall in Hf.
    assert (variable f = true) as Hv.
    { rewrite forallb_elem in Hok. specialize (Hok _ Hin). cbn in Hok. by apply andb_true_iff in Hok as [? _]. }
    operands. apply Hf; by apply (list_elem_of_fmap_2 snd _ (f, e)).
  - change (expr_from_call "record" ?a) with (parse_record_call a). unfold parse_record_call.
    rewrite length_pairs by by intros []. rewrite even_double. cbn [negb].
    assert (record_fields (mjoin ((λ '(f, e), [CVar f; e]) <$> fields)) = Ok fields) as ->; [|done].
    clear. induction fields as [|[f e] l IH]; [done|]. rewrite fmap_cons, mjoin_cons. cbn [app record_fields expect_name].
    by rewrite IH.
Qed.

Lemma map_source entries :
  Forall (λ e, parses (source_text e) e) (entries ≫= λ '(k, v), [k; v]) →
  parses (source_text (CMapNew entries)) (CMapNew entries).
Proof.
  intros Hf. cbn [source_text]. apply (parses_call "map" _ (mjoin ((λ '(k, v), [k; v]) <$> entries))); [done| |].
  - apply Forall2_pairs. intros [k v] Hin. rewrite Forall_forall in Hf.
    operands; apply Hf, list_elem_of_bind; exists (k, v); (split; [|done]); set_solver.
  - change (expr_from_call "map" ?a) with (parse_map a). unfold parse_map.
    rewrite length_pairs by by intros []. rewrite even_double. cbn [negb]. do 2 f_equal.
    induction entries as [|[k v] l IH]; [done|]. rewrite fmap_cons, mjoin_cons. cbn [app map_entries]. f_equal. apply IH.
    clear -Hf. rewrite bind_cons in Hf. by apply Forall_app in Hf as [_ Hf].
Qed.

Lemma lambda_source params body :
  forallb variable params = true → parses (source_text body) body →
  parses (source_text (CLambda params body)) (CLambda params body).
Proof.
  intros Hv Hb. cbn [source_text]. apply (parses_call "lambda" _ ((CVar <$> params) ++ [body])); [done| |].
  - apply Forall2_app; [|operands]. induction params as [|x l IH]; [constructor|]. cbn in Hv.
    apply andb_true_iff in Hv as [Hx Hv]. constructor; [by apply parses_var|by apply IH].
  - change (expr_from_call "lambda" ?a) with (parse_lambda a). unfold parse_lambda. rewrite last_snoc, length_app.
    cbn [length]. rewrite Nat.add_sub, take_app_length.
    assert (map_ok (expect_name "lambda parameter") (CVar <$> params) = Ok params) as ->; [|done].
    clear. induction params as [|x l IH]; [done|]. cbn in *. by rewrite IH.
Qed.

(* ------------------------------------------------------------------ *)
(** ** All expressions *)

Lemma operands_parse l :
  Forall (λ e, source_ok e = true → parses (source_text e) e) l → forallb source_ok l = true →
  Forall2 parses (source_text <$> l) l.
Proof.
  induction 1 as [|e l He Hl IH]; [constructor|]. cbn [forallb]. intros [Hok Hok']%andb_true_iff. rewrite fmap_cons.
  apply Forall2_cons_2; auto.
Qed.

Ltac split_ok :=
  repeat match goal with H : _ && _ = true |- _ => apply andb_true_iff in H as [? ?] end.

Ltac fixed_call func args := apply (parses_call func _ args); [done| |done]; operands; auto.

Lemma literal_source lit : literal_ok lit = true → parses (literal_text lit) (CLiteral lit).
Proof.
  destruct lit as [b|z|bits|s| |bytes]; cbn [literal_ok literal_text]; try done.
  - intros _. destruct b; [apply (parses_name "true")|apply (parses_name "false")]; done.
  - intros Hz%bool_decide_eq_true. by apply parses_int.
  - intros _. apply parses_text.
  - intros _. by apply (parses_call "unit" [] []).
Qed.

Lemma source_parses e : source_ok e = true → parses (source_text e) e.
Proof.
  induction e as [e IH] using CoreExpr_children_ind. destruct e; intros Hok; cbn [source_ok] in Hok; try done;
    cbn [core_children] in IH;
    try (repeat match type of IH with Forall _ (_ :: _) => let H := fresh "IHe" in apply Forall_cons in IH as [H IH] end);
    split_ok.
  - by apply literal_source.
  - by apply parses_var.
  - fixed_call "let" [CVar name; e1; e2].
  - fixed_call "if" [e1; e2; e3].
  - match goal with H : bool_decide _ = true |- _ => apply bool_decide_eq_true in H end.
    apply match_source; [done|auto| |done].
    rewrite Forall_fmap in IH |- *. rewrite Forall_forall in IH |- *. intros [p b] Hin. apply (IH _ Hin).
    match goal with H : forallb _ arms = true |- _ => rewrite forallb_elem in H; specialize (H _ Hin); cbn in H; by apply andb_true_iff in H as [_ ?] end.
  - match goal with H : function_name _ = true |- _ => unfold function_name in H; apply andb_true_iff in H as [? ?] end.
    apply (parses_call func _ args); [done|by apply operands_parse|by apply call_is_call].
  - fixed_call "add" [e1; e2].
  - fixed_call "sub" [e1; e2].
  - fixed_call "mul" [e1; e2].
  - fixed_call "div" [e1; e2].
  - fixed_call "mod" [e1; e2].
  - fixed_call "eq" [e1; e2].
  - fixed_call "lt" [e1; e2].
  - fixed_call "gt" [e1; e2].
  - fixed_call "ne" [e1; e2].
  - fixed_call "le" [e1; e2].
  - fixed_call "ge" [e1; e2].
  - fixed_call "not" [e].
  - apply lambda_source; auto.
  - apply record_source; [|done]. rewrite Forall_fmap in IH |- *. rewrite Forall_forall in IH |- *. intros [f b] Hin. apply (IH _ Hin).
    rewrite forallb_elem in Hok. specialize (Hok _ Hin). cbn in Hok. by apply andb_true_iff in Hok as [_ ?].
  - fixed_call "field" [e; CVar field].
  - fixed_call "update" [e1; CVar field; e2].
  - apply (parses_call "tuple" _ elems); [done|by apply operands_parse|done].
  - destruct payload as [e|]; split_ok.
    + apply Forall_cons in IH as [? _]. fixed_call "variant" [CVar tag; e].
    + fixed_call "variant" [CVar tag].
  - apply (parses_call "list" _ elems); [done|by apply operands_parse|done].
  - destruct termination; [done|]. fixed_call "loop" [e].
  - fixed_call "break" [e].
  - by apply (parses_call "continue" [] []).
  - destruct termination; [done|]. split_ok. fixed_call "while" [e1; e2].
  - fixed_call "and" [e1; e2].
  - fixed_call "or" [e1; e2].
  - apply (parses_call "effect_call" _ (CVar capability :: CVar func :: args)); [done| |done]. cbn [source_text].
    apply Forall2_cons_2; [by apply parses_var|]. apply Forall2_cons_2; [by apply parses_var|]. by apply operands_parse.
  - fixed_call "cell_new" [e].
  - fixed_call "cell_get" [e].
  - fixed_call "cell_set" [e1; e2].
  - fixed_call "foreach" [CVar binding; e1; e2].
  - fixed_call "fold" [e1; e2; e3].
  - fixed_call "return" [e].
  - apply map_source. rewrite Forall_forall in IH |- *. intros e He. apply (IH _ He).
    apply list_elem_of_bind in He as ([k v] & He & Hin). rewrite forallb_elem in Hok. specialize (Hok _ Hin). cbn in Hok. split_ok.
    apply elem_of_cons in He as [->|He%list_elem_of_singleton]; by subst.
  - apply (parses_call "set" _ elements); [done|by apply operands_parse|done].
  - fixed_call "index" [e1; e2].
  - apply (parses_call "abort" _ [CLiteral (LText message)]); [done| |done]. operands. apply parses_text.
Qed.

(** C22: Every expression with a source form is what the parser returns for its
    text: nested calls, lets, matches, loops, cells, collections, literals with
    escapes and integers at the ends of the range included. *)
Theorem parse_source f64 e : source_ok e = true → parse_expr f64 (source_text e) = Some (Ok e).
Proof.
  intros Hok. destruct (source_parses e Hok) as [_ Hp]. unfold parse_expr.
  pose proof (Hp f64 (len (source_text e)) (2 * len (source_text e) + 2) "") as H. rewrite append_empty in H.
  by rewrite H.
Qed.

(** A let of the smallest integer around a match whose arms hold a text with a quote and a loop *)
Definition source_sample : CoreExpr :=
  CLet "x" (CLiteral (LInt i64_MIN))
    (CMatch (CCall "f" [CVar "x"])
       [ MkMatchArm "Some(y)" (CLiteral (LText (String "a" (String dquote "b"))));
         MkMatchArm "_" (CWhileLoop (CLt (CVar "x") (CLiteral (LInt 1))) (CBreak (CLiteral LUnit)) None) ]).

Lemma parse_source_witness : parse_expr (λ _, None) (source_text source_sample) = Some (Ok source_sample).
Proof. apply parse_source. vm_compute. reflexivity. Defined.

Example arity_message :
  parse_expr (λ _, None) "add(1)" = Some (attempt (parse_error ["add expects 2 args, got 1"])) ∧
  parse_expr (λ _, None) "f(1 2)" = Some (attempt (parse_error ["expected ',' or ')' at byte 4"])) ∧
  parse_expr (λ _, None) "9223372036854775808" = Some (attempt (parse_error ["integer literal out of range: 9223372036854775808"])).
Proof. by vm_compute. Qed.
