(* ===== verification/Frontend.v ===== *)
(** * From a verified graph to ANF

    crates/ail-compiler/src/lower.rs and lower/lower_items.rs: the gate on the
    verification report, the Core IR of a graph, its ANF with the optimiser's
    bindings and the stage hashes; crates/ail-compiler/src/anf_source_map.rs
    with the errors of error.rs that these stages return: the source map, its
    enrichment, the span checks and the provenance check of production
    profiles; hash.rs.

    CBOR encoding, BLAKE3 and the conversion of decimal texts are the
    interface [Encoding]. *)

From stdpp Require Import pretty.
From S2P Require Import Prelude Text GraphTypes SemanticGraph I64 Anf ConstFold Ordering VerifySolver VerifyReport VerifyTypes CoreIr Lower AclText ExprParser.

(* ------------------------------------------------------------------ *)
(** ** error.rs *)

Record SourceMapDiagnostic : Type := MkSourceMapDiagnostic {
  smd_code : string;
  smd_category : string;
  smd_entry_index : nat;
  smd_node_id : NodeRef;
  smd_descriptor : string;
}.

Definition code_rank (d : SourceMapDiagnostic) : N :=
  if decide (smd_code d = "AIL-SM-001") then 1
  else if decide (smd_code d = "AIL-SM-002") then 2
  else if decide (smd_code d = "AIL-SM-003") then 3
  else if decide (smd_code d = "AIL-SM-004") then 4
  else 255.

(** The errors of the compiler, three of them of the back ends, and the panic of the body parser, which ends the thread
    and is no value of the source's type *)
Inductive CompileError : Type :=
| RejectedReport
| InvalidGraph (message : string)
| MissingNode (r : NodeRef)
| InvalidSourceMap (issues : list SourceMapDiagnostic)
| MissingProvenanceMetadata (profile binding_name : string) (node_id : NodeRef) (field : string)
| EncodingError (message : string)
| NativeEncodingError (message : string)
| UnsupportedWasmConstruct (construct : string)
| UnsupportedPatternSyntax (pattern : string)
| ParserPanicked.

Abbreviation Compiled A := (result A CompileError).

(* ------------------------------------------------------------------ *)
(** ** The source map *)

Record SourceMapSpan : Type := MkSourceMapSpan { sms_file_id : string; sms_start : N; sms_end : N }.

Definition from_graph_span (s : Span) : SourceMapSpan := MkSourceMapSpan (span_source s) (span_start s) (span_end s).

Record SourceMapEntry : Type := MkSourceMapEntry {
  sme_binding_name : string;
  sme_node_id : NodeRef;
  sme_block_ref : option string;
  sme_change_set : option string;
  sme_contract_ref : option string;
  sme_effect_ref : option string;
  sme_proof_obligation_ref : option string;
  sme_runtime_check_ref : option string;
  sme_source_span : option SourceMapSpan;
  sme_generated_span : option SourceMapSpan;
  sme_wasm_offset : option N;
  sme_native_offset : option N;
}.

Abbreviation SourceMap := (list SourceMapEntry).

Definition from_bindings (bindings : list AnfBinding) : SourceMap :=
  (λ b, MkSourceMapEntry (ab_name b) (ab_source_ref b) None None None None None None None None None None) <$> bindings.

Definition entries_for_node (m : SourceMap) (node_id : NodeRef) : list SourceMapEntry :=
  filter (λ e, sme_node_id e = node_id) m.

Inductive SpanKind : Type := SpanSource | SpanGenerated.
Definition span_label (k : SpanKind) : string := match k with SpanSource => "source-span" | SpanGenerated => "generated-span" end.
Definition invalid_range_code (k : SpanKind) : string := match k with SpanSource => "AIL-SM-001" | SpanGenerated => "AIL-SM-004" end.

Definition file_id_missing (s : SourceMapSpan) : bool := bool_decide (trim (sms_file_id s) = "").
Definition file_id_shape (s : SourceMapSpan) : string := if file_id_missing s then "missing" else "present".

Definition validate_span_record (index : nat) (node_id : NodeRef) (kind : SpanKind) (s : SourceMapSpan)
  : list SourceMapDiagnostic :=
  (if file_id_missing s then
     [MkSourceMapDiagnostic "AIL-SM-002" "span.file_id" index node_id (fmt [span_label kind; ":file-id=missing"])]
   else [])
  ++ (if (sms_end s <=? sms_start s)%N then
        [MkSourceMapDiagnostic (invalid_range_code kind) "span.range" index node_id
           (fmt [span_label kind; ":file-id="; file_id_shape s; ":range=";
                 if (sms_start s =? sms_end s)%N then "empty" else "reversed"])]
      else []).

Definition span_issues (index : nat) (e : SourceMapEntry) : list SourceMapDiagnostic :=
  match sme_source_span e with Some s => validate_span_record index (sme_node_id e) SpanSource s | None => [] end
  ++ match sme_generated_span e with Some s => validate_span_record index (sme_node_id e) SpanGenerated s | None => [] end.

(** The well-formed generated spans with their entries *)
Definition generated_span (index : nat) (e : SourceMapEntry) : option (nat * NodeRef * SourceMapSpan) :=
  s ← sme_generated_span e;
  if file_id_missing s || (sms_end s <=? sms_start s)%N then None else Some (index, sme_node_id e, s).

Definition span_key (p : nat * NodeRef * SourceMapSpan) : string * N * N * nat :=
  (sms_file_id p.2, sms_start p.2, sms_end p.2, p.1.1).

Definition overlaps (previous current : SourceMapSpan) : bool :=
  bool_decide (sms_file_id previous = sms_file_id current) && (sms_start current <? sms_end previous)%N.

(** Each span against the one before it in the order of [span_key] *)
Fixpoint overlap_issues (previous : option SourceMapSpan) (spans : list (nat * NodeRef * SourceMapSpan))
  : list SourceMapDiagnostic :=
  match spans with
  | [] => []
  | (index, node_id, s) :: spans' =>
      (if match previous with Some p => overlaps p s | None => false end then
         [MkSourceMapDiagnostic "AIL-SM-003" "generated.overlap" index node_id "generated-span:file-id=present:range=overlap"]
       else [])
      ++ overlap_issues (Some s) spans'
  end.

Definition add_generated_overlap_issues (m : SourceMap) : list SourceMapDiagnostic :=
  overlap_issues None (sort_on span_key (omap id (imap generated_span m))).

Definition validation_issues (m : SourceMap) : list SourceMapDiagnostic :=
  sort_on (λ d, (smd_entry_index d, code_rank d)) (mjoin (imap span_issues m) ++ add_generated_overlap_issues m).

Definition validate_tooling_quality (m : SourceMap) : Compiled unit :=
  match validation_issues m with [] => Ok tt | issues => Err (InvalidSourceMap issues) end.

Definition check_provenance (profile : string) (p : SourceMapEntry * AnfBinding) : Compiled unit :=
  let '(entry, binding) := p in
  if decide (sme_binding_name entry ≠ ab_name binding) then
    Err (MissingProvenanceMetadata profile (ab_name binding) (ab_source_ref binding) "binding_name")
  else if decide (sme_node_id entry ≠ ab_source_ref binding) then
    Err (MissingProvenanceMetadata profile (ab_name binding) (ab_source_ref binding) "node_id")
  else if decide (default "" (sme_change_set entry) = "") then
    Err (MissingProvenanceMetadata profile (sme_binding_name entry) (sme_node_id entry) "change_set")
  else Ok tt.

Fixpoint check_each {A} (f : A → Compiled unit) (l : list A) : Compiled unit :=
  match l with [] => Ok tt | x :: l' => let? _ := f x in check_each f l' end.

Definition validate_required_provenance (profile : string) (m : SourceMap) (bindings : list AnfBinding) : Compiled unit :=
  if decide (profile ∉ ["prod"; "production"; "critical"]) then Ok tt
  else if decide (length m ≠ length bindings) then
    let binding := match bindings !! length m with Some b => Some b | None => last bindings end in
    Err (MissingProvenanceMetadata profile (from_option ab_name "<extra-source-map-entry>" binding)
           (from_option ab_source_ref 0%N binding) "source_map_coverage")
  else check_each (check_provenance profile) (zip m bindings).

(* ------------------------------------------------------------------ *)
(** ** lower_items.rs *)

Definition map_node_kind (k : NodeKind) : CoreNodeKind :=
  match k with
  | NkModule => CkModule | NkFunction => CkFunction | NkType => CkType | NkEffect => CkEffect
  | NkCapability => CkCapability | NkContract => CkContract | NkInvariant => CkInvariant | NkTest => CkTest
  | NkBoundary => CkBoundary | NkPackage => CkPackage | NkInterface => CkInterface | NkImpl => CkImpl
  | NkEffectAlias => CkEffectAlias | NkImport => CkImport | NkExport => CkExport
  | NkVersionConstraint => CkVersionConstraint | NkCapabilityExport => CkCapabilityExport
  | NkContractExport => CkContractExport
  end.

Definition nominal_types : list (string * CoreType) :=
  let generic := TGeneric None in
  [ ("Unit", TUnit); ("Never", TNever); ("Bool", TBool); ("Int", TInt); ("UInt", TUInt); ("Float", TFloat);
    ("Text", TText); ("Bytes", TBytes); ("Record", TRecord); ("Variant", TVariant); ("Tuple", TTuple);
    ("List", TList generic); ("Map", TMap generic generic); ("Set", TSet generic); ("Option", TOption generic);
    ("Result", TResult generic generic); ("Function", TFunction [] generic []); ("Handle", THandle generic RmCopy);
    ("Refinement", TRefinement generic ""); ("Generic", generic) ].

Definition nominal_to_core_type (nominal : string) : CoreType :=
  from_option snd (TGeneric None) (find_first (λ p, p.1 = nominal) nominal_types).

Definition literal_expr_from_runtime_checks (checks : option (list RuntimeCheckMeta)) : option CoreExpr :=
  checks ← checks; check ← head checks; predicate ← strip_prefix "literal:i64=" (rc_predicate check);
  value ← parse_i64 predicate; Some (CLiteral (LInt value)).

Record NodeProvenance : Type := MkNodeProvenance {
  np_change_set : option string;
  np_block_ref : option string;
  np_contract_ref : option string;
  np_effect_ref : option string;
  np_proof_obligation_ref : option string;
  np_runtime_check_ref : option string;
  np_source_span : option SourceMapSpan;
}.

Definition add_proof_ref (nodes : list GraphNode) (refs : gmap NodeRef string) (e : GraphEdge) : gmap NodeRef string :=
  if decide (edge_kind e = EkProves) then
    match find_first (λ n, node_id n = edge_target e) nodes with
    | Some target =>
        match refs !! edge_source e with
        | Some _ => refs
        | None => <[edge_source e := "proof." +:+ node_name target]> refs
        end
    | None => refs
    end
  else refs.

Definition edge_proof_refs (g : SemanticGraph) : gmap NodeRef string := foldl (add_proof_ref (graph_nodes g)) ∅ (graph_edges g).

Definition node_provenance_of (refs : gmap NodeRef string) (n : GraphNode) : NodeProvenance :=
  MkNodeProvenance
    (prov_change_id <$> node_provenance n)
    (match node_kind n with NkModule | NkBoundary => Some ("block." +:+ node_name n) | _ => None end)
    ((λ _, "contract." +:+ node_name n) <$> node_contract_clauses n)
    (row ← node_effect_row n; head (er_effects row))
    (match node_refinement_ref n with
     | Some _ => Some ("proof.refinement." +:+ node_name n)
     | None => refs !! node_id n
     end)
    (checks ← node_runtime_checks n; rc_hash <$> head checks)
    (from_graph_span <$> node_span n).

Definition extract_provenance_lookup (g : SemanticGraph) : gmap NodeRef NodeProvenance :=
  foldl (λ m n, <[node_id n := node_provenance_of (edge_proof_refs g) n]> m) ∅ (graph_nodes g).

Definition enriched_entry (lookup : gmap NodeRef NodeProvenance) (b : AnfBinding) : SourceMapEntry :=
  let prov := lookup !! ab_source_ref b in
  MkSourceMapEntry (ab_name b) (ab_source_ref b)
    (prov ≫= np_block_ref) (prov ≫= np_change_set) (prov ≫= np_contract_ref) (prov ≫= np_effect_ref)
    (prov ≫= np_proof_obligation_ref) (prov ≫= np_runtime_check_ref) (prov ≫= np_source_span) None None None.

Definition build_enriched_source_map (bindings : list AnfBinding) (lookup : gmap NodeRef NodeProvenance) : SourceMap :=
  enriched_entry lookup <$> bindings.

Definition map_core_node_to_anf (node : CoreNode) (fresh : N) : AnfBinding * N :=
  let '(anf_expr, fresh) :=
    match cn_expr node with
    | Some core_expr => lower_core_expr_to_anf_local (cn_source_ref node) core_expr fresh
    | None => (ALiteral LUnit, fresh)
    end in
  (MkAnfBinding (cn_source_ref node) (cn_name node) anf_expr, fresh).

(* ------------------------------------------------------------------ *)
(** ** lower.rs *)

(** CBOR, BLAKE3 and the conversion of a decimal text to the bits of a binary64 *)
Class Encoding : Type := {
  enc_graph : SemanticGraph → result (list N) string;
  enc_report : VerificationReport → result (list N) string;
  enc_nodes : list CoreNode → result (list N) string;
  enc_bindings : list AnfBinding → result (list N) string;
  blake3 : list N → list N;
  float_bits : string → option N;
}.

Definition ANF_SCHEMA_VERSION : N := 1.

Record AnfIr : Type := MkAnfIr {
  ai_schema_version : N;
  ai_bindings : list AnfBinding;
  ai_source_map : SourceMap;
  ai_stage_hashes : StageHashes;
}.

Section Frontend.
Context `{Encoding}.

(** [stable_cbor_bytes] *)
Definition stable_cbor_bytes {A} (encode : A → result (list N) string) (a : A) : Compiled (list N) :=
  match encode a with Ok bytes => Ok bytes | Err e => Err (EncodingError e) end.

Definition hash_with_parent (parent bytes : list N) : list N := blake3 (parent ++ bytes).

(** [parse_expr] always answers ([parse_ends]): the default is never taken. *)
Definition expr_from_graph_node (n : GraphNode) : Compiled (option CoreExpr) :=
  match node_body_expr n with
  | Some body =>
      if starts_with "@" (str_trim_start body) then Ok None
      else
        match default (Err Panicked) (parse_expr float_bits body) with
        | Ok e => Ok (Some e)
        | Err (Failed err) => Err (InvalidGraph (fmt [node_name n; " body: "; pe_message err]))
        | Err Panicked => Err ParserPanicked
        end
  | None => Ok (literal_expr_from_runtime_checks (node_runtime_checks n))
  end.

Definition is_report_accepted (report : VerificationReport) : bool :=
  match summary report with StProven | StRuntimeChecked => true | _ => false end.

Definition graph_error (e : GraphValidationError) : CompileError :=
  match e with
  | DuplicateRef r => InvalidGraph (fmt ["duplicate NodeRef("; pretty r; ")"])
  | DanglingEdge r _ => MissingNode r
  | EffectRowNoEmitsEdge r => InvalidGraph (fmt ["effect_row declared but no Emits edge on NodeRef("; pretty r; ")"])
  | CapabilityReqsMissingNode owner cap =>
      InvalidGraph (fmt ["capability '"; cap; "' required by NodeRef("; pretty owner; ") has no matching Capability node"])
  end.

Definition core_node (gn : GraphNode) : Compiled CoreNode :=
  let? expr := (if decide (node_kind gn = NkFunction) then expr_from_graph_node gn else Ok None) in
  Ok (MkCoreNode (node_id gn) (map_node_kind (node_kind gn)) (node_name gn)
        ((λ tf, nominal_to_core_type (tf_nominal tf)) <$> node_type_facts gn) expr).

(** [collect::<Result<Vec<_>, _>>]: stop at the first error *)
Fixpoint collect_nodes (nodes : list GraphNode) : Compiled (list CoreNode) :=
  match nodes with
  | [] => Ok []
  | n :: nodes' => let? c := core_node n in let? cs := collect_nodes nodes' in Ok (c :: cs)
  end.

Definition lower_to_core_ir (g : SemanticGraph) (report : VerificationReport) : Compiled CoreIr :=
  if negb (is_report_accepted report) then Err RejectedReport
  else
    match validate g with
    | Err e => Err (graph_error e)
    | Ok _ =>
        let? graph_cbor := stable_cbor_bytes enc_graph g in
        let graph_snapshot_hash := hash_with_parent [] graph_cbor in
        let? report_cbor := stable_cbor_bytes enc_report report in
        let verification_report_hash := hash_with_parent [] report_cbor in
        let? nodes := collect_nodes (graph_nodes g) in
        let? core_ir_bytes := stable_cbor_bytes enc_nodes nodes in
        let core_ir_hash := hash_with_parent graph_snapshot_hash core_ir_bytes in
        Ok (MkCoreIr nodes
              (MkStageHashes graph_snapshot_hash verification_report_hash core_ir_hash None None None None None))
    end.

Definition lower_to_anf_impl (core : CoreIr) (provenance_lookup : option (gmap NodeRef NodeProvenance)) : Compiled AnfIr :=
  let '(bindings, _) := map_state map_core_node_to_anf (ci_nodes core) 0%N in
  let bindings := optimize_bindings bindings in
  let source_map :=
    match provenance_lookup with
    | Some lookup => build_enriched_source_map bindings lookup
    | None => from_bindings bindings
    end in
  let? anf_ir_bytes := stable_cbor_bytes enc_bindings bindings in
  let sh := ci_stage_hashes core in
  let anf_ir_hash := hash_with_parent (sh_core_ir_hash sh) anf_ir_bytes in
  Ok (MkAnfIr ANF_SCHEMA_VERSION bindings source_map
        (MkStageHashes (sh_graph_snapshot_hash sh) (sh_verification_report_hash sh) (sh_core_ir_hash sh)
           (Some anf_ir_hash) (sh_wasm_hash sh) (sh_native_hash sh) (sh_source_map_hash sh)
           (sh_artifact_manifest_hash sh))).

Definition lower_to_anf (core : CoreIr) : Compiled AnfIr := lower_to_anf_impl core None.

Definition lower_to_anf_with_graph (core : CoreIr) (g : SemanticGraph) : Compiled AnfIr :=
  lower_to_anf_impl core (Some (extract_provenance_lookup g)).
End Frontend.

(* ------------------------------------------------------------------ *)
(** ** Provenance survives *)

Section Provenance.
Context `{Encoding}.

Definition node_key (n : GraphNode) : NodeRef * string := (node_id n, node_name n).
Definition binding_key (b : AnfBinding) : NodeRef * string := (ab_source_ref b, ab_name b).
Definition entry_key (e : SourceMapEntry) : NodeRef * string := (sme_node_id e, sme_binding_name e).

Lemma collect_nodes_Forall2 nodes cs :
  collect_nodes nodes = Ok cs → Forall2 (λ n c, core_node n = Ok c) nodes cs.
Proof.
  revert cs. induction nodes as [|n l IH]; intros cs; cbn; [intros [= <-]; constructor|].
  destruct (core_node n) as [c|] eqn:E; [|done]. destruct (collect_nodes l) as [cs'|]; [|done]. intros [= <-].
  constructor; [done|]. by apply IH.
Qed.

Lemma core_node_Ok n c :
  core_node n = Ok c → cn_source_ref c = node_id n ∧ cn_name c = node_name n ∧
    (node_kind n = NkFunction → expr_from_graph_node n = Ok (cn_expr c)) ∧ (node_kind n ≠ NkFunction → cn_expr c = None).
Proof.
  unfold core_node. case_decide as Hk; [destruct (expr_from_graph_node n) eqn:E; [|done]|]; intros [= <-]; cbn; by rewrite ?E.
Qed.

Lemma lower_to_core_ir_Ok g report core :
  lower_to_core_ir g report = Ok core →
  is_report_accepted report = true ∧ graph_wf g ∧ Forall2 (λ n c, core_node n = Ok c) (graph_nodes g) (ci_nodes core) ∧
  ∃ graph_cbor core_cbor, enc_graph g = Ok graph_cbor ∧ enc_nodes (ci_nodes core) = Ok core_cbor ∧
    sh_core_ir_hash (ci_stage_hashes core) = blake3 (blake3 graph_cbor ++ core_cbor).
Proof.
  unfold lower_to_core_ir, stable_cbor_bytes, hash_with_parent. destruct (is_report_accepted report); [|done]. cbn [negb].
  destruct (validate g) as [[]|] eqn:Ev; [|done]. apply validate_Ok in Ev. destruct (enc_graph g) as [gb|] eqn:Eg; [|done].
  destruct (enc_report report) as [rb|]; [|done]. destruct (collect_nodes (graph_nodes g)) as [nodes|] eqn:En; [|done].
  destruct (enc_nodes nodes) as [nb|] eqn:Eb; [|done]. intros [= <-]. cbn. apply collect_nodes_Forall2 in En. eauto 10.
Qed.

Lemma lowered_keys nodes fresh :
  binding_key <$> (map_state map_core_node_to_anf nodes fresh).1 = (λ c, (cn_source_ref c, cn_name c)) <$> nodes.
Proof.
  revert fresh. induction nodes as [|c l IH]; intros fresh; [done|].
  change (map_state map_core_node_to_anf (c :: l) fresh) with
    (let '(y, s) := map_core_node_to_anf c fresh in let '(k, s) := map_state map_core_node_to_anf l s in (y :: k, s)).
  unfold map_core_node_to_anf at 1. destruct (match cn_expr c with Some _ => _ | None => _ end) as [a n].
  specialize (IH n). destruct (map_state map_core_node_to_anf l n). cbn in *. by rewrite IH.
Qed.

Lemma lower_to_anf_impl_Ok core lookup anf :
  lower_to_anf_impl core lookup = Ok anf →
  ai_bindings anf = optimize_bindings (map_state map_core_node_to_anf (ci_nodes core) 0%N).1 ∧
  ai_source_map anf = match lookup with Some l => build_enriched_source_map (ai_bindings anf) l | None => from_bindings (ai_bindings anf) end ∧
  ∃ bytes, enc_bindings (ai_bindings anf) = Ok bytes ∧
    sh_anf_ir_hash (ai_stage_hashes anf) = Some (blake3 (sh_core_ir_hash (ci_stage_hashes core) ++ bytes)).
Proof.
  unfold lower_to_anf_impl, stable_cbor_bytes. destruct (map_state map_core_node_to_anf (ci_nodes core) 0%N) as [bs n].
  destruct (enc_bindings _) as [bytes|] eqn:E; [|done]. intros [= <-]. cbn. eauto.
Qed.

Lemma optimized_keys bindings : binding_key <$> optimize_bindings bindings = binding_key <$> bindings.
Proof. unfold optimize_bindings. by rewrite <- list_fmap_compose. Qed.

Lemma compiled_keys g report core lookup anf :
  lower_to_core_ir g report = Ok core → lower_to_anf_impl core lookup = Ok anf →
  binding_key <$> ai_bindings anf = node_key <$> graph_nodes g.
Proof.
  intros (_ & _ & Hn & _)%lower_to_core_ir_Ok (-> & _)%lower_to_anf_impl_Ok. rewrite optimized_keys, lowered_keys.
  induction Hn as [|n c l k Hc Hn IH]; [done|]. apply core_node_Ok in Hc as (Hi & Hm & _). rewrite !fmap_cons, IH.
  by rewrite Hi, Hm.
Qed.

Lemma source_map_keys (bindings : list AnfBinding) lookup :
  entry_key <$> (match lookup with Some l => build_enriched_source_map bindings l | None => from_bindings bindings end)
  = binding_key <$> bindings.
Proof. by destruct lookup; unfold build_enriched_source_map, from_bindings; rewrite <- list_fmap_compose. Qed.

(** C24: What is compiled was accepted and is traceable: a graph whose report is
    not accepted or that is not well formed is refused; the bindings are the
    nodes in their order, with their refs and names, and so are the entries of
    the source map; and the hash of the ANF covers the bindings, the Core nodes
    and the graph. *)
Theorem compiled_provenance g report core anf :
  lower_to_core_ir g report = Ok core → lower_to_anf_with_graph core g = Ok anf →
  summary report ∈ [StProven; StRuntimeChecked] ∧ graph_wf g ∧
  binding_key <$> ai_bindings anf = node_key <$> graph_nodes g ∧
  entry_key <$> ai_source_map anf = node_key <$> graph_nodes g ∧
  ∃ graph_cbor core_cbor anf_cbor,
    enc_graph g = Ok graph_cbor ∧ enc_nodes (ci_nodes core) = Ok core_cbor ∧ enc_bindings (ai_bindings anf) = Ok anf_cbor ∧
    sh_anf_ir_hash (ai_stage_hashes anf) = Some (blake3 (blake3 (blake3 graph_cbor ++ core_cbor) ++ anf_cbor)).
Proof.
  intros Hc Ha. pose proof (compiled_keys _ _ _ _ _ Hc Ha) as Hk.
  apply lower_to_core_ir_Ok in Hc as (Hr & Hg & _ & gb & nb & ? & ? & Hch). apply lower_to_anf_impl_Ok in Ha as (_ & Hm & bb & ? & Hh).
  split_and!; [|done|done| |].
  - unfold is_report_accepted in Hr. destruct (summary report); set_solver.
  - rewrite Hm. by rewrite (source_map_keys _ (Some _)).
  - exists gb, nb, bb. by rewrite Hh, Hch.
Qed.

(* ------------------------------------------------------------------ *)
(** ** The provenance check of production profiles *)

Lemma check_each_Ok {A} (f : A → Compiled unit) l : check_each f l = Ok tt ↔ ∀ x, x ∈ l → f x = Ok tt.
Proof.
  induction l as [|x l IH]; cbn; [split; [by intros _ ? ?%not_elem_of_nil|done]|]. rewrite seq_ok, IH. set_solver.
Qed.

Lemma lookup_provenance g n :
  NoDup (node_id <$> graph_nodes g) → n ∈ graph_nodes g →
  extract_provenance_lookup g !! node_id n = Some (node_provenance_of (edge_proof_refs g) n).
Proof.
  unfold extract_provenance_lookup. generalize (edge_proof_refs g). generalize (graph_nodes g). intros l refs.
  assert (∀ m : gmap NodeRef NodeProvenance, NoDup (node_id <$> l) → ∀ r,
    foldl (λ m n, <[node_id n := node_provenance_of refs n]> m) m l !! r =
    match find_first (λ n, node_id n = r) l with Some n => Some (node_provenance_of refs n) | None => m !! r end) as Hg.
  { induction l as [|x l IH]; intros m Hd r; [done|]. rewrite fmap_cons in Hd. apply NoDup_cons in Hd as [Hx Hd]. cbn [foldl].
    rewrite IH by done. cbn [find_first]. case_decide as Hr.
    - assert (find_first (λ n, node_id n = r) l = None) as ->.
      { apply find_first_None. intros y Hy Hy'. apply Hx. rewrite Hr, <- Hy'. by apply list_elem_of_fmap_2. }
      rewrite <- Hr. apply lookup_insert_eq.
    - destruct (find_first _ l); [done|]. by apply lookup_insert_ne. }
  intros Hd Hn. rewrite Hg by done. destruct (find_first (λ m, node_id m = node_id n) l) as [m|] eqn:E.
  - apply find_first_Some in E as [Hm Hi]. assert (m = n) as ->; [|done].
    apply list_elem_of_lookup in Hm as [i Hi']. apply list_elem_of_lookup in Hn as [j Hj].
    assert (i = j) as ->; [|by simplify_eq]. eapply NoDup_lookup; [exact Hd| |]; rewrite list_lookup_fmap;
      [by rewrite Hi'|by rewrite Hj; cbn; rewrite Hi].
  - exfalso. rewrite find_first_None in E. by apply (E n).
Qed.

(** C25: Production profiles accept a compiled graph exactly when every node names the change that made it. *)
Theorem production_exact profile g report core anf :
  profile ∈ ["prod"; "production"; "critical"] →
  lower_to_core_ir g report = Ok core → lower_to_anf_with_graph core g = Ok anf →
  validate_required_provenance profile (ai_source_map anf) (ai_bindings anf) = Ok tt ↔
  ∀ n, n ∈ graph_nodes g → ∃ p, node_provenance n = Some p ∧ prov_change_id p ≠ "".
Proof.
  intros Hp Hc Ha. pose proof (compiled_keys _ _ _ _ _ Hc Ha) as Hk. apply lower_to_core_ir_Ok in Hc as (_ & [Hd _] & _).
  apply lower_to_anf_impl_Ok in Ha as (_ & -> & _). unfold validate_required_provenance.
  rewrite decide_False by (intros Hn; by apply Hn). unfold build_enriched_source_map. rewrite decide_False by (rewrite length_fmap; lia).
  set (lookup := extract_provenance_lookup g). rewrite check_each_Ok.
  assert (∀ b, check_provenance profile (enriched_entry lookup b, b) = Ok tt ↔
            default "" (lookup !! ab_source_ref b ≫= np_change_set) ≠ "") as Hcheck.
  { intros b. unfold check_provenance, enriched_entry. cbn. rewrite !decide_False by naive_solver.
    case_decide; naive_solver. }
  assert (∀ n, n ∈ graph_nodes g → (default "" (lookup !! node_id n ≫= np_change_set) ≠ "" ↔
            ∃ p, node_provenance n = Some p ∧ prov_change_id p ≠ "")) as Hnode.
  { intros n Hn. unfold lookup. rewrite lookup_provenance by done. cbn. destruct (node_provenance n); naive_solver. }
  split.
  - intros Hall n Hn. apply Hnode; [done|]. apply (list_elem_of_fmap_2 node_key) in Hn. rewrite <- Hk in Hn.
    apply list_elem_of_fmap in Hn as (b & [= Hi _] & Hb). rewrite Hi. apply Hcheck, Hall.
    apply list_elem_of_lookup in Hb as [i Hb]. apply (list_elem_of_lookup_2 _ i). apply lookup_zip_Some.
    rewrite list_lookup_fmap, Hb. done.
  - intros Hall [e b] Hin. apply list_elem_of_lookup in Hin as [i Hi]. apply lookup_zip_Some in Hi as [He Hb]. cbn in He, Hb.
    rewrite list_lookup_fmap, Hb in He. injection He as <-. apply Hcheck.
    apply list_elem_of_lookup_2 in Hb. apply (list_elem_of_fmap_2 binding_key) in Hb. rewrite Hk in Hb.
    apply list_elem_of_fmap in Hb as (n & [= Hb _] & Hn). rewrite Hb. apply Hnode; [done|]. by apply Hall.
Qed.
End Provenance.

(* ------------------------------------------------------------------ *)
(** ** Samples *)

Module FrontendSample.
#[local] Open Scope N_scope.
(** A stand-in for the encoders that keeps lengths *)
#[local] Instance lengths : Encoding := {|
  enc_graph g := Ok [N.of_nat (length (graph_nodes g))];
  enc_report r := Ok [N.of_nat (length (vr_entries r))];
  enc_nodes l := Ok [N.of_nat (length l)];
  enc_bindings l := Ok [N.of_nat (length l)];
  blake3 bytes := bytes;
  float_bits _ := None;
|}.

Definition empty_report : VerificationReport := stage_report [] [] [].

Definition sample_node (id : NodeRef) (kind : NodeKind) (name change : string) (body : option string) : GraphNode :=
  MkGraphNode id kind name None None None None None None (Some (MkProvenance change)) None None None None None body
    None None None None [] [] [] [] [] None None None None.

(** A function that adds its parameter to a constant, in a module *)
Definition main_node : GraphNode := sample_node 1 NkFunction "fn.main" "change-1" (Some "let(a, 20, add(a, x))").
Definition app_graph : SemanticGraph := MkSemanticGraph [main_node; sample_node 2 NkModule "app" "change-1" None] [].

Definition app_core : CoreIr :=
  MkCoreIr
    [ MkCoreNode 1 CkFunction "fn.main" None (Some (CLet "a" (CLiteral (LInt 20)) (CAdd (CVar "a") (CVar "x"))));
      MkCoreNode 2 CkModule "app" None None ]
    (MkStageHashes [2%N] [0%N] [2%N; 2%N] None None None None None).

Definition app_anf : AnfIr :=
  MkAnfIr 1
    [MkAnfBinding 1 "fn.main" (ALet "a" (ALiteral (LInt 20)) (ACall "add" ["a"; "x"])); MkAnfBinding 2 "app" (ALiteral LUnit)]
    [MkSourceMapEntry "fn.main" 1 None (Some "change-1") None None None None None None None None;
     MkSourceMapEntry "app" 2 (Some "block.app") (Some "change-1") None None None None None None None None]
    (MkStageHashes [2%N] [0%N] [2%N; 2%N] (Some [2%N; 2%N; 2%N]) None None None None).

Lemma app_compiles : lower_to_core_ir app_graph empty_report = Ok app_core ∧ lower_to_anf_with_graph app_core app_graph = Ok app_anf.
Proof. split; vm_compute; reflexivity. Qed.

Lemma compiled_provenance_witness :
  binding_key <$> ai_bindings app_anf = node_key <$> graph_nodes app_graph ∧
  sh_anf_ir_hash (ai_stage_hashes app_anf) = Some [2%N; 2%N; 2%N].
Proof.
  destruct (compiled_provenance app_graph empty_report app_core app_anf) as (_ & _ & Hk & _).
  - apply app_compiles.
  - apply app_compiles.
  - split; [exact Hk|reflexivity].
Defined.

Lemma production_exact_witness :
  validate_required_provenance "production" (ai_source_map app_anf) (ai_bindings app_anf) = Ok tt.
Proof.
  apply (production_exact "production" app_graph empty_report app_core app_anf).
  - set_solver.
  - apply app_compiles.
  - apply app_compiles.
  - intros n [->|[->|[]%not_elem_of_nil]%elem_of_cons]%elem_of_cons; by exists (MkProvenance "change-1").
Defined.

(** A report with an open entry is refused. *)
Example open_refused :
  lower_to_core_ir app_graph (stage_report [open_entry "contract" "fn.main" "open"] [] []) = Err RejectedReport.
Proof. by vm_compute. Qed.

(** Generated spans are compared with the one before them only: the third lies inside the first and is not reported. *)
Definition spanned (start end_ : N) : SourceMapEntry :=
  MkSourceMapEntry "b" 1 None None None None None None None (Some (MkSourceMapSpan "app.wasm" start end_)) None None.

Example nested_overlap_missed :
  smd_entry_index <$> validation_issues [spanned 0 100; spanned 10 20; spanned 30 40] = [1%nat].
Proof. by vm_compute. Qed.
End FrontendSample.
