(* ===== verification/CompileSound.v ===== *)
(** * Compiled functions compute what their source means

    The composition of the front end: the text of a body is parsed
    (ExprParser.v), lowered (Lower.v) and optimised (ConstFold.v) by
    [lower_to_core_ir] and [lower_to_anf_with_graph] (Frontend.v).  For bodies
    without effects, the evaluator of Core expressions on the machine of pure
    values agrees with the evaluator of the optimiser's theorems. *)

From stdpp Require Import pretty.
From S2P Require Import Prelude Text GraphTypes SemanticGraph I64 Anf ConstFold Dce AnfEval WasmMachine WasmInt Ordering VerifySolver VerifyReport VerifyTypes CoreIr Lower CoreEval LowerSound AclText ExprParser ExprRoundtrip Frontend.

(* ------------------------------------------------------------------ *)
(** ** The machine of pure values *)

Definition pure_prim `{CallSemantics} (p : Prim) (vs : list Value) : option Value :=
  match p, vs with
  | PCall func, _ => call_function func vs
  | PField field, [v] => field_value field v
  | PRecord fields, _ => Some (VRecord (zip fields vs))
  | PTuple, _ => Some (VTuple vs)
  | PVariant tag, [] => Some (VVariant tag None)
  | PVariant tag, [v] => Some (VVariant tag (Some v))
  | PList, _ => Some (VList vs)
  | _, _ => None
  end.

#[local] Instance pure_machine `{CallSemantics} : Machine := {|
  m_val := Value;
  m_state := unit;
  m_literal := literal_value;
  m_truth v := z ← as_word v; Some (bool_decide (z ≠ 0%Z));
  m_prim p vs _ := v ← pure_prim p vs; Some (v, tt);
  m_elements _ _ := None;
  m_matches _ _ _ := None;
|}.

#[local] Instance lit_in_range_dec lit : Decision (lit_in_range lit).
Proof. destruct lit; apply _. Defined.

(** Bodies without effects, loops and early exits *)
Fixpoint core_pure (e : CoreExpr) : bool :=
  match e with
  | CLiteral lit => bool_decide (lit_in_range lit)
  | CVar _ | CVariantNew _ None => true
  | CLet _ a b | CAdd a b | CSub a b | CMul a b | CDiv a b | CMod a b | CEq a b | CLt a b | CGt a b | CNe a b
  | CLe a b | CGe a b | CAnd a b | COr a b => core_pure a && core_pure b
  | CIf a b c => core_pure a && core_pure b && core_pure c
  | CNot a | CFieldGet a _ | CVariantNew _ (Some a) => core_pure a
  | CCall _ l | CTupleNew l | CListNew l => forallb core_pure l
  | CRecordNew fields => forallb (λ '(_, e), core_pure e) fields
  | _ => false
  end.

(** The ANF they lower to *)
Fixpoint anf_pure (e : AnfExpr) : bool :=
  match e with
  | ALiteral lit => bool_decide (lit_in_range lit)
  | AVar _ | ACall _ _ | AFieldGet _ _ | AVariantNew _ None => true
  | ALet _ a b | AIf _ a b => anf_pure a && anf_pure b
  | AVariantNew _ (Some a) | AShortCircuitAnd _ a | AShortCircuitOr _ a => anf_pure a
  | ATupleNew l | AListNew l => forallb anf_pure l
  | ARecordNew fields => forallb (λ '(_, e), anf_pure e) fields
  | _ => false
  end.

(* ------------------------------------------------------------------ *)
(** ** Both evaluators agree on pure ANF *)

Section Pure.
Context `{CS : CallSemantics}.

Abbreviation PureRun := (option (@Outcome pure_machine * unit)).

Definition lift (v : option Value) : PureRun := match v with Some v => Some (@OVal pure_machine v, tt) | None => None end.

Lemma run_all_pure {A} (f : A → unit → PureRun) (g : A → option Value) l (k : list Value → unit → PureRun) :
  (∀ x, x ∈ l → f x tt = lift (g x)) → run_all (M := pure_machine) f l tt k = (vs ← mapM g l; k vs tt).
Proof.
  revert k. induction l as [|x l IH]; intros k Hf; [done|]. cbn. rewrite Hf by left. destruct (g x) as [v|]; [|done]. cbn.
  rewrite IH; [|intros y Hy; apply Hf; by right]. by destruct (mapM g l).
Qed.

Lemma run_fields_pure fuel (ρ : Scope) (fields : list (string * AnfExpr)) (k : list Value → unit → PureRun) :
  (∀ p, p ∈ fields → arun (M := pure_machine) fuel ρ p.2 tt = lift (eval ρ p.2)) →
  run_all (M := pure_machine) (λ '(_, e), arun fuel ρ e) fields tt k = (vs ← mapM (λ p, eval ρ p.2) fields; k vs tt).
Proof. intros Hf. apply run_all_pure. intros [f e] Hin. by apply (Hf (f, e)). Qed.

Lemma zip_fields (ρ : Scope) (fields : list (string * AnfExpr)) :
  mapM (λ '(field, e), w ← eval ρ e; Some (field, w)) fields =
  (vs ← mapM (λ p, eval ρ p.2) fields; Some (zip fields.*1 vs)).
Proof.
  induction fields as [|[f e] l IH]; [done|]. cbn. rewrite IH. destruct (eval ρ e); [|done]. cbn.
  by destruct (mapM (λ p, eval ρ p.2) l).
Qed.

Lemma arun_eval fuel e (ρ : Scope) : anf_pure e = true → arun (M := pure_machine) fuel ρ e tt = lift (eval ρ e).
Proof.
  revert ρ. induction e as [e IH] using AnfExpr_children_ind. intros ρ. destruct e; cbn [anf_pure]; try done; intros Hok;
    cbn [children] in IH.
  - apply andb_true_iff in Hok as [H1 H2]. apply Forall_cons in IH as [IH1 [IH2 _]%Forall_cons]. cbn. rewrite IH1 by done.
    destruct (eval ρ e1); [|done]. cbn. by apply IH2.
  - apply andb_true_iff in Hok as [H1 H2]. apply Forall_cons in IH as [IH1 [IH2 _]%Forall_cons]. cbn.
    destruct (ρ !! cond) as [w|]; [|done]. cbn. destruct (as_word w) as [z|]; [|done]. cbn.
    destruct (decide (z = 0%Z)) as [->|Hz]; [by apply IH2|]. rewrite bool_decide_true by done. by apply IH1.
  - cbn. unfold prim_names. destruct (mapM _ args) as [vs|]; [|done]. cbn. unfold primitive. cbn. by destruct (call_function func vs).
  - cbn. unfold prim_names. cbn. destruct (ρ !! record) as [w|]; [|done]. cbn. unfold primitive. cbn. by destruct (field_value field w).
  - cbn [arun eval]. rewrite run_fields_pure.
    + rewrite zip_fields. destruct (mapM (λ p, eval ρ p.2) fields); done.
    + intros [f e] Hin. rewrite Forall_forall in IH. apply (IH e); [by apply (list_elem_of_fmap_2 snd _ (f, e))|].
      rewrite forallb_elem in Hok. apply (Hok _ Hin).
  - cbn [arun eval]. rewrite (run_all_pure _ (eval ρ)); [by destruct (mapM (eval ρ) elems)|].
    intros e Hin. rewrite Forall_forall in IH. apply IH; [done|]. rewrite forallb_elem in Hok. by apply Hok.
  - destruct payload as [p|]; [|done]. apply Forall_cons in IH as [IH _]. cbn. rewrite IH by done. by destruct (eval ρ p).
  - cbn [arun eval]. rewrite (run_all_pure _ (eval ρ)); [by destruct (mapM (eval ρ) elems)|].
    intros e Hin. rewrite Forall_forall in IH. apply IH; [done|]. rewrite forallb_elem in Hok. by apply Hok.
  - apply Forall_cons in IH as [IH _]. cbn. destruct (ρ !! left) as [w|]; [|done]. cbn. destruct (as_word w) as [z|]; [|done]. cbn.
    destruct (decide (z = 0%Z)) as [->|Hz]; [done|]. rewrite bool_decide_true by done. by apply IH.
  - apply Forall_cons in IH as [IH _]. cbn. destruct (ρ !! left) as [w|]; [|done]. cbn. destruct (as_word w) as [z|]; [|done]. cbn.
    destruct (decide (z = 0%Z)) as [->|Hz]; [by apply IH|]. by rewrite bool_decide_true.
Qed.
End Pure.

Lemma pure_lits e : anf_pure e = true → lits_ok e.
Proof.
  induction e as [e IH] using AnfExpr_children_ind. intros Hok. constructor.
  - intros lit ->. by apply bool_decide_eq_true in Hok.
  - apply Forall_forall. intros c Hc. rewrite Forall_forall in IH. apply IH; [done|].
    destruct e; cbn [anf_pure children] in *; try done; try (by apply not_elem_of_nil in Hc);
      try (destruct payload as [p|]; [|by apply not_elem_of_nil in Hc]);
      try (apply andb_true_iff in Hok as [? ?]); try (apply list_elem_of_singleton in Hc as ->; done);
      try (apply elem_of_cons in Hc as [->|Hc%list_elem_of_singleton]; by subst);
      try (rewrite forallb_elem in Hok; by apply Hok).
    apply list_elem_of_fmap in Hc as ([f c'] & -> & Hin). rewrite forallb_elem in Hok. by apply (Hok _ Hin).
Qed.

(* ------------------------------------------------------------------ *)
(** ** Pure expressions lower to pure ANF *)

Section LowerPure.
Context (source_ref : NodeRef).
Abbreviation low e := (low_local (lower_expr source_ref e)).
Abbreviation atom e := (atomize_local (lower_expr source_ref) e).

Definition temp_pure (b : option Temp) : Prop := match b with Some (_, a) => anf_pure a = true | None => True end.

Lemma wrap_binding_pure b body : temp_pure b → anf_pure body = true → anf_pure (wrap_binding b body) = true.
Proof. destruct b as [[x a]|]; [|done]. cbn. by intros -> ->. Qed.

Lemma wrap_pure {A} (f : A → option Temp) l body :
  (∀ a, a ∈ l → temp_pure (f a)) → anf_pure body = true → anf_pure (wrap_local_bindings (omap f l) body) = true.
Proof.
  induction l as [|a l IH]; intros Hl Hb; [done|]. rewrite (wrap_atom f). apply wrap_binding_pure; [apply Hl; left|].
  apply IH; [|done]. intros x Hx. apply Hl. by right.
Qed.

Definition lowers_pure (e : CoreExpr) : Prop := core_pure e = true → ∀ n, anf_pure (low e n).1 = true.

Lemma atom_pure e : lowers_pure e → core_pure e = true → ∀ n, temp_pure (atom e n).1.2.
Proof.
  intros He Hok n. specialize (He Hok n). destruct (var_or_not e) as [[x ->]|Hv]; [done|]. unfold atomize_local.
  destruct (low e n) as [a n']. by destruct e.
Qed.

Lemma atoms_pure l :
  Forall lowers_pure l → forallb core_pure l = true →
  ∀ n a, a ∈ (map_state (atomize_local (lower_expr source_ref)) l n).1 → temp_pure a.2.
Proof.
  induction 1 as [|e l He Hl IH]; intros Hok n a; [by intros ?%not_elem_of_nil|]. cbn [forallb] in Hok.
  apply andb_true_iff in Hok as [Hok Hok']. rewrite map_state_cons. pose proof (atom_pure e He Hok n) as Ha.
  destruct (atom e n) as [x n1]. specialize (IH Hok' n1). destruct (map_state _ l n1) as [xs n2]. cbn in *.
  intros [->|Hin]%elem_of_cons; [done|]. by apply IH.
Qed.

Lemma list_pure l (mk : list string → AnfExpr) n :
  Forall lowers_pure l → forallb core_pure l = true → (∀ names, anf_pure (mk names) = true) →
  anf_pure (let '(names, bindings, n) := atomize_args (lower_expr source_ref) l n in (wrap_local_bindings bindings (mk names), n)).1 = true.
Proof.
  intros Hl Hok Hmk. unfold atomize_args. pose proof (atoms_pure l Hl Hok n) as Ha. destruct (map_state _ l n) as [atoms n'].
  apply wrap_pure; [|done]. intros a Hin. by apply Ha.
Qed.

Lemma vars_pure names : forallb anf_pure (AVar <$> names) = true.
Proof. by induction names. Qed.

Lemma binary_pure func a b n :
  lowers_pure a → lowers_pure b → core_pure a && core_pure b = true →
  anf_pure (lower_core_binary_to_anf (lower_expr source_ref) func a b n).1 = true.
Proof.
  intros Ha Hb [Hoka Hokb]%andb_true_iff. unfold lower_core_binary_to_anf. pose proof (atom_pure a Ha Hoka n) as Hpa.
  destruct (atom a n) as [[x bx] n1]. pose proof (atom_pure b Hb Hokb n1) as Hpb. destruct (atom b n1) as [[y b'] n2].
  apply wrap_pure; [|done]. cbn in Hpa, Hpb. intros t [->|[->|?%not_elem_of_nil]%elem_of_cons]%elem_of_cons; done.
Qed.

Lemma lower_pure e : lowers_pure e.
Proof.
  induction e as [e IH] using CoreExpr_children_ind. intros Hok n. rewrite lower_expr_unfold. cbn [low_local].
  destruct e; try discriminate Hok; cbn [core_children core_pure] in *;
    try (split_children IH; cbn [local_arm]; by apply binary_pure).
  - done.
  - done.
  - split_children IH. apply andb_true_iff in Hok as [H1 H2]. cbn [local_arm]. pose proof (IHe H1 n) as Hp1.
    destruct (low e1 n) as [a n1]. pose proof (IHe0 H2 n1) as Hp2. destruct (low e2 n1). cbn in *. by rewrite Hp1, Hp2.
  - split_children IH. apply andb_true_iff in Hok as [[H1 H2]%andb_true_iff H3]. cbn [local_arm]. pose proof (atom_pure e1 IHe H1 n) as Hp1.
    destruct (atom e1 n) as [[x b] n1]. pose proof (IHe0 H2 n1) as Hp2. destruct (low e2 n1) as [t n2]. pose proof (IHe1 H3 n2) as Hp3.
    destruct (low e3 n2). apply wrap_binding_pure; [done|]. cbn in *. by rewrite Hp2, Hp3.
  - by apply (list_pure args (ACall func)).
  - split_children IH. cbn [local_arm]. unfold lower_core_unary_to_anf. pose proof (atom_pure e IHe Hok n) as Hp.
    destruct (atom e n) as [[x b] n1]. apply (wrap_pure id [b]); [|done]. by intros t [->|?%not_elem_of_nil]%elem_of_cons.
  - cbn [local_arm]. rewrite fields_atoms. assert (forallb core_pure fields.*2 = true) as Hf.
    { clear -Hok. induction fields as [|[f e] l IH]; [done|]. cbn in *. apply andb_true_iff in Hok as [-> ?]. by apply IH. }
    pose proof (atoms_pure _ IH Hf n) as Ha. destruct (map_state _ fields.*2 n) as [atoms n']. apply wrap_pure.
    + intros [f a] Hin. apply Ha. apply elem_of_zip_r in Hin. done.
    + cbn [anf_pure]. generalize (zip fields.*1 atoms). clear. intros l. by induction l.
  - split_children IH. cbn [local_arm]. pose proof (atom_pure e IHe Hok n) as Hp. destruct (atom e n) as [[x b] n1]. by apply wrap_binding_pure.
  - apply (list_pure elems (λ xs, ATupleNew (AVar <$> xs))); [done|done|apply vars_pure].
  - cbn [local_arm]. destruct payload as [e|]; [|done]. split_children IH. pose proof (atom_pure e IHe Hok n) as Hp.
    destruct (atom e n) as [[x b] n1]. apply (wrap_pure id [b]); [|done]. by intros t [->|?%not_elem_of_nil]%elem_of_cons.
  - apply (list_pure elems (λ xs, AListNew (AVar <$> xs))); [done|done|apply vars_pure].
  - split_children IH. apply andb_true_iff in Hok as [H1 H2]. cbn [local_arm]. pose proof (atom_pure e1 IHe H1 n) as Hp1.
    destruct (atom e1 n) as [[x b] n1]. pose proof (IHe0 H2 n1) as Hp2. destruct (low e2 n1). by apply wrap_binding_pure.
  - split_children IH. apply andb_true_iff in Hok as [H1 H2]. cbn [local_arm]. pose proof (atom_pure e1 IHe H1 n) as Hp1.
    destruct (atom e1 n) as [[x b] n1]. pose proof (IHe0 H2 n1) as Hp2. destruct (low e2 n1). by apply wrap_binding_pure.
Qed.
End LowerPure.

(* ------------------------------------------------------------------ *)
(** ** The front end *)

Section Compile.
Context `{Encoding, FoldingLaws}.
#[local] Open Scope N_scope.

Definition node_ok (c : CoreNode) : bool := from_option core_ok true (cn_expr c).
Definition node_temps (c : CoreNode) : N := from_option temps 0 (cn_expr c).

(** The binding of a node is its lowering, from a counter that does not wrap. *)
Lemma lowered_node nodes n i c e :
  forallb node_ok nodes = true → n + sum_by node_temps nodes < 2 ^ 32 → nodes !! i = Some c → cn_expr c = Some e →
  ∃ m, m + temps e < 2 ^ 32 ∧
    (map_state map_core_node_to_anf nodes n).1 !! i =
    Some (MkAnfBinding (cn_source_ref c) (cn_name c) (lower_core_expr_to_anf_local (cn_source_ref c) e m).1).
Proof.
  revert n i. induction nodes as [|c0 l IH]; intros n i Hok Hn Hi He; [done|]. cbn [forallb] in Hok.
  apply andb_true_iff in Hok as [Hok0 Hok]. rewrite sum_by_cons in Hn. rewrite map_state_cons.
  assert (∃ b n1, map_core_node_to_anf c0 n = (b, n1) ∧ n ≤ n1 ≤ n + node_temps c0 ∧
    ∀ e, cn_expr c0 = Some e → b = MkAnfBinding (cn_source_ref c0) (cn_name c0) (lower_core_expr_to_anf_local (cn_source_ref c0) e n).1)
    as (b & n1 & -> & Hb & Hbe).
  { unfold map_core_node_to_anf, node_ok, node_temps in *. destruct (cn_expr c0) as [e0|]; cbn in *.
    - destruct (keeps_all (M := @pure_machine H0) (cn_source_ref c0) e0 Hok0 n) as (a & n1 & Hl & Hbd & _); [lia|].
      unfold lower_core_expr_to_anf_local. rewrite Hl. do 2 eexists. split; [done|]. split; [done|]. intros e1 [= <-]. by rewrite Hl.
    - do 2 eexists. split; [done|]. split; [lia|done]. }
  destruct i as [|i].
  - injection Hi as ->. exists n. split; [unfold node_temps in Hn; rewrite He in Hn; cbn in Hn; lia|].
    destruct (map_state map_core_node_to_anf l n1). cbn. by rewrite (Hbe e He).
  - destruct (IH n1 i Hok) as (m & Hm & Hl); [lia|done|done|]. exists m. split; [done|].
    by destruct (map_state map_core_node_to_anf l n1).
Qed.

Lemma body_parsed f e :
  node_body_expr f = Some (source_text e) → source_ok e = true → expr_from_graph_node f = Ok (Some e).
Proof.
  intros Hb Hok. unfold expr_from_graph_node. rewrite Hb. destruct (source_parses e Hok) as [Hs _].
  assert (starts_with "@" (str_trim_start (source_text e)) = false) as ->.
  { apply not_true_iff_false. assert (str_trim_start (source_text e) = source_text e) as ->.
    { destruct (source_text e) as [|c s]; [done|]. apply str_trim_start_graphic. by destruct Hs. }
    rewrite starts_with_iff. intros (r & Hr). rewrite Hr in Hs. by destruct Hs as (_ & _ & []). }
  unfold parse_expr. destruct (source_parses e Hok) as [_ Hp].
  pose proof (Hp float_bits (len (source_text e)) (2 * len (source_text e) + 2)%nat "") as Hq. rewrite append_empty in Hq.
  by rewrite Hq.
Qed.

(** C4: The front end preserves meaning.  Let a graph compile, let every body of it satisfy [core_ok] (no source name has
    the form of a temporary, [anf_N], returned values are variables, and there are no lambdas, dispatches, tasks, channels
    or resources), and let all bodies together need fewer than 2^32 temporaries.  Then, for a function whose body is the
    text of an expression in source form ([source_ok]) without effects, loops and early exits and with literals in range
    ([core_pure]), and for a scope in which that expression evaluates to a value, the function's binding evaluates to the
    same value in that scope, after parsing, lowering, constant folding and the removal of dead lets. *)
Theorem compiled_function_sound g report core anf i f e fuel (ρ : Scope) v :
  lower_to_core_ir g report = Ok core → lower_to_anf_with_graph core g = Ok anf →
  forallb node_ok (ci_nodes core) = true → sum_by node_temps (ci_nodes core) < 2 ^ 32 →
  graph_nodes g !! i = Some f → node_kind f = NkFunction → node_body_expr f = Some (source_text e) →
  source_ok e = true → core_pure e = true →
  crun (M := pure_machine) fuel ρ e tt = Some (OVal (M := pure_machine) v, tt) →
  ∃ b, ai_bindings anf !! i = Some b ∧ ab_source_ref b = node_id f ∧ ab_name b = node_name f ∧ eval ρ (ab_expr b) = Some v.
Proof.
  intros Hc Ha Hok Hn Hf Hk Hb Hsrc Hpure Hrun. apply lower_to_core_ir_Ok in Hc as (_ & _ & Hnodes & _).
  destruct (Forall2_lookup_l _ _ _ _ _ Hnodes Hf) as (c & Hci & Hc). apply core_node_Ok in Hc as (Hr & Hnm & He & _).
  specialize (He Hk). rewrite (body_parsed f e Hb Hsrc) in He. injection He as He. symmetry in He.
  destruct (lowered_node _ 0 i c e Hok) as (m & Hm & Hl); [lia|done|done|].
  assert (core_ok e = true) as Hcore.
  { rewrite forallb_elem in Hok. specialize (Hok c). unfold node_ok in Hok. rewrite He in Hok. apply Hok.
    by eapply list_elem_of_lookup_2. }
  apply lower_to_anf_impl_Ok in Ha as (-> & _). unfold optimize_bindings. rewrite list_lookup_fmap, Hl. eexists. split; [done|].
  cbn [ab_source_ref ab_name ab_expr]. split; [done|]. split; [done|]. set (a := (lower_core_expr_to_anf_local _ e m).1).
  assert (anf_pure a = true) as Hp by by apply lower_pure.
  apply optimize_expr_sound; [by apply pure_lits|by intros ? ?; rewrite lookup_empty|].
  destruct (keeps_all (M := pure_machine) (cn_source_ref c) e Hcore m Hm) as (a' & n' & Hla & _ & Hs).
  assert (a' = a) as -> by (subst a; unfold lower_core_expr_to_anf_local; by rewrite Hla).
  specialize (Hs fuel ρ ρ tt _ (λ _ _, eq_refl) Hrun). rewrite arun_eval in Hs by done. by destruct (eval ρ a); simplify_eq/=.
Qed.
End Compile.

(* ------------------------------------------------------------------ *)
(** ** A compiled function of a small graph *)

Module CompileSample.
Import FrontendSample.
#[local] Existing Instance FrontendSample.lengths.

Definition main_expr : CoreExpr := CLet "a" (CLiteral (LInt 20)) (CAdd (CVar "a") (CVar "x")).

Lemma main_runs :
  crun (M := pure_machine) 0 {["x" := VWord 22]} main_expr tt = Some (OVal (M := pure_machine) (VWord 42), tt).
Proof.
  assert (call_function "add" [VWord 20; VWord 22] = Some (VWord 42)) as Hadd.
  { apply (call_folds "add" [20%Z; 22%Z] (LInt 42)); [|reflexivity]. repeat constructor; vm_compute; intuition discriminate. }
  unfold main_expr. cbn [crun and_then].
  rewrite lookup_insert_eq. cbn [mbind option_bind and_then]. rewrite lookup_insert_ne, lookup_singleton_eq by done.
  cbn [mbind option_bind and_then]. unfold primitive. cbn -[call_function]. rewrite Hadd. done.
Qed.

Lemma compiled_function_sound_witness :
  node_body_expr main_node = Some (source_text main_expr) ∧
  ∃ b, ai_bindings app_anf !! 0%nat = Some b ∧ eval {["x" := VWord 22]} (ab_expr b) = Some (VWord 42).
Proof.
  split; [vm_compute; reflexivity|].
  destruct (compiled_function_sound app_graph empty_report app_core app_anf 0 main_node main_expr 0 {["x" := VWord 22]} (VWord 42)
    (proj1 app_compiles) (proj2 app_compiles)) as (b & Hb & _ & _ & Hv).
  - vm_compute. reflexivity.
  - vm_compute. reflexivity.
  - reflexivity.
  - reflexivity.
  - vm_compute. reflexivity.
  - vm_compute. reflexivity.
  - vm_compute. reflexivity.
  - exact main_runs.
  - exists b. split; [exact Hb|exact Hv].
Defined.
End CompileSample.
