(* ===== verification/ContextTypes.v ===== *)
(** * Context queries and responses

    ail-context/src/dto/ and error.rs: queries with their budgets, responses
    with every field, and the errors.  Hashes are byte lists; [usize] and [u64]
    are [N]. *)

From stdpp Require Import pretty gmap.
From S2P Require Import Prelude Text Ordering GraphTypes SemanticGraph ChangeModel Remote.

(* ------------------------------------------------------------------ *)
(** ** Errors *)

Inductive ContextError : Type :=
| CtxStale
| CtxNodeNotFound
| CtxInvalidBudget
| CtxCodec (message : string)
| CtxAccessDenied
| CtxBudgetExceeded
| CtxIndexStale
| CtxSnapshotNotFound
| CtxRedactionRequired
| CtxQueryAmbiguous.
#[global] Instance ContextError_eq_dec : EqDecision ContextError.
Proof. solve_decision. Defined.

Definition context_error_text (e : ContextError) : string :=
  match e with
  | CtxStale => "E_CONTEXT_STALE: snapshot or graph root not found in store"
  | CtxNodeNotFound => "E_NODE_NOT_FOUND: queried node ref absent from graph"
  | CtxInvalidBudget => "E_INVALID_BUDGET: budget must be greater than zero"
  | CtxCodec msg => "E_CODEC: " +:+ msg
  | CtxAccessDenied => "E_ACCESS_DENIED: caller lacks permission to access this context slice"
  | CtxBudgetExceeded =>
      "E_BUDGET_EXCEEDED: budget exhausted before any node could be included; increase the budget or narrow the query scope"
  | CtxIndexStale => "E_INDEX_STALE: derived index is behind the current snapshot; rebuild the index and retry"
  | CtxSnapshotNotFound => "E_SNAPSHOT_NOT_FOUND: requested snapshot id not found in store"
  | CtxRedactionRequired => "E_REDACTION_REQUIRED: redaction policy required to access this context slice"
  | CtxQueryAmbiguous => "E_QUERY_AMBIGUOUS: query target matches multiple nodes; narrow the query"
  end.

(* ------------------------------------------------------------------ *)
(** ** Queries *)

Definition usize_max : N := 18446744073709551615.

Record QueryBudget : Type := MkQueryBudget {
  qb_max_depth : option N;
  qb_max_nodes : option N;
  qb_max_tokens : N;
  qb_include_private : bool;
  qb_include_transitive : bool;
  qb_include_runtime_logs : bool;
  qb_profile : option string;
}.

Definition query_budget_default : QueryBudget := MkQueryBudget None None usize_max false true false None.
Definition query_budget_bytes (bytes : N) : QueryBudget := MkQueryBudget None None bytes false true false None.
Definition effective_bytes (b : QueryBudget) : N := qb_max_tokens b.

Inductive SnapshotSelector : Type := ById (id : ObjectId) | Latest.
Inductive QueryScope : Type := ScopeLocal | ScopeFull.

Inductive ContextQuery : Type :=
| QNode (target : NodeRef) (scope : QueryScope) (budget : QueryBudget)
| QGraph (scope : QueryScope) (budget : QueryBudget)
| QImpact (target : NodeRef) (budget : QueryBudget)
| QCallers (target : NodeRef) (transitive : bool) (budget : QueryBudget)
| QCallees (target : NodeRef) (transitive : bool) (budget : QueryBudget)
| QEffects (target : NodeRef) (budget : QueryBudget)
| QContracts (target : NodeRef) (budget : QueryBudget)
| QHistory (target : NodeRef) (budget : QueryBudget)
| QProofs (target : NodeRef) (budget : QueryBudget)
| QResources (target : NodeRef) (budget : QueryBudget)
| QBoundaries (target : NodeRef) (budget : QueryBudget)
| QWhy (target : NodeRef) (budget : QueryBudget)
| QRefactorContext (target : NodeRef) (budget : QueryBudget)
| QRuntime (target : NodeRef) (profile : string) (budget : QueryBudget)
| QDiff (snapshot_a snapshot_b : option ObjectId) (budget : QueryBudget)
| QRisks (target : NodeRef) (budget : QueryBudget)
| QTodo (target : NodeRef) (budget : QueryBudget)
| QCapabilities (target : NodeRef) (profile : string) (budget : QueryBudget)
| QHandlers (target : NodeRef) (profile : string) (budget : QueryBudget)
| QConcurrency (target : NodeRef) (budget : QueryBudget)
| QTasks (target : NodeRef) (budget : QueryBudget)
| QAssumptions (target : NodeRef) (budget : QueryBudget)
| QExtractCandidates (target : NodeRef) (budget : QueryBudget)
| QMoveSafety (target destination : NodeRef) (budget : QueryBudget).

Definition query_budget (q : ContextQuery) : QueryBudget :=
  match q with
  | QNode _ _ b | QGraph _ b | QImpact _ b | QCallers _ _ b | QCallees _ _ b | QEffects _ b | QContracts _ b
  | QHistory _ b | QProofs _ b | QResources _ b | QBoundaries _ b | QWhy _ b | QRefactorContext _ b
  | QRuntime _ _ b | QDiff _ _ b | QRisks _ b | QTodo _ b | QCapabilities _ _ b | QHandlers _ _ b
  | QConcurrency _ b | QTasks _ b | QAssumptions _ b | QExtractCandidates _ b | QMoveSafety _ _ b => b
  end.

Definition query_bytes (q : ContextQuery) : N := effective_bytes (query_budget q).

Definition query_target (q : ContextQuery) : option NodeRef :=
  match q with
  | QNode t _ _ | QImpact t _ | QCallers t _ _ | QCallees t _ _ | QEffects t _ | QContracts t _ | QHistory t _
  | QProofs t _ | QResources t _ | QBoundaries t _ | QWhy t _ | QRefactorContext t _ | QRuntime t _ _ | QRisks t _
  | QTodo t _ | QCapabilities t _ _ | QHandlers t _ _ | QConcurrency t _ | QTasks t _ | QAssumptions t _
  | QExtractCandidates t _ | QMoveSafety t _ _ => Some t
  | QGraph _ _ | QDiff _ _ _ => None
  end.

(* ------------------------------------------------------------------ *)
(** ** Responses *)

Record ImpactInfo : Type := MkImpactInfo {
  ii_affected_tests : list NodeRef;
  ii_affected_capabilities : list NodeRef;
  ii_affected_public_apis : list NodeRef;
  ii_required_reverification : N;
  ii_risk_level : string;
}.

Record RefactorInfo : Type := MkRefactorInfo {
  ri_behavior_locks_needed : list NodeRef;
  ri_contracts_to_preserve : list NodeRef;
  ri_effects_to_preserve : list NodeRef;
  ri_callers_to_update : list NodeRef;
  ri_proofs_to_rerun : list NodeRef;
  ri_possible_conflicts : list NodeRef;
  ri_suggested_refactor_ops : list string;
}.

Record ContextRepairOption : Type := MkContextRepairOption {
  cro_option_id : string;
  cro_description : string;
  cro_suggested_query : option string;
}.

Inductive FreshnessStatus : Type := FsFresh | FsStale | FsUnknown.

Record ResponseLimits : Type := MkResponseLimits {
  rl_budget_bytes : N;
  rl_bytes_used : N;
  rl_truncated : bool;
  rl_omitted_sections : list string;
}.

Inductive RedactionState : Type := RdNone | RdPartial | RdRestricted.

Record RedactionPolicy : Type := MkRedactionPolicy {
  rp_label : string;
  rp_categories : list string;
  rp_requires_approval : bool;
}.

Record IndexInfo : Type := MkIndexInfo {
  ix_kind : string;
  ix_hash : list N;
  ix_stale : bool;
}.

Record ProvenanceBlock : Type := MkProvenanceBlock {
  pb_sources : list string;
  pb_indexes : list IndexInfo;
  pb_reports : list (list N);
}.

Record RedactedDescriptor : Type := MkRedactedDescriptor {
  rd_node_ref : NodeRef;
  rd_ordinal : option N;
}.

Record BundleDescriptor : Type := MkBundleDescriptor {
  bd_node_ref : option NodeRef;
  bd_edge_source : option NodeRef;
  bd_edge_target : option NodeRef;
  bd_edge_kind : option string;
  bd_ordinal : option N;
}.
#[global] Instance BundleDescriptor_eq_dec : EqDecision BundleDescriptor.
Proof. solve_decision. Defined.

Record BundleIssue : Type := MkBundleIssue {
  bi_code : string;
  bi_descriptor : BundleDescriptor;
}.
#[global] Instance BundleIssue_eq_dec : EqDecision BundleIssue.
Proof. solve_decision. Defined.

(** The derived order of [BundleIssue] *)
Definition bundle_issue_key (i : BundleIssue)
  : string * option N * option N * option N * option string * option N :=
  let d := bi_descriptor i in
  (bi_code i, bd_node_ref d, bd_edge_source d, bd_edge_target d, bd_edge_kind d, bd_ordinal d).

Record SliceResponse : Type := MkSliceResponse {
  cr_schema : string;
  cr_snapshot : SnapshotEnvelope;
  cr_graph_root_hash : ObjectId;
  cr_query_hash : list N;
  cr_context_hash : list N;
  cr_structured : list GraphNode;
  cr_summary : string;
  cr_freshness : N;
  cr_generated_at : N;
  cr_redacted : bool;
  cr_redacted_descriptors : list RedactedDescriptor;
  cr_diagnostics : list BundleIssue;
  cr_redaction_state : RedactionState;
  cr_redaction_policy : option RedactionPolicy;
  cr_truncated : bool;
  cr_limits : ResponseLimits;
  cr_history_entries : list SnapshotEnvelope;
  cr_freshness_status : FreshnessStatus;
  cr_provenance : ProvenanceBlock;
  cr_repair_options : list ContextRepairOption;
  cr_impact_info : option ImpactInfo;
  cr_refactor_info : option RefactorInfo;
}.

(** [{:?}] of kinds *)
Definition node_kind_debug (k : NodeKind) : string :=
  match k with
  | NkModule => "Module" | NkFunction => "Function" | NkType => "Type" | NkEffect => "Effect"
  | NkCapability => "Capability" | NkContract => "Contract" | NkInvariant => "Invariant" | NkTest => "Test"
  | NkBoundary => "Boundary" | NkPackage => "Package" | NkInterface => "Interface" | NkImpl => "Impl"
  | NkEffectAlias => "EffectAlias" | NkImport => "Import" | NkExport => "Export"
  | NkVersionConstraint => "VersionConstraint" | NkCapabilityExport => "CapabilityExport"
  | NkContractExport => "ContractExport"
  end.

Definition edge_kind_debug (k : EdgeKind) : string :=
  match k with
  | EkCalls => "Calls" | EkDynCalls => "DynCalls" | EkReads => "Reads" | EkWrites => "Writes" | EkEmits => "Emits"
  | EkDependsOn => "DependsOn" | EkProves => "Proves" | EkBreaksIfChanged => "BreaksIfChanged"
  | EkConsumes => "Consumes" | EkReleases => "Releases" | EkSpawnedBy => "SpawnedBy" | EkChildOf => "ChildOf"
  | EkSafeCapability => "SafeCapability"
  end.
