(* ===== verification/ContextSelection.v ===== *)
(** * Context selection

    ail-context/src/selection.rs: the nodes each query selects, the history
    chain of snapshots, and the impact and refactoring classifications.  The
    traversal loops carry fuel; [walk_exact] shows that it suffices and that
    they find what is reachable. *)

From stdpp Require Import pretty gmap.
From S2P Require Import Prelude Text Ordering GraphTypes SemanticGraph ChangeModel Remote Search ContextTypes.

#[local] Existing Instance NodeRef_eq_dec | 0.

(* ------------------------------------------------------------------ *)
(** ** Traversals *)

(** The variables of a traversal loop: [bfs_forward] pushes a reference when it takes it from the queue ([popped]),
    the filtered loops when they visit it ([found]). *)
Record Walk : Type := MkWalk {
  wk_visited : gset NodeRef;
  wk_queue : list NodeRef;
  wk_popped : list NodeRef;
  wk_found : list NodeRef;
}.

Definition reach (w : Walk) (y : NodeRef) : Walk :=
  if decide (y ∈ wk_visited w) then w
  else MkWalk ({[ y ]} ∪ wk_visited w) (wk_queue w ++ [y]) (wk_popped w) (wk_found w ++ [y]).

Section Loop.
Context (next : NodeRef → GraphEdge → list NodeRef) (edges : list GraphEdge).

(** [while let Some(cur) = queue.pop_front()] *)
Fixpoint walk (fuel : nat) (w : Walk) : option Walk :=
  match wk_queue w with
  | [] => Some w
  | cur :: rest =>
      match fuel with
      | O => None
      | S fuel' =>
          walk fuel' (foldl reach (MkWalk (wk_visited w) rest (wk_popped w ++ [cur]) (wk_found w))
                        (neighbours next edges cur))
      end
  end.

Definition walk_start (start : NodeRef) : Walk := MkWalk {[ start ]} [start] [] [].

Definition walk_from (start : NodeRef) : Walk :=
  default (walk_start start) (walk (S (2 * length edges)) (walk_start start)).
End Loop.

Definition along_any (cur : NodeRef) (e : GraphEdge) : list NodeRef :=
  if decide (edge_source e = cur) then [edge_target e] else [].

Definition along (kinds : list EdgeKind) (cur : NodeRef) (e : GraphEdge) : list NodeRef :=
  if decide (edge_source e = cur ∧ edge_kind e ∈ kinds) then [edge_target e] else [].

Definition against (kinds : list EdgeKind) (cur : NodeRef) (e : GraphEdge) : list NodeRef :=
  if decide (edge_target e = cur ∧ edge_kind e ∈ kinds) then [edge_source e] else [].

(** [graph.nodes.iter().map(|n| (n.id, n)).collect()]: the last node of an id wins. *)
Definition node_map_of (g : SemanticGraph) : gmap NodeRef GraphNode :=
  foldl (λ m n, <[node_id n := n]> m) ∅ (graph_nodes g).

Section Selection.
Context (g : SemanticGraph).

Definition known_nodes (refs : list NodeRef) : list GraphNode := omap (λ r, node_map_of g !! r) refs.

Definition bfs_forward (start : NodeRef) : list GraphNode :=
  known_nodes (sort_on id (wk_popped (walk_from along_any (graph_edges g) start))).

Definition bfs_filtered (start : NodeRef) (kinds : list EdgeKind) : list GraphNode :=
  known_nodes (sort_on id (wk_found (walk_from (along kinds) (graph_edges g) start))).

Definition direct_forward (start : NodeRef) (kinds : list EdgeKind) : list GraphNode :=
  known_nodes (set_iter (list_to_set (neighbours (along kinds) (graph_edges g) start) : gset NodeRef)).

Definition reverse_bfs (start : NodeRef) (kinds : list EdgeKind) : list GraphNode :=
  known_nodes (sort_on id (wk_found (walk_from (against kinds) (graph_edges g) start))).

Definition direct_reverse (start : NodeRef) (kinds : list EdgeKind) : list GraphNode :=
  known_nodes (set_iter (list_to_set (neighbours (against kinds) (graph_edges g) start) : gset NodeRef)).
End Selection.

(** [v.dedup_by_key(|n| n.id)] *)
Fixpoint dedup_after (id : NodeRef) (l : list GraphNode) : list GraphNode :=
  match l with
  | [] => []
  | n :: l' => if decide (node_id n = id) then dedup_after id l' else n :: dedup_after (node_id n) l'
  end.

Definition dedup_by_id (l : list GraphNode) : list GraphNode :=
  match l with
  | [] => []
  | n :: l' => n :: dedup_after (node_id n) l'
  end.

(** [insert(0, target); dedup_by_key; sort_by_key] *)
Definition with_target (target : GraphNode) (l : list GraphNode) : list GraphNode :=
  sort_on node_id (dedup_by_id (target :: l)).

(** [sort_by_key; dedup_by_key] *)
Definition merged (l : list GraphNode) : list GraphNode := dedup_by_id (sort_on node_id l).

(* ------------------------------------------------------------------ *)
(** ** History *)

Definition snapshot_index (all : list SnapshotEnvelope) : gmap ObjectId SnapshotEnvelope :=
  foldl (λ m s, <[se_id s := s]> m) ∅ all.

(** [depth] counts down from [max_depth + 1]. *)
Fixpoint history_from (depth : nat) (index : gmap ObjectId SnapshotEnvelope) (snap : SnapshotEnvelope)
  : list SnapshotEnvelope :=
  match depth with
  | O => []
  | S depth' =>
      snap :: match se_parent_id snap ≫= (λ pid, index !! pid) with
              | Some parent => history_from depth' index parent
              | None => []
              end
  end.

Definition build_history_chain (current : SnapshotEnvelope) (all : list SnapshotEnvelope) : list SnapshotEnvelope :=
  rev (history_from (S (S (length all))) (snapshot_index all) current).

(* ------------------------------------------------------------------ *)
(** ** Candidates *)

Definition is_boundary (n : GraphNode) : Prop := node_kind n = NkBoundary.

Definition external_caller (g : SemanticGraph) (inner : gset NodeRef) (target : NodeRef) (n : GraphNode) (e : GraphEdge)
  : bool :=
  bool_decide (edge_target e = node_id n ∧ edge_kind e = EkCalls ∧ (edge_source e ∉ inner) ∧ edge_source e ≠ target).

Definition IMPACT_KINDS : list EdgeKind := [EkBreaksIfChanged; EkDependsOn; EkCalls; EkReads; EkWrites].
Definition CALL_KINDS : list EdgeKind := [EkCalls; EkDynCalls].

(** What a query on an existing target selects *)
Definition target_candidates (q : ContextQuery) (g : SemanticGraph) (t : NodeRef) (n : GraphNode) : list GraphNode :=
  match q with
  | QNode _ ScopeLocal _ => [n]
  | QNode _ ScopeFull _ => bfs_forward g t
  | QGraph _ _ | QDiff _ _ _ => []
  | QImpact _ _ => reverse_bfs g t IMPACT_KINDS
  | QCallers _ transitive _ => if transitive then reverse_bfs g t CALL_KINDS else direct_reverse g t CALL_KINDS
  | QCallees _ transitive _ => if transitive then bfs_filtered g t CALL_KINDS else direct_forward g t CALL_KINDS
  | QEffects _ _ => with_target n (bfs_filtered g t [EkEmits])
  | QContracts _ _ => [n]
  | QHistory _ _ => [n]
  | QProofs _ _ => with_target n (bfs_filtered g t [EkProves])
  | QResources _ _ => with_target n (bfs_filtered g t [EkReads; EkWrites])
  | QBoundaries _ _ => with_target n (filter is_boundary (bfs_forward g t))
  | QWhy _ _ => with_target n (bfs_filtered g t [EkProves; EkBreaksIfChanged])
  | QRefactorContext _ _ =>
      merged (n :: reverse_bfs g t CALL_KINDS ++ bfs_filtered g t [EkProves] ++ bfs_filtered g t [EkEmits])
  | QRuntime _ _ _ => with_target n (bfs_filtered g t [EkEmits])
  | QRisks _ _ => with_target n (bfs_filtered g t [EkBreaksIfChanged])
  | QTodo _ _ => with_target n (bfs_filtered g t [EkProves])
  | QCapabilities _ _ _ => with_target n (bfs_filtered g t [EkEmits; EkDependsOn])
  | QHandlers _ _ _ => with_target n (reverse_bfs g t [EkCalls])
  | QConcurrency _ _ => with_target n (bfs_filtered g t [EkReads; EkWrites; EkCalls; EkDynCalls])
  | QTasks _ _ => with_target n (bfs_filtered g t [EkCalls; EkEmits])
  | QAssumptions _ _ => with_target n (filter is_boundary (bfs_forward g t))
  | QExtractCandidates _ _ =>
      let inner_set := bfs_filtered g t [EkCalls; EkDependsOn] in
      let inner_refs : gset NodeRef := list_to_set (node_id <$> inner_set) in
      with_target n (filter (λ m, existsb (external_caller g inner_refs t m) (graph_edges g) = false) inner_set)
  | QMoveSafety _ destination _ =>
      merged (n :: option_list (node_map_of g !! destination) ++ reverse_bfs g t [EkCalls]
              ++ bfs_filtered g t [EkProves] ++ bfs_filtered g t [EkEmits])
  end.

Definition query_history (q : ContextQuery) (snapshot : SnapshotEnvelope) (all : list SnapshotEnvelope)
  : list SnapshotEnvelope :=
  match q with
  | QHistory _ _ | QWhy _ _ => build_history_chain snapshot all
  | _ => []
  end.

Definition collect_candidates_with_history (q : ContextQuery) (g : SemanticGraph) (snapshot : SnapshotEnvelope)
    (all : list SnapshotEnvelope) : result (list GraphNode * list SnapshotEnvelope) ContextError :=
  match query_target q with
  | None => Ok (sort_on node_id (graph_nodes g), [])
  | Some t =>
      match node_map_of g !! t with
      | None => Err CtxNodeNotFound
      | Some n => Ok (target_candidates q g t n, query_history q snapshot all)
      end
  end.

(* ------------------------------------------------------------------ *)
(** ** Impact and refactoring *)

Definition refs_where (P : GraphNode → Prop) `{!∀ n, Decision (P n)} (l : list GraphNode) : list NodeRef :=
  node_id <$> filter P l.

Definition is_obligation (n : GraphNode) : Prop := node_kind n = NkContract ∨ node_kind n = NkInvariant.
#[global] Instance is_obligation_dec n : Decision (is_obligation n).
Proof. unfold is_obligation. apply _. Defined.

Definition risk_level (risk_count : nat) : string :=
  match risk_count with
  | 0 => "none"
  | 1 | 2 | 3 => "low"
  | 4 | 5 | 6 | 7 | 8 | 9 | 10 => "medium"
  | _ => "high"
  end.

Definition compute_impact_info (affected : list GraphNode) : ImpactInfo :=
  let public := refs_where (λ n, node_visibility n = Some VisPublic) affected in
  let required := length (filter is_obligation affected) in
  MkImpactInfo (refs_where (λ n, node_kind n = NkTest) affected)
    (refs_where (λ n, node_kind n = NkCapability) affected) public (N.of_nat required)
    (risk_level (length public + required)).

Definition has_edge (g : SemanticGraph) (P : GraphEdge → Prop) `{!∀ e, Decision (P e)} : bool :=
  existsb (λ e, bool_decide (P e)) (graph_edges g).

Definition compute_refactor_info (structured : list GraphNode) (target : NodeRef) (g : SemanticGraph) : RefactorInfo :=
  MkRefactorInfo
    (refs_where (λ n, node_workflow_state n = Some WsLocked) structured)
    (refs_where is_obligation structured)
    (refs_where (λ n, node_kind n = NkEffect ∨ node_kind n = NkEffectAlias) structured)
    (refs_where (λ n, node_id n ≠ target ∧
       has_edge g (λ e, edge_source e = node_id n ∧ edge_target e = target ∧ edge_kind e = EkCalls) = true) structured)
    (refs_where (λ n, has_edge g (λ e, edge_source e = target ∧ edge_target e = node_id n ∧ edge_kind e = EkProves) = true)
       structured)
    (refs_where (λ n, node_id n ≠ target ∧
       has_edge g (λ e, (edge_source e = node_id n ∨ edge_target e = node_id n) ∧ edge_kind e = EkBreaksIfChanged) = true)
       structured)
    [].

(* ------------------------------------------------------------------ *)
(** ** The loops find what is reachable *)

Section WalkExact.
Context (next : NodeRef → GraphEdge → list NodeRef) (edges : list GraphEdge) (start : NodeRef).

Definition walk_inv (w : Walk) : Prop :=
  wk_popped w ++ wk_queue w = start :: wk_found w ∧ NoDup (start :: wk_found w) ∧
  ∀ x, x ∈ start :: wk_found w ↔ x ∈ wk_visited w.

Lemma reach_all ys w :
  walk_inv w →
  walk_inv (foldl reach w ys) ∧ wk_popped (foldl reach w ys) = wk_popped w ∧
  (wk_visited (foldl reach w ys), wk_queue (foldl reach w ys)) = foldl visit (wk_visited w, wk_queue w) ys.
Proof.
  revert w. induction ys as [|y ys IH]; intros w Hw; [done|]. cbn [foldl].
  assert (walk_inv (reach w y) ∧ wk_popped (reach w y) = wk_popped w ∧
    (wk_visited (reach w y), wk_queue (reach w y)) = visit (wk_visited w, wk_queue w) y) as (Hr & Hp & Hv).
  { unfold reach, visit. cbn [fst snd]. case_decide as Hy; [done|]. split_and!; [|done..].
    destruct Hw as (Hq & Hd & He). split_and!; cbn.
    - by rewrite app_assoc, Hq.
    - rewrite app_comm_cons. apply NoDup_app. split_and!; [done| |apply NoDup_singleton].
      intros x Hx ->%list_elem_of_singleton. by apply Hy, He.
    - intros x. rewrite app_comm_cons, elem_of_app, He, list_elem_of_singleton, elem_of_union, elem_of_singleton. tauto. }
  destruct (IH _ Hr) as (Hi & Hpp & Hvv). split_and!; [done|congruence|]. by rewrite Hvv, Hv.
Qed.

Lemma walk_bfs fuel w res :
  walk_inv w → bfs next edges fuel (wk_visited w) (wk_queue w) = Some res →
  ∃ w', walk next edges fuel w = Some w' ∧ walk_inv w' ∧ wk_queue w' = [] ∧ wk_visited w' = res.
Proof.
  revert w. induction fuel as [|fuel IH]; intros [seen [|cur rest] popped found] Hw Hb; cbn in Hb |- *.
  1,3: injection Hb as <-; by eexists.
  - done.
  - assert (walk_inv (MkWalk seen rest (popped ++ [cur]) found)) as Hw'.
    { destruct Hw as (Hq & ? & ?). split_and!; [|done..]. cbn in *. by rewrite <- Hq, <- app_assoc. }
    destruct (reach_all (neighbours next edges cur) _ Hw') as (Hi & _ & Hv). cbn in Hv. rewrite <- Hv in Hb.
    by apply IH.
Qed.

Lemma walk_exact :
  (∀ x e y, y ∈ next x e → y = edge_source e ∨ y = edge_target e) →
  let w := walk_from next edges start in
  wk_popped w = start :: wk_found w ∧ NoDup (wk_popped w) ∧
  ∀ x, x ∈ wk_popped w ↔ rtc (adjacent next edges) start x.
Proof.
  intros Hn w. destruct (bfs_exact next edges start Hn) as (res & Hb & _ & Hres).
  destruct (walk_bfs (S (2 * length edges)) (walk_start start) res) as (w' & Hw & (Hq & Hd & He) & Hqueue & Hv); [|done|].
  { split_and!; [done|apply NoDup_singleton|]. intros x. cbn [walk_start wk_found wk_visited].
    by rewrite elem_of_singleton, list_elem_of_singleton. }
  assert (w = w') as ->. { unfold w, walk_from. by rewrite Hw. }
  rewrite Hqueue, app_nil_r in Hq. rewrite Hq. split_and!; [done..|]. intros x. by rewrite He, Hv, Hres.
Qed.
End WalkExact.

(** Edges of given kinds, between references *)
Definition follows (g : SemanticGraph) (kinds : list EdgeKind) (x y : NodeRef) : Prop :=
  ∃ e, e ∈ graph_edges g ∧ edge_source e = x ∧ edge_target e = y ∧ edge_kind e ∈ kinds.
Definition linked (g : SemanticGraph) (x y : NodeRef) : Prop :=
  ∃ e, e ∈ graph_edges g ∧ edge_source e = x ∧ edge_target e = y.

Lemma adjacent_any g x y : adjacent along_any (graph_edges g) x y ↔ linked g x y.
Proof.
  unfold adjacent, neighbours, linked. rewrite list_elem_of_bind. unfold along_any. split.
  - intros (e & Hy & He). case_decide; [|by apply not_elem_of_nil in Hy]. apply list_elem_of_singleton in Hy. eauto.
  - intros (e & He & <- & <-). exists e. rewrite decide_True by done. split; [by left|done].
Qed.

Lemma adjacent_along g kinds x y : adjacent (along kinds) (graph_edges g) x y ↔ follows g kinds x y.
Proof.
  unfold adjacent, neighbours, follows. rewrite list_elem_of_bind. unfold along. split.
  - intros (e & Hy & He). case_decide as Hd; [|by apply not_elem_of_nil in Hy]. apply list_elem_of_singleton in Hy.
    destruct Hd. eauto 6.
  - intros (e & He & <- & <- & Hk). exists e. rewrite decide_True by done. split; [by left|done].
Qed.

Lemma adjacent_against g kinds x y : adjacent (against kinds) (graph_edges g) x y ↔ follows g kinds y x.
Proof.
  unfold adjacent, neighbours, follows. rewrite list_elem_of_bind. unfold against. split.
  - intros (e & Hy & He). case_decide as Hd; [|by apply not_elem_of_nil in Hy]. apply list_elem_of_singleton in Hy.
    destruct Hd. eauto 6.
  - intros (e & He & <- & <- & Hk). exists e. rewrite decide_True by done. split; [by left|done].
Qed.

Lemma along_any_ends x e y : y ∈ along_any x e → y = edge_source e ∨ y = edge_target e.
Proof. unfold along_any. case_decide; [intros ->%list_elem_of_singleton; by right|by intros ?%not_elem_of_nil]. Qed.
Lemma along_ends kinds x e y : y ∈ along kinds x e → y = edge_source e ∨ y = edge_target e.
Proof. unfold along. case_decide; [intros ->%list_elem_of_singleton; by right|by intros ?%not_elem_of_nil]. Qed.
Lemma against_ends kinds x e y : y ∈ against kinds x e → y = edge_source e ∨ y = edge_target e.
Proof. unfold against. case_decide; [intros ->%list_elem_of_singleton; by left|by intros ?%not_elem_of_nil]. Qed.

(* ------------------------------------------------------------------ *)
(** ** What the helpers select *)

(** The node that [node_map_of] has under its own reference *)
Definition known (g : SemanticGraph) (n : GraphNode) : Prop := node_map_of g !! node_id n = Some n.

Lemma node_map_fold l (m : gmap NodeRef GraphNode) r n :
  foldl (λ m n, <[node_id n := n]> m) m l !! r = Some n → (node_id n = r ∧ n ∈ l) ∨ m !! r = Some n.
Proof.
  revert m. induction l as [|x l IH]; intros m; cbn [foldl]; [by right|]. intros [[Hi Hin]|H]%IH; [left; split; [done|by right]|].
  apply lookup_insert_Some in H as [[<- <-]|[_ ?]]; [left; split; [done|by left]|by right].
Qed.

Lemma node_map_known g r n : node_map_of g !! r = Some n → node_id n = r ∧ known g n.
Proof.
  intros H. destruct (node_map_fold _ _ _ _ H) as [[<- _]|H']; [by split|]. by rewrite lookup_empty in H'.
Qed.

Lemma known_in_graph g n : known g n → n ∈ graph_nodes g.
Proof. intros H. destruct (node_map_fold _ _ _ _ H) as [[_ ?]|H']; [done|]. by rewrite lookup_empty in H'. Qed.

Lemma known_nodes_elem g refs n : n ∈ known_nodes g refs ↔ known g n ∧ node_id n ∈ refs.
Proof.
  unfold known_nodes. rewrite list_elem_of_omap. split.
  - intros (r & Hr & Hn). apply node_map_known in Hn as [<- Hk]. done.
  - intros [Hk Hr]. exists (node_id n). by split.
Qed.

Lemma known_nodes_known g refs : Forall (known g) (known_nodes g refs).
Proof. apply Forall_forall. by intros n [Hk _]%known_nodes_elem. Qed.

Lemma known_nodes_sorted g refs :
  StronglySorted (on_le id) refs → StronglySorted (on_le node_id) (known_nodes g refs).
Proof.
  unfold known_nodes. induction 1 as [|r refs Hs IH Hall]; [constructor|]. cbn [omap list_omap].
  destruct (node_map_of g !! r) as [n|] eqn:E; [|done]. constructor; [done|].
  apply Forall_forall. intros m Hm. apply known_nodes_elem in Hm as [_ Hm]. rewrite Forall_forall in Hall.
  apply node_map_known in E as [<- _]. exact (Hall _ Hm).
Qed.

Lemma rtc_swap {A} (R : relation A) x y : rtc (λ a b, R b a) x y ↔ rtc R y x.
Proof.
  split; intros H; [induction H as [|a b c Hab _ IH]; [done|by eapply rtc_r]|].
  induction H as [|a b c Hab _ IH]; [done|by eapply rtc_r].
Qed.

Section Helpers.
Context (g : SemanticGraph) (t : NodeRef) (n : GraphNode).

Lemma bfs_forward_elem : n ∈ bfs_forward g t ↔ known g n ∧ rtc (linked g) t (node_id n).
Proof.
  unfold bfs_forward. rewrite known_nodes_elem, sort_on_elem.
  destruct (walk_exact along_any (graph_edges g) t along_any_ends) as (_ & _ & ->).
  by rewrite (rtc_iff _ _ _ _ (adjacent_any g)).
Qed.

Lemma found_elem next x :
  (∀ x e y, y ∈ next x e → y = edge_source e ∨ y = edge_target e) →
  x ∈ wk_found (walk_from next (graph_edges g) t) ↔ x ≠ t ∧ rtc (adjacent next (graph_edges g)) t x.
Proof.
  intros Hn. destruct (walk_exact next (graph_edges g) t Hn) as (Hp & Hd & He). rewrite <- He, Hp.
  rewrite Hp in Hd. apply NoDup_cons in Hd as [Hd _]. rewrite elem_of_cons. split; [|tauto].
  intros Hx. split; [by intros ->|by right].
Qed.

Lemma bfs_filtered_elem kinds :
  n ∈ bfs_filtered g t kinds ↔ known g n ∧ node_id n ≠ t ∧ rtc (follows g kinds) t (node_id n).
Proof.
  unfold bfs_filtered. rewrite known_nodes_elem, sort_on_elem, found_elem by apply along_ends.
  by rewrite (rtc_iff _ _ _ _ (adjacent_along g kinds)).
Qed.

Lemma reverse_bfs_elem kinds :
  n ∈ reverse_bfs g t kinds ↔ known g n ∧ node_id n ≠ t ∧ rtc (follows g kinds) (node_id n) t.
Proof.
  unfold reverse_bfs. rewrite known_nodes_elem, sort_on_elem, found_elem by apply against_ends.
  by rewrite (rtc_iff _ (λ a b, follows g kinds b a) _ _ (adjacent_against g kinds)), rtc_swap.
Qed.

Lemma direct_forward_elem kinds : n ∈ direct_forward g t kinds ↔ known g n ∧ follows g kinds t (node_id n).
Proof.
  unfold direct_forward. rewrite known_nodes_elem, set_iter_elem, elem_of_list_to_set.
  by rewrite <- adjacent_along.
Qed.

Lemma direct_reverse_elem kinds : n ∈ direct_reverse g t kinds ↔ known g n ∧ follows g kinds (node_id n) t.
Proof.
  unfold direct_reverse. rewrite known_nodes_elem, set_iter_elem, elem_of_list_to_set.
  by rewrite <- adjacent_against.
Qed.
End Helpers.

(** Lists whose nodes are told apart by their references *)
Definition by_reference (l : list GraphNode) : Prop := ∀ x y, x ∈ l → y ∈ l → node_id x = node_id y → x = y.

Lemma known_by_reference g l : Forall (known g) l → by_reference l.
Proof.
  intros H x y Hx Hy Hid. rewrite Forall_forall in H. pose proof (H _ Hx) as Hkx. pose proof (H _ Hy) as Hky.
  unfold known in *. rewrite Hid in Hkx. congruence.
Qed.

Lemma dedup_after_elem p l x : by_reference (p :: l) → x ∈ p :: dedup_after (node_id p) l ↔ x ∈ p :: l.
Proof.
  revert p. induction l as [|y l IH]; intros p Hr; [done|]. cbn [dedup_after].
  assert (by_reference (p :: l)) as Hpl by (intros a b Ha Hb; apply Hr; revert Ha Hb; rewrite !elem_of_cons; tauto).
  assert (by_reference (y :: l)) as Hyl by (intros a b Ha Hb; apply Hr; by right).
  case_decide as Hid.
  - assert (y = p) as -> by (apply Hr; [by right; left|by left|done]). rewrite IH by done. rewrite !elem_of_cons. tauto.
  - rewrite (elem_of_cons (y :: l)), <- (IH y Hyl). by rewrite elem_of_cons.
Qed.

Lemma dedup_by_id_elem l x : by_reference l → x ∈ dedup_by_id l ↔ x ∈ l.
Proof. destruct l as [|p l]; [done|]. intros H. by apply dedup_after_elem. Qed.

Lemma with_target_elem g p l x :
  known g p → Forall (known g) l → x ∈ with_target p l ↔ x = p ∨ x ∈ l.
Proof.
  intros Hp Hl. unfold with_target. rewrite sort_on_elem, dedup_by_id_elem, elem_of_cons; [done|].
  apply (known_by_reference g). by constructor.
Qed.

Lemma merged_elem g l x : Forall (known g) l → x ∈ merged l ↔ x ∈ l.
Proof.
  intros Hl. unfold merged. rewrite dedup_by_id_elem, sort_on_elem; [done|].
  apply (known_by_reference g). by rewrite sort_on_perm.
Qed.

(* ------------------------------------------------------------------ *)
(** ** What each query selects *)

(** No call from outside: every caller is the target or a known node reached from it *)
Definition called_inside (g : SemanticGraph) (t : NodeRef) (n : GraphNode) : Prop :=
  ∀ c, follows g [EkCalls] c (node_id n) →
    c = t ∨ (rtc (follows g [EkCalls; EkDependsOn]) t c ∧ is_Some (node_map_of g !! c)).

Definition selected (q : ContextQuery) (g : SemanticGraph) (t : NodeRef) (n : GraphNode) : Prop :=
  let from kinds := rtc (follows g kinds) t (node_id n) in
  let into kinds := rtc (follows g kinds) (node_id n) t in
  match q with
  | QNode _ ScopeLocal _ | QContracts _ _ | QHistory _ _ => node_id n = t
  | QNode _ ScopeFull _ => rtc (linked g) t (node_id n)
  | QGraph _ _ | QDiff _ _ _ => False
  | QImpact _ _ => node_id n ≠ t ∧ into [EkBreaksIfChanged; EkDependsOn; EkCalls; EkReads; EkWrites]
  | QCallers _ true _ => node_id n ≠ t ∧ into [EkCalls; EkDynCalls]
  | QCallers _ false _ => follows g [EkCalls; EkDynCalls] (node_id n) t
  | QCallees _ true _ => node_id n ≠ t ∧ from [EkCalls; EkDynCalls]
  | QCallees _ false _ => follows g [EkCalls; EkDynCalls] t (node_id n)
  | QEffects _ _ | QRuntime _ _ _ => from [EkEmits]
  | QProofs _ _ | QTodo _ _ => from [EkProves]
  | QResources _ _ => from [EkReads; EkWrites]
  | QBoundaries _ _ | QAssumptions _ _ =>
      node_id n = t ∨ (node_kind n = NkBoundary ∧ rtc (linked g) t (node_id n))
  | QWhy _ _ => from [EkProves; EkBreaksIfChanged]
  | QRefactorContext _ _ => into [EkCalls; EkDynCalls] ∨ from [EkProves] ∨ from [EkEmits]
  | QRisks _ _ => from [EkBreaksIfChanged]
  | QCapabilities _ _ _ => from [EkEmits; EkDependsOn]
  | QHandlers _ _ _ => into [EkCalls]
  | QConcurrency _ _ => from [EkReads; EkWrites; EkCalls; EkDynCalls]
  | QTasks _ _ => from [EkCalls; EkEmits]
  | QExtractCandidates _ _ => node_id n = t ∨ (from [EkCalls; EkDependsOn] ∧ called_inside g t n)
  | QMoveSafety _ destination _ => node_id n = destination ∨ into [EkCalls] ∨ from [EkProves] ∨ from [EkEmits]
  end.

Lemma known_filter g (P : GraphNode → Prop) `{!∀ n, Decision (P n)} l : Forall (known g) l → Forall (known g) (filter P l).
Proof. rewrite !Forall_forall. intros Hl x [_ Hx]%list_elem_of_filter. auto. Qed.

Section Candidates.
Context (g : SemanticGraph) (t : NodeRef) (p : GraphNode).
Hypothesis Hp : node_map_of g !! t = Some p.

Lemma target_known : known g p.
Proof. by apply node_map_known in Hp as [_ ?]. Qed.

Lemma is_target x : x = p ↔ known g x ∧ node_id x = t.
Proof.
  apply node_map_known in Hp as Hp'. destruct Hp' as [Hid Hk]. split; [by intros ->|]. intros [Hx Hxt].
  unfold known in Hx. rewrite Hxt in Hx. congruence.
Qed.

(** The target beside what is reached from it, or reaches it *)
Lemma target_or P x :
  (node_id x = t → P) → x = p ∨ (known g x ∧ node_id x ≠ t ∧ P) ↔ known g x ∧ P.
Proof. intros HP. rewrite is_target. destruct (decide (node_id x = t)); tauto. Qed.

Lemma with_reached kinds x :
  x ∈ with_target p (bfs_filtered g t kinds) ↔ known g x ∧ rtc (follows g kinds) t (node_id x).
Proof.
  rewrite (with_target_elem g) by (apply target_known || apply known_nodes_known).
  rewrite bfs_filtered_elem. apply target_or. by intros ->.
Qed.

Lemma with_boundaries x :
  x ∈ with_target p (filter is_boundary (bfs_forward g t)) ↔
  known g x ∧ (node_id x = t ∨ (node_kind x = NkBoundary ∧ rtc (linked g) t (node_id x))).
Proof.
  rewrite (with_target_elem g);
    [|apply target_known|apply known_filter, known_nodes_known].
  rewrite list_elem_of_filter, bfs_forward_elem, is_target. unfold is_boundary. tauto.
Qed.

Lemma inner_elem c :
  c ∈ (list_to_set (node_id <$> bfs_filtered g t [EkCalls; EkDependsOn]) : gset NodeRef) ↔
  c ≠ t ∧ rtc (follows g [EkCalls; EkDependsOn]) t c ∧ is_Some (node_map_of g !! c).
Proof.
  rewrite elem_of_list_to_set, list_elem_of_fmap. setoid_rewrite bfs_filtered_elem. split.
  - intros (m & -> & Hk & Hne & Hr). split_and!; [done..|]. by eexists.
  - intros (Hne & Hr & [m Hm]). apply node_map_known in Hm as [<- Hk]. by exists m.
Qed.

Lemma extract_elem_iff x :
  x ∈ target_candidates (QExtractCandidates t query_budget_default) g t p ↔
  known g x ∧ (node_id x = t ∨ (rtc (follows g [EkCalls; EkDependsOn]) t (node_id x) ∧ called_inside g t x)).
Proof.
  cbn [target_candidates]. set (inner := list_to_set _).
  rewrite (with_target_elem g); [|apply target_known|apply known_filter, known_nodes_known].
  rewrite list_elem_of_filter, bfs_filtered_elem.
  assert (existsb (external_caller g inner t x) (graph_edges g) = false ↔ called_inside g t x) as ->.
  { rewrite <- not_true_iff_false, existsb_exists. unfold called_inside, follows. split.
    - intros Hn c (e & He & <- & Ht & Hk%list_elem_of_singleton). destruct (decide (edge_source e = t)); [by left|right].
      destruct (decide (edge_source e ∈ inner)) as [Hi|Hi]; [by apply inner_elem in Hi as (_ & ? & ?)|].
      destruct Hn. exists e. split; [by apply list_elem_of_In|]. by apply bool_decide_eq_true.
    - intros Hc (e & He%list_elem_of_In & (Ht & Hk & Hi & Hne)%bool_decide_eq_true).
      destruct (Hc (edge_source e)) as [?|[Hr Hs]]; [|done|].
      { exists e. split_and!; try done. rewrite Hk. by left. }
      apply Hi, inner_elem. done. }
  rewrite is_target. destruct (decide (node_id x = t)); tauto.
Qed.

Lemma candidates_elem q x :
  query_target q = Some t → x ∈ target_candidates q g t p ↔ known g x ∧ selected q g t x.
Proof.
  intros Hq. pose proof target_known as Hk.
  destruct q as [? []|?|?|? []|? []|?|?|?|?|?|?|?|?|?|?|?|?|?|?|?|?|?|?|?]; try done; cbn [target_candidates selected];
    rewrite ?bfs_forward_elem, ?reverse_bfs_elem, ?bfs_filtered_elem, ?direct_forward_elem, ?direct_reverse_elem,
      ?list_elem_of_singleton, ?is_target, ?with_reached, ?with_boundaries; try done.
  - rewrite (merged_elem g) by (constructor; [done|rewrite !Forall_app; split_and!; apply known_nodes_known]).
    rewrite elem_of_cons, !elem_of_app, reverse_bfs_elem, !bfs_filtered_elem, is_target.
    destruct (decide (node_id x = t)) as [Ht|]; [|tauto]. assert (rtc (follows g [EkProves]) t (node_id x)) by (by rewrite Ht). tauto.
  - rewrite (with_target_elem g) by (done || apply known_nodes_known). rewrite reverse_bfs_elem. apply target_or. by intros ->.
  - apply extract_elem_iff.
  - rewrite (merged_elem g).
    + rewrite elem_of_cons, !elem_of_app, reverse_bfs_elem, !bfs_filtered_elem, is_target.
      assert (x ∈ option_list (node_map_of g !! destination) ↔ known g x ∧ node_id x = destination) as ->.
      { destruct (node_map_of g !! destination) as [m|] eqn:E; cbn.
        - rewrite list_elem_of_singleton. apply node_map_known in E as Hm. destruct Hm as [Hm Hkm]. split; [by intros ->|].
          intros [Hx Hd]. unfold known in Hx. rewrite Hd in Hx. congruence.
        - rewrite elem_of_nil. split; [done|]. intros [Hx <-]. unfold known in Hx. congruence. }
      destruct (decide (node_id x = t)) as [Ht|]; [|tauto]. assert (rtc (follows g [EkProves]) t (node_id x)) by (by rewrite Ht). tauto.
    + constructor; [done|]. rewrite !Forall_app. split_and!; try apply known_nodes_known.
      destruct (node_map_of g !! destination) as [m|] eqn:E; cbn; [|constructor].
      constructor; [|constructor]. by apply node_map_known in E as [_ ?].
Qed.
End Candidates.

(* ------------------------------------------------------------------ *)
(** ** Order and duplicates *)

Lemma dedup_after_sub id l x : x ∈ dedup_after id l → x ∈ l.
Proof.
  revert id. induction l as [|y l IH]; intros id; cbn [dedup_after]; [done|].
  case_decide; rewrite ?elem_of_cons; naive_solver.
Qed.

Lemma dedup_after_sorted id l :
  StronglySorted (on_le node_id) l → Forall (λ n, cmp_le id (node_id n)) l →
  StronglySorted (on_lt node_id) (dedup_after id l) ∧ Forall (λ n, cmp_lt id (node_id n)) (dedup_after id l).
Proof.
  intros Hs. revert id. induction Hs as [|y l Hs IH Hall]; intros id Hid; cbn [dedup_after]; [by split; constructor|].
  apply Forall_cons in Hid as [Hy Hl]. case_decide as He; [by apply IH|].
  destruct (IH (node_id y) Hall) as [Hs' Hf]. assert (cmp_lt id (node_id y)) as Hlt.
  { apply cmp_le_lt in Hy as [Hy|]; [|done]. congruence. }
  split; constructor; try done. eapply Forall_impl; [exact Hf|]. intros n Hn. by etrans.
Qed.

Lemma merged_strict l : StronglySorted (on_lt node_id) (merged l).
Proof.
  unfold merged. pose proof (sort_on_sorted node_id l) as Hs. destruct (sort_on node_id l) as [|p l']; [constructor|].
  inv Hs as [|? ? Hs' Hall]. destruct (dedup_after_sorted (node_id p) l' Hs' Hall). by constructor.
Qed.

Lemma dedup_after_id id l : NoDup (id :: (node_id <$> l)) → dedup_after id l = l.
Proof.
  revert id. induction l as [|y l IH]; intros id; [done|]. cbn [fmap list_fmap dedup_after].
  rewrite !NoDup_cons, elem_of_cons. intros (Hn & Hy & Hd). rewrite decide_False by (intros <-; tauto).
  f_equal. apply IH. by constructor.
Qed.

Lemma known_nodes_NoDup g refs : NoDup refs → NoDup (node_id <$> known_nodes g refs).
Proof.
  intros Hd. unfold known_nodes. induction Hd as [|r refs Hr Hd IH]; [constructor|]. cbn [omap list_omap].
  destruct (node_map_of g !! r) as [n|] eqn:E; [|done]. cbn [fmap list_fmap]. constructor; [|done].
  rewrite list_elem_of_fmap. intros (m & Hm & Hin). apply known_nodes_elem in Hin as [_ Hin].
  apply node_map_known in E as [<- _]. by rewrite Hm in Hr.
Qed.

Lemma with_target_NoDup p l :
  NoDup (node_id <$> l) → (∀ x, x ∈ l → node_id x ≠ node_id p) → NoDup (node_id <$> with_target p l).
Proof.
  intros Hd Hp. unfold with_target. rewrite sort_on_perm. cbn [dedup_by_id].
  assert (NoDup (node_id p :: (node_id <$> l))) as Hn.
  { constructor; [|done]. rewrite list_elem_of_fmap. intros (x & Hx & Hin). by apply (Hp x). }
  by rewrite dedup_after_id.
Qed.

(** The queries that list the target twice when it is a boundary *)
Definition boundary_listing (q : ContextQuery) (p : GraphNode) : Prop :=
  match q with
  | QBoundaries _ _ | QAssumptions _ _ => node_kind p = NkBoundary
  | _ => False
  end.

Lemma found_NoDup next g t :
  (∀ x e y, y ∈ next x e → y = edge_source e ∨ y = edge_target e) →
  NoDup (wk_found (walk_from next (graph_edges g) t)).
Proof.
  intros Hn. destruct (walk_exact next (graph_edges g) t Hn) as (Hp & Hd & _). rewrite Hp in Hd. by apply NoDup_cons in Hd as [_ ?].
Qed.

Lemma filter_NoDup_ids (P : GraphNode → Prop) `{!∀ n, Decision (P n)} l :
  NoDup (node_id <$> l) → NoDup (node_id <$> filter P l).
Proof.
  induction l as [|x l IH]; [done|]. cbn [fmap list_fmap]. rewrite NoDup_cons. intros [Hx Hd].
  rewrite filter_cons. case_decide; [|by apply IH]. cbn [fmap list_fmap]. constructor; [|by apply IH].
  rewrite list_elem_of_fmap. intros (y & Hy & [_ Hin]%list_elem_of_filter). apply Hx. rewrite Hy. by apply list_elem_of_fmap_2.
Qed.

Section Distinct.
Context (g : SemanticGraph) (t : NodeRef) (p : GraphNode).
Hypothesis Hp : node_map_of g !! t = Some p.

Lemma bfs_filtered_NoDup kinds : NoDup (node_id <$> bfs_filtered g t kinds).
Proof. apply known_nodes_NoDup. rewrite sort_on_perm. apply found_NoDup, along_ends. Qed.
Lemma reverse_bfs_NoDup kinds : NoDup (node_id <$> reverse_bfs g t kinds).
Proof. apply known_nodes_NoDup. rewrite sort_on_perm. apply found_NoDup, against_ends. Qed.
Lemma bfs_forward_NoDup : NoDup (node_id <$> bfs_forward g t).
Proof.
  apply known_nodes_NoDup. rewrite sort_on_perm.
  by destruct (walk_exact along_any (graph_edges g) t along_any_ends) as (_ & ? & _).
Qed.

Lemma with_reached_NoDup kinds : NoDup (node_id <$> with_target p (bfs_filtered g t kinds)).
Proof.
  apply with_target_NoDup; [apply bfs_filtered_NoDup|]. intros x (_ & Hx & _)%bfs_filtered_elem.
  apply node_map_known in Hp as [-> _]. done.
Qed.

Lemma candidates_NoDup q : ¬ boundary_listing q p → NoDup (node_id <$> target_candidates q g t p).
Proof.
  intros Hb. apply node_map_known in Hp as Hid. destruct Hid as [Hid Hk].
  assert (∀ l, StronglySorted (on_lt node_id) l → NoDup (node_id <$> l)) as Hst by apply strictly_sorted_keys.
  assert (node_kind p ≠ NkBoundary → NoDup (node_id <$> with_target p (filter is_boundary (bfs_forward g t)))) as Hbd.
  { intros Hnb. apply with_target_NoDup; [by apply filter_NoDup_ids, bfs_forward_NoDup|].
    intros x [Hx [Hkx _]%bfs_forward_elem]%list_elem_of_filter Hxp. apply Hnb.
    assert (x = p) as -> by (eapply is_target; [exact Hp|]; split; congruence). done. }
  destruct q as [? []|?|?|? []|? []|?|?|?|?|?|?|?|?|?|?|?|?|?|?|?|?|?|?|?]; cbn [target_candidates boundary_listing] in *;
    try lazymatch goal with
        | |- NoDup (node_id <$> with_target p (bfs_filtered _ _ _)) => apply with_reached_NoDup
        | |- NoDup (node_id <$> bfs_filtered _ _ _) => apply bfs_filtered_NoDup
        | |- NoDup (node_id <$> reverse_bfs _ _ _) => apply reverse_bfs_NoDup
        | |- NoDup (node_id <$> bfs_forward _ _) => apply bfs_forward_NoDup
        | |- NoDup (node_id <$> merged _) => apply Hst, merged_strict
        | |- NoDup (node_id <$> direct_forward _ _ _) => apply known_nodes_NoDup, set_iter_NoDup
        | |- NoDup (node_id <$> direct_reverse _ _ _) => apply known_nodes_NoDup, set_iter_NoDup
        | |- NoDup (node_id <$> [_]) => apply NoDup_singleton
        | |- NoDup (node_id <$> []) => constructor
        | |- NoDup (node_id <$> with_target p (filter is_boundary _)) => by apply Hbd
        end.
  - apply with_target_NoDup; [apply reverse_bfs_NoDup|]. intros x (_ & Hx & _)%reverse_bfs_elem. by rewrite Hid.
  - apply with_target_NoDup; [by apply filter_NoDup_ids, bfs_filtered_NoDup|].
    intros x [_ (_ & Hx & _)%bfs_filtered_elem]%list_elem_of_filter. by rewrite Hid.
Qed.

End Distinct.

Lemma sort_nested_sorted refs g : StronglySorted (on_le node_id) (known_nodes g (sort_on id refs)).
Proof. apply known_nodes_sorted, sort_on_sorted. Qed.

Lemma strict_sorted {A K} `{CmpLaws K} (key : A → K) l : StronglySorted (on_lt key) l → StronglySorted (on_le key) l.
Proof.
  induction 1 as [|x l Hs IH Hall]; constructor; [done|]. eapply Forall_impl; [exact Hall|].
  intros y Hy. apply cmp_le_lt. by right.
Qed.

Lemma set_nodes_sorted g (s : gset NodeRef) : StronglySorted (on_le node_id) (known_nodes g (set_iter s)).
Proof. apply known_nodes_sorted. unfold set_iter. apply sort_on_sorted. Qed.

Lemma candidates_sorted q g t p : StronglySorted (on_le node_id) (target_candidates q g t p).
Proof.
  destruct q as [? []|?|?|? []|? []|?|?|?|?|?|?|?|?|?|?|?|?|?|?|?|?|?|?|?]; cbn [target_candidates];
    lazymatch goal with
    | |- StronglySorted _ (with_target _ _) => apply sort_on_sorted
    | |- StronglySorted _ (merged _) => apply strict_sorted, merged_strict
    | |- StronglySorted _ (direct_forward _ _ _) => apply set_nodes_sorted
    | |- StronglySorted _ (direct_reverse _ _ _) => apply set_nodes_sorted
    | |- StronglySorted _ [_] => repeat constructor
    | |- StronglySorted _ [] => constructor
    | |- _ => apply sort_nested_sorted
    end.
Qed.

(** The candidates of a query on a target that exists *)
Lemma selection_reachable q g snapshot all t cs h :
  query_target q = Some t → collect_candidates_with_history q g snapshot all = Ok (cs, h) →
  (∀ n, n ∈ cs ↔ known g n ∧ selected q g t n) ∧
  StronglySorted (on_le node_id) cs ∧
  (∀ p, known g p → node_id p = t → ¬ boundary_listing q p → NoDup (node_id <$> cs)).
Proof.
  intros Hq. unfold collect_candidates_with_history. rewrite Hq. destruct (node_map_of g !! t) as [p|] eqn:Hp; [|done].
  intros [= <- <-]. split_and!.
  - intros n. by apply candidates_elem.
  - apply candidates_sorted.
  - intros p' Hk Ht. assert (p' = p) as -> by (by eapply is_target; [exact Hp|]). by apply candidates_NoDup.
Qed.

(** The kinds of query whose documented answer is the one computed: their table of edge kinds, without a filter on the
    nodes.  The documentation of the others (impact, refactoring, todo, capabilities, handlers, tasks, assumptions,
    extraction, moves) asks for something else. *)
Definition documented (q : ContextQuery) : Prop :=
  match q with
  | QNode _ _ _ | QCallers _ _ _ | QCallees _ _ _ | QEffects _ _ | QContracts _ _ | QHistory _ _ | QProofs _ _
  | QResources _ _ | QBoundaries _ _ | QWhy _ _ | QRuntime _ _ _ | QRisks _ _ | QConcurrency _ _ => True
  | _ => False
  end.

(** A budget that bounds the bytes alone: no bound on the depth or on the number of nodes, private nodes included, and
    transitive relationships followed just when the query follows them. *)
Definition transitive_query (q : ContextQuery) : bool :=
  match q with
  | QCallers _ transitive _ | QCallees _ transitive _ => transitive
  | _ => true
  end.
Definition bytes_only (q : ContextQuery) : Prop :=
  qb_max_depth (query_budget q) = None ∧ qb_max_nodes (query_budget q) = None ∧
  qb_include_private (query_budget q) = true ∧ qb_include_transitive (query_budget q) = transitive_query q.

(** What a query asks for, after its documentation: calls are edges of kind [Calls], and the target is not among its own
    callers and callees. *)
Definition asked (q : ContextQuery) (g : SemanticGraph) (t : NodeRef) (n : GraphNode) : Prop :=
  let from kinds := rtc (follows g kinds) t (node_id n) in
  match q with
  | QNode _ ScopeFull _ => rtc (linked g) t (node_id n)
  | QCallers _ true _ => node_id n ≠ t ∧ rtc (follows g [EkCalls]) (node_id n) t
  | QCallers _ false _ => node_id n ≠ t ∧ follows g [EkCalls] (node_id n) t
  | QCallees _ true _ => node_id n ≠ t ∧ from [EkCalls]
  | QCallees _ false _ => node_id n ≠ t ∧ follows g [EkCalls] t (node_id n)
  | QEffects _ _ | QRuntime _ _ _ => from [EkEmits]
  | QProofs _ _ => from [EkProves]
  | QResources _ _ => from [EkReads; EkWrites]
  | QBoundaries _ _ => node_id n = t ∨ (node_kind n = NkBoundary ∧ rtc (linked g) t (node_id n))
  | QWhy _ _ => from [EkProves; EkBreaksIfChanged]
  | QRisks _ _ => from [EkBreaksIfChanged]
  | QConcurrency _ _ => from [EkReads; EkWrites; EkCalls]
  | _ => node_id n = t
  end.

(** The two cases in which the answer departs from the documentation: calls through an interface are followed as calls,
    and a function that calls itself is its own direct caller. *)
Definition plain_calls (q : ContextQuery) (g : SemanticGraph) (t : NodeRef) : Prop :=
  match q with
  | QCallers _ transitive _ | QCallees _ transitive _ =>
      (∀ e, e ∈ graph_edges g → edge_kind e ≠ EkDynCalls) ∧ (transitive = false → ¬ follows g [EkCalls] t t)
  | QConcurrency _ _ => ∀ e, e ∈ graph_edges g → edge_kind e ≠ EkDynCalls
  | _ => True
  end.

Lemma node_map_some l n (m : gmap NodeRef GraphNode) :
  n ∈ l ∨ is_Some (m !! node_id n) → is_Some (foldl (λ m n, <[node_id n := n]> m) m l !! node_id n).
Proof.
  revert m. induction l as [|x l IH]; intros m; cbn [foldl]; [by intros [[]%not_elem_of_nil|]|]. intros H. apply IH.
  destruct (decide (node_id x = node_id n)) as [He|He]; [right; rewrite He, lookup_insert_eq; eauto|].
  rewrite lookup_insert_ne by done. destruct H as [[->|?]%elem_of_cons|?]; [done|by left|by right].
Qed.

Lemma known_iff g n : NoDup (node_id <$> graph_nodes g) → known g n ↔ n ∈ graph_nodes g.
Proof.
  intros Hd. split; [apply known_in_graph|]. intros Hn. destruct (node_map_some (graph_nodes g) n ∅) as [m Hm]; [by left|].
  destruct (node_map_known g _ _ Hm) as [Hid Hk]. unfold known. unfold node_map_of. rewrite Hm. f_equal.
  apply (NoDup_fmap_key node_id (graph_nodes g)); [done|by apply known_in_graph|done|done].
Qed.

Lemma follows_dyn g kinds x y :
  (∀ e, e ∈ graph_edges g → edge_kind e ≠ EkDynCalls) →
  follows g (kinds ++ [EkCalls; EkDynCalls]) x y ↔ follows g (kinds ++ [EkCalls]) x y.
Proof.
  intros Hd. unfold follows. split; intros (e & He & Hs & Ht & Hk); exists e; split_and!; try done; revert Hk;
    rewrite !elem_of_app, !elem_of_cons, ?elem_of_nil; specialize (Hd e He); tauto.
Qed.

Lemma selected_asked q g t n : documented q → plain_calls q g t → selected q g t n ↔ asked q g t n.
Proof.
  intros Hdoc Hp.
  destruct q as [? []|?|?|? []|? []|?|?|?|?|?|?|?|?|?|?|?|?|?|?|?|?|?|?|?]; try done; cbn [selected asked plain_calls] in *.
  - destruct Hp as [Hp _]. by rewrite (rtc_iff _ _ _ _ (λ x y, follows_dyn g [] x y Hp)).
  - destruct Hp as [Hp Hs]. rewrite (follows_dyn g [] _ _ Hp). cbn [app]. split; [|by intros [_ ?]].
    intros H. split; [|done]. intros He. rewrite He in H. by apply Hs.
  - destruct Hp as [Hp _]. by rewrite (rtc_iff _ _ _ _ (λ x y, follows_dyn g [] x y Hp)).
  - destruct Hp as [Hp Hs]. rewrite (follows_dyn g [] _ _ Hp). cbn [app]. split; [|by intros [_ ?]].
    intros H. split; [|done]. intros He. rewrite He in H. by apply Hs.
  - by rewrite (rtc_iff _ _ _ _ (λ x y, follows_dyn g [EkReads; EkWrites] x y Hp)).
Qed.

(** C15: Selection answers what the query asks.  On a graph with distinct references, a query of a [documented] kind
    (node, callers, callees, effects, contracts, history, proofs, resources, boundaries, why, runtime, risks,
    concurrency) whose budget bounds the bytes alone ([bytes_only]: no bound on depth or node count, private nodes
    included, the budget's transitivity flag equal to the query's) returns, when its target exists, exactly the nodes of
    the graph its documentation asks for, ordered by reference, and fails with [CtxNodeNotFound] when it does not.  For
    callers, callees and concurrency the graph has no edge of kind [DynCalls], and for the one-hop queries the target
    does not call itself ([plain_calls]).  No reference is listed twice, apart from a boundaries query on a target that is
    itself a boundary. *)
Theorem selection_exact q g snapshot all t :
  query_target q = Some t → NoDup (node_id <$> graph_nodes g) → documented q → bytes_only q → plain_calls q g t →
  (t ∉ node_id <$> graph_nodes g → collect_candidates_with_history q g snapshot all = Err CtxNodeNotFound) ∧
  (∀ p, p ∈ graph_nodes g → node_id p = t → ∃ cs h,
     collect_candidates_with_history q g snapshot all = Ok (cs, h) ∧
     (∀ n, n ∈ cs ↔ n ∈ graph_nodes g ∧ asked q g t n) ∧
     StronglySorted (on_le node_id) cs ∧
     (¬ boundary_listing q p → NoDup (node_id <$> cs))).
Proof.
  intros Hq Hd Hdoc _ Hpc. split.
  - intros Ht. unfold collect_candidates_with_history. rewrite Hq. destruct (node_map_of g !! t) as [p|] eqn:Hp; [|done].
    apply node_map_known in Hp as [<- Hk%known_in_graph]. destruct Ht. by apply list_elem_of_fmap_2.
  - intros p Hp Ht. assert (known g p) as Hk by (by apply known_iff).
    destruct (collect_candidates_with_history q g snapshot all) as [[cs h]|e] eqn:E.
    + exists cs, h. split; [done|]. destruct (selection_reachable q g snapshot all t cs h Hq E) as (He & Hs & Hn).
      split_and!; [|done|by apply Hn]. intros n. by rewrite He, known_iff, selected_asked.
    + unfold collect_candidates_with_history in E. rewrite Hq, <- Ht in E. unfold known in Hk. by rewrite Hk in E.
Qed.

(** Selection fails exactly when the target is missing; a query without a target lists the graph by reference. *)
Lemma selection_total q g snapshot all :
  match query_target q with
  | None => collect_candidates_with_history q g snapshot all = Ok (sort_on node_id (graph_nodes g), [])
  | Some t => (∃ cs h, collect_candidates_with_history q g snapshot all = Ok (cs, h)) ∨
              (collect_candidates_with_history q g snapshot all = Err CtxNodeNotFound ∧ node_map_of g !! t = None)
  end.
Proof.
  unfold collect_candidates_with_history. destruct (query_target q) as [t|]; [|done].
  destruct (node_map_of g !! t); [left|right]; eauto.
Qed.

(** The history chain: it ends with the current snapshot and every entry is the parent of the next. *)
Lemma snapshot_index_id all pid s : snapshot_index all !! pid = Some s → se_id s = pid ∧ s ∈ all.
Proof.
  unfold snapshot_index. assert (∀ (m : gmap ObjectId SnapshotEnvelope),
    foldl (λ m s, <[se_id s := s]> m) m all !! pid = Some s → (se_id s = pid ∧ s ∈ all) ∨ m !! pid = Some s) as H.
  { induction all as [|x l IH]; intros m; cbn [foldl]; [by right|]. intros [[Hi Hin]|Hm]%IH; [left; split; [done|by right]|].
    apply lookup_insert_Some in Hm as [[<- <-]|[_ ?]]; [left; split; [done|by left]|by right]. }
  intros [?|Hm]%H; [done|]. by rewrite lookup_empty in Hm.
Qed.

Fixpoint parents (l : list SnapshotEnvelope) : Prop :=
  match l with
  | s :: ((p :: _) as l') => se_parent_id s = Some (se_id p) ∧ parents l'
  | _ => True
  end.

Lemma history_chain current all :
  last (build_history_chain current all) = Some current ∧ parents (rev (build_history_chain current all)) ∧
  length (build_history_chain current all) ≤ S (S (length all)) ∧
  ∀ s, s ∈ build_history_chain current all → s = current ∨ s ∈ all.
Proof.
  unfold build_history_chain. rewrite rev_involutive, length_rev. set (depth := S (length all)).
  assert (∀ d s, length (history_from d (snapshot_index all) s) ≤ d ∧ parents (history_from d (snapshot_index all) s) ∧
    (∀ x, x ∈ history_from d (snapshot_index all) s → x = s ∨ x ∈ all)) as H.
  { induction d as [|d IH]; intros s; cbn [history_from].
    { split_and!; [done..|]. by intros x []%not_elem_of_nil. }
    destruct (se_parent_id s ≫= _) as [p|] eqn:E.
    - destruct (IH p) as (Hl & Hp & Hin). apply bind_Some in E as (pid & Hpid & Hix%snapshot_index_id). destruct Hix as [<- Hall].
      split_and!; [cbn; lia| |].
      + destruct d as [|d]; [done|]. cbn [history_from] in *. by split.
      + intros x [->|[->|?]%Hin]%elem_of_cons; [by left|by right|by right].
    - split_and!; [cbn; lia|done|]. intros x ->%list_elem_of_singleton. by left. }
  destruct (H (S depth) current) as (Hl & Hp & Hin). split_and!; [|done..|].
  - cbn [history_from]. cbn [rev]. by rewrite last_snoc.
  - intros s Hs. apply Hin. by apply list_elem_of_In, in_rev, list_elem_of_In.
Qed.

(* ------------------------------------------------------------------ *)
(** ** Samples *)

Module SelectionSample.

Definition node (id : NodeRef) (kind : NodeKind) (name : string) : GraphNode := graph_node_new id kind name.
Definition snapshot : SnapshotEnvelope := MkSnapshotEnvelope [] [] None None 0 None [] [].
Definition refs (q : ContextQuery) (g : SemanticGraph) : option (list NodeRef) :=
  match collect_candidates_with_history q g snapshot [] with
  | Ok (cs, _) => Some (node_id <$> cs)
  | Err _ => None
  end.

Definition calls_graph : SemanticGraph :=
  MkSemanticGraph [node 2%N NkFunction "c"; node 0%N NkFunction "a"; node 1%N NkFunction "b"]
    [graph_edge_new 0%N 1%N EkCalls; graph_edge_new 1%N 2%N EkDynCalls; graph_edge_new 2%N 2%N EkCalls].

Example callers : refs (QCallers 2%N true query_budget_default) calls_graph = Some [0%N; 1%N].
Proof. vm_compute. reflexivity. Qed.

(** One hop: a node that calls itself is among its direct callers, and not among its transitive ones. *)
Example self_call : refs (QCallers 2%N false query_budget_default) calls_graph = Some [1%N; 2%N].
Proof. vm_compute. reflexivity. Qed.

(** A boundary that reaches a boundary of a smaller reference is listed twice: duplicates are removed before the
    list is sorted. *)
Example boundary_twice :
  refs (QBoundaries 5%N query_budget_default)
    (MkSemanticGraph [node 3%N NkBoundary "b"; node 5%N NkBoundary "a"] [graph_edge_new 5%N 3%N EkDependsOn])
  = Some [3%N; 5%N; 5%N].
Proof. vm_compute. reflexivity. Qed.

(** Bounds on the depth and on the number of nodes are not used. *)
Example depth_ignored :
  refs (QCallees 0%N true (MkQueryBudget (Some 1%N) (Some 1%N) 100 false false false None)) calls_graph
  = Some [1%N; 2%N].
Proof. vm_compute. reflexivity. Qed.

(** A chain of three calls, asked for the callers of its end *)
Definition chain : SemanticGraph :=
  MkSemanticGraph [node 2%N NkFunction "c"; node 0%N NkFunction "a"; node 1%N NkFunction "b"; node 3%N NkFunction "d"]
    [graph_edge_new 0%N 1%N EkCalls; graph_edge_new 1%N 2%N EkCalls; graph_edge_new 3%N 2%N EkEmits].
Definition callers_query : ContextQuery := QCallers 2%N true (MkQueryBudget None None 100 true true false None).

Lemma selection_exact_witness : ∃ cs h,
  collect_candidates_with_history callers_query chain snapshot [] = Ok (cs, h) ∧ node_id <$> cs = [0%N; 1%N] ∧
  (∀ n, n ∈ cs ↔ n ∈ graph_nodes chain ∧ node_id n ≠ 2%N ∧ rtc (follows chain [EkCalls]) (node_id n) 2%N).
Proof.
  assert (NoDup (node_id <$> graph_nodes chain)) as Hd by (vm_compute; repeat constructor; set_solver).
  assert (plain_calls callers_query chain 2%N) as Hc.
  { split; [|done]. intros e. cbn. rewrite !elem_of_cons, elem_of_nil. by intros [->|[->|[->|[]]]]. }
  destruct (selection_exact callers_query chain snapshot [] 2%N eq_refl Hd I (conj eq_refl (conj eq_refl (conj eq_refl eq_refl))) Hc)
    as [_ H]. destruct (H (node 2%N NkFunction "c")) as (cs & h & E & Hcs & _); [by left|done|].
  exists cs, h. split; [exact E|]. split; [|exact Hcs].
  assert (Some (node_id <$> cs) = refs callers_query chain) as Hr by (unfold refs; by rewrite E).
  vm_compute in Hr. by injection Hr.
Defined.
End SelectionSample.
