(* ===== verification/ContextBuilder.v ===== *)
(** * The context response builder

    ail-context/src/redaction.rs, freshness.rs, summary.rs, assembly.rs and
    builder.rs: a query on a materialised graph, turned into a bounded slice.
    CBOR is a parameter that can fail ([ContextCodec]), BLAKE3 the backend of
    the other files.  Byte counts are [N]: the sum of the encodings of the nodes
    of a graph in memory stays below [usize::MAX]. *)

From stdpp Require Import pretty gmap.
From S2P Require Import Prelude Text Ordering GraphTypes SemanticGraph ChangeModel Remote Search ContextTypes ContextSelection.

#[local] Existing Instance NodeRef_eq_dec | 0.

(** [CborCodec::encode] at the types the crate encodes *)
Class ContextCodec : Type := {
  encode_query : ContextQuery → result (list N) string;
  encode_node : GraphNode → result (list N) string;
  encode_nodes : list GraphNode → result (list N) string;
  encode_graph : SemanticGraph → result (list N) string;
}.

(** [.map_err(|e| ContextError::Codec(e.to_string()))] *)
Definition codec {A} (r : result A string) : result A ContextError :=
  match r with
  | Ok a => Ok a
  | Err e => Err (CtxCodec e)
  end.

(* ------------------------------------------------------------------ *)
(** ** redaction.rs *)

Record RedactionFilter : Type := MkRedactionFilter {
  rf_unredacted : list GraphNode;
  rf_redacted : bool;
  rf_descriptors : list RedactedDescriptor;
}.

(** The loop over the candidates from an ordinal on *)
Fixpoint filter_from (ordinal : N) (candidates : list GraphNode) (redacted_refs : gset NodeRef) : RedactionFilter :=
  match candidates with
  | [] => MkRedactionFilter [] false []
  | n :: rest =>
      let r := filter_from (ordinal + 1) rest redacted_refs in
      if decide (node_id n ∈ redacted_refs)
      then MkRedactionFilter (rf_unredacted r) true (MkRedactedDescriptor (node_id n) (Some ordinal) :: rf_descriptors r)
      else MkRedactionFilter (n :: rf_unredacted r) (rf_redacted r) (rf_descriptors r)
  end.

Definition filter_redacted (candidates : list GraphNode) (redacted_refs : gset NodeRef) : RedactionFilter :=
  filter_from 0 candidates redacted_refs.

Definition compute_redaction_state (policy : option RedactionPolicy) (redacted : bool) : RedactionState :=
  match policy with
  | Some p => if rp_requires_approval p then RdRestricted else if redacted then RdPartial else RdNone
  | None => if redacted then RdPartial else RdNone
  end.

(* ------------------------------------------------------------------ *)
(** ** freshness.rs *)

Definition resolve_freshness_status (explicit : option FreshnessStatus) (latest : option ObjectId) (id : ObjectId)
  : FreshnessStatus :=
  match explicit with
  | Some s => s
  | None => match latest with None => FsFresh | Some l => if decide (l = id) then FsFresh else FsStale end
  end.

Definition latest_option (description : string) (q : ContextQuery) : ContextRepairOption :=
  MkContextRepairOption "query_latest" description
    ((λ t, "context NodeRef(" +:+ (pretty (t : N) +:+ ") snapshot=latest")) <$> query_target q).

Definition build_repair_options (status : FreshnessStatus) (truncated : bool) (q : ContextQuery) (has_stale_index : bool)
  : list ContextRepairOption :=
  match status with
  | FsStale => [latest_option "Re-issue the query at the latest snapshot" q]
  | FsUnknown => [latest_option "Retry freshness resolution against the latest snapshot" q]
  | FsFresh => []
  end
  ++ (if truncated
      then [MkContextRepairOption "narrow_scope" "Narrow the query scope or increase the budget" None] else [])
  ++ (if has_stale_index
      then [MkContextRepairOption "rebuild_index" "Rebuild stale derived indexes and retry" None] else []).

(* ------------------------------------------------------------------ *)
(** ** summary.rs *)

Definition render_summary (nodes : list GraphNode) : string :=
  join (String (ascii_of_nat 10) "") ((λ n, node_kind_debug (node_kind n) +:+ (": " +:+ node_name n)) <$> nodes).

(* ------------------------------------------------------------------ *)
(** ** assembly.rs *)

Definition node_issue (code : string) (r : NodeRef) (ordinal : option N) : BundleIssue :=
  MkBundleIssue code (MkBundleDescriptor (Some r) None None None ordinal).

(** The first reference below the one before it, with its position *)
Fixpoint unstable_from (last : NodeRef) (ordinal : N) (refs : list NodeRef) : option (NodeRef * N) :=
  match refs with
  | [] => None
  | r :: rest => if (r <? last)%N then Some (r, ordinal) else unstable_from r (ordinal + 1) rest
  end.

Definition unstable_issues (refs : list NodeRef) : list BundleIssue :=
  match refs with
  | [] => []
  | r :: rest =>
      match unstable_from r 1 rest with
      | Some (x, ordinal) => [node_issue "CTX_BUNDLE_UNSTABLE_INPUT_ORDER" x (Some ordinal)]
      | None => []
      end
  end.

(** [*counts.entry(id).or_insert(0) += 1] *)
Definition ref_counts (refs : list NodeRef) : gmap NodeRef nat :=
  foldl (λ m r, <[r := S (default 0 (m !! r))]> m) ∅ refs.

Definition count_issue (c : NodeRef * nat) : option BundleIssue :=
  if (1 <? c.2)%nat then Some (node_issue "CTX_BUNDLE_DUPLICATE_NODE_REF" c.1 None) else None.

Section Codec.
Context `{ContextCodec}.

Fixpoint key_nodes (ordinal : N) (nodes : list GraphNode)
  : result (list (NodeRef * list N * N * GraphNode)) ContextError :=
  match nodes with
  | [] => Ok []
  | n :: rest =>
      let? bytes := codec (encode_node n) in
      let? keyed := key_nodes (ordinal + 1) rest in
      Ok ((node_id n, bytes, ordinal, n) :: keyed)
  end.

Definition canonicalize_bundle_nodes (nodes : list GraphNode) : result (list GraphNode * list BundleIssue) ContextError :=
  let? keyed := key_nodes 0 nodes in
  let refs := node_id <$> nodes in
  Ok (snd <$> sort_on fst keyed, unstable_issues refs ++ omap count_issue (map_iter (ref_counts refs))).

(** The references seen more than once *)
Definition duplicate_refs (refs : list NodeRef) : gset NodeRef :=
  (foldl (λ st r, if decide (r ∈ st.1) then (st.1, {[ r ]} ∪ st.2) else ({[ r ]} ∪ st.1, st.2))
     ((∅, ∅) : gset NodeRef * gset NodeRef) refs).2.

Definition edge_issue (e : GraphEdge) (r : NodeRef) : BundleIssue :=
  MkBundleIssue "CTX_BUNDLE_MISSING_NODE_REF"
    (MkBundleDescriptor (Some r) (Some (edge_source e)) (Some (edge_target e)) (Some (edge_kind_debug (edge_kind e))) None).

Definition edge_issues (seen : gset NodeRef) (e : GraphEdge) : list BundleIssue :=
  (if decide (edge_source e ∈ seen) then [] else [edge_issue e (edge_source e)])
  ++ (if decide (edge_target e ∈ seen) then [] else [edge_issue e (edge_target e)]).

Definition diagnose_graph_manifest (g : SemanticGraph) : list BundleIssue :=
  let refs := node_id <$> graph_nodes g in
  unstable_issues refs
  ++ ((λ r, node_issue "CTX_BUNDLE_DUPLICATE_NODE_REF" r None) <$> set_iter (duplicate_refs refs))
  ++ (graph_edges g ≫= edge_issues (list_to_set refs)).

Record BudgetResult : Type := MkBudgetResult {
  br_structured : list GraphNode;
  br_bytes_used : N;
  br_truncated : bool;
  br_omitted_sections : list string;
}.

(** The loop of [apply_budget], with the bytes used so far *)
Fixpoint budget_from (used : N) (nodes : list GraphNode) (budget : N) : result BudgetResult ContextError :=
  match nodes with
  | [] => Ok (MkBudgetResult [] used false [])
  | n :: rest =>
      let? bytes := codec (encode_node n) in
      let size := N.of_nat (length bytes) in
      if (budget <? used + size)%N then Ok (MkBudgetResult [] used true ["structured_nodes"])
      else
        let? r := budget_from (used + size) rest budget in
        Ok (MkBudgetResult (n :: br_structured r) (br_bytes_used r) (br_truncated r) (br_omitted_sections r))
  end.

Definition apply_budget (nodes : list GraphNode) (budget : N) : result BudgetResult ContextError :=
  budget_from 0 nodes budget.

Definition assemble_provenance (sources : list string) (indexes : list IndexInfo) (report : option (list N))
  : ProvenanceBlock :=
  MkProvenanceBlock (if decide ("semantic_graph" ∈ sources) then sources else "semantic_graph" :: sources) indexes
    (option_list report).

(* ------------------------------------------------------------------ *)
(** ** builder.rs *)

Record BuildOptions : Type := MkBuildOptions {
  bo_all_snapshots : list SnapshotEnvelope;
  bo_latest_snapshot_id : option ObjectId;
  bo_freshness_status : option FreshnessStatus;
  bo_redaction_policy : option RedactionPolicy;
  bo_authorized : bool;
  bo_generated_at : N;
  bo_provenance_sources : list string;
  bo_index_info : list IndexInfo;
}.

Definition build_options_default : BuildOptions := MkBuildOptions [] None None None false 0 [] [].

Definition impact_of (q : ContextQuery) (unredacted : list GraphNode) : option ImpactInfo :=
  match q with
  | QImpact _ _ => Some (compute_impact_info unredacted)
  | _ => None
  end.

Definition refactor_of (q : ContextQuery) (unredacted : list GraphNode) (g : SemanticGraph) : option RefactorInfo :=
  match q with
  | QRefactorContext t _ | QExtractCandidates t _ | QMoveSafety t _ _ => Some (compute_refactor_info unredacted t g)
  | _ => None
  end.

(** The caller may not target a withheld node. *)
Definition access_denied (q : ContextQuery) (redacted_refs : gset NodeRef) (opts : BuildOptions) : bool :=
  negb (bo_authorized opts)
  && match query_target q with Some t => bool_decide (t ∈ redacted_refs) | None => false end.

Context `{HashBackend}.

Definition build_full (q : ContextQuery) (g : SemanticGraph) (snapshot : SnapshotEnvelope)
    (redacted_refs : gset NodeRef) (opts : BuildOptions) : result SliceResponse ContextError :=
  let budget := query_bytes q in
  if decide (budget = 0%N) then Err CtxInvalidBudget
  else if access_denied q redacted_refs opts then Err CtxAccessDenied
  else
    let? query_cbor := codec (encode_query q) in
    let? selection := collect_candidates_with_history q g snapshot (bo_all_snapshots opts) in
    let? canonical := canonicalize_bundle_nodes selection.1 in
    let diagnostics := sort_dedup bundle_issue_key (diagnose_graph_manifest g ++ canonical.2) in
    let f := filter_redacted canonical.1 redacted_refs in
    let? b := apply_budget (rf_unredacted f) budget in
    let? structured_cbor := codec (encode_nodes (br_structured b)) in
    let freshness := resolve_freshness_status (bo_freshness_status opts) (bo_latest_snapshot_id opts) (se_id snapshot) in
    Ok (MkSliceResponse "context/1.0" snapshot (se_graph_root_hash snapshot) (blake3 query_cbor) (blake3 structured_cbor)
          (br_structured b) (render_summary (br_structured b)) (se_created_at snapshot) (bo_generated_at opts)
          (rf_redacted f) (rf_descriptors f) diagnostics
          (compute_redaction_state (bo_redaction_policy opts) (rf_redacted f)) (bo_redaction_policy opts)
          (br_truncated b) (MkResponseLimits budget (br_bytes_used b) (br_truncated b) (br_omitted_sections b))
          selection.2 freshness
          (assemble_provenance (bo_provenance_sources opts) (bo_index_info opts) (se_verification_report_hash snapshot))
          (build_repair_options freshness (br_truncated b) q (existsb ix_stale (bo_index_info opts)))
          (impact_of q (rf_unredacted f)) (refactor_of q (rf_unredacted f) g)).

Definition build (q : ContextQuery) (g : SemanticGraph) (snapshot : SnapshotEnvelope) (redacted_refs : gset NodeRef)
  : result SliceResponse ContextError :=
  build_full q g snapshot redacted_refs build_options_default.

Definition build_with_history (q : ContextQuery) (g : SemanticGraph) (snapshot : SnapshotEnvelope)
    (redacted_refs : gset NodeRef) (all : list SnapshotEnvelope) : result SliceResponse ContextError :=
  build_full q g snapshot redacted_refs (MkBuildOptions all None None None true 0 [] []).
End Codec.

(* ------------------------------------------------------------------ *)
(** ** Redaction *)

Lemma filter_from_unredacted k l R : rf_unredacted (filter_from k l R) = filter (λ n, node_id n ∉ R) l.
Proof.
  revert k. induction l as [|n l IH]; intros k; [done|]. cbn [filter_from]. rewrite filter_cons.
  destruct (decide (node_id n ∈ R)) as [Hn|Hn]; [rewrite decide_False by tauto|rewrite decide_True by done];
    cbn [rf_unredacted]; [apply IH|by rewrite IH].
Qed.

Lemma filter_from_redacted k l R : rf_redacted (filter_from k l R) = true ↔ ∃ n, n ∈ l ∧ node_id n ∈ R.
Proof.
  revert k. induction l as [|n l IH]; intros k; cbn [filter_from].
  { split; [done|]. by intros (n & []%not_elem_of_nil & _). }
  case_decide as Hn; cbn [rf_redacted].
  - split; [|done]. intros _. exists n. split; [by left|done].
  - rewrite IH. setoid_rewrite elem_of_cons. split; [intros (x & ? & ?); eauto|]. intros (x & [->|?] & ?); [done|eauto].
Qed.

Lemma filter_from_descriptors k l R x :
  x ∈ rd_node_ref <$> rf_descriptors (filter_from k l R) ↔ ∃ n, n ∈ l ∧ node_id n = x ∧ x ∈ R.
Proof.
  revert k. induction l as [|n l IH]; intros k; cbn [filter_from].
  { cbn. split; [by intros []%not_elem_of_nil|]. by intros (n & []%not_elem_of_nil & _). }
  case_decide as Hn; cbn [rf_descriptors fmap list_fmap rd_node_ref]; rewrite ?elem_of_cons, IH; setoid_rewrite elem_of_cons.
  - split; [intros [->|(m & ? & ?)]; eauto|]. intros (m & [->|?] & <- & ?); eauto 6.
  - split; [intros (m & ? & ?); eauto|]. intros (m & [->|?] & <- & ?); [done|eauto].
Qed.

(** What the filter says depends on the references and on the visible nodes. *)
Lemma filter_from_agree k l l' R :
  node_id <$> l = node_id <$> l' → filter (λ n, node_id n ∉ R) l = filter (λ n, node_id n ∉ R) l' →
  filter_from k l R = filter_from k l' R.
Proof.
  revert k l'. induction l as [|n l IH]; intros k [|n' l'] Hid Hf; cbn [fmap list_fmap] in Hid; try done.
  injection Hid as Hn Hid. rewrite !filter_cons in Hf. cbn [filter_from]. rewrite <- Hn in Hf |- *.
  destruct (decide (node_id n ∈ R)) as [Hr|Hr].
  - rewrite !decide_False in Hf by tauto. by rewrite (IH (k + 1)%N l').
  - rewrite !decide_True in Hf by done. injection Hf as -> Hf. by rewrite (IH (k + 1)%N l').
Qed.

(* ------------------------------------------------------------------ *)
(** ** Canonical order *)

Lemma cmp_le_fst {A B} `{Cmp A, Cmp B} (x y : A * B) : cmp_le x y → cmp_le x.1 y.1.
Proof.
  unfold cmp_le. change (cmp x y) with (then_with (cmp x.1 y.1) (cmp x.2 y.2)). intros Hn Hg. apply Hn. by rewrite Hg.
Qed.

Section Canonical.
Context `{ContextCodec}.

Lemma key_nodes_snd k nodes keyed : key_nodes k nodes = Ok keyed → snd <$> keyed = nodes ∧ Forall (λ x, x.1.1.1 = node_id x.2) keyed.
Proof.
  revert k keyed. induction nodes as [|n nodes IH]; intros k keyed; cbn [key_nodes]; [by intros [= <-]|].
  destruct (codec (encode_node n)) as [bytes|]; [|done]. destruct (key_nodes (k + 1) nodes) as [ks|] eqn:E; [|done].
  intros [= <-]. destruct (IH _ _ E) as [<- Hf]. split; [done|]. by constructor.
Qed.

Lemma canonicalize_perm nodes l issues :
  canonicalize_bundle_nodes nodes = Ok (l, issues) → l ≡ₚ nodes ∧ StronglySorted (on_le node_id) l.
Proof.
  unfold canonicalize_bundle_nodes. destruct (key_nodes 0 nodes) as [keyed|] eqn:E; [|done]. intros [= <- <-].
  apply key_nodes_snd in E as [<- Hf]. split; [by rewrite sort_on_perm|].
  assert (Forall (λ x, x.1.1.1 = node_id x.2) (sort_on fst keyed)) as Hf' by (by rewrite sort_on_perm).
  clear Hf. pose proof (sort_on_sorted fst keyed) as Hs. induction Hs as [|x l Hs IH Hall]; [constructor|].
  apply Forall_cons in Hf' as [Hx Hf']. cbn [fmap list_fmap]. constructor; [by apply IH|].
  apply Forall_fmap, Forall_forall. intros y Hy. rewrite Forall_forall in Hall, Hf'. cbn.
  specialize (Hall y Hy). specialize (Hf' y Hy). unfold on_le in *. rewrite <- Hx, <- Hf'.
  exact (cmp_le_fst _ _ (cmp_le_fst _ _ Hall)).
Qed.
End Canonical.

(* ------------------------------------------------------------------ *)
(** ** Budgets *)

Section Budget.
Context `{ContextCodec}.

Fixpoint encoded_size (nodes : list GraphNode) : option N :=
  match nodes with
  | [] => Some 0%N
  | n :: rest =>
      match encode_node n with
      | Ok bytes => N.add (N.of_nat (length bytes)) <$> encoded_size rest
      | Err _ => None
      end
  end.

(** The greedy prefix: it fits, and the node after it does not. *)
Definition greedy (nodes : list GraphNode) (budget : N) (r : BudgetResult) (rest : list GraphNode) : Prop :=
  nodes = br_structured r ++ rest ∧ encoded_size (br_structured r) = Some (br_bytes_used r) ∧
  (br_bytes_used r ≤ budget)%N ∧ (br_truncated r = true ↔ rest ≠ []) ∧
  br_omitted_sections r = (if br_truncated r then ["structured_nodes"] else []) ∧
  ∀ n rest', rest = n :: rest' → ∃ bytes, encode_node n = Ok bytes ∧ (budget < br_bytes_used r + N.of_nat (length bytes))%N.

Lemma budget_from_spec used nodes budget r :
  (used ≤ budget)%N → budget_from used nodes budget = Ok r →
  ∃ rest size, nodes = br_structured r ++ rest ∧ encoded_size (br_structured r) = Some size ∧
    br_bytes_used r = (used + size)%N ∧ (br_bytes_used r ≤ budget)%N ∧ (br_truncated r = true ↔ rest ≠ []) ∧
    br_omitted_sections r = (if br_truncated r then ["structured_nodes"] else []) ∧
    ∀ n rest', rest = n :: rest' →
      ∃ bytes, encode_node n = Ok bytes ∧ (budget < br_bytes_used r + N.of_nat (length bytes))%N.
Proof.
  revert used r. induction nodes as [|n nodes IH]; intros used r Hu; cbn [budget_from].
  { intros [= <-]. exists [], 0%N. cbn. split_and!; try done. lia. }
  unfold codec. destruct (encode_node n) as [bytes|] eqn:En; [|done].
  destruct (budget <? used + N.of_nat (length bytes))%N eqn:Eb.
  - intros [= <-]. exists (n :: nodes), 0%N. cbn. apply N.ltb_lt in Eb. split_and!; try done; [lia|].
    intros n' rest' [= <- <-]. eauto.
  - apply N.ltb_ge in Eb. destruct (budget_from _ nodes budget) as [r'|] eqn:Er; [|done]. intros [= <-].
    destruct (IH _ _ Eb Er) as (rest & size & -> & Hs & Hb & Hle & Ht & Ho & Hn).
    exists rest, (N.of_nat (length bytes) + size)%N. cbn. rewrite En, Hs. cbn. split_and!; try done. lia.
Qed.

Lemma apply_budget_greedy nodes budget r : apply_budget nodes budget = Ok r → ∃ rest, greedy nodes budget r rest.
Proof.
  intros Hb. destruct (budget_from_spec 0 nodes budget r (N.le_0_l _) Hb) as (rest & size & Hn & Hs & Hu & Hle & Ht & Ho & Hg).
  exists rest. rewrite N.add_0_l in Hu. unfold greedy. rewrite Hs, Hu. by rewrite Hu in Hle, Hg.
Qed.
End Budget.

(* ------------------------------------------------------------------ *)
(** ** The response *)

(** Every reference of the response but those of the diagnostics *)
Definition impact_refs (i : ImpactInfo) : list NodeRef :=
  ii_affected_tests i ++ ii_affected_capabilities i ++ ii_affected_public_apis i.
Definition refactor_refs (i : RefactorInfo) : list NodeRef :=
  ri_behavior_locks_needed i ++ ri_contracts_to_preserve i ++ ri_effects_to_preserve i ++ ri_callers_to_update i
  ++ ri_proofs_to_rerun i ++ ri_possible_conflicts i.
Definition response_refs (r : SliceResponse) : list NodeRef :=
  (node_id <$> cr_structured r) ++ from_option impact_refs [] (cr_impact_info r)
  ++ from_option refactor_refs [] (cr_refactor_info r).

Lemma refs_where_sub (P : GraphNode → Prop) `{!∀ n, Decision (P n)} l x : x ∈ refs_where P l → x ∈ node_id <$> l.
Proof.
  unfold refs_where. rewrite !list_elem_of_fmap. intros (n & -> & [_ Hn]%list_elem_of_filter). eauto.
Qed.

Lemma impact_of_sub q l x : x ∈ from_option impact_refs [] (impact_of q l) → x ∈ node_id <$> l.
Proof.
  destruct q; cbn [impact_of from_option]; try by intros []%not_elem_of_nil.
  unfold impact_refs, compute_impact_info. cbn. rewrite !elem_of_app. intros [?|[?|?]]; by eapply refs_where_sub.
Qed.

Lemma refactor_of_sub q l g x : x ∈ from_option refactor_refs [] (refactor_of q l g) → x ∈ node_id <$> l.
Proof.
  destruct q; cbn [refactor_of from_option]; try (by intros []%not_elem_of_nil);
    unfold refactor_refs, compute_refactor_info; cbn [ri_behavior_locks_needed ri_contracts_to_preserve
      ri_effects_to_preserve ri_callers_to_update ri_proofs_to_rerun ri_possible_conflicts];
    rewrite !elem_of_app; intros [Hx|[Hx|[Hx|[Hx|[Hx|Hx]]]]]; exact (refs_where_sub _ _ _ Hx).
Qed.

Section Response.
Context `{ContextCodec, HashBackend}.

(** The steps of a successful build *)
Lemma build_full_steps q g snapshot R opts r :
  build_full q g snapshot R opts = Ok r →
  query_bytes q ≠ 0%N ∧ access_denied q R opts = false ∧
  ∃ cs h l issues b,
    collect_candidates_with_history q g snapshot (bo_all_snapshots opts) = Ok (cs, h) ∧
    canonicalize_bundle_nodes cs = Ok (l, issues) ∧
    apply_budget (rf_unredacted (filter_redacted l R)) (query_bytes q) = Ok b ∧
    cr_structured r = br_structured b ∧ cr_truncated r = br_truncated b ∧
    cr_limits r = MkResponseLimits (query_bytes q) (br_bytes_used b) (br_truncated b) (br_omitted_sections b) ∧
    cr_redacted r = rf_redacted (filter_redacted l R) ∧
    cr_redacted_descriptors r = rf_descriptors (filter_redacted l R) ∧
    cr_impact_info r = impact_of q (rf_unredacted (filter_redacted l R)) ∧
    cr_refactor_info r = refactor_of q (rf_unredacted (filter_redacted l R)) g.
Proof.
  unfold build_full. case_decide as Hb; [done|]. destruct (access_denied q R opts); [done|].
  destruct (codec (encode_query q)); [|done].
  destruct (collect_candidates_with_history q g snapshot _) as [[cs h]|]; [|done]. cbn [fst snd].
  destruct (canonicalize_bundle_nodes cs) as [[l issues]|] eqn:El; [|done]. cbn [fst snd].
  destruct (apply_budget _ _) as [b|] eqn:Eb; [|done]. destruct (codec (encode_nodes _)); [|done].
  intros [= <-]. split; [done|]. split; [done|]. exists cs, h, l, issues, b. by split_and!.
Qed.

(** C14: A slice is exact.  When a query whose budget bounds the bytes alone ([bytes_only]: no bound on depth or node
    count, private nodes included, the budget's transitivity flag equal to the query's) is answered, the nodes of the
    answer followed by what was cut off are the selected nodes that are not withheld, ordered by reference; they fit the
    byte budget and the first node that was cut off does not; the truncation flag, the redaction flag and the descriptors
    of the withheld nodes are accurate; and no withheld node is referred to by the slice, the impact or the refactoring
    information. *)
Theorem slice_exact q g snapshot R opts r :
  bytes_only q → build_full q g snapshot R opts = Ok r →
  ∃ cs h rest,
    collect_candidates_with_history q g snapshot (bo_all_snapshots opts) = Ok (cs, h) ∧
    cr_structured r ++ rest ≡ₚ filter (λ n, node_id n ∉ R) cs ∧
    StronglySorted (on_le node_id) (cr_structured r ++ rest) ∧
    encoded_size (cr_structured r) = Some (rl_bytes_used (cr_limits r)) ∧
    (rl_bytes_used (cr_limits r) ≤ query_bytes q)%N ∧
    (cr_truncated r = true ↔ rest ≠ []) ∧
    (∀ n rest', rest = n :: rest' → ∃ bytes, encode_node n = Ok bytes ∧
       (query_bytes q < rl_bytes_used (cr_limits r) + N.of_nat (length bytes))%N) ∧
    (cr_redacted r = true ↔ ∃ n, n ∈ cs ∧ node_id n ∈ R) ∧
    (∀ x, x ∈ rd_node_ref <$> cr_redacted_descriptors r ↔ ∃ n, n ∈ cs ∧ node_id n = x ∧ x ∈ R) ∧
    (∀ x, x ∈ response_refs r → x ∉ R).
Proof.
  intros _ (_ & _ & cs & h & l & issues & b & Hc & Hl & Hb & Hs & Ht & Hlim & Hr & Hd & Hi & Hf)%build_full_steps.
  apply canonicalize_perm in Hl as [Hp Hsort]. apply apply_budget_greedy in Hb as (rest & Hn & Hsz & Hle & Htr & _ & Hg).
  unfold filter_redacted in *. rewrite filter_from_unredacted in *.
  assert (∀ x, x ∈ node_id <$> filter (λ n, node_id n ∉ R) l → x ∉ R) as Hvis.
  { intros x (n & -> & [Hx _]%list_elem_of_filter)%list_elem_of_fmap. done. }
  exists cs, h, rest. rewrite Hlim, Hs, Ht, Hr, Hd. cbn [rl_bytes_used]. rewrite <- Hn, filter_from_redacted.
  assert (∀ n, n ∈ l ↔ n ∈ cs) as Hin by (intros n; by rewrite Hp).
  setoid_rewrite filter_from_descriptors. setoid_rewrite Hin. split_and!; try done.
  - by rewrite Hp.
  - clear -Hsort. induction Hsort as [|x l Hs IH Hall]; [constructor|]. rewrite filter_cons. case_decide; [|done].
    constructor; [done|]. apply Forall_forall. intros y [_ Hy]%list_elem_of_filter. rewrite Forall_forall in Hall. auto.
  - intros x. unfold response_refs. rewrite Hs, Hi, Hf, !elem_of_app. intros [Hx|[Hx|Hx]]; apply Hvis.
    + apply list_elem_of_fmap in Hx as (n & -> & Hx). apply list_elem_of_fmap_2. rewrite Hn, elem_of_app. by left.
    + by eapply impact_of_sub.
    + by eapply refactor_of_sub.
Qed.

(** The errors of a build, in the order in which they are found *)
Lemma build_errors q g snapshot R opts :
  (query_bytes q = 0%N → build_full q g snapshot R opts = Err CtxInvalidBudget) ∧
  (query_bytes q ≠ 0%N → bo_authorized opts = false → (∃ t, query_target q = Some t ∧ t ∈ R) →
     build_full q g snapshot R opts = Err CtxAccessDenied).
Proof.
  unfold build_full. split; [intros Hb; by rewrite decide_True|]. intros Hb Ha (t & Ht & Hin).
  rewrite decide_False by done. unfold access_denied. rewrite Ha, Ht. cbn. by rewrite bool_decide_eq_true_2.
Qed.
End Response.

(* ------------------------------------------------------------------ *)
(** ** Withheld contents do not show *)

Lemma filter_insert_on {A K} `{CmpLaws K} (key : A → K) (P : A → Prop) `{!∀ x, Decision (P x)} x l :
  StronglySorted (on_le key) l →
  filter P (insert_on key x l) = if decide (P x) then insert_on key x (filter P l) else filter P l.
Proof.
  induction 1 as [|y l Hs IH Hall]; cbn [insert_on]; [rewrite filter_cons; by case_decide|].
  destruct (decide (cmp_le (key x) (key y))) as [Hle|Hnle].
  - rewrite filter_cons. destruct (decide (P x)); [|done].
    assert (∀ z, z ∈ filter P (y :: l) → cmp_le (key x) (key z)) as Hz.
    { intros z [_ Hz]%list_elem_of_filter. apply elem_of_cons in Hz as [->|Hz]; [done|].
      rewrite Forall_forall in Hall. specialize (Hall z Hz). unfold on_le in Hall. by etrans. }
    destruct (filter P (y :: l)) as [|z l']; [done|]. cbn [insert_on]. rewrite decide_True; [done|]. apply Hz. by left.
  - rewrite !filter_cons, IH. destruct (decide (P y)), (decide (P x)); cbn [insert_on]; try done.
    by rewrite decide_False.
Qed.

Lemma filter_sort_on {A K} `{CmpLaws K} (key : A → K) (P : A → Prop) `{!∀ x, Decision (P x)} l :
  filter P (sort_on key l) = sort_on key (filter P l).
Proof.
  induction l as [|x l IH]; [done|]. cbn [sort_on foldr]. fold (sort_on key l).
  rewrite filter_insert_on, IH, filter_cons by apply sort_on_sorted. by case_decide.
Qed.

Lemma Forall2_insert_on {A K} `{CmpLaws K} (key : A → K) (S : relation A) x x' l l' :
  (∀ a b, S a b → key a = key b) → S x x' → Forall2 S l l' → Forall2 S (insert_on key x l) (insert_on key x' l').
Proof.
  intros Hk Hx. induction 1 as [|y y' l l' Hy Hl IH]; cbn [insert_on]; [by repeat constructor|].
  rewrite <- (Hk _ _ Hx), <- (Hk _ _ Hy). case_decide; by repeat constructor.
Qed.

Lemma Forall2_sort_on {A K} `{CmpLaws K} (key : A → K) (S : relation A) l l' :
  (∀ a b, S a b → key a = key b) → Forall2 S l l' → Forall2 S (sort_on key l) (sort_on key l').
Proof. intros Hk. induction 1; [constructor|]. by apply Forall2_insert_on. Qed.

Lemma Forall2_filter {A} (S : relation A) (P Q : A → Prop) `{!∀ x, Decision (P x)} `{!∀ x, Decision (Q x)} l l' :
  (∀ a b, S a b → P a ↔ Q b) → Forall2 S l l' → Forall2 S (filter P l) (filter Q l').
Proof.
  intros Hpq. induction 1 as [|x y l l' Hxy Hl IH]; [constructor|]. rewrite !filter_cons.
  destruct (decide (P x)) as [Hp|Hp].
  - rewrite decide_True by (by apply (Hpq _ _ Hxy)). by constructor.
  - rewrite decide_False by (by rewrite <- (Hpq _ _ Hxy)). done.
Qed.

Section Secrets.
Context (R : gset NodeRef).

(** Two nodes that differ at most in the contents of a withheld node *)
Definition agree (n n' : GraphNode) : Prop :=
  node_id n = node_id n' ∧ node_kind n = node_kind n' ∧ (node_id n ∉ R → n = n').

(** Two graphs with the same edges whose nodes differ at most in withheld contents *)
Definition graphs_agree (g g' : SemanticGraph) : Prop :=
  graph_edges g = graph_edges g' ∧ Forall2 agree (graph_nodes g) (graph_nodes g').

Lemma agree_ids l l' : Forall2 agree l l' → node_id <$> l = node_id <$> l'.
Proof. induction 1 as [|x y l l' [Hid _] Hl IH]; [done|]. cbn [fmap list_fmap]. by rewrite Hid, IH. Qed.

Lemma node_map_agree g g' r : graphs_agree g g' → option_Forall2 agree (node_map_of g !! r) (node_map_of g' !! r).
Proof.
  intros [_ Hn]. unfold node_map_of.
  assert (∀ (m m' : gmap NodeRef GraphNode), (∀ r, option_Forall2 agree (m !! r) (m' !! r)) →
    option_Forall2 agree (foldl (λ m n, <[node_id n := n]> m) m (graph_nodes g) !! r)
      (foldl (λ m n, <[node_id n := n]> m) m' (graph_nodes g') !! r)) as Hf.
  { induction Hn as [|x y l l' Hxy Hl IH]; intros m m' Hm; cbn [foldl]; [done|]. apply IH. intros k.
    destruct Hxy as (Hid & Hk & He). rewrite <- Hid. destruct (decide (k = node_id x)) as [->|Hne].
    - rewrite !lookup_insert_eq. by constructor.
    - rewrite !lookup_insert_ne by done. apply Hm. }
  apply Hf. intros k. rewrite !lookup_empty. constructor.
Qed.

Lemma known_nodes_agree g g' refs : graphs_agree g g' → Forall2 agree (known_nodes g refs) (known_nodes g' refs).
Proof.
  intros Hg. induction refs as [|r refs IH]; [constructor|]. unfold known_nodes. cbn [omap list_omap].
  pose proof (node_map_agree g g' r Hg) as Hr. destruct Hr; [by constructor|done].
Qed.

Lemma dedup_after_agree id l l' : Forall2 agree l l' → Forall2 agree (dedup_after id l) (dedup_after id l').
Proof.
  intros Hl. revert id. induction Hl as [|x y l l' Hxy Hl IH]; intros id; cbn [dedup_after]; [constructor|].
  pose proof Hxy as [Hid _]. rewrite <- Hid. case_decide; [done|]. by constructor.
Qed.

Lemma dedup_by_id_agree l l' : Forall2 agree l l' → Forall2 agree (dedup_by_id l) (dedup_by_id l').
Proof.
  intros Hl. destruct Hl as [|x y l l' Hxy Hl]; cbn [dedup_by_id]; constructor; [done|]. destruct Hxy as [<- _].
  by apply dedup_after_agree.
Qed.

Lemma with_target_agree p p' l l' : agree p p' → Forall2 agree l l' → Forall2 agree (with_target p l) (with_target p' l').
Proof. intros Hp Hl. apply Forall2_sort_on; [by intros a b [? _]|]. apply dedup_by_id_agree. by constructor. Qed.

Lemma merged_agree l l' : Forall2 agree l l' → Forall2 agree (merged l) (merged l').
Proof. intros Hl. apply dedup_by_id_agree, Forall2_sort_on; [by intros a b [? _]|done]. Qed.

Section Selected.
Context (g g' : SemanticGraph) (Hg : graphs_agree g g').

Lemma edges_agree : graph_edges g' = graph_edges g.
Proof. by destruct Hg as [-> _]. Qed.

Lemma bfs_forward_agree t : Forall2 agree (bfs_forward g t) (bfs_forward g' t).
Proof. unfold bfs_forward. rewrite edges_agree. by apply known_nodes_agree. Qed.
Lemma bfs_filtered_agree t kinds : Forall2 agree (bfs_filtered g t kinds) (bfs_filtered g' t kinds).
Proof. unfold bfs_filtered. rewrite edges_agree. by apply known_nodes_agree. Qed.
Lemma reverse_bfs_agree t kinds : Forall2 agree (reverse_bfs g t kinds) (reverse_bfs g' t kinds).
Proof. unfold reverse_bfs. rewrite edges_agree. by apply known_nodes_agree. Qed.
Lemma direct_forward_agree t kinds : Forall2 agree (direct_forward g t kinds) (direct_forward g' t kinds).
Proof. unfold direct_forward. rewrite edges_agree. by apply known_nodes_agree. Qed.
Lemma direct_reverse_agree t kinds : Forall2 agree (direct_reverse g t kinds) (direct_reverse g' t kinds).
Proof. unfold direct_reverse. rewrite edges_agree. by apply known_nodes_agree. Qed.

Lemma boundaries_agree l l' : Forall2 agree l l' → Forall2 agree (filter is_boundary l) (filter is_boundary l').
Proof. apply Forall2_filter. intros a b (_ & Hk & _). unfold is_boundary. by rewrite Hk. Qed.

Lemma target_candidates_agree q t p p' :
  agree p p' → Forall2 agree (target_candidates q g t p) (target_candidates q g' t p').
Proof.
  intros Hp. destruct q as [? []|?|?|? []|? []|?|?|?|?|?|?|?|?|?|?|?|?|?|?|?|?|?|?|?]; cbn [target_candidates];
    repeat lazymatch goal with
    | |- Forall2 _ (with_target _ _) (with_target _ _) => apply with_target_agree; [done|]
    | |- Forall2 _ (merged _) (merged _) => apply merged_agree
    | |- Forall2 _ (filter is_boundary _) (filter is_boundary _) => apply boundaries_agree
    | |- Forall2 _ (_ ++ _) (_ ++ _) => apply Forall2_app
    | |- Forall2 _ (_ :: _) (_ :: _) => constructor; [done|]
    | |- Forall2 _ [] [] => constructor
    | |- Forall2 _ (bfs_forward _ _) _ => apply bfs_forward_agree
    | |- Forall2 _ (bfs_filtered _ _ _) _ => apply bfs_filtered_agree
    | |- Forall2 _ (reverse_bfs _ _ _) _ => apply reverse_bfs_agree
    | |- Forall2 _ (direct_forward _ _ _) _ => apply direct_forward_agree
    | |- Forall2 _ (direct_reverse _ _ _) _ => apply direct_reverse_agree
    end.
  - rewrite <- (agree_ids _ _ (bfs_filtered_agree t [EkCalls; EkDependsOn])). set (inner := list_to_set _).
    apply Forall2_filter; [|apply bfs_filtered_agree]. intros a b [Hid _]. rewrite edges_agree.
    assert (external_caller g inner t a = external_caller g' inner t b) as Hx; [|by rewrite Hx].
    unfold external_caller. by rewrite Hid.
  - pose proof (node_map_agree g g' destination Hg) as Hd. destruct Hd; cbn; [constructor; [done|constructor]|constructor].
Qed.

(** The selection fails alike, or gives lists that agree. *)
Lemma collect_agree q snapshot all :
  match collect_candidates_with_history q g snapshot all, collect_candidates_with_history q g' snapshot all with
  | Ok (cs, h), Ok (cs', h') => Forall2 agree cs cs' ∧ h = h'
  | Err e, Err e' => e = e'
  | _, _ => False
  end.
Proof.
  unfold collect_candidates_with_history. destruct (query_target q) as [t|].
  - pose proof (node_map_agree g g' t Hg) as Ht. destruct Ht as [p p' Hp|]; [|done]. split; [|done].
    by apply target_candidates_agree.
  - split; [|done]. apply Forall2_sort_on; [by intros a b [? _]|]. by destruct Hg.
Qed.
End Selected.

(** Canonicalisation *)
Section Encoded.
Context `{ContextCodec}.
Hypothesis Htotal : ∀ n, ∃ bytes, encode_node n = Ok bytes.

Lemma key_nodes_agree k l l' :
  Forall2 agree l l' → ∃ ks ks', key_nodes k l = Ok ks ∧ key_nodes k l' = Ok ks' ∧
    filter (λ x, node_id x.2 ∉ R) ks = filter (λ x, node_id x.2 ∉ R) ks'.
Proof.
  intros Hl. revert k. induction Hl as [|x y l l' Hxy Hl IH]; intros k; cbn [key_nodes]; [by exists [], []|].
  destruct (IH (k + 1)%N) as (ks & ks' & -> & -> & Hf). destruct (Htotal x) as [b Hb], (Htotal y) as [b' Hb'].
  unfold codec. rewrite Hb, Hb'. eexists _, _. split; [done|]. split; [done|]. destruct Hxy as (Hid & _ & He).
  rewrite !filter_cons. cbn [snd]. rewrite <- Hid. destruct (decide (node_id x ∈ R)) as [Hr|Hr].
  - by rewrite !decide_False by tauto.
  - rewrite !decide_True by done. specialize (He Hr) as ->. rewrite Hb in Hb'. injection Hb' as ->. by rewrite Hf.
Qed.

Lemma filter_snd {K} (l : list (K * GraphNode)) :
  filter (λ n, node_id n ∉ R) (snd <$> l) = snd <$> filter (λ x, node_id x.2 ∉ R) l.
Proof. induction l as [|x l IH]; [done|]. cbn [fmap list_fmap]. rewrite !filter_cons. case_decide; cbn; by rewrite IH. Qed.

Lemma sorted_refs l l' :
  StronglySorted (on_le node_id) l → StronglySorted (on_le node_id) l' → (node_id <$> l) ≡ₚ (node_id <$> l') →
  node_id <$> l = node_id <$> l'.
Proof.
  assert (∀ l, StronglySorted (on_le node_id) l → StronglySorted (on_le id) (node_id <$> l)) as Hs.
  { induction 1 as [|x k Hk IH Hall]; [constructor|]. cbn [fmap list_fmap]. constructor; [done|]. by apply Forall_fmap. }
  intros Hl Hl' Hp. apply (sorted_on_unique id); auto.
Qed.

Lemma canonicalize_agree l l' :
  Forall2 agree l l' → ∃ m m' issues, canonicalize_bundle_nodes l = Ok (m, issues) ∧
    canonicalize_bundle_nodes l' = Ok (m', issues) ∧ filter_redacted m R = filter_redacted m' R.
Proof.
  intros Hl. destruct (key_nodes_agree 0 l l' Hl) as (ks & ks' & Hk & Hk' & Hf). pose proof (agree_ids _ _ Hl) as Hids.
  assert (∃ m issues, canonicalize_bundle_nodes l = Ok (m, issues) ∧ m = snd <$> sort_on fst ks ∧
    issues = unstable_issues (node_id <$> l) ++ omap count_issue (map_iter (ref_counts (node_id <$> l)))) as
    (m & issues & Hm & Em & Ei) by (unfold canonicalize_bundle_nodes; rewrite Hk; eauto).
  assert (canonicalize_bundle_nodes l' = Ok (snd <$> sort_on fst ks', issues)) as Hm'
    by (unfold canonicalize_bundle_nodes; by rewrite Hk', Ei, Hids).
  exists m, (snd <$> sort_on fst ks'), issues. split; [done|]. split; [done|].
  apply canonicalize_perm in Hm as [Hp Hs], Hm' as [Hp' Hs']. apply filter_from_agree.
  - apply sorted_refs; [done..|]. by rewrite Hp, Hp', Hids.
  - subst m. by rewrite !filter_snd, !filter_sort_on, Hf.
Qed.

Lemma refactor_agree q l g g' : graph_edges g' = graph_edges g → refactor_of q l g' = refactor_of q l g.
Proof.
  intros He. assert (∀ t, compute_refactor_info l t g' = compute_refactor_info l t g) as Hc.
  { intros t. unfold compute_refactor_info, has_edge. by rewrite He. }
  destruct q; cbn [refactor_of]; by rewrite ?Hc.
Qed.
End Encoded.
End Secrets.

(** C13: Withheld contents do not show.  Two graphs with the same edges whose nodes have the same references and kinds, and
    that differ at most in the contents of withheld nodes, give the same response to every query: the same slice,
    summary, hashes, byte counts, truncation, diagnostics and errors. *)
Theorem redaction_noninterference `{ContextCodec, HashBackend} q g g' snapshot R opts :
  (∀ n, ∃ bytes, encode_node n = Ok bytes) → graphs_agree R g g' →
  build_full q g snapshot R opts = build_full q g' snapshot R opts.
Proof.
  intros Ht Hg. unfold build_full. case_decide; [done|]. destruct (access_denied q R opts); [done|].
  destruct (codec (encode_query q)); [|done].
  pose proof (collect_agree R g g' Hg q snapshot (bo_all_snapshots opts)) as Hc.
  destruct (collect_candidates_with_history q g snapshot _) as [[cs h]|e],
    (collect_candidates_with_history q g' snapshot _) as [[cs' h']|e']; try done; [|by rewrite Hc].
  destruct Hc as [Hcs <-]. cbn [fst snd].
  destruct (canonicalize_agree R Ht cs cs' Hcs) as (m & m' & issues & -> & -> & Hf). cbn [fst snd]. rewrite <- Hf.
  assert (diagnose_graph_manifest g' = diagnose_graph_manifest g) as ->.
  { unfold diagnose_graph_manifest. destruct Hg as [-> Hn]. by rewrite (agree_ids R _ _ Hn). }
  destruct (apply_budget _ _); [|done]. destruct (codec (encode_nodes _)); [|done].
  by rewrite (refactor_agree q _ g g' (edges_agree R g g' Hg)).
Qed.

(* ------------------------------------------------------------------ *)
(** ** Samples *)

Module BuilderSample.

Definition node_bytes (n : GraphNode) : list N := string_bytes (node_name n) ++ string_bytes (default "" (node_body_expr n)).
#[export] Instance sample_codec : ContextCodec := {|
  encode_query := λ _, Ok [];
  encode_node := λ n, Ok (node_bytes n);
  encode_nodes := λ ns, Ok (ns ≫= node_bytes);
  encode_graph := λ g, Ok (graph_nodes g ≫= node_bytes);
|}.
#[export] Instance sample_hash : HashBackend := {| blake3 := λ bs, bs; cbor_node := node_bytes; cbor_op := λ _, [] |}.

Definition node (id : NodeRef) (name : string) (body : option string) : GraphNode :=
  set_body_expr body (graph_node_new id NkFunction name).
Definition graph (secret : string) : SemanticGraph :=
  MkSemanticGraph [node 0%N "main" None; node 1%N "key" (Some secret); node 2%N "log" None]
    [graph_edge_new 0%N 1%N EkCalls; graph_edge_new 0%N 2%N EkCalls].
Definition query (bytes : N) : ContextQuery := QNode 0%N ScopeFull (query_budget_bytes bytes).
Definition outcome (bytes : N) (secret : string) : result SliceResponse ContextError :=
  build_full (query bytes) (graph secret) SelectionSample.snapshot {[ 1%N ]} build_options_default.

(** Names of the slice, bytes used, truncation, withheld references *)
Definition view (r : result SliceResponse ContextError) :=
  match r with
  | Ok r => Some (node_name <$> cr_structured r, rl_bytes_used (cr_limits r), cr_truncated r,
                  rd_node_ref <$> cr_redacted_descriptors r)
  | Err _ => None
  end.

Example whole : view (outcome 7 "s3cret") = Some (["main"; "log"], 7%N, false, [1%N]).
Proof. vm_compute. reflexivity. Qed.
Example cut : view (outcome 6 "s3cret") = Some (["main"], 4%N, true, [1%N]).
Proof. vm_compute. reflexivity. Qed.

(** Six bytes, no other bound *)
Definition six_bytes : ContextQuery := QNode 0%N ScopeFull (MkQueryBudget None None 6 true true false None).

Lemma slice_exact_witness :
  match build_full six_bytes (graph "s3cret") SelectionSample.snapshot {[ 1%N ]} build_options_default with
  | Ok r => node_name <$> cr_structured r = ["main"] ∧ cr_truncated r = true ∧
            (rl_bytes_used (cr_limits r) ≤ 6)%N ∧ ∀ x, x ∈ response_refs r → x ∉ ({[ 1%N ]} : gset NodeRef)
  | Err _ => False
  end.
Proof.
  destruct (build_full six_bytes (graph "s3cret") SelectionSample.snapshot {[ 1%N ]} build_options_default) as [r|e] eqn:E;
    [|vm_compute in E; discriminate].
  destruct (slice_exact six_bytes (graph "s3cret") SelectionSample.snapshot {[ 1%N ]} build_options_default r
    (conj eq_refl (conj eq_refl (conj eq_refl eq_refl))) E) as (_ & _ & _ & _ & _ & _ & _ & Hle & _ & _ & _ & _ & H).
  assert (view (Ok r) = Some (["main"], 4%N, true, [1%N])) as Hv by (rewrite <- E; vm_compute; reflexivity).
  split_and!; [| |exact Hle|exact H]; injection Hv; congruence.
Defined.

Lemma redaction_noninterference_witness : outcome 7 "s3cret" = outcome 7 "other".
Proof.
  apply (redaction_noninterference (query 7) (graph "s3cret") (graph "other") SelectionSample.snapshot {[ 1%N ]}
    build_options_default).
  - intros n. exists (node_bytes n). reflexivity.
  - split; [reflexivity|]. repeat constructor. intros Hn. exfalso. apply Hn. cbn. by apply elem_of_singleton.
Defined.
End BuilderSample.
