(* ===== verification/ContextServer.v ===== *)
(** * Context sources and the context server

    ail-context/src/source.rs and server.rs: the sources behind the interface
    [ContextSource], the sessions, the redaction rules, the index cache and the
    request handlers.  The lifetime of a request is one step: the futures of a
    source are its results.  The cache file is a value threaded through the
    calls, absent, readable or not; other file errors are not modelled. *)

From stdpp Require Import pretty gmap.
From S2P Require Import Prelude Text Trim Ordering GraphTypes SemanticGraph ChangeModel Remote Storage Search ContextTypes ContextSelection ContextBuilder.

#[local] Existing Instance NodeRef_eq_dec | 0.

(* ------------------------------------------------------------------ *)
(** ** source.rs *)

Class ContextSource (S : Type) : Type := {
  resolve_snapshot : S → SnapshotSelector → result SnapshotEnvelope ContextError;
  load_graph : S → ObjectId → result SemanticGraph ContextError;
}.

(** [max_by] on creation time and identifier: of equal elements the last one *)
Definition recency (s : SnapshotEnvelope) : N * list N := (se_created_at s, se_id s).

Definition later (a b : SnapshotEnvelope) : SnapshotEnvelope :=
  match cmp (recency a) (recency b) with Gt => a | _ => b end.

Definition most_recent (l : list SnapshotEnvelope) : option SnapshotEnvelope :=
  match l with
  | [] => None
  | s :: l' => Some (foldl later s l')
  end.

Definition or_stale {A} (o : option A) : result A ContextError :=
  match o with
  | Some a => Ok a
  | None => Err CtxStale
  end.

Record InMemoryContextSource : Type := MkInMemoryContextSource {
  im_snapshots : gmap ObjectId SnapshotEnvelope;
  im_graphs : gmap ObjectId SemanticGraph;
}.

Definition in_memory_new : InMemoryContextSource := MkInMemoryContextSource ∅ ∅.
Definition insert_snapshot (s : SnapshotEnvelope) (m : InMemoryContextSource) : InMemoryContextSource :=
  MkInMemoryContextSource (<[se_id s := s]> (im_snapshots m)) (im_graphs m).
Definition insert_graph (hash : ObjectId) (g : SemanticGraph) (m : InMemoryContextSource) : InMemoryContextSource :=
  MkInMemoryContextSource (im_snapshots m) (<[hash := g]> (im_graphs m)).

#[export] Instance in_memory_source `{HashOrder} : ContextSource InMemoryContextSource := {|
  resolve_snapshot m selector :=
    match selector with
    | ById id => or_stale (im_snapshots m !! id)
    | Latest => or_stale (most_recent (snd <$> hash_iter (im_snapshots m)))
    end;
  load_graph m hash := or_stale (im_graphs m !! hash);
|}.

(** [StoreContextSource]: a graph store beside an object store; [error_text] is [StorageError::to_string]. *)
Record StoreContextSource (S O : Type) : Type := MkStoreContextSource {
  sc_graph_store : ObjectBackedGraphStore S;
  sc_object_store : O;
}.
Arguments MkStoreContextSource {S O}.
Arguments sc_graph_store {S O}.
Arguments sc_object_store {S O}.

Section StoreSource.
Context `{HashBackend, StorageCodec, HashOrder} {S O : Type} `{ObjectStore S, ObjectStore O}.
Context (error_text : StorageError → string) (decode_graph : list N → result SemanticGraph string).

Definition stored {A} (r : result A StorageError) : result A ContextError :=
  match r with
  | Ok a => Ok a
  | Err e => Err (CtxCodec (error_text e))
  end.

Definition store_source : ContextSource (StoreContextSource S O) := {|
  resolve_snapshot m selector :=
    match selector with
    | ById id => let? snap := stored (load_snapshot id (sc_graph_store m)) in or_stale snap
    | Latest => let? snapshots := stored (list_snapshots (sc_graph_store m)) in or_stale (most_recent snapshots)
    end;
  load_graph m hash :=
    let? raw := stored (get hash (sc_object_store m)) in
    let? bytes := or_stale raw in
    codec (decode_graph bytes);
|}.
End StoreSource.

(* ------------------------------------------------------------------ *)
(** ** server.rs: sessions and rules *)

Inductive SessionTrust : Type := TrPublic | TrInternal | TrPrivileged.

Definition trust_rank (t : SessionTrust) : N := match t with TrPublic => 0 | TrInternal => 1 | TrPrivileged => 2 end.

Record AuthSession : Type := MkAuthSession {
  au_principal : string;
  au_trust_level : SessionTrust;
}.

Record FieldRedactionRule : Type := MkFieldRedactionRule {
  fr_field : string;
  fr_min_trust : SessionTrust;
  fr_category : string;
}.

Record ContextServerConfig : Type := MkContextServerConfig {
  cs_require_auth : bool;
  cs_tokens : gmap string AuthSession;
  cs_redaction_rules : list FieldRedactionRule;
}.

Definition session_trust (session : option AuthSession) : SessionTrust := from_option au_trust_level TrPublic session.

Definition node_has_field (n : GraphNode) (field : string) : bool :=
  if decide (field = "body_expr") then bool_decide (is_Some (node_body_expr n))
  else if decide (field = "capability_reqs") then bool_decide (is_Some (node_capability_reqs n))
  else if decide (field = "contract_clauses") then bool_decide (is_Some (node_contract_clauses n))
  else if decide (field = "effect_row") then bool_decide (is_Some (node_effect_row n))
  else if decide (field = "runtime_checks") then negb (bool_decide (default [] (node_runtime_checks n) = []))
  else if decide (field = "trust_metadata") then bool_decide (is_Some (node_trust_metadata n))
  else false.

Definition rule_applies (session : option AuthSession) (rule : FieldRedactionRule) : bool :=
  (trust_rank (session_trust session) <? trust_rank (fr_min_trust rule))%N.

Definition redacted_refs_for_session (nodes : list GraphNode) (config : ContextServerConfig)
    (session : option AuthSession) : gset NodeRef :=
  list_to_set (node_id <$> filter (λ n,
    existsb (λ rule, rule_applies session rule && node_has_field n (fr_field rule)) (cs_redaction_rules config) = true) nodes).

Definition redaction_policy_for_session (config : ContextServerConfig) (session : option AuthSession)
  : option RedactionPolicy :=
  match set_iter (list_to_set (fr_category <$> filter (λ r, rule_applies session r = true) (cs_redaction_rules config))
                  : gset string) with
  | [] => None
  | categories =>
      Some (MkRedactionPolicy "session-field-redaction" categories
              (trust_rank (session_trust session) <? trust_rank TrPrivileged)%N)
  end.

(* ------------------------------------------------------------------ *)
(** ** server.rs: derived indexes *)

Record DerivedIndexes : Type := MkDerivedIndexes {
  di_snapshot_id : ObjectId;
  di_snapshot_hash : ObjectId;
  di_indexes : list IndexInfo;
}.

Definition INDEX_KINDS : list string :=
  ["call_graph"; "effect_graph"; "proof_obligation"; "resource_graph"; "boundary_graph"; "runtime_audit"].

(** The cache file: absent, decoded, or not decodable *)
Definition CacheFile : Type := option (result DerivedIndexes string).

Section Server.
Context `{ContextCodec, HashBackend}.

Definition index_hash (kind : string) (snapshot : SnapshotEnvelope) (g : SemanticGraph) : list N :=
  blake3 (string_bytes kind ++ se_id snapshot ++ se_graph_root_hash snapshot
          ++ match encode_graph g with Ok bytes => bytes | Err _ => [] end).

Definition build_indexes (snapshot : SnapshotEnvelope) (g : SemanticGraph) : DerivedIndexes :=
  MkDerivedIndexes (se_id snapshot) (se_graph_root_hash snapshot)
    ((λ kind, MkIndexInfo kind (index_hash kind snapshot g) false) <$> INDEX_KINDS).

Definition load_fresh (file : CacheFile) (snapshot : SnapshotEnvelope) : result (option DerivedIndexes) ContextError :=
  match file with
  | None => Ok None
  | Some r =>
      let? cached := codec r in
      Ok (if decide (di_snapshot_id cached = se_id snapshot ∧ di_snapshot_hash cached = se_graph_root_hash snapshot)
          then Some cached else None)
  end.

Definition rebuild (snapshot : SnapshotEnvelope) (g : SemanticGraph) : DerivedIndexes * CacheFile :=
  let indexes := build_indexes snapshot g in (indexes, Some (Ok indexes)).

Definition load_or_rebuild (file : CacheFile) (snapshot : SnapshotEnvelope) (g : SemanticGraph)
  : result (DerivedIndexes * CacheFile) ContextError :=
  let? fresh := load_fresh file snapshot in
  Ok (match fresh with
      | Some indexes => (indexes, file)
      | None => rebuild snapshot g
      end).

(* ------------------------------------------------------------------ *)
(** ** server.rs: requests *)

Context {S : Type} `{ContextSource S}.

(** [index_cache] is the cache file, where the server has one. *)
Record ContextServer : Type := MkContextServer {
  sv_source : S;
  sv_config : ContextServerConfig;
  sv_index_cache : option CacheFile;
}.

Definition set_cache (file : CacheFile) (sv : ContextServer) : ContextServer :=
  MkContextServer (sv_source sv) (sv_config sv) (Some file).

Definition server_new (source : S) : ContextServer := MkContextServer source (MkContextServerConfig false ∅ []) None.
Definition with_config (config : ContextServerConfig) (sv : ContextServer) : ContextServer :=
  MkContextServer (sv_source sv) config (sv_index_cache sv).

(** The indexes of a query, and the server with the cache it leaves *)
Definition server_indexes (sv : ContextServer) (snapshot : SnapshotEnvelope) (g : SemanticGraph)
  : result (list IndexInfo * ContextServer) ContextError :=
  match sv_index_cache sv with
  | Some file => let? r := load_or_rebuild file snapshot g in Ok (di_indexes r.1, set_cache r.2 sv)
  | None => Ok (di_indexes (build_indexes snapshot g), sv)
  end.

Definition query_options (sv : ContextServer) (session : option AuthSession) (indexes : list IndexInfo) : BuildOptions :=
  let latest := resolve_snapshot (sv_source sv) Latest in
  MkBuildOptions []
    (match latest with Ok s => Some (se_id s) | Err _ => None end)
    (match latest with Ok _ => None | Err _ => Some FsUnknown end)
    (redaction_policy_for_session (sv_config sv) session)
    (trust_rank TrPrivileged <=? trust_rank (session_trust session))%N 0
    ["semantic_graph"; "derived_indexes"] indexes.

(** [ContextServer::query]: the response, and the server after it *)
Definition server_query (sv : ContextServer) (q : ContextQuery) (selector : SnapshotSelector)
    (session : option AuthSession) : result SliceResponse ContextError * ContextServer :=
  if cs_require_auth (sv_config sv) && bool_decide (session = None) then (Err CtxAccessDenied, sv)
  else
    match resolve_snapshot (sv_source sv) selector with
    | Err e => (Err e, sv)
    | Ok snapshot =>
        match load_graph (sv_source sv) (se_graph_root_hash snapshot) with
        | Err e => (Err e, sv)
        | Ok g =>
            match server_indexes sv snapshot g with
            | Err e => (Err e, sv)
            | Ok (indexes, sv') =>
                (build_full q g snapshot (redacted_refs_for_session (graph_nodes g) (sv_config sv) session)
                   (query_options sv session indexes), sv')
            end
        end
    end.

Definition authenticate (sv : ContextServer) (token : string) : result AuthSession ContextError :=
  match cs_tokens (sv_config sv) !! token with
  | Some s => Ok s
  | None => Err CtxAccessDenied
  end.

Inductive ContextRequest : Type :=
| RqQuery (query : ContextQuery) (snapshot : SnapshotSelector) (session : option AuthSession)
| RqSubscribe (query : ContextQuery) (snapshot : SnapshotSelector) (session : option AuthSession)
| RqAuth (token : string).

Inductive ServerResponse : Type :=
| RsResult (response : SliceResponse)
| RsError (message : string)
| RsStream (responses : list SliceResponse)
| RsAuthenticated (session : AuthSession).

Definition handle (sv : ContextServer) (request : ContextRequest) : ServerResponse * ContextServer :=
  match request with
  | RqAuth token =>
      (match authenticate sv token with
       | Ok session => RsAuthenticated session
       | Err e => RsError (context_error_text e)
       end, sv)
  | RqQuery q selector session =>
      let '(r, sv') := server_query sv q selector session in
      (match r with Ok response => RsResult response | Err e => RsError (context_error_text e) end, sv')
  | RqSubscribe q selector session =>
      let '(r, sv') := server_query sv q selector session in
      (match r with Ok response => RsStream [response] | Err e => RsError (context_error_text e) end, sv')
  end.

Definition expected_rpc_method (request : ContextRequest) : string :=
  match request with
  | RqQuery _ _ _ => "context.query"
  | RqSubscribe _ _ _ => "context.subscribe"
  | RqAuth _ => "context.auth"
  end.

Record ContextRpcRequest : Type := MkContextRpcRequest {
  rq_jsonrpc : string;
  rq_id : string;
  rq_method : string;
  rq_params : ContextRequest;
}.

Record ContextRpcResponse : Type := MkContextRpcResponse {
  rs_jsonrpc : string;
  rs_id : string;
  rs_result : option ServerResponse;
  rs_error : option (Z * string);
}.

Definition rpc_result (id : string) (r : ServerResponse) : ContextRpcResponse := MkContextRpcResponse "2.0" id (Some r) None.
Definition rpc_error (id : string) (code : Z) (message : string) : ContextRpcResponse :=
  MkContextRpcResponse "2.0" id None (Some (code, message)).
Definition parse_error (message : string) : ContextRpcResponse := rpc_error "" (-32700) message.

Definition handle_rpc (sv : ContextServer) (request : ContextRpcRequest) : ContextRpcResponse * ContextServer :=
  if decide (rq_method request ∈ ["context.query"; "context.subscribe"; "context.auth"]) then
    if decide (rq_method request = expected_rpc_method (rq_params request)) then
      let '(r, sv') := handle sv (rq_params request) in (rpc_result (rq_id request) r, sv')
    else (rpc_error (rq_id request) (-32602) ("method " +:+ (rq_method request +:+ " does not match request payload")), sv)
  else (rpc_error (rq_id request) (-32601) ("method not found: " +:+ rq_method request), sv).

Definition rebuild_indexes (sv : ContextServer) (selector : SnapshotSelector)
  : result (DerivedIndexes * ContextServer) ContextError :=
  let? snapshot := resolve_snapshot (sv_source sv) selector in
  let? g := load_graph (sv_source sv) (se_graph_root_hash snapshot) in
  Ok (match sv_index_cache sv with
      | Some _ => let '(indexes, file) := rebuild snapshot g in (indexes, set_cache file sv)
      | None => (build_indexes snapshot g, sv)
      end).

(* ------------------------------------------------------------------ *)
(** ** transport.rs: one response per line that is not blank *)

Context (from_json : string → result ContextRpcRequest string).

Definition handle_line (sv : ContextServer) (line : string) : ContextRpcResponse * ContextServer :=
  match from_json line with
  | Ok request => handle_rpc sv request
  | Err e => (parse_error e, sv)
  end.

Fixpoint serve (sv : ContextServer) (lines : list string) : list ContextRpcResponse * ContextServer :=
  match lines with
  | [] => ([], sv)
  | line :: rest =>
      if decide (trim line = "") then serve sv rest
      else
        let '(response, sv') := handle_line sv (trim line) in
        let '(responses, sv'') := serve sv' rest in
        (response :: responses, sv'')
  end.
End Server.

(* ------------------------------------------------------------------ *)
(** ** The most recent snapshot *)

Lemma later_spec a b : (later a b = a ∨ later a b = b) ∧ cmp_le (recency a) (recency (later a b)) ∧ cmp_le (recency b) (recency (later a b)).
Proof.
  unfold later. destruct (cmp (recency a) (recency b)) eqn:E.
  - split_and!; [by right| |apply cmp_le_refl]. unfold cmp_le. by rewrite E.
  - split_and!; [by right| |apply cmp_le_refl]. unfold cmp_le. by rewrite E.
  - split_and!; [by left|apply cmp_le_refl|]. destruct (decide (cmp_le (recency b) (recency a))) as [|Hn]; [done|].
    apply cmp_nle in Hn. unfold cmp_lt in Hn. congruence.
Qed.

(** The latest snapshot is one of the stored ones, and none is later. *)
Lemma most_recent_max l s :
  most_recent l = Some s → s ∈ l ∧ ∀ x, x ∈ l → cmp_le (recency x) (recency s).
Proof.
  destruct l as [|a l]; [done|]. cbn [most_recent]. intros [= <-]. revert a. induction l as [|b l IH]; intros a; cbn [foldl].
  { split; [by left|]. intros x ->%list_elem_of_singleton. apply cmp_le_refl. }
  destruct (IH (later a b)) as [Hin Hmax], (later_spec a b) as (Hab & Ha & Hb).
  assert (cmp_le (recency (later a b)) (recency (foldl later (later a b) l))) as Hl by (apply Hmax; by left).
  split.
  - apply elem_of_cons in Hin as [->|Hin]; [|by do 2 right]. destruct Hab as [->| ->]; [by left|by right; left].
  - intros x [->|[->|Hx]%elem_of_cons]%elem_of_cons; [by etrans|by etrans|]. apply Hmax. by right.
Qed.

Lemma most_recent_none l : most_recent l = None ↔ l = [].
Proof. by destruct l. Qed.

(* ------------------------------------------------------------------ *)
(** ** What a session sees *)

Lemma redacted_refs_elem nodes config session x :
  x ∈ redacted_refs_for_session nodes config session ↔
  ∃ n rule, n ∈ nodes ∧ node_id n = x ∧ rule ∈ cs_redaction_rules config ∧ rule_applies session rule = true ∧
    node_has_field n (fr_field rule) = true.
Proof.
  unfold redacted_refs_for_session. rewrite elem_of_list_to_set, list_elem_of_fmap.
  setoid_rewrite list_elem_of_filter. setoid_rewrite existsb_exists. setoid_rewrite andb_true_iff.
  setoid_rewrite <- list_elem_of_In. split.
  - intros (n & -> & (rule & Hr & ? & ?) & Hn). by exists n, rule.
  - intros (n & rule & Hn & <- & Hr & Ha & Hf). exists n. split; [done|]. split; [|done]. by exists rule.
Qed.

Section ServerFacts.
Context `{ContextCodec, HashBackend} {S : Type} `{ContextSource S}.

(** The steps of an answered query *)
Lemma server_query_steps (sv sv' : ContextServer (S := S)) q selector session r :
  server_query sv q selector session = (Ok r, sv') →
  (cs_require_auth (sv_config sv) = true → session ≠ None) ∧
  ∃ snapshot g indexes, resolve_snapshot (sv_source sv) selector = Ok snapshot ∧
    load_graph (sv_source sv) (se_graph_root_hash snapshot) = Ok g ∧
    server_indexes sv snapshot g = Ok (indexes, sv') ∧
    build_full q g snapshot (redacted_refs_for_session (graph_nodes g) (sv_config sv) session)
      (query_options sv session indexes) = Ok r.
Proof.
  unfold server_query. destruct (_ && _) eqn:Ea; [done|].
  destruct (resolve_snapshot (sv_source sv) selector) as [snapshot|] eqn:Es; [|done].
  destruct (load_graph (sv_source sv) _) as [g|] eqn:Eg; [|done].
  destruct (server_indexes sv snapshot g) as [[indexes sv2]|] eqn:Ei; [|done]. intros [= Hb <-]. split.
  - intros Hr ->. rewrite Hr in Ea. by rewrite bool_decide_eq_true_2 in Ea.
  - by exists snapshot, g, indexes.
Qed.

Lemma collected_in_graph q g snapshot all cs h n :
  collect_candidates_with_history q g snapshot all = Ok (cs, h) → n ∈ cs → n ∈ graph_nodes g.
Proof.
  unfold collect_candidates_with_history. destruct (query_target q) as [t|] eqn:Hq.
  - destruct (node_map_of g !! t) as [p|] eqn:Hp; [|done]. intros [= <- <-].
    rewrite (candidates_elem g t p Hp q n Hq). intros [Hk _]. by apply known_in_graph.
  - intros [= <- <-]. by rewrite sort_on_elem.
Qed.

Lemma slice_visible q g snapshot R opts r n :
  build_full q g snapshot R opts = Ok r → n ∈ cr_structured r → n ∈ graph_nodes g ∧ node_id n ∉ R.
Proof.
  intros (_ & _ & cs & h & l & issues & b & Hc & Hl & Hb & Hs & _)%build_full_steps. rewrite Hs. intros Hn.
  apply apply_budget_greedy in Hb as (rest & Hu & _). unfold filter_redacted in Hu. rewrite filter_from_unredacted in Hu.
  assert (n ∈ filter (λ n, node_id n ∉ R) l) as [Hv Hin]%list_elem_of_filter by (rewrite Hu, elem_of_app; by left).
  split; [|done]. apply canonicalize_perm in Hl as [Hp _]. rewrite Hp in Hin. by eapply collected_in_graph.
Qed.

Definition set_tokens (tokens : gmap string AuthSession) (sv : ContextServer (S := S)) : ContextServer :=
  MkContextServer (sv_source sv)
    (MkContextServerConfig (cs_require_auth (sv_config sv)) tokens (cs_redaction_rules (sv_config sv))) (sv_index_cache sv).

(** The trust level of the session is below the one the rule asks for. *)
Definition withheld_from (session : option AuthSession) (rule : FieldRedactionRule) : Prop :=
  (trust_rank (session_trust session) < trust_rank (fr_min_trust rule))%N.

(** C16: What a session sees.  Where the server asks for a session, an answer is given to a session only; the nodes of the
    answer come from the graph of the selected snapshot and none has a field that a rule withholds from the trust level
    of the session; a session below [Privileged] gets no answer about a node that is withheld from it.  The session of a
    request is taken as it comes: the answer is the same whatever tokens are configured. *)
Theorem session_sees (sv sv' : ContextServer (S := S)) q selector session r :
  server_query sv q selector session = (Ok r, sv') →
  (cs_require_auth (sv_config sv) = true → session ≠ None) ∧
  (∃ snapshot g, resolve_snapshot (sv_source sv) selector = Ok snapshot ∧
     load_graph (sv_source sv) (se_graph_root_hash snapshot) = Ok g ∧
     (∀ n, n ∈ cr_structured r → n ∈ graph_nodes g) ∧
     (session_trust session ≠ TrPrivileged → ∀ n rule, n ∈ graph_nodes g → query_target q = Some (node_id n) →
        rule ∈ cs_redaction_rules (sv_config sv) → withheld_from session rule →
        node_has_field n (fr_field rule) = false)) ∧
  (∀ n rule, n ∈ cr_structured r → rule ∈ cs_redaction_rules (sv_config sv) → withheld_from session rule →
     node_has_field n (fr_field rule) = false) ∧
  (∀ tokens, (server_query (set_tokens tokens sv) q selector session).1 = Ok r).
Proof.
  intros Hq. pose proof Hq as (Hauth & snapshot & g & indexes & Hs & Hg & Hi & Hb)%server_query_steps.
  assert (∀ n rule, n ∈ graph_nodes g → rule ∈ cs_redaction_rules (sv_config sv) → withheld_from session rule →
    node_id n ∉ redacted_refs_for_session (graph_nodes g) (sv_config sv) session → node_has_field n (fr_field rule) = false) as Hf.
  { intros n rule Hn Hr Ha Hnr. apply not_true_is_false. intros Hfield. apply Hnr, redacted_refs_elem. exists n, rule.
    unfold withheld_from in Ha. by rewrite <- N.ltb_lt in Ha. }
  split_and!; [done| | |].
  - exists snapshot, g. split_and!; [done..| |].
    + intros n Hn. by apply (slice_visible _ _ _ _ _ _ _ Hb).
    + intros Ht n rule Hn Htarget Hr Ha. apply Hf; [done..|]. intros Hin.
      destruct (build_full_steps _ _ _ _ _ _ Hb) as (_ & Hd & _). unfold access_denied, query_options in Hd. cbn in Hd.
      rewrite Htarget, bool_decide_eq_true_2, andb_true_r in Hd by done.
      destruct (session_trust session); cbn in Hd; done.
  - intros n rule Hn Hr Ha. destruct (slice_visible _ _ _ _ _ _ _ Hb Hn). by apply Hf.
  - intros tokens. unfold server_query in *. cbn [set_tokens sv_config sv_source cs_require_auth].
    destruct (_ && _); [done|]. rewrite Hs, Hg in *. unfold server_indexes in *. cbn [set_tokens sv_index_cache].
    destruct (sv_index_cache sv) as [file|].
    + destruct (load_or_rebuild file snapshot g) as [[ix f]|]; [|done]. by injection Hq.
    + by injection Hq.
Qed.

(* ------------------------------------------------------------------ *)
(** ** The index cache is transparent *)

(** What the cache holds was built for a snapshot of the source. *)
Definition cache_coherent (sv : ContextServer (S := S)) : Prop :=
  ∀ file, sv_index_cache sv = Some file → file = None ∨ ∃ snapshot g,
    load_graph (sv_source sv) (se_graph_root_hash snapshot) = Ok g ∧ file = Some (Ok (build_indexes snapshot g)).

Definition without_cache (sv : ContextServer (S := S)) : ContextServer :=
  MkContextServer (sv_source sv) (sv_config sv) None.

Lemma server_indexes_coherent sv snapshot g :
  cache_coherent sv → load_graph (sv_source sv) (se_graph_root_hash snapshot) = Ok g →
  ∃ sv', server_indexes sv snapshot g = Ok (di_indexes (build_indexes snapshot g), sv') ∧ cache_coherent sv' ∧
    sv_source sv' = sv_source sv ∧ sv_config sv' = sv_config sv.
Proof.
  intros Hc Hg. unfold server_indexes. destruct (sv_index_cache sv) as [file|] eqn:Ef; [|by exists sv].
  assert (cache_coherent (set_cache (Some (Ok (build_indexes snapshot g))) sv)) as Hnew.
  { intros f [= <-]. right. by exists snapshot, g. }
  destruct (Hc file Ef) as [->|(s & g' & Hg' & ->)]; unfold load_or_rebuild, load_fresh; [by eexists|]. cbn [codec].
  case_decide as Hd; [|by eexists]. cbn in Hd. destruct Hd as [Hid Hh].
  assert (build_indexes s g' = build_indexes snapshot g) as Heq.
  { assert (g' = g) as -> by (rewrite Hh in Hg'; congruence). unfold build_indexes, index_hash. by rewrite Hid, Hh. }
  rewrite Heq. cbn [fst snd]. eexists. split; [done|]. done.
Qed.

(** With a coherent cache every query is answered as without one, and the cache stays coherent. *)
Theorem cache_transparent (sv : ContextServer (S := S)) q selector session :
  cache_coherent sv →
  (server_query sv q selector session).1 = (server_query (without_cache sv) q selector session).1 ∧
  cache_coherent (server_query sv q selector session).2.
Proof.
  intros Hc. unfold server_query. cbn [without_cache sv_config sv_source].
  destruct (_ && _); [done|]. destruct (resolve_snapshot (sv_source sv) selector) as [snapshot|]; [|done].
  destruct (load_graph (sv_source sv) _) as [g|] eqn:Eg; [|done].
  destruct (server_indexes_coherent sv snapshot g Hc Eg) as (sv' & -> & Hc' & _). by split.
Qed.
End ServerFacts.

(* ------------------------------------------------------------------ *)
(** ** Samples *)

Module ServerSample.
Import BuilderSample.

#[local] Instance sample_order : HashOrder.
Proof. exists (λ V m, map_to_list m). done. Defined.

Definition snapshot : SnapshotEnvelope := MkSnapshotEnvelope [1%N] [2%N] None None 5 None [] [].
Definition source : InMemoryContextSource :=
  insert_snapshot snapshot (insert_graph [2%N] (graph "s3cret") in_memory_new).

(** A session is asked for, no token exists, and bodies are for privileged sessions. *)
Definition config : ContextServerConfig :=
  MkContextServerConfig true ∅ [MkFieldRedactionRule "body_expr" TrPrivileged "secrets"].
Definition server : ContextServer := MkContextServer source config (Some None).

Definition ask (session : option AuthSession) : result SliceResponse ContextError :=
  (server_query server (QNode 0%N ScopeFull (query_budget_bytes 100)) Latest session).1.
Definition bodies (r : result SliceResponse ContextError) : option (list (string * option string)) :=
  match r with
  | Ok r => Some ((λ n, (node_name n, node_body_expr n)) <$> cr_structured r)
  | Err _ => None
  end.

Example no_session : ask None = Err CtxAccessDenied.
Proof. vm_compute. reflexivity. Qed.

Example internal_session :
  bodies (ask (Some (MkAuthSession "ana" TrInternal))) = Some [("main", None); ("log", None)].
Proof. vm_compute. reflexivity. Qed.

(** A request may bring any session: this one was never issued. *)
Example forged_session :
  (∀ token, authenticate server token = Err CtxAccessDenied) ∧
  bodies (ask (Some (MkAuthSession "mallory" TrPrivileged)))
  = Some [("main", None); ("key", Some "s3cret"); ("log", None)].
Proof. split; [|vm_compute; reflexivity]. intros token. unfold authenticate. cbn. by rewrite lookup_empty. Qed.

Lemma session_sees_witness :
  match ask (Some (MkAuthSession "ana" TrInternal)) with
  | Ok r => ∀ n, n ∈ cr_structured r → node_has_field n "body_expr" = false
  | Err _ => False
  end.
Proof.
  unfold ask. destruct (server_query _ _ _ _) as [[r|e] sv'] eqn:E; [|vm_compute in E; discriminate].
  destruct (session_sees _ _ _ _ _ _ E) as (_ & _ & H & _). intros n Hn.
  exact (H n (MkFieldRedactionRule "body_expr" TrPrivileged "secrets") Hn (list_elem_of_here _ _) eq_refl).
Defined.

Lemma cache_transparent_witness :
  (server_query server (QGraph ScopeFull (query_budget_bytes 9)) Latest (Some (MkAuthSession "ana" TrPublic))).1
  = (server_query (without_cache server) (QGraph ScopeFull (query_budget_bytes 9)) Latest
       (Some (MkAuthSession "ana" TrPublic))).1.
Proof.
  apply (cache_transparent server). intros file [= <-]. by left.
Defined.
End ServerSample.
